(* ===== verification/_CoqProject ===== *)
-Q . S2P
Prelude.v
Encoding.v
Streams.v
Search.v
BitSets.v
Screaming.v
ScreamingBuilder.v
Heap.v
HeapQueues.v
RamBudget.v
RamBudgetMachine.v
LinearPack.v
LinearFit.v
NumFormat.v
ValueSketcher.v
NumColumn.v
IntColumn.v
DocColumn.v
VersionRuns.v
VersionRunBuilder.v
VersionSegments.v
VersionLookup.v
SegmentMerge.v
MemPool.v
PoolStream.v
PoolObjects.v
PostingStreams.v
PositionStream.v
Inversion.v
Metered.v
Languages.v
CaseAlternates.v
Automata.v
Determinize.v
LiveStates.v
Utf8.v
ByteDfa.v
ByteDfaQueries.v
ByteDfaCycles.v
Patterns.v
Wildcard.v
RegExp.v
