(* ===== verification/Prelude.v ===== *)
(** * Luxir: a verification of its index formats and in-memory structures

    Luxir is a search engine.  An indexer turns documents into immutable segments, files
    of postings, numeric columns and per-document metadata; a merger rewrites
    segments into larger ones; readers map the files and answer queries with cursors,
    bitsets and priority queues.  This library models the parts of [src/src/luxir] in
    which a wrong bit or an off-by-one is silent: the byte formats with their writers and
    readers, the bitsets, the searches, the queues, the memory budget that admits
    indexing work, the memory pools and the streams that documents are inverted into, the
    request versions of documents from the indexer through the merger to the reader, and the compilers of
    wildcard and regular-expression queries with the automata they make.

    ** Reading the model

    Each C++ class is a Module: its state is a [Record] with the members of the class, an
    operation is a [Definition] or [Fixpoint] of the same name.  A w-bit integer is a [Z];
    where the C++ type wraps, the wrap is written ([u8], [u16], [u32], [u64], [s32],
    [s64]); signed overflow, a failed assertion, a shift by the width and an access
    outside memory are undefined behaviour and make the result [None] (or [Undef]); an
    exception is [Throw] with its message.  Memory is a list of bytes, addresses are offsets
    into it, [l.[i]] is the bounds-checked access.  A theorem that an operation is [Some] or
    [Ret] therefore also says that it stays inside its buffers and overflows
    nothing.  Loops of the code that are not structural have fuel, which the definitions
    themselves supply and which is never an argument of a theorem: 64 doublings and halvings
    for searches on 64-bit lengths ([Search]), the number of words, buckets, blocks or runs
    left for scans, one more than the count for iterators; that the fuel suffices is
    part of the theorems, since running out of it is [None].  Readers of a pool stream have the number of its bytes
    as fuel, five and ten rounds for a varint.  Worklist loops of the automata are [whileS n] and [whileO n], which run at most [2 ^ n] rounds; [n] is
    the number of states plus one, or 20 for the loop that stops at a million steps.  The loop over a block's sampled values has the
    size of the block, and that over the ranks of a sketch's tail its depth.
    Code that pays from a budget is reasoned about with [spends] ([Metered]): one price and one outcome, whatever budget covers the price.

    ** The parts

    - [Prelude] (this file): arrays and slices, machine integers, loads and stores, bit counting,
      increasing lists, the three monads (option, [outcome] for exceptions, [SM] for state and
      exceptions) with the rules [wp] and [may_throw], tactics and the hint databases.
    - [Encoding]: [util/encoding.h], variable-length and zig-zag integers.
    - [Streams]: [store/InputStream.h] (Module [Input]) and [store/OutputStream.h] over RAM
      buffers ([Output], [SegLocation]); all other writers append to such a stream, which
      is then the list of the bytes written.
    - [Search]: [util/BranchlessSearch.h] and the galloping searches of [util/screaming.h].
    - [BitSets]: [OpenBitSet] and [FixedBitSet] of [util/screaming.h].
    - [Screaming], [ScreamingBuilder]: the compressed bitset of [util/screaming.h], its
      reader, iterator and selector, and its builder.
    - [Heap], [HeapQueues]: the priority queues of [util/heap.h].  The standard library's heap
      functions are the class [HeapAlg] with [HeapLaws], implemented by [binary_heap];
      the class [BoundedPQ] is what a top-k collector relies on.
    - [RamBudget], [RamBudgetMachine]: [index/IndexRamBudget.h], the budget object and its
      guards, then all sequences of calls as a machine, and the lock-free admission loop under any
      interleaving of its atomic accesses.
    - [LinearPack], [LinearFit], [NumFormat], [ValueSketcher], [NumColumn], [IntColumn], [DocColumn]: numeric columns,
      bottom up.  Bit packing with the AVX2 kernels ([codec/LinearPack.h], [LinearPack.cpp]), the
      line fit ([codec/LinearFit.h]), block descriptors and plans ([codec/NumColumnFormat.h]), the
      value sketch a writer builds (of the same file: Modules [TailBuffer], [ValueSketcher]; doubles are the standard library's binary64), the
      block codec, column writer, reader and cursor ([codec/NumBlockCodec.h], [NumColumnWriter.h],
      [NumColumn.h]), leaf metadata and zones ([NumColumnFormat.h], [reader/IntColReader.h]),
      documents and their values ([reader/IntColReader.h], [DocsReader.h]).
    - [VersionRuns]: [reader/VersionRuns.h], the file of request versions: validation, cursor,
      iterator.  [VersionRunBuilder]: [index/VersionRunBuilder.h] and the two writers of
      [index/PostingsWriter.h].  [VersionSegments]: writers composed with the reader.
      [VersionLookup]: lookups in a builder that is still growing.
    - [SegmentMerge]: [index/SegmentMerger.h], new document ids and the merge of versions, over the
      live documents of [search/IndexReader.h].
    - [MemPool]: [util/MemPool.h] and [MemPool.cpp], buffers, addresses, allocation and rewinding, over an arbitrary
      memory resource.  [PoolStream]: [index/Stream.h], streams of bytes as chains of slices in a pool.  [PoolObjects]: the class
      [PoolObject] of objects that keep their data in a pool, and any number of them in one pool.
      [PostingStreams]: the streams of [index/DocStream.h] and the norm bytes of [index/NormsWriter.h] as instances; [PositionStream]: the
      postings with positions, as [index/handler/FullTextHandler.h] fills them.  [Inversion]: all kinds in one pool.
    - The automata of [util/automaton], bottom up.  [Metered]: the budget.  [Languages]: transitions, paths and languages.  [CaseAlternates]: [CaseAlternates.cpp],
      over an arbitrary simple case folding.  [Automata]: [Automaton.h] and [Automaton.cpp], the range automaton and its combinators.
      [Determinize], [LiveStates]: the subset construction, the removal of dead states and emptiness, of the same file.  [Utf8]: [Utf32ToUtf8.cpp].
      [ByteDfa]: [ByteDfa.h], the layout, its table and matching; [ByteDfaQueries], [ByteDfaCycles]: its queries.  [Patterns], [Wildcard], [RegExp]:
      [WildcardCompiler.cpp] and [RegExpParser.cpp], with what they share in [Patterns].

    ** What is shown

    - Round trips.  Integers ([readZLong_writeZLong]), stream operations ([stream_roundtrip]), packed
      values ([pack_roundtrip]), columns, with or without divisors, zones, a value sketch and bounds ([column_roundtrip]), their zones, bounds and sketch
      ([column_metadata]), version runs ([flush_roundtrip]) and all streams of an inverter's pool, in
      whatever order they are filled ([inverted_streams]), are read back as written.
    - Untrusted bytes.  Checked stream reads never leave the input ([checked_reads_safe]); the constructor of
      version runs either throws its one error or accepts runs for which every later unchecked
      access is safe ([accepted_files]).
    - Readers refine the abstract data.  Bitsets are finite sets ([fixed_refines_set],
      [navigation_correct], [orRange_correct], [screaming_walk], [screaming_select],
      [screaming_intersection]), cursors walk the column and the documents ([cursor_walk],
      [document_walk], [selected_value_extremum]), lookups of versions return the run in force
      whatever was cached before ([birth_lookups], [builder_lookups]).
    - Optimised code equals plain code.  The AVX2 kernels ([unpack128_kernels]), branchless and
      galloping searches ([branchless_correct], [gallop_correct], and, for the index form also on unsorted data,
      [gallop_terminates]), residual and rank filters ([residual_range_exact], [rank_bounds_sound],
      [column_search]), the relocating append ([tryAppendRelocatable_spec]), the two writers of version runs
      ([merge_writes_same]).
    - Queues.  The k smallest offers are kept ([topk_keeps_smallest]), positions stay right
      ([slots_stay_located]), the order survives updates ([update_heap_top_spec], [indirect_heap]).
    - The budget.  In every reachable state the counters are the sums of what is held
      ([budget_accounts]), pressure and admission are exactly the comparisons of the code, which differ from the class comment only for a pool of one byte ([pressure_exact],
      [admission_exact]), every change that could admit a waiter is announced ([changes_are_announced]),
      and under concurrency the cap holds, and without a cap the overflow of the counter is the one undefined step ([concurrent_admission]).
    - Memory.  Regions of a pool are disjoint, aligned and inside its buffers, and a rewind, which finds the buffer of a save point by comparing
      addresses, undoes exactly the allocations after it, also when buffers are adjacent ([scoped_allocations]); a request is for at most 4 MiB less a buffer's header.  In [inverted_streams] the bound on what is written is the room of a new pool: no exception is thrown
      below it.  Exactly the positions out of order are rejected ([positions_checked]).
    - Planning.  Every block gets a lossless plan ([block_plan_correct]).
    - Composition.  A merge of segments with deletions keeps the version of each live document
      ([merge_keeps_versions]); the builder stays within its widths and keeps neighbouring versions different ([builder_stays_typed]).

    - Patterns.  A wildcard or regular expression is compiled to an automaton that matches exactly its language, or rejected with the error of the
      code, and never anything else ([compileWildcard_correct], [compileRegex_correct]); the syntax of expressions is given by relations on the text, and
      the parser accepts exactly the texts that have a tree.  Conversion to UTF-8 keeps the language ([charRange_bytes]).  The queries of a compiled automaton
      are true of its language: [classify_correct], [commonPrefix_correct], [live_bytes_correct], [maxAcceptedLength_correct], [commonSuffix_correct].

    ** Not modelled

    Text analysis, the terms dictionary, the posting codecs, stored fields, vectors, queries, scoring
    and the server: they call third-party libraries (integer codecs, compression, linear algebra,
    HTTP), score in floating point, or are input and output.  Of the modelled files:
    storage quotas, the file-system backend and the destructors of the streams; the estimates read off
    the value sketch of a column, which interpolate in floating point; the merge of fields and its scheduling; the memory
    sizes that depend on the capacity of a vector; C++ objects constructed in a pool and the overwriting of its released
    memory in builds with assertions; the copy of an automaton into a pool ([ByteDfa::freeze]), [getCommonPrefix] (unused) and [caseAlternatesFoldToSelf] (third-party
    transcoding).  The case folding of code points is third-party code and a parameter: theorems assume that it maps scalar values to scalar values and
    is idempotent.  The memory resource never fails, and threads appear only in
    [RamBudgetMachine.Concurrent]: elsewhere the code relies on locks or on single ownership. *)

From stdpp Require Export prelude sorting list_numbers strings.
From Stdlib Require Export ZArith Lia.

Declare Scope luxir_scope.
Delimit Scope luxir_scope with luxir.
Open Scope Z_scope.

(** * Machine integers

    A value of a [w]-bit C++ integer type is the [Z] it denotes; conversions
    between widths are these wrap-around functions. *)

Definition uwrap (w z : Z) : Z := z `mod` 2 ^ w.
Definition swrap (w z : Z) : Z := (z + 2 ^ (w - 1)) `mod` 2 ^ w - 2 ^ (w - 1).

Abbreviation u8 := (uwrap 8).
Abbreviation u16 := (uwrap 16).
Abbreviation u32 := (uwrap 32).
Abbreviation u64 := (uwrap 64).
Abbreviation s32 := (swrap 32).
Abbreviation s64 := (swrap 64).

Definition is_u (w z : Z) : Prop := 0 <= z < 2 ^ w.
Definition is_s (w z : Z) : Prop := - 2 ^ (w - 1) <= z < 2 ^ (w - 1).

#[export] Instance is_u_dec w z : Decision (is_u w z).
Proof. unfold is_u. apply _. Defined.
#[export] Instance is_s_dec w z : Decision (is_s w z).
Proof. unfold is_s. apply _. Defined.

(** Bitwise complement of a [w]-bit unsigned value, and the unary minus of one. *)
Definition unot (w z : Z) : Z := uwrap w (Z.lnot z).
Definition uneg (w z : Z) : Z := uwrap w (- z).

Lemma uwrap_range w z : 0 <= w -> is_u w (uwrap w z).
Proof. intros. apply Z.mod_pos_bound, Z.pow_pos_nonneg; lia. Qed.

Lemma uwrap_id w z : is_u w z -> uwrap w z = z.
Proof. intros. by apply Z.mod_small. Qed.

Lemma uwrap_idemp w z : 0 <= w -> uwrap w (uwrap w z) = uwrap w z.
Proof. intros. by apply uwrap_id, uwrap_range. Qed.

Lemma swrap_range w z : 0 < w -> is_s w (swrap w z).
Proof.
  intros Hw. unfold is_s, swrap.
  assert (2 ^ w = 2 * 2 ^ (w - 1)) as E
    by (rewrite <- Z.pow_succ_r by lia; f_equal; lia).
  pose proof (Z.mod_pos_bound (z + 2 ^ (w - 1)) (2 ^ w)).
  assert (0 < 2 ^ (w - 1)) by (apply Z.pow_pos_nonneg; lia). lia.
Qed.

Lemma swrap_id w z : 0 < w -> is_s w z -> swrap w z = z.
Proof.
  intros Hw Hz. unfold is_s, swrap in *.
  assert (2 ^ w = 2 * 2 ^ (w - 1)) as E
    by (rewrite <- Z.pow_succ_r by lia; f_equal; lia).
  rewrite Z.mod_small; lia.
Qed.

(** Converting to unsigned and back to the same signed width is the identity. *)
Lemma swrap_uwrap w z : 0 < w -> swrap w (uwrap w z) = swrap w z.
Proof.
  intros Hw. unfold swrap, uwrap. f_equal.
  by rewrite Zplus_mod_idemp_l.
Qed.

Lemma uwrap_swrap w z : 0 < w -> uwrap w (swrap w z) = uwrap w z.
Proof.
  intros Hw. unfold swrap, uwrap. rewrite Zminus_mod_idemp_l. f_equal. lia.
Qed.

Lemma uwrap_add_l w a b : uwrap w (uwrap w a + b) = uwrap w (a + b).
Proof. apply Zplus_mod_idemp_l. Qed.
Lemma uwrap_add_r w a b : uwrap w (a + uwrap w b) = uwrap w (a + b).
Proof. apply Zplus_mod_idemp_r. Qed.
Lemma uwrap_sub_l w a b : uwrap w (uwrap w a - b) = uwrap w (a - b).
Proof. apply Zminus_mod_idemp_l. Qed.
Lemma uwrap_sub_r w a b : uwrap w (a - uwrap w b) = uwrap w (a - b).
Proof. apply Zminus_mod_idemp_r. Qed.
Lemma uwrap_mul_l w a b : uwrap w (uwrap w a * b) = uwrap w (a * b).
Proof. apply Zmult_mod_idemp_l. Qed.
Lemma uwrap_mul_r w a b : uwrap w (a * uwrap w b) = uwrap w (a * b).
Proof. apply Zmult_mod_idemp_r. Qed.

Lemma testbit_uwrap w z i :
  0 <= w -> Z.testbit (uwrap w z) i = bool_decide (i < w) && Z.testbit z i.
Proof.
  intros Hw. unfold uwrap. case_bool_decide.
  - destruct (decide (0 <= i)).
    + by rewrite Z.mod_pow2_bits_low.
    + by rewrite !Z.testbit_neg_r by lia.
  - by rewrite Z.mod_pow2_bits_high by lia.
Qed.

Lemma testbit_high w z i : is_u w z -> w <= i -> Z.testbit z i = false.
Proof.
  intros Hz Hi. rewrite <- (uwrap_id w z Hz).
  destruct (decide (0 <= w)).
  - rewrite testbit_uwrap by done. rewrite bool_decide_eq_false_2; [done|lia].
  - unfold is_u in Hz. rewrite Z.pow_neg_r in Hz; lia.
Qed.

(** * Bit-level reasoning *)

Create Rewrite HintDb zbits.
#[export] Hint Rewrite Z.land_spec Z.lor_spec Z.lxor_spec Z.testbit_0_l Z.ldiff_spec : zbits.
#[export] Hint Rewrite Z.shiftl_spec Z.shiftr_spec Z.lnot_spec testbit_uwrap Z.testbit_ones_nonneg
  using lia : zbits.
#[export] Hint Rewrite andb_true_r andb_true_l andb_false_r andb_false_l orb_false_r orb_false_l
  orb_true_r orb_true_l xorb_false_r xorb_false_l negb_involutive : zbits.

(** Decide every linear comparison in the goal, then finish the boolean algebra. *)
Ltac zbits_cases :=
  repeat first
    [ case_bool_decide
    | rewrite Z.testbit_neg_r by lia
    | match goal with
      | |- context [Z.ltb ?a ?b] => destruct (Z.ltb_spec a b)
      | |- context [Z.leb ?a ?b] => destruct (Z.leb_spec a b)
      end ];
  autorewrite with zbits; try done; try lia; try congruence.

Ltac zbits :=
  apply Z.bits_inj'; let i := fresh "i" in let Hi := fresh "Hi" in intros i Hi;
  autorewrite with zbits; zbits_cases.

Lemma pow2_pos n : 0 <= n -> 0 < 2 ^ n.
Proof. intros. apply Z.pow_pos_nonneg; lia. Qed.

Lemma testbit_pow2m1 n i : 0 <= n -> 0 <= i -> Z.testbit (2 ^ n - 1) i = bool_decide (i < n).
Proof.
  intros. rewrite Z.sub_1_r, <- Z.ones_equiv, Z.testbit_ones_nonneg by lia.
  destruct (Z.ltb_spec i n); by case_bool_decide; lia.
Qed.

Lemma testbit_pow2 n i : 0 <= n -> Z.testbit (2 ^ n) i = bool_decide (i = n).
Proof.
  intros. rewrite Z.pow2_bits_eqb by done.
  destruct (Z.eqb_spec n i); by case_bool_decide; congruence.
Qed.

(** A word is below [2 ^ n] exactly when its bits from [n] on are clear. *)
Lemma is_u_testbit n z :
  0 <= n -> is_u n z <-> 0 <= z /\ (forall i, n <= i -> Z.testbit z i = false).
Proof.
  intros Hn. split.
  - intros Hz. split; [unfold is_u in Hz; lia|]. intros i Hi. by apply (testbit_high n).
  - intros [Hz Hb].
    assert (uwrap n z = z) as <-; [|by apply uwrap_range].
    apply Z.bits_inj'. intros i Hi. rewrite testbit_uwrap by done.
    case_bool_decide; [done|]. symmetry. apply Hb. lia.
Qed.

Lemma testbit_one b i : 0 <= b -> Z.testbit (Z.shiftl 1 b) i = bool_decide (i = b).
Proof.
  intros Hb. rewrite Z.shiftl_1_l. destruct (decide (0 <= i)).
  - rewrite Z.pow2_bits_eqb by done. case_bool_decide; [subst; apply Z.eqb_refl|apply Z.eqb_neq; lia].
  - rewrite Z.testbit_neg_r, bool_decide_eq_false_2 by lia. done.
Qed.

Lemma is_u_one n b : 0 <= b < n -> is_u n (Z.shiftl 1 b).
Proof.
  intros Hb. rewrite Z.shiftl_1_l. pose proof (pow2_pos b ltac:(lia)).
  pose proof (Z.pow_lt_mono_r 2 b n ltac:(lia) ltac:(lia) ltac:(lia)). unfold is_u. lia.
Qed.

Lemma is_u_land n a b : 0 <= n -> is_u n a -> is_u n (Z.land a b).
Proof.
  intros Hn. rewrite !is_u_testbit by done. intros [H1 H2]. split; [apply Z.land_nonneg; by left|].
  intros i Hi. by rewrite Z.land_spec, H2.
Qed.

Lemma is_u_lor n a b : 0 <= n -> is_u n a -> is_u n b -> is_u n (Z.lor a b).
Proof.
  intros Hn. rewrite !is_u_testbit by done. intros [H1 H2] [H3 H4]. split; [by apply Z.lor_nonneg|].
  intros i Hi. by rewrite Z.lor_spec, H2, H4.
Qed.

Lemma is_u_shiftr n a k : 0 <= n -> 0 <= k -> is_u n a -> is_u n (Z.shiftr a k).
Proof.
  intros Hn Hk. rewrite !is_u_testbit by done. intros [H1 H2]. split; [by apply Z.shiftr_nonneg|].
  intros i Hi. rewrite Z.shiftr_spec by lia. apply H2. lia.
Qed.

Lemma is_u_unot n a : 0 <= n -> is_u n (unot n a).
Proof. apply uwrap_range. Qed.

Lemma testbit_unot n a i :
  0 <= n -> 0 <= i -> Z.testbit (unot n a) i = bool_decide (i < n) && negb (Z.testbit a i).
Proof. intros. unfold unot. rewrite testbit_uwrap by done. by rewrite Z.lnot_spec. Qed.

(** Or-ing bits above [s] onto a value below [2 ^ s] adds them. *)
Lemma lor_shiftl_add s a b : 0 <= s -> is_u s a -> Z.lor a (Z.shiftl b s) = a + 2 ^ s * b.
Proof.
  intros Hs Ha. rewrite <- (Z.mul_comm b), <- Z.shiftl_mul_pow2, <- Z.add_lor_land by done.
  replace (Z.land a (Z.shiftl b s)) with 0; [lia|]. symmetry.
  apply Z.bits_inj'. intros i Hi. autorewrite with zbits.
  destruct (decide (i < s)).
  - rewrite (Z.testbit_neg_r b) by lia. apply andb_false_r.
  - by rewrite (testbit_high s) by (done || lia).
Qed.

(** [std::popcount] and [std::countr_zero] of a [w]-bit word. *)
Fixpoint pos_popcount (p : positive) : Z :=
  match p with
  | xH => 1
  | xO q => pos_popcount q
  | xI q => 1 + pos_popcount q
  end.

Definition popcount (z : Z) : Z :=
  match z with Zpos p => pos_popcount p | _ => 0 end.

Fixpoint pos_ctz (p : positive) : Z :=
  match p with xO q => 1 + pos_ctz q | _ => 0 end.

Definition countr_zero (w z : Z) : Z :=
  match z with Zpos p => pos_ctz p | _ => w end.

(** [std::bit_width] and [std::bit_floor]. *)
Definition bit_width (z : Z) : Z := if decide (z <= 0) then 0 else Z.log2 z + 1.
Definition bit_floor (z : Z) : Z := if decide (z <= 0) then 0 else 2 ^ Z.log2 z.

(** The positions below [n] of the set bits of [z], in increasing order. *)
Definition bits_in (z n : Z) : list Z := filter (fun i => Z.testbit z i = true) (seqZ 0 n).

Lemma pos_ctz_spec p :
  0 <= pos_ctz p /\ Z.testbit (Zpos p) (pos_ctz p) = true /\
  (forall i, i < pos_ctz p -> Z.testbit (Zpos p) i = false).
Proof.
  induction p as [p IH|p IH|]; simpl pos_ctz.
  - split_and!; [lia|done|]. intros. apply Z.testbit_neg_r. lia.
  - destruct IH as (H0 & H1 & H2). split_and!; [lia| |].
    + rewrite Pos2Z.pos_xO, Z.add_1_l, <- Z.double_spec, Z.double_bits, Z.pred_succ. done.
    + intros i Hi. rewrite Pos2Z.pos_xO, <- Z.double_spec, Z.double_bits. apply H2. lia.
  - split_and!; [lia|done|]. intros. apply Z.testbit_neg_r. lia.
Qed.

Lemma countr_zero_spec w z :
  0 < z ->
  0 <= countr_zero w z /\ Z.testbit z (countr_zero w z) = true /\
  (forall i, i < countr_zero w z -> Z.testbit z i = false).
Proof. destruct z as [|p|p]; try lia. intros _. apply pos_ctz_spec. Qed.

Lemma countr_zero_lt w z n : 0 < z -> is_u n z -> countr_zero w z < n.
Proof.
  intros Hz Hn. destruct (countr_zero_spec w z Hz) as (_ & Hb & _).
  destruct (decide (n <= countr_zero w z)); [|lia].
  rewrite (testbit_high n) in Hb; [done|done|lia].
Qed.

(** * Lists indexed by [Z] *)

Definition zlen {A} (l : list A) : Z := Z.of_nat (length l).

(** An array read: [None] is an access outside the array. *)
Definition zget {A} (l : list A) (i : Z) : option A :=
  if decide (0 <= i) then l !! Z.to_nat i else None.

(** An array write: [None] is an access outside the array. *)
Definition zset {A} (l : list A) (i : Z) (x : A) : option (list A) :=
  if decide (0 <= i < zlen l) then Some (<[Z.to_nat i := x]> l) else None.

Notation "l '.[' i ']'" := (zget l i) (at level 1, left associativity, format "l .[ i ]") : luxir_scope.
Open Scope luxir_scope.

Lemma bind_Some_l {A B} (x : A) (f : A -> option B) : Some x ≫= f = f x.
Proof. done. Qed.

Lemma bind_None_l {A B} (f : A -> option B) : None ≫= f = None.
Proof. done. Qed.

(** Reduces the [option] binds whose first computation is known, by rewriting: a
    conversion would compare the rest of the computation with what it reduces from. *)
Ltac opt :=
  repeat (first [rewrite bind_Some_l | rewrite bind_None_l]; cbn beta match);
  cbn [fmap option_fmap option_map mret option_ret].

Lemma bool_decide_eq_inv (P Q : Prop) `{!Decision P, !Decision Q} :
  bool_decide P = bool_decide Q -> P <-> Q.
Proof. do 2 case_bool_decide; tauto || done. Qed.

(** A loop over the elements of a list whose body may fail. *)
Fixpoint foldM {S A} (f : S -> A -> option S) (s : S) (l : list A) : option S :=
  match l with
  | [] => Some s
  | x :: l => s' ← f s x; foldM f s' l
  end.

Lemma zlen_nonneg {A} (l : list A) : 0 <= zlen l.
Proof. unfold zlen. lia. Qed.
Lemma zlen_nil {A} : zlen (@nil A) = 0.
Proof. done. Qed.
Lemma zlen_cons {A} (x : A) l : zlen (x :: l) = 1 + zlen l.
Proof. unfold zlen. simpl. lia. Qed.
Lemma zlen_app {A} (l k : list A) : zlen (l ++ k) = zlen l + zlen k.
Proof. unfold zlen. rewrite length_app. lia. Qed.
Lemma zlen_fmap {A B} (f : A -> B) l : zlen (f <$> l) = zlen l.
Proof. unfold zlen. by rewrite length_fmap. Qed.
Lemma zlen_seqZ a n : 0 <= n -> zlen (seqZ a n) = n.
Proof. intros. unfold zlen. rewrite length_seqZ. lia. Qed.
Lemma zlen_replicate {A} n (x : A) : zlen (replicate n x) = Z.of_nat n.
Proof. unfold zlen. by rewrite length_replicate. Qed.
Lemma zlen_insert {A} i (x : A) l : zlen (<[i := x]> l) = zlen l.
Proof. unfold zlen. by rewrite length_insert. Qed.

Create Rewrite HintDb zlen.
#[export] Hint Rewrite @zlen_nil @zlen_cons @zlen_app @zlen_fmap @zlen_replicate @zlen_insert : zlen.
#[export] Hint Rewrite @zlen_seqZ using lia : zlen.
Ltac zlen := autorewrite with zlen in *; try lia.

Lemma zget_Some_range {A} (l : list A) i x : l.[i] = Some x -> 0 <= i < zlen l.
Proof.
  unfold zget, zlen. case_decide; [|done]. intros E%lookup_lt_Some. lia.
Qed.

Lemma zget_is_Some {A} (l : list A) i : 0 <= i < zlen l <-> is_Some (l.[i]).
Proof.
  split; [|intros [x Hx]; by eapply zget_Some_range].
  unfold zget, zlen. intros. rewrite decide_True by lia. apply lookup_lt_is_Some. lia.
Qed.

Lemma zget_in {A} (l : list A) i : 0 <= i < zlen l -> exists x, l.[i] = Some x.
Proof. intros H%zget_is_Some. by destruct H as [x Hx]; exists x. Qed.

Lemma zget_nat {A} (l : list A) i : l.[Z.of_nat i] = l !! i.
Proof. unfold zget. rewrite decide_True by lia. by rewrite Nat2Z.id. Qed.

Lemma zget_elem {A} (l : list A) x : x ∈ l <-> exists i, l.[i] = Some x.
Proof.
  rewrite list_elem_of_lookup. split; intros [i Hi].
  - exists (Z.of_nat i). by rewrite zget_nat.
  - unfold zget in Hi. case_decide; eauto; done.
Qed.

Lemma zget_elem_1 {A} (l : list A) i x : l.[i] = Some x -> x ∈ l.
Proof. intros. apply zget_elem. eauto. Qed.

Lemma zget_app_l {A} (l k : list A) i : i < zlen l -> (l ++ k).[i] = l.[i].
Proof.
  unfold zget, zlen. intros. case_decide; [|done]. apply lookup_app_l. lia.
Qed.

Lemma zget_app_r {A} (l k : list A) i : zlen l <= i -> (l ++ k).[i] = k.[i - zlen l].
Proof.
  unfold zget, zlen. intros. rewrite !decide_True by lia.
  rewrite lookup_app_r by lia. f_equal. lia.
Qed.

Lemma zget_seqZ a n i : 0 <= i < n -> (seqZ a n).[i] = Some (a + i).
Proof.
  intros. unfold zget. rewrite decide_True by lia.
  rewrite lookup_seqZ_lt by lia. f_equal. lia.
Qed.

Lemma zget_fmap {A B} (f : A -> B) l i : (f <$> l).[i] = f <$> l.[i].
Proof. unfold zget. case_decide; [|done]. apply list_lookup_fmap. Qed.

Lemma zget_cons_0 {A} (x : A) l : (x :: l).[0] = Some x.
Proof. done. Qed.

Lemma zget_cons_pos {A} (x : A) l i : 0 < i -> (x :: l).[i] = l.[i - 1].
Proof.
  intros. change (x :: l) with ([x] ++ l). by rewrite zget_app_r by (zlen; simpl; lia).
Qed.

Lemma zget_nil {A} i : (@nil A).[i] = None.
Proof. unfold zget. by case_decide. Qed.

Lemma zget_app_Some {A} (l k : list A) i x : l.[i] = Some x -> (l ++ k).[i] = Some x.
Proof. intros H. pose proof (zget_Some_range _ _ _ H). by rewrite zget_app_l by lia. Qed.

Lemma zget_snoc {A} (l : list A) x : (l ++ [x]).[zlen l] = Some x.
Proof. by rewrite zget_app_r, Z.sub_diag by lia. Qed.

Lemma zget_snoc_inv {A} (l : list A) x i y :
  (l ++ [x]).[i] = Some y -> l.[i] = Some y \/ i = zlen l /\ y = x.
Proof.
  intros H. destruct (decide (i < zlen l)) as [Hi|Hi]; [left; by rewrite zget_app_l in H by done|right].
  pose proof (zget_Some_range _ _ _ H) as Hr. rewrite zlen_app in Hr. change (zlen [x]) with 1 in Hr.
  assert (i = zlen l) as -> by lia. rewrite zget_snoc in H. by injection H as ->.
Qed.

Lemma zget_take {A} (l : list A) n j : j < n -> (take (Z.to_nat n) l).[j] = l.[j].
Proof. intros. unfold zget. case_decide; [|done]. apply lookup_take_lt. lia. Qed.

Lemma zget_drop {A} (l : list A) n j : 0 <= n -> 0 <= j -> (drop (Z.to_nat n) l).[j] = l.[n + j].
Proof.
  intros. unfold zget. rewrite !decide_True by lia. rewrite lookup_drop. f_equal. lia.
Qed.

Lemma zget_take_drop {A} (l : list A) i n j :
  0 <= i -> 0 <= j < n -> (take (Z.to_nat n) (drop (Z.to_nat i) l)).[j] = l.[i + j].
Proof.
  intros. unfold zget. rewrite !decide_True by lia. rewrite lookup_take_lt, lookup_drop by lia. f_equal. lia.
Qed.

Lemma mapM_total {A C} (f : A -> option C) (g : A -> C) l :
  (forall x, x ∈ l -> f x = Some (g x)) -> mapM f l = Some (g <$> l).
Proof.
  induction l as [|x l IH]; intros H; [done|]. simpl. rewrite (H x) by left. simpl.
  rewrite IH by (intros y Hy; apply H; by right). done.
Qed.

Lemma zset_Some {A} (l : list A) i x l' :
  zset l i x = Some l' <-> 0 <= i < zlen l /\ l' = <[Z.to_nat i := x]> l.
Proof.
  unfold zset. case_decide; [|by split; [|intros [? _]]].
  split; [by intros [= <-]|by intros [_ ->]].
Qed.

Lemma zset_in {A} (l : list A) i x : 0 <= i < zlen l -> zset l i x = Some (<[Z.to_nat i := x]> l).
Proof. intros. by apply zset_Some. Qed.

Lemma last_zget {A} (l : list A) : last l = l.[zlen l - 1].
Proof.
  rewrite last_lookup. unfold zget, zlen. destruct l as [|a l]; [done|].
  rewrite decide_True by (simpl; lia). f_equal. lia.
Qed.

Lemma zset_snoc {A} (l : list A) x y : zset (l ++ [x]) (zlen l) y = Some (l ++ [y]).
Proof.
  rewrite zset_in by (rewrite zlen_app; change (zlen [x]) with 1; pose proof (zlen_nonneg l); lia).
  f_equal. unfold zlen. rewrite Nat2Z.id, <- (Nat.add_0_r (length l)). by rewrite insert_app_r.
Qed.

Lemma zget_insert {A} (l : list A) i j x :
  0 <= i < zlen l -> (<[Z.to_nat i := x]> l).[j] = if decide (i = j) then Some x else l.[j].
Proof.
  unfold zget, zlen. intros. case_decide as Hj; case_decide as Hij; subst; try done; try lia.
  - apply list_lookup_insert_eq. lia.
  - apply list_lookup_insert_ne. lia.
Qed.

Lemma foldM_app {S A} (f : S -> A -> option S) s l k :
  foldM f s (l ++ k) = s' ← foldM f s l; foldM f s' k.
Proof.
  revert s. induction l as [|x l IH]; intros s; [done|]. simpl.
  destruct (f s x) as [s'|]; [apply IH|done].
Qed.

Lemma foldr_add_init a l : foldr Z.add a l = a + foldr Z.add 0 l.
Proof. induction l as [|x l IH]; simpl; lia. Qed.

(** Loop rule: a body that keeps an invariant indexed by the elements already
    visited establishes it for the whole list. *)
Lemma foldM_ind {S A} (P : list A -> S -> Prop) (f : S -> A -> option S) s l :
  P [] s ->
  (forall done x rest s, l = done ++ x :: rest -> P done s ->
     exists s', f s x = Some s' /\ P (done ++ [x]) s') ->
  exists s', foldM f s l = Some s' /\ P l s'.
Proof.
  intros H0 Hstep.
  cut (forall rest done s, l = done ++ rest -> P done s ->
    exists s', foldM f s rest = Some s' /\ P l s').
  { intros H. by apply (H l []). }
  induction rest as [|x rest IH]; intros done' s' -> HP; simpl.
  - rewrite app_nil_r in *. eauto.
  - destruct (Hstep done' x rest s') as (s'' & -> & HP'); [done..|]. simpl.
    apply (IH (done' ++ [x])); [|done]. by rewrite <- app_assoc.
Qed.

Lemma foldM_fmap {S A B} (f : S -> B -> option S) (g : A -> B) s l :
  foldM f s (g <$> l) = foldM (fun s x => f s (g x)) s l.
Proof.
  revert s. induction l as [|x l IH]; intros s; [done|]. simpl. destruct (f s (g x)); [apply IH|done].
Qed.

Lemma foldM_ext {A S} (f g : S -> A -> option S) s l : (forall s x, f s x = g s x) -> foldM f s l = foldM g s l.
Proof. intros H. revert s. induction l as [|x l IH]; intros s; simpl; [done|]. rewrite H. destruct (g s x); [apply IH|done]. Qed.

(** Two loops over one list. *)
Lemma foldM_pair {A S T} (f : S -> A -> option S) (g : T -> A -> option T) s t l s' t' :
  foldM f s l = Some s' -> foldM g t l = Some t' ->
  foldM (fun '(s, t) x => s ← f s x; t ← g t x; Some (s, t)) (s, t) l = Some (s', t').
Proof.
  revert s t. induction l as [|x l IH]; intros s t; simpl; [by intros [= ->] [= ->]|].
  destruct (f s x) as [s1|]; [|done]. destruct (g t x) as [t1|]; [|done]. simpl. apply IH.
Qed.

(** Loop rule for [for (i = a; i < a + n; i++)]. *)
Lemma foldM_seqZ {S} (P : Z -> S -> Prop) (f : S -> Z -> option S) s a n :
  0 <= n -> P a s ->
  (forall i s, a <= i < a + n -> P i s -> exists s', f s i = Some s' /\ P (i + 1) s') ->
  exists s', foldM f s (seqZ a n) = Some s' /\ P (a + n) s'.
Proof.
  intros Hn H0 Hstep.
  destruct (foldM_ind (fun seen s => P (a + zlen seen) s) f s (seqZ a n)) as (s' & E & Hs).
  - change (zlen []) with 0. by rewrite Z.add_0_r.
  - intros seen x rest s' Hsplit HP. pose proof (zlen_nonneg seen).
    pose proof (zget_app_r seen (x :: rest) (zlen seen) ltac:(lia)) as Hx.
    rewrite <- Hsplit, Z.sub_diag, zget_cons_0 in Hx.
    pose proof (zget_Some_range _ _ _ Hx) as Hr. rewrite zlen_seqZ in Hr by lia.
    rewrite zget_seqZ in Hx by lia. injection Hx as <-.
    destruct (Hstep (a + zlen seen) s') as (s'' & E & HP'); [lia|done|].
    exists s''. split; [done|]. by rewrite zlen_app, Z.add_assoc.
  - exists s'. split; [done|]. by rewrite zlen_seqZ in Hs by lia.
Qed.

Lemma filter_none {A} (P : A -> Prop) `{!forall x, Decision (P x)} (l : list A) :
  (forall x, x ∈ l -> ~ P x) -> filter P l = [].
Proof.
  induction l as [|a l IH]; intros Hn; [done|]. rewrite filter_cons, decide_False.
  - apply IH. intros x Hx. apply Hn. by right.
  - apply Hn. left.
Qed.

Lemma filter_all {A} (P : A -> Prop) `{!forall x, Decision (P x)} (l : list A) :
  (forall x, x ∈ l -> P x) -> filter P l = l.
Proof.
  induction l as [|a l IH]; intros Ha; [done|]. rewrite filter_cons, decide_True.
  - f_equal. apply IH. intros x Hx. apply Ha. by right.
  - apply Ha. left.
Qed.

Lemma zlen_filter {A} (P : A -> Prop) `{!forall x, Decision (P x)} (l : list A) : zlen (filter P l) <= zlen l.
Proof. unfold zlen. pose proof (length_filter P l). lia. Qed.

(** ** Strictly increasing lists *)

Abbreviation increasing := (StronglySorted Z.lt).

Lemma increasing_ext l k :
  increasing l -> increasing k -> (forall x, x ∈ l <-> x ∈ k) -> l = k.
Proof.
  intros Hl. revert k. induction Hl as [|a l Hl IH Ha]; intros k Hk Heq.
  - destruct k as [|b k]; [done|]. exfalso. apply (not_elem_of_nil b), Heq. left.
  - destruct Hk as [|b k Hk Hb].
    { exfalso. apply (not_elem_of_nil a), Heq. left. }
    rewrite Forall_forall in Ha, Hb.
    assert (a = b) as ->.
    { assert (a ∈ b :: k) as Hab by (apply Heq; left).
      assert (b ∈ a :: l) as Hba by (apply Heq; left).
      apply elem_of_cons in Hab as [|?%Hb]; [done|].
      apply elem_of_cons in Hba as [|?%Ha]; [done|]. lia. }
    f_equal. apply IH; [done|]. intros x. specialize (Heq x).
    rewrite !elem_of_cons in Heq.
    split; intros Hx.
    + destruct (proj1 Heq (or_intror Hx)) as [->|]; [|done]. specialize (Ha _ Hx). lia.
    + destruct (proj2 Heq (or_intror Hx)) as [->|]; [|done]. specialize (Hb _ Hx). lia.
Qed.

Lemma increasing_seqZ a n : increasing (seqZ a n).
Proof.
  destruct (decide (0 <= n)) as [Hn|]; [|rewrite seqZ_nil by lia; constructor].
  revert a. pattern n. apply natlike_ind; [|clear n Hn|done].
  - intros. rewrite seqZ_nil by lia. constructor.
  - intros n Hn IH a. rewrite seqZ_cons, Z.pred_succ by lia. constructor; [apply IH|].
    apply Forall_seqZ. lia.
Qed.

Lemma increasing_filter (P : Z -> Prop) `{!forall x, Decision (P x)} l :
  increasing l -> increasing (filter P l).
Proof.
  induction 1 as [|a l Hl IH Ha]; [constructor|]. rewrite filter_cons. case_decide; [|done].
  constructor; [done|]. rewrite Forall_forall in *. intros x Hx. apply Ha.
  by apply list_elem_of_filter in Hx as [_ ?].
Qed.

Lemma increasing_add a l : increasing l -> increasing (Z.add a <$> l).
Proof. apply StronglySorted_fmap. intros; lia. Qed.

Lemma sorted_zget {A} (R : A -> A -> Prop) l i j x y : StronglySorted R l -> l.[i] = Some x -> l.[j] = Some y -> i < j -> R x y.
Proof.
  intros Hs Hx Hy Hij. unfold zget in *. do 2 (case_decide; [|done]).
  rewrite <- (take_drop_middle l _ _ Hx) in Hs. apply StronglySorted_app in Hs as (_ & _ & Hs).
  apply StronglySorted_cons in Hs as [Hs _]. rewrite Forall_forall in Hs. apply Hs.
  apply list_elem_of_lookup. exists (Z.to_nat j - S (Z.to_nat i))%nat. rewrite lookup_drop. rewrite <- Hy. f_equal. lia.
Qed.

Lemma increasing_zget l i j x y :
  increasing l -> l.[i] = Some x -> l.[j] = Some y -> i < j -> x < y.
Proof. apply sorted_zget. Qed.

(** The first value of a sorted list from [t] on, and the number of values before [t]. *)
Definition first_ge (l : list Z) (t : Z) : option Z := head (filter (fun v => t <= v) l).
Definition count_lt (l : list Z) (t : Z) : Z := zlen (filter (fun v => v < t) l).

Lemma first_ge_app l k t :
  first_ge (l ++ k) t = match first_ge l t with Some v => Some v | None => first_ge k t end.
Proof.
  unfold first_ge. rewrite filter_app. by destruct (filter (fun v => t <= v) l).
Qed.

Lemma first_ge_none l t : (forall v, v ∈ l -> v < t) -> first_ge l t = None.
Proof. intros H. unfold first_ge. rewrite filter_none; [done|]. intros x Hx%H. lia. Qed.

Lemma first_ge_all l t : (forall v, v ∈ l -> t <= v) -> first_ge l t = head l.
Proof. intros H. unfold first_ge. by rewrite filter_all. Qed.

Lemma first_ge_cons a l t :
  first_ge (a :: l) t = if decide (t <= a) then Some a else first_ge l t.
Proof. unfold first_ge. rewrite filter_cons. by case_decide. Qed.

Lemma first_ge_Some l t v : increasing l ->
  first_ge l t = Some v <-> v ∈ l /\ t <= v /\ forall u, u ∈ l -> t <= u -> v <= u.
Proof.
  intros Hl. induction Hl as [|a l Hl IH Ha].
  { split; [done|]. intros [H _]. by apply not_elem_of_nil in H. }
  rewrite Forall_forall in Ha. rewrite first_ge_cons. case_decide as Ht.
  - split.
    + intros [= <-]. split_and!; [left|done|]. intros u [->|Hu%Ha]%elem_of_cons _; lia.
    + intros (Hv & Htv & Hmin). apply elem_of_cons in Hv as [->|Hv]; [done|].
      specialize (Ha v Hv). specialize (Hmin a ltac:(left) Ht). lia.
  - rewrite IH. setoid_rewrite elem_of_cons. split.
    + intros (Hv & Htv & Hmin). split_and!; [by right|done|]. intros u [->|Hu]; [lia|eauto].
    + intros ([->|Hv] & Htv & Hmin); [lia|]. split_and!; eauto.
Qed.

Lemma first_ge_None l t : first_ge l t = None -> forall v, v ∈ l -> v < t.
Proof.
  unfold first_ge. intros H v Hv. apply Z.nle_gt. intros Ht.
  assert (v ∈ filter (fun v => t <= v) l) as Hin by (by apply list_elem_of_filter).
  destruct (filter (fun v => t <= v) l); [|done]. by apply not_elem_of_nil in Hin.
Qed.

Lemma first_ge_add a l t : first_ge (Z.add a <$> l) (a + t) = Z.add a <$> first_ge l t.
Proof.
  induction l as [|x l IH]; [done|]. rewrite fmap_cons, !first_ge_cons, IH. 
  do 2 case_decide; done || lia.
Qed.

Lemma count_lt_app l k t : count_lt (l ++ k) t = count_lt l t + count_lt k t.
Proof. unfold count_lt. by rewrite filter_app, zlen_app. Qed.

Lemma count_lt_all l t : (forall v, v ∈ l -> v < t) -> count_lt l t = zlen l.
Proof. intros. unfold count_lt. by rewrite filter_all. Qed.

Lemma count_lt_none l t : (forall v, v ∈ l -> t <= v) -> count_lt l t = 0.
Proof. intros H. unfold count_lt. rewrite filter_none; [done|]. intros x Hx%H. lia. Qed.

Lemma count_lt_range l t : 0 <= count_lt l t <= zlen l.
Proof. split; [apply zlen_nonneg|apply zlen_filter]. Qed.

Lemma count_lt_cons a l t :
  count_lt (a :: l) t = (if decide (a < t) then 1 else 0) + count_lt l t.
Proof. unfold count_lt. rewrite filter_cons. case_decide; zlen. Qed.

Lemma count_lt_add a l t : count_lt (Z.add a <$> l) (a + t) = count_lt l t.
Proof.
  induction l as [|x l IH]; [done|]. rewrite fmap_cons, !count_lt_cons, IH. do 2 case_decide; lia.
Qed.

Lemma count_lt_mono l t u : t <= u -> count_lt l t <= count_lt l u.
Proof.
  intros Htu. induction l as [|a l IH]; [done|]. rewrite !count_lt_cons. do 2 case_decide; lia.
Qed.

Lemma zget_count_lt l t : increasing l -> l.[count_lt l t] = first_ge l t.
Proof.
  induction 1 as [|a l Hl IH Ha]; [done|]. rewrite Forall_forall in Ha.
  rewrite count_lt_cons, first_ge_cons. destruct (decide (a < t)).
  - rewrite zget_cons_pos by (pose proof (count_lt_range l t); lia).
    rewrite decide_False by lia. rewrite <- IH. f_equal. lia.
  - rewrite decide_True by lia. rewrite count_lt_none; [done|]. intros v Hv%Ha. lia.
Qed.

(** Rank and position are inverse on a sorted list. *)
Lemma count_lt_zget l i x : increasing l -> l.[i] = Some x -> count_lt l x = i.
Proof.
  intros Hl. revert i. induction Hl as [|a l Hl IH Ha]; intros i Hi.
  { by apply zget_elem_1, not_elem_of_nil in Hi. }
  pose proof (zget_Some_range _ _ _ Hi). rewrite Forall_forall in Ha. rewrite count_lt_cons.
  destruct (decide (i = 0)) as [->|].
  - rewrite zget_cons_0 in Hi. injection Hi as ->. rewrite decide_False by lia.
    rewrite count_lt_none; [done|]. intros v Hv%Ha. lia.
  - rewrite zget_cons_pos in Hi by lia. rewrite (IH _ Hi). apply zget_elem_1, Ha in Hi.
    rewrite decide_True by lia. lia.
Qed.

Lemma increasing_NoDup l : increasing l -> NoDup l.
Proof.
  induction 1 as [|a l Hl IH Ha]; constructor; [|done]. intros Hin. rewrite Forall_forall in Ha.
  specialize (Ha a Hin). lia.
Qed.

Lemma increasing_bound l n : increasing l -> Forall (fun x => 0 <= x < n) l -> 0 <= n -> zlen l <= n.
Proof.
  intros Hl Hf Hn. rewrite Forall_forall in Hf. unfold zlen.
  assert (l ⊆+ seqZ 0 n) as H%submseteq_length.
  { apply NoDup_submseteq; [by apply increasing_NoDup|]. intros x Hx%Hf. apply elem_of_seqZ. lia. }
  rewrite length_seqZ in H. lia.
Qed.

Lemma increasing_nondecreasing l : increasing l -> StronglySorted Z.le l.
Proof. induction 1 as [|a l Hl IH Ha]; constructor; [done|]. eapply Forall_impl; [done|]. simpl. lia. Qed.

Lemma nondecreasing_intro l :
  (forall i j x y, i <= j -> l.[i] = Some x -> l.[j] = Some y -> x <= y) -> StronglySorted Z.le l.
Proof.
  induction l as [|a l IH]; intros Hij; constructor.
  - apply IH. intros i j x y Hle Hx Hy. pose proof (zget_Some_range _ _ _ Hx). pose proof (zget_Some_range _ _ _ Hy).
    apply (Hij (i + 1) (j + 1)); [lia|rewrite zget_cons_pos by lia..].
    + by replace (i + 1 - 1) with i by lia.
    + by replace (j + 1 - 1) with j by lia.
  - rewrite Forall_forall. intros y [j Hy]%zget_elem. pose proof (zget_Some_range _ _ _ Hy).
    apply (Hij 0 (j + 1)); [lia|done|]. rewrite zget_cons_pos by lia. by replace (j + 1 - 1) with j by lia.
Qed.

Lemma increasing_intro l :
  (forall i j x y, l.[i] = Some x -> l.[j] = Some y -> i < j -> x < y) -> increasing l.
Proof.
  induction l as [|a l IH]; intros Hij; constructor.
  - apply IH. intros i j x y Hx Hy Hlt. pose proof (zget_Some_range _ _ _ Hx). pose proof (zget_Some_range _ _ _ Hy).
    apply (Hij (i + 1) (j + 1)); [rewrite zget_cons_pos by lia..|lia].
    + by replace (i + 1 - 1) with i by lia.
    + by replace (j + 1 - 1) with j by lia.
  - rewrite Forall_forall. intros y [j Hy]%zget_elem. pose proof (zget_Some_range _ _ _ Hy).
    apply (Hij 0 (j + 1)); [done| |lia]. rewrite zget_cons_pos by lia. by replace (j + 1 - 1) with j by lia.
Qed.

(** The values below [n] are a prefix of a sorted list. *)
Lemma increasing_split l n :
  increasing l -> l = filter (fun v => v < n) l ++ filter (fun v => n <= v) l.
Proof.
  induction 1 as [|a l Hl IH Ha]; [done|]. rewrite Forall_forall in Ha. rewrite !filter_cons.
  destruct (decide (a < n)).
  - rewrite (decide_False (P := n <= a)) by lia. simpl. by rewrite <- IH.
  - rewrite (decide_True (P := n <= a)) by lia. rewrite filter_none by (intros v Hv%Ha; lia). simpl.
    rewrite filter_all; [done|]. intros v Hv%Ha. lia.
Qed.

(** Sortedness of a concrete list. *)
Ltac sorted_concrete :=
  repeat first [apply SSorted_cons | apply SSorted_nil | apply List.Forall_cons | apply List.Forall_nil | lia].

Create HintDb incr.
#[export] Hint Resolve increasing_seqZ increasing_filter increasing_add : incr.

(** ** Set-bit positions *)

Lemma elem_of_bits_in z n i : i ∈ bits_in z n <-> 0 <= i < n /\ Z.testbit z i = true.
Proof. unfold bits_in. rewrite list_elem_of_filter, elem_of_seqZ. rewrite Z.add_0_l. tauto. Qed.

Lemma increasing_bits_in z n : increasing (bits_in z n).
Proof. apply increasing_filter, increasing_seqZ. Qed.
#[export] Hint Resolve increasing_bits_in : incr.

Lemma bits_in_app z a b :
  0 <= a -> 0 <= b ->
  bits_in z (a + b) = bits_in z a ++ (Z.add a <$> bits_in (Z.shiftr z a) b).
Proof.
  intros Ha Hb. apply increasing_ext; [auto with incr| |].
  - apply StronglySorted_app_2; [|auto with incr..].
    intros x y Hx Hy. apply list_elem_of_fmap in Hy as (y' & -> & Hy).
    apply elem_of_bits_in in Hx, Hy. lia.
  - intros i. rewrite elem_of_app, list_elem_of_fmap, elem_of_bits_in.
    setoid_rewrite elem_of_bits_in. split.
    + intros [Hi Hb']. destruct (decide (i < a)); [left; split; [lia|done]|right].
      exists (i - a). split; [lia|]. split; [lia|]. rewrite Z.shiftr_spec by lia.
      rewrite <- Hb'. f_equal. lia.
    + intros [?|(y & -> & Hy & Hb')]; [split; [lia|tauto]|]. split; [lia|].
      rewrite Z.shiftr_spec in Hb' by lia. rewrite <- Hb'. f_equal. lia.
Qed.

Lemma popcount_step z : 0 <= z -> popcount z = Z.b2z (Z.testbit z 0) + popcount (Z.shiftr z 1).
Proof. intros Hz. destruct z as [|[p|p|]|p]; simpl; lia. Qed.

Lemma popcount_bits_in n z : 0 <= n -> is_u n z -> popcount z = zlen (bits_in z n).
Proof.
  intros Hn. revert z. pattern n. apply natlike_ind; [|clear n Hn|done].
  - intros z Hz. assert (z = 0) as -> by (unfold is_u in Hz; simpl in Hz; lia). done.
  - intros n Hn IH z Hz. unfold is_u in Hz. rewrite Z.pow_succ_r in Hz by done.
    rewrite popcount_step by lia. rewrite <- Z.add_1_l, bits_in_app, zlen_app, zlen_fmap by lia.
    rewrite <- IH; [|unfold is_u; rewrite Z.shiftr_div_pow2 by lia; change (2 ^ 1) with 2;
      split; [apply Z.div_pos|apply Z.div_lt_upper_bound]; lia].
    f_equal. unfold bits_in. change (seqZ 0 1) with [0]. rewrite filter_cons, filter_nil.
    by destruct (Z.testbit z 0).
Qed.

Lemma popcount_nonneg z : 0 <= popcount z.
Proof.
  destruct z as [|p|p]; simpl; try lia. induction p; simpl; lia.
Qed.

(** [word &= word - 1] clears exactly the lowest set bit. *)
Lemma land_pred_testbit w z i :
  0 < z -> 0 <= i ->
  Z.testbit (Z.land z (z - 1)) i = Z.testbit z i && negb (bool_decide (i = countr_zero w z)).
Proof.
  intros Hz. destruct z as [|p|p]; try lia. clear Hz. simpl countr_zero. revert i.
  induction p as [p IH|p IH|]; intros i Hi; rewrite Z.land_spec.
  - change (Z.pos p~1 - 1) with (Z.pos p~0). destruct (decide (i = 0)) as [->|]; [done|].
    rewrite (bool_decide_eq_false_2 _ n). simpl negb.
    replace i with (Z.succ (i - 1)) by lia.
    rewrite (Pos2Z.pos_xI p), (Pos2Z.pos_xO p), Z.testbit_odd_succ, Z.testbit_even_succ by lia.
    by destruct (Z.testbit (Z.pos p) (i - 1)).
  - simpl pos_ctz. replace (Z.pos p~0 - 1) with (2 * (Z.pos p - 1) + 1) by lia.
    destruct (decide (i = 0)) as [->|]; [done|].
    replace i with (Z.succ (i - 1)) by lia. rewrite (Pos2Z.pos_xO p).
    rewrite Z.testbit_odd_succ, Z.testbit_even_succ by lia.
    rewrite <- Z.land_spec, IH by lia. do 2 f_equal.
    apply bool_decide_ext. lia.
  - change (1 - 1) with 0. rewrite Z.testbit_0_l, andb_false_r.
    destruct (decide (i = 0)) as [->|]; [done|].
    replace i with (Z.succ (i - 1)) by lia.
    change 1 with (2 * 0 + 1). rewrite Z.testbit_odd_succ by lia. by rewrite Z.testbit_0_l.
Qed.

Lemma bits_in_clear_lowest w z n :
  0 < z -> is_u n z ->
  bits_in z n = countr_zero w z :: bits_in (Z.land z (z - 1)) n.
Proof.
  intros Hz Hn. destruct (countr_zero_spec w z Hz) as (H0 & H1 & H2).
  apply increasing_ext; [auto with incr| |].
  - constructor; [auto with incr|]. rewrite Forall_forall. intros i Hi.
    apply elem_of_bits_in in Hi as [Hi Hb]. rewrite (land_pred_testbit w) in Hb by lia.
    apply andb_true_iff in Hb as [Hb Hne]. destruct (decide (i = countr_zero w z)) as [E|].
    { rewrite bool_decide_eq_true_2 in Hne; done. }
    destruct (decide (i < countr_zero w z)) as [E|]; [rewrite H2 in Hb; done|lia].
  - intros i. rewrite elem_of_cons, !elem_of_bits_in. pose proof (countr_zero_lt w z n Hz Hn). split.
    + intros [Hi Hb]. destruct (decide (i = countr_zero w z)); [by left|right].
      split; [done|]. rewrite (land_pred_testbit w), Hb by lia. by rewrite bool_decide_eq_false_2.
    + intros [->|[Hi Hb]]; [split; [lia|done]|]. split; [done|].
      rewrite (land_pred_testbit w) in Hb by lia. by apply andb_true_iff in Hb as [? _].
Qed.

(** * Byte memory

    A region of memory is the list of its bytes; multi-byte loads and stores are
    little-endian, and a load outside the region is [None]. *)

Definition slice {A} (mem : list A) (off len : Z) : option (list A) :=
  if decide (0 <= off /\ 0 <= len /\ off + len <= zlen mem)
  then Some (take (Z.to_nat len) (drop (Z.to_nat off) mem)) else None.

Definition load (bytes : Z) (mem : list Z) (off : Z) : option Z :=
  little_endian_to_Z 8 <$> slice mem off bytes.

Definition store_le (bytes v : Z) : list Z := Z_to_little_endian bytes 8 v.

Definition is_bytes (l : list Z) : Prop := Forall (is_u 8) l.

Lemma zlen_store_le n v : 0 <= n -> zlen (store_le n v) = n.
Proof. intros. unfold zlen, store_le. by rewrite length_Z_to_little_endian. Qed.
#[export] Hint Rewrite zlen_store_le using lia : zlen.

Lemma is_bytes_store_le n v : 0 <= n -> is_bytes (store_le n v).
Proof. intros. by apply Z_to_little_endian_bound. Qed.

Lemma slice_app {A} (pre mid post : list A) off len :
  off = zlen pre -> len = zlen mid -> slice (pre ++ mid ++ post) off len = Some mid.
Proof.
  intros -> ->. unfold slice. rewrite decide_True by (zlen; unfold zlen; lia).
  unfold zlen. rewrite !Nat2Z.id, drop_app_length, take_app_length. done.
Qed.

Lemma slice_Some {A} (mem : list A) off len l :
  slice mem off len = Some l ->
  exists pre post, mem = pre ++ l ++ post /\ zlen pre = off /\ zlen l = len.
Proof.
  unfold slice. case_decide as H; [|done]. intros [= <-].
  exists (take (Z.to_nat off) mem), (drop (Z.to_nat len) (drop (Z.to_nat off) mem)).
  split; [by rewrite take_drop, take_drop|]. unfold zlen in *.
  rewrite !length_take, length_drop. lia.
Qed.

Lemma load_store n pre v post :
  0 <= n -> load n (pre ++ store_le n v ++ post) (zlen pre) = Some (uwrap (8 * n) v).
Proof.
  intros Hn. unfold load. rewrite slice_app by (zlen; done). simpl. f_equal.
  unfold store_le. rewrite little_endian_to_Z_to_little_endian by lia.
  unfold uwrap. do 2 f_equal. lia.
Qed.

(** A load through a longer region that contains the loaded bytes. *)
Lemma slice_mono {A} (pre mem post : list A) off len l :
  slice mem off len = Some l -> slice (pre ++ mem ++ post) (zlen pre + off) len = Some l.
Proof.
  intros (p & q & -> & Hp & Hl)%slice_Some.
  replace (pre ++ (p ++ l ++ q) ++ post) with ((pre ++ p) ++ l ++ (q ++ post))
    by (by rewrite <- !app_assoc).
  apply slice_app; [zlen|done].
Qed.

Lemma load_mono n pre mem post off v :
  load n mem off = Some v -> load n (pre ++ mem ++ post) (zlen pre + off) = Some v.
Proof.
  unfold load. destruct (slice mem off n) as [l|] eqn:E; simpl; [|done].
  intros [= <-]. by rewrite (slice_mono _ _ _ _ _ _ E).
Qed.

(** * Effects

    [Ret] is a normal return, [Throw] a C++ exception with its message, and
    [Undef] an execution the language leaves undefined or that a failed [assert]
    aborts.  [SM S] threads an object of state type [S] through such code; the
    state survives an exception as the code left it. *)



Inductive outcome (A : Type) : Type :=
  | Ret (a : A)
  | Throw (msg : string)
  | Undef.
Arguments Ret {A} _.
Arguments Throw {A} _.
Arguments Undef {A}.

(** Code without an object of its own. *)
#[export] Instance outcome_ret : MRet outcome := fun A a => Ret a.
#[export] Instance outcome_bind : MBind outcome := fun A B f c =>
  match c with Ret a => f a | Throw m => Throw m | Undef => Undef end.

Definition lift {A} (o : option A) : outcome A := match o with Some a => Ret a | None => Undef end.

Fixpoint foldE {S A} (f : S -> A -> outcome S) (s : S) (l : list A) : outcome S :=
  match l with
  | [] => Ret s
  | x :: l => s ← f s x; foldE f s l
  end.

Lemma foldE_app {S A} (f : S -> A -> outcome S) s l k :
  foldE f s (l ++ k) = (s ← foldE f s l; foldE f s k).
Proof. revert s. induction l as [|x l IH]; intros s; [done|]. simpl. destruct (f s x); simpl; [apply IH|done..]. Qed.

(** [may_throw m o Q]: the code is defined, and returns a value that satisfies [Q] or, when
    [m] is a message, throws it. *)
Definition may_throw {A} (m : option string) (o : outcome A) (Q : A -> Prop) : Prop :=
  match o with Ret a => Q a | Throw m' => m = Some m' | Undef => False end.

Lemma may_throw_bind {A B} m (o : outcome A) (f : A -> outcome B) Q R :
  may_throw m o Q -> (forall a, Q a -> may_throw m (f a) R) -> may_throw m (o ≫= f) R.
Proof. destruct o; simpl; auto. Qed.

Lemma may_throw_lift {A B} m (o : option A) a (f : A -> outcome B) R :
  o = Some a -> may_throw m (f a) R -> may_throw m (lift o ≫= f) R.
Proof. by intros ->. Qed.

Lemma may_throw_mono {A} m (o : outcome A) (Q R : A -> Prop) :
  may_throw m o Q -> (forall a, Q a -> R a) -> may_throw m o R.
Proof. destruct o; simpl; auto. Qed.

Lemma may_throw_foldE {S} m (P : Z -> S -> Prop) (f : S -> Z -> outcome S) s a n :
  0 <= n -> P a s -> (forall i s, a <= i < a + n -> P i s -> may_throw m (f s i) (P (i + 1))) ->
  may_throw m (foldE f s (seqZ a n)) (P (a + n)).
Proof.
  intros Hn. rewrite <- (Z2Nat.id n) by done. generalize (Z.to_nat n). clear n Hn. intros n.
  induction n as [|n IH]; intros Hs Hf; [by rewrite Z.add_0_r|].
  rewrite Nat2Z.inj_succ, <- Z.add_1_r, seqZ_app, foldE_app by lia.
  eapply may_throw_bind; [apply IH; [done|intros; apply Hf; [lia|done]]|]. intros s' Hs'.
  simpl. replace (a + (Z.of_nat n + 1)) with (a + Z.of_nat n + 1) by lia.
  eapply may_throw_bind; [apply Hf; [lia|done]|done].
Qed.

Lemma foldE_returns {S} (P : Z -> S -> Prop) (f : S -> Z -> outcome S) s a n :
  0 <= n -> P a s -> (forall i s, a <= i < a + n -> P i s -> exists s', f s i = Ret s' /\ P (i + 1) s') ->
  exists s', foldE f s (seqZ a n) = Ret s' /\ P (a + n) s'.
Proof.
  intros Hn Hs Hf. assert (may_throw None (foldE f s (seqZ a n)) (P (a + n))) as H.
  { apply may_throw_foldE; [done..|]. intros i s0 Hi Hs0. by destruct (Hf i s0 Hi Hs0) as (s1 & -> & H1). }
  destruct (foldE f s (seqZ a n)); simpl in H; [by eexists|done..].
Qed.

Definition SM (S A : Type) : Type := S -> outcome A * S.

#[export] Instance SM_ret {S} : MRet (SM S) := fun A a s => (Ret a, s).
#[export] Instance SM_bind {S} : MBind (SM S) := fun A B f c s =>
  match c s with
  | (Ret a, s') => f a s'
  | (Throw m, s') => (Throw m, s')
  | (Undef, s') => (Undef, s')
  end.

Definition throw {S A} (msg : string) : SM S A := fun s => (Throw msg, s).
Definition undef {S A} : SM S A := fun s => (Undef, s).
Definition get {S} : SM S S := fun s => (Ret s, s).
Definition put {S} (s : S) : SM S unit := fun _ => (Ret (), s).
Definition modify {S} (f : S -> S) : SM S unit := fun s => (Ret (), f s).

(** C++ [assert]. *)
Definition assert {S} (P : Prop) `{!Decision P} : SM S unit :=
  if decide P then mret () else undef.

Lemma bind_ret {S A B} (c : SM S A) (f : A -> SM S B) s a s' :
  c s = (Ret a, s') -> (c ≫= f) s = f a s'.
Proof. intros E. unfold mbind, SM_bind. by rewrite E. Qed.

Lemma bind_throw {S A B} (c : SM S A) (f : A -> SM S B) s m s' :
  c s = (Throw m, s') -> (c ≫= f) s = (Throw m, s').
Proof. intros E. unfold mbind, SM_bind. by rewrite E. Qed.

Lemma assert_true {S} (P : Prop) `{!Decision P} (s : S) : P -> assert P s = (Ret (), s).
Proof. intros. unfold assert. by rewrite decide_True. Qed.

(** [checked z] is signed 64-bit arithmetic with result [z]; an overflow is undefined. *)
Definition checked {S} (z : Z) : SM S Z := if decide (is_s 64 z) then mret z else undef.

(** [wp c Q s]: from state [s], the code [c] returns normally and [Q] holds of its result
    and the state it leaves. *)
Definition wp {S A} (c : SM S A) (Q : A -> S -> Prop) (s : S) : Prop :=
  match c s with (Ret a, s') => Q a s' | _ => False end.

Lemma wp_ret {S A} (a : A) (Q : A -> S -> Prop) s : Q a s -> wp (mret a) Q s.
Proof. done. Qed.

Lemma wp_bind {S A B} (c : SM S A) (f : A -> SM S B) Q s :
  wp c (fun a s' => wp (f a) Q s') s -> wp (c ≫= f) Q s.
Proof. unfold wp, mbind, SM_bind. by destruct (c s) as [[a|m|] s']. Qed.

Lemma wp_get {S} (Q : S -> S -> Prop) s : Q s s -> wp get Q s.
Proof. done. Qed.

Lemma wp_modify {S} (f : S -> S) Q s : Q () (f s) -> wp (modify f) Q s.
Proof. done. Qed.

Lemma wp_assert {S} (P : Prop) `{!Decision P} Q (s : S) : P -> Q () s -> wp (assert P) Q s.
Proof. intros. unfold wp. by rewrite assert_true. Qed.

Lemma wp_checked {S} z Q (s : S) : is_s 64 z -> Q z s -> wp (checked z) Q s.
Proof. intros. unfold wp, checked. by rewrite decide_True. Qed.

Lemma wp_mono {S A} (c : SM S A) (Q R : A -> S -> Prop) s :
  wp c Q s -> (forall a s', Q a s' -> R a s') -> wp c R s.
Proof. unfold wp. destruct (c s) as [[a|m|] s']; auto. Qed.

Lemma wp_elim {S A} (c : SM S A) Q s : wp c Q s -> exists a s', c s = (Ret a, s') /\ Q a s'.
Proof. unfold wp. destruct (c s) as [[a|m|] s']; [eauto|done..]. Qed.

(** One step of straight-line code; assertions and overflow checks become goals. *)
Ltac wp_step :=
  lazymatch goal with
  | |- wp (_ ≫= _) _ _ => apply wp_bind
  | |- wp (mret _) _ _ => apply wp_ret
  | |- wp get _ _ => apply wp_get
  | |- wp (modify _) _ _ => apply wp_modify
  | |- wp (assert _) _ _ => apply wp_assert
  | |- wp (checked _) _ _ => apply wp_checked
  end; cbv beta.

(** Straight-line code with its linear side conditions. *)
Ltac wp_run := repeat wp_step; try (unfold is_s in *; simpl; lia); try done.
