(* ===== verification/Encoding.v ===== *)
(** Variable-length and zig-zag integers: [util/encoding.h].

    A write produces the list of bytes stored at the pointer (which advances by
    its length); a read consumes a prefix of the bytes at the pointer and returns
    the rest.  [None] is undefined behaviour: a shift by the width of the type or
    a read past the buffer. *)
From S2P Require Import Prelude.

Definition MAX_VINT_SIZE : nat := 5.
Definition MAX_VLONG_SIZE : nat := 10.

(** ** Writers *)

(** The loop shared by [writeVInt] and [writeVLong]: it runs at most [fuel] times. *)
Fixpoint writeVar (fuel : nat) (val : Z) : option (list Z) :=
  match fuel with
  | O => None
  | S fuel =>
      if decide (val > 127)
      then (u8 (Z.lor val 128) ::.) <$> writeVar fuel (Z.shiftr val 7)
      else Some [u8 val]
  end.

Definition writeVInt (val : Z) : option (list Z) := writeVar MAX_VINT_SIZE val.
Definition writeVLong (val : Z) : option (list Z) := writeVar MAX_VLONG_SIZE val.

(** ** Readers *)

(** The continuation loop of a [w]-bit read: [b] is the last byte read. *)
Fixpoint readVarLoop (w shift val b : Z) (p : list Z) {struct p} : option (Z * list Z) :=
  if decide (Z.land b 128 = 0) then Some (val, p)
  else if decide (w <= shift) then None
  else match p with
       | [] => None
       | b' :: p =>
           readVarLoop w (shift + 7)
             (Z.lor val (uwrap w (Z.shiftl (Z.land b' 127) shift))) b' p
       end.

Definition readVar (w : Z) (p : list Z) : option (Z * list Z) :=
  match p with
  | [] => None
  | b :: p => readVarLoop w 7 (Z.land b 127) b p
  end.

Definition readVInt (p : list Z) : option (Z * list Z) := readVar 32 p.
Definition readVLong (p : list Z) : option (Z * list Z) := readVar 64 p.

(** ** Zig-zag *)

Definition zigzagEncode (val : Z) : Z :=
  Z.lxor (u64 (Z.shiftl (u64 val) 1)) (u64 (Z.shiftr val 63)).
Definition zigzagDecode (val : Z) : Z :=
  s64 (Z.lxor (Z.shiftr val 1) (uneg 64 (Z.land val 1))).

Definition writeZLong (val : Z) : option (list Z) := writeVLong (zigzagEncode val).
Definition readZLong (p : list Z) : option (Z * list Z) :=
  '(v, p) ← readVLong p; Some (zigzagDecode v, p).

(** * The varint codec *)

(** What the written bytes mean, independently of the loops. *)
Fixpoint varint_value (bs : list Z) : Z :=
  match bs with
  | [] => 0
  | b :: bs => Z.land b 127 + 128 * varint_value bs
  end.

(** A canonical varint: every byte but the last has its continuation bit set,
    and what follows a continued byte is not zero. *)
Fixpoint varint_wf (bs : list Z) : Prop :=
  match bs with
  | [] => False
  | [b] => is_u 7 b
  | b :: bs => is_u 8 b /\ Z.land b 128 <> 0 /\ 0 < varint_value bs /\ varint_wf bs
  end.

Lemma land_127 b : Z.land b 127 = b `mod` 128.
Proof. change 127 with (Z.ones 7). by rewrite Z.land_ones by lia. Qed.

Lemma land_128_low b : is_u 7 b -> Z.land b 128 = 0.
Proof.
  intros Hb. apply Z.bits_inj'. intros i Hi. rewrite Z.land_spec, Z.testbit_0_l.
  change 128 with (2 ^ 7). rewrite testbit_pow2 by lia. case_bool_decide; [|apply andb_false_r].
  by rewrite (testbit_high 7) by (done || lia).
Qed.

Lemma land_u8_cont v : Z.land (u8 (Z.lor v 128)) 128 <> 0.
Proof.
  intros E. apply (f_equal (fun z => Z.testbit z 7)) in E.
  rewrite Z.land_spec, testbit_uwrap, Z.lor_spec in E by lia.
  change 128 with (2 ^ 7) in E. rewrite !testbit_pow2 in E by lia.
  rewrite orb_true_r in E. done.
Qed.

Lemma mod_u8_cont v : Z.land (u8 (Z.lor v 128)) 127 = v `mod` 128.
Proof.
  rewrite <- land_127. change 127 with (Z.ones 7). change 128 with (2 ^ 7).
  apply Z.bits_inj'. intros i Hi. autorewrite with zbits. rewrite testbit_pow2 by lia.
  zbits_cases.
Qed.

Lemma writeVar_value fuel v bs :
  0 <= v -> writeVar fuel v = Some bs -> varint_value bs = v /\ varint_wf bs.
Proof.
  revert v bs. induction fuel as [|fuel IH]; intros v bs Hv; simpl; [done|].
  case_decide as Hc.
  - destruct (writeVar fuel (Z.shiftr v 7)) as [bs'|] eqn:E; [|done]. intros [= <-].
    apply IH in E as [E1 E2]; [|by apply Z.shiftr_nonneg].
    rewrite Z.shiftr_div_pow2 in E1 by lia. split.
    + cbn [varint_value]. rewrite E1, mod_u8_cont. change (2 ^ 7) with 128.
      pose proof (Z_div_mod_eq_full v 128). lia.
    + destruct bs' as [|b' bs']; [done|].
      split; [apply uwrap_range; lia|]. split; [apply land_u8_cont|].
      split; [|done]. rewrite E1. change (2 ^ 7) with 128. apply Z.div_str_pos. lia.
  - intros [= <-]. rewrite uwrap_id by (unfold is_u; lia). cbn [varint_value varint_wf].
    rewrite land_127, Z.mod_small by lia. unfold is_u. lia.
Qed.

(** [fuel] bytes hold every value below [2 ^ (7 * fuel)]. *)
Lemma writeVar_enough fuel v :
  (0 < fuel)%nat -> is_u (7 * Z.of_nat fuel) v ->
  exists bs, writeVar fuel v = Some bs /\ (0 < length bs <= fuel)%nat.
Proof.
  revert v. induction fuel as [|fuel IH]; intros v Hf Hv; [lia|]. simpl.
  case_decide as Hc; [|exists [u8 v]; split; [done|simpl; lia]].
  assert (0 < fuel)%nat as Hf'.
  { destruct fuel; [|lia]. unfold is_u in Hv. change (2 ^ (7 * Z.of_nat 1)) with 128 in Hv. lia. }
  destruct (IH (Z.shiftr v 7)) as (bs & -> & Hl); [done| |].
  { unfold is_u in *. rewrite Z.shiftr_div_pow2 by lia. split; [apply Z.div_pos; lia|].
    apply Z.div_lt_upper_bound; [lia|]. rewrite <- Z.pow_add_r by lia.
    replace (7 + 7 * Z.of_nat fuel) with (7 * Z.of_nat (S fuel)) by lia. lia. }
  simpl. eexists. split; [done|]. simpl. lia.
Qed.


(** Reading a canonical varint accumulates its value on top of what was read. *)
Lemma readVarLoop_spec w bs shift val b rest :
  0 <= shift -> is_u shift val -> Z.land b 128 <> 0 -> varint_wf bs -> 0 < varint_value bs ->
  is_u w (2 ^ shift * varint_value bs) ->
  readVarLoop w shift val b (bs ++ rest) = Some (val + 2 ^ shift * varint_value bs, rest).
Proof.
  revert shift val b. induction bs as [|b' bs IH]; intros shift val b Hs Hval Hb Hwf Hpos Hv; [done|].
  pose proof (pow2_pos shift Hs) as Hp. cbn [varint_value] in Hv, Hpos |- *. rewrite land_127 in *.
  pose proof (Z.mod_pos_bound b' 128 ltac:(lia)) as Hb'.
  cbn [readVarLoop app]. rewrite decide_False by done. rewrite decide_False.
  2: { intros Hw. unfold is_u in Hv. assert (2 ^ w <= 2 ^ shift) by (apply Z.pow_le_mono_r; lia). nia. }
  assert (0 <= varint_value bs) as Htl.
  { destruct bs; [done|]. destruct Hwf as (_ & _ & ? & _). lia. }
  rewrite (uwrap_id w).
  2: { rewrite Z.shiftl_mul_pow2, land_127 by done. unfold is_u in *. nia. }
  rewrite lor_shiftl_add, land_127 by done. destruct bs as [|b2 bs].
  - simpl varint_value. cbn [app]. destruct rest; cbn [readVarLoop];
      rewrite decide_True by (by apply land_128_low); do 2 f_equal;
      simpl in Hwf; unfold is_u in Hwf; lia.
  - destruct Hwf as (_ & Hc & Htp & Hwf). rewrite IH; [|lia| |done..|].
    + do 2 f_equal. rewrite Z.pow_add_r by lia. change (2 ^ 7) with 128. lia.
    + unfold is_u in *. rewrite Z.pow_add_r by lia. change (2 ^ 7) with 128. nia.
    + unfold is_u in *. rewrite Z.pow_add_r by lia. change (2 ^ 7) with 128. nia.
Qed.

Lemma readVar_spec w bs rest :
  varint_wf bs -> is_u w (varint_value bs) ->
  readVar w (bs ++ rest) = Some (varint_value bs, rest).
Proof.
  destruct bs as [|b bs]; [done|]. intros Hwf Hv. cbn [readVar app varint_value].
  destruct bs as [|b2 bs].
  - simpl in Hwf. simpl varint_value. rewrite land_127, Z.mod_small by (unfold is_u in Hwf; lia).
    cbn [app]. destruct rest; cbn [readVarLoop];
      rewrite decide_True by (by apply land_128_low); do 2 f_equal; lia.
  - destruct Hwf as (Hb & Hc & Hp & Hwf). pose proof (Z.mod_pos_bound b 128 ltac:(lia)).
    rewrite readVarLoop_spec; [done|lia| |done..|].
    + rewrite land_127. unfold is_u. lia.
    + change (varint_value (b :: b2 :: bs))
        with (Z.land b 127 + 128 * varint_value (b2 :: bs)) in Hv.
      rewrite land_127 in Hv. change (2 ^ 7) with 128. unfold is_u in *. lia.
Qed.

Lemma writeVar_readVar w fuel v rest :
  (0 < fuel)%nat -> w <= 7 * Z.of_nat fuel -> is_u w v ->
  exists bs, writeVar fuel v = Some bs /\ (0 < length bs <= fuel)%nat /\
    varint_wf bs /\ varint_value bs = v /\ readVar w (bs ++ rest) = Some (v, rest).
Proof.
  intros Hf Hw Hv. destruct (writeVar_enough fuel v) as (bs & E & Hl); [done| |].
  { unfold is_u in *. assert (2 ^ w <= 2 ^ (7 * Z.of_nat fuel)) by (apply Z.pow_le_mono_r; lia). lia. }
  destruct (writeVar_value fuel v bs) as [Hval Hwf]; [unfold is_u in Hv; lia|done|].
  exists bs. split_and!; try done; try lia. rewrite readVar_spec; [by rewrite Hval|done|by rewrite Hval].
Qed.

(** * Zig-zag *)

Lemma lxor_all_ones n x : 0 <= n -> is_u n x -> Z.lxor x (2 ^ n - 1) = 2 ^ n - 1 - x.
Proof.
  intros Hn Hx. replace (2 ^ n - 1 - x) with (uwrap n (Z.lnot x)).
  2: { unfold uwrap, Z.lnot. unfold is_u in Hx.
       rewrite <- (Z.mod_unique (Z.pred (- x)) (2 ^ n) (-1) (2 ^ n - 1 - x)); lia. }
  apply Z.bits_inj'. intros i Hi. autorewrite with zbits. rewrite testbit_pow2m1 by lia.
  case_bool_decide; [by destruct (Z.testbit x i)|].
  by rewrite (testbit_high n) by (done || lia).
Qed.

Lemma zigzagEncode_alt v :
  is_s 64 v -> zigzagEncode v = if decide (0 <= v) then 2 * v else - 2 * v - 1.
Proof.
  unfold is_s. change (64 - 1) with 63. intros Hv. unfold zigzagEncode.
  rewrite !Z.shiftl_mul_pow2, Z.shiftr_div_pow2 by lia. change (2 ^ 1) with 2. case_decide.
  - rewrite (Z.div_small v) by lia. change (u64 0) with 0. rewrite Z.lxor_0_r.
    rewrite uwrap_mul_l. rewrite uwrap_id by (unfold is_u; lia). lia.
  - replace (v / 2 ^ 63) with (-1).
    2: { apply Z.div_unique with (v + 2 ^ 63); lia. }
    change (u64 (-1)) with (2 ^ 64 - 1). rewrite uwrap_mul_l.
    replace (u64 (v * 2)) with (2 * v + 2 ^ 64).
    2: { unfold uwrap. apply Z.mod_unique with (-1); lia. }
    rewrite lxor_all_ones; unfold is_u; lia.
Qed.

Lemma zigzagEncode_range v : is_s 64 v -> is_u 64 (zigzagEncode v).
Proof.
  intros Hv. rewrite zigzagEncode_alt by done. unfold is_s, is_u in *. case_decide; lia.
Qed.

Lemma zigzagDecode_alt v :
  is_u 64 v -> zigzagDecode v = if decide (v `mod` 2 = 0) then v / 2 else - (v / 2) - 1.
Proof.
  intros Hv. unfold zigzagDecode, uneg. rewrite Z.shiftr_div_pow2 by lia.
  change (2 ^ 1) with 2. change 1 with (Z.ones 1) at 1. rewrite Z.land_ones by lia. change (2 ^ 1) with 2.
  pose proof (Z.mod_pos_bound v 2 ltac:(lia)). pose proof (Z_div_mod_eq_full v 2).
  unfold is_u in Hv. case_decide as E.
  - rewrite E. change (u64 (- 0)) with 0. rewrite Z.lxor_0_r. apply swrap_id; unfold is_s; lia.
  - replace (v `mod` 2) with 1 by lia. change (u64 (Z.opp 1)) with (2 ^ 64 - 1).
    rewrite lxor_all_ones by (unfold is_u; lia).
    unfold swrap. change (64 - 1) with 63.
    replace (2 ^ 64 - 1 - v / 2 + 2 ^ 63) with ((2 ^ 63 - v / 2 - 1) + 1 * 2 ^ 64) by lia.
    rewrite Z_mod_plus_full, Z.mod_small; lia.
Qed.

Lemma zigzag_roundtrip v : is_s 64 v -> zigzagDecode (zigzagEncode v) = v.
Proof.
  intros Hv. rewrite zigzagDecode_alt by (by apply zigzagEncode_range).
  rewrite zigzagEncode_alt by done. destruct (decide (0 <= v)).
  - rewrite decide_True by (rewrite Z.mul_comm; by apply Z.mod_mul).
    rewrite Z.mul_comm. by apply Z.div_mul.
  - replace (- 2 * v - 1) with (1 + (- v - 1) * 2) by lia.
    rewrite decide_False by (by rewrite Z_mod_plus_full).
    rewrite Z.div_add by lia. change (1 / 2) with 0. lia.
Qed.

Lemma readVInt_writeVInt v rest :
  is_u 32 v ->
  exists bs, writeVInt v = Some bs /\ (0 < length bs <= MAX_VINT_SIZE)%nat /\
    readVInt (bs ++ rest) = Some (v, rest).
Proof.
  intros Hv. destruct (writeVar_readVar 32 MAX_VINT_SIZE v rest)
    as (bs & E & Hl & _ & _ & R); [vm_compute; lia|done|done|]. by exists bs.
Qed.

Lemma readVLong_writeVLong v rest :
  is_u 64 v ->
  exists bs, writeVLong v = Some bs /\ (0 < length bs <= MAX_VLONG_SIZE)%nat /\
    readVLong (bs ++ rest) = Some (v, rest).
Proof.
  intros Hv. destruct (writeVar_readVar 64 MAX_VLONG_SIZE v rest)
    as (bs & E & Hl & _ & _ & R); [vm_compute; lia|done|done|]. by exists bs.
Qed.

(** Every signed 64-bit value is written in at most [MAX_VLONG_SIZE] bytes, and
    reading them back, whatever follows in the buffer, returns the value and stops
    at the first byte after it. *)
Theorem readZLong_writeZLong (v : Z) (rest : list Z) :
  is_s 64 v ->
  exists bs, writeZLong v = Some bs /\ (0 < length bs <= MAX_VLONG_SIZE)%nat /\
    readZLong (bs ++ rest) = Some (v, rest).
Proof.
  intros Hv. destruct (readVLong_writeVLong (zigzagEncode v) rest) as (bs & E & Hl & R).
  { by apply zigzagEncode_range. }
  exists bs. split_and!; [done|lia|lia|]. unfold readZLong. rewrite R. simpl.
  by rewrite zigzag_roundtrip.
Qed.

Lemma readZLong_writeZLong_witness :
  is_s 64 (-300) /\
  exists bs, writeZLong (-300) = Some bs /\ (0 < length bs <= MAX_VLONG_SIZE)%nat /\
    readZLong (bs ++ [7]) = Some (-300, [7]).
Proof.
  assert (is_s 64 (-300)) as H by (unfold is_s; lia).
  split; [exact H|]. exact (readZLong_writeZLong (-300) [7] H).
Defined.

(** The largest values need exactly the advertised maximum number of bytes. *)
Example writeVInt_max : length <$> writeVInt (2 ^ 32 - 1) = Some MAX_VINT_SIZE.
Proof. reflexivity. Qed.
Example writeVLong_max : length <$> writeVLong (2 ^ 64 - 1) = Some MAX_VLONG_SIZE.
Proof. reflexivity. Qed.
