(* ===== verification/Streams.v ===== *)
(** Byte streams: [store/InputStream.h], and [store/OutputStream.h] over the
    in-memory [RAMFile] (no storage quota attached).

    [Module Input] is the cursor over a mapped file, [Module Output] the buffered
    writer with the chain of buffers behind it.  A mapped file is the list of its
    bytes; positions are offsets from its start. *)
From S2P Require Import Prelude Encoding.

Module Input.

Record istream := IStream { is_mem : list Z; is_pos : Z }.

Definition offset (s : istream) : Z := is_pos s.
Definition size (s : istream) : Z := zlen (is_mem s).
Definition left (s : istream) : Z := size s - is_pos s.
Definition set_pos (p : Z) (s : istream) : istream := IStream (is_mem s) p.

(** The position lies in the file, its end included. *)
Definition wf (s : istream) : Prop := 0 <= is_pos s <= size s.

Definition seek (off : Z) : SM istream unit :=
  modify (set_pos off);; s ← get; assert (wf s).

Definition relativeSeek (off : Z) : SM istream unit :=
  modify (fun s => set_pos (is_pos s + off) s);; s ← get; assert (wf s).

Definition skip (len : Z) : SM istream unit :=
  modify (fun s => set_pos (is_pos s + len) s);; s ← get; assert (wf s /\ 0 <= len).

Definition readByte : SM istream Z :=
  s ← get;
  assert (is_pos s < size s);;
  match (is_mem s).[is_pos s] with
  | Some b => put (set_pos (is_pos s + 1) s);; mret b
  | None => undef
  end.

(** [memcpy] of [len] bytes out of the file. *)
Definition read (len : Z) : SM istream (list Z) :=
  s ← get;
  match slice (is_mem s) (is_pos s) len with
  | Some bs => put (set_pos (is_pos s + len) s);; mret bs
  | None => undef
  end.

Definition loadAt (bytes : Z) : SM istream Z :=
  s ← get;
  assert (is_pos s + bytes <= size s);;
  match load bytes (is_mem s) (is_pos s) with
  | Some v => put (set_pos (is_pos s + bytes) s);; mret v
  | None => undef
  end.

Definition readInt : SM istream Z := v ← loadAt 4; mret (s32 v).
Definition readLong : SM istream Z := v ← loadAt 8; mret (s64 v).

(** The continuation loop of [readVint] ([w] = 32) and [readVlong] ([w] = 64). A
    shift by [w] or more is undefined, so [fuel] past [w / 7] is never used. *)
Fixpoint readVarLoop (fuel : nat) (w shift val b : Z) : SM istream Z :=
  if decide (Z.land b 128 = 0) then mret val
  else match fuel with
       | O => undef
       | S fuel =>
           b' ← readByte;
           assert (shift < w);;
           readVarLoop fuel w (shift + 7)
             (Z.lor val (uwrap w (Z.shiftl (Z.land b' 127) shift))) b'
       end.

Definition readVint : SM istream Z := b ← readByte; readVarLoop 5 32 7 (Z.land b 127) b.
Definition readVlong : SM istream Z := b ← readByte; readVarLoop 10 64 7 (Z.land b 127) b.
Definition readZlong : SM istream Z := v ← readVlong; mret (zigzagDecode v).

Definition readStrLen : SM istream Z := readVint.

Definition readStr : SM istream (list Z) :=
  len ← readStrLen;
  s ← get;
  skip len;;
  match slice (is_mem s) (is_pos s) len with Some bs => mret bs | None => undef end.

Definition skipStr : SM istream unit :=
  len ← readStrLen;
  modify (fun s => set_pos (is_pos s + len) s);; s ← get; assert (is_pos s <= size s).

(** A packed term is a length byte and that many bytes; the result is the whole of it. *)
Definition termMemorySize (s : istream) : option Z := (fun n => n + 1) <$> (is_mem s).[is_pos s].

Definition readPackedTerm : SM istream (list Z) :=
  s ← get;
  match termMemorySize s with
  | None => undef
  | Some n =>
      put (set_pos (is_pos s + n) s);;
      assert (is_pos s + n <= size s);;
      match slice (is_mem s) (is_pos s) n with Some bs => mret bs | None => undef end
  end.

(** ** Bounds-checked reads *)

Definition truncated_msg : string := "index data is truncated or in an unsupported format".
Definition varint_msg : string := "index data has an invalid variable-length integer".

Definition require (len : Z) : SM istream unit :=
  s ← get;
  if decide (len < 0 \/ left s < len) then throw truncated_msg else mret ().

Definition checkedInt : SM istream Z := require 4;; readInt.

(** Iterations [i], [i + 1], ... of the loop, [fuel] of them in all. *)
Fixpoint checkedVlongLoop (fuel : nat) (i val : Z) : SM istream Z :=
  match fuel with
  | O => throw varint_msg
  | S fuel =>
      require 1;;
      s ← get;
      match (is_mem s).[is_pos s] with
      | None => undef
      | Some b =>
          put (set_pos (is_pos s + 1) s);;
          assert (7 * i < 64);;
          let val := Z.lor val (u64 (Z.shiftl (Z.land b 127) (7 * i))) in
          if decide (Z.land b 128 = 0) then mret val else checkedVlongLoop fuel (i + 1) val
      end
  end.

Definition checkedVlong (maxBytes : nat) : SM istream Z := checkedVlongLoop maxBytes 0 0.
Definition checkedVint : SM istream Z := v ← checkedVlong 5; mret (u32 v).

Definition checkedPackedTerm : SM istream (list Z) :=
  require 1;;
  s ← get;
  match termMemorySize s with
  | None => undef
  | Some n => require n;; readPackedTerm
  end.

End Input.

(** * Segment locations *)

Module SegLocation.

Definition FILENUM_BITS : Z := 20.
Definition OFFSET_BITS : Z := 64 - FILENUM_BITS.
Definition OFFSET_MASK : Z := Z.shiftr (2 ^ 64 - 1) FILENUM_BITS.
Definition maxOffset : Z := OFFSET_MASK.
Definition maxFilenum : Z := 2 ^ FILENUM_BITS - 1.

(** The raw 64-bit value of a location. *)
Definition make (fnum off : Z) : Z := u64 (off + u64 (Z.shiftl (u64 fnum) OFFSET_BITS)).
Definition filenum (x : Z) : Z := u32 (Z.shiftr x OFFSET_BITS).
Definition offset (x : Z) : Z := Z.land x OFFSET_MASK.
Definition isNull (x : Z) : bool := bool_decide (x = 0).
Definition decode (x : Z) : Z * Z := (filenum x, offset x).

Definition read : SM Input.istream Z :=
  fnum ← Input.readVint; off ← Input.readVlong; mret (make fnum off).

Definition location_msg : string := "index data has an invalid segment location".

Definition checkedRead : SM Input.istream Z :=
  fnum ← Input.checkedVint;
  off ← Input.checkedVlong 10;
  if decide (maxFilenum < fnum \/ maxOffset < off) then throw location_msg
  else mret (make fnum off).

End SegLocation.

(** * Output *)

Module Output.

(** A buffer of a [RAMFile]: the bytes of its first [rb_used] positions. *)
Record rambuf := RamBuf { rb_data : list Z; rb_used : Z; rb_capacity : Z }.
Record ramfile := RamFile { rf_buffers : list rambuf; rf_fileSize : Z; rf_allocatedSize : Z }.

(** [os_start] is the index of the buffer [start] points to ([None] is the null
    pointer), [os_pending] the bytes of [[start, pos)] and [os_end] is [end - start]. *)
Record ostream := OStream {
  os_start : option nat; os_pending : list Z; os_end : Z;
  os_flushedSize : Z; os_file : ramfile }.

Definition START_BUFFER_SIZE : Z := 1024.

Definition empty_file : ramfile := RamFile [] 0 0.
Definition fresh : ostream := OStream None [] 0 0 empty_file.

Definition buffered (o : ostream) : Z := zlen (os_pending o).
Definition reserved (o : ostream) : Z := os_end o - zlen (os_pending o).
Definition size (o : ostream) : Z := os_flushedSize o + buffered o.

Definition newBuffer (sz : Z) (f : ramfile) : ramfile :=
  RamFile (rf_buffers f ++ [RamBuf [] 0 sz]) (rf_fileSize f) (rf_allocatedSize f + sz).

(** [buffers.back().used = n], with the bytes written through [pos]. *)
Definition set_back (pending : list Z) (bs : list rambuf) : list rambuf :=
  match last bs with
  | Some b => take (length bs - 1) bs ++ [RamBuf pending (zlen pending) (rb_capacity b)]
  | None => bs
  end.

Definition nextBufferSize (bs : list rambuf) : Z :=
  let prev := match last bs with
              | None => START_BUFFER_SIZE / 2
              | Some b => u32 (rb_used b)
              end in
  Z.max START_BUFFER_SIZE (Z.min (u32 (Z.shiftl prev 1)) 0x100000).

(** [RAMFile::flush]. *)
Definition flush (deferNewBuff : bool) (o : ostream) : ostream :=
  let f := os_file o in
  let fileSize := rf_fileSize f + buffered o in
  let buffers :=
    if decide (rf_buffers f <> [] /\ os_start o = Some (length (rf_buffers f) - 1)%nat)
    then set_back (os_pending o) (rf_buffers f) else rf_buffers f in
  let f := RamFile buffers fileSize (rf_allocatedSize f) in
  if deferNewBuff then OStream None [] 0 fileSize f
  else
    let sz := nextBufferSize buffers in
    OStream (Some (length buffers)) [] sz fileSize (newBuffer sz f).

(** ** The writing operations of [OutputStream] *)

Definition push (bs : list Z) (o : ostream) : ostream :=
  OStream (os_start o) (os_pending o ++ bs) (os_end o) (os_flushedSize o) (os_file o).

Definition unsafeWrite (bs : list Z) : SM ostream unit :=
  o ← get; assert (zlen bs <= reserved o);; put (push bs o).

Definition write (b : Z) : SM ostream unit :=
  o ← get;
  (if decide (reserved o = 0) then modify (flush false) else mret ());;
  unsafeWrite [u8 b].

(** [write(data, len)]: an iteration either writes a byte or flushes, so [fuel]
    above the length is enough. *)
Fixpoint writeLoop (fuel : nat) (data : list Z) : SM ostream unit :=
  match data with
  | [] => mret ()
  | _ =>
      match fuel with
      | O => undef
      | S fuel =>
          o ← get;
          let toWrite := Z.to_nat (Z.min (zlen data) (reserved o)) in
          unsafeWrite (take toWrite data);;
          let data := drop toWrite data in
          (match data with [] => mret () | _ => modify (flush false) end);;
          writeLoop fuel data
      end
  end.

Definition writeBytes (data : list Z) : SM ostream unit := writeLoop (2 + length data) data.

Definition writeInt (v : Z) : SM ostream unit := writeBytes (store_le 4 v).
Definition writeLong (v : Z) : SM ostream unit := writeBytes (store_le 8 v).

Fixpoint writeVarLoop (fuel : nat) (val : Z) : SM ostream unit :=
  match fuel with
  | O => undef
  | S fuel =>
      if decide (val > 127)
      then write (Z.lor val 128);; writeVarLoop fuel (Z.shiftr val 7)
      else write val
  end.

Definition writeVint (val : Z) : SM ostream unit := writeVarLoop MAX_VINT_SIZE val.
Definition writeVlong (val : Z) : SM ostream unit := writeVarLoop MAX_VLONG_SIZE val.

Definition writeStr (data : list Z) : SM ostream unit :=
  writeVint (u32 (zlen data));; writeBytes data.

(** [align]: pads with [fill] up to a multiple of [alignment]. *)
Fixpoint alignLoop (fuel : nat) (alignment fill : Z) : SM ostream unit :=
  o ← get;
  if decide (size o `mod` alignment = 0) then mret ()
  else match fuel with
       | O => undef
       | S fuel => write fill;; alignLoop fuel alignment fill
       end.

Definition align (alignment fill : Z) : SM ostream unit :=
  assert (0 < alignment);; alignLoop (Z.to_nat alignment) alignment fill.

Definition reserve (needed : Z) : SM ostream Z :=
  o ← get;
  (if decide (reserved o < needed) then
     modify (flush false);;
     o ← get;
     if decide (reserved o < needed)
     then throw "output reservation exceeds stream buffer capacity" else mret ()
   else mret ());;
  o ← get; mret (Z.min (reserved o) (2 ^ 32 - 1)).

Definition close : SM ostream unit := modify (flush true).

(** [RAMFile::destructiveAppend] of a file distinct from this one: the result is
    this file and the emptied one. *)
Definition destructiveAppend (f src : ramfile) : ramfile * ramfile :=
  (RamFile (rf_buffers f ++ rf_buffers src) (rf_fileSize f + rf_fileSize src)
     (rf_allocatedSize f + rf_allocatedSize src), empty_file).

(** [OutputStream::appendFile]. *)
Definition appendFile (src : ramfile) (o : ostream) : ostream * ramfile :=
  let o := flush true o in
  let (f, src') := destructiveAppend (os_file o) src in
  let o := OStream (os_start o) (os_pending o) (os_end o) (rf_fileSize f) f in
  (flush false o, src').

(** [RAMFile::copyTo]. *)
Definition copyTo (f : ramfile) : list Z := rf_buffers f ≫= rb_data.

(** [writePackedTerm]: the length byte and the data. *)
Definition writePackedTerm (term : list Z) : SM ostream unit := writeBytes term.

(** [OutputStream::tryAppendRelocatable] with the default [File::isRelocatable]
    and [File::appendRelocatableTo]: the result is the base offset and the drained
    source, or [None] when the code returns false. *)
Definition tryAppendRelocatable (source : ostream) (alignment : Z)
    : SM ostream (option (Z * ostream)) :=
  assert (0 < alignment);;
  if decide (os_flushedSize source <> 0) then mret None
  else
    o ← get;
    let current := size o in
    let sourceBytes := size source in
    let padding := (alignment - current `mod` alignment) `mod` alignment in
    if decide (SegLocation.maxOffset < current \/
               SegLocation.maxOffset - current < padding \/
               SegLocation.maxOffset - current - padding < sourceBytes)
    then mret None
    else
      align alignment 0x11;;
      o ← get;
      writeBytes (os_pending source);;
      mret (Some (size o, OStream (os_start source) [] (os_end source)
                            (os_flushedSize source) (os_file source))).

(** [seg_location::write]. *)
Definition writeLocation (x : Z) : SM ostream unit :=
  writeVint (SegLocation.filenum x);; writeVlong (SegLocation.offset x).

End Output.

(** * Reading back

    [reads op bs v]: at any position where the bytes [bs] are next, [op] returns
    [v] and moves past them. *)

Section reads.
Import Input.

Definition reads {A} (op : SM istream A) (bs : list Z) (v : A) : Prop :=
  forall pre rest, op (IStream (pre ++ bs ++ rest) (zlen pre)) =
    (Ret v, IStream (pre ++ bs ++ rest) (zlen pre + zlen bs)).

Lemma reads_ret {A} (v : A) : reads (mret v) [] v.
Proof. intros pre rest. by rewrite Z.add_0_r. Qed.

Lemma reads_bind {A B} (op : SM istream A) (k : A -> SM istream B) bs1 bs2 a b :
  reads op bs1 a -> reads (k a) bs2 b -> reads (op ≫= k) (bs1 ++ bs2) b.
Proof.
  intros H1 H2 pre rest. rewrite <- app_assoc.
  erewrite bind_ret; [|apply H1]. specialize (H2 (pre ++ bs1) rest).
  rewrite zlen_app, <- app_assoc in H2. rewrite H2. by rewrite zlen_app, Z.add_assoc.
Qed.

Lemma reads_map {A B} (op : SM istream A) (f : A -> B) bs a :
  reads op bs a -> reads (x ← op; mret (f x)) bs (f a).
Proof.
  intros H. rewrite <- (app_nil_r bs). eapply reads_bind; [done|]. apply reads_ret.
Qed.

Lemma reads_readByte b : reads readByte [b] b.
Proof.
  intros pre rest. unfold readByte. erewrite bind_ret; [|done]. simpl.
  erewrite bind_ret; [|apply assert_true; unfold size; simpl; zlen; pose proof (zlen_nonneg rest); lia].
  simpl. rewrite zget_app_r by lia. rewrite Z.sub_diag. done.
Qed.

Lemma reads_slice bs n : n = zlen bs -> reads (read n) bs bs.
Proof.
  intros -> pre rest. unfold read. erewrite bind_ret; [|done]. simpl.
  by rewrite slice_app.
Qed.

Lemma reads_loadAt n v : 0 <= n -> reads (loadAt n) (store_le n v) (uwrap (8 * n) v).
Proof.
  intros Hn pre rest. unfold loadAt. erewrite bind_ret; [|done]. simpl.
  erewrite bind_ret.
  2: { apply assert_true. unfold Input.size. simpl. zlen. pose proof (zlen_nonneg rest). lia. }
  simpl. rewrite load_store by done. by rewrite zlen_store_le.
Qed.

(** The stream's continuation loop is the one of [Encoding]. *)
Lemma readVarLoop_reads fuel w shift val b bs v :
  Encoding.readVarLoop w shift val b bs = Some (v, []) ->
  (length bs <= fuel)%nat ->
  reads (readVarLoop fuel w shift val b) bs v.
Proof.
  revert shift val b bs. induction fuel as [|fuel IH]; intros shift val b bs E Hl.
  - destruct bs; [|simpl in Hl; lia]. simpl in *. case_decide; simplify_eq/=; [|by case_decide].
    apply reads_ret.
  - destruct bs as [|b' bs]; simpl in *.
    + case_decide; simplify_eq/=; [apply reads_ret|by case_decide].
    + case_decide as Hb; simplify_eq/=. case_decide as Hw; [done|].
      eapply (reads_bind _ _ [b'] bs); [apply reads_readByte|].
      eapply (reads_bind _ _ [] bs).
      { intros pre rest. rewrite Z.add_0_r. apply assert_true. lia. }
      apply IH; [done|lia].
Qed.

Lemma reads_var fuel w bs v :
  readVar w bs = Some (v, []) -> (length bs <= S fuel)%nat ->
  reads (b ← readByte; readVarLoop fuel w 7 (Z.land b 127) b) bs v.
Proof.
  destruct bs as [|b bs]; [done|]. simpl. intros E Hl.
  eapply (reads_bind _ _ [b] bs); [apply reads_readByte|].
  apply readVarLoop_reads; [done|lia].
Qed.

Lemma reads_readVint v bs : is_u 32 v -> writeVInt v = Some bs -> reads readVint bs v.
Proof.
  intros Hv E. destruct (readVInt_writeVInt v []) as (bs' & E' & Hl & R); [done|].
  simplify_eq. rewrite app_nil_r in R. apply reads_var; [done|]. unfold MAX_VINT_SIZE in Hl. lia.
Qed.

Lemma reads_readVlong v bs : is_u 64 v -> writeVLong v = Some bs -> reads readVlong bs v.
Proof.
  intros Hv E. destruct (readVLong_writeVLong v []) as (bs' & E' & Hl & R); [done|].
  simplify_eq. rewrite app_nil_r in R. apply reads_var; [done|]. unfold MAX_VLONG_SIZE in Hl. lia.
Qed.

Lemma reads_assert (P : Prop) `{!Decision P} : P -> reads (assert P) [] ().
Proof. intros HP pre rest. rewrite Z.add_0_r. by apply assert_true. Qed.

Lemma reads_checkedVlongLoop fuel i val bs :
  0 <= i -> (length bs <= fuel)%nat -> varint_wf bs -> i = 0 \/ 0 < varint_value bs ->
  is_u (7 * i) val -> is_u 64 (2 ^ (7 * i) * varint_value bs) ->
  reads (checkedVlongLoop fuel i val) bs (val + 2 ^ (7 * i) * varint_value bs).
Proof.
  revert i val bs. induction fuel as [|fuel IH]; intros i val bs Hi Hl Hwf Hpos Hval Hv.
  { destruct bs; [done|simpl in Hl; lia]. }
  destruct bs as [|b bs]; [done|]. pose proof (pow2_pos (7 * i) ltac:(lia)) as Hp.
  assert (0 <= varint_value bs) as Htl.
  { destruct bs; [done|]. destruct Hwf as (_ & _ & ? & _). lia. }
  cbn [varint_value] in Hpos, Hv |- *. rewrite land_127 in *.
  pose proof (Z.mod_pos_bound b 128 ltac:(lia)) as Hb.
  assert (7 * i < 64) as Hi64.
  { destruct (decide (7 * i < 64)); [done|]. unfold is_u in Hv.
    assert (2 ^ 64 <= 2 ^ (7 * i)) by (apply Z.pow_le_mono_r; lia). nia. }
  set (P := 2 ^ (7 * i)) in *. set (m := b `mod` 128) in *. set (t := varint_value bs) in *.
  assert (0 <= P * m <= P * (m + 128 * t)) as Hpm
    by (split; [apply Z.mul_nonneg_nonneg|apply Z.mul_le_mono_nonneg_l]; lia).
  assert (P * m <= P * 127) by (apply Z.mul_le_mono_nonneg_l; lia).
  assert (2 ^ (7 * (i + 1)) = 128 * P) as HP1.
  { unfold P. replace (7 * (i + 1)) with (7 + 7 * i) by lia. by rewrite Z.pow_add_r by lia. }
  intros pre rest. cbn [checkedVlongLoop app].
  unfold require. erewrite bind_ret; [|erewrite bind_ret; [|done]; rewrite decide_False; [done|]].
  2: { unfold left, size. simpl. zlen. pose proof (zlen_nonneg (bs ++ rest)). zlen. }
  erewrite bind_ret; [|done]. cbn [is_mem is_pos].
  rewrite zget_app_r by lia. rewrite Z.sub_diag, zget_cons_0.
  erewrite bind_ret; [|done]. erewrite bind_ret; [|by apply assert_true].
  rewrite (uwrap_id 64).
  2: { rewrite Z.shiftl_mul_pow2, land_127, Z.mul_comm by lia. unfold is_u in *. lia. }
  cbn zeta. rewrite lor_shiftl_add, land_127 by (done || lia). fold P m. destruct bs as [|b2 bs].
  - simpl in Hwf. rewrite decide_True by (by apply land_128_low). unfold t, set_pos. simpl. zlen.
    rewrite Z.mul_0_r, !Z.add_0_r. done.
  - destruct Hwf as (Hb8 & Hc & Htp & Hwf). rewrite decide_False by done.
    assert (reads (checkedVlongLoop fuel (i + 1) (val + P * m)) (b2 :: bs)
      (val + P * m + 2 ^ (7 * (i + 1)) * t)) as HR.
    { apply IH; [lia|simpl in *; lia|done|by right|..]; fold t; unfold is_u in *; rewrite HP1; lia. }
    specialize (HR (pre ++ [b]) rest). rewrite zlen_app, <- app_assoc in HR. unfold set_pos.
    change (zlen [b]) with 1 in HR. cbn [is_mem is_pos app] in *. rewrite HR, HP1. zlen.
    f_equal; f_equal; lia.
Qed.

Lemma reads_checkedVlong n v bs :
  is_u 64 v -> varint_wf bs -> varint_value bs = v -> (length bs <= n)%nat ->
  reads (checkedVlong n) bs v.
Proof.
  intros Hv Hwf <- Hl. pose proof (reads_checkedVlongLoop n 0 0 bs) as H.
  change (2 ^ (7 * 0)) with 1 in H. rewrite Z.mul_1_l, Z.add_0_l in H. apply H; try done; try lia; by left.
Qed.

Lemma reads_readStr bs data :
  is_u 32 (zlen data) -> writeVInt (zlen data) = Some bs -> reads readStr (bs ++ data) data.
Proof.
  intros Hd E. eapply reads_bind; [by apply reads_readVint|]. intros pre rest.
  unfold skip. erewrite bind_ret; [|done]. cbn beta. unfold wf, size. simpl.
  erewrite bind_ret; [by rewrite slice_app|].
  erewrite bind_ret; [|done]. erewrite bind_ret; [|done]. apply assert_true. simpl. zlen.
  pose proof (zlen_nonneg pre). pose proof (zlen_nonneg rest). pose proof (zlen_nonneg data). lia.
Qed.

(** A location is recovered from its parts when they are in range. *)
Lemma location_parts fnum off :
  0 <= fnum <= SegLocation.maxFilenum -> 0 <= off <= SegLocation.maxOffset ->
  SegLocation.filenum (SegLocation.make fnum off) = fnum /\
  SegLocation.offset (SegLocation.make fnum off) = off.
Proof.
  change SegLocation.maxFilenum with (2 ^ 20 - 1). change SegLocation.maxOffset with (2 ^ 44 - 1).
  unfold SegLocation.filenum, SegLocation.offset, SegLocation.make.
  change SegLocation.OFFSET_BITS with 44. change SegLocation.OFFSET_MASK with (Z.ones 44).
  intros Hf Ho. rewrite (uwrap_id 64 fnum) by (unfold is_u; lia).
  rewrite Z.shiftl_mul_pow2 by lia. rewrite !uwrap_add_r, (uwrap_id 64) by (unfold is_u; lia).
  rewrite Z.shiftr_div_pow2, Z.land_ones by lia.
  rewrite Z.div_add, Z.div_small, Z_mod_plus_full, Z.mod_small by lia.
  split; [|done]. rewrite Z.add_0_l. apply uwrap_id. unfold is_u. lia.
Qed.

(** ** Safety of the bounds-checked reads

    On a file with arbitrary contents a [safe] read never reads outside the
    mapping: it returns, or throws, at a position inside the file and not before
    the one it started from. *)
Definition safe {A} (op : SM istream A) (P : A -> Prop) : Prop :=
  forall s, is_bytes (is_mem s) -> wf s ->
  match op s with
  | (Ret v, s') => P v /\ is_mem s' = is_mem s /\ wf s' /\ is_pos s <= is_pos s'
  | (Throw _, s') => is_mem s' = is_mem s /\ wf s' /\ is_pos s <= is_pos s'
  | (Undef, _) => False
  end.

Lemma safe_bind {A B} (op : SM istream A) (k : A -> SM istream B) P Q :
  safe op P -> (forall a, P a -> safe (k a) Q) -> safe (op ≫= k) Q.
Proof.
  intros H1 H2 s Hb Hs. specialize (H1 s Hb Hs). unfold mbind, SM_bind.
  destruct (op s) as [[a|m|] s1]; [|done|done]. destruct H1 as (HP & Hm & Hw & Hle).
  specialize (H2 a HP s1). rewrite Hm in H2. specialize (H2 Hb Hw).
  destruct (k a s1) as [[b|m'|] s2]; [|..|done].
  - destruct H2 as (? & ? & ? & ?). split_and!; [done..|lia].
  - destruct H2 as (? & ? & ?). split_and!; [done..|lia].
Qed.

Lemma safe_ret {A} (v : A) (P : A -> Prop) : P v -> safe (mret v) P.
Proof. intros HP s Hb Hs. split_and!; [done..|lia]. Qed.

Lemma safe_throw {A} m (P : A -> Prop) : safe (throw m) P.
Proof. intros s Hb Hs. split_and!; [done..|lia]. Qed.

(** After [require n], the next [n] bytes are there. *)
Lemma require_spec n s :
  wf s -> (require n s = (Ret (), s) /\ 0 <= n /\ is_pos s + n <= size s) \/
          require n s = (Throw truncated_msg, s).
Proof.
  intros Hs. unfold require. erewrite bind_ret; [|done]. case_decide as E.
  - by right.
  - left. split; [done|]. unfold left in E. lia.
Qed.

Lemma safe_checkedVlongLoop fuel i val :
  0 <= i -> 7 * (i + Z.of_nat fuel) <= 70 -> is_u 64 val ->
  safe (checkedVlongLoop fuel i val) (is_u 64).
Proof.
  revert i val. induction fuel as [|fuel IH]; intros i val Hi Hf Hv; [apply safe_throw|].
  intros s Hb Hs. cbn [checkedVlongLoop].
  destruct (require_spec 1 s Hs) as [(E & _ & Hle)|E]; unfold mbind at 1, SM_bind at 1; rewrite E; cbn beta.
  2: { split_and!; [done..|lia]. }
  erewrite bind_ret; [|done]. unfold wf, size in *.
  destruct (zget_in (is_mem s) (is_pos s)) as [b Hget]; [lia|]. rewrite Hget.
  erewrite bind_ret; [|done]. erewrite bind_ret; [|apply assert_true; lia]. cbn zeta.
  assert (is_u 64 (Z.lor val (u64 (Z.shiftl (Z.land b 127) (7 * i))))) as Hv'
    by (apply is_u_lor; [lia|done|apply uwrap_range; lia]).
  case_decide.
  - simpl. split_and!; [done|done|unfold wf, size; simpl; lia..].
  - specialize (IH (i + 1) _ ltac:(lia) ltac:(lia) Hv' (set_pos (is_pos s + 1) s) Hb).
    unfold wf, size in IH. simpl in IH. specialize (IH ltac:(lia)).
    destruct (checkedVlongLoop _ _ _ _) as [[v|m|] s']; [|..|done];
      unfold wf, size in *; repeat split; try apply IH; destruct_and?; lia.
Qed.

Lemma slice_in {A} (mem : list A) off len :
  0 <= off -> 0 <= len -> off + len <= zlen mem -> exists l, slice mem off len = Some l.
Proof. intros. unfold slice. rewrite decide_True by lia. eauto. Qed.

Lemma safe_checkedInt : safe checkedInt (fun v => is_s 32 v).
Proof.
  intros s Hb Hs. unfold checkedInt.
  destruct (require_spec 4 s Hs) as [(E & _ & Hle)|E].
  2: { erewrite bind_throw by done. split_and!; [done..|lia]. }
  erewrite bind_ret by done. unfold readInt, loadAt, load.
  destruct (slice_in (is_mem s) (is_pos s) 4) as [l Hl]; [unfold wf, size in *; lia..|].
  erewrite bind_ret; [|erewrite bind_ret; [|done]; erewrite bind_ret; [|by apply assert_true];
    rewrite Hl; done].
  simpl. unfold wf, size in *. split_and!; [by apply swrap_range|done|simpl; lia..].
Qed.

Lemma safe_checkedVlong n : (n <= 10)%nat -> safe (checkedVlong n) (is_u 64).
Proof. intros. apply safe_checkedVlongLoop; [lia..|]. unfold is_u. lia. Qed.

Lemma safe_checkedVint : safe checkedVint (is_u 32).
Proof.
  eapply safe_bind; [apply safe_checkedVlong; lia|]. intros v Hv. apply safe_ret, uwrap_range. lia.
Qed.

(** A packed term comes back whole: its length byte and that many bytes. *)
Definition whole_term (t : list Z) : Prop := exists n data, t = n :: data /\ zlen data = n.

Lemma slice_cons (mem : list Z) off b n :
  mem.[off] = Some b -> 0 <= n -> off + (n + 1) <= zlen mem ->
  exists data, slice mem off (n + 1) = Some (b :: data) /\ zlen data = n.
Proof.
  intros Hb Hn Hle. pose proof (zget_Some_range _ _ _ Hb).
  destruct (slice_in mem off (n + 1)) as [l Hl]; [lia..|]. rewrite Hl.
  apply slice_Some in Hl as (pre & post & -> & <- & Hlen).
  rewrite zget_app_r, Z.sub_diag in Hb by lia. destruct l as [|b' data]; [zlen|].
  injection Hb as ->. exists data. split; [done|]. zlen.
Qed.

Lemma safe_checkedPackedTerm : safe checkedPackedTerm whole_term.
Proof.
  intros s Hb Hs. unfold checkedPackedTerm.
  destruct (require_spec 1 s Hs) as [(E & _ & Hle)|E].
  2: { erewrite bind_throw by done. split_and!; [done..|lia]. }
  erewrite bind_ret by done. erewrite bind_ret; [|done]. unfold wf, size, termMemorySize in *.
  destruct (zget_in (is_mem s) (is_pos s)) as [n Hn]; [lia|]. rewrite Hn. simpl.
  assert (0 <= n) as Hn0.
  { apply zget_elem_1 in Hn. unfold is_bytes in Hb. rewrite Forall_forall in Hb.
    specialize (Hb _ Hn). unfold is_u in Hb. lia. }
  destruct (require_spec (n + 1) s Hs) as [(E' & _ & Hle')|E'].
  2: { erewrite bind_throw by done. split_and!; (done || lia). }
  erewrite bind_ret by done. unfold readPackedTerm. erewrite bind_ret; [|done].
  unfold termMemorySize. rewrite Hn. simpl. unfold size in *.
  destruct (slice_cons (is_mem s) (is_pos s) n n) as (data & Hd & Hl); [done..|].
  erewrite bind_ret; [|done]. erewrite bind_ret; [|by apply assert_true].
  rewrite Hd. simpl. split_and!; [by exists n, data|done|lia..].
Qed.

Lemma safe_checkedRead : safe SegLocation.checkedRead (is_u 64).
Proof.
  eapply safe_bind; [apply safe_checkedVint|]. intros fnum Hf.
  eapply safe_bind; [apply safe_checkedVlong; lia|]. intros off Ho. case_decide; [apply safe_throw|].
  apply safe_ret, uwrap_range. lia.
Qed.

End reads.

(** * Writing

    The abstract value of a stream is the byte string written to it so far; every
    operation appends to it, whatever the buffer boundaries. *)

Section writes.
Import Output.

Definition contents (o : ostream) : list Z := copyTo (os_file o) ++ os_pending o.

Definition buf_wf (b : rambuf) : Prop := zlen (rb_data b) = rb_used b /\ rb_used b <= rb_capacity b.

Definition file_wf (f : ramfile) : Prop :=
  Forall buf_wf (rf_buffers f) /\ rf_fileSize f = zlen (copyTo f) /\
  rf_allocatedSize f = foldr Z.add 0 (rb_capacity <$> rf_buffers f).

(** The stream writes into the last buffer of its file, whose bytes are still pending. *)
Definition cursor_wf (o : ostream) : Prop :=
  match os_start o with
  | None => os_pending o = [] /\ os_end o = 0
  | Some i =>
      exists bs, rf_buffers (os_file o) = bs ++ [RamBuf [] 0 (os_end o)] /\ i = length bs /\
        START_BUFFER_SIZE <= os_end o /\ zlen (os_pending o) <= os_end o
  end.

Definition out_wf (o : ostream) : Prop :=
  file_wf (os_file o) /\ os_flushedSize o = rf_fileSize (os_file o) /\ cursor_wf o.

Definition writes (op : SM ostream unit) (bs : list Z) : Prop :=
  forall o, out_wf o ->
  exists o', op o = (Ret (), o') /\ out_wf o' /\ contents o' = contents o ++ bs.

Lemma out_wf_fresh : out_wf fresh.
Proof. repeat split. constructor. Qed.

Lemma size_contents o : out_wf o -> size o = zlen (contents o).
Proof.
  intros ((_ & Hf & _) & Hfl & _). unfold size, contents, buffered. rewrite zlen_app. lia.
Qed.

Lemma copyTo_app bs b fs al fs' al' :
  copyTo (RamFile (bs ++ [b]) fs al) = copyTo (RamFile bs fs' al') ++ rb_data b.
Proof. unfold copyTo. simpl. rewrite bind_app. simpl. by rewrite app_nil_r. Qed.

Lemma set_back_snoc p bs cap :
  set_back p (bs ++ [RamBuf [] 0 cap]) = bs ++ [RamBuf p (zlen p) cap].
Proof.
  unfold set_back. rewrite last_snoc, length_app. simpl.
  replace (length bs + 1 - 1)%nat with (length bs) by lia. by rewrite take_app_length.
Qed.

(** What [flush] leaves in the file: all the bytes, and nothing pending. *)
Lemma flush_true_spec o :
  out_wf o -> out_wf (flush true o) /\ copyTo (os_file (flush true o)) = contents o /\
    os_pending (flush true o) = [].
Proof.
  intros ((Hb & Hf & Ha) & Hfl & Hc). unfold flush, cursor_wf in *.
  destruct (os_start o) as [i|] eqn:Es.
  - destruct Hc as (bs & Hbs & -> & Hcap & Hle). rewrite decide_True.
    2: { rewrite Hbs, length_app. simpl. split; [by destruct bs|]. f_equal. lia. }
    rewrite Hbs, set_back_snoc. destruct o as [st pend en fl [bufs fs al]].
    simpl in *. subst bufs. unfold buffered, contents. simpl in *.
    rewrite (copyTo_app _ _ _ _ fs al). rewrite (copyTo_app _ _ _ _ fs al) in Hf.
    simpl rb_data in *. rewrite app_nil_r in *.
    apply Forall_app in Hb as [Hb _]. rewrite fmap_app, foldr_app in Ha.
    rewrite (copyTo_app _ _ _ _ fs al). simpl rb_data. rewrite app_nil_r.
    split; [|done]. split; [|done]. split; [|split].
    + apply Forall_app. split; [done|]. repeat constructor. simpl. lia.
    + simpl. rewrite (copyTo_app _ _ _ _ fs al). simpl. rewrite zlen_app. lia.
    + simpl. by rewrite fmap_app, foldr_app.
  - destruct Hc as [Hp Hend]. rewrite decide_False by (by intros [_ ?]).
    destruct o as [st pend en fl [bufs fs al]]. simpl in *. subst st pend en.
    replace (fs + buffered _) with fs by (unfold buffered; simpl; rewrite zlen_nil; lia).
    unfold contents. simpl. rewrite app_nil_r. done.
Qed.

(** [flush(false)] is [flush(true)] followed by a fresh buffer of at least the start size. *)
Lemma flush_false_eq o :
  let o1 := flush true o in let sz := nextBufferSize (rf_buffers (os_file o1)) in
  flush false o = OStream (Some (length (rf_buffers (os_file o1)))) [] sz
    (os_flushedSize o1) (newBuffer sz (os_file o1)).
Proof. done. Qed.

Lemma flush_false_spec o :
  out_wf o -> out_wf (flush false o) /\ contents (flush false o) = contents o /\
    START_BUFFER_SIZE <= reserved (flush false o).
Proof.
  intros Ho. destruct (flush_true_spec o Ho) as (((Hb & Hf & Ha) & Hfl & _) & Hc & _).
  rewrite flush_false_eq. cbn zeta. remember (flush true o) as o1 eqn:Ho1. clear Ho1.
  set (sz := nextBufferSize (rf_buffers (os_file o1))).
  assert (START_BUFFER_SIZE <= sz) as Hsz by (unfold sz, nextBufferSize; lia).
  assert (copyTo (newBuffer sz (os_file o1)) = copyTo (os_file o1)) as Hcp.
  { unfold newBuffer, copyTo. simpl. rewrite bind_app. simpl. by rewrite app_nil_r. }
  split_and!.
  - split_and!; [|done|].
    + split_and!.
      * apply Forall_app. split; [done|]. repeat constructor. simpl. unfold START_BUFFER_SIZE in Hsz. lia.
      * cbn [os_file]. by rewrite Hcp.
      * simpl. rewrite fmap_app, foldr_app, Ha. simpl. rewrite (foldr_add_init (sz + 0)). lia.
    + exists (rf_buffers (os_file o1)). simpl. split_and!; [done|done|done|].
      unfold START_BUFFER_SIZE in Hsz. rewrite zlen_nil. lia.
  - unfold contents at 1. cbn [os_file os_pending]. by rewrite Hcp, app_nil_r.
  - unfold reserved. simpl. rewrite zlen_nil. lia.
Qed.

Lemma push_spec bs o :
  out_wf o -> zlen bs <= reserved o -> bs <> [] \/ os_start o <> None ->
  out_wf (push bs o) /\ contents (push bs o) = contents o ++ bs.
Proof.
  intros (Hf & Hfl & Hc) Hr Hne. split; [|unfold contents, push; simpl; by rewrite app_assoc].
  split_and!; [done|done|]. unfold cursor_wf, push, reserved in *. simpl.
  destruct (os_start o) as [i|].
  - destruct Hc as (bs' & ? & ? & ? & ?). exists bs'. split_and!; [done..|]. rewrite zlen_app. lia.
  - destruct Hc as [Hp He]. rewrite Hp, He in Hr. change (zlen (@nil Z)) with 0 in Hr.
    destruct Hne as [Hne|]; [|done]. destruct bs as [|b bs]; [done|].
    pose proof (zlen_nonneg bs). rewrite zlen_cons in Hr. lia.
Qed.

Lemma writes_bind (op1 : SM ostream unit) (op2 : unit -> SM ostream unit) bs1 bs2 :
  writes op1 bs1 -> writes (op2 ()) bs2 -> writes (op1 ≫= op2) (bs1 ++ bs2).
Proof.
  intros H1 H2 o Ho. destruct (H1 o Ho) as (o1 & E1 & Ho1 & C1).
  destruct (H2 o1 Ho1) as (o2 & E2 & Ho2 & C2). exists o2.
  erewrite bind_ret by done. split_and!; [done|done|]. by rewrite C2, C1, app_assoc.
Qed.

Lemma writes_ret : writes (mret ()) [].
Proof. intros o Ho. exists o. by rewrite app_nil_r. Qed.

Lemma unsafeWrite_eq bs o : zlen bs <= reserved o -> unsafeWrite bs o = (Ret (), push bs o).
Proof.
  intros H. unfold unsafeWrite. erewrite bind_ret; [|done]. erewrite bind_ret; [|by apply assert_true].
  done.
Qed.

Lemma reserved_nonneg o : out_wf o -> 0 <= reserved o.
Proof.
  intros (_ & _ & Hc). unfold cursor_wf, reserved in *. destruct (os_start o).
  - destruct Hc as (bs & _ & _ & _ & ?). lia.
  - destruct Hc as [-> ->]. done.
Qed.

Lemma writes_write b : writes (write b) [u8 b].
Proof.
  intros o Ho. unfold write. erewrite bind_ret; [|done]. cbn beta.
  pose proof (reserved_nonneg o Ho). case_decide as E.
  - destruct (flush_false_spec o Ho) as (Hw & Hc & Hr). unfold START_BUFFER_SIZE in Hr.
    erewrite bind_ret; [|done]. rewrite unsafeWrite_eq by (zlen; lia).
    eexists. split; [done|]. rewrite <- Hc. apply push_spec; [done|zlen; lia|by left].
  - erewrite bind_ret; [|done]. rewrite unsafeWrite_eq by (zlen; lia).
    eexists. split; [done|]. apply push_spec; [done|zlen; lia|by left].
Qed.

(** One iteration with room for a byte makes progress, so the loop ends. *)
Lemma writeLoop_room fuel data o :
  out_wf o -> data = [] \/ 0 < reserved o -> (length data <= fuel)%nat ->
  exists o', writeLoop fuel data o = (Ret (), o') /\ out_wf o' /\ contents o' = contents o ++ data.
Proof.
  revert data o. induction fuel as [|fuel IH]; intros data o Ho Hr Hl.
  { destruct data; [|simpl in Hl; lia]. simpl. exists o. by rewrite app_nil_r. }
  destruct data as [|d data]; [exists o; by rewrite app_nil_r|].
  destruct Hr as [|Hr]; [done|]. cbn [writeLoop]. erewrite bind_ret; [|done]. cbn beta zeta.
  set (full := d :: data) in *. set (n := Z.to_nat (Z.min (zlen full) (reserved o))).
  assert (0 < n <= length full)%nat as Hn.
  { unfold n, full, zlen. simpl. lia. }
  assert (zlen (take n full) <= reserved o) as Htk.
  { unfold zlen. rewrite length_take. unfold n. lia. }
  rewrite (bind_ret _ _ _ () (push (take n full) o)) by (by apply unsafeWrite_eq).
  destruct (push_spec (take n full) o) as [Hw Hc]; [done|done|left|].
  { intros E. apply (f_equal length) in E. rewrite length_take in E. simpl in E. lia. }
  destruct (drop n full) as [|d' rest] eqn:Ed.
  - erewrite bind_ret; [|done]. destruct fuel; simpl; eexists; (split; [done|]); split; [done| |done|];
      rewrite Hc; f_equal; rewrite <- (take_drop n full) at 2; by rewrite Ed, app_nil_r.
  - erewrite bind_ret; [|done]. destruct (flush_false_spec _ Hw) as (Hw' & Hc' & Hr').
    destruct (IH (d' :: rest) (flush false (push (take n full) o))) as (o' & E & Ho' & C).
    + done.
    + right. unfold START_BUFFER_SIZE in Hr'. lia.
    + rewrite <- Ed, length_drop. lia.
    + exists o'. split; [done|]. split; [done|]. rewrite C, Hc', Hc, <- app_assoc, <- Ed.
      by rewrite take_drop.
Qed.

Lemma writes_writeBytes data : writes (writeBytes data) data.
Proof.
  intros o Ho. unfold writeBytes. destruct (decide (data = [] \/ 0 < reserved o)) as [H|H].
  { apply writeLoop_room; [done|done|lia]. }
  destruct data as [|d data]; [tauto|]. assert (reserved o = 0) as Hr
    by (pose proof (reserved_nonneg o Ho); lia).
  cbn [Nat.add]. remember (S (length (d :: data))) as fuel eqn:Hfuel.
  cbn [writeLoop]. erewrite bind_ret; [|done]. cbn beta zeta. rewrite Hr.
  replace (Z.to_nat (Z.min (zlen (d :: data)) 0)) with 0%nat by lia.
  rewrite (bind_ret _ _ _ () (push [] o)) by (apply unsafeWrite_eq; rewrite Hr; done).
  cbn [drop take]. erewrite bind_ret; [|done].
  assert (push [] o = o) as -> by (destruct o; unfold push; simpl; by rewrite app_nil_r).
  destruct (flush_false_spec o Ho) as (Hw & Hc & Hr'). rewrite <- Hc. unfold START_BUFFER_SIZE in Hr'.
  apply writeLoop_room; [done|right; lia|lia].
Qed.

Lemma writes_writeVarLoop fuel val bs : writeVar fuel val = Some bs -> writes (writeVarLoop fuel val) bs.
Proof.
  revert val bs. induction fuel as [|fuel IH]; intros val bs; simpl; [done|]. case_decide.
  - destruct (writeVar fuel (Z.shiftr val 7)) as [bs'|] eqn:E; [|done]. intros [= <-].
    apply (writes_bind _ _ [_] bs'); [apply writes_write|by apply IH].
  - intros [= <-]. apply writes_write.
Qed.

Lemma writes_writeStr data bs :
  is_u 32 (zlen data) -> writeVInt (zlen data) = Some bs -> writes (writeStr data) (bs ++ data).
Proof.
  intros Hd E. unfold writeStr. rewrite uwrap_id by done. apply writes_bind.
  - by apply writes_writeVarLoop.
  - apply writes_writeBytes.
Qed.

(** Padding up to the next multiple takes fewer than [alignment] bytes. *)
Lemma alignLoop_spec fuel alignment fill o :
  out_wf o -> 0 < alignment ->
  (alignment - size o `mod` alignment) `mod` alignment <= Z.of_nat fuel ->
  exists o', alignLoop fuel alignment fill o = (Ret (), o') /\ out_wf o' /\
    contents o' = contents o ++
      replicate (Z.to_nat ((alignment - size o `mod` alignment) `mod` alignment)) (u8 fill).
Proof.
  intros Ho Ha. revert o Ho. induction fuel as [|fuel IH]; intros o Ho Hf.
  - assert (size o `mod` alignment = 0) as E.
    { pose proof (Z.mod_pos_bound (size o) alignment Ha). destruct (decide (size o `mod` alignment = 0)); [done|].
      rewrite (Z.mod_small (_ - _)) in Hf; lia. }
    simpl. erewrite bind_ret; [|done]. rewrite decide_True by done. exists o.
    rewrite E, Z.sub_0_r, Z.mod_same, app_nil_r by lia. done.
  - cbn [alignLoop]. erewrite bind_ret; [|done]. cbn beta. case_decide as E.
    + exists o. rewrite E, Z.sub_0_r, Z.mod_same, app_nil_r by lia. done.
    + destruct (writes_write fill o Ho) as (o1 & E1 & Ho1 & C1). erewrite bind_ret by done.
      pose proof (Z.mod_pos_bound (size o) alignment Ha) as Hm.
      assert (size o1 = size o + 1) as Hsz.
      { rewrite !size_contents, C1 by done. zlen. }
      rewrite (Z.mod_small (alignment - _)) in Hf |- * by lia.
      assert ((alignment - size o1 `mod` alignment) `mod` alignment =
        alignment - size o `mod` alignment - 1) as Hnext.
      { rewrite Hsz. destruct (decide (size o `mod` alignment = alignment - 1)) as [El|].
        - replace ((size o + 1) `mod` alignment) with 0.
          { rewrite Z.sub_0_r, Z.mod_same; lia. }
          rewrite <- Zplus_mod_idemp_l, El. replace (alignment - 1 + 1) with alignment by lia.
          by rewrite Z.mod_same by lia.
        - rewrite <- Zplus_mod_idemp_l, (Z.mod_small (_ + 1)) by lia. rewrite Z.mod_small; lia. }
      destruct (IH o1 Ho1) as (o2 & E2 & Ho2 & C2); [lia|]. exists o2. split_and!; [done|done|].
      rewrite C2, C1, Hnext, <- app_assoc. f_equal. change ([u8 fill]) with (replicate 1 (u8 fill)).
      rewrite <- replicate_add. f_equal. lia.
Qed.

Lemma align_spec alignment fill o :
  out_wf o -> 0 < alignment ->
  exists o', align alignment fill o = (Ret (), o') /\ out_wf o' /\
    size o' `mod` alignment = 0 /\
    contents o' = contents o ++
      replicate (Z.to_nat ((alignment - size o `mod` alignment) `mod` alignment)) (u8 fill).
Proof.
  intros Ho Ha. unfold align. erewrite bind_ret; [|by apply assert_true].
  pose proof (Z.mod_pos_bound (alignment - size o `mod` alignment) alignment Ha) as Hp.
  destruct (alignLoop_spec (Z.to_nat alignment) alignment fill o Ho Ha) as (o' & E & Ho' & C); [lia|].
  exists o'. split_and!; [done|done| |done].
  rewrite size_contents, C, zlen_app, zlen_replicate, <- size_contents, Z2Nat.id by (done || lia).
  rewrite Zplus_mod_idemp_r. rewrite <- Zplus_mod_idemp_l.
  replace (_ + (_ - _)) with (1 * alignment) by lia. apply Z.mod_mul. lia.
Qed.

End writes.

(** * Typed fields

    A [codec] pairs a write of [OutputStream] with the read of [InputStream] that
    undoes it; plain and bounds-checked reads undo the same writes. *)

Section fields.
Import Input Output.

Record codec (A : Type) := Codec {
  c_valid : A -> Prop;
  c_write : A -> SM ostream unit;
  c_read : SM istream A;
  c_ok : forall a, c_valid a -> exists bs, writes (c_write a) bs /\ reads c_read bs a }.

Inductive kind :=
  | KInt | KLong | KVint | KVlong | KStr | KTerm | KLocation
  | KCheckedInt | KCheckedVint | KCheckedVlong | KCheckedTerm | KCheckedLocation.

Definition carrier (k : kind) : Type :=
  match k with KStr | KTerm | KCheckedTerm => list Z | _ => Z end.

Definition valid_location (x : Z) : Prop :=
  exists fnum off, 0 <= fnum <= SegLocation.maxFilenum /\ 0 <= off <= SegLocation.maxOffset /\
    x = SegLocation.make fnum off.

Definition valid (k : kind) : carrier k -> Prop :=
  match k with
  | KInt | KCheckedInt => is_s 32
  | KLong => is_s 64
  | KVint | KCheckedVint => is_u 32
  | KVlong | KCheckedVlong => is_u 64
  | KStr => fun data => is_u 32 (zlen data)
  | KTerm | KCheckedTerm => fun t => whole_term t /\ is_bytes t
  | KLocation | KCheckedLocation => valid_location
  end.

Definition writeField (k : kind) : carrier k -> SM ostream unit :=
  match k with
  | KInt | KCheckedInt => writeInt
  | KLong => writeLong
  | KVint | KCheckedVint => writeVint
  | KVlong | KCheckedVlong => writeVlong
  | KStr => writeStr
  | KTerm | KCheckedTerm => writePackedTerm
  | KLocation | KCheckedLocation => writeLocation
  end.

Definition readField (k : kind) : SM istream (carrier k) :=
  match k with
  | KInt => readInt
  | KLong => readLong
  | KVint => readVint
  | KVlong => readVlong
  | KStr => readStr
  | KTerm => readPackedTerm
  | KLocation => SegLocation.read
  | KCheckedInt => checkedInt
  | KCheckedVint => checkedVint
  | KCheckedVlong => checkedVlong 10
  | KCheckedTerm => checkedPackedTerm
  | KCheckedLocation => SegLocation.checkedRead
  end.

Lemma reads_require {A} n (op : SM istream A) bs v :
  0 <= n <= zlen bs -> reads op bs v -> reads (require n;; op) bs v.
Proof.
  intros Hn H pre rest. erewrite bind_ret; [apply H|]. unfold require. erewrite bind_ret; [|done].
  rewrite decide_False; [done|]. unfold left, Input.size. simpl. zlen. pose proof (zlen_nonneg rest). lia.
Qed.

Lemma int_bytes n v : 0 < n -> is_s (8 * n) v -> swrap (8 * n) (uwrap (8 * n) v) = v.
Proof. intros Hn Hv. rewrite swrap_uwrap by lia. apply swrap_id; [lia|done]. Qed.

Lemma reads_readInt v : is_s 32 v -> reads readInt (store_le 4 v) v.
Proof.
  intros Hv. rewrite <- (int_bytes 4 v) at 2 by (done || lia).
  apply (reads_map (loadAt 4) s32), reads_loadAt. lia.
Qed.

Lemma reads_readLong v : is_s 64 v -> reads readLong (store_le 8 v) v.
Proof.
  intros Hv. rewrite <- (int_bytes 8 v) at 2 by (done || lia).
  apply (reads_map (loadAt 8) s64), reads_loadAt. lia.
Qed.

(** The bytes a 32- or 64-bit value is written as, with both reads of them. *)
Lemma vint_bytes v :
  is_u 32 v -> exists bs, writes (writeVint v) bs /\ reads readVint bs v /\ reads checkedVint bs v.
Proof.
  intros Hv. destruct (writeVar_readVar 32 MAX_VINT_SIZE v [])
    as (bs & E & Hl & Hwf & Hval & R); [vm_compute; lia|done|done|]. exists bs.
  split; [by apply writes_writeVarLoop|]. split; [by apply reads_readVint|].
  rewrite <- (uwrap_id 32 v Hv) at 1. apply (reads_map (checkedVlong 5) u32).
  apply reads_checkedVlong; [|done|done|unfold MAX_VINT_SIZE in *; lia]. unfold is_u in *. lia.
Qed.

Lemma vlong_bytes v :
  is_u 64 v ->
  exists bs, writes (writeVlong v) bs /\ reads readVlong bs v /\ reads (checkedVlong 10) bs v.
Proof.
  intros Hv. destruct (writeVar_readVar 64 MAX_VLONG_SIZE v [])
    as (bs & E & Hl & Hwf & Hval & R); [vm_compute; lia|done|done|]. exists bs.
  split; [by apply writes_writeVarLoop|]. split; [by apply reads_readVlong|].
  apply reads_checkedVlong; [done|done|done|unfold MAX_VLONG_SIZE in *; lia].
Qed.

Lemma location_bytes x :
  valid_location x ->
  exists bs, writes (writeLocation x) bs /\ reads SegLocation.read bs x /\
    reads SegLocation.checkedRead bs x.
Proof.
  intros (fnum & off & Hf & Ho & ->). destruct (location_parts fnum off Hf Ho) as [Ef Eo].
  change SegLocation.maxFilenum with (2 ^ 20 - 1) in Hf.
  change SegLocation.maxOffset with (2 ^ 44 - 1) in Ho.
  destruct (vint_bytes fnum) as (b1 & W1 & R1 & C1); [unfold is_u; lia|].
  destruct (vlong_bytes off) as (b2 & W2 & R2 & C2); [unfold is_u; lia|].
  exists (b1 ++ b2). split_and!.
  - unfold writeLocation. rewrite Ef, Eo. by apply writes_bind.
  - eapply reads_bind; [done|]. by apply (reads_map readVlong (SegLocation.make fnum)).
  - eapply reads_bind; [done|]. rewrite <- (app_nil_r b2). eapply reads_bind; [done|]. cbn beta.
    rewrite decide_False; [apply reads_ret|].
    change SegLocation.maxFilenum with (2 ^ 20 - 1). change SegLocation.maxOffset with (2 ^ 44 - 1). lia.
Qed.

Lemma term_bytes t :
  whole_term t -> is_bytes t -> reads readPackedTerm t t /\ reads checkedPackedTerm t t.
Proof.
  intros (n & data & -> & Hl) Hb. assert (reads readPackedTerm (n :: data) (n :: data)) as HR.
  { intros pre rest. unfold readPackedTerm. erewrite bind_ret; [|done]. unfold termMemorySize. simpl.
    rewrite zget_app_r, Z.sub_diag by lia. cbn [app]. rewrite zget_cons_0. simpl.
    erewrite bind_ret; [|done]. erewrite bind_ret.
    2: { apply assert_true. unfold Input.size. simpl. zlen. pose proof (zlen_nonneg rest). lia. }
    change (n :: data ++ rest) with ((n :: data) ++ rest).
    rewrite slice_app by (zlen; lia). unfold set_pos. simpl. zlen.
    rewrite Hl. do 3 f_equal. lia. }
  split; [done|]. unfold checkedPackedTerm. pose proof (zlen_nonneg data).
  apply reads_require; [zlen|]. intros pre rest. erewrite bind_ret; [|done]. unfold termMemorySize. simpl.
  rewrite zget_app_r, Z.sub_diag by lia. cbn [app]. rewrite zget_cons_0. simpl.
  apply (reads_require (n + 1) _ (n :: data)); [zlen|done].
Qed.

(** Each kind of field with its laws. *)
Program Definition field_codec (k : kind) : codec (carrier k) :=
  {| c_valid := valid k; c_write := writeField k; c_read := readField k |}.
Next Obligation.
  intros k a Ha. destruct k; simpl in *.
  - exists (store_le 4 a). split; [apply writes_writeBytes|by apply reads_readInt].
  - exists (store_le 8 a). split; [apply writes_writeBytes|by apply reads_readLong].
  - destruct (vint_bytes a Ha) as (bs & ? & ? & ?). by exists bs.
  - destruct (vlong_bytes a Ha) as (bs & ? & ? & ?). by exists bs.
  - destruct (readVInt_writeVInt (zlen a) []) as (bs & E & _ & _); [done|]. exists (bs ++ a).
    split; [by apply writes_writeStr|by apply reads_readStr].
  - destruct Ha as [Hw Hb]. exists a. split; [apply writes_writeBytes|by apply term_bytes].
  - destruct (location_bytes a Ha) as (bs & ? & ? & ?). by exists bs.
  - exists (store_le 4 a). split; [apply writes_writeBytes|].
    apply reads_require; [zlen|by apply reads_readInt].
  - destruct (vint_bytes a Ha) as (bs & ? & ? & ?). by exists bs.
  - destruct (vlong_bytes a Ha) as (bs & ? & ? & ?). by exists bs.
  - destruct Ha as [Hw Hb]. exists a. split; [apply writes_writeBytes|by apply term_bytes].
  - destruct (location_bytes a Ha) as (bs & ? & ? & ?). by exists bs.
Qed.

Definition field := { k : kind & carrier k }.

Fixpoint writeAll (fs : list field) : SM ostream unit :=
  match fs with
  | [] => mret ()
  | f :: fs => c_write _ (field_codec (projT1 f)) (projT2 f);; writeAll fs
  end.

Fixpoint readAll (ks : list kind) : SM istream (list field) :=
  match ks with
  | [] => mret []
  | k :: ks =>
      v ← c_read _ (field_codec k);
      vs ← readAll ks;
      mret (existT k v :: vs)
  end.

Lemma writeAll_readAll fs :
  Forall (fun f : field => valid (projT1 f) (projT2 f)) fs ->
  exists bs, writes (writeAll fs) bs /\ reads (readAll (projT1 <$> fs)) bs fs.
Proof.
  induction 1 as [|[k v] fs Hv Hfs IH]; simpl.
  - exists []. split; [apply writes_ret|apply reads_ret].
  - destruct IH as (bs & W & R). destruct (c_ok _ (field_codec k) v Hv) as (b1 & W1 & R1).
    exists (b1 ++ bs). split; [by apply writes_bind|]. eapply reads_bind; [exact R1|]. cbn beta.
    by apply (reads_map (readAll (projT1 <$> fs)) (cons (existT k v))).
Qed.

(** C26: any sequence of valid typed fields written to a fresh in-memory stream and
    closed leaves a file whose length is the sum of what was written, and reading the
    same kinds back, with the plain or the bounds-checked reads, returns the fields
    and ends at the end of the file, wherever the writer's buffers were cut. *)
Theorem stream_roundtrip (fs : list field) :
  Forall (fun f : field => valid (projT1 f) (projT2 f)) fs ->
  exists o, (writeAll fs;; close) fresh = (Ret (), o) /\
    let mem := copyTo (os_file o) in
    size o = zlen mem /\
    readAll (projT1 <$> fs) (IStream mem 0) = (Ret fs, IStream mem (zlen mem)).
Proof.
  intros Hv. destruct (writeAll_readAll fs Hv) as (bs & W & R).
  destruct (W fresh out_wf_fresh) as (o & E & Ho & C). erewrite bind_ret by done.
  eexists. split; [done|]. destruct (flush_true_spec o Ho) as (Ho' & Cf & Hp). cbn zeta.
  rewrite size_contents by done. unfold contents at 1. rewrite Hp, app_nil_r, Cf, C.
  split; [done|]. specialize (R [] []). simpl in R. rewrite app_nil_r in R. exact R.
Qed.

Definition stream_example : list field :=
  [existT KInt (-7); existT KCheckedVlong (2 ^ 63); existT KStr [104; 105]; existT KTerm [2; 97; 98];
   existT KCheckedLocation (SegLocation.make 3 (2 ^ 40))].

Lemma stream_example_valid : Forall (fun f : field => valid (projT1 f) (projT2 f)) stream_example.
Proof.
  unfold stream_example. rewrite !Forall_cons, Forall_nil. cbn [projT1 projT2].
  split; [|split; [|split; [|split; [|split; [|done]]]]].
  - by apply (bool_decide_unpack (is_s 32 (-7))).
  - by apply (bool_decide_unpack (is_u 64 (2 ^ 63))).
  - by apply (bool_decide_unpack (is_u 32 2)).
  - split; [by exists 2, [97; 98]|]. by apply (bool_decide_unpack (Forall (is_u 8) [2; 97; 98])).
  - exists 3, (2 ^ 40). change SegLocation.maxFilenum with (2 ^ 20 - 1).
    change SegLocation.maxOffset with (2 ^ 44 - 1). split_and!; [lia..|done].
Qed.

Lemma stream_roundtrip_witness :
  Forall (fun f : field => valid (projT1 f) (projT2 f)) stream_example /\
  exists o, (writeAll stream_example;; close) fresh = (Ret (), o) /\
    let mem := copyTo (os_file o) in
    size o = zlen mem /\
    readAll (projT1 <$> stream_example) (IStream mem 0) = (Ret stream_example, IStream mem (zlen mem)).
Proof.
  split; [exact stream_example_valid|]. exact (stream_roundtrip stream_example stream_example_valid).
Defined.

(** C28: on a file of arbitrary bytes, from any position inside it, each bounds-checked
    read returns a value of its type or throws, always at a position inside the file
    that is not before the starting one; it never reads outside the mapping. *)
Theorem checked_reads_safe :
  safe checkedInt (is_s 32) /\ safe checkedVint (is_u 32) /\ safe (checkedVlong 10) (is_u 64) /\
  safe checkedPackedTerm whole_term /\ safe SegLocation.checkedRead (is_u 64).
Proof.
  split_and!.
  - apply safe_checkedInt.
  - apply safe_checkedVint.
  - apply safe_checkedVlong. lia.
  - apply safe_checkedPackedTerm.
  - apply safe_checkedRead.
Qed.

End fields.

Section append.
Import Output.

Definition padding_to (alignment n : Z) : Z := (alignment - n `mod` alignment) `mod` alignment.

(** Appending a relocatable stream succeeds exactly when the source has not
    spilled and the combined file stays inside the 44-bit offset space; a refusal
    leaves the target unchanged, and a success places the whole source, after fill
    bytes [0x11], at an aligned base offset and leaves the source empty. *)
Theorem tryAppendRelocatable_spec (o source : ostream) (alignment : Z) :
  out_wf o -> out_wf source -> 0 < alignment ->
  let pad := padding_to alignment (size o) in
  let fits := os_flushedSize source = 0 /\ size o + pad + size source <= SegLocation.maxOffset in
  exists r o', tryAppendRelocatable source alignment o = (Ret r, o') /\
    match r with
    | None => ~ fits /\ o' = o
    | Some (base, source') =>
        fits /\ out_wf o' /\ base `mod` alignment = 0 /\ base = size o + pad /\ size source' = 0 /\
        contents o' = contents o ++ replicate (Z.to_nat pad) 0x11 ++ contents source
    end.
Proof.
  intros Ho Hs Ha pad fits. unfold tryAppendRelocatable.
  erewrite bind_ret; [|by apply assert_true]. cbn beta.
  assert (0 <= pad) as Hpad by (apply Z.mod_pos_bound; lia).
  assert (0 <= size source) as Hss by (rewrite size_contents by done; apply zlen_nonneg).
  destruct (decide (os_flushedSize source <> 0)) as [Hf|Hf].
  { exists None, o. split; [done|]. split; [|done]. unfold fits. tauto. }
  erewrite bind_ret; [|done]. cbn beta zeta. fold (padding_to alignment (size o)). fold pad.
  destruct (decide (_ \/ _)) as [Hx|Hx].
  { exists None, o. split; [done|]. split; [|done]. unfold fits. lia. }
  destruct (align_spec alignment 0x11 o Ho Ha) as (o1 & E1 & Ho1 & Hm & C1).
  erewrite bind_ret by done. cbn beta. erewrite bind_ret; [|done]. cbn beta.
  destruct (writes_writeBytes (os_pending source) o1 Ho1) as (o2 & E2 & Ho2 & C2).
  erewrite bind_ret by done. cbn beta. do 2 eexists. split; [done|].
  assert (size o1 = size o + pad) as Hsz.
  { rewrite (size_contents o1), C1, zlen_app, zlen_replicate, <- size_contents by done.
    rewrite Z2Nat.id; [done|exact Hpad]. }
  split_and!; try done; unfold fits.
  - split; [lia|]. lia.
  - unfold size, buffered. simpl. change (zlen (@nil Z)) with 0. lia.
  - rewrite C2, C1, <- app_assoc. do 2 f_equal. unfold contents.
    destruct Hs as ((_ & Hfs & _) & Hfl & _). assert (copyTo (os_file source) = []) as ->; [|done].
    apply nil_length_inv. unfold zlen in *. lia.
Qed.

Definition stream_with (bs : list Z) : ostream := (writeBytes bs fresh).2.

Lemma out_wf_stream_with bs : out_wf (stream_with bs).
Proof.
  unfold stream_with. destruct (writes_writeBytes bs fresh out_wf_fresh) as (o & E & Ho & _).
  by rewrite E.
Qed.

Lemma tryAppendRelocatable_witness :
  exists r o', tryAppendRelocatable (stream_with [7; 8]) 8 (stream_with [1; 2; 3]) = (Ret r, o') /\
    r <> None /\ contents o' = [1; 2; 3; 17; 17; 17; 17; 17; 7; 8].
Proof.
  destruct (tryAppendRelocatable_spec (stream_with [1; 2; 3]) (stream_with [7; 8]) 8
    (out_wf_stream_with _) (out_wf_stream_with _)) as (r & o' & E & H); [lia|].
  exists r, o'. split; [exact E|]. destruct r as [[base s']|].
  - destruct H as (_ & _ & _ & _ & _ & ->). split; [done|]. vm_compute. reflexivity.
  - destruct H as [H _]. destruct H. split; vm_compute; congruence.
Defined.

End append.
