(* ===== verification/Search.v ===== *)
(** Searches over sorted data: [luxir/util/BranchlessSearch.h] and the two galloping
    searches at the top of [luxir/util/screaming.h].  A search is a function of a
    probe [past i], which says whether the element at index [i] lies before the
    result and is [None] outside the data; the theorems give the index returned and,
    the result being [Some], that every probe was inside the data. *)

From S2P Require Import Prelude.

(** Signed arithmetic on [int64_t], undefined on overflow. *)
Definition i64 (z : Z) : option Z := if decide (is_s 64 z) then Some z else None.

(** * [std::lower_bound] *)

Section bound.
Context (past : Z -> option bool).

(** The library's loop on a range of [len] elements from [first]; the range halves,
    so 64 rounds exhaust a 64-bit length. *)
Fixpoint lower_bound_loop (fuel : nat) (first len : Z) : option Z :=
  if decide (len <= 0) then Some first
  else match fuel with
       | O => None
       | S fuel =>
           let half := Z.shiftr len 1 in
           let mid := first + half in
           b ← past mid;
           if (b : bool) then lower_bound_loop fuel (mid + 1) (len - half - 1)
           else lower_bound_loop fuel first half
       end.

(** The precondition of the library's function: the probes of the range are true and then false. *)
Definition partitioned (lo hi : Z) : bool :=
  bool_decide (Forall (fun i => ~ (past i = Some false /\ past (i + 1) = Some true)) (seqZ lo (hi - lo - 1))).

(** Undefined on a range that violates the precondition. *)
Definition lower_bound (lo hi : Z) : option Z := if partitioned lo hi then lower_bound_loop 64 lo (hi - lo) else None.

End bound.

(** * [BranchlessIndex] *)

Module Branchless.

(** [layout]: the step and the remainder of an array of [len] elements. *)
Definition layout (len : Z) : Z * Z :=
  if decide (len <= 1) then (len, 0) else (bit_floor len, len - bit_floor len).

Definition advancePast (inclusive : bool) (a key : Z) : bool :=
  if inclusive then negb (bool_decide (key < a)) else bool_decide (a < key).

Section core.
Context (inclusive : bool) (arr : list Z) (key : Z).

Definition past (i : Z) : option bool := (fun a => advancePast inclusive a key) <$> arr.[i].

Fixpoint coreLoop (fuel : nat) (base s : Z) : option Z :=
  if decide (s > 1) then
    match fuel with
    | O => None
    | S fuel =>
        let s := Z.shiftr s 1 in
        b ← past (base + s);
        coreLoop fuel (if (b : bool) then base + s else base) s
    end
  else
    b ← past base;
    Some (base + Z.b2z b).

Definition core (begin step remainder : Z) : option Z :=
  if decide (step = 0) then Some begin
  else
    base ← (if decide (remainder > 0) then
              b ← past (begin + remainder);
              Some (if (b : bool) then begin + remainder else begin)
            else Some begin);
    coreLoop 64 base step.

End core.

(** The searches return the offset from [begin]; [arr] is the array at [begin]. *)
Definition lowerBound (arr : list Z) (len key : Z) : option Z :=
  let (step, remainder) := layout len in core false arr key 0 step remainder.

Definition upperBound (arr : list Z) (len key : Z) : option Z :=
  let (step, remainder) := layout len in core true arr key 0 step remainder.

End Branchless.

(** * Galloping *)

Module Gallop.

Fixpoint boundLoop (fuel : nat) (arr : list Z) (lo n key bound : Z) : option Z :=
  if decide (bound < n) then
    a ← arr.[lo + bound];
    if decide (a < key) then
      match fuel with
      | O => None
      | S fuel => boundLoop fuel arr lo n key (u64 (Z.shiftl bound 1))
      end
    else Some bound
  else Some bound.

(** [gallopLowerBound(lo, hi, key)] on the elements [lo .. hi) of [arr]. *)
Definition gallopLowerBound (arr : list Z) (lo hi key : Z) : option Z :=
  let n := hi - lo in
  if decide (n = 0) then Some lo
  else
    bound ← boundLoop 64 arr lo n key 1;
    let loIdx := Z.shiftr bound 1 in
    let hiIdx := if decide (bound < n) then bound + 1 else n in
    lower_bound (fun i => (fun a => bool_decide (a < key)) <$> arr.[i]) (lo + loIdx) (lo + hiIdx).

Section index.
Context (valueAt : Z -> option Z) (key : Z).

(** The state is [lastLess] and [step]. *)
Fixpoint stepLoop (fuel : nat) (lo distance lastLess step : Z) : option (Z * Z) :=
  if decide (step < distance) then
    probe ← i64 (lo + step);
    v ← valueAt probe;
    if decide (v >= key) then Some (lastLess, step)
    else match fuel with
         | O => None
         | S fuel =>
             if decide (step > distance `quot` 2)
             then stepLoop fuel lo distance probe distance
             else step' ← i64 (Z.shiftl step 1); stepLoop fuel lo distance probe step'
         end
  else Some (lastLess, step).

Fixpoint bisect (fuel : nat) (first last : Z) : option Z :=
  if decide (first < last) then
    match fuel with
    | O => None
    | S fuel =>
        d ← i64 (last - first);
        mid ← i64 (first + Z.shiftr d 1);
        v ← valueAt mid;
        if decide (v < key) then first' ← i64 (mid + 1); bisect fuel first' last
        else bisect fuel first mid
    end
  else Some first.

(** The index form, [gallopLowerBound(lo, hi, key, valueAt)]. *)
Definition gallopIndex (lo hi : Z) : option Z :=
  if decide (lo >= hi) then Some lo
  else
    v ← valueAt lo;
    if decide (v >= key) then Some lo
    else
      distance ← i64 (hi - lo);
      '(lastLess, step) ← stepLoop 64 lo distance lo 1;
      first ← i64 (lastLess + 1);
      last ← (if decide (step < distance) then i64 (lo + step + 1) else Some hi);
      bisect 64 first last.

End index.

End Gallop.

(** * The partition point *)

(** [cut past lo hi r]: the probes on [lo .. hi) are all inside the data, and [r] is
    where they turn from true to false. *)
Definition cut (past : Z -> option bool) (lo hi r : Z) : Prop :=
  lo <= r <= hi /\ (forall i, lo <= i < r -> past i = Some true) /\
  (forall i, r <= i < hi -> past i = Some false).

Lemma cut_probe past lo hi r i :
  cut past lo hi r -> lo <= i < hi -> past i = Some (bool_decide (i < r)).
Proof.
  intros (Hr & Ht & Hf) Hi. case_bool_decide; [apply Ht|apply Hf]; lia.
Qed.

Lemma cut_narrow past lo hi r lo' hi' :
  cut past lo hi r -> lo <= lo' <= r -> r <= hi' <= hi -> cut past lo' hi' r.
Proof. intros (Hr & Ht & Hf) Hl Hh. split_and!; [lia..|intros; apply Ht; lia|intros; apply Hf; lia]. Qed.

Lemma shiftr1 n : Z.shiftr n 1 = n `div` 2.
Proof. by rewrite Z.shiftr_div_pow2. Qed.

Lemma lower_bound_loop_cut past fuel first len r :
  cut past first (first + len) r -> len < 2 ^ Z.of_nat fuel ->
  lower_bound_loop past fuel first len = Some r.
Proof.
  revert first len. induction fuel as [|fuel IH]; intros first len Hc Hf.
  - simpl in Hf. pose proof Hc as (? & _). assert (len = 0) as -> by lia.
    unfold lower_bound_loop. rewrite decide_True by lia. f_equal. lia.
  - rewrite Nat2Z.inj_succ, Z.pow_succ_r in Hf by lia. cbn [lower_bound_loop].
    pose proof Hc as (Hr & _). case_decide; [f_equal; lia|].
    rewrite shiftr1. pose proof (Z.div_mod len 2 ltac:(lia)). pose proof (Z.mod_pos_bound len 2 ltac:(lia)).
    rewrite (cut_probe _ _ _ _ _ Hc) by lia. simpl. case_bool_decide; apply IH; try lia.
    + apply (cut_narrow _ _ _ _ _ _ Hc); lia.
    + apply (cut_narrow _ _ _ _ _ _ Hc); lia.
Qed.

Lemma cut_partitioned past lo hi r : cut past lo hi r -> partitioned past lo hi = true.
Proof.
  intros Hc. apply bool_decide_eq_true, Forall_forall. intros i Hi%elem_of_seqZ [H1 H2].
  rewrite (cut_probe _ _ _ _ _ Hc) in H1 by lia. rewrite (cut_probe _ _ _ _ _ Hc) in H2 by lia.
  injection H1 as H1%bool_decide_eq_false. injection H2 as H2%bool_decide_eq_true. lia.
Qed.

Lemma lower_bound_cut past lo hi r :
  cut past lo hi r -> hi - lo < 2 ^ 64 -> lower_bound past lo hi = Some r.
Proof.
  intros Hc Hn. unfold lower_bound. rewrite (cut_partitioned _ _ _ _ Hc). apply lower_bound_loop_cut; [|done]. by replace (lo + (hi - lo)) with hi by lia.
Qed.

(** ** Sorted arrays *)

Abbreviation nondecreasing := (StronglySorted Z.le).

Lemma nondecreasing_zget l i j x y :
  nondecreasing l -> l.[i] = Some x -> l.[j] = Some y -> i <= j -> x <= y.
Proof.
  intros Hs Hx Hy Hij. destruct (decide (i = j)) as [->|]; [rewrite Hy in Hx; injection Hx; lia|].
  unfold zget in *. do 2 (case_decide; [|done]).
  rewrite <- (take_drop_middle l _ _ Hx) in Hs. apply StronglySorted_app in Hs as (_ & _ & Hs).
  apply StronglySorted_cons in Hs as [Hs _]. rewrite Forall_forall in Hs. apply Hs.
  apply list_elem_of_lookup. exists (Z.to_nat j - S (Z.to_nat i))%nat.
  rewrite lookup_drop. rewrite <- Hy. f_equal. lia.
Qed.

(** In a sorted array the elements that satisfy a downward closed predicate are a
    prefix, as long as their number. *)
Lemma sorted_prefix (P : Z -> Prop) `{!forall x, Decision (P x)} l i a :
  nondecreasing l -> (forall x y, x <= y -> P y -> P x) -> l.[i] = Some a ->
  P a <-> i < zlen (filter P l).
Proof.
  intros Hs HP. revert i. induction Hs as [|b l Hs IH Hb]; intros i Hi.
  { by apply zget_elem_1, not_elem_of_nil in Hi. }
  rewrite Forall_forall in Hb. pose proof (zget_Some_range _ _ _ Hi) as Hr.
  pose proof (zlen_nonneg (filter P l)) as Hl.
  assert (~ P b -> filter P (b :: l) = []) as Hnil.
  { intros Hnb. apply filter_none. intros x [->|Hx]%elem_of_cons Hx'; [done|]. eauto. }
  destruct (decide (i = 0)) as [->|].
  - rewrite zget_cons_0 in Hi. injection Hi as <-. destruct (decide (P b)).
    + rewrite filter_cons, decide_True, zlen_cons by done. split; [lia|done].
    + rewrite Hnil by done. by split.
  - rewrite zget_cons_pos in Hi by lia. destruct (decide (P b)).
    + rewrite filter_cons, decide_True, zlen_cons by done. rewrite (IH _ Hi). lia.
    + rewrite Hnil by done. change (zlen (@nil Z)) with 0. split; [|lia]. intros Ha.
      apply zget_elem_1 in Hi. destruct n0. eauto.
Qed.

Lemma sorted_cut (P : Z -> Prop) `{!forall x, Decision (P x)} (b : Z -> bool) l :
  nondecreasing l -> (forall x y, x <= y -> P y -> P x) -> (forall a, b a = bool_decide (P a)) ->
  cut (fun i => b <$> l.[i]) 0 (zlen l) (zlen (filter P l)).
Proof.
  intros Hs HP Hb. pose proof (zlen_nonneg (filter P l)). pose proof (zlen_filter P l).
  assert (forall i, 0 <= i < zlen l -> b <$> l.[i] = Some (bool_decide (i < zlen (filter P l)))) as Hp.
  { intros i Hi. destruct (zget_in l i) as [a Ha]; [lia|]. rewrite Ha. simpl. rewrite Hb. f_equal.
    apply bool_decide_ext. exact (sorted_prefix P l i a Hs HP Ha). }
  split_and!; [lia..| |]; intros i Hi; rewrite Hp by lia; f_equal.
  - apply bool_decide_eq_true_2. lia.
  - apply bool_decide_eq_false_2. lia.
Qed.

(** * Branchless search *)

Section branchless.
Import Branchless.

Lemma coreLoop_cut inclusive arr key fuel base k hi r :
  cut (past inclusive arr key) base hi r -> 0 <= k <= Z.of_nat fuel ->
  base + 2 ^ k <= hi -> r <= base + 2 ^ k ->
  coreLoop inclusive arr key fuel base (2 ^ k) = Some r.
Proof.
  revert base k. induction fuel as [|fuel IH]; intros base k Hc Hk Hhi Hr;
    pose proof Hc as (Hr' & _); cbn [coreLoop].
  - assert (k = 0) as -> by lia. rewrite decide_False by lia. change (2 ^ 0) with 1 in *.
    rewrite (cut_probe _ _ _ _ _ Hc) by lia. simpl. case_bool_decide; simpl; f_equal; lia.
  - destruct (decide (k = 0)) as [->|].
    { rewrite decide_False by lia. change (2 ^ 0) with 1 in *.
      rewrite (cut_probe _ _ _ _ _ Hc) by lia. simpl. case_bool_decide; simpl; f_equal; lia. }
    assert (2 ^ k = 2 * 2 ^ (k - 1)) as Hp by (rewrite <- Z.pow_succ_r by lia; f_equal; lia).
    pose proof (pow2_pos (k - 1) ltac:(lia)). rewrite decide_True by lia.
    assert (Z.shiftr (2 ^ k) 1 = 2 ^ (k - 1)) as ->.
    { rewrite shiftr1, Hp, Z.mul_comm. apply Z.div_mul. lia. }
    rewrite (cut_probe _ _ _ _ _ Hc) by lia. simpl. case_bool_decide; apply IH; try lia.
    + apply (cut_narrow _ _ _ _ _ _ Hc); lia.
    + done.
Qed.

Lemma bit_floor_spec n : 0 < n -> exists k, bit_floor n = 2 ^ k /\ 0 <= k /\ 2 ^ k <= n < 2 ^ (k + 1).
Proof.
  intros Hn. unfold bit_floor. rewrite decide_False by lia. exists (Z.log2 n).
  pose proof (Z.log2_spec n Hn). pose proof (Z.log2_nonneg n). done.
Qed.

Lemma core_cut inclusive arr key len r :
  0 <= len < 2 ^ 64 -> cut (past inclusive arr key) 0 len r ->
  (let (step, remainder) := layout len in core inclusive arr key 0 step remainder) = Some r.
Proof.
  intros Hlen Hc. pose proof Hc as (Hr & _). unfold layout, core. case_decide as H1.
  { case_decide; [f_equal; lia|]. rewrite decide_False by lia. opt.
    assert (len = 2 ^ 0) as -> by (simpl; lia).
    apply (coreLoop_cut _ _ _ _ _ _ _ _ Hc); lia. }
  destruct (bit_floor_spec len) as (k & -> & Hk & Hb); [lia|]. rewrite Z.pow_add_r in Hb by lia.
  change (2 ^ 1) with 2 in Hb. rewrite decide_False by lia.
  assert (k <= 64). { apply Z.nlt_ge. intros ?. pose proof (Z.pow_le_mono_r 2 64 k ltac:(lia) ltac:(lia)). lia. }
  case_decide as Hrem.
  - opt. rewrite (cut_probe _ _ _ _ _ Hc) by lia. opt. apply (coreLoop_cut _ _ _ _ _ _ len); try lia.
    + case_bool_decide; apply (cut_narrow _ _ _ _ _ _ Hc); lia.
    + case_bool_decide; lia.
    + case_bool_decide; lia.
  - opt. apply (coreLoop_cut _ _ _ _ _ _ len); [done|lia..].
Qed.

End branchless.

(** On a sorted array the branchless searches return the number of elements less
    than the key and the number of elements not greater than it, which are the
    results of [std::lower_bound] and [std::upper_bound], and read only inside it. *)
Theorem branchless_correct (arr : list Z) (key : Z) :
  nondecreasing arr -> zlen arr < 2 ^ 64 ->
  Branchless.lowerBound arr (zlen arr) key = Some (zlen (filter (fun a => a < key) arr)) /\
  Branchless.upperBound arr (zlen arr) key = Some (zlen (filter (fun a => a <= key) arr)).
Proof.
  intros Hs Hlen. pose proof (zlen_nonneg arr). split; apply core_cut; try lia.
  - apply sorted_cut; [done|lia|done].
  - apply sorted_cut; [done|lia|]. intros a. unfold Branchless.advancePast.
    do 2 case_bool_decide; (done || lia).
Qed.

Lemma branchless_correct_witness :
  Branchless.lowerBound [2; 3; 3; 7; 9] 5 3 = Some 1 /\
  Branchless.upperBound [2; 3; 3; 7; 9] 5 3 = Some 3.
Proof.
  apply (branchless_correct [2; 3; 3; 7; 9] 3); [|done].
  sorted_concrete.
Defined.

(** * Galloping searches *)

Section gallop.
Import Gallop.

Lemma cut_offset past lo hi r i :
  cut past lo hi r -> 0 <= i < hi - lo -> past (lo + i) = Some (bool_decide (lo + i < r)).
Proof. intros Hc Hi. apply (cut_probe _ _ _ _ _ Hc). lia. Qed.

(** The bound reached is a power of two, the element half way to it lies before the
    result (or is the first), and the element at it does not (or is past the end). *)
Lemma boundLoop_cut arr lo n key r fuel k :
  cut (fun i => (fun a => bool_decide (a < key)) <$> arr.[i]) lo (lo + n) r ->
  n < 2 ^ 63 -> 0 <= k -> 63 <= k + Z.of_nat fuel -> (k = 0 \/ lo + 2 ^ (k - 1) < r) ->
  exists j, boundLoop fuel arr lo n key (2 ^ k) = Some (2 ^ j) /\ 0 <= j /\
    (j = 0 \/ lo + 2 ^ (j - 1) < r) /\ (2 ^ j < n -> r <= lo + 2 ^ j).
Proof.
  intros Hc Hn. revert k. induction fuel as [|fuel IH]; intros k Hk Hf Hprev; cbn [boundLoop].
  - rewrite decide_False.
    2: { pose proof (Z.pow_le_mono_r 2 63 k ltac:(lia) ltac:(lia)). lia. }
    exists k. split_and!; try done. pose proof (Z.pow_le_mono_r 2 63 k ltac:(lia) ltac:(lia)). lia.
  - case_decide as Hb; [|exists k; split_and!; done || lia].
    pose proof (pow2_pos k Hk). pose proof (cut_offset _ _ _ _ (2 ^ k) Hc ltac:(lia)) as Hp. cbn beta in Hp.
    destruct (arr.[lo + 2 ^ k]) as [a|]; [|done]. simpl in Hp. injection Hp as Hp.
    opt. case_decide as Ha.
    + apply bool_decide_eq_inv in Hp. assert (lo + 2 ^ k < r) by tauto.
      rewrite Z.shiftl_mul_pow2 by lia. change (2 ^ 1) with (2 ^ 1).
      rewrite <- Z.pow_add_r by lia. rewrite (uwrap_id 64).
      2: { assert (k <= 62). { apply Z.nlt_ge. intros ?. pose proof (Z.pow_le_mono_r 2 63 k ltac:(lia) ltac:(lia)). lia. }
           pose proof (Z.pow_lt_mono_r 2 (k + 1) 64 ltac:(lia) ltac:(lia) ltac:(lia)).
           pose proof (pow2_pos (k + 1) ltac:(lia)). unfold is_u. lia. }
      apply IH; [lia..|]. right. by replace (k + 1 - 1) with k by lia.
    + apply bool_decide_eq_inv in Hp. exists k. split_and!; try done. intros _. lia.
Qed.

Lemma pow2_half j : 0 < j -> Z.shiftr (2 ^ j) 1 = 2 ^ (j - 1).
Proof.
  intros Hj. rewrite shiftr1. replace (2 ^ j) with (2 ^ (j - 1) * 2).
  - apply Z.div_mul. lia.
  - rewrite Z.mul_comm, <- Z.pow_succ_r by lia. f_equal. lia.
Qed.

Lemma gallopLowerBound_cut arr lo hi key r :
  cut (fun i => (fun a => bool_decide (a < key)) <$> arr.[i]) lo hi r -> hi - lo < 2 ^ 63 ->
  gallopLowerBound arr lo hi key = Some r.
Proof.
  intros Hc Hn. pose proof Hc as (Hr & _). unfold gallopLowerBound.
  destruct (decide (hi - lo = 0)); [f_equal; lia|].
  destruct (boundLoop_cut arr lo (hi - lo) key r 64 0) as (j & E & Hj & Hlo & Hhi); try lia.
  { by replace (lo + (hi - lo)) with hi by lia. }
  change (2 ^ 0) with 1 in E. rewrite E. opt. pose proof (pow2_pos j Hj).
  assert (lo + Z.shiftr (2 ^ j) 1 <= r /\ 0 <= Z.shiftr (2 ^ j) 1) as [H1 H2].
  { destruct (decide (j = 0)) as [->|]; [change (Z.shiftr (2 ^ 0) 1) with 0; lia|]. destruct Hlo as [|Hlo]; [lia|].
    rewrite pow2_half by lia. pose proof (pow2_pos (j - 1) ltac:(lia)). lia. }
  remember (Z.shiftr (2 ^ j) 1) as half eqn:Eh. clear Eh. apply lower_bound_cut.
  - apply (cut_narrow _ _ _ _ _ _ Hc); [lia|]. case_decide; lia.
  - case_decide; lia.
Qed.

(** ** The index form *)

Lemma i64_in z : is_s 64 z -> i64 z = Some z.
Proof. intros. unfold i64. by rewrite decide_True. Qed.

Lemma bisect_cut valueAt key fuel first last r :
  cut (fun i => (fun v => bool_decide (v < key)) <$> valueAt i) first last r ->
  - 2 ^ 63 <= first -> last < 2 ^ 63 -> last - first < 2 ^ Z.min (Z.of_nat fuel) 63 ->
  bisect valueAt key fuel first last = Some r.
Proof.
  revert first last. induction fuel as [|fuel IH]; intros first last Hc Hlo Hhi Hf;
    pose proof Hc as (Hr & _); cbn [bisect].
  - rewrite Z.min_l in Hf by lia. change (2 ^ Z.of_nat 0) with 1 in Hf.
    rewrite decide_False by lia. f_equal. lia.
  - case_decide; [|f_equal; lia].
    assert (2 ^ Z.min (Z.of_nat (S fuel)) 63 <= 2 ^ 63) by (apply Z.pow_le_mono_r; lia).
    rewrite i64_in by (unfold is_s; change (2 ^ (64 - 1)) with (2 ^ 63); lia). opt. rewrite shiftr1.
    pose proof (Z.div_mod (last - first) 2 ltac:(lia)). pose proof (Z.mod_pos_bound (last - first) 2 ltac:(lia)).
    rewrite i64_in by (unfold is_s; change (2 ^ (64 - 1)) with (2 ^ 63); lia). opt.
    remember (first + (last - first) `div` 2) as mid eqn:Hmid.
    assert ((last - first) `div` 2 < 2 ^ Z.min (Z.of_nat fuel) 63) as Hhalf.
    { destruct (decide (Z.of_nat (S fuel) <= 63)).
      - rewrite Z.min_l in * by lia. rewrite Nat2Z.inj_succ, Z.pow_succ_r in Hf by lia. lia.
      - assert (2 ^ 63 <= 2 ^ Z.min (Z.of_nat fuel) 63) by (apply Z.pow_le_mono_r; lia). lia. }
    pose proof (cut_probe _ _ _ _ mid Hc ltac:(lia)) as Hp. cbn beta in Hp.
    destruct (valueAt mid) as [v|]; [|done]. simpl in Hp. injection Hp as Hp%bool_decide_eq_inv. opt.
    case_decide as Hv.
    + rewrite i64_in by (unfold is_s; change (2 ^ (64 - 1)) with (2 ^ 63); lia). opt.
      apply IH; [|lia..]. apply (cut_narrow _ _ _ _ _ _ Hc); lia.
    + apply IH; [|lia..]. apply (cut_narrow _ _ _ _ _ _ Hc); lia.
Qed.
Lemma stepLoop_cut valueAt key lo distance r fuel lastLess step k :
  cut (fun i => (fun v => bool_decide (v < key)) <$> valueAt i) lo (lo + distance) r ->
  - 2 ^ 63 <= lo -> lo + distance < 2 ^ 63 -> distance < 2 ^ 63 ->
  lo <= lastLess < r -> 0 < step -> 0 <= k -> 63 <= k + Z.of_nat fuel ->
  (step < distance -> 2 ^ k <= step) ->
  exists ll st, stepLoop valueAt key fuel lo distance lastLess step = Some (ll, st) /\
    lo <= ll < r /\ 0 < st /\ (st < distance -> r <= lo + st).
Proof.
  intros Hc Hlo Hhi Hd. revert lastLess step k.
  induction fuel as [|fuel IH]; intros lastLess step k Hl Hs Hk Hf Hstep; cbn [stepLoop];
    (destruct (decide (step < distance)) as [Hsd|]; [|exists lastLess, step; split_and!; done || lia]);
    specialize (Hstep Hsd).
  - pose proof (Z.pow_le_mono_r 2 63 k ltac:(lia) ltac:(lia)). lia.
  - rewrite (i64_in (lo + step)) by (unfold is_s; change (2 ^ (64 - 1)) with (2 ^ 63); lia). opt.
    pose proof (cut_offset _ _ _ _ step Hc ltac:(lia)) as Hp. cbn beta in Hp.
    destruct (valueAt (lo + step)) as [v|]; [|done]. simpl in Hp.
    injection Hp as Hp%bool_decide_eq_inv. opt.
    destruct (decide (v >= key)); [exists lastLess, step; split_and!; done || lia|].
    pose proof (Z.quot_div_nonneg distance 2 ltac:(lia) ltac:(lia)) as Hq. rewrite Hq.
    pose proof (Z.div_mod distance 2 ltac:(lia)). pose proof (Z.mod_pos_bound distance 2 ltac:(lia)).
    destruct (decide (step > distance `div` 2)); [apply (IH _ _ (k + 1)); lia|].
    rewrite Z.shiftl_mul_pow2 by lia. change (2 ^ 1) with 2.
    rewrite i64_in by (unfold is_s; change (2 ^ (64 - 1)) with (2 ^ 63); lia). opt.
    apply (IH _ _ (k + 1)); try lia. rewrite Z.pow_add_r by lia. lia.
Qed.

Lemma gallopIndex_cut valueAt key lo hi r :
  cut (fun i => (fun v => bool_decide (v < key)) <$> valueAt i) lo hi r ->
  - 2 ^ 63 <= lo -> hi < 2 ^ 63 -> hi - lo < 2 ^ 63 ->
  gallopIndex valueAt key lo hi = Some r.
Proof.
  intros Hc Hlo Hhi Hd. pose proof Hc as (Hr & _). unfold gallopIndex.
  assert (Z.of_nat 64 = 64) as Ef by done. revert Ef. generalize 64%nat. intros fuel Ef.
  destruct (decide (lo >= hi)); [f_equal; lia|].
  pose proof (cut_probe _ _ _ _ lo Hc ltac:(lia)) as Hp. cbn beta in Hp.
  destruct (valueAt lo) as [v|]; [|done]. simpl in Hp. injection Hp as Hp%bool_decide_eq_inv. opt.
  destruct (decide (v >= key)); [f_equal; lia|].
  rewrite i64_in by (unfold is_s; change (2 ^ (64 - 1)) with (2 ^ 63); lia). opt.
  destruct (stepLoop_cut valueAt key lo (hi - lo) r fuel lo 1 0) as (ll & st & E & Hll & Hst & Hle); try lia.
  { by replace (lo + (hi - lo)) with hi by lia. }
  rewrite E. opt. rewrite (i64_in (ll + 1)) by (unfold is_s; change (2 ^ (64 - 1)) with (2 ^ 63); lia). opt.
  destruct (decide (st < hi - lo)).
  - rewrite i64_in by (unfold is_s; change (2 ^ (64 - 1)) with (2 ^ 63); lia). opt.
    apply bisect_cut; [apply (cut_narrow _ _ _ _ _ _ Hc); lia|lia|lia|rewrite Ef; change (Z.min 64 63) with 63; lia].
  - opt. apply bisect_cut; [apply (cut_narrow _ _ _ _ _ _ Hc); lia|lia|lia|rewrite Ef; change (Z.min 64 63) with 63; lia].
Qed.

End gallop.

(** On the sorted elements [lo .. hi) of an array, and on any monotone indexed
    source, both galloping searches return what [std::lower_bound] returns, the
    first index whose value is not less than the key; they probe only inside the
    range and no signed operation overflows. *)
Theorem gallop_correct (arr : list Z) (lo hi key r : Z) :
  0 <= lo -> hi <= zlen arr -> zlen arr < 2 ^ 63 ->
  cut (fun i => (fun v => bool_decide (v < key)) <$> arr.[i]) lo hi r ->
  Gallop.gallopLowerBound arr lo hi key = Some r /\
  Gallop.gallopIndex (zget arr) key lo hi = Some r /\
  lower_bound (fun i => (fun v => bool_decide (v < key)) <$> arr.[i]) lo hi = Some r.
Proof.
  intros Hlo Hhi Hlen Hc. split_and!.
  - apply gallopLowerBound_cut; [done|lia].
  - apply gallopIndex_cut; [done|lia..].
  - apply lower_bound_cut; [done|lia].
Qed.

Lemma gallop_correct_witness :
  Gallop.gallopLowerBound [9; 2; 3; 5; 7; 1] 1 5 4 = Some 3 /\
  Gallop.gallopIndex (zget [9; 2; 3; 5; 7; 1]) 4 1 5 = Some 3 /\
  lower_bound (fun i => (fun v => bool_decide (v < 4)) <$> [9; 2; 3; 5; 7; 1].[i]) 1 5 = Some 3.
Proof.
  apply (gallop_correct [9; 2; 3; 5; 7; 1] 1 5 4 3); [done..|]. split; [lia|]. split; intros i Hi.
  - assert (i = 1 \/ i = 2) as [->| ->] by lia; done.
  - assert (i = 3 \/ i = 4) as [->| ->] by lia; done.
Defined.

(** * Any data *)

(** [turn past lo hi r]: the probe before [r] is true and the one at [r] is false, as far
    as they are inside the range. *)
Definition turn (past : Z -> option bool) (lo hi r : Z) : Prop :=
  lo <= r <= hi /\ (lo < r -> past (r - 1) = Some true) /\ (r < hi -> past r = Some false).

Lemma turn_widen past lo hi r lo' hi' :
  turn past lo' hi' r -> lo <= lo' -> hi' <= hi -> (lo < lo' -> past (lo' - 1) = Some true) -> (hi' < hi -> past hi' = Some false) ->
  turn past lo hi r.
Proof.
  intros (Hr & Ht & Hf) Hlo Hhi Hl Hh. split; [lia|]. split; intros H.
  - destruct (decide (lo' < r)); [by apply Ht|]. assert (r = lo') as -> by lia. by apply Hl.
  - destruct (decide (r < hi')); [by apply Hf|]. assert (r = hi') as -> by lia. by apply Hh.
Qed.

Section any.
Import Gallop.
Context (valueAt : Z -> option Z) (key : Z).
Abbreviation less := (fun i => (fun v => bool_decide (v < key)) <$> valueAt i).

Lemma less_probe i v : valueAt i = Some v -> less i = Some (bool_decide (v < key)).
Proof. intros E. cbn beta. by rewrite E. Qed.

Lemma bisect_turn fuel first last :
  (forall i, first <= i < last -> is_Some (valueAt i)) -> first <= last ->
  - 2 ^ 63 <= first -> last < 2 ^ 63 -> last - first < 2 ^ Z.min (Z.of_nat fuel) 63 ->
  exists r, bisect valueAt key fuel first last = Some r /\ turn less first last r.
Proof.
  revert first last. induction fuel as [|fuel IH]; intros first last Hv Hle Hlo Hhi Hf; cbn [bisect].
  - rewrite Z.min_l in Hf by lia. change (2 ^ Z.of_nat 0) with 1 in Hf. rewrite decide_False by lia.
    exists first. split; [done|]. split; lia.
  - case_decide; [|exists first; split; [done|]; split; lia].
    assert (2 ^ Z.min (Z.of_nat (S fuel)) 63 <= 2 ^ 63) by (apply Z.pow_le_mono_r; lia).
    rewrite i64_in by (unfold is_s; change (2 ^ (64 - 1)) with (2 ^ 63); lia). opt. rewrite shiftr1.
    pose proof (Z.div_mod (last - first) 2 ltac:(lia)). pose proof (Z.mod_pos_bound (last - first) 2 ltac:(lia)).
    rewrite i64_in by (unfold is_s; change (2 ^ (64 - 1)) with (2 ^ 63); lia). opt.
    remember (first + (last - first) `div` 2) as mid eqn:Hmid.
    assert ((last - first) `div` 2 < 2 ^ Z.min (Z.of_nat fuel) 63) as Hhalf.
    { destruct (decide (Z.of_nat (S fuel) <= 63)).
      - rewrite Z.min_l in * by lia. rewrite Nat2Z.inj_succ, Z.pow_succ_r in Hf by lia. lia.
      - assert (2 ^ 63 <= 2 ^ Z.min (Z.of_nat fuel) 63) by (apply Z.pow_le_mono_r; lia). lia. }
    destruct (Hv mid ltac:(lia)) as [v E]. rewrite E. opt. pose proof (less_probe _ _ E) as Hp. case_decide as Hvk.
    + rewrite i64_in by (unfold is_s; change (2 ^ (64 - 1)) with (2 ^ 63); lia). opt.
      destruct (IH (mid + 1) last) as (r & -> & Hr); [intros i Hi; apply Hv; lia|lia..|]. exists r. split; [done|].
      apply (turn_widen _ _ _ _ _ _ Hr); [lia|lia| |lia]. intros _. replace (mid + 1 - 1) with mid by lia. by rewrite Hp, bool_decide_true.
    + destruct (IH first mid) as (r & -> & Hr); [intros i Hi; apply Hv; lia|lia..|]. exists r. split; [done|].
      apply (turn_widen _ _ _ _ _ _ Hr); [lia|lia|lia|]. intros _. by rewrite Hp, bool_decide_false.
Qed.

Lemma stepLoop_turn lo distance fuel lastLess step k :
  (forall i, lo <= i < lo + distance -> is_Some (valueAt i)) ->
  - 2 ^ 63 <= lo -> lo + distance < 2 ^ 63 -> distance < 2 ^ 63 ->
  lo <= lastLess < lo + Z.min step distance -> less lastLess = Some true -> 0 < step -> 0 <= k -> 63 <= k + Z.of_nat fuel ->
  (step < distance -> 2 ^ k <= step) ->
  exists ll st, stepLoop valueAt key fuel lo distance lastLess step = Some (ll, st) /\
    lo <= ll < lo + Z.min st distance /\ less ll = Some true /\ (st < distance -> less (lo + st) = Some false).
Proof.
  intros Hv Hlo Hhi Hd. revert lastLess step k.
  induction fuel as [|fuel IH]; intros lastLess step k Hl Hll Hs Hk Hf Hstep; cbn [stepLoop];
    (destruct (decide (step < distance)) as [Hsd|]; [|exists lastLess, step; split_and!; done || lia]); specialize (Hstep Hsd).
  - pose proof (Z.pow_le_mono_r 2 63 k ltac:(lia) ltac:(lia)). lia.
  - rewrite (i64_in (lo + step)) by (unfold is_s; change (2 ^ (64 - 1)) with (2 ^ 63); lia). opt.
    destruct (Hv (lo + step) ltac:(lia)) as [v E]. rewrite E. opt. pose proof (less_probe _ _ E) as Hp.
    destruct (decide (v >= key)).
    { exists lastLess, step. split_and!; [done|lia|lia|done|]. intros _. by rewrite Hp, bool_decide_false by lia. }
    rewrite bool_decide_true in Hp by lia.
    pose proof (Z.quot_div_nonneg distance 2 ltac:(lia) ltac:(lia)) as Hq. rewrite Hq.
    pose proof (Z.div_mod distance 2 ltac:(lia)). pose proof (Z.mod_pos_bound distance 2 ltac:(lia)).
    destruct (decide (step > distance `div` 2)); [apply (IH _ _ (k + 1)); (done || lia)|].
    rewrite Z.shiftl_mul_pow2 by lia. change (2 ^ 1) with 2.
    rewrite i64_in by (unfold is_s; change (2 ^ (64 - 1)) with (2 ^ 63); lia). opt.
    apply (IH _ _ (k + 1)); try (done || lia). rewrite Z.pow_add_r by lia. lia.
Qed.

Lemma gallopIndex_turn lo hi :
  (forall i, lo <= i < hi -> is_Some (valueAt i)) -> lo <= hi -> - 2 ^ 63 <= lo -> hi < 2 ^ 63 -> hi - lo < 2 ^ 63 ->
  exists r, gallopIndex valueAt key lo hi = Some r /\ turn less lo hi r.
Proof.
  intros Hv Hle Hlo Hhi Hd. unfold gallopIndex.
  assert (Z.of_nat 64 = 64) as Ef by done. revert Ef. generalize 64%nat. intros fuel Ef.
  destruct (decide (lo >= hi)); [exists lo; split; [done|]; split; lia|].
  destruct (Hv lo ltac:(lia)) as [v E]. rewrite E. opt. pose proof (less_probe _ _ E) as Hp.
  destruct (decide (v >= key)); [exists lo; split; [done|]; split; [lia|]; split; [lia|]; intros _; by rewrite Hp, bool_decide_false by lia|].
  rewrite bool_decide_true in Hp by lia.
  rewrite i64_in by (unfold is_s; change (2 ^ (64 - 1)) with (2 ^ 63); lia). opt.
  destruct (stepLoop_turn lo (hi - lo) fuel lo 1 0) as (ll & st & Es & Hll & Hless & Hst); try (done || lia).
  { intros i Hi. apply Hv. lia. }
  rewrite Es. opt. rewrite (i64_in (ll + 1)) by (unfold is_s; change (2 ^ (64 - 1)) with (2 ^ 63); lia). opt.
  set (last := if decide (st < hi - lo) then lo + st + 1 else hi).
  assert ((if decide (st < hi - lo) then i64 (lo + st + 1) else Some hi) = Some last) as ->.
  { unfold last. case_decide; [|done]. apply i64_in. unfold is_s. change (2 ^ (64 - 1)) with (2 ^ 63). lia. }
  opt. assert (ll + 1 <= last <= hi) as Hlast by (unfold last; case_decide; lia).
  destruct (bisect_turn fuel (ll + 1) last) as (r & Er & Hr); [intros i Hi; apply Hv; lia|lia..|rewrite Ef; change (Z.min 64 63) with 63; lia|].
  exists r. split; [done|]. unfold last in *. destruct (decide (st < hi - lo)) as [Hlt|]; [|apply (turn_widen _ _ _ _ _ _ Hr); [lia|lia| |lia]; intros _; by replace (ll + 1 - 1) with ll by lia].
  specialize (Hst Hlt). assert (r <= lo + st) as Hrs.
  { destruct (decide (r <= lo + st)); [done|]. destruct Hr as (Hr & Ht & _). assert (r = lo + st + 1) as -> by lia.
    exfalso. replace (lo + st + 1 - 1) with (lo + st) in Ht by lia. rewrite Ht in Hst by lia. done. }
  apply (turn_widen _ _ _ _ (ll + 1) (lo + st)); [|lia|lia| |done].
  - destruct Hr as (Hr & Ht & Hf). split; [lia|]. split; [done|]. intros H. apply Hf. lia.
  - intros _. by replace (ll + 1 - 1) with ll by lia.
Qed.

End any.

(** C38: galloping finds the lower bound and never runs away.  On an array that need not be sorted the index form returns after at most 64 doublings and 64
    halvings, without a probe outside the range or a signed overflow, at a position of the range where the elements turn from less than the key to
    not less than it.  Where the elements less than the key come first, as a sorted array has them, both forms return the one such position; the pointer form, which ends in
    [std::lower_bound], is defined only there. *)
Theorem gallop_terminates (arr : list Z) (lo hi key : Z) (Hlo : 0 <= lo <= hi) (Hhi : hi <= zlen arr) (Hlen : zlen arr < 2 ^ 63) :
  (exists r, Gallop.gallopIndex (zget arr) key lo hi = Some r /\ turn (fun i => (fun v => bool_decide (v < key)) <$> arr.[i]) lo hi r) /\
  (forall r, cut (fun i => (fun v => bool_decide (v < key)) <$> arr.[i]) lo hi r ->
     Gallop.gallopLowerBound arr lo hi key = Some r /\ Gallop.gallopIndex (zget arr) key lo hi = Some r).
Proof.
  split; [apply gallopIndex_turn; [|lia..]; intros i Hi; apply zget_in; lia|].
  intros r Hc. split; [apply gallopLowerBound_cut; [done|lia]|apply gallopIndex_cut; [done|lia..]].
Qed.

Lemma gallop_terminates_witness :
  (exists r, Gallop.gallopIndex (zget [9; 2; 8; 5; 1; 7]) 4 1 6 = Some r /\
     turn (fun i => (fun v => bool_decide (v < 4)) <$> [9; 2; 8; 5; 1; 7].[i]) 1 6 r) /\
  Gallop.gallopLowerBound [9; 2; 3; 5; 7; 1] 1 5 4 = Some 3.
Proof.
  split; [apply (gallop_terminates [9; 2; 8; 5; 1; 7] 1 6 4); [lia|done|done]|].
  apply (gallop_terminates [9; 2; 3; 5; 7; 1] 1 5 4); [lia|done|done|]. split; [lia|]. split; intros i Hi.
  - assert (i = 1 \/ i = 2) as [->| ->] by lia; done.
  - assert (i = 3 \/ i = 4) as [->| ->] by lia; done.
Defined.

(** On an unsorted array the pointer form violates the precondition of the library's search. *)
Example gallop_unsorted : Gallop.gallopLowerBound [1; 1; 1; 1; 1; 9; 1; 9; 9] 0 9 5 = None.
Proof. vm_compute. reflexivity. Qed.
