(* ===== verification/BitSets.v ===== *)
(** The word-level bitsets of [luxir/util/screaming.h]: [OpenBitSet], a view over
    memory with a fixed capacity, and [FixedBitSet], whose size is given at run time.
    Words are 64 bits wide, as in every instance the code uses; a bitset is the list
    of its words, and [None] is a failed assertion or an access outside them. *)

From stdpp Require Import gmap.
From S2P Require Import Prelude.

(** * OpenBitSet *)

Module OpenBitSet.

Definition wordShift : Z := bit_width 64 - 1.
Definition wordMask : Z := 64 - 1.

Section open.
Context (fixedSize MAX_INDEX : Z).

Definition fixedNumWords : Z := fixedSize / 8 / 8.

Definition assertIndex (val : Z) : option unit :=
  if decide (val >= 0 /\ val < fixedSize) then Some () else None.

Definition set (words : list Z) (val : Z) : option (list Z) :=
  assertIndex val;;
  let wordIdx := Z.shiftr val wordShift in
  let bitIdx := Z.land val wordMask in
  w ← words.[wordIdx];
  zset words wordIdx (Z.lor w (Z.shiftl 1 bitIdx)).

Definition get (words : list Z) (val : Z) : option bool :=
  assertIndex val;;
  let wordIdx := Z.shiftr val wordShift in
  let bitIdx := Z.land val wordMask in
  w ← words.[wordIdx];
  Some (negb (Z.land w (Z.shiftl 1 bitIdx) =? 0)).

Definition getInt (words : list Z) (val : Z) : option Z :=
  assertIndex val;;
  let wordIdx := Z.shiftr val wordShift in
  let bitIdx := Z.land val wordMask in
  w ← words.[wordIdx];
  Some (Z.land (Z.shiftr w bitIdx) 1).

(** The scan of whole words: [n] words from index [i]. *)
Fixpoint nextWord (words : list Z) (n : nat) (i : Z) : option Z :=
  match n with
  | O => Some MAX_INDEX
  | S n =>
      word ← words.[i];
      if decide (word <> 0) then Some (Z.shiftl i wordShift + countr_zero 64 word)
      else nextWord words n (i + 1)
  end.

Definition nextSetBit (words : list Z) (val numWords : Z) : option Z :=
  assertIndex val;;
  let wordIdx := Z.shiftr val wordShift in
  let bitIdx := Z.land val wordMask in
  w ← words.[wordIdx];
  let word := Z.shiftr w bitIdx in
  if decide (word <> 0) then Some (val + countr_zero 64 word)
  else nextWord words (Z.to_nat (numWords - (wordIdx + 1))) (wordIdx + 1).

(** [memset] of the fixed capacity. *)
Definition clear (words : list Z) : option (list Z) :=
  if decide (fixedNumWords <= zlen words)
  then Some (replicate (Z.to_nat fixedNumWords) 0 ++ drop (Z.to_nat fixedNumWords) words) else None.

(** The loop runs to the fixed capacity, whatever [numWords] is. *)
Definition flip (words : list Z) (numWords : Z) : option (list Z) :=
  foldM (fun words i => w ← words.[i]; zset words i (unot 64 w)) words (seqZ 0 fixedNumWords).

End open.

(** [visitOnes(word, callable)]: the calls made, in order.  Each round clears the
    lowest set bit, so 64 rounds empty a word. *)
Fixpoint visitWord (fuel : nat) (base word : Z) : list Z :=
  match fuel with
  | O => []
  | S fuel =>
      if decide (word <> 0)
      then base + countr_zero 64 word :: visitWord fuel base (Z.land word (u64 (word - 1)))
      else []
  end.

Definition visitOnesWord (word : Z) : list Z := visitWord 64 0 word.

Definition visitOnes (words : list Z) (numWords : Z) : option (list Z) :=
  foldM (fun calls i => word ← words.[i]; Some (calls ++ visitWord 64 (i * 64) word))
    [] (seqZ 0 numWords).

Definition visitZeroes (words : list Z) (numWords : Z) : option (list Z) :=
  foldM (fun calls i => word ← words.[i]; Some (calls ++ visitWord 64 (i * 64) (unot 64 word)))
    [] (seqZ 0 numWords).

End OpenBitSet.

(** * FixedBitSet *)

Module FixedBitSet.

Definition fixedSize : Z := 2 ^ 31 - 1.
Definition MAX_INDEX : Z := 2 ^ 31 - 1.

Record fixed := Fixed { words : list Z; nbits : Z }.

Definition sizeInWords (nbits : Z) : Z := (nbits + 64 - 1) / 64.
Definition nwords (s : fixed) : Z := sizeInWords (nbits s).

(** [allocate]: all zero words, or all ones with the unused high bits of the last
    word cleared. *)
Definition allocate (nbits : Z) (initialVal : bool) : option (list Z) :=
  let numWords := sizeInWords nbits in
  if initialVal then
    let ptr := replicate (Z.to_nat numWords) (2 ^ 64 - 1) in
    let usedBits := nbits `mod` 64 in
    if decide (usedBits > 0) then
      w ← ptr.[numWords - 1];
      zset ptr (numWords - 1) (Z.shiftr w (64 - usedBits))
    else Some ptr
  else Some (replicate (Z.to_nat numWords) 0).

(** The [RAMFixedBitSet] constructor. *)
Definition make (nbits : Z) (initialVal : bool) : option fixed :=
  ws ← allocate nbits initialVal; Some (Fixed ws nbits).

Definition card (s : fixed) : option Z :=
  foldM (fun count i => w ← (words s).[i]; Some (count + popcount w)) 0 (seqZ 0 (nwords s)).

(** [destination[i] |= src(i)] for [i] below [count]. *)
Definition orLoop (src : Z -> option Z) (destination : list Z) (count : Z) : option (list Z) :=
  foldM (fun dst i => d ← dst.[i]; w ← src i; zset dst i (Z.lor d w)) destination (seqZ 0 count).

Definition orUnalignedRange (s : fixed) (destination : list Z) (from to : Z) : option (list Z) :=
  let bitCount := to - from in
  if decide (from >= 0 /\ to >= from /\ to <= nbits s /\ zlen destination * 64 >= bitCount) then
    if decide (bitCount = 0) then Some destination
    else
      let fullWords := Z.shiftr bitCount 6 in
      let sourceWord := Z.shiftr from 6 in
      let shift := Z.land from 63 in
      let source i := (words s).[sourceWord + i] in
      destination ←
        (if decide (shift = 0) then orLoop source destination fullWords
         else orLoop (fun i => a ← source i; b ← source (i + 1);
                        Some (Z.lor (Z.shiftr a shift) (u64 (Z.shiftl b (64 - shift)))))
                destination fullWords);
      let tailBits := Z.land bitCount 63 in
      if decide (tailBits <> 0) then
        a ← source fullWords;
        sourceBits ←
          (if decide (shift <> 0 /\ sourceWord + fullWords + 1 < nwords s)
           then b ← source (fullWords + 1);
                Some (Z.lor (Z.shiftr a shift) (u64 (Z.shiftl b (64 - shift))))
           else Some (Z.shiftr a shift));
        d ← destination.[fullWords];
        zset destination fullWords (Z.lor d (Z.land sourceBits (Z.shiftl 1 tailBits - 1)))
      else Some destination
  else None.

Definition orRange (s : fixed) (destination : list Z) (from to : Z) : option (list Z) :=
  if decide (from >= 0 /\ to >= from /\ to <= nbits s /\ zlen destination * 64 >= to - from) then
    if decide (from = to) then Some destination
    else if decide (Z.land (Z.lor from to) 63 <> 0) then orUnalignedRange s destination from to
    else orLoop (fun i => (words s).[Z.shiftr from 6 + i]) destination (Z.shiftr (to - from) 6)
  else None.

Definition assertBelow (s : fixed) (index : Z) : option unit :=
  if decide (index < nbits s) then Some () else None.

Definition set (s : fixed) (index : Z) : option fixed :=
  assertBelow s index;;
  ws ← OpenBitSet.set fixedSize (words s) index; Some (Fixed ws (nbits s)).

Definition get (s : fixed) (index : Z) : option bool :=
  assertBelow s index;; OpenBitSet.get fixedSize (words s) index.

Definition getInt (s : fixed) (index : Z) : option Z :=
  assertBelow s index;; OpenBitSet.getInt fixedSize (words s) index.

Definition nextSetBit (s : fixed) (index : Z) : option Z :=
  assertBelow s index;; OpenBitSet.nextSetBit fixedSize MAX_INDEX (words s) index (nwords s).

Definition nextSetBitBefore (s : fixed) (index limit : Z) : option Z :=
  if decide (index >= 0 /\ limit <= nbits s) then
    if decide (index >= limit) then Some MAX_INDEX
    else
      found ← OpenBitSet.nextSetBit fixedSize MAX_INDEX (words s) index (Z.shiftr (limit + 63) 6);
      Some (if decide (found < limit) then found else MAX_INDEX)
  else None.

Definition clear (s : fixed) (index : Z) : option fixed :=
  if decide (index >= 0 /\ index < nbits s) then
    let wordIdx := Z.shiftr index OpenBitSet.wordShift in
    let bitIdx := Z.land index OpenBitSet.wordMask in
    w ← (words s).[wordIdx];
    ws ← zset (words s) wordIdx (Z.land w (unot 64 (Z.shiftl 1 bitIdx)));
    Some (Fixed ws (nbits s))
  else None.

(** The rest of the scan for a clear bit: [n] words from index [i]. *)
Fixpoint nextClearWord (s : fixed) (n : nat) (i : Z) : option Z :=
  match n with
  | O => Some MAX_INDEX
  | S n =>
      w ← (words s).[i];
      let word := unot 64 w in
      let result := Z.shiftl i OpenBitSet.wordShift + countr_zero 64 word in
      if decide (word <> 0 /\ result < nbits s) then Some result else nextClearWord s n (i + 1)
  end.

Definition nextClearBit (s : fixed) (index : Z) : option Z :=
  if decide (index >= 0 /\ index <= nbits s) then
    let wordIdx := Z.shiftr index OpenBitSet.wordShift in
    let bitIdx := Z.land index OpenBitSet.wordMask in
    w ← (words s).[wordIdx];
    let word := Z.land (unot 64 w) (unot 64 (Z.shiftl 1 bitIdx - 1)) in
    let result := Z.shiftl wordIdx OpenBitSet.wordShift + countr_zero 64 word in
    if decide (word <> 0 /\ result < nbits s) then Some result
    else nextClearWord s (Z.to_nat (nwords s - (wordIdx + 1))) (wordIdx + 1)
  else None.

End FixedBitSet.

(** * The set a bitset denotes *)

(** [bit ws i]: bit [i] of the words, false outside them. *)
Definition bit (ws : list Z) (i : Z) : bool :=
  default false ((fun w => Z.testbit w (i `mod` 64)) <$> ws.[i / 64]).

Definition words_ok (ws : list Z) : Prop := Forall (is_u 64) ws.

(** The members below [n], in order. *)
Definition members (ws : list Z) (n : Z) : list Z := filter (fun i => bit ws i = true) (seqZ 0 n).

Lemma shiftr6 i : Z.shiftr i 6 = i / 64.
Proof. by rewrite Z.shiftr_div_pow2. Qed.
Lemma shiftl6 i : Z.shiftl i 6 = 64 * i.
Proof. rewrite Z.shiftl_mul_pow2 by lia. lia. Qed.
Lemma land63 i : Z.land i 63 = i `mod` 64.
Proof. change 63 with (Z.ones 6). by rewrite Z.land_ones. Qed.

(** Splits [i] into its word and its bit. *)
Lemma word_split i : exists q b, i = 64 * q + b /\ 0 <= b < 64 /\ i / 64 = q /\ i `mod` 64 = b.
Proof.
  exists (i / 64), (i `mod` 64). pose proof (Z.div_mod i 64). pose proof (Z.mod_pos_bound i 64).
  split_and!; [lia..|done|done].
Qed.

Lemma word_div q b : 0 <= b < 64 -> (64 * q + b) / 64 = q.
Proof. intros. symmetry. apply (Z.div_unique _ _ _ b); lia. Qed.
Lemma word_mod q b : 0 <= b < 64 -> (64 * q + b) `mod` 64 = b.
Proof. intros. symmetry. apply (Z.mod_unique _ _ q); lia. Qed.

Lemma bit_at ws q b w : ws.[q] = Some w -> 0 <= b < 64 -> bit ws (64 * q + b) = Z.testbit w b.
Proof. intros E Hb. unfold bit. by rewrite word_div, word_mod, E by done. Qed.

Lemma bit_out ws i : ~ 0 <= i < 64 * zlen ws -> bit ws i = false.
Proof.
  intros Hi. unfold bit. destruct (ws.[i / 64]) as [w|] eqn:E; [|done].
  apply zget_Some_range in E. destruct (word_split i) as (q & b & -> & Hb & E' & _). lia.
Qed.

Lemma words_ok_at ws q w : words_ok ws -> ws.[q] = Some w -> is_u 64 w.
Proof. unfold words_ok. rewrite Forall_forall. intros H E. eauto using zget_elem_1. Qed.

Lemma words_ok_insert ws q w : words_ok ws -> is_u 64 w -> words_ok (<[q := w]> ws).
Proof. intros. by apply Forall_insert. Qed.

(** A word written in place of another changes the bits of that word only. *)
Lemma bit_insert ws q w i :
  0 <= q < zlen ws ->
  bit (<[Z.to_nat q := w]> ws) i = if decide (i / 64 = q) then Z.testbit w (i `mod` 64) else bit ws i.
Proof.
  intros Hq. unfold bit. rewrite zget_insert by done.
  destruct (decide (i / 64 = q)); case_decide; (done || lia).
Qed.

(** ** The first index of a range with a property *)

Definition first_hit (P : Z -> bool) (lo hi none r : Z) : Prop :=
  (r = none /\ forall j, lo <= j < hi -> P j = false) \/
  (lo <= r < hi /\ P r = true /\ forall j, lo <= j < r -> P j = false).

Lemma first_hit_skip P lo mid hi none r :
  lo <= mid -> (forall j, lo <= j < mid -> j < hi -> P j = false) ->
  first_hit P mid hi none r -> first_hit P lo hi none r.
Proof.
  intros Hm Hl [[-> H]|(Hr & HP & H)]; [left|right]; split_and!; try done; try lia;
    intros j Hj; destruct (decide (j < mid)); (apply H; lia) || (apply Hl; lia).
Qed.

(** The lowest set bit of a word that shows [P] from [lo] on. *)
Lemma word_hit P lo n z :
  0 < z -> is_u n z -> (forall b, 0 <= b < n -> Z.testbit z b = P (lo + b)) ->
  lo <= lo + countr_zero 64 z < lo + n /\ P (lo + countr_zero 64 z) = true /\
  forall j, lo <= j < lo + countr_zero 64 z -> P j = false.
Proof.
  intros Hz Hu HP. destruct (countr_zero_spec 64 z Hz) as (H0 & H1 & H2).
  pose proof (countr_zero_lt 64 z n Hz Hu). split_and!; [lia|lia| |].
  - by rewrite <- HP by lia.
  - intros j Hj. replace j with (lo + (j - lo)) by lia. rewrite <- HP by lia. apply H2. lia.
Qed.

Lemma word_miss (P : Z -> bool) lo n :
  (forall b, 0 <= b < n -> Z.testbit 0 b = P (lo + b)) -> forall j, lo <= j < lo + n -> P j = false.
Proof.
  intros HP j Hj. replace j with (lo + (j - lo)) by lia. rewrite <- HP by lia. apply Z.testbit_0_l.
Qed.

(** A word whose lowest set bit, if any, lies at or past [limit]. *)
Lemma word_past P lo n limit z :
  is_u n z -> (forall b, 0 <= b < n -> Z.testbit z b = P (lo + b)) ->
  ~ (z <> 0 /\ lo + countr_zero 64 z < limit) ->
  forall j, lo <= j < lo + n -> j < limit -> P j = false.
Proof.
  intros Hu HP Hd j Hj Hlim. destruct (decide (z = 0)) as [->|Hnz]; [by eapply word_miss|].
  destruct (word_hit P lo n z) as (_ & _ & H); [unfold is_u in Hu; lia|done..|]. apply H. lia.
Qed.

(** * OpenBitSet operations *)

Section open_spec.
Import OpenBitSet.
Context (fixedSize MAX_INDEX : Z).

Lemma assertIndex_in val : 0 <= val < fixedSize -> assertIndex fixedSize val = Some ().
Proof. intros. unfold assertIndex. by rewrite decide_True by lia. Qed.

(** The word and the bit the code computes for an index, and the word read there. *)
Lemma index_word (ws : list Z) val :
  0 <= val < 64 * zlen ws ->
  exists q b w, val = 64 * q + b /\ 0 <= b < 64 /\ 0 <= q < zlen ws /\
    Z.shiftr val wordShift = q /\ Z.land val wordMask = b /\ ws.[q] = Some w.
Proof.
  intros Hv. destruct (word_split val) as (q & b & -> & Hb & Hq & Hm).
  destruct (zget_in ws q) as [w Hw]; [lia|]. exists q, b, w.
  change wordShift with 6. change wordMask with 63. rewrite shiftr6, land63, Hq, Hm.
  split_and!; done || lia.
Qed.

Lemma set_spec ws val :
  words_ok ws -> 0 <= val < fixedSize -> val < 64 * zlen ws ->
  exists ws', set fixedSize ws val = Some ws' /\ words_ok ws' /\ zlen ws' = zlen ws /\
    forall i, bit ws' i = bit ws i || bool_decide (i = val).
Proof.
  intros Hok Hv Hl. destruct (index_word ws val) as (q & b & w & E & Hb & Hq & E1 & E2 & Hw); [lia|].
  unfold set. rewrite assertIndex_in, E1, E2 by done. opt. rewrite Hw. opt. unfold zset.
  rewrite decide_True by done. eexists. split; [done|]. split_and!.
  - apply words_ok_insert; [done|]. apply is_u_lor; [lia|by eapply words_ok_at|by apply is_u_one].
  - apply zlen_insert.
  - intros i. rewrite bit_insert by done. destruct (word_split i) as (q' & b' & -> & Hb' & -> & ->).
    destruct (decide (q' = q)) as [->|].
    + rewrite Z.lor_spec, testbit_one by lia. rewrite (bit_at ws q b' w) by done. f_equal.
      apply bool_decide_ext. lia.
    + rewrite (bool_decide_eq_false_2 (_ = _)) by lia. by rewrite orb_false_r.
Qed.

Lemma land_one_zero w b : 0 <= b -> (Z.land w (Z.shiftl 1 b) =? 0) = negb (Z.testbit w b).
Proof.
  intros Hb. destruct (Z.testbit w b) eqn:E; simpl.
  - apply Z.eqb_neq. intros H. apply (f_equal (fun z => Z.testbit z b)) in H.
    rewrite Z.land_spec, testbit_one, E, bool_decide_eq_true_2, Z.testbit_0_l in H by done. done.
  - apply Z.eqb_eq, Z.bits_inj'. intros i Hi. rewrite Z.land_spec, testbit_one, Z.testbit_0_l by done.
    case_bool_decide; [subst; by rewrite E|apply andb_false_r].
Qed.

Lemma get_spec ws val :
  0 <= val < fixedSize -> val < 64 * zlen ws -> get fixedSize ws val = Some (bit ws val).
Proof.
  intros Hv Hl. destruct (index_word ws val) as (q & b & w & E & Hb & Hq & E1 & E2 & Hw); [lia|].
  unfold get. rewrite assertIndex_in, E1, E2 by done. opt. rewrite Hw. opt.
  rewrite land_one_zero, negb_involutive by lia. by rewrite E, (bit_at ws q b w).
Qed.

Lemma getInt_spec ws val :
  0 <= val < fixedSize -> val < 64 * zlen ws -> getInt fixedSize ws val = Some (Z.b2z (bit ws val)).
Proof.
  intros Hv Hl. destruct (index_word ws val) as (q & b & w & E & Hb & Hq & E1 & E2 & Hw); [lia|].
  unfold getInt. rewrite assertIndex_in, E1, E2 by done. opt. rewrite Hw. opt.
  rewrite E, (bit_at ws q b w) by done. f_equal. change 1 with (Z.ones 1).
  rewrite Z.land_ones by lia. rewrite Z.testbit_spec' by lia. by rewrite Z.shiftr_div_pow2 by lia.
Qed.

Lemma nextWord_spec ws n i :
  words_ok ws -> 0 <= i -> i + Z.of_nat n <= zlen ws ->
  exists r, nextWord MAX_INDEX ws n i = Some r /\
    first_hit (bit ws) (64 * i) (64 * (i + Z.of_nat n)) MAX_INDEX r.
Proof.
  intros Hok. revert i. induction n as [|n IH]; intros i Hi Hl; cbn [nextWord].
  - exists MAX_INDEX. split; [done|]. left. split; [done|lia].
  - destruct (zget_in ws i) as [w Hw]; [lia|]. rewrite Hw. opt.
    assert (forall b, 0 <= b < 64 -> Z.testbit w b = bit ws (64 * i + b)) as HP.
    { intros b Hb. by rewrite (bit_at ws i b w). }
    pose proof (words_ok_at _ _ _ Hok Hw) as Hu. destruct (decide (w <> 0)) as [Hnz|Hz].
    + eexists. split; [done|]. change wordShift with 6. rewrite shiftl6.
      destruct (word_hit (bit ws) (64 * i) 64 w) as (H1 & H2 & H3); [unfold is_u in Hu; lia|done..|].
      right. split_and!; [lia|lia|done|done].
    + destruct (IH (i + 1)) as (r & -> & Hr); [lia..|]. exists r. split; [done|].
      apply (first_hit_skip _ _ (64 * (i + 1))); [lia| |].
      * assert (w = 0) as -> by lia. intros j Hj _. apply (word_miss _ _ 64 HP). lia.
      * by replace (64 * (i + Z.of_nat (S n))) with (64 * (i + 1 + Z.of_nat n)) by lia.
Qed.

Lemma nextSetBit_spec ws val numWords :
  words_ok ws -> 0 <= val < fixedSize -> val < 64 * numWords -> numWords <= zlen ws ->
  exists r, nextSetBit fixedSize MAX_INDEX ws val numWords = Some r /\
    first_hit (bit ws) val (64 * numWords) MAX_INDEX r.
Proof.
  intros Hok Hv Hn Hl. destruct (index_word ws val) as (q & b & w & E & Hb & Hq & E1 & E2 & Hw); [lia|].
  unfold nextSetBit. rewrite assertIndex_in, E1, E2 by done. opt. rewrite Hw. opt.
  pose proof (words_ok_at _ _ _ Hok Hw) as Hu.
  assert (forall j, 0 <= j < 64 - b -> Z.testbit (Z.shiftr w b) j = bit ws (val + j)) as HP.
  { intros j Hj. rewrite Z.shiftr_spec by lia.
    replace (val + j) with (64 * q + (j + b)) by lia. by rewrite (bit_at ws q (j + b) w) by (done || lia). }
  destruct (decide (Z.shiftr w b <> 0)) as [Hnz|Hz].
  - eexists. split; [done|]. destruct (word_hit (bit ws) val (64 - b) (Z.shiftr w b)) as (H1 & H2 & H3); try done.
    + pose proof (is_u_shiftr 64 w b ltac:(lia) ltac:(lia) Hu). unfold is_u in *. lia.
    + apply is_u_testbit; [lia|]. split; [apply Z.shiftr_nonneg; unfold is_u in Hu; lia|].
      intros i Hi. rewrite Z.shiftr_spec by lia. apply (testbit_high 64); [done|lia].
    + right. split_and!; [lia|lia|done|done].
  - destruct (nextWord_spec ws (Z.to_nat (numWords - (q + 1))) (q + 1)) as (r & -> & Hr); [done|lia|lia|].
    exists r. split; [done|]. apply (first_hit_skip _ _ (64 * (q + 1))); [lia| |].
    + assert (Z.shiftr w b = 0) as Hz' by lia. rewrite Hz' in HP.
      intros j Hj _. apply (word_miss _ _ _ HP). lia.
    + rewrite Z2Nat.id in Hr by lia. by replace (q + 1 + (numWords - (q + 1))) with numWords in Hr by lia.
Qed.

End open_spec.

(** ** Visiting *)

Section visits.
Import OpenBitSet.

Lemma increasing_members ws n : increasing (members ws n).
Proof. apply increasing_filter, increasing_seqZ. Qed.
#[local] Hint Resolve increasing_members : incr.

Lemma elem_of_members ws n i : i ∈ members ws n <-> 0 <= i < n /\ bit ws i = true.
Proof. unfold members. rewrite list_elem_of_filter, elem_of_seqZ, Z.add_0_l. tauto. Qed.

(** The word loop calls back every set bit, lowest first. *)
Lemma visitWord_spec fuel base word :
  is_u 64 word -> popcount word <= Z.of_nat fuel ->
  visitWord fuel base word = Z.add base <$> bits_in word 64.
Proof.
  revert word. induction fuel as [|fuel IH]; intros word Hu Hf; cbn [visitWord].
  - rewrite (popcount_bits_in 64) in Hf by (done || lia).
    destruct (bits_in word 64) as [|b l]; [done|]. pose proof (zlen_nonneg l). zlen.
  - destruct (decide (word <> 0)) as [Hnz|Hz].
    + assert (0 < word) by (unfold is_u in Hu; lia).
      assert (u64 (word - 1) = word - 1) as -> by (apply uwrap_id; unfold is_u in *; lia).
      assert (is_u 64 (Z.land word (word - 1))) as Hu' by (apply is_u_land; [lia|done]).
      rewrite (bits_in_clear_lowest 64 word 64) by done. rewrite fmap_cons. f_equal. apply IH; [done|].
      rewrite (popcount_bits_in 64) in Hf |- * by (done || lia).
      rewrite (bits_in_clear_lowest 64 word 64) in Hf by done. zlen.
    + by assert (word = 0) as -> by lia.
Qed.

Lemma bits_in_le z n : 0 <= n -> zlen (bits_in z n) <= n.
Proof.
  intros Hn. unfold bits_in. etransitivity; [apply zlen_filter|]. zlen.
Qed.

Lemma visitWord_full base word : is_u 64 word -> visitWord 64 base word = Z.add base <$> bits_in word 64.
Proof.
  intros Hu. apply visitWord_spec; [done|]. rewrite (popcount_bits_in 64) by (done || lia).
  apply bits_in_le. lia.
Qed.

(** One more word extends the members by the bits of that word. *)
Lemma members_word (P : Z -> bool) k z :
  0 <= k -> (forall b, 0 <= b < 64 -> Z.testbit z b = P (64 * k + b)) ->
  filter (fun i => P i = true) (seqZ 0 (64 * (k + 1))) =
  filter (fun i => P i = true) (seqZ 0 (64 * k)) ++ (Z.add (k * 64) <$> bits_in z 64).
Proof.
  intros Hk HP. apply increasing_ext; [auto with incr| |].
  - apply StronglySorted_app_2; [|auto with incr..]. intros x y Hx Hy.
    apply list_elem_of_filter in Hx as [_ Hx]. apply elem_of_seqZ in Hx.
    apply list_elem_of_fmap in Hy as (b & -> & Hb). apply elem_of_bits_in in Hb. lia.
  - intros i. rewrite elem_of_app, list_elem_of_fmap, !list_elem_of_filter, !elem_of_seqZ.
    setoid_rewrite elem_of_bits_in. split.
    + intros [Hi Hr]. destruct (decide (i < 64 * k)); [left; split; [done|lia]|right].
      exists (i - 64 * k). split; [lia|]. split; [lia|]. rewrite HP by lia. rewrite <- Hi. f_equal. lia.
    + intros [[Hi Hr]|(b & -> & Hb & Ht)]; [split; [done|lia]|]. split; [|lia].
      rewrite HP in Ht by done. rewrite <- Ht. f_equal. lia.
Qed.

(** A loop over the first words that appends the bits of a word derived from each. *)
Lemma visit_loop (f : Z -> Z) (P : Z -> bool) ws numWords :
  0 <= numWords <= zlen ws ->
  (forall k w, ws.[k] = Some w -> is_u 64 (f w) /\
     forall b, 0 <= b < 64 -> Z.testbit (f w) b = P (64 * k + b)) ->
  foldM (fun calls i => word ← ws.[i]; Some (calls ++ visitWord 64 (i * 64) (f word))) [] (seqZ 0 numWords)
  = Some (filter (fun i => P i = true) (seqZ 0 (64 * numWords))).
Proof.
  intros Hn Hf.
  destruct (foldM_seqZ (fun k calls => calls = filter (fun i => P i = true) (seqZ 0 (64 * k)))
    (fun calls i => word ← ws.[i]; Some (calls ++ visitWord 64 (i * 64) (f word))) [] 0 numWords)
    as (s & -> & ->); [lia|by rewrite seqZ_nil| |done].
  intros k calls Hk ->. destruct (zget_in ws k) as [w Hw]; [lia|].
  rewrite Hw. opt. eexists. split; [done|]. destruct (Hf _ _ Hw) as [Hu HP].
  rewrite visitWord_full by done. by rewrite (members_word P _ (f w)) by (done || lia).
Qed.

Lemma visitOnes_spec ws numWords :
  words_ok ws -> 0 <= numWords <= zlen ws ->
  visitOnes ws numWords = Some (members ws (64 * numWords)).
Proof.
  intros Hok Hn. apply (visit_loop (fun w => w) (bit ws)); [done|]. intros k w Hw.
  split; [by eapply words_ok_at|]. intros b Hb. by rewrite (bit_at ws k b w).
Qed.

Lemma visitZeroes_spec ws numWords :
  words_ok ws -> 0 <= numWords <= zlen ws ->
  visitZeroes ws numWords = Some (filter (fun i => bit ws i = false) (seqZ 0 (64 * numWords))).
Proof.
  intros Hok Hn. unfold visitZeroes. rewrite (visit_loop (unot 64) (fun i => negb (bit ws i))); [|done|].
  - f_equal. apply list_filter_iff. intros i. by destruct (bit ws i).
  - intros k w Hw. split; [by apply is_u_unot|]. intros b Hb.
    rewrite testbit_unot, bool_decide_eq_true_2 by lia. by rewrite (bit_at ws k b w).
Qed.

End visits.

(** * FixedBitSet operations *)

Section fixed_spec.
Import FixedBitSet.

(** A bitset has exactly the words its size needs, and no bit past its size. *)
Definition fixed_wf (s : fixed) : Prop :=
  0 <= nbits s <= fixedSize /\ words_ok (words s) /\ zlen (words s) = nwords s /\
  forall i, nbits s <= i -> bit (words s) i = false.

Lemma sizeInWords_spec n : 0 <= n -> n <= 64 * sizeInWords n < n + 64.
Proof.
  intros Hn. unfold sizeInWords. pose proof (Z.div_mod (n + 64 - 1) 64 ltac:(lia)).
  pose proof (Z.mod_pos_bound (n + 64 - 1) 64 ltac:(lia)). lia.
Qed.

Lemma fixed_wf_len s : fixed_wf s -> nbits s <= 64 * zlen (words s) < nbits s + 64.
Proof. intros (Hn & _ & -> & _). apply sizeInWords_spec. lia. Qed.

Lemma bit_replicate n w i :
  0 <= i < 64 * Z.of_nat n -> bit (replicate n w) i = Z.testbit w (i `mod` 64).
Proof.
  intros Hi. destruct (word_split i) as (q & b & -> & Hb & Hq & Hm).
  rewrite (bit_at _ q b w); [by rewrite Hm| |done].
  unfold zget. rewrite decide_True by lia. apply lookup_replicate_2. lia.
Qed.

Lemma words_ok_replicate n w : is_u 64 w -> words_ok (replicate n w).
Proof. intros. by apply Forall_replicate. Qed.

Lemma testbit_all_ones b : 0 <= b < 64 -> Z.testbit (2 ^ 64 - 1) b = true.
Proof. intros. change (2 ^ 64 - 1) with (Z.ones 64). apply Z.ones_spec_low. lia. Qed.

Lemma make_false nb :
  0 <= nb <= fixedSize ->
  exists s, make nb false = Some s /\ fixed_wf s /\ nbits s = nb /\ forall i, bit (words s) i = false.
Proof.
  intros Hn. pose proof (sizeInWords_spec nb ltac:(lia)).
  assert (forall i, bit (replicate (Z.to_nat (sizeInWords nb)) 0) i = false) as Hb.
  { intros i. destruct (decide (0 <= i < 64 * Z.of_nat (Z.to_nat (sizeInWords nb)))).
    - rewrite bit_replicate by done. apply Z.testbit_0_l.
    - apply bit_out. by zlen. }
  eexists. split; [done|]. split; [|done]. split_and!; simpl; [lia|lia| | |done].
  - apply words_ok_replicate. done.
  - zlen. by rewrite Z2Nat.id by lia.
Qed.

Lemma make_true nb :
  0 <= nb <= fixedSize ->
  exists s, make nb true = Some s /\ fixed_wf s /\ nbits s = nb /\
    forall i, bit (words s) i = bool_decide (0 <= i < nb).
Proof.
  intros Hn. pose proof (sizeInWords_spec nb ltac:(lia)) as Hs. unfold make, allocate.
  remember (sizeInWords nb) as nw eqn:Enw.
  assert (forall i, 0 <= i < 64 * nw -> bit (replicate (Z.to_nat nw) (2 ^ 64 - 1)) i = true) as Hb.
  { intros i Hi. rewrite bit_replicate by lia. apply testbit_all_ones. apply Z.mod_pos_bound. lia. }
  pose proof (Z.div_mod nb 64 ltac:(lia)) as Hd. pose proof (Z.mod_pos_bound nb 64 ltac:(lia)) as Hm.
  assert (zlen (replicate (Z.to_nat nw) (2 ^ 64 - 1)) = nw) as Hl by (zlen; rewrite Z2Nat.id; lia).
  case_decide as Hu.
  - assert (nw = nb / 64 + 1) as Enw' by lia.
    assert ((replicate (Z.to_nat nw) (2 ^ 64 - 1)).[nw - 1] = Some (2 ^ 64 - 1)) as ->.
    { unfold zget. rewrite decide_True by lia. apply lookup_replicate_2. lia. }
    opt. unfold zset. rewrite decide_True by lia. opt. eexists. split; [done|].
    assert (forall i, bit (<[Z.to_nat (nw - 1):=(2 ^ 64 - 1) ≫ (64 - nb `mod` 64)]>
      (replicate (Z.to_nat nw) (2 ^ 64 - 1))) i = bool_decide (0 <= i < nb)) as Hbit.
    { intros i. destruct (decide (0 <= i < 64 * nw)) as [Hi|Hi].
      2: { rewrite bit_out by (rewrite zlen_insert, Hl; lia). symmetry. apply bool_decide_eq_false_2. lia. }
      rewrite bit_insert by lia. destruct (word_split i) as (q & b & -> & Hbb & -> & ->). case_decide.
      - change (2 ^ 64 - 1) with (Z.ones 64). rewrite Z.shiftr_spec by lia.
        case_bool_decide; [apply Z.ones_spec_low|apply Z.ones_spec_high]; lia.
      - rewrite Hb by done. symmetry. apply bool_decide_eq_true_2. lia. }
    split; [|done]. split_and!; simpl; [lia|lia| | |].
    + apply words_ok_insert; [by apply words_ok_replicate|]. by apply is_u_shiftr; [lia|lia|].
    + rewrite zlen_insert, Hl. done.
    + intros i Hi. rewrite Hbit. apply bool_decide_eq_false_2. lia.
  - assert (nb = 64 * nw) as Enb by lia. opt. eexists. split; [done|].
    assert (forall i, bit (replicate (Z.to_nat nw) (2 ^ 64 - 1)) i = bool_decide (0 <= i < nb)) as Hbit.
    { intros i. case_bool_decide; [apply Hb; lia|apply bit_out; rewrite Hl; lia]. }
    split; [|done]. split_and!; simpl; [lia|lia|by apply words_ok_replicate|by rewrite Hl|].
    intros i Hi. rewrite Hbit. apply bool_decide_eq_false_2. lia.
Qed.

Lemma assertBelow_in s i : i < nbits s -> assertBelow s i = Some ().
Proof. intros. unfold assertBelow. by rewrite decide_True. Qed.

Lemma fixed_set_spec s i :
  fixed_wf s -> 0 <= i < nbits s ->
  exists s', set s i = Some s' /\ fixed_wf s' /\ nbits s' = nbits s /\
    forall j, bit (words s') j = bit (words s) j || bool_decide (j = i).
Proof.
  intros Hwf Hi. pose proof (fixed_wf_len s Hwf). destruct Hwf as (Hn & Hok & Hl & Hz).
  destruct (set_spec fixedSize (words s) i) as (ws & E & Hok' & Hl' & Hb); [done|lia|lia|].
  unfold set. rewrite assertBelow_in, E by lia. opt. eexists. split; [done|]. split; [|done].
  split_and!; simpl; [lia|lia|done|by rewrite Hl'|]. intros j Hj. rewrite Hb, Hz by done.
  apply bool_decide_eq_false_2. lia.
Qed.

Lemma fixed_clear_spec s i :
  fixed_wf s -> 0 <= i < nbits s ->
  exists s', clear s i = Some s' /\ fixed_wf s' /\ nbits s' = nbits s /\
    forall j, bit (words s') j = bit (words s) j && negb (bool_decide (j = i)).
Proof.
  intros Hwf Hi. pose proof (fixed_wf_len s Hwf). destruct Hwf as (Hn & Hok & Hl & Hz).
  destruct (index_word (words s) i) as (q & b & w & E & Hb & Hq & E1 & E2 & Hw); [lia|].
  unfold clear. rewrite decide_True, E1, E2, Hw by lia. opt. unfold zset. rewrite decide_True by done.
  opt. eexists. split; [done|].
  assert (forall j, bit (<[Z.to_nat q:=Z.land w (unot 64 (1 ≪ b))]> (words s)) j =
    bit (words s) j && negb (bool_decide (j = i))) as Hbit.
  { intros j. rewrite bit_insert by done. destruct (word_split j) as (q' & b' & -> & Hb' & -> & ->).
    case_decide as Hqq.
    - subst q'. rewrite Z.land_spec, testbit_unot, testbit_one by lia.
      rewrite (bit_at (words s) q b' w) by done. rewrite bool_decide_eq_true_2 by lia. simpl. do 2 f_equal.
      apply bool_decide_ext. lia.
    - rewrite (bool_decide_eq_false_2 (_ = i)) by lia. by rewrite andb_true_r. }
  split; [|done]. split_and!; simpl; [lia|lia| |by rewrite zlen_insert|].
  - apply words_ok_insert; [done|]. apply is_u_land; [lia|by eapply words_ok_at].
  - intros j Hj. by rewrite Hbit, Hz.
Qed.

Lemma fixed_get_spec s i : fixed_wf s -> 0 <= i < nbits s -> get s i = Some (bit (words s) i).
Proof.
  intros Hwf Hi. pose proof (fixed_wf_len s Hwf). destruct Hwf as (Hn & Hok & Hl & Hz).
  unfold get. rewrite assertBelow_in by lia. opt. apply get_spec; lia.
Qed.

Lemma fixed_nextSetBit_spec s i :
  fixed_wf s -> 0 <= i < nbits s ->
  exists r, nextSetBit s i = Some r /\ first_hit (bit (words s)) i (nbits s) MAX_INDEX r.
Proof.
  intros Hwf Hi. pose proof (fixed_wf_len s Hwf). destruct Hwf as (Hn & Hok & Hl & Hz).
  unfold nextSetBit. rewrite assertBelow_in by lia. opt.
  destruct (nextSetBit_spec fixedSize MAX_INDEX (words s) i (nwords s)) as (r & -> & Hr); [done|lia|lia|lia|].
  exists r. split; [done|]. destruct Hr as [[-> H1]|(H1 & H2 & H3)]; [left|right].
  - split; [done|]. intros j Hj. apply H1. lia.
  - split_and!; [lia| |done|done]. apply Z.nle_gt. intros H4. by rewrite Hz in H2.
Qed.

Lemma fixed_nextSetBitBefore_spec s i limit :
  fixed_wf s -> 0 <= i -> limit <= nbits s ->
  exists r, nextSetBitBefore s i limit = Some r /\ first_hit (bit (words s)) i limit MAX_INDEX r.
Proof.
  intros Hwf Hi Hlim. pose proof (fixed_wf_len s Hwf). destruct Hwf as (Hn & Hok & Hl & Hz).
  unfold nextSetBitBefore. rewrite decide_True by lia. case_decide.
  { exists MAX_INDEX. split; [done|]. left. split; [done|lia]. }
  pose proof (sizeInWords_spec limit ltac:(lia)) as Hw.
  assert (Z.shiftr (limit + 63) 6 = sizeInWords limit) as ->.
  { rewrite shiftr6. unfold sizeInWords. f_equal. lia. }
  destruct (nextSetBit_spec fixedSize MAX_INDEX (words s) i (sizeInWords limit)) as (r & -> & Hr);
    [done|lia|lia|lia|].
  opt. eexists. split; [done|]. unfold MAX_INDEX, fixedSize in *.
  destruct Hr as [[-> H1]|(H1 & H2 & H3)]; case_decide; try lia.
  - left. split; [done|]. intros j Hj. apply H1. lia.
  - right. split_and!; done || lia.
  - left. split; [done|]. intros j Hj. apply H3. lia.
Qed.

Lemma nextClearWord_spec s n i :
  fixed_wf s -> 0 <= i -> i + Z.of_nat n = nwords s ->
  exists r, nextClearWord s n i = Some r /\
    first_hit (fun j => negb (bit (words s) j)) (64 * i) (nbits s) MAX_INDEX r.
Proof.
  intros Hwf. pose proof (fixed_wf_len s Hwf) as Hlen. destruct Hwf as (Hn & Hok & Hl & Hz).
  revert i. induction n as [|n IH]; intros i Hi Hl'; cbn [nextClearWord].
  - exists MAX_INDEX. split; [done|]. left. split; [done|lia].
  - destruct (zget_in (words s) i) as [w Hw]; [lia|]. rewrite Hw. opt.
    assert (forall b, 0 <= b < 64 -> Z.testbit (unot 64 w) b = negb (bit (words s) (64 * i + b))) as HP.
    { intros b Hb. rewrite testbit_unot, bool_decide_eq_true_2 by lia. by rewrite (bit_at (words s) i b w). }
    pose proof (is_u_unot 64 w ltac:(lia)) as Hu.
    change OpenBitSet.wordShift with 6. rewrite shiftl6. case_decide as Hd.
    + eexists. split; [done|]. right.
      destruct (word_hit (fun j => negb (bit (words s) j)) (64 * i) 64 (unot 64 w)) as (H1 & H2 & H3);
        [unfold is_u in Hu; lia|done..|]. split_and!; done || lia.
    + destruct (IH (i + 1)) as (r & -> & Hr); [lia..|]. exists r. split; [done|].
      apply (first_hit_skip _ _ (64 * (i + 1))); [lia| |done].
      replace (64 * (i + 1)) with (64 * i + 64) by lia. by eapply (word_past (fun j => negb (bit (words s) j))).
Qed.

(** The words searched exist unless the index is the size and fills its last word. *)
Lemma fixed_nextClearBit_spec s i :
  fixed_wf s -> 0 <= i <= nbits s -> i < 64 * nwords s ->
  exists r, nextClearBit s i = Some r /\
    first_hit (fun j => negb (bit (words s) j)) i (nbits s) MAX_INDEX r.
Proof.
  intros Hwf Hi Hin. pose proof (fixed_wf_len s Hwf) as Hlen. pose proof Hwf as (Hn & Hok & Hl & Hz).
  destruct (index_word (words s) i) as (q & b & w & E & Hb & Hq & E1 & E2 & Hw); [lia|].
  unfold nextClearBit. rewrite decide_True, E1, E2, Hw by lia. opt.
  remember (Z.land (unot 64 w) (unot 64 (1 ≪ b - 1))) as z eqn:Ez.
  assert (is_u 64 z) as Hu by (subst z; apply is_u_land; [lia|by apply is_u_unot]).
  assert (forall c, 0 <= c < 64 -> Z.testbit z c =
    (fun j => negb (bit (words s) j) && bool_decide (i <= j)) (64 * q + c)) as HP.
  { intros c Hc. subst z. rewrite Z.land_spec, !testbit_unot, bool_decide_eq_true_2 by lia.
    rewrite Z.shiftl_1_l, testbit_pow2m1 by lia. rewrite (bit_at (words s) q c w) by done. simpl. f_equal.
    do 2 case_bool_decide; done || lia. }
  change OpenBitSet.wordShift with 6. rewrite shiftl6. case_decide as Hd.
  - eexists. split; [done|]. right.
    destruct (word_hit _ (64 * q) 64 z ltac:(unfold is_u in Hu; lia) Hu HP) as (H1 & [H2 H2']%andb_true_iff & H3).
    apply bool_decide_eq_true_1 in H2'. split_and!; [lia|lia|done|]. intros j Hj.
    specialize (H3 j ltac:(lia)). rewrite (bool_decide_eq_true_2 (i <= j)) in H3 by lia.
    by rewrite andb_true_r in H3.
  - destruct (nextClearWord_spec s (Z.to_nat (nwords s - (q + 1))) (q + 1)) as (r & -> & Hr); [done|lia|lia|].
    exists r. split; [done|]. apply (first_hit_skip _ _ (64 * (q + 1))); [lia| |done].
    intros j Hj Hj'. pose proof (word_past _ (64 * q) 64 (nbits s) z Hu HP Hd j ltac:(lia) Hj') as H3.
    cbn beta in H3. rewrite (bool_decide_eq_true_2 (i <= j)) in H3 by lia. by rewrite andb_true_r in H3.
Qed.

Lemma members_beyond ws n m :
  0 <= n <= m -> (forall i, n <= i -> bit ws i = false) -> members ws m = members ws n.
Proof.
  intros Hn Hz. apply increasing_ext; [apply increasing_members..|]. intros i.
  rewrite !elem_of_members. split; intros [Hi Hb]; (split; [|done]); [|lia].
  split; [lia|]. apply Z.nle_gt. intros H. by rewrite Hz in Hb.
Qed.

Lemma card_spec s : fixed_wf s -> card s = Some (zlen (members (words s) (nbits s))).
Proof.
  intros Hwf. pose proof (fixed_wf_len s Hwf). destruct Hwf as (Hn & Hok & Hl & Hz). unfold card.
  destruct (foldM_seqZ (fun k count => count = zlen (members (words s) (64 * k)))
    (fun count i => w ← (words s).[i]; Some (count + popcount w)) 0 0 (nwords s)) as (c & -> & ->).
  - rewrite <- Hl. apply zlen_nonneg.
  - unfold members. by rewrite seqZ_nil.
  - intros k count Hk ->. destruct (zget_in (words s) k) as [w Hw]; [lia|]. rewrite Hw. opt.
    eexists. split; [done|]. unfold members.
    rewrite (members_word (bit (words s)) k w); [|lia|intros b Hb; by rewrite (bit_at (words s) k b w)].
    rewrite zlen_app, zlen_fmap, (popcount_bits_in 64); [done|lia|by eapply words_ok_at].
  - f_equal. f_equal. apply members_beyond; [lia|done].
Qed.

(** ** OR of a range *)

(** [w] shows the bits [P] from [lo] on. *)
Definition shows (w : Z) (P : Z -> bool) (lo : Z) : Prop :=
  is_u 64 w /\ forall b, 0 <= b < 64 -> Z.testbit w b = P (lo + b).

Lemma or_word dst k d w P :
  words_ok dst -> dst.[k] = Some d -> shows w P (64 * k) ->
  exists dst', zset dst k (Z.lor d w) = Some dst' /\ words_ok dst' /\ zlen dst' = zlen dst /\
    forall i, bit dst' i = bit dst i || (bool_decide (64 * k <= i < 64 * k + 64) && P i).
Proof.
  intros Hok Hd [Hu HP]. pose proof (zget_Some_range _ _ _ Hd). unfold zset. rewrite decide_True by done.
  eexists. split; [done|]. split_and!.
  - apply words_ok_insert; [done|]. apply is_u_lor; [lia|by eapply words_ok_at|done].
  - apply zlen_insert.
  - intros i. rewrite bit_insert by done. destruct (word_split i) as (q & b & -> & Hb & -> & ->). case_decide.
    + subst q. rewrite Z.lor_spec, HP, bool_decide_eq_true_2 by lia. by rewrite (bit_at dst k b d).
    + rewrite bool_decide_eq_false_2 by lia. by rewrite orb_false_r.
Qed.

Lemma orLoop_spec src P dst count :
  words_ok dst -> 0 <= count <= zlen dst ->
  (forall i, 0 <= i < count -> exists w, src i = Some w /\ shows w P (64 * i)) ->
  exists dst', orLoop src dst count = Some dst' /\ words_ok dst' /\ zlen dst' = zlen dst /\
    forall i, bit dst' i = bit dst i || (bool_decide (0 <= i < 64 * count) && P i).
Proof.
  intros Hok Hc Hsrc.
  edestruct (foldM_seqZ (fun k dst' => words_ok dst' /\ zlen dst' = zlen dst /\
    forall i, bit dst' i = bit dst i || (bool_decide (0 <= i < 64 * k) && P i)))
    as (dst' & E & H); [| | |exists dst'; exact (conj E H)]; [lia| |].
  { split_and!; [done|done|]. intros i. rewrite bool_decide_eq_false_2 by lia. by rewrite orb_false_r. }
  intros k dst' Hk (Hok' & Hl & Hb). destruct (zget_in dst' k) as [d Hd]; [lia|]. rewrite Hd. opt.
  destruct (Hsrc k) as (w & -> & Hw); [lia|]. opt.
  destruct (or_word dst' k d w P) as (dst2 & -> & Hok2 & Hl2 & Hb2); [done..|].
  eexists. split; [done|]. split_and!; [done|lia|]. intros i. rewrite Hb2, Hb, <- orb_assoc. f_equal.
  rewrite <- andb_orb_distrib_l. f_equal. do 3 case_bool_decide; done || lia.
Qed.

(** The 64 bits of the source from bit [64 * q + shift]. *)
Lemma shifted_word ws q shift a b :
  words_ok ws -> ws.[q] = Some a -> (ws.[q + 1] = Some b \/ zlen ws <= q + 1 /\ b = 0) -> 0 < shift < 64 ->
  shows (Z.lor (Z.shiftr a shift) (u64 (Z.shiftl b (64 - shift)))) (bit ws) (64 * q + shift).
Proof.
  intros Hok Ha Hb Hs. pose proof (words_ok_at _ _ _ Hok Ha) as Hu. split.
  { apply is_u_lor; [lia|by apply is_u_shiftr; [lia|lia|]|apply uwrap_range; lia]. }
  intros c Hc. rewrite Z.lor_spec, testbit_uwrap, Z.shiftr_spec, Z.shiftl_spec by lia.
  rewrite bool_decide_eq_true_2 by lia. cbn [andb]. destruct (decide (c + shift < 64)).
  - rewrite (Z.testbit_neg_r b), orb_false_r by lia.
    replace (64 * q + shift + c) with (64 * q + (c + shift)) by lia. by rewrite (bit_at ws q _ a) by (done || lia).
  - rewrite (testbit_high 64 a) by (done || lia). cbn [orb].
    replace (64 * q + shift + c) with (64 * (q + 1) + (c - (64 - shift))) by lia.
    destruct Hb as [Hb|[Hb ->]].
    + by rewrite (bit_at ws (q + 1) _ b) by (done || lia).
    + rewrite Z.testbit_0_l. symmetry. apply bit_out. lia.
Qed.

Lemma aligned_word ws q a : words_ok ws -> ws.[q] = Some a -> shows a (bit ws) (64 * q).
Proof.
  intros Hok Ha. split; [by eapply words_ok_at|]. intros b Hb. by rewrite (bit_at ws q b a).
Qed.

Lemma shows_from w ws from k :
  shows w (bit ws) (from + 64 * k) -> shows w (fun i => bit ws (from + i)) (64 * k).
Proof. intros [Hu H]. split; [done|]. intros b Hb. rewrite H by done. f_equal. lia. Qed.

Definition or_result (s : fixed) (dst dst' : list Z) (from to : Z) : Prop :=
  words_ok dst' /\ zlen dst' = zlen dst /\
  forall i, bit dst' i = bit dst i || (bool_decide (0 <= i < to - from) && bit (words s) (from + i)).

Lemma land_mask w n : 0 <= n -> forall i, 0 <= i ->
  Z.testbit (Z.land w (Z.shiftl 1 n - 1)) i = Z.testbit w i && bool_decide (i < n).
Proof. intros Hn i Hi. by rewrite Z.land_spec, Z.shiftl_1_l, testbit_pow2m1. Qed.

(** The whole words of an unaligned range. *)
Lemma full_words s dst from to :
  fixed_wf s -> words_ok dst -> 0 <= from <= to -> to <= nbits s -> to - from <= 64 * zlen dst ->
  let shift := from `mod` 64 in
  let source i := (words s).[from / 64 + i] in
  exists dst',
    (if decide (shift = 0) then orLoop source dst ((to - from) / 64)
     else orLoop (fun i => a ← source i; b ← source (i + 1);
                    Some (Z.lor (Z.shiftr a shift) (u64 (Z.shiftl b (64 - shift)))))
            dst ((to - from) / 64)) = Some dst' /\
    or_result s dst dst' from (from + 64 * ((to - from) / 64)).
Proof.
  intros Hwf Hok Hft Hto Hlen shift source. pose proof (fixed_wf_len s Hwf).
  destruct Hwf as (Hn & Hok' & Hl & Hz). unfold or_result.
  replace (from + 64 * ((to - from) / 64) - from) with (64 * ((to - from) / 64)) by lia.
  destruct (word_split from) as (q & sh & Ef & Hsh & Eq & Esh).
  destruct (word_split (to - from)) as (fw & tb & Et & Htb & Efw & _). rewrite Efw.
  unfold shift, source. rewrite Eq, Esh. case_decide as Hs.
  - apply orLoop_spec; [done|lia|]. intros i Hi. destruct (zget_in (words s) (q + i)) as [a Ha]; [lia|].
    exists a. split; [done|]. apply shows_from. replace (from + 64 * i) with (64 * (q + i)) by lia.
    by apply aligned_word.
  - apply orLoop_spec; [done|lia|]. intros i Hi. destruct (zget_in (words s) (q + i)) as [a Ha]; [lia|].
    destruct (zget_in (words s) (q + i + 1)) as [b Hb]; [lia|]. rewrite Ha, Z.add_assoc, Hb. opt.
    eexists. split; [done|]. apply shows_from. replace (from + 64 * i) with (64 * (q + i) + sh) by lia.
    apply shifted_word; [done..|by left|lia].
Qed.

(** The 64 bits that start at the last, partial word of an unaligned range. *)
Lemma tail_bits s q fw sh a :
  fixed_wf s -> 0 <= q + fw -> 0 <= sh < 64 -> (words s).[q + fw] = Some a ->
  exists w, (if decide (sh <> 0 /\ q + fw + 1 < nwords s)
             then b ← (words s).[q + (fw + 1)];
                  Some (Z.lor (Z.shiftr a sh) (u64 (Z.shiftl b (64 - sh))))
             else Some (Z.shiftr a sh)) = Some w /\
    shows w (bit (words s)) (64 * (q + fw) + sh).
Proof.
  intros (Hn & Hok & Hl & Hz) Hq Hs Ha. case_decide as Hd.
  - destruct (zget_in (words s) (q + fw + 1)) as [b Hb]; [lia|]. rewrite Z.add_assoc, Hb. opt.
    eexists. split; [done|]. apply shifted_word; [done..|by left|lia].
  - eexists. split; [done|]. destruct (decide (sh = 0)) as [->|].
    + rewrite Z.shiftr_0_r, Z.add_0_r. by apply aligned_word.
    + replace (Z.shiftr a sh) with (Z.lor (Z.shiftr a sh) (u64 (Z.shiftl 0 (64 - sh)))).
      * apply shifted_word; [done..|right; lia|lia].
      * by rewrite Z.shiftl_0_l, Z.lor_0_r.
Qed.

Lemma orUnalignedRange_spec s dst from to :
  fixed_wf s -> words_ok dst -> 0 <= from <= to -> to <= nbits s -> to - from <= 64 * zlen dst ->
  exists dst', orUnalignedRange s dst from to = Some dst' /\ or_result s dst dst' from to.
Proof.
  intros Hwf Hok Hft Hto Hlen. unfold orUnalignedRange. rewrite decide_True by lia. case_decide as H0.
  { exists dst. split; [done|]. split_and!; [done|done|]. intros i. rewrite bool_decide_eq_false_2 by lia.
    by rewrite orb_false_r. }
  rewrite !shiftr6, !land63.
  destruct (full_words s dst from to) as (d1 & -> & Hok1 & Hl1 & Hb1); [done..|]. opt.
  pose proof (fixed_wf_len s Hwf). pose proof Hwf as (Hn & Hok' & Hl & Hz).
  destruct (word_split from) as (q & sh & Ef & Hsh & -> & ->).
  destruct (word_split (to - from)) as (fw & tb & Et & Htb & Efw & ->). rewrite Efw in *. clear Efw.
  replace (from + 64 * fw - from) with (64 * fw) in Hb1 by lia. case_decide as Htail.
  2: { exists d1. split; [done|]. split_and!; [done|done|]. intros i. rewrite Hb1.
       by replace (to - from) with (64 * fw) by lia. }
  destruct (zget_in (words s) (q + fw)) as [a Ha]; [lia|]. rewrite Ha. opt.
  destruct (tail_bits s q fw sh a) as (w & -> & Hw); [done|lia|done|done|]. opt.
  destruct (zget_in d1 fw) as [d Hd]; [lia|]. rewrite Hd. opt.
  replace (64 * (q + fw) + sh) with (from + 64 * fw) in Hw by lia. apply shows_from in Hw as [Hu Hw].
  destruct (or_word d1 fw d (Z.land w (Z.shiftl 1 tb - 1))
    (fun i => bit (words s) (from + i) && bool_decide (i < 64 * fw + tb))) as (d2 & -> & Hok2 & Hl2 & Hb2);
    [done|done| |].
  { split; [by apply is_u_land|]. intros b Hb. rewrite land_mask, Hw by lia. f_equal.
    apply bool_decide_ext. lia. }
  exists d2. split; [done|]. split_and!; [done|lia|]. intros i. rewrite Hb2, Hb1, <- orb_assoc. f_equal.
  destruct (bit (words s) (from + i)); do 4 case_bool_decide; done || lia.
Qed.

Lemma orRange_spec s dst from to :
  fixed_wf s -> words_ok dst -> 0 <= from <= to -> to <= nbits s -> to - from <= 64 * zlen dst ->
  exists dst', orRange s dst from to = Some dst' /\ or_result s dst dst' from to.
Proof.
  intros Hwf Hok Hft Hto Hlen. unfold orRange. rewrite decide_True by lia. case_decide as H0.
  { exists dst. split; [done|]. split_and!; [done|done|]. intros i. rewrite bool_decide_eq_false_2 by lia.
    by rewrite orb_false_r. }
  case_decide as Ha; [by apply orUnalignedRange_spec|].
  rewrite Z.land_lor_distr_l, !land63 in Ha.
  assert (from `mod` 64 = 0 /\ to `mod` 64 = 0) as [Hf Ht].
  { apply Z.lor_eq_0_iff. destruct (decide (Z.lor (from `mod` 64) (to `mod` 64) = 0)); tauto. }
  destruct (full_words s dst from to) as (d1 & E & Hr); [done..|]. rewrite Hf, decide_True in E by done.
  rewrite !shiftr6, E. exists d1. split; [done|].
  replace to with (from + 64 * ((to - from) / 64)) at 1; [done|].
  pose proof (Z.div_mod (to - from) 64). pose proof (Zminus_mod to from 64) as Hm.
  rewrite Hf, Ht in Hm. change ((0 - 0) `mod` 64) with 0 in Hm. lia.
Qed.

End fixed_spec.

(** * Refinement

    A bitset of size [n] represents a finite set of numbers below [n]. *)

Section refinement.
Import FixedBitSet.

Inductive op := OSet (i : Z) | OClear (i : Z).

Definition op_index (o : op) : Z := match o with OSet i | OClear i => i end.

Definition run (s : fixed) (o : op) : option fixed :=
  match o with OSet i => set s i | OClear i => clear s i end.

Definition abstract_run (A : gset Z) (o : op) : gset Z :=
  match o with OSet i => {[i]} ∪ A | OClear i => A ∖ {[i]} end.

Definition abstract_make (nb : Z) (initialVal : bool) : gset Z :=
  if initialVal then list_to_set (seqZ 0 nb) else ∅.

Definition represents (s : fixed) (A : gset Z) : Prop :=
  fixed_wf s /\ forall i, bit (words s) i = true <-> i ∈ A.

Lemma make_represents nb initialVal :
  0 <= nb <= fixedSize ->
  exists s, make nb initialVal = Some s /\ represents s (abstract_make nb initialVal) /\ nbits s = nb.
Proof.
  intros Hn. destruct initialVal.
  - destruct (make_true nb Hn) as (s & E & Hwf & Hnb & Hb). exists s. split; [done|]. split; [split; [done|]|done].
    intros i. rewrite Hb. unfold abstract_make. rewrite elem_of_list_to_set, elem_of_seqZ.
    rewrite bool_decide_eq_true. lia.
  - destruct (make_false nb Hn) as (s & E & Hwf & Hnb & Hb). exists s. split; [done|]. split; [split; [done|]|done].
    intros i. rewrite Hb. unfold abstract_make. by split; [|set_solver].
Qed.

Lemma run_represents s A o :
  represents s A -> 0 <= op_index o < nbits s ->
  exists s', run s o = Some s' /\ represents s' (abstract_run A o) /\ nbits s' = nbits s.
Proof.
  intros [Hwf Hb] Hi. destruct o as [i|i]; simpl in *.
  - destruct (fixed_set_spec s i Hwf Hi) as (s' & E & Hwf' & Hn' & Hb'). exists s'. split; [done|]. split; [split; [done|]|done].
    intros j. rewrite Hb', orb_true_iff, Hb, bool_decide_eq_true, elem_of_union, elem_of_singleton. tauto.
  - destruct (fixed_clear_spec s i Hwf Hi) as (s' & E & Hwf' & Hn' & Hb'). exists s'. split; [done|]. split; [split; [done|]|done].
    intros j. rewrite Hb', andb_true_iff, negb_true_iff, Hb, bool_decide_eq_false,
      elem_of_difference, elem_of_singleton. tauto.
Qed.

Lemma runs_represent s A ops :
  represents s A -> Forall (fun o => 0 <= op_index o < nbits s) ops ->
  exists s', foldM run s ops = Some s' /\ represents s' (foldl abstract_run A ops) /\ nbits s' = nbits s.
Proof.
  intros Hr Hops. revert s A Hr Hops. induction ops as [|o ops IH]; intros s A Hr Hops; simpl; [by exists s|].
  apply Forall_cons in Hops as [Ho Hops]. destruct (run_represents s A o Hr Ho) as (s1 & -> & Hr1 & Hn1).
  rewrite <- Hn1 in Hops. destruct (IH s1 _ Hr1 Hops) as (s2 & E & Hr2 & Hn2). opt. exists s2.
  split; [done|]. split; [done|lia].
Qed.

Lemma represents_list s A :
  represents s A -> list_to_set (members (words s) (nbits s)) = A /\
  zlen (members (words s) (nbits s)) = Z.of_nat (size A).
Proof.
  intros [Hwf Hb]. assert (list_to_set (members (words s) (nbits s)) = A) as E.
  { apply set_eq. intros i. rewrite elem_of_list_to_set, elem_of_members, <- Hb. split; [tauto|].
    intros Hi. split; [|done]. destruct Hwf as (Hn & Hok & Hl & Hz). split.
    - apply Z.nlt_ge. intros Hneg. rewrite bit_out in Hi; [done|lia].
    - apply Z.nle_gt. intros Hge. by rewrite Hz in Hi. }
  split; [done|]. rewrite <- E, size_list_to_set; [done|]. apply increasing_NoDup, increasing_members.
Qed.

(** C30: a [RAMFixedBitSet] implements a finite set: after any sequence of sets and
    clears within its size, starting empty or full, every membership test, the
    cardinality and the visit of its ones answer for the mathematical set that the
    same sequence builds, and the visit is in increasing order. *)
Theorem fixed_refines_set (nb : Z) (initialVal : bool) (ops : list op) :
  0 <= nb <= fixedSize -> Forall (fun o => 0 <= op_index o < nb) ops ->
  let A := foldl abstract_run (abstract_make nb initialVal) ops in
  exists s l, (s ← make nb initialVal; foldM run s ops) = Some s /\
    (forall i, 0 <= i < nb -> get s i = Some (bool_decide (i ∈ A))) /\
    card s = Some (Z.of_nat (size A)) /\
    OpenBitSet.visitOnes (words s) (nwords s) = Some l /\ increasing l /\ list_to_set l = A.
Proof.
  intros Hn Hops A. destruct (make_represents nb initialVal Hn) as (s0 & -> & Hr0 & <-). opt.
  destruct (runs_represent s0 _ ops Hr0 Hops) as (s & E & Hr & Hnb).
  destruct (represents_list s A Hr) as [Hset Hsize]. destruct Hr as [Hwf Hb].
  exists s, (members (words s) (nbits s)). split_and!; try done.
  - intros i Hi. rewrite fixed_get_spec by (done || lia). f_equal.
    apply eq_true_iff_eq. by rewrite Hb, bool_decide_eq_true.
  - by rewrite card_spec, Hsize.
  - pose proof (fixed_wf_len s Hwf). destruct Hwf as (Hn' & Hok & Hl & Hz).
    rewrite visitOnes_spec; [|done|pose proof (zlen_nonneg (words s)); lia].
    f_equal. apply members_beyond; [lia|done].
  - apply increasing_members.
Qed.

Lemma fixed_refines_set_witness :
  (0 <= 70 <= fixedSize /\ Forall (fun o => 0 <= op_index o < 70) [OClear 3; OSet 65; OClear 69]) /\
  exists s, (s ← make 70 true; foldM run s [OClear 3; OSet 65; OClear 69]) = Some s /\
    card s = Some 68 /\ get s 3 = Some false.
Proof.
  assert (0 <= 70 <= fixedSize) as H1 by (vm_compute; split; congruence).
  assert (Forall (fun o => 0 <= op_index o < 70) [OClear 3; OSet 65; OClear 69]) as H2
    by (repeat (apply List.Forall_cons; [simpl; lia|]); apply List.Forall_nil).
  split; [done|]. destruct (fixed_refines_set 70 true _ H1 H2) as (s & l & E & Hg & Hc & _).
  exists s. split; [done|]. split.
  - rewrite Hc. vm_compute. reflexivity.
  - rewrite Hg by lia. vm_compute. reflexivity.
Defined.

(** Bit navigation.  From any index inside the set, the next set bit (unbounded
    or below a limit) and the next clear bit are the smallest index from there with
    that property below the size or the limit, and [MAX_INDEX] when there is none. *)
Theorem navigation_correct (s : fixed) (i limit : Z) :
  fixed_wf s -> 0 <= i < nbits s -> limit <= nbits s ->
  (exists r, nextSetBit s i = Some r /\ first_hit (bit (words s)) i (nbits s) MAX_INDEX r) /\
  (exists r, nextSetBitBefore s i limit = Some r /\ first_hit (bit (words s)) i limit MAX_INDEX r) /\
  (exists r, nextClearBit s i = Some r /\
     first_hit (fun j => negb (bit (words s) j)) i (nbits s) MAX_INDEX r).
Proof.
  intros Hwf Hi Hlim. split_and!.
  - by apply fixed_nextSetBit_spec.
  - by apply fixed_nextSetBitBefore_spec; [|lia|].
  - apply fixed_nextClearBit_spec; [done|lia|].
    pose proof (fixed_wf_len s Hwf). destruct Hwf as (_ & _ & <- & _). lia.
Qed.

Lemma navigation_correct_witness :
  exists s, make 100 true = Some s /\
    (exists r, nextSetBit s 99 = Some r /\ first_hit (bit (words s)) 99 (nbits s) MAX_INDEX r) /\
    (exists r, nextSetBitBefore s 99 64 = Some r /\ first_hit (bit (words s)) 99 64 MAX_INDEX r) /\
    (exists r, nextClearBit s 99 = Some r /\
       first_hit (fun j => negb (bit (words s) j)) 99 (nbits s) MAX_INDEX r).
Proof.
  destruct (make_represents 100 true) as (s & E & [Hwf _] & Hn); [vm_compute; split; congruence|].
  exists s. split; [done|]. apply (navigation_correct s 99 64); [done|lia|lia].
Defined.

(** At an index equal to a size that fills its last word, which its assertion allows,
    the search for a clear bit reads past the words. *)
Lemma nextClearBit_past_end : (s ← make 64 true; nextClearBit s 64) = None.
Proof. reflexivity. Qed.

(** [flip] of fewer words than the capacity still flips the whole capacity. *)
Lemma flip_ignores_argument :
  OpenBitSet.flip 128 [0; 0] 1 = Some [2 ^ 64 - 1; 2 ^ 64 - 1].
Proof. reflexivity. Qed.

(** OR of a range: for every [from] and [to] within the source, aligned or not,
    bit [i] of the destination becomes its old value or source bit [from + i] when [i]
    is inside the range, every other bit of the destination is unchanged, and the
    words read and written are all inside the two arrays. *)
Theorem orRange_correct (s : fixed) (destination : list Z) (from to : Z) :
  fixed_wf s -> words_ok destination -> 0 <= from <= to -> to <= nbits s ->
  to - from <= 64 * zlen destination ->
  exists dst', orRange s destination from to = Some dst' /\
    words_ok dst' /\ zlen dst' = zlen destination /\
    forall i, bit dst' i =
      bit destination i || (bool_decide (0 <= i < to - from) && bit (words s) (from + i)).
Proof. apply orRange_spec. Qed.

Lemma orRange_correct_witness :
  exists s dst', make 130 true = Some s /\ orRange s [0; 0; 0] 3 129 = Some dst' /\
    bit dst' 125 = true /\ bit dst' 126 = false.
Proof.
  destruct (make_true 130) as (s & E & Hwf & Hn & Hb); [vm_compute; split; congruence|].
  destruct (orRange_correct s [0; 0; 0] 3 129) as (d & E' & _ & _ & Hd);
    [done| |lia|lia|change (zlen [0; 0; 0]) with 3; lia|].
  { repeat (apply List.Forall_cons; [by unfold is_u|]); apply List.Forall_nil. }
  exists s, d. split; [done|]. split; [done|]. rewrite !Hd, !Hb. by split.
Defined.

End refinement.
