(* ===== verification/Screaming.v ===== *)
(** The serialized bitset of [luxir/util/screaming.h]: [BitSet] with its [Iterator] and
    [Selector], the readers of the format, over byte memory.  A set is a row of buckets
    of 65536 values that share their upper 16 bits, each a sorted array of 16-bit
    values or a bitmap followed by its rank index, then the bucket descriptors, then
    their number.  The builder is in [ScreamingBuilder].

    Offsets into the memory stand for addresses, the memory starting at an aligned
    one; [None] is a failed assertion or a read outside the memory.  A bucket pointer
    is the view of the bucket it points to: the array or the words are loaded when the
    pointer is set. *)

From S2P Require Import Prelude Search BitSets.

(** * The set *)

Module BitSet.

Definition BUCKET_BITS : Z := 16.
Definition BUCKET_SIZE : Z := Z.shiftl 1 BUCKET_BITS.
Definition BUCKET_MASK_UPPERBITS : Z := u32 (Z.shiftl 0xFFFFFFFF BUCKET_BITS).
Definition BUCKET_SPARSE_MAX : Z := BUCKET_SIZE / 8 / 2.
Definition END : Z := 2 ^ 31 - 1.

(** [Bits] is [OpenBitSet<BUCKET_SIZE, uint64_t, uint32_t>]. *)
Definition Bits_fixedSize : Z := BUCKET_SIZE.
Definition Bits_fixedNumWords : Z := OpenBitSet.fixedNumWords Bits_fixedSize.
Definition Bits_sizeInBytes : Z := Bits_fixedSize / 8.
Definition Bits_MAX_INDEX : Z := 2 ^ 32 - 1.

Definition RANK_INDEX_SHIFT : Z := 3.
Definition RANK_INDEX_ENTRIES : Z := Z.shiftr Bits_fixedNumWords RANK_INDEX_SHIFT.
Definition RANK_INDEX_SIZE : Z := RANK_INDEX_ENTRIES * 2.
Definition DENSE_CONTAINER_SIZE : Z := Bits_sizeInBytes + RANK_INDEX_SIZE.
Definition BLOCK_ALIGN : Z := 8.

Record BucketDescriptor := Descriptor { upperBits : Z; size : Z; desc_offset : Z }.

(** The view: the memory, the offset of the first bucket, that of the descriptors and
    their number. *)
Record bitset := BitSetView { mem : list Z; start : Z; descriptors : Z; nBuckets : Z }.

Definition descriptorAt (m : list Z) (descs i : Z) : option BucketDescriptor :=
  let p := descs + 8 * i in
  u ← load 2 m p; s ← load 2 m (p + 2); o ← load 4 m (p + 4);
  Some (Descriptor u s o).

Definition descriptor (s : bitset) (i : Z) : option BucketDescriptor :=
  descriptorAt (mem s) (descriptors s) i.

Definition blockBytes (d : BucketDescriptor) : Z :=
  let sz := size d + 1 in
  if decide (sz <= BUCKET_SPARSE_MAX)
  then Z.land (sz * 2 + BLOCK_ALIGN - 1) (Z.lnot (BLOCK_ALIGN - 1))
  else DENSE_CONTAINER_SIZE.

Definition assertAligned (p : Z) : option unit :=
  if decide (Z.land p (BLOCK_ALIGN - 1) = 0) then Some () else None.

(** [set]: the view of the set that ends at [pointerToEnd]. *)
Definition set (m : list Z) (pointerToEnd : Z) : option bitset :=
  n ← load 2 m (pointerToEnd - 2);
  let descs := pointerToEnd - 2 - n * 8 in
  if decide (n = 0) then Some (BitSetView m descs descs n)
  else
    lastDescriptor ← descriptorAt m descs (n - 1);
    let sizeOfAllBuckets := desc_offset lastDescriptor + blockBytes lastDescriptor in
    let st := descs - sizeOfAllBuckets in
    assertAligned st;; Some (BitSetView m st descs n).

(** The 16-bit values of a sparse bucket, and the words and the rank index of a dense one. *)
Definition loads (width : Z) (m : list Z) (off n : Z) : option (list Z) :=
  mapM (fun i => load width m (off + width * i)) (seqZ 0 n).

Definition sparseValues (s : bitset) (off n : Z) : option (list Z) := loads 2 (mem s) (start s + off) n.

Definition denseWords (s : bitset) (off : Z) : option (list Z) :=
  loads 8 (mem s) (start s + off) Bits_fixedNumWords.

Definition denseRankIndex (s : bitset) (off : Z) : option (list Z) :=
  loads 2 (mem s) (start s + off + Bits_sizeInBytes) RANK_INDEX_ENTRIES.

Definition cardinality (s : bitset) : option Z :=
  foldM (fun c i => d ← descriptor s i; Some (c + (size d + 1))) 0 (seqZ 0 (nBuckets s)).

(** [selectInWord], the portable version: clears the [r] lowest set bits. *)
Definition selectInWord (word r : Z) : Z :=
  countr_zero 64 (Nat.iter (Z.to_nat r) (fun w => Z.land w (u64 (w - 1))) word).

(** The scan to the word that holds the bit of local rank [localRank]. *)
Fixpoint wordOfRank (fuel : nat) (words : list Z) (localRank wordIdx rankSoFar : Z) : option (Z * Z) :=
  match fuel with
  | O => None
  | S fuel =>
      w ← words.[wordIdx];
      let pc := popcount w in
      if decide (rankSoFar + pc > localRank) then Some (wordIdx, rankSoFar)
      else wordOfRank fuel words localRank (wordIdx + 1) (rankSoFar + pc)
  end.

Definition selectInBucket (s : bitset) (bi localRank : Z) : option Z :=
  d ← descriptor s bi;
  let bucketBase := s32 (Z.shiftl (upperBits d) BUCKET_BITS) in
  let card := size d + 1 in
  if decide (localRank >= 0 /\ localRank < card) then
    if decide (card <= BUCKET_SPARSE_MAX) then
      v ← load 2 (mem s) (start s + desc_offset d + 2 * localRank); Some (bucketBase + v)
    else
      assertAligned (start s + desc_offset d);;
      words ← denseWords s (desc_offset d);
      rankIndexArr ← denseRankIndex s (desc_offset d);
      lo ← Branchless.upperBound rankIndexArr RANK_INDEX_ENTRIES localRank;
      r0 ← rankIndexArr.[lo - 1];
      '(wordIdx, rankSoFar) ←
        wordOfRank (Z.to_nat Bits_fixedNumWords) words localRank (Z.shiftl (lo - 1) RANK_INDEX_SHIFT) r0;
      w ← words.[wordIdx];
      Some (bucketBase + Z.shiftl wordIdx OpenBitSet.wordShift + selectInWord w (localRank - rankSoFar))
  else None.

(** [select]: the scan of the descriptors from bucket [bi]; a rank past the last
    bucket fails the assertion. *)
Fixpoint selectLoop (s : bitset) (k : Z) (n : nat) (bi cum : Z) : option Z :=
  match n with
  | O => None
  | S n =>
      d ← descriptor s bi;
      let card := size d + 1 in
      if decide (k < cum + card) then selectInBucket s bi (k - cum)
      else selectLoop s k n (bi + 1) (cum + card)
  end.

Definition select (s : bitset) (k : Z) : option Z :=
  if decide (k >= 0) then selectLoop s k (Z.to_nat (nBuckets s)) 0 0 else None.

(** ** Intersection with a fixed bitset *)

(** The probes of a sparse bucket, up to the first value past the other set. *)
Fixpoint probeSparse (other : FixedBitSet.fixed) (base : Z) (values : list Z) (count : Z) : option Z :=
  match values with
  | [] => Some count
  | v :: values =>
      let doc := base + v in
      if decide (doc >= FixedBitSet.nbits other) then Some count
      else b ← FixedBitSet.get other doc; probeSparse other base values (count + Z.b2z b)
  end.

Definition intersectDense (other : FixedBitSet.fixed) (base : Z) (words : list Z) (count : Z) : option Z :=
  let offset := Z.shiftr base 6 in
  let last := Z.min Bits_fixedNumWords (FixedBitSet.sizeInWords (FixedBitSet.nbits other) - offset) in
  foldM (fun count j => w ← words.[j]; o ← (FixedBitSet.words other).[offset + j];
           Some (count + popcount (Z.land w o))) count (seqZ 0 last).

Fixpoint intersectLoop (s : bitset) (other : FixedBitSet.fixed) (n : nat) (i count : Z) : option Z :=
  match n with
  | O => Some count
  | S n =>
      d ← descriptor s i;
      let base := s32 (Z.shiftl (upperBits d) BUCKET_BITS) in
      if decide (base >= FixedBitSet.nbits other) then Some count
      else
        let card := size d + 1 in
        count ←
          (if decide (card <= BUCKET_SPARSE_MAX) then
             values ← sparseValues s (desc_offset d) card; probeSparse other base values count
           else
             words ← denseWords s (desc_offset d); intersectDense other base words count);
        intersectLoop s other n (i + 1) count
  end.

Definition intersectionCardinality (s : bitset) (other : FixedBitSet.fixed) : option Z :=
  intersectLoop s other (Z.to_nat (nBuckets s)) 0 0.

End BitSet.

(** * The selector *)

Module Selector.

Record selector := Make { sel_set : BitSet.bitset; bucketStartRank : list Z }.

Definition make (s : BitSet.bitset) : option selector :=
  ranks ← foldM (fun ranks i =>
    d ← BitSet.descriptor s i; r ← ranks.[i]; Some (ranks ++ [r + BitSet.size d + 1]))
    [0] (seqZ 0 (BitSet.nBuckets s));
  Some (Make s ranks).

Definition cardinality (x : selector) : option Z := last (bucketStartRank x).

Definition select (x : selector) (k : Z) : option Z :=
  total ← last (bucketStartRank x);
  if decide (k >= 0 /\ k < total) then
    up ← Branchless.upperBound (bucketStartRank x) (zlen (bucketStartRank x)) k;
    let bi := up - 1 in
    r ← (bucketStartRank x).[bi];
    BitSet.selectInBucket (sel_set x) bi (k - r)
  else None.

End Selector.

(** * The iterator *)

Module Iterator.
Import BitSet.

(** The current bucket: a sparse one with the index of the current value, or a dense
    one.  It replaces the tagged union. *)
Inductive Bucket :=
  | SPARSE (values : list Z) (index : Z)
  | DENSE (words rankIndex : list Z).

Record iterator := Iter {
  curr : Z; bucketIdx : Z; bucketBase : Z; bucketSize : Z; bucketRank : Z; bucket : Bucket
}.

(** The constructor and [reset]. *)
Definition fresh : iterator := Iter (-1) (-1) (-1) 0 0 (SPARSE [] (-1)).

Definition set_curr (c : Z) (it : iterator) : iterator :=
  Iter c (bucketIdx it) (bucketBase it) (bucketSize it) (bucketRank it) (bucket it).
Definition set_bucket (b : Bucket) (it : iterator) : iterator :=
  Iter (curr it) (bucketIdx it) (bucketBase it) (bucketSize it) (bucketRank it) b.

Definition sparseNext (it : iterator) : option (Z * iterator) :=
  match bucket it with
  | SPARSE values index =>
      v ← values.[index + 1];
      let c := bucketBase it + v in
      Some (c, set_bucket (SPARSE values (index + 1)) (set_curr c it))
  | DENSE _ _ => None
  end.

Definition denseNext (it : iterator) : option (Z * iterator) :=
  match bucket it with
  | SPARSE _ _ => None
  | DENSE words _ =>
      let localIndex := u16 (curr it + 1) in
      localFound ← OpenBitSet.nextSetBit Bits_fixedSize Bits_MAX_INDEX words localIndex Bits_fixedNumWords;
      let c := s32 (localFound + bucketBase it) in
      Some (c, set_curr c it)
  end.

(** The members [nextBucket] and [bucketSetup] set from a descriptor. *)
Definition enterBucket (s : bitset) (i : Z) (it : iterator) : option iterator :=
  d ← descriptor s i;
  let base := s32 (Z.shiftl (upperBits d) BUCKET_BITS) in
  let sz := size d + 1 in
  if decide (sz <= BUCKET_SPARSE_MAX) then
    values ← sparseValues s (desc_offset d) sz;
    Some (Iter (curr it) i base sz (bucketRank it) (SPARSE values (-1)))
  else
    assertAligned (start s + desc_offset d);;
    words ← denseWords s (desc_offset d);
    rankIndex ← denseRankIndex s (desc_offset d);
    Some (Iter (base - 1) i base sz (bucketRank it) (DENSE words rankIndex)).

Definition add_rank (n : Z) (it : iterator) : iterator :=
  Iter (curr it) (bucketIdx it) (bucketBase it) (bucketSize it) (bucketRank it + n) (bucket it).

Definition nextBucket (s : bitset) (it : iterator) : option (Z * iterator) :=
  if decide (bucketIdx it + 1 >= nBuckets s) then Some (END, set_curr END it)
  else
    it ← enterBucket s (bucketIdx it + 1) (add_rank (bucketSize it) it);
    match bucket it with
    | SPARSE _ _ => sparseNext it
    | DENSE _ _ => denseNext it
    end.

Definition denseNextMaybe (s : bitset) (it : iterator) : option (Z * iterator) :=
  match bucket it with
  | SPARSE _ _ => None
  | DENSE words _ =>
      let next := curr it + 1 in
      if decide (next < bucketBase it + Bits_fixedSize) then
        let localIndex := u16 next in
        localFound ← OpenBitSet.nextSetBit Bits_fixedSize Bits_MAX_INDEX words localIndex Bits_fixedNumWords;
        if decide (localFound <> Bits_MAX_INDEX)
        then let c := bucketBase it + localFound in Some (c, set_curr c it)
        else nextBucket s it
      else nextBucket s it
  end.

Definition next (s : bitset) (it : iterator) : option (Z * iterator) :=
  match bucket it with
  | SPARSE _ index =>
      if decide (index + 1 >= bucketSize it) then nextBucket s it else sparseNext it
  | DENSE _ _ => denseNextMaybe s it
  end.

(** The scan of [advanceBucket] from bucket [i]; false leaves the rank and the size
    it accumulated. *)
Fixpoint advanceBucketLoop (s : bitset) (upper : Z) (n : nat) (i : Z) (it : iterator)
    : option (bool * iterator) :=
  match n with
  | O => Some (false, it)
  | S n =>
      d ← descriptor s i;
      let it := add_rank (bucketSize it) it in
      let it := Iter (curr it) (bucketIdx it) (bucketBase it) (size d + 1) (bucketRank it) (bucket it) in
      if decide (upperBits d >= upper) then it ← enterBucket s i it; Some (true, it)
      else advanceBucketLoop s upper n (i + 1) it
  end.

Definition advanceBucket (s : bitset) (targetBase : Z) (it : iterator) : option (bool * iterator) :=
  advanceBucketLoop s (u16 (Z.shiftr targetBase BUCKET_BITS))
    (Z.to_nat (nBuckets s - (bucketIdx it + 1))) (bucketIdx it + 1) it.

(** The search for [target] inside the current bucket. *)
Definition advanceInBucket (s : bitset) (target : Z) (it : iterator) : option (Z * iterator) :=
  match bucket it with
  | SPARSE values index =>
      let lowerIdx := index + 1 in
      let lowerBits := u16 target in
      r ← Gallop.gallopLowerBound values lowerIdx (bucketSize it) lowerBits;
      if decide (r = bucketSize it) then nextBucket s it
      else sparseNext (set_bucket (SPARSE values (lowerIdx + (r - lowerIdx) - 1)) it)
  | DENSE _ _ => denseNextMaybe s (set_curr (target - 1) it)
  end.

Definition advance (s : bitset) (target : Z) (it : iterator) : option (Z * iterator) :=
  if decide (target > curr it) then
    let targetBase := s32 (Z.land (u32 target) BUCKET_MASK_UPPERBITS) in
    if decide (targetBase <> bucketBase it) then
      '(found, it) ← advanceBucket s targetBase it;
      if (found : bool) then
        if decide (bucketBase it > targetBase) then next s it else advanceInBucket s target it
      else Some (END, it)
    else advanceInBucket s target it
  else None.

(** [rank]: the values before the current one. *)
Definition rank (it : iterator) : option Z :=
  match bucket it with
  | SPARSE _ index => Some (bucketRank it + index)
  | DENSE words rankIndexArr =>
      let localIndex := u16 (curr it) in
      let rankIdx := Z.shiftr localIndex (OpenBitSet.wordShift + RANK_INDEX_SHIFT) in
      rankBase ← rankIndexArr.[rankIdx];
      let wordIndex := Z.shiftr localIndex OpenBitSet.wordShift in
      let miniBlockMask := Z.shiftl 1 RANK_INDEX_SHIFT - 1 in
      let first := Z.land wordIndex (Z.lnot miniBlockMask) in
      rankBase ← foldM (fun r i => w ← words.[i]; Some (u16 (r + popcount w))) rankBase
                   (seqZ first (wordIndex - first));
      let bitIdx := Z.land localIndex OpenBitSet.wordMask in
      w ← words.[wordIndex];
      let bitsToTheRight := Z.land w (Z.shiftl 1 bitIdx - 1) in
      Some (bucketRank it + u16 (rankBase + popcount bitsToTheRight))
  end.

End Iterator.

(** * The contents of a set *)

(** A bucket by its upper bits and its sorted lower bits. *)
Record bkt := Bkt { upper : Z; lows : list Z }.

Definition base (b : bkt) : Z := 65536 * upper b.
Definition els (b : bkt) : list Z := Z.add (base b) <$> lows b.
Definition elements (bs : list bkt) : list Z := bs ≫= els.

Definition bkt_wf (b : bkt) : Prop :=
  0 <= upper b < 2 ^ 15 /\ lows b <> [] /\ increasing (lows b) /\ Forall (fun x => 0 <= x < 65536) (lows b).

Definition bkts_wf (bs : list bkt) : Prop := Forall bkt_wf bs /\ increasing (upper <$> bs).

(** A bitmap and its rank index hold the values [l]: entry [m] of the index counts the
    values in the words before the [m]-th group of eight. *)
Definition dense_ok (l ws ri : list Z) : Prop :=
  words_ok ws /\ zlen ws = 1024 /\ (forall i, bit ws i = true <-> i ∈ l) /\
  zlen ri = 128 /\ forall m, 0 <= m < 128 -> ri.[m] = Some (count_lt l (512 * m)).

Definition bucket_at (s : BitSet.bitset) (i : Z) (b : bkt) : Prop :=
  exists off, BitSet.descriptor s i = Some (BitSet.Descriptor (upper b) (zlen (lows b) - 1) off) /\
    if decide (zlen (lows b) <= 4096)
    then BitSet.sparseValues s off (zlen (lows b)) = Some (lows b)
    else BitSet.assertAligned (BitSet.start s + off) = Some () /\
      exists ws ri, BitSet.denseWords s off = Some ws /\ BitSet.denseRankIndex s off = Some ri /\
        dense_ok (lows b) ws ri.

(** What the readers rely on, and what the builder establishes: the view [s] holds the
    buckets [bs]. *)
Class Encodes (s : BitSet.bitset) (bs : list bkt) : Prop := {
  enc_n : BitSet.nBuckets s = zlen bs;
  enc_wf : bkts_wf bs;
  enc_bucket : forall i b, bs.[i] = Some b -> bucket_at s i b;
}.

Section contents.

Lemma elements_app bs1 bs2 : elements (bs1 ++ bs2) = elements bs1 ++ elements bs2.
Proof. unfold elements. apply bind_app. Qed.

Lemma elements_cons b bs : elements (b :: bs) = els b ++ elements bs.
Proof. done. Qed.

Lemma elem_of_els b v : v ∈ els b <-> exists x, v = base b + x /\ x ∈ lows b.
Proof. unfold els. rewrite list_elem_of_fmap. done. Qed.

Lemma elem_of_elements bs v : v ∈ elements bs <-> exists b, b ∈ bs /\ v ∈ els b.
Proof. unfold elements. rewrite list_elem_of_bind. split; intros (b & H1 & H2); by exists b. Qed.

Lemma bkt_wf_low b x : bkt_wf b -> x ∈ lows b -> 0 <= x < 65536.
Proof. intros (_ & _ & _ & H) Hx. rewrite Forall_forall in H. by apply H. Qed.

Lemma els_range b v : bkt_wf b -> v ∈ els b -> base b <= v < base b + 65536.
Proof. intros Hb (x & -> & Hx)%elem_of_els. apply (bkt_wf_low b) in Hx; [lia|done]. Qed.

Lemma bkts_wf_at bs i b : bkts_wf bs -> bs.[i] = Some b -> bkt_wf b.
Proof. intros [H _] Hi%zget_elem_1. rewrite Forall_forall in H. by apply H. Qed.

Lemma bkts_wf_lt bs i j b c :
  bkts_wf bs -> bs.[i] = Some b -> bs.[j] = Some c -> i < j -> base b + 65536 <= base c.
Proof.
  intros [_ H] Hi Hj Hij. unfold base.
  assert (upper b < upper c); [|lia].
  eapply (increasing_zget (upper <$> bs) i j); [done|..|done]; rewrite zget_fmap.
  - by rewrite Hi.
  - by rewrite Hj.
Qed.

Lemma bkts_wf_cons b bs : bkts_wf (b :: bs) -> bkt_wf b /\ bkts_wf bs /\ forall c, c ∈ bs -> base b + 65536 <= base c.
Proof.
  intros [H1 H2]. apply Forall_cons in H1 as [Hb Hbs]. rewrite fmap_cons in H2.
  apply StronglySorted_cons in H2 as [Hlt Hs]. split; [done|]. split; [done|].
  intros c Hc. rewrite Forall_forall in Hlt. unfold base.
  specialize (Hlt (upper c) ltac:(by apply list_elem_of_fmap_2)). lia.
Qed.

Lemma increasing_elements bs : bkts_wf bs -> increasing (elements bs).
Proof.
  induction bs as [|b bs IH]; intros Hwf; [constructor|].
  apply bkts_wf_cons in Hwf as (Hb & Hbs & Hlt). rewrite elements_cons.
  apply StronglySorted_app_2; [|apply increasing_add; apply Hb|by apply IH].
  intros x y Hx (c & Hc & Hy)%elem_of_elements. specialize (Hlt c Hc).
  apply (els_range b) in Hx; [|done]. destruct Hbs as [Hbs _]. rewrite Forall_forall in Hbs.
  apply (els_range c) in Hy; [|by apply Hbs]. lia.
Qed.

(** The buckets before index [i]. *)
Definition before (bs : list bkt) (i : Z) : Z := zlen (elements (take (Z.to_nat i) bs)).

Lemma bkts_split (bs : list bkt) i b :
  bs.[i] = Some b -> bs = take (Z.to_nat i) bs ++ b :: drop (S (Z.to_nat i)) bs.
Proof.
  unfold zget. case_decide; [|done]. intros H'. by rewrite take_drop_middle.
Qed.

Lemma before_next bs i b : bs.[i] = Some b -> before bs (i + 1) = before bs i + zlen (lows b).
Proof.
  intros Hi. pose proof (zget_Some_range _ _ _ Hi). unfold before.
  replace (Z.to_nat (i + 1)) with (S (Z.to_nat i)) by lia. unfold zget in Hi. rewrite decide_True in Hi by lia.
  rewrite (take_S_r bs _ b) by done. rewrite elements_app, zlen_app, elements_cons, app_nil_r.
  unfold els. by rewrite zlen_fmap.
Qed.

Lemma before_0 bs : before bs 0 = 0.
Proof. done. Qed.

(** The bound on the elements of the buckets before index [i]. *)
Lemma elements_before bs i b v :
  bkts_wf bs -> bs.[i] = Some b -> v ∈ elements (take (Z.to_nat i) bs) -> v < base b.
Proof.
  intros Hwf Hi (c & Hc & Hv)%elem_of_elements. apply zget_elem in Hc as [j Hj].
  pose proof (zget_Some_range _ _ _ Hi) as Hr. pose proof (zget_Some_range _ _ _ Hj) as Hr'.
  unfold zlen in Hr'. rewrite length_take in Hr'.
  rewrite zget_take in Hj by lia. pose proof (bkts_wf_lt bs j i c b Hwf Hj Hi ltac:(lia)).
  apply (els_range c) in Hv; [lia|by eapply bkts_wf_at].
Qed.

(** The number of values before a value of bucket [i]. *)
Lemma count_elements bs i b x :
  bkts_wf bs -> bs.[i] = Some b -> 0 <= x < 65536 ->
  count_lt (elements bs) (base b + x) = before bs i + count_lt (lows b) x.
Proof.
  intros Hwf Hi Hx. pose proof (zget_Some_range _ _ _ Hi) as Hr.
  rewrite (bkts_split bs i b Hi) at 1. rewrite elements_app, elements_cons, !count_lt_app.
  unfold before. rewrite count_lt_all.
  2: { intros v Hv. pose proof (elements_before bs i b v Hwf Hi Hv). lia. }
  unfold els. rewrite count_lt_add. rewrite (count_lt_none (elements _)); [lia|].
  intros v (c & Hc & Hv)%elem_of_elements. apply zget_elem in Hc as [j Hj].
  pose proof (zget_Some_range _ _ _ Hj). replace (S (Z.to_nat i)) with (Z.to_nat (i + 1)) in Hj by lia.
  rewrite zget_drop in Hj by lia. pose proof (bkts_wf_lt bs i _ b c Hwf Hi Hj ltac:(lia)).
  apply (els_range c) in Hv; [lia|by eapply bkts_wf_at].
Qed.

(** The first value from [t] on, for a [t] past the buckets before [i] and not past
    bucket [i]: in bucket [i], or else the first of the next bucket. *)
Lemma seek_elements bs i b t :
  bkts_wf bs -> bs.[i] = Some b ->
  (forall j c, j < i -> bs.[j] = Some c -> base c + 65536 <= t) -> t <= base b + 65536 ->
  first_ge (elements bs) t =
  match first_ge (lows b) (t - base b) with
  | Some z => Some (base b + z)
  | None => c ← bs.[i + 1]; Z.add (base c) <$> head (lows c)
  end.
Proof.
  intros Hwf Hi Hpre Ht. pose proof (zget_Some_range _ _ _ Hi) as Hr.
  rewrite (bkts_split bs i b Hi) at 1. rewrite elements_app, elements_cons, first_ge_app.
  rewrite first_ge_none.
  2: { intros v (c & Hc & Hv)%elem_of_elements. apply zget_elem in Hc as [j Hj].
       pose proof (zget_Some_range _ _ _ Hj) as Hr'. unfold zlen in Hr'. rewrite length_take in Hr'.
       rewrite zget_take in Hj by lia. specialize (Hpre j c ltac:(lia) Hj).
       apply (els_range c) in Hv; [lia|by eapply bkts_wf_at]. }
  rewrite first_ge_app. unfold els. replace t with (base b + (t - base b)) at 1 by lia.
  rewrite first_ge_add. destruct (first_ge (lows b) (t - base b)) as [z|]; [done|]. simpl.
  replace (bs.[i + 1]) with (drop (S (Z.to_nat i)) bs).[0].
  2: { replace (S (Z.to_nat i)) with (Z.to_nat (i + 1)) by lia. rewrite zget_drop by lia. f_equal. lia. }
  destruct (drop (S (Z.to_nat i)) bs) as [|c rest] eqn:Ed; [done|]. rewrite zget_cons_0. opt.
  assert (bs.[i + 1] = Some c) as Hc.
  { replace (i + 1) with (i + 1 + 0) by lia. rewrite <- zget_drop by lia.
    replace (Z.to_nat (i + 1)) with (S (Z.to_nat i)) by lia. by rewrite Ed. }
  pose proof (bkts_wf_at _ _ _ Hwf Hc) as Hcw. pose proof (bkts_wf_lt bs i (i + 1) b c Hwf Hi Hc ltac:(lia)).
  rewrite elements_cons, first_ge_app. rewrite first_ge_all.
  2: { intros v Hv. apply (els_range c) in Hv; [lia|done]. }
  unfold els. destruct Hcw as (_ & Hne & _). by destruct (lows c).
Qed.

End contents.

(** * Counting in a bitmap *)

Section dense.
Context (l ws ri : list Z) (Hok : dense_ok l ws ri) (Hinc : increasing l).

Lemma dense_filter n : 0 <= n -> filter (fun v => v < n) l = members ws n.
Proof.
  intros Hn. apply increasing_ext; [by apply increasing_filter|apply increasing_members|]. intros v.
  rewrite list_elem_of_filter, elem_of_members. destruct Hok as (Hw & Hl & Hm & _). rewrite Hm.
  split; [|tauto]. intros [Hv Hin]. split; [|done]. split; [|lia]. apply Z.nlt_ge. intros Hneg.
  apply Hm in Hin. rewrite bit_out in Hin; [done|lia].
Qed.

Lemma dense_count n : 0 <= n -> count_lt l n = zlen (members ws n).
Proof. intros. unfold count_lt. by rewrite dense_filter. Qed.

Lemma dense_list : l = members ws 65536.
Proof.
  rewrite <- dense_filter by lia. symmetry. apply filter_all. intros v Hv.
  destruct Hok as (Hw & Hl & Hm & _). apply Hm in Hv. apply Z.nle_gt. intros Hle.
  rewrite bit_out in Hv; [done|lia].
Qed.

Lemma dense_count_le n : 0 <= n -> 0 <= count_lt l n <= n.
Proof.
  intros Hn. rewrite dense_count by done. split; [apply zlen_nonneg|].
  unfold members. etransitivity; [apply zlen_filter|]. zlen.
Qed.

(** The first [b] bits of word [k] extend the members below the word. *)
Lemma members_bits k w b :
  0 <= k -> ws.[k] = Some w -> 0 <= b <= 64 ->
  members ws (64 * k + b) = members ws (64 * k) ++ (Z.add (64 * k) <$> bits_in w b).
Proof.
  intros Hk Hw Hb. apply increasing_ext; [apply increasing_members| |].
  - apply StronglySorted_app_2; [|apply increasing_members|auto with incr].
    intros x y Hx Hy. apply elem_of_members in Hx as [Hx _].
    apply list_elem_of_fmap in Hy as (y' & -> & Hy). apply elem_of_bits_in in Hy. lia.
  - intros v. rewrite elem_of_app, list_elem_of_fmap, !elem_of_members. setoid_rewrite elem_of_bits_in. split.
    + intros [Hv Ht]. destruct (decide (v < 64 * k)); [left; split; [lia|done]|right].
      exists (v - 64 * k). split; [lia|]. split; [lia|]. rewrite <- (bit_at ws k _ w Hw) by lia.
      rewrite <- Ht. f_equal. lia.
    + intros [[Hv Ht]|(y & -> & Hy & Ht)]; [split; [lia|done]|]. split; [lia|].
      by rewrite (bit_at ws k y w Hw) by lia.
Qed.

Lemma popcount_low w b : is_u 64 w -> 0 <= b <= 64 ->
  popcount (Z.land w (Z.shiftl 1 b - 1)) = zlen (bits_in w b).
Proof.
  intros Hw Hb. rewrite Z.shiftl_1_l, Z.sub_1_r, <- Z.ones_equiv, Z.land_ones by lia.
  rewrite (popcount_bits_in b) by (lia || by apply Z.mod_pos_bound, pow2_pos; lia).
  f_equal. apply increasing_ext; [auto with incr..|]. intros i. rewrite !elem_of_bits_in.
  split; intros [Hi Ht]; (split; [done|]); rewrite Z.mod_pow2_bits_low in *; done || lia.
Qed.

Lemma dense_count_word k w :
  ws.[k] = Some w -> count_lt l (64 * (k + 1)) = count_lt l (64 * k) + popcount w.
Proof.
  intros Hw. pose proof (zget_Some_range _ _ _ Hw). rewrite !dense_count by lia.
  replace (64 * (k + 1)) with (64 * k + 64) by lia. rewrite (members_bits k w 64) by (done || lia).
  rewrite zlen_app, zlen_fmap, (popcount_bits_in 64); [done|lia|].
  destruct Hok as (Hws & _). by eapply words_ok_at.
Qed.

Lemma dense_count_low k w b :
  ws.[k] = Some w -> 0 <= b < 64 ->
  count_lt l (64 * k + b) = count_lt l (64 * k) + popcount (Z.land w (Z.shiftl 1 b - 1)).
Proof.
  intros Hw Hb. pose proof (zget_Some_range _ _ _ Hw). rewrite !dense_count by lia.
  rewrite (members_bits k w b) by (done || lia).
  rewrite zlen_app, zlen_fmap, popcount_low; [done| |lia]. destruct Hok as (Hws & _). by eapply words_ok_at.
Qed.

End dense.

(** * The iterator walks the contents *)

Section iterator.
Import BitSet Iterator.
Context (s : bitset) (bs : list bkt) `{!Encodes s bs}.

Lemma base_shift b : bkt_wf b -> s32 (Z.shiftl (upper b) BUCKET_BITS) = base b.
Proof.
  intros (Hu & _). rewrite Z.shiftl_mul_pow2 by done. change (2 ^ BUCKET_BITS) with 65536.
  unfold base. rewrite swrap_id; [lia|done|]. unfold is_s. change (2 ^ (32 - 1)) with (65536 * 2 ^ 15). lia.
Qed.

(** The iterator is in bucket [bi], past the local values up to [x]. *)
Definition in_bucket (it : iterator) (bi : Z) (b : bkt) (x : Z) : Prop :=
  bs.[bi] = Some b /\ bucketIdx it = bi /\ bucketBase it = base b /\ bucketSize it = zlen (lows b) /\
  bucketRank it = before bs bi /\ -1 <= x < 65536 /\
  match bucket it with
  | SPARSE vs index => vs = lows b /\ index = count_lt (lows b) (x + 1) - 1
  | DENSE ws ri => dense_ok (lows b) ws ri /\ curr it = base b + x
  end.

(** The iterator stands on the value [base b + x]. *)
Definition positioned (it : iterator) (bi : Z) (b : bkt) (x : Z) : Prop :=
  in_bucket it bi b x /\ curr it = base b + x /\ x ∈ lows b.

#[local] Ltac split_bucket := unfold positioned, in_bucket; split_and!; simpl; try done; try lia.

Lemma count_lt_next l x : increasing l -> x ∈ l -> count_lt l (x + 1) = count_lt l x + 1.
Proof.
  induction 1 as [|a l Hl IH Ha]; [by intros ?%not_elem_of_nil|]. rewrite Forall_forall in Ha.
  rewrite !count_lt_cons. intros [->|Hx]%elem_of_cons.
  - rewrite !count_lt_none by (intros v Hv%Ha; lia). rewrite decide_True, decide_False by lia. lia.
  - rewrite (IH Hx). specialize (Ha x Hx). rewrite !decide_True by lia. lia.
Qed.

Lemma enterBucket_spec it i b :
  bs.[i] = Some b -> bucketRank it = before bs i ->
  exists it', enterBucket s i it = Some it' /\ in_bucket it' i b (-1).
Proof.
  intros Hi Hr. pose proof (bkts_wf_at _ _ _ enc_wf Hi) as Hwf.
  destruct (enc_bucket i b Hi) as (off & Hd & Hbk). unfold enterBucket. rewrite Hd. opt.
  cbn [upperBits BitSet.size desc_offset]. rewrite base_shift by done.
  replace (zlen (lows b) - 1 + 1) with (zlen (lows b)) by lia. change BUCKET_SPARSE_MAX with 4096.
  destruct (decide (zlen (lows b) <= 4096)).
  - rewrite Hbk. opt. eexists. split; [done|]. split_bucket.
    rewrite count_lt_none; [done|]. intros v Hv. apply (bkt_wf_low b) in Hv; [lia|done].
  - destruct Hbk as (-> & ws & ri & -> & -> & Hok). opt. eexists. split; [done|].
    split_bucket; apply Hok.
Qed.

Lemma local_next_sparse it bi b x z index :
  in_bucket it bi b x -> bucket it = SPARSE (lows b) index -> (lows b).[index + 1] = Some z ->
  exists it', sparseNext it = Some (base b + z, it') /\ positioned it' bi b z.
Proof.
  intros (Hbi & Hix & Hbase & Hsz & Hrk & Hx & _) Hbk Hz.
  pose proof (bkts_wf_at _ _ _ enc_wf Hbi) as Hwf. pose proof (zget_elem_1 _ _ _ Hz) as Hin.
  pose proof (bkt_wf_low _ _ Hwf Hin). pose proof Hwf as (_ & _ & Hinc & _).
  unfold sparseNext. rewrite Hbk, Hz. opt. rewrite Hbase. eexists. split; [done|].
  split_bucket.
  rewrite count_lt_next by done. rewrite (count_lt_zget _ _ _ Hinc Hz). split; [done|lia].
Qed.

(** The bitmap search gives the first local value from [y] on. *)
Lemma dense_search b ws ri y :
  bkt_wf b -> dense_ok (lows b) ws ri -> 0 <= y < 65536 ->
  OpenBitSet.nextSetBit Bits_fixedSize Bits_MAX_INDEX ws y Bits_fixedNumWords =
  Some (default Bits_MAX_INDEX (first_ge (lows b) y)).
Proof.
  intros Hwf (Hok & Hl & Hm & _) Hy.
  destruct (nextSetBit_spec Bits_fixedSize Bits_MAX_INDEX ws y Bits_fixedNumWords) as (r & -> & Hr);
    [done|done|change (64 * Bits_fixedNumWords) with 65536; lia|
     change Bits_fixedNumWords with 1024; lia|]. f_equal.
  change (64 * Bits_fixedNumWords) with 65536 in Hr. destruct Hr as [[-> Hr]|(Hr & Hb & Hmin)].
  - rewrite first_ge_none; [done|]. intros v Hv. pose proof (bkt_wf_low _ _ Hwf Hv).
    apply Z.nle_gt. intros Hle. apply Hm in Hv. by rewrite Hr in Hv by lia.
  - assert (first_ge (lows b) y = Some r) as ->; [|done]. apply first_ge_Some; [apply Hwf|].
    split_and!; [by apply Hm|lia|]. intros u Hu Hyu. apply Z.nlt_ge. intros Hur. apply Hm in Hu.
    by rewrite Hmin in Hu by lia.
Qed.

Lemma low_u16 b x : 0 <= x < 65536 -> 0 <= upper b -> u16 (base b + x) = x.
Proof.
  intros Hx Hu. unfold uwrap, base. change (2 ^ 16) with 65536. rewrite Z.add_comm, Z.mul_comm, Z_mod_plus_full.
  by apply Z.mod_small.
Qed.

(** A dense step inside the bucket. *)
Lemma dense_positioned it bi b x z :
  in_bucket it bi b x -> (exists ws ri, bucket it = DENSE ws ri) -> z ∈ lows b ->
  positioned (set_curr (base b + z) it) bi b z.
Proof.
  intros (Hbi & Hix & Hbase & Hsz & Hrk & Hx & Hbk) (ws & ri & E) Hz. rewrite E in Hbk.
  pose proof (bkt_wf_low _ _ (bkts_wf_at _ _ _ enc_wf Hbi) Hz).
  split_bucket. rewrite E. split; [apply Hbk|done].
Qed.

(** Leaving a bucket: the first value of the next one, or the end. *)
Lemma nextBucket_spec it bi :
  bucketIdx it = bi -> -1 <= bi -> bucketRank it + bucketSize it = before bs (bi + 1) ->
  match bs.[bi + 1] with
  | None => nextBucket s it = Some (END, set_curr END it)
  | Some c => exists it' z, head (lows c) = Some z /\
      nextBucket s it = Some (base c + z, it') /\ positioned it' (bi + 1) c z
  end.
Proof.
  intros Hix Hbi Hrk. unfold nextBucket. rewrite Hix, enc_n. destruct (bs.[bi + 1]) as [c|] eqn:Hc.
  2: { rewrite decide_True; [done|]. destruct (decide (bi + 1 < zlen bs)); [|lia].
       destruct (zget_in bs (bi + 1)) as [? ?]; [lia|congruence]. }
  pose proof (zget_Some_range _ _ _ Hc). rewrite decide_False by lia.
  pose proof (bkts_wf_at _ _ _ enc_wf Hc) as Hwf. pose proof Hwf as (Hu & Hne & Hinc & _).
  destruct (lows c) as [|z l] eqn:El; [done|]. assert (z ∈ lows c) as Hz by (rewrite El; left).
  destruct (enterBucket_spec (add_rank (bucketSize it) it) (bi + 1) c Hc) as (it1 & -> & Hin); [done|].
  opt. pose proof Hin as (_ & _ & Hbase & _ & _ & _ & Hbk).
  destruct (bucket it1) as [vs index|ws ri] eqn:Eb.
  - destruct Hbk as [-> ->]. rewrite count_lt_none in Eb by (intros v Hv; pose proof (bkt_wf_low c v Hwf Hv); lia).
    destruct (local_next_sparse it1 (bi + 1) c (-1) z (0 - 1) Hin Eb) as (it2 & E2 & Hp); [by rewrite El|].
    by exists it2, z.
  - destruct Hbk as [Hok Hcur]. unfold denseNext. rewrite Eb, Hcur.
    replace (base c + -1 + 1) with (base c + 0) by lia. rewrite low_u16 by lia.
    rewrite (dense_search c ws ri 0 Hwf Hok) by lia.
    assert (first_ge (lows c) 0 = Some z) as ->.
    { rewrite first_ge_all; [by rewrite El|]. intros v Hv. pose proof (bkt_wf_low c v Hwf Hv). lia. }
    opt. cbn [default from_option id]. pose proof (bkt_wf_low c z Hwf Hz) as Hz'.
    rewrite Hbase, (Z.add_comm z), swrap_id; [|done|unfold is_s, base; change (2 ^ (32 - 1)) with (65536 * 2 ^ 15); lia].
    do 2 eexists. split; [done|]. split; [done|]. apply (dense_positioned it1 _ _ (-1)); [done|by eauto|done].
Qed.

(** The outcome of a move to the first value from [t] on. *)
Definition lands (t : Z) (r : option (Z * iterator)) : Prop :=
  match first_ge (elements bs) t with
  | Some v => exists it bi b x, r = Some (v, it) /\ positioned it bi b x /\ v = base b + x
  | None => exists it, r = Some (END, it)
  end.

(** A target at or after the base of bucket [i] is past the buckets before it. *)
Lemma past_buckets i b t j c :
  bs.[i] = Some b -> base b <= t -> j < i -> bs.[j] = Some c -> base c + 65536 <= t.
Proof. intros Hi Ht Hj Hc. pose proof (bkts_wf_lt bs j i c b enc_wf Hc Hi Hj). lia. Qed.

Lemma nextBucket_lands it bi b t :
  bs.[bi] = Some b -> bucketIdx it = bi -> bucketRank it + bucketSize it = before bs (bi + 1) ->
  base b <= t <= base b + 65536 -> first_ge (lows b) (t - base b) = None ->
  lands t (nextBucket s it).
Proof.
  intros Hb Hix Hrk Ht Hnone. pose proof (zget_Some_range _ _ _ Hb).
  pose proof (nextBucket_spec it bi Hix ltac:(lia) Hrk) as Hn. unfold lands.
  rewrite (seek_elements bs bi b t enc_wf Hb), Hnone; [|intros j c Hj Hc; by apply (past_buckets bi b t j c); [|lia|..]|lia].
  destruct (bs.[bi + 1]) as [c|]; opt; [|eauto].
  destruct Hn as (it' & z & Hz & E & Hp). rewrite Hz. opt. exists it', (bi + 1), c, z. done.
Qed.

Lemma in_bucket_rank it bi b x : in_bucket it bi b x -> bucketRank it + bucketSize it = before bs (bi + 1).
Proof.
  intros (Hb & _ & _ & Hsz & Hrk & _). rewrite (before_next bs bi b Hb). lia.
Qed.

(** A local hit decides where the move lands. *)
Lemma lands_local it bi b t z r :
  bs.[bi] = Some b -> base b <= t <= base b + 65536 -> first_ge (lows b) (t - base b) = Some z ->
  r = Some (base b + z, it) -> positioned it bi b z -> lands t r.
Proof.
  intros Hb Ht Hz Hr Hp. unfold lands. rewrite (seek_elements bs bi b t enc_wf Hb), Hz; [|idtac|lia].
  - by exists it, bi, b, z.
  - intros j c Hj Hc. by apply (past_buckets bi b t j c); [|lia|..].
Qed.

Lemma denseNextMaybe_lands it bi b x :
  in_bucket it bi b x -> (exists ws ri, bucket it = DENSE ws ri) ->
  lands (base b + x + 1) (denseNextMaybe s it).
Proof.
  intros Hin Hd. pose proof Hin as (Hb & Hix & Hbase & Hsz & Hrk & Hx & Hbk). destruct Hd as (ws & ri & E).
  unfold denseNextMaybe. rewrite E in *. destruct Hbk as [Hok ->].
  pose proof (bkts_wf_at _ _ _ enc_wf Hb) as Hwf. pose proof Hwf as (Hu & _ & Hinc & _).
  rewrite Hbase. change Bits_fixedSize with 65536 at 1. case_decide.
  - rewrite <- Z.add_assoc, low_u16 by lia. rewrite (dense_search b ws ri (x + 1) Hwf Hok) by lia. opt.
    destruct (first_ge (lows b) (x + 1)) as [z|] eqn:Ez; cbn [default from_option id].
    + pose proof (proj1 (first_ge_Some _ _ _ Hinc) Ez) as (Hz & _).
      pose proof (bkt_wf_low _ _ Hwf Hz). rewrite decide_True by (unfold Bits_MAX_INDEX; lia).
      eapply (lands_local _ bi b _ z); [done|lia| |done|].
      * by replace (base b + (x + 1) - base b) with (x + 1) by lia.
      * apply (dense_positioned _ _ _ x); eauto.
    + rewrite decide_False by auto. apply (nextBucket_lands _ bi b); try done; [by eapply in_bucket_rank|lia|].
      by replace (base b + (x + 1) - base b) with (x + 1) by lia.
  - apply (nextBucket_lands _ bi b); try done; [by eapply in_bucket_rank|lia|].
    apply first_ge_none. intros v Hv. pose proof (bkt_wf_low _ _ Hwf Hv). lia.
Qed.

Lemma next_lands it bi b x : in_bucket it bi b x -> lands (base b + x + 1) (next s it).
Proof.
  intros Hin. pose proof Hin as (Hb & Hix & Hbase & Hsz & Hrk & Hx & Hbk). unfold next.
  destruct (bucket it) as [vs index|ws ri] eqn:E; [|apply (denseNextMaybe_lands _ bi); eauto].
  destruct Hbk as [-> ->]. pose proof (bkts_wf_at _ _ _ enc_wf Hb) as Hwf. pose proof Hwf as (Hu & _ & Hinc & _).
  pose proof (zget_count_lt (lows b) (x + 1) Hinc) as Hf. replace (_ - 1 + 1) with (count_lt (lows b) (x + 1)) by lia.
  rewrite Hsz. pose proof (count_lt_range (lows b) (x + 1)) as Hc. case_decide as Hd.
  - assert (first_ge (lows b) (x + 1) = None) as Hnone.
    { rewrite <- Hf. apply eq_None_not_Some. intros Hs%zget_is_Some. lia. }
    apply (nextBucket_lands _ bi b); try done; [by eapply in_bucket_rank|lia|].
    by replace (base b + x + 1 - base b) with (x + 1) by lia.
  - destruct (zget_in (lows b) (count_lt (lows b) (x + 1))) as [z Hz]; [lia|].
    destruct (local_next_sparse it bi b x z (count_lt (lows b) (x + 1) - 1) Hin E) as (it' & E' & Hp).
    { by replace (count_lt (lows b) (x + 1) - 1 + 1) with (count_lt (lows b) (x + 1)) by lia. }
    eapply lands_local; [done|lia| |done|done].
    replace (base b + x + 1 - base b) with (x + 1) by lia. by rewrite <- Hf.
Qed.

(** A bucket holds at most 65536 values. *)
Lemma lows_bound b : bkt_wf b -> zlen (lows b) <= 65536.
Proof. intros (_ & _ & Hinc & Hf). by apply increasing_bound. Qed.

Lemma advanceInBucket_lands it bi b x y :
  in_bucket it bi b x -> x < y < 65536 -> 0 <= y ->
  lands (base b + y) (advanceInBucket s (base b + y) it).
Proof.
  intros Hin Hy Hy0. pose proof Hin as (Hb & Hix & Hbase & Hsz & Hrk & Hx & Hbk).
  pose proof (bkts_wf_at _ _ _ enc_wf Hb) as Hwf. pose proof Hwf as (Hu & _ & Hinc & _).
  unfold advanceInBucket. destruct (bucket it) as [vs index|ws ri] eqn:E.
  - destruct Hbk as [-> ->]. rewrite low_u16 by lia. rewrite Hsz.
    replace (count_lt (lows b) (x + 1) - 1 + 1) with (count_lt (lows b) (x + 1)) by lia.
    pose proof (count_lt_mono (lows b) (x + 1) y ltac:(lia)). pose proof (count_lt_range (lows b) y).
    pose proof (count_lt_range (lows b) (x + 1)). pose proof (lows_bound b Hwf).
    rewrite (gallopLowerBound_cut (lows b) (count_lt (lows b) (x + 1)) (zlen (lows b)) y (count_lt (lows b) y)); [|idtac|lia].
    2: { eapply (cut_narrow _ 0 (zlen (lows b))); [|lia|lia].
         apply (sorted_cut (fun a => a < y) (fun a => bool_decide (a < y)));
           [by apply increasing_nondecreasing|lia|done]. }
    opt. pose proof (zget_count_lt (lows b) y Hinc) as Hf. case_decide as Hd.
    + apply (nextBucket_lands _ bi b); try done; [by eapply in_bucket_rank|lia|].
      replace (base b + y - base b) with y by lia. rewrite <- Hf. apply eq_None_not_Some.
      intros Hs%zget_is_Some. lia.
    + destruct (zget_in (lows b) (count_lt (lows b) y)) as [z Hz]; [lia|].
      destruct (local_next_sparse
        (set_bucket (SPARSE (lows b) (count_lt (lows b) (x + 1) + (count_lt (lows b) y - count_lt (lows b) (x + 1)) - 1)) it)
        bi b (y - 1) z (count_lt (lows b) y - 1)) as (it' & E' & Hp).
      * split_bucket. split; [done|]. replace (y - 1 + 1) with y by lia. lia.
      * simpl. do 2 f_equal. lia.
      * by replace (count_lt (lows b) y - 1 + 1) with (count_lt (lows b) y) by lia.
      * eapply lands_local; [done|lia| |done|done].
        replace (base b + y - base b) with y by lia. by rewrite <- Hf.
  - destruct Hbk as [Hok Hcur]. replace (base b + y) with (base b + (y - 1) + 1) at 1 by lia.
    apply (denseNextMaybe_lands _ bi); [|simpl; eauto]. split_bucket. rewrite E. split; [done|lia].
Qed.

(** The descriptor scan stops at the first bucket whose upper bits reach [u]. *)
Lemma advanceBucketLoop_spec u n i it :
  0 <= i -> i + Z.of_nat n = zlen bs -> bucketRank it + bucketSize it = before bs i ->
  exists found it', advanceBucketLoop s u n i it = Some (found, it') /\
    if (found : bool)
    then exists j b, i <= j /\ bs.[j] = Some b /\ u <= upper b /\ in_bucket it' j b (-1) /\
           forall k c, i <= k < j -> bs.[k] = Some c -> upper c < u
    else forall k c, i <= k -> bs.[k] = Some c -> upper c < u.
Proof.
  revert i it. induction n as [|n IH]; intros i it Hi Hn Hrk; cbn [advanceBucketLoop].
  - exists false, it. split; [done|]. intros k c Hk Hc%zget_Some_range. lia.
  - destruct (zget_in bs i) as [b Hb]; [lia|]. destruct (enc_bucket i b Hb) as (off & Hd & _).
    rewrite Hd. opt. cbn [upperBits BitSet.size desc_offset]. case_decide as Hu.
    + destruct (enterBucket_spec (Iter (curr (add_rank (bucketSize it) it)) (bucketIdx (add_rank (bucketSize it) it))
        (bucketBase (add_rank (bucketSize it) it)) (zlen (lows b) - 1 + 1) (bucketRank (add_rank (bucketSize it) it))
        (bucket (add_rank (bucketSize it) it))) i b Hb) as (it' & -> & Hin); [done|]. opt.
      exists true, it'. split; [done|]. exists i, b. split_and!; [lia|done|lia|done|lia].
    + edestruct (IH (i + 1)) as (found & it' & E & Hres); [lia|lia| |].
      2: { rewrite E. exists found, it'. split; [done|]. destruct found.
           - destruct Hres as (j & c & Hj & Hc & Huc & Hin & Hlt). exists j, c.
             split_and!; [lia|done|done|done|]. intros k d Hk Hdk.
             destruct (decide (k = i)) as [->|]; [|eapply Hlt; [|done]; lia].
             assert (d = b) as -> by congruence. lia.
           - intros k d Hk Hdk. destruct (decide (k = i)) as [->|]; [|eapply Hres; [|done]; lia].
             assert (d = b) as -> by congruence. lia. }
      simpl. rewrite (before_next bs i b Hb). lia.
Qed.

(** An iterator that has not moved, or stands on a value. *)
Definition ready (it : iterator) (c : Z) : Prop :=
  (it = fresh /\ c = -1) \/ exists bi b x, positioned it bi b x /\ c = base b + x.

Lemma ready_curr it c : ready it c -> curr it = c.
Proof. by intros [[-> ->]|(bi & b & x & (_ & -> & _) & ->)]. Qed.

Lemma target_base t : 0 <= t < 2 ^ 31 ->
  s32 (Z.land (u32 t) BUCKET_MASK_UPPERBITS) = 65536 * (t / 65536) /\
  u16 (Z.shiftr (65536 * (t / 65536)) BUCKET_BITS) = t / 65536.
Proof.
  intros Ht. pose proof (Z.div_mod t 65536 ltac:(lia)). pose proof (Z.mod_pos_bound t 65536 ltac:(lia)).
  assert (0 <= t / 65536 < 2 ^ 15) by (split; [apply Z.div_pos|apply Z.div_lt_upper_bound]; lia).
  rewrite (uwrap_id 32) by (unfold is_u; lia).
  assert (Z.land t BUCKET_MASK_UPPERBITS = 65536 * (t / 65536)) as ->.
  { change BUCKET_MASK_UPPERBITS with (Z.shiftl (Z.ones 16) 16).
    replace (65536 * (t / 65536)) with (Z.shiftl (Z.shiftr t 16) 16)
      by (rewrite Z.shiftr_div_pow2, Z.shiftl_mul_pow2 by lia; apply Z.mul_comm).
    apply Z.bits_inj'. intros i Hi. rewrite Z.land_spec, !Z.shiftl_spec by lia.
    destruct (decide (i < 16)); [by rewrite !(Z.testbit_neg_r _ (i - 16)), andb_false_r by lia|].
    rewrite Z.shiftr_spec by lia. replace (i - 16 + 16) with i by lia. destruct (decide (i < 32)).
    - by rewrite Z.ones_spec_low, andb_true_r by lia.
    - by rewrite (testbit_high 31 t) by (done || lia). }
  split.
  - rewrite swrap_id; [done|done|]. unfold is_s. change (2 ^ (32 - 1)) with (65536 * 2 ^ 15). lia.
  - rewrite Z.shiftr_div_pow2 by done. change (2 ^ BUCKET_BITS) with 65536.
    rewrite Z.mul_comm, Z.div_mul by lia. apply uwrap_id. unfold is_u. lia.
Qed.

Lemma advance_from u i it t :
  0 <= i <= zlen bs -> bucketRank it + bucketSize it = before bs i -> 0 <= t < 2 ^ 31 -> u = t / 65536 ->
  (forall k c, k < i -> bs.[k] = Some c -> upper c < u) ->
  lands t ('(found, it) ← advanceBucketLoop s u (Z.to_nat (nBuckets s - i)) i it;
           if (found : bool) then
             if decide (bucketBase it > 65536 * u) then next s it else advanceInBucket s t it
           else Some (END, it)).
Proof.
  intros Hi Hrk Ht Hu Hpre. rewrite enc_n.
  pose proof (Z.div_mod t 65536 ltac:(lia)) as Hdm. pose proof (Z.mod_pos_bound t 65536 ltac:(lia)) as Hm.
  rewrite <- Hu in Hdm.
  destruct (advanceBucketLoop_spec u (Z.to_nat (zlen bs - i)) i it) as (found & it' & -> & H); [lia|lia|done|].
  opt. destruct found.
  - destruct H as (j & b & Hj & Hb & Hub & Hin & Hlt). pose proof Hin as (_ & _ & -> & _).
    pose proof (bkts_wf_at _ _ _ enc_wf Hb) as Hwf.
    assert (forall k c, k < j -> bs.[k] = Some c -> base c + 65536 <= t) as Hpast.
    { intros k c Hk Hc. assert (upper c < u); [|unfold base; lia].
      destruct (decide (k < i)); [by eapply Hpre|]. eapply Hlt; [|done]. lia. }
    case_decide as Hd.
    + pose proof (next_lands it' j b (-1) Hin) as Hl. replace (base b + -1 + 1) with (base b) in Hl by lia.
      unfold lands in *. rewrite (seek_elements bs j b t enc_wf Hb Hpast) by (unfold base in *; lia).
      rewrite (seek_elements bs j b (base b) enc_wf Hb) in Hl; [|intros k c Hk Hc; apply (past_buckets j b (base b) k c); done || lia|lia].
      rewrite first_ge_all in Hl |- *; [done|intros v Hv; pose proof (bkt_wf_low b v Hwf Hv); unfold base in *; lia..].
    + assert (base b = 65536 * u) as Hbase by (unfold base in *; lia).
      replace t with (base b + t `mod` 65536) by lia. by apply (advanceInBucket_lands it' j b (-1)); [|lia|lia].
  - unfold lands. rewrite first_ge_none; [by exists it'|]. intros v (b & Hb & Hv)%elem_of_elements.
    apply zget_elem in Hb as [k Hk]. assert (upper b < u).
    { destruct (decide (k < i)); [by eapply Hpre|]. eapply H; [|done]. lia. }
    apply (els_range b) in Hv; [unfold base in Hv; lia|]. by eapply bkts_wf_at; [apply enc_wf|].
Qed.

Lemma advance_lands it c t : ready it c -> c < t -> 0 <= t < 2 ^ 31 -> lands t (advance s t it).
Proof.
  intros Hr Hct Ht. pose proof (ready_curr _ _ Hr) as Hcur. destruct (target_base t Ht) as [Htb Htu].
  pose proof (Z.div_mod t 65536 ltac:(lia)) as Hdm. pose proof (Z.mod_pos_bound t 65536 ltac:(lia)) as Hm.
  assert (0 <= t / 65536) by (apply Z.div_pos; lia).
  unfold advance. rewrite decide_True by lia. cbv zeta. rewrite Htb. unfold advanceBucket. rewrite Htu.
  destruct Hr as [[-> ->]|(bi & b & x & ((Hb & Hix & Hbase & Hsz & Hrk & Hx & Hbk) & Hc & Hlow) & ->)].
  - rewrite decide_True by (simpl; lia). apply advance_from; simpl; try done; [pose proof (zlen_nonneg bs); lia|].
    intros k c Hk Hc%zget_Some_range. lia.
  - pose proof (bkts_wf_at _ _ _ enc_wf Hb) as Hwf. pose proof (bkt_wf_low _ _ Hwf Hlow).
    pose proof (zget_Some_range _ _ _ Hb). rewrite Hbase, Hix. case_decide as Hd.
    + apply advance_from; try done; [lia|rewrite (before_next bs bi b Hb); lia|]. intros k c Hk Hck.
      assert (upper b < t / 65536) by (unfold base in *; lia).
      destruct (decide (k = bi)) as [->|]; [by assert (c = b) as -> by congruence|].
      pose proof (bkts_wf_lt bs k bi c b enc_wf Hck Hb ltac:(lia)). unfold base in *. lia.
    + replace t with (base b + t `mod` 65536) by (unfold base in *; lia).
      apply (advanceInBucket_lands it bi b x); [|unfold base in *; lia|lia]. split_bucket.
Qed.

Lemma next_ready_lands it c : ready it c -> lands (c + 1) (next s it).
Proof.
  intros [[-> ->]|(bi & b & x & (Hin & _) & ->)]; [|by apply (next_lands it bi)].
  change (next s fresh) with (nextBucket s fresh).
  pose proof (nextBucket_spec fresh (-1) eq_refl ltac:(lia) eq_refl) as Hn.
  change (-1 + 1) with 0 in *. destruct (bs.[0]) as [b|] eqn:Hb.
  - destruct Hn as (it' & z & Hz & E & Hp). pose proof (bkts_wf_at _ _ _ enc_wf Hb) as Hwf.
    unfold lands. rewrite (seek_elements bs 0 b 0 enc_wf Hb).
    + rewrite first_ge_all, Hz; [by exists it', 0, b, z|]. intros v Hv. pose proof (bkt_wf_low b v Hwf Hv).
      destruct Hwf as (Hu & _). unfold base. lia.
    + intros j c Hj Hc%zget_Some_range. lia.
    + destruct Hwf as (Hu & _). unfold base. lia.
  - unfold lands. assert (bs = []) as E.
    { destruct bs as [|b l]; [done|]. by rewrite zget_cons_0 in Hb. }
    rewrite E. simpl. eauto.
Qed.

Lemma rank_index x : 0 <= x ->
  Z.shiftr x (OpenBitSet.wordShift + RANK_INDEX_SHIFT) = x / 512 /\
  Z.land (x / 64) (Z.lnot (Z.shiftl 1 RANK_INDEX_SHIFT - 1)) = 8 * (x / 512).
Proof.
  intros Hx. change (OpenBitSet.wordShift + RANK_INDEX_SHIFT) with 9.
  change (Z.shiftl 1 RANK_INDEX_SHIFT - 1) with (Z.ones 3). split; [by rewrite Z.shiftr_div_pow2|].
  rewrite <- Z.ldiff_land, Z.ldiff_ones_r, Z.shiftl_mul_pow2, Z.shiftr_div_pow2 by lia.
  change (2 ^ 3) with 8. rewrite Z.div_div by lia. change (64 * 8) with 512. lia.
Qed.

Lemma rank_spec it bi b x :
  positioned it bi b x -> rank it = Some (count_lt (elements bs) (base b + x)).
Proof.
  intros ((Hb & Hix & Hbase & Hsz & Hrk & Hx & Hbk) & Hc & Hlow).
  pose proof (bkts_wf_at _ _ _ enc_wf Hb) as Hwf. pose proof Hwf as (Hu & _ & Hinc & _).
  pose proof (bkt_wf_low _ _ Hwf Hlow) as Hx0. rewrite (count_elements bs bi b x enc_wf Hb Hx0).
  unfold rank. destruct (bucket it) as [vs index|ws ri].
  - destruct Hbk as [-> ->]. rewrite count_lt_next by done. f_equal. lia.
  - destruct Hbk as [Hok _]. rewrite Hc, low_u16, Hrk by lia. destruct (rank_index x) as [-> E2]; [lia|].
    change OpenBitSet.wordShift with 6. change OpenBitSet.wordMask with 63. rewrite shiftr6, land63.
    cbv zeta. rewrite E2. pose proof Hok as (Hws & Hlen & _ & Hrl & Hri).
    pose proof (Z.div_mod x 64 ltac:(lia)). pose proof (Z.mod_pos_bound x 64 ltac:(lia)).
    pose proof (Z.div_mod x 512 ltac:(lia)). pose proof (Z.mod_pos_bound x 512 ltac:(lia)).
    rewrite Hri by lia. opt.
    destruct (foldM_seqZ (fun i r => r = count_lt (lows b) (64 * i))
      (fun r i => w ← ws.[i]; Some (u16 (r + popcount w))) (count_lt (lows b) (512 * (x / 512)))
      (8 * (x / 512)) (x / 64 - 8 * (x / 512))) as (r & -> & ->).
    + lia.
    + f_equal. lia.
    + intros i r Hi ->. destruct (zget_in ws i) as [w Hw]; [lia|]. rewrite Hw. opt. eexists. split; [done|].
      rewrite <- (dense_count_word _ _ _ Hok Hinc i w Hw). apply uwrap_id.
      pose proof (dense_count_le _ _ _ Hok Hinc (64 * (i + 1)) ltac:(lia)). unfold is_u. lia.
    + opt. destruct (zget_in ws (x / 64)) as [w Hw]; [lia|]. rewrite Hw. opt.
      replace (8 * (x / 512) + (x / 64 - 8 * (x / 512))) with (x / 64) by lia.
      rewrite <- (dense_count_low _ _ _ Hok Hinc (x / 64) w (x `mod` 64) Hw) by lia.
      replace (64 * (x / 64) + x `mod` 64) with x by lia. rewrite uwrap_id; [done|].
      pose proof (dense_count_le _ _ _ Hok Hinc x ltac:(lia)). unfold is_u. lia.
Qed.

End iterator.

(** * Selection *)

Section select.
Import BitSet.

Lemma clear_lowest n w :
  is_u 64 w -> Z.of_nat n <= popcount w ->
  is_u 64 (Nat.iter n (fun w => Z.land w (u64 (w - 1))) w) /\
  bits_in (Nat.iter n (fun w => Z.land w (u64 (w - 1))) w) 64 = drop n (bits_in w 64).
Proof.
  intros Hw. induction n as [|n IH]; intros Hn; [done|]. destruct IH as [Hu E]; [lia|].
  rewrite Nat.iter_succ. remember (Nat.iter n _ w) as z eqn:Ez. clear Ez.
  rewrite (popcount_bits_in 64) in Hn by (done || lia). unfold zlen in Hn.
  assert (0 < z).
  { destruct (decide (z = 0)) as [->|]; [|unfold is_u in Hu; lia].
    apply (f_equal length) in E. rewrite length_drop in E. change (length (bits_in 0 64)) with 0%nat in E. lia. }
  assert (u64 (z - 1) = z - 1) as -> by (apply uwrap_id; unfold is_u in *; lia).
  split; [by apply is_u_land|]. rewrite (bits_in_clear_lowest 64 z 64) in E by done.
  replace (S n) with (n + 1)%nat by lia. rewrite <- drop_drop, <- E. done.
Qed.

Lemma selectInWord_spec w r :
  is_u 64 w -> 0 <= r < popcount w -> (bits_in w 64).[r] = Some (selectInWord w r).
Proof.
  intros Hw Hr. destruct (clear_lowest (Z.to_nat r) w Hw) as [Hu E]; [lia|]. unfold selectInWord.
  remember (Nat.iter (Z.to_nat r) _ w) as z eqn:Ez. clear Ez.
  rewrite (popcount_bits_in 64) in Hr by (done || lia). unfold zlen in Hr.
  assert (0 < z).
  { destruct (decide (z = 0)) as [->|]; [|unfold is_u in Hu; lia].
    apply (f_equal length) in E. rewrite length_drop in E. change (length (bits_in 0 64)) with 0%nat in E. lia. }
  rewrite (bits_in_clear_lowest 64 z 64) in E by done.
  replace r with (r + 0) by lia. rewrite <- zget_drop by lia. by rewrite <- E, zget_cons_0.
Qed.

Lemma wordOfRank_spec l ws ri r fuel w0 :
  dense_ok l ws ri -> increasing l -> r < zlen l -> 0 <= w0 -> count_lt l (64 * w0) <= r ->
  1024 <= w0 + Z.of_nat fuel ->
  exists w wd, wordOfRank fuel ws r w0 (count_lt l (64 * w0)) = Some (w, count_lt l (64 * w)) /\
    ws.[w] = Some wd /\ count_lt l (64 * w) <= r < count_lt l (64 * w) + popcount wd.
Proof.
  intros Hok Hinc Hr. assert (forall n, 1024 <= n -> count_lt l (64 * n) = zlen l) as Hall.
  { intros n Hn. apply count_lt_all. intros v Hv. rewrite (dense_list l ws ri Hok Hinc) in Hv.
    apply elem_of_members in Hv. lia. }
  revert w0. induction fuel as [|fuel IH]; intros w0 Hw0 Hle Hf.
  { rewrite Hall in Hle by lia. lia. }
  cbn [wordOfRank]. destruct (decide (1024 <= w0)); [rewrite Hall in Hle by lia; lia|].
  destruct (zget_in ws w0) as [wd Hwd]; [destruct Hok as (_ & -> & _); lia|]. rewrite Hwd. opt.
  case_decide.
  - exists w0, wd. split_and!; done || lia.
  - rewrite <- (dense_count_word l ws ri Hok Hinc w0 wd Hwd) in *. apply IH; lia.
Qed.

(** The value of rank [r] in a bitmap: the word that holds it, then the bit in it. *)
Lemma dense_select l ws ri r w wd :
  dense_ok l ws ri -> increasing l -> ws.[w] = Some wd ->
  count_lt l (64 * w) <= r < count_lt l (64 * w) + popcount wd ->
  l.[r] = Some (64 * w + selectInWord wd (r - count_lt l (64 * w))).
Proof.
  intros Hok Hinc Hwd Hr. pose proof (zget_Some_range _ _ _ Hwd) as Hw.
  pose proof Hok as (Hws & _). pose proof (words_ok_at _ _ _ Hws Hwd) as Hu.
  rewrite (dense_count l ws ri Hok Hinc) in * by lia.
  rewrite (increasing_split l (64 * (w + 1)) Hinc), (dense_filter l ws ri Hok Hinc) by lia.
  replace (64 * (w + 1)) with (64 * w + 64) by lia.
  rewrite (members_bits ws w wd 64) by (done || lia). rewrite <- app_assoc.
  rewrite zget_app_r by lia. rewrite zget_app_l.
  2: { rewrite zlen_fmap, <- (popcount_bits_in 64) by (done || lia). lia. }
  rewrite zget_fmap, selectInWord_spec; [done|done|lia].
Qed.

Context (s : bitset) (bs : list bkt) `{!Encodes s bs}.

Lemma rank_index_sorted l ws ri : dense_ok l ws ri -> nondecreasing ri.
Proof.
  intros (_ & _ & _ & Hl & Hri). apply nondecreasing_intro. intros i j x y Hij Hx Hy.
  pose proof (zget_Some_range _ _ _ Hx). pose proof (zget_Some_range _ _ _ Hy).
  rewrite Hri in Hx, Hy by lia. injection Hx as <-. injection Hy as <-. apply count_lt_mono. lia.
Qed.

(** The upper bound of a rank in a sorted array of ranks that starts at or below it. *)
Lemma owner_spec ranks n k r0 :
  nondecreasing ranks -> zlen ranks = n -> n < 2 ^ 64 -> ranks.[0] = Some r0 -> r0 <= k ->
  exists lo r, Branchless.upperBound ranks n k = Some lo /\ 1 <= lo <= n /\
    ranks.[lo - 1] = Some r /\ r <= k /\ forall r', ranks.[lo] = Some r' -> k < r'.
Proof.
  intros Hs <- Hn H0 Hk. assert (forall x y, x <= y -> y <= k -> x <= k) as HP by lia. exists (zlen (filter (fun a => a <= k) ranks)).
  pose proof (sorted_prefix (fun a => a <= k) ranks 0 r0 Hs HP H0) as [Hpos _].
  specialize (Hpos Hk). pose proof (zlen_filter (fun a => a <= k) ranks) as Hle.
  destruct (zget_in ranks (zlen (filter (fun a => a <= k) ranks) - 1)) as [r Hr]; [lia|]. exists r.
  split; [|split; [lia|]; split; [done|]; split].
  - apply core_cut; [lia|]. apply sorted_cut; [done|lia|]. intros a. unfold Branchless.advancePast.
    do 2 case_bool_decide; done || lia.
  - apply (sorted_prefix (fun a => a <= k) ranks _ r Hs HP Hr). lia.
  - intros r' Hr'. apply Z.nle_gt. intros Hle'.
    apply (sorted_prefix (fun a => a <= k) ranks _ r' Hs HP Hr') in Hle'. lia.
Qed.

Lemma loads_zget width m off n l i x :
  loads width m off n = Some l -> l.[i] = Some x -> load width m (off + width * i) = Some x.
Proof.
  unfold loads. intros Hl%mapM_Some Hi. pose proof (zget_Some_range _ _ _ Hi) as Hr.
  unfold zget in Hi. rewrite decide_True in Hi by lia.
  destruct (Forall2_lookup_r _ _ _ _ _ Hl Hi) as (j & Hj & E).
  apply lookup_seqZ in Hj as [-> _]. by replace i with (0 + Z.of_nat (Z.to_nat i)) by lia.
Qed.

(** The selection in a bitmap, from its rank index to the bit. *)
Lemma dense_selection l ws ri r z b0 fuel :
  dense_ok l ws ri -> increasing l -> Forall (fun x => 0 <= x) l -> l.[r] = Some z -> 1024 <= Z.of_nat fuel ->
  (lo ← Branchless.upperBound ri 128 r;
   r0 ← ri.[lo - 1];
   '(wordIdx, rankSoFar) ← wordOfRank fuel ws r (Z.shiftl (lo - 1) 3) r0;
   w ← ws.[wordIdx];
   Some (b0 + Z.shiftl wordIdx 6 + selectInWord w (r - rankSoFar))) = Some (b0 + z).
Proof.
  intros Hok Hinc Hpos Hz Hfuel. pose proof (zget_Some_range _ _ _ Hz) as Hr.
  pose proof Hok as (Hws & Hlen & _ & Hrl & Hri).
  destruct (owner_spec ri 128 r 0) as (lo & r0 & -> & Hlo & Hr0 & Hle & _);
    [by eapply rank_index_sorted|done|lia|rewrite Hri by lia|lia|].
  { rewrite count_lt_none; [done|]. intros v Hv. rewrite Forall_forall in Hpos. specialize (Hpos v Hv). lia. }
  opt. rewrite Hr0. opt. rewrite Hri in Hr0 by lia. rewrite (Z.shiftl_mul_pow2 _ 3) by lia. change (2 ^ 3) with 8.
  replace (512 * (lo - 1)) with (64 * ((lo - 1) * 8)) in Hr0 by lia. injection Hr0 as <-.
  destruct (wordOfRank_spec l ws ri r fuel ((lo - 1) * 8)) as (w & wd & -> & Hwd & Hrw); [done|done|lia|lia|done|lia|].
  opt. rewrite Hwd. opt. rewrite (dense_select l ws ri r w wd Hok Hinc Hwd Hrw) in Hz.
  injection Hz as <-. rewrite shiftl6. f_equal. lia.
Qed.

Lemma selectInBucket_spec bi b r z :
  bs.[bi] = Some b -> (lows b).[r] = Some z -> selectInBucket s bi r = Some (base b + z).
Proof.
  intros Hb Hz. pose proof (bkts_wf_at _ _ _ enc_wf Hb) as Hwf. pose proof Hwf as (_ & _ & Hinc & Hf).
  pose proof (zget_Some_range _ _ _ Hz) as Hr. destruct (enc_bucket bi b Hb) as (off & Hd & Hbk).
  unfold selectInBucket. rewrite Hd. opt. cbn [upperBits BitSet.size desc_offset]. rewrite base_shift by done.
  replace (zlen (lows b) - 1 + 1) with (zlen (lows b)) by lia. rewrite decide_True by lia.
  change BUCKET_SPARSE_MAX with 4096. destruct (decide (zlen (lows b) <= 4096)).
  - rewrite (loads_zget 2 (mem s) (start s + off) _ _ r z Hbk Hz). done.
  - destruct Hbk as (-> & ws & ri & -> & -> & Hok). opt. eapply dense_selection; [done|done| |done|by rewrite Z2Nat.id].
    eapply Forall_impl; [done|]. simpl. lia.
Qed.

(** The value of rank [before bi + r] is the [r]-th of bucket [bi]. *)
Lemma elements_zget bi b r z :
  bs.[bi] = Some b -> (lows b).[r] = Some z -> (elements bs).[before bs bi + r] = Some (base b + z).
Proof.
  intros Hb Hz. pose proof (zget_Some_range _ _ _ Hz).
  rewrite (bkts_split bs bi b Hb) at 1. rewrite elements_app, elements_cons.
  rewrite zget_app_r by (unfold before; lia). unfold before.
  replace (_ + r - _) with r by lia. rewrite zget_app_l by (unfold els; rewrite zlen_fmap; lia).
  unfold els. by rewrite zget_fmap, Hz.
Qed.

Lemma before_le i j : 0 <= i <= j -> before bs i <= before bs j.
Proof.
  intros Hij. unfold before. replace (Z.to_nat j) with (Z.to_nat i + (Z.to_nat j - Z.to_nat i))%nat by lia.
  rewrite <- take_take_drop, elements_app, zlen_app. pose proof (zlen_nonneg (elements (take (Z.to_nat j - Z.to_nat i) (drop (Z.to_nat i) bs)))). lia.
Qed.

Lemma before_all : before bs (zlen bs) = zlen (elements bs).
Proof. unfold before, zlen. by rewrite Nat2Z.id, firstn_all. Qed.

Lemma selectLoop_spec k n bi v :
  0 <= bi -> bi + Z.of_nat n = zlen bs -> before bs bi <= k -> (elements bs).[k] = Some v ->
  selectLoop s k n bi (before bs bi) = Some v.
Proof.
  revert bi. induction n as [|n IH]; intros bi Hbi Hn Hk Hv; cbn [selectLoop].
  - pose proof (zget_Some_range _ _ _ Hv). replace bi with (zlen bs) in Hk by lia. rewrite before_all in Hk. lia.
  - destruct (zget_in bs bi) as [b Hb]; [lia|]. destruct (enc_bucket bi b Hb) as (off & Hd & _).
    rewrite Hd. opt. cbn [upperBits BitSet.size desc_offset].
    replace (zlen (lows b) - 1 + 1) with (zlen (lows b)) by lia. case_decide as Hlt.
    + destruct (zget_in (lows b) (k - before bs bi)) as [z Hz]; [lia|].
      rewrite (selectInBucket_spec bi b _ z Hb Hz), <- Hv. symmetry.
      pose proof (elements_zget bi b _ z Hb Hz) as E. by replace (before bs bi + (k - before bs bi)) with k in E by lia.
    + rewrite <- (before_next bs bi b Hb). apply IH; try lia; [|done]. rewrite (before_next bs bi b Hb). lia.
Qed.

Lemma select_spec k v : (elements bs).[k] = Some v -> select s k = Some v.
Proof.
  intros Hv. pose proof (zget_Some_range _ _ _ Hv). unfold select. rewrite decide_True, enc_n by lia.
  rewrite <- (before_0 bs). pose proof (zlen_nonneg bs). apply selectLoop_spec; [lia|lia|rewrite before_0; lia|done].
Qed.

Lemma cardinality_spec : cardinality s = Some (zlen (elements bs)).
Proof.
  unfold cardinality. rewrite enc_n. pose proof (zlen_nonneg bs).
  destruct (foldM_seqZ (fun i c => c = before bs i) (fun c i => d ← descriptor s i; Some (c + (BitSet.size d + 1)))
    0 0 (zlen bs)) as (c & -> & ->); [lia|done| |by rewrite Z.add_0_l, before_all].
  intros i c Hi ->. destruct (zget_in bs i) as [b Hb]; [lia|]. destruct (enc_bucket i b Hb) as (off & Hd & _).
  rewrite Hd. opt. eexists. split; [done|]. rewrite (before_next bs i b Hb). simpl. lia.
Qed.

(** ** The selector *)

Lemma selector_make :
  exists x, Selector.make s = Some x /\ Selector.sel_set x = s /\
    zlen (Selector.bucketStartRank x) = zlen bs + 1 /\
    forall i, 0 <= i <= zlen bs -> (Selector.bucketStartRank x).[i] = Some (before bs i).
Proof.
  unfold Selector.make. rewrite enc_n. pose proof (zlen_nonneg bs).
  destruct (foldM_seqZ (fun n ranks => zlen ranks = n + 1 /\ forall i, 0 <= i <= n -> ranks.[i] = Some (before bs i))
    (fun ranks i => d ← descriptor s i; r ← ranks.[i]; Some (ranks ++ [r + BitSet.size d + 1])) [0] 0 (zlen bs))
    as (ranks & -> & Hl & Hr); [lia| | |by eexists].
  - split; [done|]. intros i Hi. by assert (i = 0) as -> by lia.
  - intros n ranks Hn [Hl Hr]. destruct (zget_in bs n) as [b Hb]; [lia|].
    destruct (enc_bucket n b Hb) as (off & Hd & _). rewrite Hd. opt. rewrite Hr by lia. opt.
    eexists. split; [done|]. split; [zlen; simpl; lia|]. intros i Hi. destruct (decide (i = n + 1)) as [->|].
    + rewrite zget_app_r by lia. replace (n + 1 - zlen ranks) with 0 by lia. rewrite zget_cons_0. f_equal.
      rewrite (before_next bs n b Hb). simpl. lia.
    + rewrite zget_app_l by lia. apply Hr. lia.
Qed.

Lemma selector_select x k v :
  Selector.make s = Some x -> (elements bs).[k] = Some v ->
  Selector.select x k = Some v /\ Selector.cardinality x = Some (zlen (elements bs)).
Proof.
  intros E Hv. destruct selector_make as (x' & E' & Hset & Hl & Hr). assert (x' = x) as -> by congruence.
  pose proof (zlen_nonneg bs). pose proof (zget_Some_range _ _ _ Hv) as Hk.
  assert (last (Selector.bucketStartRank x) = Some (zlen (elements bs))) as Hlast.
  { rewrite last_zget, Hl, Hr by lia. f_equal. replace (zlen bs + 1 - 1) with (zlen bs) by lia. apply before_all. }
  split; [|done]. unfold Selector.select. rewrite Hlast. opt. rewrite decide_True by lia.
  assert (zlen bs < 2 ^ 16) as Hnb.
  { pose proof enc_wf as [Hf Hi]. rewrite <- (zlen_fmap upper). apply Z.le_lt_trans with (2 ^ 15); [|done].
    apply increasing_bound; [done| |done]. apply Forall_fmap. eapply Forall_impl; [done|].
    intros b (Hu & _). exact Hu. }
  destruct (owner_spec (Selector.bucketStartRank x) (zlen (Selector.bucketStartRank x)) k 0)
    as (lo & r & -> & Hlo & Hr1 & Hle & Hnext); [idtac|done|lia|by rewrite Hr by lia|lia|].
  { apply nondecreasing_intro. intros i j a c Hij Ha Hc. pose proof (zget_Some_range _ _ _ Ha).
    pose proof (zget_Some_range _ _ _ Hc). rewrite Hr in Ha, Hc by lia. injection Ha as <-. injection Hc as <-.
    apply before_le. lia. }
  opt. rewrite Hr1. opt. rewrite Hset. rewrite Hr in Hr1 by lia. injection Hr1 as <-.
  destruct (decide (lo - 1 = zlen bs)) as [El|Hne].
  { rewrite El, before_all in Hle. lia. }
  destruct (zget_in bs (lo - 1)) as [b Hb]; [lia|]. specialize (Hnext _ (Hr lo ltac:(lia))).
  replace lo with (lo - 1 + 1) in Hnext by lia. rewrite (before_next bs (lo - 1) b Hb) in Hnext.
  destruct (zget_in (lows b) (k - before bs (lo - 1))) as [z Hz]; [lia|].
  rewrite (selectInBucket_spec _ b _ z Hb Hz), <- Hv. symmetry.
  pose proof (elements_zget _ b _ z Hb Hz) as Ez.
  by replace (before bs (lo - 1) + (k - before bs (lo - 1))) with k in Ez by lia.
Qed.

End select.

(** * Intersection *)

Section intersection.
Import BitSet.
Context (s : bitset) (bs : list bkt) `{!Encodes s bs}.
Context (other : FixedBitSet.fixed) (Hother : fixed_wf other).

Abbreviation hit := (fun v => bit (FixedBitSet.words other) v = true).

Lemma hit_bound v : bit (FixedBitSet.words other) v = true -> v < FixedBitSet.nbits other.
Proof.
  intros Hv. apply Z.nle_gt. intros Hle. destruct Hother as (_ & _ & _ & Hz). by rewrite Hz in Hv.
Qed.

Lemma hits_none l : (forall v, v ∈ l -> FixedBitSet.nbits other <= v) -> filter hit l = [].
Proof. intros H. apply filter_none. intros v Hv%H Hh%hit_bound. lia. Qed.

Lemma probeSparse_spec b0 values count :
  0 <= b0 -> increasing values -> Forall (fun x => 0 <= x) values ->
  probeSparse other b0 values count = Some (count + zlen (filter hit (Z.add b0 <$> values))).
Proof.
  intros Hb Hinc. revert count. induction Hinc as [|a l Hl IH Ha]; intros count Hf; cbn [probeSparse].
  { change (zlen (filter hit (Z.add b0 <$> []))) with 0. f_equal. lia. }
  apply Forall_cons in Hf as [Ha0 Hf]. rewrite Forall_forall in Ha. case_decide as Hd.
  - rewrite hits_none; [f_equal; change (zlen (@nil Z)) with 0; lia|].
    intros v (x & -> & [->|Hx%Ha]%elem_of_cons)%list_elem_of_fmap; lia.
  - rewrite fixed_get_spec by (done || lia). opt. rewrite IH by done. rewrite fmap_cons, filter_cons.
    f_equal. destruct (bit (FixedBitSet.words other) (b0 + a)); simpl; zlen.
Qed.

Lemma intersectDense_spec b ws ri count :
  bkt_wf b -> dense_ok (lows b) ws ri -> base b < FixedBitSet.nbits other ->
  intersectDense other (base b) ws count = Some (count + zlen (filter hit (els b))).
Proof.
  intros Hwf Hok Hlt. pose proof Hwf as (Hu & _ & Hinc & _). pose proof Hok as (Hws & Hlen & Hm & _).
  pose proof Hother as (Hn & Hows & Hol & _). pose proof (fixed_wf_len other Hother) as Holen.
  unfold intersectDense. rewrite shiftr6. assert (base b / 64 = 1024 * upper b) as ->.
  { unfold base. symmetry. apply (Z.div_unique _ _ _ 0); lia. }
  change Bits_fixedNumWords with 1024. unfold FixedBitSet.nwords in Hol. rewrite <- Hol.
  remember (Z.min 1024 (zlen (FixedBitSet.words other) - 1024 * upper b)) as last eqn:El.
  set (P := fun v => bit ws v && bit (FixedBitSet.words other) (base b + v)).
  destruct (foldM_seqZ (fun j c => c = count + zlen (filter (fun v => P v = true) (seqZ 0 (64 * j))))
    (fun count j => w ← ws.[j]; o ← (FixedBitSet.words other).[1024 * upper b + j];
       Some (count + popcount (Z.land w o))) count 0 last) as (c & -> & ->).
  - unfold base in *. lia.
  - rewrite seqZ_nil, filter_nil by lia. change (zlen (@nil Z)) with 0. lia.
  - intros j c Hj ->. destruct (zget_in ws j) as [w Hw]; [lia|]. rewrite Hw. opt.
    destruct (zget_in (FixedBitSet.words other) (1024 * upper b + j)) as [o Ho]; [lia|]. rewrite Ho. opt.
    eexists. split; [done|]. rewrite (members_word P j (Z.land w o)); [|lia|].
    + rewrite zlen_app, zlen_fmap, (popcount_bits_in 64); [lia|lia|].
      apply is_u_land; [lia|]. by apply (words_ok_at ws j).
    + intros k Hk. rewrite Z.land_spec. unfold P. rewrite (bit_at ws j k w) by done. f_equal.
      replace (base b + (64 * j + k)) with (64 * (1024 * upper b + j) + k) by (unfold base; lia).
      by rewrite (bit_at _ _ k o).
  - f_equal. f_equal. rewrite <- (zlen_fmap (Z.add (base b))). f_equal.
    apply increasing_ext; [apply increasing_add; auto with incr|apply increasing_filter; unfold els; auto with incr|].
    intros v. rewrite list_elem_of_fmap, list_elem_of_filter, elem_of_els.
    setoid_rewrite list_elem_of_filter. setoid_rewrite elem_of_seqZ. unfold P. split.
    + intros (x & -> & [Hx1 Hx2]%andb_true_iff & Hx). split; [done|]. exists x. split; [done|]. by apply Hm.
    + intros (Hv & x & -> & Hx). pose proof (bkt_wf_low b x Hwf Hx). exists x. split; [done|].
      split; [apply andb_true_iff; split; [by apply Hm|done]|]. apply hit_bound in Hv. unfold base in *. lia.
Qed.

Lemma intersectLoop_spec n i count :
  0 <= i -> i + Z.of_nat n = zlen bs ->
  intersectLoop s other n i count = Some (count + zlen (filter hit (elements (drop (Z.to_nat i) bs)))).
Proof.
  revert i count. induction n as [|n IH]; intros i count Hi Hn; cbn [intersectLoop].
  - rewrite drop_ge by (unfold zlen in Hn; lia). change (zlen (filter hit (elements []))) with 0. f_equal. lia.
  - destruct (zget_in bs i) as [b Hb]; [lia|]. destruct (enc_bucket i b Hb) as (off & Hd & Hbk).
    pose proof (bkts_wf_at _ _ _ enc_wf Hb) as Hwf. pose proof Hwf as (Hu & _ & Hinc & Hf).
    assert (drop (Z.to_nat i) bs = b :: drop (Z.to_nat (i + 1)) bs) as Hdrop.
    { unfold zget in Hb. rewrite decide_True in Hb by lia. rewrite (drop_S _ _ _ Hb).
      by replace (Z.to_nat (i + 1)) with (S (Z.to_nat i)) by lia. }
    rewrite Hd. opt. cbn [upperBits BitSet.size desc_offset]. rewrite base_shift by done.
    replace (zlen (lows b) - 1 + 1) with (zlen (lows b)) by lia. change BUCKET_SPARSE_MAX with 4096.
    destruct (decide (base b >= FixedBitSet.nbits other)) as [Hge|Hge].
    + rewrite hits_none; [by rewrite zlen_nil, Z.add_0_r|].
      intros v (c & Hc & Hv)%elem_of_elements. apply zget_elem in Hc as [j Hj].
      pose proof (zget_Some_range _ _ _ Hj). rewrite zget_drop in Hj by lia.
      apply (els_range c) in Hv; [|by eapply bkts_wf_at; [apply enc_wf|]].
      destruct (decide (j = 0)) as [->|].
      * rewrite Z.add_0_r, Hb in Hj. injection Hj as <-. lia.
      * pose proof (bkts_wf_lt bs i (i + j) b c enc_wf Hb Hj ltac:(lia)). lia.
    + assert ((if decide (zlen (lows b) <= 4096)
               then values ← sparseValues s off (zlen (lows b)); probeSparse other (base b) values count
               else words ← denseWords s off; intersectDense other (base b) words count)
              = Some (count + zlen (filter hit (els b)))) as ->.
      { destruct (decide (zlen (lows b) <= 4096)).
        - rewrite Hbk. opt. apply probeSparse_spec; [unfold base; lia|done|].
          eapply Forall_impl; [done|]. simpl. lia.
        - destruct Hbk as (_ & ws & ri & -> & _ & Hok). opt. eapply intersectDense_spec; [done|done|lia]. }
      opt. rewrite IH by lia. rewrite Hdrop, elements_cons, filter_app, zlen_app. f_equal. lia.
Qed.

Lemma intersection_spec :
  intersectionCardinality s other = Some (zlen (filter hit (elements bs))).
Proof.
  unfold intersectionCardinality. rewrite enc_n, intersectLoop_spec; [|lia|pose proof (zlen_nonneg bs); lia].
  change (Z.to_nat 0) with 0%nat. rewrite drop_0. f_equal.
Qed.

End intersection.

(** * Walks *)

Section walk.
Import BitSet Iterator.

(** A caller of the iterator: the moves it makes, and the value and the rank it sees
    after each, up to the end. *)
Inductive move := Next | Advance (target : Z).

Fixpoint walk (s : bitset) (it : iterator) (ms : list move) : option (list (Z * Z)) :=
  match ms with
  | [] => Some []
  | m :: ms =>
      '(v, it) ← match m with Next => next s it | Advance t => advance s t it end;
      if decide (v = END) then Some [(END, 0)]
      else r ← rank it; rest ← walk s it ms; Some ((v, r) :: rest)
  end.

(** The same moves on the sorted list of values, from the current value [c]. *)
Definition goal (c : Z) (m : move) : Z := match m with Next => c + 1 | Advance t => t end.

Fixpoint abstract_walk (vals : list Z) (c : Z) (ms : list move) : list (Z * Z) :=
  match ms with
  | [] => []
  | m :: ms =>
      match first_ge vals (goal c m) with
      | None => [(END, 0)]
      | Some v => (v, count_lt vals v) :: abstract_walk vals v ms
      end
  end.

(** Targets lie past the current value, as [advance] requires. *)
Fixpoint moves_ok (vals : list Z) (c : Z) (ms : list move) : Prop :=
  match ms with
  | [] => True
  | m :: ms =>
      c < goal c m <= END /\
      match first_ge vals (goal c m) with None => True | Some v => moves_ok vals v ms end
  end.

Lemma walk_spec s bs `{!Encodes s bs} it c ms :
  -1 <= c -> Forall (fun v => v < END) (elements bs) -> ready bs it c -> moves_ok (elements bs) c ms ->
  walk s it ms = Some (abstract_walk (elements bs) c ms).
Proof.
  intros Hc0 Hlt. revert it c Hc0. induction ms as [|m ms IH]; intros it c Hc0 Hr Hok; [done|].
  destruct Hok as [Hg Hok]. cbn [walk abstract_walk].
  assert (lands bs (goal c m) (match m with Next => next s it | Advance t => advance s t it end)) as Hl.
  { destruct m as [|t]; simpl in *; [by apply next_ready_lands|].
    apply (advance_lands s bs it c); [done|lia|unfold END in Hg; lia]. }
  unfold lands in Hl. rewrite Forall_forall in Hlt.
  destruct (first_ge (elements bs) (goal c m)) as [v|] eqn:Ev.
  - destruct Hl as (it' & bi & b & x & -> & Hp & Hv). opt.
    assert (v ∈ elements bs /\ goal c m <= v) as [Hin Hge].
    { apply first_ge_Some in Ev as (? & ? & _); [done|]. apply increasing_elements, enc_wf. }
    specialize (Hlt v Hin). rewrite decide_False by lia. rewrite (rank_spec s bs it' bi b x Hp), <- Hv. opt.
    rewrite (IH it' v); [done|lia| |done]. right. by exists bi, b, x.
  - destruct Hl as [it' ->]. done.
Qed.

End walk.
