(* ===== verification/ScreamingBuilder.v ===== *)
(** The builder of the serialized bitset of [luxir/util/screaming.h] and the end-to-end
    theorems: what [Builder] writes for a sorted sequence of values is read back by the
    iterator, the selections and the intersection of [Screaming]. *)

From S2P Require Import Prelude Search BitSets Screaming.

Module Builder.
Import BitSet.

(** The members of the builder; [values], [bits] and [rankIndexArr] are the two
    container buffers it is given, [fullScratch] the linked scratch buffers before the
    current one, and [out] what [writeBytes] has received. *)
Record builder := Build {
  values : list Z; bits : list Z; rankIndexArr : list Z;
  totalCard : Z; currBucket : Z; bucketSize : Z; numBuckets : Z; bucketIdx : Z; bucketStart : Z;
  fullScratch : list (list BucketDescriptor); scratch : list BucketDescriptor;
  out : list Z
}.

(** The constructor; the buffers hold arbitrary bytes. *)
Definition make (buf_sparse buf_words buf_rank : list Z) : builder :=
  Build buf_sparse buf_words buf_rank 0 0 0 0 0 0 [] [] [].

Definition descBytes (d : BucketDescriptor) : list Z :=
  store_le 2 (upperBits d) ++ store_le 2 (size d) ++ store_le 4 (desc_offset d).

Section builder.
Context (scratchSize : Z).

Definition maxDescriptors : Z := (scratchSize - 8) / 8.

(** The new descriptor goes to the current scratch buffer, or to a new one when it is full. *)
Definition pushDescriptor (d : BucketDescriptor) (b : builder) : builder :=
  let b := if decide (bucketIdx b >= maxDescriptors)
           then Build (values b) (bits b) (rankIndexArr b) (totalCard b) (currBucket b) (bucketSize b)
                  (numBuckets b) 0 (bucketStart b) (fullScratch b ++ [scratch b]) [] (out b)
           else b in
  Build (values b) (bits b) (rankIndexArr b) (totalCard b) (currBucket b) (bucketSize b)
    (numBuckets b) (bucketIdx b + 1) (bucketStart b) (fullScratch b)
    (take (Z.to_nat (bucketIdx b)) (scratch b) ++ [d]) (out b).

(** The rank of the eight words from word [i]. *)
Definition groupRank (words : list Z) (i : Z) : option Z :=
  foldM (fun rank j => w ← words.[j]; Some (rank + popcount w)) 0 (seqZ i (Z.shiftl 1 RANK_INDEX_SHIFT)).

(** The rank index: the loop over the groups of words but the last. *)
Definition fillRankIndex (words arr : list Z) : option (list Z) :=
  let wordsPerCount := Z.shiftl 1 RANK_INDEX_SHIFT in
  arr ← zset arr 0 0;
  '(_, arr) ← foldM (fun '(cumulativeRank, arr) i =>
      rank ← groupRank words i;
      let cumulativeRank := u16 (cumulativeRank + rank) in
      arr ← zset arr (Z.shiftr i RANK_INDEX_SHIFT + 1) cumulativeRank;
      Some (cumulativeRank, arr))
    (0, arr) (Z.mul wordsPerCount <$> seqZ 0 ((Bits_fixedNumWords - wordsPerCount) / wordsPerCount));
  Some arr.

Definition flushBucket (b : builder) : option builder :=
  if decide (bucketSize b = 0) then Some b
  else
    let b := pushDescriptor (Descriptor (u16 (currBucket b)) (u16 (bucketSize b - 1)) (bucketStart b)) b in
    if decide (bucketSize b <= BUCKET_SPARSE_MAX) then
      let writeSize := bucketSize b * 2 in
      if decide (bucketSize b <= zlen (values b)) then
        let bytes := take (Z.to_nat (bucketSize b)) (values b) ≫= store_le 2 in
        let pad := Z.land (BLOCK_ALIGN - Z.land writeSize (BLOCK_ALIGN - 1)) (BLOCK_ALIGN - 1) in
        Some (Build (values b) (bits b) (rankIndexArr b) (totalCard b) (currBucket b) 0
                (u32 (numBuckets b + 1)) (bucketIdx b) (u32 (bucketStart b + (writeSize + pad)))
                (fullScratch b) (scratch b) (out b ++ bytes ++ replicate (Z.to_nat pad) 0))
      else None
    else
      words ← foldM (fun words i => v ← (values b).[i]; OpenBitSet.set Bits_fixedSize words v)
                (bits b) (seqZ 0 BUCKET_SPARSE_MAX);
      arr ← fillRankIndex words (rankIndexArr b);
      Some (Build (values b) words arr (totalCard b) (currBucket b) 0
              (u32 (numBuckets b + 1)) (bucketIdx b) (u32 (bucketStart b + DENSE_CONTAINER_SIZE))
              (fullScratch b) (scratch b) (out b ++ (words ≫= store_le 8) ++ (arr ≫= store_le 2))).

(** [add], first part: a value of a later bucket flushes the current one. *)
Definition openBucket (bucket : Z) (b : builder) : option builder :=
  if decide (bucket <> currBucket b) then
    if decide (bucket > currBucket b) then
      b ← flushBucket b;
      Some (Build (values b) (bits b) (rankIndexArr b) (totalCard b) (u32 bucket) 0
              (numBuckets b) (bucketIdx b) (bucketStart b) (fullScratch b) (scratch b) (out b))
    else None
  else Some b.

Definition add (b : builder) (val : Z) : option builder :=
  b ← openBucket (Z.shiftr val BUCKET_BITS) b;
  let lowerBits := u16 val in
  '(vs, ws) ←
    (if decide (bucketSize b >= BUCKET_SPARSE_MAX) then
       ws ← (if decide (bucketSize b = BUCKET_SPARSE_MAX)
             then OpenBitSet.clear Bits_fixedSize (bits b) else Some (bits b));
       ws ← OpenBitSet.set Bits_fixedSize ws lowerBits;
       Some (values b, ws)
     else vs ← zset (values b) (bucketSize b) lowerBits; Some (vs, bits b));
  Some (Build vs ws (rankIndexArr b) (totalCard b + 1) (currBucket b) (u32 (bucketSize b + 1))
          (numBuckets b) (bucketIdx b) (bucketStart b) (fullScratch b) (scratch b) (out b)).

Definition cardinality (b : builder) : Z := u32 (totalCard b).

(** The loop that writes the descriptors, following the chain of scratch buffers;
    it returns the bytes written. *)
Fixpoint flushDescriptors (fuel : nat) (chain : list (list BucketDescriptor)) (n nDescriptors : Z)
    : option (list Z) :=
  if decide (nDescriptors < n) then
    match fuel, chain with
    | S fuel, buf :: rest =>
        let descriptorsInBuffer := Z.min maxDescriptors (n - nDescriptors) in
        if decide (descriptorsInBuffer <= zlen buf) then
          more ← flushDescriptors fuel (match rest with [] => [buf] | _ => rest end) n
                   (nDescriptors + maxDescriptors);
          Some ((take (Z.to_nat descriptorsInBuffer) buf ≫= descBytes) ++ more)
        else None
    | _, _ => None
    end
  else Some [].

(** [flush]: the total size of the set, and the builder with all of it written. *)
Definition flush (b : builder) : option (Z * builder) :=
  b ← flushBucket b;
  ds ← flushDescriptors (Z.to_nat (numBuckets b)) (fullScratch b ++ [scratch b]) (numBuckets b) 0;
  let shortNumBuckets := u16 (numBuckets b) in
  let totalSize := u32 (bucketStart b + zlen ds + 2) in
  Some (totalSize, Build (values b) (bits b) (rankIndexArr b) (totalCard b) (currBucket b) (bucketSize b)
          (numBuckets b) (bucketIdx b) (bucketStart b) (fullScratch b) (scratch b)
          (out b ++ ds ++ store_le 2 shortNumBuckets)).

End builder.

End Builder.

(** * The byte layout *)

Section layout.
Import BitSet.

Lemma zlen_bind_store n (l : list Z) : 0 <= n -> zlen (l ≫= store_le n) = n * zlen l.
Proof.
  intros Hn. induction l as [|x l IH]; [unfold zlen; simpl; lia|]. rewrite bind_cons, zlen_app, IH, zlen_store_le by done. zlen.
Qed.

Lemma loads_store width pre l post :
  0 < width -> Forall (is_u (8 * width)) l ->
  loads width (pre ++ (l ≫= store_le width) ++ post) (zlen pre) (zlen l) = Some l.
Proof.
  intros Hw Hl. unfold loads. apply mapM_Some. apply Forall2_same_length_lookup_2.
  { rewrite length_seqZ. unfold zlen. lia. }
  intros i x y Hx Hy. apply lookup_seqZ in Hx as [-> Hi]. rewrite Z.add_0_l.
  rewrite <- (take_drop_middle l i y Hy) at 1. rewrite bind_app, bind_cons, <- !app_assoc.
  replace (zlen pre + width * Z.of_nat i) with (zlen (pre ++ (take i l ≫= store_le width))).
  2: { rewrite zlen_app, zlen_bind_store by lia. unfold zlen. rewrite length_take.
       apply lookup_lt_Some in Hy. by rewrite Nat.min_l by lia. }
  rewrite app_assoc, load_store by lia. f_equal. apply uwrap_id.
  rewrite Forall_forall in Hl. apply Hl. by eapply list_elem_of_lookup_2.
Qed.

(** The bytes of a bucket. *)
Definition block_ok (b : bkt) (blk : list Z) : Prop :=
  if decide (zlen (lows b) <= 4096)
  then exists pad, 0 <= pad < 8 /\ (2 * zlen (lows b) + pad) `mod` 8 = 0 /\
         blk = (lows b ≫= store_le 2) ++ replicate (Z.to_nat pad) 0
  else exists ws ri, blk = (ws ≫= store_le 8) ++ (ri ≫= store_le 2) /\ dense_ok (lows b) ws ri.

Lemma block_bytes sz off u : 0 < sz ->
  blockBytes (Descriptor u (sz - 1) off) =
  if decide (sz <= 4096) then 8 * ((2 * sz + 7) / 8) else 8448.
Proof.
  intros Hsz. unfold blockBytes. cbn [BitSet.size]. replace (sz - 1 + 1) with sz by lia.
  change BUCKET_SPARSE_MAX with 4096. case_decide; [|done].
  change (BLOCK_ALIGN - 1) with (Z.ones 3). rewrite <- Z.ldiff_land, Z.ldiff_ones_r by lia.
  rewrite Z.shiftl_mul_pow2, Z.shiftr_div_pow2 by lia. change (2 ^ 3) with 8. change BLOCK_ALIGN with 8.
  replace (sz * 2 + 8 - 1) with (2 * sz + 7) by lia. lia.
Qed.

Lemma block_len b blk u off :
  block_ok b blk -> 0 < zlen (lows b) ->
  zlen blk = blockBytes (Descriptor u (zlen (lows b) - 1) off) /\ zlen blk `mod` 8 = 0 /\ 0 <= zlen blk <= 8448.
Proof.
  intros Hb Hpos. rewrite block_bytes by done. unfold block_ok in Hb. case_decide as Hs.
  - destruct Hb as (pad & Hp & Hm & ->). rewrite zlen_app, zlen_bind_store, zlen_replicate, Z2Nat.id by lia.
    pose proof (Z.div_mod (2 * zlen (lows b) + pad) 8 ltac:(lia)).
    assert ((2 * zlen (lows b) + 7) / 8 = (2 * zlen (lows b) + pad) / 8) as ->.
    { symmetry. apply (Z.div_unique _ _ _ (7 - pad)); lia. }
    split_and!; lia.
  - destruct Hb as (ws & ri & -> & (_ & Hw & _ & Hr & _)).
    rewrite zlen_app, !zlen_bind_store, Hw, Hr by lia. by split_and!.
Qed.

(** The buckets [bs] with their descriptors and their blocks, from offset [off] on. *)
Inductive laid : Z -> list bkt -> list BucketDescriptor -> list Z -> Prop :=
  | laid_nil off : laid off [] [] []
  | laid_cons off b bs d ds blk rest :
      d = Descriptor (upper b) (zlen (lows b) - 1) off -> block_ok b blk ->
      laid (off + zlen blk) bs ds rest -> laid off (b :: bs) (d :: ds) (blk ++ rest).

Lemma laid_snoc off bs ds bytes b blk :
  laid off bs ds bytes -> block_ok b blk ->
  laid off (bs ++ [b]) (ds ++ [Descriptor (upper b) (zlen (lows b) - 1) (off + zlen bytes)]) (bytes ++ blk).
Proof.
  intros Hl Hb. induction Hl as [off|off b' bs d ds blk' rest -> Hb' Hl IH].
  - rewrite <- (app_nil_r blk). rewrite (app_nil_l (blk ++ [])). change (zlen (@nil Z)) with 0. rewrite Z.add_0_r.
    apply (laid_cons off b [] _ [] blk []); [done|done|constructor].
  - cbn [app]. rewrite <- app_assoc. constructor; [done|done|].
    rewrite zlen_app, Z.add_assoc. apply IH.
Qed.

Lemma laid_length off bs ds bytes : laid off bs ds bytes -> length ds = length bs.
Proof. induction 1 as [|off b bs d ds blk rest _ _ _ IH]; simpl; congruence. Qed.

(** A block at its place. *)
Lemma laid_at off bs ds bytes i b :
  laid off bs ds bytes -> bs.[i] = Some b -> Forall (fun b => 0 < zlen (lows b)) bs -> off `mod` 8 = 0 ->
  exists pre blk post, bytes = pre ++ blk ++ post /\ block_ok b blk /\ (off + zlen pre) `mod` 8 = 0 /\
    ds.[i] = Some (Descriptor (upper b) (zlen (lows b) - 1) (off + zlen pre)) /\
    (i = zlen bs - 1 -> post = []).
Proof.
  intros Hl. revert i. induction Hl as [off|off c bs d ds blk rest Hd Hb Hl IH]; intros i Hi Hpos Hoff.
  { by apply zget_elem_1, not_elem_of_nil in Hi. }
  apply Forall_cons in Hpos as [Hc Hpos]. pose proof (zget_Some_range _ _ _ Hi) as Hr.
  destruct (decide (i = 0)) as [->|].
  - rewrite zget_cons_0 in Hi. injection Hi as ->. exists [], blk, rest.
    change (zlen (@nil Z)) with 0. rewrite Z.add_0_r, zget_cons_0. split_and!; [done|done|done|by subst|].
    intros E. rewrite zlen_cons in E. inversion Hl; subst; [done|]. rewrite zlen_cons in E.
    pose proof (zlen_nonneg bs0). lia.
  - rewrite !zget_cons_pos in * by lia. destruct (block_len c blk (upper c) off Hb Hc) as (_ & Hm & _).
    destruct (IH (i - 1) Hi Hpos) as (pre & blk' & post & -> & Hok & Hm' & Hds & Hlast).
    { rewrite Z.add_mod, Hoff, Hm by lia. done. }
    exists (blk ++ pre), blk', post. rewrite zlen_app, Z.add_assoc. split_and!; try done.
    + by rewrite <- !app_assoc.
    + intros E. apply Hlast. rewrite zlen_cons in E. lia.
Qed.

Lemma laid_size off bs ds bytes :
  laid off bs ds bytes -> Forall (fun b => 0 < zlen (lows b)) bs -> 0 <= zlen bytes <= 8448 * zlen bs.
Proof.
  induction 1 as [|off b bs d ds blk rest _ Hb _ IH]; intros Hpos; [done|].
  apply Forall_cons in Hpos as [Hb0 Hpos]. destruct (block_len b blk 0 0 Hb Hb0) as (_ & _ & Hlen).
  rewrite zlen_app, zlen_cons. specialize (IH Hpos). lia.
Qed.

Definition desc_wf (d : BucketDescriptor) : Prop :=
  is_u 16 (upperBits d) /\ is_u 16 (size d) /\ is_u 32 (desc_offset d).

Lemma zlen_descBytes d : zlen (Builder.descBytes d) = 8.
Proof. unfold Builder.descBytes. rewrite !zlen_app, !zlen_store_le by lia. lia. Qed.

Lemma zlen_bind_desc ds : zlen (ds ≫= Builder.descBytes) = 8 * zlen ds.
Proof.
  induction ds as [|d ds IH]; [done|]. rewrite bind_cons, zlen_app, IH, zlen_descBytes, zlen_cons. lia.
Qed.

Lemma load_at n m p pre v post :
  m = pre ++ store_le n v ++ post -> zlen pre = p -> 0 <= n -> is_u (8 * n) v -> load n m p = Some v.
Proof. intros -> <- Hn Hv. rewrite load_store by done. f_equal. by apply uwrap_id. Qed.

Lemma descriptorAt_spec pre ds post i d :
  ds.[i] = Some d -> desc_wf d ->
  descriptorAt (pre ++ (ds ≫= Builder.descBytes) ++ post) (zlen pre) i = Some d.
Proof.
  intros Hi (Hu & Hs & Ho). pose proof (zget_Some_range _ _ _ Hi) as Hr. unfold zget in Hi.
  rewrite decide_True in Hi by lia. unfold descriptorAt. cbv zeta.
  rewrite <- (take_drop_middle ds _ d Hi). rewrite bind_app, bind_cons.
  remember (take (Z.to_nat i) ds ≫= Builder.descBytes) as before_ eqn:Eb.
  remember (drop (S (Z.to_nat i)) ds ≫= Builder.descBytes) as after_ eqn:Ea.
  assert (zlen before_ = 8 * i) as Hb.
  { subst before_. rewrite zlen_bind_desc. unfold zlen in *. rewrite length_take. lia. }
  unfold Builder.descBytes. destruct d as [u sz o]. cbn [upperBits BitSet.size desc_offset] in *.
  rewrite (load_at 2 _ (zlen pre + 8 * i) (pre ++ before_) u (store_le 2 sz ++ store_le 4 o ++ after_ ++ post));
    [|by rewrite <- !app_assoc|zlen|lia|done]. opt.
  rewrite (load_at 2 _ (zlen pre + 8 * i + 2) (pre ++ before_ ++ store_le 2 u) sz (store_le 4 o ++ after_ ++ post));
    [|by rewrite <- !app_assoc|zlen|lia|done]. opt.
  rewrite (load_at 4 _ (zlen pre + 8 * i + 4) (pre ++ before_ ++ store_le 2 u ++ store_le 2 sz) o (after_ ++ post));
    [|by rewrite <- !app_assoc|zlen|lia|done]. opt. done.
Qed.

(** ** The image of a set *)

Definition image (bs : list bkt) (ds : list BucketDescriptor) (bytes : list Z) : list Z :=
  bytes ++ (ds ≫= Builder.descBytes) ++ store_le 2 (zlen bs).

Lemma bkts_pos bs : bkts_wf bs -> Forall (fun b => 0 < zlen (lows b)) bs.
Proof.
  intros [Hf _]. eapply Forall_impl; [done|]. intros b (_ & Hne & _). destruct (lows b); [done|].
  rewrite zlen_cons. pose proof (zlen_nonneg l). lia.
Qed.

Lemma bkts_count bs : bkts_wf bs -> zlen bs <= 2 ^ 15.
Proof.
  intros [Hf Hi]. rewrite <- (zlen_fmap upper). apply increasing_bound; [done| |done].
  apply Forall_fmap. eapply Forall_impl; [done|]. by intros b (Hu & _).
Qed.

Section read.
Context (pre post : list Z) (bs : list bkt) (ds : list BucketDescriptor) (bytes : list Z).
Context (Hwf : bkts_wf bs) (Hlaid : laid 0 bs ds bytes) (Halign : zlen pre `mod` 8 = 0).

Let m := pre ++ image bs ds bytes ++ post.

Lemma desc_at i b :
  bs.[i] = Some b ->
  exists p blk q, bytes = p ++ blk ++ q /\ block_ok b blk /\ zlen p `mod` 8 = 0 /\
    descriptorAt m (zlen pre + zlen bytes) i = Some (Descriptor (upper b) (zlen (lows b) - 1) (zlen p)) /\
    (i = zlen bs - 1 -> q = []).
Proof.
  intros Hb. destruct (laid_at 0 bs ds bytes i b Hlaid Hb (bkts_pos bs Hwf) eq_refl)
    as (p & blk & q & E & Hok & Hm & Hds & Hlast).
  rewrite Z.add_0_l in *. exists p, blk, q. split_and!; try done.
  pose proof (bkts_wf_at _ _ _ Hwf Hb) as Hbw. pose proof (bkts_count bs Hwf).
  destruct (laid_size 0 bs ds bytes Hlaid (bkts_pos bs Hwf)) as [_ Hsz].
  unfold m, image. replace (pre ++ (bytes ++ (ds ≫= Builder.descBytes) ++ store_le 2 (zlen bs)) ++ post)
    with ((pre ++ bytes) ++ (ds ≫= Builder.descBytes) ++ store_le 2 (zlen bs) ++ post) by (by rewrite <- !app_assoc).
  rewrite <- zlen_app. apply descriptorAt_spec; [done|].
  pose proof (lows_bound b Hbw). destruct Hbw as (Hu & Hne & _).
  assert (0 < zlen (lows b)) by (destruct (lows b); [done|rewrite zlen_cons; pose proof (zlen_nonneg l); lia]).
  unfold desc_wf, is_u. simpl upperBits. simpl BitSet.size. simpl desc_offset. split_and!; try lia.
  - apply zlen_nonneg.
  - rewrite E, !zlen_app in Hsz. pose proof (zlen_nonneg blk). pose proof (zlen_nonneg q). lia.
Qed.

Lemma aligned_at p : p `mod` 8 = 0 -> assertAligned p = Some ().
Proof.
  intros Hp. unfold assertAligned. change (BLOCK_ALIGN - 1) with (Z.ones 3).
  rewrite Z.land_ones by lia. by rewrite decide_True.
Qed.

Definition view : bitset := BitSetView m (zlen pre) (zlen pre + zlen bytes) (zlen bs).

Lemma set_view : BitSet.set m (zlen pre + zlen (image bs ds bytes)) = Some view.
Proof.
  pose proof (bkts_count bs Hwf). pose proof (zlen_nonneg bs). unfold BitSet.set, image.
  rewrite !zlen_app, zlen_bind_desc, zlen_store_le by lia.
  assert (zlen ds = zlen bs) as Hl by (unfold zlen; by rewrite (laid_length _ _ _ _ Hlaid)). rewrite Hl.
  rewrite (load_at 2 m _ (pre ++ bytes ++ (ds ≫= Builder.descBytes)) (zlen bs) post).
  2: { unfold m, image. by rewrite <- !app_assoc. }
  2: { rewrite !zlen_app, zlen_bind_desc. lia. }
  2: { lia. }
  2: { unfold is_u. lia. }
  opt. replace (zlen pre + (zlen bytes + (8 * zlen bs + 2)) - 2 - zlen bs * 8) with (zlen pre + zlen bytes) by lia.
  unfold view. case_decide as Hn.
  - assert (bytes = []) as Eb.
    { destruct bs as [|b l]; [by inversion Hlaid|]. rewrite zlen_cons in Hn. pose proof (zlen_nonneg l). lia. }
    rewrite Eb. change (zlen (@nil Z)) with 0. by rewrite Z.add_0_r.
  - destruct (zget_in bs (zlen bs - 1)) as [b Hb]; [lia|].
    destruct (desc_at _ _ Hb) as (p & blk & q & E & Hok & Hm & -> & Hlast). opt.
    specialize (Hlast eq_refl) as ->. rewrite app_nil_r in E.
    destruct (block_len b blk (upper b) (zlen p) Hok) as (<- & _ & _).
    { destruct (bkts_wf_at _ _ _ Hwf Hb) as (_ & Hne & _). destruct (lows b); [done|].
      rewrite zlen_cons. pose proof (zlen_nonneg l). lia. }
    cbn [desc_offset]. replace (zlen pre + zlen bytes - (zlen p + zlen blk)) with (zlen pre)
      by (rewrite E, zlen_app; lia).
    by rewrite aligned_at.
Qed.

Lemma dense_ok_u16 l ws ri : dense_ok l ws ri -> increasing l -> Forall (is_u (8 * 2)) ri.
Proof.
  intros Hok Hinc. pose proof Hok as (_ & _ & _ & Hl & Hri). rewrite Forall_forall. intros x [i Hi]%zget_elem.
  pose proof (zget_Some_range _ _ _ Hi). rewrite Hri in Hi by lia. injection Hi as <-.
  pose proof (dense_count_le l ws ri Hok Hinc (512 * i) ltac:(lia)). unfold is_u. lia.
Qed.

Lemma view_encodes : Encodes view bs.
Proof.
  split; [done|done|]. intros i b Hb. destruct (desc_at i b Hb) as (p & blk & q & E & Hok & Hm & Hd & _).
  exists (zlen p). split; [exact Hd|]. pose proof (bkts_wf_at _ _ _ Hwf Hb) as (Hu & Hne & Hinc & Hf).
  assert (m = (pre ++ p) ++ blk ++ (q ++ (ds ≫= Builder.descBytes) ++ store_le 2 (zlen bs) ++ post)) as Em.
  { unfold m, image. rewrite E. by rewrite <- !app_assoc. }
  unfold sparseValues, denseWords, denseRankIndex, view. cbn [mem start]. rewrite Em, <- zlen_app.
  unfold block_ok in Hok. case_decide.
  - destruct Hok as (pad & _ & _ & ->). rewrite <- (app_assoc (lows b ≫= store_le 2)). apply loads_store; [lia|].
    eapply Forall_impl; [done|]. simpl. unfold is_u. lia.
  - destruct Hok as (ws & ri & -> & Hok). pose proof Hok as (Hws & Hwl & _ & Hrl & _). split.
    { apply aligned_at. rewrite zlen_app, Z.add_mod, Halign, Hm by lia. done. }
    exists ws, ri. split; [|split; [|done]].
    + change Bits_fixedNumWords with 1024. rewrite <- Hwl, <- (app_assoc (ws ≫= store_le 8)).
      apply loads_store; [lia|done].
    + change RANK_INDEX_ENTRIES with 128. change Bits_sizeInBytes with (8 * 1024).
      rewrite <- Hrl, <- Hwl, <- (zlen_bind_store 8 ws), <- zlen_app by lia.
      rewrite <- (app_assoc (ws ≫= store_le 8)), (app_assoc (pre ++ p)).
      apply loads_store; [lia|]. by eapply dense_ok_u16.
Qed.

End read.

End layout.

(** * The builder's invariant *)

Section builder.
Import BitSet Builder.
Context (scratchSize : Z) (Hscratch : 16 <= scratchSize).

(** The current bucket, once it has a value. *)
Definition open_bkt (b : builder) (l : list Z) : list bkt :=
  match l with [] => [] | _ => [Bkt (currBucket b) l] end.

Record inv (b : builder) (bs : list bkt) (l : list Z) (ds : list BucketDescriptor) : Prop := {
  inv_values : zlen (values b) = 4096;
  inv_bits : words_ok (bits b) /\ zlen (bits b) = 1024;
  inv_ranks : zlen (rankIndexArr b) = 128;
  inv_size : bucketSize b = zlen l;
  inv_sparse : forall j x, j < 4096 -> l.[j] = Some x -> (values b).[j] = Some x;
  inv_dense : 4096 < zlen l -> forall i, bit (bits b) i = true <-> i ∈ drop 4096 l;
  inv_num : numBuckets b = zlen bs;
  inv_start : bucketStart b = zlen (out b);
  inv_laid : laid 0 bs ds (out b);
  inv_descs : ds = concat (fullScratch b) ++ scratch b;
  inv_full : Forall (fun c => zlen c = maxDescriptors scratchSize) (fullScratch b);
  inv_idx : bucketIdx b = zlen (scratch b) /\ bucketIdx b <= maxDescriptors scratchSize;
  inv_curr : 0 <= currBucket b < 2 ^ 15;
  inv_wf : bkts_wf (bs ++ open_bkt b l);
  inv_card : totalCard b = zlen (elements (bs ++ open_bkt b l));
}.

Lemma maxDescriptors_pos : 1 <= maxDescriptors scratchSize.
Proof. unfold maxDescriptors. apply Z.div_le_lower_bound; lia. Qed.

(** ** The rank index *)

Section ranks.
Context (l ws : list Z) (Hinc : increasing l) (Hws : words_ok ws) (Hlen : zlen ws = 1024).
Context (Hbits : forall i, bit ws i = true <-> i ∈ l).

Lemma dense_ok_exact : dense_ok l ws ((fun m => count_lt l (512 * m)) <$> seqZ 0 128).
Proof.
  split_and!; [done|done|apply Hbits|done|]. intros m Hm.
  by rewrite zget_fmap, zget_seqZ by lia.
Qed.

Lemma groupRank_spec i : 0 <= i -> i + 8 <= 1024 ->
  groupRank ws i = Some (count_lt l (64 * (i + 8)) - count_lt l (64 * i)).
Proof.
  intros Hi Hi8. unfold groupRank. change (Z.shiftl 1 RANK_INDEX_SHIFT) with 8.
  destruct (foldM_seqZ (fun k r => r = count_lt l (64 * k) - count_lt l (64 * i))
    (fun rank j => w ← ws.[j]; Some (rank + popcount w)) 0 i 8) as (r & -> & ->); [lia|lia| |done].
  intros k r Hk ->. destruct (zget_in ws k) as [w Hw]; [lia|]. rewrite Hw. opt. eexists. split; [done|].
  rewrite (dense_count_word l ws _ dense_ok_exact Hinc k w Hw). lia.
Qed.

Lemma fillRankIndex_spec arr :
  zlen arr = 128 -> exists arr', fillRankIndex ws arr = Some arr' /\ dense_ok l ws arr'.
Proof.
  intros Harr. unfold fillRankIndex. change (Z.shiftl 1 RANK_INDEX_SHIFT) with 8.
  change ((Bits_fixedNumWords - 8) / 8) with 127. rewrite zset_in by lia. opt.
  rewrite foldM_fmap.
  match goal with |- context [foldM ?f ?s0 (seqZ 0 127)] =>
    destruct (foldM_seqZ (fun m '(cum, a) => cum = count_lt l (512 * m) /\ zlen a = 128 /\
      forall j, 0 <= j <= m -> a.[j] = Some (count_lt l (512 * j))) f s0 0 127)
      as ([cum a] & E & Hc & Hla & Ha)
  end.
  - lia.
  - assert (count_lt l (512 * 0) = 0) as H0.
    { pose proof (dense_count_le l ws _ dense_ok_exact Hinc (512 * 0) ltac:(lia)). lia. }
    split_and!; [done|by rewrite zlen_insert|]. intros j Hj. assert (j = 0) as -> by lia.
    rewrite zget_insert by lia. rewrite decide_True by lia. by rewrite H0.
  - intros m [cum a] Hm (-> & Hla & Ha). rewrite groupRank_spec by lia. opt.
    replace (64 * (8 * m + 8)) with (512 * (m + 1)) by lia. replace (64 * (8 * m)) with (512 * m) by lia.
    assert (Z.shiftr (8 * m) RANK_INDEX_SHIFT = m) as ->.
    { rewrite Z.shiftr_div_pow2 by done. change (2 ^ RANK_INDEX_SHIFT) with 8. rewrite Z.mul_comm. by apply Z.div_mul. }
    replace (count_lt l (512 * m) + (count_lt l (512 * (m + 1)) - count_lt l (512 * m)))
      with (count_lt l (512 * (m + 1))) by lia.
    rewrite uwrap_id.
    2: { pose proof (dense_count_le l ws _ dense_ok_exact Hinc (512 * (m + 1)) ltac:(lia)). unfold is_u. lia. }
    rewrite zset_in by lia. opt. eexists. split; [done|]. split_and!; [done|by rewrite zlen_insert|].
    intros j Hj. rewrite zget_insert by lia. case_decide as Hjm; [by rewrite <- Hjm|]. apply Ha. lia.
  - exists a. rewrite E. opt. split; [done|].
    split_and!; [done|done|apply Hbits|done|]. intros m Hm. apply Ha. lia.
Qed.

End ranks.

(** ** Flushing a bucket *)

Lemma pushDescriptor_eq d b :
  exists full sc idx, pushDescriptor scratchSize d b =
    Build (values b) (bits b) (rankIndexArr b) (totalCard b) (currBucket b) (bucketSize b)
      (numBuckets b) idx (bucketStart b) full sc (out b) /\
    (Forall (fun c => zlen c = maxDescriptors scratchSize) (fullScratch b) ->
     bucketIdx b = zlen (scratch b) /\ bucketIdx b <= maxDescriptors scratchSize ->
     Forall (fun c => zlen c = maxDescriptors scratchSize) full /\
     (idx = zlen sc /\ idx <= maxDescriptors scratchSize) /\
     concat full ++ sc = (concat (fullScratch b) ++ scratch b) ++ [d]).
Proof.
  pose proof maxDescriptors_pos as Hmax. unfold pushDescriptor. case_decide as Hd;
    do 3 eexists; (split; [reflexivity|]); intros Hf [Hi Hle]; simpl.
  - split; [|split].
    + apply Forall_app. split; [done|]. apply Forall_singleton. lia.
    + change (zlen [d]) with 1. lia.
    + rewrite concat_app. simpl. by rewrite app_nil_r.
  - rewrite take_ge by (unfold zlen in Hi; lia). split; [done|]. split; [zlen; simpl; lia|]. by rewrite app_assoc.
Qed.

(** The words of a dense bucket, once the buffered values are added to them. *)
Lemma fill_words b bs l ds :
  inv b bs l ds -> 4096 < zlen l -> Forall (fun x => 0 <= x < 65536) l ->
  exists ws, foldM (fun words i => v ← (values b).[i]; OpenBitSet.set Bits_fixedSize words v)
      (bits b) (seqZ 0 BUCKET_SPARSE_MAX) = Some ws /\
    words_ok ws /\ zlen ws = 1024 /\ forall i, bit ws i = true <-> i ∈ l.
Proof.
  intros Hinv Hbig Hf. destruct (inv_bits _ _ _ _ Hinv) as [Hok Hlen]. rewrite Forall_forall in Hf.
  change BUCKET_SPARSE_MAX with 4096.
  match goal with |- context [foldM ?f ?s0 (seqZ 0 4096)] =>
    destruct (foldM_seqZ (fun k ws => words_ok ws /\ zlen ws = 1024 /\
      forall i, bit ws i = true <-> i ∈ drop 4096 l \/ exists j, 0 <= j < k /\ l.[j] = Some i) f s0 0 4096)
      as (ws & E & Hok' & Hlen' & Hb)
  end.
  - lia.
  - split_and!; [done|done|]. intros i. rewrite (inv_dense _ _ _ _ Hinv Hbig). split; [tauto|].
    intros [Hi|(j & Hj & _)]; [done|lia].
  - intros k ws Hk (Hok' & Hlen' & Hb). destruct (zget_in l k) as [x Hx]; [lia|].
    rewrite (inv_sparse _ _ _ _ Hinv k x) by (done || lia). opt.
    pose proof (Hf x (zget_elem_1 _ _ _ Hx)) as Hxr.
    destruct (set_spec Bits_fixedSize ws x) as (ws' & -> & Hok2 & Hlen2 & Hb2); [done|done|lia|].
    eexists. split; [done|]. split_and!; [done|lia|]. intros i.
    rewrite Hb2, orb_true_iff, Hb, bool_decide_eq_true. split.
    + intros [[Hi|(j & Hj & Hi)]| ->]; [by left|right; exists j; split; [lia|done]|right; exists k; split; [lia|done]].
    + intros [Hi|(j & Hj & Hi)]; [tauto|]. destruct (decide (j = k)) as [->|].
      * right. congruence.
      * left. right. exists j. split; [lia|done].
  - exists ws. split; [done|]. split_and!; [done|done|]. intros i. rewrite Hb. split.
    + intros [Hi|(j & Hj & Hi)]; [|by eapply zget_elem_1]. rewrite <- (take_drop 4096 l). apply elem_of_app. by right.
    + intros [j Hj]%zget_elem. pose proof (zget_Some_range _ _ _ Hj). destruct (decide (j < 4096)).
      * right. exists j. split; [lia|done].
      * left. apply zget_elem. exists (j - 4096). change 4096%nat with (Z.to_nat 4096).
        rewrite zget_drop by lia. by replace (4096 + (j - 4096)) with j by lia.
Qed.

Lemma open_bkt_wf b bs l ds : inv b bs l ds -> l <> [] -> bkt_wf (Bkt (currBucket b) l).
Proof.
  intros Hinv Hne. destruct (inv_wf _ _ _ _ Hinv) as [Hf _]. unfold open_bkt in Hf.
  destruct l as [|x l]; [done|]. apply Forall_app in Hf as [_ Hf]. by rewrite Forall_singleton in Hf.
Qed.

Lemma closed_wf b bs l ds : inv b bs l ds -> bkts_wf bs.
Proof.
  intros Hinv. destruct (inv_wf _ _ _ _ Hinv) as [Hf Hi]. apply Forall_app in Hf as [Hf _].
  split; [done|]. rewrite fmap_app in Hi. by apply StronglySorted_app in Hi as (_ & ? & _).
Qed.

(** The invariant after a bucket is written: its block follows the output, and its
    descriptor the others. *)
Lemma inv_flushed b bs l ds blk ws arr :
  inv b bs l ds -> l <> [] -> block_ok (Bkt (currBucket b) l) blk ->
  words_ok ws -> zlen ws = 1024 -> zlen arr = 128 ->
  exists full sc idx, pushDescriptor scratchSize
      (Descriptor (u16 (currBucket b)) (u16 (bucketSize b - 1)) (bucketStart b)) b =
    Build (values b) (bits b) (rankIndexArr b) (totalCard b) (currBucket b) (bucketSize b)
      (numBuckets b) idx (bucketStart b) full sc (out b) /\
    inv (Build (values b) ws arr (totalCard b) (currBucket b) 0 (u32 (numBuckets b + 1)) idx
           (u32 (bucketStart b + zlen blk)) full sc (out b ++ blk))
      (bs ++ [Bkt (currBucket b) l]) []
      (ds ++ [Descriptor (currBucket b) (zlen l - 1) (zlen (out b))]).
Proof.
  intros Hinv Hne Hblk Hws Hwl Harr. pose proof (open_bkt_wf _ _ _ _ Hinv Hne) as Hbw.
  pose proof (inv_curr _ _ _ _ Hinv) as Hcur. pose proof (lows_bound _ Hbw) as Hlb. simpl in Hlb.
  assert (0 < zlen l) by (destruct l; [done|rewrite zlen_cons; pose proof (zlen_nonneg l); lia]).
  rewrite (inv_size _ _ _ _ Hinv), (inv_start _ _ _ _ Hinv), (inv_num _ _ _ _ Hinv).
  rewrite (uwrap_id 16 (currBucket b)) by (unfold is_u; lia). rewrite (uwrap_id 16 (zlen l - 1)) by (unfold is_u; lia).
  destruct (pushDescriptor_eq (Descriptor (currBucket b) (zlen l - 1) (zlen (out b))) b)
    as (full & sc & idx & E & Hres).
  destruct (Hres (inv_full _ _ _ _ Hinv) (inv_idx _ _ _ _ Hinv)) as (Hfull & Hidx & Hcat).
  exists full, sc, idx. split.
  { rewrite E. f_equal; [apply (inv_size _ _ _ _ Hinv)|apply (inv_num _ _ _ _ Hinv)|apply (inv_start _ _ _ _ Hinv)]. }
  assert (bkts_wf (bs ++ [Bkt (currBucket b) l])) as Hwf.
  { pose proof (inv_wf _ _ _ _ Hinv) as Hwf. unfold open_bkt in Hwf. by destruct l. }
  pose proof (laid_snoc 0 bs ds (out b) _ blk (inv_laid _ _ _ _ Hinv) Hblk) as Hlaid. simpl in Hlaid.
  pose proof (bkts_count _ Hwf) as Hcount. pose proof (laid_size _ _ _ _ Hlaid (bkts_pos _ Hwf)) as Hsize.
  rewrite zlen_app in Hcount, Hsize. change (zlen [Bkt (currBucket b) l]) with 1 in *.
  rewrite zlen_app in Hsize. pose proof (zlen_nonneg bs).
  constructor; cbn [values bits rankIndexArr totalCard currBucket bucketSize numBuckets bucketIdx bucketStart
    fullScratch scratch out]; try done.
  - apply (inv_values _ _ _ _ Hinv).
  - intros j x _ Hx. by apply zget_elem_1, not_elem_of_nil in Hx.
  - rewrite zlen_app. apply uwrap_id. unfold is_u. change (zlen [Bkt (currBucket b) l]) with 1. lia.
  - rewrite zlen_app. apply uwrap_id. unfold is_u. lia.
  - by rewrite Hcat, <- (inv_descs _ _ _ _ Hinv).
  - by rewrite app_nil_r.
  - rewrite app_nil_r. pose proof (inv_card _ _ _ _ Hinv) as Hc. unfold open_bkt in Hc. by destruct l.
Qed.

Lemma flushBucket_spec b bs l ds :
  inv b bs l ds -> l <> [] ->
  exists b' ds', flushBucket scratchSize b = Some b' /\ inv b' (bs ++ [Bkt (currBucket b) l]) [] ds' /\
    currBucket b' = currBucket b.
Proof.
  intros Hinv Hne. pose proof (open_bkt_wf _ _ _ _ Hinv Hne) as Hbw. pose proof Hbw as (Hu & _ & Hinc & Hf).
  assert (0 < zlen l) by (destruct l; [done|rewrite zlen_cons; pose proof (zlen_nonneg l); lia]).
  pose proof (inv_size _ _ _ _ Hinv) as Hsz. destruct (inv_bits _ _ _ _ Hinv) as [Hws Hwl].
  pose proof (inv_ranks _ _ _ _ Hinv) as Hrl. pose proof (inv_values _ _ _ _ Hinv) as Hvl.
  unfold flushBucket. rewrite decide_False by lia. cbv zeta. change BUCKET_SPARSE_MAX with 4096 at 1.
  destruct (decide (zlen l <= 4096)) as [Hs|Hs].
  - assert (take (Z.to_nat (zlen l)) (values b) = l) as Etake.
    { apply list_eq. intros j. destruct (decide (Z.of_nat j < zlen l)).
      - rewrite lookup_take_lt by (unfold zlen in *; lia). destruct (zget_in l (Z.of_nat j)) as [x Hx]; [lia|].
        pose proof (inv_sparse _ _ _ _ Hinv (Z.of_nat j) x ltac:(lia) Hx) as Hv.
        rewrite zget_nat in Hx, Hv. congruence.
      - rewrite lookup_take_ge by lia. symmetry. apply lookup_ge_None. unfold zlen in *. lia. }
    set (pad := Z.land (BLOCK_ALIGN - Z.land (zlen l * 2) (BLOCK_ALIGN - 1)) (BLOCK_ALIGN - 1)).
    assert (0 <= pad < 8 /\ (2 * zlen l + pad) `mod` 8 = 0) as [Hp Hpm].
    { unfold pad. change (BLOCK_ALIGN - 1) with (Z.ones 3). rewrite !Z.land_ones by lia.
      change (2 ^ 3) with 8. change BLOCK_ALIGN with 8. split; [apply Z.mod_pos_bound; lia|].
      rewrite Zplus_mod_idemp_r. pose proof (Z.div_mod (zlen l * 2) 8 ltac:(lia)).
      replace (2 * zlen l + (8 - (zlen l * 2) `mod` 8)) with ((zlen l * 2 / 8 + 1) * 8) by lia. apply Z.mod_mul. lia. }
    destruct (inv_flushed b bs l ds ((l ≫= store_le 2) ++ replicate (Z.to_nat pad) 0) (bits b) (rankIndexArr b))
      as (full & sc & idx & E & Hinv'); try done.
    { unfold block_ok. simpl. rewrite decide_True by done. by exists pad. }
    rewrite E. cbn [values bits rankIndexArr totalCard currBucket bucketSize numBuckets bucketIdx bucketStart
      fullScratch scratch out]. rewrite Hsz, decide_True by done. rewrite decide_True by lia.
    fold pad. rewrite Etake. do 2 eexists. split; [done|]. split; [|done].
    rewrite zlen_app, zlen_bind_store, zlen_replicate, Z2Nat.id, (Z.mul_comm 2) in Hinv' by lia. exact Hinv'.
  - destruct (fill_words b bs l ds Hinv ltac:(lia) Hf) as (ws & Ews & Hok & Hl & Hb).
    destruct (fillRankIndex_spec l ws Hinc Hok Hl Hb (rankIndexArr b) Hrl) as (arr & Earr & Hd).
    destruct (inv_flushed b bs l ds ((ws ≫= store_le 8) ++ (arr ≫= store_le 2)) ws arr)
      as (full & sc & idx & E & Hinv'); try done.
    { unfold block_ok. simpl. rewrite decide_False by done. by exists ws, arr. }
    { apply Hd. }
    rewrite E. cbn [values bits rankIndexArr totalCard currBucket bucketSize numBuckets bucketIdx bucketStart
      fullScratch scratch out]. rewrite Hsz, decide_False by done. rewrite Ews. opt. rewrite Earr. opt.
    do 2 eexists. split; [done|]. split; [|done]. pose proof Hd as (_ & _ & _ & Hal & _).
    rewrite zlen_app, !zlen_bind_store, Hl, Hal in Hinv' by lia. exact Hinv'.
Qed.

(** ** Adding a value *)

Lemma bkts_snoc bs b :
  bkts_wf bs -> bkt_wf b -> (forall c, c ∈ bs -> upper c < upper b) -> bkts_wf (bs ++ [b]).
Proof.
  intros [Hf Hi] Hb Hlt. split; [apply Forall_app; split; [done|by apply Forall_singleton]|].
  rewrite fmap_app. apply StronglySorted_app_2; [|done|repeat constructor].
  intros x y (c & -> & Hc)%list_elem_of_fmap Hy. apply list_elem_of_singleton in Hy as ->. by apply Hlt.
Qed.

Lemma bkts_snoc_inv bs b c : bkts_wf (bs ++ [b]) -> c ∈ bs -> upper c < upper b.
Proof.
  intros [_ Hi] Hc. rewrite fmap_app in Hi. apply StronglySorted_app in Hi as (Hlt & _ & _).
  apply Hlt; [by apply list_elem_of_fmap_2|left].
Qed.

Lemma increasing_snoc l x : increasing l -> (forall y, y ∈ l -> y < x) -> increasing (l ++ [x]).
Proof.
  intros Hl Hx. apply StronglySorted_app_2; [|done|repeat constructor].
  intros y z Hy ->%list_elem_of_singleton. by apply Hx.
Qed.

(** The first part of [add]: the current bucket is that of the value. *)
Lemma openBucket_spec b bs l ds c :
  inv b bs l ds -> (l = [] -> bs = [] /\ currBucket b = 0) -> 0 <= c < 2 ^ 15 -> currBucket b <= c ->
  exists b1 bs1 l1 ds1, openBucket scratchSize c b = Some b1 /\ inv b1 bs1 l1 ds1 /\ currBucket b1 = c /\
    bs1 ++ open_bkt b1 l1 = bs ++ open_bkt b l /\ (forall d, d ∈ bs1 -> upper d < c).
Proof.
  intros Hinv Hempty Hc Hle. unfold openBucket. case_decide as Hd.
  - rewrite decide_True by lia. destruct l as [|x l].
    + destruct (Hempty eq_refl) as [-> Hcb]. unfold flushBucket.
      rewrite (inv_size _ _ _ _ Hinv), decide_True by done. opt. eexists _, [], [], ds. split; [done|].
      rewrite (uwrap_id 32) by (unfold is_u; lia). split; [|split; [done|]; split; [done|]].
      * destruct Hinv. constructor; simpl in *; done.
      * by intros d ?%not_elem_of_nil.
    + destruct (flushBucket_spec b bs (x :: l) ds Hinv) as (b1 & ds1 & -> & Hinv1 & Hcb); [done|]. opt.
      rewrite (uwrap_id 32) by (unfold is_u; lia).
      eexists _, (bs ++ [Bkt (currBucket b) (x :: l)]), [], ds1. split; [done|]. split; [|split; [done|]; split].
      * destruct Hinv1 as [I1 I2 I3 I4 I5 I6 I7 I8 I9 I10 I11 I12 I13 I14 I15].
        constructor; simpl in *; done.
      * simpl. by rewrite app_nil_r.
      * intros d Hd'. pose proof (inv_wf _ _ _ _ Hinv) as Hwf. simpl in Hwf.
        apply elem_of_app in Hd' as [Hd'|Hd'].
        -- pose proof (bkts_snoc_inv _ _ _ Hwf Hd') as Hlt. simpl in Hlt. lia.
        -- apply list_elem_of_singleton in Hd' as ->. simpl. lia.
  - exists b, bs, l, ds. split; [done|]. split; [done|]. split; [lia|]. split; [done|]. intros d Hd'.
    destruct l as [|x l]; [destruct (Hempty eq_refl) as [-> _]; by apply not_elem_of_nil in Hd'|].
    pose proof (bkts_snoc_inv _ _ _ (inv_wf _ _ _ _ Hinv) Hd') as Hlt. simpl in Hlt. lia.
Qed.

(** The containers after the low bits [x] are added to a bucket that holds [l]. *)
Lemma store_low b bs l ds x :
  inv b bs l ds -> 0 <= x < 65536 ->
  exists vs ws,
    (if decide (bucketSize b >= BUCKET_SPARSE_MAX) then
       ws ← (if decide (bucketSize b = BUCKET_SPARSE_MAX)
             then OpenBitSet.clear Bits_fixedSize (bits b) else Some (bits b));
       ws ← OpenBitSet.set Bits_fixedSize ws x;
       Some (values b, ws)
     else vs ← zset (values b) (bucketSize b) x; Some (vs, bits b)) = Some (vs, ws) /\
    zlen vs = 4096 /\ (words_ok ws /\ zlen ws = 1024) /\
    (forall j y, j < 4096 -> (l ++ [x]).[j] = Some y -> vs.[j] = Some y) /\
    (4096 < zlen (l ++ [x]) -> forall i, bit ws i = true <-> i ∈ drop 4096 (l ++ [x])).
Proof.
  intros Hinv Hx. destruct (inv_bits _ _ _ _ Hinv) as [Hok Hlen]. pose proof (inv_values _ _ _ _ Hinv) as Hvl.
  rewrite (inv_size _ _ _ _ Hinv). change BUCKET_SPARSE_MAX with 4096. pose proof (zlen_nonneg l) as Hl0.
  destruct (decide (zlen l >= 4096)) as [Hbig|Hsmall].
  - assert (exists w0, (if decide (zlen l = 4096) then OpenBitSet.clear Bits_fixedSize (bits b) else Some (bits b))
      = Some w0 /\ words_ok w0 /\ zlen w0 = 1024 /\ forall i, bit w0 i = true <-> i ∈ drop 4096 l)
      as (w0 & -> & Hok0 & Hl' & Hb0).
    { case_decide as Heq; [|exists (bits b); split_and!; try done; apply (inv_dense _ _ _ _ Hinv); lia].
      unfold OpenBitSet.clear. change (OpenBitSet.fixedNumWords Bits_fixedSize) with 1024. rewrite decide_True by lia.
      eexists. split; [done|]. rewrite (drop_ge (bits b)), app_nil_r by (unfold zlen in Hlen; lia).
      split; [by apply words_ok_replicate|]. split; [done|]. intros i. rewrite drop_ge by (unfold zlen in Heq; lia).
      split; [|by intros ?%not_elem_of_nil]. intros Hi. exfalso.
      destruct (decide (0 <= i < 64 * 1024)) as [Hr|Hr].
      - rewrite bit_replicate in Hi by (by rewrite Z2Nat.id). by rewrite Z.testbit_0_l in Hi.
      - rewrite bit_out in Hi; [done|]. by rewrite zlen_replicate, Z2Nat.id by lia. }
    opt. destruct (set_spec Bits_fixedSize w0 x) as (ws & -> & Hok1 & Hl1 & Hb1); [done|done|lia|]. opt.
    do 2 eexists. split; [done|]. split; [done|]. split; [split; [done|lia]|]. split.
    + intros j y Hj Hy. rewrite zget_app_l in Hy by lia. by apply (inv_sparse _ _ _ _ Hinv).
    + intros _ i. rewrite Hb1, orb_true_iff, Hb0, bool_decide_eq_true.
      rewrite drop_app_le by (unfold zlen in Hbig; lia). by rewrite elem_of_app, list_elem_of_singleton.
  - rewrite zset_in by lia. opt. do 2 eexists. split; [done|]. rewrite zlen_insert. split; [done|]. split; [done|]. split.
    + intros j y Hj Hy. rewrite zget_insert by lia. case_decide as Hjl.
      * subst j. rewrite zget_app_r, Z.sub_diag, zget_cons_0 in Hy by lia. congruence.
      * pose proof (zget_Some_range _ _ _ Hy) as Hr. rewrite zlen_app in Hr. change (zlen [x]) with 1 in Hr.
        rewrite zget_app_l in Hy by lia. by apply (inv_sparse _ _ _ _ Hinv).
    + rewrite zlen_app. change (zlen [x]) with 1. lia.
Qed.

Lemma open_snoc b l x : open_bkt b (l ++ [x]) = [Bkt (currBucket b) (l ++ [x])].
Proof. by destruct l. Qed.

Lemma elements_open b bs l :
  elements (bs ++ open_bkt b l) = elements bs ++ (Z.add (65536 * currBucket b) <$> l).
Proof.
  rewrite elements_app. f_equal. destruct l as [|y l]; [done|]. unfold open_bkt. rewrite elements_cons.
  simpl. by rewrite app_nil_r.
Qed.

Lemma add_spec b bs l ds val :
  inv b bs l ds -> (l = [] -> bs = [] /\ currBucket b = 0) -> 0 <= val < 2 ^ 31 ->
  (forall v, v ∈ elements (bs ++ open_bkt b l) -> v < val) ->
  exists b' bs' l' ds', add scratchSize b val = Some b' /\ inv b' bs' l' ds' /\ l' <> [] /\
    elements (bs' ++ open_bkt b' l') = elements (bs ++ open_bkt b l) ++ [val].
Proof.
  intros Hinv Hempty Hval Hlt. unfold add.
  pose proof (Z.div_mod val 65536 ltac:(lia)) as Hdm. pose proof (Z.mod_pos_bound val 65536 ltac:(lia)) as Hm.
  assert (Z.shiftr val BUCKET_BITS = val / 65536) as -> by (by rewrite Z.shiftr_div_pow2).
  change (u16 val) with (val `mod` 65536). set (x := val `mod` 65536) in *. set (c := val / 65536) in *.
  assert (currBucket b <= c) as Hcb.
  { destruct l as [|y l]; [destruct (Hempty eq_refl) as [_ ->]; apply Z.div_pos; lia|].
    pose proof (open_bkt_wf _ _ _ _ Hinv ltac:(done)) as Hbw. pose proof (bkt_wf_low _ y Hbw ltac:(left)).
    specialize (Hlt (65536 * currBucket b + y)). rewrite elements_open, elem_of_app in Hlt.
    specialize (Hlt ltac:(right; apply list_elem_of_fmap_2; left)). lia. }
  destruct (openBucket_spec b bs l ds c) as (b1 & bs1 & l1 & ds1 & -> & Hinv1 & Hc1 & Heq & Hup); [done|done| |done|].
  { unfold c. split; [apply Z.div_pos; lia|apply Z.div_lt_upper_bound; lia]. }
  opt. destruct (store_low b1 bs1 l1 ds1 x Hinv1 Hm) as (vs & ws & -> & Hvl & Hws & Hsp & Hde). opt.
  rewrite <- Heq in Hlt |- *. rewrite elements_open, Hc1 in *.
  assert (bkt_wf (Bkt c (l1 ++ [x]))) as Hbw.
  { assert (forall y, y ∈ l1 -> y < x) as Hy.
    { intros y Hy. specialize (Hlt (65536 * c + y)). rewrite elem_of_app in Hlt.
      specialize (Hlt ltac:(right; by apply list_elem_of_fmap_2)). lia. }
    assert (increasing l1 /\ Forall (fun x => 0 <= x < 65536) l1) as [Hi1 Hf1].
    { destruct l1 as [|y l1]; [split; constructor|]. pose proof (open_bkt_wf _ _ _ _ Hinv1 ltac:(done)) as Hw. apply Hw. }
    split_and!; simpl; [rewrite <- Hc1; apply (inv_curr _ _ _ _ Hinv1)..|by destruct l1| |].
    - by apply increasing_snoc.
    - apply Forall_app. split; [done|]. by apply Forall_singleton. }
  eexists _, bs1, (l1 ++ [x]), ds1. split; [done|]. rewrite elements_open.
  split; [|split; [by destruct l1|]].
  - pose proof (lows_bound _ Hbw) as Hlb. simpl in Hlb. rewrite zlen_app in Hlb. change (zlen [x]) with 1 in Hlb.
    pose proof (zlen_nonneg l1). pose proof Hinv1 as [I1 I2 I3 I4 I5 I6 I7 I8 I9 I10 I11 I12 I13 I14 I15].
    constructor; cbn [values bits rankIndexArr totalCard currBucket bucketSize numBuckets bucketIdx bucketStart
      fullScratch scratch out]; try done.
    + rewrite I4, uwrap_id; [by zlen|]. unfold is_u. lia.
    + by rewrite <- Hc1.
    + rewrite open_snoc. simpl. rewrite ?Hc1. apply bkts_snoc; [by eapply closed_wf|done|done].
    + rewrite elements_open. simpl. rewrite ?Hc1, fmap_app, app_assoc, zlen_app.
      rewrite I15, elements_open, ?Hc1. done.
  - simpl. rewrite ?Hc1, fmap_app, app_assoc. f_equal. simpl. f_equal. lia.
Qed.

(** ** Building a set *)

Lemma inv_make buf_sparse buf_words buf_rank :
  zlen buf_sparse = 4096 -> words_ok buf_words -> zlen buf_words = 1024 -> zlen buf_rank = 128 ->
  inv (make buf_sparse buf_words buf_rank) [] [] [].
Proof.
  intros H1 H2 H3 H4. pose proof maxDescriptors_pos. constructor; simpl; try done.
  - intros j x _ Hx. by apply zget_elem_1, not_elem_of_nil in Hx.
  - constructor.
  - change (zlen (@nil BucketDescriptor)) with 0. lia.
  - split; constructor.
Qed.

Lemma adds_spec b bs l ds vals :
  inv b bs l ds -> (l = [] -> bs = [] /\ currBucket b = 0) ->
  increasing (elements (bs ++ open_bkt b l) ++ vals) -> Forall (fun v => 0 <= v < 2 ^ 31) vals ->
  exists b' bs' l' ds', foldM (add scratchSize) b vals = Some b' /\ inv b' bs' l' ds' /\
    elements (bs' ++ open_bkt b' l') = elements (bs ++ open_bkt b l) ++ vals.
Proof.
  intros Hinv Hempty Hinc Hf. revert b bs l ds Hinv Hempty Hinc. induction Hf as [|v vals Hv Hf IH];
    intros b bs l ds Hinv Hempty Hinc; cbn [foldM].
  - exists b, bs, l, ds. by rewrite app_nil_r.
  - destruct (add_spec b bs l ds v Hinv Hempty Hv) as (b1 & bs1 & l1 & ds1 & -> & Hinv1 & Hne & He).
    { intros u Hu. apply StronglySorted_app in Hinc as (Hlt & _ & _). apply Hlt; [done|left]. }
    opt. destruct (IH b1 bs1 l1 ds1) as (b2 & bs2 & l2 & ds2 & E & Hinv2 & He2); [done|done| |].
    { by rewrite He, <- app_assoc. }
    exists b2, bs2, l2, ds2. split; [done|]. split; [done|]. by rewrite He2, He, <- app_assoc.
Qed.

Lemma flushDescriptors_spec fuel full sc n k :
  Forall (fun c => zlen c = maxDescriptors scratchSize) full -> zlen sc <= maxDescriptors scratchSize ->
  n - k = zlen (concat full ++ sc) -> n - k <= Z.of_nat fuel ->
  flushDescriptors scratchSize fuel (full ++ [sc]) n k = Some ((concat full ++ sc) ≫= descBytes).
Proof.
  pose proof maxDescriptors_pos as Hmax. intros Hf Hsc. revert k fuel.
  induction Hf as [|c full Hc Hf IH]; intros k fuel Hn Hfuel.
  - cbn [concat app] in *. destruct fuel as [|fuel]; cbn [flushDescriptors].
    { rewrite decide_False by lia. destruct sc as [|d sc]; [done|]. rewrite zlen_cons in Hn.
      pose proof (zlen_nonneg sc). lia. }
    case_decide as Hk.
    2: { destruct sc as [|d sc]; [done|]. rewrite zlen_cons in Hn. pose proof (zlen_nonneg sc). lia. }
    rewrite Z.min_r by lia. rewrite decide_True by lia.
    destruct fuel; cbn [flushDescriptors]; rewrite (decide_False (P := k + _ < n)) by lia; opt;
      rewrite take_ge by (unfold zlen in Hn; lia); by rewrite app_nil_r.
  - cbn [concat app] in *. rewrite <- app_assoc, zlen_app in Hn. pose proof (zlen_nonneg (concat full ++ sc)).
    destruct fuel as [|fuel]; [lia|]. cbn [flushDescriptors]. rewrite decide_True by lia.
    rewrite Z.min_l by lia. rewrite decide_True by lia.
    assert ((match full ++ [sc] with [] => [c] | _ => full ++ [sc] end) = full ++ [sc]) as -> by (by destruct full).
    rewrite (IH (k + maxDescriptors scratchSize)) by lia. opt.
    rewrite take_ge by (unfold zlen in Hc; lia). by rewrite <- app_assoc, (bind_app _ c).
Qed.

(** What [flush] leaves in the output, and the size it reports. *)
Lemma flush_spec b bs l ds :
  inv b bs l ds ->
  exists b' bs' ds' bytes, flush scratchSize b = Some (zlen (image bs' ds' bytes), b') /\
    out b' = image bs' ds' bytes /\ bs' = bs ++ open_bkt b l /\ laid 0 bs' ds' bytes /\ bkts_wf bs'.
Proof.
  intros Hinv. assert (exists b1 ds1, flushBucket scratchSize b = Some b1 /\
    inv b1 (bs ++ open_bkt b l) [] ds1) as (b1 & ds1 & E & Hinv1).
  { destruct l as [|x l].
    - exists b, ds. unfold flushBucket. rewrite (inv_size _ _ _ _ Hinv), decide_True by done.
      split; [done|]. simpl. by rewrite app_nil_r.
    - destruct (flushBucket_spec b bs (x :: l) ds Hinv) as (b1 & ds1 & -> & Hinv1 & _); [done|]. by exists b1, ds1. }
  unfold flush. rewrite E. opt. pose proof (closed_wf _ _ _ _ Hinv1) as Hwf.
  pose proof (inv_laid _ _ _ _ Hinv1) as Hlaid. pose proof (laid_length _ _ _ _ Hlaid) as Hlen.
  pose proof (inv_descs _ _ _ _ Hinv1) as Hds. pose proof (inv_num _ _ _ _ Hinv1) as Hnum.
  assert (zlen ds1 = numBuckets b1) as Hdl by (rewrite Hnum; unfold zlen; by rewrite Hlen).
  pose proof (zlen_nonneg (bs ++ open_bkt b l)). destruct (inv_idx _ _ _ _ Hinv1) as [Hi1 Hi2].
  rewrite (flushDescriptors_spec _ (fullScratch b1) (scratch b1)); [|apply (inv_full _ _ _ _ Hinv1)|lia| |lia].
  2: { rewrite <- Hds. lia. }
  rewrite <- Hds. opt. pose proof (bkts_count _ Hwf). pose proof (laid_size _ _ _ _ Hlaid (bkts_pos _ Hwf)).
  rewrite Hnum, (inv_start _ _ _ _ Hinv1), zlen_bind_desc. rewrite Hnum in Hdl.
  rewrite (uwrap_id 16) by (unfold is_u; lia). rewrite (uwrap_id 32) by (unfold is_u; lia).
  assert (zlen (image (bs ++ open_bkt b l) ds1 (out b1)) = zlen (out b1) + 8 * zlen ds1 + 2) as Him.
  { unfold image. rewrite !zlen_app, zlen_bind_desc, zlen_store_le by lia. lia. }
  eexists _, (bs ++ open_bkt b l), ds1, (out b1). rewrite Him. split; [done|].
  split; [done|]. split; [done|]. by split.
Qed.

End builder.

(** * From values to bytes and back *)

(** The memory the builder is given: arbitrary contents of the right sizes. *)
Record buffers := Buffers { buf_values : list Z; buf_words : list Z; buf_ranks : list Z }.

Definition buffers_ok (m : buffers) : Prop :=
  zlen (buf_values m) = 4096 /\ words_ok (buf_words m) /\ zlen (buf_words m) = 1024 /\ zlen (buf_ranks m) = 128.

(** A client: adds the values, flushes, and has the size reported and the bytes written. *)
Definition build (scratchSize : Z) (m : buffers) (vals : list Z) : option (Z * list Z) :=
  b ← foldM (Builder.add scratchSize) (Builder.make (buf_values m) (buf_words m) (buf_ranks m)) vals;
  '(n, b) ← Builder.flush scratchSize b;
  Some (n, Builder.out b).

Lemma build_spec scratchSize m vals :
  16 <= scratchSize -> buffers_ok m -> increasing vals -> Forall (fun v => 0 <= v < 2 ^ 31) vals ->
  exists img, build scratchSize m vals = Some (zlen img, img) /\
    forall pre post, zlen pre `mod` 8 = 0 ->
    exists s bs, BitSet.set (pre ++ img ++ post) (zlen pre + zlen img) = Some s /\ Encodes s bs /\ elements bs = vals.
Proof.
  intros Hs (H1 & H2 & H3 & H4) Hinc Hf. unfold build.
  destruct (adds_spec scratchSize Hs (Builder.make (buf_values m) (buf_words m) (buf_ranks m)) [] [] [] vals)
    as (b & bs & l & ds & -> & Hinv & He); [by apply inv_make|done|done|done|]. opt.
  destruct (flush_spec scratchSize Hs b bs l ds Hinv) as (b' & bs' & ds' & bytes & -> & Hout & -> & Hlaid & Hwf). opt.
  rewrite Hout. eexists. split; [done|]. intros pre post Hpre.
  exists (view pre post (bs ++ open_bkt b l) ds' bytes), (bs ++ open_bkt b l). split; [by apply set_view|].
  split; [by apply view_encodes|done].
Qed.

Definition below_end (vals : list Z) : Prop := Forall (fun v => 0 <= v < BitSet.END) vals.

Lemma below_end_31 vals : below_end vals -> Forall (fun v => 0 <= v < 2 ^ 31) vals.
Proof. intros H. eapply Forall_impl; [done|]. unfold BitSet.END. simpl. lia. Qed.

(** Small buffers for the examples. *)
Definition example_buffers : buffers := Buffers (replicate 4096 7) (replicate 1024 3) (replicate 128 9).

Lemma example_buffers_ok : buffers_ok example_buffers.
Proof. split_and!; try done. by apply Forall_replicate. Qed.

Definition example_vals : list Z := [3; 65536; 65540; 200000].

Lemma example_vals_ok : increasing example_vals /\ below_end example_vals.
Proof.
  split; [unfold example_vals; sorted_concrete|]. unfold below_end, BitSet.END, example_vals.
  repeat (apply List.Forall_cons; [lia|]). apply List.Forall_nil.
Qed.

(** C13: the iterator over what the builder wrote.  For every sorted sequence of values
    and every sequence of moves, each [next] and each [advance] to a later target
    arrives at the first value past the current one or from the target on, [rank] after
    it is the number of values before it, and the walk ends with [END] when there is no
    such value, wherever in memory (8-aligned) the bytes lie and whatever the builder's
    buffers held. *)
Theorem screaming_walk (scratchSize : Z) (m : buffers) (pre post vals : list Z) (ms : list move) :
  16 <= scratchSize -> buffers_ok m -> zlen pre `mod` 8 = 0 ->
  increasing vals -> below_end vals -> moves_ok vals (-1) ms ->
  exists img s, build scratchSize m vals = Some (zlen img, img) /\
    BitSet.set (pre ++ img ++ post) (zlen pre + zlen img) = Some s /\
    walk s Iterator.fresh ms = Some (abstract_walk vals (-1) ms).
Proof.
  intros Hs Hm Hpre Hinc Hf Hok. destruct (build_spec scratchSize m vals) as (img & E & Hset); [done..|by apply below_end_31|].
  destruct (Hset pre post Hpre) as (s & bs & Es & Henc & He). exists img, s. split; [done|]. split; [done|].
  subst vals. apply (walk_spec s bs Iterator.fresh (-1) ms); [lia| |by left|done].
  eapply Forall_impl; [done|]. by intros v [_ ?].
Qed.

Lemma screaming_walk_witness :
  moves_ok example_vals (-1) [Next; Advance 65538; Next; Next] /\
  exists img s, build 1024 example_buffers example_vals = Some (zlen img, img) /\
    BitSet.set ([] ++ img ++ []) (zlen (@nil Z) + zlen img) = Some s /\
    walk s Iterator.fresh [Next; Advance 65538; Next; Next] =
      Some [(3, 0); (65540, 2); (200000, 3); (BitSet.END, 0)].
Proof.
  assert (moves_ok example_vals (-1) [Next; Advance 65538; Next; Next]) as Hok
    by (vm_compute; repeat split; congruence).
  split; [done|]. destruct example_vals_ok as [H1 H2].
  exact (screaming_walk 1024 example_buffers [] [] example_vals _ ltac:(lia) example_buffers_ok eq_refl H1 H2 Hok).
Defined.

(** C40: selection is the inverse of rank.  On what the builder wrote, the set's
    cardinality is the number of values added, and for every rank below it both the
    stateless selection and the precomputed selector return the value of that rank. *)
Theorem screaming_select (scratchSize : Z) (m : buffers) (pre post vals : list Z) :
  16 <= scratchSize -> buffers_ok m -> zlen pre `mod` 8 = 0 -> increasing vals -> below_end vals ->
  exists img s x, build scratchSize m vals = Some (zlen img, img) /\
    BitSet.set (pre ++ img ++ post) (zlen pre + zlen img) = Some s /\ Selector.make s = Some x /\
    BitSet.cardinality s = Some (zlen vals) /\
    forall k v, vals.[k] = Some v -> BitSet.select s k = Some v /\ Selector.select x k = Some v /\ count_lt vals v = k.
Proof.
  intros Hs Hm Hpre Hinc Hf. destruct (build_spec scratchSize m vals) as (img & E & Hset); [done..|by apply below_end_31|].
  destruct (Hset pre post Hpre) as (s & bs & Es & Henc & He). subst vals.
  destruct (selector_make s bs) as (x & Ex & _). exists img, s, x. split_and!; try done; [by apply (cardinality_spec s bs)|].
  intros k v Hk. split_and!.
  - by apply (select_spec s bs).
  - by apply (selector_select s bs x k v).
  - by apply count_lt_zget.
Qed.

Lemma screaming_select_witness :
  exists img s, build 1024 example_buffers example_vals = Some (zlen img, img) /\
    BitSet.set ([] ++ img ++ []) (zlen (@nil Z) + zlen img) = Some s /\ BitSet.select s 2 = Some 65540.
Proof.
  destruct example_vals_ok as [H1 H2].
  destruct (screaming_select 1024 example_buffers [] [] example_vals ltac:(lia) example_buffers_ok eq_refl H1 H2)
    as (img & s & x & E & Es & _ & _ & Hsel).
  exists img, s. split; [exact E|]. split; [exact Es|]. by apply Hsel.
Defined.

(** The intersection count.  Against any fixed bitset, the number of common values
    computed bucket by bucket, from sparse arrays and from bitmaps, is the number of the
    values added that the bitset contains. *)
Theorem screaming_intersection (scratchSize : Z) (m : buffers) (pre post vals : list Z)
    (other : FixedBitSet.fixed) :
  16 <= scratchSize -> buffers_ok m -> zlen pre `mod` 8 = 0 -> increasing vals -> below_end vals ->
  fixed_wf other ->
  exists img s, build scratchSize m vals = Some (zlen img, img) /\
    BitSet.set (pre ++ img ++ post) (zlen pre + zlen img) = Some s /\
    BitSet.intersectionCardinality s other =
      Some (zlen (filter (fun v => bit (FixedBitSet.words other) v = true) vals)).
Proof.
  intros Hs Hm Hpre Hinc Hf Hother. destruct (build_spec scratchSize m vals) as (img & E & Hset); [done..|by apply below_end_31|].
  destruct (Hset pre post Hpre) as (s & bs & Es & Henc & He). subst vals. exists img, s. split; [done|]. split; [done|].
  by apply (intersection_spec s bs).
Qed.

Lemma screaming_intersection_witness :
  exists other img s, FixedBitSet.make 65537 true = Some other /\
    build 1024 example_buffers example_vals = Some (zlen img, img) /\
    BitSet.set ([] ++ img ++ []) (zlen (@nil Z) + zlen img) = Some s /\
    BitSet.intersectionCardinality s other = Some 2.
Proof.
  destruct example_vals_ok as [H1 H2]. destruct (make_true 65537) as (other & Eo & Hwf & _ & Hb); [by vm_compute|].
  destruct (screaming_intersection 1024 example_buffers [] [] example_vals other ltac:(lia) example_buffers_ok eq_refl H1 H2 Hwf)
    as (img & s & E & Es & Hi).
  exists other, img, s. split; [exact Eo|]. split; [exact E|]. split; [exact Es|]. rewrite Hi.
  rewrite (list_filter_iff _ (fun v => bool_decide (0 <= v < 65537) = true)); [by vm_compute|].
  intros v. by rewrite Hb.
Defined.
