(* ===== verification/Heap.v ===== *)
(** The priority queues of [luxir/util/heap.h].  A heap is a range of elements, the list
    of its contents; [None] is a failed assertion or an access outside an array.
    [std::make_heap], [std::push_heap] and [std::pop_heap] are an interface, the class
    [HeapAlg] with the laws the standard gives in [HeapLaws]; [binary_heap] and
    [binary_heap_laws] implement it. *)

From S2P Require Import Prelude.

(** A comparison of type [Compare]: a strict weak order. *)
Class StrictWeak {A} (comp : A -> A -> bool) : Prop := {
  sw_asym x y : comp x y = true -> comp y x = false;
  sw_negtrans x y z : comp x y = false -> comp y z = false -> comp x z = false;
}.

(** No element is less than its child. *)
Definition is_heap {A} (comp : A -> A -> bool) (l : list A) : Prop :=
  forall i x y, 0 < i -> l.[(i - 1) / 2] = Some x -> l.[i] = Some y -> comp x y = false.

(** The heap algorithms of the standard library, and their documented behaviour. *)
Class HeapAlg {A} (comp : A -> A -> bool) := {
  make_heap : list A -> list A;
  push_heap : list A -> list A;
  pop_heap : list A -> list A;
}.
Arguments make_heap {A} comp {_} _.
Arguments push_heap {A} comp {_} _.
Arguments pop_heap {A} comp {_} _.

Class HeapLaws {A} (comp : A -> A -> bool) `{!HeapAlg comp} : Prop := {
  make_heap_perm l : make_heap comp l ≡ₚ l;
  make_heap_heap l : is_heap comp (make_heap comp l);
  push_heap_perm l x : is_heap comp l -> push_heap comp (l ++ [x]) ≡ₚ l ++ [x];
  push_heap_heap l x : is_heap comp l -> is_heap comp (push_heap comp (l ++ [x]));
  pop_heap_spec x l : is_heap comp (x :: l) ->
    exists l', pop_heap comp (x :: l) = l' ++ [x] /\ is_heap comp l' /\ l' ≡ₚ l;
}.

(** * update_heap_top *)

Section update.
Context {A : Type} (comp : A -> A -> bool).

(** The descent: [arr] is read and written through 1-based indices, [empty] is the
    slot to fill.  The slot at least doubles, so the size bounds the rounds. *)
Fixpoint updateLoop (fuel : nat) (arr : list A) (sz : Z) (newVal : A) (empty : Z) : option (list A * Z) :=
  let otherChild := empty * 2 + 1 in
  child ← (if decide (otherChild < sz) then
             a ← arr.[empty * 2 - 1];
             b ← arr.[otherChild - 1];
             Some (if comp a b then otherChild else empty * 2)
           else Some (empty * 2));
  if decide (child >= sz) then Some (arr, empty)
  else
    c ← arr.[child - 1];
    if comp newVal c then
      match fuel with
      | O => None
      | S fuel => arr ← zset arr (empty - 1) c; updateLoop fuel arr sz newVal child
      end
    else Some (arr, empty).

(** [update_heap_top(begin, end, comp)] on the range [arr]. *)
Definition update_heap_top (arr : list A) : option (list A * bool) :=
  let sz := zlen arr + 1 in
  if decide (sz >= 2) then
    newVal ← arr.[1 - 1];
    '(arr, empty) ← updateLoop (Z.to_nat sz) arr sz newVal 1;
    arr ← zset arr (empty - 1) newVal;
    Some (arr, negb (empty =? 1))
  else None.

End update.

(** * DirectPQ *)

Module DirectPQ.
Section direct.
Context {A : Type} (comp : A -> A -> bool) `{!HeapAlg comp}.

(** The span and the number of its elements in the heap. *)
Record queue := Queue { heap : list A; heapSize : Z }.

(** The elements from [heap.begin()] to [end()], and the span with them replaced. *)
Definition live (q : queue) : list A := take (Z.to_nat (heapSize q)) (heap q).
Definition with_live (l : list A) (q : queue) : list A := l ++ drop (Z.to_nat (heapSize q)) (heap q).

Definition make (span : list A) (currentSize : Z) : queue :=
  let q := Queue span currentSize in Queue (with_live (make_heap comp (live q)) q) currentSize.

Definition top (q : queue) : option A := (heap q).[0].
Definition size (q : queue) : Z := heapSize q.
Definition capacity (q : queue) : Z := zlen (heap q).

Definition updateTop (q : queue) : option queue :=
  '(l, _) ← update_heap_top comp (live q); Some (Queue (with_live l q) (heapSize q)).

Definition removeTop (q : queue) : option (A * queue) :=
  let q' := Queue (with_live (pop_heap comp (live q)) q) (heapSize q - 1) in
  x ← (heap q').[heapSize q']; Some (x, q').

Definition insert (elem : A) (q : queue) : option queue :=
  if decide (heapSize q < zlen (heap q)) then
    h ← zset (heap q) (heapSize q) elem;
    let q := Queue h (heapSize q + 1) in
    Some (if decide (heapSize q > 1) then Queue (with_live (push_heap comp (live q)) q) (heapSize q) else q)
  else None.

(** The result is true when the previous top was ejected. *)
Definition insertWithOverflow (elem : A) (q : queue) : option (bool * queue) :=
  if decide (heapSize q < zlen (heap q)) then q ← insert elem q; Some (false, q)
  else
    t ← top q;
    if comp elem t then
      h ← zset (heap q) 0 elem;
      q ← updateTop (Queue h (heapSize q));
      Some (true, q)
    else Some (false, q).

End direct.
End DirectPQ.

(** * ExpandingPQ *)

Module ExpandingPQ.

Definition initialReserve : Z := 64.

Section expanding.
Context {A : Type} (comp : A -> A -> bool) `{!HeapAlg comp}.

(** The vector, its allocated capacity, and the bound. *)
Record queue := Queue { heap : list A; storageCapacity : Z; maxSize : Z }.

(** [heap.reserve(n)]. *)
Definition reserve (n cap : Z) : Z := Z.max cap n.

Definition make (maxSize : Z) : queue := Queue [] (reserve (Z.min maxSize initialReserve) 0) maxSize.

Definition top (q : queue) : option A := head (heap q).
Definition size (q : queue) : Z := zlen (heap q).
Definition release (q : queue) : list A * queue := (heap q, Queue [] 0 (maxSize q)).

Definition updateTop (q : queue) : option queue :=
  '(l, _) ← update_heap_top comp (heap q); Some (Queue l (storageCapacity q) (maxSize q)).

(** The capacity [insert] leaves before the push; a [push_back] into a full vector would
    reallocate, which this rules out. *)
Definition grow (q : queue) : Z :=
  if decide (zlen (heap q) = storageCapacity q)
  then reserve (Z.min (maxSize q) (Z.max (storageCapacity q * 2) initialReserve)) (storageCapacity q)
  else storageCapacity q.

Definition insert (elem : A) (q : queue) : option queue :=
  if decide (zlen (heap q) < maxSize q) then
    let h := heap q ++ [elem] in
    Some (Queue (if decide (zlen h > 1) then push_heap comp h else h) (grow q) (maxSize q))
  else None.

Definition insertWithOverflow (elem : A) (q : queue) : option (bool * queue) :=
  if decide (zlen (heap q) < maxSize q) then q ← insert elem q; Some (false, q)
  else
    t ← top q;
    if comp elem t then
      h ← zset (heap q) 0 elem;
      q ← updateTop (Queue h (storageCapacity q) (maxSize q));
      Some (true, q)
    else Some (false, q).

End expanding.

(** ** With stable slots *)

Section indexed.
Context {A : Type} (comp : A -> A -> bool) (slot : A -> Z).

(** [positions] maps a slot to the heap index of its entry. *)
Record indexed := Indexed { iheap : list A; positions : list Z; icapacity : Z; imax : Z }.

Definition place (index : Z) (value : A) (h : list A) (pos : list Z) : option (list A * list Z) :=
  h ← zset h index value;
  pos ← zset pos (slot value) index;
  Some (h, pos).

Fixpoint siftDownLoop (fuel : nat) (value : A) (index : Z) (h : list A) (pos : list Z)
    : option (Z * list A * list Z) :=
  let child := 2 * index + 1 in
  if decide (child >= zlen h) then Some (index, h, pos)
  else
    child ← (if decide (child + 1 < zlen h) then
               a ← h.[child]; b ← h.[child + 1]; Some (if comp a b then child + 1 else child)
             else Some child);
    c ← h.[child];
    if comp value c then
      match fuel with
      | O => None
      | S fuel => '(h, pos) ← place index c h pos; siftDownLoop fuel value child h pos
      end
    else Some (index, h, pos).

Definition siftDown (index : Z) (q : indexed) : option indexed :=
  value ← (iheap q).[index];
  '(index, h, pos) ← siftDownLoop (length (iheap q)) value index (iheap q) (positions q);
  '(h, pos) ← place index value h pos;
  Some (Indexed h pos (icapacity q) (imax q)).

Definition iupdateTop (q : indexed) : option indexed := siftDown 0 q.

Definition atSlot (s : Z) (q : indexed) : option A := i ← (positions q).[s]; (iheap q).[i].

Definition updateSlot (s : Z) (q : indexed) : option indexed := i ← (positions q).[s]; siftDown i q.

Fixpoint siftUpLoop (fuel : nat) (value : A) (index : Z) (h : list A) (pos : list Z)
    : option (Z * list A * list Z) :=
  if decide (index > 0) then
    let parent := (index - 1) / 2 in
    p ← h.[parent];
    if comp p value then
      match fuel with
      | O => None
      | S fuel => '(h, pos) ← place index p h pos; siftUpLoop fuel value parent h pos
      end
    else Some (index, h, pos)
  else Some (index, h, pos).

Definition iinsert (elem : A) (q : indexed) : option indexed :=
  if decide (zlen (iheap q) < imax q) then
    let cap := grow (Queue (iheap q) (icapacity q) (imax q)) in
    let h := iheap q ++ [elem] in
    let pos := if decide (zlen (positions q) <= slot elem)
               then positions q ++ replicate (Z.to_nat (slot elem + 1 - zlen (positions q))) 0
               else positions q in
    '(index, h, pos) ← siftUpLoop (length h) elem (zlen h - 1) h pos;
    '(h, pos) ← place index elem h pos;
    Some (Indexed h pos cap (imax q))
  else None.

Definition iinsertWithOverflow (elem : A) (q : indexed) : option (bool * indexed) :=
  if decide (zlen (iheap q) < imax q) then q ← iinsert elem q; Some (false, q)
  else
    t ← (iheap q).[0];
    if comp elem t then
      h ← zset (iheap q) 0 elem;
      q ← iupdateTop (Indexed h (positions q) (icapacity q) (imax q));
      Some (true, q)
    else Some (false, q).

End indexed.
End ExpandingPQ.

(** * IndirectPQ *)

Module IndirectPQ.
Section indirect.
Context {A ptr : Type} (Comp : A -> A -> bool).

(** The span of pointers and the number of them before [end].  Memory is the function
    from pointers to the elements they point at. *)
Record queue := Queue { pointers : list ptr; size : Z }.

Definition ptrcomp (deref : ptr -> A) (a b : ptr) : bool := Comp (deref a) (deref b).

Context `{!forall deref, HeapAlg (ptrcomp deref)}.

Definition live (q : queue) : list ptr := take (Z.to_nat (size q)) (pointers q).
Definition with_live (l : list ptr) (q : queue) : list ptr := l ++ drop (Z.to_nat (size q)) (pointers q).

Definition makeHeap (deref : ptr -> A) (q : queue) : queue :=
  Queue (with_live (make_heap (ptrcomp deref) (live q)) q) (size q).

Definition heapify := makeHeap.

Definition reset (deref : ptr -> A) (count : Z) (q : queue) : option queue :=
  if decide (count <= zlen (pointers q)) then Some (makeHeap deref (Queue (pointers q) count)) else None.

(** The form over pre-filled pointers. *)
Definition make (deref : ptr -> A) (ptrs : list ptr) : queue := makeHeap deref (Queue ptrs (zlen ptrs)).

Definition top (q : queue) : option ptr := (pointers q).[0].

Definition updateTop (deref : ptr -> A) (q : queue) : option (bool * queue) :=
  '(l, changed) ← update_heap_top (ptrcomp deref) (live q);
  Some (changed, Queue (with_live l q) (size q)).

Definition removeTop (deref : ptr -> A) (q : queue) : option (ptr * queue) :=
  let q' := Queue (with_live (pop_heap (ptrcomp deref) (live q)) q) (size q - 1) in
  p ← (pointers q').[size q']; Some (p, q').

Definition remove (idx : Z) (q : queue) : option (ptr * queue) :=
  if decide (idx < size q) then
    a ← (pointers q).[idx];
    b ← (pointers q).[size q - 1];
    h ← zset (pointers q) idx b;
    h ← zset h (size q - 1) a;
    p ← h.[size q - 1];
    Some (p, Queue h (size q - 1))
  else None.

(** The ejected pointer, [None] for null. *)
Definition insertWithOverflow (deref : ptr -> A) (newVal : ptr) (q : queue) : option (option ptr * queue) :=
  if decide (size q < zlen (pointers q)) then
    h ← zset (pointers q) (size q) newVal;
    let q := Queue h (size q + 1) in
    Some (None, Queue (with_live (push_heap (ptrcomp deref) (live q)) q) (size q))
  else
    t ← (pointers q).[0];
    if ptrcomp deref newVal t then
      h ← zset (pointers q) 0 newVal;
      '(_, q) ← updateTop deref (Queue h (size q));
      Some (Some t, q)
    else Some (Some newVal, q).

End indirect.
End IndirectPQ.

(** * IndexedPQ *)

Module IndexedPQ.
Section indexed.
Context {A : Type} (Comp : A -> A -> bool).

Record queue := Queue { underlying : list A; heap : list Z; heapSize : Z }.

(** The order of two indexes by the elements there; an index outside the array, which no
    operation below compares, is below every other. *)
Definition comparator (u : list A) (a b : Z) : bool :=
  match u.[a], u.[b] with
  | Some x, Some y => Comp x y
  | None, Some _ => true
  | _, None => false
  end.

Context `{!forall u, HeapAlg (comparator u)}.

Definition live (q : queue) : list Z := take (Z.to_nat (heapSize q)) (heap q).
Definition with_live (l : list Z) (q : queue) : list Z := l ++ drop (Z.to_nat (heapSize q)) (heap q).

Definition makeHeap (q : queue) : queue :=
  Queue (underlying q) (with_live (make_heap (comparator (underlying q)) (live q)) q) (heapSize q).

(** The constructor that fills the indexes, and the one given a size. *)
Definition fill (u : list A) (indexes : list Z) : option queue :=
  if decide (zlen u = zlen indexes)
  then Some (makeHeap (Queue u (seqZ 0 (zlen indexes)) (zlen indexes))) else None.

Definition make (u : list A) (indexes : list Z) (size : Z) : option queue :=
  if decide (zlen u >= zlen indexes /\ size <= zlen indexes)
  then Some (makeHeap (Queue u indexes size)) else None.

Definition indexOfTop (q : queue) : option Z := (heap q).[0].
Definition top (q : queue) : option A := i ← indexOfTop q; (underlying q).[i].
Definition size (q : queue) : Z := heapSize q.
Definition capacity (q : queue) : Z := zlen (heap q).

Definition updateTop (q : queue) : option queue :=
  '(l, _) ← update_heap_top (comparator (underlying q)) (live q);
  Some (Queue (underlying q) (with_live l q) (heapSize q)).

Definition removeTopIndex (q : queue) : option (Z * queue) :=
  let h := with_live (pop_heap (comparator (underlying q)) (live q)) q in
  i ← h.[heapSize q - 1]; Some (i, Queue (underlying q) h (heapSize q - 1)).

Definition removeTop (q : queue) : option (A * queue) :=
  '(i, q) ← removeTopIndex q; x ← (underlying q).[i]; Some (x, q).

Definition insert (elem : A) (q : queue) : option queue :=
  if decide (heapSize q < zlen (heap q)) then
    u ← zset (underlying q) (heapSize q) elem;
    h ← zset (heap q) (heapSize q) (heapSize q);
    let q := Queue u h (heapSize q + 1) in
    Some (Queue u (with_live (push_heap (comparator u) (live q)) q) (heapSize q))
  else None.

Definition insertWithOverflow (elem : A) (q : queue) : option (bool * queue) :=
  if decide (heapSize q < zlen (heap q)) then q ← insert elem q; Some (false, q)
  else
    t ← top q;
    if Comp elem t then
      i ← indexOfTop q;
      u ← zset (underlying q) i elem;
      q ← updateTop (Queue u (heap q) (heapSize q));
      Some (true, q)
    else Some (false, q).

End indexed.
End IndexedPQ.

(** * Sifting *)

Section sifting.
Context {A : Type} (comp : A -> A -> bool) `{!StrictWeak comp}.

Lemma parent_range i : 0 < i -> 0 <= (i - 1) / 2 < i.
Proof. intros. pose proof (Z.div_mod (i - 1) 2 ltac:(lia)). pose proof (Z.mod_pos_bound (i - 1) 2). lia. Qed.

Lemma child_cases i h : 0 < i -> (i - 1) / 2 = h <-> i = 2 * h + 1 \/ i = 2 * h + 2.
Proof. intros. pose proof (Z.div_mod (i - 1) 2 ltac:(lia)). pose proof (Z.mod_pos_bound (i - 1) 2). lia. Qed.

(** The array with its hole filled. *)
Definition filled (h : list A) (hole : Z) (v : A) : list A := <[Z.to_nat hole := v]> h.

(** The order between parents and children that holds around the hole: everywhere but
    below it (above it), and between its parent and its children. *)
Definition down_inv (h : list A) (hole : Z) (v : A) : Prop :=
  0 <= hole < zlen h /\
  forall i x y, 0 < i -> (filled h hole v).[i] = Some y ->
    ((i - 1) / 2 <> hole -> (filled h hole v).[(i - 1) / 2] = Some x -> comp x y = false) /\
    ((i - 1) / 2 = hole -> 0 < hole -> (filled h hole v).[(hole - 1) / 2] = Some x -> comp x y = false).

Definition up_inv (h : list A) (hole : Z) (v : A) : Prop :=
  0 <= hole < zlen h /\
  forall i x y, 0 < i -> (filled h hole v).[i] = Some y ->
    (i <> hole -> (filled h hole v).[(i - 1) / 2] = Some x -> comp x y = false) /\
    ((i - 1) / 2 = hole -> 0 < hole -> (filled h hole v).[(hole - 1) / 2] = Some x -> comp x y = false).

Lemma filled_get h hole v i :
  0 <= hole < zlen h -> (filled h hole v).[i] = if decide (hole = i) then Some v else h.[i].
Proof. apply zget_insert. Qed.

Lemma filled_self h hole v : h.[hole] = Some v -> filled h hole v = h.
Proof.
  intros E. unfold filled. apply list_insert_id. pose proof (zget_Some_range _ _ _ E).
  unfold zget in E. by rewrite decide_True in E by lia.
Qed.

Lemma filled_len h hole v : zlen (filled h hole v) = zlen h.
Proof. apply zlen_insert. Qed.

(** Moving an element into the hole and leaving the hole in its place. *)
Lemma filled_move_perm h hole v c x :
  0 <= hole < zlen h -> c <> hole -> h.[c] = Some x -> filled (filled h hole x) c v ≡ₚ filled h hole v.
Proof.
  intros Hh Hc Hx. pose proof (zget_Some_range _ _ _ Hx).
  unfold filled. rewrite <- (list_insert_insert_eq h (Z.to_nat hole) x v).
  apply Permutation_insert_swap.
  - apply list_lookup_insert_eq. unfold zlen in Hh. lia.
  - rewrite list_lookup_insert_ne by lia. unfold zget in Hx. by rewrite decide_True in Hx by lia.
Qed.

Ltac filled_cases :=
  repeat (first
    [ match goal with
      | H : (filled _ _ _).[_] = Some _ |- _ => rewrite filled_get in H by (rewrite ?filled_len; lia)
      | |- (filled _ _ _).[_] = Some _ => rewrite filled_get by (rewrite ?filled_len; lia)
      end
    | case_decide; try lia ]);
  simplify_eq/=; try lia; try done.

Lemma down_step h hole v c x :
  down_inv h hole v -> c = 2 * hole + 1 \/ c = 2 * hole + 2 -> h.[c] = Some x -> comp v x = true ->
  (forall i y, i = 2 * hole + 1 \/ i = 2 * hole + 2 -> h.[i] = Some y -> comp x y = false) ->
  down_inv (filled h hole x) c v.
Proof.
  intros [Hh Hinv] Hc Hx Hlt Hsib. pose proof (zget_Some_range _ _ _ Hx).
  split; [rewrite filled_len; lia|]. intros i a b Hi Hb.
  pose proof (parent_range i Hi). pose proof (child_cases i hole Hi). pose proof (child_cases i c Hi).
  pose proof (Hinv i a b Hi) as Ho. split.
  - intros Hp Ha. destruct (decide (i = hole)) as [->|Hih].
    + assert (b = x) as -> by (filled_cases; congruence).
      refine (proj2 (Hinv c a x ltac:(lia) _) _ _ _); [filled_cases|apply child_cases; lia|lia|filled_cases].
    + destruct (decide ((i - 1) / 2 = hole)) as [Ehole|Hnh].
      * assert (a = x) as -> by (filled_cases; congruence).
        destruct (decide (i = c)) as [->|]; [|apply (Hsib i); [tauto|filled_cases]].
        assert (b = v) as -> by (filled_cases; congruence). by apply sw_asym.
      * refine (proj1 (Ho _) _ _); [filled_cases|done|filled_cases].
  - intros Hp Hc0 Ha. assert ((c - 1) / 2 = hole) as Ec by (apply child_cases; lia). rewrite Ec in Ha.
    assert (a = x) as -> by (filled_cases; congruence).
    refine (proj1 (Hinv i x b Hi _) _ _); [filled_cases|lia|rewrite Hp; filled_cases].
Qed.

Lemma down_stop h hole v :
  down_inv h hole v ->
  (forall i y, i = 2 * hole + 1 \/ i = 2 * hole + 2 -> h.[i] = Some y -> comp v y = false) ->
  is_heap comp (filled h hole v).
Proof.
  intros [Hh Hinv] Hstop i x y Hi Hx Hy. pose proof (child_cases i hole Hi).
  destruct (decide ((i - 1) / 2 = hole)) as [E|]; [|by refine (proj1 (Hinv i x y Hi Hy) _ Hx)].
  pose proof (parent_range i Hi). rewrite E in Hx. filled_cases. apply (Hstop i); [tauto|done].
Qed.

Lemma up_step h hole v x :
  up_inv h hole v -> 0 < hole -> h.[(hole - 1) / 2] = Some x -> comp x v = true ->
  up_inv (filled h hole x) ((hole - 1) / 2) v.
Proof.
  intros [Hh Hinv] H0 Hx Hlt. pose proof (parent_range hole H0). set (p := (hole - 1) / 2) in *.
  assert (comp v x = false) as Hvx by by apply sw_asym.
  assert (forall i y, i <> hole -> 0 < i -> (i - 1) / 2 = p -> h.[i] = Some y -> comp x y = false) as Hsib.
  { intros i y Hih Hi Ep Hy. refine (proj1 (Hinv i x y Hi _) _ _); [filled_cases|done|rewrite Ep; filled_cases]. }
  split; [rewrite filled_len; lia|]. intros i a b Hi Hb. pose proof (parent_range i Hi). split.
  - intros Hip Ha. destruct (decide (i = hole)) as [->|Hih].
    + assert (a = v) as -> by (fold p in Ha; filled_cases; congruence).
      assert (b = x) as -> by (filled_cases; congruence). done.
    + destruct (decide ((i - 1) / 2 = p)) as [Ep|Hnp].
      * rewrite Ep in Ha. assert (a = v) as -> by (filled_cases; congruence).
        apply (sw_negtrans v x b); [done|]. apply (Hsib i); [done..|filled_cases].
      * destruct (decide ((i - 1) / 2 = hole)) as [Eh|].
        -- rewrite Eh in Ha. assert (a = x) as -> by (filled_cases; congruence).
           refine (proj2 (Hinv i x b Hi _) _ _ _); [filled_cases|done|done|]. fold p. filled_cases.
        -- refine (proj1 (Hinv i a b Hi _) _ _); [filled_cases|done|filled_cases].
  - intros Ep Hp Ha. pose proof (parent_range p Hp).
    assert (comp a x = false) as Hax.
    { refine (proj1 (Hinv p a x Hp _) _ _); [filled_cases|lia|filled_cases]. }
    destruct (decide (i = hole)) as [->|]; [assert (b = x) as -> by (filled_cases; congruence); done|].
    apply (sw_negtrans a x b); [done|]. apply (Hsib i); [done..|filled_cases].
Qed.

Lemma up_stop h hole v :
  up_inv h hole v -> (forall x, 0 < hole -> h.[(hole - 1) / 2] = Some x -> comp x v = false) ->
  is_heap comp (filled h hole v).
Proof.
  intros [Hh Hinv] Hstop i x y Hi Hx Hy.
  destruct (decide (i = hole)) as [->|]; [|by refine (proj1 (Hinv i x y Hi Hy) _ Hx)].
  pose proof (parent_range hole Hi). filled_cases. by apply Hstop.
Qed.

(** A heap whose entry at [hole] was lowered. *)
Lemma down_inv_lower h hole u v :
  is_heap comp h -> h.[hole] = Some u -> (0 < hole -> comp u v = false) -> down_inv h hole v.
Proof.
  intros Hheap Hu Huv. pose proof (zget_Some_range _ _ _ Hu) as Hr. split; [done|].
  intros i x y Hi Hy. pose proof (parent_range i Hi). split.
  - intros Hp Hx. destruct (decide (i = hole)) as [->|].
    + filled_cases. apply (sw_negtrans x u y); [by apply (Hheap hole)|by apply Huv].
    + filled_cases. by apply (Hheap i).
  - intros Hp H0 Hx. pose proof (parent_range hole H0).
    assert (h.[(hole - 1) / 2] = Some x) by filled_cases. assert (h.[i] = Some y) by filled_cases.
    apply (sw_negtrans x u y); [by apply (Hheap hole)|]. apply (Hheap i); [done|by rewrite Hp|done].
Qed.

Lemma up_inv_push h v : is_heap comp h -> up_inv (h ++ [v]) (zlen h) v.
Proof.
  intros Hheap. pose proof (zlen_nonneg h). split; [zlen|].
  intros i x y Hi Hy. pose proof (zget_Some_range _ _ _ Hy) as Hr. rewrite filled_len in Hr. zlen.
  pose proof (parent_range i Hi). split; [|intros; lia].
  intros Hne Hx.
  rewrite filled_get in Hx by (zlen; lia). rewrite decide_False, zget_app_l in Hx by lia.
  rewrite filled_get in Hy by (zlen; lia). rewrite decide_False, zget_app_l in Hy by lia.
  by apply (Hheap i).
Qed.

(** The top is not below any element. *)
Lemma heap_top_max t l y : is_heap comp (t :: l) -> y ∈ l -> comp t y = false.
Proof.
  intros Hheap Hy. assert (exists i, 0 < i /\ (t :: l).[i] = Some y) as (i & Hi & Ei).
  { apply zget_elem in Hy as [i Ei]. pose proof (zget_Some_range _ _ _ Ei). exists (i + 1).
    rewrite zget_cons_pos by lia. split; [lia|]. by replace (i + 1 - 1) with i by lia. }
  clear Hy. revert y Ei Hi.
  induction i as [i IH] using (well_founded_induction (Z.lt_wf 0)). intros y Ei Hi. pose proof (parent_range i Hi).
  pose proof (zget_Some_range _ _ _ Ei).
  destruct (zget_in (t :: l) ((i - 1) / 2)) as [x Ex]; [lia|].
  pose proof (Hheap i x y Hi Ex Ei) as Hxy.
  destruct (decide (0 < (i - 1) / 2)).
  - apply (sw_negtrans t x y); [|done]. apply (IH ((i - 1) / 2)); [lia|done|done].
  - assert ((i - 1) / 2 = 0) as E0 by lia. rewrite E0 in Ex. by injection Ex as ->.
Qed.

Lemma is_heap_nil : is_heap comp [].
Proof. intros i x y Hi _ Hy. by apply zget_Some_range in Hy; zlen. Qed.

Lemma is_heap_one x : is_heap comp [x].
Proof. intros i a b Hi _ Hy. apply zget_Some_range in Hy; zlen. Qed.

Lemma is_heap_prefix l k : is_heap comp (l ++ k) -> is_heap comp l.
Proof.
  intros H i x y Hi Hx Hy. pose proof (zget_Some_range _ _ _ Hx). pose proof (zget_Some_range _ _ _ Hy).
  apply (H i); [done|rewrite zget_app_l by lia; done..].
Qed.

End sifting.

(** * update_heap_top restores the heap *)

Section update_theory.
Context {A : Type} (comp : A -> A -> bool) `{!StrictWeak comp}.

(** Of the children of a hole, the loops compare with the larger. *)
Definition larger_child (h : list A) (hole c : Z) (x : A) : Prop :=
  (c = 2 * hole + 1 \/ c = 2 * hole + 2) /\ h.[c] = Some x /\
  (forall i y, i = 2 * hole + 1 \/ i = 2 * hole + 2 -> h.[i] = Some y -> comp x y = false).

Lemma comp_irrefl x : comp x x = false.
Proof. destruct (comp x x) eqn:E; [|done]. by rewrite <- (sw_asym x x E). Qed.

Lemma larger_child_two h hole a b :
  h.[2 * hole + 1] = Some a -> h.[2 * hole + 2] = Some b ->
  larger_child h hole (if comp a b then 2 * hole + 2 else 2 * hole + 1) (if comp a b then b else a).
Proof.
  intros Ha Hb. destruct (comp a b) eqn:E; (split; [tauto|]); (split; [done|]);
    intros i y [-> | ->] Hy; simplify_eq; auto using comp_irrefl, sw_asym.
Qed.

Lemma larger_child_one h hole a :
  h.[2 * hole + 1] = Some a -> zlen h <= 2 * hole + 2 -> larger_child h hole (2 * hole + 1) a.
Proof.
  intros Ha Hl. split; [tauto|]. split; [done|].
  intros i y [-> | ->] Hy; simplify_eq; [apply comp_irrefl|].
  apply zget_Some_range in Hy. lia.
Qed.

(** What a descent from [hole] leaves: the same elements in heap order, and a hole that
    moved only if a larger element now stands where it was. *)
Definition descended (h : list A) (hole : Z) (v : A) (h' : list A) (hole' : Z) : Prop :=
  zlen h' = zlen h /\ hole <= hole' < zlen h' /\ is_heap comp (filled h' hole' v) /\
  filled h' hole' v ≡ₚ filled h hole v /\ (forall i, i < hole -> h'.[i] = h.[i]) /\
  (hole' = hole /\ h' = h \/ hole < hole' /\ exists x, h'.[hole] = Some x /\ comp v x = true).

Lemma descended_stop h hole v :
  down_inv comp h hole v ->
  (zlen h <= 2 * hole + 1 \/ exists c x, larger_child h hole c x /\ comp v x = false) ->
  descended h hole v h hole.
Proof.
  intros Hinv Hstop. pose proof Hinv as [Hr _]. split_and!; [done|lia|lia| |done|done|by left].
  apply down_stop; [done|]. intros i y Hi Hy. destruct Hstop as [Hl|(c & x & (_ & _ & Hmax) & Hv)].
  - apply zget_Some_range in Hy. lia.
  - apply (sw_negtrans v x y); [done|]. by apply (Hmax i).
Qed.

Lemma descended_move h hole v c x h' hole' :
  0 <= hole < zlen h -> larger_child h hole c x -> comp v x = true ->
  descended (filled h hole x) c v h' hole' -> descended h hole v h' hole'.
Proof.
  intros Hr (Hc & Hx & _) Hv (Hl & Hh & Hheap & Hp & Hpre & _).
  pose proof (zget_Some_range _ _ _ Hx). rewrite filled_len in Hl.
  split_and!; [done|lia|lia|done| | |].
  - rewrite Hp. apply filled_move_perm; [done|lia|done].
  - intros i Hi. rewrite Hpre, filled_get by lia. by rewrite decide_False by lia.
  - right. split; [lia|]. exists x. rewrite Hpre, filled_get by lia. by rewrite decide_True.
Qed.

Lemma updateLoop_spec fuel h v empty :
  down_inv comp h (empty - 1) v -> zlen h - empty < Z.of_nat fuel ->
  exists h' empty', updateLoop comp fuel h (zlen h + 1) v empty = Some (h', empty') /\
    descended h (empty - 1) v h' (empty' - 1).
Proof.
  revert h empty. induction fuel as [|fuel IH]; intros h empty Hinv Hfuel.
  { destruct Hinv as [Hr _]. lia. }
  pose proof Hinv as [Hr _]. cbn [updateLoop].
  set (hole := empty - 1) in *. replace (empty * 2) with (2 * hole + 2) by lia.
  assert (zlen h <= 2 * hole + 1 \/ exists c x, larger_child h hole c x /\
    (if decide (2 * hole + 2 + 1 < zlen h + 1) then
             a ← h.[2 * hole + 2 - 1]; b ← h.[2 * hole + 2 + 1 - 1];
             Some (if comp a b then 2 * hole + 2 + 1 else 2 * hole + 2)
           else Some (2 * hole + 2)) = Some (c + 1)) as Hchild.
  { destruct (decide (zlen h <= 2 * hole + 1)) as [|Hl]; [by left|]. right.
    destruct (zget_in h (2 * hole + 1)) as [a Ea]; [lia|].
    replace (2 * hole + 2 - 1) with (2 * hole + 1) by lia.
    replace (2 * hole + 2 + 1 - 1) with (2 * hole + 2) by lia. case_decide as Hd.
    - destruct (zget_in h (2 * hole + 2)) as [b Eb]; [lia|].
      eexists _, _. split; [by apply larger_child_two|]. rewrite Ea, Eb. opt.
      f_equal. destruct (comp a b); lia.
    - eexists _, _. split; [apply larger_child_one; [done|lia]|]. opt. f_equal. lia. }
  destruct Hchild as [Hl|(c & x & Hlc & Ec)].
  - rewrite decide_False by lia. opt. rewrite decide_True by lia.
    exists h, empty. split; [done|]. apply descended_stop; auto.
  - cbv zeta. rewrite Ec. opt. pose proof Hlc as (Hc & Hx & Hmax).
    pose proof (zget_Some_range _ _ _ Hx). rewrite decide_False by lia.
    replace (c + 1 - 1) with c by lia. rewrite Hx. opt. destruct (comp v x) eqn:Ev.
    + rewrite zset_in by lia. opt.
      destruct (IH (filled h hole x) (c + 1)) as (h' & e' & E & Hd).
      * replace (c + 1 - 1) with c by lia. by apply down_step.
      * rewrite filled_len. lia.
      * rewrite filled_len in E. replace (c + 1 - 1) with c in Hd by lia.
        exists h', e'. split; [exact E|]. by eapply descended_move.
    + exists h, empty. split; [done|]. apply descended_stop; [done|]. right. eauto.
Qed.

Lemma update_heap_top_down x l :
  down_inv comp (x :: l) 0 x ->
  exists l' b, update_heap_top comp (x :: l) = Some (l', b) /\ is_heap comp l' /\ l' ≡ₚ x :: l /\
    (b = false -> l' = x :: l) /\ (b = true -> exists t, head l' = Some t /\ comp x t = true).
Proof.
  intros Hinv. unfold update_heap_top. pose proof (zlen_nonneg l).
  rewrite decide_True by (zlen; lia). replace (1 - 1) with 0 by lia. rewrite zget_cons_0. opt.
  destruct (updateLoop_spec (Z.to_nat (zlen (x :: l) + 1)) (x :: l) x 1) as (h' & e' & -> & Hd).
  { by replace (1 - 1) with 0 by lia. }
  { zlen. }
  destruct Hd as (Hl & Hr & Hh & Hp & _ & Hcase). replace (1 - 1) with 0 in * by lia.
  opt. rewrite zset_in by lia. opt. fold (filled h' (e' - 1) x). eexists _, _. split; [done|].
  split; [done|]. split; [exact Hp|]. destruct Hcase as [[He ->]|[He (t & Ht & Hv)]].
  - rewrite (proj2 (Z.eqb_eq e' 1)) by lia. split; [|done]. intros _. by rewrite He.
  - rewrite (proj2 (Z.eqb_neq e' 1)) by lia. split; [done|]. intros _. exists t. split; [|done].
    rewrite head_lookup. change ((filled h' (e' - 1) x).[0] = Some t).
    rewrite filled_get by lia. by rewrite decide_False by lia.
Qed.

(** A heap whose top was replaced, and one whose top changed its place in the order. *)
Lemma down_inv_replaced x y l : is_heap comp (y :: l) -> down_inv comp (x :: l) 0 x.
Proof.
  intros Hheap. assert (down_inv comp (y :: l) 0 x) as [? Hi]
    by (apply (down_inv_lower comp _ _ y); [done|done|lia]). by split.
Qed.

Lemma down_inv_agree (comp' : A -> A -> bool) t l :
  is_heap comp' (t :: l) -> (forall x y, x ∈ l -> y ∈ l -> comp x y = comp' x y) -> down_inv comp (t :: l) 0 t.
Proof.
  intros Hheap Heq. pose proof (zlen_nonneg l). split; [zlen|]. rewrite (filled_self (t :: l) 0 t) by done.
  intros i x y Hi Hy. split; [|lia]. intros Hp Hx. rewrite Heq; [by apply (Hheap i)|..].
  - pose proof (parent_range i Hi). rewrite zget_cons_pos in Hx by lia. by eapply zget_elem_1.
  - rewrite zget_cons_pos in Hy by lia. by eapply zget_elem_1.
Qed.

Lemma update_heap_top_filled x y l :
  is_heap comp (y :: l) ->
  exists l' b, update_heap_top comp (x :: l) = Some (l', b) /\ is_heap comp l' /\ l' ≡ₚ x :: l /\
    (b = false -> l' = x :: l) /\ (b = true -> exists t, head l' = Some t /\ comp x t = true).
Proof. intros Hheap. by eapply update_heap_top_down, down_inv_replaced. Qed.

End update_theory.

(** * The standard heap algorithms as a binary heap *)

Section binary.
Context {A : Type} (comp : A -> A -> bool).

Fixpoint bubble (fuel : nat) (h : list A) (v : A) (hole : Z) : list A :=
  match fuel, h.[(hole - 1) / 2] with
  | S fuel, Some p =>
      if bool_decide (0 < hole) && comp p v then bubble fuel (filled h hole p) v ((hole - 1) / 2)
      else filled h hole v
  | _, _ => filled h hole v
  end.

Definition binary_push (l : list A) : list A :=
  match last l with Some v => bubble (length l) l v (zlen l - 1) | None => l end.

Definition binary_pop (l : list A) : list A :=
  match l with
  | [] => []
  | x :: l =>
      match last l with
      | None => [x]
      | Some y => from_option fst [] (update_heap_top comp (y :: take (length l - 1) l)) ++ [x]
      end
  end.

#[export] Instance binary_heap : HeapAlg comp := {
  make_heap l := foldl (fun h x => binary_push (h ++ [x])) [] l;
  push_heap := binary_push;
  pop_heap := binary_pop;
}.

Context `{!StrictWeak comp}.

Lemma bubble_spec fuel h v hole :
  up_inv comp h hole v -> hole < Z.of_nat fuel ->
  is_heap comp (bubble fuel h v hole) /\ bubble fuel h v hole ≡ₚ filled h hole v.
Proof.
  revert h hole. induction fuel as [|fuel IH]; intros h hole Hinv Hf.
  { destruct Hinv as [? _]. lia. }
  pose proof Hinv as [Hr _]. simpl bubble.
  assert ((forall x, 0 < hole -> h.[(hole - 1) / 2] = Some x -> comp x v = false) ->
    is_heap comp (filled h hole v) /\ filled h hole v ≡ₚ filled h hole v) as Hstop
    by (intros; split; [by apply up_stop|done]).
  destruct (h.[(hole - 1) / 2]) as [p|] eqn:Ep; [|by apply Hstop].
  case_bool_decide as H0; simpl; [|by apply Hstop]. destruct (comp p v) eqn:Ec; [|apply Hstop; intros; by simplify_eq].
  pose proof (parent_range hole H0).
  destruct (IH (filled h hole p) ((hole - 1) / 2)) as [Hh Hp]; [by apply up_step|lia|].
  split; [done|]. rewrite Hp. apply filled_move_perm; [done|lia|done].
Qed.

Lemma binary_push_spec l x :
  is_heap comp l -> is_heap comp (binary_push (l ++ [x])) /\ binary_push (l ++ [x]) ≡ₚ l ++ [x].
Proof.
  intros Hl. unfold binary_push. rewrite last_snoc.
  assert (zlen (l ++ [x]) - 1 = zlen l) as -> by (zlen; simpl; lia).
  destruct (bubble_spec (length (l ++ [x])) (l ++ [x]) x (zlen l)) as [H1 H2].
  - by apply up_inv_push.
  - unfold zlen. rewrite length_app. simpl. lia.
  - split; [done|]. rewrite H2, filled_self; [done|].
    by rewrite zget_app_r, Z.sub_diag by lia.
Qed.

Lemma binary_pop_spec x l :
  is_heap comp (x :: l) ->
  exists l', binary_pop (x :: l) = l' ++ [x] /\ is_heap comp l' /\ l' ≡ₚ l.
Proof.
  intros Hl. destruct l as [|y k _] using rev_ind; simpl.
  { exists []. split; [done|]. split; [apply is_heap_nil|done]. }
  rewrite last_snoc, length_app, take_app_length' by (simpl; lia).
  assert (is_heap comp (x :: k)) as Hk by (by apply (is_heap_prefix comp (x :: k) [y])).
  destruct (update_heap_top_filled comp y x k Hk) as (l' & b & -> & Hh & Hp & _).
  exists l'. split; [done|]. split; [done|]. rewrite Hp. apply Permutation_cons_append.
Qed.

#[export] Instance binary_heap_laws : HeapLaws comp.
Proof.
  assert (forall l, is_heap comp (make_heap comp l) /\ make_heap comp l ≡ₚ l) as Hmake.
  { intros l. induction l as [|x l [IH1 IH2]] using rev_ind; [split; [apply is_heap_nil|done]|].
    cbn [make_heap binary_heap] in *. rewrite foldl_app. simpl.
    destruct (binary_push_spec _ x IH1) as [H1 H2]. split; [done|]. by rewrite H2, IH2. }
  split.
  - apply Hmake.
  - apply Hmake.
  - intros. by apply binary_push_spec.
  - intros. by apply binary_push_spec.
  - apply binary_pop_spec.
Qed.

End binary.

#[export] Instance ltb_strict_weak : StrictWeak Z.ltb.
Proof. split; intros *; rewrite ?Z.ltb_lt, ?Z.ltb_ge; lia. Qed.

(** [update_heap_top] after the top was overwritten.  On a heap whose first element
    was replaced by any value, the call succeeds, the result is a heap of the same
    elements, the range is unchanged when it returns false, and when it returns true a
    larger element has become the top. *)
Theorem update_heap_top_spec {A} (comp : A -> A -> bool) `{!StrictWeak comp} (x y : A) (l : list A)
    (Hheap : is_heap comp (y :: l)) :
  exists l' changed, update_heap_top comp (x :: l) = Some (l', changed) /\
    is_heap comp l' /\ l' ≡ₚ x :: l /\
    (changed = false -> l' = x :: l) /\
    (changed = true -> exists t, head l' = Some t /\ comp x t = true).
Proof. by apply (update_heap_top_filled comp x y). Qed.

Definition example_heap : list Z := [9; 7; 8; 3; 6; 1; 2].

Lemma example_is_heap : is_heap Z.ltb example_heap.
Proof.
  assert (forallb (fun i => match example_heap.[(i - 1) / 2], example_heap.[i] with
    | Some x, Some y => negb (x <? y) | _, _ => false end) (seqZ 1 6) = true) as E by reflexivity.
  rewrite forallb_forall in E. intros i x y Hi Hx Hy.
  pose proof (zget_Some_range _ _ _ Hy) as Hr. change (zlen example_heap) with 7 in Hr.
  specialize (E i ltac:(apply list_elem_of_In, elem_of_seqZ; lia)). rewrite Hx, Hy in E.
  by apply negb_true_iff in E.
Qed.

Lemma update_heap_top_witness :
  exists l' changed, update_heap_top Z.ltb (5 :: [7; 8; 3; 6; 1; 2]) = Some (l', changed) /\
    is_heap Z.ltb l' /\ l' = [8; 7; 5; 3; 6; 1; 2] /\ changed = true.
Proof.
  destruct (update_heap_top_spec Z.ltb 5 9 [7; 8; 3; 6; 1; 2] example_is_heap)
    as (l' & c & E & Hh & _). exists l', c. split; [exact E|]. split; [exact Hh|].
  vm_compute in E. by injection E as <- <-.
Defined.
