(* ===== verification/HeapQueues.v ===== *)
(** What the bounded queues of [luxir/util/heap.h] keep.  [BoundedPQ] is the interface a
    top-k collector uses, an offer that inserts, ejects the top or refuses; the theorem on
    a stream of offers is proved against it, and [DirectPQ], [ExpandingPQ] and
    [IndexedPQ] implement it.  The indexed form of [ExpandingPQ] keeps its table of
    positions. *)

From S2P Require Import Prelude Heap.

(** * The interface *)

Class BoundedPQ {A} (comp : A -> A -> bool) (Q : Type) := {
  queue_ok : Q -> Prop;
  contents : Q -> list A;
  bound : Q -> Z;
  offer : A -> Q -> option (bool * Q);
}.
Arguments queue_ok {A comp Q _} _.
Arguments contents {A comp Q _} _.
Arguments bound {A comp Q _} _.
Arguments offer {A comp Q _} _ _.

(** The answer to an offer: room for it, or the largest element against it. *)
Inductive answered {A} (comp : A -> A -> bool) (k : Z) (elem : A) (l l' : list A) : bool -> Prop :=
| answered_room : zlen l < k -> l' ≡ₚ elem :: l -> answered comp k elem l l' false
| answered_eject t rest : zlen l = k -> l ≡ₚ t :: rest -> (forall y, y ∈ rest -> comp t y = false) ->
    comp elem t = true -> l' ≡ₚ elem :: rest -> answered comp k elem l l' true
| answered_refuse t rest : zlen l = k -> l ≡ₚ t :: rest -> (forall y, y ∈ rest -> comp t y = false) ->
    comp elem t = false -> l' = l -> answered comp k elem l l' false.

Class BoundedLaws {A} (comp : A -> A -> bool) Q `{!BoundedPQ comp Q} : Prop := {
  offer_spec elem (q : Q) : queue_ok q -> 0 < bound q ->
    exists b q', offer elem q = Some (b, q') /\ queue_ok q' /\ bound q' = bound q /\
      answered comp (bound q) elem (contents q) (contents q') b;
}.

(** A stream of offers; the answers, and the queue after them. *)
Fixpoint offers {A} (comp : A -> A -> bool) `{!BoundedPQ comp Q} (xs : list A) (q : Q) : option (list bool * Q) :=
  match xs with
  | [] => Some ([], q)
  | x :: xs => '(b, q) ← offer x q; '(bs, q) ← offers comp xs q; Some (b :: bs, q)
  end.

Section bounded.
Context {A : Type} (comp : A -> A -> bool) `{!StrictWeak comp} (Q : Type) `{!BoundedPQ comp Q, !BoundedLaws comp Q}.

(** [kept] are [k] smallest of [all], the others [rest]. *)
Definition smallest (k : Z) (all kept rest : list A) : Prop :=
  kept ++ rest ≡ₚ all /\ zlen kept = Z.min k (zlen all) /\
  forall x y, x ∈ rest -> y ∈ kept -> comp x y = false.

Lemma smallest_answered k all kept rest elem kept' b :
  0 < k -> smallest k all kept rest -> answered comp k elem kept kept' b ->
  exists rest', smallest k (all ++ [elem]) kept' rest'.
Proof.
  intros Hk (Hp & Hl & Hmin) Ha.
  assert (zlen all = zlen kept + zlen rest) as El.
  { unfold zlen. rewrite <- Hp, length_app. lia. }
  assert (forall l l' : list A, l ≡ₚ l' -> zlen l = zlen l') as zlen_perm.
  { intros l l' E. unfold zlen. by rewrite E. }
  pose proof (zlen_nonneg rest).
  destruct Ha as [Hroom Hk'|t r Hfull Ht Hmax Hlt Hk'|t r Hfull Ht Hmax Hge ->].
  - exists rest. assert (rest = []) as ->. { destruct rest as [|z rest]; [done|]. pose proof (zlen_nonneg rest). zlen. }
    split_and!.
    + rewrite <- Hp, Hk', !app_nil_r. apply Permutation_cons_append.
    + rewrite (zlen_perm _ _ Hk'). zlen.
    + intros x y Hx. set_solver.
  - exists (t :: rest). split_and!.
    + rewrite <- Hp, Hk', Ht, <- (Permutation_cons_append ((t :: r) ++ rest) elem). simpl. apply perm_skip.
      symmetry. apply Permutation_middle.
    + rewrite (zlen_perm _ _ Hk'). rewrite (zlen_perm _ _ Ht) in *. zlen.
    + assert (comp t elem = false) by by apply sw_asym.
      intros x y Hx Hy. rewrite Hk' in Hy.
      assert (comp x t = false \/ x = t) as Hxt.
      { apply elem_of_cons in Hx as [->|Hx]; [by right|]. left. apply Hmin; [done|]. rewrite Ht. by left. }
      assert (comp t y = false) as Hty by (apply elem_of_cons in Hy as [->|?]; auto).
      destruct Hxt as [Hxt| ->]; [by apply (sw_negtrans x t y)|done].
  - exists (elem :: rest). split_and!.
    + rewrite <- Hp, <- (Permutation_cons_append (kept ++ rest) elem). symmetry. apply Permutation_middle.
    + rewrite Hl. zlen.
    + intros x y Hx Hy. apply elem_of_cons in Hx as [->|Hx]; [|by apply Hmin].
      rewrite Ht in Hy. apply elem_of_cons in Hy as [->|Hy]; [done|].
      apply (sw_negtrans elem t y); [done|]. by apply Hmax.
Qed.

Lemma offers_spec xs q seen rest :
  queue_ok q -> 0 < bound q -> smallest (bound q) seen (contents q) rest ->
  exists bs q' rest', offers comp xs q = Some (bs, q') /\ queue_ok q' /\ bound q' = bound q /\
    smallest (bound q) (seen ++ xs) (contents q') rest'.
Proof.
  revert q seen rest. induction xs as [|x xs IH]; intros q seen rest Hq Hb Hs.
  { exists [], q, rest. by rewrite app_nil_r. }
  destruct (offer_spec x q Hq Hb) as (b & q1 & E & Hq1 & Hb1 & Ha). simpl. rewrite E. opt.
  destruct (smallest_answered _ _ _ _ _ _ _ Hb Hs Ha) as [rest1 Hs1]. rewrite <- Hb1 in Hs1.
  destruct (IH q1 _ _ Hq1 ltac:(lia) Hs1) as (bs & q' & rest' & E' & Hq' & Hb' & Hs').
  rewrite E'. opt. eexists _, q', rest'. split; [done|]. split; [done|]. split; [congruence|].
  rewrite <- Hb1. by rewrite <- app_assoc in Hs'.
Qed.

End bounded.

(** * The operations on a heap in a prefix of an array *)

Section prefix.
Context {A : Type} (comp : A -> A -> bool) `{!StrictWeak comp} `{!HeapAlg comp, !HeapLaws comp}.

Lemma heap_push_spec l x :
  is_heap comp l ->
  is_heap comp (push_heap comp (l ++ [x])) /\ push_heap comp (l ++ [x]) ≡ₚ x :: l.
Proof.
  intros Hl. split; [by apply push_heap_heap|]. rewrite push_heap_perm by done.
  symmetry. apply Permutation_cons_append.
Qed.

(** Inserting with the push that is skipped on a single element. *)
Lemma push_if_spec l x :
  is_heap comp l ->
  let l' := if decide (zlen (l ++ [x]) > 1) then push_heap comp (l ++ [x]) else l ++ [x] in
  is_heap comp l' /\ l' ≡ₚ x :: l.
Proof.
  intros Hl. case_decide as Hd; [by apply heap_push_spec|].
  destruct l; [split; [apply is_heap_one|done]|]. pose proof (zlen_nonneg l). zlen.
Qed.

Lemma replace_top_spec t rest elem :
  is_heap comp (t :: rest) ->
  exists l' b, update_heap_top comp (elem :: rest) = Some (l', b) /\ is_heap comp l' /\ l' ≡ₚ elem :: rest.
Proof.
  intros Hh. destruct (update_heap_top_filled comp elem t rest Hh) as (l' & b & E & H1 & H2 & _). eauto.
Qed.

Lemma take_snoc {B} (l : list B) n x :
  0 <= n < zlen l -> take (Z.to_nat (n + 1)) (<[Z.to_nat n := x]> l) = take (Z.to_nat n) l ++ [x].
Proof.
  intros Hr. unfold zlen in *. replace (Z.to_nat (n + 1)) with (S (Z.to_nat n)) by lia.
  rewrite (take_S_r _ _ x) by (apply list_lookup_insert_eq; lia). by rewrite take_insert_ge by lia.
Qed.

End prefix.

(** * DirectPQ *)

Section direct.
Context {A : Type} (comp : A -> A -> bool) `{!StrictWeak comp} `{!HeapAlg comp, !HeapLaws comp}.
Import DirectPQ.

Definition direct_ok (q : @queue A) : Prop :=
  0 <= heapSize q <= zlen (heap q) /\ is_heap comp (live q).

#[export] Instance direct_bounded : BoundedPQ comp (@queue A) := {
  queue_ok := direct_ok;
  contents := live;
  bound := capacity;
  offer := insertWithOverflow comp;
}.

Lemma live_with_live l (q : @queue A) n :
  zlen l = n -> live (Queue (with_live l q) n) = l.
Proof. intros <-. unfold live, with_live, zlen. simpl. rewrite Nat2Z.id. apply take_app_length. Qed.

Lemma live_len (q : @queue A) : 0 <= heapSize q <= zlen (heap q) -> zlen (live q) = heapSize q.
Proof. unfold live, zlen. intros. rewrite length_take. lia. Qed.

Lemma zlen_with_live l (q : @queue A) :
  0 <= heapSize q <= zlen (heap q) -> zlen l = heapSize q -> zlen (with_live l q) = zlen (heap q).
Proof. unfold with_live, zlen. intros. rewrite length_app, length_drop. lia. Qed.

Lemma zlen_perm {B} (l l' : list B) : l ≡ₚ l' -> zlen l = zlen l'.
Proof. intros E. unfold zlen. by rewrite E. Qed.

(** A queue whose live part is replaced by a heap of as many elements. *)
Lemma with_live_ok l (q : @queue A) :
  0 <= heapSize q <= zlen (heap q) -> zlen l = heapSize q -> is_heap comp l ->
  let q' := Queue (with_live l q) (heapSize q) in
  direct_ok q' /\ live q' = l /\ capacity q' = capacity q.
Proof.
  intros Hr Hl Hh q'. unfold direct_ok, capacity, q'. rewrite live_with_live by done. simpl.
  rewrite zlen_with_live by done. done.
Qed.

Lemma live_snoc (q : @queue A) elem :
  0 <= heapSize q < zlen (heap q) ->
  live (Queue (<[Z.to_nat (heapSize q) := elem]> (heap q)) (heapSize q + 1)) = live q ++ [elem].
Proof.
  intros Hr. by apply take_snoc.
Qed.

Lemma direct_insert_spec elem (q : @queue A) :
  direct_ok q -> heapSize q < zlen (heap q) ->
  exists q', insert comp elem q = Some q' /\ direct_ok q' /\ capacity q' = capacity q /\
    live q' ≡ₚ elem :: live q.
Proof.
  intros [Hr Hh] Hroom. unfold insert. rewrite decide_True, zset_in by lia. opt. simpl heapSize.
  set (q1 := Queue (<[Z.to_nat (heapSize q) := elem]> (heap q)) (heapSize q + 1)). eexists. split; [done|].
  assert (live q1 = live q ++ [elem]) as El by (apply live_snoc; lia).
  assert (0 <= heapSize q1 <= zlen (heap q1)) as Hr1 by (unfold q1; simpl; zlen).
  assert (capacity q1 = capacity q) as Ec by (unfold q1, capacity; simpl; zlen).
  pose proof (push_if_spec comp (live q) elem Hh) as Hp. rewrite <- El in Hp.
  rewrite live_len in Hp by done. cbv zeta in Hp. rewrite <- Ec.
  change (heapSize q + 1) with (heapSize q1). case_decide as Hd; destruct Hp as [Hp1 Hp2].
  - destruct (with_live_ok (push_heap comp (live q1)) q1) as (H1 & H2 & H3); [done| |done|].
    + rewrite (zlen_perm _ _ Hp2). rewrite El in *. rewrite zlen_cons, live_len by lia. unfold q1. simpl. lia.
    + rewrite H2. auto.
  - split; [by split|]. auto.
Qed.

Lemma live_top (q : @queue A) : direct_ok q -> 0 < heapSize q ->
  exists t rest, live q = t :: rest /\ top q = Some t /\
    forall elem, exists h, zset (heap q) 0 elem = Some h /\ zlen h = zlen (heap q) /\
      live (Queue h (heapSize q)) = elem :: rest.
Proof.
  intros [Hr _] H0. unfold live, top. destruct (heap q) as [|t k] eqn:Eh; [zlen|].
  replace (Z.to_nat (heapSize q)) with (S (Z.to_nat (heapSize q - 1))) by lia. simpl.
  eexists _, _. split; [done|]. split; [done|]. intros elem.
  rewrite zset_in by lia. eexists. split; [done|]. simpl. split; [done|].
  by replace (Z.to_nat (heapSize q)) with (S (Z.to_nat (heapSize q - 1))) by lia.
Qed.

#[export] Instance direct_bounded_laws : BoundedLaws comp (@queue A).
Proof.
  split. intros elem q Hq Hb. simpl in *. unfold insertWithOverflow. fold (capacity q).
  pose proof Hq as [Hr Hh]. pose proof (live_len q Hr) as Hll. case_decide as Hd.
  - destruct (direct_insert_spec elem q Hq Hd) as (q' & -> & H1 & H2 & H3). opt.
    eexists _, q'. split; [done|]. split; [done|]. split; [done|]. apply answered_room; [lia|done].
  - assert (zlen (live q) = capacity q) as Hfull by (unfold capacity in *; lia).
    destruct (live_top q Hq) as (t & rest & El & -> & Hset); [lia|]. opt.
    rewrite El in Hh. pose proof (fun y => heap_top_max comp t rest y Hh) as Hmax.
    destruct (comp elem t) eqn:Ec.
    + destruct (Hset elem) as (h & -> & Hlh & Elh). opt. unfold updateTop. rewrite Elh.
      destruct (replace_top_spec comp t rest elem Hh) as (l' & b & -> & Hh' & Hp). opt.
      destruct (with_live_ok l' (Queue h (heapSize q))) as (H1 & H2 & H3); simpl; [lia| |done|].
      { rewrite (zlen_perm _ _ Hp), <- Hll, El. by rewrite !zlen_cons. }
      cbn [heapSize] in H1, H2, H3.
      eexists _, _. split; [done|]. split; [exact H1|]. split; [exact (eq_trans H3 Hlh)|].
      rewrite H2. eapply answered_eject; eauto. by rewrite El.
    + eexists _, q. split; [done|]. split; [done|]. split; [done|].
      eapply answered_refuse; eauto. by rewrite El.
Qed.

End direct.

(** * ExpandingPQ *)

Section expanding.
Context {A : Type} (comp : A -> A -> bool) `{!StrictWeak comp} `{!HeapAlg comp, !HeapLaws comp}.
Import ExpandingPQ.

(** The vector holds a heap within its allocation, which is within the bound. *)
Definition expanding_ok (q : @queue A) : Prop :=
  is_heap comp (heap q) /\ zlen (heap q) <= storageCapacity q <= maxSize q.

#[export] Instance expanding_bounded : BoundedPQ comp (@queue A) := {
  queue_ok := expanding_ok;
  contents := heap;
  bound := maxSize;
  offer := insertWithOverflow comp;
}.

(** After growing there is room for one more element, still within the bound. *)
Lemma grow_spec (q : @queue A) :
  zlen (heap q) <= storageCapacity q <= maxSize q -> zlen (heap q) < maxSize q ->
  zlen (heap q) < grow q <= maxSize q.
Proof.
  intros. unfold grow, reserve, initialReserve. pose proof (zlen_nonneg (heap q)). case_decide; lia.
Qed.

Lemma expanding_insert_spec elem (q : @queue A) :
  expanding_ok q -> zlen (heap q) < maxSize q ->
  exists q', insert comp elem q = Some q' /\ expanding_ok q' /\ maxSize q' = maxSize q /\
    heap q' ≡ₚ elem :: heap q.
Proof.
  intros [Hh Hc] Hroom. unfold insert. rewrite decide_True by done. eexists. split; [done|].
  destruct (push_if_spec comp (heap q) elem Hh) as [H1 H2]. pose proof (grow_spec q Hc Hroom).
  unfold expanding_ok. simpl. split_and!; auto; try lia.
  rewrite (zlen_perm _ _ H2). zlen.
Qed.

#[export] Instance expanding_bounded_laws : BoundedLaws comp (@queue A).
Proof.
  split. intros elem q Hq Hb. simpl in *. unfold insertWithOverflow.
  pose proof Hq as [Hh Hc]. case_decide as Hd.
  - destruct (expanding_insert_spec elem q Hq Hd) as (q' & -> & H1 & H2 & H3). opt.
    eexists _, q'. split; [done|]. split; [done|]. split; [done|]. by apply answered_room.
  - assert (zlen (heap q) = maxSize q) as Hfull by lia. unfold top, updateTop.
    destruct (heap q) as [|t rest] eqn:El; [zlen|]. change (head (t :: rest)) with (Some t). opt.
    pose proof (fun y => heap_top_max comp t rest y Hh) as Hmax. destruct (comp elem t) eqn:Ec.
    + rewrite zset_in by lia. opt. change (<[Z.to_nat 0 := elem]> (t :: rest)) with (elem :: rest).
      destruct (replace_top_spec comp t rest elem Hh) as (l' & b & E & Hh' & Hp). simpl heap. rewrite E. opt.
      eexists _, _. split; [done|]. unfold expanding_ok. simpl.
      rewrite (zlen_perm _ _ Hp). rewrite zlen_cons in *. split; [done|]. split; [done|].
      eapply answered_eject; eauto. by rewrite zlen_cons.
    + eexists _, q. split; [done|]. split; [done|]. split; [done|]. rewrite El.
      by eapply answered_refuse.
Qed.

Lemma expanding_make_ok k : 0 <= k -> expanding_ok (make k).
Proof.
  intros. unfold make, expanding_ok, reserve, initialReserve. simpl. rewrite zlen_nil.
  split; [apply is_heap_nil|lia].
Qed.

End expanding.

(** * IndexedPQ *)

Section indexedpq.
Context {A : Type} (Comp : A -> A -> bool) `{!StrictWeak Comp}.
Import IndexedPQ.

#[export] Instance comparator_strict_weak u : StrictWeak (comparator Comp u).
Proof.
  split; unfold comparator.
  - intros a b. destruct (u.[a]), (u.[b]); [apply sw_asym|done..].
  - intros a b c. destruct (u.[a]), (u.[b]), (u.[c]); try done. apply sw_negtrans.
Qed.

Context `{!forall u, HeapAlg (comparator Comp u), !forall u, HeapLaws (comparator Comp u)}.

(** The indexes of the heap are the first [heapSize] slots of the array. *)
Definition indexed_ok (q : @queue A) : Prop :=
  0 <= heapSize q <= zlen (heap q) /\ zlen (heap q) <= zlen (underlying q) /\
  is_heap (comparator Comp (underlying q)) (live q) /\ live q ≡ₚ seqZ 0 (heapSize q).

#[export] Instance indexed_bounded : BoundedPQ Comp (@queue A) := {
  queue_ok := indexed_ok;
  contents q := take (Z.to_nat (heapSize q)) (underlying q);
  bound := capacity;
  offer := insertWithOverflow Comp;
}.

Lemma indexed_live_with l (q : @queue A) (u : list A) n :
  zlen l = n -> live (Queue u (with_live l q) n) = l.
Proof. intros <-. unfold live, with_live, zlen. simpl. rewrite Nat2Z.id. apply take_app_length. Qed.

Lemma indexed_live_len (q : @queue A) : 0 <= heapSize q <= zlen (heap q) -> zlen (live q) = heapSize q.
Proof. unfold live, zlen. intros. rewrite length_take. lia. Qed.

Lemma indexed_zlen_with l (q : @queue A) :
  0 <= heapSize q <= zlen (heap q) -> zlen l = heapSize q -> zlen (with_live l q) = zlen (heap q).
Proof. unfold with_live, zlen. intros. rewrite length_app, length_drop. lia. Qed.

(** Replacing the live indexes by a heap of them. *)
Lemma indexed_with_ok (u : list A) l (q : @queue A) :
  0 <= heapSize q <= zlen (heap q) -> zlen (heap q) <= zlen u ->
  is_heap (comparator Comp u) l -> l ≡ₚ seqZ 0 (heapSize q) ->
  let q' := Queue u (with_live l q) (heapSize q) in indexed_ok q' /\ capacity q' = capacity q.
Proof.
  intros Hr Hu Hh Hp. assert (zlen l = heapSize q) as Hl by (rewrite (zlen_perm _ _ Hp); zlen).
  unfold indexed_ok, capacity. simpl. rewrite indexed_live_with, indexed_zlen_with by done. auto.
Qed.

(** Two arrays that agree on the indexes of a heap give the same order. *)
Lemma is_heap_agree (u u' : list A) l :
  (forall i, i ∈ l -> u.[i] = u'.[i]) -> is_heap (comparator Comp u) l -> is_heap (comparator Comp u') l.
Proof.
  intros Heq Hh i x y Hi Hx Hy. unfold comparator. rewrite <- !Heq by (by eapply zget_elem_1).
  by apply (Hh i).
Qed.

Lemma indexed_insert_spec elem (q : @queue A) :
  indexed_ok q -> heapSize q < zlen (heap q) ->
  exists q', insert Comp elem q = Some q' /\ indexed_ok q' /\ capacity q' = capacity q /\
    take (Z.to_nat (heapSize q')) (underlying q') ≡ₚ elem :: take (Z.to_nat (heapSize q)) (underlying q).
Proof.
  intros (Hr & Hu & Hh & Hp) Hroom. unfold insert. rewrite decide_True, !zset_in by lia. opt.
  set (u := <[Z.to_nat (heapSize q) := elem]> (underlying q)).
  set (q1 := Queue u (<[Z.to_nat (heapSize q) := heapSize q]> (heap q)) (heapSize q + 1)).
  assert (live q1 = live q ++ [heapSize q]) as El by (apply take_snoc; lia).
  assert (is_heap (comparator Comp u) (live q)) as Hh'.
  { eapply is_heap_agree; [|done]. intros i Hi. rewrite Hp in Hi. apply elem_of_seqZ in Hi.
    unfold u. rewrite zget_insert by lia. by rewrite decide_False by lia. }
  destruct (heap_push_spec (comparator Comp u) (live q) (heapSize q) Hh') as [H1 H2]. rewrite El.
  destruct (indexed_with_ok u (push_heap (comparator Comp u) (live q ++ [heapSize q])) q1) as [H3 H4].
  - unfold q1. simpl. zlen.
  - unfold q1, u. simpl. zlen.
  - done.
  - rewrite H2, Hp. unfold q1. simpl. rewrite seqZ_app by lia. rewrite Permutation_cons_append. done.
  - eexists. split; [done|]. split; [exact H3|]. split.
    + rewrite H4. unfold capacity, q1. simpl. zlen.
    + simpl. unfold u. rewrite take_snoc by lia. symmetry. apply Permutation_cons_append.
Qed.

Lemma indexed_top (q : @queue A) :
  indexed_ok q -> 0 < heapSize q ->
  exists i rest t, live q = i :: rest /\ indexOfTop q = Some i /\ (underlying q).[i] = Some t /\
    0 <= i < heapSize q /\ ~ i ∈ rest /\
    forall y, y ∈ take (Z.to_nat (heapSize q)) (underlying q) -> Comp t y = false.
Proof.
  intros (Hr & Hu & Hh & Hp) Hpos. pose proof (indexed_live_len q Hr) as Hl.
  destruct (live q) as [|i rest] eqn:El; [zlen|].
  assert (0 <= i < heapSize q) as Hi by (apply (elem_of_seqZ 0 (heapSize q)); rewrite <- Hp; by left).
  destruct (zget_in (underlying q) i) as [t Et]; [lia|]. exists i, rest, t. split; [done|].
  split; [|split; [done|split; [lia|split]]].
  - unfold indexOfTop. unfold live in El. destruct (heap q); [zlen|].
    replace (Z.to_nat (heapSize q)) with (S (Z.to_nat (heapSize q - 1))) in El by lia.
    by injection El as -> _.
  - assert (NoDup (i :: rest)) as Hnd by (rewrite Hp; apply NoDup_seqZ). by apply NoDup_cons in Hnd as [? _].
  - intros y Hy. apply list_elem_of_lookup in Hy as [j Hj]. apply lookup_take_Some in Hj as [Hj Hlt].
    assert (Z.of_nat j ∈ i :: rest) as Hin by (rewrite Hp; apply elem_of_seqZ; lia).
    assert (comparator Comp (underlying q) i (Z.of_nat j) = false) as Hc.
    { apply elem_of_cons in Hin as [->|Hin]; [apply comp_irrefl; apply _|].
      by eapply heap_top_max; [apply _| |]. }
    unfold comparator in Hc. by rewrite Et, zget_nat, Hj in Hc.
Qed.

#[export] Instance indexed_bounded_laws : BoundedLaws Comp (@queue A).
Proof.
  split. intros elem q Hq Hb. simpl in *. unfold insertWithOverflow. pose proof Hq as (Hr & Hu & Hh & Hp).
  assert (zlen (take (Z.to_nat (heapSize q)) (underlying q)) = heapSize q) as Hcl.
  { unfold zlen in *. rewrite length_take. lia. }
  unfold capacity in *. case_decide as Hd.
  - destruct (indexed_insert_spec elem q Hq Hd) as (q' & -> & H1 & H2 & H3). opt.
    eexists _, q'. split; [done|]. split; [done|]. split; [done|]. apply answered_room; [lia|done].
  - destruct (indexed_top q Hq) as (i & rest & t & El & Ei & Et & Hi & Hni & Hmax); [lia|].
    unfold top. rewrite Ei. opt. rewrite Et. opt.
    set (l := take (Z.to_nat (heapSize q)) (underlying q)) in *.
    assert (l !! Z.to_nat i = Some t) as Hlt.
    { unfold l. rewrite lookup_take_lt by lia. unfold zget in Et. by rewrite decide_True in Et by lia. }
    pose proof (delete_Permutation l _ t Hlt) as Hdel.
    assert (forall y, y ∈ delete (Z.to_nat i) l -> Comp t y = false) as Hmax'.
    { intros y Hy. apply Hmax. rewrite Hdel. by right. }
    destruct (Comp elem t) eqn:Ec.
    + rewrite zset_in by lia. opt. set (u := <[Z.to_nat i := elem]> (underlying q)).
      unfold updateTop, live. simpl. fold (live q). rewrite El in *.
      destruct (update_heap_top_down (comparator Comp u) i rest) as (l' & b & -> & Hh' & Hp' & _).
      { apply (down_inv_agree _ (comparator Comp (underlying q))); [done|]. intros x y Hx Hy.
        unfold comparator, u. rewrite !zget_insert by lia. rewrite !decide_False by congruence. done. }
      opt. destruct (indexed_with_ok u l' (Queue u (heap q) (heapSize q))) as [H3 H4]; simpl.
      { done. } { unfold u. zlen. } { done. } { by rewrite Hp'. }
      eexists _, _. split; [done|]. split; [exact H3|]. split; [exact H4|]. simpl.
      apply (answered_eject _ _ _ _ _ t (delete (Z.to_nat i) l)); [lia|done|done|done|].
      unfold u. rewrite take_insert_lt by lia. fold l.
      pose proof (delete_Permutation (<[Z.to_nat i := elem]> l) (Z.to_nat i) elem) as Hd2.
      rewrite (delete_take_drop (<[_ := _]> l)), take_insert_ge, drop_insert_lt, <- delete_take_drop in Hd2 by lia. apply Hd2.
      apply list_lookup_insert_eq. by eapply lookup_lt_Some.
    + eexists _, q. split; [done|]. split; [done|]. split; [done|].
      apply (answered_refuse _ _ _ _ _ t (delete (Z.to_nat i) l)); [lia|done..].
Qed.

End indexedpq.

(** * ExpandingPQ with stable slots *)

Section slots.
Context {A : Type} (comp : A -> A -> bool) `{!StrictWeak comp} (slot : A -> Z).
Import ExpandingPQ.

(** Every entry but the one at the hole is where the table says. *)
Definition placed (h : list A) (pos : list Z) (hole : Z) : Prop :=
  forall i x, i <> hole -> h.[i] = Some x -> pos.[slot x] = Some i.

Definition slots_ok (q : @indexed A) : Prop :=
  is_heap comp (iheap q) /\ (forall i x, (iheap q).[i] = Some x -> (positions q).[slot x] = Some i) /\
  zlen (iheap q) <= icapacity q <= imax q.

(** The slot of the entry to place differs from the others. *)
Definition own_slot (h : list A) (hole : Z) (v : A) (pos : list Z) : Prop :=
  0 <= slot v < zlen pos /\ forall i x, i <> hole -> h.[i] = Some x -> slot x <> slot v.

Lemma place_hole h pos hole v :
  0 <= hole < zlen h -> placed h pos hole -> own_slot h hole v pos ->
  place slot hole v h pos = Some (filled h hole v, <[Z.to_nat (slot v) := hole]> pos) /\
  (forall i x, (filled h hole v).[i] = Some x -> (<[Z.to_nat (slot v) := hole]> pos).[slot x] = Some i).
Proof.
  intros Hh Hp [Hs Hown]. unfold place. rewrite !zset_in by lia. split; [done|].
  intros i x Hx. rewrite filled_get in Hx by lia. rewrite zget_insert by lia.
  destruct (decide (hole = i)) as [<-|]; simplify_eq; [by rewrite decide_True|].
  rewrite decide_False by (by apply not_eq_sym, (Hown i)). by apply Hp.
Qed.

(** Moving the entry at [c] into the hole. *)
Lemma place_move h pos hole v c x :
  0 <= hole < zlen h -> c <> hole -> h.[c] = Some x -> placed h pos hole -> own_slot h hole v pos ->
  exists pos', place slot hole x h pos = Some (filled h hole x, pos') /\
    placed (filled h hole x) pos' c /\ own_slot (filled h hole x) c v pos'.
Proof.
  intros Hh Hc Hx Hp [Hs Hown]. pose proof (Hp c x Hc Hx) as Hpx.
  pose proof (zget_Some_range _ _ _ Hpx) as Hr. unfold place. rewrite !zset_in by lia.
  eexists. split; [done|]. split.
  - intros i y Hi Hy. rewrite filled_get in Hy by lia. rewrite zget_insert by lia.
    destruct (decide (hole = i)) as [<-|]; simplify_eq; [by rewrite decide_True|].
    rewrite decide_False; [by apply Hp|]. intros E.
    pose proof (Hp i y ltac:(done) Hy) as Hpy. rewrite <- E in Hpy. congruence.
  - split; [zlen|]. intros i y Hi Hy. rewrite filled_get in Hy by lia.
    destruct (decide (hole = i)) as [<-|]; simplify_eq; [by apply (Hown c)|by apply (Hown i)].
Qed.

Lemma siftDownLoop_spec fuel h pos v hole :
  down_inv comp h hole v -> placed h pos hole -> own_slot h hole v pos -> zlen h - hole <= Z.of_nat fuel ->
  exists hole' h' pos', siftDownLoop comp slot fuel v hole h pos = Some (hole', h', pos') /\
    descended comp h hole v h' hole' /\ placed h' pos' hole' /\ own_slot h' hole' v pos'.
Proof.
  revert h pos hole. induction fuel as [|fuel IH]; intros h pos hole Hinv Hp Ho Hf.
  { destruct Hinv as [Hr _]. lia. }
  pose proof Hinv as [Hr _]. cbn [siftDownLoop]. cbv zeta.
  destruct (decide (2 * hole + 1 >= zlen h)).
  { exists hole, h, pos. split; [done|]. split; [|done]. apply descended_stop; [done..|left; lia]. }
  assert (exists c x, larger_child comp h hole c x /\
    (if decide (2 * hole + 1 + 1 < zlen h) then
       a ← h.[2 * hole + 1]; b ← h.[2 * hole + 1 + 1];
       Some (if comp a b then 2 * hole + 1 + 1 else 2 * hole + 1)
     else Some (2 * hole + 1)) = Some c) as (c & x & Hlc & ->).
  { destruct (zget_in h (2 * hole + 1)) as [a Ea]; [lia|].
    replace (2 * hole + 1 + 1) with (2 * hole + 2) by lia. case_decide.
    - destruct (zget_in h (2 * hole + 2)) as [b Eb]; [lia|].
      eexists _, _. split; [by apply larger_child_two|]. by rewrite Ea, Eb.
    - exists (2 * hole + 1), a. split; [apply larger_child_one; [apply _|done|lia]|done]. }
  opt. pose proof Hlc as (Hc & Hx & Hmax). rewrite Hx. opt. destruct (comp v x) eqn:Ev.
  - destruct (place_move h pos hole v c x) as (pos1 & -> & Hp1 & Ho1); [done|lia|done..|]. opt.
    destruct (IH (filled h hole x) pos1 c) as (hole' & h' & pos' & E & Hd & Hp' & Ho').
    { by apply down_step. } { done. } { done. } { rewrite filled_len. lia. }
    exists hole', h', pos'. split; [done|]. split; [by eapply descended_move|done].
  - exists hole, h, pos. split; [done|]. split; [|done]. apply descended_stop; [done..|]. right. eauto.
Qed.

Lemma siftDown_spec h pos cap mx hole v :
  h.[hole] = Some v -> down_inv comp h hole v -> placed h pos hole -> own_slot h hole v pos ->
  zlen h <= cap <= mx ->
  exists q', siftDown comp slot hole (Indexed h pos cap mx) = Some q' /\ slots_ok q' /\
    iheap q' ≡ₚ h /\ imax q' = mx.
Proof.
  intros Hv Hinv Hp Ho Hc. unfold siftDown. simpl. rewrite Hv. opt. pose proof Hinv as [Hr _].
  destruct (siftDownLoop_spec (length h) h pos v hole) as (hole' & h' & pos' & -> & Hd & Hp' & Ho');
    [done..|unfold zlen; lia|]. opt.
  destruct Hd as (Hl & Hh & Hheap & Hperm & _).
  destruct (place_hole h' pos' hole' v) as [-> Hpl]; [lia|done..|]. opt.
  eexists. split; [done|]. unfold slots_ok. simpl. rewrite filled_len, Hl.
  split; [done|]. split; [|done]. rewrite Hperm. by rewrite filled_self.
Qed.

Lemma siftUpLoop_spec fuel h pos v hole :
  up_inv comp h hole v -> placed h pos hole -> own_slot h hole v pos -> hole <= Z.of_nat fuel ->
  exists hole' h' pos', siftUpLoop comp slot fuel v hole h pos = Some (hole', h', pos') /\
    zlen h' = zlen h /\ 0 <= hole' < zlen h /\ is_heap comp (filled h' hole' v) /\
    filled h' hole' v ≡ₚ filled h hole v /\ placed h' pos' hole' /\ own_slot h' hole' v pos'.
Proof.
  revert h pos hole. induction fuel as [|fuel IH]; intros h pos hole Hinv Hp Ho Hf; pose proof Hinv as [Hr _];
    cbn [siftUpLoop]; cbv zeta.
  { rewrite decide_False by lia. exists hole, h, pos. split_and!; auto; try lia. apply up_stop; [done|]. lia. }
  case_decide as H0; [|exists hole, h, pos; split_and!; auto; try lia; apply up_stop; [done|lia]].
  pose proof (parent_range hole ltac:(lia)).
  destruct (zget_in h ((hole - 1) / 2)) as [p Ep]; [lia|]. rewrite Ep. opt. destruct (comp p v) eqn:Ec.
  - destruct (place_move h pos hole v ((hole - 1) / 2) p) as (pos1 & -> & Hp1 & Ho1); [done|lia|done..|]. opt.
    destruct (IH (filled h hole p) pos1 ((hole - 1) / 2)) as (hole' & h' & pos' & E & Hl & Hr' & Hh & Hperm & Hrest).
    { apply up_step; [done|done|lia|done|done]. } { done. } { done. } { lia. }
    rewrite filled_len in Hl, Hr'. exists hole', h', pos'. split_and!; try done; try lia; try apply Hrest.
    rewrite Hperm. apply filled_move_perm; [done|lia|done].
  - exists hole, h, pos. split_and!; auto; try lia. apply up_stop; [done|].
    intros x _ Ex. congruence.
Qed.

(** The table enlarged to hold a slot keeps its entries. *)
Lemma positions_grow (pos : list Z) s i j :
  pos.[i] = Some j ->
  (if decide (zlen pos <= s) then pos ++ replicate (Z.to_nat (s + 1 - zlen pos)) 0 else pos).[i] = Some j.
Proof.
  intros H. pose proof (zget_Some_range _ _ _ H). case_decide; [|done]. by rewrite zget_app_l by lia.
Qed.

Lemma iinsert_spec elem (q : @indexed A) :
  slots_ok q -> zlen (iheap q) < imax q -> 0 <= slot elem ->
  (forall x, x ∈ iheap q -> slot x <> slot elem) ->
  exists q', iinsert comp slot elem q = Some q' /\ slots_ok q' /\ imax q' = imax q /\
    iheap q' ≡ₚ elem :: iheap q.
Proof.
  intros (Hh & Hpos & Hc) Hroom Hs Hfresh. unfold iinsert. rewrite decide_True by done. cbv zeta.
  set (pos := if decide (zlen (positions q) <= slot elem) then _ else positions q).
  pose proof (grow_spec (Queue (iheap q) (icapacity q) (imax q)) Hc Hroom) as Hg.
  set (cap := grow _) in *. simpl in Hg. pose proof (zlen_nonneg (iheap q)).
  assert (zlen (iheap q ++ [elem]) - 1 = zlen (iheap q)) as -> by (zlen; simpl; lia).
  destruct (siftUpLoop_spec (length (iheap q ++ [elem])) (iheap q ++ [elem]) pos elem (zlen (iheap q)))
    as (hole' & h' & pos' & -> & Hl & Hr & Hh' & Hperm & Hp' & Ho').
  - by apply up_inv_push.
  - intros i x Hi Hx. pose proof (zget_Some_range _ _ _ Hx). zlen. rewrite zget_app_l in Hx by lia.
    by apply positions_grow, Hpos.
  - split.
    + unfold pos. case_decide; [zlen|lia].
    + intros i x Hi Hx. pose proof (zget_Some_range _ _ _ Hx). zlen. rewrite zget_app_l in Hx by lia.
      apply Hfresh. by eapply zget_elem_1.
  - unfold zlen. rewrite length_app. lia.
  - opt. destruct (place_hole h' pos' hole' elem) as [-> Hpl]; [lia|done..|]. opt.
    rewrite (filled_self (iheap q ++ [elem])) in Hperm by (rewrite zget_app_r, Z.sub_diag by lia; done).
    eexists. split; [done|]. unfold slots_ok. simpl. rewrite filled_len, Hl. split_and!; auto; [zlen..|].
    rewrite Hperm. symmetry. apply Permutation_cons_append.
Qed.

Lemma slots_own (q : @indexed A) i x v :
  slots_ok q -> (iheap q).[i] = Some x -> slot v = slot x ->
  own_slot (filled (iheap q) i v) i v (positions q) /\ placed (filled (iheap q) i v) (positions q) i.
Proof.
  intros (_ & Hpos & _) Hx Es. pose proof (Hpos i x Hx) as Hp. pose proof (zget_Some_range _ _ _ Hx).
  assert (forall j y, j <> i -> (filled (iheap q) i v).[j] = Some y -> (iheap q).[j] = Some y) as Hget.
  { intros j y Hj. rewrite filled_get by done. by rewrite decide_False by done. }
  split; [split|].
  - rewrite Es. by eapply zget_Some_range.
  - intros j y Hj Hy E. apply Hget, Hpos in Hy; [|done]. rewrite E, Es in Hy. congruence.
  - intros j y Hj Hy. by apply Hpos, Hget.
Qed.

(** Lowering an entry in place, keeping its slot, and sifting it down. *)
Lemma lower_spec (q : @indexed A) i x v :
  slots_ok q -> (iheap q).[i] = Some x -> slot v = slot x -> (0 < i -> comp x v = false) ->
  exists q', siftDown comp slot i (Indexed (filled (iheap q) i v) (positions q) (icapacity q) (imax q)) = Some q' /\
    slots_ok q' /\ iheap q' ≡ₚ filled (iheap q) i v /\ imax q' = imax q.
Proof.
  intros Hok Hx Es Hlow. pose proof (zget_Some_range _ _ _ Hx) as Hr.
  destruct (slots_own q i x v Hok Hx Es) as [Ho Hp]. pose proof Hok as (Hh & Hpos & Hc).
  apply (siftDown_spec _ _ _ _ _ v); [|  |done|done|by rewrite filled_len].
  - rewrite filled_get by done. by rewrite decide_True.
  - destruct (down_inv_lower comp (iheap q) i x v Hh Hx Hlow) as [_ Hi].
    split; [by rewrite filled_len|]. unfold filled. rewrite list_insert_insert_eq. exact Hi.
Qed.

Lemma iinsertWithOverflow_full elem (q : @indexed A) t rest :
  slots_ok q -> zlen (iheap q) = imax q -> iheap q = t :: rest -> slot elem = slot t ->
  exists q', iinsertWithOverflow comp slot elem q = Some (comp elem t, q') /\ slots_ok q' /\ imax q' = imax q /\
    iheap q' ≡ₚ (if comp elem t then elem :: rest else iheap q).
Proof.
  intros Hok Hfull El Es. unfold iinsertWithOverflow. rewrite decide_False by lia.
  assert ((iheap q).[0] = Some t) as Et by by rewrite El. rewrite Et. opt.
  destruct (comp elem t); [|eauto]. pose proof (zget_Some_range _ _ _ Et). rewrite zset_in by done. opt.
  destruct (lower_spec q 0 t elem Hok Et Es ltac:(lia)) as (q' & E & H1 & H2 & H3).
  unfold iupdateTop. fold (filled (iheap q) 0 elem). rewrite E. opt. exists q'. split_and!; auto.
  rewrite H2. by rewrite El.
Qed.

End slots.

(** * IndirectPQ *)

Section indirect.
Context {A ptr : Type} (Comp : A -> A -> bool) `{!StrictWeak Comp}.
Import IndirectPQ.

#[export] Instance ptrcomp_strict_weak (deref : ptr -> A) : StrictWeak (ptrcomp Comp deref).
Proof. split; unfold ptrcomp; intros *; [apply (sw_asym (comp := Comp))|apply (sw_negtrans (comp := Comp))]. Qed.

Context `{!forall deref : ptr -> A, HeapAlg (ptrcomp Comp deref),
          !forall deref : ptr -> A, HeapLaws (ptrcomp Comp deref)}.

Definition indirect_ok (deref : ptr -> A) (q : @queue ptr) : Prop :=
  0 <= size q <= zlen (pointers q) /\ is_heap (ptrcomp Comp deref) (live q).

Lemma indirect_with l (q : @queue ptr) n :
  0 <= size q <= zlen (pointers q) -> zlen l = size q -> 0 <= n <= size q ->
  live (Queue (with_live l q) n) = take (Z.to_nat n) l /\ zlen (with_live l q) = zlen (pointers q).
Proof.
  intros Hr Hl Hn. unfold live, with_live, zlen in *. simpl. split.
  - apply take_app_le. lia.
  - rewrite length_app, length_drop. lia.
Qed.

Lemma indirect_live_len (q : @queue ptr) : 0 <= size q <= zlen (pointers q) -> zlen (live q) = size q.
Proof. unfold live, zlen. intros. rewrite length_take. lia. Qed.

Lemma reset_spec deref count (q : @queue ptr) :
  0 <= count <= zlen (pointers q) ->
  exists q', reset Comp deref count q = Some q' /\ indirect_ok deref q' /\ size q' = count /\
    live q' ≡ₚ take (Z.to_nat count) (pointers q) /\ zlen (pointers q') = zlen (pointers q).
Proof.
  intros Hc. unfold reset. rewrite decide_True by lia. eexists. split; [done|].
  set (q0 := Queue (pointers q) count). unfold makeHeap.
  set (l := make_heap _ (live q0)).
  assert (zlen l = count) as Hl.
  { unfold l. rewrite (zlen_perm _ _ (make_heap_perm _)). by apply (indirect_live_len q0). }
  destruct (indirect_with l q0 count) as [E1 E2]; [exact Hc|exact Hl|simpl; lia|].
  assert (take (Z.to_nat count) l = l) as Et by (apply take_ge; unfold zlen in Hl; lia).
  unfold indirect_ok. change (size q0) with count. rewrite E1, Et. simpl. rewrite E2.
  split; [split; [done|apply make_heap_heap]|]. split; [done|]. split; [apply make_heap_perm|done].
Qed.

(** The pointed-to top changed: memory before and after agree on the other pointers. *)
Lemma indirect_updateTop_spec deref deref' (q : @queue ptr) p rest :
  indirect_ok deref q -> live q = p :: rest -> (forall r, r ∈ rest -> deref' r = deref r) ->
  exists b q', updateTop Comp deref' q = Some (b, q') /\ indirect_ok deref' q' /\ size q' = size q /\
    live q' ≡ₚ live q.
Proof.
  intros [Hr Hh] El Hsame. unfold updateTop. rewrite El in *.
  destruct (update_heap_top_down (ptrcomp Comp deref') p rest) as (l' & b & -> & Hh' & Hp & _).
  { apply (down_inv_agree _ (ptrcomp Comp deref)); [done|]. intros x y Hx Hy.
    unfold ptrcomp. by rewrite !Hsame. }
  opt. pose proof (indirect_live_len q Hr) as Hll. rewrite El in Hll. pose proof (zlen_perm _ _ Hp).
  destruct (indirect_with l' q (size q)) as [E1 E2]; [done|lia|lia|].
  assert (take (Z.to_nat (size q)) l' = l') as Et by (apply take_ge; unfold zlen in *; lia).
  eexists _, _. split; [done|]. unfold indirect_ok. rewrite E1, Et. simpl. rewrite E2. done.
Qed.

Lemma indirect_removeTop_spec deref (q : @queue ptr) p rest :
  indirect_ok deref q -> live q = p :: rest ->
  exists q', removeTop Comp deref q = Some (p, q') /\ indirect_ok deref q' /\ size q' = size q - 1 /\
    live q' ≡ₚ rest.
Proof.
  intros [Hr Hh] El. unfold removeTop. rewrite El in *. pose proof (zlen_nonneg rest).
  destruct (pop_heap_spec p rest Hh) as (l' & -> & Hh' & Hp).
  pose proof (indirect_live_len q Hr) as Hll. rewrite El, zlen_cons in Hll. pose proof (zlen_perm _ _ Hp).
  assert (zlen (l' ++ [p]) = size q) as Hlp by zlen.
  destruct (indirect_with (l' ++ [p]) q (size q - 1)) as [E1 E2]; [done|lia|lia|].
  assert ((with_live (l' ++ [p]) q).[size q - 1] = Some p) as Ep.
  { unfold with_live. rewrite zget_app_l, zget_app_r by lia. by replace (size q - 1 - zlen l') with 0 by lia. }
  simpl. rewrite Ep. opt. eexists. split; [done|].
  assert (take (Z.to_nat (size q - 1)) (l' ++ [p]) = l') as Et.
  { apply take_app_length'. unfold zlen in *. lia. }
  unfold indirect_ok. rewrite E1, Et. simpl. rewrite E2. split_and!; auto; lia.
Qed.

End indirect.

(** * The properties *)

Section collectors.
Context {A : Type} (comp : A -> A -> bool) `{!StrictWeak comp} `{!HeapAlg comp, !HeapLaws comp}.
Context `{!forall u, HeapAlg (IndexedPQ.comparator comp u), !forall u, HeapLaws (IndexedPQ.comparator comp u)}.

Lemma make_heap_nil {B} (c : B -> B -> bool) `{!HeapAlg c, !HeapLaws c} : make_heap c [] = [].
Proof. apply Permutation_nil_r, make_heap_perm. Qed.

Lemma direct_make_empty span : DirectPQ.make comp span 0 = DirectPQ.Queue span 0.
Proof.
  unfold DirectPQ.make, DirectPQ.with_live, DirectPQ.live. cbn [DirectPQ.heap DirectPQ.heapSize].
  change (Z.to_nat 0) with 0%nat. by rewrite take_0, make_heap_nil, drop_0 by apply _.
Qed.

Lemma indexed_make_empty u indexes :
  IndexedPQ.makeHeap comp (IndexedPQ.Queue u indexes 0) = IndexedPQ.Queue u indexes 0.
Proof.
  unfold IndexedPQ.makeHeap, IndexedPQ.with_live, IndexedPQ.live.
  cbn [IndexedPQ.heap IndexedPQ.heapSize IndexedPQ.underlying].
  change (Z.to_nat 0) with 0%nat. by rewrite take_0, make_heap_nil, drop_0 by apply _.
Qed.

(** From a queue with no elements, what a stream of offers leaves. *)
Lemma offers_fresh Q `{!BoundedPQ comp Q, !BoundedLaws comp Q} (q : Q) k xs :
  queue_ok q -> contents q = [] -> bound q = k -> 0 < k ->
  exists bs q' rest, offers comp xs q = Some (bs, q') /\ queue_ok q' /\ smallest comp k xs (contents q') rest.
Proof.
  intros Hok Hc Hb Hk.
  destruct (offers_spec comp Q xs q [] []) as (bs & q' & rest & E & H1 & H2 & H3); [done|lia| |].
  { split_and!; [by rewrite Hc|rewrite Hc, Hb; change (zlen (@nil A)) with 0; lia|]. intros x y Hx. set_solver. }
  rewrite Hb in H3. eauto 10.
Qed.

End collectors.

(** C29: top-k collection.  A [DirectPQ] over a span of [k] slots, an [ExpandingPQ] bounded
    by [k] and an [IndexedPQ] of capacity [k], each starting empty, accept any stream of
    offers: at every length of the stream they hold [min k n] of the [n] offered elements,
    in heap order, and no element left out is below one that is kept.  The expanding
    queue's allocation never exceeds the bound. *)
Theorem topk_keeps_smallest {A} (comp : A -> A -> bool) `{!StrictWeak comp} `{!HeapAlg comp, !HeapLaws comp}
    `{!forall u, HeapAlg (IndexedPQ.comparator comp u), !forall u, HeapLaws (IndexedPQ.comparator comp u)}
    (k : Z) (span u : list A) (indexes : list Z) (xs : list A)
    (Hk : 0 < k) (Hspan : zlen span = k) (Hidx : zlen indexes = k) (Hu : k <= zlen u) :
  (exists bs q rest, offers comp xs (DirectPQ.make comp span 0) = Some (bs, q) /\
     smallest comp k xs (DirectPQ.live q) rest /\ is_heap comp (DirectPQ.live q)) /\
  (exists bs q rest, offers comp xs (ExpandingPQ.make k) = Some (bs, q) /\
     smallest comp k xs (ExpandingPQ.heap q) rest /\ is_heap comp (ExpandingPQ.heap q) /\
     zlen (ExpandingPQ.heap q) <= ExpandingPQ.storageCapacity q <= k) /\
  (exists q0 bs q rest, IndexedPQ.make comp u indexes 0 = Some q0 /\ offers comp xs q0 = Some (bs, q) /\
     smallest comp k xs (take (Z.to_nat (IndexedPQ.heapSize q)) (IndexedPQ.underlying q)) rest /\
     is_heap (IndexedPQ.comparator comp (IndexedPQ.underlying q)) (IndexedPQ.live q)).
Proof.
  split; [|split].
  - rewrite direct_make_empty by apply _.
    destruct (offers_fresh comp DirectPQ.queue (DirectPQ.Queue span 0) k xs) as (bs & q & r & E & [_ H1] & H2);
      [split; [simpl; lia|apply is_heap_nil]|done..|]. eauto 10.
  - destruct (offers_fresh comp ExpandingPQ.queue (ExpandingPQ.make k) k xs) as (bs & q & r & E & [H1 H1'] & H2);
      [apply expanding_make_ok; lia|done..|].
    destruct (offers_spec comp ExpandingPQ.queue xs (ExpandingPQ.make k) [] []) as (bs' & q' & r' & E' & _ & Hb & _).
    + apply expanding_make_ok; lia.
    + done.
    + split_and!; [done|simpl; change (zlen (@nil A)) with 0; lia|]. intros x y Hx. set_solver.
    + rewrite E in E'. injection E' as <- <-. simpl in Hb.
      exists bs, q, r. split_and!; auto; lia.
  - unfold IndexedPQ.make. rewrite decide_True by lia. eexists.
    rewrite indexed_make_empty by apply _.
    destruct (offers_fresh comp IndexedPQ.queue (IndexedPQ.Queue u indexes 0) k xs)
      as (bs & q & r & E & (_ & _ & H1 & _) & H2); [|done..|eauto 10].
    split; [simpl; lia|]. split; [simpl; lia|]. split; [apply is_heap_nil|done].
Qed.

Lemma topk_keeps_smallest_witness :
  exists bs q rest, offers Z.ltb [4; 9; 2; 7; 1; 8] (ExpandingPQ.make (A := Z) 3) = Some (bs, q) /\
     smallest Z.ltb 3 [4; 9; 2; 7; 1; 8] (ExpandingPQ.heap q) rest /\
     bs = [false; false; false; true; true; false] /\ ExpandingPQ.heap q = [4; 1; 2].
Proof.
  destruct (topk_keeps_smallest Z.ltb 3 [0; 0; 0] [0; 0; 0] [0; 0; 0] [4; 9; 2; 7; 1; 8]
    ltac:(lia) eq_refl eq_refl ltac:(vm_compute; congruence)) as (_ & (bs & q & r & E & Hs & _) & _).
  exists bs, q, r. split; [exact E|]. split; [exact Hs|]. vm_compute in E. by injection E as <- <-.
Defined.

(** Stable slots.  In the indexed [ExpandingPQ] the table of positions locates every
    entry; a new entry with an unused slot, an entry that takes the slot of the top it
    ejects, and an entry lowered in place through [atSlot] and sifted by [updateSlot] all
    succeed, and keep the heap order, the table and the contents. *)
Theorem slots_stay_located {A} (comp : A -> A -> bool) `{!StrictWeak comp} (slot : A -> Z)
    (q : @ExpandingPQ.indexed A) (Hq : slots_ok comp slot q) :
  (forall x, x ∈ ExpandingPQ.iheap q -> ExpandingPQ.atSlot (slot x) q = Some x) /\
  (forall elem, zlen (ExpandingPQ.iheap q) < ExpandingPQ.imax q -> 0 <= slot elem ->
     (forall x, x ∈ ExpandingPQ.iheap q -> slot x <> slot elem) ->
     exists q', ExpandingPQ.iinsertWithOverflow comp slot elem q = Some (false, q') /\
       slots_ok comp slot q' /\ ExpandingPQ.iheap q' ≡ₚ elem :: ExpandingPQ.iheap q) /\
  (forall elem t rest, zlen (ExpandingPQ.iheap q) = ExpandingPQ.imax q ->
     ExpandingPQ.iheap q = t :: rest -> slot elem = slot t ->
     exists q', ExpandingPQ.iinsertWithOverflow comp slot elem q = Some (comp elem t, q') /\
       slots_ok comp slot q' /\
       ExpandingPQ.iheap q' ≡ₚ (if comp elem t then elem :: rest else ExpandingPQ.iheap q)) /\
  (forall x v, x ∈ ExpandingPQ.iheap q -> slot v = slot x -> comp x v = false ->
     exists i q', (ExpandingPQ.iheap q).[i] = Some x /\
       ExpandingPQ.updateSlot comp slot (slot x) (ExpandingPQ.Indexed (<[Z.to_nat i := v]> (ExpandingPQ.iheap q))
         (ExpandingPQ.positions q) (ExpandingPQ.icapacity q) (ExpandingPQ.imax q)) = Some q' /\
       slots_ok comp slot q' /\ ExpandingPQ.iheap q' ≡ₚ <[Z.to_nat i := v]> (ExpandingPQ.iheap q)).
Proof.
  pose proof Hq as (Hh & Hpos & Hc). split; [|split; [|split]].
  - intros x [i Hi]%zget_elem. unfold ExpandingPQ.atSlot. rewrite (Hpos i x Hi). by opt.
  - intros elem Hroom Hs Hfresh.
    destruct (iinsert_spec comp slot elem q Hq Hroom Hs Hfresh) as (q' & E & H1 & _ & H2).
    exists q'. unfold ExpandingPQ.iinsertWithOverflow. rewrite decide_True, E by done. by opt.
  - intros elem t rest Hfull El Es.
    destruct (iinsertWithOverflow_full comp slot elem q t rest Hq Hfull El Es) as (q' & E & H1 & _ & H2). eauto.
  - intros x v [i Hi]%zget_elem Es Hlow.
    destruct (lower_spec comp slot q i x v Hq Hi Es (fun _ => Hlow)) as (q' & E & H1 & H2 & _).
    exists i, q'. split; [done|]. split; [|done]. unfold ExpandingPQ.updateSlot. simpl.
    rewrite (Hpos i x Hi). opt. exact E.
Qed.

Lemma slots_stay_located_witness :
  exists q', ExpandingPQ.iinsertWithOverflow (fun a b : Z * Z => a.1 <? b.1) snd (5, 2)
      (ExpandingPQ.Indexed [(9, 0); (4, 1)] [0; 1] 64 100) = Some (false, q') /\
    ExpandingPQ.iheap q' ≡ₚ (5, 2) :: [(9, 0); (4, 1)] /\ ExpandingPQ.positions q' = [0; 1; 2].
Proof.
  assert (StrictWeak (fun a b : Z * Z => a.1 <? b.1)) as Hsw.
  { split; intros *; rewrite ?Z.ltb_lt, ?Z.ltb_ge; lia. }
  assert (slots_ok (fun a b : Z * Z => a.1 <? b.1) snd (ExpandingPQ.Indexed [(9, 0); (4, 1)] [0; 1] 64 100)) as Hok.
  { split_and!; [| |vm_compute; congruence..].
    - intros i x y Hi Hx Hy. pose proof (zget_Some_range _ _ _ Hy) as Hr. simpl in *.
      change (zlen [(9, 0); (4, 1)]) with 2 in Hr. assert (i = 1) as -> by lia.
      vm_compute in Hx, Hy. by simplify_eq.
    - intros i x Hx. pose proof (zget_Some_range _ _ _ Hx) as Hr. simpl in *.
      change (zlen [(9, 0); (4, 1)]) with 2 in Hr.
      assert (i = 0 \/ i = 1) as [-> | ->] by lia; vm_compute in Hx; by simplify_eq. }
  destruct (slots_stay_located _ snd _ Hok) as (_ & Hins & _).
  destruct (Hins (5, 2)) as (q' & E & _ & Hp); [vm_compute; congruence|simpl; lia| |].
  { intros x. simpl. intros [->|[->|[]%not_elem_of_nil]%elem_of_cons]%elem_of_cons; done. }
  exists q'. split; [exact E|]. split; [exact Hp|]. vm_compute in E. by injection E as <-.
Defined.

(** Merging through pointers.  [IndirectPQ::reset] makes a heap of the first pointers;
    after the element under the top was changed, whatever its new value, [updateTop]
    restores the heap, and [removeTop] removes a pointer that no other precedes and keeps
    the rest. *)
Theorem indirect_heap {A ptr} (Comp : A -> A -> bool) `{!StrictWeak Comp}
    `{!forall deref : ptr -> A, HeapAlg (IndirectPQ.ptrcomp Comp deref),
      !forall deref : ptr -> A, HeapLaws (IndirectPQ.ptrcomp Comp deref)}
    (deref deref' : ptr -> A) (count : Z) (q : @IndirectPQ.queue ptr)
    (Hcount : 0 < count <= zlen (IndirectPQ.pointers q)) :
  exists q1 p rest, IndirectPQ.reset Comp deref count q = Some q1 /\ IndirectPQ.live q1 = p :: rest /\
    p :: rest ≡ₚ take (Z.to_nat count) (IndirectPQ.pointers q) /\
    (forall r, r ∈ rest -> Comp (deref p) (deref r) = false) /\
    ((forall r, r ∈ rest -> deref' r = deref r) ->
     exists b q2, IndirectPQ.updateTop Comp deref' q1 = Some (b, q2) /\
       indirect_ok Comp deref' q2 /\ IndirectPQ.live q2 ≡ₚ p :: rest) /\
    (exists q2, IndirectPQ.removeTop Comp deref q1 = Some (p, q2) /\
       indirect_ok Comp deref q2 /\ IndirectPQ.live q2 ≡ₚ rest).
Proof.
  destruct (reset_spec Comp deref count q) as (q1 & E & Hok & Hs & Hp & _); [lia|].
  pose proof Hok as [Hr Hh]. pose proof (indirect_live_len q1 Hr) as Hl.
  destruct (IndirectPQ.live q1) as [|p rest] eqn:El; [zlen|].
  exists q1, p, rest. split; [done|]. split; [done|]. split; [done|]. split; [|split].
  - intros r Hrest. exact (heap_top_max (IndirectPQ.ptrcomp Comp deref) p rest r Hh Hrest).
  - intros Hsame. destruct (indirect_updateTop_spec Comp deref deref' q1 p rest Hok El Hsame)
      as (b & q2 & E2 & H2 & _ & H3). rewrite El in H3. eauto 10.
  - destruct (indirect_removeTop_spec Comp deref q1 p rest Hok El) as (q2 & E2 & H2 & _ & H3). eauto.
Qed.

Lemma indirect_heap_witness :
  exists q1 p rest, IndirectPQ.reset Z.ltb (fun a => a `mod` 10) 3 (IndirectPQ.Queue [15; 28; 31; 9] 0) = Some q1 /\
    IndirectPQ.live q1 = p :: rest /\ p = 28.
Proof.
  destruct (indirect_heap Z.ltb (fun a => a `mod` 10) (fun a => a `mod` 10) 3 (IndirectPQ.Queue [15; 28; 31; 9] 0)
    ltac:(vm_compute; split; congruence)) as (q1 & p & rest & E & El & _).
  exists q1, p, rest. split; [exact E|]. split; [exact El|]. vm_compute in E. injection E as <-.
  vm_compute in El. by injection El as <- _.
Defined.

(** [IndexedPQ::insert] after a removal writes the slot past the heap, which can hold a
    live element: here 1 is lost and 3 appears twice. *)
Example indexed_insert_overwrites :
  (q ← IndexedPQ.fill Z.ltb [5; 1] [0; 0];
   '(x, q) ← IndexedPQ.removeTop Z.ltb q;
   q ← IndexedPQ.insert Z.ltb 3 q;
   Some (x, (fun i => (IndexedPQ.underlying q).[i]) <$> IndexedPQ.live q))
  = Some (5, [Some 3; Some 3]).
Proof. by vm_compute. Qed.
