(* ===== verification/RamBudget.v ===== *)
(** The indexing RAM budget of [luxir/index/IndexRamBudget.h].  The budget object is a
    record threaded through its operations; [Undef] is a failed assertion or a signed
    overflow.  Entries and callbacks, shared objects in the code, have identities, and
    running a callback adds its identity to the log of the budget: what the callback then
    does are later operations.  [Module Concurrent] has the lock-free admission at the
    grain of its atomic accesses. *)

From S2P Require Import Prelude.

Module IndexRamBudget.

(** * The budget and its registrations *)

(** A callback, absent once disabled. *)
Record CallbackSlot := Slot { callback : option Z }.

Record MergeDemandEntry := Demand { demandId : Z; demandSlot : CallbackSlot; demandBytes : Z }.
Record PressureEntry := Listener { listenerId : Z; listenerSlot : CallbackSlot }.

(** The entries in the two vectors are the registered ones: an entry is erased when its
    [registered] flag is cleared. *)
Record budget := Budget {
  total : Z;
  reserved : Z;
  retainedDeleteBytes : Z;
  liveDeleteBytes : Z;
  retirableDeleteBytes : Z;
  nonzeroDemands : Z;
  mergeDemands : list MergeDemandEntry;
  pressureListeners : list PressureEntry;
  drainingBytes : Z;
  notified : list Z;
}.

Definition make (totalBytes : Z) : option budget :=
  if decide (0 <= totalBytes) then Some (Budget totalBytes 0 0 0 0 0 [] [] 0 []) else None.

Definition set_total (z : Z) (b : budget) : budget :=
  Budget z (reserved b) (retainedDeleteBytes b) (liveDeleteBytes b) (retirableDeleteBytes b)
    (nonzeroDemands b) (mergeDemands b) (pressureListeners b) (drainingBytes b) (notified b).
Definition set_reserved (z : Z) (b : budget) : budget :=
  Budget (total b) z (retainedDeleteBytes b) (liveDeleteBytes b) (retirableDeleteBytes b)
    (nonzeroDemands b) (mergeDemands b) (pressureListeners b) (drainingBytes b) (notified b).
Definition set_retained (z : Z) (b : budget) : budget :=
  Budget (total b) (reserved b) z (liveDeleteBytes b) (retirableDeleteBytes b)
    (nonzeroDemands b) (mergeDemands b) (pressureListeners b) (drainingBytes b) (notified b).
Definition set_live (z : Z) (b : budget) : budget :=
  Budget (total b) (reserved b) (retainedDeleteBytes b) z (retirableDeleteBytes b)
    (nonzeroDemands b) (mergeDemands b) (pressureListeners b) (drainingBytes b) (notified b).
Definition set_retirable (z : Z) (b : budget) : budget :=
  Budget (total b) (reserved b) (retainedDeleteBytes b) (liveDeleteBytes b) z
    (nonzeroDemands b) (mergeDemands b) (pressureListeners b) (drainingBytes b) (notified b).
Definition set_demands (n : Z) (l : list MergeDemandEntry) (b : budget) : budget :=
  Budget (total b) (reserved b) (retainedDeleteBytes b) (liveDeleteBytes b) (retirableDeleteBytes b)
    n l (pressureListeners b) (drainingBytes b) (notified b).
Definition set_listeners (l : list PressureEntry) (b : budget) : budget :=
  Budget (total b) (reserved b) (retainedDeleteBytes b) (liveDeleteBytes b) (retirableDeleteBytes b)
    (nonzeroDemands b) (mergeDemands b) l (drainingBytes b) (notified b).
Definition set_draining (z : Z) (b : budget) : budget :=
  Budget (total b) (reserved b) (retainedDeleteBytes b) (liveDeleteBytes b) (retirableDeleteBytes b)
    (nonzeroDemands b) (mergeDemands b) (pressureListeners b) z (notified b).
Definition add_notified (l : list Z) (b : budget) : budget :=
  Budget (total b) (reserved b) (retainedDeleteBytes b) (liveDeleteBytes b) (retirableDeleteBytes b)
    (nonzeroDemands b) (mergeDemands b) (pressureListeners b) (drainingBytes b) (notified b ++ l).

(** [fetch_add] on an atomic counter: the value before, and the wrapped sum stored. *)
Definition fetch_add (sel : budget -> Z) (upd : Z -> budget -> budget) (d : Z) : SM budget Z :=
  b ← get; modify (upd (s64 (sel b + d)));; mret (sel b).

Definition fetch_sub (sel : budget -> Z) (upd : Z -> budget -> budget) (d : Z) : SM budget Z :=
  b ← get; modify (upd (s64 (sel b - d)));; mret (sel b).

Definition load (sel : budget -> Z) : SM budget Z := b ← get; mret (sel b).

(** * Pressure *)

Definition mergeDemandPressureCap (totalBytes : Z) : Z := Z.max 1 (Z.quot totalBytes 2).

(** The sum of the demands, cut off at [cap]. *)
Fixpoint demandLoop (cap demand : Z) (l : list MergeDemandEntry) : SM budget Z :=
  match l with
  | [] => mret demand
  | e :: l =>
      if decide (demandBytes e = 0) then demandLoop cap demand l
      else
        available ← checked (cap - demand);
        if decide (demandBytes e >= available) then mret cap
        else demand ← checked (demand + demandBytes e); demandLoop cap demand l
  end.

Definition effectiveDemandLocked (cap : Z) : SM budget Z :=
  assert (cap > 0);;
  b ← get;
  demandLoop cap 0 (mergeDemands b).

Definition projectedDeltaLocked : SM budget Z :=
  b ← get; checked (liveDeleteBytes b - retirableDeleteBytes b).

Definition liveLocked : SM budget Z :=
  b ← get;
  assert (reserved b >= drainingBytes b);;
  d ← projectedDeltaLocked;
  n ← checked (reserved b - drainingBytes b);
  checked (n + d).

Definition pressureNeededLocked : SM budget bool :=
  cap ← load total;
  if decide (cap = 0) then mret false
  else
    live ← liveLocked;
    if decide (live > cap) then mret true
    else
      demand ← effectiveDemandLocked (mergeDemandPressureCap cap);
      room ← checked (cap - live);
      mret (bool_decide (demand > room)).

(** * Callbacks *)

Definition collectAdmissionCallbacksLocked (b : budget) : list CallbackSlot :=
  demandSlot <$> filter (fun e => demandBytes e <> 0) (mergeDemands b).

Definition collectPressureCallbacksLocked (b : budget) : list CallbackSlot :=
  listenerSlot <$> pressureListeners b.

Definition notify (s : CallbackSlot) : SM budget unit :=
  match callback s with None => mret () | Some c => modify (add_notified [c]) end.

Fixpoint notifyCallbacks (l : list CallbackSlot) : SM budget unit :=
  match l with [] => mret () | s :: l => notify s;; notifyCallbacks l end.

Definition pressureCallbacks : SM budget (list CallbackSlot) :=
  p ← pressureNeededLocked;
  b ← get;
  mret (if p : bool then collectPressureCallbacksLocked b else []).

Definition notifyAfterReservationGrowth : SM budget unit :=
  l ← pressureCallbacks; notifyCallbacks l.

Definition notifyCapacityReleased : SM budget unit :=
  b ← get; notifyCallbacks (collectAdmissionCallbacksLocked b).

(** * Reservations *)

(** The admission loop's test of a value [cur] of [reserved]: [None] refuses. *)
Definition admission (cap cur oldBytes newBytes : Z) : SM budget (option Z) :=
  assert (cur >= oldBytes);;
  withoutGuard ← checked (cur - oldBytes);
  refused ← (if decide (cap = 0) then mret false
             else if decide (withoutGuard > cap) then mret true
             else room ← checked (cap - withoutGuard); mret (bool_decide (newBytes > room)));
  if refused : bool then mret None
  else next ← checked (withoutGuard + newBytes); mret (Some next).

Definition tryResize (oldBytes newBytes : Z) : SM budget bool :=
  assert (oldBytes >= 0 /\ newBytes >= 0);;
  if decide (newBytes <= oldBytes) then
    prev ← fetch_sub reserved set_reserved (oldBytes - newBytes);
    assert (prev >= oldBytes);;
    (if decide (newBytes <> oldBytes) then notifyCapacityReleased else mret ());;
    mret true
  else
    cap ← load total;
    cur ← load reserved;
    r ← admission cap cur oldBytes newBytes;
    match r with
    | None => mret false
    | Some next => modify (set_reserved next);; notifyAfterReservationGrowth;; mret true
    end.

Definition forceAdjust (delta deleteDelta : Z) : SM budget bool :=
  (if decide (deleteDelta <> 0) then
     live ← fetch_add liveDeleteBytes set_live deleteDelta;
     live ← checked (live + deleteDelta);
     assert (live >= 0)
   else mret ());;
  prev ← fetch_add reserved set_reserved delta;
  now ← checked (prev + delta);
  assert (now >= 0);;
  sum ← checked (delta + deleteDelta);
  (if decide (sum > 0) then notifyAfterReservationGrowth else mret ());;
  (if decide (delta < 0) then notifyCapacityReleased else mret ());;
  cap ← load total;
  mret (bool_decide (cap <> 0 /\ now > cap)).

Inductive Kind := Work | Draining | RetainedDeletes | RetirableDeletes.

#[export] Instance Kind_eq_dec : EqDecision Kind.
Proof. solve_decision. Defined.

Definition releaseReservation (bytes draining : Z) (kind : Kind) (deletes : Z) : SM budget unit :=
  prev ← fetch_sub reserved set_reserved bytes;
  assert (prev >= bytes);;
  b ← get;
  assert (draining >= 0 /\ draining <= bytes /\ drainingBytes b >= draining);;
  modify (set_draining (drainingBytes b - draining));;
  (if decide (deletes <> 0) then
     live ← fetch_sub liveDeleteBytes set_live deletes; assert (live >= deletes)
   else mret ());;
  (if decide (kind = RetirableDeletes) then
     retirable ← fetch_sub retirableDeleteBytes set_retirable bytes; assert (retirable >= bytes)
   else mret ());;
  (if decide (kind = RetainedDeletes \/ kind = RetirableDeletes) then
     retained ← fetch_sub retainedDeleteBytes set_retained bytes;
     assert (retained >= bytes /\ draining = 0)
   else mret ());;
  b ← get;
  pressure ← pressureCallbacks;
  notifyCallbacks (collectAdmissionCallbacksLocked b);;
  notifyCallbacks pressure.

Definition markDrainingBytes (bytes deletes : Z) : SM budget unit :=
  b ← get;
  assert (bytes >= 0);;
  d ← checked (drainingBytes b + bytes);
  assert (reserved b >= d);;
  modify (set_draining d);;
  _ ← fetch_sub liveDeleteBytes set_live deletes;
  mret ().

Definition tryMarkDrainingBytes (bytes deletes : Z) : SM budget bool :=
  assert (bytes >= 0);;
  p ← pressureNeededLocked;
  if p : bool then markDrainingBytes bytes deletes;; mret true else mret false.

Definition growDrainingBytes (delta : Z) : SM budget unit :=
  _ ← fetch_add reserved set_reserved delta;
  b ← get;
  d ← checked (drainingBytes b + delta);
  modify (set_draining d).

Definition clearDrainingBytes (bytes deletes : Z) : SM budget unit :=
  b ← get;
  assert (drainingBytes b >= bytes);;
  modify (set_draining (drainingBytes b - bytes));;
  _ ← fetch_add liveDeleteBytes set_live deletes;
  pressure ← pressureCallbacks;
  notifyCallbacks pressure.

(** * Registrations *)

Definition find_demand (id : Z) (b : budget) : option MergeDemandEntry :=
  head (filter (fun e => demandId e = id) (mergeDemands b)).

Definition registerMergeDemand (id cb : Z) : SM budget unit :=
  b ← get;
  modify (set_demands (nonzeroDemands b) (mergeDemands b ++ [Demand id (Slot (Some cb)) 0])).

(** Publishing through a registration; an entry that is not registered is left alone. *)
Definition publishDemand (id bytes : Z) : SM budget unit :=
  assert (bytes >= 0);;
  b ← get;
  match find_demand id b with
  | None => mret ()
  | Some e =>
      let n := if decide ((demandBytes e = 0) <-> (bytes = 0)) then nonzeroDemands b
               else s32 (nonzeroDemands b + (if decide (bytes <> 0) then 1 else -1)) in
      modify (set_demands n ((fun e' => if decide (demandId e' = id)
                                        then Demand id (demandSlot e') bytes else e') <$> mergeDemands b));;
      pressure ← pressureCallbacks;
      notifyCallbacks pressure
  end.

Definition unregisterDemand (id : Z) : SM budget unit :=
  b ← get;
  match find_demand id b with
  | None => mret ()
  | Some e =>
      let n := if decide (demandBytes e <> 0) then s32 (nonzeroDemands b - 1) else nonzeroDemands b in
      modify (set_demands n (filter (fun e' => demandId e' <> id) (mergeDemands b)))
  end.

Definition registerPressureListener (id cb : Z) : SM budget unit :=
  b ← get;
  modify (set_listeners (pressureListeners b ++ [Listener id (Slot (Some cb))]));;
  p ← pressureNeededLocked;
  if p : bool then notify (Slot (Some cb)) else mret ().

Definition unregisterPressure (id : Z) : SM budget unit :=
  b ← get;
  modify (set_listeners (filter (fun e => listenerId e <> id) (pressureListeners b))).

(** * Queries and reconfiguration *)

Definition tryAcquire (bytes : Z) : SM budget bool := assert (bytes >= 0);; tryResize 0 bytes.

Definition release (bytes : Z) : SM budget unit :=
  assert (bytes >= 0);; releaseReservation bytes 0 Work 0.

Definition overBudget (b : budget) : bool := bool_decide (total b <> 0 /\ reserved b > total b).

Definition pressureNeeded : SM budget bool := pressureNeededLocked.

Definition liveOverBudget : SM budget bool :=
  cap ← load total;
  if decide (cap = 0) then mret false else live ← liveLocked; mret (bool_decide (live > cap)).

Definition pressurePossible : SM budget bool :=
  cap ← load total;
  if decide (cap = 0) then mret false
  else
    r ← load reserved;
    d ← projectedDeltaLocked;
    x ← checked (r + d);
    n ← load nonzeroDemands;
    mret (bool_decide (x > cap \/ n <> 0)).

Definition setTotalBytes (totalBytes : Z) : SM budget unit :=
  assert (totalBytes >= 0);;
  old ← load total;
  modify (set_total totalBytes);;
  b ← get;
  let admissions := if decide (totalBytes = 0 \/ (old <> 0 /\ totalBytes > old))
                    then collectAdmissionCallbacksLocked b else [] in
  pressure ← pressureCallbacks;
  notifyCallbacks admissions;;
  notifyCallbacks pressure.

Definition pendingMergeDemandBytes : SM budget Z :=
  b ← get;
  demandLoop (if decide (total b = 0) then 2 ^ 63 - 1 else total b) 0 (mergeDemands b).

End IndexRamBudget.

(** * Guards *)

Module Guard.
Import IndexRamBudget.

(** A reservation held on the budget; [live] is a non-null budget pointer. *)
Record guard := G {
  live : bool;
  bytes : Z;
  gDraining : Z;
  deleteBytes : Z;
  kind : Kind;
}.

Definition null : guard := G false 0 0 0 Work.
Definition of_bytes (bytes : Z) : guard := G true bytes 0 0 Work.

(** Releasing gives the guard a move or a destruction leaves. *)
Definition release (g : guard) : SM budget guard :=
  if live g then
    releaseReservation (bytes g) (gDraining g) (kind g) (if decide (kind g = Work) then deleteBytes g else 0);;
    mret null
  else mret g.

(** [a = std::move(b)] of different guards: both guards after. *)
Definition moveAssign (a b : guard) : SM budget (guard * guard) := release a;; mret (b, null).

Definition tryAcquireGuard (n : Z) : SM budget (option guard) :=
  ok ← tryAcquire n; mret (if ok : bool then Some (of_bytes n) else None).

Definition forceAcquire (n : Z) : SM budget guard :=
  assert (n >= 0);; _ ← forceAdjust n 0; mret (of_bytes n).

Definition tryResize (newBytes : Z) (g : guard) : SM budget (bool * guard) :=
  assert (newBytes >= 0);;
  assert (live g = true);;
  assert (kind g = Work);;
  ok ← IndexRamBudget.tryResize (bytes g) newBytes;
  mret (if ok : bool then (true, G true newBytes (gDraining g) (deleteBytes g) Work) else (false, g)).

Definition forceResize (newBytes newDeleteBytes : Z) (g : guard) : SM budget (bool * guard) :=
  assert (newBytes >= 0);;
  assert (newDeleteBytes >= 0 /\ newDeleteBytes <= newBytes);;
  assert (live g = true);;
  assert (kind g = Work);;
  over ← forceAdjust (newBytes - bytes g) (newDeleteBytes - deleteBytes g);
  mret (over, G true newBytes (gDraining g) newDeleteBytes Work).

Definition markDraining (retainedBytes : Z) (g : guard) : SM budget guard :=
  assert (live g = true);;
  assert (kind g = Work);;
  assert (retainedBytes >= 0 /\ retainedBytes <= bytes g);;
  markDrainingBytes (bytes g - retainedBytes) (deleteBytes g);;
  mret (G true (bytes g) (bytes g - retainedBytes) (deleteBytes g) Draining).

Definition tryMarkDrainingForPressure (retainedBytes : Z) (g : guard) : SM budget (bool * guard) :=
  assert (live g = true);;
  assert (kind g = Work);;
  assert (retainedBytes >= 0 /\ retainedBytes <= bytes g);;
  ok ← tryMarkDrainingBytes (bytes g - retainedBytes) (deleteBytes g);
  mret (if ok : bool then (true, G true (bytes g) (bytes g - retainedBytes) (deleteBytes g) Draining)
        else (false, g)).

Definition nonDrainingSize (g : guard) : Z := bytes g - gDraining g.

(** The guard left and the guard of the retained packet. *)
Definition transferToRetainedDeletes (actual : Z) (g : guard) : SM budget (guard * guard) :=
  assert (live g = true /\ kind g = Draining);;
  assert (actual >= 0 /\ bytes g >= gDraining g);;
  let transferred := Z.min actual (nonDrainingSize g) in
  let retained := G true actual 0 0 RetainedDeletes in
  _ ← fetch_add retainedDeleteBytes set_retained actual;
  let g := G true (bytes g - transferred) (gDraining g) (deleteBytes g) (kind g) in
  (if decide (actual > transferred) then _ ← forceAdjust (actual - transferred) 0; mret () else mret ());;
  mret (g, retained).

Definition growDraining (delta : Z) (g : guard) : SM budget guard :=
  assert (live g = true);;
  assert (kind g = Draining);;
  assert (delta >= 0);;
  growDrainingBytes delta;;
  n ← checked (bytes g + delta);
  d ← checked (gDraining g + delta);
  mret (G true n d (deleteBytes g) (kind g)).

Definition clearDraining (g : guard) : SM budget guard :=
  assert (live g = true);;
  assert (kind g = Draining);;
  clearDrainingBytes (gDraining g) (deleteBytes g);;
  mret (G true (bytes g) 0 (deleteBytes g) Work).

Definition markRetirable (g : guard) : SM budget guard :=
  assert (live g = true);;
  if decide (kind g = RetirableDeletes) then mret g
  else
    assert (kind g = RetainedDeletes);;
    _ ← fetch_add retirableDeleteBytes set_retirable (bytes g);
    mret (G true (bytes g) (gDraining g) (deleteBytes g) RetirableDeletes).

End Guard.

(** * The accounting invariant *)

Section accounting.
Import IndexRamBudget Guard.

Definition sum {A} (f : A -> Z) (l : list A) : Z := foldr (fun x s => f x + s) 0 l.

Lemma sum_cons {A} (f : A -> Z) x l : sum f (x :: l) = f x + sum f l.
Proof. done. Qed.

#[export] Instance sum_perm {A} (f : A -> Z) : Proper ((≡ₚ) ==> (=)) (sum f).
Proof. intros l l' H. induction H; simpl; lia. Qed.

Lemma sum_nonneg {A} (f : A -> Z) l : (forall x, x ∈ l -> 0 <= f x) -> 0 <= sum f l.
Proof.
  induction l as [|x l IH]; intros H; simpl; [lia|].
  pose proof (H x ltac:(by left)). specialize (IH (fun y Hy => H y (list_elem_of_further y x l Hy))). lia.
Qed.

(** What each guard contributes to the counters. *)
Definition cLive (g : guard) : Z := match kind g with Work => deleteBytes g | _ => 0 end.
Definition cRetained (g : guard) : Z :=
  match kind g with RetainedDeletes | RetirableDeletes => bytes g | _ => 0 end.
Definition cRetirable (g : guard) : Z := match kind g with RetirableDeletes => bytes g | _ => 0 end.
Definition cWeight (g : guard) : Z := bytes g + deleteBytes g.
#[local] Arguments cLive !_ /.
#[local] Arguments cRetained !_ /.
#[local] Arguments cRetirable !_ /.
#[local] Arguments cWeight !_ /.

Definition guard_ok (g : guard) : Prop :=
  (live g = false -> g = null) /\ 0 <= gDraining g <= bytes g /\ 0 <= deleteBytes g /\
  (kind g <> Draining -> gDraining g = 0) /\
  (kind g = RetainedDeletes \/ kind g = RetirableDeletes -> deleteBytes g = 0).

Definition demands_ok (b : budget) : Prop :=
  (forall e, e ∈ mergeDemands b -> 0 <= demandBytes e < 2 ^ 63) /\ NoDup (demandId <$> mergeDemands b) /\
  nonzeroDemands b = zlen (filter (fun e => demandBytes e <> 0) (mergeDemands b)) /\
  zlen (mergeDemands b) < 2 ^ 31.

(** The counters are the sums over the guards [gs] and the bytes [raw] acquired without a
    guard, and everything stays far from overflow. *)
Definition acct (b : budget) (gs : list guard) (raw : Z) : Prop :=
  0 <= total b < 2 ^ 62 /\ Forall guard_ok gs /\ 0 <= raw /\ sum cWeight gs + raw < 2 ^ 62 /\
  reserved b = sum bytes gs + raw /\
  drainingBytes b = sum gDraining gs /\
  liveDeleteBytes b = sum cLive gs /\
  retainedDeleteBytes b = sum cRetained gs /\
  retirableDeleteBytes b = sum cRetirable gs /\
  demands_ok b.

Lemma acct_perm b gs gs' raw : gs ≡ₚ gs' -> acct b gs raw -> acct b gs' raw.
Proof. intros E. unfold acct. by rewrite E. Qed.

Lemma acct_notified b gs raw l : acct b gs raw -> acct (add_notified l b) gs raw.
Proof. done. Qed.

(** The sums of well-formed guards, in the order the code's differences need. *)
Lemma sum_bounds gs :
  Forall guard_ok gs ->
  0 <= sum gDraining gs /\ 0 <= sum cLive gs /\ 0 <= sum cRetirable gs /\ sum cRetirable gs <= sum cRetained gs /\
  sum gDraining gs + sum cRetained gs <= sum bytes gs /\ sum bytes gs + sum cLive gs <= sum cWeight gs /\
  0 <= sum bytes gs.
Proof.
  induction 1 as [|g gs (Hn & Hd & Hdel & Hk & Hr) _ IH]; simpl; [lia|].
  unfold cLive, cRetained, cRetirable, cWeight in *.
  assert (gDraining g = 0 \/ kind g = Draining) by (destruct (kind g); auto).
  assert (deleteBytes g = 0 \/ kind g = Work \/ kind g = Draining) by (destruct (kind g); auto).
  destruct (kind g); destruct_or?; try discriminate; lia.
Qed.

Definition pending (b : budget) : Z := sum demandBytes (mergeDemands b).

(** The pressure predicate of the class comment, with the cap on demand as coded. *)
Definition pressure_spec (b : budget) : bool :=
  bool_decide (total b <> 0 /\
    reserved b + liveDeleteBytes b + Z.min (pending b) (Z.max 1 (total b / 2))
      - drainingBytes b - retirableDeleteBytes b > total b).

Lemma demandLoop_spec cap d l b :
  0 <= d <= cap -> cap < 2 ^ 63 -> (forall e, e ∈ l -> 0 <= demandBytes e) ->
  wp (demandLoop cap d l) (fun r b' => b' = b /\ r = Z.min cap (d + sum demandBytes l)) b.
Proof.
  intros Hd Hc. revert d Hd. induction l as [|e l IH]; intros d Hd Hl; simpl.
  { apply wp_ret. split; [done|]. lia. }
  pose proof (Hl e ltac:(by left)) as He.
  assert (0 <= sum demandBytes l) by (apply sum_nonneg; intros x Hx; apply Hl; by right).
  case_decide as H0.
  - rewrite H0. apply IH; [done|]. intros x Hx. apply Hl. by right.
  - wp_step. wp_step; [unfold is_s; lia|]. case_decide as Hge.
    + apply wp_ret. split; [done|]. lia.
    + wp_step. wp_step; [unfold is_s; lia|].
      eapply wp_mono; [apply IH; [lia|intros x Hx; apply Hl; by right]|].
      intros r b' [-> ->]. split; [done|]. lia.
Qed.

Lemma pressure_wp b gs raw :
  acct b gs raw -> wp pressureNeededLocked (fun p b' => b' = b /\ p = pressure_spec b) b.
Proof.
  intros (Ht & Hg & Hraw & Hw & Hr & Hd & Hl & Hrt & Hrb & Hdm & _).
  pose proof (sum_bounds gs Hg). unfold pressureNeededLocked, load, liveLocked, projectedDeltaLocked, pressure_spec.
  repeat wp_step. case_decide as H0.
  { apply wp_ret. split; [done|]. rewrite bool_decide_eq_false_2; [done|]. lia. }
  wp_run.
  assert (Z.quot (total b) 2 = total b / 2) as Eq by (apply Z.quot_div_nonneg; lia).
  case_decide as Hlive.
  { apply wp_ret. split; [done|]. rewrite bool_decide_eq_true_2; [done|]. split; [done|].
    assert (0 <= pending b) by (apply sum_nonneg; intros e He; by apply Hdm). lia. }
  unfold effectiveDemandLocked, mergeDemandPressureCap. rewrite Eq.
  wp_run.
  eapply wp_mono; [apply (demandLoop_spec _ _ _ b); [lia|pose proof (Z.div_le_upper_bound (total b) 2 (total b)); lia|]|].
  { intros e He. by apply Hdm. }
  intros r b' [-> ->]. wp_run. split; [done|].
  apply bool_decide_ext. fold (pending b). lia.
Qed.

(** * Notifications *)

Definition waiting (b : budget) : list Z := omap callback (collectAdmissionCallbacksLocked b).
Definition listening (b : budget) : list Z := omap callback (collectPressureCallbacksLocked b).

Lemma add_notified_nil b : add_notified [] b = b.
Proof. destruct b. unfold add_notified. simpl. by rewrite app_nil_r. Qed.

Lemma add_notified_app b l k : add_notified k (add_notified l b) = add_notified (l ++ k) b.
Proof. unfold add_notified. simpl. by rewrite app_assoc. Qed.

Lemma notify_wp l b : wp (notifyCallbacks l) (fun _ b' => b' = add_notified (omap callback l) b) b.
Proof.
  revert b. induction l as [|s l IH]; intros b; simpl.
  { apply wp_ret. by rewrite add_notified_nil. }
  apply wp_bind. unfold notify. destruct (callback s) as [c|]; wp_step; [|apply IH].
  eapply wp_mono; [apply IH|]. intros _ b' ->. by rewrite add_notified_app.
Qed.

Lemma pressure_callbacks_wp b gs raw :
  acct b gs raw ->
  wp pressureCallbacks (fun l b' => b' = b /\ omap callback l = if pressure_spec b then listening b else []) b.
Proof.
  intros H. unfold pressureCallbacks. wp_step. eapply wp_mono; [by eapply pressure_wp|].
  intros p b' [-> ->]. wp_run. split; [done|]. by destruct (pressure_spec b).
Qed.

Lemma growth_wp b gs raw :
  acct b gs raw ->
  wp notifyAfterReservationGrowth
    (fun _ b' => b' = add_notified (if pressure_spec b then listening b else []) b) b.
Proof.
  intros H. unfold notifyAfterReservationGrowth. wp_step.
  eapply wp_mono; [by eapply pressure_callbacks_wp|]. intros l b' [-> <-]. apply notify_wp.
Qed.

Lemma released_wp b : wp notifyCapacityReleased (fun _ b' => b' = add_notified (waiting b) b) b.
Proof. unfold notifyCapacityReleased. wp_step. wp_step. apply notify_wp. Qed.

(** More room for admissions: the pool became uncapped, or has more unreserved bytes. *)
Definition room_up (b b' : budget) : Prop :=
  total b <> 0 /\ (total b' = 0 \/ total b - reserved b < total b' - reserved b').

(** An operation tells who has to know: whoever waits for capacity when there is more of
    it, and the pressure listeners when pressure arises. *)
Definition pings (b b' : budget) : Prop :=
  exists new, notified b' = notified b ++ new /\
    (room_up b b' -> waiting b' ⊆ new) /\
    (pressure_spec b = false -> pressure_spec b' = true -> listening b' ⊆ new).

Lemma pings_quiet b b' :
  notified b' = notified b -> ~ room_up b b' -> (pressure_spec b' = true -> pressure_spec b = true) -> pings b b'.
Proof.
  intros E Hr Hp. exists []. rewrite app_nil_r. split; [done|]. split; [by intros ?%Hr|].
  intros H1 H2%Hp. congruence.
Qed.

Lemma pings_intro b b1 new :
  notified b1 = notified b -> (room_up b b1 -> waiting b1 ⊆ new) ->
  (pressure_spec b = false -> pressure_spec b1 = true -> listening b1 ⊆ new) -> pings b (add_notified new b1).
Proof. intros E H1 H2. exists new. simpl. rewrite E. done. Qed.

Lemma s64_id z : is_s 64 z -> s64 z = z.
Proof. by apply swrap_id. Qed.

Lemma fetch_add_wp sel upd d b :
  is_s 64 (sel b + d) -> wp (fetch_add sel upd d) (fun r b' => r = sel b /\ b' = upd (sel b + d) b) b.
Proof. intros H. unfold fetch_add. wp_run. by rewrite s64_id. Qed.

Lemma fetch_sub_wp sel upd d b :
  is_s 64 (sel b - d) -> wp (fetch_sub sel upd d) (fun r b' => r = sel b /\ b' = upd (sel b - d) b) b.
Proof. intros H. unfold fetch_sub. wp_run. by rewrite s64_id. Qed.

Lemma set_live_same b : set_live (liveDeleteBytes b + 0) b = b.
Proof. destruct b. unfold set_live. simpl. by rewrite Z.add_0_r. Qed.

(** [forceAdjust] when the counters it leaves are those of the guards [gs]. *)
Lemma forceAdjust_wp b d dd gs raw :
  let b1 := set_reserved (reserved b + d) (set_live (liveDeleteBytes b + dd) b) in
  acct b1 gs raw -> - 2 ^ 62 < d < 2 ^ 62 -> - 2 ^ 62 < dd < 2 ^ 62 ->
  wp (forceAdjust d dd) (fun over b' => exists new, b' = add_notified new b1 /\
    over = overBudget b1 /\ (d < 0 -> waiting b1 ⊆ new) /\
    (d + dd > 0 -> pressure_spec b1 = true -> listening b1 ⊆ new)) b.
Proof.
  intros b1 Hacct Hd Hdd. pose proof Hacct as (Ht & Hg & Hraw & Hw & Hr & _ & Hl & _).
  pose proof (sum_bounds gs Hg). simpl in Hr, Hl. unfold forceAdjust. wp_step.
  apply (wp_mono _ (fun _ b' => b' = set_live (liveDeleteBytes b + dd) b)).
  { case_decide as H0.
    - wp_step. eapply wp_mono; [apply fetch_add_wp; unfold is_s; lia|]. intros r b' [-> ->]. wp_run.
    - apply wp_ret. assert (dd = 0) as -> by lia. by rewrite set_live_same. }
  intros _ b' ->. wp_step.
  eapply wp_mono; [apply fetch_add_wp; unfold is_s; simpl; lia|]. intros r b' [-> ->].
  change (set_reserved _ _) with b1. wp_run.
  apply (wp_mono _ (fun _ b' => b' = add_notified (if bool_decide (d + dd > 0 /\ pressure_spec b1 = true)
    then listening b1 else []) b1)).
  { case_decide as Hs.
    - eapply wp_mono; [by eapply growth_wp|]. intros _ b' ->. f_equal.
      destruct (pressure_spec b1); [rewrite bool_decide_eq_true_2 by done|rewrite bool_decide_eq_false_2 by naive_solver]; done.
    - apply wp_ret. rewrite bool_decide_eq_false_2 by naive_solver. by rewrite add_notified_nil. }
  intros _ b' ->. wp_step. set (l1 := if bool_decide _ then listening b1 else []).
  apply (wp_mono _ (fun _ b' => b' = add_notified (l1 ++ (if decide (d < 0) then waiting b1 else [])) b1)).
  { case_decide as Hs.
    - eapply wp_mono; [apply released_wp|]. intros _ b' ->. by rewrite add_notified_app.
    - apply wp_ret. by rewrite app_nil_r. }
  intros _ b' ->. unfold load. wp_run. eexists. split; [done|]. split; [done|]. split.
  - intros Hneg. rewrite decide_True by done. set_solver.
  - intros Hpos Hp. unfold l1. rewrite bool_decide_eq_true_2 by done. set_solver.
Qed.

(** * The operations keep the accounts *)

(** Pressure, as the linear comparison it decides. *)
Definition excess (b : budget) : Z :=
  reserved b + liveDeleteBytes b + Z.min (pending b) (Z.max 1 (total b / 2))
    - drainingBytes b - retirableDeleteBytes b - total b.

Lemma pressure_spec_true b : pressure_spec b = true <-> total b <> 0 /\ excess b > 0.
Proof. unfold pressure_spec, excess. rewrite bool_decide_eq_true. lia. Qed.

Lemma pressure_le b b' :
  total b' = total b -> excess b' <= excess b -> pressure_spec b' = true -> pressure_spec b = true.
Proof. rewrite !pressure_spec_true. lia. Qed.

Definition fits (b : budget) (oldBytes newBytes : Z) : bool :=
  bool_decide (newBytes <= oldBytes \/ total b = 0 \/ reserved b - oldBytes + newBytes <= total b).

Lemma tryResize_wp b oldBytes newBytes gs raw gs' raw' :
  let b1 := set_reserved (reserved b - oldBytes + newBytes) b in
  acct b gs raw -> acct b1 gs' raw' -> 0 <= oldBytes <= reserved b -> 0 <= newBytes < 2 ^ 62 ->
  wp (IndexRamBudget.tryResize oldBytes newBytes) (fun ok b' => ok = fits b oldBytes newBytes /\ pings b b' /\
    (if ok then exists new, b' = add_notified new b1 else b' = b)) b.
Proof.
  intros b1 Ha Ha1 Ho Hn. pose proof Ha as (Ht & Hg & Hraw & Hw & Hr & _).
  pose proof Ha1 as (_ & Hg1 & Hraw1 & Hw1 & Hr1 & _). simpl in Hr1.
  pose proof (sum_bounds gs Hg). pose proof (sum_bounds gs' Hg1). unfold IndexRamBudget.tryResize, fits.
  wp_step. wp_step; [lia|]. case_decide as Hle.
  - rewrite bool_decide_eq_true_2 by auto. wp_step.
    eapply wp_mono; [apply fetch_sub_wp; unfold is_s; lia|]. intros r b' [-> ->].
    replace (reserved b - (oldBytes - newBytes)) with (reserved b - oldBytes + newBytes) by lia.
    fold b1. wp_run. apply (wp_mono _ (fun _ b' => b' = add_notified (if decide (newBytes <> oldBytes) then waiting b1 else []) b1)).
    { case_decide; [apply released_wp|]. apply wp_ret. by rewrite add_notified_nil. }
    intros _ b' ->. wp_run. split; [done|]. split; [|eauto].
    apply pings_intro; [done| |].
    + intros [Hcap Hup]. simpl in Hup. rewrite decide_True by lia. done.
    + intros E1 E2. rewrite (pressure_le b b1) in E1; [done|done|unfold excess, pending, b1; simpl; lia|done].
  - unfold load, admission. wp_run.
    apply (wp_mono _ (fun r b' => b' = b /\ r = bool_decide (~ (total b = 0 \/ reserved b - oldBytes + newBytes <= total b)))).
    { case_decide; [apply wp_ret; split; [done|]; rewrite bool_decide_eq_false_2; tauto|].
      case_decide; [apply wp_ret; split; [done|]; rewrite bool_decide_eq_true_2; [done|lia]|].
      wp_run. split; [done|]. apply bool_decide_ext. lia. }
    intros r b' [-> ->]. case_bool_decide as Hfit.
    + wp_run. rewrite bool_decide_eq_false_2 by lia. split; [done|]. split; [|done].
      apply pings_quiet; [done| |done]. unfold room_up. lia.
    + wp_run. fold b1. eapply wp_mono; [by eapply growth_wp|]. intros _ b' ->. wp_run.
      rewrite bool_decide_eq_true_2 by lia. split; [done|]. split; [|eauto].
      apply pings_intro; [done| |].
      * intros [Hcap Hup]. simpl in Hup. lia.
      * by intros _ ->.
Qed.

#[local] Arguments sum : simpl never.

(** Takes apart the account of a guard and the others, and puts one together; what is left
    of the latter is the well-formedness of the guards. *)
Ltac acct_open H :=
  pose proof H as (Ht & Hg & Hraw & Hw & Hr & Hd & Hlv & Hrt & Hrb & Hdm);
  apply Forall_cons in Hg as [Hg Hgs];
  match type of Hgs with Forall _ ?rest => pose proof (sum_bounds rest Hgs) end;
  rewrite !sum_cons in *; simpl in *.

Ltac acct_close :=
  unfold acct; rewrite ?sum_cons; simpl; split_and!; try done; try lia;
  rewrite ?Forall_cons; split_and?; try done.

Lemma guard_ok_work n d : 0 <= n -> 0 <= d -> guard_ok (G true n 0 d Work).
Proof. intros. unfold guard_ok. simpl. split_and!; try done; try lia. by intros [?|?]. Qed.

Lemma guard_tryResize_wp b g rest raw n :
  acct b (g :: rest) raw -> live g = true -> kind g = Work -> 0 <= n ->
  sum cWeight rest + n + deleteBytes g + raw < 2 ^ 62 ->
  wp (Guard.tryResize n g) (fun r b' => acct b' (r.2 :: rest) raw /\ pings b b' /\ r.1 = fits b (bytes g) n) b.
Proof.
  intros Ha Hl Hk Hn Hw'. destruct g as [lv n0 d0 e0 k]. simpl in Hl, Hk. subst lv k.
  acct_open Ha. destruct Hg as (_ & Hgd & Hdel & Hnd & _). simpl in *. specialize (Hnd ltac:(done)). subst d0.
  assert (acct (set_reserved (reserved b - n0 + n) b) (G true n 0 e0 Work :: rest) raw) as Ha1.
  { acct_close; by apply guard_ok_work. }
  unfold Guard.tryResize. wp_run.
  eapply wp_mono; [apply (tryResize_wp b n0 n _ _ _ _ Ha Ha1); lia|].
  intros ok b' (-> & Hp & Hb). wp_run. simpl. destruct (fits b n0 n); [|subst b'; auto].
  destruct Hb as [new ->]. auto using acct_notified.
Qed.

Lemma acquire_wp b gs raw n :
  acct b gs raw -> 0 <= n -> sum cWeight gs + raw + n < 2 ^ 62 ->
  wp (tryAcquire n) (fun ok b' => ok = fits b 0 n /\ pings b b' /\
    (if ok then acct b' (of_bytes n :: gs) raw /\ acct b' gs (raw + n) /\ total b' = total b else b' = b)) b.
Proof.
  intros Ha Hn Hfit. pose proof Ha as (Ht & Hg & Hraw & Hw & Hr & Hd & Hlv & Hrt & Hrb & Hdm).
  pose proof (sum_bounds gs Hg).
  assert (forall l, acct (add_notified l (set_reserved (reserved b - 0 + n) b)) gs (raw + n)) as Ha1 by (intros; acct_close).
  assert (forall l, acct (add_notified l (set_reserved (reserved b - 0 + n) b)) (of_bytes n :: gs) raw) as Ha2.
  { intros. acct_close; by apply guard_ok_work. }
  unfold tryAcquire. wp_run. eapply wp_mono; [apply (tryResize_wp b 0 n _ _ _ _ Ha (Ha1 [])); lia|].
  intros ok b' (-> & Hp & Hb). split; [done|]. split; [done|].
  destruct (fits b 0 n); [|done]. destruct Hb as [new ->]. auto.
Qed.

Lemma adjust_pings b d dd new :
  let b1 := set_reserved (reserved b + d) (set_live (liveDeleteBytes b + dd) b) in
  (d < 0 -> waiting b1 ⊆ new) -> (d + dd > 0 -> pressure_spec b1 = true -> listening b1 ⊆ new) ->
  pings b (add_notified new b1).
Proof.
  intros b1 H1 H2. apply pings_intro; [done| |].
  - intros [Hc Hup]. simpl in Hup. apply H1. lia.
  - intros E1 E2. apply H2; [|done]. destruct (decide (d + dd > 0)) as [|Hle]; [done|].
    rewrite (pressure_le b b1) in E1; [done|done|unfold excess, pending, b1; simpl; lia|done].
Qed.

Lemma forceAcquire_wp b gs raw n :
  acct b gs raw -> 0 <= n -> sum cWeight gs + raw + n < 2 ^ 62 ->
  wp (forceAcquire n) (fun g b' => g = of_bytes n /\ acct b' (g :: gs) raw /\ pings b b') b.
Proof.
  intros Ha Hn Hfit. pose proof Ha as (Ht & Hg & Hraw & Hw & Hr & Hd & Hlv & Hrt & Hrb & Hdm).
  pose proof (sum_bounds gs Hg).
  assert (acct (set_reserved (reserved b + n) (set_live (liveDeleteBytes b + 0) b)) (of_bytes n :: gs) raw) as Ha1.
  { acct_close; by apply guard_ok_work. }
  unfold forceAcquire. wp_run. eapply wp_mono; [apply (forceAdjust_wp b n 0 _ _ Ha1); lia|].
  intros over b' (new & -> & _ & H1 & H2). wp_run. split; [done|]. split; [done|]. by apply adjust_pings.
Qed.

Lemma forceResize_wp b g rest raw n d :
  acct b (g :: rest) raw -> live g = true -> kind g = Work -> 0 <= d <= n ->
  sum cWeight rest + raw + n + d < 2 ^ 62 ->
  wp (forceResize n d g) (fun r b' => acct b' (r.2 :: rest) raw /\ pings b b' /\ r.1 = overBudget b') b.
Proof.
  intros Ha Hl Hk Hn Hw'. destruct g as [lv n0 d0 e0 k]. simpl in Hl, Hk. subst lv k.
  acct_open Ha. destruct Hg as (_ & Hgd & Hdel & Hnd & _). simpl in *. specialize (Hnd ltac:(done)). subst d0.
  assert (acct (set_reserved (reserved b + (n - n0)) (set_live (liveDeleteBytes b + (d - e0)) b))
    (G true n 0 d Work :: rest) raw) as Ha1.
  { acct_close. apply guard_ok_work; lia. }
  unfold forceResize. wp_run.
  eapply wp_mono; [apply (forceAdjust_wp b _ _ _ _ Ha1); lia|].
  intros over b' (new & -> & -> & H1 & H2). wp_run. split; [done|]. split; [by apply adjust_pings|done].
Qed.

(** A guard that drains [n - r] of its [n] bytes. *)
Lemma guard_ok_draining n r e : 0 <= r <= n -> 0 <= e -> guard_ok (G true n r e Draining).
Proof. intros. unfold guard_ok. simpl. split_and!; try done; try lia. by intros [?|?]. Qed.

Lemma drained_acct b n e r rest raw l :
  acct b (G true n 0 e Work :: rest) raw -> 0 <= r <= n ->
  acct (add_notified l (set_live (liveDeleteBytes b - e) (set_draining (drainingBytes b + (n - r)) b)))
    (G true n (n - r) e Draining :: rest) raw.
Proof.
  intros Ha Hr'. acct_open Ha. destruct Hg as (_ & Hgd & Hdel & _). simpl in *. acct_close.
  apply guard_ok_draining; lia.
Qed.

Lemma markDrainingBytes_wp b n e r rest raw :
  acct b (G true n 0 e Work :: rest) raw -> 0 <= r <= n ->
  wp (markDrainingBytes (n - r) e) (fun _ b' =>
    b' = set_live (liveDeleteBytes b - e) (set_draining (drainingBytes b + (n - r)) b)) b.
Proof.
  intros Ha Hr'. acct_open Ha. destruct Hg as (_ & Hgd & Hdel & _). simpl in *.
  unfold markDrainingBytes. wp_run. eapply wp_mono; [apply fetch_sub_wp; unfold is_s; simpl; lia|].
  intros z b' [_ ->]. by wp_run.
Qed.

Lemma drained_pings b n e r rest raw :
  acct b (G true n 0 e Work :: rest) raw -> 0 <= r <= n ->
  pings b (set_live (liveDeleteBytes b - e) (set_draining (drainingBytes b + (n - r)) b)).
Proof.
  intros Ha Hr'. acct_open Ha. destruct Hg as (_ & Hgd & Hdel & _). simpl in *.
  apply pings_quiet; [done|unfold room_up; simpl; lia|].
  apply pressure_le; [done|]. unfold excess, pending. simpl. lia.
Qed.

Lemma work_shape b g rest raw :
  acct b (g :: rest) raw -> live g = true -> kind g = Work -> exists n e, g = G true n 0 e Work.
Proof.
  intros Ha Hl Hk. destruct g as [lv n d e k]. simpl in *. subst. acct_open Ha.
  destruct Hg as (_ & _ & _ & Hd0 & _). simpl in *. rewrite Hd0 by done. eauto.
Qed.

Lemma markDraining_wp b g rest raw r :
  acct b (g :: rest) raw -> live g = true -> kind g = Work -> 0 <= r <= bytes g ->
  wp (markDraining r g) (fun g' b' => acct b' (g' :: rest) raw /\ pings b b') b.
Proof.
  intros Ha Hl Hk Hr'. destruct (work_shape _ _ _ _ Ha Hl Hk) as (n & e & ->). simpl in Hr'.
  unfold markDraining. wp_run. eapply wp_mono; [by eapply markDrainingBytes_wp|].
  intros _ b' ->. wp_run. split; [|by eapply drained_pings].
  pose proof (drained_acct b n e r rest raw [] Ha Hr') as H1. by rewrite add_notified_nil in H1.
Qed.

Lemma tryMarkDraining_wp b g rest raw r :
  acct b (g :: rest) raw -> live g = true -> kind g = Work -> 0 <= r <= bytes g ->
  wp (tryMarkDrainingForPressure r g) (fun x b' => acct b' (x.2 :: rest) raw /\ pings b b' /\ x.1 = pressure_spec b) b.
Proof.
  intros Ha Hl Hk Hr'. destruct (work_shape _ _ _ _ Ha Hl Hk) as (n & e & ->). simpl in Hr'.
  unfold tryMarkDrainingForPressure, tryMarkDrainingBytes. wp_run.
  eapply wp_mono; [by eapply pressure_wp|]. intros p b' [-> ->]. destruct (pressure_spec b) eqn:Ep.
  - wp_step. eapply wp_mono; [by eapply markDrainingBytes_wp|]. intros _ b' ->. wp_run. simpl.
    split; [|split; [by eapply drained_pings|done]].
    pose proof (drained_acct b n e r rest raw [] Ha Hr') as H1. by rewrite add_notified_nil in H1.
  - wp_run. simpl. split; [done|]. split; [|done]. apply pings_quiet; [done|unfold room_up; lia|done].
Qed.

Lemma draining_shape g rest b raw :
  acct b (g :: rest) raw -> live g = true -> kind g = Draining ->
  exists n d e, g = G true n d e Draining /\ 0 <= d <= n /\ 0 <= e.
Proof.
  intros Ha Hl Hk. destruct g as [lv n d e k]. simpl in *. subst. acct_open Ha.
  destruct Hg as (_ & Hd' & He & _). simpl in *. eauto 10.
Qed.

Lemma guard_ok_retained n k : 0 <= n -> k = RetainedDeletes \/ k = RetirableDeletes -> guard_ok (G true n 0 0 k).
Proof. intros. unfold guard_ok. simpl. split_and!; try done; try lia. Qed.

Lemma transfer_wp b g rest raw a :
  acct b (g :: rest) raw -> live g = true -> kind g = Draining -> 0 <= a ->
  sum cWeight (g :: rest) + raw + a < 2 ^ 62 ->
  wp (transferToRetainedDeletes a g) (fun x b' => acct b' (x.1 :: x.2 :: rest) raw /\ pings b b' /\
    bytes x.2 = a /\ bytes x.1 = bytes g - Z.min a (nonDrainingSize g)) b.
Proof.
  intros Ha Hl Hk Ha0 Hw'. destruct (draining_shape _ _ _ _ Ha Hl Hk) as (n & d & e & -> & Hd' & He).
  acct_open Ha. unfold transferToRetainedDeletes, nonDrainingSize. simpl. set (t := Z.min a (n - d)).
  set (b0 := set_retained (retainedDeleteBytes b + a) b).
  assert (forall l, acct (add_notified l (set_reserved (reserved b0 + (a - t)) (set_live (liveDeleteBytes b0 + 0) b0)))
    (G true (n - t) d e Draining :: G true a 0 0 RetainedDeletes :: rest) raw) as Ha1.
  { intros. unfold b0. acct_close; first [apply guard_ok_draining; lia|apply guard_ok_retained; auto]. }
  wp_step. wp_run. eapply wp_mono; [apply fetch_add_wp; unfold is_s; lia|]. intros z b' [_ ->]. fold b0.
  wp_step. case_decide as Hgt.
  - wp_step. eapply wp_mono; [apply (forceAdjust_wp b0 _ 0 _ _ (Ha1 [])); lia|].
    intros over b' (new & -> & _ & H1 & H2). wp_run. simpl. split; [apply Ha1|]. split; [|done].
    exact (adjust_pings b0 _ _ new H1 H2).
  - wp_run. simpl. pose proof (Ha1 []) as H1. assert (a - t = 0) as E0 by lia.
    rewrite E0, set_live_same, add_notified_nil in H1. unfold set_reserved in H1. rewrite Z.add_0_r in H1.
    split; [exact H1|]. split; [|done].
    apply pings_quiet; [done|unfold room_up; simpl; lia|]. apply pressure_le; [done|]. done.
Qed.

Lemma growDraining_wp b g rest raw d' :
  acct b (g :: rest) raw -> live g = true -> kind g = Draining -> 0 <= d' ->
  sum cWeight (g :: rest) + raw + d' < 2 ^ 62 ->
  wp (growDraining d' g) (fun g' b' => acct b' (g' :: rest) raw /\ pings b b') b.
Proof.
  intros Ha Hl Hk Hd0 Hw'. destruct (draining_shape _ _ _ _ Ha Hl Hk) as (n & d & e & -> & Hd' & He).
  acct_open Ha. unfold growDraining, growDrainingBytes. wp_run.
  eapply wp_mono; [apply fetch_add_wp; unfold is_s; lia|]. intros z b' [_ ->]. wp_run. split.
  - acct_close. apply guard_ok_draining; lia.
  - apply pings_quiet; [done|unfold room_up; simpl; lia|].
    apply pressure_le; [done|]. unfold excess, pending. simpl. lia.
Qed.

Lemma clearDraining_wp b g rest raw :
  acct b (g :: rest) raw -> live g = true -> kind g = Draining ->
  wp (clearDraining g) (fun g' b' => acct b' (g' :: rest) raw /\ pings b b') b.
Proof.
  intros Ha Hl Hk. destruct (draining_shape _ _ _ _ Ha Hl Hk) as (n & d & e & -> & Hd' & He).
  acct_open Ha. unfold clearDraining, clearDrainingBytes. wp_run.
  eapply wp_mono; [apply fetch_add_wp; unfold is_s; simpl; lia|]. intros z b' [_ ->]. simpl.
  set (b1 := set_live _ _).
  assert (acct b1 (G true n 0 e Work :: rest) raw) as Ha1.
  { unfold b1. acct_close. apply guard_ok_work; lia. }
  wp_step. eapply wp_mono; [by eapply pressure_callbacks_wp|]. intros l b' [-> El].
  eapply wp_mono; [apply notify_wp|]. intros _ b' ->. rewrite El. wp_run. split; [done|].
  apply pings_intro; [done|unfold room_up; simpl; lia|]. by intros _ ->.
Qed.

Lemma markRetirable_wp b g rest raw :
  acct b (g :: rest) raw -> live g = true -> kind g = RetainedDeletes \/ kind g = RetirableDeletes ->
  wp (markRetirable g) (fun g' b' => acct b' (g' :: rest) raw /\ pings b b' /\ kind g' = RetirableDeletes) b.
Proof.
  intros Ha Hl Hk. unfold markRetirable. wp_run. case_decide as Hk'.
  { wp_run. split; [done|]. split; [|done]. apply pings_quiet; [done|unfold room_up; lia|done]. }
  destruct Hk as [Hk|]; [|done]. destruct g as [lv n d e k]. simpl in Hl, Hk. subst. acct_open Ha.
  destruct Hg as (_ & Hd' & He & Hd0 & He0). simpl in *. specialize (Hd0 ltac:(done)). specialize (He0 ltac:(auto)).
  subst. wp_run. eapply wp_mono; [apply fetch_add_wp; unfold is_s; lia|]. intros z b' [_ ->]. wp_run.
  split; [acct_close; apply guard_ok_retained; auto; lia|]. split; [|done].
  apply pings_quiet; [done|unfold room_up; simpl; lia|]. apply pressure_le; [done|].
  unfold excess, pending. simpl. lia.
Qed.

Lemma set_live_sub0 b : set_live (liveDeleteBytes b - 0) b = b.
Proof. destruct b. unfold set_live. simpl. by rewrite Z.sub_0_r. Qed.
Lemma set_retirable_sub0 b : set_retirable (retirableDeleteBytes b - 0) b = b.
Proof. destruct b. unfold set_retirable. simpl. by rewrite Z.sub_0_r. Qed.
Lemma set_retained_sub0 b : set_retained (retainedDeleteBytes b - 0) b = b.
Proof. destruct b. unfold set_retained. simpl. by rewrite Z.sub_0_r. Qed.

(** The counters without a guard. *)
Definition without (b : budget) (g : guard) : budget :=
  set_retained (retainedDeleteBytes b - cRetained g) (set_retirable (retirableDeleteBytes b - cRetirable g)
    (set_live (liveDeleteBytes b - cLive g) (set_draining (drainingBytes b - gDraining g)
      (set_reserved (reserved b - bytes g) b)))).

Lemma without_acct b g rest raw l : acct b (g :: rest) raw -> acct (add_notified l (without b g)) rest raw.
Proof. intros Ha. acct_open Ha. destruct g as [lv n d e k], Hg as (_ & Hg & He & _). simpl in *. destruct k; simpl in *; acct_close. Qed.

Lemma releaseReservation_wp b g rest raw :
  acct b (g :: rest) raw ->
  wp (releaseReservation (bytes g) (gDraining g) (kind g) (if decide (kind g = Work) then deleteBytes g else 0))
    (fun _ b' => acct b' rest raw /\ pings b b') b.
Proof.
  intros Ha. pose proof (without_acct b g rest raw [] Ha) as Ha1. rewrite add_notified_nil in Ha1.
  acct_open Ha. destruct Hg as (_ & Hgd & He & Hd0 & He0). unfold releaseReservation.
  assert (bytes g <= cWeight g) by (unfold cWeight; lia).
  wp_step. eapply wp_mono; [apply fetch_sub_wp; unfold is_s; lia|]. intros r b' [-> ->]. wp_run.
  assert ((if decide (kind g = Work) then deleteBytes g else 0) = cLive g) as ->.
  { unfold cLive. destruct (kind g); by case_decide. }
  assert (0 <= cLive g <= deleteBytes g) by (unfold cLive; destruct (kind g); lia).
  set (b0 := set_draining _ _).
  apply (wp_mono _ (fun _ b' => b' = set_live (liveDeleteBytes b0 - cLive g) b0)).
  { case_decide as Hz.
    - wp_step. eapply wp_mono; [apply fetch_sub_wp; unfold is_s; simpl; lia|]. intros r b' [-> ->]. wp_run.
    - wp_run. assert (cLive g = 0) as -> by lia. by rewrite set_live_sub0. }
  intros _ b' ->. set (b2 := set_live _ b0). wp_step.
  apply (wp_mono _ (fun _ b' => b' = set_retirable (retirableDeleteBytes b2 - cRetirable g) b2)).
  { case_decide as Hz.
    - assert (cRetirable g = bytes g) as E by (unfold cRetirable; by rewrite Hz). rewrite E in *.
      wp_step. eapply wp_mono; [apply fetch_sub_wp; unfold is_s; simpl; lia|]. intros r b' [-> ->]. wp_run.
    - assert (cRetirable g = 0) as -> by (unfold cRetirable; by destruct (kind g)).
      wp_run. by rewrite set_retirable_sub0. }
  intros _ b' ->. set (b3 := set_retirable _ b2). wp_step.
  apply (wp_mono _ (fun _ b' => b' = without b g)).
  { assert (without b g = set_retained (retainedDeleteBytes b3 - cRetained g) b3) as -> by done. case_decide as Hz.
    - assert (cRetained g = bytes g) as E by (unfold cRetained; by destruct Hz as [-> | ->]). rewrite E in *.
      assert (gDraining g = 0) by (apply Hd0; destruct Hz; congruence).
      wp_step. eapply wp_mono; [apply fetch_sub_wp; unfold is_s; simpl; lia|]. intros r b' [-> ->]. wp_run.
    - assert (cRetained g = 0) as -> by (unfold cRetained; destruct (kind g); tauto).
      wp_run. by rewrite set_retained_sub0. }
  intros _ b' ->. wp_run. eapply wp_mono; [by eapply pressure_callbacks_wp|]. intros l b' [-> El]. wp_step.
  eapply wp_mono; [apply notify_wp|]. intros _ b' ->.
  eapply wp_mono; [apply notify_wp|]. intros _ b' ->. rewrite El, add_notified_app.
  split; [by eapply without_acct|]. apply pings_intro; [done|set_solver|]. intros _ ->. set_solver.
Qed.

Lemma guard_release_wp b g rest raw :
  acct b (g :: rest) raw -> wp (Guard.release g) (fun g' b' => g' = null /\ acct b' rest raw /\ pings b b') b.
Proof.
  intros Ha. unfold Guard.release. destruct (live g) eqn:El.
  - wp_step. eapply wp_mono; [by apply releaseReservation_wp|]. intros _ b' [H1 H2]. by wp_run.
  - pose proof Ha as (_ & Hg & _). apply Forall_cons in Hg as [[Hn _] _]. specialize (Hn El). subst g.
    wp_run. split; [done|]. split; [|apply pings_quiet; [done|unfold room_up; lia|done]].
    acct_open Ha. acct_close.
Qed.

Lemma acct_raw b gs raw n : acct b gs raw -> 0 <= n <= raw -> acct b (of_bytes n :: gs) (raw - n).
Proof.
  intros (Ht & Hg & Hraw & Hw & Hr & Hd & Hlv & Hrt & Hrb & Hdm) Hn. unfold of_bytes.
  acct_close; apply guard_ok_work; lia.
Qed.

Lemma raw_release_wp b gs raw n :
  acct b gs raw -> 0 <= n <= raw ->
  wp (IndexRamBudget.release n) (fun _ b' => acct b' gs (raw - n) /\ pings b b') b.
Proof.
  intros Ha Hn. unfold IndexRamBudget.release. wp_run.
  exact (releaseReservation_wp b (of_bytes n) gs (raw - n) (acct_raw b gs raw n Ha Hn)).
Qed.

(** * Registrations and the size of the pool *)

Lemma set_total_wp b gs raw t :
  acct b gs raw -> 0 <= t < 2 ^ 62 ->
  wp (setTotalBytes t) (fun _ b' => acct b' gs raw /\ pings b b' /\ total b' = t) b.
Proof.
  intros Ha Ht'. assert (forall l, acct (add_notified l (set_total t b)) gs raw) as Ha1.
  { intros l. destruct Ha as (Ht & Hg & Hraw & Hw & Hr & Hd & Hlv & Hrt & Hrb & Hdm). acct_close. }
  unfold setTotalBytes, load. wp_run. cbv zeta. wp_run.
  pose proof (Ha1 []) as Ha0. rewrite add_notified_nil in Ha0.
  eapply wp_mono; [by eapply pressure_callbacks_wp|]. intros l b' [-> El]. wp_step.
  eapply wp_mono; [apply notify_wp|]. intros _ b' ->.
  eapply wp_mono; [apply notify_wp|]. intros _ b' ->. rewrite El, add_notified_app.
  split; [apply Ha1|]. split; [|done]. apply pings_intro; [done| |].
  - intros [Hc Hup]. simpl in Hup. rewrite decide_True by lia. unfold waiting. set_solver.
  - intros _ ->. set_solver.
Qed.

Lemma sum_app {A} (f : A -> Z) l k : sum f (l ++ k) = sum f l + sum f k.
Proof. induction l as [|x l IH]; [done|]. rewrite <- app_comm_cons, !sum_cons, IH. lia. Qed.

(** The entry of an identity, the only one. *)
Lemma find_demand_Some b id e :
  demands_ok b -> find_demand id b = Some e ->
  exists l k, mergeDemands b = l ++ e :: k /\ demandId e = id /\
    (forall x, x ∈ l ++ k -> demandId x <> id).
Proof.
  intros (_ & Hnd & _) Hf. unfold find_demand in Hf.
  assert (e ∈ filter (fun e => demandId e = id) (mergeDemands b)) as He
    by (destruct (filter _ _); simplify_eq/=; by left).
  apply list_elem_of_filter in He as [Hid Hin]. apply list_elem_of_split in Hin as (l & k & El).
  exists l, k. split; [done|]. split; [done|]. rewrite El, fmap_app, fmap_cons in Hnd.
  apply NoDup_app in Hnd as (_ & Hl & Hk). apply NoDup_cons in Hk as [Hk _].
  intros x [Hx|Hx]%elem_of_app Ex.
  - apply (Hl (demandId x)); [by apply list_elem_of_fmap_2|]. rewrite Ex, <- Hid. by left.
  - apply Hk. rewrite Hid, <- Ex. by apply list_elem_of_fmap_2.
Qed.

(** Changing only the demands keeps the accounts of the guards. *)
Lemma acct_demands b gs raw n l lg :
  acct b gs raw -> demands_ok (set_demands n l b) -> acct (add_notified lg (set_demands n l b)) gs raw.
Proof. intros (Ht & Hg & Hraw & Hw & Hr & Hd & Hlv & Hrt & Hrb & Hdm) H. acct_close. Qed.

Definition nonzero (e : MergeDemandEntry) : Z := if decide (demandBytes e <> 0) then 1 else 0.

Lemma count_nonzero l : zlen (filter (fun e => demandBytes e <> 0) l) = sum nonzero l.
Proof.
  induction l as [|e l IH]; [done|]. rewrite filter_cons, sum_cons. unfold nonzero at 1.
  case_decide; rewrite <- IH; [by rewrite zlen_cons|lia].
Qed.

Lemma nonzero_range l : 0 <= sum nonzero l <= zlen l.
Proof.
  induction l as [|e l IH]; [done|]. rewrite sum_cons, zlen_cons. unfold nonzero at 1 3. case_decide; lia.
Qed.

Lemma register_demand_wp b gs raw id cb :
  acct b gs raw -> ~ id ∈ demandId <$> mergeDemands b -> zlen (mergeDemands b) + 1 < 2 ^ 31 ->
  wp (registerMergeDemand id cb) (fun _ b' => acct b' gs raw /\ pings b b') b.
Proof.
  intros Ha Hid Hlen. pose proof Ha as (_ & _ & _ & _ & _ & _ & _ & _ & _ & H1 & H2 & H3 & H4).
  unfold registerMergeDemand. wp_run. split.
  - rewrite <- (add_notified_nil (set_demands _ _ _)). apply acct_demands; [done|].
    unfold demands_ok. simpl. rewrite fmap_app, count_nonzero, sum_app, <- count_nonzero. split_and!.
    + intros e [He|He]%elem_of_app; [by apply H1|]. apply list_elem_of_singleton in He as ->. simpl. lia.
    + apply NoDup_app. split; [done|]. split; [|apply NoDup_singleton].
      intros x Hx ->%list_elem_of_singleton. done.
    + unfold nonzero. simpl. unfold sum. simpl. lia.
    + zlen.
  - apply pings_quiet; [done|unfold room_up; simpl; lia|]. apply pressure_le; [done|].
    unfold excess, pending. simpl. rewrite sum_app. unfold sum at 2. simpl. lia.
Qed.

Lemma publish_wp b gs raw id n :
  acct b gs raw -> 0 <= n < 2 ^ 63 ->
  wp (publishDemand id n) (fun _ b' => acct b' gs raw /\ pings b b') b.
Proof.
  intros Ha Hn. pose proof Ha as (_ & _ & _ & _ & _ & _ & _ & _ & _ & Hdm).
  unfold publishDemand. wp_run. destruct (find_demand id b) as [e|] eqn:Ef.
  2:{ wp_run. split; [done|]. apply pings_quiet; [done|unfold room_up; lia|done]. }
  destruct (find_demand_Some b id e Hdm Ef) as (l & k & El & Hid & Hne). pose proof Hdm as (H1 & H2 & H3 & H4).
  cbv zeta. wp_run. set (l' := _ <$> mergeDemands b). set (cnt := if decide _ then nonzeroDemands b else _).
  assert (l' = l ++ Demand id (demandSlot e) n :: k) as El'.
  { unfold l'. rewrite El, fmap_app, fmap_cons. rewrite decide_True by done.
    assert (forall m : list MergeDemandEntry, (forall x, x ∈ m -> x ∈ l ++ k) ->
      (fun e' => if decide (demandId e' = id) then Demand id (demandSlot e') n else e') <$> m = m) as Hsame.
    { intros m Hm. rewrite <- (list_fmap_id m) at 2. apply list_fmap_ext. intros i x Hx%list_elem_of_lookup_2.
      by rewrite decide_False by (by apply Hne, Hm). }
    rewrite !Hsame; set_solver. }
  rewrite count_nonzero, El, sum_app, sum_cons in H3. pose proof (nonzero_range l). pose proof (nonzero_range k).
  rewrite El, zlen_app, zlen_cons in H4. pose proof (H1 e ltac:(rewrite El; set_solver)) as He.
  assert (demands_ok (set_demands cnt l' b)) as Hdm'.
  { unfold demands_ok. simpl. rewrite El', count_nonzero, sum_app, sum_cons, fmap_app, fmap_cons. split_and!.
    - intros x [Hx|[->|Hx]%elem_of_cons]%elem_of_app; [|done|]; apply H1; rewrite El; set_solver.
    - simpl. rewrite <- Hid. rewrite El, fmap_app, fmap_cons in H2. done.
    - unfold cnt. rewrite H3.
      change (nonzero (Demand id (demandSlot e) n)) with (if decide (n <> 0) then 1 else 0).
      change (nonzero e) with (if decide (demandBytes e <> 0) then 1 else 0) in *.
      repeat case_decide; try tauto; rewrite ?swrap_id by (unfold is_s; lia); lia.
    - zlen. }
  eapply wp_mono; [eapply pressure_callbacks_wp; pose proof (acct_demands b gs raw cnt l' [] Ha Hdm') as Hx;
    by rewrite add_notified_nil in Hx|].
  intros lst b' [-> Elst]. eapply wp_mono; [apply notify_wp|]. intros _ b' ->.
  split; [by apply acct_demands|]. rewrite Elst. apply pings_intro; [done|unfold room_up; simpl; lia|].
  by intros _ ->.
Qed.

Lemma unregister_wp b gs raw id :
  acct b gs raw -> wp (unregisterDemand id) (fun _ b' => acct b' gs raw /\ pings b b') b.
Proof.
  intros Ha. pose proof Ha as (_ & _ & _ & _ & _ & _ & _ & _ & _ & Hdm).
  unfold unregisterDemand. wp_run. destruct (find_demand id b) as [e|] eqn:Ef.
  2:{ wp_run. split; [done|]. apply pings_quiet; [done|unfold room_up; lia|done]. }
  destruct (find_demand_Some b id e Hdm Ef) as (l & k & El & Hid & Hne). pose proof Hdm as (H1 & H2 & H3 & H4).
  cbv zeta. wp_run. set (l' := filter _ (mergeDemands b)). set (cnt := if decide _ then s32 _ else _).
  assert (l' = l ++ k) as El'.
  { unfold l'. rewrite El, filter_app, filter_cons, decide_False by (intros H; by apply H).
    rewrite !filter_all by (intros x Hx; apply Hne; set_solver). done. }
  rewrite count_nonzero, El, sum_app, sum_cons in H3. pose proof (nonzero_range l). pose proof (nonzero_range k).
  rewrite El, zlen_app, zlen_cons in H4. pose proof (H1 e ltac:(rewrite El; set_solver)) as He. split.
  - rewrite <- (add_notified_nil (set_demands _ _ _)). apply acct_demands; [done|].
    unfold demands_ok. simpl. rewrite El', count_nonzero, sum_app, fmap_app. split_and!.
    + intros x Hx. apply H1. rewrite El. set_solver.
    + rewrite El, fmap_app, fmap_cons in H2. apply NoDup_app in H2 as (Hn1 & Hn2 & Hn3).
      apply NoDup_cons in Hn3 as [_ Hn3]. apply NoDup_app. split; [done|]. split; [|done]. set_solver.
    + unfold cnt. rewrite H3. change (nonzero e) with (if decide (demandBytes e <> 0) then 1 else 0) in *.
      repeat case_decide; try tauto; rewrite ?swrap_id by (unfold is_s; lia); lia.
    + zlen.
  - apply pings_quiet; [done|unfold room_up; simpl; lia|]. apply pressure_le; [done|].
    unfold excess, pending. simpl. rewrite El', El, !sum_app, sum_cons. lia.
Qed.

Lemma listeners_wp b gs raw l :
  acct b gs raw -> acct (set_listeners l b) gs raw /\ pressure_spec (set_listeners l b) = pressure_spec b.
Proof. intros (Ht & Hg & Hraw & Hw & Hr & Hd & Hlv & Hrt & Hrb & Hdm). split; [acct_close|done]. Qed.

Lemma register_pressure_wp b gs raw id cb :
  acct b gs raw ->
  wp (registerPressureListener id cb)
    (fun _ b' => acct b' gs raw /\ pings b b' /\
       (pressure_spec b = true -> notified b' = notified b ++ [cb])) b.
Proof.
  intros Ha. unfold registerPressureListener. wp_run.
  destruct (listeners_wp b gs raw (pressureListeners b ++ [Listener id (Slot (Some cb))]) Ha) as [Ha1 Hp].
  set (b1 := set_listeners _ b) in *. eapply wp_mono; [by eapply pressure_wp|]. intros p b' [-> ->].
  rewrite Hp. destruct (pressure_spec b) eqn:Ep; unfold notify; simpl; wp_run; (split; [done|]); (split; [|done]).
  - exists [cb]. split; [done|]. split; [|congruence]. unfold room_up. simpl. lia.
  - apply pings_quiet; [done|unfold room_up; simpl; lia|]. intros H. simpl in *. congruence.
Qed.

Lemma acct_null b gs raw : acct b gs raw <-> acct b (null :: gs) raw.
Proof.
  assert (guard_ok null) by (unfold guard_ok; simpl; split_and!; try done; try lia; by intros [?|?]).
  unfold acct. rewrite !sum_cons, Forall_cons. simpl. naive_solver.
Qed.

(** * The other queries *)

Lemma no_demand l : 0 = sum nonzero l -> sum demandBytes l = 0.
Proof.
  induction l as [|e l IH]; [done|]. rewrite !sum_cons. pose proof (nonzero_range l). unfold nonzero at 1.
  case_decide as Hz; [lia|]. intros H0. rewrite IH by lia. destruct (decide (demandBytes e = 0)); [lia|tauto].
Qed.

Lemma possible_wp b gs raw :
  acct b gs raw -> wp pressurePossible (fun p b' => b' = b /\ (pressure_spec b = true -> p = true)) b.
Proof.
  intros (Ht & Hg & Hraw & Hw & Hr & Hd & Hl & Hrt & Hrb & Hdm & _ & Hn & _).
  pose proof (sum_bounds gs Hg). unfold pressurePossible, load, projectedDeltaLocked. wp_run. case_decide as Hc.
  - wp_run. split; [done|]. rewrite pressure_spec_true. lia.
  - wp_run. split; [done|]. rewrite pressure_spec_true. intros [_ Hx]. apply bool_decide_eq_true.
    destruct (decide (nonzeroDemands b = 0)) as [E|]; [|by right]. left.
    rewrite E, count_nonzero in Hn. unfold excess in Hx.
    unfold pending in Hx. rewrite no_demand in Hx by done. lia.
Qed.

Lemma liveOver_wp b gs raw :
  acct b gs raw ->
  wp liveOverBudget (fun p b' => b' = b /\ p = bool_decide (total b <> 0 /\ reserved b + liveDeleteBytes b
      - drainingBytes b - retirableDeleteBytes b > total b)) b.
Proof.
  intros (Ht & Hg & Hraw & Hw & Hr & Hd & Hl & Hrt & Hrb & Hdm & _).
  pose proof (sum_bounds gs Hg). unfold liveOverBudget, load, liveLocked, projectedDeltaLocked. wp_run.
  case_decide as Hc; wp_run; (split; [done|]).
  - rewrite bool_decide_eq_false_2; [done|lia].
  - apply bool_decide_ext. lia.
Qed.

Lemma pendingDemand_wp b gs raw :
  acct b gs raw ->
  wp pendingMergeDemandBytes (fun r b' => b' = b /\
    r = Z.min (if decide (total b = 0) then 2 ^ 63 - 1 else total b) (pending b)) b.
Proof.
  intros (Ht & _ & _ & _ & _ & _ & _ & _ & _ & Hdm & _). unfold pendingMergeDemandBytes. wp_run.
  eapply wp_mono; [apply demandLoop_spec; [case_decide; lia|case_decide; lia|]|done].
  intros e He. by apply Hdm.
Qed.

End accounting.
