(* ===== verification/RamBudgetMachine.v ===== *)
(** The budget of [luxir/index/IndexRamBudget.h] as a state machine: a pool, the guards its
    clients hold, and any sequence of the calls they may make.  [Module Concurrent] is the
    lock-free part at the grain of its atomic accesses, under any interleaving. *)

From S2P Require Import Prelude RamBudget.
Import IndexRamBudget.

(** The pool, the guards, and the bytes acquired without one. *)
Record world := World { bud : budget; guards : list Guard.guard; raw : Z }.

(** The calls of the clients; a guard is named by its place in the list. *)
Inductive op :=
| TryAcquireGuard (n : Z)
| ForceAcquire (n : Z)
| TryAcquire (n : Z)
| Release (n : Z)
| TryResize (i : nat) (n : Z)
| ForceResize (i : nat) (n d : Z)
| MarkDraining (i : nat) (r : Z)
| TryMarkDraining (i : nat) (r : Z)
| Transfer (i : nat) (a : Z)
| GrowDraining (i : nat) (d : Z)
| ClearDraining (i : nat)
| MarkRetirable (i : nat)
| Drop (i : nat)
| MoveAssign (i j : nat)
| SetTotal (t : Z)
| RegisterDemand (id cb : Z)
| Publish (id n : Z)
| UnregisterDemand (id : Z)
| RegisterPressure (id cb : Z)
| UnregisterPressure (id : Z).

(** Runs a call on the pool; [k] gives the guards and the raw bytes after it. *)
Definition on {A} (w : world) (c : SM budget A) (k : A -> list Guard.guard * Z) : outcome world :=
  match c (bud w) with
  | (Ret a, b) => Ret (World b (k a).1 (k a).2)
  | (Throw m, _) => Throw m
  | (Undef, _) => Undef
  end.

(** A call on guard [i]: the guard it becomes, and the guards it makes. *)
Definition onGuard (w : world) (i : nat) (f : Guard.guard -> SM budget (Guard.guard * list Guard.guard)) : outcome world :=
  match guards w !! i with
  | None => Undef
  | Some g => on w (f g) (fun r => (r.2 ++ <[i := r.1]> (guards w), raw w))
  end.

Definition same {A} (w : world) (c : SM budget A) : outcome world := on w c (fun _ => (guards w, raw w)).

Definition exec (o : op) (w : world) : outcome world :=
  match o with
  | TryAcquireGuard n => on w (Guard.tryAcquireGuard n) (fun r => (option_list r ++ guards w, raw w))
  | ForceAcquire n => on w (Guard.forceAcquire n) (fun g => (g :: guards w, raw w))
  | TryAcquire n => on w (tryAcquire n) (fun ok => (guards w, if ok : bool then raw w + n else raw w))
  | Release n => on w (release n) (fun _ => (guards w, raw w - n))
  | TryResize i n => onGuard w i (fun g => r ← Guard.tryResize n g; mret (r.2, []))
  | ForceResize i n d => onGuard w i (fun g => r ← Guard.forceResize n d g; mret (r.2, []))
  | MarkDraining i r => onGuard w i (fun g => g ← Guard.markDraining r g; mret (g, []))
  | TryMarkDraining i r => onGuard w i (fun g => x ← Guard.tryMarkDrainingForPressure r g; mret (x.2, []))
  | Transfer i a => onGuard w i (fun g => x ← Guard.transferToRetainedDeletes a g; mret (x.1, [x.2]))
  | GrowDraining i d => onGuard w i (fun g => g ← Guard.growDraining d g; mret (g, []))
  | ClearDraining i => onGuard w i (fun g => g ← Guard.clearDraining g; mret (g, []))
  | MarkRetirable i => onGuard w i (fun g => g ← Guard.markRetirable g; mret (g, []))
  | Drop i => onGuard w i (fun g => g ← Guard.release g; mret (g, []))
  | MoveAssign i j =>
      match guards w !! i, guards w !! j with
      | Some a, Some b =>
          on w (Guard.moveAssign a b) (fun r => (<[i := r.1]> (<[j := r.2]> (guards w)), raw w))
      | _, _ => Undef
      end
  | SetTotal t => same w (setTotalBytes t)
  | RegisterDemand id cb => same w (registerMergeDemand id cb)
  | Publish id n => same w (publishDemand id n)
  | UnregisterDemand id => same w (unregisterDemand id)
  | RegisterPressure id cb => same w (registerPressureListener id cb)
  | UnregisterPressure id => same w (unregisterPressure id)
  end.

(** What the sum of all reservations may grow by. *)
Definition small (w : world) (n : Z) : Prop := 0 <= n /\ sum cWeight (guards w) + raw w + n < 2 ^ 62.

Definition holds (w : world) (i : nat) (P : Guard.guard -> Prop) : Prop :=
  exists g, guards w !! i = Some g /\ Guard.live g = true /\ P g.

(** The calls a client may make: on a guard it holds, of the kind the call is for, with
    sizes that keep the sums below [2 ^ 62]. *)
Definition legal (w : world) (o : op) : Prop :=
  match o with
  | TryAcquireGuard n | ForceAcquire n | TryAcquire n => small w n
  | Release n => 0 <= n <= raw w
  | TryResize i n => holds w i (fun g => Guard.kind g = Work) /\ small w n
  | ForceResize i n d => holds w i (fun g => Guard.kind g = Work) /\ 0 <= d <= n /\ small w (n + d)
  | MarkDraining i r | TryMarkDraining i r =>
      holds w i (fun g => Guard.kind g = Work /\ 0 <= r <= Guard.bytes g)
  | Transfer i n | GrowDraining i n => holds w i (fun g => Guard.kind g = Draining) /\ small w n
  | ClearDraining i => holds w i (fun g => Guard.kind g = Draining)
  | MarkRetirable i =>
      holds w i (fun g => Guard.kind g = RetainedDeletes \/ Guard.kind g = RetirableDeletes)
  | Drop i => is_Some (guards w !! i)
  | MoveAssign i j => i <> j /\ is_Some (guards w !! i) /\ is_Some (guards w !! j)
  | SetTotal t => 0 <= t < 2 ^ 62
  | RegisterDemand id _ =>
      ~ id ∈ demandId <$> mergeDemands (bud w) /\ zlen (mergeDemands (bud w)) + 1 < 2 ^ 31
  | Publish _ n => 0 <= n < 2 ^ 63
  | UnregisterDemand _ | RegisterPressure _ _ | UnregisterPressure _ => True
  end.

Definition fresh (t : Z) : world := World (Budget t 0 0 0 0 0 [] [] 0 []) [] 0.

Inductive reachable : world -> Prop :=
| reachable_fresh t : 0 <= t < 2 ^ 62 -> reachable (fresh t)
| reachable_exec w o w' : reachable w -> legal w o -> exec o w = Ret w' -> reachable w'.

(** * Lock-free admission *)

Module Concurrent.

(** The two atomics admission uses. *)
Record shared := Shared { cap : Z; inUse : Z }.

(** A thread that holds a reservation, and where it is in [tryResize]: outside it, with
    [total] loaded, in the loop with the value [cur] of [reserved] it last read, or past a signed overflow, which is undefined. *)
Inductive thread :=
| Idle (held : Z)
| Loaded (held new total : Z)
| Trying (held new total cur : Z)
| Overflow (held : Z).

Definition held (t : thread) : Z :=
  match t with Idle h | Loaded h _ _ | Trying h _ _ _ | Overflow h => h end.

(** The condition of the loop body. *)
Definition refuses (total cur oldBytes newBytes : Z) : bool :=
  let withoutGuard := cur - oldBytes in
  bool_decide (total <> 0 /\ (withoutGuard > total \/ newBytes > total - withoutGuard)).

(** [cur - oldBytes + newBytes] in signed 64-bit arithmetic. *)
Definition desired (cur oldBytes newBytes : Z) : option Z :=
  if decide (is_s 64 (cur - oldBytes) /\ is_s 64 (cur - oldBytes + newBytes)) then Some (cur - oldBytes + newBytes) else None.

(** One atomic access of one thread; the flag marks a spurious failure.  A [compare_exchange_weak] that does not store, which
    it may do even when the value matches, reloads [cur]; [fetch_sub] wraps around. *)
Inductive tstep : bool -> shared -> thread -> shared -> thread -> Prop :=
| step_shrink s h new : 0 <= new <= h ->
    tstep false s (Idle h) (Shared (cap s) (s64 (inUse s - (h - new)))) (Idle new)
| step_total s h new : h < new -> is_s 64 new -> tstep false s (Idle h) s (Loaded h new (cap s))
| step_reserved s h new c : tstep false s (Loaded h new c) s (Trying h new c (inUse s))
| step_refuse s h new c cur : refuses c cur h new = true -> tstep false s (Trying h new c cur) s (Idle h)
| step_overflow s h new c cur : refuses c cur h new = false -> desired cur h new = None ->
    tstep false s (Trying h new c cur) s (Overflow h)
| step_cas s h new c cur d : refuses c cur h new = false -> desired cur h new = Some d -> inUse s = cur ->
    tstep false s (Trying h new c cur) (Shared (cap s) d) (Idle new)
| step_cas_fails s h new c cur d : refuses c cur h new = false -> desired cur h new = Some d -> inUse s <> cur ->
    tstep false s (Trying h new c cur) s (Trying h new c (inUse s))
| step_spurious s h new c cur d : refuses c cur h new = false -> desired cur h new = Some d -> inUse s = cur ->
    tstep true s (Trying h new c cur) s (Trying h new c (inUse s)).

(** Any thread may take the next step. *)
Inductive pstep : shared * list thread -> shared * list thread -> Prop :=
| pstep_at b s s' l i t t' : l !! i = Some t -> tstep b s t s' t' -> pstep (s, l) (s', <[i := t']> l).

(** The steps of a thread on its own in the loop, none of them a spurious failure. *)
Inductive lstep : shared * thread -> shared * thread -> Prop :=
| lstep_try s h new c cur s' t' : tstep false s (Trying h new c cur) s' t' -> lstep (s, Trying h new c cur) (s', t').

End Concurrent.

(** * Every legal call succeeds *)

Section machine.

Definition world_ok (w : world) : Prop := acct (bud w) (guards w) (raw w).

Lemma fresh_ok t : 0 <= t < 2 ^ 62 -> world_ok (fresh t).
Proof.
  intros. unfold world_ok, acct, demands_ok. simpl. split_and!; try done; try lia.
  - by intros e ?%not_elem_of_nil.
  - apply NoDup_nil_2.
Qed.

(** What an outcome must be: a world that keeps the accounts and told who has to know. *)
Definition done_ok (w : world) (r : outcome world) : Prop :=
  exists w', r = Ret w' /\ world_ok w' /\ pings (bud w) (bud w').

Lemma on_ok {A} w (c : SM budget A) k :
  wp c (fun a b => acct b (k a).1 (k a).2 /\ pings (bud w) b) (bud w) -> done_ok w (on w c k).
Proof. intros (a & b & E & H1 & H2)%wp_elim. unfold on. rewrite E. eexists. split; [done|]. by split. Qed.

Lemma guards_split (gs : list Guard.guard) i g :
  gs !! i = Some g -> gs ≡ₚ g :: delete i gs /\ forall g', <[i := g']> gs ≡ₚ g' :: delete i gs.
Proof.
  intros Hi. split; [by apply delete_Permutation|]. intros g'.
  rewrite insert_take_drop by (by eapply lookup_lt_Some). rewrite delete_take_drop.
  symmetry. apply Permutation_middle.
Qed.

(** Moving the guard [c] over the guard [a]. *)
Lemma guards_move (gs : list Guard.guard) i j a c x :
  i <> j -> gs !! i = Some a -> gs !! j = Some c -> <[i := c]> (<[j := x]> gs) ≡ₚ x :: delete i gs.
Proof.
  intros Hij Hi Hj. rewrite list_insert_insert_ne by done.
  assert (<[i := c]> gs !! j = Some c) as Hj' by (by rewrite list_lookup_insert_ne).
  destruct (guards_split _ _ _ Hj') as [_ Hins]. rewrite Hins. apply perm_skip.
  apply (Permutation_cons_inv (a := a)). rewrite <- Hins, <- delete_Permutation by done.
  by apply Permutation_insert_swap.
Qed.

Lemma onGuard_ok w i g f :
  world_ok w -> guards w !! i = Some g ->
  (forall rest, acct (bud w) (g :: rest) (raw w) -> guards w ≡ₚ g :: rest ->
    wp (f g) (fun r b => acct b (r.2 ++ r.1 :: rest) (raw w) /\ pings (bud w) b) (bud w)) ->
  done_ok w (onGuard w i f).
Proof.
  intros Hok Hi Hf. destruct (guards_split _ _ _ Hi) as [Hp Hins]. unfold onGuard. rewrite Hi. apply on_ok.
  eapply wp_mono; [apply (Hf (delete i (guards w))); [by eapply acct_perm|done]|].
  intros r b [H1 H2]. split; [|done]. simpl. eapply acct_perm; [|exact H1]. by rewrite Hins.
Qed.

Lemma small_rest w n g rest :
  small w n -> guards w ≡ₚ g :: rest -> 0 <= n /\ sum cWeight (g :: rest) + raw w + n < 2 ^ 62.
Proof. intros [H1 H2] E. by rewrite E in H2. Qed.

Lemma acct_weight b g rest raw : acct b (g :: rest) raw -> 0 <= Guard.deleteBytes g /\ Guard.deleteBytes g <= cWeight g.
Proof.
  intros (_ & Hg & _). apply Forall_cons in Hg as [(_ & H1 & H2 & _) _]. unfold cWeight. lia.
Qed.

(** Runs the call of a guard whose specification is [H], and the wrapper around it. *)
Ltac guard_call H :=
  apply wp_bind; eapply wp_mono; [apply H; eauto; try lia|];
  intros ? ?; simpl; intros; destruct_and?; apply wp_ret; simpl; auto.

Lemma exec_guard_ok w o :
  world_ok w -> legal w o ->
  match o with
  | TryResize _ _ | ForceResize _ _ _ | MarkDraining _ _ | TryMarkDraining _ _ | Transfer _ _
  | GrowDraining _ _ | ClearDraining _ | MarkRetirable _ | Drop _ => done_ok w (exec o w)
  | _ => True
  end.
Proof.
  intros Hok. destruct o; try done; simpl.
  - intros [(g & Hi & Hl & Hk) Hs]. eapply onGuard_ok; [done..|]. intros rest Ha Hp.
    destruct (small_rest _ _ _ _ Hs Hp) as [H0 Hw]. rewrite sum_cons in Hw. destruct (acct_weight _ _ _ _ Ha).
    guard_call guard_tryResize_wp.
  - intros [(g & Hi & Hl & Hk) [Hd Hs]]. eapply onGuard_ok; [done..|]. intros rest Ha Hp.
    destruct (small_rest _ _ _ _ Hs Hp) as [H0 Hw]. rewrite sum_cons in Hw. destruct (acct_weight _ _ _ _ Ha).
    guard_call forceResize_wp.
  - intros (g & Hi & Hl & Hk & Hr). eapply onGuard_ok; [done..|]. intros rest Ha _. guard_call markDraining_wp.
  - intros (g & Hi & Hl & Hk & Hr). eapply onGuard_ok; [done..|]. intros rest Ha _. guard_call tryMarkDraining_wp.
  - intros [(g & Hi & Hl & Hk) Hs]. eapply onGuard_ok; [done..|]. intros rest Ha Hp.
    destruct (small_rest _ _ _ _ Hs Hp) as [H0 Hw]. apply wp_bind.
    eapply wp_mono; [by apply transfer_wp|]. intros x b (H1 & H2 & _). apply wp_ret. simpl. split; [|done].
    eapply acct_perm; [|exact H1]. apply perm_swap.
  - intros [(g & Hi & Hl & Hk) Hs]. eapply onGuard_ok; [done..|]. intros rest Ha Hp.
    destruct (small_rest _ _ _ _ Hs Hp) as [H0 Hw]. guard_call growDraining_wp.
  - intros (g & Hi & Hl & Hk). eapply onGuard_ok; [done..|]. intros rest Ha _. guard_call clearDraining_wp.
  - intros (g & Hi & Hl & Hk). eapply onGuard_ok; [done..|]. intros rest Ha _. guard_call markRetirable_wp.
  - intros [g Hi]. eapply onGuard_ok; [done..|]. intros rest Ha _. apply wp_bind.
    eapply wp_mono; [by apply guard_release_wp|]. intros x b (-> & H1 & H2). apply wp_ret. simpl.
    split; [exact (proj1 (acct_null _ _ _) H1)|done].
Qed.

Lemma exec_ok w o : world_ok w -> legal w o -> done_ok w (exec o w).
Proof.
  intros Hok Hleg. pose proof (exec_guard_ok w o Hok Hleg) as Hg. destruct o; try exact Hg; clear Hg; simpl in *.
  - destruct Hleg as [H0 Hs]. apply on_ok. unfold Guard.tryAcquireGuard. apply wp_bind.
    eapply wp_mono; [by apply acquire_wp|]. intros ok b (_ & Hp & Hb). apply wp_ret.
    destruct ok; simpl; [by destruct Hb as (? & ? & ?)|subst b; by split].
  - destruct Hleg as [H0 Hs]. apply on_ok. eapply wp_mono; [by apply forceAcquire_wp|]. by intros g b (_ & H1 & H2).
  - destruct Hleg as [H0 Hs]. apply on_ok. eapply wp_mono; [by apply acquire_wp|]. intros ok b (_ & Hp & Hb).
    destruct ok; simpl; [by destruct Hb as (? & ? & ?)|subst b; by split].
  - apply on_ok. by apply raw_release_wp.
  - destruct Hleg as (Hij & [a Hi] & [c Hj]). rewrite Hi, Hj. apply on_ok.
    destruct (guards_split _ _ _ Hi) as [Hp _]. unfold Guard.moveAssign. apply wp_bind.
    eapply wp_mono; [apply (guard_release_wp _ _ (delete i (guards w))); by eapply acct_perm|].
    intros x b (_ & H1 & H2). apply wp_ret. simpl. split; [|done].
    eapply acct_perm; [symmetry; by eapply guards_move|]. exact (proj1 (acct_null _ _ _) H1).
  - eapply on_ok, wp_mono; [by apply set_total_wp|]. simpl. naive_solver.
  - destruct Hleg. by eapply on_ok, register_demand_wp.
  - by eapply on_ok, publish_wp.
  - by eapply on_ok, unregister_wp.
  - eapply on_ok, wp_mono; [by apply register_pressure_wp|]. simpl. naive_solver.
  - apply on_ok. unfold unregisterPressure. wp_run.
    destruct (listeners_wp (bud w) _ _ (filter (fun e => listenerId e <> id) (pressureListeners (bud w))) Hok) as [H1 H2].
    split; [done|]. apply pings_quiet; [done|unfold room_up; simpl; lia|congruence].
Qed.

End machine.

(** * The properties of the state machine *)

Lemma reachable_ok w : reachable w -> world_ok w.
Proof.
  induction 1 as [t Ht|w o w' _ IH Hl E]; [by apply fresh_ok|].
  destruct (exec_ok w o IH Hl) as (w1 & E1 & H1 & _). rewrite E in E1. by injection E1 as ->.
Qed.

(** C9: the accounts.  In every state that any sequence of legal calls reaches, each
    counter of the budget is the sum of what the guards contribute to it (reserved bytes,
    draining bytes, delete bytes of live work, retained and retirable packets), the count
    of nonzero demands is exact, and every legal call from there returns: no assertion of
    the class fails and no signed arithmetic overflows. *)
Theorem budget_accounts (w : world) (Hw : reachable w) :
  acct (bud w) (guards w) (raw w) /\ (forall o, legal w o -> exists w', exec o w = Ret w').
Proof.
  pose proof (reachable_ok w Hw) as Hok. split; [exact Hok|]. intros o Ho.
  destruct (exec_ok w o Hok Ho) as (w' & E & _). eauto.
Qed.

(** A state with a full pool: work with delete bytes, a waiting merge and a listener. *)
Definition example_ops : list op :=
  [RegisterDemand 1 100; RegisterPressure 1 200; TryAcquireGuard 60; ForceResize 0 70 10; TryAcquireGuard 20;
   TryAcquireGuard 30; Publish 1 500].

Fixpoint execs (os : list op) (w : world) : outcome world :=
  match os with
  | [] => Ret w
  | o :: os => match exec o w with Ret w' => execs os w' | r => r end
  end.

Definition example_world : world :=
  Eval vm_compute in match execs example_ops (fresh 100) with Ret w => w | _ => fresh 0 end.

Ltac legal_now :=
  first [ exact I | vm_compute; repeat split; congruence
        | vm_compute; split; [inversion 1|congruence]
        | split; [eexists; split; [reflexivity|]; split; reflexivity|vm_compute; repeat split; congruence] ].

Lemma example_reachable : reachable example_world.
Proof.
  assert (reachable (fresh 100)) as H by (apply reachable_fresh; lia).
  eapply reachable_exec in H; [|instantiate (1 := RegisterDemand 1 100); legal_now|vm_compute; reflexivity].
  eapply reachable_exec in H; [|instantiate (1 := RegisterPressure 1 200); legal_now|vm_compute; reflexivity].
  eapply reachable_exec in H; [|instantiate (1 := TryAcquireGuard 60); legal_now|vm_compute; reflexivity].
  eapply reachable_exec in H; [|instantiate (1 := ForceResize 0 70 10); legal_now|vm_compute; reflexivity].
  eapply reachable_exec in H; [|instantiate (1 := TryAcquireGuard 20); legal_now|vm_compute; reflexivity].
  eapply reachable_exec in H; [|instantiate (1 := TryAcquireGuard 30); legal_now|vm_compute; reflexivity].
  eapply reachable_exec in H; [|instantiate (1 := Publish 1 500); legal_now|vm_compute; reflexivity].
  exact H.
Qed.

Lemma budget_accounts_witness :
  reachable example_world /\ reserved (bud example_world) = 90 /\ acct (bud example_world) (guards example_world) 0 /\
  exists w', exec (TryMarkDraining 1 10) example_world = Ret w'.
Proof.
  pose proof example_reachable as H. destruct (budget_accounts example_world H) as [Ha Hex].
  split; [exact H|]. split; [reflexivity|]. split; [exact Ha|]. apply Hex.
  eexists. split; [reflexivity|]. split; [reflexivity|]. split; [reflexivity|]. vm_compute. split; congruence.
Defined.

(** The predicate as the comment of the class writes it. *)
Definition commented (b : budget) : bool :=
  bool_decide (total b <> 0 /\ reserved b + liveDeleteBytes b + Z.min (pending b) (total b / 2) - drainingBytes b - retirableDeleteBytes b > total b).

Lemma pressure_commented b gs raw : acct b gs raw -> total b <> 1 -> pressure_spec b = commented b.
Proof.
  intros (Ht & _) Hne. unfold pressure_spec, commented. apply bool_decide_ext. destruct (decide (total b = 0)) as [->|Hz]; [lia|].
  pose proof (Z.div_le_lower_bound (total b) 2 1 ltac:(lia) ltac:(lia)). rewrite (Z.max_r 1) by lia. done.
Qed.

(** C39: pressure.  In every reachable state the locked predicate computes, without overflow, the comparison of [reserved + liveDeleteBytes + demand - draining - retirable]
    with the size of the pool, the demand being the pending one capped at [max(1, total / 2)]; for every size but one byte this is the comparison of the class comment,
    which caps it at [total / 2].  The lock-free pre-check never misses it, and the pending demand
    reported is the sum of the published demands cut off at the size of the pool. *)
Theorem pressure_exact (w : world) (Hw : reachable w) :
  let b := bud w in
  pressureNeeded b = (Ret (pressure_spec b), b) /\
  (total b <> 1 -> pressure_spec b = commented b) /\
  (exists p, pressurePossible b = (Ret p, b) /\ (pressure_spec b = true -> p = true)) /\
  liveOverBudget b = (Ret (bool_decide (total b <> 0 /\ reserved b + liveDeleteBytes b
      - drainingBytes b - retirableDeleteBytes b > total b)), b) /\
  pendingMergeDemandBytes b = (Ret (Z.min (if decide (total b = 0) then 2 ^ 63 - 1 else total b) (pending b)), b).
Proof.
  intros b. pose proof (reachable_ok w Hw) as Hok. unfold world_ok in Hok. fold b in Hok.
  split; [|split; [|split; [|split]]].
  - destruct (wp_elim _ _ _ (pressure_wp b _ _ Hok)) as (p & b' & E & -> & ->). exact E.
  - by apply (pressure_commented b _ _ Hok).
  - destruct (wp_elim _ _ _ (possible_wp b _ _ Hok)) as (p & b' & E & -> & Hp). eauto.
  - destruct (wp_elim _ _ _ (liveOver_wp b _ _ Hok)) as (p & b' & E & -> & ->). exact E.
  - destruct (wp_elim _ _ _ (pendingDemand_wp b _ _ Hok)) as (p & b' & E & -> & ->). exact E.
Qed.

Lemma pressure_exact_witness :
  pressureNeeded (bud example_world) = (Ret true, bud example_world) /\
  pressure_spec (bud example_world) = true.
Proof.
  destruct (pressure_exact example_world example_reachable) as (H & _). split; [exact H|reflexivity].
Defined.

(** C19: nobody is missed.  A legal call that leaves more room for admissions runs the
    callback of every registered merge demand that waits for bytes, and a call after which
    there is pressure where there was none runs the callback of every pressure listener. *)
Theorem changes_are_announced (w w' : world) (o : op)
    (Hw : reachable w) (Ho : legal w o) (He : exec o w = Ret w') :
  exists new, notified (bud w') = notified (bud w) ++ new /\
    (room_up (bud w) (bud w') -> waiting (bud w') ⊆ new) /\
    (pressure_spec (bud w) = false -> pressure_spec (bud w') = true -> listening (bud w') ⊆ new).
Proof.
  destruct (exec_ok w o (reachable_ok w Hw) Ho) as (w1 & E & _ & Hp). rewrite He in E. by injection E as ->.
Qed.

Lemma changes_are_announced_witness :
  exists w', exec (Drop 0) example_world = Ret w' /\ 100 ∈ notified (bud w').
Proof.
  eexists. split; [vm_compute; reflexivity|].
  pose proof (changes_are_announced example_world _ (Drop 0) example_reachable
    ltac:(eexists; reflexivity) ltac:(vm_compute; reflexivity)) as (new & E & Hroom & _).
  rewrite E. apply elem_of_app. right. apply Hroom.
  - split; [discriminate|]. right. vm_compute. reflexivity.
  - left.
Defined.

(** Admission.  From every reachable state, acquiring [n] bytes succeeds exactly when
    the pool is uncapped or has them, changes nothing when refused, and never takes the
    reservations above the cap. *)
Theorem admission_exact (w : world) (n : Z) (Hw : reachable w) (Hn : small w n) :
  exists ok b', tryAcquire n (bud w) = (Ret ok, b') /\
    ok = bool_decide (n = 0 \/ total (bud w) = 0 \/ reserved (bud w) + n <= total (bud w)) /\
    (ok = false -> b' = bud w) /\
    (ok = true -> reserved b' = reserved (bud w) + n /\ acct b' (guards w) (raw w + n)) /\
    (ok = true -> 0 < n -> total b' <> 0 -> reserved b' <= total b').
Proof.
  pose proof (reachable_ok w Hw) as Hok. destruct Hn as [H0 Hs].
  destruct (wp_elim _ _ _ (acquire_wp (bud w) (guards w) (raw w) n Hok H0 Hs)) as (ok & b' & E & Hf & _ & Hb).
  exists ok, b'. split; [exact E|].
  assert (ok = bool_decide (n = 0 \/ total (bud w) = 0 \/ reserved (bud w) + n <= total (bud w))) as Hok'.
  { rewrite Hf. unfold fits. apply bool_decide_ext. lia. }
  split; [done|]. destruct ok; [|done]. destruct Hb as (_ & Ha & Ht).
  pose proof Hok as (_ & _ & _ & _ & Hr & _). pose proof Ha as (_ & _ & _ & _ & Hr' & _).
  symmetry in Hok'. rewrite bool_decide_eq_true in Hok'.
  split; [done|]. split; [intros _; split; [lia|done]|]. lia.
Qed.

Lemma admission_exact_witness :
  exists ok b', tryAcquire 11 (bud example_world) = (Ret ok, b') /\ ok = false /\ b' = bud example_world.
Proof.
  destruct (admission_exact example_world 11 example_reachable) as (ok & b' & E & Hok & Hsame & _);
    [vm_compute; split; congruence|].
  exists ok, b'. split; [exact E|]. vm_compute in Hok. split; [exact Hok|by apply Hsame].
Defined.

(** * Interleavings *)

Section concurrent.
Import Concurrent.

Definition thread_ok (c : Z) (t : thread) : Prop :=
  0 <= held t /\
  match t with
  | Idle _ => True
  | Loaded h new c' => h < new /\ is_s 64 new /\ c' = c
  | Trying h new c' cur => h < new /\ is_s 64 new /\ c' = c /\ h <= cur /\ cur < 2 ^ 63 /\ (c <> 0 -> cur <= c)
  | Overflow _ => c = 0
  end.

Definition pool_ok (c : Z) (p : shared * list thread) : Prop :=
  cap p.1 = c /\ inUse p.1 = sum held p.2 /\ inUse p.1 < 2 ^ 63 /\ (c <> 0 -> inUse p.1 <= c) /\ Forall (thread_ok c) p.2.

Lemma held_split (l : list thread) i t t' :
  l !! i = Some t -> sum held l = held t + sum held (delete i l) /\
    sum held (<[i := t']> l) = held t' + sum held (delete i l).
Proof.
  intros Hi. rewrite <- !sum_cons. split; [by rewrite <- delete_Permutation|].
  rewrite insert_take_drop by (by eapply lookup_lt_Some). rewrite delete_take_drop.
  by rewrite Permutation_middle.
Qed.

Lemma desired_Some cur h new d : desired cur h new = Some d -> d = cur - h + new /\ is_s 64 d.
Proof. unfold desired. case_decide as H; [|done]. intros [= <-]. split; [done|apply H]. Qed.

(** Under a cap nothing overflows: what is admitted stays below it. *)
Lemma desired_capped c cur h new : 0 < c < 2 ^ 63 -> 0 <= h < new -> h <= cur -> cur < 2 ^ 63 -> refuses c cur h new = false ->
  desired cur h new = Some (cur - h + new) /\ cur - h + new <= c.
Proof.
  intros Hc Hh Hcur Hlt Hr. apply bool_decide_eq_false in Hr. unfold desired. rewrite decide_True; [split; [done|lia]|].
  unfold is_s. change (2 ^ (64 - 1)) with (2 ^ 63). lia.
Qed.

Lemma tstep_ok b c s t s' t' rest : 0 <= c < 2 ^ 63 -> 0 <= rest -> tstep b s t s' t' -> cap s = c -> inUse s = held t + rest ->
  inUse s < 2 ^ 63 -> (c <> 0 -> inUse s <= c) -> thread_ok c t ->
  thread_ok c t' /\ cap s' = c /\ inUse s' = held t' + rest /\ inUse s' < 2 ^ 63 /\ (c <> 0 -> inUse s' <= c).
Proof.
  intros Hc Hrest Ht Hcap Hu Hlt Hle Hok.
  destruct Ht as [s h new Hn|s h new Hn Hw|s h new c'|s h new c' cur Hr|s h new c' cur Hr Hd|s h new c' cur d Hr Hd Hcur|s h new c' cur d Hr Hd Hcur|s h new c' cur d Hr Hd Hcur];
    unfold thread_ok in *; simpl in *; destruct_and?; subst; try (split_and!; (done || lia)).
  - rewrite swrap_id by (unfold is_s; change (2 ^ (64 - 1)) with (2 ^ 63); lia). split_and!; (done || lia).
  - split_and!; try (done || lia). destruct (decide (cap s = 0)); [done|].
    destruct (desired_capped (cap s) cur h new) as [E _]; [lia..|done|congruence].
  - destruct (desired_Some _ _ _ _ Hd) as [-> Hs]. unfold is_s in Hs. change (2 ^ (64 - 1)) with (2 ^ 63) in Hs.
    split_and!; try (done || lia). intros Hne. destruct (desired_capped (cap s) (inUse s) h new) as [_ ?]; (done || lia).
Qed.

Lemma pstep_ok c p p' : 0 <= c < 2 ^ 63 -> pool_ok c p -> pstep p p' -> pool_ok c p'.
Proof.
  intros Hc0 Hok Hs. revert Hok. destruct Hs as [b s s' l i t t' Hi Ht]. intros (Hc & Hu & Hlt & Hcap & Hf).
  unfold pool_ok. simpl in *. destruct (held_split l i t t' Hi) as [E1 E2].
  assert (0 <= sum held (delete i l)) as Hrest.
  { apply sum_nonneg. intros x Hx.
    assert (x ∈ l) by (rewrite (delete_Permutation l i t Hi); by right).
    rewrite Forall_forall in Hf. apply (Hf x H). }
  assert (thread_ok c t) as Hot by (rewrite Forall_forall in Hf; eapply Hf, list_elem_of_lookup_2; exact Hi).
  destruct (tstep_ok b c s t s' t' _ Hc0 Hrest Ht Hc ltac:(lia) Hlt Hcap Hot) as (H1 & H2 & H3 & H4 & H5).
  split_and!; [done|lia|done|done|by apply Forall_insert].
Qed.

Definition outside (t : thread) : Prop := match t with Idle _ | Overflow _ => True | _ => False end.

(** A thread on its own leaves the loop: it is never stuck there, and a failure that is not spurious makes the next exchange match. *)
Lemma loop_enabled s h new c cur : exists y, lstep (s, Trying h new c cur) y.
Proof.
  destruct (refuses c cur h new) eqn:Er; [eexists; apply lstep_try; by apply step_refuse|]. destruct (desired cur h new) as [d|] eqn:Ed.
  - destruct (decide (inUse s = cur)); eexists; apply lstep_try; [by eapply step_cas|by eapply step_cas_fails].
  - eexists. apply lstep_try. by apply step_overflow.
Qed.

Lemma lstep_stays x y : lstep x y -> outside y.2 \/ exists h new c cur, x.2 = Trying h new c cur /\ cur <> inUse x.1 /\ y = (x.1, Trying h new c (inUse x.1)).
Proof. intros [s h new c cur s' t' Ht]. inversion Ht; subst; simpl; try (by left). right. eexists _, _, _, _. split; [done|]. by split. Qed.

Lemma loop_leaves s h new c cur :
  (forall y, rtc lstep (s, Trying h new c cur) y -> outside y.2 \/ exists z, lstep y z)
  /\ forall y, ~ nsteps lstep 3 (s, Trying h new c cur) y.
Proof.
  split.
  - intros y Hy. assert (outside y.2 \/ exists h' new' c' cur', y.2 = Trying h' new' c' cur') as [?|(h' & n' & c' & u' & E)].
    { apply rtc_inv_r in Hy as [<-|(x & _ & Hx)]; [right; by eexists _, _, _, _|].
      destruct (lstep_stays _ _ Hx) as [?|(h' & n' & c' & u' & _ & _ & ->)]; [by left|right]. by eexists _, _, _, _. }
    + by left.
    + right. destruct y as [s' t']. simpl in E. subst t'. apply loop_enabled.
  - intros y Hn. assert (forall x z, outside x.2 -> ~ lstep x z) as Hout by (intros x z Ho Hl; by destruct Hl).
    inversion Hn as [|n0 x0 y1 z0 H1 Hn1]; subst. inversion Hn1 as [|n1 x1 y2 z1 H2 Hn2]; subst. inversion Hn2 as [|n2 x2 y3 z2 H3 _]; subst.
    destruct (lstep_stays _ _ H1) as [Ho|(h1 & n1' & c1 & u1 & _ & _ & ->)]; [by eapply Hout|].
    destruct (lstep_stays _ _ H2) as [Ho|(h2 & n2' & c2 & u2 & E & Hne & _)]; [by eapply Hout|]. simpl in *. by injection E as _ _ _ <-.
Qed.

End concurrent.

(** C12: admission under concurrency.  For any number of threads that resize their reservations through the lock-free loop under one cap, in every interleaving of
    their atomic accesses: with a cap no thread overflows and the counter is the sum of what the threads hold and at most the cap; without a cap the same sum is exact and in 64 bits,
    and the one undefined step is the overflow of [cur - oldBytes + newBytes].  The loop's assertion holds of every value read.  A thread that runs on its own is never stuck in
    the loop, and leaves it within two steps once no exchange fails spuriously. *)
Theorem concurrent_admission (c : Z) (hs : list Z) (p : Concurrent.shared * list Concurrent.thread)
    (Hc : 0 <= c < 2 ^ 63) (Hhs : Forall (Z.le 0) hs) (Hsum : foldr Z.add 0 hs < 2 ^ 63) (Hfit : c <> 0 -> foldr Z.add 0 hs <= c)
    (Hrun : rtc Concurrent.pstep (Concurrent.Shared c (foldr Z.add 0 hs), Concurrent.Idle <$> hs) p) :
  Concurrent.inUse p.1 = sum Concurrent.held p.2 /\ 0 <= Concurrent.inUse p.1 < 2 ^ 63 /\
  (c <> 0 -> Concurrent.inUse p.1 <= c /\ forall h, Concurrent.Overflow h ∉ p.2) /\
  (forall h new c' cur, Concurrent.Trying h new c' cur ∈ p.2 -> h <= cur /\
     (forall y, rtc Concurrent.lstep (p.1, Concurrent.Trying h new c' cur) y -> outside y.2 \/ exists z, Concurrent.lstep y z) /\
     forall y, ~ nsteps Concurrent.lstep 3 (p.1, Concurrent.Trying h new c' cur) y).
Proof.
  assert (pool_ok c p) as (_ & H1 & H2 & H3 & H4).
  { revert Hrun. remember (Concurrent.Shared c _, _) as p0 eqn:E0.
    assert (pool_ok c p0) as H0.
    { subst p0. unfold pool_ok. simpl. split; [done|]. split_and!; [|done|done|].
      - clear. induction hs as [|h hs IH]; [done|]. rewrite fmap_cons, sum_cons. simpl. by rewrite IH.
      - apply Forall_fmap. eapply Forall_impl; [exact Hhs|]. intros h Hh. by split. }
    clear E0. intros Hrun. induction Hrun as [|x y z Hs _ IH]; [done|]. apply IH. by eapply pstep_ok. }
  rewrite Forall_forall in H4. split; [done|]. split_and!.
  - rewrite H1. apply sum_nonneg. intros x Hx. apply (H4 x Hx).
  - done.
  - intros Hne. split; [by apply H3|]. intros h Hin. apply H4 in Hin as [_ ?]. done.
  - intros h new c' cur Hin. split; [by apply H4 in Hin as (_ & _ & _ & _ & ? & _)|]. apply loop_leaves.
Qed.

Lemma concurrent_admission_witness :
  exists p, Concurrent.inUse p.1 = sum Concurrent.held p.2 /\ (100 <> 0 -> Concurrent.inUse p.1 <= 100) /\
    p = (Concurrent.Shared 100 90, [Concurrent.Idle 60; Concurrent.Trying 30 80 100 90]).
Proof.
  eexists. assert (rtc Concurrent.pstep (Concurrent.Shared 100 50, Concurrent.Idle <$> [20; 30])
    (Concurrent.Shared 100 90, [Concurrent.Idle 60; Concurrent.Trying 30 80 100 90])) as Hrun.
  { eapply rtc_l; [eapply (Concurrent.pstep_at false _ _ _ 0 (Concurrent.Idle 20)); [reflexivity|];
      apply (Concurrent.step_total _ 20 60); [lia|done]|].
    eapply rtc_l; [eapply (Concurrent.pstep_at false _ _ _ 0); [reflexivity|]; apply Concurrent.step_reserved|].
    eapply rtc_l; [eapply (Concurrent.pstep_at false _ _ _ 0); [reflexivity|]; by eapply Concurrent.step_cas|].
    eapply rtc_l; [eapply (Concurrent.pstep_at false _ _ _ 1 (Concurrent.Idle 30)); [reflexivity|];
      apply (Concurrent.step_total _ 30 80); [lia|done]|].
    eapply rtc_l; [eapply (Concurrent.pstep_at false _ _ _ 1); [reflexivity|]; apply Concurrent.step_reserved|].
    apply rtc_refl. }
  destruct (concurrent_admission 100 [20; 30] _ ltac:(lia) ltac:(repeat apply List.Forall_cons; try lia; apply List.Forall_nil)
    ltac:(simpl; lia) ltac:(simpl; lia) Hrun) as (H1 & _ & H2 & _).
  split; [exact H1|]. split; [exact (fun H => proj1 (H2 H))|reflexivity].
Defined.

(** Without a cap a request can overflow the counter. *)
Example uncapped_overflow : Concurrent.refuses 0 (2 ^ 62) 0 (2 ^ 62) = false /\ Concurrent.desired (2 ^ 62) 0 (2 ^ 62) = None.
Proof. vm_compute. done. Qed.
