(* ===== verification/LinearPack.v ===== *)
(** The bit packing of [luxir/codec/LinearPack.h] and [LinearPack.cpp]: the writer, the
    scalar reads, and the vector kernels, whose registers are lists of bytes and of 32-bit
    lanes.  Every load is from a list of bytes and fails outside it. *)

From S2P Require Import Prelude.

Module LinearPack.

Definition TAIL_PAD : Z := 10.

Definition packedByteSize (count bits : Z) : option Z :=
  if decide (bits <= 57) then Some (Z.shiftr (u64 (count * bits + 7)) 3) else None.

Definition byteSize (count bits : Z) : option Z := n ← packedByteSize count bits; Some (n + TAIL_PAD).

Definition mask32 (bits : Z) : option Z :=
  if decide (bits <= 32) then Some (if decide (bits = 0) then 0 else u32 (Z.shiftl 1 bits - 1)) else None.

Definition mask64 (bits : Z) : option Z :=
  if decide (bits <= 57) then Some (if decide (bits = 0) then 0 else u64 (Z.shiftl 1 bits) - 1) else None.

(** * Writer *)

(** The bytes written to the target and the state of the writer. *)
Record writer := Writer {
  target : list Z;
  pending : Z;
  count : Z;
  written : Z;
  bits : Z;
  pendingBits : Z;
  finished : bool;
}.

Definition make (target : list Z) (bits : Z) : option writer :=
  if decide (bits <= 57) then Some (Writer target 0 0 0 bits 0 false) else None.

Definition writeByte (value : Z) (w : writer) : writer :=
  Writer (target w ++ [u8 value]) (pending w) (count w) (u64 (written w + 1)) (bits w) (pendingBits w) (finished w).

Definition set_pending (p : Z) (w : writer) : writer :=
  Writer (target w) p (count w) (written w) (bits w) (pendingBits w) (finished w).

(** The loop of [append]: whole bytes leave the pending word. *)
Fixpoint drainLoop (fuel : nat) (totalBits : Z) (w : writer) : option (Z * writer) :=
  if decide (totalBits >= 8) then
    match fuel with
    | O => None
    | S fuel =>
        let w := writeByte (pending w) w in
        drainLoop fuel (u8 (totalBits - 8)) (set_pending (Z.shiftr (pending w) 8) w)
    end
  else Some (totalBits, w).

Definition append (value : Z) (w : writer) : option writer :=
  if finished w then None
  else
    m ← mask64 (bits w);
    if (if decide (bits w = 0) then bool_decide (value = 0) else bool_decide (value <= m)) then
      w ← (if decide (bits w <> 0) then
             let w := set_pending (Z.lor (pending w) (u64 (Z.shiftl value (pendingBits w)))) w in
             '(totalBits, w) ← drainLoop 32 (u8 (pendingBits w + bits w)) w;
             Some (Writer (target w) (pending w) (count w) (written w) (bits w) totalBits (finished w))
           else Some w);
      Some (Writer (target w) (pending w) (u64 (count w + 1)) (written w) (bits w) (pendingBits w) (finished w))
    else None.

Definition finish (writeTailPad : bool) (w : writer) : option (Z * writer) :=
  if finished w then None
  else
    let w := if decide (pendingBits w <> 0) then writeByte (pending w) w else w in
    let w := if writeTailPad then Nat.iter (Z.to_nat TAIL_PAD) (writeByte 0) w else w in
    n ← (if writeTailPad then byteSize (count w) (bits w) else packedByteSize (count w) (bits w));
    if decide (written w = n) then
      Some (written w, Writer (target w) (pending w) (count w) (written w) (bits w) (pendingBits w) true)
    else None.

(** * Scalar reads *)

Definition select32 (mem : list Z) (base idx bits mask : Z) : option Z :=
  if decide (bits <= 32) then
    if decide (bits = 0) then Some 0
    else
      let bitPos := u64 (idx * bits) in
      word ← load 8 mem (base + Z.shiftr bitPos 3);
      Some (Z.land (u32 (Z.shiftr word (Z.land bitPos 7))) mask)
  else None.

Definition select64 (mem : list Z) (base idx bits mask : Z) : option Z :=
  if decide (bits <= 57) then
    if decide (bits = 0) then Some 0
    else
      let bitPos := u64 (idx * bits) in
      word ← load 8 mem (base + Z.shiftr bitPos 3);
      Some (Z.land (Z.shiftr word (Z.land bitPos 7)) mask)
  else None.

(** * Vector kernels *)

(** [_mm_shuffle_epi8], on the bytes of a register. *)
Definition shuffle_epi8 (a sel : list Z) : list Z :=
  (fun s => if Z.testbit s 7 then 0 else default 0 (a.[Z.land s 15])) <$> sel.

(** The four 32-bit lanes of a register. *)
Definition lanes (a : list Z) : list Z :=
  (fun j => default 0 (load 4 a (4 * j))) <$> [0; 1; 2; 3].

(** [_mm_srlv_epi32] and [_mm_sllv_epi32]: a count of 32 or more gives zero. *)
Definition srlv (a c : list Z) : list Z :=
  zip_with (fun x s => if decide (s < 32) then Z.shiftr x s else 0) a c.
Definition sllv (a c : list Z) : list Z :=
  zip_with (fun x s => if decide (s < 32) then u32 (Z.shiftl x s) else 0) a c.

Definition offsets (Bits Phase : Z) : list Z := (fun j => Z.shiftr (Phase + j * Bits) 3) <$> [0; 1; 2; 3].
Definition shuffle (Bits Phase : Z) : list Z := o ← offsets Bits Phase; [o; o + 1; o + 2; o + 3].
Definition shifts (Bits Phase : Z) : list Z := (fun j => Z.land (Phase + j * Bits) 7) <$> [0; 1; 2; 3].

(** Four values of [Bits] bits from the bit [Phase] of the byte [packedStart] on. *)
Definition unpackGroup (Bits Phase : Z) (mem : list Z) (packedStart bitMask : Z) : option (list Z) :=
  packed ← (if decide (Bits <= 10)
            then l ← slice mem packedStart 8; Some (l ++ replicate 8 0)
            else slice mem packedStart 16) : option (list Z);
  let unpacked := srlv (lanes (shuffle_epi8 packed (shuffle Bits Phase))) (shifts Bits Phase) in
  unpacked ← (if decide (Bits > 25) then
                high ← slice mem (packedStart + 4) 16;
                Some (zip_with Z.lor unpacked
                  (sllv (lanes (shuffle_epi8 high (shuffle Bits Phase))) (map (fun s => 32 - s) (shifts Bits Phase))))
              else Some unpacked) : option (list Z);
  Some (map (fun x => Z.land x bitMask) unpacked).

Definition unpackFull (N Bits : Z) (mem : list Z) (inp bitMask : Z) : option (list Z) :=
  gs ← mapM (fun g => unpackGroup Bits (if decide (Z.land Bits 1 = 0) then 0 else Z.land g 1 * 4) mem
                        (inp + Z.shiftr (g * 4 * Bits) 3) bitMask) (seqZ 0 (N / 4));
  Some (concat gs).

(** Eight 32-bit values. *)
Definition load256 (mem : list Z) (off : Z) : option (list Z) :=
  l ← slice mem off 32; mapM (fun j => load 4 l (4 * j)) (seqZ 0 8).

Definition unpackFull32 (N : Z) (mem : list Z) (inp : Z) : option (list Z) :=
  gs ← mapM (fun g => load256 mem (inp + g * 32)) (seqZ 0 (N / 8)); Some (concat gs).

(** The loops over a partial block: the values so far, as many as the index. *)
Fixpoint loop32 (fuel : nat) (mem : list Z) (inp count : Z) (values : list Z) : option (list Z) :=
  let i := zlen values in
  if decide (i + 8 <= count) then
    match fuel with
    | O => None
    | S fuel => g ← load256 mem (inp + i * 4); loop32 fuel mem inp count (values ++ g)
    end
  else Some values.

Fixpoint loopEven (fuel : nat) (Bits : Z) (mem : list Z) (inp count bitMask : Z) (values : list Z) : option (list Z) :=
  let i := zlen values in
  if decide (i + 4 <= count) then
    match fuel with
    | O => None
    | S fuel =>
        g ← unpackGroup Bits 0 mem (inp + Z.shiftr (i * Bits) 3) bitMask;
        loopEven fuel Bits mem inp count bitMask (values ++ g)
    end
  else Some values.

Fixpoint loopOdd (fuel : nat) (Bits : Z) (mem : list Z) (inp count bitMask : Z) (values : list Z) : option (list Z) :=
  let i := zlen values in
  if decide (i + 8 <= count) then
    match fuel with
    | O => None
    | S fuel =>
        g ← unpackGroup Bits 0 mem (inp + Z.shiftr (i * Bits) 3) bitMask;
        h ← unpackGroup Bits 4 mem (inp + Z.shiftr ((i + 4) * Bits) 3) bitMask;
        loopOdd fuel Bits mem inp count bitMask (values ++ g ++ h)
    end
  else if decide (i + 4 <= count) then
    g ← unpackGroup Bits 0 mem (inp + Z.shiftr (i * Bits) 3) bitMask;
    Some (values ++ g)
  else Some values.

Fixpoint loopTail (fuel : nat) (Bits : Z) (mem : list Z) (base idx count mask : Z) (values : list Z) : option (list Z) :=
  let i := zlen values in
  if decide (i < count) then
    match fuel with
    | O => None
    | S fuel => v ← select32 mem base (idx + i) Bits mask; loopTail fuel Bits mem base idx count mask (values ++ [v])
    end
  else Some values.

Definition unpackBlockBits (N Bits : Z) (mem : list Z) (base idx count mask : Z) : option (list Z) :=
  let inp := base + Z.shiftr (u64 (idx * Bits)) 3 in
  if decide (Bits = 32) then
    if decide (count = N) then unpackFull32 N mem inp
    else l ← loop32 (Z.to_nat N) mem inp count []; loopTail (Z.to_nat N) Bits mem base idx count mask l
  else if decide (count = N) then unpackFull N Bits mem inp mask
  else
    l ← (if decide (Z.land Bits 1 = 0) then loopEven (Z.to_nat N) Bits mem inp count mask []
         else loopOdd (Z.to_nat N) Bits mem inp count mask []);
    loopTail (Z.to_nat N) Bits mem base idx count mask l.

Definition unpackBlock (N : Z) (mem : list Z) (base idx count bits mask : Z) : option (list Z) :=
  if decide (count <= N /\ 1 <= bits <= 32) then unpackBlockBits N bits mem base idx count mask else None.

(** [unpack128] into 32-bit values, built with and without AVX2, and into 64-bit values. *)
Definition unpack128_guard (idx count bits : Z) : bool :=
  bool_decide (count <= 128 /\ bits <= 32 /\ idx `mod` 8 = 0).

Definition unpack128 (mem : list Z) (base idx count bits mask : Z) : option (list Z) :=
  if unpack128_guard idx count bits then
    if decide (bits = 0) then Some (replicate (Z.to_nat count) 0)
    else unpackBlock 128 mem base idx count bits mask
  else None.

Definition unpack128_scalar (mem : list Z) (base idx count bits mask : Z) : option (list Z) :=
  if unpack128_guard idx count bits then
    if decide (bits = 0) then Some (replicate (Z.to_nat count) 0)
    else mapM (fun i => select32 mem base (idx + i) bits mask) (seqZ 0 count)
  else None.

Definition unpack128_64 (mem : list Z) (base idx count bits mask : Z) : option (list Z) :=
  if decide (count <= 128) then mapM (fun i => select64 mem base (idx + i) bits mask) (seqZ 0 count) else None.

End LinearPack.

(** * Bit fields of memory *)

Section fields.

Definition le (mem : list Z) : Z := little_endian_to_Z 8 mem.

(** The [n] bits of memory from bit [pos] on. *)
Definition field (mem : list Z) (pos n : Z) : Z := Z.land (Z.shiftr (le mem) pos) (Z.ones n).

Lemma le_range mem : is_bytes mem -> 0 <= le mem < 2 ^ (8 * zlen mem).
Proof.
  intros H. unfold le. rewrite (Z.mul_comm 8). apply (little_endian_to_Z_bound 8 mem); [lia|exact H].
Qed.

(** The bits of memory, byte by byte. *)
Lemma le_testbit mem i b :
  is_bytes mem -> 0 <= i -> mem.[i / 8] = Some b -> Z.testbit (le mem) i = Z.testbit b (i `mod` 8).
Proof.
  intros H Hi Hb. apply little_endian_to_Z_spec; [lia|lia|exact H|].
  unfold zget in Hb. by rewrite decide_True in Hb by (apply Z.div_pos; lia).
Qed.

Lemma le_testbit_past mem i : is_bytes mem -> 8 * zlen mem <= i -> Z.testbit (le mem) i = false.
Proof. intros H Hi. apply (testbit_high (8 * zlen mem)); [by apply le_range|done]. Qed.

Lemma field_testbit mem pos n i :
  0 <= pos -> 0 <= n -> 0 <= i -> Z.testbit (field mem pos n) i = bool_decide (i < n) && Z.testbit (le mem) (i + pos).
Proof.
  intros. unfold field. rewrite Z.land_spec, Z.shiftr_spec, Z.testbit_ones_nonneg by lia.
  rewrite andb_comm. f_equal. destruct (Z.ltb_spec i n); by case_bool_decide; lia.
Qed.

Lemma zget_slice {A} (mem : list A) off len l i :
  slice mem off len = Some l -> 0 <= i < len -> l.[i] = mem.[off + i].
Proof.
  intros (pre & post & -> & Hp & Hl)%slice_Some Hi.
  rewrite zget_app_r by lia. rewrite zget_app_l by lia. f_equal. lia.
Qed.

Lemma is_bytes_slice mem off len l : is_bytes mem -> slice mem off len = Some l -> is_bytes l.
Proof.
  intros H (pre & post & -> & _)%slice_Some. unfold is_bytes in *.
  apply Forall_app in H as [_ H]. by apply Forall_app in H as [H _].
Qed.

Lemma div_add_8 k i : 0 <= i -> (8 * k + i) / 8 = k + i / 8 /\ (8 * k + i) `mod` 8 = i `mod` 8.
Proof.
  intros. replace (8 * k + i) with (i + k * 8) by lia. rewrite Z.div_add, Z.mod_add by lia. lia.
Qed.

(** The bits of a slice are bits of the memory. *)
Lemma slice_testbit mem off len l i :
  is_bytes mem -> 0 <= off -> slice mem off len = Some l -> 0 <= i < 8 * len ->
  Z.testbit (le l) i = Z.testbit (le mem) (i + 8 * off).
Proof.
  intros Hm Ho Hs Hi. pose proof (is_bytes_slice _ _ _ _ Hm Hs) as Hl.
  assert (0 <= i / 8 < len) as Hd by (split; [apply Z.div_pos; lia|apply Z.div_lt_upper_bound; lia]).
  pose proof (zget_slice _ _ _ _ (i / 8) Hs Hd) as Hg.
  pose proof Hs as (pre & post & Em & Hp & Hlen)%slice_Some.
  destruct (zget_in l (i / 8)) as [b Eb]; [lia|]. rewrite Eb in Hg.
  rewrite (le_testbit l i b), (le_testbit mem _ b); try done; try lia.
  - rewrite (Z.add_comm i). by destruct (div_add_8 off i) as [_ ->]; [lia|].
  - rewrite (Z.add_comm i). by destruct (div_add_8 off i) as [-> _]; [lia|].
Qed.

Lemma slice_in_bounds {A} (mem : list A) off len :
  0 <= off -> 0 <= len -> off + len <= zlen mem -> exists l, slice mem off len = Some l /\ zlen l = len.
Proof.
  intros. unfold slice. rewrite decide_True by lia. eexists. split; [done|].
  unfold zlen in *. rewrite length_take, length_drop. lia.
Qed.

Lemma load_field n mem off :
  is_bytes mem -> 0 <= n -> 0 <= off -> off + n <= zlen mem ->
  load n mem off = Some (field mem (8 * off) (8 * n)).
Proof.
  intros Hm Hn Ho Hb. destruct (slice_in_bounds mem off n) as (l & Hs & Hl); [lia..|].
  unfold load. rewrite Hs. simpl. f_equal. fold (le l). apply Z.bits_inj'. intros i Hi.
  rewrite field_testbit by lia. case_bool_decide; simpl.
  - apply (slice_testbit mem off n); done || lia.
  - apply le_testbit_past; [by eapply is_bytes_slice|lia].
Qed.

(** A field of a field. *)
Lemma field_of_word mem pos n s b :
  0 <= pos -> 0 <= s -> 0 <= b -> s + b <= n ->
  Z.land (Z.shiftr (field mem pos n) s) (Z.ones b) = field mem (pos + s) b.
Proof.
  intros. apply Z.bits_inj'. intros i Hi.
  rewrite field_testbit, Z.land_spec, Z.shiftr_spec, field_testbit, Z.testbit_ones_nonneg by lia.
  destruct (Z.ltb_spec i b); repeat case_bool_decide; simpl; try lia; rewrite ?andb_true_r, ?andb_false_r; try done.
  f_equal. lia.
Qed.

Lemma field_sub mem off len l pos n :
  is_bytes mem -> 0 <= off -> slice mem off len = Some l -> 0 <= pos -> 0 <= n -> pos + n <= 8 * len ->
  field l pos n = field mem (8 * off + pos) n.
Proof.
  intros Hm Ho Hs Hp Hn Hl. apply Z.bits_inj'. intros i Hi. rewrite !field_testbit by lia.
  case_bool_decide; simpl; [|done]. rewrite (slice_testbit mem off len) by (done || lia). f_equal. lia.
Qed.

End fields.

(** * The vector kernels *)

Section kernels.
Import LinearPack.

Definition sel (a : list Z) (s : Z) : Z := if Z.testbit s 7 then 0 else default 0 (a.[Z.land s 15]).

Lemma sel_in a s : 0 <= s < 16 -> sel a s = default 0 (a.[s]).
Proof.
  intros Hs. unfold sel. rewrite (testbit_high 4) by (unfold is_u; lia).
  change 15 with (Z.ones 4). rewrite Z.land_ones by lia. by rewrite Z.mod_small by (simpl; lia).
Qed.

(** Four selected bytes in a row are a 32-bit field. *)
Lemma sel_field a o :
  is_bytes a -> 0 <= o -> o + 4 <= zlen a -> o + 3 < 16 ->
  le [sel a o; sel a (o + 1); sel a (o + 2); sel a (o + 3)] = field a (8 * o) 32.
Proof.
  intros Ha Ho Hl Hi. rewrite !sel_in by lia.
  destruct (slice_in_bounds a o 4) as (l & Hs & Hlen); [lia..|].
  pose proof (load_field 4 a o Ha ltac:(lia) Ho Hl) as Hload. unfold load in Hload. rewrite Hs in Hload.
  injection Hload as Hload. change (8 * 4) with 32 in Hload. rewrite <- Hload. unfold le. f_equal.
  assert (forall k, 0 <= k < 4 -> default 0 (a.[o + k]) = default 0 (l.[k])) as Hk.
  { intros k Hk. by rewrite (zget_slice a o 4 l k Hs Hk). }
  rewrite <- (Z.add_0_r o) at 1. rewrite !Hk by lia.
  destruct l as [|x0 [|x1 [|x2 [|x3 [|]]]]]; zlen; try done. pose proof (zlen_nonneg l). zlen.
Qed.

Lemma lanes_shuffle a B P :
  lanes (shuffle_epi8 a (shuffle B P)) =
  (fun o => le [sel a o; sel a (o + 1); sel a (o + 2); sel a (o + 3)]) <$> offsets B P.
Proof. reflexivity. Qed.

Lemma bit_split n : 0 <= n -> 8 * Z.shiftr n 3 + Z.land n 7 = n /\ 0 <= Z.land n 7 < 8 /\ 0 <= Z.shiftr n 3.
Proof.
  intros Hn. rewrite Z.shiftr_div_pow2 by lia. change 7 with (Z.ones 3). rewrite Z.land_ones by lia.
  change (2 ^ 3) with 8. pose proof (Z.div_mod n 8). pose proof (Z.mod_pos_bound n 8). lia.
Qed.

(** The narrow kernel: one 32-bit lane holds the value. *)
Lemma narrow_lane a n B :
  is_bytes a -> 0 <= n -> 0 <= B <= 25 -> Z.shiftr n 3 + 4 <= zlen a -> Z.shiftr n 3 + 3 < 16 ->
  let o := Z.shiftr n 3 in
  Z.land (if decide (Z.land n 7 < 32)
          then Z.shiftr (le [sel a o; sel a (o + 1); sel a (o + 2); sel a (o + 3)]) (Z.land n 7) else 0) (Z.ones B)
  = field a n B.
Proof.
  intros Ha Hn HB Hl Hi o. destruct (bit_split n Hn) as (E & Hs & Ho). rewrite decide_True by lia.
  rewrite sel_field by (done || unfold o; lia). rewrite field_of_word by (unfold o; lia).
  f_equal. unfold o. lia.
Qed.

(** The wide kernel: a second load four bytes on supplies the bits shifted in. *)
Lemma wide_lane a h mem start n B :
  is_bytes mem -> 0 <= start -> slice mem start 16 = Some a -> slice mem (start + 4) 16 = Some h ->
  0 <= n -> 0 <= B <= 32 -> Z.shiftr n 3 + 4 <= 16 ->
  let o := Z.shiftr n 3 in
  Z.land (Z.lor
    (if decide (Z.land n 7 < 32)
     then Z.shiftr (le [sel a o; sel a (o + 1); sel a (o + 2); sel a (o + 3)]) (Z.land n 7) else 0)
    (if decide (32 - Z.land n 7 < 32)
     then u32 (Z.shiftl (le [sel h o; sel h (o + 1); sel h (o + 2); sel h (o + 3)]) (32 - Z.land n 7)) else 0)) (Z.ones B)
  = field mem (8 * start + n) B.
Proof.
  intros Hm Hst Hsa Hsh Hn HB Ho4 o. destruct (bit_split n Hn) as (E & Hs & Ho).
  pose proof (is_bytes_slice _ _ _ _ Hm Hsa) as Ha. pose proof (is_bytes_slice _ _ _ _ Hm Hsh) as Hh.
  pose proof Hsa as (_ & _ & _ & _ & Hla)%slice_Some. pose proof Hsh as (_ & _ & _ & _ & Hlh)%slice_Some.
  rewrite decide_True by lia. rewrite !sel_field by (done || unfold o; lia).
  rewrite (field_sub mem start 16 a) by (done || unfold o; lia).
  rewrite (field_sub mem (start + 4) 16 h) by (done || unfold o; lia).
  apply Z.bits_inj'. intros i Hi. rewrite Z.land_spec, Z.testbit_ones_nonneg, field_testbit by lia.
  destruct (Z.ltb_spec i B); [|rewrite andb_false_r, bool_decide_eq_false_2 by lia; done].
  rewrite bool_decide_eq_true_2 by lia. rewrite andb_true_r, andb_true_l, Z.lor_spec, Z.shiftr_spec, field_testbit by lia.
  case_decide as Hd.
  - rewrite testbit_uwrap, (bool_decide_eq_true_2 (i < 32)), andb_true_l, Z.shiftl_spec by lia.
    destruct (decide (i + Z.land n 7 < 32)) as [Hlow|Hhigh].
    + rewrite (Z.testbit_neg_r (field _ _ _)) by lia. rewrite bool_decide_eq_true_2, orb_false_r by lia. simpl.
      f_equal. unfold o. lia.
    + rewrite bool_decide_eq_false_2, field_testbit by lia. rewrite bool_decide_eq_true_2 by lia. simpl.
      f_equal. unfold o. lia.
  - rewrite Z.testbit_0_l, orb_false_r, bool_decide_eq_true_2 by lia. simpl. f_equal. unfold o. lia.
Qed.

(** The bytes a group's loads reach. *)
Definition group_reach (B : Z) : Z := if decide (B <= 10) then 8 else if decide (B <= 25) then 16 else 20.

Definition fields (mem : list Z) (pos B n : Z) : list Z := (fun j => field mem (pos + j * B) B) <$> seqZ 0 n.

Lemma offsets_small B P j : 1 <= B <= 31 -> P = 0 \/ P = 4 -> 0 <= j <= 3 ->
  0 <= P + j * B /\ Z.shiftr (P + j * B) 3 + 4 <= (if decide (B <= 10) then 8 else 16).
Proof.
  intros HB HP Hj. assert (0 <= j * B <= 3 * B) by nia.
  destruct (bit_split (P + j * B)) as (E & ? & ?); [lia|]. split; [lia|]. case_decide; lia.
Qed.

Lemma unpackGroup_spec B P mem start :
  is_bytes mem -> 1 <= B <= 31 -> P = 0 \/ P = 4 -> 0 <= start -> start + group_reach B <= zlen mem ->
  unpackGroup B P mem start (Z.ones B) = Some (fields mem (8 * start + P) B 4).
Proof.
  intros Hm HB HP Hs Hr. unfold group_reach in Hr.
  assert (forall j, 0 <= j <= 3 -> 0 <= P + j * B /\ Z.shiftr (P + j * B) 3 + 4 <= (if decide (B <= 10) then 8 else 16)) as Hoff
    by (intros; by apply offsets_small).
  assert (forall x0 x1 x2 x3, x0 = field mem (8 * start + P + 0 * B) B -> x1 = field mem (8 * start + P + 1 * B) B ->
    x2 = field mem (8 * start + P + 2 * B) B -> x3 = field mem (8 * start + P + 3 * B) B ->
    Some [x0; x1; x2; x3] = Some (fields mem (8 * start + P) B 4)) as Hfin by (by intros * -> -> -> ->).
  assert (forall len a, slice mem start len = Some a -> forall j, 0 <= j <= 3 -> P + j * B + B <= 8 * len ->
    field a (P + j * B) B = field mem (8 * start + P + j * B) B) as Hsub.
  { intros len a Hsl j Hj Hl. destruct (Hoff j Hj) as [H0 _].
    rewrite (field_sub mem start len a) by (done || lia). f_equal. lia. }
  assert (forall a, is_bytes a -> B <= 25 -> (if decide (B <= 10) then 8 else 16) <= zlen a ->
    forall j, 0 <= j <= 3 -> let n := P + j * B in let o := Z.shiftr n 3 in
      Z.land (if decide (Z.land n 7 < 32) then Z.shiftr (le [sel a o; sel a (o + 1); sel a (o + 2); sel a (o + 3)])
        (Z.land n 7) else 0) (Z.ones B) = field a n B) as Hnarrow.
  { intros a Ha HB25 Hl j Hj. cbv zeta. destruct (Hoff j Hj) as [H0 H4].
    apply narrow_lane; [done|done|lia|revert H4 Hl; case_decide; lia..]. }
  assert (forall j, 0 <= j <= 3 -> P + j * B + B <= 4 + 4 * B) as Hend by (intros; nia).
  unfold unpackGroup. case_decide as H10.
  - destruct (slice_in_bounds mem start 8) as (l & Hsl & Hlen); [lia..|]. rewrite Hsl. opt.
    rewrite decide_False by lia. opt. rewrite lanes_shuffle.
    assert (is_bytes (l ++ replicate 8 0)) as Hb.
    { apply Forall_app. split; [by eapply is_bytes_slice|]. apply Forall_replicate. unfold is_u. lia. }
    assert (slice (l ++ replicate 8 0) 0 8 = Some l) as Hpre by (by apply (slice_app [] l)).
    assert (forall j, 0 <= j <= 3 -> field (l ++ replicate 8 0) (P + j * B) B = field mem (8 * start + P + j * B) B) as Hf.
    { intros j Hj. destruct (Hoff j Hj) as [H0 _]. pose proof (Hend j Hj).
      rewrite <- (Hsub 8 l Hsl j Hj) by lia. by rewrite (field_sub _ 0 8 l (P + j * B) B Hb) by (done || lia). }
    apply Hfin; rewrite <- Hf by lia; apply Hnarrow; (done || lia || (try rewrite decide_True by lia; zlen; simpl; lia)).
  - destruct (slice_in_bounds mem start 16) as (a & Hsl & Hlen); [case_decide; lia..|]. rewrite Hsl. opt.
    pose proof (is_bytes_slice _ _ _ _ Hm Hsl) as Ha. rewrite lanes_shuffle. destruct (decide (B > 25)) as [H25|H25].
    + rewrite decide_False in Hr by lia.
      destruct (slice_in_bounds mem (start + 4) 16) as (h & Hsh & _); [lia..|].
      rewrite Hsh. opt. rewrite lanes_shuffle.
      assert (forall j, 0 <= j <= 3 -> let n := P + j * B in let o := Z.shiftr n 3 in
        Z.land (Z.lor (if decide (Z.land n 7 < 32)
          then Z.shiftr (le [sel a o; sel a (o + 1); sel a (o + 2); sel a (o + 3)]) (Z.land n 7) else 0)
          (if decide (32 - Z.land n 7 < 32)
           then u32 (Z.shiftl (le [sel h o; sel h (o + 1); sel h (o + 2); sel h (o + 3)]) (32 - Z.land n 7)) else 0)) (Z.ones B)
        = field mem (8 * start + P + j * B) B) as Hwide.
      { intros j Hj. cbv zeta. destruct (Hoff j Hj) as [H0 H4].
        rewrite <- Z.add_assoc. apply wide_lane; [done..|lia|lia]. }
      apply Hfin; apply Hwide; lia.
    + opt. assert (forall j, 0 <= j <= 3 -> field a (P + j * B) B = field mem (8 * start + P + j * B) B) as Hf.
      { intros j Hj. pose proof (Hend j Hj). apply (Hsub 16 a Hsl j Hj). lia. }
      apply Hfin; rewrite <- Hf by lia; apply Hnarrow; (done || lia || (try rewrite decide_False by lia; lia)).
Qed.

(** * Blocks *)

Lemma fields_app mem pos B a b :
  0 <= a -> 0 <= b -> fields mem pos B (a + b) = fields mem pos B a ++ fields mem (pos + a * B) B b.
Proof.
  intros. unfold fields. rewrite seqZ_app, fmap_app by lia. f_equal.
  replace (0 + a) with (a + 0) by lia. rewrite <- (fmap_add_seqZ a 0 b), <- list_fmap_compose. apply list_fmap_ext. intros i x _. simpl. f_equal. lia.
Qed.

Lemma fields_one mem pos B : fields mem pos B 1 = [field mem pos B].
Proof. unfold fields. simpl. by rewrite Z.mul_0_l, Z.add_0_r. Qed.

Lemma zlen_fields mem pos B n : 0 <= n -> zlen (fields mem pos B n) = n.
Proof. intros. unfold fields. zlen. Qed.

Lemma concat_fields mem pos B k n :
  0 <= k -> 0 <= n -> concat ((fun g => fields mem (pos + g * k * B) B k) <$> seqZ 0 n) = fields mem pos B (n * k).
Proof.
  intros Hk Hn. rewrite <- (Z2Nat.id n) by lia. generalize (Z.to_nat n). clear n Hn. intros n.
  induction n as [|n IH]; [done|]. rewrite Nat2Z.inj_succ, <- Z.add_1_r, seqZ_app, fmap_app by lia.
  rewrite concat_app, IH. replace ((Z.of_nat n + 1) * k) with (Z.of_nat n * k + k) by lia.
  rewrite fields_app by lia. f_equal. simpl. rewrite app_nil_r. f_equal; lia.
Qed.

(** The packed bytes of [n] values and the bytes their readers may read past them. *)
Definition packed_room (mem : list Z) (base n B : Z) : Prop :=
  0 <= base /\ 0 <= n /\ n * B < 2 ^ 63 /\ base + (n * B + 7) / 8 + TAIL_PAD <= zlen mem.

Lemma select32_field mem base i n B :
  is_bytes mem -> packed_room mem base n B -> 0 <= i < n -> 1 <= B <= 32 ->
  select32 mem base i B (Z.ones B) = Some (field mem (8 * base + i * B) B).
Proof.
  intros Hm (Hb & Hn & Hs & Hr) Hi HB. unfold TAIL_PAD in Hr. unfold select32.
  rewrite decide_True, decide_False by lia. cbv zeta.
  assert (0 <= i * B /\ i * B + B <= n * B) as [H0 H1] by nia.
  rewrite (uwrap_id 64) by (unfold is_u; lia). destruct (bit_split (i * B) H0) as (E & Hl & Hq).
  pose proof (Z.div_mod (n * B + 7) 8). pose proof (Z.mod_pos_bound (n * B + 7) 8).
  rewrite load_field by (done || lia). opt. f_equal.
  assert (Z.land (u32 (Z.shiftr (field mem (8 * (base + Z.shiftr (i * B) 3)) (8 * 8)) (Z.land (i * B) 7))) (Z.ones B)
    = Z.land (Z.shiftr (field mem (8 * (base + Z.shiftr (i * B) 3)) (8 * 8)) (Z.land (i * B) 7)) (Z.ones B)) as ->.
  { apply Z.bits_inj'. intros j Hj. rewrite !Z.land_spec, testbit_uwrap, Z.testbit_ones_nonneg by lia.
    destruct (Z.ltb_spec j B); [|by rewrite !andb_false_r]. by rewrite bool_decide_eq_true_2 by lia. }
  rewrite field_of_word by lia. f_equal. lia.
Qed.

Lemma select64_field mem base i n B :
  is_bytes mem -> packed_room mem base n B -> 0 <= i < n -> 1 <= B <= 57 ->
  select64 mem base i B (Z.ones B) = Some (field mem (8 * base + i * B) B).
Proof.
  intros Hm (Hb & Hn & Hs & Hr) Hi HB. unfold TAIL_PAD in Hr. unfold select64.
  rewrite decide_True, decide_False by lia. cbv zeta.
  assert (0 <= i * B /\ i * B + B <= n * B) as [H0 H1] by nia.
  rewrite (uwrap_id 64) by (unfold is_u; lia). destruct (bit_split (i * B) H0) as (E & Hl & Hq).
  pose proof (Z.div_mod (n * B + 7) 8). pose proof (Z.mod_pos_bound (n * B + 7) 8).
  rewrite load_field by (done || lia). opt. f_equal.
  rewrite field_of_word by lia. f_equal. lia.
Qed.

(** The position a group starts from, and how far its loads reach. *)
Lemma group_at mem base idx i n B P :
  is_bytes mem -> packed_room mem base n B -> 1 <= B <= 31 -> 0 <= idx -> idx `mod` 8 = 0 ->
  0 <= i -> idx + i + 4 <= n -> P = Z.land (i * B) 7 -> P = 0 \/ P = 4 ->
  unpackGroup B P mem (base + Z.shiftr (u64 (idx * B)) 3 + Z.shiftr (i * B) 3) (Z.ones B)
  = Some (fields mem (8 * base + (idx + i) * B) B 4).
Proof.
  intros Hm (Hb & Hn & Hs & Hr) HB Hx Hx8 Hi Hin HP HP4. unfold TAIL_PAD in Hr.
  assert (0 <= idx * B /\ 0 <= i * B /\ idx * B + i * B + 4 * B <= n * B) as (H1 & H2 & H3) by nia.
  rewrite (uwrap_id 64) by (unfold is_u; lia). destruct (bit_split (i * B) H2) as (E & Hl & Hq).
  assert (8 * Z.shiftr (idx * B) 3 = idx * B) as Ex.
  { destruct (bit_split (idx * B) H1) as (E' & Hl' & _). rewrite <- E' at 2.
    assert (Z.land (idx * B) 7 = 0) as ->; [|lia]. change 7 with (Z.ones 3). rewrite Z.land_ones by lia.
    change (2 ^ 3) with 8. by rewrite <- Z.mul_mod_idemp_l, Hx8 by lia. }
  pose proof (Z.div_mod (n * B + 7) 8). pose proof (Z.mod_pos_bound (n * B + 7) 8).
  rewrite unpackGroup_spec; [|done|done|done|lia|].
  - f_equal. f_equal. lia.
  - unfold group_reach. repeat case_decide; lia.
Qed.

Lemma land7_mul4 k B : 0 <= k -> 0 <= B -> Z.land (4 * k * B) 7 = 4 * ((k * B) `mod` 2).
Proof.
  intros. change 7 with (Z.ones 3). rewrite Z.land_ones by lia. change (2 ^ 3) with (4 * 2).
  rewrite <- Z.mul_assoc. by rewrite Z.mul_mod_distr_l by lia.
Qed.

Section block.
Context (mem : list Z) (base idx count n B : Z).
Context (Hm : is_bytes mem) (Hroom : packed_room mem base n B) (Hx : 0 <= idx) (Hx8 : idx `mod` 8 = 0).
Context (Hc : 0 <= count <= 128) (Hin : idx + count <= n).

(** The first [i] values of the block. *)
Definition so_far (i : Z) : list Z := fields mem (8 * base + idx * B) B i.

Lemma zlen_so_far i : 0 <= i -> zlen (so_far i) = i.
Proof. apply zlen_fields. Qed.

Lemma so_far_snoc i k : 0 <= i -> 0 <= k -> so_far (i + k) = so_far i ++ fields mem (8 * base + (idx + i) * B) B k.
Proof. intros. unfold so_far. rewrite fields_app by lia. do 2 f_equal. lia. Qed.

Lemma loopTail_spec fuel i :
  1 <= B <= 32 -> 0 <= i <= count -> count - i <= Z.of_nat fuel ->
  loopTail fuel B mem base idx count (Z.ones B) (so_far i) = Some (so_far count).
Proof.
  intros HB. revert i. induction fuel as [|fuel IH]; intros i Hi Hf; cbn [loopTail]; cbv zeta;
    rewrite zlen_so_far by lia.
  - rewrite decide_False by lia. do 2 f_equal. lia.
  - case_decide; [|do 2 f_equal; lia]. rewrite (select32_field _ _ _ n) by (done || lia). opt.
    rewrite <- IH with (i := i + 1) by lia. f_equal. by rewrite so_far_snoc, fields_one by lia.
Qed.

Lemma loopEven_spec fuel k :
  1 <= B <= 31 -> B `mod` 2 = 0 -> 0 <= k -> 4 * k <= count -> count - 4 * k <= Z.of_nat fuel ->
  exists i, loopEven fuel B mem (base + Z.shiftr (u64 (idx * B)) 3) count (Z.ones B) (so_far (4 * k)) = Some (so_far i) /\
    0 <= i <= count.
Proof.
  intros HB Heven. revert k. induction fuel as [|fuel IH]; intros k Hk Hkc Hf; cbn [loopEven]; cbv zeta;
    rewrite zlen_so_far by lia.
  - rewrite decide_False by lia. exists (4 * k). split; [done|lia].
  - case_decide; [|exists (4 * k); split; [done|lia]].
    assert (Z.land (4 * k * B) 7 = 0) as E0.
    { rewrite land7_mul4 by lia. by rewrite <- Z.mul_mod_idemp_r, Heven, Z.mul_0_r by lia. }
    rewrite (group_at _ _ _ _ n) by (done || lia || auto). opt.
    destruct (IH (k + 1)) as (i & E & Hi); [lia..|]. exists i. split; [|done]. rewrite <- E.
    replace (4 * (k + 1)) with (4 * k + 4) by lia. by rewrite so_far_snoc by lia.
Qed.

Lemma loopOdd_spec fuel k :
  1 <= B <= 31 -> B `mod` 2 = 1 -> 0 <= k -> 8 * k <= count -> count - 8 * k <= Z.of_nat fuel ->
  exists i, loopOdd fuel B mem (base + Z.shiftr (u64 (idx * B)) 3) count (Z.ones B) (so_far (8 * k)) = Some (so_far i) /\
    0 <= i <= count.
Proof.
  intros HB Hodd. revert k. induction fuel as [|fuel IH]; intros k Hk Hkc Hf; cbn [loopOdd]; cbv zeta;
    rewrite zlen_so_far by lia.
  { rewrite decide_False by lia. rewrite decide_False by lia. exists (8 * k). split; [done|lia]. }
  assert (Z.land (8 * k * B) 7 = 0) as E0.
  { replace (8 * k * B) with (4 * (2 * k) * B) by lia. rewrite land7_mul4 by lia.
    replace (2 * k * B) with (k * B * 2) by lia. by rewrite Z.mod_mul by lia. }
  assert (Z.land ((8 * k + 4) * B) 7 = 4) as E4.
  { replace ((8 * k + 4) * B) with (4 * (2 * k + 1) * B) by lia. rewrite land7_mul4 by lia.
    replace ((2 * k + 1) * B) with (B + k * B * 2) by lia. rewrite Z.mod_add, Hodd by lia. done. }
  destruct (decide (8 * k + 8 <= count)).
  - rewrite !(group_at _ _ _ _ n) by (done || lia || auto). opt.
    destruct (IH (k + 1)) as (i & E & Hi); [lia..|]. exists i. split; [|done]. rewrite <- E.
    replace (8 * (k + 1)) with (8 * k + 4 + 4) by lia. rewrite !so_far_snoc, <- app_assoc by lia.
    done.
  - case_decide; [|exists (8 * k); split; [done|lia]]. rewrite (group_at _ _ _ _ n) by (done || lia || auto). opt.
    exists (8 * k + 4). split; [|lia]. by rewrite so_far_snoc by lia.
Qed.

Lemma load256_spec off : 0 <= off -> off + 32 <= zlen mem -> load256 mem off = Some (fields mem (8 * off) 32 8).
Proof.
  intros Ho Hl. unfold load256. destruct (slice_in_bounds mem off 32) as (l & Hs & Hll); [lia..|].
  rewrite Hs. opt. apply mapM_total. intros j Hj%elem_of_seqZ.
  rewrite load_field; [|by eapply is_bytes_slice|lia..]. f_equal.
  rewrite (field_sub mem off 32 l) by (done || lia). f_equal. lia.
Qed.

(** The vector kernels read the values as fields of memory. *)
Lemma unpackBlockBits_spec :
  1 <= B <= 32 -> unpackBlockBits 128 B mem base idx count (Z.ones B) = Some (so_far count).
Proof.
  intros HB. assert (so_far 0 = []) as E0 by done. unfold unpackBlockBits. cbv zeta.
  case_decide as H32; [|destruct (decide (count = 128)) as [Hfull|Hpart]].
  - assert (8 * Z.shiftr (u64 (idx * B)) 3 = idx * B) as Ex.
    { destruct Hroom as (_ & Hn & Hs & _). rewrite (uwrap_id 64) by (unfold is_u; nia).
      destruct (bit_split (idx * B)) as (E' & Hl' & _); [nia|]. rewrite <- E' at 2.
      assert (Z.land (idx * B) 7 = 0) as ->; [|lia]. change 7 with (Z.ones 3). rewrite Z.land_ones by lia.
      change (2 ^ 3) with 8. by rewrite <- Z.mul_mod_idemp_l, Hx8 by lia. }
    set (inp := base + Z.shiftr (u64 (idx * B)) 3). assert (8 * inp = 8 * base + idx * B) as Ei by (unfold inp; lia).
    assert (forall i, 0 <= i -> i + 8 <= count -> load256 mem (inp + i * 4) = Some (fields mem (8 * base + (idx + i) * B) B 8)) as Hload.
    { intros i Hi Hic. destruct Hroom as (Hb & Hn & Hs & Hr). unfold TAIL_PAD in Hr.
      rewrite H32 in Hr, Ei |- *.
      pose proof (Z.div_mod (n * 32 + 7) 8). pose proof (Z.mod_pos_bound (n * 32 + 7) 8).
      rewrite load256_spec by lia. do 2 f_equal. lia. }
    case_decide as Hfull.
    + unfold unpackFull32. rewrite (mapM_total _ (fun g => fields mem (8 * base + idx * B + g * 8 * B) B 8)).
      * change (128 / 8) with 16. opt. rewrite (concat_fields mem (8 * base + idx * B) B 8 16) by lia. unfold so_far. by rewrite Hfull.
      * intros g Hg%elem_of_seqZ. change (128 / 8) with 16 in Hg.
        replace (inp + g * 32) with (inp + (8 * g) * 4) by lia. rewrite Hload by lia. do 2 f_equal. lia.
    + assert (exists i, loop32 (Z.to_nat 128) mem inp count [] = Some (so_far i) /\ 0 <= i <= count) as (i & -> & Hi).
      { assert (forall fuel k, 0 <= k -> 8 * k <= count -> count - 8 * k <= Z.of_nat fuel ->
          exists i, loop32 fuel mem inp count (so_far (8 * k)) = Some (so_far i) /\ 0 <= i <= count) as Hloop.
        { induction fuel as [|fuel IH]; intros k Hk Hkc Hf; cbn [loop32]; cbv zeta; rewrite zlen_so_far by lia.
          - rewrite decide_False by lia. exists (8 * k). split; [done|lia].
          - case_decide; [|exists (8 * k); split; [done|lia]]. rewrite Hload by lia. opt.
            destruct (IH (k + 1)) as (i & E & Hi); [lia..|]. exists i. split; [|done]. rewrite <- E.
            replace (8 * (k + 1)) with (8 * k + 8) by lia. by rewrite so_far_snoc by lia. }
        destruct (Hloop (Z.to_nat 128) 0) as (i & E & Hi); [lia..|]. exists i. split; [|done].
        change (8 * 0) with 0 in E. by rewrite E0 in E. }
      opt. apply loopTail_spec; lia.
  - unfold unpackFull. rewrite (mapM_total _ (fun g => fields mem (8 * base + idx * B + g * 4 * B) B 4)).
    + change (128 / 4) with 32. opt. rewrite (concat_fields mem (8 * base + idx * B) B 4 32) by lia. unfold so_far. by rewrite Hfull.
    + intros g Hg%elem_of_seqZ. change (128 / 4) with 32 in Hg.
      replace (g * 4 * B) with (4 * g * B) by lia.
      assert ((if decide (Z.land B 1 = 0) then 0 else Z.land g 1 * 4) = Z.land (4 * g * B) 7) as EP.
      { rewrite land7_mul4 by lia. change 1 with (Z.ones 1). rewrite !Z.land_ones by lia. change (2 ^ 1) with 2.
        pose proof (Z.mod_pos_bound B 2). case_decide as Hp.
        - by rewrite <- Z.mul_mod_idemp_r, Hp, Z.mul_0_r by lia.
        - rewrite Z.mul_mod by lia. assert (B `mod` 2 = 1) as -> by lia. rewrite Z.mul_1_r, Z.mod_mod by lia. lia. }
      rewrite EP. rewrite (group_at _ _ _ (4 * g) n); try done; try lia.
      * do 2 f_equal. lia.
      * rewrite land7_mul4 by lia. pose proof (Z.mod_pos_bound (g * B) 2). lia.
  - change (Z.land B 1) with (Z.land B (Z.ones 1)). rewrite Z.land_ones by lia. change (2 ^ 1) with 2.
    pose proof (Z.mod_pos_bound B 2). case_decide as Hp.
    + destruct (loopEven_spec (Z.to_nat 128) 0) as (i & E & Hi); [lia..|]. change (4 * 0) with 0 in E.
      rewrite E0 in E. rewrite E. opt. apply loopTail_spec; lia.
    + destruct (loopOdd_spec (Z.to_nat 128) 0) as (i & E & Hi); [lia..|]. change (8 * 0) with 0 in E.
      rewrite E0 in E. rewrite E. opt. apply loopTail_spec; lia.
Qed.

End block.

End kernels.

(** * The writer *)

Section writing.
Import LinearPack.

Lemma le_app l k : is_bytes l -> is_bytes k -> le (l ++ k) = le l + 2 ^ (8 * zlen l) * le k.
Proof.
  intros Hl Hk. unfold le. induction l as [|x l IH]; simpl.
  { change (zlen (@nil Z)) with 0. change (8 * 0) with 0. lia. }
  apply Forall_cons in Hl as [Hx Hl]. rewrite IH by done. rewrite zlen_cons. pose proof (zlen_nonneg l).
  rewrite !lor_shiftl_add by (done || lia).
  replace (8 * (1 + zlen l)) with (8 + 8 * zlen l) by lia. rewrite Z.pow_add_r by lia. lia.
Qed.

Lemma le_one x : le [x] = x.
Proof. unfold le. simpl. by rewrite Z.shiftl_0_l, Z.lor_0_r. Qed.

(** The number whose base-[2 ^ b] digits are the values. *)
Definition digits (b : Z) (vs : list Z) : Z := foldr (fun v acc => v + 2 ^ b * acc) 0 vs.

Lemma digits_snoc b vs v : 0 <= b -> digits b (vs ++ [v]) = digits b vs + 2 ^ (b * zlen vs) * v.
Proof.
  intros Hb. induction vs as [|x vs IH]; simpl.
  { change (zlen (@nil Z)) with 0. rewrite (Z.mul_0_r b). simpl. lia. }
  rewrite IH, zlen_cons. pose proof (zlen_nonneg vs).
  replace (b * (1 + zlen vs)) with (b + b * zlen vs) by lia. rewrite Z.pow_add_r by nia. ring.
Qed.

Lemma digits_get b vs i v :
  0 <= b -> Forall (is_u b) vs -> vs.[i] = Some v -> Z.land (Z.shiftr (digits b vs) (i * b)) (Z.ones b) = v.
Proof.
  intros Hb. revert i. induction vs as [|x vs IH]; intros i Hvs Hi.
  { apply zget_Some_range in Hi. zlen. }
  apply Forall_cons in Hvs as [Hx Hvs]. pose proof (zget_Some_range _ _ _ Hi) as Hr.
  simpl. rewrite Z.land_ones by done. destruct (decide (i = 0)) as [->|Hne].
  - injection Hi as ->. rewrite Z.mul_0_l, Z.shiftr_0_r, Z.mul_comm, Z.mod_add by lia.
    by apply Z.mod_small.
  - rewrite zget_cons_pos in Hi by lia. specialize (IH (i - 1) Hvs Hi). rewrite Z.land_ones in IH by done.
    rewrite <- IH. f_equal. rewrite !Z.shiftr_div_pow2 by nia.
    replace (i * b) with (b + (i - 1) * b) by lia. rewrite Z.pow_add_r by nia.
    rewrite <- Z.div_div by (try apply Z.pow_nonzero; try apply Z.pow_pos_nonneg; nia).
    f_equal. rewrite Z.mul_comm, Z.div_add by (apply Z.pow_nonzero; lia).
    rewrite Z.div_small by done. lia.
Qed.

(** The state of a writer after the values [vs]. *)
Definition writing (w : writer) (t0 : list Z) (b : Z) (vs : list Z) : Prop :=
  exists out, target w = t0 ++ out /\ is_bytes out /\ bits w = b /\ finished w = false /\
    count w = zlen vs /\ written w = zlen out /\ 8 * zlen out + pendingBits w = b * zlen vs /\
    0 <= pendingBits w < 8 /\ is_u (pendingBits w) (pending w) /\
    le out + 2 ^ (8 * zlen out) * pending w = digits b vs.

Lemma make_writing t0 b : 0 <= b <= 57 -> exists w, make t0 b = Some w /\ writing w t0 b [].
Proof.
  intros Hb. unfold make. rewrite decide_True by lia. eexists. split; [done|]. exists []. simpl.
  rewrite app_nil_r. change (zlen (@nil Z)) with 0. split_and!; try done; try lia. apply List.Forall_nil.
Qed.

Lemma drainLoop_spec fuel tot w t0 out :
  target w = t0 ++ out -> is_bytes out -> written w = zlen out -> 8 * zlen out + tot < 2 ^ 63 ->
  0 <= tot <= 64 -> is_u tot (pending w) -> tot < 8 * Z.of_nat fuel + 8 ->
  exists tot' w' out', drainLoop fuel tot w = Some (tot', w') /\ target w' = t0 ++ out' /\ is_bytes out' /\
    written w' = zlen out' /\ bits w' = bits w /\ finished w' = finished w /\ count w' = count w /\
    0 <= tot' < 8 /\ 8 * zlen out' + tot' = 8 * zlen out + tot /\ is_u tot' (pending w') /\
    le out' + 2 ^ (8 * zlen out') * pending w' = le out + 2 ^ (8 * zlen out) * pending w.
Proof.
  revert tot w out. induction fuel as [|fuel IH]; intros tot w out Ht Ho Hwr Hlen Htot Hp Hf; cbn [drainLoop].
  { rewrite decide_False by lia. exists tot, w, out. split_and!; try done; lia. }
  case_decide as Hge; [|exists tot, w, out; split_and!; try done; lia].
  cbv zeta. simpl. rewrite (uwrap_id 8 (tot - 8)) by (unfold is_u; lia).
  pose proof (zlen_nonneg out). set (x := u8 (pending w)).
  assert (is_u 8 x) as Hx by (apply uwrap_range; lia).
  assert (pending w = x + 2 ^ 8 * Z.shiftr (pending w) 8) as Ex.
  { unfold x, uwrap. rewrite Z.shiftr_div_pow2 by lia. pose proof (Z.div_mod (pending w) (2 ^ 8)). lia. }
  set (w1 := set_pending _ _).
  destruct (IH (tot - 8) w1 (out ++ [x])) as (tot' & w' & out' & E & H1 & H2 & H3 & H4 & H5 & H6 & H7 & H8 & H9 & H10).
  - unfold w1. simpl. by rewrite Ht, <- app_assoc.
  - apply Forall_app. split; [done|]. by apply List.Forall_cons.
  - unfold w1. simpl. rewrite Hwr, (uwrap_id 64) by (unfold is_u; lia). zlen; simpl; lia.
  - zlen; simpl; lia.
  - lia.
  - unfold w1. simpl. unfold is_u in *. split; [apply Z.shiftr_nonneg; lia|].
    rewrite Z.shiftr_div_pow2 by lia. apply Z.div_lt_upper_bound; [lia|]. rewrite <- Z.pow_add_r by lia.
    replace (8 + (tot - 8)) with tot by lia. lia.
  - lia.
  - exists tot', w', out'. split; [exact E|]. split_and!; try done; try lia; [zlen; simpl in *; lia|].
    rewrite H10, le_app, le_one by (done || by apply List.Forall_cons). rewrite zlen_app, zlen_cons.
    change (zlen (@nil Z)) with 0. change (pending w1) with (Z.shiftr (pending w) 8). rewrite Ex at 2.
    replace (8 * (zlen out + (1 + 0))) with (8 * zlen out + 8) by lia. rewrite Z.pow_add_r by lia. lia.
Qed.

Lemma append_spec w t0 b vs v :
  writing w t0 b vs -> 0 <= b <= 57 -> is_u b v -> b * (zlen vs + 1) < 2 ^ 62 -> zlen vs + 1 < 2 ^ 62 ->
  exists w', append v w = Some w' /\ writing w' t0 b (vs ++ [v]).
Proof.
  intros (out & Ht & Ho & Hb & Hfin & Hc & Hwr & Hl & Hpb & Hp & Hd) Hb57 Hv Hsz Hn.
  pose proof (zlen_nonneg vs). pose proof (zlen_nonneg out). unfold append. rewrite Hfin. unfold mask64.
  rewrite Hb. destruct (decide (b <= 57)); [|lia]. opt.
  assert (2 ^ b <= 2 ^ 57) by (apply Z.pow_le_mono_r; lia).
  destruct (decide (b = 0)) as [E0|Hb0].
  - assert (v = 0) as -> by (unfold is_u in Hv; rewrite E0 in Hv; change (2 ^ 0) with 1 in Hv; lia).
    rewrite bool_decide_eq_true_2 by done. rewrite decide_False by lia. opt. eexists. split; [done|].
    exists out. simpl. rewrite digits_snoc by lia. split_and!; try done; try lia; try (zlen; simpl; lia).
    rewrite Hc, (uwrap_id 64) by (unfold is_u; lia). zlen; simpl; lia.
  - rewrite (uwrap_id 64) by (apply is_u_one; lia). rewrite Z.shiftl_1_l.
    rewrite bool_decide_eq_true_2 by (unfold is_u in Hv; lia). rewrite decide_True by done. cbv zeta.
    change (pendingBits (set_pending _ w)) with (pendingBits w). change (bits (set_pending _ w)) with (bits w).
    rewrite Hb, (uwrap_id 8 (pendingBits w + b)) by (unfold is_u; lia).
    assert (0 < 2 ^ pendingBits w) by (apply pow2_pos; lia).
    assert (is_u (pendingBits w + b) (pending w + 2 ^ pendingBits w * v)) as Hpv.
    { unfold is_u in *. rewrite Z.pow_add_r by lia. nia. }
    assert (u64 (Z.shiftl v (pendingBits w)) = Z.shiftl v (pendingBits w)) as ->.
    { apply uwrap_id. rewrite Z.shiftl_mul_pow2 by lia. unfold is_u in *.
      assert (2 ^ (pendingBits w + b) <= 2 ^ 64) by (apply Z.pow_le_mono_r; lia). lia. }
    rewrite lor_shiftl_add by (done || lia).
    set (w1 := set_pending _ w).
    destruct (drainLoop_spec 32 (pendingBits w + b) w1 t0 out)
      as (tot' & w' & out' & E & E1 & E2 & E3 & E4 & E5 & E6 & E7 & E8 & E9 & E10); [done|done|done|nia|lia|exact Hpv|lia|].
    rewrite E. opt. eexists. split; [done|]. exists out'. simpl. rewrite E6, E4, E5.
    split_and!; try done; try lia.
    + change (count w1) with (count w). rewrite Hc, (uwrap_id 64) by (unfold is_u; lia). zlen; simpl; lia.
    + rewrite zlen_app, zlen_cons. change (zlen (@nil Z)) with 0. lia.
    + rewrite E10. change (pending w1) with (pending w + 2 ^ pendingBits w * v).
      rewrite digits_snoc, <- Hd, <- Hl, Z.pow_add_r by lia. lia.
Qed.

Definition appendAll (vs : list Z) (w : writer) : option writer := foldM (fun w v => append v w) w vs.

Lemma appendAll_spec vs w t0 b ws :
  writing w t0 b ws -> 0 <= b <= 57 -> Forall (is_u b) vs -> b * (zlen ws + zlen vs) < 2 ^ 62 -> zlen ws + zlen vs < 2 ^ 62 ->
  exists w', appendAll vs w = Some w' /\ writing w' t0 b (ws ++ vs).
Proof.
  unfold appendAll. revert w ws. induction vs as [|v vs IH]; intros w ws Hw Hb Hvs Hs Hn.
  { exists w. by rewrite app_nil_r. }
  apply Forall_cons in Hvs as [Hv Hvs]. rewrite zlen_cons in Hs, Hn. pose proof (zlen_nonneg vs). simpl.
  destruct (append_spec w t0 b ws v Hw Hb Hv) as (w1 & -> & Hw1); [nia|lia|]. opt.
  destruct (IH w1 (ws ++ [v]) Hw1 Hb Hvs) as (w' & E & Hw'); [zlen; simpl; lia..|].
  exists w'. split; [done|]. by rewrite <- app_assoc in Hw'.
Qed.

Lemma zeros_spec n w :
  0 <= written w -> written w + Z.of_nat n < 2 ^ 63 ->
  target (Nat.iter n (writeByte 0) w) = target w ++ replicate n 0 /\
  written (Nat.iter n (writeByte 0) w) = written w + Z.of_nat n /\
  bits (Nat.iter n (writeByte 0) w) = bits w /\ count (Nat.iter n (writeByte 0) w) = count w.
Proof.
  intros H0 Hn. induction n as [|n IH]; [simpl; rewrite app_nil_r; lia || (split_and!; [done|lia|done|done])|].
  destruct IH as (E1 & E2 & E3 & E4); [lia|]. simpl. rewrite E1, E2, E3, E4.
  rewrite (uwrap_id 64) by (unfold is_u; lia). rewrite <- app_assoc.
  split_and!; try done; [|lia]. f_equal. by rewrite <- replicate_S_end.
Qed.

(** What a finished writer leaves: the packed values, then the padding. *)
Lemma finish_spec w t0 b vs pad :
  writing w t0 b vs -> 0 <= b <= 57 -> b * zlen vs < 2 ^ 62 ->
  exists w' out, finish pad w = Some (zlen out + (if pad : bool then TAIL_PAD else 0), w') /\
    target w' = t0 ++ out ++ (if pad then replicate 10 0 else []) /\
    is_bytes out /\ zlen out = (b * zlen vs + 7) / 8 /\ le out = digits b vs.
Proof.
  intros (out & Ht & Ho & Hb & Hfin & Hc & Hwr & Hl & Hpb & Hp & Hd) Hb57 Hsz.
  pose proof (zlen_nonneg vs). pose proof (zlen_nonneg out). unfold finish. rewrite Hfin. cbv zeta.
  set (w1 := if decide (pendingBits w <> 0) then writeByte (pending w) w else w).
  assert (exists out1, target w1 = t0 ++ out1 /\ is_bytes out1 /\ bits w1 = b /\ count w1 = zlen vs /\
    written w1 = zlen out1 /\ zlen out1 = (b * zlen vs + 7) / 8 /\ le out1 = digits b vs)
    as (out1 & H1 & H2 & H3 & H4 & H5 & H6 & H7).
  { unfold w1. case_decide as Hne.
    - assert (is_u 8 (pending w)) as Hp8.
      { unfold is_u in *. assert (2 ^ pendingBits w <= 2 ^ 8) by (apply Z.pow_le_mono_r; lia). lia. }
      exists (out ++ [pending w]). simpl. rewrite (uwrap_id 8) by done. rewrite Ht, <- app_assoc.
      split_and!; try done.
      + apply Forall_app. split; [done|]. by apply List.Forall_cons.
      + rewrite Hwr, (uwrap_id 64) by (unfold is_u; nia). zlen; simpl; lia.
      + rewrite zlen_app. change (zlen [pending w]) with 1. apply Z.div_unique with (r := pendingBits w - 1); lia.
      + by rewrite le_app, le_one by (done || by apply List.Forall_cons).
    - exists out. assert (pendingBits w = 0) as E0 by lia. rewrite E0 in *.
      split_and!; try done; [apply Z.div_unique with (r := 7); lia|].
      unfold is_u in Hp. change (2 ^ 0) with 1 in Hp. rewrite <- Hd. assert (pending w = 0) as -> by lia. lia. }
  assert (Z.shiftr (u64 (zlen vs * b + 7)) 3 = zlen out1) as Esz.
  { rewrite (uwrap_id 64) by (unfold is_u; nia). rewrite Z.shiftr_div_pow2 by lia. rewrite H6. f_equal. lia. }
  pose proof (zlen_nonneg out1). destruct pad.
  - change (Z.to_nat TAIL_PAD) with 10%nat.
    destruct (zeros_spec 10 w1) as (E1 & E2 & E3 & E4); [lia|rewrite H5, H6; pose proof (Z.div_le_upper_bound (b * zlen vs + 7) 8 (b * zlen vs + 7)); lia|].
    set (w2 := Nat.iter 10 _ w1) in *. unfold byteSize, packedByteSize. rewrite E3, E4, H3, H4, decide_True by lia. opt.
    rewrite Esz, decide_True by (rewrite E2, H5; done). eexists _, out1. split; [rewrite E2, H5; done|]. cbn [target].
    split; [rewrite E1, H1, <- app_assoc; done|done].
  - unfold packedByteSize. rewrite H3, H4, decide_True by lia. opt. rewrite Esz, decide_True by done.
    eexists _, out1. split; [rewrite H5, Z.add_0_r; done|]. simpl. by rewrite app_nil_r.
Qed.

End writing.

(** * The properties *)

Section properties.
Import LinearPack.

Lemma mask64_ones b : 0 <= b <= 57 -> mask64 b = Some (Z.ones b).
Proof.
  intros Hb. unfold mask64. rewrite decide_True by lia. f_equal. case_decide as E; [by rewrite E|].
  rewrite (uwrap_id 64) by (apply is_u_one; lia). by rewrite Z.shiftl_1_l, Z.ones_equiv, Z.sub_1_r.
Qed.

Lemma mask32_ones b : 0 <= b <= 32 -> mask32 b = Some (Z.ones b).
Proof.
  intros Hb. unfold mask32. rewrite decide_True by lia. f_equal. case_decide as E; [by rewrite E|].
  rewrite Z.shiftl_1_l, Z.ones_equiv, <- Z.sub_1_r. apply uwrap_id. unfold is_u.
  pose proof (pow2_pos b ltac:(lia)). assert (2 ^ b <= 2 ^ 32) by (apply Z.pow_le_mono_r; lia). lia.
Qed.

(** The values packed in memory are its fields. *)
Lemma packed_field t0 out rest b vs i v :
  is_bytes (t0 ++ out ++ rest) -> 0 <= b -> Forall (is_u b) vs -> le out = digits b vs ->
  b * zlen vs <= 8 * zlen out -> vs.[i] = Some v -> field (t0 ++ out ++ rest) (8 * zlen t0 + i * b) b = v.
Proof.
  intros Hm Hb Hvs Hle Hlen Hi. pose proof (zget_Some_range _ _ _ Hi).
  rewrite <- (field_sub _ (zlen t0) (zlen out) out); [|done|apply zlen_nonneg|by apply slice_app|nia..].
  unfold field. rewrite Hle. by apply digits_get.
Qed.

Lemma packed_fields t0 out rest b vs idx n :
  is_bytes (t0 ++ out ++ rest) -> 0 <= b -> Forall (is_u b) vs -> le out = digits b vs ->
  b * zlen vs <= 8 * zlen out -> 0 <= idx -> 0 <= n -> idx + n <= zlen vs ->
  fields (t0 ++ out ++ rest) (8 * zlen t0 + idx * b) b n = take (Z.to_nat n) (drop (Z.to_nat idx) vs).
Proof.
  intros Hm Hb Hvs Hle Hlen Hidx Hn Hin.
  apply list_eq. intros j. rewrite <- !zget_nat. destruct (decide (Z.of_nat j < n)) as [Hj|Hj].
  - rewrite zget_take_drop by lia. unfold fields. rewrite zget_fmap, zget_seqZ by lia. simpl.
    destruct (zget_in vs (idx + Z.of_nat j)) as [v Ev]; [lia|]. rewrite Ev. f_equal.
    erewrite <- (packed_field t0 out rest b vs (idx + Z.of_nat j)); [f_equal; lia|done..].
  - assert (forall l : list Z, zlen l <= Z.of_nat j -> l.[Z.of_nat j] = None) as Hnone.
    { intros l Hl. rewrite zget_nat. apply lookup_ge_None. unfold zlen in Hl. lia. }
    rewrite !Hnone; [done| |rewrite zlen_fields; lia].
    unfold zlen. rewrite length_take. lia.
Qed.

Lemma fields_zero mem pos n : 0 <= n -> fields mem pos 0 n = replicate (Z.to_nat n) 0.
Proof.
  intros Hn. unfold fields. apply list_eq. intros j. rewrite list_lookup_fmap.
  destruct (decide (Z.of_nat j < n)).
  - rewrite lookup_replicate_2, lookup_seqZ_lt by lia. simpl. unfold field. by rewrite Z.land_0_r.
  - rewrite lookup_seqZ_ge by lia. symmetry. apply lookup_ge_None. rewrite length_replicate. lia.
Qed.

Lemma unpack128_fields mem base idx count n b :
  is_bytes mem -> packed_room mem base n b -> 0 <= b <= 32 -> 0 <= idx -> idx `mod` 8 = 0 -> 0 <= count <= 128 ->
  idx + count <= n -> unpack128 mem base idx count b (Z.ones b) = Some (fields mem (8 * base + idx * b) b count).
Proof.
  intros Hm Hroom Hb Hidx Hidx8 Hcount Hin. unfold unpack128, unpack128_guard.
  rewrite bool_decide_eq_true_2 by lia. case_decide as Eb; [rewrite Eb, fields_zero by lia; done|].
  unfold unpackBlock. rewrite decide_True by lia.
  by rewrite (unpackBlockBits_spec _ _ _ _ n) by (done || lia).
Qed.

Lemma unpack128_scalar_fields mem base idx count n b :
  is_bytes mem -> packed_room mem base n b -> 0 <= b <= 32 -> 0 <= idx -> idx `mod` 8 = 0 -> 0 <= count <= 128 ->
  idx + count <= n ->
  unpack128_scalar mem base idx count b (Z.ones b) = Some (fields mem (8 * base + idx * b) b count).
Proof.
  intros Hm Hroom Hb Hidx Hidx8 Hcount Hin. unfold unpack128_scalar, unpack128_guard.
  rewrite bool_decide_eq_true_2 by lia. case_decide as Eb; [rewrite Eb, fields_zero by lia; done|].
  apply mapM_total. intros j Hj%elem_of_seqZ. rewrite (select32_field _ _ _ n) by (done || lia). do 2 f_equal. lia.
Qed.

Lemma unpack128_64_fields mem base idx count n b :
  is_bytes mem -> packed_room mem base n b -> 1 <= b <= 57 -> 0 <= idx -> 0 <= count <= 128 -> idx + count <= n ->
  unpack128_64 mem base idx count b (Z.ones b) = Some (fields mem (8 * base + idx * b) b count).
Proof.
  intros Hm Hroom Hb Hidx Hcount Hin. unfold unpack128_64. rewrite decide_True by lia.
  apply mapM_total. intros j Hj%elem_of_seqZ. rewrite (select64_field _ _ _ n) by (done || lia). do 2 f_equal. lia.
Qed.

End properties.

(** C14: packing.  Values of at most 57 bits appended to a writer take
    [ceil (count * bits / 8)] bytes, and with the padding, or any ten bytes, after them
    each is read back by [select64], by [select32] when it has at most 32 bits, and in
    bulk by [unpack128] from any multiple of eight. *)
Theorem pack_roundtrip (t0 vs post : list Z) (b : Z) (pad : bool)
    (Ht0 : is_bytes t0) (Hpost : is_bytes post) (Hb : 0 <= b <= 57) (Hvs : Forall (is_u b) vs)
    (Hsize : zlen vs * 64 < 2 ^ 62) (Hpad : pad = true \/ LinearPack.TAIL_PAD <= zlen post) :
  exists w0 w1 w2 n m, LinearPack.make t0 b = Some w0 /\ appendAll vs w0 = Some w1 /\
    LinearPack.finish pad w1 = Some (n, w2) /\
    n = (b * zlen vs + 7) / 8 + (if pad then LinearPack.TAIL_PAD else 0) /\
    LinearPack.mask64 b = Some m /\
    (forall i v, vs.[i] = Some v ->
       LinearPack.select64 (LinearPack.target w2 ++ post) (zlen t0) i b m = Some v /\
       (b <= 32 -> LinearPack.select32 (LinearPack.target w2 ++ post) (zlen t0) i b m = Some v)) /\
    (forall idx count, b <= 32 -> 0 <= idx -> idx `mod` 8 = 0 -> 0 <= count <= 128 -> idx + count <= zlen vs ->
       LinearPack.unpack128 (LinearPack.target w2 ++ post) (zlen t0) idx count b m
       = Some (take (Z.to_nat count) (drop (Z.to_nat idx) vs))).
Proof.
  pose proof (zlen_nonneg vs). pose proof (zlen_nonneg t0).
  destruct (make_writing t0 b Hb) as (w0 & E0 & Hw0).
  destruct (appendAll_spec vs w0 t0 b [] Hw0 Hb Hvs) as (w1 & E1 & Hw1); [change (zlen (@nil Z)) with 0; nia..|].
  destruct (finish_spec w1 t0 b vs pad Hw1 Hb) as (w2 & out & E2 & Ht & Ho & Hlen & Hle); [nia|].
  exists w0, w1, w2. eexists _, _. split; [done|]. split; [done|]. split; [done|]. rewrite Hlen. split; [done|].
  split; [by apply mask64_ones|]. rewrite Ht, <- !app_assoc.
  set (rest := (if pad then replicate 10 0 else []) ++ post).
  assert (is_bytes (t0 ++ out ++ rest)) as Hm.
  { unfold rest. repeat (apply Forall_app; split; try done). destruct pad; [|apply List.Forall_nil].
    apply Forall_replicate. unfold is_u. lia. }
  assert (b * zlen vs <= 8 * zlen out) as Hbits.
  { rewrite Hlen. pose proof (Z.div_mod (b * zlen vs + 7) 8). pose proof (Z.mod_pos_bound (b * zlen vs + 7) 8). lia. }
  assert (packed_room (t0 ++ out ++ rest) (zlen t0) (zlen vs) b) as Hroom.
  { split; [done|]. split; [done|]. split; [nia|]. rewrite (Z.mul_comm (zlen vs)), <- Hlen.
    unfold rest, LinearPack.TAIL_PAD in *. pose proof (zlen_nonneg post). zlen. destruct pad; zlen. }
  split.
  - intros i v Hi. pose proof (zget_Some_range _ _ _ Hi).
    pose proof (packed_field t0 out rest b vs i v Hm ltac:(lia) Hvs Hle Hbits Hi) as Hf.
    destruct (decide (b = 0)) as [Eb|Hb0].
    + assert (v = 0) as -> by (rewrite <- Hf, Eb; unfold field; by rewrite Z.land_0_r).
      by rewrite Eb.
    + rewrite (select64_field _ _ _ (zlen vs)), Hf by (done || lia). split; [done|]. intros Hb32.
      by rewrite (select32_field _ _ _ (zlen vs)), Hf by (done || lia).
  - intros idx count Hb32 Hidx Hidx8 Hcount Hin.
    rewrite (unpack128_fields _ _ _ _ (zlen vs)), (packed_fields _ _ _ _ vs) by (done || lia). done.
Qed.

Lemma pack_roundtrip_witness :
  exists w0 w1 w2 n, LinearPack.make [1] 5 = Some w0 /\ appendAll [3; 17; 31; 8; 9] w0 = Some w1 /\
    LinearPack.finish true w1 = Some (n, w2) /\ n = 14 /\
    LinearPack.select64 (LinearPack.target w2 ++ []) 1 2 5 31 = Some 31 /\
    LinearPack.unpack128 (LinearPack.target w2 ++ []) 1 0 5 5 31 = Some [3; 17; 31; 8; 9].
Proof.
  destruct (pack_roundtrip [1] [3; 17; 31; 8; 9] [] 5 true) as (w0 & w1 & w2 & n & m & E0 & E1 & E2 & En & Em & Hs & Hu).
  - apply List.Forall_cons; [unfold is_u; lia|apply List.Forall_nil].
  - apply List.Forall_nil.
  - lia.
  - repeat (apply List.Forall_cons; [unfold is_u; lia|]). apply List.Forall_nil.
  - change (zlen [3; 17; 31; 8; 9]) with 5. lia.
  - by left.
  - exists w0, w1, w2, n. injection Em as <-. split; [done|]. split; [done|]. split; [done|]. split; [done|]. split.
    + by apply (Hs 2 31).
    + by apply (Hu 0 5).
Defined.

(** C17: the vector kernels.  On any memory that holds [n] packed values and the padding,
    unpacking up to 128 values of at most 32 bits from a multiple of eight never reads out
    of bounds, and the AVX2 build, the scalar build and the 64-bit routine agree with
    [select64] on every value. *)
Theorem unpack128_kernels (mem : list Z) (base idx count n b : Z) (Hm : is_bytes mem)
    (Hroom : packed_room mem base n b) (Hb : 1 <= b <= 32) (Hidx : 0 <= idx) (H8 : idx `mod` 8 = 0)
    (Hcount : 0 <= count <= 128) (Hin : idx + count <= n) :
  exists vs, LinearPack.unpack128 mem base idx count b (Z.ones b) = Some vs /\
    LinearPack.unpack128_scalar mem base idx count b (Z.ones b) = Some vs /\
    LinearPack.unpack128_64 mem base idx count b (Z.ones b) = Some vs /\
    zlen vs = count /\
    forall i, 0 <= i < count -> vs.[i] = LinearPack.select64 mem base (idx + i) b (Z.ones b).
Proof.
  exists (fields mem (8 * base + idx * b) b count).
  rewrite (unpack128_fields _ _ _ _ n), (unpack128_scalar_fields _ _ _ _ n), (unpack128_64_fields _ _ _ _ n)
    by (done || lia).
  do 3 (split; [done|]). split; [apply zlen_fields; lia|]. intros i Hi.
  rewrite (select64_field _ _ _ n) by (done || lia). unfold fields. rewrite zget_fmap, zget_seqZ by lia.
  simpl. do 2 f_equal. lia.
Qed.

Lemma unpack128_kernels_witness :
  exists vs, LinearPack.unpack128 (seqZ 1 50) 3 8 20 9 511 = Some vs /\
    LinearPack.unpack128_scalar (seqZ 1 50) 3 8 20 9 511 = Some vs.
Proof.
  destruct (unpack128_kernels (seqZ 1 50) 3 8 20 28 9) as (vs & E1 & E2 & _).
  - apply (bool_decide_unpack _). by vm_compute.
  - unfold packed_room. change (zlen (seqZ 1 50)) with 50. unfold LinearPack.TAIL_PAD.
    change ((28 * 9 + 7) / 8) with 32. lia.
  - lia.
  - lia.
  - done.
  - lia.
  - lia.
  - by exists vs.
Defined.
