(* ===== verification/LinearFit.v ===== *)
(** The fixed-point line fit of [luxir/codec/LinearFit.h]: a slope through the end points of
    a block of values and the intercept that makes every residual nonnegative.  128-bit
    intermediate values are integers whose range is checked; a failed assertion or an
    overflow is [None], the absence of a plan is [Some None]. *)

From S2P Require Import Prelude.

Module LinearFit.

Record Plan := MkPlan { intercept : Z; scaledSlope : Z; bits : Z }.

Definition i128 (z : Z) : option Z := if decide (is_s 128 z) then Some z else None.

Definition predict (intercept scaledSlope rank slopeShift : Z) : option Z :=
  if decide (slopeShift < 64) then
    p ← i128 (rank * scaledSlope);
    value ← i128 (intercept + Z.shiftr p slopeShift);
    if decide (is_s 64 value) then Some value else None
  else None.

Definition residual (plan : Plan) (rank value slopeShift : Z) : option Z :=
  p ← predict (intercept plan) (scaledSlope plan) rank slopeShift;
  let result := value - p in
  if decide (is_u 64 result) then Some result else None.

Definition endpointSlope (first last count slopeShift : Z) : option (option Z) :=
  if decide (count > 0 /\ slopeShift < 64) then
    if decide (count = 1) then Some (Some 0)
    else
      let denominator := count - 1 in
      numerator ← i128 ((last - first) * Z.shiftl 1 slopeShift);
      numerator ← i128 (numerator + (if decide (numerator >= 0) then Z.quot denominator 2
                                     else Z.quot (- denominator) 2));
      let scaledSlope := Z.quot numerator denominator in
      Some (if decide (is_s 64 scaledSlope) then Some scaledSlope else None)
  else None.

Definition finishPlan (intercept scaledSlope minError maxError : Z) : option (option Plan) :=
  loweredIntercept ← i128 (intercept + minError);
  errorRange ← i128 (maxError - minError);
  Some (if decide (is_s 64 loweredIntercept /\ is_u 64 errorRange) then
          let b := bit_width errorRange in
          if decide (b > 57) then None else Some (MkPlan loweredIntercept scaledSlope b)
        else None).

(** One round of the loop of [evaluate] on the least and the greatest error so far. *)
Definition evaluateStep (intercept scaledSlope slopeShift : Z) (s : Z * (Z * Z)) (value : Z) : option (Z * (Z * Z)) :=
  let '(i, (minError, maxError)) := s in
  if decide (value < 2 ^ 63) then
    p ← predict intercept scaledSlope i slopeShift;
    let error := value - p in Some (i + 1, (Z.min minError error, Z.max maxError error))
  else None.

Definition evaluate (values : list Z) (intercept scaledSlope slopeShift : Z) : option (option Plan) :=
  if decide (values <> [] /\ slopeShift < 64) then
    s ← foldM (evaluateStep intercept scaledSlope slopeShift) (0, (2 ^ 127 - 1, - 2 ^ 127)) values;
    finishPlan intercept scaledSlope s.2.1 s.2.2
  else None.

Definition planLinearFit (values : list Z) (slopeShift : Z) : option (option Plan) :=
  front ← values.[0];
  back ← values.[zlen values - 1];
  if decide (front < 2 ^ 63 /\ back < 2 ^ 63) then
    slope ← endpointSlope front back (zlen values) slopeShift;
    match slope with
    | None => Some None
    | Some scaledSlope => evaluate values front scaledSlope slopeShift
    end
  else None.

End LinearFit.

(** * The fit *)

Section fit.
Import LinearFit.

(** The line at a rank. *)
Definition line (c s shift i : Z) : Z := c + Z.shiftr (i * s) shift.

Lemma i128_id z : is_s 128 z -> i128 z = Some z.
Proof. intros. unfold i128. by rewrite decide_True. Qed.

Lemma predict_line c s i shift :
  shift < 64 -> is_s 128 (i * s) -> is_s 64 (line c s shift i) -> predict c s i shift = Some (line c s shift i).
Proof.
  intros Hs Hp Hl. unfold predict. rewrite decide_True by done. rewrite i128_id by done. opt.
  rewrite i128_id by (unfold line, is_s in *; simpl in *; lia). opt. by rewrite decide_True.
Qed.

Lemma bit_width_spec z w : 0 <= z -> 0 <= w -> bit_width z <= w <-> z < 2 ^ w.
Proof.
  intros Hz Hw. unfold bit_width. case_decide as E.
  - pose proof (pow2_pos w Hw). lia.
  - rewrite (Z.log2_lt_pow2 z w) by lia. lia.
Qed.

Lemma bit_width_nonneg z : 0 <= bit_width z.
Proof. unfold bit_width. case_decide; [lia|]. pose proof (Z.log2_nonneg z). lia. Qed.

Lemma bit_width_lt z : 0 <= z -> z < 2 ^ bit_width z.
Proof. intros Hz. apply bit_width_spec; [done|apply bit_width_nonneg|lia]. Qed.

(** The loop keeps the least and the greatest distance to the line. *)
Lemma evaluate_errors vs c s shift :
  shift < 64 -> vs <> [] ->
  (forall i v, vs.[i] = Some v -> 0 <= v < 2 ^ 63 /\ is_s 128 (i * s) /\ is_s 64 (line c s shift i)) ->
  exists lo hi, foldM (evaluateStep c s shift) (0, (2 ^ 127 - 1, - 2 ^ 127)) vs = Some (zlen vs, (lo, hi)) /\
    (forall i v, vs.[i] = Some v -> lo <= v - line c s shift i <= hi) /\
    (exists i v, vs.[i] = Some v /\ lo = v - line c s shift i) /\
    (exists i v, vs.[i] = Some v /\ hi = v - line c s shift i).
Proof.
  intros Hshift Hne Hvs.
  assert (exists q, foldM (evaluateStep c s shift) (0, (2 ^ 127 - 1, - 2 ^ 127)) vs = Some q /\
    q.1 = zlen vs /\
    (vs = [] -> q.2 = (2 ^ 127 - 1, - 2 ^ 127)) /\
    (forall i v, vs.[i] = Some v -> q.2.1 <= v - line c s shift i <= q.2.2) /\
    (vs <> [] -> (exists i v, vs.[i] = Some v /\ q.2.1 = v - line c s shift i) /\
                 (exists i v, vs.[i] = Some v /\ q.2.2 = v - line c s shift i))) as (q & E & Hn & _ & Hb & Hex).
  { clear Hne. induction vs as [|v vs IH] using rev_ind.
    - eexists. split; [done|]. split; [done|]. split; [done|]. split; [|done].
      intros i v Hv. by rewrite zget_nil in Hv.
    - destruct IH as (q & E & Hn & H0 & Hb & Hex).
      { intros i w Hw. apply Hvs. by apply zget_app_Some. }
      destruct (Hvs (zlen vs) v) as (Hv & Hp & Hl); [apply zget_snoc|].
      destruct q as [n [lo hi]]. simpl in *. subst n.
      rewrite foldM_app, E. opt. cbn [foldM]. unfold evaluateStep at 1. rewrite decide_True by lia.
      rewrite predict_line by done. opt. eexists. split; [done|]. simpl.
      split; [zlen|]. split; [intros H; by apply app_nil in H as [_ H]|].
      assert (is_s 128 (v - line c s shift (zlen vs))) as Herr by (unfold is_s in *; simpl in *; lia).
      split.
      + intros i w [Hw|[-> ->]]%zget_snoc_inv; [specialize (Hb i w Hw)|]; lia.
      + intros _. assert (forall x y, (exists i v0, vs.[i] = Some v0 /\ x = v0 - line c s shift i) ->
          (y = x \/ y = v - line c s shift (zlen vs)) ->
          exists i v0, (vs ++ [v]).[i] = Some v0 /\ y = v0 - line c s shift i) as Hpick.
        { intros x y (i & w & Hw & ->) [->| ->].
          - exists i, w. split; [by apply zget_app_Some|done].
          - exists (zlen vs), v. split; [apply zget_snoc|done]. }
        destruct (decide (vs = [])) as [->|Hne].
        * specialize (H0 eq_refl). injection H0 as -> ->. 
          change (zlen (@nil Z)) with 0 in *. unfold is_s in Herr. change (128 - 1) with 127 in Herr.
          split; exists 0, v; (split; [done|lia]).
        * destruct (Hex Hne) as [Hlo Hhi].
          split; eapply Hpick; [exact Hlo|destruct (Z.min_spec lo (v - line c s shift (zlen vs))); lia
                               |exact Hhi|destruct (Z.max_spec hi (v - line c s shift (zlen vs))); lia]. }
  destruct q as [n [lo hi]]. simpl in *. subst n. exists lo, hi. destruct (Hex Hne) as [Hlo Hhi].
  split; [done|]. split; [done|]. split; done.
Qed.

Definition on_range (vs : list Z) (c s shift : Z) : Prop :=
  forall i v, vs.[i] = Some v -> 0 <= v < 2 ^ 63 /\ is_s 128 (i * s) /\ is_s 64 (line c s shift i).

Lemma line_lower c d s shift i : line (c + d) s shift i = line c s shift i + d.
Proof. unfold line. lia. Qed.

Lemma evaluate_spec vs c s shift :
  shift < 64 -> vs <> [] -> is_s 64 c -> on_range vs c s shift ->
  exists lo hi,
    evaluate vs c s shift
      = Some (if decide (is_s 64 (c + lo) /\ hi - lo < 2 ^ 57) then Some (MkPlan (c + lo) s (bit_width (hi - lo)))
              else None) /\
    (forall i v, vs.[i] = Some v -> lo <= v - line c s shift i <= hi) /\
    (exists i v, vs.[i] = Some v /\ lo = v - line c s shift i) /\
    (exists i v, vs.[i] = Some v /\ hi = v - line c s shift i).
Proof.
  intros Hshift Hne Hc Hvs. destruct (evaluate_errors vs c s shift Hshift Hne Hvs) as (lo & hi & E & Hb & Hlo & Hhi).
  exists lo, hi. split; [|done]. unfold evaluate. rewrite decide_True, E by done. opt. cbn [fst snd].
  destruct Hlo as (i & v & Hv & Elo), Hhi as (j & w & Hw & Ehi).
  pose proof (Hvs i v Hv) as (Hv1 & _ & Hl1). pose proof (Hvs j w Hw) as (Hw1 & _ & Hl2). pose proof (Hb i v Hv).
  unfold is_s in Hc, Hl1, Hl2. change (64 - 1) with 63 in *.
  unfold finishPlan. rewrite i128_id by (unfold is_s; simpl; lia). opt.
  rewrite i128_id by (unfold is_s; simpl; lia). opt. f_equal.
  assert (bit_width (hi - lo) > 57 <-> ~ hi - lo < 2 ^ 57) as Hbw.
  { rewrite <- (bit_width_spec (hi - lo) 57) by lia. lia. }
  destruct (decide (is_s 64 (c + lo) /\ hi - lo < 2 ^ 57)) as [[H1 H2]|H1].
  - rewrite decide_True by (split; [done|unfold is_u; lia]). rewrite decide_False; [done|]. by intros ?%Hbw.
  - case_decide as H2; [|done]. rewrite decide_True; [done|]. apply Hbw. intros H3. apply H1. by destruct H2.
Qed.

(** What a plan promises of the values it was made for: every residual has [bits] bits, so
    the values are the line plus the residuals, and one of them is on the line. *)
Record fits (p : Plan) (shift : Z) (vs : list Z) : Prop := {
  fits_intercept : is_s 64 (intercept p);
  fits_slope : is_s 64 (scaledSlope p);
  fits_bits : 0 <= bits p <= 57;
  fits_product : forall i v, vs.[i] = Some v -> is_s 128 (i * scaledSlope p);
  fits_value : forall i v, vs.[i] = Some v -> 0 <= v < 2 ^ 63;
  fits_residual : forall i v, vs.[i] = Some v -> is_u (bits p) (v - line (intercept p) (scaledSlope p) shift i);
  fits_touches : exists i, vs.[i] = Some (line (intercept p) (scaledSlope p) shift i) }.

Lemma evaluate_fits vs c s shift r :
  shift < 64 -> vs <> [] -> is_s 64 c -> is_s 64 s -> on_range vs c s shift ->
  evaluate vs c s shift = Some (Some r) -> scaledSlope r = s /\ fits r shift vs.
Proof.
  intros Hshift Hne Hc Hs Hvs E. destruct (evaluate_spec vs c s shift) as (lo & hi & E' & Hb & Hlo & Hhi); [done..|].
  rewrite E' in E. case_decide as Hd; [|done]. injection E as <-. destruct Hd as [Hd1 Hd2].
  destruct Hlo as (i & v & Hv & Elo). pose proof (Hb i v Hv) as Hlh. split; [done|]. constructor; simpl.
  - done.
  - done.
  - split; [apply bit_width_nonneg|]. apply bit_width_spec; lia.
  - intros j w Hw. by apply (Hvs j w).
  - intros j w Hw. by apply (Hvs j w).
  - intros j w Hw. rewrite line_lower. specialize (Hb j w Hw). pose proof (bit_width_lt (hi - lo)). unfold is_u. lia.
  - exists i. rewrite line_lower, Hv. f_equal. lia.
Qed.

(** Residuals of a plan that fits are computed without a failed assertion. *)
Lemma residual_fits p shift vs i v :
  shift < 64 -> fits p shift vs -> vs.[i] = Some v ->
  residual p i v shift = Some (v - line (intercept p) (scaledSlope p) shift i).
Proof.
  intros Hshift Hf Hv. pose proof (fits_residual _ _ _ Hf i v Hv) as Hr. pose proof (fits_value _ _ _ Hf i v Hv) as Hv'.
  pose proof (fits_bits _ _ _ Hf) as Hb. pose proof (fits_product _ _ _ Hf i v Hv).
  assert (2 ^ bits p <= 2 ^ 57) by (apply Z.pow_le_mono_r; lia). unfold is_u in Hr.
  unfold residual. rewrite predict_line; [|done|done|unfold is_s; simpl; lia]. opt.
  rewrite decide_True; [done|]. unfold is_u. lia.
Qed.

(** * The plan through the end points *)

Lemma quot_within a d : 0 < d -> Z.abs (Z.quot a d) * d <= Z.abs a.
Proof.
  intros Hd. rewrite <- (Z.quot_abs a d), (Z.abs_eq d), Z.mul_comm by lia. apply Z.mul_quot_le; lia.
Qed.

Lemma endpointSlope_spec first last n shift :
  0 <= first < 2 ^ 57 -> 0 <= last < 2 ^ 57 -> 0 < n <= 4096 -> 0 <= shift <= 32 ->
  exists r, endpointSlope first last n shift = Some r /\
    forall s, r = Some s -> is_s 64 s /\ forall i, 0 <= i < n -> Z.abs (i * s) <= (2 ^ 57 + 1) * 2 ^ shift + 4096.
Proof.
  intros Hf Hl Hn Hs. unfold endpointSlope. rewrite decide_True by lia.
  assert (1 <= 2 ^ shift) by (pose proof (pow2_pos shift); lia).
  assert (2 ^ shift <= 2 ^ 32) by (apply Z.pow_le_mono_r; lia).
  case_decide as E1.
  { eexists. split; [done|]. intros s [= <-]. split; [unfold is_s; lia|]. intros i Hi. rewrite Z.mul_0_r. simpl. nia. }
  rewrite Z.shiftl_1_l. cbv zeta. set (num := (last - first) * 2 ^ shift).
  assert (Z.abs num <= 2 ^ 57 * 2 ^ shift) as Hnum.
  { unfold num. rewrite Z.abs_mul, (Z.abs_eq (2 ^ shift)) by lia. apply Z.mul_le_mono_nonneg_r; lia. }
  rewrite i128_id by (unfold is_s; simpl; nia). opt.
  set (num' := num + _). assert (Z.abs num' <= 2 ^ 57 * 2 ^ shift + 4096) as Hnum'.
  { unfold num'. pose proof (Z.quot_div_nonneg (n - 1) 2). pose proof (Z.quot_opp_l (n - 1) 2).
    pose proof (Z.div_le_upper_bound (n - 1) 2 4096). pose proof (Z.div_pos (n - 1) 2).
    case_decide; lia. }
  rewrite i128_id by (unfold is_s; simpl; nia). opt. eexists. split; [done|].
  intros s. case_decide as Hr; [|done]. intros [= <-]. split; [done|]. intros i Hi.
  pose proof (quot_within num' (n - 1)). rewrite Z.abs_mul. nia.
Qed.

Lemma planLinearFit_spec vs shift :
  vs <> [] -> zlen vs <= 4096 -> 0 <= shift <= 32 -> Forall (fun v => 0 <= v < 2 ^ 57) vs ->
  exists r, planLinearFit vs shift = Some r /\ forall p, r = Some p -> fits p shift vs.
Proof.
  intros Hne Hlen Hs Hvs. rewrite Forall_forall in Hvs.
  assert (0 < zlen vs) by (destruct vs; [done|rewrite zlen_cons; pose proof (zlen_nonneg vs); lia]).
  destruct (zget_in vs 0) as [a Ha]; [lia|]. destruct (zget_in vs (zlen vs - 1)) as [b Hb]; [lia|].
  pose proof (Hvs a (zget_elem_1 _ _ _ Ha)). pose proof (Hvs b (zget_elem_1 _ _ _ Hb)).
  unfold planLinearFit. rewrite Ha, Hb. opt. rewrite decide_True by lia.
  destruct (endpointSlope_spec a b (zlen vs) shift) as (r & E & Hr); [lia..|]. rewrite E. opt.
  destruct r as [s|]; [|by exists None]. destruct (Hr s eq_refl) as [Hss Hi]. clear Hr.
  assert (on_range vs a s shift) as Hon.
  { intros i v Hv. pose proof (zget_Some_range _ _ _ Hv). specialize (Hvs v (zget_elem_1 _ _ _ Hv)).
    specialize (Hi i ltac:(lia)). split; [lia|]. unfold is_s in *. change (64 - 1) with 63 in *.
    split; [simpl; nia|]. unfold line. rewrite Z.shiftr_div_pow2 by lia.
    pose proof (pow2_pos shift ltac:(lia)).
    assert (- (2 ^ 57 + 1 + 4096) <= i * s / 2 ^ shift) by (apply Z.div_le_lower_bound; nia).
    assert (i * s / 2 ^ shift <= 2 ^ 57 + 1 + 4096) by (apply Z.div_le_upper_bound; nia). lia. }
  destruct (evaluate_spec vs a s shift) as (lo & hi & E' & _); [lia|done|unfold is_s; simpl; lia|done|].
  rewrite E'. eexists. split; [done|]. intros p Ep. apply (evaluate_fits vs a s shift).
  - lia.
  - done.
  - unfold is_s. simpl. lia.
  - done.
  - done.
  - by rewrite E', Ep.
Qed.

(** * The constant plan *)

Lemma line_constant c shift i : line c 0 shift i = c.
Proof. unfold line. rewrite Z.mul_0_r, Z.shiftr_0_l. lia. Qed.

Lemma constant_spec vs shift top :
  0 ∈ vs -> top ∈ vs -> Forall (fun v => 0 <= v <= top) vs -> top < 2 ^ 57 -> shift < 64 ->
  evaluate vs 0 0 shift = Some (Some (MkPlan 0 0 (bit_width top))) /\ fits (MkPlan 0 0 (bit_width top)) shift vs.
Proof.
  intros Hzero Htop Hvs Hlt Hs. rewrite Forall_forall in Hvs.
  assert (vs <> []) as Hne by (intros ->; by apply not_elem_of_nil in Hzero).
  assert (on_range vs 0 0 shift) as Hon.
  { intros i v Hv%zget_elem_1%Hvs. rewrite line_constant, Z.mul_0_r. split; [lia|]. split; unfold is_s; simpl; lia. }
  destruct (evaluate_spec vs 0 0 shift) as (lo & hi & E & Hb & Hlo & Hhi); [done..|].
  assert (lo = 0) as ->.
  { apply zget_elem in Hzero as [i Hi]. specialize (Hb i 0 Hi). destruct Hlo as (j & v & Hv & ->).
    specialize (Hvs v (zget_elem_1 _ _ _ Hv)). rewrite !line_constant in *. lia. }
  assert (hi = top) as ->.
  { apply zget_elem in Htop as [i Hi]. specialize (Hb i top Hi). destruct Hhi as (j & v & Hv & ->).
    specialize (Hvs v (zget_elem_1 _ _ _ Hv)). rewrite !line_constant in *. lia. }
  rewrite decide_True in E by (split; [unfold is_s; simpl; lia|lia]). rewrite Z.sub_0_r in E.
  split; [exact E|]. apply (evaluate_fits vs 0 0 shift); done.
Qed.

End fit.
