(* ===== verification/NumFormat.v ===== *)
(** The numeric block format of [luxir/codec/NumColumnFormat.h]: block descriptors, the plan
    of a block (divisor, line, width, zones), the order in which leaves are visited, and the
    two translations of a range of values into a range of ranks and of residuals. *)

From S2P Require Import Prelude LinearFit.

(** * Descriptors *)

Module NumBlockInfo.

Record info := Info { offsetAndBits : Z; baseBits : Z; gcd : Z; scaledSlope : Z }.

Definition fresh : info := Info 0 0 1 0.

Definition OFFSET_MASK : Z := Z.shiftl 1 56 - 1.
Definition MAX_PACKED_BITS : Z := 57.
Definition RAW_BITS : Z := 64.

Definition payloadOffset (i : info) : Z := Z.land (offsetAndBits i) OFFSET_MASK.
Definition bits (i : info) : Z := u8 (Z.shiftr (offsetAndBits i) 56).
Definition forPacked (i : info) : bool := bool_decide (bits i <= MAX_PACKED_BITS).
Definition linearFit (i : info) : bool := forPacked i && bool_decide (scaledSlope i <> 0).
Definition residualComparable (i : info) : bool :=
  forPacked i && bool_decide (bits i <= 32) && bool_decide (scaledSlope i = 0).

Definition setPayload (payloadOffset bits : Z) (i : info) : option info :=
  if decide (payloadOffset <= OFFSET_MASK) then
    Some (Info (Z.lor payloadOffset (u64 (Z.shiftl bits 56))) (baseBits i) (gcd i) (scaledSlope i))
  else None.

End NumBlockInfo.

Record NumBlockZone := Zone { zmin : Z; zmax : Z }.

Module NumColumnFormat.
Import NumBlockInfo.

Definition BLOCK_SIZE : Z := 4096.
Definition BULK_SIZE : Z := 128.
Definition LEAF_ZONE_SIZE : Z := 512.
Definition LEAVES_PER_BLOCK : Z := BLOCK_SIZE `div` LEAF_ZONE_SIZE.
Definition SLOPE_SHIFT : Z := u8 (bit_width BLOCK_SIZE + 1).
Definition MIN_LINEAR_BITS_SAVED : Z := 1.

Record RankBounds := Ranks { checkBegin : Z; checkEnd : Z; insideBegin : Z; insideEnd : Z }.
Record ResidualBounds := Residuals { lower : Z; upper : Z }.
Definition empty : ResidualBounds := Residuals 1 0.

Record BlockPlan := MkBlockPlan {
  info : NumBlockInfo.info;
  zone : NumBlockZone;
  leafZones : list NumBlockZone;
  fit : LinearFit.Plan;
  count : Z;
  pbits : Z }.

Definition raw (p : BlockPlan) : bool := bool_decide (pbits p > MAX_PACKED_BITS).

(** ** [planBlock] *)

(** The values [std::minmax_element] points to. *)
Definition minmax (values : list Z) : option NumBlockZone :=
  match values with
  | [] => None
  | v :: vs => Some (Zone (foldl Z.min v vs) (foldl Z.max v vs))
  end.

(** The loop over the differences, left as soon as the divisor is one. *)
Fixpoint gcdLoop (min gcd : Z) (values : list Z) : Z :=
  match values with
  | [] => gcd
  | value :: rest =>
      if decide (gcd = 1) then gcd else gcdLoop min (Z.gcd gcd (u64 (u64 value - u64 min))) rest
  end.

(** The loop over the leaves; the plan has room for [LEAVES_PER_BLOCK] zones. *)
Fixpoint leafLoop (fuel : nat) (values : list Z) (leafStart : Z) (zones : list NumBlockZone)
    : option (list NumBlockZone) :=
  match fuel with
  | O => None
  | S fuel =>
      if decide (leafStart < zlen values) then
        let leafEnd := Z.min (leafStart + LEAF_ZONE_SIZE) (zlen values) in
        leaf ← slice values leafStart (leafEnd - leafStart);
        z ← minmax leaf;
        if decide (zlen zones < LEAVES_PER_BLOCK) then
          leafLoop fuel values (leafStart + LEAF_ZONE_SIZE) (zones ++ [z])
        else None
      else Some zones
  end.

Definition planBlock (values : list Z) (useGcd leafZones : bool) : option (BlockPlan * list Z) :=
  if decide (values <> [] /\ zlen values <= BLOCK_SIZE) then
    z ← minmax values;
    let min := zmin z in
    let max := zmax z in
    let gcd := if useGcd then gcdLoop min 0 values else 0 in
    let gcd := if decide (gcd = 0) then 1 else gcd in
    leaves ← (if leafZones then leafLoop 9 values 0 [] else Some []);
    let range := u64 (u64 max - u64 min) / gcd in
    if decide (bit_width range > MAX_PACKED_BITS) then
      Some (MkBlockPlan (Info 0 0 gcd 0) z leaves (LinearFit.MkPlan 0 0 0) (zlen values) RAW_BITS, [])
    else
      quotients ← mapM (fun value => let q := u64 (u64 value - u64 min) / gcd in
                                     if decide (q <= range) then Some q else None) values;
      constant ← LinearFit.evaluate quotients 0 0 SLOPE_SHIFT;
      constant ← constant;
      linear ← LinearFit.planLinearFit quotients SLOPE_SHIFT;
      let fit :=
        match linear with
        | Some linear => if decide (LinearFit.bits constant >= LinearFit.bits linear + MIN_LINEAR_BITS_SAVED)
                         then linear else constant
        | None => constant
        end in
      let i := Info 0 (u64 (u64 min + gcd * u64 (LinearFit.intercept fit))) gcd (LinearFit.scaledSlope fit) in
      if decide (scaledSlope i <> 0 \/ baseBits i = u64 min) then
        Some (MkBlockPlan i z leaves fit (zlen values) (LinearFit.bits fit), quotients)
      else None
  else None.

(** ** Leaf visit orders *)

(** The comparisons of the two sorts, as reflexive orders; they are total orders of the leaf
    numbers, so that the sorted array is determined.  Every number compared is that of a
    leaf. *)
Definition leafBefore (leafZones : list NumBlockZone) (byMaxDescending : bool) (a b : Z) : Prop :=
  let x := default (Zone 0 0) (leafZones.[a]) in
  let y := default (Zone 0 0) (leafZones.[b]) in
  if byMaxDescending then zmax x > zmax y \/ (zmax x = zmax y /\ a <= b)
  else zmin x < zmin y \/ (zmin x = zmin y /\ a <= b).

#[export] Instance leafBefore_dec zs d : RelDecision (leafBefore zs d).
Proof. intros a b. unfold leafBefore. destruct d; apply _. Defined.

Definition leafVisitOrder (leafZones : list NumBlockZone) (byMaxDescending : bool) : option (list Z) :=
  if decide (zlen leafZones < 2 ^ 32) then
    Some (merge_sort (leafBefore leafZones byMaxDescending) (seqZ 0 (zlen leafZones)))
  else None.

(** ** Residuals *)

Definition residual (plan : BlockPlan) (rank quotient : Z) : option Z :=
  if raw plan then None else LinearFit.residual (fit plan) rank quotient SLOPE_SHIFT.

Definition slopeTerm (rank scaledSlope : Z) : Z := s64 (Z.shiftr (s64 rank * scaledSlope) SLOPE_SHIFT).

(** The binary search for the end of the prefix on which a predicate holds. *)
Fixpoint partition (fuel : nat) (pred : Z -> option bool) (first last : Z) : option Z :=
  match fuel with
  | O => None
  | S fuel =>
      if decide (first < last) then
        let mid := first + (last - first) / 2 in
        b ← pred mid;
        if (b : bool) then partition fuel pred (mid + 1) last else partition fuel pred first mid
      else Some first
  end.

Definition clamp (v lo hi : Z) : Z := if decide (v < lo) then lo else if decide (hi < v) then hi else v.

Definition linearRankBounds (block : NumBlockInfo.info) (value0 count lo hi : Z) : option (option RankBounds) :=
  if decide (0 < count <= BLOCK_SIZE) then
    if linearFit block then
      if decide (hi < lo) then Some (Some (Ranks 0 0 0 0))
      else
        let gcd := gcd block in
        if decide (gcd <> 0) then
          spread ← LinearFit.i128 (gcd * (Z.shiftl 1 (bits block) - 1));
          if decide (spread > 2 ^ 64 - 1) then Some None
          else
            let scaledResidual0 := u64 (u64 value0 - baseBits block) in
            if decide (scaledResidual0 `mod` gcd = 0) then
              let intercept := value0 - scaledResidual0 in
              let slope := scaledSlope block in
              let lower := fun rank =>
                p ← LinearFit.i128 (gcd * slopeTerm rank slope); LinearFit.i128 (intercept + p) in
              let upper := fun rank => l ← lower rank; LinearFit.i128 (l + spread) in
              let at_ := fun (f : Z -> option Z) (P : Z -> bool) => partition 14 (fun r => x ← f r; Some (P x)) 0 count in
              b ← (if decide (slope > 0) then
                     cb ← at_ upper (fun x => bool_decide (x < lo));
                     ce ← at_ lower (fun x => bool_decide (x <= hi));
                     ib ← at_ lower (fun x => bool_decide (x < lo));
                     ie ← at_ upper (fun x => bool_decide (x <= hi));
                     Some (Ranks cb ce ib ie)
                   else
                     cb ← at_ lower (fun x => bool_decide (x > hi));
                     ce ← at_ upper (fun x => bool_decide (x >= lo));
                     ib ← at_ upper (fun x => bool_decide (x > hi));
                     ie ← at_ lower (fun x => bool_decide (x >= lo));
                     Some (Ranks cb ce ib ie));
              let ce := Z.max (checkBegin b) (checkEnd b) in
              let ib := clamp (insideBegin b) (checkBegin b) ce in
              let ie := clamp (insideEnd b) ib ce in
              Some (Some (Ranks (checkBegin b) ce ib ie))
            else None
        else None
    else Some None
  else None.

Definition residualBounds (block : NumBlockInfo.info) (lo hi : Z) : option ResidualBounds :=
  if decide (residualComparable block = true /\ gcd block <> 0) then
    let base := s64 (baseBits block) in
    if decide (hi < lo \/ hi < base) then Some empty
    else
      let lower :=
        if decide (lo > base) then
          let delta := u64 (u64 lo - u64 base) in
          u64 (delta / gcd block + (if decide (delta `mod` gcd block <> 0) then 1 else 0))
        else 0 in
      let upper := Z.min (u64 (u64 hi - u64 base) / gcd block) (Z.shiftl 1 (bits block) - 1) in
      if decide (lower > upper) then Some empty else Some (Residuals (u32 lower) (u32 upper))
  else None.

End NumColumnFormat.

(** * Planning *)

Section planning.
Import NumBlockInfo NumColumnFormat.

(** The exact extrema of some values. *)
Definition is_zone (values : list Z) (z : NumBlockZone) : Prop :=
  zmin z ∈ values /\ zmax z ∈ values /\ forall v, v ∈ values -> zmin z <= v <= zmax z.

Lemma foldl_pick (f : Z -> Z -> Z) (R : Z -> Z -> Prop) m vs :
  (forall a b, f a b = a \/ f a b = b) -> (forall a b, R (f a b) a /\ R (f a b) b) ->
  (forall a, R a a) -> (forall a b c, R a b -> R b c -> R a c) ->
  foldl f m vs ∈ m :: vs /\ forall x, x ∈ m :: vs -> R (foldl f m vs) x.
Proof.
  intros Hf HR Hrefl Htrans. revert m. induction vs as [|w vs IH]; intros m; simpl.
  - split; [by left|]. by intros x ->%list_elem_of_singleton.
  - destruct (IH (f m w)) as [H1 H2]. destruct (HR m w) as [Hm Hw].
    assert (R (foldl f (f m w) vs) (f m w)) as H3 by (apply H2; by left).
    split.
    + apply elem_of_cons in H1 as [->|H1]; [|set_solver]. destruct (Hf m w) as [->| ->]; set_solver.
    + intros x [->|[->|Hx]%elem_of_cons]%elem_of_cons; [by eapply Htrans..|]. apply H2. by right.
Qed.

Lemma minmax_spec values : values <> [] -> exists z, minmax values = Some z /\ is_zone values z.
Proof.
  destruct values as [|v vs]; [done|]. intros _. eexists. split; [done|]. unfold is_zone. simpl.
  destruct (foldl_pick Z.min Z.le v vs) as [H1 H2]; [intros; lia..|].
  destruct (foldl_pick Z.max (fun a b => b <= a) v vs) as [H3 H4]; [intros; lia..|].
  split; [done|]. split; [done|]. intros x Hx. split; [by apply H2|by apply H4].
Qed.

(** Differences of 64-bit values are exact. *)
Lemma u64_difference v min : is_s 64 v -> is_s 64 min -> min <= v -> u64 (u64 v - u64 min) = v - min.
Proof.
  intros Hv Hm Hle. rewrite uwrap_sub_l, uwrap_sub_r. apply uwrap_id. unfold is_s, is_u in *. simpl in *. lia.
Qed.

Lemma is_u_gcd a b : is_u 64 a -> is_u 64 b -> is_u 64 (Z.gcd a b).
Proof.
  intros Ha Hb. pose proof (Z.gcd_nonneg a b). unfold is_u in *. destruct (decide (b = 0)) as [->|Hb0].
  - rewrite Z.gcd_0_r, Z.abs_eq by lia. lia.
  - assert (Z.gcd a b <= b); [|lia]. apply Z.divide_pos_le; [lia|apply Z.gcd_divide_r].
Qed.

Lemma gcdLoop_spec min values g :
  is_s 64 min -> is_u 64 g -> (forall v, v ∈ values -> is_s 64 v /\ min <= v) ->
  is_u 64 (gcdLoop min g values) /\ (gcdLoop min g values | g) /\
  forall v, v ∈ values -> (gcdLoop min g values | v - min).
Proof.
  intros Hm. revert g. induction values as [|v vs IH]; intros g Hg Hvs; simpl.
  - split; [done|]. split; [done|]. by intros v ?%not_elem_of_nil.
  - destruct (decide (g = 1)) as [->|Hg1]; [split; [done|]; split; [done|]; intros; apply Z.divide_1_l|].
    destruct (Hvs v) as [Hv Hle]; [by left|]. rewrite u64_difference by done.
    destruct (IH (Z.gcd g (v - min))) as (H1 & H2 & H3).
    { apply is_u_gcd; [done|]. unfold is_u, is_s in *. simpl in *. lia. }
    { intros w Hw. apply Hvs. by right. }
    split; [done|]. split; [etransitivity; [exact H2|apply Z.gcd_divide_l]|].
    intros w [->|Hw]%elem_of_cons; [etransitivity; [exact H2|apply Z.gcd_divide_r]|by apply H3].
Qed.

(** ** Leaves *)

Definition leaf (values : list Z) (k : Z) : list Z :=
  take (Z.to_nat LEAF_ZONE_SIZE) (drop (Z.to_nat (k * LEAF_ZONE_SIZE)) values).

Definition leaf_count (n : Z) : Z := (n + LEAF_ZONE_SIZE - 1) / LEAF_ZONE_SIZE.

Definition zones_of (values : list Z) (zs : list NumBlockZone) : Prop :=
  zlen zs = leaf_count (zlen values) /\ forall k z, zs.[k] = Some z -> is_zone (leaf values k) z.

Lemma leafLoop_spec fuel values k zs :
  zlen values <= BLOCK_SIZE -> 8 - k < Z.of_nat fuel -> 0 <= k <= leaf_count (zlen values) -> zlen zs = k ->
  (forall j z, zs.[j] = Some z -> is_zone (leaf values j) z) ->
  exists zs', leafLoop fuel values (k * LEAF_ZONE_SIZE) zs = Some zs' /\ zones_of values zs'.
Proof.
  revert k zs. induction fuel as [|fuel IH]; intros k zs Hlen Hfuel Hk Hzs Hz.
  { unfold leaf_count, BLOCK_SIZE, LEAF_ZONE_SIZE in *.
    assert ((zlen values + 512 - 1) / 512 < 9) by (apply Z.div_lt_upper_bound; lia). lia. }
  cbn [leafLoop]. pose proof (zlen_nonneg values).
  assert (leaf_count (zlen values) <= 8) as H8.
  { unfold leaf_count, BLOCK_SIZE, LEAF_ZONE_SIZE in *. apply Z.lt_succ_r, Z.div_lt_upper_bound; lia. }
  assert (k < leaf_count (zlen values) <-> k * LEAF_ZONE_SIZE < zlen values) as Hiff.
  { unfold leaf_count, LEAF_ZONE_SIZE. pose proof (Z.div_mod (zlen values + 512 - 1) 512).
    pose proof (Z.mod_pos_bound (zlen values + 512 - 1) 512). lia. }
  destruct (decide (k * LEAF_ZONE_SIZE < zlen values)) as [Hin|Hout].
  - set (n := Z.min (k * LEAF_ZONE_SIZE + LEAF_ZONE_SIZE) (zlen values) - k * LEAF_ZONE_SIZE).
    assert (0 < n <= LEAF_ZONE_SIZE) by (unfold n, LEAF_ZONE_SIZE in *; lia). cbv zeta.
    assert (slice values (k * LEAF_ZONE_SIZE) n = Some (leaf values k)) as ->.
    { unfold slice. rewrite decide_True by (unfold n, LEAF_ZONE_SIZE, zlen in *; lia). f_equal. unfold leaf.
      destruct (decide (n = LEAF_ZONE_SIZE)) as [->|Hn]; [done|].
      rewrite !take_ge; [done|rewrite length_drop; unfold n, LEAF_ZONE_SIZE, zlen in *; lia..]. }
    opt. destruct (minmax_spec (leaf values k)) as (z & E & Hzone).
    { intros Hnil. apply (f_equal length) in Hnil. unfold leaf in Hnil. rewrite length_take, length_drop in Hnil.
      change (length (@nil Z)) with 0%nat in Hnil. unfold LEAF_ZONE_SIZE, zlen in *. lia. }
    rewrite E. opt. rewrite decide_True by (unfold LEAVES_PER_BLOCK; change (BLOCK_SIZE / LEAF_ZONE_SIZE) with 8; lia).
    replace (k * LEAF_ZONE_SIZE + LEAF_ZONE_SIZE) with ((k + 1) * LEAF_ZONE_SIZE) by lia.
    apply IH; [done|lia|lia|zlen; simpl; lia|].
    intros j w [Hw|[-> ->]]%zget_snoc_inv; [by apply Hz|by rewrite Hzs].
  - exists zs. split; [done|]. split; [lia|done].
Qed.

(** ** Plans *)

(** The values of a packed block: the least value plus the divisor times the quotient, and
    the quotients on a line plus residuals of [pbits] bits. *)
Record packed_plan (values : list Z) (p : BlockPlan) (qs : list Z) : Prop := {
  packed_quotients : zlen qs = zlen values;
  packed_value : forall i v, values.[i] = Some v ->
    exists q, qs.[i] = Some q /\ 0 <= q < 2 ^ 57 /\ v = zmin (zone p) + gcd (info p) * q;
  packed_fits : fits (fit p) SLOPE_SHIFT qs;
  packed_bits : pbits p = LinearFit.bits (fit p);
  packed_slope : scaledSlope (info p) = LinearFit.scaledSlope (fit p);
  packed_base : baseBits (info p) = u64 (zmin (zone p) + gcd (info p) * LinearFit.intercept (fit p));
  packed_constant : scaledSlope (info p) = 0 -> LinearFit.intercept (fit p) = 0;
  packed_narrow : pbits p <= bit_width ((zmax (zone p) - zmin (zone p)) / gcd (info p)) }.

Record planned (values : list Z) (useGcd lz : bool) (p : BlockPlan) (qs : list Z) : Prop := {
  planned_zone : is_zone values (zone p);
  planned_leaves : if lz then zones_of values (leafZones p) else leafZones p = [];
  planned_count : count p = zlen values;
  planned_gcd : 0 < gcd (info p) < 2 ^ 64;
  planned_no_gcd : useGcd = false -> gcd (info p) = 1;
  planned_form : (pbits p = RAW_BITS /\ scaledSlope (info p) = 0 /\ is_u 64 (baseBits (info p)) /\
                  2 ^ 57 <= (zmax (zone p) - zmin (zone p)) / gcd (info p))
                 \/ packed_plan values p qs }.

Lemma zones_exist values lz : zlen values <= BLOCK_SIZE ->
  exists zs, (if lz : bool then leafLoop 9 values 0 [] else Some []) = Some zs /\
    if lz then zones_of values zs else zs = [].
Proof.
  intros Hlen. destruct lz; [|by exists []]. apply (leafLoop_spec 9 values 0 []); [done|lia| |done|].
  - pose proof (zlen_nonneg values). split; [lia|]. apply Z.div_pos; unfold LEAF_ZONE_SIZE; lia.
  - intros j z Hj. by rewrite zget_nil in Hj.
Qed.

(** A line without slope that fits values among which is zero is the axis. *)
Lemma flat_fit p shift qs : fits p shift qs -> LinearFit.scaledSlope p = 0 -> 0 ∈ qs -> LinearFit.intercept p = 0.
Proof.
  intros Hf Hs [j Hj]%zget_elem. destruct (fits_touches _ _ _ Hf) as [i Hi].
  pose proof (fits_value _ _ _ Hf _ _ Hi) as H1. pose proof (fits_residual _ _ _ Hf _ _ Hj) as H2.
  rewrite Hs, line_constant in *. unfold is_u in H2. lia.
Qed.

Lemma planBlock_spec values useGcd lz :
  values <> [] -> zlen values <= BLOCK_SIZE -> Forall (is_s 64) values ->
  exists p qs, planBlock values useGcd lz = Some (p, qs) /\ planned values useGcd lz p qs.
Proof.
  intros Hne Hlen Hvs. rewrite Forall_forall in Hvs. unfold planBlock. rewrite decide_True by done.
  destruct (minmax_spec values Hne) as (z & Ez & Hz). rewrite Ez. opt. cbv zeta.
  destruct Hz as (Hzmin & Hzmax & Hzone). pose proof (Hvs _ Hzmin) as Hmin. pose proof (Hvs _ Hzmax) as Hmax.
  pose proof (Hzone _ Hzmax) as Hle.
  set (g0 := if useGcd then _ else 0). set (g := if decide (g0 = 0) then 1 else g0).
  assert (is_u 64 g0 /\ forall v, v ∈ values -> (g0 | v - zmin z) \/ g0 = 0 /\ useGcd = false) as [Hg0 Hdiv0].
  { unfold g0. destruct useGcd; [|split; [done|by right]]. destruct (gcdLoop_spec (zmin z) values 0) as (H1 & H2 & H3).
    - done.
    - done.
    - intros v Hv. split; [by apply Hvs|by apply Hzone].
    - split; [done|]. intros v Hv. left. by apply H3. }
  assert (0 < g < 2 ^ 64 /\ (useGcd = false -> g = 1)) as [Hg Hg1].
  { unfold g, is_u in *. split; [case_decide; lia|]. intros ->. done. }
  assert (forall v, v ∈ values -> v = zmin z + g * ((v - zmin z) / g)) as Hdiv.
  { intros v Hv. assert (g | v - zmin z) as [k Hk]; [|rewrite Hk, Z.div_mul by lia; lia].
    unfold g. case_decide as E0; [apply Z.divide_1_l|]. destruct (Hdiv0 v Hv) as [|[]]; [done|lia]. }
  destruct (zones_exist values lz Hlen) as (zs & Ezs & Hzs). rewrite Ezs. opt.
  rewrite (u64_difference (zmax z) (zmin z)) by (done || lia).
  assert (0 <= (zmax z - zmin z) / g) by (apply Z.div_pos; lia).
  case_decide as Hwide.
  - eexists _, _. split; [done|]. constructor; simpl; [done|done|done|done|done|]. left.
    split; [done|]. split; [done|]. split; [done|]. rewrite <- Z.nlt_ge. intros Hlt.
    apply (bit_width_spec _ 57) in Hlt; unfold MAX_PACKED_BITS in Hwide; lia.
  - assert ((zmax z - zmin z) / g < 2 ^ 57) as Hnarrow.
    { apply bit_width_spec; unfold MAX_PACKED_BITS in *; lia. }
    set (f := fun v => (v - zmin z) / g). rewrite (mapM_total _ f).
    2: { intros v Hv. specialize (Hzone v Hv). rewrite u64_difference by (done || apply Hvs, Hv || lia). cbv zeta.
         rewrite decide_True; [done|]. apply Z.div_le_mono; lia. }
    opt. set (qs := f <$> values). set (top := (zmax z - zmin z) / g) in *.
    assert (0 ∈ qs) as Hzero.
    { apply list_elem_of_fmap. exists (zmin z). split; [|done]. unfold f. by rewrite Z.sub_diag. }
    assert (Forall (fun q => 0 <= q <= top) qs) as Hqs.
    { apply Forall_fmap, Forall_forall. intros v Hv. simpl. specialize (Hzone v Hv).
      split; [apply Z.div_pos|apply Z.div_le_mono]; lia. }
    destruct (constant_spec qs SLOPE_SHIFT top Hzero) as [Ec Hfc]; [by apply (list_elem_of_fmap_2 f _ (zmax z))|done..|].
    rewrite Ec. opt. destruct (planLinearFit_spec qs SLOPE_SHIFT) as (r & El & Hfl).
    { intros H0. rewrite H0 in Hzero. by apply not_elem_of_nil in Hzero. }
    { unfold qs. by rewrite zlen_fmap. }
    { done. }
    { eapply Forall_impl; [exact Hqs|]. simpl. lia. }
    rewrite El. opt. set (ft := match r with Some _ => _ | None => _ end).
    assert (fits ft SLOPE_SHIFT qs) as Hft by (unfold ft; destruct r; [case_decide|]; auto).
    assert (u64 (u64 (zmin z) + g * u64 (LinearFit.intercept ft)) = u64 (zmin z + g * LinearFit.intercept ft)) as Ebase.
    { rewrite uwrap_add_l, <- (uwrap_add_r 64 _ (g * _)), uwrap_mul_r, uwrap_add_r. done. }
    rewrite Ebase. rewrite decide_True.
    2: { destruct (decide (LinearFit.scaledSlope ft = 0)) as [E0|]; [right|by left]. simpl.
         rewrite (flat_fit _ _ _ Hft E0 Hzero), Z.mul_0_r, Z.add_0_r. done. }
    eexists _, _. split; [done|]. constructor; simpl; [done|done|done|done|done|]. right.
    constructor; simpl; [by unfold qs; rewrite zlen_fmap| |done|done|done|done| |].
    + intros i v Hv. exists (f v). pose proof (zget_elem_1 _ _ _ Hv) as Hin. specialize (Hzone v Hin).
      split; [unfold qs; by rewrite zget_fmap, Hv|]. split; [|by apply Hdiv].
      split; [apply Z.div_pos; lia|]. apply Z.le_lt_trans with top; [apply Z.div_le_mono; lia|done].
    + intros E0. by eapply flat_fit.
    + fold top. unfold ft, MIN_LINEAR_BITS_SAVED. clear. destruct r as [l|]; [|done]. cbn [LinearFit.bits].
      destruct (decide (bit_width top >= LinearFit.bits l + 1)); cbn [LinearFit.bits]; lia.
Qed.

(** * Encoded blocks *)

(** The part of the line that depends on the rank, without wrap-around. *)
Definition slope_at (b : NumBlockInfo.info) (i : Z) : Z := Z.shiftr (i * scaledSlope b) SLOPE_SHIFT.

(** What a descriptor of a packed block says of the values and their residuals: the line it
    encodes starts at [c], its low 64 bits are stored, and every value is the line at its
    rank plus the residual, scaled by the divisor. *)
Record encodes (b : NumBlockInfo.info) (values : list Z) (res : Z -> option Z) : Prop := {
  enc_bits : 0 <= bits b <= 57;
  enc_gcd : 0 < gcd b < 2 ^ 64;
  enc_slope : is_s 64 (scaledSlope b);
  enc_count : zlen values <= BLOCK_SIZE;
  enc_values : Forall (is_s 64) values;
  enc_terms : forall i v, values.[i] = Some v -> - 2 ^ 58 <= slope_at b i <= 2 ^ 58;
  enc_line : exists c, baseBits b = u64 c /\ (scaledSlope b = 0 -> is_s 64 c) /\
    forall i v, values.[i] = Some v ->
      exists r, res i = Some r /\ is_u (bits b) r /\ v = c + gcd b * (slope_at b i + r) }.

Lemma bits_setPayload off b i i' :
  0 <= off -> is_u 8 b -> setPayload off b i = Some i' ->
  bits i' = b /\ payloadOffset i' = off /\ baseBits i' = baseBits i /\ gcd i' = gcd i /\ scaledSlope i' = scaledSlope i.
Proof.
  unfold setPayload. intros Ho Hb. case_decide as Hle; [|done]. intros [= <-].
  assert (is_u 56 off) as Hoff by (unfold is_u; change OFFSET_MASK with (2 ^ 56 - 1) in Hle; lia).
  assert (is_u 64 (Z.shiftl b 56)) as Hsh.
  { unfold is_u in *. rewrite Z.shiftl_mul_pow2 by lia. lia. }
  unfold bits, payloadOffset. simpl. rewrite (uwrap_id 64) by done. rewrite lor_shiftl_add by (done || lia).
  split; [|split; [|done]].
  - rewrite Z.shiftr_div_pow2 by lia. replace (off + 2 ^ 56 * b) with (b * 2 ^ 56 + off) by lia.
    rewrite Z.div_add_l by lia. rewrite Z.div_small by (unfold is_u in Hoff; lia). rewrite Z.add_0_r. by apply uwrap_id.
  - unfold OFFSET_MASK. replace (Z.shiftl 1 56 - 1) with (Z.ones 56) by done. rewrite Z.land_ones by lia.
    rewrite (Z.mul_comm (2 ^ 56)), Z.mod_add by lia. by apply Z.mod_small.
Qed.

Definition block_residual (p : BlockPlan) (qs : list Z) (i : Z) : option Z := q ← qs.[i]; residual p i q.

Lemma plan_encodes values useGcd lz p qs off b :
  planned values useGcd lz p qs -> packed_plan values p qs -> Forall (is_s 64) values -> zlen values <= BLOCK_SIZE ->
  0 <= off -> setPayload off (pbits p) (info p) = Some b -> encodes b values (block_residual p qs).
Proof.
  intros Hp Hq Hvs Hlen Ho Hb. pose proof (packed_fits _ _ _ Hq) as Hf.
  pose proof (fits_bits _ _ _ Hf) as Hbits. rewrite <- (packed_bits _ _ _ Hq) in Hbits.
  destruct (bits_setPayload off (pbits p) (info p) b) as (E1 & _ & E2 & E3 & E4); [done|unfold is_u; lia|done|].
  assert (forall i v, values.[i] = Some v -> exists q, qs.[i] = Some q /\ 0 <= q < 2 ^ 57 /\
    v = zmin (zone p) + gcd (info p) * q /\ is_u (pbits p) (q - LinearFit.intercept (fit p) - slope_at b i) /\
    block_residual p qs i = Some (q - LinearFit.intercept (fit p) - slope_at b i)) as Hval.
  { intros i v Hv. destruct (packed_value _ _ _ Hq i v Hv) as (q & Eq & Hq57 & Ev). exists q.
    do 3 (split; [done|]). pose proof (fits_residual _ _ _ Hf i q Eq) as Hr. unfold line in Hr.
    assert (Z.shiftr (i * LinearFit.scaledSlope (fit p)) SLOPE_SHIFT = slope_at b i) as Es.
    { unfold slope_at. by rewrite E4, (packed_slope _ _ _ Hq). }
    rewrite Es in Hr. rewrite (packed_bits _ _ _ Hq). split.
    - by replace (q - LinearFit.intercept (fit p) - slope_at b i) with (q - (LinearFit.intercept (fit p) + slope_at b i)) by lia.
    - unfold block_residual. rewrite Eq. opt. unfold residual, raw.
      rewrite bool_decide_eq_false_2 by (unfold MAX_PACKED_BITS; lia).
      rewrite (residual_fits _ _ qs) by done. f_equal. unfold line. rewrite Es. lia. }
  assert (2 ^ pbits p <= 2 ^ 57) as Hpow by (apply Z.pow_le_mono_r; lia).
  assert (forall i v, values.[i] = Some v -> - 2 ^ 58 <= slope_at b i <= 2 ^ 58) as Hterm.
  { intros i v Hv. destruct (Hval i v Hv) as (q & _ & Hq57 & _ & Hr & _).
    pose proof (zget_Some_range _ _ _ Hv). destruct (zget_in values 0) as [v0 Hv0]; [lia|].
    destruct (Hval 0 v0 Hv0) as (q0 & _ & Hq0 & _ & Hr0 & _).
    assert (slope_at b 0 = 0) as E0 by (unfold slope_at; by rewrite Z.mul_0_l, Z.shiftr_0_l).
    unfold is_u in *. lia. }
  constructor.
  - lia.
  - rewrite E3. by apply (planned_gcd _ _ _ _ _ Hp).
  - rewrite E4, (packed_slope _ _ _ Hq). by apply (fits_slope _ _ _ Hf).
  - done.
  - done.
  - done.
  - exists (zmin (zone p) + gcd (info p) * LinearFit.intercept (fit p)). split; [|split].
    + by rewrite E2, (packed_base _ _ _ Hq).
    + rewrite E4. intros E0. rewrite (packed_constant _ _ _ Hq E0), Z.mul_0_r, Z.add_0_r.
      rewrite Forall_forall in Hvs. apply Hvs, (planned_zone _ _ _ _ _ Hp).
    + intros i v Hv. destruct (Hval i v Hv) as (q & _ & _ & Ev & Hr & Eres). eexists. split; [done|].
      rewrite E1, E3. split; [done|]. rewrite Ev. lia.
Qed.

(** * Ranges of residuals *)

Lemma ceil_spec d g r : 0 < g -> d / g + (if decide (d `mod` g <> 0) then 1 else 0) <= r <-> d <= g * r.
Proof.
  intros Hg. pose proof (Z.div_mod d g ltac:(lia)) as Hd. pose proof (Z.mod_pos_bound d g Hg) as Hm.
  revert Hd Hm. generalize (d / g), (d `mod` g). intros q m -> Hm. case_decide; (split; intros; [nia|]).
  - assert (q < r) by (apply (Z.mul_lt_mono_pos_l g); lia). lia.
  - apply (Z.mul_le_mono_pos_l _ _ g); lia.
Qed.

Lemma floor_spec d g r : 0 < g -> r <= d / g <-> g * r <= d.
Proof.
  intros Hg. pose proof (Z.div_mod d g ltac:(lia)) as Hd. pose proof (Z.mod_pos_bound d g Hg) as Hm.
  revert Hd Hm. generalize (d / g), (d `mod` g). intros q m -> Hm. split; intros; [nia|].
  apply Z.lt_succ_r, (Z.mul_lt_mono_pos_l g); lia.
Qed.

Lemma shiftl_1_minus n : 0 <= n -> Z.shiftl 1 n - 1 = 2 ^ n - 1.
Proof. intros. by rewrite Z.shiftl_1_l. Qed.

Lemma residualBounds_spec b values res lo hi :
  encodes b values res -> residualComparable b = true -> is_s 64 lo -> is_s 64 hi ->
  exists rb, residualBounds b lo hi = Some rb /\ is_u 32 (lower rb) /\ is_u 32 (upper rb) /\
    forall i v r, values.[i] = Some v -> res i = Some r -> (lo <= v <= hi <-> lower rb <= r <= upper rb).
Proof.
  intros He Hc Hlo Hhi. unfold residualBounds. pose proof (enc_gcd _ _ _ He) as Hg. rewrite decide_True by (split; [done|lia]).
  unfold residualComparable in Hc. apply andb_true_iff in Hc as [[_ H32%bool_decide_eq_true]%andb_true_iff Hs%bool_decide_eq_true].
  pose proof (enc_bits _ _ _ He) as Hb. destruct (enc_line _ _ _ He) as (c & Ec & Hcs & Hval). specialize (Hcs Hs).
  assert (forall i v r, values.[i] = Some v -> res i = Some r -> 0 <= r < 2 ^ bits b /\ v = c + gcd b * r) as Hv.
  { intros i v r Hi Hr. destruct (Hval i v Hi) as (r' & Er & Hru & ->). rewrite Hr in Er. injection Er as <-.
    split; [done|]. unfold slope_at. rewrite Hs, Z.mul_0_r, Z.shiftr_0_l. lia. }
  clear Hval. assert (1 <= 2 ^ bits b <= 2 ^ 32) as Hpow.
  { pose proof (pow2_pos (bits b)). assert (2 ^ bits b <= 2 ^ 32) by (apply Z.pow_le_mono_r; lia). lia. }
  assert (s64 (baseBits b) = c) as -> by (by rewrite Ec, swrap_uwrap, swrap_id by (done || lia)). cbv zeta.
  assert (exists rb, Some empty = Some rb /\ is_u 32 (lower rb) /\ is_u 32 (upper rb) /\ forall r, ~ (lower rb <= r <= upper rb))
    as (rb & Erb & Hu1 & Hu2 & Hempty) by (exists empty; split; [done|]; split; [|split]; [unfold is_u; simpl; lia..|intros r; simpl; lia]).
  case_decide as Hout.
  { exists rb. do 3 (split; [done|]). intros i v r Hi Hr. destruct (Hv i v r Hi Hr) as [Hr0 ->]. specialize (Hempty r). nia. }
  rewrite (u64_difference hi c), shiftl_1_minus by (done || lia).
  set (low := if decide (lo > c) then _ else 0).
  assert (forall r, 0 <= r -> low <= r <-> lo - c <= gcd b * r) as Hlow.
  { intros r Hr. unfold low. case_decide as Hlc; [|nia]. rewrite u64_difference by (done || lia).
    rewrite uwrap_id; [apply ceil_spec; lia|].
    pose proof (Z.div_mod (lo - c) (gcd b)). pose proof (Z.mod_pos_bound (lo - c) (gcd b)).
    unfold is_u, is_s in *. change (64 - 1) with 63 in *. case_decide; nia. }
  set (up := Z.min _ _).
  assert (forall r, r < 2 ^ bits b -> r <= up <-> gcd b * r <= hi - c) as Hup.
  { intros r Hr. unfold up. rewrite <- floor_spec by lia. lia. }
  assert (0 <= low) as Hl0 by (unfold low; case_decide; [apply uwrap_range|]; lia).
  assert (up <= 2 ^ 32 - 1) as Hu by (unfold up; lia).
  case_decide as Hcross.
  - exists rb. do 3 (split; [done|]). intros i v r Hi Hr. destruct (Hv i v r Hi Hr) as [Hr0 ->].
    specialize (Hempty r). specialize (Hlow r). specialize (Hup r). lia.
  - eexists. split; [done|]. cbn [lower upper]. rewrite !uwrap_id by (unfold is_u; lia).
    split; [unfold is_u; lia|]. split; [unfold is_u; lia|].
    intros i v r Hi Hr. destruct (Hv i v r Hi Hr) as [Hr0 ->]. specialize (Hlow r). specialize (Hup r). lia.
Qed.

(** * Ranges of ranks *)

Lemma partition_spec fuel pred (P : Z -> bool) n first last :
  (forall r, 0 <= r < n -> pred r = Some (P r)) ->
  (forall r s, 0 <= s <= r -> r < n -> P r = true -> P s = true) ->
  0 <= first <= last -> last <= n -> last - first < 2 ^ (Z.of_nat fuel - 1) ->
  (forall r, 0 <= r < first -> P r = true) -> (forall r, last <= r < n -> P r = false) ->
  exists k, partition fuel pred first last = Some k /\ 0 <= k <= n /\ forall r, 0 <= r < n -> P r = bool_decide (r < k).
Proof.
  intros Hpred Hmono. revert first last. induction fuel as [|fuel IH]; intros first last Hf Hl Hfuel Ht Hff.
  { change (Z.of_nat 0 - 1) with (-1) in Hfuel. rewrite Z.pow_neg_r in Hfuel by lia. lia. }
  cbn [partition]. destruct (decide (first < last)) as [Hlt|Hge].
  - cbv zeta. set (mid := first + (last - first) / 2).
    assert (first <= mid < last) as Hmid.
    { unfold mid. pose proof (Z.div_pos (last - first) 2). pose proof (Z.div_lt (last - first) 2). lia. }
    rewrite Hpred by lia. opt.
    assert (2 * 2 ^ (Z.of_nat fuel - 1) >= 2 ^ Z.of_nat fuel \/ fuel = 0%nat) as Hp.
    { destruct fuel; [by right|left]. rewrite <- Z.pow_succ_r by lia. replace (Z.succ _) with (Z.of_nat (S fuel)) by lia. lia. }
    replace (Z.of_nat (S fuel) - 1) with (Z.of_nat fuel) in Hfuel by lia.
    assert (2 * ((last - first) / 2) <= last - first <= 2 * ((last - first) / 2) + 1) as Hhalf.
    { pose proof (Z.div_mod (last - first) 2). pose proof (Z.mod_pos_bound (last - first) 2). lia. }
    destruct Hp as [Hp| ->]; [|simpl in Hfuel; lia].
    destruct (P mid) eqn:EP.
    + apply IH; [lia|lia|unfold mid; lia| |done]. intros r Hr. by apply (Hmono mid r); [lia|lia|].
    + apply IH; [lia|lia|unfold mid; lia|done|]. intros r Hr. apply not_true_iff_false. intros E.
      apply (Hmono r mid) in E; [by rewrite EP in E|lia|lia].
  - exists first. split; [done|]. split; [lia|]. intros r Hr. destruct (decide (r < first)).
    + rewrite Ht by lia. by rewrite bool_decide_eq_true_2.
    + rewrite Hff by lia. by rewrite bool_decide_eq_false_2.
Qed.

Lemma slopeTerm_at b i : 0 <= i < 2 ^ 63 -> - 2 ^ 58 <= slope_at b i <= 2 ^ 58 -> slopeTerm i (scaledSlope b) = slope_at b i.
Proof.
  intros Hi Hs. unfold slopeTerm. rewrite (swrap_id 64 i) by (unfold is_s; simpl; lia).
  rewrite swrap_id; [done|lia|unfold is_s, slope_at in *; simpl in *; lia].
Qed.

Lemma slope_at_mono b i j : 0 <= scaledSlope b -> i <= j -> slope_at b i <= slope_at b j.
Proof. intros. unfold slope_at. rewrite !Z.shiftr_div_pow2 by done. apply Z.div_le_mono; [done|nia]. Qed.

Lemma slope_at_anti b i j : scaledSlope b <= 0 -> i <= j -> slope_at b j <= slope_at b i.
Proof. intros. unfold slope_at. rewrite !Z.shiftr_div_pow2 by done. apply Z.div_le_mono; [done|nia]. Qed.

Lemma search_spec (f : Z -> option Z) (g : Z -> Z) (P : Z -> bool) n :
  0 <= n <= BLOCK_SIZE -> (forall r, 0 <= r < n -> f r = Some (g r)) ->
  (forall r s, 0 <= s <= r -> r < n -> P (g r) = true -> P (g s) = true) ->
  exists k, partition 14 (fun r => x ← f r; Some (P x)) 0 n = Some k /\ 0 <= k <= n /\
    forall r, 0 <= r < n -> (P (g r) = true <-> r < k).
Proof.
  intros Hn Hf Hm. destruct (partition_spec 14 (fun r => x ← f r; Some (P x)) (fun r => P (g r)) n 0 n) as (k & E & Hk & Hr).
  - intros r Hr. by rewrite Hf.
  - done.
  - lia.
  - lia.
  - unfold BLOCK_SIZE in Hn. change (2 ^ (Z.of_nat 14 - 1)) with 8192. lia.
  - lia.
  - lia.
  - exists k. split; [done|]. split; [done|]. intros r Hin. rewrite Hr by done. apply bool_decide_eq_true.
Qed.

(** Bounds that are right for every value between a line and the line raised by [spread]. *)
Definition bounds_ok (L : Z -> Z) (spread n lo hi : Z) (rb : RankBounds) : Prop :=
  0 <= checkBegin rb <= n /\ 0 <= checkEnd rb <= n /\ 0 <= insideBegin rb <= n /\ 0 <= insideEnd rb <= n /\
  forall r v, 0 <= r < n -> L r <= v <= L r + spread ->
    (lo <= v <= hi -> checkBegin rb <= r < checkEnd rb) /\ (insideBegin rb <= r < insideEnd rb -> lo <= v <= hi).

(** The four searches, on a rising and on a falling line. *)
Lemma searches_spec (fl fu : Z -> option Z) (L : Z -> Z) spread n lo hi slope :
  0 <= n <= BLOCK_SIZE -> 0 <= spread ->
  (forall r, 0 <= r < n -> fl r = Some (L r)) -> (forall r, 0 <= r < n -> fu r = Some (L r + spread)) ->
  (forall r s, 0 <= s <= r -> r < n -> if decide (slope > 0) then L s <= L r else L r <= L s) ->
  let at_ := fun (f : Z -> option Z) (P : Z -> bool) => partition 14 (fun r => x ← f r; Some (P x)) 0 n in
  exists rb,
    (if decide (slope > 0) then
       cb ← at_ fu (fun x => bool_decide (x < lo));
       ce ← at_ fl (fun x => bool_decide (x <= hi));
       ib ← at_ fl (fun x => bool_decide (x < lo));
       ie ← at_ fu (fun x => bool_decide (x <= hi));
       Some (Ranks cb ce ib ie)
     else
       cb ← at_ fl (fun x => bool_decide (x > hi));
       ce ← at_ fu (fun x => bool_decide (x >= lo));
       ib ← at_ fu (fun x => bool_decide (x > hi));
       ie ← at_ fl (fun x => bool_decide (x >= lo));
       Some (Ranks cb ce ib ie)) = Some rb /\ bounds_ok L spread n lo hi rb.
Proof.
  intros Hn Hsp Hl Hu Hmono. cbv zeta. destruct (decide (slope > 0)) as [Hup|Hdown].
  - destruct (search_spec fu (fun r => L r + spread) (fun x => bool_decide (x < lo)) n) as (cb & E1 & H1 & R1); [done..| |].
    { intros r s Hs Hr. rewrite !bool_decide_eq_true. specialize (Hmono r s Hs Hr). lia. }
    destruct (search_spec fl L (fun x => bool_decide (x <= hi)) n) as (ce & E2 & H2 & R2); [done..| |].
    { intros r s Hs Hr. rewrite !bool_decide_eq_true. specialize (Hmono r s Hs Hr). lia. }
    destruct (search_spec fl L (fun x => bool_decide (x < lo)) n) as (ib & E3 & H3 & R3); [done..| |].
    { intros r s Hs Hr. rewrite !bool_decide_eq_true. specialize (Hmono r s Hs Hr). lia. }
    destruct (search_spec fu (fun r => L r + spread) (fun x => bool_decide (x <= hi)) n) as (ie & E4 & H4 & R4); [done..| |].
    { intros r s Hs Hr. rewrite !bool_decide_eq_true. specialize (Hmono r s Hs Hr). lia. }
    rewrite E1, E2, E3, E4. eexists. split; [done|]. unfold bounds_ok. simpl. do 4 (split; [done|]). intros r v Hr Hv.
    specialize (R1 r Hr). specialize (R2 r Hr). specialize (R3 r Hr). specialize (R4 r Hr).
    rewrite !bool_decide_eq_true in *. lia.
  - destruct (search_spec fl L (fun x => bool_decide (x > hi)) n) as (cb & E1 & H1 & R1); [done..| |].
    { intros r s Hs Hr. rewrite !bool_decide_eq_true. specialize (Hmono r s Hs Hr). lia. }
    destruct (search_spec fu (fun r => L r + spread) (fun x => bool_decide (x >= lo)) n) as (ce & E2 & H2 & R2); [done..| |].
    { intros r s Hs Hr. rewrite !bool_decide_eq_true. specialize (Hmono r s Hs Hr). lia. }
    destruct (search_spec fu (fun r => L r + spread) (fun x => bool_decide (x > hi)) n) as (ib & E3 & H3 & R3); [done..| |].
    { intros r s Hs Hr. rewrite !bool_decide_eq_true. specialize (Hmono r s Hs Hr). lia. }
    destruct (search_spec fl L (fun x => bool_decide (x >= lo)) n) as (ie & E4 & H4 & R4); [done..| |].
    { intros r s Hs Hr. rewrite !bool_decide_eq_true. specialize (Hmono r s Hs Hr). lia. }
    rewrite E1, E2, E3, E4. eexists. split; [done|]. unfold bounds_ok. simpl. do 4 (split; [done|]). intros r v Hr Hv.
    specialize (R1 r Hr). specialize (R2 r Hr). specialize (R3 r Hr). specialize (R4 r Hr).
    rewrite !bool_decide_eq_true in *. lia.
Qed.

(** What a bound computed for a block says of its values. *)
Definition sound_bounds (values : list Z) (lo hi : Z) (rb : RankBounds) : Prop :=
  0 <= checkBegin rb <= insideBegin rb /\ insideBegin rb <= insideEnd rb <= checkEnd rb /\
  checkEnd rb <= zlen values /\
  forall i v, values.[i] = Some v ->
    (lo <= v <= hi -> checkBegin rb <= i < checkEnd rb) /\ (insideBegin rb <= i < insideEnd rb -> lo <= v <= hi).

Lemma linearRankBounds_spec b values res v0 lo hi :
  encodes b values res -> linearFit b = true -> values.[0] = Some v0 ->
  exists o, linearRankBounds b v0 (zlen values) lo hi = Some o /\
    (gcd b * (2 ^ bits b - 1) < 2 ^ 64 -> o <> None) /\ (forall rb, o = Some rb -> sound_bounds values lo hi rb).
Proof.
  intros He Hl Hv0. pose proof (zget_Some_range _ _ _ Hv0) as Hn. pose proof (enc_count _ _ _ He) as Hcount.
  pose proof (enc_bits _ _ _ He) as Hb. pose proof (enc_gcd _ _ _ He) as Hg.
  assert (1 <= 2 ^ bits b <= 2 ^ 57) as Hpow.
  { pose proof (pow2_pos (bits b)). assert (2 ^ bits b <= 2 ^ 57) by (apply Z.pow_le_mono_r; lia). lia. }
  unfold linearRankBounds. rewrite decide_True, Hl by lia. destruct (decide (hi < lo)) as [Hempty|Hnonempty].
  { eexists. split; [done|]. split; [done|]. intros rb [= <-]. unfold sound_bounds. simpl.
    do 3 (split; [lia|]). intros i v Hv. lia. }
  cbv zeta. rewrite decide_True, shiftl_1_minus by lia. set (spread := gcd b * (2 ^ bits b - 1)).
  assert (0 <= spread < 2 ^ 121) as Hspread by (unfold spread; nia).
  rewrite i128_id by (unfold is_s; simpl; lia). opt.
  destruct (decide (spread > 2 ^ 64 - 1)) as [Hwide|Hnarrow].
  { eexists. split; [done|]. split; [lia|done]. }
  destruct (enc_line _ _ _ He) as (c & Ec & _ & Hval).
  assert (slope_at b 0 = 0) as Es0 by (unfold slope_at; by rewrite Z.mul_0_l, Z.shiftr_0_l).
  destruct (Hval 0 v0 Hv0) as (r0 & _ & Hr0 & Ev0). rewrite Es0, Z.add_0_l in Ev0. unfold is_u in Hr0.
  assert (0 <= gcd b * r0 <= spread) as Hr0s by (unfold spread; nia).
  assert (u64 (u64 v0 - baseBits b) = gcd b * r0) as ->.
  { rewrite Ec, uwrap_sub_l, uwrap_sub_r. replace (v0 - c) with (gcd b * r0) by lia. apply uwrap_id. unfold is_u. lia. }
  rewrite decide_True by (rewrite Z.mul_comm; apply Z.mod_mul; lia).
  replace (v0 - gcd b * r0) with c by lia.
  assert (is_s 64 v0) as Hv064 by (pose proof (enc_values _ _ _ He) as H; rewrite Forall_forall in H; by eapply H, zget_elem_1).
  set (L := fun r => c + gcd b * slope_at b r).
  assert (forall r, 0 <= r < zlen values -> - 2 ^ 124 <= L r <= 2 ^ 124 /\
    (p ← LinearFit.i128 (gcd b * slopeTerm r (scaledSlope b)); LinearFit.i128 (c + p)) = Some (L r)) as HL.
  { intros r Hr. destruct (zget_in values r Hr) as [v Hv]. pose proof (enc_terms _ _ _ He r v Hv) as Ht.
    rewrite slopeTerm_at by (unfold BLOCK_SIZE in *; lia). unfold is_s in Hv064. change (64 - 1) with 63 in *.
    assert (- 2 ^ 122 <= gcd b * slope_at b r <= 2 ^ 122) by nia.
    rewrite i128_id by (unfold is_s; simpl; lia). opt. rewrite i128_id by (unfold is_s; simpl; lia). unfold L.
    split; [lia|done]. }
  destruct (searches_spec (fun r => p ← LinearFit.i128 (gcd b * slopeTerm r (scaledSlope b)); LinearFit.i128 (c + p))
    (fun r => l ← (p ← LinearFit.i128 (gcd b * slopeTerm r (scaledSlope b)); LinearFit.i128 (c + p)); LinearFit.i128 (l + spread))
    L spread (zlen values) lo hi (scaledSlope b)) as (rb & E & Hrb).
  - lia.
  - lia.
  - intros r Hr. by apply HL.
  - intros r Hr. destruct (HL r Hr) as [Hr2 ->]. opt. apply i128_id. unfold is_s. simpl. lia.
  - intros r s Hs Hr. unfold L. case_decide as Hd.
    + pose proof (slope_at_mono b s r). nia.
    + pose proof (slope_at_anti b s r). nia.
  - rewrite E. opt. eexists. split; [done|]. split; [done|]. intros rb' [= <-].
    destruct Hrb as (H1 & H2 & H3 & H4 & Hrb). unfold sound_bounds. cbn [checkBegin checkEnd insideBegin insideEnd].
    unfold clamp. split; [repeat case_decide; lia|]. split; [repeat case_decide; lia|]. split; [repeat case_decide; lia|].
    intros i v Hv. destruct (Hrb i v) as [Ha Hb'].
    + by apply zget_Some_range in Hv.
    + unfold L. destruct (Hval i v Hv) as (r & _ & Hr & ->). unfold is_u in Hr. unfold spread. nia.
    + split; [intros Hin; specialize (Ha Hin); lia|]. intros Hin. apply Hb'. repeat case_decide; lia.
Qed.

Lemma raw_descriptor off b i i' :
  0 <= off -> setPayload off RAW_BITS i = Some i' -> b = bits i' -> linearFit i' = false /\ residualComparable i' = false.
Proof.
  intros Ho Hs ->. destruct (bits_setPayload off RAW_BITS i i') as (E & _); [done|done|done|].
  unfold linearFit, residualComparable, forPacked. by rewrite E.
Qed.

(** A planned block that can be searched by residual or by rank is packed. *)
Lemma searchable_encodes values useGcd lz p qs off b :
  values <> [] -> zlen values <= BLOCK_SIZE -> Forall (is_s 64) values -> planBlock values useGcd lz = Some (p, qs) ->
  0 <= off -> setPayload off (pbits p) (info p) = Some b -> linearFit b = true \/ residualComparable b = true ->
  encodes b values (block_residual p qs).
Proof.
  intros Hne Hlen Hvs E Ho Hb Hs. destruct (planBlock_spec values useGcd lz Hne Hlen Hvs) as (p' & qs' & E' & Hp).
  rewrite E in E'. injection E' as <- <-. destruct (planned_form _ _ _ _ _ Hp) as [(Hraw & _)|Hq].
  - rewrite Hraw in Hb. destruct (raw_descriptor off (bits b) (info p) b Ho Hb eq_refl) as [H1 H2].
    rewrite H1, H2 in Hs. by destruct Hs.
  - by eapply plan_encodes.
Qed.

End planning.

(** C22: planning.  Every nonempty block of at most 4096 64-bit values gets a plan: the zone
    and the zones of the leaves are the exact extrema, the width is 64 only when the
    quotients of the values need more than 57 bits and is otherwise no wider than without a
    slope, and each value is recovered, in 64-bit arithmetic, from the base, the divisor,
    the slope at its rank and the residual that is packed for it. *)
Theorem block_plan_correct (values : list Z) (useGcd lz : bool)
    (Hne : values <> []) (Hlen : zlen values <= NumColumnFormat.BLOCK_SIZE) (Hvs : Forall (is_s 64) values) :
  exists p qs, NumColumnFormat.planBlock values useGcd lz = Some (p, qs) /\
    let i := NumColumnFormat.info p in
    let z := NumColumnFormat.zone p in
    let width := bit_width ((zmax z - zmin z) / NumBlockInfo.gcd i) in
    is_zone values z /\ (lz = true -> zones_of values (NumColumnFormat.leafZones p)) /\
    (useGcd = false -> NumBlockInfo.gcd i = 1) /\
    (NumColumnFormat.raw p = true -> NumColumnFormat.pbits p = 64 /\ 57 < width) /\
    (NumColumnFormat.raw p = false -> NumColumnFormat.pbits p <= width /\
       forall k v, values.[k] = Some v -> exists r, block_residual p qs k = Some r /\
         is_u (NumColumnFormat.pbits p) r /\
         v = s64 (NumBlockInfo.baseBits i + NumBlockInfo.gcd i *
                  (NumColumnFormat.slopeTerm k (NumBlockInfo.scaledSlope i) + r))).
Proof.
  destruct (planBlock_spec values useGcd lz Hne Hlen Hvs) as (p & qs & E & Hp). exists p, qs. split; [done|]. cbv zeta.
  split; [apply (planned_zone _ _ _ _ _ Hp)|]. split.
  { intros ->. apply (planned_leaves _ _ _ _ _ Hp). }
  split; [apply (planned_no_gcd _ _ _ _ _ Hp)|].
  destruct (planned_form _ _ _ _ _ Hp) as [(Hb & _ & _ & Hw)|Hq]; unfold NumColumnFormat.raw, NumBlockInfo.MAX_PACKED_BITS.
  - rewrite Hb. split; [|done]. intros _. split; [done|].
    apply Z.nle_gt. rewrite bit_width_spec; [lia| |lia]. etransitivity; [|exact Hw]. lia.
  - pose proof (fits_bits _ _ _ (packed_fits _ _ _ Hq)) as Hb. rewrite <- (packed_bits _ _ _ Hq) in Hb.
    rewrite bool_decide_eq_false_2 by lia. split; [done|]. intros _. split; [apply (packed_narrow _ _ _ Hq)|].
    destruct (NumBlockInfo.setPayload 0 (NumColumnFormat.pbits p) (NumColumnFormat.info p)) as [b|] eqn:Eb; [|done].
    pose proof (plan_encodes _ _ _ _ _ 0 b Hp Hq Hvs Hlen ltac:(lia) Eb) as He.
    destruct (bits_setPayload 0 (NumColumnFormat.pbits p) (NumColumnFormat.info p) b) as (E1 & _ & E2 & E3 & E4);
      [lia|unfold is_u; lia|done|].
    rewrite <- E2, <- E3, <- E4, <- E1. destruct (enc_line _ _ _ He) as (c & Ec & _ & Hval).
    intros k v Hv. destruct (Hval k v Hv) as (r & Er & Hr & Ev). exists r. split; [done|]. split; [done|].
    pose proof (zget_Some_range _ _ _ Hv). unfold NumColumnFormat.BLOCK_SIZE in Hlen.
    rewrite slopeTerm_at; [|lia|by apply (enc_terms _ _ _ He k v)].
    rewrite Ec, <- swrap_uwrap, uwrap_add_l, swrap_uwrap, <- Ev by lia.
    rewrite swrap_id; [done|lia|]. rewrite Forall_forall in Hvs. by eapply Hvs, zget_elem_1.
Qed.

Lemma block_plan_correct_witness :
  exists p qs, NumColumnFormat.planBlock [100; 207; 300; 400; 500; 607] true true = Some (p, qs) /\
    NumColumnFormat.pbits p <= 9.
Proof.
  destruct (block_plan_correct [100; 207; 300; 400; 500; 607] true true) as (p & qs & E & Hz & _ & _ & Hr & Hp).
  - done.
  - by vm_compute.
  - apply (bool_decide_unpack _). by vm_compute.
  - exists p, qs. split; [exact E|]. vm_compute in E. injection E as <- _. by vm_compute.
Defined.

(** C32: searching packed residuals.  For a block without a slope and of at most 32 bits,
    the translated interval selects exactly the residuals of the values in the range,
    for every 64-bit range, empty and unbounded ones included. *)
Theorem residual_range_exact (values : list Z) (useGcd lz : bool) (p : NumColumnFormat.BlockPlan) (qs : list Z)
    (off : Z) (b : NumBlockInfo.info) (lo hi : Z)
    (Hne : values <> []) (Hlen : zlen values <= NumColumnFormat.BLOCK_SIZE) (Hvs : Forall (is_s 64) values)
    (Hplan : NumColumnFormat.planBlock values useGcd lz = Some (p, qs)) (Hoff : 0 <= off)
    (Hset : NumBlockInfo.setPayload off (NumColumnFormat.pbits p) (NumColumnFormat.info p) = Some b)
    (Hcmp : NumBlockInfo.residualComparable b = true) (Hlo : is_s 64 lo) (Hhi : is_s 64 hi) :
  exists rb, NumColumnFormat.residualBounds b lo hi = Some rb /\
    is_u 32 (NumColumnFormat.lower rb) /\ is_u 32 (NumColumnFormat.upper rb) /\
    forall i v, values.[i] = Some v -> exists r, block_residual p qs i = Some r /\
      (lo <= v <= hi <-> NumColumnFormat.lower rb <= r <= NumColumnFormat.upper rb).
Proof.
  pose proof (searchable_encodes values useGcd lz p qs off b Hne Hlen Hvs Hplan Hoff Hset (or_intror Hcmp)) as He.
  destruct (residualBounds_spec b values _ lo hi He Hcmp Hlo Hhi) as (rb & E & H1 & H2 & H3).
  exists rb. do 3 (split; [done|]). intros i v Hv. destruct (enc_line _ _ _ He) as (c & _ & _ & Hval).
  destruct (Hval i v Hv) as (r & Er & _). exists r. split; [done|]. by apply (H3 i).
Qed.

Lemma residual_range_exact_witness :
  exists p qs b rb, NumColumnFormat.planBlock [-50; 70; 10; -20; 40] true false = Some (p, qs) /\
    NumBlockInfo.setPayload 77 (NumColumnFormat.pbits p) (NumColumnFormat.info p) = Some b /\
    NumColumnFormat.residualBounds b (-25) 45 = Some rb /\ rb = NumColumnFormat.Residuals 1 3.
Proof.
  destruct (NumColumnFormat.planBlock [-50; 70; 10; -20; 40] true false) as [[p qs]|] eqn:E; [|by vm_compute in E].
  destruct (NumBlockInfo.setPayload 77 (NumColumnFormat.pbits p) (NumColumnFormat.info p)) as [b|] eqn:Eb.
  - destruct (residual_range_exact [-50; 70; 10; -20; 40] true false p qs 77 b (-25) 45) as (rb & Erb & _).
    + done.
    + by vm_compute.
    + apply (bool_decide_unpack _). by vm_compute.
    + exact E.
    + lia.
    + exact Eb.
    + vm_compute in E. injection E as <- <-. vm_compute in Eb. injection Eb as <-. by vm_compute.
    + by apply (bool_decide_unpack _).
    + by apply (bool_decide_unpack _).
    + exists p, qs, b, rb. do 3 (split; [done|]).
      vm_compute in E. injection E as <- <-. vm_compute in Eb. injection Eb as <-. vm_compute in Erb. by injection Erb as <-.
  - vm_compute in E. injection E as <- <-. by vm_compute in Eb.
Defined.

(** C31: searching ranks.  For a block with a slope, the bounds computed from its first
    value, when the spread of the residuals fits 64 bits, are ordered ranks of the block
    outside which no value is in the range and inside which every value is; the 128-bit
    arithmetic does not overflow. *)
Theorem rank_bounds_sound (values : list Z) (useGcd lz : bool) (p : NumColumnFormat.BlockPlan) (qs : list Z)
    (off : Z) (b : NumBlockInfo.info) (v0 lo hi : Z)
    (Hne : values <> []) (Hlen : zlen values <= NumColumnFormat.BLOCK_SIZE) (Hvs : Forall (is_s 64) values)
    (Hplan : NumColumnFormat.planBlock values useGcd lz = Some (p, qs)) (Hoff : 0 <= off)
    (Hset : NumBlockInfo.setPayload off (NumColumnFormat.pbits p) (NumColumnFormat.info p) = Some b)
    (Hlin : NumBlockInfo.linearFit b = true) (Hv0 : values.[0] = Some v0) :
  exists o, NumColumnFormat.linearRankBounds b v0 (zlen values) lo hi = Some o /\
    (NumBlockInfo.gcd b * (2 ^ NumBlockInfo.bits b - 1) < 2 ^ 64 -> o <> None) /\
    forall rb, o = Some rb -> sound_bounds values lo hi rb.
Proof.
  pose proof (searchable_encodes values useGcd lz p qs off b Hne Hlen Hvs Hplan Hoff Hset (or_introl Hlin)) as He.
  exact (linearRankBounds_spec b values _ v0 lo hi He Hlin Hv0).
Qed.

Lemma rank_bounds_sound_witness :
  exists p qs b rb, NumColumnFormat.planBlock [100; 207; 300; 400; 500; 607] false false = Some (p, qs) /\
    NumBlockInfo.setPayload 0 (NumColumnFormat.pbits p) (NumColumnFormat.info p) = Some b /\
    NumColumnFormat.linearRankBounds b 100 6 205 500 = Some (Some rb) /\
    sound_bounds [100; 207; 300; 400; 500; 607] 205 500 rb.
Proof.
  destruct (NumColumnFormat.planBlock [100; 207; 300; 400; 500; 607] false false) as [[p qs]|] eqn:E; [|by vm_compute in E].
  destruct (NumBlockInfo.setPayload 0 (NumColumnFormat.pbits p) (NumColumnFormat.info p)) as [b|] eqn:Eb.
  - destruct (rank_bounds_sound [100; 207; 300; 400; 500; 607] false false p qs 0 b 100 205 500) as ([rb|] & Erb & Hsome & Hrb).
    + done.
    + by vm_compute.
    + apply (bool_decide_unpack _). by vm_compute.
    + exact E.
    + lia.
    + exact Eb.
    + vm_compute in E. injection E as <- <-. vm_compute in Eb. injection Eb as <-. by vm_compute.
    + done.
    + exists p, qs, b, rb. do 3 (split; [done|]). by apply Hrb.
    + vm_compute in E. injection E as <- <-. vm_compute in Eb. injection Eb as <-. by vm_compute in Erb.
  - vm_compute in E. injection E as <- <-. by vm_compute in Eb.
Defined.
