(* ===== verification/ValueSketcher.v ===== *)
(** The value sketch of [luxir/codec/NumColumnFormat.h]: the ranks a tail keeps, [TailBuffer] and [ValueSketcher].

    A sketch is points (rank, value) of a column's values in sorted order.  The arithmetic on doubles is that of the
    standard library's binary64 specification; a conversion to an integer that does not hold the value is undefined.
    [std::nth_element] may leave its range in several orders: the model sorts it, and by [nth_element_any] every order it may
    leave gives the same threshold and the same candidates, whose order nothing depends on. *)

From Stdlib Require Import Floats.SpecFloat.
From S2P Require Import Prelude Search.

(** * Doubles *)

Module Binary64.

Definition of_int (z : Z) : spec_float := binary_normalize 53 1024 z 0 false.
Definition half : spec_float := S754_finite false 4503599627370496 (-53).
Definition add : spec_float -> spec_float -> spec_float := SFadd 53 1024.
Definition mul : spec_float -> spec_float -> spec_float := SFmul 53 1024.
Definition div : spec_float -> spec_float -> spec_float := SFdiv 53 1024.

(** [(int64_t)x]: towards zero. *)
Definition to_int64 (x : spec_float) : option Z :=
  match x with
  | S754_zero _ => Some 0
  | S754_finite s m e =>
      let a := if decide (0 <= e) then Z.pos m * 2 ^ e else Z.pos m / 2 ^ (- e) in
      i64 (if s then - a else a)
  | _ => None
  end.

End Binary64.

(** * Tails *)

Module TailBuffer.

Record buffer := Buffer { candidates : list Z; depth : Z; threshold : Z; trimmed : bool }.

Definition make (depth : Z) : buffer := Buffer [] depth 0 false.

Section before.
Context (before : Z -> Z -> bool).

(** [a] need not come after [b]. *)
Definition order (a b : Z) : Prop := before b a = false.

#[global] Instance order_dec a b : Decision (order a b).
Proof. unfold order. apply _. Defined.

Definition sort (l : list Z) : list Z := merge_sort order l.

(** The element at [n] is the one it is when the range is sorted, with none after it that comes before. *)
Definition nth_element (n : Z) (l : list Z) : option (list Z) := if decide (0 <= n <= zlen l) then Some (sort l) else None.

Definition resize (n : Z) (l : list Z) : list Z := take (Z.to_nat n) l ++ replicate (Z.to_nat (n - zlen l)) 0.

Definition trim (b : buffer) : option buffer :=
  l ← nth_element (depth b - 1) (candidates b);
  let l := resize (depth b) l in
  back ← last l;
  Some (Buffer l (depth b) back true).

Definition add (value : Z) (b : buffer) : option buffer :=
  if trimmed b && before (threshold b) value then Some b
  else
    let b := Buffer (candidates b ++ [value]) (depth b) (threshold b) (trimmed b) in
    if decide (zlen (candidates b) = 2 * depth b) then trim b else Some b.

Definition finish (b : buffer) : option (list Z) :=
  b ← (if decide (zlen (candidates b) > depth b) then trim b else Some b);
  Some (sort (candidates b)).

End before.
End TailBuffer.

(** * The sketcher *)

Module ValueSketcher.

Definition SKETCH_DENSE : Z := 64.
Definition SKETCH_TAIL : Z := 16384.
Definition SKETCH_SAMPLES : Z := 1024.

Record SketchPoint := Point { prank : Z; pvalue : Z }.

Definition step (r : Z) : Z := Z.max 1 (bit_floor (r / 32)).

Fixpoint tailLoop (fuel : nat) (r depth : Z) : option (list Z) :=
  if decide (r < depth) then
    match fuel with O => None | S fuel => ranks ← tailLoop fuel (r + step r) depth; Some (r :: ranks) end
  else Some [].

Definition tailRanks (depth : Z) : option (list Z) :=
  ranks ← tailLoop (Z.to_nat depth) 0 depth;
  Some (match last ranks with
        | Some back => if decide (back <> depth - 1) then ranks ++ [depth - 1] else ranks
        | None => ranks
        end).

Record sketcher := Sketcher {
  low : TailBuffer.buffer;
  high : TailBuffer.buffer;
  sample : list Z;
  stride : Z;
  next : Z;
  count : Z }.

Definition fresh : sketcher := Sketcher (TailBuffer.make SKETCH_TAIL) (TailBuffer.make SKETCH_TAIL) [] 1 0 0.

(** [for (j) sample[j] = sample[2 * j]], and the shrinking that follows. *)
Definition halve (sample : list Z) : option (list Z) :=
  sample ← foldM (fun sample j => v ← sample.[2 * j]; zset sample j v) sample (seqZ 0 SKETCH_SAMPLES);
  Some (TailBuffer.resize SKETCH_SAMPLES sample).

Fixpoint sampleLoop (fuel : nat) (values : list Z) (i stride : Z) (sample : list Z) : option (Z * Z * list Z) :=
  if decide (i < zlen values) then
    match fuel with
    | O => None
    | S fuel =>
        v ← values.[i];
        let sample := sample ++ [v] in
        '(i, stride, sample) ← (if decide (zlen sample = 2 * SKETCH_SAMPLES) then
            sample ← halve sample;
            i ← i64 (i + stride);
            stride ← i64 (stride * 2);
            i ← i64 (i - stride);
            Some (i, stride, sample)
          else Some (i, stride, sample));
        i ← i64 (i + stride);
        sampleLoop fuel values i stride sample
    end
  else Some (i, stride, sample).

Definition addSample (values : list Z) (s : sketcher) : option sketcher :=
  '(i, stride, sample) ← sampleLoop (length values) values (next s) (stride s) (sample s);
  next ← i64 (i - zlen values);
  Some (Sketcher (low s) (high s) sample stride next (count s)).

Definition add (values : list Z) (s : sketcher) : option sketcher :=
  s ← foldM (fun s value =>
        low ← TailBuffer.add Z.ltb value (low s);
        high ← TailBuffer.add Z.gtb value (high s);
        Some (Sketcher low high (sample s) (stride s) (next s) (count s))) s values;
  s ← addSample values s;
  count ← i64 (count s + zlen values);
  Some (Sketcher (low s) (high s) (sample s) (stride s) (next s) count).

(** [std::unique]. *)
Fixpoint unique (l : list Z) : list Z :=
  match l with
  | x :: (y :: _) as l => if decide (x = y) then unique l else x :: unique l
  | _ => l
  end.

(** The expected rank of the [j]-th of [m] sampled values. *)
Definition expectedRank (j count m : Z) : option Z :=
  Binary64.to_int64 (Binary64.div (Binary64.mul (Binary64.add (Binary64.of_int j) Binary64.half) (Binary64.of_int count)) (Binary64.of_int m)).

(** One turn of the loop over the sorted sample. *)
Definition bulkStep (least greatest sample : list Z) (count lowDepth highStart : Z) (bulk : list SketchPoint) (j : Z) : option (list SketchPoint) :=
  rank ← expectedRank j count (zlen sample);
  value ← sample.[j];
  lowest ← last least;
  highest ← last greatest;
  Some (if bool_decide (rank < lowDepth) || bool_decide (rank >= highStart) || bool_decide (value < lowest) || bool_decide (value > highest)
           || match last bulk with Some p => bool_decide (rank <= prank p) | None => false end
        then bulk else bulk ++ [Point rank value]).

Definition finish (s : sketcher) : option (list SketchPoint) :=
  least ← TailBuffer.finish Z.ltb (low s);
  greatest ← TailBuffer.finish Z.gtb (high s);
  if decide (count s = 0) then Some []
  else
    let lowDepth := zlen least in
    let highStart := count s - zlen greatest in
    lows ← tailRanks lowDepth;
    highs ← tailRanks (zlen greatest);
    let ranks := unique (TailBuffer.sort Z.ltb (lows ++ ((fun r => count s - 1 - r) <$> highs))) in
    points ← mapM (fun rank =>
      value ← (if decide (rank < lowDepth) then least.[rank] else greatest.[count s - 1 - rank]);
      Some (Point rank value)) ranks;
    if decide (highStart > lowDepth) then
      let sample := TailBuffer.sort Z.ltb (sample s) in
      bulk ← foldM (bulkStep least greatest sample (count s) lowDepth highStart) [] (seqZ 0 (zlen sample));
      at_ ← lower_bound (fun i => (fun p => bool_decide (prank p < highStart)) <$> points.[i]) 0 (zlen points);
      Some (take (Z.to_nat at_) points ++ bulk ++ drop (Z.to_nat at_) points)
    else Some points.

End ValueSketcher.

(** * The expected ranks are integers *)

Section doubles.
Import ValueSketcher.

(** A mantissa and an exponent whose value, rounded up when bits were lost, is at most [2 ^ t]. *)
Definition fits (t m e : Z) (lost : bool) : Prop := 0 <= m /\ e <= t /\ m + Z.b2z lost <= 2 ^ (t - e).

Definition lost (l : location) : bool := match l with loc_Exact => false | _ => true end.

(** A double in [0, 2 ^ t]. *)
Definition within (t : Z) (x : spec_float) : Prop :=
  match x with S754_zero _ => True | S754_finite false m e => fits t (Z.pos m) e false | _ => False end.

Definition rec_fits (t e : Z) (x : shr_record) : Prop := fits t (shr_m x) e (shr_r x || shr_s x).

Lemma shr_1_fits t e x : e < t -> rec_fits t e x -> rec_fits t (e + 1) (shr_1 x).
Proof.
  unfold rec_fits, fits. destruct x as [m r s]. cbn [shr_m shr_r shr_s]. intros He (H0 & _ & H1).
  replace (t - e) with (1 + (t - (e + 1))) in H1 by lia. rewrite Z.pow_add_r in H1 by lia. change (2 ^ 1) with 2 in H1.
  pose proof (pow2_pos (t - (e + 1)) ltac:(lia)).
  destruct m as [|[p|p|]|]; [..|lia]; destruct r, s; cbn [shr_1 shr_m shr_r shr_s orb Z.b2z] in *; lia.
Qed.

Lemma shr_iter_fits t p : forall e x, e + Z.pos p <= t -> rec_fits t e x -> rec_fits t (e + Z.pos p) (SpecFloat.iter_pos shr_1 p x).
Proof.
  induction p as [p IH|p IH|]; intros e x He Hx; cbn [SpecFloat.iter_pos].
  - replace (e + Z.pos p~1) with ((e + 1 + Z.pos p) + Z.pos p) by lia. apply IH; [lia|]. apply IH; [lia|]. apply shr_1_fits; [lia|done].
  - replace (e + Z.pos p~0) with (e + Z.pos p + Z.pos p) by lia. apply IH; [lia|]. apply IH; [lia|done].
  - apply shr_1_fits; [lia|done].
Qed.

Lemma digits_le p k : Z.pos p <= 2 ^ k -> 0 <= k -> Z.pos (digits2_pos p) <= k + 1.
Proof.
  revert k. induction p as [p IH|p IH|]; intros k Hk H0; cbn [digits2_pos]; [..|lia].
  all: destruct (decide (k = 0)) as [->|]; [change (2 ^ 0) with 1 in Hk; lia|];
    replace k with (1 + (k - 1)) in Hk by lia; rewrite Z.pow_add_r in Hk by lia; change (2 ^ 1) with 2 in Hk;
    pose proof (IH (k - 1) ltac:(lia) ltac:(lia)); lia.
Qed.

Lemma shr_fexp_fits t m e l : -1074 <= t -> fits t m e (lost l) ->
  let '(x, e') := shr_fexp 53 1024 m e l in rec_fits t e' x.
Proof.
  intros Ht Hf. pose proof Hf as (H0 & He & H1). unfold shr_fexp, shr.
  assert (rec_fits t e (shr_record_of_loc m l)) as Hr.
  { unfold rec_fits. by destruct l as [|[]]. }
  set (n := fexp 53 1024 (Zdigits2 m + e) - e).
  assert (n <= t - e) as Hn.
  { unfold n, fexp, emin. assert (Zdigits2 m <= t - e + 1); [|lia].
    destruct m as [|p|]; [cbn; lia| |lia]. cbn [Zdigits2]. apply digits_le; [destruct (lost l); cbn [Z.b2z] in *; lia|lia]. }
  clearbody n. destruct n as [|p|p].
  - done.
  - apply shr_iter_fits; [lia|done].
  - done.
Qed.

(** Rounding does not leave the range. *)
Lemma round_within t m e l : -1074 <= t <= 971 -> fits t m e (lost l) -> within t (binary_round_aux 53 1024 false m e l).
Proof.
  intros Ht Hf. unfold binary_round_aux. pose proof (shr_fexp_fits t m e l ltac:(lia) Hf) as Hs.
  destruct (shr_fexp 53 1024 m e l) as [x e']. destruct Hs as (H0 & He & H1).
  assert (fits t (round_nearest_even (shr_m x) (loc_of_shr_record x)) e' (lost loc_Exact)) as Hr.
  { destruct x as [mx [] []]; cbn [shr_m shr_r shr_s loc_of_shr_record round_nearest_even orb Z.b2z lost] in *;
      try destruct (Z.even mx); (split; [lia|split; [lia|cbn [Z.b2z lost] in *; lia]]). }
  pose proof (shr_fexp_fits t _ e' loc_Exact ltac:(lia) Hr) as Hs.
  destruct (shr_fexp 53 1024 (round_nearest_even (shr_m x) (loc_of_shr_record x)) e' loc_Exact) as [y e'']. destruct Hs as (G0 & Ge & G1).
  destruct (shr_m y) as [|p|p]; [done| |lia]. rewrite (proj2 (Z.leb_le e'' (1024 - 53))) by lia. cbn [within].
  split; [lia|]. split; [lia|]. cbn [Z.b2z]. destruct (shr_r y || shr_s y); cbn [Z.b2z] in G1; lia.
Qed.

Lemma shl_value m d : Z.pos (Pos.iter xO m d) = Z.pos m * 2 ^ Z.pos d.
Proof.
  induction d as [|d IH] using Pos.peano_ind; [cbn [Pos.iter]; rewrite Z.pow_1_r; lia|].
  rewrite Pos.iter_succ, Pos2Z.inj_succ, Z.pow_succ_r by lia. lia.
Qed.

Lemma of_int_within t z : 0 <= z <= 2 ^ t -> 0 <= t <= 971 -> within t (Binary64.of_int z).
Proof.
  intros Hz Ht. unfold Binary64.of_int, binary_normalize. destruct z as [|p|]; [done| |lia]. unfold binary_round, shl_align.
  set (x := fexp 53 1024 (Z.pos (digits2_pos p) + 0) - 0). destruct x as [|d|d] eqn:Ex; apply round_within; try lia.
  1,2: split; [lia|]; split; [lia|]; cbn [lost Z.b2z]; replace (t - 0) with t by lia; lia.
  replace (fexp 53 1024 (Z.pos (digits2_pos p) + 0)) with (- Z.pos d) by lia.
  split; [lia|]. split; [lia|]. cbn [lost Z.b2z]. rewrite shl_value.
  replace (t - - Z.pos d) with (t + Z.pos d) by lia. rewrite Z.pow_add_r by lia. pose proof (pow2_pos (Z.pos d)). nia.
Qed.

Lemma mul_within t u x y : within t x -> within u y -> -1074 <= t + u <= 971 -> within (t + u) (Binary64.mul x y).
Proof.
  intros Hx Hy Htu. unfold Binary64.mul.
  destruct x as [| | |[] mx ex]; try done; destruct y as [| | |[] my ey]; try done. cbn [SFmul xorb].
  destruct Hx as (_ & H1 & H2), Hy as (_ & H3 & H4). cbn [Z.b2z] in *. apply round_within; [lia|].
  split; [lia|]. split; [lia|]. cbn [lost Z.b2z]. replace (t + u - (ex + ey)) with ((t - ex) + (u - ey)) by lia.
  rewrite Z.pow_add_r by lia. rewrite Pos2Z.inj_mul. nia.
Qed.

(** A double that is at least 1. *)
Definition at_least_one (x : spec_float) : Prop :=
  match x with S754_finite false m e => e <= 0 /\ 2 ^ (- e) <= Z.pos m | _ => False end.

Lemma digits_ge p k : 2 ^ k <= Z.pos p -> 0 <= k -> k + 1 <= Z.pos (digits2_pos p).
Proof.
  revert k. induction p as [p IH|p IH|]; intros k Hk H0; cbn [digits2_pos].
  3: { destruct (decide (k = 0)) as [->|]; [lia|]. pose proof (Z.pow_gt_1 2 k ltac:(lia)). lia. }
  all: destruct (decide (k = 0)) as [->|]; [lia|];
    replace k with (1 + (k - 1)) in Hk by lia; rewrite Z.pow_add_r in Hk by lia; change (2 ^ 1) with 2 in Hk;
    pose proof (IH (k - 1) ltac:(lia) ltac:(lia)); lia.
Qed.

Lemma new_location_lost b r : 0 < b -> 0 <= r < b -> lost (new_location b r) = bool_decide (r <> 0).
Proof.
  intros Hb Hr. unfold new_location, new_location_even, new_location_odd.
  destruct (Z.even b); (destruct (Z.eqb_spec r 0); [by rewrite bool_decide_eq_false_2 by lia|by rewrite bool_decide_eq_true_2]).
Qed.

Lemma div_within t x y : within t x -> at_least_one y -> 0 <= t <= 971 -> within t (Binary64.div x y).
Proof.
  intros Hx Hy Ht. unfold Binary64.div.
  destruct x as [| | |[] mx ex]; try done; destruct y as [| | |[] my ey]; try done. cbn [SFdiv xorb].
  destruct Hx as (_ & H1 & H2), Hy as (H3 & H4). cbn [Z.b2z] in *. unfold SFdiv_core_binary. cbn [Zdigits2].
  pose proof (digits_le mx (t - ex) ltac:(lia) ltac:(lia)) as D1. pose proof (digits_ge my (- ey) H4 ltac:(lia)) as D2.
  set (e' := Z.min (fexp 53 1024 (Z.pos (digits2_pos mx) + ex - (Z.pos (digits2_pos my) + ey))) (ex - ey)).
  assert (e' <= t /\ e' <= ex - ey) as [He1 He2] by (unfold e', fexp, emin; lia). clearbody e'.
  set (m' := match ex - ey - e' with Z0 => Z.pos mx | Z.pos _ => Z.shiftl (Z.pos mx) (ex - ey - e') | Z.neg _ => 0 end).
  assert (m' = Z.pos mx * 2 ^ (ex - ey - e')) as Em.
  { unfold m'. destruct (ex - ey - e') eqn:Es; [rewrite Z.pow_0_r; lia|by rewrite Z.shiftl_mul_pow2 by lia|lia]. }
  clearbody m'. pose proof (Z_div_mod m' (Z.pos my) ltac:(lia)) as Hd. destruct (Z.div_eucl m' (Z.pos my)) as [q r]. destruct Hd as [Hq Hr].
  apply round_within; [lia|]. assert (m' <= 2 ^ (t - e') * Z.pos my) as Hm.
  { assert (2 ^ (t - ex) * 2 ^ (ex - ey - e') = 2 ^ (t - e') * 2 ^ (- ey)) as Ep.
    { rewrite <- !Z.pow_add_r by lia. f_equal. lia. }
    pose proof (pow2_pos (ex - ey - e') ltac:(lia)). pose proof (pow2_pos (t - e') ltac:(lia)). rewrite Em. nia. }
  pose proof (pow2_pos (ex - ey - e') ltac:(lia)).
  rewrite new_location_lost by lia. split; [nia|]. split; [lia|]. case_bool_decide; cbn [Z.b2z]; nia.
Qed.

Lemma to_int64_within t x : within t x -> 0 <= t <= 62 -> exists r, Binary64.to_int64 x = Some r /\ 0 <= r <= 2 ^ t.
Proof.
  intros Hx Ht. pose proof (Z.pow_le_mono_r 2 t 62 ltac:(lia) ltac:(lia)). pose proof (pow2_pos t ltac:(lia)).
  destruct x as [| | |[] m e]; try done; [exists 0; split; [done|lia]|]. cbn [Binary64.to_int64]. cbv zeta.
  destruct Hx as (G0 & H1 & H2). cbn [Z.b2z] in H2.
  assert (0 <= (if decide (0 <= e) then Z.pos m * 2 ^ e else Z.pos m / 2 ^ (- e)) <= 2 ^ t) as Ha.
  { case_decide.
    - pose proof (pow2_pos e ltac:(lia)). replace t with ((t - e) + e) by lia. rewrite Z.pow_add_r by lia. nia.
    - pose proof (pow2_pos (- e) ltac:(lia)). split; [apply Z.div_pos; lia|]. apply Z.div_le_upper_bound; [lia|].
      rewrite <- Z.pow_add_r by lia. replace (- e + t) with (t - e) by lia. lia. }
  eexists. split; [|exact Ha]. unfold i64. rewrite decide_True; [done|]. unfold is_s. change (64 - 1) with 63.
  change (2 ^ 63) with (2 * 2 ^ 62). lia.
Qed.

#[global] Instance within_dec t x : Decision (within t x).
Proof. destruct x as [| | |[] ??]; unfold within, fits; apply _. Defined.

#[global] Instance at_least_one_dec x : Decision (at_least_one x).
Proof. destruct x as [| | |[] ??]; unfold at_least_one; apply _. Defined.

Lemma middles_within : Forall (fun j => within 11 (Binary64.add (Binary64.of_int j) Binary64.half)) (seqZ 0 2048).
Proof. apply (bool_decide_unpack _). by vm_compute. Qed.

Lemma sizes_at_least_one : Forall (fun m => at_least_one (Binary64.of_int m)) (seqZ 1 2048).
Proof. apply (bool_decide_unpack _). by vm_compute. Qed.

(** The expected rank of a sampled value is an integer that a 64-bit one holds. *)
Lemma expectedRank_ok j count m : 0 <= j < 2048 -> 1 <= m <= 2048 -> 0 <= count <= 2 ^ 40 ->
  exists r, expectedRank j count m = Some r /\ 0 <= r.
Proof.
  intros Hj Hm Hc. pose proof middles_within as Hmid. pose proof sizes_at_least_one as Hsz. rewrite Forall_forall in Hmid, Hsz.
  destruct (to_int64_within (11 + 40) (Binary64.div (Binary64.mul (Binary64.add (Binary64.of_int j) Binary64.half) (Binary64.of_int count))
    (Binary64.of_int m))) as (r & Er & Hr); [|lia|exists r; split; [exact Er|lia]].
  apply div_within; [|apply Hsz, elem_of_seqZ; lia|lia].
  apply mul_within; [apply Hmid, elem_of_seqZ; lia|apply of_int_within; lia|lia].
Qed.

End doubles.

(** * Tails *)

(** The comparisons of the two tails. *)
Class Ordering (before : Z -> Z -> bool) : Prop := {
  ordering_trans :: Transitive (TailBuffer.order before);
  ordering_anti :: AntiSymm (=) (TailBuffer.order before);
  ordering_total :: Total (TailBuffer.order before) }.

Lemma order_less a b : TailBuffer.order Z.ltb a b <-> a <= b.
Proof. apply Z.ltb_ge. Qed.

Lemma order_greater a b : TailBuffer.order Z.gtb a b <-> b <= a.
Proof. unfold TailBuffer.order. rewrite Z.gtb_ltb. apply Z.ltb_ge. Qed.

#[export] Instance ordering_less : Ordering Z.ltb.
Proof.
  split.
  - intros x y z. rewrite !order_less. lia.
  - intros x y. rewrite !order_less. lia.
  - intros x y. rewrite !order_less. lia.
Qed.

#[export] Instance ordering_greater : Ordering Z.gtb.
Proof.
  split.
  - intros x y z. rewrite !order_greater. lia.
  - intros x y. rewrite !order_greater. lia.
  - intros x y. rewrite !order_greater. lia.
Qed.

Section tails.
Context (before : Z -> Z -> bool) `{!Ordering before}.
Abbreviation order := (TailBuffer.order before).
Abbreviation sort := (TailBuffer.sort before).

Lemma order_refl x : order x x.
Proof. by destruct (total order x x). Qed.

Lemma sort_sorted l : StronglySorted order (sort l).
Proof. apply StronglySorted_merge_sort; apply _. Qed.

Lemma sort_Permutation l : sort l ≡ₚ l.
Proof. apply merge_sort_Permutation. Qed.

Lemma order_unique l k : StronglySorted order l -> StronglySorted order k -> l ≡ₚ k -> l = k.
Proof. intros H1 H2. apply (StronglySorted_unique order); done. Qed.

Lemma sort_unique l k : StronglySorted order k -> k ≡ₚ l -> sort l = k.
Proof. intros Hk Hp. apply order_unique; [apply sort_sorted|done|]. by rewrite sort_Permutation. Qed.

Lemma sort_proper l k : l ≡ₚ k -> sort l = sort k.
Proof. intros Hp. apply sort_unique; [apply sort_sorted|]. by rewrite sort_Permutation. Qed.

Lemma sorted_take n l : StronglySorted order l -> StronglySorted order (take n l).
Proof. intros H. rewrite <- (take_drop n l) in H. by apply StronglySorted_app_1_l in H. Qed.

(** Where a value goes among sorted ones. *)
Fixpoint place (v : Z) (l : list Z) : list Z :=
  match l with
  | [] => [v]
  | x :: l => if decide (order v x) then v :: x :: l else x :: place v l
  end.

Lemma place_Permutation v l : place v l ≡ₚ v :: l.
Proof. induction l as [|x l IH]; simpl; [done|]. case_decide; [done|]. rewrite IH. apply Permutation_swap. Qed.

Lemma place_sorted v l : StronglySorted order l -> StronglySorted order (place v l).
Proof.
  induction 1 as [|x l Hl IH Hx]; simpl; [by repeat constructor|]. case_decide as E.
  - constructor; [by constructor|]. constructor; [done|]. eapply Forall_impl; [done|]. intros y Hy. by trans x.
  - constructor; [done|]. rewrite place_Permutation. constructor; [|done]. by destruct (total order x v).
Qed.

Lemma sort_snoc l v : sort (l ++ [v]) = place v (sort l).
Proof. apply sort_unique; [apply place_sorted, sort_sorted|]. rewrite place_Permutation, sort_Permutation. apply Permutation_cons_append. Qed.

Lemma take_place n v l : take n (place v l) = take n (place v (take n l)).
Proof.
  revert n. induction l as [|x l IH]; intros [|n]; simpl; try done. case_decide; simpl.
  - f_equal. destruct n as [|n]; simpl; [done|]. by rewrite take_take, Nat.min_l by lia.
  - f_equal. apply IH.
Qed.

Lemma take_place_after n v l : (n <= length l)%nat -> Forall (fun x => before x v = true) (take n l) -> take n (place v l) = take n l.
Proof.
  revert n. induction l as [|x l IH]; intros [|n] Hn Hf; simpl in *; try done; try lia.
  apply Forall_cons in Hf as [Hx Hf]. rewrite decide_False by (unfold TailBuffer.order; congruence). simpl. f_equal. apply IH; [lia|done].
Qed.

Lemma sort_take n l : sort (take n (sort l)) = take n (sort l).
Proof. apply sort_unique; [|done]. apply sorted_take, sort_sorted. Qed.

Lemma zlen_sort l : zlen (sort l) = zlen l.
Proof. unfold zlen. by rewrite (Permutation_length (sort_Permutation l)). Qed.

Lemma resize_take d l : 0 <= d <= zlen l -> TailBuffer.resize d l = take (Z.to_nat d) l.
Proof. intros Hd. unfold TailBuffer.resize. replace (Z.to_nat (d - zlen l)) with 0%nat by lia. apply app_nil_r. Qed.

Lemma zlen_take {A} d (l : list A) : 0 <= d <= zlen l -> zlen (take (Z.to_nat d) l) = d.
Proof. unfold zlen. rewrite length_take. lia. Qed.

(** What any selection at [d - 1] leaves in front is, sorted, the first [d] values, and its last element the last of them. *)
Lemma nth_element_any d l l' x : 0 < d <= zlen l -> l' ≡ₚ l -> l'.[d - 1] = Some x ->
  (forall i y, i < d - 1 -> l'.[i] = Some y -> order y x) -> (forall i y, d - 1 < i -> l'.[i] = Some y -> order x y) ->
  sort (take (Z.to_nat d) l') = take (Z.to_nat d) (sort l) /\ last (take (Z.to_nat d) l') = last (take (Z.to_nat d) (sort l)).
Proof.
  intros Hd Hp Hx Hlow Hhigh. set (n := Z.to_nat d).
  assert (zlen l' = zlen l) as Hl by (unfold zlen; by rewrite (Permutation_length Hp)).
  assert (Forall (fun y => order y x) (take n l')) as F1.
  { apply Forall_forall. intros y [i Hy]%zget_elem. pose proof (zget_Some_range _ _ _ Hy) as Hi. unfold n in *. rewrite zlen_take in Hi by lia.
    rewrite zget_take in Hy by lia. destruct (decide (i = d - 1)) as [->|]; [|apply (Hlow i); [lia|done]].
    rewrite Hx in Hy. injection Hy as <-. apply order_refl. }
  assert (Forall (order x) (drop n l')) as F2.
  { apply Forall_forall. intros y [i Hy]%zget_elem. pose proof (zget_Some_range _ _ _ Hy) as Hi. unfold n in *.
    rewrite zget_drop in Hy by lia. apply (Hhigh (d + i)); [lia|done]. }
  assert (sort l = sort (take n l') ++ sort (drop n l')) as E.
  { apply sort_unique; [|by rewrite !sort_Permutation, take_drop].
    apply StronglySorted_app_2; [|apply sort_sorted..]. intros a b Ha Hb. rewrite sort_Permutation in Ha, Hb.
    rewrite Forall_forall in F1, F2. trans x; [by apply F1|by apply F2]. }
  assert (take n (sort l) = sort (take n l')) as Et.
  { rewrite E. apply take_app_length'. unfold n. pose proof (zlen_sort (take (Z.to_nat d) l')) as Hz. rewrite zlen_take in Hz by lia.
    unfold zlen in Hz. lia. }
  split; [done|]. rewrite Et, !last_zget, zlen_sort. unfold n at 2 4. rewrite zlen_take by lia.
  assert (last_of : (take n l').[d - 1] = Some x) by (unfold n; by rewrite zget_take by lia). rewrite last_of.
  destruct (zget_in (sort (take n l')) (d - 1)) as [y Ey]; [rewrite zlen_sort; unfold n; rewrite zlen_take; lia|]. rewrite Ey. f_equal.
  pose proof (sort_sorted (take n l')) as Hs. apply (anti_symm order).
  - assert (x ∈ sort (take n l')) as [i Hi]%zget_elem by (rewrite sort_Permutation; by eapply zget_elem_1).
    pose proof (zget_Some_range _ _ _ Hi) as Hr. rewrite zlen_sort in Hr. unfold n in Hr. rewrite zlen_take in Hr by lia.
    destruct (decide (i = d - 1)) as [->|]; [rewrite Hi in Ey; injection Ey as <-; apply order_refl|].
    eapply sorted_zget; [done..|lia].
  - apply zget_elem_1 in Ey. rewrite sort_Permutation in Ey. rewrite Forall_forall in F1. by apply F1.
Qed.

(** A buffer of depth [d] after the values [V]. *)
Record tail_of (d : Z) (V : list Z) (b : TailBuffer.buffer) : Prop := {
  tail_depth : TailBuffer.depth b = d;
  tail_room : zlen (TailBuffer.candidates b) < 2 * d;
  tail_first : take (Z.to_nat d) (sort (TailBuffer.candidates b)) = take (Z.to_nat d) (sort V);
  tail_whole : TailBuffer.trimmed b = false -> TailBuffer.candidates b = V;
  tail_bound : TailBuffer.trimmed b = true -> d <= zlen (TailBuffer.candidates b) /\ d <= zlen V /\
    Forall (fun x => order x (TailBuffer.threshold b)) (take (Z.to_nat d) (sort V)) }.

Lemma tail_make d : 0 < d -> tail_of d [] (TailBuffer.make d).
Proof. intros Hd. constructor; try done. change (0 < 2 * d). lia. Qed.

Lemma trim_spec b d V : 0 < d <= zlen (TailBuffer.candidates b) -> d <= zlen V -> TailBuffer.depth b = d ->
  take (Z.to_nat d) (sort (TailBuffer.candidates b)) = take (Z.to_nat d) (sort V) ->
  exists b', TailBuffer.trim before b = Some b' /\ tail_of d V b' /\ TailBuffer.candidates b' = take (Z.to_nat d) (sort V).
Proof.
  intros Hd HV Ed Ef. unfold TailBuffer.trim, TailBuffer.nth_element. rewrite Ed, decide_True by lia. opt. cbv zeta.
  rewrite resize_take by (rewrite zlen_sort; lia). rewrite Ef. set (l := take (Z.to_nat d) (sort V)) in *.
  assert (zlen l = d) as Hl by (unfold l; rewrite zlen_take; [done|rewrite zlen_sort; lia]).
  destruct (zget_in l (d - 1)) as [x Hx]; [lia|]. rewrite last_zget, Hl, Hx. opt. eexists. split; [done|]. split; [|done].
  assert (StronglySorted order l) as Hs by apply sorted_take, sort_sorted.
  constructor; cbn [TailBuffer.depth TailBuffer.candidates TailBuffer.trimmed TailBuffer.threshold]; [done|lia| |done|].
  - unfold l. rewrite sort_take, take_take. f_equal. lia.
  - intros _. split; [lia|]. split; [done|]. fold l. apply Forall_forall. intros y [i Hy]%zget_elem. pose proof (zget_Some_range _ _ _ Hy).
    destruct (decide (i = d - 1)) as [->|]; [rewrite Hx in Hy; injection Hy as <-; apply order_refl|].
    eapply sorted_zget; [done..|lia].
Qed.

Lemma tail_add d V b v : 0 < d -> tail_of d V b -> exists b', TailBuffer.add before v b = Some b' /\ tail_of d (V ++ [v]) b'.
Proof.
  intros Hd [Ed Hr Hf Hw Hb]. unfold TailBuffer.add. destruct (TailBuffer.trimmed b && before (TailBuffer.threshold b) v) eqn:E.
  - apply andb_prop in E as [Et Ev]. destruct (Hb Et) as (H1 & H2 & H3). eexists. split; [done|].
    assert (take (Z.to_nat d) (sort (V ++ [v])) = take (Z.to_nat d) (sort V)) as Eq.
    { rewrite sort_snoc. apply take_place_after; [pose proof (zlen_sort V); unfold zlen in *; lia|].
      eapply Forall_impl; [done|]. intros x Hx. cbn beta in Hx. destruct (before x v) eqn:Exv; [done|]. exfalso.
      assert (order v (TailBuffer.threshold b)) as Hc by (by trans x). unfold TailBuffer.order in Hc. congruence. }
    constructor; [done|done|by rewrite Eq|congruence|]. intros _. rewrite Eq, zlen_app. pose proof (zlen_nonneg [v]). split; [done|]. split; [lia|done].
  - cbv zeta. cbn [TailBuffer.candidates TailBuffer.depth]. rewrite Ed.
    assert (take (Z.to_nat d) (sort (TailBuffer.candidates b ++ [v])) = take (Z.to_nat d) (sort (V ++ [v]))) as Eq.
    { rewrite !sort_snoc, take_place, (take_place _ v (sort V)), Hf. done. }
    destruct (decide (zlen (TailBuffer.candidates b ++ [v]) = 2 * d)) as [Es|Es].
    + destruct (trim_spec (TailBuffer.Buffer (TailBuffer.candidates b ++ [v]) d (TailBuffer.threshold b) (TailBuffer.trimmed b)) d (V ++ [v]))
        as (b' & E' & Hb' & _); cbn [TailBuffer.candidates TailBuffer.depth]; [lia| |done|done|by exists b'].
      destruct (TailBuffer.trimmed b); [destruct (Hb eq_refl) as (_ & H2 & _); rewrite zlen_app; pose proof (zlen_nonneg [v]); lia|].
      rewrite <- (Hw eq_refl). lia.
    + eexists. split; [done|]. rewrite zlen_app in Es. change (zlen [v]) with 1 in Es.
      constructor; cbn [TailBuffer.candidates TailBuffer.depth TailBuffer.trimmed TailBuffer.threshold].
      * done.
      * rewrite zlen_app. change (zlen [v]) with 1. lia.
      * done.
      * intros Et. by rewrite (Hw Et).
      * intros Et. destruct (Hb Et) as (H1 & H2 & H3). rewrite !zlen_app. change (zlen [v]) with 1. split; [lia|]. split; [lia|].
        rewrite Et in E. cbn [andb] in E. rewrite sort_snoc, take_place. set (l := take (Z.to_nat d) (sort V)) in *.
        apply Forall_take. rewrite place_Permutation. constructor; [exact E|exact H3].
Qed.

Lemma tail_finish d V b : 0 < d -> tail_of d V b -> TailBuffer.finish before b = Some (take (Z.to_nat d) (sort V)).
Proof.
  intros Hd [Ed Hr Hf Hw Hb]. unfold TailBuffer.finish. rewrite Ed. case_decide as E.
  - destruct (trim_spec b d V) as (b' & -> & _ & Ec); [lia| |done|done|].
    + destruct (TailBuffer.trimmed b); [by destruct (Hb eq_refl) as (_ & ? & _)|]. rewrite <- (Hw eq_refl). lia.
    + opt. by rewrite Ec, sort_take.
  - opt. rewrite <- Hf. f_equal. symmetry. apply take_ge. pose proof (zlen_sort (TailBuffer.candidates b)). unfold zlen in *. lia.
Qed.

End tails.

(** * Ranks *)

Section ranks.
Import ValueSketcher.

Lemma sorted_snoc {A} (R : relation A) l x : StronglySorted R l -> Forall (fun y => R y x) l -> StronglySorted R (l ++ [x]).
Proof.
  intros Hl Hx. rewrite Forall_forall in Hx. apply StronglySorted_app_2; [|done|by repeat constructor].
  intros y z Hy ->%list_elem_of_singleton. by apply Hx.
Qed.

Lemma step_pos r : 1 <= step r.
Proof. unfold step. lia. Qed.

Lemma step_dense r : 0 <= r < SKETCH_DENSE -> step r = 1.
Proof.
  change SKETCH_DENSE with 64. intros Hr. unfold step. assert (r / 32 = 0 \/ r / 32 = 1) as [-> | ->]; [|done..].
  pose proof (Z.div_pos r 32 ltac:(lia) ltac:(lia)). pose proof (Z.div_lt_upper_bound r 32 2 ltac:(lia) ltac:(lia)). lia.
Qed.

Lemma tailLoop_spec fuel : forall r depth, 0 <= r -> depth - r <= Z.of_nat fuel -> exists l, tailLoop fuel r depth = Some l /\
  increasing l /\ Forall (fun x => r <= x < depth) l /\ (r < depth -> r ∈ l) /\
  (forall x, r <= x < depth -> x < SKETCH_DENSE -> x ∈ l).
Proof.
  induction fuel as [|fuel IH]; intros r depth Hr Hf; simpl.
  - rewrite decide_False by lia. exists []. split; [done|]. split; [constructor|]. split; [constructor|]. split; intros; lia.
  - case_decide as E; [|exists []; split; [done|]; split; [constructor|]; split; [constructor|]; split; intros; lia].
    pose proof (step_pos r). destruct (IH (r + step r) depth) as (l & -> & Hl & Hin & _ & Hd); [lia|lia|]. opt. eexists. split; [done|].
    split; [constructor; [done|]; eapply Forall_impl; [done|]; simpl; lia|].
    split; [constructor; [lia|]; eapply Forall_impl; [done|]; simpl; lia|]. split; [left|].
    intros x Hx Hs. destruct (decide (x = r)) as [->|]; [left|]. right. apply Hd; [|done]. rewrite step_dense by lia. lia.
Qed.

(** The ranks of a tail: from its first to its last, and every one near its end. *)
Record tail_ranks (depth : Z) (l : list Z) : Prop := {
  tr_increasing : increasing l;
  tr_range : Forall (fun x => 0 <= x < depth) l;
  tr_last : depth - 1 ∈ l;
  tr_dense : forall x, 0 <= x < depth -> x < SKETCH_DENSE -> x ∈ l }.

Lemma tailRanks_spec depth : 1 <= depth -> exists l, tailRanks depth = Some l /\ tail_ranks depth l.
Proof.
  intros Hd. unfold tailRanks. destruct (tailLoop_spec (Z.to_nat depth) 0 depth) as (l & -> & Hl & Hin & H0 & Hs); [lia|lia|]. opt.
  rewrite Forall_forall in Hin. destruct (last l) as [back|] eqn:El.
  2: { apply last_None in El as ->. specialize (H0 ltac:(lia)). by apply elem_of_nil in H0. }
  assert (back ∈ l) as Hb. { apply last_Some in El as [l' ->]. apply elem_of_app. right. left. }
  case_decide as E; (eexists; split; [done|]).
  - split.
    + apply sorted_snoc; [done|]. apply Forall_forall. intros y Hy. pose proof (Hin y Hy). pose proof (Hin back Hb).
      apply last_Some in El as [l' ->]. apply elem_of_app in Hy as [Hy| ->%list_elem_of_singleton]; [|lia].
      pose proof (StronglySorted_app_1_elem_of _ _ _ y back Hl Hy ltac:(left)). lia.
    + apply Forall_app. split; [by apply Forall_forall|]. repeat constructor; lia.
    + apply elem_of_app. right. left.
    + intros x Hx Hs'. apply elem_of_app. left. by apply Hs.
  - split; [done|by apply Forall_forall| |done]. assert (back = depth - 1) as <- by (destruct (decide (back = depth - 1)); [done|tauto]). done.
Qed.

Lemma unique_spec l : StronglySorted Z.le l -> increasing (unique l) /\ (forall x, x ∈ unique l <-> x ∈ l) /\ zlen (unique l) <= zlen l.
Proof.
  induction 1 as [|a l Hl IH Ha]; [split; [constructor|done]|]. destruct IH as (IH1 & IH2 & IH3). rewrite zlen_cons.
  destruct l as [|b l]; [split; [by repeat constructor|done]|]. change (unique (a :: b :: l)) with (if decide (a = b) then unique (b :: l) else a :: unique (b :: l)).
  case_decide as E.
  - subst b. split; [done|]. split; [|lia]. intros x. rewrite IH2, !elem_of_cons. tauto.
  - split; [|split; [|rewrite zlen_cons; lia]].
    + constructor; [done|]. apply Forall_forall. intros x Hx%IH2. rewrite Forall_forall in Ha. pose proof (Ha b ltac:(left)).
      apply StronglySorted_cons in Hl as [Hb _]. rewrite Forall_forall in Hb.
      apply elem_of_cons in Hx as [->|Hx]; [lia|]. pose proof (Hb x Hx). lia.
    + intros x. rewrite !elem_of_cons, IH2, elem_of_cons. tauto.
Qed.

End ranks.

(** * The sample *)

Section samples.
Import ValueSketcher.

Lemma halve_spec sample : zlen sample = 2 * SKETCH_SAMPLES ->
  exists kept, halve sample = Some kept /\ zlen kept = SKETCH_SAMPLES /\ (forall q, 0 <= q < SKETCH_SAMPLES -> kept.[q] = sample.[2 * q]).
Proof.
  change SKETCH_SAMPLES with 1024. intros Hl. unfold halve. change SKETCH_SAMPLES with 1024.
  destruct (foldM_seqZ (fun j s => zlen s = 2048 /\ (forall q, 0 <= q < j -> s.[q] = sample.[2 * q]) /\ (forall q, j <= q -> s.[q] = sample.[q]))
    (fun sample j => v ← sample.[2 * j]; zset sample j v) sample 0 1024) as (s & -> & H1 & H2 & _); [lia| | |].
  - split; [lia|]. split; [intros; lia|done].
  - intros j s Hj (H1 & H2 & H3). destruct (zget_in s (2 * j)) as [v Ev]; [lia|]. rewrite Ev. opt. rewrite zset_in by lia. eexists. split; [done|].
    split; [by rewrite zlen_insert|]. rewrite (H3 (2 * j)) in Ev by lia. split; intros q Hq; rewrite zget_insert by lia; case_decide as E.
    + subst q. by rewrite Ev.
    + apply H2. lia.
    + lia.
    + apply H3. lia.
  - opt. rewrite resize_take by lia. eexists. split; [done|]. rewrite zlen_take by lia. split; [done|].
    intros q Hq. rewrite zget_take by lia. apply H2. lia.
Qed.

(** The values of [W] at the multiples of the stride, between 1024 and 2047 of them unless all were taken. *)
Record sampling (W : list Z) (stride : Z) (sample : list Z) : Prop := {
  sp_stride : 1 <= stride;
  sp_room : zlen sample < 2 * SKETCH_SAMPLES;
  sp_enough : stride = 1 \/ SKETCH_SAMPLES <= zlen sample;
  sp_value : forall q, 0 <= q < zlen sample -> sample.[q] = W.[q * stride] }.

Lemma sampling_mono W X stride sample : sampling W stride sample -> sampling (W ++ X) stride sample.
Proof.
  intros [H1 H2 H3 H4]. constructor; [done..|]. intros q Hq. destruct (zget_in _ _ Hq) as [x Ex]. rewrite Ex. symmetry.
  apply zget_app_Some. by rewrite <- (H4 q Hq).
Qed.

Lemma sampling_bound W stride sample : sampling W stride sample -> zlen W < 2 ^ 60 ->
  (zlen sample - 1) * stride < zlen W \/ sample = [].
Proof.
  intros [H1 H2 H3 H4] HW. destruct sample as [|a l]; [by right|]. left. rewrite zlen_cons in *. pose proof (zlen_nonneg l).
  destruct (zget_in (a :: l) (zlen l)) as [x Ex]; [rewrite zlen_cons; lia|]. rewrite H4 in Ex by lia.
  apply zget_Some_range in Ex. lia.
Qed.

Lemma i64_ok z : - 2 ^ 62 <= z < 2 ^ 62 -> i64 z = Some z.
Proof. intros Hz. unfold i64. rewrite decide_True; [done|]. unfold is_s. lia. Qed.

Lemma sampling_snoc W stride sample v : sampling W stride sample -> W.[zlen sample * stride] = Some v ->
  zlen sample + 1 < 2 * SKETCH_SAMPLES -> sampling W stride (sample ++ [v]).
Proof.
  intros [H1 H2 H3 H4] Hv Hl. constructor; rewrite ?zlen_app; change (zlen [v]) with 1; [done|done|lia|].
  intros q Hq. destruct (decide (q = zlen sample)) as [->|]; [by rewrite zget_snoc|]. rewrite zget_app_l by lia. apply H4. lia.
Qed.

Lemma sampling_halved W stride sample v kept : sampling W stride sample -> W.[zlen sample * stride] = Some v ->
  zlen kept = SKETCH_SAMPLES -> zlen sample + 1 = 2 * SKETCH_SAMPLES ->
  (forall q, 0 <= q < SKETCH_SAMPLES -> kept.[q] = (sample ++ [v]).[2 * q]) -> sampling W (stride * 2) kept.
Proof.
  intros [H1 H2 H3 H4] Hv Hk Hl He. change SKETCH_SAMPLES with 1024 in *. constructor; change SKETCH_SAMPLES with 1024; [lia|lia|lia|].
  intros q Hq. rewrite He by lia. rewrite zget_app_l by lia. rewrite H4 by lia. f_equal. lia.
Qed.

Lemma sampleLoop_spec V values : zlen V + zlen values < 2 ^ 60 ->
  forall fuel i stride sample, sampling (V ++ values) stride sample -> zlen V + i = zlen sample * stride -> 0 <= i ->
    zlen values - i <= Z.of_nat fuel ->
  exists i' stride' sample', sampleLoop fuel values i stride sample = Some (i', stride', sample') /\
    sampling (V ++ values) stride' sample' /\ zlen V + i' = zlen sample' * stride' /\ zlen values <= i'.
Proof.
  intros Hsz fuel. induction fuel as [|fuel IH]; intros i stride sample Hs Hp Hi Hf; simpl.
  { rewrite decide_False by lia. eexists _, _, _. split; [done|]. split; [done|]. lia. }
  case_decide as E; [|eexists _, _, _; split; [done|]; split; [done|]; lia].
  destruct (zget_in values i) as [v Ev]; [lia|]. rewrite Ev. opt. pose proof (zlen_nonneg V) as HV. pose proof (zlen_nonneg sample) as Hsp.
  assert ((V ++ values).[zlen sample * stride] = Some v) as Hv.
  { rewrite <- Hp, zget_app_r by lia. rewrite <- Ev. f_equal. lia. }
  pose proof (sp_stride _ _ _ Hs) as H1. pose proof (sp_room _ _ _ Hs) as H2.
  assert (stride <= 2 ^ 60) as Hst.
  { destruct (sp_enough _ _ _ Hs) as [->|H3]; [lia|]. change SKETCH_SAMPLES with 1024 in H3. nia. }
  assert (zlen (sample ++ [v]) = zlen sample + 1) as Hz by (by rewrite zlen_app). rewrite Hz. case_decide as E2.
  - destruct (halve_spec (sample ++ [v])) as (kept & -> & Hk & He); [lia|]. opt.
    rewrite (i64_ok (i + stride)) by lia. opt. rewrite (i64_ok (stride * 2)) by lia. opt. rewrite (i64_ok (i + stride - stride * 2)) by lia. opt.
    rewrite (i64_ok (i + stride - stride * 2 + stride * 2)) by lia. opt.
    apply IH; [by apply (sampling_halved _ _ sample v)| |lia|lia]. rewrite Hk. lia.
  - opt. rewrite (i64_ok (i + stride)) by lia. opt. apply IH; [apply sampling_snoc; [done|done|lia]|lia|lia|lia].
Qed.

(** A sketcher after the values [V]. *)
Record sketcher_of (V : list Z) (s : sketcher) : Prop := {
  sk_low : tail_of Z.ltb SKETCH_TAIL V (low s);
  sk_high : tail_of Z.gtb SKETCH_TAIL V (high s);
  sk_sample : sampling V (stride s) (sample s);
  sk_next : 0 <= next s /\ zlen V + next s = zlen (sample s) * stride s;
  sk_count : count s = zlen V }.

Lemma fresh_sketcher : sketcher_of [] fresh.
Proof.
  constructor; [by apply tail_make..| |done|done]. constructor; [done|done|by left|].
  intros q Hq. change (zlen (sample fresh)) with 0 in Hq. lia.
Qed.

Lemma add_tails V values s : sketcher_of V s ->
  exists s', foldM (fun s value =>
        low ← TailBuffer.add Z.ltb value (low s);
        high ← TailBuffer.add Z.gtb value (high s);
        Some (Sketcher low high (sample s) (stride s) (next s) (count s))) s values = Some s' /\
    tail_of Z.ltb SKETCH_TAIL (V ++ values) (low s') /\ tail_of Z.gtb SKETCH_TAIL (V ++ values) (high s') /\
    sample s' = sample s /\ stride s' = stride s /\ next s' = next s /\ count s' = count s.
Proof.
  intros [Hl Hh _ _ _]. revert V s Hl Hh. induction values as [|v values IH]; intros V s Hl Hh.
  { exists s. rewrite app_nil_r. done. }
  simpl. destruct (tail_add Z.ltb SKETCH_TAIL V (low s) v) as (l & -> & Hl'); [done|done|]. rewrite bind_Some_l.
  destruct (tail_add Z.gtb SKETCH_TAIL V (high s) v) as (h & -> & Hh'); [done|done|]. rewrite !bind_Some_l.
  destruct (IH (V ++ [v]) (Sketcher l h (sample s) (stride s) (next s) (count s)) Hl' Hh') as (s' & -> & H).
  exists s'. split; [done|]. by rewrite <- app_assoc in H.
Qed.

Lemma sketcher_add V values s : sketcher_of V s -> zlen V + zlen values < 2 ^ 60 ->
  exists s', add values s = Some s' /\ sketcher_of (V ++ values) s'.
Proof.
  intros Hs Hsz. unfold add. destruct (add_tails V values s Hs) as (s1 & -> & Hl & Hh & E1 & E2 & E3 & E4). rewrite bind_Some_l.
  unfold addSample. rewrite E1, E2, E3. destruct Hs as [_ _ Hsam [Hn0 Hn] Hc].
  destruct (sampleLoop_spec V values Hsz (length values) (next s) (stride s) (sample s)) as (i & st & sa & -> & Hsa & Hp & Hi);
    [by apply sampling_mono|done|done|unfold zlen; lia|].
  rewrite bind_Some_l. pose proof (zlen_nonneg V). pose proof (zlen_nonneg values). rewrite (i64_ok (i - zlen values)).
  2: { pose proof (sampling_bound _ _ _ Hsa ltac:(rewrite zlen_app; lia)) as [Hb|Hb]; [|rewrite Hb in Hp; change (zlen (@nil Z)) with 0 in Hp; lia].
    rewrite zlen_app in Hb. pose proof (sp_stride _ _ _ Hsa). destruct (sp_enough _ _ _ Hsa) as [->|H3]; [lia|]. change SKETCH_SAMPLES with 1024 in H3. nia. }
  rewrite !bind_Some_l. cbn [count low high sample stride next]. rewrite E4, Hc, (i64_ok (zlen V + zlen values)) by lia. rewrite bind_Some_l.
  eexists. split; [done|]. constructor; cbn [count low high sample stride next]; [done|done|done| |by rewrite zlen_app].
  rewrite zlen_app. lia.
Qed.

End samples.

(** * The sketch *)

Section sketches.
Import ValueSketcher.

Abbreviation sorted := (TailBuffer.sort Z.ltb).

(** A sketch of [V]: ranks from the first to the last in increasing order with values in nondecreasing order; both
    tails hold order statistics, and every one near the ends; the points between them hold values of the column. *)
Record sketch_of (V : list Z) (points : list SketchPoint) : Prop := {
  skt_ranks : increasing (prank <$> points);
  skt_values : StronglySorted Z.le (pvalue <$> points);
  skt_range : Forall (fun p => 0 <= prank p < zlen V /\ pvalue p ∈ V) points;
  skt_exact : Forall (fun p => prank p < SKETCH_TAIL \/ zlen V - SKETCH_TAIL <= prank p -> (sorted V).[prank p] = Some (pvalue p)) points;
  skt_dense : forall r, 0 <= r < zlen V -> r < SKETCH_DENSE \/ zlen V - SKETCH_DENSE <= r -> r ∈ prank <$> points;
  skt_size : zlen points < 2 ^ 16 }.

Lemma zget_reverse {A} (l : list A) i : 0 <= i < zlen l -> (reverse l).[i] = l.[zlen l - 1 - i].
Proof.
  intros Hi. unfold zget, zlen in *. rewrite !decide_True by lia. rewrite reverse_lookup by lia. f_equal. lia.
Qed.

Lemma sorted_less V : StronglySorted Z.le (sorted V).
Proof.
  pose proof (sort_sorted Z.ltb V) as Hs. induction Hs as [|a l Hl IH Ha]; constructor; [done|].
  eapply Forall_impl; [exact Ha|]. intros x. apply order_less.
Qed.

Lemma sorted_reverse V : TailBuffer.sort Z.gtb V = reverse (sorted V).
Proof.
  apply sort_unique; [apply _| |by rewrite reverse_Permutation, sort_Permutation].
  pose proof (sorted_less V) as Hs. induction Hs as [|a l Hl IH Ha]; [constructor|]. rewrite reverse_cons. apply sorted_snoc; [done|].
  rewrite reverse_Permutation. eapply Forall_impl; [done|]. intros x Hx. by apply order_greater.
Qed.

Lemma sorted_mono V i j x y : (sorted V).[i] = Some x -> (sorted V).[j] = Some y -> i <= j -> x <= y.
Proof.
  intros Hx Hy Hij. destruct (decide (i = j)) as [->|]; [rewrite Hx in Hy; injection Hy as ->; done|].
  eapply (sorted_zget Z.le); [apply sorted_less|done|done|lia].
Qed.

(** ** The tails *)

Section finishing.
Context (V : list Z) (HV : V <> []) (Hn : zlen V <= 2 ^ 40).

Let d := Z.min SKETCH_TAIL (zlen V).
Let h := zlen V - d.
Let least := take (Z.to_nat SKETCH_TAIL) (sorted V).
Let greatest := take (Z.to_nat SKETCH_TAIL) (TailBuffer.sort Z.gtb V).

Lemma values_pos : 1 <= zlen V.
Proof. destruct V; [done|]. rewrite zlen_cons. pose proof (zlen_nonneg l). lia. Qed.

Lemma zlen_least : zlen least = d.
Proof. unfold least, d, zlen. rewrite length_take. pose proof (zlen_sort Z.ltb V). unfold zlen in *. unfold SKETCH_TAIL. lia. Qed.

Lemma zlen_greatest : zlen greatest = d.
Proof. unfold greatest, d, zlen. rewrite length_take. pose proof (zlen_sort Z.gtb V). unfold zlen in *. unfold SKETCH_TAIL. lia. Qed.

Lemma least_at r : r < d -> least.[r] = (sorted V).[r].
Proof. intros Hr. unfold least. apply zget_take. unfold d in Hr. lia. Qed.

Lemma greatest_at q : 0 <= q < d -> greatest.[q] = (sorted V).[zlen V - 1 - q].
Proof.
  intros Hq. unfold d in Hq. unfold greatest. rewrite zget_take by lia.
  rewrite sorted_reverse, zget_reverse; rewrite zlen_sort; [done|lia].
Qed.

(** The value at a rank. *)
Definition ranked (r : Z) : SketchPoint := Point r (default 0 (sorted V).[r]).

Lemma ranked_value r : 0 <= r < zlen V -> (sorted V).[r] = Some (pvalue (ranked r)).
Proof. intros Hr. unfold ranked. destruct (zget_in (sorted V) r) as [x Ex]; [by rewrite zlen_sort|]. by rewrite Ex. Qed.

Lemma ranked_in r : 0 <= r < zlen V -> pvalue (ranked r) ∈ V.
Proof. intros Hr%ranked_value%zget_elem_1. by rewrite sort_Permutation in Hr by apply _. Qed.

(** The ranks both tails keep. *)
Record both_tails (ranks : list Z) : Prop := {
  bt_increasing : increasing ranks;
  bt_range : Forall (fun r => 0 <= r < zlen V /\ (r < d \/ h <= r)) ranks;
  bt_dense : forall r, 0 <= r < zlen V -> r < SKETCH_DENSE \/ zlen V - SKETCH_DENSE <= r -> r ∈ ranks;
  bt_size : zlen ranks <= 2 * SKETCH_TAIL }.

Lemma ranks_spec : exists lows highs, tailRanks d = Some lows /\ tailRanks d = Some highs /\
  both_tails (unique (sorted (lows ++ ((fun r => zlen V - 1 - r) <$> highs)))).
Proof.
  pose proof values_pos as Hp. destruct (tailRanks_spec d) as (l & El & [H1 H2 H3 H4]); [unfold d, SKETCH_TAIL; lia|].
  exists l, l. split; [done|]. split; [done|]. set (ls := l ++ ((fun r => zlen V - 1 - r) <$> l)).
  destruct (unique_spec (sorted ls) (sorted_less ls)) as (U1 & U2 & U3). rewrite zlen_sort in U3 by apply _.
  assert (forall x, x ∈ unique (sorted ls) <-> x ∈ l \/ zlen V - 1 - x ∈ l) as Hin.
  { intros x. rewrite U2, sort_Permutation by apply _. unfold ls. rewrite elem_of_app, list_elem_of_fmap. split.
    - intros [Hx|(y & -> & Hy)]; [by left|]. right. by replace (zlen V - 1 - (zlen V - 1 - y)) with y by lia.
    - intros [Hx|Hx]; [by left|]. right. exists (zlen V - 1 - x). split; [lia|done]. }
  rewrite Forall_forall in H2. assert (d <= zlen V /\ d <= SKETCH_TAIL /\ (SKETCH_DENSE <= d \/ d = zlen V)) as (D1 & D2 & D3).
  { unfold d, SKETCH_DENSE, SKETCH_TAIL. lia. }
  constructor.
  - done.
  - apply Forall_forall. intros x [Hx|Hx]%Hin; apply H2 in Hx; unfold h; lia.
  - intros r Hr Hd. apply Hin. destruct Hd as [Hd|Hd]; [left|right]; apply H4; lia.
  - assert (zlen ls = zlen l + zlen l) by (unfold ls; by rewrite zlen_app, zlen_fmap). pose proof (increasing_bound l d H1) as Hb.
    rewrite Forall_forall in Hb. specialize (Hb H2 ltac:(unfold d, SKETCH_TAIL; lia)). lia.
Qed.

Lemma tail_points ranks : both_tails ranks ->
  mapM (fun rank => value ← (if decide (rank < d) then least.[rank] else greatest.[zlen V - 1 - rank]); Some (Point rank value)) ranks
  = Some (ranked <$> ranks).
Proof.
  intros Hb. apply mapM_total. intros r Hr. pose proof (bt_range _ Hb) as Hf. rewrite Forall_forall in Hf. destruct (Hf r Hr) as [H1 H2].
  assert ((if decide (r < d) then least.[r] else greatest.[zlen V - 1 - r]) = (sorted V).[r]) as ->.
  { case_decide; [by apply least_at|]. rewrite greatest_at by (unfold h in H2; lia). f_equal. lia. }
  rewrite ranked_value by done. done.
Qed.

Lemma ranked_ranks (l : list Z) : prank <$> (ranked <$> l) = l.
Proof. rewrite <- list_fmap_compose. apply list_fmap_id. Qed.

Lemma ranked_sorted l : increasing l -> Forall (fun r => 0 <= r < zlen V) l -> StronglySorted Z.le (pvalue <$> (ranked <$> l)).
Proof.
  induction 1 as [|a l Hl IH Ha]; intros Hf; [constructor|]. apply Forall_cons in Hf as [Hv Hf]. simpl. constructor; [by apply IH|].
  rewrite !Forall_fmap. rewrite Forall_forall in Ha, Hf. apply Forall_forall. intros r Hr. simpl.
  apply (sorted_mono V a r); [by apply ranked_value|by apply ranked_value, Hf|pose proof (Ha r Hr); lia].
Qed.

(** ** The bulk *)

Lemma last_least : exists lowest, last least = Some lowest /\ (sorted V).[d - 1] = Some lowest.
Proof.
  pose proof values_pos. rewrite last_zget, zlen_least, least_at by lia.
  destruct (zget_in (sorted V) (d - 1)) as [x Ex]; [rewrite zlen_sort by apply _; unfold d, SKETCH_TAIL; lia|]. by exists x.
Qed.

Lemma last_greatest : exists highest, last greatest = Some highest /\ (sorted V).[h] = Some highest.
Proof.
  pose proof values_pos. assert (1 <= d <= zlen V) by (unfold d, SKETCH_TAIL; lia). rewrite last_zget, zlen_greatest, greatest_at by lia.
  replace (zlen V - 1 - (d - 1)) with h by (unfold h; lia).
  destruct (zget_in (sorted V) h) as [x Ex]; [rewrite zlen_sort by apply _; unfold h; lia|]. by exists x.
Qed.

(** The points between the tails, from the first [j] values of the sample [sa]. *)
Record bulk_of (lowest highest : Z) (sa : list Z) (j : Z) (bulk : list SketchPoint) : Prop := {
  bk_ranks : increasing (prank <$> bulk);
  bk_values : StronglySorted Z.le (pvalue <$> bulk);
  bk_range : Forall (fun p => d <= prank p < h /\ lowest <= pvalue p <= highest) bulk;
  bk_from : Forall (fun p => exists i, i < j /\ sa.[i] = Some (pvalue p)) bulk;
  bk_size : zlen bulk <= j }.

Lemma last_rank (bulk : list SketchPoint) p q : increasing (prank <$> bulk) -> last bulk = Some p -> q ∈ bulk -> prank q <= prank p.
Proof.
  intros Hi [l ->]%last_Some Hq. rewrite fmap_app in Hi. apply elem_of_app in Hq as [Hq| ->%list_elem_of_singleton]; [|lia].
  assert (prank q < prank p); [|lia]. eapply (StronglySorted_app_1_elem_of Z.lt); [exact Hi|by apply list_elem_of_fmap_2|left].
Qed.

Lemma bulk_step lowest highest sa j bulk : last least = Some lowest -> last greatest = Some highest ->
  StronglySorted Z.le sa -> zlen sa < 2048 -> 0 <= j < zlen sa -> bulk_of lowest highest sa j bulk ->
  exists bulk', bulkStep least greatest sa (zlen V) d h bulk j = Some bulk' /\ bulk_of lowest highest sa (j + 1) bulk'.
Proof.
  intros El Eg Hsa Hl Hj [H1 H2 H3 H4 H5]. unfold bulkStep. pose proof values_pos.
  destruct (expectedRank_ok j (zlen V) (zlen sa)) as (rank & -> & _); [lia..|].
  rewrite bind_Some_l. destruct (zget_in sa j) as [v Ev]; [done|]. rewrite Ev, El, Eg. rewrite !bind_Some_l. eexists. split; [done|].
  assert (Forall (fun p => exists i, i < j + 1 /\ sa.[i] = Some (pvalue p)) bulk) as H4'.
  { eapply Forall_impl; [exact H4|]. intros p (i & Hi & Ei). exists i. split; [lia|done]. }
  destruct (_ || _) eqn:E; [by constructor; try done; lia|].
  repeat (apply orb_false_elim in E as [E ?]). repeat match goal with H : bool_decide _ = false |- _ => apply bool_decide_eq_false in H end.
  constructor.
  - rewrite fmap_app. apply sorted_snoc; [done|]. apply Forall_fmap, Forall_forall. intros q Hq. simpl.
    destruct (last bulk) as [p|] eqn:Ep; [|apply last_None in Ep as ->; by apply elem_of_nil in Hq].
    pose proof (last_rank bulk p q H1 Ep Hq). match goal with H : bool_decide _ = false |- _ => apply bool_decide_eq_false in H end. lia.
  - rewrite fmap_app. apply sorted_snoc; [done|]. apply Forall_fmap. eapply Forall_impl; [exact H4|]. intros p (i & Hi & Ei). simpl.
    by apply (sorted_zget Z.le sa i j).
  - apply Forall_app. split; [done|]. repeat constructor; simpl; lia.
  - apply Forall_app. split; [done|]. repeat constructor. exists j. split; [lia|done].
  - rewrite zlen_app. change (zlen [Point rank v]) with 1. lia.
Qed.

Lemma insert_at ranks : both_tails ranks -> d < h ->
  lower_bound (fun i => (fun p => bool_decide (prank p < h)) <$> (ranked <$> ranks).[i]) 0 (zlen (ranked <$> ranks))
  = Some (zlen (filter (fun r => r < h) ranks)).
Proof.
  intros Hb Hdh. apply lower_bound_cut; [|rewrite zlen_fmap; pose proof (bt_size _ Hb); change SKETCH_TAIL with 16384 in *; lia].
  pose proof (increasing_split ranks h (bt_increasing _ Hb)) as Es. set (A := filter (fun r => r < h) ranks) in *.
  set (B := filter (fun r => h <= r) ranks) in *. rewrite zlen_fmap. assert (zlen ranks = zlen A + zlen B) as El by (rewrite Es at 1; apply zlen_app).
  pose proof (zlen_nonneg A). pose proof (zlen_nonneg B). split; [lia|].
  assert (forall i r, ranks.[i] = Some r -> (fun p => bool_decide (prank p < h)) <$> (ranked <$> ranks).[i] = Some (bool_decide (r < h))) as Hr.
  { intros i r Ei. by rewrite zget_fmap, Ei. }
  split; intros i Hi; destruct (zget_in ranks i) as [r Ei]; try lia; rewrite (Hr i r Ei); f_equal; rewrite Es in Ei.
  - rewrite zget_app_l in Ei by lia. apply zget_elem_1, list_elem_of_filter in Ei as [? _]. by apply bool_decide_eq_true_2.
  - rewrite zget_app_r in Ei by lia. apply zget_elem_1, list_elem_of_filter in Ei as [? _]. apply bool_decide_eq_false_2. lia.
Qed.

Lemma tails_sketch ranks : both_tails ranks -> sketch_of V (ranked <$> ranks).
Proof.
  intros [H1 H2 H3 H4]. assert (Forall (fun r => 0 <= r < zlen V) ranks) as Hr by (eapply Forall_impl; [exact H2|]; simpl; lia).
  constructor; rewrite ?ranked_ranks; [done|by apply ranked_sorted| | |done|].
  - apply Forall_fmap. eapply Forall_impl; [exact Hr|]. intros r Hv. simpl. split; [done|]. by apply ranked_in.
  - apply Forall_fmap. eapply Forall_impl; [exact Hr|]. intros r Hv _. by apply ranked_value.
  - rewrite zlen_fmap. change SKETCH_TAIL with 16384 in H4. lia.
Qed.

Lemma whole_sketch ranks lowest highest sa bulk : both_tails ranks -> d < h -> (sorted V).[d - 1] = Some lowest ->
  (sorted V).[h] = Some highest -> (forall v, v ∈ sa -> v ∈ V) -> zlen sa < 2048 -> bulk_of lowest highest sa (zlen sa) bulk ->
  sketch_of V ((ranked <$> filter (fun r => r < h) ranks) ++ bulk ++ (ranked <$> filter (fun r => h <= r) ranks)).
Proof.
  intros Hb Hdh Hlo Hhi Hin Hsa [B1 B2 B3 B4 B5]. pose proof (tails_sketch _ Hb) as [S1 S2 S3 S4 S5 S6].
  pose proof (increasing_split ranks h (bt_increasing _ Hb)) as Es. pose proof (bt_range _ Hb) as Hr. rewrite Forall_forall in Hr. rewrite Forall_forall in B3. rewrite Forall_forall in B4.
  assert (forall r, r ∈ filter (fun r => r < h) ranks -> 0 <= r < d) as HA.
  { intros r [? Hr']%list_elem_of_filter. pose proof (Hr r Hr'). lia. }
  assert (forall r, r ∈ filter (fun r => h <= r) ranks -> h <= r < zlen V) as HB.
  { intros r [? Hr']%list_elem_of_filter. pose proof (Hr r Hr'). lia. }
  pose proof (bt_size _ Hb) as Hsz. change SKETCH_TAIL with 16384 in Hsz.
  set (A := filter (fun r => r < h) ranks) in *. set (B := filter (fun r => h <= r) ranks) in *.
  rewrite Es in S1, S2, S3, S4, S5. rewrite Es, zlen_app in Hsz. rewrite fmap_app in S1, S2, S3, S4, S5.
  pose proof (zlen_sort Z.ltb V) as Hzs.
  assert (forall p, p ∈ bulk -> 0 <= prank p < zlen V /\ pvalue p ∈ V) as Hbulk.
  { intros p Hp. destruct (B4 p Hp) as (i & _ & Ei). split; [|by eapply Hin, zget_elem_1]. pose proof (B3 p Hp). pose proof values_pos.
    unfold h, d, SKETCH_TAIL in *. lia. }
  constructor.
  - rewrite fmap_app in S1. rewrite !fmap_app. apply StronglySorted_app in S1 as (C1 & C2 & C3).
    apply StronglySorted_app_2; [|done|apply StronglySorted_app_2; [|done|done]]; rewrite !ranked_ranks in *.
    + intros x y Hx%HA [Hy|Hy]%elem_of_app; [|apply HB in Hy; lia]. apply list_elem_of_fmap in Hy as (p & -> & Hp). pose proof (B3 p Hp). lia.
    + intros x y Hx Hy%HB. apply list_elem_of_fmap in Hx as (p & -> & Hp). pose proof (B3 p Hp). lia.
  - rewrite fmap_app in S2. rewrite !fmap_app. apply StronglySorted_app in S2 as (C1 & C2 & C3).
    assert (forall x, x ∈ pvalue <$> (ranked <$> A) -> x <= lowest) as LA.
    { intros x Hx. rewrite <- list_fmap_compose in Hx. apply list_elem_of_fmap in Hx as (r & -> & Hr'%HA).
      apply (sorted_mono V r (d - 1)); [|done|lia]. apply ranked_value. unfold d in Hr'. lia. }
    assert (forall x, x ∈ pvalue <$> (ranked <$> B) -> highest <= x) as LB.
    { intros x Hx. rewrite <- list_fmap_compose in Hx. apply list_elem_of_fmap in Hx as (r & -> & Hr'%HB).
      apply (sorted_mono V h r); [done| |lia]. apply ranked_value. apply zget_Some_range in Hhi. lia. }
    assert (lowest <= highest) as Hlh by (apply (sorted_mono V (d - 1) h); [done..|lia]).
    apply StronglySorted_app_2; [|done|apply StronglySorted_app_2; [|done|done]].
    + intros x y Hx%LA [Hy|Hy]%elem_of_app; [|apply LB in Hy; lia]. apply list_elem_of_fmap in Hy as (p & -> & Hp). pose proof (B3 p Hp). lia.
    + intros x y Hx Hy%LB. apply list_elem_of_fmap in Hx as (p & -> & Hp). pose proof (B3 p Hp). lia.
  - apply Forall_app in S3 as [C1 C2]. apply Forall_app. split; [done|]. apply Forall_app. split; [by apply Forall_forall|done].
  - apply Forall_app in S4 as [C1 C2]. apply Forall_app. split; [done|]. apply Forall_app. split; [|done].
    apply Forall_forall. intros p Hp Hor. pose proof (B3 p Hp). exfalso. pose proof values_pos. unfold h, d in *. lia.
  - intros r Hv Hor. pose proof (S5 r Hv Hor) as Hr'. rewrite !fmap_app, !elem_of_app in *. tauto.
  - rewrite !zlen_app, !zlen_fmap. lia.
Qed.

(** ** The points of a finished sketcher *)

Lemma sketcher_finish s : sketcher_of V s -> exists points, finish s = Some points /\ sketch_of V points.
Proof.
  intros [Hl Hh Hs _ Hc]. unfold finish. rewrite (tail_finish Z.ltb SKETCH_TAIL V), bind_Some_l by done.
  rewrite (tail_finish Z.gtb SKETCH_TAIL V), bind_Some_l by done. fold least greatest.
  pose proof values_pos as Hp. rewrite Hc, decide_False by lia. cbv zeta. rewrite zlen_least, zlen_greatest. fold h.
  destruct ranks_spec as (lows & highs & E1 & E2 & Hb). rewrite E1, bind_Some_l. rewrite E1 in E2. apply (inj Some) in E2 as <-. rewrite bind_Some_l.
  set (ranks := unique (sorted (lows ++ ((fun r => zlen V - 1 - r) <$> lows)))) in *. rewrite tail_points, bind_Some_l by done.
  destruct (decide (h > d)) as [Hhd|]; [|exists (ranked <$> ranks); split; [done|by apply tails_sketch]].
  destruct last_least as (lowest & El & Elo). destruct last_greatest as (highest & Eg & Ehi).
  assert (zlen (sorted (sample s)) < 2048) as Hsz by (rewrite zlen_sort by apply _; apply (sp_room _ _ _ Hs)).
  destruct (foldM_seqZ (bulk_of lowest highest (sorted (sample s)))
    (bulkStep least greatest (sorted (sample s)) (zlen V) d h) [] 0 (zlen (sorted (sample s)))) as (bulk & -> & Hbulk).
  - apply zlen_nonneg.
  - constructor; try done; constructor.
  - intros j bulk Hj Hbk. apply bulk_step; [done|done|apply sorted_less|done|lia|done].
  - rewrite bind_Some_l, insert_at, bind_Some_l by (done || lia). eexists. split; [done|].
    pose proof (increasing_split ranks h (bt_increasing _ Hb)) as Es.
    assert (take (Z.to_nat (zlen (filter (fun r => r < h) ranks))) (ranked <$> ranks) = ranked <$> filter (fun r => r < h) ranks) as ->.
    { rewrite Es at 2. rewrite fmap_app. apply take_app_length'. rewrite length_fmap. unfold zlen. lia. }
    assert (drop (Z.to_nat (zlen (filter (fun r => r < h) ranks))) (ranked <$> ranks) = ranked <$> filter (fun r => h <= r) ranks) as ->.
    { rewrite Es at 2. rewrite fmap_app. apply drop_app_length'. rewrite length_fmap. unfold zlen. lia. }
    apply (whole_sketch ranks lowest highest (sorted (sample s))); [done|lia|done|done| |done|done].
    intros v Hv. rewrite sort_Permutation in Hv by apply _. apply zget_elem in Hv as [q Eq].
    rewrite (sp_value _ _ _ Hs) in Eq by (by eapply zget_Some_range). by eapply zget_elem_1.
Qed.

End finishing.

(** What its reader relies on. *)
Lemma sketch_ends V points : V <> [] -> sketch_of V points ->
  0 < zlen points <= zlen V /\ prank <$> points.[0] = Some 0 /\ prank <$> points.[zlen points - 1] = Some (zlen V - 1).
Proof.
  intros HV Hs. pose proof (values_pos V HV) as Hp. destruct Hs as [H1 _ H3 _ H5 _]. rewrite Forall_forall in H3.
  assert (zlen points <= zlen V) as Hle.
  { rewrite <- (zlen_fmap prank). apply increasing_bound; [done| |lia]. apply Forall_fmap, Forall_forall. intros p Hpt. by apply H3. }
  assert (0 ∈ prank <$> points) as H0 by (apply H5; change SKETCH_DENSE with 64; lia).
  assert (zlen V - 1 ∈ prank <$> points) as Hl by (apply H5; change SKETCH_DENSE with 64; lia).
  apply zget_elem in H0 as [i Hi]. apply zget_elem in Hl as [j Hj].
  pose proof (zget_Some_range _ _ _ Hi) as Ri. pose proof (zget_Some_range _ _ _ Hj) as Rj. rewrite zlen_fmap in Ri, Rj.
  split; [lia|]. rewrite <- !zget_fmap. split.
  - destruct (decide (i = 0)) as [->|]; [done|]. destruct (zget_in (prank <$> points) 0) as [x Ex]; [rewrite zlen_fmap; lia|].
    pose proof (increasing_zget _ _ _ _ _ H1 Ex Hi ltac:(lia)). rewrite zget_fmap in Ex. apply fmap_Some in Ex as (p & Ep & ->).
    apply zget_elem_1, H3 in Ep. lia.
  - destruct (decide (j = zlen points - 1)) as [<-|]; [done|].
    destruct (zget_in (prank <$> points) (zlen points - 1)) as [x Ex]; [rewrite zlen_fmap; lia|].
    pose proof (increasing_zget _ _ _ _ _ H1 Hj Ex ltac:(lia)). rewrite zget_fmap in Ex. apply fmap_Some in Ex as (p & Ep & ->).
    apply zget_elem_1, H3 in Ep. lia.
Qed.

End sketches.
