(* ===== verification/NumColumn.v ===== *)
(** Numeric columns: the block codec of [luxir/codec/NumBlockCodec.h], the column writer of
    [luxir/codec/NumColumnWriter.h] with its value sketch, and the reader and its cursor of
    [luxir/codec/NumColumn.h].  A stream is the list of the bytes written to it, which is
    what the output stream is shown to hold; memory is a list of bytes at an aligned
    address. *)

From S2P Require Import Prelude Encoding LinearPack LinearFit NumFormat ValueSketcher.

Definition MAX_ALIGN : Z := 8.

(** [OutputStream::align]. *)
Definition align (alignment : Z) (out : list Z) : list Z :=
  out ++ replicate (Z.to_nat ((- zlen out) `mod` alignment)) 17.

(** The bytes of an array of 64-bit integers. *)
Definition int64_bytes (values : list Z) : list Z := mjoin (store_le 8 <$> values).

Module NumBlockCodec.
Import NumColumnFormat.

Definition pack (writer : LinearPack.writer) (count : Z) (plan : BlockPlan) (quotients : list Z)
    : option LinearPack.writer :=
  foldM (fun writer i =>
    q ← quotients.[i];
    r ← residual plan i q;
    m ← LinearPack.mask64 (pbits plan);
    if decide (r <= m) then LinearPack.append r writer else None) writer (seqZ 0 count).

(** The descriptor with the payload's offset, and the stream with the payload. *)
Definition write (out : list Z) (origin : Z) (values : list Z) (plan : BlockPlan) (quotients : list Z)
    : option (NumBlockInfo.info * list Z) :=
  let out := if raw plan then align MAX_ALIGN out else out in
  i ← NumBlockInfo.setPayload (u64 (zlen out - origin)) (pbits plan) (info plan);
  if raw plan then Some (i, out ++ int64_bytes values)
  else
    writer ← LinearPack.make out (pbits plan);
    writer ← pack writer (zlen values) plan quotients;
    '(_, writer) ← LinearPack.finish false writer;
    Some (i, LinearPack.target writer).

Definition append (out values : list Z) (useGcd : bool) : option (NumBlockInfo.info * list Z) :=
  '(plan, quotients) ← planBlock values useGcd false;
  i ← NumBlockInfo.setPayload (zlen out) (pbits plan) (info plan);
  if raw plan then Some (i, out ++ int64_bytes values)
  else
    writer ← LinearPack.make out (pbits plan);
    writer ← pack writer (zlen values) plan quotients;
    '(_, writer) ← LinearPack.finish false writer;
    Some (i, LinearPack.target writer).

End NumBlockCodec.

(** * The writer *)

Module NumColumnWriter.
Import NumColumnFormat.

Record FinishData := Finished { columnLoc : Z; columnMetaOff : Z; numValues : Z }.

Record writer := Writer {
  out : list Z;
  colStart : Z;
  nAdded : Z;
  overallMin : Z;
  overallMax : Z;
  finished : bool;
  blockInfo : list NumBlockInfo.info;
  blockZones : list NumBlockZone;
  leafZones : list NumBlockZone;
  sketcher : ValueSketcher.sketcher;
  values : list Z;
  useGcd : bool;
  zonesEnabled : bool;
  sketchEnabled : bool }.

Definition make (out : list Z) (useGcd writeZones writeSketch : bool) : option writer :=
  if decide (writeSketch = true -> writeZones = true) then
    Some (Writer out (zlen out) 0 (2 ^ 63 - 1) (- 2 ^ 63) false [] [] [] ValueSketcher.fresh [] useGcd writeZones writeSketch)
  else None.

(** [addBlock (values)] followed by [values.clear ()]. *)
Definition addBlock (w : writer) : option writer :=
  '(plan, quotients) ← planBlock (values w) (useGcd w) (zonesEnabled w);
  '(i, out) ← NumBlockCodec.write (out w) (colStart w) (values w) plan quotients;
  sketcher ← (if sketchEnabled w then ValueSketcher.add (values w) (sketcher w) else Some (sketcher w));
  Some (Writer out (colStart w) (nAdded w) (Z.min (overallMin w) (zmin (zone plan)))
          (Z.max (overallMax w) (zmax (zone plan))) (finished w)
          (blockInfo w ++ [i]) (blockZones w ++ [zone plan]) (leafZones w ++ NumColumnFormat.leafZones plan)
          sketcher [] (useGcd w) (zonesEnabled w) (sketchEnabled w)).

Definition addInt64 (val : Z) (w : writer) : option writer :=
  if finished w then None
  else
    if decide (is_s 64 (nAdded w + 1)) then
      let w := Writer (out w) (colStart w) (nAdded w + 1) (overallMin w) (overallMax w) (finished w)
                 (blockInfo w) (blockZones w) (leafZones w) (sketcher w) (values w ++ [val]) (useGcd w) (zonesEnabled w)
                 (sketchEnabled w) in
      if decide (zlen (values w) = BLOCK_SIZE) then addBlock w else Some w
    else None.

(** The bytes of the descriptors and of the zones. *)
Definition info_bytes (i : NumBlockInfo.info) : list Z :=
  store_le 8 (NumBlockInfo.offsetAndBits i) ++ store_le 8 (NumBlockInfo.baseBits i) ++
  store_le 8 (NumBlockInfo.gcd i) ++ store_le 8 (NumBlockInfo.scaledSlope i).

Definition zone_bytes (z : NumBlockZone) : list Z := store_le 8 (zmin z) ++ store_le 8 (zmax z).

Definition point_bytes (p : ValueSketcher.SketchPoint) : list Z :=
  store_le 8 (ValueSketcher.prank p) ++ store_le 8 (ValueSketcher.pvalue p).

(** The leaf metadata: zones, the two orders, and the sketch with the count of its points. *)
Definition leafMeta (w : writer) : option (list Z) :=
  if decide (leafZones w = []) then Some []
  else if decide (zlen (leafZones w) = (nAdded w + LEAF_ZONE_SIZE - 1) / LEAF_ZONE_SIZE) then
    byMin ← leafVisitOrder (leafZones w) false;
    byMax ← leafVisitOrder (leafZones w) true;
    sketch ← (if sketchEnabled w then ValueSketcher.finish (sketcher w) else Some []);
    if decide (bool_decide (sketch = []) <> sketchEnabled w /\ zlen sketch <= nAdded w) then
      Some (mjoin (zone_bytes <$> leafZones w) ++ mjoin (store_le 4 <$> byMin) ++ mjoin (store_le 4 <$> byMax)
            ++ store_le 4 (u32 (zlen sketch)) ++ mjoin (point_bytes <$> sketch))
    else None
  else None.

Definition finish (writeZones writeBounds : bool) (w : writer) : option (FinishData * writer) :=
  if decide (finished w = false /\ (writeBounds = true -> writeZones = true) /\ (writeZones = true -> zonesEnabled w = true))
  then
    w ← (if decide (values w <> []) then addBlock w else Some w);
    let out1 := align MAX_ALIGN (out w) in
    let metaOff := zlen out1 - colStart w in
    let out2 := out1 ++ mjoin (info_bytes <$> blockInfo w) in
    leaves ← (if writeZones then leafMeta w else Some []);
    let out3 := if writeZones then align MAX_ALIGN out2 ++ mjoin (zone_bytes <$> blockZones w) ++ leaves else out2 in
    let min := if decide (nAdded w = 0) then 0 else overallMin w in
    let max := if decide (nAdded w = 0) then 0 else overallMax w in
    trailer ← (if writeBounds then a ← writeVLong (u64 min); b ← writeVLong (u64 max); Some (a ++ b) else Some []);
    Some (Finished (colStart w) metaOff (nAdded w),
          Writer (out3 ++ trailer) (colStart w) (nAdded w) (if writeBounds then min else overallMin w)
            (if writeBounds then max else overallMax w) true (blockInfo w) (blockZones w) (leafZones w) (sketcher w)
            (values w) (useGcd w) (zonesEnabled w) (sketchEnabled w))
  else None.

End NumColumnWriter.

(** * The reader *)

Module NumColumn.
Import NumColumnFormat NumBlockInfo.

Record column := Column { mem : list Z; blocks : Z; blockMeta : Z; nValues : Z; withGcd : bool }.

Definition ENDINDEX : Z := 2 ^ 63 - 1.

Definition make (mem : list Z) (blocks blockMeta nValues : Z) (withGcd : bool) : option column :=
  if decide (Z.land blockMeta 7 = 0) then Some (Column mem blocks blockMeta nValues withGcd) else None.

Definition reconstruct (withGcd : bool) (i : info) (rankInBlock residual : Z) : option Z :=
  let scaled :=
    if decide (scaledSlope i <> 0) then u64 (residual + u64 (slopeTerm rankInBlock (scaledSlope i))) else residual in
  if withGcd then Some (s64 (u64 (baseBits i + gcd i * scaled)))
  else if decide (gcd i = 1) then Some (s64 (u64 (baseBits i + scaled))) else None.

Definition numBlocks (c : column) : Z := Z.quot (nValues c + BLOCK_SIZE - 1) BLOCK_SIZE.

Definition blockInfo (c : column) (blockNum : Z) : option info :=
  if decide (0 <= blockNum < numBlocks c) then
    let at_ := blockMeta c + 32 * blockNum in
    a ← load 8 (mem c) at_; b ← load 8 (mem c) (at_ + 8); g ← load 8 (mem c) (at_ + 16);
    s ← load 8 (mem c) (at_ + 24);
    Some (Info a b g (s64 s))
  else None.

Definition affineBlock (c : column) (blockNum : Z) : option (option (Z * Z)) :=
  i ← blockInfo c blockNum;
  Some (if decide (bits i <> 0 \/ Z.land (u64 (scaledSlope i)) (Z.shiftl 1 SLOPE_SHIFT - 1) <> 0) then None
        else
          let step := u64 (Z.shiftr (scaledSlope i) SLOPE_SHIFT) in
          Some (baseBits i, if withGcd c then u64 (step * gcd i) else step)).

Definition valuesInBlock (c : column) (blockNum : Z) : option Z :=
  if decide (0 <= blockNum < numBlocks c) then Some (Z.min BLOCK_SIZE (nValues c - blockNum * BLOCK_SIZE)) else None.

Definition payload (c : column) (i : info) : Z := blocks c + payloadOffset i.

Definition valueAt (c : column) (rank : Z) : option Z :=
  if decide (0 <= rank < nValues c) then
    let rankInBlock := rank `mod` BLOCK_SIZE in
    i ← blockInfo c (rank / BLOCK_SIZE);
    if decide (bits i > MAX_PACKED_BITS) then
      v ← load 8 (mem c) (payload c i + rankInBlock * 8); Some (s64 v)
    else
      m ← LinearPack.mask64 (bits i);
      r ← LinearPack.select64 (mem c) (payload c i) rankInBlock (bits i) m;
      reconstruct (withGcd c) i rankInBlock r
  else None.

Definition rankBounds (c : column) (blockNum lo hi : Z) : option (option RankBounds) :=
  i ← blockInfo c blockNum;
  if linearFit i then
    v0 ← valueAt c (blockNum * BLOCK_SIZE);
    n ← valuesInBlock c blockNum;
    linearRankBounds i v0 n lo hi
  else Some None.

Definition valuesAt (c : column) (rank : Z) : option (Z * Z) :=
  if decide (0 <= rank < nValues c) then
    let rankInBlock := rank `mod` BLOCK_SIZE in
    if decide (rankInBlock = 0) then
      a ← (if decide (rank > 0) then valueAt c (rank - 1) else Some 0);
      b ← valueAt c rank;
      Some (a, b)
    else
      i ← blockInfo c (rank / BLOCK_SIZE);
      if decide (bits i > MAX_PACKED_BITS) then
        a ← load 8 (mem c) (payload c i + (rankInBlock - 1) * 8);
        b ← load 8 (mem c) (payload c i + (rankInBlock - 1) * 8 + 8);
        Some (s64 a, s64 b)
      else
        m ← LinearPack.mask64 (bits i);
        prev ← LinearPack.select64 (mem c) (payload c i) (rankInBlock - 1) (bits i) m;
        cur ← LinearPack.select64 (mem c) (payload c i) rankInBlock (bits i) m;
        a ← reconstruct (withGcd c) i (rankInBlock - 1) prev;
        b ← reconstruct (withGcd c) i rankInBlock cur;
        Some (a, b)
  else None.

Definition decodeResidualFrame (c : column) (rank : Z) : option (Z * list Z) :=
  if decide (0 <= rank < nValues c) then
    let start := rank / BULK_SIZE * BULK_SIZE in
    i ← blockInfo c (start / BLOCK_SIZE);
    if residualComparable i then
      let count := Z.min BULK_SIZE (nValues c - start) in
      m ← LinearPack.mask32 (bits i);
      rs ← LinearPack.unpack128 (mem c) (payload c i) (start `mod` BLOCK_SIZE) count (bits i) m;
      Some (start, rs)
    else None
  else None.

(** The rank of the first value of the frame and the values. *)
Definition decodeFrame (c : column) (rank : Z) : option (Z * list Z) :=
  if decide (0 <= rank < nValues c) then
    let start := rank / BULK_SIZE * BULK_SIZE in
    let blockNum := start / BLOCK_SIZE in
    let rankInBlock := start `mod` BLOCK_SIZE in
    i ← blockInfo c blockNum;
    let count := Z.min BULK_SIZE (nValues c - start) in
    vs ← (if decide (bits i > MAX_PACKED_BITS) then
            mapM (fun k => v ← load 8 (mem c) (payload c i + rankInBlock * 8 + 8 * k); Some (s64 v)) (seqZ 0 count)
          else if decide (bits i <= 32) then
            m ← LinearPack.mask32 (bits i);
            residuals ← LinearPack.unpack128 (mem c) (payload c i) rankInBlock count (bits i) m;
            if decide (gcd i = 1 /\ scaledSlope i = 0) then
              mapM (fun k => r ← residuals.[k]; Some (s64 (u64 (baseBits i + r)))) (seqZ 0 count)
            else if decide (scaledSlope i = 0) then
              mapM (fun k => r ← residuals.[k]; Some (s64 (u64 (baseBits i + gcd i * r)))) (seqZ 0 count)
            else
              mapM (fun k => r ← residuals.[k]; reconstruct (withGcd c) i (rankInBlock + k) r) (seqZ 0 count)
          else
            m ← LinearPack.mask64 (bits i);
            mapM (fun k => r ← LinearPack.select64 (mem c) (payload c i) (rankInBlock + k) (bits i) m;
                           reconstruct (withGcd c) i (rankInBlock + k) r) (seqZ 0 count));
    Some (start, vs)
  else None.

End NumColumn.

(** * The cursor *)

Module Bulk.

(** [decoded] holds the values of the frame last decoded. *)
Record bulk := MkBulk { index : Z; decodedStart : Z; decodedEnd : Z; decoded : list Z }.

Definition fresh : bulk := MkBulk (-1) (-1) (-1) [].

Definition decode (c : NumColumn.column) (i : Z) (b : bulk) : option bulk :=
  '(start, vs) ← NumColumn.decodeFrame c i;
  Some (MkBulk (index b) start (start + zlen vs) vs).

Definition set_index (i : Z) (b : bulk) : bulk := MkBulk i (decodedStart b) (decodedEnd b) (decoded b).

Definition value (b : bulk) : option Z :=
  if decide (decodedStart b <= index b < decodedEnd b) then (decoded b).[index b - decodedStart b] else None.

Definition next (c : NumColumn.column) (b : bulk) : option (Z * bulk) :=
  if decide (is_s 64 (index b + 1)) then
    let b := set_index (index b + 1) b in
    if decide (index b >= NumColumn.nValues c) then Some (NumColumn.ENDINDEX, set_index NumColumn.ENDINDEX b)
    else b ← (if decide (index b >= decodedEnd b) then decode c (index b) b else Some b); Some (index b, b)
  else None.

Definition advance (c : NumColumn.column) (target : Z) (b : bulk) : option (Z * bulk) :=
  if decide (target > index b) then
    let b := set_index target b in
    if decide (index b >= NumColumn.nValues c) then Some (NumColumn.ENDINDEX, set_index NumColumn.ENDINDEX b)
    else
      b ← (if decide (index b < decodedStart b \/ index b >= decodedEnd b) then decode c (index b) b else Some b);
      Some (index b, b)
  else None.

Definition valueAt (c : NumColumn.column) (i : Z) (b : bulk) : option (Z * bulk) :=
  if decide (0 <= i < NumColumn.nValues c) then
    b ← (if decide (i < decodedStart b \/ i >= decodedEnd b) then decode c i b else Some b);
    v ← (decoded b).[i - decodedStart b];
    Some (v, b)
  else None.

End Bulk.

(** * Blocks in memory *)

Section blocks.
Import NumBlockInfo NumColumnFormat.

(** The payload of a block at an offset of memory. *)
Definition payload_at (mem : list Z) (off : Z) (b : NumBlockInfo.info) (vs : list Z) : Prop :=
  (bits b = RAW_BITS /\ slice mem off (8 * zlen vs) = Some (int64_bytes vs)) \/
  (exists rs out, encodes b vs (zget rs) /\ zlen rs = zlen vs /\ slice mem off (zlen out) = Some out /\
     is_bytes out /\ le out = digits (bits b) rs /\ zlen out = (bits b * zlen rs + 7) / 8).

Lemma payload_at_mono mem off b vs post : payload_at mem off b vs -> payload_at (mem ++ post) off b vs.
Proof.
  assert (forall n l, slice mem off n = Some l -> slice (mem ++ post) off n = Some l) as Hs.
  { intros n l H. exact (slice_mono [] mem post off n l H). }
  intros [[H1 H2]|(rs & out & H1 & H2 & H3 & H4)]; [left; auto|right]. exists rs, out. auto.
Qed.

Lemma encodes_residuals b vs rs : encodes b vs (zget rs) -> zlen rs = zlen vs -> Forall (is_u (bits b)) rs.
Proof.
  intros He Hl. apply Forall_forall. intros r [i Hi]%zget_elem. destruct (enc_line _ _ _ He) as (c & _ & _ & Hv).
  destruct (zget_in vs i) as [v Ev]; [apply zget_Some_range in Hi; lia|].
  destruct (Hv i v Ev) as (r' & Er & Hr & _). rewrite Hi in Er. by injection Er as ->.
Qed.

Lemma reconstruct_spec withGcd b c k v r :
  baseBits b = u64 c -> is_s 64 v -> v = c + gcd b * (slope_at b k + r) -> - 2 ^ 58 <= slope_at b k <= 2 ^ 58 ->
  0 <= k < 2 ^ 63 -> (withGcd = false -> gcd b = 1) -> NumColumn.reconstruct withGcd b k r = Some v.
Proof.
  intros Ec Hv Ev Hs Hk Hg. unfold NumColumn.reconstruct. rewrite slopeTerm_at by done. cbv zeta.
  set (scaled := if decide _ then _ else _).
  assert (u64 (u64 c + gcd b * scaled) = u64 v) as E.
  { assert (u64 scaled = u64 (slope_at b k + r)) as Es.
    { unfold scaled. case_decide as E0.
      - rewrite uwrap_idemp, uwrap_add_r by lia. f_equal. lia.
      - unfold slope_at. by rewrite E0, Z.mul_0_r, Z.shiftr_0_l. }
    rewrite uwrap_add_l, <- uwrap_add_r, <- uwrap_mul_r, Es, uwrap_mul_r, uwrap_add_r. by rewrite <- Ev. }
  assert (s64 (u64 (u64 c + gcd b * scaled)) = v) as E2 by (rewrite E, swrap_uwrap, swrap_id by (done || lia); done).
  destruct withGcd; rewrite Ec; [by rewrite E2|]. rewrite decide_True by auto. f_equal.
  rewrite (Hg eq_refl), Z.mul_1_l in E2. done.
Qed.

(** ** Reading a packed block *)

Definition room (mem : list Z) (off n b : Z) : Prop := b <= MAX_PACKED_BITS -> packed_room mem off n b.

Lemma select64_packed mem off b vs rs out i r :
  is_bytes mem -> encodes b vs (zget rs) -> zlen rs = zlen vs -> slice mem off (zlen out) = Some out ->
  le out = digits (bits b) rs -> zlen out = (bits b * zlen rs + 7) / 8 -> packed_room mem off (zlen vs) (bits b) ->
  rs.[i] = Some r -> LinearPack.select64 mem off i (bits b) (Z.ones (bits b)) = Some r.
Proof.
  intros Hm He Hl Hs Hle Hlen Hroom Hr. pose proof (encodes_residuals _ _ _ He Hl) as Hrs.
  pose proof (enc_bits _ _ _ He) as Hb. pose proof (zget_Some_range _ _ _ Hr).
  apply slice_Some in Hs as (pre & post & -> & <- & _).
  assert (field (pre ++ out ++ post) (8 * zlen pre + i * bits b) (bits b) = r) as Hf.
  { eapply packed_field; [done|lia|done|done| |done].
    rewrite Hlen. pose proof (Z.div_mod (bits b * zlen rs + 7) 8). pose proof (Z.mod_pos_bound (bits b * zlen rs + 7) 8). lia. }
  destruct (decide (bits b = 0)) as [E0|Hb0].
  - rewrite E0 in Hf |- *. unfold field in Hf. rewrite Z.land_0_r in Hf. by rewrite <- Hf.
  - rewrite (select64_field _ _ _ (zlen vs)) by (done || lia). by rewrite Hf.
Qed.

Lemma unpack128_packed mem off b vs rs out idx n :
  is_bytes mem -> encodes b vs (zget rs) -> zlen rs = zlen vs -> slice mem off (zlen out) = Some out ->
  le out = digits (bits b) rs -> zlen out = (bits b * zlen rs + 7) / 8 -> packed_room mem off (zlen vs) (bits b) ->
  bits b <= 32 -> 0 <= idx -> idx `mod` 8 = 0 -> 0 <= n <= 128 -> idx + n <= zlen vs ->
  LinearPack.unpack128 mem off idx n (bits b) (Z.ones (bits b)) = Some (take (Z.to_nat n) (drop (Z.to_nat idx) rs)).
Proof.
  intros Hm He Hl Hs Hle Hlen Hroom H32 Hidx H8 Hn Hin. pose proof (encodes_residuals _ _ _ He Hl) as Hrs.
  pose proof (enc_bits _ _ _ He) as Hb. apply slice_Some in Hs as (pre & post & -> & <- & _).
  rewrite (unpack128_fields _ _ _ _ (zlen vs)) by (done || lia). f_equal. apply packed_fields; (done || lia || idtac).
  rewrite Hlen. pose proof (Z.div_mod (bits b * zlen rs + 7) 8). pose proof (Z.mod_pos_bound (bits b * zlen rs + 7) 8). lia.
Qed.

(** ** Reading a raw block *)

Lemma int64_bytes_app l k : int64_bytes (l ++ k) = int64_bytes l ++ int64_bytes k.
Proof. unfold int64_bytes. by rewrite fmap_app, join_app. Qed.

Lemma int64_bytes_one v : int64_bytes [v] = store_le 8 v.
Proof. exact (app_nil_r _). Qed.

Lemma zlen_int64_bytes l : zlen (int64_bytes l) = 8 * zlen l.
Proof.
  induction l as [|v l IH]; [done|]. change (v :: l) with ([v] ++ l). rewrite int64_bytes_app, int64_bytes_one. zlen.
Qed.

Lemma is_bytes_int64_bytes l : is_bytes (int64_bytes l).
Proof.
  induction l as [|v l IH]; [apply List.Forall_nil|]. apply Forall_app. split; [by apply is_bytes_store_le|exact IH].
Qed.

Lemma load_raw mem off vs i v :
  slice mem off (8 * zlen vs) = Some (int64_bytes vs) -> vs.[i] = Some v -> is_s 64 v ->
  exists w, load 8 mem (off + i * 8) = Some w /\ s64 w = v.
Proof.
  intros (pre & post & -> & <- & _)%slice_Some Hi Hv. pose proof (zget_Some_range _ _ _ Hi) as Hr.
  assert (vs = take (Z.to_nat i) vs ++ v :: drop (S (Z.to_nat i)) vs) as Es.
  { symmetry. apply take_drop_middle. unfold zget in Hi. by rewrite decide_True in Hi by lia. }
  exists (u64 v). split; [|by rewrite swrap_uwrap, swrap_id by (done || lia)].
  set (l := take _ vs) in *. set (k := drop _ vs) in *.
  assert (zlen l = i) as Hli by (unfold l, zlen in *; rewrite length_take; lia).
  rewrite Es. change (v :: k) with ([v] ++ k). rewrite !int64_bytes_app.
  replace (pre ++ (int64_bytes l ++ int64_bytes [v] ++ int64_bytes k) ++ post)
    with ((pre ++ int64_bytes l) ++ store_le 8 v ++ (int64_bytes k ++ post)).
  2: { by rewrite int64_bytes_one, <- !app_assoc. }
  replace (zlen pre + i * 8) with (zlen (pre ++ int64_bytes l)) by (rewrite zlen_app, zlen_int64_bytes; lia).
  by rewrite load_store by lia.
Qed.

End blocks.

(** * Reading columns *)

Section reading.
Import NumBlockInfo NumColumnFormat.

Definition block (vs : list Z) (k : Z) : list Z := take (Z.to_nat BLOCK_SIZE) (drop (Z.to_nat (k * BLOCK_SIZE)) vs).

(** What the reader relies on: a descriptor and a payload for every block of the values. *)
Record column_of (c : NumColumn.column) (vs : list Z) : Prop := {
  col_bytes : is_bytes (NumColumn.mem c);
  col_values : Forall (is_s 64) vs;
  col_count : NumColumn.nValues c = zlen vs;
  col_small : zlen vs < 2 ^ 62;
  col_block : forall k, 0 <= k < NumColumn.numBlocks c -> exists b, NumColumn.blockInfo c k = Some b /\
    payload_at (NumColumn.mem c) (NumColumn.payload c b) b (block vs k) /\
    room (NumColumn.mem c) (NumColumn.payload c b) (zlen (block vs k)) (bits b) /\
    (NumColumn.withGcd c = false -> gcd b = 1) }.

Lemma zget_block vs rank : 0 <= rank -> (block vs (rank / BLOCK_SIZE)).[rank `mod` BLOCK_SIZE] = vs.[rank].
Proof.
  intros Hr. unfold block. pose proof (Z.mod_pos_bound rank BLOCK_SIZE ltac:(unfold BLOCK_SIZE; lia)).
  pose proof (Z.div_pos rank BLOCK_SIZE Hr ltac:(unfold BLOCK_SIZE; lia)).
  rewrite zget_take_drop by (unfold BLOCK_SIZE in *; lia). f_equal.
  rewrite (Z.div_mod rank BLOCK_SIZE) at 3 by (unfold BLOCK_SIZE; lia). lia.
Qed.

Lemma zlen_block vs k : 0 <= k -> k * BLOCK_SIZE <= zlen vs -> zlen (block vs k) = Z.min BLOCK_SIZE (zlen vs - k * BLOCK_SIZE).
Proof. intros. unfold block, zlen, BLOCK_SIZE in *. rewrite length_take, length_drop. lia. Qed.

(** ** One value of a block *)

Lemma block_read mem off b vs withGcd i v :
  is_bytes mem -> payload_at mem off b vs -> room mem off (zlen vs) (bits b) -> Forall (is_s 64) vs ->
  (withGcd = false -> gcd b = 1) -> vs.[i] = Some v ->
  (bits b = RAW_BITS /\ exists w, load 8 mem (off + i * 8) = Some w /\ s64 w = v) \/
  (0 <= bits b <= MAX_PACKED_BITS /\
   exists r, LinearPack.select64 mem off i (bits b) (Z.ones (bits b)) = Some r /\ NumColumn.reconstruct withGcd b i r = Some v).
Proof.
  intros Hm Hp Hroom Hvs Hg Hv. pose proof (zget_Some_range _ _ _ Hv) as Hi.
  assert (is_s 64 v) as Hv64 by (rewrite Forall_forall in Hvs; by eapply Hvs, zget_elem_1).
  destruct Hp as [[Hb Hs]|(rs & out & He & Hl & Hs & Ho & Hle & Hlen)]; [left|right].
  - split; [done|]. by eapply load_raw.
  - pose proof (enc_bits _ _ _ He) as Hb. split; [done|]. destruct (enc_line _ _ _ He) as (c & Ec & _ & Hval).
    destruct (Hval i v Hv) as (r & Er & _ & Ev). exists r. split.
    + eapply select64_packed; [done|done|done|done|done|done|exact (Hroom (proj2 Hb))|done].
    + pose proof (enc_count _ _ _ He). unfold BLOCK_SIZE in *.
      eapply reconstruct_spec; [done|done|done|by apply (enc_terms _ _ _ He i v)|lia|done].
Qed.

Lemma numBlocks_spec c (vs : list Z) rank :
  NumColumn.nValues c = zlen vs -> 0 <= rank < zlen vs -> 0 <= rank / BLOCK_SIZE < NumColumn.numBlocks c.
Proof.
  intros Hn Hr. unfold NumColumn.numBlocks. rewrite Hn, Z.quot_div_nonneg by (unfold BLOCK_SIZE; lia).
  split; [apply Z.div_pos; unfold BLOCK_SIZE; lia|]. unfold BLOCK_SIZE.
  apply Z.div_lt_upper_bound; [lia|]. pose proof (Z.div_mod (zlen vs + 4096 - 1) 4096).
  pose proof (Z.mod_pos_bound (zlen vs + 4096 - 1) 4096). lia.
Qed.

Section column.
Context (c : NumColumn.column) (vs : list Z) (Hc : column_of c vs).

Lemma block_values k : Forall (is_s 64) (block vs k).
Proof. apply Forall_take, Forall_drop, (col_values _ _ Hc). Qed.

Lemma valueAt_spec rank v : vs.[rank] = Some v -> NumColumn.valueAt c rank = Some v.
Proof.
  intros Hv. pose proof (zget_Some_range _ _ _ Hv) as Hr. pose proof (col_count _ _ Hc) as Hn. unfold NumColumn.valueAt.
  rewrite decide_True by lia. cbv zeta. destruct (col_block _ _ Hc (rank / BLOCK_SIZE)) as (b & Eb & Hp & Hroom & Hg).
  { by apply (numBlocks_spec c vs). }
  rewrite Eb. opt. rewrite <- (zget_block vs rank) in Hv by lia.
  destruct (block_read _ _ b _ _ _ _ (col_bytes _ _ Hc) Hp Hroom (block_values _) Hg Hv)
    as [[Hb (w & Ew & <-)]|[Hb (r & Er & Ev)]].
  - rewrite decide_True by (unfold RAW_BITS, MAX_PACKED_BITS in *; lia). by rewrite Ew.
  - rewrite decide_False by lia. rewrite mask64_ones by done. opt. rewrite Er. by opt.
Qed.

Lemma valuesAt_spec rank v :
  vs.[rank] = Some v ->
  NumColumn.valuesAt c rank = Some (if decide (rank = 0) then 0 else default 0 (vs.[rank - 1]), v).
Proof.
  intros Hv. pose proof (zget_Some_range _ _ _ Hv) as Hr. pose proof (col_count _ _ Hc) as Hn. unfold NumColumn.valuesAt.
  rewrite (decide_True (P := 0 <= rank < NumColumn.nValues c)) by lia. cbv zeta.
  destruct (decide (rank `mod` BLOCK_SIZE = 0)) as [H0|H0].
  - destruct (decide (rank = 0)) as [E0|Hpos].
    + rewrite decide_False by lia. opt. by rewrite (valueAt_spec rank v).
    + destruct (zget_in vs (rank - 1)) as [u Eu]; [lia|]. rewrite decide_True by lia.
      rewrite (valueAt_spec (rank - 1) u), (valueAt_spec rank v) by done. by rewrite Eu.
  - assert (rank <> 0) as Hpos by (intros ->; done). rewrite (decide_False (P := rank = 0)) by done.
    destruct (zget_in vs (rank - 1)) as [u Eu]; [lia|]. rewrite Eu. simpl default.
    destruct (col_block _ _ Hc (rank / BLOCK_SIZE)) as (b & Eb & Hp & Hroom & Hg); [by apply (numBlocks_spec c vs)|].
    rewrite Eb. opt. rewrite <- (zget_block vs rank) in Hv by lia.
    assert ((block vs (rank / BLOCK_SIZE)).[rank `mod` BLOCK_SIZE - 1] = Some u) as Eu'.
    { rewrite <- Eu, <- (zget_block vs (rank - 1)) by lia. unfold BLOCK_SIZE in *.
      pose proof (Z.div_mod rank 4096). pose proof (Z.mod_pos_bound rank 4096).
      f_equal; [f_equal|].
      - apply (Z.div_unique_pos _ _ _ (rank `mod` 4096 - 1)); lia.
      - apply (Z.mod_unique_pos _ _ (rank / 4096)); lia. }
    destruct (block_read _ _ b _ _ _ _ (col_bytes _ _ Hc) Hp Hroom (block_values _) Hg Hv)
      as [[Hb (w & Ew & Ev)]|[Hb (r & Er & Ev)]];
    destruct (block_read _ _ b _ _ _ _ (col_bytes _ _ Hc) Hp Hroom (block_values _) Hg Eu')
      as [[Hb' (w' & Ew' & Ev')]|[Hb' (r' & Er' & Ev')]]; try (unfold RAW_BITS, MAX_PACKED_BITS in *; lia).
    + rewrite decide_True by (unfold RAW_BITS, MAX_PACKED_BITS in *; lia). rewrite Ew'. opt.
      replace (NumColumn.payload c b + (rank `mod` BLOCK_SIZE - 1) * 8 + 8)
        with (NumColumn.payload c b + rank `mod` BLOCK_SIZE * 8) by lia.
      rewrite Ew. opt. by rewrite Ev, Ev'.
    + rewrite decide_False by lia. rewrite mask64_ones by done. opt. rewrite Er', Er. opt. rewrite Ev', Ev. done.
Qed.

(** ** Frames *)

Definition frame_start (rank : Z) : Z := rank / BULK_SIZE * BULK_SIZE.
Definition frame (rank : Z) : list Z :=
  take (Z.to_nat BULK_SIZE) (drop (Z.to_nat (frame_start rank)) vs).

Lemma frame_start_spec rank : 0 <= rank ->
  0 <= frame_start rank <= rank /\ rank < frame_start rank + BULK_SIZE /\ frame_start rank `mod` BULK_SIZE = 0.
Proof.
  intros Hr. unfold frame_start, BULK_SIZE. pose proof (Z.div_mod rank 128). pose proof (Z.mod_pos_bound rank 128).
  pose proof (Z.div_pos rank 128). rewrite Z.mod_mul by lia. lia.
Qed.

Definition frame_count (rank : Z) : Z := Z.min BULK_SIZE (zlen vs - frame_start rank).

Lemma zlen_frame rank : 0 <= rank < zlen vs -> zlen (frame rank) = frame_count rank.
Proof.
  intros Hr. pose proof (frame_start_spec rank). unfold frame, frame_count, zlen, BULK_SIZE in *.
  rewrite length_take, length_drop. lia.
Qed.

Lemma zget_frame rank k : 0 <= rank < zlen vs -> 0 <= k < frame_count rank -> (frame rank).[k] = vs.[frame_start rank + k].
Proof.
  intros Hr Hk. pose proof (frame_start_spec rank). unfold frame, frame_count in *.
  rewrite zget_take_drop by lia. done.
Qed.

Lemma frame_eq rank (f : Z -> option Z) :
  0 <= rank < zlen vs -> (forall k v, 0 <= k < frame_count rank -> vs.[frame_start rank + k] = Some v -> f k = Some v) ->
  mapM f (seqZ 0 (frame_count rank)) = Some (frame rank).
Proof.
  intros Hr Hf. pose proof (frame_start_spec rank ltac:(lia)) as Hs.
  assert (0 <= frame_count rank) by (unfold frame_count; lia).
  rewrite (mapM_total f (fun k => default 0 (vs.[frame_start rank + k]))).
  - f_equal. apply list_eq. intros j. rewrite <- !zget_nat, zget_fmap.
    destruct (decide (Z.of_nat j < frame_count rank)).
    + rewrite zget_seqZ, zget_frame by lia. simpl. rewrite Z.add_0_l.
      destruct (zget_in vs (frame_start rank + Z.of_nat j)) as [v ->]; [unfold frame_count in *; lia|done].
    + rewrite !zget_nat, lookup_seqZ_ge by lia. symmetry. apply lookup_ge_None.
      pose proof (zlen_frame rank Hr). unfold zlen in *. lia.
  - intros k Hk%elem_of_seqZ. destruct (zget_in vs (frame_start rank + k)) as [v Ev]; [unfold frame_count in *; lia|].
    rewrite Ev. apply Hf; [lia|done].
Qed.

(** A frame lies in one block. *)
Lemma frame_in_block rank :
  0 <= rank < zlen vs ->
  let start := frame_start rank in
  0 <= start `mod` BLOCK_SIZE /\ (start `mod` BLOCK_SIZE) `mod` 8 = 0 /\ 0 < frame_count rank <= BULK_SIZE /\
  start `mod` BLOCK_SIZE + frame_count rank <= zlen (block vs (start / BLOCK_SIZE)) /\
  forall k, 0 <= k < frame_count rank -> (block vs (start / BLOCK_SIZE)).[start `mod` BLOCK_SIZE + k] = vs.[start + k].
Proof.
  intros Hr. cbv zeta. destruct (frame_start_spec rank) as (H1 & H2 & H3); [lia|]. set (start := frame_start rank) in *.
  unfold frame_count. fold start. unfold BULK_SIZE, BLOCK_SIZE in *.
  pose proof (Z.div_mod start 4096 ltac:(lia)) as Hd. pose proof (Z.mod_pos_bound start 4096 ltac:(lia)) as Hm.
  pose proof (Z.div_pos start 4096 ltac:(lia) ltac:(lia)).
  assert ((start `mod` 4096) `mod` 128 = 0) as Hm128.
  { apply Z.mod_divide in H3 as [m Hm']; [|lia].
    replace (start `mod` 4096) with ((m - 32 * (start / 4096)) * 128) by lia. by apply Z.mod_mul. }
  assert (start `mod` 4096 + 128 <= 4096) as Hfit.
  { pose proof (Z.div_mod (start `mod` 4096) 128 ltac:(lia)). lia. }
  split; [lia|]. split.
  { rewrite (Z.div_mod (start `mod` 4096) 128) by lia. rewrite Hm128, Z.add_0_r.
    replace (128 * (start `mod` 4096 / 128)) with (16 * (start `mod` 4096 / 128) * 8) by lia. by rewrite Z.mod_mul. }
  split; [lia|]. split.
  { pose proof (zlen_block vs (start / 4096)) as Hz. unfold BLOCK_SIZE in Hz. rewrite Hz by lia. lia. }
  intros k Hk. unfold block. rewrite zget_take_drop by (unfold BLOCK_SIZE; lia). f_equal. unfold BLOCK_SIZE. lia.
Qed.

Lemma frame_start_div rank : 0 <= rank < zlen vs -> 0 <= frame_start rank / BLOCK_SIZE < NumColumn.numBlocks c.
Proof.
  intros Hr. pose proof (frame_start_spec rank). apply (numBlocks_spec c vs); [by apply (col_count _ _ Hc)|lia].
Qed.

(** The residuals of a packed block give its values. *)
Lemma residual_value b rs withGcd k bvs v :
  encodes b bvs (zget rs) -> bvs.[k] = Some v -> (withGcd = false -> gcd b = 1) ->
  exists r, rs.[k] = Some r /\ NumColumn.reconstruct withGcd b k r = Some v.
Proof.
  intros He Hv Hg. destruct (enc_line _ _ _ He) as (c0 & Ec & _ & Hval). destruct (Hval k v Hv) as (r & Er & _ & Ev).
  exists r. split; [done|]. pose proof (enc_count _ _ _ He). pose proof (zget_Some_range _ _ _ Hv). unfold BLOCK_SIZE in *.
  eapply reconstruct_spec; [done| |done|by apply (enc_terms _ _ _ He k v)|lia|done].
  pose proof (enc_values _ _ _ He) as Hvs. rewrite Forall_forall in Hvs. by eapply Hvs, zget_elem_1.
Qed.

Lemma decodeFrame_spec rank : 0 <= rank < zlen vs -> NumColumn.decodeFrame c rank = Some (frame_start rank, frame rank).
Proof.
  intros Hr. pose proof (col_count _ _ Hc) as Hn. unfold NumColumn.decodeFrame. rewrite decide_True by lia. cbv zeta.
  fold (frame_start rank). rewrite Hn. fold (frame_count rank).
  destruct (col_block _ _ Hc _ (frame_start_div rank Hr)) as (b & Eb & Hp & Hroom & Hg). rewrite Eb. opt.
  destruct (frame_in_block rank Hr) as (H0 & H8 & Hcnt & Hfit & Hget). set (start := frame_start rank) in *.
  set (idx := start `mod` BLOCK_SIZE) in *. set (bvs := block vs (start / BLOCK_SIZE)) in *.
  assert (Forall (is_s 64) bvs) as Hbvs by apply block_values.
  destruct Hp as [[Hb Hs]|(rs & out & He & Hl & Hs & Ho & Hle & Hlen)].
  - rewrite decide_True by (unfold RAW_BITS, MAX_PACKED_BITS in *; lia). rewrite (frame_eq rank); [done|done|].
    intros k v Hk Hv. fold start in Hv. rewrite <- Hget in Hv by lia.
    destruct (load_raw _ _ _ _ v Hs Hv) as (w & Ew & <-); [rewrite Forall_forall in Hbvs; by eapply Hbvs, zget_elem_1|].
    replace (NumColumn.payload c b + idx * 8 + 8 * k) with (NumColumn.payload c b + (idx + k) * 8) by lia. by rewrite Ew.
  - pose proof (enc_bits _ _ _ He) as Hb. rewrite decide_False by (unfold MAX_PACKED_BITS; lia).
    pose proof (Hroom (proj2 Hb)) as Hroom'. destruct (decide (bits b <= 32)) as [H32|H32].
    + rewrite mask32_ones by lia. opt. unfold BULK_SIZE in Hcnt.
      rewrite (unpack128_packed _ _ b bvs rs out) by (done || lia || apply (col_bytes _ _ Hc)). opt.
      set (rs' := take _ _). assert (forall k, 0 <= k < frame_count rank -> rs'.[k] = rs.[idx + k]) as Hrs'.
      { intros k Hk. unfold rs'. by rewrite zget_take_drop by lia. }
      repeat case_decide; (rewrite (frame_eq rank); [done|done|]); intros k v Hk Hv; fold start in Hv;
        rewrite <- Hget in Hv by lia; rewrite Hrs' by lia.
      * destruct (residual_value b rs true (idx + k) bvs v He Hv) as (r & -> & Ev); [done|]. opt.
        unfold NumColumn.reconstruct in Ev. destruct H as [Hg1 Hs0]. by rewrite Hs0, Hg1, Z.mul_1_l in Ev.
      * destruct (residual_value b rs true (idx + k) bvs v He Hv) as (r & -> & Ev); [done|]. opt.
        unfold NumColumn.reconstruct in Ev. by rewrite decide_False in Ev by (intros ?; done).
      * destruct (residual_value b rs (NumColumn.withGcd c) (idx + k) bvs v He Hv Hg) as (r & -> & Ev). by opt.
    + rewrite mask64_ones by lia. opt. rewrite (frame_eq rank); [done|done|].
      intros k v Hk Hv. fold start in Hv. rewrite <- Hget in Hv by lia.
      destruct (residual_value b rs (NumColumn.withGcd c) (idx + k) bvs v He Hv Hg) as (r & Er & Ev).
      erewrite select64_packed; [by opt|apply (col_bytes _ _ Hc)|done..].
Qed.

End column.
End reading.

(** * Writing blocks *)

Section writing.
Import NumBlockInfo NumColumnFormat.

Lemma foldM_zget {S A} (f : S -> Z -> option S) (g : S -> A -> option S) s l :
  (forall s i x, l.[i] = Some x -> f s i = g s x) -> foldM f s (seqZ 0 (zlen l)) = foldM g s l.
Proof.
  induction l as [|x l IH] using rev_ind; intros H; [done|].
  rewrite zlen_app. change (zlen [x]) with 1. pose proof (zlen_nonneg l).
  rewrite seqZ_app, !foldM_app by lia. rewrite IH by (intros; by apply H, zget_app_Some).
  destruct (foldM g s l) as [s'|]; [|done]. opt.
  rewrite Z.add_0_l. change (seqZ (zlen l) 1) with [zlen l]. cbn [foldM]. by rewrite (H s' (zlen l) x) by apply zget_snoc.
Qed.

Definition residuals (plan : BlockPlan) (qs : list Z) (n : Z) : list Z :=
  (fun i => default 0 (block_residual plan qs i)) <$> seqZ 0 n.

Lemma zget_residuals plan qs n i r :
  0 <= i < n -> block_residual plan qs i = Some r -> (residuals plan qs n).[i] = Some r.
Proof. intros Hi Hr. unfold residuals. by rewrite zget_fmap, zget_seqZ, Z.add_0_l; simpl; [rewrite Hr|]. Qed.

Lemma encodes_residual_list plan qs b vs :
  encodes b vs (block_residual plan qs) -> encodes b vs (zget (residuals plan qs (zlen vs))).
Proof.
  intros He. constructor; [apply He..|]. destruct (enc_line _ _ _ He) as (c & Ec & Hc & Hval). exists c.
  split; [done|]. split; [done|]. intros i v Hv. destruct (Hval i v Hv) as (r & Er & Hr). exists r. split; [|done].
  apply zget_residuals; [by apply zget_Some_range in Hv|done].
Qed.

Lemma pack_appendAll plan qs b vs w :
  encodes b vs (block_residual plan qs) -> bits b = pbits plan ->
  NumBlockCodec.pack w (zlen vs) plan qs = appendAll (residuals plan qs (zlen vs)) w.
Proof.
  intros He Hb. unfold NumBlockCodec.pack, appendAll. pose proof (zlen_nonneg vs).
  assert (zlen (residuals plan qs (zlen vs)) = zlen vs) as Hl by (unfold residuals; zlen).
  pose proof (encodes_residuals _ _ _ (encodes_residual_list _ _ _ _ He) Hl) as Hrs.
  rewrite <- Hl at 1. apply foldM_zget. intros w' i r Hr. rewrite Forall_forall in Hrs.
  pose proof (Hrs r (zget_elem_1 _ _ _ Hr)) as Hru. pose proof (zget_Some_range _ _ _ Hr) as Hi. rewrite Hl in Hi.
  destruct (zget_in vs i Hi) as [v Hv]. destruct (enc_line _ _ _ He) as (c & _ & _ & Hval).
  destruct (Hval i v Hv) as (r' & Er & _). pose proof (zget_residuals plan qs (zlen vs) i r' Hi Er) as Hr'.
  rewrite Hr in Hr'. injection Hr' as <-. unfold block_residual in Er.
  destruct (qs.[i]) as [q|]; [|done]. opt. rewrite bind_Some_l in Er. rewrite Er. opt.
  pose proof (enc_bits _ _ _ He). rewrite <- Hb, mask64_ones by lia. opt.
  rewrite decide_True; [done|]. unfold is_u in Hru. rewrite Z.ones_equiv. lia.
Qed.

(** The fields of a descriptor fit the words they are stored in. *)
Definition info_ok (b : NumBlockInfo.info) : Prop :=
  is_u 64 (offsetAndBits b) /\ is_u 64 (baseBits b) /\ is_u 64 (gcd b) /\ is_s 64 (scaledSlope b).

(** What writing a block gives. *)
Record written (out : list Z) (origin : Z) (vs : list Z) (plan : BlockPlan) (b : NumBlockInfo.info) (out' : list Z) : Prop := {
  written_ext : exists ext, out' = out ++ ext /\ is_bytes ext /\ zlen ext <= 8 * zlen vs + 8;
  written_payload : payload_at out' (origin + payloadOffset b) b vs;
  written_offset : 0 <= payloadOffset b;
  written_gcd : gcd b = gcd (info plan);
  written_ok : info_ok b }.

Lemma payload_written out origin vs useGcd lz plan qs off b :
  planned vs useGcd lz plan qs -> Forall (is_s 64) vs -> zlen vs <= BLOCK_SIZE -> is_bytes out ->
  0 <= off < 2 ^ 56 -> setPayload off (pbits plan) (info plan) = Some b -> zlen out = origin + off ->
  exists out',
    (if raw plan then Some (b, out ++ int64_bytes vs)
     else
       writer ← LinearPack.make out (pbits plan);
       writer ← NumBlockCodec.pack writer (zlen vs) plan qs;
       '(_, writer) ← LinearPack.finish false writer;
       Some (b, LinearPack.target writer)) = Some (b, out') /\ written out origin vs plan b out'.
Proof.
  intros Hp Hvs Hlen Hout Hoff Hb Ho. pose proof (zlen_nonneg vs). unfold raw.
  assert (is_u 8 (pbits plan)) as Hb8.
  { destruct (planned_form _ _ _ _ _ Hp) as [(-> & _)|Hq]; [done|]. rewrite (packed_bits _ _ _ Hq).
    pose proof (fits_bits _ _ _ (packed_fits _ _ _ Hq)). unfold is_u. lia. }
  destruct (bits_setPayload off (pbits plan) (info plan) b ltac:(lia) Hb8 Hb) as (E1 & E2 & E3 & E4 & E5).
  assert (is_u 64 (offsetAndBits b)) as Hob.
  { unfold setPayload in Hb. case_decide; [|done]. injection Hb as <-. simpl. apply is_u_lor; [lia| |].
    - unfold is_u. lia.
    - apply uwrap_range. lia. }
  pose proof (planned_gcd _ _ _ _ _ Hp) as Hg.
  destruct (planned_form _ _ _ _ _ Hp) as [(Hraw & Hslope & Hbase & _)|Hq].
  - rewrite bool_decide_eq_true_2 by (rewrite Hraw; done). eexists. split; [done|].
    pose proof (zlen_int64_bytes vs) as Hzi. constructor.
    + exists (int64_bytes vs). split; [done|]. split; [apply is_bytes_int64_bytes|lia].
    + left. split; [by rewrite E1|]. replace (int64_bytes vs) with (int64_bytes vs ++ []) at 1 by apply app_nil_r.
      apply slice_app; lia.
    + lia.
    + done.
    + split; [done|]. rewrite E3, E4, E5. split; [done|]. split; [unfold is_u; lia|]. rewrite Hslope. done.
  - pose proof (plan_encodes _ _ _ _ _ off b Hp Hq Hvs Hlen ltac:(lia) Hb) as He.
    pose proof (enc_bits _ _ _ He) as Hbits. rewrite bool_decide_eq_false_2 by (unfold MAX_PACKED_BITS; lia).
    rewrite E1 in Hbits. set (rs := residuals plan qs (zlen vs)).
    assert (zlen rs = zlen vs) as Hl by (unfold rs, residuals; zlen).
    pose proof (encodes_residuals _ _ _ (encodes_residual_list _ _ _ _ He) Hl) as Hrs. rewrite E1 in Hrs.
    assert (pbits plan * zlen rs <= 57 * 4096) as Hsz by (unfold BLOCK_SIZE in Hlen; nia).
    destruct (make_writing out (pbits plan) Hbits) as (w0 & Ew0 & Hw0). rewrite Ew0. opt.
    rewrite (pack_appendAll _ _ b) by done. fold rs.
    destruct (appendAll_spec rs w0 out (pbits plan) [] Hw0 Hbits Hrs) as (w1 & Ew1 & Hw1);
      [change (zlen (@nil Z)) with 0; unfold BLOCK_SIZE in *; nia..|].
    rewrite Ew1. opt. destruct (finish_spec w1 out (pbits plan) rs false Hw1 Hbits) as (w2 & ext & Ew2 & Ht & He2 & Hle & Hd); [lia|].
    rewrite Ew2. opt. rewrite app_nil_r in Ht. rewrite Ht. eexists. split; [done|]. constructor.
    + exists ext. split; [done|]. split; [done|]. rewrite Hle.
      assert ((pbits plan * zlen rs + 7) / 8 <= 8 * zlen vs + 8) by (apply Z.div_le_upper_bound; nia). lia.
    + right. exists rs, ext. split; [by apply encodes_residual_list|]. split; [done|].
      split; [|by rewrite E1]. replace ext with (ext ++ []) at 1 by apply app_nil_r. apply slice_app; lia.
    + lia.
    + done.
    + split; [done|]. rewrite E3, E4. split; [rewrite (packed_base _ _ _ Hq); apply uwrap_range; lia|].
      split; [unfold is_u; lia|]. apply (enc_slope _ _ _ He).
Qed.

(** ** Alignment *)

Lemma align_bytes a out : 0 < a -> exists pad, align a out = out ++ pad /\ is_bytes pad /\ zlen pad < a /\ zlen (align a out) `mod` a = 0.
Proof.
  intros Ha. pose proof (Z.mod_pos_bound (- zlen out) a Ha) as Hm. eexists. split; [done|].
  split; [apply Forall_replicate; unfold is_u; lia|]. unfold align. zlen. rewrite Z2Nat.id by lia. split; [lia|].
  rewrite Z.add_mod_idemp_r, Z.add_opp_diag_r by lia. by apply Z.mod_0_l; lia.
Qed.

(** ** Chunks of the values *)

Definition chunk {A} (n : Z) (l : list A) (k : Z) : list A := take (Z.to_nat n) (drop (Z.to_nat (k * n)) l).

Lemma chunk_app_l {A} n (l l' : list A) k : 0 <= n -> 0 <= k -> (k + 1) * n <= zlen l -> chunk n (l ++ l') k = chunk n l k.
Proof.
  intros Hn Hk Hl. unfold chunk. rewrite drop_app_le by (unfold zlen in *; nia).
  rewrite take_app_le; [done|]. rewrite length_drop. unfold zlen in *. nia.
Qed.

Lemma chunk_app_r {A} n (l l' : list A) k m :
  0 <= n -> 0 <= m <= k -> zlen l = m * n -> chunk n (l ++ l') k = chunk n l' (k - m).
Proof.
  intros Hn Hk Hl. unfold chunk. rewrite drop_app_ge by (unfold zlen in *; nia). do 2 f_equal. unfold zlen in *. nia.
Qed.

Lemma chunk_all {A} n (l : list A) : zlen l <= n -> chunk n l 0 = l.
Proof. intros H. unfold chunk. rewrite Z.mul_0_l, drop_0. apply take_ge. unfold zlen in H. lia. Qed.

End writing.

(** * Writing columns *)

Section columns.
Import NumBlockInfo NumColumnFormat NumColumnWriter.

(** The blocks written so far hold the values [vs]. *)
Record blocks_ok (w : writer) (pre vs : list Z) : Prop := {
  ok_out : exists ext, out w = pre ++ ext /\ is_bytes ext /\ zlen ext <= 32 * zlen vs;
  ok_start : colStart w = zlen pre;
  ok_values : Forall (is_s 64) vs;
  ok_blocks : zlen (blockInfo w) = (zlen vs + BLOCK_SIZE - 1) / BLOCK_SIZE;
  ok_block : forall k b, (blockInfo w).[k] = Some b ->
    payload_at (out w) (zlen pre + payloadOffset b) b (block vs k) /\ 0 <= payloadOffset b /\ info_ok b /\
    (useGcd w = false -> gcd b = 1);
  ok_zones : zlen (blockZones w) = zlen (blockInfo w) /\
    forall k z, (blockZones w).[k] = Some z -> is_zone (block vs k) z;
  ok_leaves : if zonesEnabled w then zones_of vs (leafZones w) else leafZones w = [];
  ok_bounds : (vs = [] /\ overallMin w = 2 ^ 63 - 1 /\ overallMax w = - 2 ^ 63) \/
              is_zone vs (Zone (overallMin w) (overallMax w));
  ok_sketch : sketchEnabled w = true -> sketcher_of vs (sketcher w) }.

Lemma zlen_pos {A} (l : list A) : l <> [] -> 0 < zlen l.
Proof. destruct l; [done|]. rewrite zlen_cons. pose proof (zlen_nonneg l). lia. Qed.

Lemma is_zone_app l k a b c d :
  is_zone l (Zone a b) -> is_zone k (Zone c d) -> is_zone (l ++ k) (Zone (Z.min a c) (Z.max b d)).
Proof.
  intros (H1 & H2 & H3) (H4 & H5 & H6). unfold is_zone in *. simpl in *. rewrite !elem_of_app. split; [|split].
  - destruct (Z.min_spec a c) as [[_ ->]|[_ ->]]; auto.
  - destruct (Z.max_spec b d) as [[_ ->]|[_ ->]]; auto.
  - intros v [Hv|Hv]%elem_of_app; [specialize (H3 v Hv)|specialize (H6 v Hv)]; lia.
Qed.

Lemma leaf_count_app m n : leaf_count (m * BLOCK_SIZE + n) = m * 8 + leaf_count n.
Proof.
  unfold leaf_count, LEAF_ZONE_SIZE, BLOCK_SIZE. replace (m * 4096 + n + 512 - 1) with (m * 8 * 512 + (n + 512 - 1)) by lia.
  by rewrite Z.div_add_l by lia.
Qed.

Lemma zones_of_app l k zs ys m :
  zlen l = m * BLOCK_SIZE -> 0 <= m -> zones_of l zs -> zones_of k ys -> zones_of (l ++ k) (zs ++ ys).
Proof.
  intros Hl Hm [H1 H2] [H3 H4]. assert (leaf_count (zlen l) = m * 8) as Hc.
  { rewrite Hl, <- (Z.add_0_r (m * BLOCK_SIZE)), leaf_count_app. change (leaf_count 0) with 0. lia. }
  split; [rewrite !zlen_app, H1, H3, Hc, Hl; by rewrite leaf_count_app|].
  assert (forall l, leaf l = chunk LEAF_ZONE_SIZE l) as Hleaf by done. unfold LEAF_ZONE_SIZE, BLOCK_SIZE in *.
  intros j z Hz. rewrite Hleaf in *. pose proof (zget_Some_range _ _ _ Hz). destruct (decide (j < zlen zs)) as [Hj|Hj].
  - rewrite zget_app_l in Hz by done. rewrite chunk_app_l by lia. by apply H2.
  - rewrite zget_app_r in Hz by lia. rewrite (chunk_app_r _ _ _ _ (m * 8)) by lia. rewrite <- Hc, <- H1. by apply H4.
Qed.

Lemma blocks_div m n : 0 <= m -> 0 < n <= BLOCK_SIZE -> (m * BLOCK_SIZE + n + BLOCK_SIZE - 1) / BLOCK_SIZE = m + 1.
Proof.
  intros Hm Hn. unfold BLOCK_SIZE in *. symmetry. apply (Z.div_unique_pos _ _ _ (n - 1)); lia.
Qed.

(** [NumBlockCodec::write], after the alignment of a raw block. *)
Lemma write_spec out0 origin vs useGcd lz plan qs :
  planned vs useGcd lz plan qs -> Forall (is_s 64) vs -> 0 < zlen vs <= BLOCK_SIZE -> is_bytes out0 ->
  0 <= origin <= zlen out0 -> zlen out0 < 2 ^ 55 ->
  exists b ext, NumBlockCodec.write out0 origin vs plan qs = Some (b, out0 ++ ext) /\ is_bytes ext /\ zlen ext <= 32 * zlen vs /\
    payload_at (out0 ++ ext) (origin + payloadOffset b) b vs /\ 0 <= payloadOffset b /\ info_ok b /\ gcd b = gcd (info plan).
Proof.
  intros Hp Hvs Hlen Hout Ho Hsz. unfold NumBlockCodec.write. cbv zeta.
  set (out1 := if raw plan then align MAX_ALIGN out0 else out0).
  assert (exists pad, out1 = out0 ++ pad /\ is_bytes pad /\ 0 <= zlen pad < 8) as (pad & Eout & Hpad & Hp8).
  { unfold out1. destruct (raw plan).
    - destruct (align_bytes MAX_ALIGN out0) as (pad & E & H1 & H2 & _); [done|]. exists pad.
      split; [done|]. split; [done|]. split; [apply zlen_nonneg|exact H2].
    - exists []. rewrite app_nil_r. split; [done|]. split; [apply List.Forall_nil|]. done. }
  assert (zlen out1 = zlen out0 + zlen pad) as Hz1 by (rewrite Eout; zlen).
  rewrite (uwrap_id 64) by (unfold is_u; lia). set (off := zlen out1 - origin).
  assert (0 <= off < 2 ^ 56) as Hoff by (unfold off; lia).
  destruct (setPayload off (pbits plan) (info plan)) as [b|] eqn:Eb.
  2: { unfold setPayload in Eb. rewrite decide_True in Eb; [done|]. change OFFSET_MASK with (2 ^ 56 - 1). lia. }
  rewrite bind_Some_l.
  assert (is_bytes out1) as Hb1 by (rewrite Eout; by apply Forall_app).
  destruct (payload_written out1 origin vs useGcd lz plan qs off b Hp Hvs ltac:(lia) Hb1 Hoff Eb) as (out' & E & Hw).
  { unfold off. lia. }
  destruct (written_ext _ _ _ _ _ _ Hw) as (ext & Ee & He & Hle). exists b, (pad ++ ext).
  assert (out0 ++ pad ++ ext = out') as Eo by (by rewrite Ee, Eout, <- app_assoc).
  rewrite Eo. split; [exact E|]. split; [by apply Forall_app|]. split; [rewrite zlen_app; lia|].
  split; [apply (written_payload _ _ _ _ _ _ Hw)|]. split; [apply (written_offset _ _ _ _ _ _ Hw)|].
  split; [apply (written_ok _ _ _ _ _ _ Hw)|apply (written_gcd _ _ _ _ _ _ Hw)].
Qed.

Lemma addBlock_spec w pre vs m :
  blocks_ok w pre vs -> zlen vs = m * BLOCK_SIZE -> 0 <= m -> is_bytes pre -> values w <> [] ->
  zlen (values w) <= BLOCK_SIZE -> Forall (is_s 64) (values w) -> zlen pre + 32 * zlen vs < 2 ^ 55 ->
  exists w', addBlock w = Some w' /\ blocks_ok w' pre (vs ++ values w) /\ values w' = [] /\ nAdded w' = nAdded w /\
    finished w' = finished w /\ useGcd w' = useGcd w /\ zonesEnabled w' = zonesEnabled w /\ sketchEnabled w' = sketchEnabled w.
Proof.
  intros Hok Hm Hm0 Hpre Hne Hlen Hvs Hsz. pose proof (zlen_pos _ Hne) as Hpos. unfold addBlock.
  destruct (planBlock_spec (values w) (useGcd w) (zonesEnabled w) Hne Hlen Hvs) as (p & qs & Ep & Hp).
  destruct (ok_out _ _ _ Hok) as (ext & Eout & Hext & Hle). rewrite Ep. opt.
  destruct (write_spec (out w) (colStart w) (values w) (useGcd w) (zonesEnabled w) p qs Hp Hvs ltac:(lia))
    as (b & ext' & Ew & Hext' & Hle' & Hpay & Hoff & Hiok & Hgcd).
  { rewrite Eout. by apply Forall_app. }
  { rewrite (ok_start _ _ _ Hok), Eout, zlen_app. pose proof (zlen_nonneg pre). pose proof (zlen_nonneg ext). lia. }
  { rewrite Eout, zlen_app. lia. }
  rewrite (ok_start _ _ _ Hok) in Hpay. rewrite Ew. opt.
  assert (exists sk, (if sketchEnabled w then ValueSketcher.add (values w) (sketcher w) else Some (sketcher w)) = Some sk /\
    (sketchEnabled w = true -> sketcher_of (vs ++ values w) sk)) as (sk & Esk & Hsk).
  { pose proof (ok_sketch _ _ _ Hok) as Hs. destruct (sketchEnabled w); [|by exists (sketcher w)].
    pose proof (zlen_nonneg pre). unfold BLOCK_SIZE in Hlen.
    destruct (sketcher_add vs (values w) (sketcher w) (Hs eq_refl)) as (sk & E & Hs'); [lia|by exists sk]. }
  rewrite Esk, bind_Some_l. eexists. split; [done|]. split; [|done].
  assert (forall l, block l = chunk BLOCK_SIZE l) as Hblock by done.
  assert (zlen (blockInfo w) = m) as Hbi.
  { rewrite (ok_blocks _ _ _ Hok), Hm. unfold BLOCK_SIZE. symmetry. apply (Z.div_unique_pos _ _ _ 4095); lia. }
  assert (forall k, 0 <= k < m -> block (vs ++ values w) k = block vs k) as Hold.
  { intros k Hk. rewrite Hblock. apply chunk_app_l; unfold BLOCK_SIZE in *; lia. }
  assert (block (vs ++ values w) m = values w) as Hnew.
  { rewrite Hblock, (chunk_app_r _ _ _ _ m) by (unfold BLOCK_SIZE in *; lia). rewrite Z.sub_diag. by apply chunk_all. }
  constructor; cbn [out colStart nAdded overallMin overallMax finished blockInfo blockZones leafZones useGcd zonesEnabled sketcher sketchEnabled].
  - exists (ext ++ ext'). split; [by rewrite Eout, <- app_assoc|]. split; [by apply Forall_app|]. rewrite !zlen_app. lia.
  - apply (ok_start _ _ _ Hok).
  - apply Forall_app. split; [apply (ok_values _ _ _ Hok)|done].
  - rewrite !zlen_app. change (zlen [b]) with 1. rewrite Hbi, Hm. symmetry. apply blocks_div; lia.
  - intros k b' [Hb'|[-> ->]]%zget_snoc_inv.
    + rewrite Hold by (apply zget_Some_range in Hb'; lia). destruct (ok_block _ _ _ Hok k b' Hb') as (H1 & H2 & H3).
      split; [by apply payload_at_mono|done].
    + rewrite Hbi, Hnew. split; [done|]. split; [done|]. split; [done|]. rewrite Hgcd. apply (planned_no_gcd _ _ _ _ _ Hp).
  - destruct (ok_zones _ _ _ Hok) as [Hz1 Hz2]. split; [rewrite !zlen_app; change (zlen [b]) with 1; change (zlen [zone p]) with 1; lia|].
    intros k z [Hz|[-> ->]]%zget_snoc_inv.
    + rewrite Hold by (apply zget_Some_range in Hz; lia). by apply Hz2.
    + rewrite Hz1, Hbi, Hnew. apply (planned_zone _ _ _ _ _ Hp).
  - pose proof (ok_leaves _ _ _ Hok) as Hlv. pose proof (planned_leaves _ _ _ _ _ Hp) as Hlp. destruct (zonesEnabled w).
    + by eapply zones_of_app.
    + by rewrite Hlv, Hlp.
  - right. pose proof (planned_zone _ _ _ _ _ Hp) as Hz. destruct (zone p) as [zlo zhi]. simpl.
    destruct (ok_bounds _ _ _ Hok) as [(-> & -> & ->)|Hz2]; [|by apply is_zone_app].
    rewrite Forall_forall in Hvs. destruct Hz as (H1 & H2 & H3). simpl in *.
    pose proof (Hvs _ H1) as Ha. pose proof (Hvs _ H2) as Hb. unfold is_s in Ha, Hb. change (64 - 1) with 63 in *.
    rewrite Z.min_r, Z.max_r by lia. done.
  - done.
Qed.

(** ** Adding values *)

Definition addAll (vs : list Z) (w : writer) : option writer := foldM (fun w v => addInt64 v w) w vs.

Record adding (w : writer) (pre vs : list Z) (g lz sk : bool) : Prop := {
  add_split : exists full m, vs = full ++ values w /\ zlen full = m * BLOCK_SIZE /\ 0 <= m /\ blocks_ok w pre full;
  add_rest : zlen (values w) < BLOCK_SIZE;
  add_values : Forall (is_s 64) (values w);
  add_count : nAdded w = zlen vs;
  add_open : finished w = false;
  add_gcd : useGcd w = g;
  add_zones : zonesEnabled w = lz;
  add_sketch : sketchEnabled w = sk }.

Lemma make_adding pre g lz sk : (sk = true -> lz = true) -> exists w, make pre g lz sk = Some w /\ adding w pre [] g lz sk.
Proof.
  intros Hsk. unfold make. rewrite decide_True by done. eexists. split; [done|]. constructor; simpl; try done. exists [], 0. split; [done|]. split; [done|]. split; [lia|].
  constructor; simpl; try done.
  - exists []. rewrite app_nil_r. split; [done|]. split; [apply List.Forall_nil|done].
  - intros k b Hb. by rewrite zget_nil in Hb.
  - split; [done|]. intros k z Hz. by rewrite zget_nil in Hz.
  - destruct lz; [|done]. split; [done|]. intros k z Hz. by rewrite zget_nil in Hz.
  - by left.
  - intros _. apply fresh_sketcher.
Qed.

Lemma addInt64_spec w pre vs g lz sk v :
  adding w pre vs g lz sk -> is_bytes pre -> is_s 64 v -> zlen pre + 32 * zlen vs < 2 ^ 55 ->
  exists w', addInt64 v w = Some w' /\ adding w' pre (vs ++ [v]) g lz sk.
Proof.
  intros Ha Hpre Hv Hsz. unfold addInt64. rewrite (add_open _ _ _ _ _ _ Ha).
  destruct (add_split _ _ _ _ _ _ Ha) as (full & m & Evs & Hm & Hm0 & Hok). pose proof (add_rest _ _ _ _ _ _ Ha) as Hr.
  pose proof (zlen_nonneg vs). pose proof (zlen_nonneg pre).
  rewrite decide_True by (rewrite (add_count _ _ _ _ _ _ Ha); unfold is_s; simpl; lia). cbv zeta.
  set (w1 := Writer _ _ _ _ _ _ _ _ _ _ _ _ _ _). assert (blocks_ok w1 pre full) as Hok1 by (destruct Hok; by constructor).
  assert (Forall (is_s 64) (values w1)) as Hv1.
  { apply Forall_app. split; [apply (add_values _ _ _ _ _ _ Ha)|by apply Forall_singleton]. }
  assert (zlen (values w1) = zlen (values w) + 1) as Hz1 by (unfold w1; simpl; rewrite zlen_app; done).
  case_decide as Hfull.
  - assert (zlen full <= zlen vs) as Hfl by (rewrite Evs, zlen_app; pose proof (zlen_nonneg (values w)); lia).
    destruct (addBlock_spec w1 pre full m Hok1 Hm Hm0 Hpre) as (w' & E & Hok' & Hv' & Hn' & Hf' & Hg' & Hz' & Hs').
    { intros E0. by apply app_nil in E0 as [_ E0]. }
    { lia. }
    { done. }
    { lia. }
    exists w'. split; [exact E|]. constructor.
    + exists (full ++ values w1), (m + 1). rewrite Hv', app_nil_r. split; [by rewrite Evs, <- app_assoc|].
      split; [rewrite zlen_app; lia|]. split; [lia|done].
    + rewrite Hv'. done.
    + rewrite Hv'. apply List.Forall_nil.
    + rewrite Hn'. simpl. rewrite (add_count _ _ _ _ _ _ Ha), zlen_app. done.
    + by rewrite Hf'.
    + rewrite Hg'. apply (add_gcd _ _ _ _ _ _ Ha).
    + rewrite Hz'. apply (add_zones _ _ _ _ _ _ Ha).
    + rewrite Hs'. apply (add_sketch _ _ _ _ _ _ Ha).
  - eexists. split; [done|]. constructor; [|lia|done| |done|apply (add_gcd _ _ _ _ _ _ Ha)|apply (add_zones _ _ _ _ _ _ Ha)|apply (add_sketch _ _ _ _ _ _ Ha)].
    + exists full, m. split; [by rewrite Evs, <- app_assoc|]. done.
    + simpl. rewrite (add_count _ _ _ _ _ _ Ha), zlen_app. done.
Qed.

Lemma addAll_spec ws w pre vs g lz sk :
  adding w pre vs g lz sk -> is_bytes pre -> Forall (is_s 64) ws -> zlen pre + 32 * (zlen vs + zlen ws) < 2 ^ 55 ->
  exists w', addAll ws w = Some w' /\ adding w' pre (vs ++ ws) g lz sk.
Proof.
  intros Ha Hpre. revert w vs Ha. induction ws as [|v ws IH]; intros w vs Ha Hws Hsz.
  { exists w. by rewrite app_nil_r. }
  inversion Hws as [|? ? Hv Hws']; subst. rewrite zlen_cons in Hsz. pose proof (zlen_nonneg ws).
  destruct (addInt64_spec w pre vs g lz sk v Ha Hpre Hv) as (w1 & E1 & Ha1); [lia|].
  destruct (IH w1 (vs ++ [v]) Ha1 Hws') as (w2 & E2 & Ha2); [rewrite zlen_app; change (zlen [v]) with 1; lia|].
  exists w2. unfold addAll in *. cbn [foldM]. rewrite E1. opt. rewrite <- app_assoc in Ha2. done.
Qed.

(** ** Arrays of records *)

Lemma records_split {A} (f : A -> list Z) n l k x :
  (forall x, zlen (f x) = n) -> l.[k] = Some x ->
  exists a b, mjoin (f <$> l) = a ++ f x ++ b /\ zlen a = n * k.
Proof.
  intros Hf. revert k. induction l as [|y l IH]; intros k Hk; [by rewrite zget_nil in Hk|].
  pose proof (zget_Some_range _ _ _ Hk). destruct (decide (k = 0)) as [->|Hk0].
  - rewrite zget_cons_0 in Hk. injection Hk as ->. exists [], (mjoin (f <$> l)). split; [done|]. rewrite Z.mul_0_r. done.
  - rewrite zget_cons_pos in Hk by lia. destruct (IH _ Hk) as (a & b & E & Ha). exists (f y ++ a), b.
    split; [|rewrite zlen_app, Hf; lia]. rewrite <- app_assoc, <- E. done.
Qed.

Lemma zlen_records {A} (f : A -> list Z) n l : (forall x, zlen (f x) = n) -> zlen (mjoin (f <$> l)) = n * zlen l.
Proof.
  intros Hf. induction l as [|x l IH]; [rewrite Z.mul_0_r; done|].
  change (mjoin (f <$> x :: l)) with (f x ++ mjoin (f <$> l)). rewrite zlen_app, IH, Hf, zlen_cons. lia.
Qed.

Lemma is_bytes_records {A} (f : A -> list Z) l : (forall x, is_bytes (f x)) -> is_bytes (mjoin (f <$> l)).
Proof. intros Hf. induction l as [|x l IH]; [apply List.Forall_nil|]. apply Forall_app. split; [apply Hf|exact IH]. Qed.

Lemma zlen_info_bytes b : zlen (info_bytes b) = 32.
Proof. unfold info_bytes. zlen. Qed.

Lemma zlen_zone_bytes z : zlen (zone_bytes z) = 16.
Proof. unfold zone_bytes. zlen. Qed.

Lemma is_bytes_info_bytes b : is_bytes (info_bytes b).
Proof. unfold info_bytes. repeat (apply Forall_app; split); by apply is_bytes_store_le. Qed.

Lemma is_bytes_zone_bytes z : is_bytes (zone_bytes z).
Proof. unfold zone_bytes. apply Forall_app; split; by apply is_bytes_store_le. Qed.

Lemma load_bytes_at n a v e mem off :
  0 <= n -> mem = a ++ store_le n v ++ e -> off = zlen a -> load n mem off = Some (uwrap (8 * n) v).
Proof. intros Hn -> ->. by apply load_store. Qed.

(** Reading a descriptor back. *)
Lemma blockInfo_read c o1 infos rest k b :
  NumColumn.mem c = o1 ++ mjoin (info_bytes <$> infos) ++ rest -> NumColumn.blockMeta c = zlen o1 ->
  NumColumn.numBlocks c = zlen infos -> infos.[k] = Some b -> info_ok b -> NumColumn.blockInfo c k = Some b.
Proof.
  intros Hm Hmeta Hn Hk (H1 & H2 & H3 & H4). pose proof (zget_Some_range _ _ _ Hk). unfold NumColumn.blockInfo.
  rewrite decide_True by lia. cbv zeta. rewrite Hm, Hmeta.
  destruct (records_split info_bytes 32 infos k b zlen_info_bytes Hk) as (a & e & E & Ha). rewrite E. unfold info_bytes.
  rewrite (load_bytes_at 8 (o1 ++ a) (offsetAndBits b)
    (store_le 8 (baseBits b) ++ store_le 8 (gcd b) ++ store_le 8 (scaledSlope b) ++ e ++ rest) _ (zlen o1 + 32 * k));
    [|lia|by rewrite <- !app_assoc|rewrite zlen_app; lia]. opt.
  rewrite (load_bytes_at 8 (o1 ++ a ++ store_le 8 (offsetAndBits b)) (baseBits b)
    (store_le 8 (gcd b) ++ store_le 8 (scaledSlope b) ++ e ++ rest) _ (zlen o1 + 32 * k + 8)); [|lia|by rewrite <- !app_assoc|zlen]. opt.
  rewrite (load_bytes_at 8 (o1 ++ a ++ store_le 8 (offsetAndBits b) ++ store_le 8 (baseBits b)) (gcd b)
    (store_le 8 (scaledSlope b) ++ e ++ rest) _ (zlen o1 + 32 * k + 16)); [|lia|by rewrite <- !app_assoc|zlen]. opt.
  rewrite (load_bytes_at 8 (o1 ++ a ++ store_le 8 (offsetAndBits b) ++ store_le 8 (baseBits b) ++ store_le 8 (gcd b))
    (scaledSlope b) (e ++ rest) _ (zlen o1 + 32 * k + 24)); [|lia|by rewrite <- !app_assoc|zlen]. opt. change (8 * 8) with 64.
  rewrite !uwrap_id by done. rewrite swrap_uwrap, swrap_id by (done || lia). by destruct b.
Qed.

(** ** Finishing *)

(** The layout of a finished column, after the blocks of a writer. *)
Record layout (w : writer) (pre vs : list Z) (wz wb : bool) (r : FinishData) (bytes o1 leaves trailer : list Z) : Prop := {
  lay_ok : blocks_ok w pre vs;
  lay_count : nAdded w = zlen vs;
  lay_zones : wz = true -> zonesEnabled w = true;
  lay_data : r = Finished (zlen pre) (zlen o1 - zlen pre) (zlen vs);
  lay_meta : exists pad, o1 = out w ++ pad /\ is_bytes pad /\ zlen o1 `mod` 8 = 0;
  lay_bytes : bytes = o1 ++ mjoin (info_bytes <$> blockInfo w)
                ++ (if wz then mjoin (zone_bytes <$> blockZones w) ++ leaves else []) ++ trailer;
  lay_leaves : wz = true -> leafMeta w = Some leaves;
  lay_trailer : wb = true -> exists a b, trailer = a ++ b /\
    let lo := if decide (zlen vs = 0) then 0 else overallMin w in
    let hi := if decide (zlen vs = 0) then 0 else overallMax w in
    (forall rest, readVLong (a ++ rest) = Some (u64 lo, rest)) /\ (forall rest, readVLong (b ++ rest) = Some (u64 hi, rest));
  lay_is_bytes : is_bytes leaves /\ is_bytes trailer }.

Lemma is_bytes_order l : is_bytes (mjoin (store_le 4 <$> l)).
Proof. apply is_bytes_records. intros x. by apply is_bytes_store_le. Qed.

Lemma zlen_point_bytes p : zlen (point_bytes p) = 16.
Proof. unfold point_bytes. zlen. Qed.

Lemma is_bytes_point_bytes p : is_bytes (point_bytes p).
Proof. unfold point_bytes. apply Forall_app; split; by apply is_bytes_store_le. Qed.

(** The sketch of the values of a writer, when it writes one. *)
Lemma sketch_spec w pre vs :
  blocks_ok w pre vs -> nAdded w = zlen vs -> vs <> [] -> zlen vs < 2 ^ 40 ->
  exists sketch, (if sketchEnabled w then ValueSketcher.finish (sketcher w) else Some []) = Some sketch /\
    (bool_decide (sketch = []) <> sketchEnabled w /\ zlen sketch <= nAdded w) /\
    (if sketchEnabled w then sketch_of vs sketch else sketch = []).
Proof.
  intros Hok Hn Hne Hsz. pose proof (ok_sketch _ _ _ Hok) as Hs. pose proof (zlen_nonneg vs). destruct (sketchEnabled w).
  - destruct (sketcher_finish vs Hne ltac:(lia) (sketcher w) (Hs eq_refl)) as (sketch & E & Hsk). exists sketch. split; [done|].
    destruct (sketch_ends vs sketch Hne Hsk) as (Hl & _). split; [|done]. split; [|lia].
    rewrite bool_decide_eq_false_2; [done|]. intros ->. change (zlen (@nil ValueSketcher.SketchPoint)) with 0 in Hl. lia.
  - exists []. split; [done|]. split; [|done]. split; [done|]. change (zlen (@nil ValueSketcher.SketchPoint)) with 0. lia.
Qed.

Lemma zones_nonempty vs zs : zones_of vs zs -> zs <> [] -> vs <> [].
Proof. intros [Hl _] Hz ->. apply Hz. apply nil_length_inv. change (zlen zs = 0) in Hl. unfold zlen in Hl. lia. Qed.

Lemma leafMeta_spec w pre vs :
  blocks_ok w pre vs -> zonesEnabled w = true -> nAdded w = zlen vs -> zlen vs < 2 ^ 40 ->
  exists leaves, leafMeta w = Some leaves /\ is_bytes leaves.
Proof.
  intros Hok Hz Hn Hsz. unfold leafMeta. case_decide as E0; [exists []; split; [done|apply List.Forall_nil]|].
  pose proof (ok_leaves _ _ _ Hok) as Hl. rewrite Hz in Hl. pose proof (zones_nonempty _ _ Hl E0) as Hne.
  destruct (sketch_spec w pre vs Hok Hn Hne Hsz) as (sketch & Es & Ha & _). destruct Hl as [Hl _].
  rewrite decide_True by (rewrite Hn; exact Hl).
  assert (zlen (leafZones w) < 2 ^ 32) as Hlt.
  { rewrite Hl. unfold leaf_count, LEAF_ZONE_SIZE. apply Z.div_lt_upper_bound; lia. }
  unfold leafVisitOrder. rewrite !decide_True by done. opt. rewrite Es, bind_Some_l, decide_True by exact Ha. eexists. split; [done|].
  repeat (apply Forall_app; split); try apply is_bytes_order; [|by apply is_bytes_store_le|apply is_bytes_records, is_bytes_point_bytes].
  apply is_bytes_records, is_bytes_zone_bytes.
Qed.

Lemma varint_bytes bs : varint_wf bs -> is_bytes bs.
Proof.
  induction bs as [|b bs IH]; [done|]. destruct bs as [|b' bs].
  - simpl. intros Hb. apply Forall_singleton. unfold is_u in *. lia.
  - intros (Hb & _ & _ & Hwf). apply Forall_cons. split; [done|]. by apply IH.
Qed.

Lemma writeVLong_read v :
  exists bs, writeVLong (u64 v) = Some bs /\ is_bytes bs /\ forall rest, readVLong (bs ++ rest) = Some (u64 v, rest).
Proof.
  assert (is_u 64 (u64 v)) as Hv by (apply uwrap_range; lia).
  destruct (writeVar_readVar 64 MAX_VLONG_SIZE (u64 v) []) as (bs & E & _ & Hwf & Hval & _); [unfold MAX_VLONG_SIZE; lia..|done|].
  exists bs. split; [exact E|]. split; [by apply varint_bytes|].
  intros rest. unfold readVLong. rewrite readVar_spec; [by rewrite Hval|done|by rewrite Hval].
Qed.

Lemma finish_layout w pre vs g lz sk wz wb :
  adding w pre vs g lz sk -> is_bytes pre -> zlen pre < 2 ^ 54 -> zlen vs < 2 ^ 40 ->
  (wb = true -> wz = true) -> (wz = true -> lz = true) ->
  exists w1 r w' o1 leaves trailer, NumColumnWriter.finish wz wb w = Some (r, w') /\ useGcd w1 = g /\ sketchEnabled w1 = sk /\ finished w' = true /\
    layout w1 pre vs wz wb r (out w') o1 leaves trailer.
Proof.
  intros Ha Hpre Hpz Hvz Hb Hz. unfold NumColumnWriter.finish.
  rewrite (add_open _ _ _ _ _ _ Ha), (add_zones _ _ _ _ _ _ Ha), decide_True by done.
  assert (exists w1, (if decide (values w <> []) then addBlock w else Some w) = Some w1 /\ blocks_ok w1 pre vs /\
    nAdded w1 = zlen vs /\ useGcd w1 = g /\ zonesEnabled w1 = lz /\ sketchEnabled w1 = sk) as (w1 & E1 & Hok & Hn & Hg & Hlz & Hsk).
  { destruct (add_split _ _ _ _ _ _ Ha) as (full & m & Evs & Hm & Hm0 & Hok). case_decide as Hne.
    - destruct (addBlock_spec w pre full m Hok Hm Hm0 Hpre Hne) as (w1 & E1 & Hok1 & _ & Hn & _ & Hg & Hlz & Hsk).
      + pose proof (add_rest _ _ _ _ _ _ Ha). lia.
      + apply (add_values _ _ _ _ _ _ Ha).
      + apply (f_equal zlen) in Evs. rewrite zlen_app in Evs. pose proof (zlen_nonneg (values w)). lia.
      + exists w1. rewrite Evs, Hn, Hg, Hlz, Hsk. split; [done|]. split; [done|].
        split; [rewrite <- Evs; apply (add_count _ _ _ _ _ _ Ha)|].
        split; [apply (add_gcd _ _ _ _ _ _ Ha)|]. split; [apply (add_zones _ _ _ _ _ _ Ha)|apply (add_sketch _ _ _ _ _ _ Ha)].
    - exists w. rewrite Hne, app_nil_r in Evs. rewrite Evs. split; [done|]. split; [done|].
      split; [rewrite <- Evs; apply (add_count _ _ _ _ _ _ Ha)|].
      split; [apply (add_gcd _ _ _ _ _ _ Ha)|]. split; [apply (add_zones _ _ _ _ _ _ Ha)|apply (add_sketch _ _ _ _ _ _ Ha)]. }
  rewrite E1. opt. cbv zeta. destruct (align_bytes MAX_ALIGN (out w1)) as (pad & Ep & Hpad & _ & Hmod); [done|].
  set (o1 := align MAX_ALIGN (out w1)) in *.
  assert (exists leaves, (if wz then leafMeta w1 else Some []) = Some leaves /\ is_bytes leaves) as (leaves & El & Hl).
  { destruct wz; [|exists []; split; [done|apply List.Forall_nil]].
    apply (leafMeta_spec w1 pre vs); [done|by rewrite Hlz, Hz|done|done]. }
  rewrite El. opt. rewrite Hn.
  set (lo := if decide (zlen vs = 0) then 0 else overallMin w1). set (hi := if decide (zlen vs = 0) then 0 else overallMax w1).
  destruct (writeVLong_read lo) as (a & Ea & Hab & Ra). destruct (writeVLong_read hi) as (b & Eb & Hbb & Rb).
  assert (align MAX_ALIGN (o1 ++ mjoin (info_bytes <$> blockInfo w1)) = o1 ++ mjoin (info_bytes <$> blockInfo w1)) as Eal.
  { unfold align at 1. rewrite zlen_app, (zlen_records info_bytes 32) by apply zlen_info_bytes. unfold MAX_ALIGN in *.
    replace ((- (zlen o1 + 32 * zlen (blockInfo w1))) `mod` 8) with 0; [by rewrite app_nil_r|].
    symmetry. apply Z.mod_opp_l_z; [lia|].
    replace (32 * zlen (blockInfo w1)) with (4 * zlen (blockInfo w1) * 8) by lia. by rewrite Z.mod_add by lia. }
  rewrite Ea, Eb, Eal. rewrite !bind_Some_l.
  exists w1, (Finished (zlen pre) (zlen o1 - zlen pre) (zlen vs)).
  destruct wb; rewrite bind_Some_l; (eexists _, o1, leaves, _); (split; [rewrite (ok_start _ _ _ Hok); done|]);
    (split; [done|]); (split; [done|]); (split; [done|]);
    (constructor; [done|done|by rewrite Hlz|done| | | | |]).
  - exists pad. done.
  - cbn [out]. rewrite (Hb eq_refl), <- !app_assoc. done.
  - intros E. by rewrite E in El.
  - intros _. exists a, b. done.
  - split; [done|by apply Forall_app].
  - exists pad. done.
  - cbn [out]. destruct wz; rewrite <- ?app_assoc, ?app_nil_r; done.
  - intros E. by rewrite E in El.
  - done.
  - split; [done|apply List.Forall_nil].
Qed.

Lemma payload_room mem off b vs post :
  payload_at mem off b vs -> 0 <= off -> zlen vs <= BLOCK_SIZE -> LinearPack.TAIL_PAD <= zlen post ->
  room (mem ++ post) off (zlen vs) (bits b).
Proof.
  intros Hp Ho Hlen Hpost Hb. pose proof (zlen_nonneg vs). unfold BLOCK_SIZE in Hlen.
  destruct Hp as [[E _]|(rs & ext & He & Hl & Hs & _ & _ & Hz)]; [rewrite E in Hb; done|].
  pose proof (enc_bits _ _ _ He). split; [done|]. split; [done|]. split; [nia|].
  apply slice_Some in Hs as (a & e & -> & <- & _). rewrite !zlen_app. rewrite Hl in Hz.
  rewrite (Z.mul_comm (zlen vs)), <- Hz. pose proof (zlen_nonneg e). lia.
Qed.

Lemma layout_column w pre vs wz wb r bytes o1 leaves trailer post withGcd :
  layout w pre vs wz wb r bytes o1 leaves trailer -> is_bytes pre -> is_bytes post -> LinearPack.TAIL_PAD <= zlen post ->
  (withGcd = false -> useGcd w = false) -> zlen vs < 2 ^ 40 ->
  exists c, NumColumn.make (bytes ++ post) (columnLoc r) (columnLoc r + columnMetaOff r) (numValues r) withGcd = Some c /\
    column_of c vs /\ NumColumn.mem c = bytes ++ post /\ NumColumn.blockMeta c = zlen o1.
Proof.
  intros Hlay Hpre Hpost Hpad Hg Hsz. pose proof (lay_ok _ _ _ _ _ _ _ _ _ _ Hlay) as Hok.
  destruct (lay_meta _ _ _ _ _ _ _ _ _ _ Hlay) as (pad & Eo1 & Hpb & Hmod).
  destruct (lay_is_bytes _ _ _ _ _ _ _ _ _ _ Hlay) as [Hlb Htb]. destruct (ok_out _ _ _ Hok) as (ext & Eout & Hext & _).
  rewrite (lay_data _ _ _ _ _ _ _ _ _ _ Hlay). cbn [columnLoc columnMetaOff numValues].
  replace (zlen pre + (zlen o1 - zlen pre)) with (zlen o1) by lia. unfold NumColumn.make.
  change 7 with (Z.ones 3). rewrite Z.land_ones by lia. rewrite decide_True by exact Hmod.
  eexists. split; [done|]. split; [|done].
  pose proof (zlen_nonneg vs) as Hnn. constructor; cbn [NumColumn.mem NumColumn.nValues NumColumn.withGcd].
  - apply Forall_app. split; [|done]. rewrite (lay_bytes _ _ _ _ _ _ _ _ _ _ Hlay), Eo1, Eout.
    repeat (apply Forall_app; split); try done; [apply is_bytes_records, is_bytes_info_bytes|].
    destruct wz; [|apply List.Forall_nil]. apply Forall_app. split; [apply is_bytes_records, is_bytes_zone_bytes|done].
  - apply (ok_values _ _ _ Hok).
  - done.
  - lia.
  - intros k Hk. assert (NumColumn.numBlocks (NumColumn.Column (bytes ++ post) (zlen pre) (zlen o1) (zlen vs) withGcd)
      = zlen (blockInfo w)) as Hnb.
    { unfold NumColumn.numBlocks. simpl. rewrite (ok_blocks _ _ _ Hok). apply Z.quot_div_nonneg; unfold BLOCK_SIZE; lia. }
    rewrite Hnb in Hk. destruct (zget_in _ _ Hk) as [b Eb]. exists b.
    destruct (ok_block _ _ _ Hok k b Eb) as (H1 & H2 & H3 & H4). split.
    + eapply blockInfo_read; [|done|done|done|done]. simpl. rewrite (lay_bytes _ _ _ _ _ _ _ _ _ _ Hlay), <- !app_assoc. done.
    + unfold NumColumn.payload. cbn [NumColumn.mem NumColumn.blocks NumColumn.withGcd].
      assert (exists tl, bytes ++ post = out w ++ tl /\ LinearPack.TAIL_PAD <= zlen tl) as (tl & Et & Htl).
      { rewrite (lay_bytes _ _ _ _ _ _ _ _ _ _ Hlay), Eo1. eexists. rewrite <- !app_assoc. split; [done|].
        rewrite !zlen_app. pose proof (zlen_nonneg pad). pose proof (zlen_nonneg (mjoin (info_bytes <$> blockInfo w))).
        pose proof (zlen_nonneg (if wz then mjoin (zone_bytes <$> blockZones w) ++ leaves else [])).
        pose proof (zlen_nonneg trailer). lia. }
      rewrite Et. split; [by apply payload_at_mono|]. split; [|auto].
      apply payload_room; [done|pose proof (zlen_nonneg pre); lia| |done].
      unfold block, zlen. rewrite length_take. unfold BLOCK_SIZE. lia.
Qed.

(** Writing a column gives what its reader relies on. *)
Lemma written_column pre vs post g lz sk wz wb withGcd :
  is_bytes pre -> is_bytes post -> LinearPack.TAIL_PAD <= zlen post -> Forall (is_s 64) vs -> zlen pre < 2 ^ 54 ->
  zlen vs < 2 ^ 40 -> (wb = true -> wz = true) -> (sk = true -> lz = true) -> (wz = true -> lz = true) -> (withGcd = false -> g = false) ->
  exists w0 w r w' c, NumColumnWriter.make pre g lz sk = Some w0 /\ addAll vs w0 = Some w /\ NumColumnWriter.finish wz wb w = Some (r, w') /\
    NumColumn.make (out w' ++ post) (columnLoc r) (columnLoc r + columnMetaOff r) (numValues r) withGcd = Some c /\
    column_of c vs.
Proof.
  intros Hpre Hpost Hpad Hvs Hp Hv Hb Hsk Hz Hg. destruct (make_adding pre g lz sk Hsk) as (w0 & E0 & Ha0).
  destruct (addAll_spec vs w0 pre [] g lz sk Ha0 Hpre Hvs) as (w & Ew & Ha).
  { change (zlen (@nil Z)) with 0. lia. }
  destruct (finish_layout w pre vs g lz sk wz wb Ha Hpre Hp Hv Hb Hz) as (w1 & r & w' & o1 & leaves & trailer & Ef & Hug & _ & _ & Hlay).
  destruct (layout_column _ _ _ _ _ _ _ _ _ _ post withGcd Hlay Hpre Hpost Hpad) as (c & Ec & Hc & _).
  { rewrite Hug. exact Hg. }
  { done. }
  by exists w0, w, r, w', c.
Qed.

End columns.

(** C1: columns.  Any sequence of 64-bit values added to a column writer on a stream that
    may already hold other bytes, with or without divisors, zones, a value sketch and bounds, and finished,
    gives a column whose reader returns every value by its rank, every value with its
    predecessor, and every frame of 128 values, and reads at most the padding past its end. *)
Theorem column_roundtrip (pre vs post : list Z) (useGcd zones sketch writeZones writeBounds withGcd : bool)
    (Hpre : is_bytes pre) (Hpost : is_bytes post) (Hpad : LinearPack.TAIL_PAD <= zlen post)
    (Hvs : Forall (is_s 64) vs) (Hp : zlen pre < 2 ^ 54) (Hv : zlen vs < 2 ^ 40)
    (Hb : writeBounds = true -> writeZones = true) (Hs : sketch = true -> zones = true) (Hz : writeZones = true -> zones = true)
    (Hg : withGcd = false -> useGcd = false) :
  exists w0 w r w' c, NumColumnWriter.make pre useGcd zones sketch = Some w0 /\ addAll vs w0 = Some w /\
    NumColumnWriter.finish writeZones writeBounds w = Some (r, w') /\
    NumColumn.make (NumColumnWriter.out w' ++ post) (NumColumnWriter.columnLoc r)
      (NumColumnWriter.columnLoc r + NumColumnWriter.columnMetaOff r) (NumColumnWriter.numValues r) withGcd = Some c /\
    NumColumn.nValues c = zlen vs /\
    (forall rank v, vs.[rank] = Some v -> NumColumn.valueAt c rank = Some v /\
       NumColumn.valuesAt c rank = Some (if decide (rank = 0) then 0 else default 0 (vs.[rank - 1]), v)) /\
    (forall rank, 0 <= rank < zlen vs -> NumColumn.decodeFrame c rank = Some (frame_start rank, frame vs rank)).
Proof.
  destruct (written_column pre vs post useGcd zones sketch writeZones writeBounds withGcd) as (w0 & w & r & w' & c & E0 & Ew & Ef & Ec & Hc); [done..|].
  exists w0, w, r, w', c. split; [done|]. split; [done|]. split; [done|]. split; [done|]. split; [apply (col_count _ _ Hc)|]. split.
  - intros rank v Hr. split; [by apply (valueAt_spec c vs)|by apply valuesAt_spec].
  - intros rank Hr. by apply decodeFrame_spec.
Qed.

Lemma column_roundtrip_witness :
  exists w0 w r w' c, NumColumnWriter.make [1; 2; 3] true true true = Some w0 /\ addAll [5; -7; 2 ^ 60; 12; 5] w0 = Some w /\
    NumColumnWriter.finish true true w = Some (r, w') /\
    NumColumn.make (NumColumnWriter.out w' ++ replicate 10 0) (NumColumnWriter.columnLoc r)
      (NumColumnWriter.columnLoc r + NumColumnWriter.columnMetaOff r) (NumColumnWriter.numValues r) true = Some c /\
    NumColumn.valueAt c 2 = Some (2 ^ 60) /\ NumColumn.decodeFrame c 3 = Some (0, [5; -7; 2 ^ 60; 12; 5]).
Proof.
  destruct (column_roundtrip [1; 2; 3] [5; -7; 2 ^ 60; 12; 5] (replicate 10 0) true true true true true true)
    as (w0 & w & r & w' & c & E0 & Ew & Ef & Ec & _ & Hv & Hf).
  - apply (bool_decide_unpack _). by vm_compute.
  - apply (bool_decide_unpack _). by vm_compute.
  - by vm_compute.
  - apply (bool_decide_unpack _). by vm_compute.
  - by vm_compute.
  - by vm_compute.
  - done.
  - done.
  - done.
  - done.
  - exists w0, w, r, w', c. do 4 (split; [done|]). split; [by apply (Hv 2)|]. by apply (Hf 3).
Defined.

(** * Searching columns *)

Section searching.
Import NumBlockInfo NumColumnFormat.
Context (c : NumColumn.column) (vs : list Z) (Hc : column_of c vs).

Lemma packed_block k b :
  NumColumn.blockInfo c k = Some b -> 0 <= k < NumColumn.numBlocks c -> bits b <= MAX_PACKED_BITS ->
  exists rs ext, encodes b (block vs k) (zget rs) /\ zlen rs = zlen (block vs k) /\
    slice (NumColumn.mem c) (NumColumn.payload c b) (zlen ext) = Some ext /\
    le ext = digits (bits b) rs /\ zlen ext = (bits b * zlen rs + 7) / 8 /\
    packed_room (NumColumn.mem c) (NumColumn.payload c b) (zlen (block vs k)) (bits b) /\
    (NumColumn.withGcd c = false -> gcd b = 1).
Proof.
  intros Eb Hk Hb. destruct (col_block _ _ Hc k Hk) as (b' & Eb' & Hp & Hroom & Hg).
  rewrite Eb in Eb'. injection Eb' as <-. specialize (Hroom Hb).
  destruct Hp as [[E _]|(rs & ext & He & Hl & Hs & _ & Hle & Hlen)]; [rewrite E in Hb; done|].
  exists rs, ext. done.
Qed.

Lemma blockInfo_range k b : NumColumn.blockInfo c k = Some b -> 0 <= k < NumColumn.numBlocks c.
Proof. unfold NumColumn.blockInfo. by case_decide. Qed.

Lemma valuesInBlock_spec k : 0 <= k < NumColumn.numBlocks c ->
  NumColumn.valuesInBlock c k = Some (zlen (block vs k)) /\ (block vs k).[0] = vs.[k * BLOCK_SIZE] /\ 0 < zlen (block vs k).
Proof.
  intros Hk. unfold NumColumn.valuesInBlock. rewrite decide_True by done. pose proof (zlen_nonneg vs).
  assert (k * BLOCK_SIZE < zlen vs) as Hlt.
  { unfold NumColumn.numBlocks, BLOCK_SIZE in *. rewrite (col_count _ _ Hc), Z.quot_div_nonneg in Hk by lia.
    pose proof (Z.div_mod (zlen vs + 4096 - 1) 4096). pose proof (Z.mod_pos_bound (zlen vs + 4096 - 1) 4096). lia. }
  rewrite zlen_block, (col_count _ _ Hc) by lia. split; [done|]. split; [|unfold BLOCK_SIZE in *; lia].
  unfold block. rewrite zget_take_drop by (unfold BLOCK_SIZE in *; lia). f_equal. lia.
Qed.

Lemma rankBounds_spec k lo hi : 0 <= k < NumColumn.numBlocks c ->
  exists o, NumColumn.rankBounds c k lo hi = Some o /\ forall rb, o = Some rb -> sound_bounds (block vs k) lo hi rb.
Proof.
  intros Hk. unfold NumColumn.rankBounds. destruct (col_block _ _ Hc k Hk) as (b & Eb & _). rewrite Eb. opt.
  destruct (linearFit b) eqn:Hl; [|by exists None].
  destruct (packed_block k b Eb Hk) as (rs & ext & He & _).
  { unfold linearFit, forPacked in Hl. apply andb_true_iff in Hl as [Hl%bool_decide_eq_true _]. done. }
  destruct (valuesInBlock_spec k Hk) as (E1 & E0 & Hpos). destruct (zget_in (block vs k) 0) as [v0 Hv0]; [lia|].
  rewrite (valueAt_spec c vs Hc _ v0) by (by rewrite <- E0). opt. rewrite E1. opt.
  destruct (linearRankBounds_spec b (block vs k) _ v0 lo hi He Hl Hv0) as (o & Eo & _ & Hs). by exists o.
Qed.

Lemma decodeResidualFrame_spec rank b lo hi :
  0 <= rank < zlen vs -> NumColumn.blockInfo c (frame_start rank / BLOCK_SIZE) = Some b -> residualComparable b = true ->
  is_s 64 lo -> is_s 64 hi ->
  exists rb rs, residualBounds b lo hi = Some rb /\
    NumColumn.decodeResidualFrame c rank = Some (frame_start rank, rs) /\ zlen rs = zlen (frame vs rank) /\
    forall k v, (frame vs rank).[k] = Some v -> exists r, rs.[k] = Some r /\ (lo <= v <= hi <-> lower rb <= r <= upper rb).
Proof.
  intros Hr Eb Hcmp Hlo Hhi. pose proof (blockInfo_range _ _ Eb) as Hk.
  assert (bits b <= 32) as H32.
  { unfold residualComparable in Hcmp. apply andb_true_iff in Hcmp as [[_ H%bool_decide_eq_true]%andb_true_iff _]. done. }
  destruct (packed_block _ b Eb Hk) as (rs & ext & He & Hl & Hs & Hle & Hlen & Hroom & Hg); [unfold MAX_PACKED_BITS; lia|].
  destruct (residualBounds_spec b _ _ lo hi He Hcmp Hlo Hhi) as (rb & Erb & _ & _ & Hrb).
  destruct (frame_in_block vs rank Hr) as (H0 & H8 & Hcnt & Hfit & Hget). unfold BULK_SIZE in Hcnt.
  exists rb. eexists. split; [done|]. unfold NumColumn.decodeResidualFrame. rewrite (col_count _ _ Hc), decide_True by lia. cbv zeta.
  fold (frame_start rank). rewrite Eb. opt. rewrite Hcmp. pose proof (enc_bits _ _ _ He).
  rewrite mask32_ones by lia. opt. fold (frame_count vs rank).
  rewrite (unpack128_packed _ _ b (block vs (frame_start rank / BLOCK_SIZE)) rs ext) by (done || lia || apply (col_bytes _ _ Hc)).
  split; [done|]. split.
  { rewrite zlen_frame by done. unfold zlen in *. rewrite length_take, length_drop. lia. }
  intros k v Hv. pose proof (zget_Some_range _ _ _ Hv) as Hkr. rewrite zlen_frame in Hkr by done.
  rewrite zget_frame, <- Hget in Hv by lia. rewrite zget_take_drop by lia.
  destruct (enc_line _ _ _ He) as (c0 & _ & _ & Hval). destruct (Hval _ v Hv) as (r & Er & _). exists r.
  split; [done|]. by apply (Hrb _ v r Hv).
Qed.

Lemma affineBlock_spec k : 0 <= k < NumColumn.numBlocks c ->
  exists o, NumColumn.affineBlock c k = Some o /\
    forall base step, o = Some (base, step) -> forall i v, (block vs k).[i] = Some v -> v = s64 (base + step * i).
Proof.
  intros Hk. unfold NumColumn.affineBlock. destruct (col_block _ _ Hc k Hk) as (b & Eb & _). rewrite Eb. opt.
  eexists. split; [done|]. intros base step. case_decide as Hd; [done|]. intros [= <- <-] i v Hv.
  destruct (decide (bits b = 0)) as [Hb0|]; [|tauto].
  destruct (decide (Z.land (u64 (scaledSlope b)) (Z.shiftl 1 SLOPE_SHIFT - 1) = 0)) as [Hs|]; [|tauto]. clear Hd.
  destruct (packed_block k b Eb Hk) as (rs & ext & He & _ & _ & _ & _ & _ & Hg); [rewrite Hb0; done|].
  destruct (enc_line _ _ _ He) as (c0 & Ec & _ & Hval). destruct (Hval i v Hv) as (r & _ & Hr & Ev).
  rewrite Hb0 in Hr. change (2 ^ 0) with 1 in Hr. unfold is_u in Hr. assert (r = 0) as -> by (simpl in Hr; lia).
  change (Z.shiftl 1 SLOPE_SHIFT - 1) with (Z.ones 14) in Hs. rewrite Z.land_ones in Hs by lia.
  assert (scaledSlope b = 2 ^ 14 * (scaledSlope b / 2 ^ 14)) as Hq.
  { assert (scaledSlope b `mod` 2 ^ 14 = 0) as Hmod.
    { rewrite <- Hs. unfold uwrap. symmetry. apply Z.mod_mod_divide. by exists (2 ^ 50). }
    pose proof (Z.div_mod (scaledSlope b) (2 ^ 14)). lia. }
  assert (slope_at b i = i * (scaledSlope b / 2 ^ 14)) as Hsl.
  { unfold slope_at. change SLOPE_SHIFT with 14. rewrite Hq at 1. rewrite Z.shiftr_div_pow2 by lia.
    replace (i * (2 ^ 14 * (scaledSlope b / 2 ^ 14))) with (i * (scaledSlope b / 2 ^ 14) * 2 ^ 14) by lia.
    by rewrite Z.div_mul by lia. }
  change SLOPE_SHIFT with 14. rewrite Z.shiftr_div_pow2 by lia. set (q := scaledSlope b / 2 ^ 14) in *.
  assert (is_s 64 v) as Hv64 by (pose proof (block_values c vs Hc k) as H; rewrite Forall_forall in H; by eapply H, zget_elem_1).
  rewrite <- (swrap_id 64 v) by (done || lia). rewrite <- swrap_uwrap, <- (swrap_uwrap 64 (baseBits b + _)) by lia. f_equal.
  rewrite Ec, uwrap_add_l, Ev, Hsl. destruct (NumColumn.withGcd c) eqn:Hwg.
  - rewrite <- (uwrap_add_r 64 c0 (u64 _ * i)), uwrap_mul_l.
    replace (u64 q * gcd b * i) with (u64 q * (gcd b * i)) by lia. rewrite uwrap_mul_l, uwrap_add_r. f_equal. lia.
  - rewrite (Hg eq_refl), <- (uwrap_add_r 64 c0 (u64 q * i)), uwrap_mul_l, uwrap_add_r. f_equal. lia.
Qed.

End searching.

(** C33: searching columns.  On every well-formed column, the bounds of a block with a slope
    exclude no value of the range and include only such values; the residuals of a frame of
    a comparable block are in the translated interval exactly where the value is in the
    range; and a block reported affine is an arithmetic progression. *)
Theorem column_search (c : NumColumn.column) (vs : list Z) (lo hi : Z)
    (Hc : column_of c vs) (Hlo : is_s 64 lo) (Hhi : is_s 64 hi) :
  (forall k, 0 <= k < NumColumn.numBlocks c ->
     (exists o, NumColumn.rankBounds c k lo hi = Some o /\ forall rb, o = Some rb -> sound_bounds (block vs k) lo hi rb) /\
     (exists o, NumColumn.affineBlock c k = Some o /\
        forall base step, o = Some (base, step) -> forall i v, (block vs k).[i] = Some v -> v = s64 (base + step * i))) /\
  (forall rank b, 0 <= rank < zlen vs ->
     NumColumn.blockInfo c (frame_start rank / NumColumnFormat.BLOCK_SIZE) = Some b ->
     NumBlockInfo.residualComparable b = true ->
     exists rb rs, NumColumnFormat.residualBounds b lo hi = Some rb /\
       NumColumn.decodeResidualFrame c rank = Some (frame_start rank, rs) /\ zlen rs = zlen (frame vs rank) /\
       forall k v, (frame vs rank).[k] = Some v ->
         exists r, rs.[k] = Some r /\ (lo <= v <= hi <-> NumColumnFormat.lower rb <= r <= NumColumnFormat.upper rb)).
Proof.
  split; [intros k Hk; split|].
  - by apply (rankBounds_spec c vs).
  - by apply (affineBlock_spec c vs).
  - intros rank b Hr Eb Hcmp. by apply decodeResidualFrame_spec.
Qed.

Lemma column_search_witness :
  exists c, column_of c [10; 20; 30; 40; 51] /\
    exists o, NumColumn.rankBounds c 0 15 40 = Some o /\ forall rb, o = Some rb -> sound_bounds [10; 20; 30; 40; 51] 15 40 rb.
Proof.
  destruct (written_column [] [10; 20; 30; 40; 51] (replicate 10 0) true true false true true true) as (w0 & w & r & w' & c & _ & _ & _ & _ & Hc).
  - apply List.Forall_nil.
  - apply (bool_decide_unpack _). by vm_compute.
  - by vm_compute.
  - apply (bool_decide_unpack _). by vm_compute.
  - by vm_compute.
  - by vm_compute.
  - done.
  - done.
  - done.
  - done.
  - exists c. split; [exact Hc|].
    destruct (column_search c [10; 20; 30; 40; 51] 15 40 Hc) as [H _]; [by apply (bool_decide_unpack _)..|].
    apply (H 0). unfold NumColumn.numBlocks. rewrite (col_count _ _ Hc). by vm_compute.
Defined.

(** * Walking columns *)

(** What a reader of a column may rely on, wherever its bytes come from. *)
Record decodes (c : NumColumn.column) (vs : list Z) : Prop := {
  dec_count : NumColumn.nValues c = zlen vs;
  dec_small : zlen vs < 2 ^ 62;
  dec_values : Forall (is_s 64) vs;
  dec_value i v : vs.[i] = Some v -> NumColumn.valueAt c i = Some v;
  dec_frame i : 0 <= i < zlen vs -> NumColumn.decodeFrame c i = Some (frame_start i, frame vs i) }.

Lemma column_decodes c vs : column_of c vs -> decodes c vs.
Proof.
  intros Hc. constructor; [apply Hc..|intros; by apply (valueAt_spec c vs Hc)|intros; by apply decodeFrame_spec].
Qed.

Section walking.
Context (c : NumColumn.column) (vs : list Z) (Hc : decodes c vs).

(** A step of a cursor that is not exhausted. *)
Inductive cursor_step : Bulk.bulk -> Bulk.bulk -> Prop :=
| step_next b i b' : Bulk.index b <> NumColumn.ENDINDEX -> Bulk.next c b = Some (i, b') -> cursor_step b b'
| step_advance b t i b' : t > Bulk.index b -> Bulk.advance c t b = Some (i, b') -> cursor_step b b'.

(** The decoded values are values of the column, and the position is not left of them. *)
Definition cursor_ok (b : Bulk.bulk) : Prop :=
  zlen (Bulk.decoded b) = Bulk.decodedEnd b - Bulk.decodedStart b /\
  (forall k, Bulk.decodedStart b <= k < Bulk.decodedEnd b -> (Bulk.decoded b).[k - Bulk.decodedStart b] = vs.[k]) /\
  -1 <= Bulk.decodedStart b /\ Bulk.decodedEnd b <= zlen vs.

Definition positioned (b : Bulk.bulk) : Prop :=
  cursor_ok b /\ Bulk.decodedStart b <= Bulk.index b + 1 /\
  (Bulk.index b = -1 \/ Bulk.index b = NumColumn.ENDINDEX \/ Bulk.decodedStart b <= Bulk.index b < Bulk.decodedEnd b).

Lemma decode_spec i b : 0 <= i < zlen vs ->
  exists b', Bulk.decode c i b = Some b' /\ cursor_ok b' /\ Bulk.index b' = Bulk.index b /\
    0 <= Bulk.decodedStart b' <= i /\ i < Bulk.decodedEnd b'.
Proof.
  intros Hi. unfold Bulk.decode. rewrite (dec_frame _ _ Hc i Hi). opt. eexists. split; [done|].
  pose proof (frame_start_spec i ltac:(lia)) as Hs. unfold cursor_ok. cbn [Bulk.decoded Bulk.decodedStart Bulk.decodedEnd Bulk.index].
  rewrite zlen_frame by done. unfold frame_count. split; [|split; [done|lia]].
  split; [lia|]. split; [|lia]. intros k Hk.
  rewrite zget_frame by (done || unfold frame_count; lia). f_equal. lia.
Qed.

Lemma fresh_positioned : positioned Bulk.fresh.
Proof.
  split; [|split; [done|by left]]. split; [done|]. split; [simpl; lia|]. simpl. pose proof (zlen_nonneg vs). lia.
Qed.

Lemma cursor_value b : positioned b -> 0 <= Bulk.index b < zlen vs -> Bulk.value b = vs.[Bulk.index b].
Proof.
  intros ((_ & Hv & _) & _ & Hp) Hi. pose proof (dec_small _ _ Hc). unfold NumColumn.ENDINDEX in Hp.
  assert (Bulk.decodedStart b <= Bulk.index b < Bulk.decodedEnd b) as Hin by lia.
  unfold Bulk.value. rewrite decide_True by done. by apply Hv.
Qed.

(** Moving to a position: what both [next] and [advance] do. *)
Definition moved (t : Z) (b' : Bulk.bulk) : Prop :=
  Bulk.index b' = (if decide (t < zlen vs) then t else NumColumn.ENDINDEX) /\ positioned b'.

Lemma cursor_index b : positioned b -> -1 <= Bulk.index b <= NumColumn.ENDINDEX.
Proof.
  intros ((Hl & Hv & He) & Hs & Hp). pose proof (dec_small _ _ Hc). unfold NumColumn.ENDINDEX in *. lia.
Qed.

Lemma next_spec b : positioned b -> Bulk.index b <> NumColumn.ENDINDEX ->
  exists b', Bulk.next c b = Some (Bulk.index b', b') /\ moved (Bulk.index b + 1) b'.
Proof.
  intros Hp Hne. pose proof (cursor_index b Hp) as Hi. destruct Hp as (Hok & Hs & Hpos).
  unfold Bulk.next. rewrite decide_True by (unfold is_s, NumColumn.ENDINDEX in *; simpl; lia). cbv zeta.
  cbn [Bulk.set_index Bulk.index Bulk.decodedEnd]. rewrite (dec_count _ _ Hc). unfold moved, positioned.
  pose proof (dec_small _ _ Hc). case_decide as Hend.
  - exists (Bulk.set_index NumColumn.ENDINDEX b). split; [done|]. simpl. rewrite decide_False by lia. split; [done|]. split; [exact Hok|].
    split; [|auto]. destruct Hok as (_ & _ & He). unfold NumColumn.ENDINDEX in *. simpl. lia.
  - rewrite (decide_True (P := Bulk.index b + 1 < zlen vs)) by lia.
    destruct (decide (Bulk.index b + 1 >= Bulk.decodedEnd b)) as [Hd|Hd].
    + destruct (decode_spec (Bulk.index b + 1) (Bulk.set_index (Bulk.index b + 1) b)) as (b' & E & Hok' & Hi' & Hr1 & Hr2); [lia|].
      cbn [Bulk.set_index Bulk.index] in Hi'. rewrite E. opt. exists b'. rewrite Hi'.
      split; [done|]. split; [done|]. split; [done|]. lia.
    + rewrite bind_Some_l. exists (Bulk.set_index (Bulk.index b + 1) b). split; [done|]. cbn [Bulk.set_index Bulk.index Bulk.decodedStart Bulk.decodedEnd]. split; [done|].
      split; [exact Hok|]. lia.
Qed.

Lemma advance_spec b t : positioned b -> t > Bulk.index b ->
  exists b', Bulk.advance c t b = Some (Bulk.index b', b') /\ moved t b'.
Proof.
  intros Hp Ht. pose proof (cursor_index b Hp) as Hi. destruct Hp as (Hok & Hs & Hpos).
  unfold Bulk.advance. rewrite decide_True by done. cbv zeta. cbn [Bulk.set_index Bulk.index Bulk.decodedStart Bulk.decodedEnd].
  rewrite (dec_count _ _ Hc). unfold moved, positioned. pose proof (dec_small _ _ Hc). case_decide as Hend.
  - exists (Bulk.set_index NumColumn.ENDINDEX b). split; [done|]. simpl. rewrite decide_False by lia. split; [done|]. split; [exact Hok|].
    split; [|auto]. destruct Hok as (_ & _ & He). unfold NumColumn.ENDINDEX in *. simpl. lia.
  - rewrite (decide_True (P := t < zlen vs)) by lia.
    destruct (decide (t < Bulk.decodedStart b \/ t >= Bulk.decodedEnd b)) as [Hd|Hd].
    + destruct (decode_spec t (Bulk.set_index t b)) as (b' & E & Hok' & Hi' & Hr1 & Hr2); [lia|].
      cbn [Bulk.set_index Bulk.index] in Hi'. rewrite E. opt. exists b'. rewrite Hi'.
      split; [done|]. split; [done|]. split; [done|]. lia.
    + rewrite bind_Some_l. exists (Bulk.set_index (t) b). split; [done|]. cbn [Bulk.set_index Bulk.index Bulk.decodedStart Bulk.decodedEnd]. split; [done|].
      split; [exact Hok|]. lia.
Qed.

Lemma reachable_positioned b : rtc cursor_step Bulk.fresh b -> positioned b.
Proof.
  intros Hr. revert Hr. apply (rtc_ind_r (fun b => positioned b)); [apply fresh_positioned|].
  intros x y _ Hs Hp. destruct Hs as [x i y Hne E|x t i y Ht E].
  - destruct (next_spec x Hp Hne) as (y' & E' & _ & Hp'). rewrite E in E'. by injection E' as -> ->.
  - destruct (advance_spec x t Hp Ht) as (y' & E' & _ & Hp'). rewrite E in E'. by injection E' as -> ->.
Qed.

Lemma bulk_valueAt_spec i v b : cursor_ok b -> vs.[i] = Some v ->
  exists b', Bulk.valueAt c i b = Some (v, b') /\ cursor_ok b' /\ Bulk.index b' = Bulk.index b.
Proof.
  intros Hok Hv. pose proof (zget_Some_range _ _ _ Hv) as Hi. unfold Bulk.valueAt. rewrite (dec_count _ _ Hc), decide_True by lia.
  case_decide as Hd.
  - destruct (decode_spec i b Hi) as (b' & E & Hok' & Hi' & Hr1 & Hr2). rewrite E. opt.
    exists b'. destruct Hok' as (H1 & H2 & H3). rewrite H2 by lia. rewrite Hv. opt. done.
  - rewrite bind_Some_l. exists b. destruct Hok as (H1 & H2 & H3). rewrite H2 by lia. rewrite Hv. opt. done.
Qed.

End walking.

(** C34: the cursor.  In every state that [next] and [advance] reach on a well-formed column,
    a cursor on a value returns that value; [next] goes to the following value and [advance]
    to its target, or to the end when there is none; and random reads through the cursor's
    frame return the value of any rank. *)
Theorem cursor_walk (c : NumColumn.column) (vs : list Z) (b : Bulk.bulk)
    (Hc : column_of c vs) (Hb : rtc (cursor_step c) Bulk.fresh b) :
  let pos := fun t => if decide (t < zlen vs) then t else NumColumn.ENDINDEX in
  (0 <= Bulk.index b < zlen vs -> Bulk.value b = vs.[Bulk.index b]) /\
  (Bulk.index b <> NumColumn.ENDINDEX ->
     exists b', Bulk.next c b = Some (pos (Bulk.index b + 1), b') /\ Bulk.index b' = pos (Bulk.index b + 1)) /\
  (forall t, t > Bulk.index b -> exists b', Bulk.advance c t b = Some (pos t, b') /\ Bulk.index b' = pos t) /\
  (forall i v, vs.[i] = Some v -> exists b', Bulk.valueAt c i b = Some (v, b') /\ Bulk.index b' = Bulk.index b).
Proof.
  pose proof (column_decodes c vs Hc) as Hd. pose proof (reachable_positioned c vs Hd b Hb) as Hp.
  split; [by apply (cursor_value c)|]. split; [|split].
  - intros Hne. destruct (next_spec c vs Hd b Hp Hne) as (b' & E & Hi & _). exists b'. by rewrite E, Hi.
  - intros t Ht. destruct (advance_spec c vs Hd b t Hp Ht) as (b' & E & Hi & _). exists b'. by rewrite E, Hi.
  - intros i v Hv. destruct (bulk_valueAt_spec c vs Hd i v b) as (b' & E & _ & Hi); [by apply Hp|done|]. by exists b'.
Qed.

Lemma cursor_walk_witness :
  exists c b, column_of c [4; 9; 6] /\ Bulk.advance c 1 Bulk.fresh = Some (1, b) /\ Bulk.value b = Some 9.
Proof.
  destruct (written_column [] [4; 9; 6] (replicate 10 0) true true false true true true) as (w0 & w & r & w' & c & _ & _ & _ & _ & Hc).
  - apply List.Forall_nil.
  - apply (bool_decide_unpack _). by vm_compute.
  - by vm_compute.
  - apply (bool_decide_unpack _). by vm_compute.
  - by vm_compute.
  - by vm_compute.
  - done.
  - done.
  - done.
  - done.
  - destruct (cursor_walk c [4; 9; 6] Bulk.fresh Hc (rtc_refl _ _)) as (_ & _ & Ha & _).
    destruct (Ha 1) as (b & E & Hi); [done|]. exists c, b. split; [done|]. split; [exact E|].
    destruct (cursor_walk c [4; 9; 6] b Hc) as (Hv & _).
    + eapply rtc_once. by apply (step_advance c Bulk.fresh 1 1 b).
    + rewrite Hi in Hv. by apply Hv.
Defined.

(** [next] decodes only past the end of the decoded frame: after a random read of a later
    frame it stands on a value that is not decoded. *)
Example next_after_valueAt :
  (w ← NumColumnWriter.make [] true true false;
   w ← addAll (seqZ 0 200) w;
   '(r, w') ← NumColumnWriter.finish false false w;
   c ← NumColumn.make (NumColumnWriter.out w' ++ replicate 10 0) 0 (NumColumnWriter.columnMetaOff r) 200 true;
   '(v, b) ← Bulk.valueAt c 150 Bulk.fresh;
   '(i, b) ← Bulk.next c b;
   Some (v, i, Bulk.value b)) = Some (150, 0, None).
Proof. by vm_compute. Qed.
