(* ===== verification/IntColumn.v ===== *)
(** Integer columns: the leaf metadata of [luxir/codec/NumColumnFormat.h] ([LeafMeta], with the place and
    the points of a value sketch, [ValueSketch]) and the
    part of [luxir/reader/IntColReader.h] that reads the zones, the bounds and the values of
    the documents of a column. *)

From S2P Require Import Prelude Encoding LinearPack LinearFit NumFormat ValueSketcher NumColumn.

(** * Leaf metadata *)

Module ValueSketch.

(** Where the points of a sketch are; no points when there is none. *)
Record sketch := Sketch { points : Z; count : Z; population : Z }.

Definition none : sketch := Sketch 0 0 0.

Definition point (mem : list Z) (s : sketch) (i : Z) : option (Z * Z) :=
  if decide (0 <= i < count s) then
    r ← load 8 mem (points s + i * 16); v ← load 8 mem (points s + i * 16 + 8); Some (s64 r, s64 v)
  else None.

Definition make (mem : list Z) (points count population : Z) : option sketch :=
  if decide (0 < count <= population) then
    let s := Sketch points count population in
    '(r0, _) ← point mem s 0;
    '(r1, _) ← point mem s (count - 1);
    if decide (r0 = 0 /\ r1 = population - 1) then Some s else None
  else None.

End ValueSketch.

Module LeafMeta.
Import NumColumnFormat.

Record meta := Meta { mem : list Z; zones : Z; count : Z; values : Z; sketch : ValueSketch.sketch }.

Record RangeSummary := Summary { outside : Z; insideLower : Z; insideUpper : Z }.

(** The view of the metadata at an offset, and the offset past it. *)
Definition make (mem : list Z) (leafZones numValues : Z) : option (meta * Z) :=
  let count := Z.quot (numValues + LEAF_ZONE_SIZE - 1) LEAF_ZONE_SIZE in
  let end_ := leafZones + count * (16 + 2 * 4) in
  if decide (count = 0) then Some (Meta mem leafZones count numValues ValueSketch.none, end_)
  else
    points ← load 4 mem end_;
    sketch ← (if decide (points > 0) then ValueSketch.make mem (end_ + 4) points numValues else Some ValueSketch.none);
    Some (Meta mem leafZones count numValues sketch, end_ + 4 + points * 16).

Definition orderAt (m : meta) (order rank : Z) : option Z :=
  if decide (0 <= rank < count m) then load 4 (mem m) (zones m + count m * 16 + (order * count m + rank) * 4) else None.

Definition leafZone (m : meta) (leaf : Z) : option NumBlockZone :=
  if decide (0 <= leaf < count m) then
    a ← load 8 (mem m) (zones m + leaf * 16); b ← load 8 (mem m) (zones m + leaf * 16 + 8);
    Some (Zone (s64 a) (s64 b))
  else None.

Definition leafByMinAscending (m : meta) (rank : Z) : option Z := orderAt m 0 rank.
Definition leafByMaxDescending (m : meta) (rank : Z) : option Z := orderAt m 1 rank.

(** The binary search of [summarizeRange]; the number of leaves has at most 63 bits. *)
Definition prefixCount (m : meta) (predicate : Z -> option bool) : option Z := partition 64 predicate 0 (count m).

Definition population (m : meta) (leaves : Z) (includesTail : bool) : Z :=
  leaves * LEAF_ZONE_SIZE - (if includesTail then count m * LEAF_ZONE_SIZE - values m else 0).

Definition summarizeRange (m : meta) (lo hi : Z) : option RangeSummary :=
  if decide (lo <= hi) then
    if decide (count m = 0) then Some (Summary 0 0 0)
    else
      tail ← leafZone m (count m - 1);
      let byMax := fun (P : Z -> bool) => prefixCount m (fun rank =>
        leaf ← leafByMaxDescending m rank; z ← leafZone m leaf; Some (P (zmax z))) in
      let byMin := fun (P : Z -> bool) => prefixCount m (fun rank =>
        leaf ← leafByMinAscending m rank; z ← leafZone m leaf; Some (P (zmin z))) in
      n1 ← byMax (fun x => bool_decide (x >= lo));
      let below := population m (count m - n1) (bool_decide (zmax tail < lo)) in
      n2 ← byMin (fun x => bool_decide (x <= hi));
      let above := population m (count m - n2) (bool_decide (zmin tail > hi)) in
      n3 ← byMax (fun x => bool_decide (x > hi));
      let maxInside := population m (count m - n3) (bool_decide (zmax tail <= hi)) in
      n4 ← byMin (fun x => bool_decide (x < lo));
      let minInside := population m (count m - n4) (bool_decide (zmin tail >= lo)) in
      Some (Summary (below + above) (Z.max 0 (maxInside + minInside - values m))
              (Z.min (maxInside - below) (minInside - above)))
  else None.

End LeafMeta.

(** * The reader *)

Module IntColReader.
Import NumColumnFormat.

Record reader := Reader {
  values : NumColumn.column;
  zoneMeta : Z;
  leaves : LeafMeta.meta;
  nvals : Z;
  columnMin : Z;
  columnMax : Z }.

(** The offsets of the zones and of the bounds, and the leaf metadata. *)
Definition locateZoneMeta (c : NumColumn.column) : option (Z * LeafMeta.meta * Z) :=
  let zoneMeta := NumColumn.blockMeta c + NumColumn.numBlocks c * 32 in
  '(leaves, trailer) ← LeafMeta.make (NumColumn.mem c) (zoneMeta + NumColumn.numBlocks c * 16) (NumColumn.nValues c);
  Some (zoneMeta, leaves, trailer).

(** The constructor for a column of [numValues] values in memory. *)
Definition make (mem : list Z) (columnOff columnMetaOff numValues : Z) : option reader :=
  c ← NumColumn.make mem columnOff (columnOff + columnMetaOff) numValues true;
  '(zoneMeta, leaves, minMaxPtr) ← locateZoneMeta c;
  '(lo, hi) ← (if decide (numValues > 0) then
                 '(a, rest) ← readVLong (drop (Z.to_nat minMaxPtr) mem);
                 '(b, _) ← readVLong rest;
                 Some (s64 a, s64 b)
               else Some (0, 0));
  Some (Reader c zoneMeta leaves numValues lo hi).

Definition blockZone (r : reader) (blockNum : Z) : option NumBlockZone :=
  if decide (0 <= blockNum < NumColumn.numBlocks (values r)) then
    a ← load 8 (NumColumn.mem (values r)) (zoneMeta r + blockNum * 16);
    b ← load 8 (NumColumn.mem (values r)) (zoneMeta r + blockNum * 16 + 8);
    Some (Zone (s64 a) (s64 b))
  else None.

End IntColReader.

(** * Sums over leaves *)

Section sums.

Definition sumZ (f : Z -> Z) (n : Z) : Z := foldr Z.add 0 (f <$> seqZ 0 n).

Lemma sumZ_succ f n : 0 <= n -> sumZ f (n + 1) = sumZ f n + f n.
Proof.
  intros Hn. unfold sumZ. rewrite seqZ_app, fmap_app, foldr_app by lia. rewrite Z.add_0_l.
  change (f <$> seqZ n 1) with [f n]. simpl. rewrite Z.add_0_r, foldr_add_init. lia.
Qed.

Lemma sumZ_ind (P : Z -> Prop) n : 0 <= n -> P 0 -> (forall k, 0 <= k < n -> P k -> P (k + 1)) -> P n.
Proof.
  intros Hn H0 Hs. assert (forall k, 0 <= k -> k <= n -> P k) as H; [|apply H; lia].
  apply (natlike_ind (fun k => k <= n -> P k)); [done|]. intros k Hk IH Hle. apply Hs; [lia|]. apply IH. lia.
Qed.

Lemma sumZ_le f g n : 0 <= n -> (forall k, 0 <= k < n -> f k <= g k) -> sumZ f n <= sumZ g n.
Proof.
  intros Hn H. apply (sumZ_ind (fun n => sumZ f n <= sumZ g n)); [done|done|].
  intros k Hk IH. rewrite !sumZ_succ by lia. specialize (H k Hk). lia.
Qed.

Lemma sumZ_add f g n : 0 <= n -> sumZ (fun k => f k + g k) n = sumZ f n + sumZ g n.
Proof.
  intros Hn. apply (sumZ_ind (fun n => sumZ (fun k => f k + g k) n = sumZ f n + sumZ g n)); [done|done|].
  intros k Hk IH. rewrite !sumZ_succ by lia. lia.
Qed.

Lemma sumZ_ext f g n : 0 <= n -> (forall k, 0 <= k < n -> f k = g k) -> sumZ f n = sumZ g n.
Proof.
  intros Hn H. apply Z.le_antisymm; apply sumZ_le; try done; intros k Hk; rewrite H by done; done.
Qed.

(** The length of a filter as a sum. *)
Lemma sumZ_filter (Q : Z -> bool) n : 0 <= n ->
  zlen (filter (fun k => Q k = true) (seqZ 0 n)) = sumZ (fun k => if Q k then 1 else 0) n.
Proof.
  intros Hn. apply (sumZ_ind (fun n => zlen (filter (fun k => Q k = true) (seqZ 0 n)) = sumZ (fun k => if Q k then 1 else 0) n)); [done|done|].
  intros k Hk IH. rewrite sumZ_succ, seqZ_app, filter_app, zlen_app, IH by lia. rewrite Z.add_0_l.
  change (seqZ k 1) with [k]. rewrite filter_cons, filter_nil. destruct (Q k) eqn:E; [by rewrite decide_True|].
  by rewrite decide_False by done.
Qed.

End sums.

Section leaves.
Import NumColumnFormat LeafMeta.

(** A quantity that adds up over the leaves of the values. *)
Lemma leaves_sum (f : list Z -> Z) vs :
  f [] = 0 -> (forall l k, f (l ++ k) = f l + f k) -> sumZ (fun k => f (leaf vs k)) (leaf_count (zlen vs)) = f vs.
Proof.
  intros H0 Happ. pose proof (zlen_nonneg vs). unfold leaf_count, LEAF_ZONE_SIZE.
  set (n := (zlen vs + 512 - 1) / 512).
  assert (0 <= n /\ zlen vs <= n * 512) as [Hn Hle].
  { unfold n. pose proof (Z.div_mod (zlen vs + 512 - 1) 512). pose proof (Z.mod_pos_bound (zlen vs + 512 - 1) 512).
    split; [apply Z.div_pos; lia|lia]. }
  transitivity (f (take (Z.to_nat (n * 512)) vs)).
  2: { f_equal. apply take_ge. unfold zlen in Hle. lia. }
  apply (sumZ_ind (fun n => sumZ (fun k => f (leaf vs k)) n = f (take (Z.to_nat (n * 512)) vs))); [done|done|].
  intros k Hk IH. rewrite sumZ_succ, IH by lia. unfold leaf, LEAF_ZONE_SIZE. rewrite <- Happ. f_equal.
  replace (Z.to_nat ((k + 1) * 512)) with (Z.to_nat (k * 512) + Z.to_nat 512)%nat by lia.
  by rewrite take_take_drop.
Qed.

(** What the view promises of the values of a column: the exact zones of the leaves and the
    two orders over them. *)
Record meta_of (m : meta) (vs : list Z) (zs : list NumBlockZone) : Prop := {
  meta_zones : zones_of vs zs;
  meta_count : count m = zlen zs;
  meta_small : zlen zs < 2 ^ 32;
  meta_values : LeafMeta.values m = zlen vs;
  meta_zone : forall k z, zs.[k] = Some z -> leafZone m k = Some z;
  meta_orders : exists a b, leafVisitOrder zs false = Some a /\ leafVisitOrder zs true = Some b /\
    (forall r x, a.[r] = Some x -> leafByMinAscending m r = Some x) /\
    (forall r x, b.[r] = Some x -> leafByMaxDescending m r = Some x) }.

#[export] Instance leafBefore_total zs d : Total (leafBefore zs d).
Proof. intros a b. unfold leafBefore. destruct d; lia. Qed.

#[export] Instance leafBefore_trans zs d : Transitive (leafBefore zs d).
Proof. intros a b c. unfold leafBefore. destruct d; lia. Qed.

(** Each order has every leaf once, and its keys are sorted. *)
Lemma leafVisitOrder_spec zs d o :
  leafVisitOrder zs d = Some o ->
  o ≡ₚ seqZ 0 (zlen zs) /\
  forall i j a b, o.[i] = Some a -> o.[j] = Some b -> i <= j -> leafBefore zs d a b.
Proof.
  unfold leafVisitOrder. case_decide; [|done]. intros [= <-]. split; [apply merge_sort_Permutation|].
  pose proof (StronglySorted_merge_sort (leafBefore zs d) (seqZ 0 (zlen zs))) as Hs.
  set (o := merge_sort _ _) in *. clearbody o. induction Hs as [|x o Hs IH Hx]; intros i j a b Ha Hb Hij.
  { by rewrite zget_nil in Ha. }
  pose proof (zget_Some_range _ _ _ Ha). rewrite Forall_forall in Hx. destruct (decide (i = 0)) as [->|Hi].
  - rewrite zget_cons_0 in Ha. injection Ha as <-. destruct (decide (j = 0)) as [->|Hj].
    + rewrite zget_cons_0 in Hb. injection Hb as <-. unfold leafBefore. destruct d; lia.
    + rewrite zget_cons_pos in Hb by lia. by eapply Hx, zget_elem_1.
  - rewrite zget_cons_pos in Ha by lia. rewrite zget_cons_pos in Hb by lia. eapply IH; [done|done|lia].
Qed.

Definition zone_at (zs : list NumBlockZone) (k : Z) : NumBlockZone := default (Zone 0 0) (zs.[k]).

(** A binary search along an order counts the leaves that satisfy the predicate. *)
Lemma prefix_counts m vs zs o (at_ : Z -> option Z) (Q : NumBlockZone -> bool) :
  meta_of m vs zs -> o ≡ₚ seqZ 0 (zlen zs) -> (forall r x, o.[r] = Some x -> at_ r = Some x) ->
  (forall i j a b, o.[i] = Some a -> o.[j] = Some b -> i <= j -> Q (zone_at zs b) = true -> Q (zone_at zs a) = true) ->
  prefixCount m (fun r => l ← at_ r; z ← leafZone m l; Some (Q z))
    = Some (sumZ (fun k => if Q (zone_at zs k) then 1 else 0) (zlen zs)).
Proof.
  intros Hm Ho Hat Hmono. pose proof (zlen_nonneg zs) as Hn. pose proof (meta_small _ _ _ Hm) as Hsmall.
  assert (zlen o = zlen zs) as Hlo.
  { unfold zlen. rewrite (Permutation_length Ho). rewrite length_seqZ. unfold zlen. lia. }
  set (P := fun r => Q (zone_at zs (default 0 (o.[r])))).
  unfold prefixCount. rewrite (meta_count _ _ _ Hm).
  destruct (partition_spec 64 (fun r => l ← at_ r; z ← leafZone m l; Some (Q z)) P (zlen zs) 0 (zlen zs)) as (k & E & Hk & Hr).
  - intros r Hr. destruct (zget_in o r) as [x Hx]; [lia|]. rewrite (Hat r x Hx). opt.
    assert (x ∈ seqZ 0 (zlen zs)) as Hxin%elem_of_seqZ by (rewrite <- Ho; by eapply zget_elem_1).
    destruct (zget_in zs x) as [z Hz]; [lia|]. rewrite (meta_zone _ _ _ Hm x z Hz). opt.
    unfold P, zone_at. rewrite Hx. simpl. by rewrite Hz.
  - intros r s Hs Hr. unfold P. destruct (zget_in o r) as [x Hx]; [lia|]. destruct (zget_in o s) as [y Hy]; [lia|].
    rewrite Hx, Hy. simpl. by apply (Hmono s r y x); [..|lia].
  - lia.
  - lia.
  - change (Z.of_nat 64 - 1) with 63. lia.
  - lia.
  - lia.
  - rewrite E. f_equal. rewrite <- (sumZ_filter (fun k => Q (zone_at zs k))) by done.
    unfold zlen. rewrite <- (Permutation_length (filter_Permutation (fun k => Q (zone_at zs k) = true) _ _ Ho)).
    rewrite <- (take_drop (Z.to_nat k) o), filter_app, length_app.
    rewrite filter_all, filter_none.
    + rewrite length_take. unfold zlen in *. simpl. lia.
    + intros x [j Hj]%zget_elem. pose proof (zget_Some_range _ _ _ Hj).
      rewrite zget_drop in Hj by lia. pose proof (zget_Some_range _ _ _ Hj).
      specialize (Hr (k + j) ltac:(lia)). unfold P in Hr. rewrite Hj in Hr. simpl in Hr. rewrite Hr.
      rewrite bool_decide_eq_true. lia.
    + intros x [j Hj]%zget_elem. pose proof (zget_Some_range _ _ _ Hj) as Hjr.
      assert (zlen (take (Z.to_nat k) o) = k) as Htk by (unfold zlen in *; rewrite length_take; lia).
      rewrite zget_take in Hj by lia.
      specialize (Hr j ltac:(lia)). unfold P in Hr. rewrite Hj in Hr. simpl in Hr. rewrite Hr.
      rewrite bool_decide_eq_true. lia.
Qed.

(** The population of the leaves whose zone satisfies a predicate. *)
Definition pop (vs : list Z) (zs : list NumBlockZone) (P : NumBlockZone -> bool) : Z :=
  sumZ (fun k => if P (zone_at zs k) then zlen (leaf vs k) else 0) (zlen zs).

Lemma zlen_leaf vs k : 0 <= k < leaf_count (zlen vs) ->
  zlen (leaf vs k) = if decide (k = leaf_count (zlen vs) - 1) then LEAF_ZONE_SIZE - (leaf_count (zlen vs) * LEAF_ZONE_SIZE - zlen vs)
                     else LEAF_ZONE_SIZE.
Proof.
  unfold leaf_count, leaf, LEAF_ZONE_SIZE. intros Hk. pose proof (zlen_nonneg vs).
  pose proof (Z.div_mod (zlen vs + 512 - 1) 512). pose proof (Z.mod_pos_bound (zlen vs + 512 - 1) 512).
  unfold zlen at 1. rewrite length_take, length_drop. case_decide; unfold zlen in *; lia.
Qed.

Lemma population_spec m vs zs P :
  meta_of m vs zs -> 0 < zlen zs ->
  population m (zlen zs - sumZ (fun k => if negb (P (zone_at zs k)) then 1 else 0) (zlen zs)) (P (zone_at zs (zlen zs - 1)))
    = pop vs zs P.
Proof.
  intros Hm Hpos. destruct (meta_zones _ _ _ Hm) as [Hc _]. unfold population, pop.
  rewrite (meta_count _ _ _ Hm), (meta_values _ _ _ Hm).
  assert (exists j, zlen zs = j + 1 /\ 0 <= j) as (j & En & Hj) by (exists (zlen zs - 1); lia). rewrite En in Hc |- *.
  rewrite !sumZ_succ by lia. replace (j + 1 - 1) with j by lia. pose proof (zlen_leaf vs j) as Hlast. rewrite <- Hc in Hlast.
  rewrite decide_True in Hlast by lia. rewrite Hlast by lia.
  assert (sumZ (fun k => if P (zone_at zs k) then zlen (leaf vs k) else 0) j
    = (j - sumZ (fun k => if negb (P (zone_at zs k)) then 1 else 0) j) * LEAF_ZONE_SIZE) as ->.
  { apply (sumZ_ind (fun i => i <= j -> sumZ (fun k => if P (zone_at zs k) then zlen (leaf vs k) else 0) i
      = (i - sumZ (fun k => if negb (P (zone_at zs k)) then 1 else 0) i) * LEAF_ZONE_SIZE) j); [done|done| |lia].
    intros k Hk IH Hle. rewrite !sumZ_succ, IH by lia. pose proof (zlen_leaf vs k) as Hl. rewrite <- Hc in Hl.
    rewrite decide_False in Hl by lia. destruct (P (zone_at zs k)); simpl negb; cbn iota; [rewrite Hl by lia|]; lia. }
  destruct (P (zone_at zs j)); simpl negb; cbn iota; lia.
Qed.

Lemma pop_ext vs zs P Q : (forall k, 0 <= k < zlen zs -> P (zone_at zs k) = Q (zone_at zs k)) -> pop vs zs P = pop vs zs Q.
Proof. intros H. apply sumZ_ext; [apply zlen_nonneg|]. intros k Hk. by rewrite H. Qed.

(** One of the four terms of the summary: a search along an order, then the population of
    the leaves past it. *)
Lemma term_spec m vs zs (d : bool) (T : NumBlockZone -> Z) (Q : Z -> bool) (P : NumBlockZone -> bool) :
  meta_of m vs zs -> 0 < zlen zs ->
  (forall a b, (if d then zmax a >= zmax b else zmin a <= zmin b) -> Q (T b) = true -> Q (T a) = true) ->
  (forall z, P z = negb (Q (T z))) ->
  exists n, prefixCount m (fun r => l ← (if d then leafByMaxDescending m r else leafByMinAscending m r);
                                    z ← leafZone m l; Some (Q (T z))) = Some n /\
    population m (zlen zs - n) (P (zone_at zs (zlen zs - 1))) = pop vs zs P.
Proof.
  intros Hm Hpos Hmono HP. destruct (meta_orders _ _ _ Hm) as (a & b & Ea & Eb & Ha & Hb).
  assert (exists o, leafVisitOrder zs d = Some o /\ forall r x, o.[r] = Some x ->
    (if d then leafByMaxDescending m r else leafByMinAscending m r) = Some x) as (o & Eo & Hat).
  { destruct d; [exists b|exists a]; done. }
  destruct (leafVisitOrder_spec zs d o Eo) as [Hperm Hsorted].
  eexists. split.
  - apply (prefix_counts m vs zs o _ (fun z => Q (T z))); [done|done|done|].
    intros i j x y Hx Hy Hij. apply Hmono. specialize (Hsorted i j x y Hx Hy Hij). unfold leafBefore in Hsorted.
    fold (zone_at zs x) in Hsorted. fold (zone_at zs y) in Hsorted. destruct d; lia.
  - rewrite <- (population_spec m vs zs P Hm Hpos). f_equal. f_equal. apply sumZ_ext; [lia|].
    intros k Hk. by rewrite HP, negb_involutive.
Qed.

Definition below (lo : Z) (z : NumBlockZone) : bool := bool_decide (zmax z < lo).
Definition above (hi : Z) (z : NumBlockZone) : bool := bool_decide (zmin z > hi).
Definition inside (lo hi : Z) (z : NumBlockZone) : bool := bool_decide (lo <= zmin z /\ zmax z <= hi).

(** The number of values in the range. *)
Definition hits (lo hi : Z) (vs : list Z) : Z := zlen (filter (fun v => lo <= v <= hi) vs).

Lemma zones_ordered vs zs k : zones_of vs zs -> 0 <= k < zlen zs ->
  is_zone (leaf vs k) (zone_at zs k) /\ zmin (zone_at zs k) <= zmax (zone_at zs k).
Proof.
  intros [Hc Hz] Hk. destruct (zget_in zs k Hk) as [z Ez]. unfold zone_at. rewrite Ez. simpl.
  specialize (Hz k z Ez). split; [done|]. destruct Hz as (H1 & H2 & H3). specialize (H3 _ H1). lia.
Qed.

Lemma hits_leaf lo hi l z : is_zone l z ->
  (inside lo hi z = true -> hits lo hi l = zlen l) /\ (below lo z = true \/ above hi z = true -> hits lo hi l = 0) /\
  0 <= hits lo hi l <= zlen l.
Proof.
  intros (_ & _ & Hz). unfold hits. split; [|split].
  - intros Hi%bool_decide_eq_true. rewrite filter_all; [done|]. intros v Hv%Hz. lia.
  - intros H. rewrite filter_none; [done|]. intros v Hv%Hz. unfold below, above in H. rewrite !bool_decide_eq_true in H. lia.
  - split; [apply zlen_nonneg|apply zlen_filter].
Qed.

(** The sums behind the summary. *)
Lemma summary_sums vs zs lo hi :
  zones_of vs zs -> lo <= hi ->
  let b := pop vs zs (below lo) in let a := pop vs zs (above hi) in
  let i := pop vs zs (inside lo hi) in
  let maxInside := pop vs zs (fun z => bool_decide (zmax z <= hi)) in
  let minInside := pop vs zs (fun z => bool_decide (zmin z >= lo)) in
  b + a = pop vs zs (fun z => below lo z || above hi z) /\
  Z.max 0 (maxInside + minInside - zlen vs) <= i <= Z.min (maxInside - b) (minInside - a) /\
  i <= hits lo hi vs <= zlen vs - (b + a).
Proof.
  intros Hz Hle. cbv zeta. pose proof (zlen_nonneg zs) as Hn. destruct Hz as [Hc Hz'].
  pose proof (conj Hc Hz' : zones_of vs zs) as Hz.
  assert (zlen vs = sumZ (fun k => zlen (leaf vs k)) (zlen zs)) as Htot.
  { rewrite Hc. symmetry. apply (leaves_sum zlen); [done|]. intros. apply zlen_app. }
  assert (hits lo hi vs = sumZ (fun k => hits lo hi (leaf vs k)) (zlen zs)) as Hhits.
  { rewrite Hc. symmetry. apply (leaves_sum (hits lo hi)); [done|]. intros. unfold hits. by rewrite filter_app, zlen_app. }
  assert (forall f g, (forall k, 0 <= k < zlen zs -> 0 <= zlen (leaf vs k) ->
    zmin (zone_at zs k) <= zmax (zone_at zs k) -> is_zone (leaf vs k) (zone_at zs k) -> f k <= g k) ->
    sumZ f (zlen zs) <= sumZ g (zlen zs)) as Hsum.
  { intros f g H. apply sumZ_le; [done|]. intros k Hk. destruct (zones_ordered vs zs k Hz Hk). apply H; [done|apply zlen_nonneg|done..]. }
  unfold pop, below, above, inside. split; [|split; [split|split]].
  - rewrite <- sumZ_add by done. apply sumZ_ext; [done|]. intros k Hk. destruct (zones_ordered vs zs k Hz Hk).
    repeat case_bool_decide; simpl; lia.
  - apply Z.max_lub.
    + transitivity (sumZ (fun _ => 0) (zlen zs)).
      * apply (sumZ_ind (fun n => 0 <= sumZ (fun _ => 0) n)); [done|done|]. intros k Hk IH. rewrite sumZ_succ by lia. lia.
      * apply Hsum. intros k Hk Hw _ _. case_bool_decide; lia.
    + apply Z.le_sub_le_add_r. rewrite Htot, <- !sumZ_add by done. apply Hsum. intros k Hk Hw Hmm _.
      repeat case_bool_decide; lia.
  - apply Z.min_glb; apply Z.le_add_le_sub_r; rewrite <- sumZ_add by done; apply Hsum; intros k Hk Hw Hmm _;
      repeat case_bool_decide; lia.
  - rewrite Hhits. apply Hsum. intros k Hk Hw Hmm Hzone. destruct (hits_leaf lo hi _ _ Hzone) as (H1 & _ & H3).
    case_bool_decide as Hi; [rewrite H1; [lia|by apply bool_decide_eq_true]|lia].
  - apply Z.le_add_le_sub_r. rewrite Htot, Hhits, <- !sumZ_add by done. apply Hsum. intros k Hk Hw Hmm Hzone.
    destruct (hits_leaf lo hi _ _ Hzone) as (_ & H2 & H3). unfold below, above in H2. rewrite !bool_decide_eq_true in H2.
    repeat case_bool_decide; try lia.
Qed.

Lemma summarizeRange_spec m vs zs lo hi :
  meta_of m vs zs -> lo <= hi ->
  exists s, summarizeRange m lo hi = Some s /\
    outside s = pop vs zs (fun z => below lo z || above hi z) /\
    insideLower s <= pop vs zs (inside lo hi) <= insideUpper s /\
    insideLower s <= hits lo hi vs <= zlen vs - outside s.
Proof.
  intros Hm Hle. unfold summarizeRange. rewrite decide_True by done. rewrite (meta_count _ _ _ Hm).
  pose proof (zlen_nonneg zs) as Hn. pose proof (meta_zones _ _ _ Hm) as Hz.
  destruct (summary_sums vs zs lo hi Hz Hle) as (H1 & H2 & H3). case_decide as E0.
  { eexists. split; [done|]. cbn [outside insideLower insideUpper]. unfold pop in *. rewrite E0 in *.
    change (sumZ (fun k => if inside lo hi (zone_at zs k) then zlen (leaf vs k) else 0) 0) with 0 in *.
    change (sumZ (fun k => if below lo (zone_at zs k) then zlen (leaf vs k) else 0) 0) with 0 in *.
    change (sumZ (fun k => if above hi (zone_at zs k) then zlen (leaf vs k) else 0) 0) with 0 in *. lia. }
  destruct (zget_in zs (zlen zs - 1)) as [tail Et]; [lia|]. rewrite (meta_zone _ _ _ Hm _ _ Et). opt. cbv zeta.
  assert (zone_at zs (zlen zs - 1) = tail) as Etail by (unfold zone_at; by rewrite Et).
  destruct (term_spec m vs zs true zmax (fun x => bool_decide (x >= lo)) (below lo) Hm ltac:(lia)) as (n1 & E1 & P1).
  { intros a b. rewrite !bool_decide_eq_true. lia. }
  { intros z. unfold below. repeat case_bool_decide; simpl; lia || done. }
  destruct (term_spec m vs zs false zmin (fun x => bool_decide (x <= hi)) (above hi) Hm ltac:(lia)) as (n2 & E2 & P2).
  { intros a b. rewrite !bool_decide_eq_true. lia. }
  { intros z. unfold above. repeat case_bool_decide; simpl; lia || done. }
  destruct (term_spec m vs zs true zmax (fun x => bool_decide (x > hi)) (fun z => bool_decide (zmax z <= hi)) Hm ltac:(lia)) as (n3 & E3 & P3).
  { intros a b. rewrite !bool_decide_eq_true. lia. }
  { intros z. repeat case_bool_decide; simpl; lia || done. }
  destruct (term_spec m vs zs false zmin (fun x => bool_decide (x < lo)) (fun z => bool_decide (zmin z >= lo)) Hm ltac:(lia)) as (n4 & E4 & P4).
  { intros a b. rewrite !bool_decide_eq_true. lia. }
  { intros z. repeat case_bool_decide; simpl; lia || done. }
  rewrite Etail in P1, P2, P3, P4. unfold below at 1 in P1. unfold above at 1 in P2.
  rewrite E1, E2, E3, E4. rewrite !bind_Some_l. rewrite P1, P2, P3, P4, (meta_values _ _ _ Hm).
  eexists. split; [done|]. cbn [outside insideLower insideUpper]. lia.
Qed.

End leaves.

(** * Reading the metadata back *)

Section metadata.
Import NumColumnFormat NumColumnWriter.

Lemma zone_read mem a zs e off k z :
  mem = a ++ mjoin (zone_bytes <$> zs) ++ e -> off = zlen a -> zs.[k] = Some z -> is_s 64 (zmin z) -> is_s 64 (zmax z) ->
  (x ← load 8 mem (off + k * 16); y ← load 8 mem (off + k * 16 + 8); Some (Zone (s64 x) (s64 y))) = Some z.
Proof.
  intros -> -> Hk H1 H2. destruct (records_split zone_bytes 16 zs k z zlen_zone_bytes Hk) as (b & d & -> & Hb). unfold zone_bytes.
  rewrite (load_bytes_at 8 (a ++ b) (zmin z) (store_le 8 (zmax z) ++ d ++ e) _ (zlen a + k * 16));
    [|lia|by rewrite <- !app_assoc|rewrite zlen_app; lia]. opt.
  rewrite (load_bytes_at 8 (a ++ b ++ store_le 8 (zmin z)) (zmax z) (d ++ e) _ (zlen a + k * 16 + 8));
    [|lia|by rewrite <- !app_assoc|zlen]. opt. change (8 * 8) with 64.
  rewrite !swrap_uwrap, !swrap_id by (done || lia). by destruct z.
Qed.

Lemma order_read mem a o e off r x :
  mem = a ++ mjoin (store_le 4 <$> o) ++ e -> off = zlen a -> o.[r] = Some x -> is_u 32 x -> load 4 mem (off + r * 4) = Some x.
Proof.
  intros -> -> Hr Hx. destruct (records_split (store_le 4) 4 o r x (fun v => zlen_store_le 4 v ltac:(lia)) Hr) as (b & d & -> & Hb).
  rewrite (load_bytes_at 4 (a ++ b) x (d ++ e)); [|lia|by rewrite <- !app_assoc|rewrite zlen_app; lia].
  change (8 * 4) with 32. by rewrite uwrap_id.
Qed.

Lemma order_range zs d o r x : leafVisitOrder zs d = Some o -> zlen zs < 2 ^ 32 -> o.[r] = Some x -> is_u 32 x.
Proof.
  intros [Hp _]%leafVisitOrder_spec Hz Hx%zget_elem_1. rewrite Hp in Hx. apply elem_of_seqZ in Hx. unfold is_u. lia.
Qed.

Lemma zlen_order zs d o : leafVisitOrder zs d = Some o -> zlen o = zlen zs.
Proof. intros [Hp _]%leafVisitOrder_spec. unfold zlen. rewrite (Permutation_length Hp), length_seqZ. unfold zlen. lia. Qed.

Lemma point_read mem a ps e off i p n :
  mem = a ++ mjoin (point_bytes <$> ps) ++ e -> off = zlen a -> ps.[i] = Some p -> is_s 64 (ValueSketcher.prank p) ->
  is_s 64 (ValueSketcher.pvalue p) ->
  ValueSketch.point mem (ValueSketch.Sketch off (zlen ps) n) i = Some (ValueSketcher.prank p, ValueSketcher.pvalue p).
Proof.
  intros -> -> Hp H1 H2. unfold ValueSketch.point. cbn [ValueSketch.points ValueSketch.count].
  rewrite decide_True by (by eapply zget_Some_range).
  destruct (records_split point_bytes 16 ps i p zlen_point_bytes Hp) as (b & d & -> & Hb). unfold point_bytes.
  rewrite (load_bytes_at 8 (a ++ b) (ValueSketcher.prank p) (store_le 8 (ValueSketcher.pvalue p) ++ d ++ e) _ (zlen a + i * 16));
    [|lia|by rewrite <- !app_assoc|rewrite zlen_app; lia]. rewrite bind_Some_l.
  rewrite (load_bytes_at 8 (a ++ b ++ store_le 8 (ValueSketcher.prank p)) (ValueSketcher.pvalue p) (d ++ e) _ (zlen a + i * 16 + 8));
    [|lia|by rewrite <- !app_assoc|zlen]. rewrite bind_Some_l. change (8 * 8) with 64.
  rewrite !swrap_uwrap, !swrap_id by (done || lia). done.
Qed.

(** The sketch a reader finds: that of the values when the column was written with one, and has values. *)
Definition sketch_read (enabled : bool) (m : LeafMeta.meta) (vs : list Z) : Prop :=
  if enabled && negb (bool_decide (vs = [])) then
    exists points, sketch_of vs points /\ ValueSketch.count (LeafMeta.sketch m) = zlen points /\
      ValueSketch.population (LeafMeta.sketch m) = zlen vs /\
      forall i p, points.[i] = Some p ->
        ValueSketch.point (LeafMeta.mem m) (LeafMeta.sketch m) i = Some (ValueSketcher.prank p, ValueSketcher.pvalue p)
  else LeafMeta.sketch m = ValueSketch.none.

(** The reader of the sketch, behind what precedes its points. *)
Lemma sketch_make mem a ps e off vs :
  mem = a ++ mjoin (point_bytes <$> ps) ++ e -> off = zlen a -> sketch_of vs ps -> vs <> [] -> Forall (is_s 64) vs -> zlen vs < 2 ^ 40 ->
  ValueSketch.make mem off (zlen ps) (zlen vs) = Some (ValueSketch.Sketch off (zlen ps) (zlen vs)) /\
  forall i p, ps.[i] = Some p -> ValueSketch.point mem (ValueSketch.Sketch off (zlen ps) (zlen vs)) i
    = Some (ValueSketcher.prank p, ValueSketcher.pvalue p).
Proof.
  intros Em Eo Hs Hne Hvs Hsz. destruct (sketch_ends vs ps Hne Hs) as (Hl & H0 & H1).
  pose proof (skt_range _ _ Hs) as Hr. rewrite Forall_forall in Hr. rewrite Forall_forall in Hvs.
  assert (forall i p, ps.[i] = Some p -> ValueSketch.point mem (ValueSketch.Sketch off (zlen ps) (zlen vs)) i
    = Some (ValueSketcher.prank p, ValueSketcher.pvalue p)) as Hp.
  { intros i p Hi. destruct (Hr p ltac:(by eapply zget_elem_1)) as [H2 H3]. eapply point_read; [done..| |by apply Hvs].
    unfold is_s. lia. }
  split; [|done]. unfold ValueSketch.make. rewrite decide_True by lia. cbv zeta.
  apply fmap_Some in H0 as (p & Ep & H0). apply fmap_Some in H1 as (q & Eq & H1).
  rewrite (Hp _ _ Ep), bind_Some_l, (Hp _ _ Eq), bind_Some_l. by rewrite decide_True.
Qed.

(** What the reader makes of the points behind their count. *)
Lemma sketch_located (enabled : bool) mem a ps e off vs zones count :
  mem = a ++ mjoin (point_bytes <$> ps) ++ e -> off = zlen a -> (if enabled then sketch_of vs ps else ps = []) -> vs <> [] ->
  Forall (is_s 64) vs -> zlen vs < 2 ^ 40 ->
  exists sk, (if decide (zlen ps > 0) then ValueSketch.make mem off (zlen ps) (zlen vs) else Some ValueSketch.none) = Some sk /\
    sketch_read enabled (LeafMeta.Meta mem zones count (zlen vs) sk) vs.
Proof.
  intros Em Eo Hsk Hne Hvs Hsz. unfold sketch_read. rewrite bool_decide_eq_false_2, andb_true_r by done. destruct enabled.
  - destruct (sketch_make mem a ps e off vs) as [Emk Hpt]; [done..|]. destruct (sketch_ends vs ps Hne Hsk) as (Hl & _).
    rewrite decide_True by lia. eexists. split; [exact Emk|]. by exists ps.
  - rewrite Hsk. by eexists.
Qed.

Lemma zlen_order_bytes zs d o : leafVisitOrder zs d = Some o -> zlen (mjoin (store_le 4 <$> o)) = 4 * zlen zs.
Proof. intros Eo. rewrite (zlen_records _ 4) by (intros; by apply zlen_store_le). by rewrite (zlen_order _ _ _ Eo). Qed.

(** The zones and the two orders, one behind the other. *)
Lemma meta_located mem a vs zs oa ob e sk :
  zones_of vs zs -> zlen zs < 2 ^ 32 -> Forall (is_s 64) vs -> leafVisitOrder zs false = Some oa -> leafVisitOrder zs true = Some ob ->
  mem = a ++ mjoin (zone_bytes <$> zs) ++ mjoin (store_le 4 <$> oa) ++ mjoin (store_le 4 <$> ob) ++ e ->
  meta_of (LeafMeta.Meta mem (zlen a) (zlen zs) (zlen vs) sk) vs zs.
Proof.
  intros Hz Hsmall Hvs Ea Eb Em. destruct Hz as [Hc Hzone]. pose proof (zlen_order_bytes _ _ _ Ea) as Hoa.
  assert (zlen (mjoin (zone_bytes <$> zs)) = 16 * zlen zs) as Hzb by (apply zlen_records, zlen_zone_bytes).
  set (ZB := mjoin (zone_bytes <$> zs)) in *. set (OA := mjoin (store_le 4 <$> oa)) in *. set (OB := mjoin (store_le 4 <$> ob)) in *.
  constructor; cbn [LeafMeta.count LeafMeta.values]; [done|done|done|done| |].
  - intros k z Hk. pose proof (zget_Some_range _ _ _ Hk). unfold LeafMeta.leafZone. cbn [LeafMeta.count LeafMeta.mem LeafMeta.zones].
    rewrite decide_True by lia. destruct (Hzone k z Hk) as (H1 & H2 & _).
    assert (forall v, v ∈ leaf vs k -> is_s 64 v) as Hin by (apply Forall_forall, Forall_take, Forall_drop, Hvs).
    eapply (zone_read _ a zs (OA ++ OB ++ e)); [done|done|done|by apply Hin..].
  - exists oa, ob. split; [done|]. split; [done|].
    unfold LeafMeta.leafByMinAscending, LeafMeta.leafByMaxDescending, LeafMeta.orderAt. cbn [LeafMeta.count LeafMeta.mem LeafMeta.zones].
    split; intros r x Hr; pose proof (zget_Some_range _ _ _ Hr) as Hrr.
    + rewrite (zlen_order _ _ _ Ea) in Hrr. rewrite decide_True by lia.
      replace (zlen a + zlen zs * 16 + (0 * zlen zs + r) * 4) with (zlen a + zlen zs * 16 + r * 4) by lia.
      eapply (order_read _ (a ++ ZB) oa (OB ++ e)); [by rewrite Em, <- !app_assoc|rewrite zlen_app; lia|done|exact (order_range zs false oa r x Ea Hsmall Hr)].
    + rewrite (zlen_order _ _ _ Eb) in Hrr. rewrite decide_True by lia.
      replace (zlen a + zlen zs * 16 + (1 * zlen zs + r) * 4) with (zlen a + zlen zs * 16 + zlen zs * 4 + r * 4) by lia.
      eapply (order_read _ (a ++ ZB ++ OA) ob e); [by rewrite Em, <- !app_assoc|rewrite !zlen_app; lia|done|exact (order_range zs true ob r x Eb Hsmall Hr)].
Qed.

(** The leaf metadata of a finished column. *)
Lemma leafMeta_read mem a w pre vs leaves e :
  blocks_ok w pre vs -> zonesEnabled w = true -> nAdded w = zlen vs -> zlen vs < 2 ^ 40 ->
  NumColumnWriter.leafMeta w = Some leaves -> mem = a ++ leaves ++ e ->
  exists m, LeafMeta.make mem (zlen a) (zlen vs) = Some (m, zlen a + zlen leaves) /\ meta_of m vs (leafZones w) /\
    sketch_read (sketchEnabled w) m vs.
Proof.
  intros Hok Hze Hn Hsz El Em. pose proof (zlen_nonneg vs) as Hv0. pose proof (ok_values _ _ _ Hok) as Hvs.
  pose proof (ok_leaves _ _ _ Hok) as Hz. rewrite Hze in Hz. pose proof (zones_nonempty _ _ Hz) as Hne. pose proof (proj1 Hz) as Hc.
  set (zs := leafZones w) in *.
  assert (Z.quot (zlen vs + LEAF_ZONE_SIZE - 1) LEAF_ZONE_SIZE = zlen zs) as Hq.
  { rewrite Hc. apply Z.quot_div_nonneg; unfold LEAF_ZONE_SIZE; lia. }
  assert (zlen zs < 2 ^ 32) as Hsmall.
  { rewrite Hc. unfold leaf_count, LEAF_ZONE_SIZE. apply Z.div_lt_upper_bound; lia. }
  assert (exists oa ob, leafVisitOrder zs false = Some oa /\ leafVisitOrder zs true = Some ob) as (oa & ob & Ea & Eb).
  { unfold leafVisitOrder. rewrite !decide_True by done. eauto. }
  unfold LeafMeta.make. cbv zeta. rewrite Hq. unfold NumColumnWriter.leafMeta in El. fold zs in El.
  destruct (decide (zlen zs = 0)) as [E0|E0].
  - assert (zs = []) as E by (apply nil_length_inv; unfold zlen in E0; lia).
    rewrite decide_True in El by done. injection El as <-. eexists. split; [f_equal; f_equal; change (zlen (@nil Z)) with 0; lia|].
    assert (vs = []) as Ev.
    { apply nil_length_inv. rewrite Hc in E0. unfold leaf_count, LEAF_ZONE_SIZE in E0. apply Z.div_small_iff in E0; [|lia]. unfold zlen in *. lia. }
    split; [|unfold sketch_read; by rewrite bool_decide_eq_true_2, andb_false_r].
    rewrite E in *. injection Ea as <-. injection Eb as <-. by apply (meta_located mem a vs [] [] [] e).
  - assert (zs <> []) as Hzs by (intros E; by rewrite E in E0). rewrite decide_False in El by done.
    destruct (sketch_spec w pre vs Hok Hn (Hne Hzs) Hsz) as (sketch & Esk & Hask & Hsk).
    rewrite (decide_True (P := zlen zs = _)) in El by (rewrite Hn; exact Hc). rewrite Ea, Eb, Esk, !bind_Some_l, decide_True in El by exact Hask.
    apply (inj Some) in El as <-. pose proof (zlen_order_bytes _ _ _ Ea) as Hoa. pose proof (zlen_order_bytes _ _ _ Eb) as Hob.
    assert (zlen (mjoin (zone_bytes <$> zs)) = 16 * zlen zs) as Hzb by (apply zlen_records, zlen_zone_bytes).
    assert (zlen (mjoin (point_bytes <$> sketch)) = 16 * zlen sketch) as Hpb by (apply zlen_records, zlen_point_bytes).
    set (ZB := mjoin (zone_bytes <$> zs)) in *. set (OA := mjoin (store_le 4 <$> oa)) in *. set (OB := mjoin (store_le 4 <$> ob)) in *.
    set (PB := mjoin (point_bytes <$> sketch)) in *.
    assert (0 <= zlen sketch < 2 ^ 16) as Hss.
    { split; [apply zlen_nonneg|]. destruct (sketchEnabled w); [apply (skt_size _ _ Hsk)|by rewrite Hsk]. }
    rewrite (load_bytes_at 4 (a ++ ZB ++ OA ++ OB) (u32 (zlen sketch)) (PB ++ e));
      [|lia|by rewrite Em, <- !app_assoc|rewrite !zlen_app; lia]. rewrite bind_Some_l.
    change (8 * 4) with 32. rewrite uwrap_idemp, uwrap_id by (lia || (unfold is_u; lia)).
    destruct (sketch_located (sketchEnabled w) mem (a ++ ZB ++ OA ++ OB ++ store_le 4 (u32 (zlen sketch))) sketch e
      (zlen a + zlen zs * (16 + 2 * 4) + 4) vs (zlen a) (zlen zs)) as (sk & Es & Hread);
      [by rewrite Em, <- !app_assoc|rewrite !zlen_app, (zlen_store_le 4) by lia; lia|done|by apply Hne|done|done|].
    rewrite Es, bind_Some_l. eexists. split; [f_equal; f_equal; rewrite !zlen_app, (zlen_store_le 4) by lia; lia|].
    split; [|exact Hread]. eapply (meta_located mem a vs zs oa ob); [done..|]. rewrite Em, <- !app_assoc. done.
Qed.

(** The reader of a column finished with zones and bounds. *)
Lemma reader_spec w pre vs r bytes o1 leaves trailer post :
  layout w pre vs true true r bytes o1 leaves trailer -> is_bytes pre -> is_bytes post -> LinearPack.TAIL_PAD <= zlen post ->
  zlen vs < 2 ^ 40 ->
  exists rd, IntColReader.make (bytes ++ post) (columnLoc r) (columnMetaOff r) (numValues r) = Some rd /\
    column_of (IntColReader.values rd) vs /\ meta_of (IntColReader.leaves rd) vs (leafZones w) /\
    IntColReader.nvals rd = zlen vs /\ sketch_read (sketchEnabled w) (IntColReader.leaves rd) vs /\
    (forall k, 0 <= k < NumColumn.numBlocks (IntColReader.values rd) ->
       exists z, IntColReader.blockZone rd k = Some z /\ is_zone (block vs k) z) /\
    (vs <> [] -> is_zone vs (Zone (IntColReader.columnMin rd) (IntColReader.columnMax rd))).
Proof.
  intros Hlay Hpre Hpost Hpad Hsz. pose proof (lay_ok _ _ _ _ _ _ _ _ _ _ Hlay) as Hok.
  destruct (layout_column _ _ _ _ _ _ _ _ _ _ post true Hlay Hpre Hpost Hpad) as (c & Ec & Hc & Hmem & Hmeta); [done|done|].
  pose proof (ok_leaves _ _ _ Hok) as Hlz. rewrite (lay_zones _ _ _ _ _ _ _ _ _ _ Hlay eq_refl) in Hlz.
  destruct (ok_zones _ _ _ Hok) as [Hzn Hz]. destruct (lay_trailer _ _ _ _ _ _ _ _ _ _ Hlay eq_refl) as (ta & tb & Et & Ra & Rb).
  assert (NumColumn.numBlocks c = zlen (blockInfo w)) as Hnb.
  { unfold NumColumn.numBlocks. rewrite (col_count _ _ Hc), (ok_blocks _ _ _ Hok). pose proof (zlen_nonneg vs).
    apply Z.quot_div_nonneg; unfold BLOCK_SIZE; lia. }
  set (A := o1 ++ mjoin (info_bytes <$> blockInfo w)) in *. set (ZB := mjoin (zone_bytes <$> blockZones w)) in *.
  assert (zlen A = NumColumn.blockMeta c + NumColumn.numBlocks c * 32) as HA.
  { unfold A. rewrite zlen_app, (zlen_records info_bytes 32) by apply zlen_info_bytes. lia. }
  assert (zlen ZB = NumColumn.numBlocks c * 16) as HZB.
  { unfold ZB. rewrite (zlen_records zone_bytes 16) by apply zlen_zone_bytes. lia. }
  assert (bytes ++ post = A ++ ZB ++ leaves ++ ta ++ tb ++ post) as Em.
  { rewrite (lay_bytes _ _ _ _ _ _ _ _ _ _ Hlay), Et. unfold A. rewrite <- !app_assoc. done. }
  destruct (leafMeta_read (NumColumn.mem c) (A ++ ZB) w pre vs leaves (ta ++ tb ++ post) Hok (lay_zones _ _ _ _ _ _ _ _ _ _ Hlay eq_refl)
    (lay_count _ _ _ _ _ _ _ _ _ _ Hlay) Hsz (lay_leaves _ _ _ _ _ _ _ _ _ _ Hlay eq_refl)) as (m & Em' & Hm & Hsk).
  { rewrite Hmem, Em, <- !app_assoc. done. }
  unfold IntColReader.make. rewrite Ec. opt. unfold IntColReader.locateZoneMeta. cbv zeta.
  rewrite (col_count _ _ Hc), <- HA. replace (zlen A + NumColumn.numBlocks c * 16) with (zlen (A ++ ZB)) by (rewrite zlen_app; lia).
  rewrite Em'. opt. rewrite (lay_data _ _ _ _ _ _ _ _ _ _ Hlay). cbn [numValues]. pose proof (zlen_nonneg vs) as Hv0.
  set (lo := if decide (zlen vs = 0) then 0 else overallMin w) in *. set (hi := if decide (zlen vs = 0) then 0 else overallMax w) in *.
  assert (exists a b, (if decide (zlen vs > 0) then
      '(a, rest) ← readVLong (drop (Z.to_nat (zlen (A ++ ZB) + zlen leaves)) (bytes ++ post)); '(b, _) ← readVLong rest;
      Some (s64 a, s64 b) else Some (0, 0)) = Some (a, b) /\ (vs <> [] -> is_zone vs (Zone a b))) as (a & b & E & Hab).
  { case_decide as Hpos.
    - assert (drop (Z.to_nat (zlen (A ++ ZB) + zlen leaves)) (bytes ++ post) = ta ++ tb ++ post) as ->.
      { rewrite Em. replace (A ++ ZB ++ leaves ++ ta ++ tb ++ post) with (((A ++ ZB) ++ leaves) ++ ta ++ tb ++ post)
          by (by rewrite <- !app_assoc). apply drop_app_length'. unfold zlen. rewrite !length_app. lia. }
      rewrite Ra. opt. rewrite Rb. opt. eexists _, _. split; [done|]. intros Hne.
      destruct (ok_bounds _ _ _ Hok) as [(-> & _)|Hzone]; [done|]. unfold lo, hi. rewrite !decide_False by lia.
      pose proof (ok_values _ _ _ Hok) as Hvs. rewrite Forall_forall in Hvs. destruct Hzone as (H1 & H2 & H3). simpl in *.
      rewrite !swrap_uwrap, !swrap_id by (lia || by apply Hvs). by split.
    - exists 0, 0. split; [done|]. intros Hne. pose proof (zlen_pos vs Hne). lia. }
  rewrite E. opt. eexists. split; [done|]. cbn [IntColReader.values IntColReader.leaves IntColReader.nvals IntColReader.columnMin IntColReader.columnMax].
  split; [done|]. split; [done|]. split; [done|]. split; [done|]. split; [|done].
  intros k Hk. unfold IntColReader.blockZone. cbn [IntColReader.values IntColReader.zoneMeta]. rewrite decide_True by done.
  destruct (zget_in (blockZones w) k) as [z Ez]; [lia|]. exists z. split; [|by apply Hz].
  destruct (Hz k z Ez) as (H1 & H2 & _). pose proof (ok_values _ _ _ Hok) as Hvs.
  assert (forall v, v ∈ block vs k -> is_s 64 v) as Hin by (apply Forall_forall, Forall_take, Forall_drop, Hvs).
  eapply (zone_read _ A (blockZones w) (leaves ++ ta ++ tb ++ post)); [by rewrite Hmem, Em|done|done|by apply Hin..].
Qed.

End metadata.

(** C20: zones.  The reader of a column that was written with zones and bounds, with a value
    sketch or without one, finds, for every block and every leaf of 512 values, exactly their
    least and greatest value, and, past the sketch, the extrema of the column; for every range
    the summary gives exactly the number of values in leaves that lie outside it, bounds for
    the number in leaves that lie inside, and so bounds for the number of values in the range.
    The sketch it finds is that of the values: ranks from 0 to the last with nondecreasing
    values, the 16384 least and greatest ranks at their exact values, all of the first and
    last 64 among them; a column without one, or without values, has none. *)
Theorem column_metadata (pre vs post : list Z) (useGcd sketch : bool) (Hpre : is_bytes pre) (Hpost : is_bytes post)
    (Hpad : LinearPack.TAIL_PAD <= zlen post) (Hvs : Forall (is_s 64) vs) (Hp : zlen pre < 2 ^ 54) (Hv : zlen vs < 2 ^ 40) :
  exists w0 w r w' rd zs, NumColumnWriter.make pre useGcd true sketch = Some w0 /\ addAll vs w0 = Some w /\
    NumColumnWriter.finish true true w = Some (r, w') /\
    IntColReader.make (NumColumnWriter.out w' ++ post) (NumColumnWriter.columnLoc r)
      (NumColumnWriter.columnMetaOff r) (NumColumnWriter.numValues r) = Some rd /\
    (forall k, 0 <= k < NumColumn.numBlocks (IntColReader.values rd) ->
       exists z, IntColReader.blockZone rd k = Some z /\ is_zone (block vs k) z) /\
    zones_of vs zs /\ (forall k z, zs.[k] = Some z -> LeafMeta.leafZone (IntColReader.leaves rd) k = Some z) /\
    (vs <> [] -> is_zone vs (Zone (IntColReader.columnMin rd) (IntColReader.columnMax rd))) /\
    (forall lo hi, lo <= hi -> exists s, LeafMeta.summarizeRange (IntColReader.leaves rd) lo hi = Some s /\
       LeafMeta.outside s = pop vs zs (fun z => below lo z || above hi z) /\
       LeafMeta.insideLower s <= pop vs zs (inside lo hi) <= LeafMeta.insideUpper s /\
       LeafMeta.insideLower s <= hits lo hi vs <= zlen vs - LeafMeta.outside s) /\
    sketch_read sketch (IntColReader.leaves rd) vs.
Proof.
  destruct (make_adding pre useGcd true sketch) as (w0 & E0 & Ha0); [done|].
  destruct (addAll_spec vs w0 pre [] useGcd true sketch Ha0 Hpre Hvs) as (w & Ew & Ha).
  { change (zlen (@nil Z)) with 0. lia. }
  destruct (finish_layout w pre vs useGcd true sketch true true Ha Hpre Hp Hv)
    as (w1 & r & w' & o1 & leaves & trailer & Ef & _ & Hsk & _ & Hlay); [done..|].
  destruct (reader_spec _ _ _ _ _ _ _ _ post Hlay Hpre Hpost Hpad Hv) as (rd & Er & Hc & Hm & _ & Hs & Hbz & Hb). rewrite Hsk in Hs.
  exists w0, w, r, w', rd, (NumColumnWriter.leafZones w1). do 5 (split; [done|]). split; [apply (meta_zones _ _ _ Hm)|].
  split; [apply (meta_zone _ _ _ Hm)|]. split; [done|]. split; [|done]. intros lo hi Hle. by apply summarizeRange_spec.
Qed.

Lemma column_metadata_witness :
  exists w0 w r w' rd, NumColumnWriter.make [] true true true = Some w0 /\ addAll [5; -7; 2 ^ 60; 12; 5] w0 = Some w /\
    NumColumnWriter.finish true true w = Some (r, w') /\
    IntColReader.make (NumColumnWriter.out w' ++ replicate 10 0) (NumColumnWriter.columnLoc r)
      (NumColumnWriter.columnMetaOff r) (NumColumnWriter.numValues r) = Some rd /\
    is_zone [5; -7; 2 ^ 60; 12; 5] (Zone (IntColReader.columnMin rd) (IntColReader.columnMax rd)) /\
    exists points, sketch_of [5; -7; 2 ^ 60; 12; 5] points /\ ValueSketch.count (LeafMeta.sketch (IntColReader.leaves rd)) = zlen points.
Proof.
  destruct (column_metadata [] [5; -7; 2 ^ 60; 12; 5] (replicate 10 0) true true)
    as (w0 & w & r & w' & rd & zs & E0 & Ew & Ef & Er & _ & _ & _ & Hb & _ & points & Hs & Hc & _).
  - apply List.Forall_nil.
  - apply (bool_decide_unpack _). by vm_compute.
  - by vm_compute.
  - apply (bool_decide_unpack _). by vm_compute.
  - by vm_compute.
  - by vm_compute.
  - exists w0, w, r, w', rd. do 4 (split; [done|]). split; [by apply Hb|]. by exists points.
Defined.
