(* ===== verification/DocColumn.v ===== *)
(** Documents and their values: the cursors over the values of a column, the iterator over
    the documents that have one, and the choice of a value of a document with several, of
    [luxir/reader/IntColReader.h] and [luxir/reader/DocsReader.h]. *)

From S2P Require Import Prelude BitSets Search Screaming ScreamingBuilder LinearPack LinearFit NumFormat NumColumn.

Definition ENDDOC : Z := 2 ^ 31 - 1.

(** * Columns of documents *)

Module IntCol.

(** The values, the set of the documents that have one (no buckets when all have one), the
    number of those documents, and for columns of several values per document the end of
    the values of each, with whether they keep their source order. *)
Record col := Col {
  values : NumColumn.column;
  docs : BitSet.bitset;
  docsWithField : Z;
  endValueRank : option NumColumn.column;
  arrayMode : bool }.

Definition hasBitset (c : col) : bool := bool_decide (BitSet.nBuckets (docs c) <> 0).
Definition docsWithValue (c : col) : Z := docsWithField c.
Definition multiValued (c : col) : bool := bool_decide (is_Some (endValueRank c)).
Definition multiSet (c : col) : bool := multiValued c && negb (arrayMode c).

Definition getStartEndValueRank (c : col) (docRank : Z) : option (Z * Z) :=
  e ← endValueRank c; NumColumn.valuesAt e docRank.

Definition getStartValueRank (c : col) (docRank : Z) : option Z :=
  if decide (docRank = 0) then Some 0 else e ← endValueRank c; NumColumn.valueAt e (docRank - 1).

Definition getEdgeValueRank (c : col) (docRank : Z) (last : bool) : option Z :=
  if last then e ← endValueRank c; r ← NumColumn.valueAt e docRank; Some (r - 1) else getStartValueRank c docRank.

End IntCol.

(** * Cursors over values *)

(** What the iterator and the choice of a value use of a cursor: a read by index, which may
    change the cursor.  It promises the values of the column the cursor is on. *)
Class ValuesImpl (V : Type) := {
  make_values : V;
  valueAt : NumColumn.column -> Z -> V -> option (Z * V);
  values_ok : list Z -> V -> Prop }.

Class ValuesLaws (V : Type) `{!ValuesImpl V} : Prop := {
  make_values_ok : forall vs, values_ok vs make_values;
  valueAt_ok : forall c vs s i v, column_of c vs -> values_ok vs s -> vs.[i] = Some v ->
    exists s', valueAt c i s = Some (v, s') /\ values_ok vs s' }.

Module SparseValues.

Record sparse := Sparse { index : Z }.

Definition fresh : sparse := Sparse (-1).

Definition next (max : Z) (s : sparse) : option (Z * sparse) :=
  if decide (is_s 64 (index s + 1)) then
    let i := if decide (index s + 1 >= max) then NumColumn.ENDINDEX else index s + 1 in Some (i, Sparse i)
  else None.

Definition value (c : NumColumn.column) (s : sparse) : option Z := NumColumn.valueAt c (index s).

Definition advance (max target : Z) (s : sparse) : option (Z * sparse) :=
  if decide (0 <= target < max) then Some (target, Sparse target) else None.

End SparseValues.

#[export] Instance sparse_values : ValuesImpl SparseValues.sparse := {
  make_values := SparseValues.fresh;
  valueAt := fun c i s => v ← NumColumn.valueAt c i; Some (v, s);
  values_ok := fun _ _ => True }.

#[export] Instance bulk_values : ValuesImpl Bulk.bulk := {
  make_values := Bulk.fresh;
  valueAt := Bulk.valueAt;
  values_ok := fun vs b => cursor_ok vs b }.

(** * Choosing a value *)

Section choosing.
Context {V : Type} `{!ValuesImpl V}.

Fixpoint scanLoop (fuel : nat) (c : NumColumn.column) (maximum : bool) (rank stop selected : Z) (s : V) : option (Z * V) :=
  match fuel with
  | O => None
  | S fuel =>
      if decide (rank < stop) then
        '(next, s) ← valueAt c rank s;
        scanLoop fuel c maximum (rank + 1) stop (if maximum then Z.max selected next else Z.min selected next) s
      else Some (selected, s)
  end.

Definition scanSelectedValue (c : IntCol.col) (docRank : Z) (maximum : bool) (s : V) : option (Z * V) :=
  '(start, stop) ← IntCol.getStartEndValueRank c docRank;
  '(selected, s) ← valueAt (IntCol.values c) start s;
  scanLoop (Z.to_nat (stop - start)) (IntCol.values c) maximum (start + 1) stop selected s.

Definition selectedValue (c : IntCol.col) (docRank : Z) (maximum : bool) (s : V) : option (Z * V) :=
  if IntCol.multiValued c then
    if IntCol.multiSet c then r ← IntCol.getEdgeValueRank c docRank maximum; valueAt (IntCol.values c) r s
    else scanSelectedValue c docRank maximum s
  else None.

End choosing.

(** * Documents *)

Module DocIterator.

Section iterator.
Context {V : Type} `{!ValuesImpl V}.

Record iter := Iter { docsIter : Iterator.iterator; valueIter : V; docRank : Z; doc : Z }.

Definition make : iter := Iter Iterator.fresh make_values (-1) (-1).
Definition reset (it : iter) : iter := Iter Iterator.fresh (valueIter it) (-1) (-1).

Definition value (c : IntCol.col) (it : iter) : option (Z * iter) :=
  '(v, s) ← valueAt (IntCol.values c) (docRank it) (valueIter it);
  Some (v, Iter (docsIter it) s (docRank it) (doc it)).

Definition advance (c : IntCol.col) (target : Z) (it : iter) : option (Z * iter) :=
  if IntCol.hasBitset c then
    '(d, di) ← Iterator.advance (IntCol.docs c) target (docsIter it);
    r ← Iterator.rank di;
    Some (d, Iter di (valueIter it) r d)
  else if decide (target >= IntCol.docsWithValue c) then
    Some (ENDDOC, Iter (docsIter it) (valueIter it) (docRank it) ENDDOC)
  else Some (target, Iter (docsIter it) (valueIter it) target target).

Definition next (c : IntCol.col) (it : iter) : option (Z * iter) :=
  if decide (docRank it + 1 >= IntCol.docsWithValue c) then
    Some (ENDDOC, Iter (docsIter it) (valueIter it) (docRank it) ENDDOC)
  else if IntCol.hasBitset c then
    '(d, di) ← Iterator.next (IntCol.docs c) (docsIter it);
    Some (d, Iter di (valueIter it) (docRank it + 1) d)
  else if decide (is_s 32 (doc it + 1)) then
    Some (doc it + 1, Iter (docsIter it) (valueIter it) (docRank it + 1) (doc it + 1))
  else None.

(** The two loops of [nextWhere], from the rank before; [accept] is the caller's test. *)
Fixpoint denseWhere (fuel : nat) (accept : Z -> Z -> bool) (rank stop : Z) : option (option Z * Z) :=
  match fuel with
  | O => None
  | S fuel =>
      let rank := rank + 1 in
      if decide (rank < stop) then
        if accept rank rank then Some (Some rank, rank) else denseWhere fuel accept rank stop
      else Some (None, rank)
  end.

Fixpoint sparseWhere (fuel : nat) (s : BitSet.bitset) (accept : Z -> Z -> bool) (rank stop : Z) (di : Iterator.iterator)
    : option (option Z * Z * Iterator.iterator) :=
  match fuel with
  | O => None
  | S fuel =>
      let rank := rank + 1 in
      if decide (rank < stop) then
        '(next, di) ← Iterator.next s di;
        if accept next rank then Some (Some next, rank, di) else sparseWhere fuel s accept rank stop di
      else Some (None, rank, di)
  end.

Definition nextWhere (c : IntCol.col) (accept : Z -> Z -> bool) (it : iter) : option (Z * iter) :=
  let stop := IntCol.docsWithValue c in
  let fuel := Z.to_nat (stop - docRank it + 1) in
  '(found, rank, di) ←
    (if IntCol.hasBitset c then sparseWhere fuel (IntCol.docs c) accept (docRank it) stop (docsIter it)
     else '(found, rank) ← denseWhere fuel accept (docRank it) stop; Some (found, rank, docsIter it));
  Some (match found with
        | Some d => (d, Iter di (valueIter it) rank d)
        | None => (ENDDOC, Iter di (valueIter it) (rank - 1) ENDDOC)
        end).

End iterator.

Arguments iter : clear implicits.

End DocIterator.

#[export] Instance sparse_laws : ValuesLaws SparseValues.sparse.
Proof.
  constructor; [done|]. intros c vs s i v Hc _ Hv. exists s. simpl. by rewrite (valueAt_spec c vs Hc i v Hv).
Qed.

#[export] Instance bulk_laws : ValuesLaws Bulk.bulk.
Proof.
  constructor.
  - intros vs. apply (fresh_positioned vs).
  - intros c vs s i v Hc Hok Hv. destruct (bulk_valueAt_spec c vs (column_decodes c vs Hc) i v s Hok Hv) as (s' & E & Hok' & _). by exists s'.
Qed.

(** * The choice of a value is the extremum *)

Section extremum.
Context {V : Type} `{!ValuesImpl V, !ValuesLaws V}.
Context (c : IntCol.col) (vs es : list Z) (ends : NumColumn.column).
Context (Hc : column_of (IntCol.values c) vs) (Hends : column_of ends es) (Hmulti : IntCol.endValueRank c = Some ends).

(** The values of each document follow those of the one before, and there is at least one. *)
Definition ends_ok : Prop :=
  increasing es /\ (forall i e, es.[i] = Some e -> 0 < e <= zlen vs).

Definition start_of (i : Z) : Z := if decide (i = 0) then 0 else default 0 (es.[i - 1]).

(** The values of the document of a rank. *)
Definition doc_values (i : Z) : list Z :=
  take (Z.to_nat (default 0 (es.[i]) - start_of i)) (drop (Z.to_nat (start_of i)) vs).

Lemma start_range i e : ends_ok -> es.[i] = Some e -> 0 <= start_of i < e.
Proof.
  intros [Hinc Hr] He. pose proof (Hr i e He). unfold start_of. case_decide as E0; [lia|].
  pose proof (zget_Some_range _ _ _ He). destruct (zget_in es (i - 1)) as [d Hd]; [lia|]. rewrite Hd. simpl.
  pose proof (Hr _ _ Hd). pose proof (increasing_zget es (i - 1) i d e Hinc Hd He). lia.
Qed.

Lemma getStartEnd_spec i e : es.[i] = Some e -> IntCol.getStartEndValueRank c i = Some (start_of i, e).
Proof. intros He. unfold IntCol.getStartEndValueRank. rewrite Hmulti. opt. by rewrite (valuesAt_spec ends es Hends i e He). Qed.

Lemma getEdge_spec i e last :
  ends_ok -> es.[i] = Some e -> IntCol.getEdgeValueRank c i last = Some (if last : bool then e - 1 else start_of i).
Proof.
  intros Hok He. unfold IntCol.getEdgeValueRank, IntCol.getStartValueRank. rewrite Hmulti. opt. destruct last.
  - by rewrite (valueAt_spec ends es Hends i e He).
  - unfold start_of. case_decide; [done|]. pose proof (zget_Some_range _ _ _ He).
    destruct (zget_in es (i - 1)) as [d Hd]; [lia|]. rewrite Hd. by apply (valueAt_spec ends es Hends).
Qed.

Lemma zget_doc_values i e k : ends_ok -> es.[i] = Some e -> 0 <= k < e - start_of i ->
  (doc_values i).[k] = vs.[start_of i + k].
Proof.
  intros Hok He Hk. pose proof (start_range i e Hok He). unfold doc_values. rewrite He. simpl. by rewrite zget_take_drop by lia.
Qed.

Lemma zlen_doc_values i e : ends_ok -> es.[i] = Some e -> zlen (doc_values i) = e - start_of i.
Proof.
  intros Hok He. pose proof (start_range i e Hok He). destruct Hok as [_ Hr]. pose proof (Hr i e He).
  unfold doc_values, zlen. rewrite He, length_take, length_drop. simpl. unfold zlen in *. lia.
Qed.

(** The extremum of a prefix of some values. *)
Definition extremum (maximum : bool) (l : list Z) (x : Z) : Prop :=
  x ∈ l /\ forall y, y ∈ l -> if maximum then y <= x else x <= y.

Lemma extremum_snoc maximum l x y :
  extremum maximum l x -> extremum maximum (l ++ [y]) (if maximum then Z.max x y else Z.min x y).
Proof.
  intros [Hin Hall]. split.
  - apply elem_of_app. destruct maximum.
    + destruct (Z.max_spec x y) as [[_ ->]|[_ ->]]; [right; by apply list_elem_of_singleton|by left].
    + destruct (Z.min_spec x y) as [[_ ->]|[_ ->]]; [by left|right; by apply list_elem_of_singleton].
  - intros z [Hz|Hz%list_elem_of_singleton]%elem_of_app; [specialize (Hall z Hz)|]; destruct maximum; lia.
Qed.

Lemma take_snoc_zget {A} (l : list A) n x : l.[n] = Some x -> take (Z.to_nat (n + 1)) l = take (Z.to_nat n) l ++ [x].
Proof.
  intros Hx. pose proof (zget_Some_range _ _ _ Hx). replace (Z.to_nat (n + 1)) with (S (Z.to_nat n)) by lia.
  apply take_S_r. unfold zget in Hx. by rewrite decide_True in Hx by lia.
Qed.

Lemma scanLoop_spec fuel maximum i e k selected s :
  ends_ok -> es.[i] = Some e -> 0 < k <= e - start_of i -> e - start_of i - k < Z.of_nat fuel ->
  values_ok vs s -> extremum maximum (take (Z.to_nat k) (doc_values i)) selected ->
  exists x s', scanLoop fuel (IntCol.values c) maximum (start_of i + k) e selected s = Some (x, s') /\
    values_ok vs s' /\ extremum maximum (doc_values i) x.
Proof.
  intros Hok He. pose proof (zlen_doc_values i e Hok He) as Hlen. pose proof (start_range i e Hok He) as Hsr.
  destruct Hok as [Hinc Hr] eqn:EH. clear EH. pose proof (conj Hinc Hr : ends_ok) as Hok'. pose proof (Hr i e He).
  revert k selected s. induction fuel as [|fuel IH]; intros k selected s Hk Hf Hs Hx; [lia|]. cbn [scanLoop].
  destruct (decide (start_of i + k < e)) as [Hlt|Hge].
  - destruct (zget_in vs (start_of i + k)) as [y Hy]; [lia|].
    destruct (valueAt_ok (IntCol.values c) vs s _ y Hc Hs Hy) as (s1 & E1 & Hs1). rewrite E1. opt.
    replace (start_of i + k + 1) with (start_of i + (k + 1)) by lia. apply IH; [lia|lia|done|].
    rewrite (take_snoc_zget _ _ y) by (by rewrite (zget_doc_values i e) by (done || lia)). by apply extremum_snoc.
  - exists selected, s. split; [done|]. split; [done|]. rewrite take_ge in Hx; [done|]. unfold zlen in Hlen. lia.
Qed.

Lemma scanSelectedValue_spec i e maximum s :
  ends_ok -> es.[i] = Some e -> values_ok vs s ->
  exists x s', scanSelectedValue c i maximum s = Some (x, s') /\ values_ok vs s' /\ extremum maximum (doc_values i) x.
Proof.
  intros Hok He Hs. pose proof (start_range i e Hok He) as Hsr. pose proof (proj2 Hok i e He) as Hle.
  unfold scanSelectedValue. rewrite (getStartEnd_spec i e He). opt.
  destruct (zget_in vs (start_of i)) as [v Hv]; [lia|].
  destruct (valueAt_ok (IntCol.values c) vs s _ v Hc Hs Hv) as (s1 & E1 & Hs1). rewrite E1. opt.
  apply (scanLoop_spec _ maximum i e 1); [done|done|lia|lia|done|].
  assert (take (Z.to_nat 1) (doc_values i) = [v]) as ->.
  { replace 1 with (0 + 1) by lia. rewrite (take_snoc_zget _ 0 v); [done|].
    rewrite (zget_doc_values i e) by (done || lia). by rewrite Z.add_0_r. }
  split; [by apply list_elem_of_singleton|]. intros y ->%list_elem_of_singleton. destruct maximum; lia.
Qed.

Lemma selectedValue_spec i e maximum s :
  ends_ok -> es.[i] = Some e -> values_ok vs s ->
  (IntCol.arrayMode c = false -> nondecreasing (doc_values i)) ->
  exists x s', selectedValue c i maximum s = Some (x, s') /\ values_ok vs s' /\ extremum maximum (doc_values i) x.
Proof.
  intros Hok He Hs Hsorted. unfold selectedValue, IntCol.multiSet, IntCol.multiValued. rewrite Hmulti.
  rewrite bool_decide_eq_true_2 by done. destruct (IntCol.arrayMode c); cbn [negb andb]; [by apply (scanSelectedValue_spec i e)|].
  specialize (Hsorted eq_refl). pose proof (start_range i e Hok He) as Hsr. pose proof (proj2 Hok i e He) as Hle.
  pose proof (zlen_doc_values i e Hok He) as Hlen. rewrite (getEdge_spec i e maximum Hok He). opt.
  set (r := if maximum then e - 1 else start_of i). assert (start_of i <= r < e) as Hr by (unfold r; destruct maximum; lia).
  destruct (zget_in vs r) as [v Hv]; [lia|]. destruct (valueAt_ok (IntCol.values c) vs s r v Hc Hs Hv) as (s1 & E1 & Hs1).
  exists v, s1. split; [done|]. split; [done|].
  assert ((doc_values i).[r - start_of i] = Some v) as Hd.
  { rewrite (zget_doc_values i e) by (done || lia). rewrite <- Hv. f_equal. lia. }
  split; [by eapply zget_elem_1|]. intros y [j Hj]%zget_elem. pose proof (zget_Some_range _ _ _ Hj) as Hjr.
  pose proof (nondecreasing_zget (doc_values i)) as Hmono.
  unfold r in *. destruct maximum; [apply (Hmono j (e - 1 - start_of i))|apply (Hmono (start_of i - start_of i) j)]; done || lia.
Qed.

End extremum.

(** C35: documents with several values.  Given the column of the values and the column of
    the ends of the values of each document, the range of a document is that of its values,
    and the value chosen for a sort is their least or greatest, whether it is read at the
    edge of sorted values or found by a scan of values in source order, with either cursor. *)
Theorem selected_value_extremum (V : Type) (impl : ValuesImpl V) (laws : ValuesLaws V) (c : IntCol.col) (vs es : list Z)
    (ends : NumColumn.column) (i e : Z) (maximum : bool) (s : V)
    (Hc : column_of (IntCol.values c) vs) (Hends : column_of ends es) (Hmulti : IntCol.endValueRank c = Some ends)
    (Hok : ends_ok vs es) (He : es.[i] = Some e) (Hs : values_ok vs s)
    (Hsorted : IntCol.arrayMode c = false -> nondecreasing (doc_values vs es i)) :
  IntCol.getStartEndValueRank c i = Some (start_of es i, e) /\
  (exists x s', selectedValue c i maximum s = Some (x, s') /\ values_ok vs s' /\ extremum maximum (doc_values vs es i) x).
Proof.
  split; [by eapply getStartEnd_spec|]. by eapply selectedValue_spec.
Qed.

(** A column as its writer leaves it. *)
Lemma small_column vs :
  Forall (is_s 64) vs -> zlen vs < 2 ^ 40 -> exists c, column_of c vs.
Proof.
  intros Hvs Hlen. destruct (written_column [] vs (replicate 10 0) true true false true true true) as (w0 & w & r & w' & c & _ & _ & _ & _ & Hc).
  - apply List.Forall_nil.
  - apply Forall_replicate. unfold is_u. lia.
  - by vm_compute.
  - done.
  - by vm_compute.
  - done.
  - done.
  - done.
  - done.
  - done.
  - by exists c.
Qed.

Lemma selected_value_extremum_witness :
  exists c s x, IntCol.getStartEndValueRank c 1 = Some (2, 5) /\ selectedValue c 1 true Bulk.fresh = Some (x, s) /\
    extremum true [6; 2; 8] x.
Proof.
  destruct (small_column [4; 9; 6; 2; 8]) as [vc Hvc]; [apply (bool_decide_unpack _); by vm_compute|by vm_compute|].
  destruct (small_column [2; 5]) as [ec Hec]; [apply (bool_decide_unpack _); by vm_compute|by vm_compute|].
  destruct (selected_value_extremum Bulk.bulk _ _ (IntCol.Col vc (BitSet.BitSetView [] 0 0 0) 2 (Some ec) true)
    [4; 9; 6; 2; 8] [2; 5] ec 1 5 true Bulk.fresh Hvc Hec eq_refl) as [E (x & s & Es & _ & Hx)].
  - split; [sorted_concrete|]. intros i e [H|H]%zget_elem_1%elem_of_cons; [subst; vm_compute; split; congruence|].
    apply list_elem_of_singleton in H as ->. vm_compute. split; congruence.
  - done.
  - apply (fresh_positioned [4; 9; 6; 2; 8]).
  - done.
  - by exists (IntCol.Col vc (BitSet.BitSetView [] 0 0 0) 2 (Some ec) true), s, x.
Defined.

(** * The iterator over a set never loses its rank *)

Section ranks.
Import BitSet Iterator.

(** The current bucket has the size of its kind. *)
Definition bucket_sized (it : iterator) : Prop :=
  match bucket it with SPARSE _ _ => True | DENSE ws ri => zlen ws = 1024 /\ zlen ri = 128 end.

Lemma zlen_loads width m off n l : 0 <= n -> loads width m off n = Some l -> zlen l = n.
Proof.
  unfold loads. intros Hn H%mapM_Some. apply Forall2_length in H. rewrite length_seqZ in H. unfold zlen. lia.
Qed.

Lemma enterBucket_sized s i it it' : enterBucket s i it = Some it' -> bucket_sized it'.
Proof.
  unfold enterBucket. destruct (descriptor s i) as [d|]; [|done]. rewrite bind_Some_l. case_decide.
  - destruct (sparseValues s _ _); [|done]. intros [= <-]. done.
  - destruct (assertAligned _); [|done]. destruct (denseWords s _) as [ws|] eqn:E1; [|done].
    destruct (denseRankIndex s _) as [ri|] eqn:E2; [|done]. intros [= <-]. unfold bucket_sized. cbn [bucket].
    unfold denseWords in E1. unfold denseRankIndex in E2. by apply zlen_loads in E1; [apply zlen_loads in E2|].
Qed.

Lemma sparseNext_sized it r : sparseNext it = Some r -> bucket_sized r.2.
Proof. unfold sparseNext. destruct (bucket it) as [vs i|]; [|done]. destruct (vs.[i + 1]); [|done]. by intros [= <-]. Qed.

Lemma denseNext_sized it r : bucket_sized it -> denseNext it = Some r -> bucket_sized r.2.
Proof.
  unfold denseNext, bucket_sized. destruct (bucket it) as [vs i|ws ri] eqn:E; [done|]. intros Hb. cbv zeta.
  destruct (OpenBitSet.nextSetBit _ _ _ _ _); [|done]. intros [= <-]. simpl. by rewrite E.
Qed.

Lemma nextBucket_sized s it r : bucket_sized it -> nextBucket s it = Some r -> bucket_sized r.2.
Proof.
  intros Hb. unfold nextBucket. case_decide; [by intros [= <-]|].
  destruct (enterBucket s _ _) as [it1|] eqn:E; [|done]. rewrite bind_Some_l. apply enterBucket_sized in E.
  destruct (bucket it1) eqn:E1; [apply sparseNext_sized|by apply denseNext_sized].
Qed.

Lemma denseNextMaybe_sized s it r : bucket_sized it -> denseNextMaybe s it = Some r -> bucket_sized r.2.
Proof.
  intros Hb. unfold denseNextMaybe. destruct (bucket it) as [vs i|ws ri] eqn:E; [done|]. cbv zeta.
  case_decide; [|by apply nextBucket_sized]. destruct (OpenBitSet.nextSetBit _ _ _ _ _); [|done]. rewrite bind_Some_l.
  case_decide; [|by apply nextBucket_sized]. by intros [= <-].
Qed.

Lemma next_sized s it r : bucket_sized it -> next s it = Some r -> bucket_sized r.2.
Proof.
  intros Hb. unfold next. destruct (bucket it) as [vs i|ws ri] eqn:E; [|by apply denseNextMaybe_sized].
  case_decide; [by apply nextBucket_sized|apply sparseNext_sized].
Qed.

Lemma advanceBucketLoop_sized s u n i it r : bucket_sized it -> advanceBucketLoop s u n i it = Some r -> bucket_sized r.2.
Proof.
  revert i it. induction n as [|n IH]; intros i it Hb; cbn [advanceBucketLoop]; [by intros [= <-]|].
  destruct (descriptor s i) as [d|]; [|done]. rewrite bind_Some_l. cbv zeta. case_decide; [|by apply IH].
  destruct (enterBucket s i _) as [it1|] eqn:E; [|done]. rewrite bind_Some_l. intros [= <-]. by apply enterBucket_sized in E.
Qed.

Lemma advanceInBucket_sized s t it r : bucket_sized it -> advanceInBucket s t it = Some r -> bucket_sized r.2.
Proof.
  intros Hb. unfold advanceInBucket. destruct (bucket it) as [vs i|ws ri] eqn:E.
  - cbv zeta. destruct (Gallop.gallopLowerBound _ _ _ _); [|done]. rewrite bind_Some_l.
    case_decide; [by apply nextBucket_sized|apply sparseNext_sized].
  - by apply denseNextMaybe_sized.
Qed.

Lemma advance_sized s t it r : bucket_sized it -> advance s t it = Some r -> bucket_sized r.2.
Proof.
  intros Hb. unfold advance. case_decide; [|done]. cbv zeta. case_decide; [|by apply advanceInBucket_sized].
  unfold advanceBucket. destruct (advanceBucketLoop s _ _ _ it) as [[found it1]|] eqn:E; [|done]. rewrite bind_Some_l.
  apply advanceBucketLoop_sized in E; [|done]. destruct found; [|by intros [= <-]].
  case_decide; [by apply next_sized|by apply advanceInBucket_sized].
Qed.

Lemma rank_total it : bucket_sized it -> is_Some (rank it).
Proof.
  unfold bucket_sized, rank. destruct (bucket it) as [vs i|ws ri]; [done|]. intros [Hw Hri]. cbv zeta.
  pose proof (uwrap_range 16 (curr it) ltac:(lia)) as Hx. set (x := u16 (curr it)) in *. unfold is_u in Hx.
  change (OpenBitSet.wordShift + RANK_INDEX_SHIFT) with 9. change OpenBitSet.wordShift with 6.
  rewrite !Z.shiftr_div_pow2 by lia. change (2 ^ 9) with 512. change (2 ^ 6) with 64.
  assert (0 <= x / 512 < 128) by (split; [apply Z.div_pos|apply Z.div_lt_upper_bound]; lia).
  assert (0 <= x / 64 < 1024) by (split; [apply Z.div_pos|apply Z.div_lt_upper_bound]; lia).
  destruct (zget_in ri (x / 512)) as [r0 E0]; [lia|]. rewrite E0. opt.
  destruct (zget_in ws (x / 64)) as [w Ew]; [lia|].
  change (Z.shiftl 1 RANK_INDEX_SHIFT - 1) with (Z.ones 3). rewrite <- Z.ldiff_land, Z.ldiff_ones_r by lia.
  rewrite (Z.shiftl_mul_pow2 _ 3), (Z.shiftr_div_pow2 _ 3) by lia. change (2 ^ 3) with 8. set (first := x / 64 / 8 * 8).
  assert (0 <= first) by (unfold first; pose proof (Z.div_pos (x / 64) 8); lia).
  assert (forall l r, (forall i, i ∈ l -> 0 <= i < 1024) -> is_Some (foldM (fun r i => w ← ws.[i]; Some (u16 (r + popcount w))) r l)) as Hfold.
  { induction l as [|i l IH]; intros r Hl; [done|]. cbn [foldM]. destruct (zget_in ws i) as [v Ev]; [rewrite Hw; apply Hl; by left|].
    rewrite Ev. opt. apply IH. intros j Hj. apply Hl. by right. }
  destruct (Hfold (seqZ first (x / 64 - first)) r0) as [r1 E1]; [intros i Hi%elem_of_seqZ; lia|].
  rewrite E1. opt. rewrite Ew. by opt.
Qed.

Lemma ready_sized bs it c : ready bs it c -> bucket_sized it.
Proof.
  intros [[-> _]|(bi & b & x & ((_ & _ & _ & _ & _ & _ & Hbk) & _) & _)]; [done|]. unfold bucket_sized.
  destruct (bucket it) as [vs i|ws ri]; [done|]. by destruct Hbk as [(_ & ? & _ & ? & _) _].
Qed.

End ranks.

(** * Walking documents *)

Section documents.
Context {V : Type} `{!ValuesImpl V, !ValuesLaws V}.
Import DocIterator.

(** The documents with a value, in order, and their values: all documents, or those of an
    encoded set. *)
Record docs_of (c : IntCol.col) (vs ds : list Z) (bs : list bkt) : Prop := {
  docs_values : column_of (IntCol.values c) vs;
  docs_length : zlen ds = zlen vs;
  docs_count : IntCol.docsWithField c = zlen ds;
  docs_increasing : increasing ds;
  docs_below : Forall (fun d => 0 <= d < ENDDOC) ds;
  docs_set : if IntCol.hasBitset c then Encodes (IntCol.docs c) bs /\ elements bs = ds else ds = seqZ 0 (zlen ds) }.

Context (c : IntCol.col) (vs ds : list Z) (bs : list bkt) (Hc : docs_of c vs ds bs).

(** The iterator stands on the [k]-th document, or before the first. *)
Record at_doc (it : iter V) (k : Z) : Prop := {
  at_range : -1 <= k < zlen ds;
  at_rank : docRank it = k;
  at_document : if decide (k = -1) then doc it = -1 else ds.[k] = Some (doc it);
  at_set : IntCol.hasBitset c = true -> ready bs (docsIter it) (doc it);
  at_values : values_ok vs (valueIter it) }.

Lemma make_at : at_doc make (-1).
Proof.
  constructor; simpl; try done.
  - pose proof (zlen_nonneg ds). lia.
  - intros _. by left.
  - apply make_values_ok.
Qed.

Lemma doc_range k d : ds.[k] = Some d -> 0 <= d < ENDDOC.
Proof. intros Hd%zget_elem_1. pose proof (docs_below _ _ _ _ Hc) as H. rewrite Forall_forall in H. by apply H. Qed.

(** The documents after the current one. *)
Lemma at_next it k : at_doc it k -> count_lt ds (doc it + 1) = k + 1 /\ -1 <= doc it < ENDDOC.
Proof.
  intros Ha. pose proof (at_document _ _ Ha) as Hd. pose proof (at_range _ _ Ha). case_decide as E.
  - rewrite Hd, E. split; [|unfold ENDDOC; lia]. apply count_lt_none. intros v [i Hv]%zget_elem. pose proof (doc_range i v Hv). lia.
  - pose proof (doc_range k _ Hd). split; [|lia].
    rewrite count_lt_next; [|apply (docs_increasing _ _ _ _ Hc)|by eapply zget_elem_1].
    by rewrite (count_lt_zget ds k) by (apply (docs_increasing _ _ _ _ Hc) || done).
Qed.

(** Arriving at the [k]-th document. *)
Lemma arrive it k d di : 
  values_ok vs (valueIter it) -> ds.[k] = Some d -> (IntCol.hasBitset c = true -> ready bs di d) -> at_doc (Iter di (valueIter it) k d) k.
Proof.
  intros Hv Hk Hr. pose proof (zget_Some_range _ _ _ Hk). constructor; simpl; try done; [lia|]. by rewrite decide_False by lia.
Qed.

(** A move of the set's iterator. *)
Lemma lands_doc t r :
  IntCol.hasBitset c = true -> lands bs t r ->
  match first_ge ds t with
  | Some d => exists di, r = Some (d, di) /\ ready bs di d /\ Iterator.rank di = Some (count_lt ds d)
  | None => exists di, r = Some (ENDDOC, di)
  end.
Proof.
  intros Hb Hl. pose proof (docs_set _ _ _ _ Hc) as Hs. rewrite Hb in Hs. destruct Hs as [Henc He]. unfold lands in Hl.
  rewrite He in Hl. destruct (first_ge ds t) as [d|]; [|done]. destruct Hl as (di & bi & b & x & -> & Hp & Hd).
  exists di. split; [done|]. split; [right; by exists bi, b, x|]. rewrite (rank_spec (IntCol.docs c) bs di bi b x Hp), He, <- Hd. done.
Qed.

Lemma next_doc it k : at_doc it k ->
  match ds.[k + 1] with
  | Some d => exists it', next c it = Some (d, it') /\ at_doc it' (k + 1)
  | None => exists it', next c it = Some (ENDDOC, it')
  end.
Proof.
  intros Ha. destruct (at_next it k Ha) as [Hcnt Hd]. unfold next, IntCol.docsWithValue.
  rewrite (docs_count _ _ _ _ Hc), (at_rank _ _ Ha). pose proof (at_range _ _ Ha).
  destruct (ds.[k + 1]) as [d|] eqn:Ed.
  - pose proof (zget_Some_range _ _ _ Ed). rewrite decide_False by lia. destruct (IntCol.hasBitset c) eqn:Hb.
    + pose proof (docs_set _ _ _ _ Hc) as Hs. rewrite Hb in Hs. destruct Hs as [Henc _].
      pose proof (next_ready_lands (IntCol.docs c) bs (docsIter it) (doc it) (at_set _ _ Ha Hb)) as Hl.
      apply lands_doc in Hl; [|done]. rewrite <- zget_count_lt, Hcnt, Ed in Hl by apply (docs_increasing _ _ _ _ Hc).
      destruct Hl as (di & -> & Hr & _). rewrite bind_Some_l. eexists. split; [done|].
      apply (arrive it (k + 1) d di); [apply (at_values _ _ Ha)|done|done].
    + pose proof (docs_set _ _ _ _ Hc) as Hs. rewrite Hb in Hs.
      assert (d = doc it + 1) as ->.
      { rewrite Hs, zget_seqZ in Ed by lia. injection Ed as <-. pose proof (at_document _ _ Ha) as Hk. case_decide as E; [lia|].
        rewrite Hs, zget_seqZ in Hk by lia. injection Hk as Hk. lia. }
      rewrite decide_True by (unfold is_s, ENDDOC in *; simpl; lia). eexists. split; [done|].
      apply (arrive it (k + 1)); [apply (at_values _ _ Ha)|done|by rewrite Hb].
  - assert (~ k + 1 < zlen ds) by (intros Hlt; destruct (zget_in ds (k + 1)) as [d Hd']; [lia|]; by rewrite Hd' in Ed).
    rewrite decide_True by lia. by eexists.
Qed.

Lemma advance_doc it k t : at_doc it k -> doc it < t < 2 ^ 31 ->
  match ds.[count_lt ds t] with
  | Some d => exists it', advance c t it = Some (d, it') /\ at_doc it' (count_lt ds t)
  | None => exists it', advance c t it = Some (ENDDOC, it')
  end.
Proof.
  intros Ha Ht. destruct (at_next it k Ha) as [_ Hd]. unfold advance. pose proof (docs_set _ _ _ _ Hc) as Hs.
  pose proof (docs_increasing _ _ _ _ Hc) as Hinc. destruct (IntCol.hasBitset c) eqn:Hb.
  - destruct Hs as [Henc _]. pose proof (at_set _ _ Ha Hb) as Hr0.
    pose proof (advance_lands (IntCol.docs c) bs (docsIter it) (doc it) t Hr0 ltac:(lia) ltac:(lia)) as Hl.
    apply lands_doc in Hl; [|done]. rewrite <- zget_count_lt in Hl by done.
    destruct (ds.[count_lt ds t]) as [d|] eqn:Ed.
    + destruct Hl as (di & -> & Hr & Hrank). rewrite bind_Some_l, Hrank. opt. rewrite (count_lt_zget ds _ d Hinc Ed).
      eexists. split; [done|]. apply (arrive it _ d di); [apply (at_values _ _ Ha)|done|done].
    + destruct Hl as (di & E). rewrite E, bind_Some_l. destruct (rank_total di) as [r Er].
      { exact (advance_sized _ _ _ _ (ready_sized _ _ _ Hr0) E). }
      rewrite Er. opt. by eexists.
  - unfold IntCol.docsWithValue. rewrite (docs_count _ _ _ _ Hc).
    assert (count_lt ds t = Z.min t (zlen ds)) as ->.
    { pose proof (zlen_nonneg ds). rewrite Hs. rewrite zlen_seqZ by lia. destruct (decide (t <= zlen ds)).
      - replace (zlen ds) with (t + (zlen ds - t)) at 1 by lia. rewrite seqZ_app by lia.
        rewrite count_lt_app, count_lt_all, count_lt_none, zlen_seqZ by (lia || intros v Hv%elem_of_seqZ; lia). lia.
      - rewrite count_lt_all, zlen_seqZ by (lia || intros v Hv%elem_of_seqZ; lia). lia. }
    destruct (decide (t >= zlen ds)) as [Hge|Hlt].
    + rewrite Z.min_r by lia. rewrite (proj2 (eq_None_not_Some _)); [by eexists|]. intros [d Hd'%zget_Some_range]. lia.
    + rewrite Z.min_l by lia. rewrite Hs, zget_seqZ, Z.add_0_l by lia. eexists. split; [done|].
      apply (arrive it t t); [apply (at_values _ _ Ha)|by rewrite Hs, zget_seqZ by lia|by rewrite Hb].
Qed.

Lemma value_doc it k v : at_doc it k -> vs.[k] = Some v -> exists it', value c it = Some (v, it') /\ at_doc it' k.
Proof.
  intros Ha Hv. unfold value. rewrite (at_rank _ _ Ha).
  destruct (valueAt_ok (IntCol.values c) vs (valueIter it) k v (docs_values _ _ _ _ Hc) (at_values _ _ Ha) Hv) as (s' & E & Hs').
  rewrite E. opt. eexists. split; [done|]. destruct Ha. constructor; done.
Qed.

(** No document after the [k]-th and before the [j]-th is accepted. *)
Definition rejected (accept : Z -> Z -> bool) (k j : Z) : Prop :=
  forall i d, k < i < j -> ds.[i] = Some d -> accept d i = false.

Lemma denseWhere_spec fuel accept rank :
  ds = seqZ 0 (zlen ds) -> -1 <= rank < zlen ds -> zlen ds - rank < Z.of_nat fuel ->
  exists o j, denseWhere fuel accept rank (zlen ds) = Some (o, j) /\ rank < j <= zlen ds /\ rejected accept rank j /\
    match o with
    | Some d => ds.[j] = Some d /\ accept d j = true
    | None => j = zlen ds
    end.
Proof.
  intros Hs. revert rank. induction fuel as [|fuel IH]; intros rank Hr Hf; [lia|]. cbn [denseWhere]. cbv zeta.
  destruct (decide (rank + 1 < zlen ds)) as [Hlt|Hge].
  - assert (ds.[rank + 1] = Some (rank + 1)) as Hd by (by rewrite Hs, zget_seqZ by lia).
    destruct (accept (rank + 1) (rank + 1)) eqn:Ea.
    + exists (Some (rank + 1)), (rank + 1). split; [done|]. split; [lia|]. split; [intros i d Hi; lia|done].
    + destruct (IH (rank + 1)) as (o & j & E & Hj & Hrej & Ho); [lia|lia|]. exists o, j. split; [done|]. split; [lia|].
      split; [|done]. intros i d Hi Hd'. destruct (decide (i = rank + 1)) as [->|]; [|by apply Hrej; [lia|]].
      rewrite Hd in Hd'. by injection Hd' as <-.
  - exists None, (rank + 1). split; [done|]. split; [lia|]. split; [intros i d Hi; lia|lia].
Qed.

Lemma sparseWhere_spec fuel accept rank cur di :
  IntCol.hasBitset c = true -> -1 <= rank < zlen ds -> count_lt ds (cur + 1) = rank + 1 -> ready bs di cur ->
  zlen ds - rank < Z.of_nat fuel ->
  exists o j di', sparseWhere fuel (IntCol.docs c) accept rank (zlen ds) di = Some (o, j, di') /\ rank < j <= zlen ds /\
    rejected accept rank j /\
    match o with
    | Some d => ds.[j] = Some d /\ accept d j = true /\ ready bs di' d
    | None => j = zlen ds
    end.
Proof.
  intros Hb. revert rank cur di. induction fuel as [|fuel IH]; intros rank cur di Hr Hcnt Hrd Hf; [lia|]. cbn [sparseWhere]. cbv zeta.
  destruct (decide (rank + 1 < zlen ds)) as [Hlt|Hge].
  - destruct (zget_in ds (rank + 1)) as [d Hd]; [lia|]. pose proof (docs_increasing _ _ _ _ Hc) as Hinc.
    pose proof (docs_set _ _ _ _ Hc) as Hs. rewrite Hb in Hs. destruct Hs as [Henc _].
    pose proof (next_ready_lands (IntCol.docs c) bs di cur Hrd) as Hl. apply lands_doc in Hl; [|done].
    rewrite <- zget_count_lt, Hcnt, Hd in Hl by done. destruct Hl as (di1 & -> & Hr1 & _). rewrite bind_Some_l.
    destruct (accept d (rank + 1)) eqn:Ea.
    + exists (Some d), (rank + 1), di1. split; [done|]. split; [lia|]. split; [intros i e Hi; lia|done].
    + destruct (IH (rank + 1) d di1) as (o & j & di' & E & Hj & Hrej & Ho); [lia| |done|lia|].
      { rewrite count_lt_next; [|done|by eapply zget_elem_1]. by rewrite (count_lt_zget ds (rank + 1)). }
      exists o, j, di'. split; [done|]. split; [lia|]. split; [|done]. intros i e Hi He.
      destruct (decide (i = rank + 1)) as [->|]; [|by apply Hrej; [lia|]]. rewrite Hd in He. by injection He as <-.
  - exists None, (rank + 1), di. split; [done|]. split; [lia|]. split; [intros i e Hi; lia|lia].
Qed.

Lemma nextWhere_doc it k accept : at_doc it k ->
  (exists j d it', nextWhere c accept it = Some (d, it') /\ at_doc it' j /\ k < j /\ ds.[j] = Some d /\ accept d j = true /\ rejected accept k j)
  \/ (exists it', nextWhere c accept it = Some (ENDDOC, it') /\ rejected accept k (zlen ds)).
Proof.
  intros Ha. unfold nextWhere, IntCol.docsWithValue. cbv zeta. rewrite (docs_count _ _ _ _ Hc), (at_rank _ _ Ha).
  pose proof (at_range _ _ Ha) as Hk. pose proof (docs_set _ _ _ _ Hc) as Hs. destruct (IntCol.hasBitset c) eqn:Hb.
  - destruct (sparseWhere_spec (Z.to_nat (zlen ds - k + 1)) accept k (doc it) (docsIter it) Hb Hk) as (o & j & di & E & Hj & Hrej & Ho).
    { by apply (at_next it k). }
    { by apply (at_set _ _ Ha). }
    { lia. }
    rewrite E, bind_Some_l. destruct o as [d|].
    + left. destruct Ho as (Hd & Hacc & Hr). eexists j, d, _. split; [done|].
      split; [apply (arrive it j d di); [apply (at_values _ _ Ha)|done|done]|]. split; [lia|done].
    + right. eexists. split; [done|]. by rewrite <- Ho.
  - destruct (denseWhere_spec (Z.to_nat (zlen ds - k + 1)) accept k Hs Hk ltac:(lia)) as (o & j & E & Hj & Hrej & Ho).
    rewrite E, !bind_Some_l. destruct o as [d|].
    + left. destruct Ho as (Hd & Hacc). eexists j, d, _. split; [done|].
      split; [apply (arrive it j d (docsIter it)); [apply (at_values _ _ Ha)|done|by rewrite Hb]|]. split; [lia|done].
    + right. eexists. split; [done|]. by rewrite <- Ho.
Qed.

(** A move of the iterator that is not at its end; targets lie past the current document. *)
Inductive doc_step : iter V -> iter V -> Prop :=
| doc_next it d it' : next c it = Some (d, it') -> d <> ENDDOC -> doc_step it it'
| doc_advance it t d it' : doc it < t < 2 ^ 31 -> advance c t it = Some (d, it') -> d <> ENDDOC -> doc_step it it'
| doc_where it accept d it' : nextWhere c accept it = Some (d, it') -> d <> ENDDOC -> doc_step it it'
| doc_value it v it' : value c it = Some (v, it') -> 0 <= docRank it -> doc_step it it'
| doc_reset it : doc_step it (reset it).

Lemma doc_step_at it it' k : at_doc it k -> doc_step it it' -> exists k', at_doc it' k'.
Proof.
  intros Ha Hs. destruct Hs as [it d it' E Hd|it t d it' Ht E Hd|it p d it' E Hd|it v it' E Hr|it].
  - pose proof (next_doc it k Ha) as H. destruct (ds.[k + 1]).
    + destruct H as (it2 & E2 & H2). rewrite E in E2. injection E2 as -> ->. eauto.
    + destruct H as (it2 & E2). rewrite E in E2. by injection E2 as ->.
  - pose proof (advance_doc it k t Ha Ht) as H.
    destruct (ds.[count_lt ds t]).
    + destruct H as (it2 & E2 & H2). rewrite E in E2. injection E2 as -> ->. eauto.
    + destruct H as (it2 & E2). rewrite E in E2. by injection E2 as ->.
  - destruct (nextWhere_doc it k p Ha) as [(j & e & it2 & E2 & H2 & _)|(it2 & E2 & _)]; rewrite E in E2.
    + injection E2 as -> ->. eauto.
    + by injection E2 as ->.
  - rewrite (at_rank _ _ Ha) in Hr. pose proof (at_range _ _ Ha).
    destruct (zget_in vs k) as [w Hw]; [rewrite <- (docs_length _ _ _ _ Hc); lia|].
    destruct (value_doc it k w Ha Hw) as (it2 & E2 & H2). rewrite E in E2. injection E2 as -> ->. eauto.
  - exists (-1). pose proof (zlen_nonneg ds). constructor; simpl; try done; [lia| |apply (at_values _ _ Ha)]. intros _. by left.
Qed.

Lemma reachable_at it : rtc doc_step make it -> exists k, at_doc it k.
Proof.
  intros Hr. revert Hr. apply (rtc_ind_r (fun it => exists k, at_doc it k)); [exists (-1); apply make_at|].
  intros x y _ Hs [k Ha]. by eapply doc_step_at.
Qed.

End documents.

(** C8: iteration over documents.  In every state that the moves of a document iterator
    reach, over all documents or over an encoded set of them and with either cursor over the
    values, the iterator stands on the [k]-th document or before the first: [value] is that
    document's value, [next] goes to the following document, [advance] to the first one
    from the target on, and [nextWhere] to the first later one that is accepted; each
    reports the end when there is none. *)
Theorem document_walk (V : Type) (impl : ValuesImpl V) (laws : ValuesLaws V) (c : IntCol.col) (vs ds : list Z) (bs : list bkt)
    (it : DocIterator.iter V) (Hc : docs_of c vs ds bs) (Hit : rtc (doc_step c) DocIterator.make it) :
  exists k, -1 <= k < zlen ds /\ DocIterator.docRank it = k /\ (0 <= k -> ds.[k] = Some (DocIterator.doc it)) /\
    (forall v, vs.[k] = Some v -> exists it', DocIterator.value c it = Some (v, it')) /\
    (exists it', DocIterator.next c it = Some (default ENDDOC (ds.[k + 1]), it')) /\
    (forall t, DocIterator.doc it < t < 2 ^ 31 ->
       exists it', DocIterator.advance c t it = Some (default ENDDOC (ds.[count_lt ds t]), it')) /\
    (forall accept,
       (exists j d it', DocIterator.nextWhere c accept it = Some (d, it') /\ k < j /\ ds.[j] = Some d /\
          accept d j = true /\ rejected ds accept k j) \/
       (exists it', DocIterator.nextWhere c accept it = Some (ENDDOC, it') /\ rejected ds accept k (zlen ds))).
Proof.
  destruct (reachable_at c vs ds bs Hc it Hit) as [k Ha]. exists k. split; [apply (at_range _ _ _ _ _ _ Ha)|].
  split; [apply (at_rank _ _ _ _ _ _ Ha)|]. split.
  { intros Hk. pose proof (at_document _ _ _ _ _ _ Ha) as Hd. by rewrite decide_False in Hd by lia. }
  split. { intros v Hv. destruct (value_doc c vs ds bs Hc it k v Ha Hv) as (it' & E & _). by exists it'. }
  split. { pose proof (next_doc c vs ds bs Hc it k Ha) as H. destruct (ds.[k + 1]); [destruct H as (it' & E & _)|destruct H as (it' & E)]; by exists it'. }
  split.
  { intros t Ht. pose proof (advance_doc c vs ds bs Hc it k t Ha Ht) as H.
    destruct (ds.[count_lt ds t]); [destruct H as (it' & E & _)|destruct H as (it' & E)]; by exists it'. }
  intros accept. destruct (nextWhere_doc c vs ds bs Hc it k accept Ha) as [(j & d & it' & E & _ & H)|(it' & E & H)];
    [left; by exists j, d, it'|right; by exists it'].
Qed.

Lemma document_walk_witness :
  exists c it, DocIterator.advance c 70000 (DocIterator.make (V := Bulk.bulk)) = Some (200000, it).
Proof.
  destruct example_vals_ok as [Hinc Hbel].
  destruct (small_column [7; 8; 9; 10]) as [vc Hvc]; [apply (bool_decide_unpack _); by vm_compute|by vm_compute|].
  destruct (build_spec 1024 example_buffers example_vals ltac:(lia) example_buffers_ok Hinc (below_end_31 _ Hbel)) as (img & _ & Hset).
  destruct (Hset [] [] eq_refl) as (s & bs & _ & Henc & He).
  destruct (document_walk Bulk.bulk _ _ (IntCol.Col vc s 4 None false) [7; 8; 9; 10] example_vals bs DocIterator.make) as (k & Hk & Hr & _ & _ & _ & Ha & _).
  - constructor.
    + exact Hvc.
    + done.
    + done.
    + exact Hinc.
    + exact Hbel.
    + unfold IntCol.hasBitset. cbn [IntCol.docs]. rewrite (enc_n (Encodes := Henc)). rewrite bool_decide_eq_true_2; [done|].
      destruct bs; [done|]. rewrite zlen_cons. pose proof (zlen_nonneg bs). lia.
  - apply rtc_refl.
  - destruct (Ha 70000) as (it' & E); [vm_compute; split; congruence|]. by exists (IntCol.Col vc s 4 None false), it'.
Defined.
