(* ===== verification/VersionRuns.v ===== *)
(** Request versions of documents, the reader: [luxir/reader/VersionRuns.h].  A file of runs
    is a row of blocks of at most 256 runs, a directory of the blocks and a header.  The
    constructor takes arbitrary bytes and throws unless they are well formed; the cursor
    and the iterator read an accepted file without further checks.  The file is a list of
    bytes at an aligned address; a read outside it is [None], or [Undef] where the code
    may also throw. *)

From S2P Require Import Prelude Search LinearPack LinearFit NumFormat NumColumn.

(** * Blocks *)

Record VersionRun := Run { firstDocId : Z; version : Z }.

Record VersionBlockHeader := BlockHeader { hversions : NumBlockInfo.info; hfirstDocId : Z; hstep : Z }.

Definition sizeof_VersionBlockHeader : Z := 40.
Definition sizeof_VersionBlockDirectory : Z := 16.
Definition sizeof_VersionRunsHeader : Z := 24.
Definition sizeof_NumBlockInfo : Z := 32.

Definition load_info (mem : list Z) (off : Z) : option NumBlockInfo.info :=
  a ← load 8 mem off; b ← load 8 mem (off + 8); g ← load 8 mem (off + 16); s ← load 8 mem (off + 24);
  Some (NumBlockInfo.Info a b g (s64 s)).

Module VersionBlock.

(** [data] is an offset into the memory. *)
Record block := Block { mem : list Z; data : Z; count_ : Z }.

Definition header (b : block) : option VersionBlockHeader :=
  versions ← load_info (mem b) (data b);
  first ← load 4 (mem b) (data b + 32);
  step ← load 4 (mem b) (data b + 36);
  Some (BlockHeader versions first step).

Definition size (b : block) : Z := count_ b.

Definition versions (b : block) : option NumColumn.column :=
  NumColumn.make (mem b) (data b) (data b) (count_ b) true.

Definition starts (b : block) : option NumColumn.column :=
  NumColumn.make (mem b) (data b) (data b + sizeof_VersionBlockHeader) (count_ b) false.

Definition start (b : block) (index : Z) : option Z :=
  h ← header b;
  if decide (hstep h <> 0) then Some (u32 (hfirstDocId h + u32 (index * hstep h)))
  else c ← starts b; v ← NumColumn.valueAt c index; Some (u32 v).

Definition version (b : block) (index : Z) : option Z :=
  c ← versions b; v ← NumColumn.valueAt c index; Some (u64 v).

(** The search over [count] starts, from a hint in both directions. *)
Definition find (doc hint count : Z) (start : Z -> option Z) : option Z :=
  let hint := Z.min hint (u32 (count - 1)) in
  s ← start hint;
  if decide (doc < s) then
    reverse ← Gallop.gallopIndex (fun i => v ← start (u32 (hint - u32 i)); Some (- v)) (- doc) 0 (hint + 1);
    Some (u32 (hint - u32 reverse))
  else
    r ← Gallop.gallopIndex (fun i => start (u32 i)) (doc + 1) hint count;
    Some (u32 (u32 r - 1)).

Definition find_run (b : block) (doc hint : Z) : option Z :=
  h ← header b;
  if decide (hstep h <> 0) then Some (Z.min (u32 (doc - hfirstDocId h) / hstep h) (u32 (count_ b - 1)))
  else find doc hint (count_ b) (fun i => start b i).

End VersionBlock.

(** * The affine prefix *)

Module VersionAffinePrefix.

Record prefix := Prefix { base : Z; step : Z; count : Z }.

Definition fresh : prefix := Prefix 0 0 0.

Definition append (block : VersionBlock.block) (firstRun : Z) (p : prefix) : option prefix :=
  h ← VersionBlock.header block;
  if decide (count p <> firstRun \/ hfirstDocId h <> count p \/ hstep h <> 1) then Some p
  else
    c ← VersionBlock.versions block;
    fit ← NumColumn.affineBlock c 0;
    match fit with
    | None => Some p
    | Some (first, second) =>
        if decide (count p = 0) then Some (Prefix first second (u32 (count p + VersionBlock.size block)))
        else if decide (u64 (base p + u64 (count p * step p)) <> first \/ step p <> second) then Some p
        else Some (Prefix (base p) (step p) (u32 (count p + VersionBlock.size block)))
    end.

Definition birth (p : prefix) (doc : Z) : Z := u64 (base p + u64 (doc * step p)).

End VersionAffinePrefix.

(** * A file of runs *)

Module VersionRuns.
Import VersionBlock.

Definition ENCODING : Z := 2.
Definition BLOCK_SIZE : Z := 256.

(** [data] and [directory] are offsets into the file. *)
Record runs := Runs {
  file : list Z;
  data : Z;
  directory : Z;
  count_ : Z;
  maxDoc_ : Z;
  bytes_ : Z;
  dense : bool;
  affine : VersionAffinePrefix.prefix }.

Definition size (v : runs) : Z := count_ v.

Definition numBlocks (v : runs) : Z := u32 (count_ v + BLOCK_SIZE - 1) / BLOCK_SIZE.

(** The fields of [directory [index]]. *)
Definition dir_firstDocId (v : runs) (index : Z) : option Z :=
  load 4 (file v) (directory v + sizeof_VersionBlockDirectory * index).
Definition dir_reserved (v : runs) (index : Z) : option Z :=
  load 4 (file v) (directory v + sizeof_VersionBlockDirectory * index + 4).
Definition dir_offset (v : runs) (index : Z) : option Z :=
  load 8 (file v) (directory v + sizeof_VersionBlockDirectory * index + 8).

Definition block (v : runs) (index : Z) : option VersionBlock.block :=
  off ← dir_offset v index;
  Some (Block (file v) (data v + off) (Z.min BLOCK_SIZE (u32 (count_ v - u32 (index * BLOCK_SIZE))))).

Definition run (v : runs) (index : Z) : option VersionRun :=
  view ← block v (u32 index / BLOCK_SIZE);
  let within := u32 index `mod` BLOCK_SIZE in
  s ← start view within;
  n ← VersionBlock.version view within;
  Some (Run s n).

(** ** The constructor *)

Definition invalid {A} : outcome A := Throw "Invalid request-version run coverage or encoding".

(** The check of a descriptor whose payload lies in the [room] bytes of its block. *)
Definition check (size metaSize room : Z) (info : NumBlockInfo.info) (monotonic : bool) : outcome unit :=
  let bits := NumBlockInfo.bits info in
  if decide ((NumBlockInfo.forPacked info = false /\ bits <> NumBlockInfo.RAW_BITS) \/ NumBlockInfo.gcd info = 0 \/
             (monotonic = true /\ NumBlockInfo.gcd info <> 1)) then invalid
  else
    let payload := NumBlockInfo.payloadOffset info in
    bytes ← lift (if NumBlockInfo.forPacked info then LinearPack.packedByteSize size bits else Some (u64 (size * 8)));
    if decide (payload < metaSize \/ payload > room \/ u64 (bytes + LinearPack.TAIL_PAD) > u64 (room - payload)) then invalid
    else Ret ().

(** The loop over irregular starts; the state is the bulk cursor and [previous]. *)
Definition checkStart (maxDoc first : Z) (col : NumColumn.column) (s : Bulk.bulk * Z) (j : Z) : outcome (Bulk.bulk * Z) :=
  let '(values, previous) := s in
  '(start, values) ← lift (Bulk.valueAt col j values);
  if decide (start < 0 \/ start >= maxDoc \/ (j = 0 /\ start <> first) \/ (j <> 0 /\ start <= previous)) then invalid
  else Ret (values, u32 start).

(** The checks of the starts of block [i], whose result is the last of them. *)
Definition checkStarts (v : runs) (maxDoc i offset limit metaSize first : Z) (view : VersionBlock.block)
    (bh : VersionBlockHeader) (previous : Z) : outcome Z :=
  previous ←
    (if decide (hstep bh <> 0) then
       let last := u64 (hfirstDocId bh + u64 (u32 (VersionBlock.size view - 1) * hstep bh)) in
       if decide (last >= u32 maxDoc) then invalid else Ret last
     else
       if decide (limit - offset < metaSize) then invalid
       else
         info ← lift (load_info (file v) (data v + offset + sizeof_VersionBlockHeader));
         check (VersionBlock.size view) metaSize (limit - offset) info true;;
         col ← lift (starts view);
         '(_, previous) ← foldE (checkStart maxDoc first col) (Bulk.fresh, previous) (seqZ 0 (VersionBlock.size view));
         Ret previous);
  more ← (if decide (i + 1 < numBlocks v) then
            next ← lift (dir_firstDocId v (i + 1)); Ret (bool_decide (previous >= next))
          else Ret false);
  if (more : bool) then invalid else Ret (u32 previous).

(** The body of the loop over the blocks; the state is [previous] and the object. *)
Definition checkBlock (directoryOffset maxDoc : Z) (s : Z * runs) (i : Z) : outcome (Z * runs) :=
  let '(previous, v) := s in
  offset ← lift (dir_offset v i);
  limit ← lift (if decide (i + 1 < numBlocks v) then dir_offset v (i + 1) else Some directoryOffset);
  reserved ← lift (dir_reserved v i);
  first ← lift (dir_firstDocId v i);
  if decide (Z.land offset 7 <> 0 \/ offset > limit \/ limit > directoryOffset \/
             limit - offset < sizeof_VersionBlockHeader \/ reserved <> 0 \/ first >= u32 maxDoc \/
             (i = 0 /\ first <> 0) \/ (i <> 0 /\ first <= previous)) then invalid
  else
    view ← lift (block v i);
    bh ← lift (header view);
    if decide (first <> hfirstDocId bh) then invalid
    else
      let metaSize := sizeof_VersionBlockHeader + (if decide (hstep bh <> 0) then 0 else sizeof_NumBlockInfo) in
      check (VersionBlock.size view) metaSize (limit - offset) (hversions bh) false;;
      previous ← checkStarts v maxDoc i offset limit metaSize first view bh previous;
      affine ← lift (VersionAffinePrefix.append view (u32 (i * BLOCK_SIZE)) (affine v));
      Ret (previous,
           Runs (file v) (data v) (directory v) (count_ v) (maxDoc_ v) (bytes_ v)
             (dense v && bool_decide (hstep bh = 1 /\ first = u32 (i * BLOCK_SIZE))) affine).

Definition make (file : list Z) (headerOffset count maxDoc : Z) : outcome runs :=
  let fileSize := zlen file in
  if decide (headerOffset > fileSize \/ fileSize - headerOffset < sizeof_VersionRunsHeader \/
             Z.land headerOffset 7 <> 0 \/ maxDoc <= 0 \/ count = 0 \/ count > u32 maxDoc) then invalid
  else
    encoding ← lift (load 4 file headerOffset);
    hcount ← lift (load 4 file (headerOffset + 4));
    directoryOffset ← lift (load 8 file (headerOffset + 8));
    bytes ← lift (load 8 file (headerOffset + 16));
    if decide (bytes > headerOffset + sizeof_VersionRunsHeader \/ bytes < sizeof_VersionRunsHeader \/ Z.land bytes 7 <> 0)
    then invalid
    else
      let data := headerOffset + sizeof_VersionRunsHeader - bytes in
      let v := Runs file data (data + directoryOffset) count maxDoc bytes true VersionAffinePrefix.fresh in
      if decide (encoding <> ENCODING \/ hcount <> count \/ bytes > fileSize \/ Z.land directoryOffset 7 <> 0 \/
                 directoryOffset > bytes \/
                 numBlocks v * sizeof_VersionBlockDirectory + sizeof_VersionRunsHeader <> bytes - directoryOffset)
      then invalid
      else '(_, v) ← foldE (checkBlock directoryOffset maxDoc) (0, v) (seqZ 0 (numBlocks v)); Ret v.

(** ** Lookups *)

Module Cursor.

(** [values] holds the frame last decoded. *)
Record cursor := MkCursor {
  blockIndex : Z;
  runIndex : Z;
  first : Z;
  end_ : Z;
  version : Z;
  frameBlock : Z;
  frameStart : Z;
  frameEnd : Z;
  values : list Z;
  decodedFirst : Z;
  decodedEnd : Z }.

Definition UINT32_MAX : Z := 2 ^ 32 - 1.

Definition fresh : cursor := MkCursor 0 0 0 0 0 UINT32_MAX (-1) (-1) [] 0 0.

(** The lookup of a document of a dense file, through the frame of its version. *)
Definition lookupDense (source : runs) (doc : Z) (c : cursor) : option (Z * cursor) :=
  c ← (if decide (doc < decodedFirst c \/ doc >= decodedEnd c) then
         let blk := doc / BLOCK_SIZE in
         view ← block source blk;
         col ← versions view;
         '(start, values) ← NumColumn.decodeFrame col (doc `mod` BLOCK_SIZE);
         let decodedFirst := u32 (u32 (blk * BLOCK_SIZE) + u32 start) in
         Some (MkCursor (blockIndex c) (runIndex c) (first c) (end_ c) (version c) UINT32_MAX (frameStart c) (frameEnd c)
                 values decodedFirst (u32 (decodedFirst + zlen values)))
       else Some c);
  v ← (values c).[u32 (doc - decodedFirst c)];
  Some (u64 v, c).

(** The lookup of any document: the block, the run in it, and the frame of the run. *)
Definition lookupRun (source : runs) (doc : Z) (c : cursor) : option (Z * cursor) :=
  bi ← (if dense source then Some (Z.min (doc / BLOCK_SIZE) (u32 (numBlocks source - 1)))
        else find doc (blockIndex c) (numBlocks source) (dir_firstDocId source));
  view ← block source bi;
  ri ← find_run view doc (runIndex c);
  first ← start view ri;
  end_ ← (if decide (u32 (ri + 1) < VersionBlock.size view) then start view (u32 (ri + 1))
          else if decide (u32 (bi + 1) < numBlocks source) then dir_firstDocId source (u32 (bi + 1))
          else Some (u32 (maxDoc_ source)));
  c ← (if decide (frameBlock c <> bi \/ ri < frameStart c \/ ri >= frameEnd c) then
         col ← versions view;
         '(start, values) ← NumColumn.decodeFrame col ri;
         Some (MkCursor bi ri first end_ (version c) bi start (start + zlen values) values (decodedFirst c) 0)
       else
         Some (MkCursor bi ri first end_ (version c) (frameBlock c) (frameStart c) (frameEnd c) (values c)
                 (decodedFirst c) (decodedEnd c)));
  v ← (values c).[ri - frameStart c];
  Some (u64 v,
        MkCursor (blockIndex c) (runIndex c) (Cursor.first c) (Cursor.end_ c) (u64 v) (frameBlock c) (frameStart c)
          (frameEnd c) (values c) (decodedFirst c) (decodedEnd c)).

Definition lookupBirth (source : runs) (doc : Z) (c : cursor) : option (Z * cursor) :=
  if decide (dense source = true /\ doc < count_ source) then lookupDense source doc c else lookupRun source doc c.

Definition birth (source : runs) (docId : Z) : SM cursor Z :=
  if decide (docId < 0 \/ docId >= maxDoc_ source) then throw "Document has no request birth version"
  else
    let doc := u32 docId in
    if decide (doc < VersionAffinePrefix.count (affine source)) then mret (VersionAffinePrefix.birth (affine source) doc)
    else
      c ← get;
      if decide (doc >= first c /\ doc < end_ c) then mret (version c)
      else match lookupBirth source doc c with
           | Some (v, c) => put c;; mret v
           | None => undef
           end.

End Cursor.

(** ** Iteration *)

Module Iterator.

(** [versions] and [starts] hold the frames last decoded. *)
Record iterator := MkIterator { index : Z; versions : list Z; starts : list Z }.

Definition fresh : iterator := MkIterator 0 [] [].

(** The run, or nothing at the end. *)
Definition next (source : runs) (it : iterator) : option (option VersionRun * iterator) :=
  if decide (index it = size source) then Some (None, it)
  else
    let within := index it `mod` BLOCK_SIZE in
    let frame := within `mod` NumColumnFormat.BULK_SIZE in
    view ← block source (index it / BLOCK_SIZE);
    h ← header view;
    it ← (if decide (frame = 0) then
            col ← VersionBlock.versions view;
            '(_, vs) ← NumColumn.decodeFrame col within;
            ss ← (if decide (hstep h = 0) then
                    col ← VersionBlock.starts view;
                    '(_, ss) ← NumColumn.decodeFrame col within;
                    Some ss
                  else Some (starts it));
            Some (MkIterator (index it) vs ss)
          else Some it);
    s ← (if decide (hstep h <> 0) then start view within else s ← (starts it).[frame]; Some (u32 s));
    n ← (versions it).[frame];
    Some (Some (Run s (u64 n)), MkIterator (u32 (index it + 1)) (versions it) (starts it)).

End Iterator.

End VersionRuns.

(** * Reading unverified bytes

    The values of a column of one block whose descriptor and payload lie in the memory,
    whatever the bytes are. *)

Section readable.
Import NumBlockInfo NumColumnFormat.

Record readable (c : NumColumn.column) (b : NumBlockInfo.info) : Prop := {
  rd_bytes : is_bytes (NumColumn.mem c);
  rd_count : 0 < NumColumn.nValues c <= NumColumnFormat.BLOCK_SIZE;
  rd_info : NumColumn.blockInfo c 0 = Some b;
  rd_gcd : NumColumn.withGcd c = false -> gcd b = 1;
  rd_room :
    (bits b <= MAX_PACKED_BITS /\ packed_room (NumColumn.mem c) (NumColumn.payload c b) (NumColumn.nValues c) (bits b)) \/
    (bits b = RAW_BITS /\ 0 <= NumColumn.payload c b /\
     NumColumn.payload c b + 8 * NumColumn.nValues c <= zlen (NumColumn.mem c)) }.

Definition recon (b : NumBlockInfo.info) (k r : Z) : Z :=
  s64 (baseBits b + gcd b * (if decide (scaledSlope b <> 0) then u64 (r + u64 (slopeTerm k (scaledSlope b))) else r)).

Lemma reconstruct_recon withGcd b k r :
  (withGcd = false -> gcd b = 1) -> NumColumn.reconstruct withGcd b k r = Some (recon b k r).
Proof.
  intros Hg. unfold NumColumn.reconstruct, recon. destruct withGcd; [by rewrite swrap_uwrap by lia|].
  rewrite decide_True by auto. by rewrite Hg, Z.mul_1_l, swrap_uwrap by (lia || done).
Qed.

(** The value of rank [k]. *)
Definition stored (c : NumColumn.column) (b : NumBlockInfo.info) (k : Z) : Z :=
  if decide (bits b > MAX_PACKED_BITS) then s64 (field (NumColumn.mem c) (8 * (NumColumn.payload c b + k * 8)) 64)
  else recon b k (field (NumColumn.mem c) (8 * NumColumn.payload c b + k * bits b) (bits b)).

Definition stored_values (c : NumColumn.column) (b : NumBlockInfo.info) : list Z :=
  stored c b <$> seqZ 0 (NumColumn.nValues c).

(** A slope without fractional bits. *)
Lemma whole_slope s : Z.land (u64 s) (Z.shiftl 1 SLOPE_SHIFT - 1) = 0 -> s = 2 ^ 14 * (s / 2 ^ 14).
Proof.
  change (Z.shiftl 1 SLOPE_SHIFT - 1) with (Z.ones 14). rewrite Z.land_ones by lia. intros Hs.
  assert (s `mod` 2 ^ 14 = 0) as Hmod.
  { rewrite <- Hs. unfold uwrap. symmetry. apply Z.mod_mod_divide. by exists (2 ^ 50). }
  pose proof (Z.div_mod s (2 ^ 14)). lia.
Qed.

Section column.
Context (c : NumColumn.column) (b : NumBlockInfo.info) (Hr : readable c b).

Lemma zlen_stored : zlen (stored_values c b) = NumColumn.nValues c.
Proof. pose proof (rd_count _ _ Hr). unfold stored_values. zlen. Qed.

Lemma zget_stored k v : (stored_values c b).[k] = Some v <-> 0 <= k < NumColumn.nValues c /\ v = stored c b k.
Proof.
  unfold stored_values. rewrite zget_fmap. split.
  - intros H. destruct ((seqZ 0 _).[k]) as [x|] eqn:E; [|done]. pose proof (zget_Some_range _ _ _ E) as Hk.
    pose proof (rd_count _ _ Hr). rewrite zlen_seqZ in Hk by lia. rewrite zget_seqZ in E by lia.
    injection E as <-. injection H as <-. done.
  - intros [Hk ->]. by rewrite zget_seqZ by lia.
Qed.

Lemma bits_range : 0 <= bits b.
Proof. apply uwrap_range. lia. Qed.

Lemma select_stored k : 0 <= k < NumColumn.nValues c -> bits b <= MAX_PACKED_BITS ->
  LinearPack.select64 (NumColumn.mem c) (NumColumn.payload c b) k (bits b) (Z.ones (bits b))
  = Some (field (NumColumn.mem c) (8 * NumColumn.payload c b + k * bits b) (bits b)).
Proof.
  intros Hk Hb. destruct (rd_room _ _ Hr) as [[_ Hroom]|[E _]]; [|rewrite E in Hb; done].
  pose proof bits_range. destruct (decide (bits b = 0)) as [E0|].
  - rewrite E0. unfold field. by rewrite Z.land_0_r.
  - apply (select64_field _ _ _ (NumColumn.nValues c)); [apply Hr|done|done|unfold MAX_PACKED_BITS in *; lia].
Qed.

Lemma load_stored k : 0 <= k < NumColumn.nValues c -> bits b > MAX_PACKED_BITS ->
  load 8 (NumColumn.mem c) (NumColumn.payload c b + k * 8)
  = Some (field (NumColumn.mem c) (8 * (NumColumn.payload c b + k * 8)) 64).
Proof.
  intros Hk Hb. destruct (rd_room _ _ Hr) as [[E _]|(_ & H1 & H2)]; [lia|].
  apply (load_field 8); [apply Hr|lia..].
Qed.

Lemma numBlocks_one : NumColumn.numBlocks c = 1.
Proof.
  pose proof (rd_count _ _ Hr) as Hc. unfold NumColumn.numBlocks, NumColumnFormat.BLOCK_SIZE in *.
  rewrite Z.quot_div_nonneg by lia. symmetry. apply (Z.div_unique_pos _ _ _ (NumColumn.nValues c - 1)); lia.
Qed.

Lemma valueAt_stored k : 0 <= k < NumColumn.nValues c -> NumColumn.valueAt c k = Some (stored c b k).
Proof.
  intros Hk. pose proof (rd_count _ _ Hr). unfold NumColumn.valueAt, stored. rewrite decide_True by lia.
  rewrite Z.div_small, Z.mod_small by lia. cbv zeta. rewrite (rd_info _ _ Hr). opt. case_decide as Hb.
  - by rewrite load_stored.
  - pose proof bits_range. rewrite mask64_ones by (unfold MAX_PACKED_BITS in *; lia). opt.
    rewrite select_stored by lia. opt. apply reconstruct_recon, Hr.
Qed.

Lemma decodeFrame_stored k : 0 <= k < zlen (stored_values c b) ->
  NumColumn.decodeFrame c k = Some (frame_start k, frame (stored_values c b) k).
Proof.
  intros Hk. pose proof (rd_count _ _ Hr) as Hn. pose proof zlen_stored as Hz. unfold NumColumn.decodeFrame.
  rewrite decide_True by lia. cbv zeta. fold (frame_start k). rewrite <- Hz. fold (frame_count (stored_values c b) k).
  destruct (frame_start_spec k ltac:(lia)) as (H1 & H2 & H3). rewrite Z.div_small, Z.mod_small by lia.
  rewrite (rd_info _ _ Hr). opt. pose proof bits_range as Hb0.
  assert (0 <= frame_count (stored_values c b) k <= BULK_SIZE /\
          frame_start k + frame_count (stored_values c b) k <= NumColumn.nValues c) as [Hc1 Hc2].
  { unfold frame_count. rewrite Hz. lia. }
  case_decide as Hb.
  - rewrite (frame_eq _ k); [done|done|]. intros j v Hj Hv. apply zget_stored in Hv as [Hv ->].
    replace (NumColumn.payload c b + frame_start k * 8 + 8 * j) with (NumColumn.payload c b + (frame_start k + j) * 8) by lia.
    rewrite load_stored by lia. opt. unfold stored. by rewrite decide_True by lia.
  - destruct (decide (bits b <= 32)) as [H32|H32].
    + rewrite mask32_ones by lia. opt. destruct (rd_room _ _ Hr) as [[_ Hroom]|[E _]]; [|rewrite E in H32; done].
      unfold BULK_SIZE in *. rewrite (unpack128_fields _ _ _ _ (NumColumn.nValues c));
        [|apply Hr|done|lia|lia| |lia|lia].
      2: { apply Z.mod_divide in H3 as [m Hm]; [|lia]. rewrite Hm. replace (m * 128) with (m * 16 * 8) by lia. by apply Z.mod_mul. }
      opt. assert (forall j, 0 <= j < frame_count (stored_values c b) k ->
        (fields (NumColumn.mem c) (8 * NumColumn.payload c b + frame_start k * bits b) (bits b)
           (frame_count (stored_values c b) k)).[j]
        = Some (field (NumColumn.mem c) (8 * NumColumn.payload c b + (frame_start k + j) * bits b) (bits b))) as Hf.
      { intros j Hj. unfold fields. rewrite zget_fmap, zget_seqZ by lia. simpl. do 2 f_equal. lia. }
      repeat case_decide; (rewrite (frame_eq _ k); [done|done|]); intros j v Hj Hv; apply zget_stored in Hv as [Hv ->];
        rewrite Hf by done; opt; unfold stored; rewrite decide_False by lia; unfold recon.
      * destruct H as [-> ->]. by rewrite Z.mul_1_l, swrap_uwrap by lia.
      * rewrite H0, decide_False by tauto. by rewrite swrap_uwrap by lia.
      * rewrite reconstruct_recon by apply Hr. done.
    + rewrite mask64_ones by (unfold MAX_PACKED_BITS in *; lia). opt. rewrite (frame_eq _ k); [done|done|].
      intros j v Hj Hv. apply zget_stored in Hv as [Hv ->]. rewrite select_stored by lia. opt.
      rewrite reconstruct_recon by apply Hr. unfold stored. by rewrite decide_False by lia.
Qed.

Lemma readable_decodes : decodes c (stored_values c b).
Proof.
  pose proof (rd_count _ _ Hr) as Hn. pose proof zlen_stored as Hz. unfold NumColumnFormat.BLOCK_SIZE in *. constructor.
  - done.
  - lia.
  - apply Forall_fmap, Forall_forall. intros k _. unfold stored, compose, recon. case_decide; apply swrap_range; lia.
  - intros i v [Hi ->]%zget_stored. by apply valueAt_stored.
  - apply decodeFrame_stored.
Qed.

(** The line of an affine column with a divisor. *)
Lemma affine_stored first second k :
  NumColumn.withGcd c = true -> NumColumn.affineBlock c 0 = Some (Some (first, second)) ->
  0 <= k < NumColumn.nValues c -> u64 (stored c b k) = u64 (first + u64 (k * second)).
Proof.
  intros Hg Ha Hk. pose proof (rd_count _ _ Hr) as Hn. unfold NumColumnFormat.BLOCK_SIZE in Hn.
  unfold NumColumn.affineBlock in Ha. rewrite (rd_info _ _ Hr), bind_Some_l, Hg in Ha.
  apply (inj Some) in Ha. case_decide as Hd; [done|]. apply (inj Some) in Ha. apply pair_eq in Ha as [<- <-].
  destruct (decide (bits b = 0)) as [Hb|]; [|tauto].
  destruct (decide (Z.land (u64 (scaledSlope b)) (Z.shiftl 1 SLOPE_SHIFT - 1) = 0)) as [Hs|]; [|tauto]. clear Hd.
  pose proof (whole_slope _ Hs) as Hq. change SLOPE_SHIFT with 14 in *. rewrite Z.shiftr_div_pow2 by lia.
  set (q := scaledSlope b / 2 ^ 14) in *.
  unfold stored. rewrite decide_False by (rewrite Hb; done). rewrite Hb. unfold field. rewrite Z.land_0_r.
  unfold recon. rewrite uwrap_swrap by lia. rewrite <- uwrap_add_r, <- (uwrap_mul_r 64 (gcd b)).
  assert (u64 (if decide (scaledSlope b <> 0) then u64 (0 + u64 (slopeTerm k (scaledSlope b))) else 0) = u64 (k * q)) as ->.
  { unfold slopeTerm. rewrite (swrap_id 64 k) by (unfold is_s; simpl; lia). change SLOPE_SHIFT with 14.
    rewrite Z.shiftr_div_pow2 by lia. replace (k * scaledSlope b) with (k * q * 2 ^ 14) by lia.
    rewrite Z.div_mul by lia. case_decide as H0.
    - by rewrite Z.add_0_l, !uwrap_idemp, uwrap_swrap by lia.
    - assert (q = 0) as -> by lia. by rewrite Z.mul_0_r. }
  rewrite uwrap_mul_r, uwrap_add_r. rewrite (uwrap_add_r 64 (baseBits b) (k * _)), <- (uwrap_add_r 64 _ (k * _)), (uwrap_mul_r 64 k).
  replace (k * (u64 q * gcd b)) with (u64 q * (k * gcd b)) by lia. rewrite uwrap_mul_l, uwrap_add_r. f_equal. lia.
Qed.

End column.
End readable.

(** * Runs and documents *)

Section finding.

Lemma count_lt_cut l t n :
  0 <= n <= zlen l -> (forall i x, l.[i] = Some x -> i < n -> x < t) -> (forall i x, l.[i] = Some x -> n <= i -> t <= x) ->
  count_lt l t = n.
Proof.
  intros Hn Hlo Hhi. rewrite <- (take_drop (Z.to_nat n) l), count_lt_app, count_lt_all, count_lt_none.
  - unfold zlen in *. rewrite length_take. lia.
  - intros v [i Hi]%zget_elem. pose proof (zget_Some_range _ _ _ Hi). rewrite zget_drop in Hi by lia.
    apply (Hhi (n + i)); [done|lia].
  - intros v [i Hi]%zget_elem. pose proof (zget_Some_range _ _ _ Hi) as Hr. unfold zlen in Hr. rewrite length_take in Hr.
    rewrite zget_take in Hi by lia. apply (Hlo i); [done|lia].
Qed.

Lemma count_lt_iff l t i x : increasing l -> l.[i] = Some x -> x < t <-> i < count_lt l t.
Proof.
  intros Hl Hx. pose proof (count_lt_range l t) as Hr. split; intros H.
  - destruct (decide (count_lt l t <= i)) as [Hc|]; [|lia]. pose proof (zget_Some_range _ _ _ Hx).
    destruct (zget_in l (count_lt l t)) as [y Hy]; [lia|]. pose proof Hy as Hf. rewrite zget_count_lt in Hf by done.
    apply first_ge_Some in Hf as (_ & Hty & _); [|done]. destruct (decide (count_lt l t = i)) as [<-|].
    + rewrite Hx in Hy. injection Hy as ->. lia.
    + pose proof (increasing_zget l (count_lt l t) i y x Hl Hy Hx ltac:(lia)). lia.
  - destruct (decide (x < t)); [done|]. pose proof (count_lt_zget l i x Hl Hx) as E.
    pose proof (count_lt_mono l t x ltac:(lia)). lia.
Qed.

(** The run a document belongs to, and its version. *)
Definition run_at (rs : list VersionRun) (doc : Z) : Z := count_lt (firstDocId <$> rs) (doc + 1) - 1.
Definition birth_of (rs : list VersionRun) (doc : Z) : option Z := version <$> rs.[run_at rs doc].

Lemma run_at_unique rs k r doc :
  increasing (firstDocId <$> rs) -> rs.[k] = Some r -> firstDocId r <= doc ->
  (forall r', rs.[k + 1] = Some r' -> doc < firstDocId r') -> run_at rs doc = k.
Proof.
  intros Hi Hr Hlo Hhi. pose proof (zget_Some_range _ _ _ Hr) as Hk. unfold run_at.
  assert ((firstDocId <$> rs).[k] = Some (firstDocId r)) as Hs by (by rewrite zget_fmap, Hr).
  rewrite (count_lt_cut _ _ (k + 1)); [lia|zlen|..]; intros i x Hx Hik.
  - destruct (decide (i = k)) as [->|]; [rewrite Hs in Hx; injection Hx as <-; lia|].
    pose proof (increasing_zget _ i k x (firstDocId r) Hi Hx Hs ltac:(lia)). lia.
  - pose proof (zget_Some_range _ _ _ Hx) as Hb. rewrite zlen_fmap in Hb.
    destruct (zget_in rs (k + 1)) as [r' Hr']; [lia|]. pose proof (Hhi r' Hr') as H'.
    assert ((firstDocId <$> rs).[k + 1] = Some (firstDocId r')) as Hs' by (by rewrite zget_fmap, Hr').
    destruct (decide (i = k + 1)) as [->|]; [rewrite Hs' in Hx; injection Hx as <-; lia|].
    pose proof (increasing_zget _ (k + 1) i (firstDocId r') x Hi Hs' Hx ltac:(lia)). lia.
Qed.

Lemma birth_of_run rs k r doc :
  increasing (firstDocId <$> rs) -> rs.[k] = Some r -> firstDocId r <= doc ->
  (forall r', rs.[k + 1] = Some r' -> doc < firstDocId r') -> birth_of rs doc = Some (version r).
Proof. intros. unfold birth_of. erewrite run_at_unique by done. by rewrite H0. Qed.

Lemma find_spec starts start doc hint s0 :
  increasing starts -> zlen starts < 2 ^ 32 -> starts.[0] = Some s0 -> 0 <= s0 <= doc -> doc < 2 ^ 32 -> 0 <= hint ->
  (forall i x, starts.[i] = Some x -> start i = Some x) ->
  VersionBlock.find doc hint (zlen starts) start = Some (count_lt starts (doc + 1) - 1).
Proof.
  intros Hi Hz H0 Hs0 Hdoc Hh Hst. pose proof (zget_Some_range _ _ _ H0) as Hlen.
  pose proof (count_lt_range starts (doc + 1)) as Hn.
  assert (0 < count_lt starts (doc + 1)) as Hpos by (apply (count_lt_iff _ _ 0 s0 Hi H0); lia).
  assert (forall i, 0 <= i < zlen starts -> exists x, start i = Some x /\ (x < doc + 1 <-> i < count_lt starts (doc + 1))) as Hp.
  { intros i Hir. destruct (zget_in starts i Hir) as [x Hx]. exists x. split; [by apply Hst|].
    by apply count_lt_iff. }
  unfold VersionBlock.find. rewrite (uwrap_id 32 (zlen starts - 1)) by (unfold is_u; lia). cbv zeta.
  set (h := Z.min hint (zlen starts - 1)). set (n := count_lt starts (doc + 1)) in *.
  destruct (Hp h ltac:(lia)) as (s & Es & Hs). rewrite Es. opt. case_decide as Hd.
  - rewrite (gallopIndex_cut _ _ 0 (h + 1) (h - (n - 1))); [| |lia..].
    + opt. f_equal. rewrite (uwrap_id 32 (h - (n - 1))), uwrap_id by (unfold is_u; lia). lia.
    + split; [lia|]. split; intros i Hir.
      * rewrite (uwrap_id 32 i), (uwrap_id 32 (h - i)) by (unfold is_u; lia).
        destruct (Hp (h - i) ltac:(lia)) as (x & -> & Hx). opt. simpl. f_equal. apply bool_decide_eq_true_2. lia.
      * rewrite (uwrap_id 32 i), (uwrap_id 32 (h - i)) by (unfold is_u; lia).
        destruct (Hp (h - i) ltac:(lia)) as (x & -> & Hx). opt. simpl. f_equal. apply bool_decide_eq_false_2. lia.
  - rewrite (gallopIndex_cut _ _ h (zlen starts) n); [| |lia..].
    + opt. f_equal. rewrite (uwrap_id 32 n), uwrap_id by (unfold is_u; lia). lia.
    + split; [lia|]. split; intros i Hir; rewrite (uwrap_id 32 i) by (unfold is_u; lia);
        destruct (Hp i ltac:(lia)) as (x & -> & Hx); simpl; f_equal.
      * apply bool_decide_eq_true_2. lia.
      * apply bool_decide_eq_false_2. lia.
Qed.

End finding.

(** * Well-formed blocks *)

Section blocks.
(** A block that reads as the runs [rs]. *)
Record block_of (b : VersionBlock.block) (rs : list VersionRun) : Prop := {
  bo_count : VersionBlock.count_ b = zlen rs;
  bo_size : 0 < zlen rs <= VersionRuns.BLOCK_SIZE;
  bo_incr : increasing (firstDocId <$> rs);
  bo_starts : Forall (fun r => is_u 32 (firstDocId r)) rs;
  bo_unsigned : Forall (fun r => is_u 64 (version r)) rs;
  bo_header : exists h, VersionBlock.header b = Some h /\ firstDocId <$> rs.[0] = Some (hfirstDocId h) /\
    ((0 < hstep h /\ forall k r, rs.[k] = Some r -> firstDocId r = hfirstDocId h + k * hstep h) \/
     (hstep h = 0 /\ exists c, VersionBlock.starts b = Some c /\ decodes c (firstDocId <$> rs)));
  bo_versions : exists c o, VersionBlock.versions b = Some c /\ decodes c ((fun r => s64 (version r)) <$> rs) /\
    NumColumn.affineBlock c 0 = Some o /\
    forall first second k r, o = Some (first, second) -> rs.[k] = Some r ->
      version r = u64 (first + u64 (k * second)) }.

Section block.
Context (b : VersionBlock.block) (rs : list VersionRun) (Hb : block_of b rs).

Lemma start_u32 k r : rs.[k] = Some r -> is_u 32 (firstDocId r).
Proof. intros Hr. pose proof (bo_starts _ _ Hb) as H. rewrite Forall_forall in H. by eapply H, zget_elem_1. Qed.

Lemma version_u64 k r : rs.[k] = Some r -> is_u 64 (version r).
Proof. intros Hr. pose proof (bo_unsigned _ _ Hb) as H. rewrite Forall_forall in H. by eapply H, zget_elem_1. Qed.

Lemma start_spec k r : rs.[k] = Some r -> VersionBlock.start b k = Some (firstDocId r).
Proof.
  intros Hr. pose proof (start_u32 k r Hr) as Hu. unfold VersionBlock.start.
  destruct (bo_header _ _ Hb) as (h & Eh & _ & [[Hs Hk]|(Hs & c & Ec & Hc)]); rewrite Eh; opt.
  - rewrite decide_True by lia. rewrite uwrap_add_r, <- (Hk k r Hr). by rewrite uwrap_id.
  - rewrite decide_False by lia. rewrite Ec. opt.
    rewrite (dec_value _ _ Hc k (firstDocId r)) by (by rewrite zget_fmap, Hr). opt. by rewrite uwrap_id.
Qed.

Lemma version_spec k r : rs.[k] = Some r -> VersionBlock.version b k = Some (version r).
Proof.
  intros Hr. unfold VersionBlock.version. destruct (bo_versions _ _ Hb) as (c & o & Ec & Hc & _). rewrite Ec. opt.
  rewrite (dec_value _ _ Hc k (s64 (version r))) by (by rewrite zget_fmap, Hr). opt.
  rewrite uwrap_swrap, uwrap_id by (lia || by eapply version_u64). done.
Qed.

Lemma find_run_spec doc hint r0 :
  rs.[0] = Some r0 -> firstDocId r0 <= doc < 2 ^ 32 -> 0 <= hint -> VersionBlock.find_run b doc hint = Some (run_at rs doc).
Proof.
  intros H0 Hdoc Hh. pose proof (start_u32 0 r0 H0) as Hu0. unfold is_u in Hu0. unfold VersionBlock.find_run.
  pose proof (bo_size _ _ Hb) as Hsz. unfold VersionRuns.BLOCK_SIZE in Hsz.
  destruct (bo_header _ _ Hb) as (h & Eh & Hf & Hst). rewrite Eh. opt. rewrite H0 in Hf. injection Hf as Hf.
  destruct Hst as [[Hs Hk]|[Hs _]].
  - rewrite decide_True by lia. rewrite (bo_count _ _ Hb). rewrite !uwrap_id by (unfold is_u; lia). f_equal. symmetry.
    set (d := doc - hfirstDocId h). pose proof (Z.div_mod d (hstep h) ltac:(lia)) as Hd.
    pose proof (Z.mod_pos_bound d (hstep h) ltac:(lia)). pose proof (Z.div_pos d (hstep h) ltac:(unfold d; lia) Hs).
    set (k := Z.min (d / hstep h) (zlen rs - 1)). destruct (zget_in rs k) as [r Hr]; [lia|].
    apply (run_at_unique rs k r); [apply Hb|done|..].
    + rewrite (Hk k r Hr). unfold d in *. nia.
    + intros r' Hr'. pose proof (zget_Some_range _ _ _ Hr'). rewrite (Hk _ _ Hr').
      assert (k = d / hstep h) by lia. unfold d in *. nia.
  - rewrite decide_False by lia. rewrite (bo_count _ _ Hb), <- (zlen_fmap firstDocId rs).
    apply (find_spec _ _ _ _ (firstDocId r0)); [apply Hb|zlen|by rewrite zget_fmap, H0|lia|lia|done|].
    intros i x Hx. rewrite zget_fmap in Hx. destruct (rs.[i]) as [r|] eqn:Er; [|done]. injection Hx as <-. by apply start_spec.
Qed.

End block.

(** ** The affine prefix *)

Definition affine_ok (p : VersionAffinePrefix.prefix) (rs : list VersionRun) : Prop :=
  0 <= VersionAffinePrefix.count p <= zlen rs /\
  forall k, 0 <= k < VersionAffinePrefix.count p -> rs.[k] = Some (Run k (VersionAffinePrefix.birth p k)).

Lemma affine_fresh rs : affine_ok VersionAffinePrefix.fresh rs.
Proof. split; simpl; [pose proof (zlen_nonneg rs)|]; lia. Qed.

Lemma affine_append b bs p rs firstRun :
  block_of b bs -> affine_ok p rs -> zlen rs < 2 ^ 32 -> 0 <= firstRun ->
  (forall k r, bs.[k] = Some r -> rs.[firstRun + k] = Some r) ->
  exists p', VersionAffinePrefix.append b firstRun p = Some p' /\ affine_ok p' rs.
Proof.
  intros Hb [Hp1 Hp2] Hz Hf Hin. unfold VersionAffinePrefix.append.
  destruct (bo_header _ _ Hb) as (h & Eh & H0 & Hst). rewrite Eh. opt.
  destruct (decide _) as [|Hd]; [by exists p|].
  assert (VersionAffinePrefix.count p = firstRun) as Hcnt by lia.
  destruct (bo_versions _ _ Hb) as (c & o & Ec & Hc & Ea & Haff). rewrite Ec. opt. rewrite Ea. opt.
  destruct o as [[first second]|]; [|by exists p].
  pose proof (bo_size _ _ Hb) as Hsz. unfold VersionBlock.size. rewrite (bo_count _ _ Hb).
  destruct (zget_in bs (zlen bs - 1)) as [rl Hrl]; [lia|].
  pose proof (zget_Some_range _ _ _ (Hin _ _ Hrl)) as Hlast.
  rewrite !(uwrap_id 32 (VersionAffinePrefix.count p + _)) by (unfold is_u; lia).
  assert (forall b0 s0, (0 < firstRun -> b0 = VersionAffinePrefix.base p /\ s0 = VersionAffinePrefix.step p) ->
    u64 first = u64 (b0 + u64 (firstRun * s0)) -> s0 = second ->
    affine_ok (VersionAffinePrefix.Prefix b0 s0 (VersionAffinePrefix.count p + zlen bs)) rs) as Hok.
  { intros b0 s0 Hold Hfirst <-. split; cbn [VersionAffinePrefix.count]; [lia|]. intros k Hk.
    destruct (decide (k < firstRun)).
    - rewrite Hp2 by lia. unfold VersionAffinePrefix.birth. simpl. destruct Hold as [-> ->]; [lia|done].
    - destruct (zget_in bs (k - firstRun)) as [r Hr]; [lia|]. pose proof (Hin _ _ Hr) as Hr'.
      replace (firstRun + (k - firstRun)) with k in Hr' by lia. rewrite Hr'. f_equal. destruct r as [d w].
      destruct Hst as [[_ Hk']|[Hs0 _]]; [|lia]. pose proof (Hk' _ _ Hr) as E1. simpl in E1.
      pose proof (Haff first s0 _ _ eq_refl Hr) as E2. simpl in E2. f_equal; [lia|].
      rewrite E2, <- uwrap_add_l, Hfirst. unfold VersionAffinePrefix.birth. simpl.
      rewrite !uwrap_add_r, !uwrap_add_l. f_equal. lia. }
  destruct (decide (VersionAffinePrefix.count p = 0)) as [E0|E0].
  - eexists. split; [done|]. apply Hok; [lia| |done].
    replace firstRun with 0 by lia. change (u64 (0 * second)) with 0. by rewrite Z.add_0_r.
  - destruct (decide _) as [|Hd2]; [by exists p|]. eexists. split; [done|]. apply Hok; [done| |lia].
    rewrite <- Hcnt. destruct (decide (u64 (VersionAffinePrefix.base p + u64 (VersionAffinePrefix.count p * VersionAffinePrefix.step p)) = first)); [|tauto].
    subst first. by rewrite uwrap_idemp by lia.
Qed.

End blocks.

(** * Well-formed files *)

Section files.
Import VersionRuns.

Lemma zget_chunk {A} n (l : list A) i j : 0 < n -> 0 <= i -> 0 <= j < n -> (chunk n l i).[j] = l.[i * n + j].
Proof. intros. unfold chunk. by rewrite zget_take_drop by lia. Qed.

Lemma zlen_chunk {A} n (l : list A) i :
  0 <= n -> 0 <= i -> i * n <= zlen l -> zlen (chunk n l i) = Z.min n (zlen l - i * n).
Proof. intros. unfold chunk, zlen in *. rewrite length_take, length_drop. lia. Qed.

(** A file that reads as the runs [rs]. *)
Record file_of (v : runs) (rs : list VersionRun) : Prop := {
  fo_count : count_ v = zlen rs;
  fo_max : 0 < zlen rs <= maxDoc_ v;
  fo_maxDoc : maxDoc_ v < 2 ^ 31;
  fo_incr : increasing (firstDocId <$> rs);
  fo_first : firstDocId <$> rs.[0] = Some 0;
  fo_bound : Forall (fun r => 0 <= firstDocId r < maxDoc_ v) rs;
  fo_block i : 0 <= i < numBlocks v -> exists b, block v i = Some b /\ block_of b (chunk BLOCK_SIZE rs i) /\
    dir_firstDocId v i = firstDocId <$> rs.[i * BLOCK_SIZE];
  fo_dense : dense v = true -> forall k r, rs.[k] = Some r -> firstDocId r = k;
  fo_affine : affine_ok (affine v) rs }.

Section file.
Context (v : runs) (rs : list VersionRun) (Hv : file_of v rs).

Lemma numBlocks_div : numBlocks v = (zlen rs + 255) / 256.
Proof.
  unfold numBlocks, BLOCK_SIZE. rewrite (fo_count _ _ Hv). pose proof (fo_max _ _ Hv). pose proof (fo_maxDoc _ _ Hv).
  rewrite uwrap_id by (unfold is_u; lia). f_equal. lia.
Qed.

Lemma block_index k : 0 <= k < zlen rs -> 0 <= k / 256 < numBlocks v.
Proof.
  intros Hk. rewrite numBlocks_div. split; [apply Z.div_pos; lia|]. apply Z.div_lt_upper_bound; [lia|].
  pose proof (Z.div_mod (zlen rs + 255) 256 ltac:(lia)). pose proof (Z.mod_pos_bound (zlen rs + 255) 256 ltac:(lia)). lia.
Qed.

Lemma numBlocks_bound i : 0 <= i < numBlocks v -> i * 256 < zlen rs.
Proof.
  rewrite numBlocks_div. intros Hi.
  pose proof (Z.div_mod (zlen rs + 255) 256 ltac:(lia)). pose proof (Z.mod_pos_bound (zlen rs + 255) 256 ltac:(lia)). lia.
Qed.

(** The block of a run. *)
Lemma run_block k r : rs.[k] = Some r ->
  exists b, block v (k / 256) = Some b /\ block_of b (chunk BLOCK_SIZE rs (k / 256)) /\
    (chunk BLOCK_SIZE rs (k / 256)).[k `mod` 256] = Some r.
Proof.
  intros Hr. pose proof (zget_Some_range _ _ _ Hr) as Hk.
  destruct (fo_block _ _ Hv (k / 256) (block_index k Hk)) as (b & Eb & Hb & _). exists b. split; [done|]. split; [done|].
  pose proof (Z.mod_pos_bound k 256 ltac:(lia)). pose proof (Z.div_mod k 256 ltac:(lia)).
  unfold BLOCK_SIZE. rewrite zget_chunk by (lia || apply Z.div_pos; lia). rewrite <- Hr. f_equal. lia.
Qed.

Lemma run_spec k r : rs.[k] = Some r -> run v k = Some r.
Proof.
  intros Hr. pose proof (zget_Some_range _ _ _ Hr) as Hk. pose proof (fo_max _ _ Hv). pose proof (fo_maxDoc _ _ Hv).
  unfold run, BLOCK_SIZE. rewrite uwrap_id by (unfold is_u; lia). destruct (run_block k r Hr) as (b & Eb & Hb & Hin).
  rewrite Eb. opt. rewrite (start_spec _ _ Hb _ _ Hin). opt. rewrite (version_spec _ _ Hb _ _ Hin). by destruct r.
Qed.

Lemma start_bound k r : rs.[k] = Some r -> 0 <= firstDocId r < maxDoc_ v.
Proof. intros Hr. pose proof (fo_bound _ _ Hv) as H. rewrite Forall_forall in H. by eapply H, zget_elem_1. Qed.

Lemma first_zero r : rs.[0] = Some r -> firstDocId r = 0.
Proof. intros E. pose proof (fo_first _ _ Hv) as H. rewrite E in H. by injection H. Qed.

(** ** The run of a document *)

Lemma run_at_spec doc : 0 <= doc -> 0 <= run_at rs doc < zlen rs /\
  forall k r, rs.[k] = Some r -> (firstDocId r <= doc <-> k <= run_at rs doc).
Proof.
  intros Hd. assert (forall k r, rs.[k] = Some r -> (firstDocId r <= doc <-> k <= run_at rs doc)) as Hall.
  { intros k r Hr. assert ((firstDocId <$> rs).[k] = Some (firstDocId r)) as Hs by (by rewrite zget_fmap, Hr).
    pose proof (count_lt_iff _ (doc + 1) _ _ (fo_incr _ _ Hv) Hs). unfold run_at. lia. }
  split; [|done]. pose proof (count_lt_range (firstDocId <$> rs) (doc + 1)) as Hc. rewrite zlen_fmap in Hc.
  pose proof (fo_max _ _ Hv). destruct (zget_in rs 0) as [r0 Hr0]; [lia|].
  pose proof (first_zero r0 Hr0). pose proof (proj1 (Hall 0 r0 Hr0)). unfold run_at in *. lia.
Qed.

Lemma block_find doc hint : 0 <= doc < 2 ^ 32 -> 0 <= hint ->
  VersionBlock.find doc hint (numBlocks v) (dir_firstDocId v) = Some (run_at rs doc / 256).
Proof.
  intros Hd Hh. destruct (run_at_spec doc) as [Hk Hall]; [lia|]. set (k := run_at rs doc) in *.
  pose proof (block_index k Hk) as Hb. pose proof (fo_max _ _ Hv). pose proof (fo_maxDoc _ _ Hv).
  set (firsts := (fun i => default 0 (firstDocId <$> rs.[i * 256])) <$> seqZ 0 (numBlocks v)).
  assert (zlen firsts = numBlocks v) as Hz by (unfold firsts; zlen).
  assert (forall i x, firsts.[i] = Some x -> exists r, rs.[i * 256] = Some r /\ x = firstDocId r /\ 0 <= i) as Hf.
  { intros i x Hx. pose proof (zget_Some_range _ _ _ Hx) as Hi. rewrite Hz in Hi. unfold firsts in Hx.
    rewrite zget_fmap, zget_seqZ in Hx by lia. destruct (zget_in rs (i * 256)) as [r Hr].
    { pose proof (numBlocks_bound i Hi). lia. }
    exists r. rewrite Z.add_0_l in Hx. simpl in Hx. rewrite Hr in Hx. injection Hx as <-. split; [done|]. split; [done|lia]. }
  pose proof (Z.div_mod k 256 ltac:(lia)) as Hdm. pose proof (Z.mod_pos_bound k 256 ltac:(lia)) as Hm.
  rewrite <- Hz. rewrite (find_spec firsts _ _ _ 0).
  - f_equal. rewrite (count_lt_cut _ _ (k / 256 + 1)); [lia|lia|..]; intros i x (r & Hr & -> & Hi0)%Hf Hi;
      pose proof (Hall _ _ Hr); lia.
  - apply increasing_intro. intros i j x y (r & Hr & -> & Hi0)%Hf (r' & Hr' & -> & _)%Hf Hij.
    eapply (increasing_zget _ (i * 256) (j * 256) _ _ (fo_incr _ _ Hv)); [by rewrite zget_fmap, Hr|by rewrite zget_fmap, Hr'|lia].
  - rewrite Hz, numBlocks_div. apply Z.div_lt_upper_bound; lia.
  - destruct (zget_in firsts 0) as [x Hx]; [lia|]. rewrite Hx. destruct (Hf _ _ Hx) as (r & Hr & -> & _).
    by rewrite (first_zero r Hr).
  - lia.
  - lia.
  - done.
  - intros i x Hx. destruct (Hf _ _ Hx) as (r & Hr & -> & Hi). pose proof (zget_Some_range _ _ _ Hx) as Hr2. rewrite Hz in Hr2.
    destruct (fo_block _ _ Hv i Hr2) as (b & _ & _ & E). unfold BLOCK_SIZE in E. by rewrite E, Hr.
Qed.

(** ** The cursor *)

Lemma fmap_Some_l {A B} (f : A -> B) x : f <$> Some x = Some (f x).
Proof. done. Qed.

Record cursor_inv (c : Cursor.cursor) : Prop := {
  ci_hints : 0 <= Cursor.blockIndex c /\ 0 <= Cursor.runIndex c;
  ci_cached doc : Cursor.first c <= doc < Cursor.end_ c -> birth_of rs doc = Some (Cursor.version c);
  ci_frame : Cursor.frameBlock c <> Cursor.UINT32_MAX -> forall k, Cursor.frameStart c <= k < Cursor.frameEnd c ->
    (Cursor.values c).[k - Cursor.frameStart c]
    = (fun r => s64 (version r)) <$> rs.[Cursor.frameBlock c * 256 + k];
  ci_decoded_pos : 0 <= Cursor.decodedFirst c < 2 ^ 32;
  ci_decoded d : Cursor.decodedFirst c <= d < Cursor.decodedEnd c ->
    (Cursor.values c).[d - Cursor.decodedFirst c] = (fun r => s64 (version r)) <$> rs.[d] }.

Lemma fresh_inv : cursor_inv Cursor.fresh.
Proof. constructor; simpl; [lia..|done|lia|lia]. Qed.

(** A frame of a column of a block. *)
Lemma column_frame (f : VersionRun -> Z) col i k :
  decodes col (f <$> chunk 256 rs i) -> 0 <= i -> zlen (chunk 256 rs i) <= 256 -> 0 <= k < zlen (chunk 256 rs i) ->
  exists vs, NumColumn.decodeFrame col k = Some (frame_start k, vs) /\
    0 <= frame_start k <= k /\ k < frame_start k + zlen vs <= 256 /\
    zlen vs = Z.min 128 (zlen (chunk 256 rs i) - frame_start k) /\
    (forall j, 0 <= j < zlen vs -> vs.[j] = f <$> rs.[i * 256 + (frame_start k + j)]).
Proof.
  intros Hc Hi Hsz Hk. set (ws := f <$> chunk 256 rs i) in *.
  assert (zlen ws = zlen (chunk 256 rs i)) as Hw by (unfold ws; zlen).
  exists (frame ws k). split; [apply (dec_frame _ _ Hc); lia|].
  destruct (frame_start_spec k ltac:(lia)) as (H1 & H2 & _). rewrite zlen_frame by lia.
  unfold frame_count, NumColumnFormat.BULK_SIZE in *. split; [lia|]. split; [lia|]. split; [lia|]. intros j Hj.
  rewrite zget_frame by (lia || unfold frame_count, NumColumnFormat.BULK_SIZE; lia).
  unfold ws. rewrite zget_fmap. by rewrite zget_chunk by lia.
Qed.

Lemma version_frame b i k :
  block_of b (chunk BLOCK_SIZE rs i) -> 0 <= i -> 0 <= k < zlen (chunk BLOCK_SIZE rs i) ->
  exists col vs, VersionBlock.versions b = Some col /\ NumColumn.decodeFrame col k = Some (frame_start k, vs) /\
    0 <= frame_start k <= k /\ k < frame_start k + zlen vs <= 256 /\
    zlen vs = Z.min 128 (zlen (chunk BLOCK_SIZE rs i) - frame_start k) /\
    (forall j, 0 <= j < zlen vs -> vs.[j] = (fun r => s64 (version r)) <$> rs.[i * 256 + (frame_start k + j)]).
Proof.
  intros Hb Hi Hk. destruct (bo_versions _ _ Hb) as (col & o & Ec & Hc & _). exists col.
  pose proof (bo_size _ _ Hb) as Hsz. unfold BLOCK_SIZE in *.
  destruct (column_frame _ col i k Hc Hi ltac:(lia) Hk) as (vs & H). by exists vs.
Qed.

Lemma dense_birth doc r : dense v = true -> rs.[doc] = Some r -> birth_of rs doc = Some (version r).
Proof.
  intros Hd Hr. pose proof (fo_dense _ _ Hv Hd) as Hk. eapply birth_of_run; [apply Hv|done|rewrite (Hk _ _ Hr); lia|].
  intros r' Hr'. rewrite (Hk _ _ Hr'). lia.
Qed.

Lemma version_range k r : rs.[k] = Some r -> is_u 64 (version r).
Proof. intros Hr. destruct (run_block k r Hr) as (b & _ & Hb & Hin). by eapply version_u64. Qed.

Lemma lookupDense_spec doc c : cursor_inv c -> dense v = true -> 0 <= doc < zlen rs ->
  exists n c', Cursor.lookupDense v doc c = Some (n, c') /\ birth_of rs doc = Some n /\ cursor_inv c'.
Proof.
  intros Hc Hd Hdoc. destruct (zget_in rs doc Hdoc) as [r Hr]. rewrite (dense_birth doc r Hd Hr).
  pose proof (version_range _ _ Hr) as Hu. pose proof (fo_max _ _ Hv). pose proof (fo_maxDoc _ _ Hv).
  unfold Cursor.lookupDense, BLOCK_SIZE. cbv zeta. case_decide as Hn.
  - destruct (run_block doc r Hr) as (b & Eb & Hb & Hin). rewrite Eb. opt.
    pose proof (Z.div_pos doc 256 ltac:(lia) ltac:(lia)) as Hq. pose proof (Z.div_mod doc 256 ltac:(lia)) as Hdm.
    pose proof (zget_Some_range _ _ _ Hin) as Hk.
    destruct (version_frame b (doc / 256) (doc `mod` 256) Hb Hq Hk) as (col & vs & Ec & Ef & Hf1 & Hf2 & _ & Hf3).
    rewrite Ec. opt. rewrite Ef. opt. cbn [Cursor.values Cursor.decodedFirst].
    set (fs := frame_start (doc `mod` 256)) in *.
    rewrite (uwrap_id 32 (doc / 256 * 256)), (uwrap_id 32 fs) by (unfold is_u; lia).
    rewrite (uwrap_id 32 (_ + fs)) by (unfold is_u; lia). rewrite (uwrap_id 32 (_ + zlen vs)) by (unfold is_u; lia).
    rewrite (uwrap_id 32 (doc - _)) by (unfold is_u; lia). rewrite Hf3 by lia.
    replace (doc / 256 * 256 + (fs + (doc - (doc / 256 * 256 + fs)))) with doc by lia. rewrite Hr, fmap_Some_l. opt.
    rewrite uwrap_swrap, uwrap_id by (lia || done). eexists _, _. split; [done|]. split; [done|].
    constructor; cbn; [apply Hc|apply Hc|done|lia|]. intros d Hd'. rewrite Hf3 by lia. do 2 f_equal. lia.
  - rewrite bind_Some_l. pose proof (ci_decoded_pos _ Hc). rewrite (uwrap_id 32 (doc - _)) by (unfold is_u; lia).
    rewrite (ci_decoded _ Hc) by lia. rewrite Hr, fmap_Some_l. opt. rewrite uwrap_swrap, uwrap_id by (lia || done).
    eexists _, _. done.
Qed.

Lemma chunk_run_at doc : 0 <= doc -> run_at (chunk BLOCK_SIZE rs (run_at rs doc / 256)) doc = run_at rs doc `mod` 256.
Proof.
  intros Hd. destruct (run_at_spec doc Hd) as [Hk Hall]. set (k := run_at rs doc) in *.
  destruct (zget_in rs k Hk) as [r Hr]. destruct (run_block k r Hr) as (b & _ & Hb & Hin).
  apply (run_at_unique _ _ r); [apply Hb|done|by apply (Hall k r Hr)|]. intros r' Hr'.
  pose proof (zget_Some_range _ _ _ Hr') as Hb2. pose proof (bo_size _ _ Hb). unfold BLOCK_SIZE in *.
  pose proof (Z.div_mod k 256 ltac:(lia)). pose proof (Z.div_pos k 256 ltac:(lia) ltac:(lia)).
  rewrite zget_chunk in Hr' by lia. pose proof (Hall _ _ Hr'). lia.
Qed.

(** The block the cursor goes to. *)
Lemma lookup_block doc hint : 0 <= doc < 2 ^ 32 -> 0 <= hint -> (dense v = true -> zlen rs <= doc) ->
  (if dense v then Some (Z.min (doc / 256) (u32 (numBlocks v - 1)))
   else VersionBlock.find doc hint (numBlocks v) (dir_firstDocId v)) = Some (run_at rs doc / 256).
Proof.
  intros Hd Hh Hden. destruct (dense v) eqn:Ed; [|by apply block_find]. specialize (Hden eq_refl).
  pose proof (fo_max _ _ Hv). pose proof (fo_maxDoc _ _ Hv). pose proof numBlocks_div as Hnb.
  destruct (zget_in rs (zlen rs - 1)) as [r Hr]; [lia|].
  assert (run_at rs doc = zlen rs - 1) as ->.
  { apply (run_at_unique _ _ r); [apply Hv|done|rewrite (fo_dense _ _ Hv Ed _ _ Hr); lia|].
    intros r' Hr'. pose proof (zget_Some_range _ _ _ Hr'). lia. }
  pose proof (Z.div_mod (zlen rs - 1) 256 ltac:(lia)) as H1. pose proof (Z.mod_pos_bound (zlen rs - 1) 256 ltac:(lia)).
  pose proof (Z.div_pos (zlen rs - 1) 256 ltac:(lia) ltac:(lia)).
  assert (numBlocks v = (zlen rs - 1) / 256 + 1) as E.
  { rewrite Hnb. symmetry. apply (Z.div_unique_pos _ _ _ ((zlen rs - 1) `mod` 256)); lia. }
  rewrite E. rewrite uwrap_id by (unfold is_u; lia). f_equal.
  pose proof (Z.div_le_mono (zlen rs - 1) doc 256 ltac:(lia) ltac:(lia)). lia.
Qed.

(** The documents of the run of a document. *)
Lemma lookup_end b doc r :
  0 <= doc -> block v (run_at rs doc / 256) = Some b -> block_of b (chunk BLOCK_SIZE rs (run_at rs doc / 256)) ->
  rs.[run_at rs doc] = Some r ->
  exists e, (if decide (u32 (run_at rs doc `mod` 256 + 1) < VersionBlock.size b) then VersionBlock.start b (u32 (run_at rs doc `mod` 256 + 1))
     else if decide (u32 (run_at rs doc / 256 + 1) < numBlocks v) then dir_firstDocId v (u32 (run_at rs doc / 256 + 1))
     else Some (u32 (maxDoc_ v))) = Some e /\
    forall d, firstDocId r <= d < e -> birth_of rs d = Some (version r).
Proof.
  intros Hd Eb Hb Hr. destruct (run_at_spec doc Hd) as [Hk Hall]. set (k := run_at rs doc) in *.
  pose proof (fo_max _ _ Hv). pose proof (fo_maxDoc _ _ Hv). pose proof (bo_size _ _ Hb) as Hsz.
  pose proof (Z.div_mod k 256 ltac:(lia)). pose proof (Z.mod_pos_bound k 256 ltac:(lia)).
  pose proof (Z.div_pos k 256 ltac:(lia) ltac:(lia)). pose proof numBlocks_div as Hnb.
  pose proof (zlen_chunk 256 rs (k / 256)) as Hzc. unfold BLOCK_SIZE, VersionBlock.size in *. rewrite (bo_count _ _ Hb).
  rewrite (uwrap_id 32 (k `mod` 256 + 1)), (uwrap_id 32 (k / 256 + 1)) by (unfold is_u; lia).
  assert (forall e, (forall r', rs.[k + 1] = Some r' -> e <= firstDocId r') ->
    forall d, firstDocId r <= d < e -> birth_of rs d = Some (version r)) as Hend.
  { intros e He d Hde. eapply birth_of_run; [apply Hv|exact Hr|lia|]. intros r' Hr'. pose proof (He r' Hr'). lia. }
  destruct (decide (_ < zlen _)) as [Hlt|Hge].
  - destruct (zget_in (chunk 256 rs (k / 256)) (k `mod` 256 + 1)) as [r' Hr']; [lia|].
    rewrite (start_spec _ _ Hb _ _ Hr'). eexists. split; [done|]. apply Hend. intros r'' Hr''.
    rewrite zget_chunk in Hr' by lia. replace (k / 256 * 256 + (k `mod` 256 + 1)) with (k + 1) in Hr' by lia.
    rewrite Hr'' in Hr'. injection Hr' as ->. lia.
  - destruct (decide (_ < numBlocks v)) as [Hlt|Hge2].
    + pose proof (numBlocks_bound (k / 256 + 1) ltac:(lia)).
      destruct (fo_block _ _ Hv (k / 256 + 1)) as (_ & _ & _ & E); [lia|]. unfold BLOCK_SIZE in E. rewrite E.
      replace ((k / 256 + 1) * 256) with (k + 1) by lia. destruct (zget_in rs (k + 1)) as [r' Hr']; [lia|]. rewrite Hr'.
      eexists. split; [done|]. apply Hend. intros r'' Hr''. rewrite Hr'' in Hr'. injection Hr' as ->. lia.
    + eexists. split; [done|]. apply Hend. intros r' Hr'%zget_Some_range.
      pose proof (Z.div_mod (zlen rs + 255) 256 ltac:(lia)). pose proof (Z.mod_pos_bound (zlen rs + 255) 256 ltac:(lia)). lia.
Qed.

Lemma lookupRun_spec doc c : cursor_inv c -> 0 <= doc < maxDoc_ v -> (dense v = true -> zlen rs <= doc) ->
  exists n c', Cursor.lookupRun v doc c = Some (n, c') /\ birth_of rs doc = Some n /\ cursor_inv c'.
Proof.
  intros Hc Hd Hden. pose proof (fo_maxDoc _ _ Hv). destruct (run_at_spec doc) as [Hk Hall]; [lia|].
  destruct (ci_hints _ Hc) as [Hh1 Hh2].
  unfold Cursor.lookupRun. unfold BLOCK_SIZE at 1. rewrite lookup_block by (done || lia). opt.
  destruct (zget_in rs _ Hk) as [r Hr]. destruct (run_block _ r Hr) as (b & Eb & Hb & Hin). rewrite Eb. opt.
  pose proof (Z.div_mod (run_at rs doc) 256 ltac:(lia)) as Hdm. pose proof (Z.mod_pos_bound (run_at rs doc) 256 ltac:(lia)).
  pose proof (Z.div_pos (run_at rs doc) 256 ltac:(lia) ltac:(lia)) as Hq.
  destruct (zget_in (chunk BLOCK_SIZE rs (run_at rs doc / 256)) 0) as [r0 Hr0]; [pose proof (bo_size _ _ Hb); lia|].
  rewrite (find_run_spec _ _ Hb doc _ r0); [|done| |done].
  2: { unfold BLOCK_SIZE in Hr0. rewrite zget_chunk in Hr0 by lia. pose proof (Hall _ _ Hr0). lia. }
  rewrite bind_Some_l, chunk_run_at by lia. rewrite (start_spec _ _ Hb _ _ Hin). opt.
  destruct (lookup_end b doc r) as (e & Ee & Hend); [lia|done..|]. rewrite Ee. opt. clear Ee.
  assert (birth_of rs doc = Some (version r)) as Hbirth by (unfold birth_of; by rewrite Hr).
  pose proof (version_range _ _ Hr) as Hu. rewrite Hbirth. pose proof (block_index _ Hk) as Hbi. rewrite numBlocks_div in Hbi.
  pose proof (Z.div_lt_upper_bound (zlen rs + 255) 256 (2 ^ 31)). pose proof (fo_max _ _ Hv).
  set (k := run_at rs doc) in *. case_decide as Hf.
  - destruct (version_frame b (k / 256) (k `mod` 256) Hb Hq) as (col & vs & Ec & Ef & Hf1 & Hf2 & _ & Hf3).
    { by apply zget_Some_range in Hin. }
    rewrite Ec. opt. rewrite Ef. opt. cbn [Cursor.values Cursor.frameStart]. rewrite Hf3 by lia.
    replace (k / 256 * 256 + (_ + (_ - _))) with k by lia. rewrite Hr, fmap_Some_l. opt.
    rewrite uwrap_swrap, uwrap_id by (lia || done). eexists _, _. split; [done|]. split; [done|].
    constructor; cbn; [lia|done| |apply Hc|pose proof (ci_decoded_pos _ Hc); lia].
    intros _ j Hj. rewrite Hf3 by lia. do 2 f_equal. lia.
  - rewrite bind_Some_l. cbn [Cursor.values Cursor.frameStart]. destruct (decide (Cursor.frameBlock c = k / 256)) as [Efb|]; [|tauto].
    rewrite (ci_frame _ Hc); [|unfold Cursor.UINT32_MAX; lia|lia]. rewrite Efb.
    replace (k / 256 * 256 + k `mod` 256) with k by lia. rewrite Hr, fmap_Some_l. opt.
    rewrite uwrap_swrap, uwrap_id by (lia || done). eexists _, _. split; [done|]. split; [done|].
    constructor; cbn; [lia|done|rewrite <- Efb; apply Hc|apply Hc|apply Hc].
Qed.

(** Every lookup: the version of the document's run, or the error for a document outside. *)
Lemma birth_spec docId c : is_s 32 docId -> cursor_inv c ->
  exists o c', Cursor.birth v docId c = (o, c') /\ cursor_inv c' /\
    (if decide (0 <= docId < maxDoc_ v) then exists n, o = Ret n /\ birth_of rs docId = Some n
     else o = Throw "Document has no request birth version").
Proof.
  intros Hs Hc. pose proof (fo_maxDoc _ _ Hv). unfold Cursor.birth. destruct (decide (0 <= docId < maxDoc_ v)) as [Hd|Hd].
  2: { rewrite decide_True by lia. by eexists _, _. }
  rewrite (decide_False (P := docId < 0 \/ _)) by lia. cbv zeta. rewrite uwrap_id by (unfold is_u; lia). case_decide as Ha.
  - eexists _, _. split; [done|]. split; [done|]. eexists. split; [done|].
    destruct (fo_affine _ _ Hv) as [Ha1 Ha2]. pose proof (Ha2 docId ltac:(lia)) as Hr.
    apply (birth_of_run rs docId (Run docId (VersionAffinePrefix.birth (affine v) docId))); [apply Hv|exact Hr|simpl; lia|].
    intros r' Hr'. pose proof (increasing_zget _ docId (docId + 1) docId (firstDocId r') (fo_incr _ _ Hv)) as Hlt.
    rewrite !zget_fmap, Hr, Hr' in Hlt. apply Hlt; (done || lia).
  - unfold mbind, SM_bind, get. case_decide as Hcache.
    + eexists _, _. split; [done|]. split; [done|]. eexists. split; [done|]. apply (ci_cached _ Hc). lia.
    + assert (exists n c', Cursor.lookupBirth v docId c = Some (n, c') /\ birth_of rs docId = Some n /\ cursor_inv c') as (n & c' & E & Hn & Hc').
      { unfold Cursor.lookupBirth. rewrite (fo_count _ _ Hv). case_decide as Hl.
        - apply lookupDense_spec; [done|tauto|lia].
        - apply lookupRun_spec; [done|done|]. intros Hden. destruct (decide (docId < zlen rs)); [tauto|lia]. }
      rewrite E. eexists _, _. split; [done|]. split; [done|]. by exists n.
Qed.

(** ** Iteration *)

(** Between two frames the arrays hold the frame of the next run. *)
Definition iterator_inv (it : Iterator.iterator) : Prop :=
  0 <= Iterator.index it <= zlen rs /\
  (Iterator.index it `mod` 128 <> 0 -> forall k r, rs.[k] = Some r -> k / 128 = Iterator.index it / 128 ->
     (Iterator.versions it).[k `mod` 128] = Some (s64 (version r)) /\
     forall b h, block v (k / 256) = Some b -> VersionBlock.header b = Some h -> hstep h = 0 ->
       (Iterator.starts it).[k `mod` 128] = Some (firstDocId r)).

Lemma fresh_iterator_inv : iterator_inv Iterator.fresh.
Proof. split; simpl; [pose proof (zlen_nonneg rs); lia|done]. Qed.

Lemma mod_256_128 k : (k `mod` 256) `mod` 128 = k `mod` 128.
Proof. apply Z.mod_mod_divide. by exists 2. Qed.

(** The place of a run of the frame of run [i], which starts one. *)
Lemma frame_place i k : 0 <= i -> i `mod` 128 = 0 -> k / 128 = i / 128 ->
  frame_start (i `mod` 256) = i `mod` 256 /\ k / 256 = i / 256 /\
  i / 256 * 256 + (i `mod` 256 + k `mod` 128) = k /\ 0 <= k `mod` 128 < 128 /\ k `mod` 256 = i `mod` 256 + k `mod` 128.
Proof.
  intros Hi H0 Hk. pose proof (mod_256_128 i) as Hm. unfold frame_start, NumColumnFormat.BULK_SIZE.
  pose proof (Z.div_mod i 128 ltac:(lia)). pose proof (Z.div_mod k 128 ltac:(lia)). pose proof (Z.div_mod i 256 ltac:(lia)).
  pose proof (Z.div_mod k 256 ltac:(lia)). pose proof (Z.mod_pos_bound k 128 ltac:(lia)). pose proof (Z.mod_pos_bound k 256 ltac:(lia)).
  pose proof (Z.mod_pos_bound i 256 ltac:(lia)). pose proof (Z.div_mod (i `mod` 256) 128 ltac:(lia)).
  pose proof (Z.div_mod (k `mod` 256) 128 ltac:(lia)). pose proof (mod_256_128 k). lia.
Qed.

Section step.
Context (i : Z) (r : VersionRun) (b : VersionBlock.block) (h : VersionBlockHeader) (it : Iterator.iterator).
Context (Hr : rs.[i] = Some r) (Eb : block v (i / 256) = Some b) (Hb : block_of b (chunk BLOCK_SIZE rs (i / 256))).
Context (Eh : VersionBlock.header b = Some h).

Lemma frame_range k r' : i `mod` 128 = 0 -> rs.[k] = Some r' -> k / 128 = i / 128 ->
  0 <= k `mod` 128 < Z.min 128 (zlen (chunk BLOCK_SIZE rs (i / 256)) - frame_start (i `mod` 256)).
Proof.
  intros Hm Hr' Hk'. pose proof (zget_Some_range _ _ _ Hr). destruct (frame_place i k) as (E1 & E2 & E3 & E4 & E5); [lia|done..|].
  destruct (run_block k r' Hr') as (_ & _ & _ & Hin'). rewrite E2 in Hin'. apply zget_Some_range in Hin'. lia.
Qed.

(** What the two decodes at the start of a frame leave in the arrays. *)
Lemma load_starts : i `mod` 128 = 0 ->
  exists ss, (if decide (hstep h = 0) then
       col ← VersionBlock.starts b; '(_, ss) ← NumColumn.decodeFrame col (i `mod` 256); Some ss
     else Some (Iterator.starts it)) = Some ss /\
    (hstep h = 0 -> forall k r', rs.[k] = Some r' -> k / 128 = i / 128 -> ss.[k `mod` 128] = Some (firstDocId r')).
Proof.
  intros Hm. case_decide as Hs; [|by eexists]. pose proof (zget_Some_range _ _ _ Hr).
  destruct (bo_header _ _ Hb) as (h' & Eh' & _ & Hst). rewrite Eh in Eh'. injection Eh' as <-.
  destruct Hst as [[? _]|(_ & cs & Ecs & Hcs)]; [lia|]. pose proof (bo_size _ _ Hb) as Hsz.
  pose proof (frame_range i r Hm Hr eq_refl) as H0. destruct (frame_place i i) as (F1 & _ & _ & _ & F5); [lia|done..|].
  pose proof (Z.mod_pos_bound i 256 ltac:(lia)).
  unfold BLOCK_SIZE in *. destruct (column_frame _ cs (i / 256) (i `mod` 256) Hcs) as (ss & Es & _ & _ & Hz2 & Hss);
    [apply Z.div_pos; lia|lia..|].
  rewrite Ecs. opt. rewrite Es. opt. exists ss. split; [done|]. intros _ k r' Hr' Hk'.
  pose proof (frame_range k r' Hm Hr' Hk') as Hrg. destruct (frame_place i k) as (E1 & E2 & E3 & E4 & _); [lia|done..|].
  unfold BLOCK_SIZE in *. rewrite Hss by lia. rewrite E1, E3. by rewrite Hr'.
Qed.

Lemma load_frames : iterator_inv it -> Iterator.index it = i ->
  exists vs ss, (if decide (i `mod` 128 = 0) then
       col ← VersionBlock.versions b; '(_, vs) ← NumColumn.decodeFrame col (i `mod` 256);
       ss ← (if decide (hstep h = 0) then
               col ← VersionBlock.starts b; '(_, ss) ← NumColumn.decodeFrame col (i `mod` 256); Some ss
             else Some (Iterator.starts it));
       Some (Iterator.MkIterator (Iterator.index it) vs ss)
     else Some it) = Some (Iterator.MkIterator i vs ss) /\
    forall k r', rs.[k] = Some r' -> k / 128 = i / 128 -> vs.[k `mod` 128] = Some (s64 (version r')) /\
      (hstep h = 0 -> ss.[k `mod` 128] = Some (firstDocId r')).
Proof.
  intros [_ Hf] Ei. rewrite Ei in *. pose proof (zget_Some_range _ _ _ Hr). case_decide as Hm.
  - destruct (load_starts Hm) as (ss & Es & Hss). pose proof (Z.div_pos i 256 ltac:(lia) ltac:(lia)) as Hq.
    destruct (run_block i r Hr) as (_ & _ & _ & Hin). apply zget_Some_range in Hin.
    destruct (version_frame b _ _ Hb Hq Hin) as (col & vs & Ec & Ef & _ & _ & Hz & Hvs).
    rewrite Ec. opt. rewrite Ef. opt. rewrite Es. opt. exists vs, ss. split; [done|]. intros k r' Hr' Hk'.
    split; [|intros Hs; by apply Hss].
    pose proof (frame_range k r' Hm Hr' Hk') as Hrg. destruct (frame_place i k) as (E1 & E2 & E3 & E4 & _); [lia|done..|].
    rewrite Hvs by lia. rewrite E1, E3. by rewrite Hr'.
  - exists (Iterator.versions it), (Iterator.starts it). split; [subst i; by destruct it|]. intros k r' Hr' Hk'.
    destruct (Hf Hm k r' Hr' Hk') as [H1 H2]. split; [done|]. intros Hs. apply (H2 b h); [|done..].
    replace (k / 256) with (i / 256); [done|]. rewrite <- !(Z.div_div _ 128 2) by lia. by rewrite Hk'.
Qed.

End step.

Lemma next_run it r : iterator_inv it -> rs.[Iterator.index it] = Some r ->
  exists it', Iterator.next v it = Some (Some r, it') /\ iterator_inv it' /\ Iterator.index it' = Iterator.index it + 1.
Proof.
  intros Hinv Hr. pose proof (zget_Some_range _ _ _ Hr) as Hir. set (i := Iterator.index it) in *.
  pose proof (fo_max _ _ Hv). pose proof (fo_maxDoc _ _ Hv).
  destruct (run_block i r Hr) as (b & Eb & Hb & Hin). destruct (bo_header _ _ Hb) as (h & Eh & _).
  unfold Iterator.next, BLOCK_SIZE, size, NumColumnFormat.BULK_SIZE. fold i. rewrite (fo_count _ _ Hv).
  rewrite (decide_False (P := i = zlen rs)) by lia. cbv zeta. rewrite Eb. opt. rewrite Eh. opt. rewrite mod_256_128.
  destruct (load_frames i r b h it Hr Eb Hb Eh Hinv eq_refl) as (vs & ss & E & Hread). fold i in E. rewrite E. clear E.
  destruct (Hread i r Hr eq_refl) as [Hr1 Hr2]. pose proof (version_range _ _ Hr) as Hu.
  pose proof (start_bound _ _ Hr) as Hb0. rewrite bind_Some_l. cbn [Iterator.index Iterator.versions Iterator.starts].
  assert ((if decide (hstep h <> 0) then VersionBlock.start b (i `mod` 256) else s ← ss.[i `mod` 128]; Some (u32 s))
    = Some (firstDocId r)) as ->.
  { case_decide as Hs; [by apply (start_spec _ _ Hb)|]. rewrite Hr2 by lia. opt. by rewrite uwrap_id by (unfold is_u; lia). }
  opt. rewrite Hr1. opt.
  rewrite uwrap_swrap, (uwrap_id 64), (uwrap_id 32) by (lia || done || unfold is_u; lia). eexists. split; [by destruct r|].
  split; [|done]. split; cbn [Iterator.index Iterator.versions Iterator.starts]; [lia|]. intros Hne k r' Hr' Hk'.
  assert ((i + 1) / 128 = i / 128) as E.
  { pose proof (Z.div_mod i 128 ltac:(lia)). pose proof (Z.div_mod (i + 1) 128 ltac:(lia)).
    pose proof (Z.mod_pos_bound i 128 ltac:(lia)). pose proof (Z.mod_pos_bound (i + 1) 128 ltac:(lia)). lia. }
  destruct (Hread k r' Hr' ltac:(lia)) as [H1 H2]. split; [done|]. intros b' h' Eb' Eh' Hs. apply H2.
  assert (k / 256 = i / 256) as E2.
  { rewrite <- !(Z.div_div _ 128 2) by lia. by rewrite Hk', E. }
  rewrite E2, Eb in Eb'. injection Eb' as <-. rewrite Eh in Eh'. by injection Eh' as <-.
Qed.

Lemma next_end it : Iterator.index it = zlen rs -> Iterator.next v it = Some (None, it).
Proof. intros E. unfold Iterator.next, size. by rewrite (fo_count _ _ Hv), decide_True by done. Qed.

End file.
End files.

(** * The constructor *)

Section validation.
Import VersionRuns.
Context (mem : list Z) (Hmem : is_bytes mem) (Hsize : zlen mem < 2 ^ 62).

Abbreviation message := "Invalid request-version run coverage or encoding".

Lemma load_in n off : 0 <= n -> 0 <= off -> off + n <= zlen mem -> exists w, load n mem off = Some w /\ is_u (8 * n) w.
Proof.
  intros Hn Ho Hb. eexists. split; [by apply load_field|]. unfold field. rewrite Z.land_ones by lia.
  apply uwrap_range. lia.
Qed.

Lemma load_info_in off : 0 <= off -> off + 32 <= zlen mem -> exists i, load_info mem off = Some i.
Proof.
  intros Ho Hb. unfold load_info.
  destruct (load_in 8 off) as (a & -> & _); [lia..|]. destruct (load_in 8 (off + 8)) as (b & -> & _); [lia..|].
  destruct (load_in 8 (off + 16)) as (g & -> & _); [lia..|]. destruct (load_in 8 (off + 24)) as (s & -> & _); [lia..|].
  by eexists.
Qed.

(** What an accepted descriptor guarantees. *)
Definition accepted (size metaSize room : Z) (i : NumBlockInfo.info) (monotonic : bool) : Prop :=
  (monotonic = true -> NumBlockInfo.gcd i = 1) /\ metaSize <= NumBlockInfo.payloadOffset i /\
  ((NumBlockInfo.bits i <= NumBlockInfo.MAX_PACKED_BITS /\
    NumBlockInfo.payloadOffset i + (size * NumBlockInfo.bits i + 7) / 8 + LinearPack.TAIL_PAD <= room) \/
   (NumBlockInfo.bits i = NumBlockInfo.RAW_BITS /\ NumBlockInfo.payloadOffset i + 8 * size <= room)).

Lemma check_spec size metaSize room i monotonic :
  0 < size <= 256 -> is_u 64 room ->
  may_throw (Some message) (check size metaSize room i monotonic) (fun _ => accepted size metaSize room i monotonic).
Proof.
  intros Hs Hr. unfold check. cbv zeta. case_decide as H1; [done|].
  pose proof (bits_range i) as Hb. unfold NumBlockInfo.forPacked in *.
  assert (0 <= NumBlockInfo.payloadOffset i) as Hp.
  { unfold NumBlockInfo.payloadOffset. change NumBlockInfo.OFFSET_MASK with (Z.ones 56). rewrite Z.land_ones by lia.
    apply Z.mod_pos_bound. lia. }
  unfold accepted, NumBlockInfo.MAX_PACKED_BITS, NumBlockInfo.RAW_BITS in *. unfold is_u in Hr. case_bool_decide as Hbits.
  - assert (0 <= size * NumBlockInfo.bits i <= 256 * 57) by nia.
    unfold LinearPack.packedByteSize. rewrite decide_True by lia. cbn [lift]. rewrite (uwrap_id 64 (size * _ + 7)) by (unfold is_u; lia).
    rewrite Z.shiftr_div_pow2 by lia. change (2 ^ 3) with 8. cbn [mbind outcome_bind].
    pose proof (Z.div_pos (size * NumBlockInfo.bits i + 7) 8 ltac:(lia) ltac:(lia)).
    pose proof (Z.div_le_upper_bound (size * NumBlockInfo.bits i + 7) 8 (256 * 57) ltac:(lia) ltac:(lia)).
    case_decide as Hrej; [done|]. unfold LinearPack.TAIL_PAD in *. unfold may_throw.
    rewrite !uwrap_id in Hrej by (unfold is_u; lia). split; [destruct monotonic; [intros _|done]|lia].
    destruct (decide (NumBlockInfo.gcd i = 1)); [done|tauto].
  - cbn [lift mbind outcome_bind]. rewrite (uwrap_id 64 (size * 8)) by (unfold is_u; lia).
    case_decide as Hrej; [done|]. unfold LinearPack.TAIL_PAD in *. unfold may_throw.
    assert (NumBlockInfo.payloadOffset i <= room) by lia.
    rewrite !uwrap_id in Hrej by (unfold is_u; lia). split; [destruct monotonic; [intros _|done]|].
    + destruct (decide (NumBlockInfo.gcd i = 1)); [done|tauto].
    + split; [lia|right]. destruct (decide (NumBlockInfo.bits i = 64)); [lia|tauto].
Qed.

(** A column over an accepted descriptor. *)
Lemma accepted_readable data meta n limit i metaSize withGcd :
  0 <= data -> 0 <= meta -> meta + 32 <= zlen mem -> Z.land meta 7 = 0 -> 0 < n <= 256 -> 0 <= metaSize ->
  load_info mem meta = Some i -> accepted n metaSize limit i (negb withGcd) -> data + limit <= zlen mem ->
  exists c, NumColumn.make mem data meta n withGcd = Some c /\ readable c i /\ NumColumn.nValues c = n /\
    NumColumn.withGcd c = withGcd.
Proof.
  intros Hd Hm Hm2 Hal Hn Hms Ei (Hg & Hp & Hroom) Hl. unfold NumColumn.make. rewrite decide_True by done.
  eexists. split; [done|]. split; [|done].
  constructor; cbn [NumColumn.mem NumColumn.nValues NumColumn.withGcd].
  - done.
  - unfold NumColumnFormat.BLOCK_SIZE. lia.
  - unfold NumColumn.blockInfo, NumColumn.numBlocks, NumColumnFormat.BLOCK_SIZE. cbn [NumColumn.mem NumColumn.nValues NumColumn.blockMeta].
    rewrite decide_True; [|rewrite Z.quot_div_nonneg by lia; split; [lia|apply Z.div_str_pos; lia]].
    cbv zeta. rewrite Z.mul_0_r, Z.add_0_r. exact Ei.
  - intros ->. by apply Hg.
  - unfold NumColumn.payload, packed_room. cbn [NumColumn.blocks]. pose proof (bits_range i).
    destruct Hroom as [[Hb H2]|[Hb H2]]; [left|right].
    + unfold NumBlockInfo.MAX_PACKED_BITS in *. split; [done|]. split; [lia|]. split; [lia|]. split; [nia|lia].
    + split; [done|]. lia.
Qed.

Lemma zget_map_seqZ {A} (f : Z -> A) n k x : 0 <= n -> (f <$> seqZ 0 n).[k] = Some x <-> 0 <= k < n /\ x = f k.
Proof.
  intros Hn. rewrite zget_fmap. split.
  - intros H. destruct ((seqZ 0 n).[k]) as [y|] eqn:E; [|done]. pose proof (zget_Some_range _ _ _ E) as Hk.
    rewrite zlen_seqZ in Hk by lia. rewrite zget_seqZ in E by lia. injection E as <-. by injection H as <-.
  - intros [Hk ->]. by rewrite zget_seqZ by lia.
Qed.

(** The runs of a block, from its starts and its versions. *)
Definition runs_of (st : Z -> Z) (cv : NumColumn.column) (i : NumBlockInfo.info) (n : Z) : list VersionRun :=
  (fun k => Run (st k) (u64 (stored cv i k))) <$> seqZ 0 n.

Lemma block_runs off n h cv st :
  let b := VersionBlock.Block mem off n in
  0 < n <= 256 -> VersionBlock.header b = Some h -> VersionBlock.versions b = Some cv ->
  readable cv (hversions h) -> NumColumn.nValues cv = n -> NumColumn.withGcd cv = true ->
  (forall k, 0 <= k < n -> is_u 32 (st k)) -> (forall j k, 0 <= j < k -> k < n -> st j < st k) -> hfirstDocId h = st 0 ->
  ((0 < hstep h /\ forall k, 0 <= k < n -> st k = hfirstDocId h + k * hstep h) \/
   (hstep h = 0 /\ exists c, VersionBlock.starts b = Some c /\ decodes c (st <$> seqZ 0 n))) ->
  block_of b (runs_of st cv (hversions h) n).
Proof.
  intros b Hn Eh Ev Hr Hnv Hg Hu Hi H0 Hst.
  assert (forall k r, (runs_of st cv (hversions h) n).[k] = Some r <->
    0 <= k < n /\ r = Run (st k) (u64 (stored cv (hversions h) k))) as Hget.
  { intros k r. unfold runs_of. by rewrite zget_map_seqZ by lia. }
  assert (forall P : VersionRun -> Prop, (forall k, 0 <= k < n -> P (Run (st k) (u64 (stored cv (hversions h) k)))) ->
    Forall P (runs_of st cv (hversions h) n)) as Hall.
  { intros P HP. apply Forall_forall. intros r [k [Hk ->]%Hget]%zget_elem. by apply HP. }
  assert (firstDocId <$> runs_of st cv (hversions h) n = st <$> seqZ 0 n) as Est.
  { unfold runs_of. rewrite <- list_fmap_compose. by apply list_fmap_ext. }
  constructor.
  - unfold runs_of. simpl. zlen.
  - unfold runs_of, BLOCK_SIZE. zlen.
  - rewrite Est. apply increasing_intro. intros j k x y [Hj ->]%zget_map_seqZ [Hk ->]%zget_map_seqZ Hjk; [|lia..].
    apply Hi; lia.
  - apply Hall. intros k Hk. by apply Hu.
  - apply Hall. intros k Hk. apply uwrap_range. lia.
  - exists h. split; [done|]. split.
    + rewrite H0. replace ((runs_of st cv (hversions h) n).[0]) with (Some (Run (st 0) (u64 (stored cv (hversions h) 0)))); [done|].
      symmetry. apply Hget. split; [lia|done].
    + destruct Hst as [[Hs Hk]|[Hs Hc]]; [left|right].
      * split; [done|]. intros k r [Hkr ->]%Hget. by apply Hk.
      * rewrite Est. done.
  - destruct (NumColumn.affineBlock cv 0) as [o|] eqn:Ea.
    2: { unfold NumColumn.affineBlock in Ea. by rewrite (rd_info _ _ Hr) in Ea. }
    exists cv, o. split; [done|]. split; [|split; [done|]].
    + replace ((fun r => s64 (version r)) <$> runs_of st cv (hversions h) n) with (stored_values cv (hversions h));
        [by apply readable_decodes|].
      unfold stored_values, runs_of. rewrite Hnv, <- list_fmap_compose. apply list_fmap_ext. intros k x _. simpl.
      rewrite swrap_uwrap by lia. unfold stored, recon. case_decide; by rewrite (swrap_id 64 (s64 _)) by (lia || apply swrap_range; lia).
    + intros first second k r -> [Hk ->]%Hget. simpl. apply affine_stored; [done|done|done|lia].
Qed.

(** ** Irregular starts *)

Lemma starts_loop maxDoc first col ss previous :
  decodes col ss -> 0 < zlen ss -> 0 < maxDoc < 2 ^ 31 ->
  may_throw (Some message) (foldE (checkStart maxDoc first col) (Bulk.fresh, previous) (seqZ 0 (zlen ss))) (fun s =>
    ss.[0] = Some first /\ increasing ss /\ Forall (fun x => 0 <= x < maxDoc) ss /\ ss.[zlen ss - 1] = Some s.2).
Proof.
  intros Hc Hz Hm.
  eapply may_throw_mono; [apply (may_throw_foldE _ (fun i s =>
    cursor_ok ss s.1 /\ (forall k x, ss.[k] = Some x -> k < i -> 0 <= x < maxDoc) /\
    (forall j k x y, ss.[j] = Some x -> ss.[k] = Some y -> j < k -> k < i -> x < y) /\
    (0 < i -> ss.[0] = Some first /\ ss.[i - 1] = Some s.2)))|].
  - lia.
  - split; [apply (fresh_positioned ss)|]. split; [intros k x ?%zget_Some_range ?; lia|]. split; [|lia].
    intros j k x y Hx%zget_Some_range Hy%zget_Some_range ? ?. lia.
  - intros i [b prev] Hi (Hok & Hb & Hinc & Hlast). unfold checkStart. simpl in Hlast.
    destruct (zget_in ss i) as [x Hx]; [lia|]. destruct (bulk_valueAt_spec col ss Hc i x b Hok Hx) as (b' & E & Hok' & _).
    eapply may_throw_lift; [exact E|]. cbv beta match. case_decide as Hrej; [done|]. cbn [may_throw fst snd].
    rewrite uwrap_id by (unfold is_u; lia). split; [done|]. split; [|split].
    + intros k y Hy Hk. destruct (decide (k = i)) as [->|]; [rewrite Hx in Hy; injection Hy as <-; lia|]. apply (Hb k y Hy). lia.
    + intros j k y z Hy Hz' Hjk Hk. destruct (decide (k = i)) as [->|]; [|apply (Hinc j k y z); (done || lia)].
      rewrite Hx in Hz'. injection Hz' as <-. pose proof (zget_Some_range _ _ _ Hy).
      destruct Hlast as [_ Hl]; [lia|]. destruct (decide (j = i - 1)) as [->|].
      * rewrite Hl in Hy. injection Hy as <-. lia.
      * pose proof (Hinc j (i - 1) y prev Hy Hl ltac:(lia) ltac:(lia)). lia.
    + intros _. replace (i + 1 - 1) with i by lia. split; [|done].
      destruct (decide (i = 0)) as [->|]; [rewrite Hx; f_equal; lia|]. apply Hlast. lia.
  - intros [b prev] (_ & Hb & Hinc & Hlast). rewrite Z.add_0_l in *. cbn [snd] in *. split; [apply Hlast; lia|].
    split; [|split; [|apply Hlast; lia]].
    + apply increasing_intro. intros j k x y Hx Hy Hjk. pose proof (zget_Some_range _ _ _ Hy). apply (Hinc j k x y Hx Hy Hjk). lia.
    + apply Forall_forall. intros x [k Hk]%zget_elem. pose proof (zget_Some_range _ _ _ Hk). apply (Hb k x Hk). lia.
Qed.

(** ** The blocks of a file *)

(** The header of the file has been accepted; the directory starts [D] bytes after the blocks. *)
Record framed (v : runs) (D : Z) : Prop := {
  fr_file : file v = mem;
  fr_data : 0 <= data v;
  fr_align : data v `mod` 8 = 0;
  fr_dir : directory v = data v + D;
  fr_offset : 0 <= D;
  fr_room : data v + D + 16 * numBlocks v <= zlen mem;
  fr_count : 0 < count_ v <= maxDoc_ v;
  fr_max : maxDoc_ v < 2 ^ 31 }.

Section framed.
Context (v : runs) (D : Z) (Hv : framed v D).

Lemma framed_blocks : 0 < numBlocks v /\ 256 * (numBlocks v - 1) < count_ v <= 256 * numBlocks v.
Proof.
  pose proof (fr_count _ _ Hv). pose proof (fr_max _ _ Hv). unfold numBlocks, BLOCK_SIZE.
  rewrite uwrap_id by (unfold is_u; lia). pose proof (Z.div_mod (count_ v + 256 - 1) 256 ltac:(lia)).
  pose proof (Z.mod_pos_bound (count_ v + 256 - 1) 256 ltac:(lia)). lia.
Qed.

Lemma entry_in i : 0 <= i < numBlocks v -> exists off res first,
  dir_offset v i = Some off /\ is_u 64 off /\ dir_reserved v i = Some res /\ dir_firstDocId v i = Some first /\ is_u 32 first.
Proof.
  intros Hi. destruct Hv as [Hf Hd _ Hdir HD Hr _ _]. unfold dir_offset, dir_reserved, dir_firstDocId, sizeof_VersionBlockDirectory.
  rewrite Hf, Hdir.
  destruct (load_in 8 (data v + D + 16 * i + 8)) as (off & -> & Ho); [lia..|].
  destruct (load_in 4 (data v + D + 16 * i + 4)) as (res & -> & _); [lia..|].
  destruct (load_in 4 (data v + D + 16 * i)) as (first & -> & Hfi); [lia..|].
  by exists off, res, first.
Qed.

Definition block_size (i : Z) : Z := Z.min 256 (count_ v - 256 * i).

Lemma block_eq i off : 0 <= i < numBlocks v -> dir_offset v i = Some off ->
  block v i = Some (VersionBlock.Block mem (data v + off) (block_size i)) /\ 0 < block_size i <= 256.
Proof.
  intros Hi E. pose proof framed_blocks. pose proof (fr_count _ _ Hv). pose proof (fr_max _ _ Hv).
  unfold block, BLOCK_SIZE, block_size. rewrite E, (fr_file _ _ Hv). opt.
  rewrite (uwrap_id 32 (i * 256)), uwrap_id by (unfold is_u; lia). replace (i * 256) with (256 * i) by lia. split; [done|lia].
Qed.

Section block.
Context (i off limit : Z) (bh : VersionBlockHeader).
Context (Hi : 0 <= i < numBlocks v) (Ho : is_u 64 off) (Hal : Z.land off 7 = 0) (Hroom : off + 40 <= limit) (Hlim : limit <= D).
Abbreviation view := (VersionBlock.Block mem (data v + off) (block_size i)).
Context (Hn : 0 < block_size i <= 256) (Eh : VersionBlock.header view = Some bh).
Context (Hh : is_u 32 (hfirstDocId bh)) (Hs : 0 <= hstep bh).

Lemma block_aligned : Z.land (data v + off) 7 = 0 /\ Z.land (data v + off + 40) 7 = 0.
Proof.
  revert Hal. change 7 with (Z.ones 3). rewrite !Z.land_ones by lia. intros Hal'.
  pose proof (fr_align _ _ Hv). change (2 ^ 3) with 8 in *. pose proof (Z.div_mod off 8 ltac:(lia)).
  pose proof (Z.div_mod (data v) 8 ltac:(lia)). split.
  - symmetry. apply (Z.mod_unique_pos _ _ (data v / 8 + off / 8)); lia.
  - symmetry. apply (Z.mod_unique_pos _ _ (data v / 8 + off / 8 + 5)); lia.
Qed.

(** Starts as the reader will see them. *)
Definition starts_ok (st : Z -> Z) : Prop :=
  (forall k, 0 <= k < block_size i -> 0 <= st k < maxDoc_ v) /\
  (forall j k, 0 <= j < k -> k < block_size i -> st j < st k) /\ hfirstDocId bh = st 0 /\
  ((0 < hstep bh /\ forall k, 0 <= k < block_size i -> st k = hfirstDocId bh + k * hstep bh) \/
   (hstep bh = 0 /\ exists c, VersionBlock.starts view = Some c /\ decodes c (st <$> seqZ 0 (block_size i)))).

Lemma next_check (p : Z) : is_u 32 p ->
  may_throw (Some message) (more ← (if decide (i + 1 < numBlocks v) then
            next ← lift (dir_firstDocId v (i + 1)); Ret (bool_decide (p >= next))
          else Ret false);
    if (more : bool) then invalid else Ret (u32 p)) (fun q => q = p).
Proof.
  intros Hp. case_decide as Hn'.
  - destruct (entry_in (i + 1)) as (? & ? & next & _ & _ & _ & -> & _); [lia|]. cbn [lift mbind outcome_bind].
    case_bool_decide; [done|]. by apply uwrap_id.
  - by apply uwrap_id.
Qed.

Lemma checkStarts_spec previous : is_u 32 (hstep bh) ->
  may_throw (Some message)
    (checkStarts v (maxDoc_ v) i off limit
       (sizeof_VersionBlockHeader + (if decide (hstep bh <> 0) then 0 else sizeof_NumBlockInfo)) (hfirstDocId bh) view bh previous)
    (fun p => exists st, starts_ok st /\ p = st (block_size i - 1)).
Proof.
  intros Hsu. pose proof (fr_count _ _ Hv). pose proof (fr_max _ _ Hv). pose proof (fr_data _ _ Hv). pose proof (fr_offset _ _ Hv).
  pose proof (fr_room _ _ Hv). unfold is_u in Hh, Hsu, Ho. unfold checkStarts, VersionBlock.size. cbn [VersionBlock.count_].
  eapply (may_throw_bind _ _ _ (fun p => exists st, starts_ok st /\ p = st (block_size i - 1))).
  2: { intros p (st & Hst & ->). eapply may_throw_mono; [apply next_check|].
       - destruct Hst as (Hb & _). pose proof (Hb (block_size i - 1) ltac:(lia)). unfold is_u. lia.
       - intros ? ->. by exists st. }
  case_decide as Hstep.
  - cbv zeta. rewrite (uwrap_id 32 (block_size i - 1)), (uwrap_id 64 (_ * hstep bh)) by (unfold is_u; nia).
    rewrite (uwrap_id 64), (uwrap_id 32) by (unfold is_u; nia). case_decide as Hlast; [done|].
    exists (fun k => hfirstDocId bh + k * hstep bh). split; [|done]. split; [intros; nia|]. split; [intros; nia|].
    split; [lia|]. left. split; [lia|done].
  - unfold sizeof_VersionBlockHeader, sizeof_NumBlockInfo. case_decide as Hmeta; [done|]. rewrite (fr_file _ _ Hv).
    destruct (load_info_in (data v + off + 40)) as [info Ei]; [lia..|].
    eapply may_throw_lift; [exact Ei|]. cbv beta.
    eapply may_throw_bind; [apply check_spec; [lia|unfold is_u; lia]|]. intros ? Hacc. cbv beta in Hacc. destruct block_aligned as [_ Hal2].
    destruct (accepted_readable (data v + off) (data v + off + 40) (block_size i) (limit - off) info (40 + 32) false)
      as (col & Ec & Hr & Hnv & _); [lia..|done|lia|lia|done|done|lia|].
    eapply may_throw_lift; [exact Ec|]. cbv beta. pose proof (readable_decodes col info Hr) as Hdec.
    pose proof (zlen_stored col info Hr) as Hz. rewrite Hnv in Hz. rewrite <- Hz.
    eapply may_throw_bind; [apply (starts_loop _ _ _ _ _ Hdec); lia|]. intros [b p] (Hfst & Hinc & Hall & Hl).
    rewrite Hz in Hl. cbn [snd] in Hl.
    assert (forall k, 0 <= k < block_size i -> (stored_values col info).[k] = Some (stored col info k)) as Hget.
    { intros k Hk. apply zget_stored; [done|]. rewrite Hnv. done. }
    rewrite Hget in Hfst, Hl by lia. injection Hfst as Hfst. injection Hl as Hl. exists (stored col info). split; [|by rewrite Hz].
    split; [|split; [|split; [done|]]].
    + intros k Hk. rewrite Forall_forall in Hall. eapply Hall, zget_elem_1. by apply Hget.
    + intros j k Hj Hk. eapply (increasing_zget _ j k _ _ Hinc); [apply Hget; lia|apply Hget; lia|lia].
    + right. split; [lia|]. exists col. split; [done|]. rewrite <- Hnv. exact Hdec.
Qed.

Lemma block_versions metaSize :
  0 <= metaSize -> accepted (block_size i) metaSize (limit - off) (hversions bh) false ->
  exists cv, VersionBlock.versions view = Some cv /\ readable cv (hversions bh) /\
    NumColumn.nValues cv = block_size i /\ NumColumn.withGcd cv = true.
Proof.
  intros Hm Hacc. pose proof (fr_data _ _ Hv). pose proof (fr_offset _ _ Hv). pose proof (fr_room _ _ Hv). unfold is_u in Ho.
  destruct block_aligned as [Hal1 _]. unfold VersionBlock.versions. cbn [VersionBlock.mem VersionBlock.data VersionBlock.count_].
  apply (accepted_readable _ _ _ (limit - off) _ metaSize); [lia..|done|lia|lia| |done|lia].
  unfold VersionBlock.header in Eh. cbn [VersionBlock.mem VersionBlock.data] in Eh.
  apply bind_Some in Eh as (info & Ei & (f & _ & (s & _ & E)%bind_Some)%bind_Some).
  by injection E as <-.
Qed.

End block.

Lemma header_in i off : 0 <= data v + off -> data v + off + 40 <= zlen mem ->
  exists bh, VersionBlock.header (VersionBlock.Block mem (data v + off) (block_size i)) = Some bh /\
    is_u 32 (hfirstDocId bh) /\ is_u 32 (hstep bh).
Proof.
  intros H0 Hb. unfold VersionBlock.header. cbn [VersionBlock.mem VersionBlock.data].
  destruct (load_info_in (data v + off)) as [info ->]; [lia..|].
  destruct (load_in 4 (data v + off + 32)) as (f & -> & Hf); [lia..|].
  destruct (load_in 4 (data v + off + 36)) as (s & -> & Hs); [lia..|]. by eexists.
Qed.

(** What the body of the loop establishes for one block. *)
Definition block_accepted (i previous : Z) (s : Z * runs) : Prop :=
  exists b bh bs affine',
    block v i = Some b /\ block_of b bs /\ VersionBlock.header b = Some bh /\ dir_firstDocId v i = firstDocId <$> bs.[0] /\
    zlen bs = block_size i /\ Forall (fun r => 0 <= firstDocId r < maxDoc_ v) bs /\
    (forall r, bs.[0] = Some r -> (i = 0 /\ firstDocId r = 0) \/ (i <> 0 /\ previous < firstDocId r)) /\
    firstDocId <$> bs.[zlen bs - 1] = Some s.1 /\
    VersionAffinePrefix.append b (i * 256) (affine v) = Some affine' /\
    s.2 = Runs (file v) (data v) (directory v) (count_ v) (maxDoc_ v) (bytes_ v)
            (dense v && bool_decide (hstep bh = 1 /\ hfirstDocId bh = i * 256)) affine'.

Lemma append_total b bs firstRun p : block_of b bs -> exists p', VersionAffinePrefix.append b firstRun p = Some p'.
Proof.
  intros Hb. unfold VersionAffinePrefix.append. destruct (bo_header _ _ Hb) as (h & -> & _). opt. case_decide; [by eexists|].
  destruct (bo_versions _ _ Hb) as (c & o & -> & _ & Ea & _). opt. rewrite Ea. opt. destruct o as [[]|]; [|by eexists].
  repeat case_decide; by eexists.
Qed.

Lemma checkBlock_spec i previous : 0 <= i < numBlocks v ->
  may_throw (Some message) (checkBlock D (maxDoc_ v) (previous, v) i) (block_accepted i previous).
Proof.
  intros Hi. pose proof (fr_count _ _ Hv). pose proof (fr_max _ _ Hv). pose proof (fr_data _ _ Hv). pose proof (fr_offset _ _ Hv).
  pose proof (fr_room _ _ Hv). pose proof framed_blocks. unfold checkBlock.
  destruct (entry_in i Hi) as (off & res & first & Eo & Ho & Er & Ef & Hfu).
  eapply may_throw_lift; [exact Eo|]. cbv beta.
  assert (exists limit, (if decide (i + 1 < numBlocks v) then dir_offset v (i + 1) else Some D) = Some limit) as [limit El].
  { case_decide; [|by eexists]. destruct (entry_in (i + 1)) as (l & _ & _ & El & _); [lia|]. by exists l. }
  eapply may_throw_lift; [exact El|]. clear El. eapply may_throw_lift; [exact Er|]. eapply may_throw_lift; [exact Ef|]. cbv beta.
  case_decide as Hrej; [done|]. unfold sizeof_VersionBlockHeader in Hrej. rewrite (uwrap_id 32 (maxDoc_ v)) in Hrej by (unfold is_u; lia).
  unfold is_u in Ho, Hfu. destruct (block_eq i off Hi Eo) as [Eb Hn]. eapply may_throw_lift; [exact Eb|]. cbv beta.
  destruct (header_in i off) as (bh & Eh & Hh & Hs); [lia..|]. eapply may_throw_lift; [exact Eh|]. cbv beta.
  case_decide as Hfirst; [done|]. assert (first = hfirstDocId bh) as -> by lia. clear Hfirst.
  assert (Z.land off 7 = 0) as Hal by (destruct (decide (Z.land off 7 = 0)); [done|tauto]).
  eapply may_throw_bind; [apply check_spec; [done|unfold is_u; lia]|]. intros ? Hacc. cbv beta in Hacc.
  edestruct (block_versions i off limit bh) as (cv & Ev & Hr & Hnv & Hg); [done|done|done|lia|lia|done|done|done|apply Hs| |exact Hacc|].
  { unfold sizeof_VersionBlockHeader, sizeof_NumBlockInfo. case_decide; lia. }
  eapply may_throw_bind; [apply checkStarts_spec; (done || apply Hs || lia)|]. intros p (st & (Hb & Hinc & Hst0 & Hst) & ->). cbv beta.
  pose proof (block_runs _ _ _ cv st Hn Eh Ev Hr Hnv Hg) as Hblock.
  specialize (Hblock ltac:(intros k Hk; pose proof (Hb k Hk); unfold is_u; lia) Hinc Hst0 Hst).
  set (bs := runs_of st cv (hversions bh) (block_size i)) in *.
  assert (forall k, 0 <= k < block_size i -> bs.[k] = Some (Run (st k) (u64 (stored cv (hversions bh) k)))) as Hget.
  { intros k Hk. unfold bs, runs_of. rewrite zget_fmap, zget_seqZ by lia. done. }
  assert (zlen bs = block_size i) as Hz by (unfold bs, runs_of; zlen).
  unfold BLOCK_SIZE. rewrite (uwrap_id 32 (i * 256)) by (unfold is_u; lia).
  destruct (append_total _ _ (i * 256) (affine v) Hblock) as [p' Ep]. eapply may_throw_lift; [exact Ep|]. cbv beta.
  cbn [may_throw]. eexists _, bh, bs, p'. split; [exact Eb|]. split; [exact Hblock|]. split; [done|].
  split; [by rewrite Hget, Ef, Hst0 by lia|]. split; [done|]. split.
  { apply Forall_forall. intros r [k Hk]%zget_elem. pose proof (zget_Some_range _ _ _ Hk) as Hkr. rewrite Hget in Hk by lia.
    injection Hk as <-. simpl. apply Hb. lia. }
  split; [|split; [by rewrite Hz, Hget by lia|done]].
  intros r Hr0. rewrite Hget in Hr0 by lia. injection Hr0 as <-. simpl. rewrite <- Hst0. lia.
Qed.

End framed.

(** ** The whole file *)

(** The state of the loop before block [i]. *)
Record loop_inv (D i previous : Z) (v : runs) (rs : list VersionRun) : Prop := {
  li_framed : framed v D;
  li_count : zlen rs = Z.min (256 * i) (count_ v);
  li_incr : increasing (firstDocId <$> rs);
  li_first : 0 < i -> firstDocId <$> rs.[0] = Some 0;
  li_last : 0 < i -> firstDocId <$> rs.[zlen rs - 1] = Some previous;
  li_bound : Forall (fun r => 0 <= firstDocId r < maxDoc_ v) rs;
  li_block j : 0 <= j < i -> exists b, block v j = Some b /\ block_of b (chunk BLOCK_SIZE rs j) /\
    dir_firstDocId v j = firstDocId <$> rs.[j * BLOCK_SIZE];
  li_dense : dense v = true -> forall k r, rs.[k] = Some r -> firstDocId r = k;
  li_affine : affine_ok (affine v) rs }.

Lemma affine_extend p rs bs : affine_ok p rs -> affine_ok p (rs ++ bs).
Proof.
  intros [H1 H2]. split; [rewrite zlen_app; pose proof (zlen_nonneg bs); lia|]. intros k Hk. by apply zget_app_Some, H2.
Qed.

Lemma increasing_app l k x y :
  increasing l -> increasing k -> l.[zlen l - 1] = Some x -> k.[0] = Some y -> x < y -> increasing (l ++ k).
Proof.
  intros Hl Hk Hx Hy Hxy. apply increasing_intro. intros i j a b Ha Hb Hij.
  pose proof (zget_Some_range _ _ _ Ha). pose proof (zget_Some_range _ _ _ Hb).
  destruct (decide (j < zlen l)).
  - rewrite zget_app_l in Ha, Hb by lia. by eapply (increasing_zget l i j).
  - rewrite zget_app_r in Hb by lia. destruct (decide (i < zlen l)).
    + rewrite zget_app_l in Ha by lia.
      assert (a <= x) by (destruct (decide (i = zlen l - 1)) as [->|]; [rewrite Hx in Ha; injection Ha as ->; lia|];
        pose proof (increasing_zget l i (zlen l - 1) a x Hl Ha Hx ltac:(lia)); lia).
      assert (y <= b) by (destruct (decide (j - zlen l = 0)) as [E|]; [rewrite E, Hy in Hb; injection Hb as ->; lia|];
        pose proof (increasing_zget k 0 (j - zlen l) y b Hk Hy Hb ltac:(lia)); lia). lia.
    + rewrite zget_app_r in Ha by lia. eapply (increasing_zget k); [done|done|done|lia].
Qed.

Lemma loop_step D i previous v rs s :
  0 <= i < numBlocks v -> loop_inv D i previous v rs -> block_accepted v i previous s ->
  exists b bs, block v i = Some b /\ block_of b bs /\ loop_inv D (i + 1) s.1 s.2 (rs ++ bs).
Proof.
  intros Hi Hinv (b & bh & bs & a' & Eb & Hb & Eh & Ed & Hz & Hbound & H0 & Hlast & Ea & Es). destruct s as [p v'].
  cbn [fst snd] in *. subst v'. pose proof (li_framed _ _ _ _ _ Hinv) as Hf. pose proof (framed_blocks v D Hf) as Hnb.
  pose proof (li_count _ _ _ _ _ Hinv) as Hc. pose proof (bo_size _ _ Hb) as Hsz. unfold block_size in Hz.
  assert (zlen rs = i * 256) as Hlen by lia. destruct (zget_in bs 0) as [r0 Hr0]; [lia|].
  destruct (bo_header _ _ Hb) as (bh' & Eh' & Hh0 & Hst). rewrite Eh in Eh'. injection Eh' as <-.
  rewrite Hr0 in Hh0. injection Hh0 as Hh0. pose proof (fr_count _ _ Hf). pose proof (fr_max _ _ Hf).
  assert (forall k r, bs.[k] = Some r -> (rs ++ bs).[i * 256 + k] = Some r) as Hin.
  { intros k r Hk. pose proof (zget_Some_range _ _ _ Hk). rewrite zget_app_r by lia. rewrite <- Hk. f_equal. lia. }
  destruct (affine_append b bs (affine v) (rs ++ bs) (i * 256) Hb) as (a'' & Ea' & Haff);
    [by apply affine_extend, (li_affine _ _ _ _ _ Hinv)|zlen|lia|done|].
  rewrite Ea in Ea'. injection Ea' as <-. exists b, bs. split; [done|]. split; [done|]. constructor.
  - destruct Hf. by constructor.
  - rewrite zlen_app. cbn [count_]. lia.
  - rewrite fmap_app. destruct (decide (i = 0)) as [->|].
    + assert (rs = []) as -> by (destruct rs; [done|rewrite zlen_cons in Hlen; pose proof (zlen_nonneg rs); lia]). apply Hb.
    + pose proof (li_last _ _ _ _ _ Hinv ltac:(lia)) as Hl.
      eapply (increasing_app _ _ previous (firstDocId r0)); [apply Hinv|apply Hb|rewrite zlen_fmap, zget_fmap; done|by rewrite zget_fmap, Hr0|].
      destruct (H0 r0 Hr0); lia.
  - intros _. destruct (decide (i = 0)) as [->|].
    + replace 0 with (0 * 256 + 0) at 1 by lia. rewrite (Hin 0 r0 Hr0). simpl. f_equal. destruct (H0 r0 Hr0); lia.
    + rewrite zget_app_l by lia. apply Hinv. lia.
  - intros _. destruct (zget_in bs (zlen bs - 1)) as [rl Hrl]; [lia|].
    replace (zlen (rs ++ bs) - 1) with (i * 256 + (zlen bs - 1)) by (rewrite zlen_app; lia).
    by rewrite (Hin _ _ Hrl), <- Hlast, Hrl.
  - apply Forall_app. split; [apply Hinv|done].
  - intros j Hj. destruct (decide (j < i)).
    + destruct (li_block _ _ _ _ _ Hinv j) as (b' & E1 & E2 & E3); [lia|]. exists b'. split; [exact E1|]. split.
      * unfold BLOCK_SIZE in *. by rewrite chunk_app_l by lia.
      * unfold BLOCK_SIZE in *. by rewrite zget_app_l by lia.
    + assert (j = i) as -> by lia. exists b. split; [exact Eb|]. split.
      * unfold BLOCK_SIZE in *. rewrite (chunk_app_r _ _ _ _ i) by lia. rewrite Z.sub_diag, chunk_all by lia. done.
      * unfold BLOCK_SIZE. rewrite <- (Z.add_0_r (i * 256)), (Hin 0 r0 Hr0). etransitivity; [exact Ed|]. by rewrite Hr0.
  - cbn [dense]. intros [Hd Hd2%bool_decide_eq_true_1]%andb_prop k r Hk. destruct (decide (k < zlen rs)).
    + rewrite zget_app_l in Hk by done. by apply (li_dense _ _ _ _ _ Hinv Hd).
    + rewrite zget_app_r in Hk by lia. destruct Hst as [[_ Hk2]|[Hs0 _]]; [|lia].
      rewrite (Hk2 _ _ Hk). lia.
  - exact Haff.
Qed.

Lemma loop_done D previous v rs : loop_inv D (numBlocks v) previous v rs -> file_of v rs.
Proof.
  intros Hinv. pose proof (li_framed _ _ _ _ _ Hinv) as Hf. pose proof (framed_blocks v D Hf).
  pose proof (li_count _ _ _ _ _ Hinv). pose proof (fr_count _ _ Hf).
  constructor; [lia|lia|apply Hf|apply Hinv|apply Hinv; lia|apply Hinv|apply Hinv|apply Hinv|apply Hinv].
Qed.

Lemma loop_start D v : framed v D -> dense v = true -> affine v = VersionAffinePrefix.fresh -> loop_inv D 0 0 v [].
Proof.
  intros Hv Hd Ha. pose proof (fr_count _ _ Hv). constructor.
  - done.
  - change (zlen (@nil VersionRun)) with 0. lia.
  - constructor.
  - lia.
  - lia.
  - apply List.Forall_nil.
  - lia.
  - intros _ k r Hk. by rewrite zget_nil in Hk.
  - rewrite Ha. apply affine_fresh.
Qed.

Definition same_file (v v' : runs) : Prop := count_ v' = count_ v /\ maxDoc_ v' = maxDoc_ v.

Lemma loop_spec v D : framed v D -> dense v = true -> affine v = VersionAffinePrefix.fresh ->
  may_throw (Some message) (foldE (checkBlock D (maxDoc_ v)) (0, v) (seqZ 0 (numBlocks v)))
    (fun s => same_file v s.2 /\ exists rs, file_of s.2 rs).
Proof.
  intros Hv Hd Ha. pose proof (framed_blocks v D Hv) as Hnb. eapply may_throw_mono.
  - apply (may_throw_foldE _ (fun i s => same_file v s.2 /\ exists rs, loop_inv D i s.1 s.2 rs)); [lia| |].
    + split; [done|]. exists []. by apply loop_start.
    + intros i [p v'] Hi ([Hs1 Hs2] & rs & Hinv). cbn [fst snd] in *. rewrite <- Hs2.
      pose proof (li_framed _ _ _ _ _ Hinv) as Hf.
      assert (numBlocks v' = numBlocks v) as En by (unfold numBlocks; by rewrite Hs1).
      eapply may_throw_mono; [apply (checkBlock_spec v' D Hf i p); lia|]. intros s Hacc.
      destruct (loop_step D i p v' rs s ltac:(lia) Hinv Hacc) as (b' & bs' & _ & _ & Hinv'). split; [|by eexists].
      destruct Hacc as (b & bh & bs & a' & _ & _ & _ & _ & _ & _ & _ & _ & _ & ->). by split; cbn.
  - intros [p v'] ([Hs1 Hs2] & rs & Hinv). cbn [fst snd] in *. split; [done|]. exists rs. rewrite Z.add_0_l in Hinv.
    replace (numBlocks v) with (numBlocks v') in Hinv by (unfold numBlocks; by rewrite Hs1). by eapply loop_done.
Qed.

(** The constructor throws or gives a well-formed file. *)
Lemma make_spec headerOffset count maxDoc :
  0 <= headerOffset -> is_u 32 count -> is_s 32 maxDoc ->
  may_throw (Some message) (make mem headerOffset count maxDoc)
    (fun v => count_ v = count /\ maxDoc_ v = maxDoc /\ exists rs, file_of v rs).
Proof.
  intros Hh Hc Hm. unfold is_u in Hc. unfold is_s in Hm. change (32 - 1) with 31 in Hm.
  unfold make, sizeof_VersionRunsHeader. cbv zeta. case_decide as H1; [done|].
  rewrite (uwrap_id 32 maxDoc) in H1 by (unfold is_u; lia).
  destruct (load_in 4 headerOffset) as (enc & Ee & _); [lia..|]. eapply may_throw_lift; [exact Ee|].
  destruct (load_in 4 (headerOffset + 4)) as (hc & Ec & _); [lia..|]. eapply may_throw_lift; [exact Ec|].
  destruct (load_in 8 (headerOffset + 8)) as (D & ED & HD); [lia..|]. eapply may_throw_lift; [exact ED|].
  destruct (load_in 8 (headerOffset + 16)) as (bytes & Eb & Hb); [lia..|]. eapply may_throw_lift; [exact Eb|]. cbv beta.
  unfold is_u in HD, Hb. case_decide as H2; [done|]. case_decide as H3; [done|].
  set (v := Runs _ _ _ _ _ _ _ _) in *.
  assert (framed v D) as Hv.
  { assert (Z.land headerOffset 7 = 0 /\ Z.land bytes 7 = 0) as [Ha1 Ha2].
    { split; [destruct (decide (Z.land headerOffset 7 = 0))|destruct (decide (Z.land bytes 7 = 0))]; (done || tauto). }
    revert Ha1 Ha2. change 7 with (Z.ones 3). rewrite !Z.land_ones by lia. change (2 ^ 3) with 8. intros Ha1 Ha2.
    unfold sizeof_VersionBlockDirectory in H3.
    constructor; unfold v; cbn [file data directory count_ maxDoc_]; fold v; [done|lia| |lia|lia|lia|lia|lia].
    pose proof (Z.div_mod headerOffset 8 ltac:(lia)). pose proof (Z.div_mod bytes 8 ltac:(lia)).
    symmetry. apply (Z.mod_unique_pos _ _ (headerOffset / 8 + 3 - bytes / 8)); lia. }
  eapply may_throw_bind; [apply (loop_spec v D Hv); done|]. intros [p v'] ([Hs1 Hs2] & rs & Hrs). cbn [fst snd] in *.
  cbn [may_throw]. split; [exact Hs1|]. split; [exact Hs2|]. by exists rs.
Qed.

End validation.

(** * What the reader guarantees *)

Section guarantees.
Import VersionRuns.

(** The runs an iterator returns until its end. *)
Fixpoint drain (fuel : nat) (v : runs) (it : Iterator.iterator) : option (list VersionRun) :=
  match fuel with
  | O => None
  | S fuel =>
      '(o, it) ← Iterator.next v it;
      match o with
      | None => Some []
      | Some r => rest ← drain fuel v it; Some (r :: rest)
      end
  end.

(** The outcomes of a sequence of lookups of one cursor. *)
Fixpoint births (v : runs) (docs : list Z) (c : Cursor.cursor) : list (outcome Z) :=
  match docs with
  | [] => []
  | doc :: docs => let '(o, c) := Cursor.birth v doc c in o :: births v docs c
  end.

(** What a lookup should return. *)
Definition expected_birth (rs : list VersionRun) (maxDoc doc : Z) : outcome Z :=
  if decide (0 <= doc < maxDoc) then lift (birth_of rs doc) else Throw "Document has no request birth version".

Lemma drain_spec v rs it fuel : file_of v rs -> iterator_inv v rs it ->
  zlen rs - Iterator.index it < Z.of_nat fuel -> drain fuel v it = Some (drop (Z.to_nat (Iterator.index it)) rs).
Proof.
  intros Hv. revert it. induction fuel as [|fuel IH]; intros it Hit Hf; [destruct Hit; lia|]. cbn [drain].
  pose proof Hit as [Hi _]. destruct (decide (Iterator.index it = zlen rs)) as [E|].
  - rewrite (next_end v rs Hv it E). opt. rewrite drop_ge; [done|]. unfold zlen in E. lia.
  - destruct (zget_in rs (Iterator.index it)) as [r Hr]; [lia|].
    destruct (next_run v rs Hv it r Hit Hr) as (it' & -> & Hit' & E'). opt. rewrite IH by (done || lia). opt.
    rewrite E'. replace (Z.to_nat (Iterator.index it + 1)) with (S (Z.to_nat (Iterator.index it))) by lia. f_equal.
    symmetry. apply drop_S. unfold zget in Hr. by rewrite decide_True in Hr by lia.
Qed.

Lemma births_spec v rs docs c : file_of v rs -> cursor_inv rs c -> Forall (is_s 32) docs ->
  births v docs c = expected_birth rs (maxDoc_ v) <$> docs.
Proof.
  intros Hv. revert c. induction docs as [|d docs IH]; intros c Hc Hd; [done|]. apply Forall_cons in Hd as [Hd Hds].
  cbn [births]. destruct (birth_spec v rs Hv d c Hd Hc) as (o & c' & -> & Hc' & Ho). rewrite fmap_cons. f_equal; [|by apply IH].
  unfold expected_birth. case_decide; [destruct Ho as (n & -> & ->)|]; done.
Qed.

End guarantees.

(** C7: the constructor on arbitrary bytes.  It never reads outside the file or fails an
    assertion: it throws its error, or gives an object whose runs are the canonical ones,
    one per entry, the first starting at document 0, the starts strictly increasing below
    the number of documents, each read in place by index and all of them returned in order
    by an iterator, which then ends. *)
Theorem accepted_files (mem : list Z) (headerOffset count maxDoc : Z)
    (Hmem : is_bytes mem) (Hsize : zlen mem < 2 ^ 62) (Hh : 0 <= headerOffset) (Hc : is_u 32 count) (Hm : is_s 32 maxDoc) :
  VersionRuns.make mem headerOffset count maxDoc = VersionRuns.invalid \/
  exists v rs, VersionRuns.make mem headerOffset count maxDoc = Ret v /\
    zlen rs = count /\ firstDocId <$> rs.[0] = Some 0 /\ increasing (firstDocId <$> rs) /\
    Forall (fun r => 0 <= firstDocId r < maxDoc /\ is_u 64 (version r)) rs /\
    (forall i r, rs.[i] = Some r -> VersionRuns.run v i = Some r) /\
    drain (S (length rs)) v VersionRuns.Iterator.fresh = Some rs.
Proof.
  pose proof (make_spec mem Hmem Hsize headerOffset count maxDoc Hh Hc Hm) as H. unfold may_throw, VersionRuns.invalid in *.
  destruct (VersionRuns.make _ _ _ _) as [v|m|]; [right|left; by injection H as ->|done].
  destruct H as (<- & <- & rs & Hv). exists v, rs. split; [done|]. split; [symmetry; apply Hv|]. split; [apply Hv|].
  split; [apply Hv|]. split; [|split].
  - apply Forall_forall. intros r [k Hk]%zget_elem. split; [by apply (start_bound v rs Hv k)|by apply (version_range v rs Hv k)].
  - intros i r. by apply (run_spec v rs Hv).
  - rewrite (drain_spec v rs _ _ Hv (fresh_iterator_inv v rs)); [by rewrite drop_0|]. simpl. unfold zlen. lia.
Qed.

(** The file of one run, of version 7 from document 0. *)
Definition one_run : list Z :=
  NumColumnWriter.info_bytes (NumBlockInfo.Info 40 7 1 0) ++ store_le 4 0 ++ store_le 4 1 ++ replicate 16 0 ++
  (store_le 4 0 ++ store_le 4 0 ++ store_le 8 0) ++ (store_le 4 2 ++ store_le 4 1 ++ store_le 8 56 ++ store_le 8 96).

Lemma accepted_files_witness :
  exists v rs, VersionRuns.make one_run 72 1 3 = Ret v /\ zlen rs = 1 /\
    drain (S (length rs)) v VersionRuns.Iterator.fresh = Some rs.
Proof.
  destruct (accepted_files one_run 72 1 3) as [E|(v & rs & E & Hz & _ & _ & _ & _ & Hd)].
  - apply (bool_decide_unpack _). by vm_compute.
  - by vm_compute.
  - lia.
  - unfold is_u. lia.
  - unfold is_s. simpl. lia.
  - by vm_compute in E.
  - exists v, rs. split; [exact E|]. split; [exact Hz|exact Hd].
Defined.

(** C10: the birth version of a document.  On an accepted file, in any sequence of lookups of
    one cursor, in any order, each lookup returns the version of the last run that starts at
    or before the document, or throws for a document outside the segment: the cached run,
    the cached frames and the affine prefix never change an answer. *)
Theorem birth_lookups (mem : list Z) (headerOffset count maxDoc : Z) (v : VersionRuns.runs) (docs : list Z)
    (Hmem : is_bytes mem) (Hsize : zlen mem < 2 ^ 62) (Hh : 0 <= headerOffset) (Hc : is_u 32 count) (Hm : is_s 32 maxDoc)
    (Hv : VersionRuns.make mem headerOffset count maxDoc = Ret v) (Hd : Forall (is_s 32) docs) :
  exists rs, zlen rs = count /\ (forall i, 0 <= i < count -> VersionRuns.run v i = rs.[i]) /\
    births v docs VersionRuns.Cursor.fresh = expected_birth rs maxDoc <$> docs /\
    forall doc, 0 <= doc < maxDoc -> is_Some (birth_of rs doc).
Proof.
  pose proof (make_spec mem Hmem Hsize headerOffset count maxDoc Hh Hc Hm) as H. rewrite Hv in H.
  destruct H as (<- & <- & rs & Hf). exists rs. pose proof (fo_count _ _ Hf). split; [done|]. split; [|split].
  - intros i Hi. destruct (zget_in rs i) as [r Hr]; [lia|]. rewrite Hr. by apply (run_spec v rs Hf).
  - apply births_spec; [done|apply fresh_inv|done].
  - intros doc Hdoc. destruct (run_at_spec v rs Hf doc) as [Hk _]; [lia|]. destruct (zget_in rs _ Hk) as [r Hr].
    unfold birth_of. rewrite Hr. by eexists.
Qed.

Lemma birth_lookups_witness :
  exists v rs, VersionRuns.make one_run 72 1 3 = Ret v /\
    births v [2; -1; 0; 3] VersionRuns.Cursor.fresh = expected_birth rs 3 <$> [2; -1; 0; 3].
Proof.
  destruct (VersionRuns.make one_run 72 1 3) as [v| |] eqn:E; [|by vm_compute in E..].
  destruct (birth_lookups one_run 72 1 3 v [2; -1; 0; 3]) as (rs & _ & _ & Hb & _).
  - apply (bool_decide_unpack _). by vm_compute.
  - by vm_compute.
  - lia.
  - unfold is_u. lia.
  - unfold is_s. simpl. lia.
  - exact E.
  - apply (bool_decide_unpack _). by vm_compute.
  - exists v, rs. split; [exact eq_refl|exact Hb].
Defined.
