(* ===== verification/VersionRunBuilder.v ===== *)
(** Request versions of documents, the writer: [luxir/index/VersionRunBuilder.h] and the two
    clients of [luxir/index/PostingsWriter.h] that write a file of runs.  A stream is the
    list of the bytes written to it; [Undef] is a failed assertion or an access outside an
    array. *)

From S2P Require Import Prelude Search LinearPack LinearFit NumFormat NumColumn VersionRuns.

(** * The output *)

Module VersionRunsOutput.

Record output := Output { out : list Z; start : Z; directory : list (Z * Z) }.

Definition make (out : list Z) : output :=
  let out := align 8 out in Output out (zlen out) [].

Definition add (block : list Z) (firstDoc : Z) (o : output) : output :=
  Output (out o ++ block) (start o) (directory o ++ [(firstDoc, zlen (out o) - start o)]).

Definition entry_bytes (e : Z * Z) : list Z := store_le 4 e.1 ++ store_le 4 0 ++ store_le 8 e.2.

(** The location is the offset of the header; there is none for no runs. *)
Definition finish (count : Z) (o : output) : option Z * output :=
  if decide (count = 0) then (None, o)
  else
    let directoryOffset := zlen (out o) - start o in
    let out1 := out o ++ mjoin (entry_bytes <$> directory o) in
    let location := zlen out1 in
    let header := store_le 4 VersionRuns.ENCODING ++ store_le 4 count ++ store_le 8 directoryOffset
                  ++ store_le 8 (zlen out1 - start o + sizeof_VersionRunsHeader) in
    (Some location, Output (out1 ++ header) (start o) (directory o)).

End VersionRunsOutput.

(** * The builder *)

Module VersionRunBuilder.

(** The data, its size and the first document of a sealed block. *)
Record SealedBlock := Sealed { sdata : list Z; ssize : Z; sfirstDocId : Z }.

Record builder := Builder {
  tail : list VersionRun;
  sealed : list SealedBlock;
  sealedBytes : Z;
  sealedLast : VersionRun;
  sealedCount : Z;
  sealedDense : bool;
  tailDense : bool;
  affine : VersionAffinePrefix.prefix }.

Definition fresh : builder :=
  Builder [Run 0 0] [] 0 (Run 0 0) 0 true true VersionAffinePrefix.fresh.

(** ** Encoding a block *)

(** The loop that looks for a start off the common step. *)
Fixpoint stepLoop (runs : list VersionRun) (is_ : list Z) (step : Z) : option Z :=
  match is_ with
  | [] => Some step
  | i :: is_ =>
      a ← runs.[i]; b ← runs.[i - 1];
      if decide (u32 (firstDocId a - firstDocId b) <> step) then Some 0 else stepLoop runs is_ step
  end.

(** [memcpy] into a vector. *)
Definition overwrite (block : list Z) (off : Z) (bytes : list Z) : option (list Z) :=
  if decide (0 <= off /\ off + zlen bytes <= zlen block)
  then Some (take (Z.to_nat off) block ++ bytes ++ drop (Z.to_nat (off + zlen bytes)) block) else None.

Definition header_bytes (h : VersionBlockHeader) : list Z :=
  NumColumnWriter.info_bytes (hversions h) ++ store_le 4 (hfirstDocId h) ++ store_le 4 (hstep h).

Definition encode (runs : list VersionRun) : option (list Z) :=
  r0 ← runs.[0];
  step ← (if decide (zlen runs < 2) then Some 1 else r1 ← runs.[1]; Some (u32 (firstDocId r1 - firstDocId r0)));
  step ← stepLoop runs (seqZ 2 (zlen runs - 2)) step;
  let block := replicate (Z.to_nat (sizeof_VersionBlockHeader + (if decide (step <> 0) then 0 else sizeof_NumBlockInfo))) 0 in
  '(versions, block) ← NumBlockCodec.append block ((fun r => s64 (version r)) <$> runs) true;
  block ← (if decide (step = 0) then
             '(starts, block) ← NumBlockCodec.append block (firstDocId <$> runs) false;
             overwrite block sizeof_VersionBlockHeader (NumColumnWriter.info_bytes starts)
           else Some block);
  block ← overwrite block 0 (header_bytes (BlockHeader versions (firstDocId r0) step));
  let size := Z.land (zlen block + LinearPack.TAIL_PAD + 7) (unot 64 7) in
  Some (block ++ replicate (Z.to_nat (size - zlen block)) 0).

(** ** Adding runs *)

Section sink.
Context {W : Type} (sink : option (list Z -> Z -> W -> W)).

Definition seal (b : builder) (w : W) : outcome (builder * W) :=
  if decide (zlen (tail b) = VersionRuns.BLOCK_SIZE) then
    block ← lift (encode (tail b));
    front ← lift ((tail b).[0]);
    back ← lift ((tail b).[zlen (tail b) - 1]);
    let '(sealed', bytes', w) :=
      match sink with
      | Some sink => (sealed b, sealedBytes b, sink block (firstDocId front) w)
      | None => (sealed b ++ [Sealed block (u32 (zlen block)) (firstDocId front)], sealedBytes b + zlen block, w)
      end in
    affine' ← lift (VersionAffinePrefix.append (VersionBlock.Block block 0 (u32 (zlen (tail b)))) (sealedCount b) (affine b));
    Ret (Builder [] sealed' bytes' back (u32 (sealedCount b + zlen (tail b)))
           (sealedDense b && (tailDense b && bool_decide (firstDocId front = sealedCount b))) true affine', w)
  else Undef.

Definition size (b : builder) : Z := sealedCount b + zlen (tail b).

Definition set_tail (t : list VersionRun) (d : bool) (b : builder) : builder :=
  Builder t (sealed b) (sealedBytes b) (sealedLast b) (sealedCount b) (sealedDense b) d (affine b).

(** The run at the end of the tail, which stays dense while its starts are consecutive. *)
Definition push (start version : Z) (b : builder) : outcome builder :=
  let t := tail b ++ [Run start version] in
  front ← lift (t.[0]);
  Ret (set_tail t (if decide (zlen t > 1)
                   then tailDense b && bool_decide (start = u64 (firstDocId front + zlen t - 1)) else tailDense b) b).

Definition add (start version : Z) (b : builder) (w : W) : outcome (builder * W) :=
  let lastRun := default (sealedLast b) (last (tail b)) in
  if decide (start < firstDocId lastRun) then Throw "Request-version runs must increase"
  else if decide (start = firstDocId lastRun) then
    if decide (tail b = []) then Undef
    else
      let n := zlen (tail b) in
      t ← lift (zset (tail b) (n - 1) (Run (firstDocId lastRun) version));
      pop ← (if decide (size b > 1) then
               before ← lift (if decide (n > 1) then r ← t.[n - 2]; Some (VersionRuns.version r)
                              else Some (VersionRuns.version (sealedLast b)));
               Ret (bool_decide (before = version))
             else Ret false);
      Ret (set_tail (if (pop : bool) then take (Z.to_nat (n - 1)) t else t) (tailDense b) b, w)
  else if decide (VersionRuns.version lastRun <> version) then
    '(b, w) ← (if decide (zlen (tail b) = VersionRuns.BLOCK_SIZE) then seal b w else Ret (b, w));
    b ← push start version b;
    Ret (b, w)
  else Ret (b, w).

(** The count of runs and the output. *)
Definition finish (b : builder) (maxDoc : Z) (o : VersionRunsOutput.output) : outcome (Z * VersionRunsOutput.output) :=
  let o := match sink with
           | Some _ => o
           | None => foldl (fun o s => VersionRunsOutput.add (sdata s) (sfirstDocId s) o) o (sealed b)
           end in
  let n := match last (tail b) with
           | Some back => if decide (firstDocId back = maxDoc) then zlen (tail b) - 1 else zlen (tail b)
           | None => zlen (tail b)
           end in
  if decide (n = 0) then Ret (u32 (sealedCount b + u32 n), o)
  else
    block ← lift (encode (take (Z.to_nat n) (tail b)));
    front ← lift ((tail b).[0]);
    Ret (u32 (sealedCount b + u32 n), VersionRunsOutput.add block (firstDocId front) o).

End sink.

(** ** Lookups while building *)

Record Lookup := MkLookup { lblock : Z; lrun : Z; lfirst : Z; lend : Z; lversion : Z }.

Definition no_lookup : Lookup := MkLookup 0 0 0 0 0.

Definition lookupDense (b : builder) (doc : Z) : option Z :=
  if decide (tail b <> [] /\ doc >= sealedCount b) then
    r ← (tail b).[Z.min (u32 (doc - sealedCount b)) (u32 (zlen (tail b) - 1))]; Some (VersionRuns.version r)
  else
    let doc := Z.min doc (u32 (sealedCount b - 1)) in
    s ← (sealed b).[doc / VersionRuns.BLOCK_SIZE];
    VersionBlock.version (VersionBlock.Block (sdata s) 0 VersionRuns.BLOCK_SIZE) (doc `mod` VersionRuns.BLOCK_SIZE).

Definition lookupTail (b : builder) (doc : Z) (front : VersionRun) (l : Lookup) : option (Z * Lookup) :=
  let n := zlen (tail b) in
  index ← (if tailDense b then Some (Z.min (u32 (doc - firstDocId front)) (u32 (n - 1)))
           else VersionBlock.find doc (lrun l) n (fun i => firstDocId <$> (tail b).[i]));
  r ← (tail b).[index];
  end_ ← (if decide (u32 (index + 1) < n) then firstDocId <$> (tail b).[u32 (index + 1)] else Some (u32 (doc + 1)));
  Some (VersionRuns.version r, MkLookup (lblock l) index (firstDocId r) end_ (VersionRuns.version r)).

Definition lookupSealed (b : builder) (doc : Z) (l : Lookup) : option (Z * Lookup) :=
  let n := zlen (sealed b) in
  if decide (n <> 0) then
    bi ← (if sealedDense b then Some (Z.min (doc / VersionRuns.BLOCK_SIZE) (u32 (n - 1)))
          else VersionBlock.find doc (lblock l) n (fun i => sfirstDocId <$> (sealed b).[i]));
    s ← (sealed b).[bi];
    let block := VersionBlock.Block (sdata s) 0 VersionRuns.BLOCK_SIZE in
    ri ← VersionBlock.find_run block doc (lrun l);
    first ← VersionBlock.start block ri;
    end_ ← (if decide (u32 (ri + 1) < VersionBlock.size block) then VersionBlock.start block (u32 (ri + 1))
            else if decide (u32 (bi + 1) < n) then sfirstDocId <$> (sealed b).[u32 (bi + 1)]
            else match tail b with front :: _ => Some (firstDocId front) | [] => Some (u32 (doc + 1)) end);
    v ← VersionBlock.version block ri;
    Some (v, MkLookup bi ri first end_ v)
  else None.

(** A builder with a sink must not be asked about its sealed blocks. *)
Definition lookupBirth (sink : bool) (b : builder) (doc : Z) (l : Lookup) : option (Z * Lookup) :=
  let dense := match tail b with front :: _ => bool_decide (firstDocId front = sealedCount b) | [] => true end in
  if sealedDense b && (tailDense b && dense) then v ← lookupDense b doc; Some (v, l)
  else if decide (doc >= lfirst l /\ doc < lend l) then Some (lversion l, l)
  else
    match tail b with
    | front :: _ =>
        if decide (doc >= firstDocId front) then lookupTail b doc front l
        else if sink then None else lookupSealed b doc l
    | [] => if sink then None else lookupSealed b doc l
    end.

Definition birth (sink : bool) (b : builder) (doc : Z) (l : Lookup) : option (Z * Lookup) :=
  if decide (doc < VersionAffinePrefix.count (affine b)) then Some (VersionAffinePrefix.birth (affine b) doc, l)
  else lookupBirth sink b doc l.

End VersionRunBuilder.

(** * The clients *)

Module PostingsWriter.

(** The inverter's runs: the number of runs, the location of their header, and the stream. *)
Definition writeVersionRuns (stream : list Z) (builder : VersionRunBuilder.builder) (maxDoc : Z)
    : outcome (option (Z * option Z * list Z)) :=
  if decide (maxDoc = 0) then Ret None
  else
    '(count, o) ← VersionRunBuilder.finish (W := unit) None builder (u32 maxDoc) (VersionRunsOutput.make stream);
    let '(location, o) := VersionRunsOutput.finish count o in
    Ret (Some (count, location, VersionRunsOutput.out o)).

(** The runs of a merge.  [stream] is the content of the stream the writer takes when it
    first needs one; the builder's sink adds its blocks to the output over it. *)
Record VersionRunsWriter := Writer {
  stream : list Z;
  output : option VersionRunsOutput.output;
  builder : VersionRunBuilder.builder;
  lastStart : Z;
  added : bool }.

Definition make (stream : list Z) : VersionRunsWriter := Writer stream None VersionRunBuilder.fresh 0 false.

Definition target (stream : list Z) (output : option VersionRunsOutput.output) : VersionRunsOutput.output :=
  default (VersionRunsOutput.make stream) output.

Definition sink (stream block : list Z) (first : Z) (output : option VersionRunsOutput.output)
    : option VersionRunsOutput.output :=
  Some (VersionRunsOutput.add block first (target stream output)).

Definition add (firstDocId version : Z) (w : VersionRunsWriter) : outcome VersionRunsWriter :=
  if (if added w then bool_decide (firstDocId <= lastStart w) else bool_decide (firstDocId <> 0))
  then Throw "Request-version runs must start at zero and increase"
  else
    '(b, o) ← VersionRunBuilder.add (Some (sink (stream w))) firstDocId version (builder w) (output w);
    Ret (Writer (stream w) o b firstDocId true).

(** Nothing is written when no run was added. *)
Definition finish (maxDoc : Z) (w : VersionRunsWriter) : outcome (option (Z * option Z * list Z)) :=
  if added w then
    '(count, o) ← VersionRunBuilder.finish (Some (sink (stream w))) (builder w) (u32 maxDoc) (target (stream w) (output w));
    let '(location, o) := VersionRunsOutput.finish count o in
    Ret (Some (count, location, VersionRunsOutput.out o))
  else Ret None.

End PostingsWriter.

(** * Encoded blocks *)

Section encoding.
Import NumBlockInfo NumColumnWriter.

Lemma load_info_read pre b post : info_ok b -> load_info (pre ++ info_bytes b ++ post) (zlen pre) = Some b.
Proof.
  intros Hb.
  pose proof (blockInfo_read (NumColumn.Column (pre ++ info_bytes b ++ post) 0 (zlen pre) 1 true) pre [b] post 0 b) as H.
  unfold NumColumn.blockInfo in H. cbn [NumColumn.mem NumColumn.blockMeta] in H. rewrite decide_True in H by done.
  rewrite Z.mul_0_r, Z.add_0_r in H. apply H; [|done..]. change (mjoin (info_bytes <$> [b])) with (info_bytes b ++ []).
  by rewrite app_nil_r.
Qed.

Lemma codec_append out vs g :
  0 < zlen vs <= NumColumnFormat.BLOCK_SIZE -> Forall (is_s 64) vs -> is_bytes out -> zlen out < 2 ^ 40 ->
  exists b ext, NumBlockCodec.append out vs g = Some (b, out ++ ext) /\ is_bytes ext /\ zlen ext <= 8 * zlen vs + 8 /\
    payload_at (out ++ ext) (zlen out) b vs /\ payloadOffset b = zlen out /\ info_ok b /\ 0 < gcd b /\ (g = false -> gcd b = 1).
Proof.
  intros Hz Hvs Hout Hlen. unfold NumBlockCodec.append. pose proof (zlen_nonneg out).
  destruct (planBlock_spec vs g false) as (plan & qs & E & Hp); [intros Hn; rewrite Hn in Hz; change (zlen (@nil Z)) with 0 in Hz; lia|lia|done|]. rewrite E. opt.
  destruct (setPayload (zlen out) (NumColumnFormat.pbits plan) (NumColumnFormat.info plan)) as [b|] eqn:Eb.
  2: { unfold setPayload in Eb. rewrite decide_True in Eb; [done|]. change OFFSET_MASK with (2 ^ 56 - 1). lia. }
  rewrite bind_Some_l.
  destruct (payload_written out 0 vs g false plan qs (zlen out) b Hp Hvs ltac:(lia) Hout ltac:(lia) Eb) as (out' & E' & Hw); [lia|].
  destruct (written_ext _ _ _ _ _ _ Hw) as (ext & -> & He & Hle). exists b, ext. split; [exact E'|].
  split; [done|]. split; [done|].
  assert (payloadOffset b = zlen out) as Hpo.
  { destruct (bits_setPayload (zlen out) (NumColumnFormat.pbits plan) (NumColumnFormat.info plan) b) as (_ & E1 & _); [done| |done|done].
    destruct (planned_form _ _ _ _ _ Hp) as [(-> & _)|Hq]; [done|]. rewrite (packed_bits _ _ _ Hq).
    pose proof (fits_bits _ _ _ (packed_fits _ _ _ Hq)). unfold is_u. lia. }
  split; [pose proof (written_payload _ _ _ _ _ _ Hw) as H'; by rewrite Hpo in H'|]. split; [done|].
  split; [apply Hw|]. rewrite (written_gcd _ _ _ _ _ _ Hw). split; [apply (planned_gcd _ _ _ _ _ Hp)|].
  apply (planned_no_gcd _ _ _ _ _ Hp).
Qed.

(** ** Blocks inside a file *)

Lemma slice_app_r {A} (l k : list A) off n : zlen l <= off -> slice (l ++ k) off n = slice k (off - zlen l) n.
Proof.
  intros Ho. pose proof (zlen_nonneg l). unfold slice. rewrite zlen_app. destruct (decide (0 <= off /\ _)).
  - rewrite decide_True by lia. rewrite drop_app_ge by (unfold zlen in *; lia). do 3 f_equal. unfold zlen. lia.
  - by rewrite decide_False by lia.
Qed.

(** The payload of a block whose first bytes are replaced and which is put into a file. *)
Lemma payload_embed old new rest pre post off b vs :
  payload_at (old ++ rest) off b vs -> zlen old <= off -> zlen new = zlen old ->
  payload_at (pre ++ (new ++ rest) ++ post) (zlen pre + off) b vs.
Proof.
  intros Hp Ho Hn.
  assert (forall n l, slice (old ++ rest) off n = Some l -> slice (pre ++ (new ++ rest) ++ post) (zlen pre + off) n = Some l) as Hs.
  { intros n l Hl. rewrite slice_app_r in Hl by done. apply slice_mono. rewrite slice_app_r by lia. by rewrite Hn. }
  destruct Hp as [[H1 H2]|(rs & out & H1 & H2 & H3 & H4)]; [left; auto|right]. exists rs, out. auto.
Qed.

(** A descriptor and its payload in memory are a column of one block. *)
Lemma block_column mem data meta b vs g :
  is_bytes mem -> 0 <= data -> 0 < zlen vs <= NumColumnFormat.BLOCK_SIZE -> Forall (is_s 64) vs ->
  load_info mem meta = Some b -> payload_at mem (data + payloadOffset b) b vs -> 0 <= payloadOffset b ->
  room mem (data + payloadOffset b) (zlen vs) (bits b) -> (g = false -> gcd b = 1) ->
  column_of (NumColumn.Column mem data meta (zlen vs) g) vs.
Proof.
  intros Hm Hd Hz Hvs Ei Hp Hpo Hroom Hg. set (c := NumColumn.Column mem data meta (zlen vs) g).
  assert (NumColumn.numBlocks c = 1) as Hnb.
  { unfold NumColumn.numBlocks, NumColumnFormat.BLOCK_SIZE in *. simpl. rewrite Z.quot_div_nonneg by lia.
    symmetry. apply (Z.div_unique_pos _ _ _ (zlen vs - 1)); lia. }
  constructor; cbn [NumColumn.mem NumColumn.nValues c]; [done|done|done|unfold NumColumnFormat.BLOCK_SIZE in *; lia|].
  intros k Hk. assert (k = 0) as -> by lia. exists b. split.
  { unfold NumColumn.blockInfo. rewrite decide_True by lia. cbn [NumColumn.mem NumColumn.blockMeta c].
    rewrite Z.mul_0_r, Z.add_0_r. exact Ei. }
  assert (NumColumn.block vs 0 = vs) as ->.
  { unfold block. rewrite Z.mul_0_l, drop_0. apply take_ge. unfold zlen in Hz. lia. }
  split; [exact Hp|]. split; [exact Hroom|exact Hg].
Qed.

(** What the check of the constructor requires of a descriptor. *)
Definition fits (size metaSize room : Z) (i : NumBlockInfo.info) (monotonic : bool) : Prop :=
  0 < gcd i /\ (monotonic = true -> gcd i = 1) /\ metaSize <= payloadOffset i /\
  ((0 <= bits i <= MAX_PACKED_BITS /\ payloadOffset i + (size * bits i + 7) / 8 + LinearPack.TAIL_PAD <= room) \/
   (bits i = RAW_BITS /\ payloadOffset i + 8 * size + LinearPack.TAIL_PAD <= room)).

Lemma check_fits size metaSize room i monotonic :
  0 < size <= 256 -> is_u 64 room -> 0 <= metaSize -> fits size metaSize room i monotonic ->
  VersionRuns.check size metaSize room i monotonic = Ret ().
Proof.
  intros Hs Hr Hm (Hg & Hmono & Hmeta & Hb). unfold VersionRuns.check. cbv zeta. unfold forPacked, MAX_PACKED_BITS, RAW_BITS, is_u in *.
  rewrite decide_False.
  2: { intros [[E Hne]|[E|[-> Hne]]]; [apply bool_decide_eq_false_1 in E; lia|lia|]. by apply Hne, Hmono. }
  destruct Hb as [[Hb H1]|[Hb H1]].
  - rewrite bool_decide_eq_true_2 by lia. unfold LinearPack.packedByteSize. rewrite decide_True by lia. cbn [lift mbind outcome_bind].
    assert (0 <= size * bits i <= 256 * 57) by nia. rewrite (uwrap_id 64 (size * _ + 7)) by (unfold is_u; lia).
    rewrite Z.shiftr_div_pow2 by lia. change (2 ^ 3) with 8. unfold LinearPack.TAIL_PAD in *.
    pose proof (Z.div_pos (size * bits i + 7) 8 ltac:(lia) ltac:(lia)).
    pose proof (Z.div_le_upper_bound (size * bits i + 7) 8 (256 * 57) ltac:(lia) ltac:(lia)).
    rewrite !uwrap_id by (unfold is_u; lia). by rewrite decide_False by lia.
  - rewrite bool_decide_eq_false_2 by lia. cbn [lift mbind outcome_bind]. unfold LinearPack.TAIL_PAD in *.
    rewrite (uwrap_id 64 (size * 8)), !uwrap_id by (unfold is_u; lia). by rewrite decide_False by lia.
Qed.

Lemma payload_fits mem b vs metaSize room monotonic :
  payload_at mem (payloadOffset b) b vs -> metaSize <= payloadOffset b -> 0 < gcd b -> (monotonic = true -> gcd b = 1) ->
  zlen mem + LinearPack.TAIL_PAD <= room -> fits (zlen vs) metaSize room b monotonic.
Proof.
  intros Hp Hm Hg Hmono Hr. split; [done|]. split; [done|]. split; [done|].
  destruct Hp as [[Hb Hs]|(rs & out & He & Hl & Hs & _ & _ & Hz)].
  - right. split; [done|]. apply slice_Some in Hs as (a & e & -> & <- & Hs). rewrite !zlen_app, Hs in Hr.
    pose proof (zlen_nonneg e). lia.
  - left. split; [apply He|]. apply slice_Some in Hs as (a & e & -> & <- & Hs). rewrite !zlen_app in Hr. rewrite Hl in Hz.
    rewrite (Z.mul_comm (zlen vs)), <- Hz. pose proof (zlen_nonneg e). lia.
Qed.

(** A column over a block whose metadata was written last. *)
Lemma meta_column M rest pad pre post meta b vs g :
  is_bytes (pre ++ (M ++ rest ++ pad) ++ post) -> LinearPack.TAIL_PAD <= zlen pad ->
  0 < zlen vs <= 256 -> Forall (is_s 64) vs -> load_info (pre ++ (M ++ rest ++ pad) ++ post) meta = Some b ->
  payload_at (replicate (Z.to_nat (zlen M)) 0 ++ rest) (payloadOffset b) b vs -> zlen M <= payloadOffset b ->
  (g = false -> gcd b = 1) ->
  column_of (NumColumn.Column (pre ++ (M ++ rest ++ pad) ++ post) (zlen pre) meta (zlen vs) g) vs.
Proof.
  intros Hm Hpad Hz Hvs Ei Hp Hpo Hg. pose proof (zlen_nonneg pre). pose proof (zlen_nonneg M). pose proof (zlen_nonneg post).
  set (old := replicate (Z.to_nat (zlen M)) 0) in *.
  assert (zlen old = zlen M) as Ho by (unfold old; rewrite zlen_replicate; lia).
  assert (payload_at (pre ++ (M ++ rest) ++ []) (zlen pre + payloadOffset b) b vs) as Hp1.
  { apply (payload_embed old M rest pre []); [done|lia|done]. }
  assert (pre ++ (M ++ rest ++ pad) ++ post = (pre ++ (M ++ rest) ++ []) ++ (pad ++ post)) as E
    by (rewrite app_nil_r, <- !app_assoc; done).
  apply (block_column _ _ _ b); unfold NumColumnFormat.BLOCK_SIZE; [done|done|lia|done|done| |lia| |done].
  - rewrite E. by apply payload_at_mono.
  - rewrite E. apply payload_room; [done|lia|unfold NumColumnFormat.BLOCK_SIZE; lia|rewrite zlen_app; lia].
Qed.

Lemma overwrite_mid a b c x : zlen x = zlen b -> VersionRunBuilder.overwrite (a ++ b ++ c) (zlen a) x = Some (a ++ x ++ c).
Proof.
  intros Hx. unfold VersionRunBuilder.overwrite. pose proof (zlen_nonneg a). pose proof (zlen_nonneg c).
  rewrite decide_True by (rewrite !zlen_app; lia). unfold zlen in *. rewrite Nat2Z.id, take_app_length. do 3 f_equal.
  rewrite app_assoc, drop_app_ge by (rewrite length_app; lia). rewrite length_app.
  replace (_ - _)%nat with 0%nat by lia. apply drop_0.
Qed.

Lemma round_down_8 x : is_u 64 x -> Z.land x (unot 64 7) = x / 8 * 8.
Proof.
  intros Hx. change 8 with (2 ^ 3) at 1 2. rewrite <- Z.shiftr_div_pow2, <- Z.shiftl_mul_pow2 by lia.
  rewrite <- Z.ldiff_ones_r by lia. change (Z.ones 3) with 7. apply Z.bits_inj'. intros i Hi.
  rewrite Z.land_spec, Z.ldiff_spec. destruct (decide (i < 64)).
  - unfold unot. rewrite testbit_uwrap, Z.lnot_spec by lia. by rewrite bool_decide_eq_true_2 by lia.
  - rewrite (testbit_high 64 x i) by (done || lia). done.
Qed.

Lemma stepLoop_spec rs i step s0 :
  1 <= i -> (forall k r, rs.[k] = Some r -> k < i -> firstDocId r = s0 + k * step) ->
  increasing (firstDocId <$> rs) -> Forall (fun r => is_u 32 (firstDocId r)) rs ->
  exists s, VersionRunBuilder.stepLoop rs (seqZ i (zlen rs - i)) step = Some s /\
    (s = 0 \/ s = step /\ forall k r, rs.[k] = Some r -> firstDocId r = s0 + k * step).
Proof.
  intros Hi Hk Hinc Hu. remember (Z.to_nat (zlen rs - i)) as n eqn:En. revert i Hi Hk En.
  induction n as [|n IH]; intros i Hi Hk En.
  - rewrite (seqZ_nil i) by lia. exists step. split; [done|]. right. split; [done|]. intros k r Hr. apply (Hk k r Hr).
    apply zget_Some_range in Hr. lia.
  - rewrite seqZ_cons by lia. cbn [VersionRunBuilder.stepLoop]. destruct (zget_in rs i) as [a Ha]; [lia|].
    destruct (zget_in rs (i - 1)) as [b Hb]; [lia|]. rewrite Ha. opt. rewrite Hb. opt.
    assert (firstDocId b < firstDocId a) as Hlt.
    { eapply (increasing_zget _ (i - 1) i _ _ Hinc); [by rewrite zget_fmap, Hb|by rewrite zget_fmap, Ha|lia]. }
    rewrite Forall_forall in Hu. pose proof (Hu a (zget_elem_1 _ _ _ Ha)) as Hua. pose proof (Hu b (zget_elem_1 _ _ _ Hb)) as Hub.
    unfold is_u in Hua, Hub. rewrite uwrap_id by (unfold is_u; lia). case_decide as Hd; [exists 0; auto|].
    replace (Z.pred (zlen rs - i)) with (zlen rs - (i + 1)) by lia. apply (IH (Z.succ i)); [lia| |lia].
    intros k r Hr Hki. destruct (decide (k = i)) as [->|]; [|apply (Hk k r Hr); lia].
    rewrite Ha in Hr. injection Hr as <-. pose proof (Hk (i - 1) b Hb ltac:(lia)). lia.
Qed.

Lemma zlen_header_bytes h : zlen (VersionRunBuilder.header_bytes h) = 40.
Proof. unfold VersionRunBuilder.header_bytes. rewrite !zlen_app, zlen_info_bytes. zlen. Qed.

Lemma is_bytes_header_bytes h : is_bytes (VersionRunBuilder.header_bytes h).
Proof.
  unfold VersionRunBuilder.header_bytes. apply Forall_app. split; [apply is_bytes_info_bytes|].
  apply Forall_app. split; by apply is_bytes_store_le.
Qed.

Lemma header_read pre h post n :
  info_ok (hversions h) -> is_u 32 (hfirstDocId h) -> is_u 32 (hstep h) ->
  VersionBlock.header (VersionBlock.Block (pre ++ VersionRunBuilder.header_bytes h ++ post) (zlen pre) n) = Some h.
Proof.
  intros Hi Hf Hs. unfold VersionBlock.header, VersionRunBuilder.header_bytes. cbn [VersionBlock.mem VersionBlock.data].
  rewrite <- !app_assoc, load_info_read by done. opt. pose proof (zlen_info_bytes (hversions h)) as Hz.
  rewrite (load_bytes_at 4 (pre ++ info_bytes (hversions h)) (hfirstDocId h) (store_le 4 (hstep h) ++ post) _ (zlen pre + 32));
    [|lia|by rewrite <- !app_assoc|rewrite zlen_app; lia]. opt.
  rewrite (load_bytes_at 4 (pre ++ info_bytes (hversions h) ++ store_le 4 (hfirstDocId h)) (hstep h) post _ (zlen pre + 36));
    [|lia|by rewrite <- !app_assoc|zlen]. opt. change (8 * 4) with 32. rewrite !uwrap_id by done. by destruct h.
Qed.

(** What a block written by [encode] gives a reader of a file that holds it. *)
Record encoded (mem : list Z) (off size : Z) (rs : list VersionRun) : Prop := {
  en_block : block_of (VersionBlock.Block mem off (zlen rs)) rs;
  en_header : exists bh, VersionBlock.header (VersionBlock.Block mem off (zlen rs)) = Some bh /\
    fits (zlen rs) (40 + (if decide (hstep bh <> 0) then 0 else 32)) size (hversions bh) false /\
    (hstep bh = 0 -> exists info, load_info mem (off + 40) = Some info /\ fits (zlen rs) 72 size info true /\ 72 <= size) }.

(** Runs a block can hold. *)
Definition block_runs_ok (rs : list VersionRun) : Prop :=
  0 < zlen rs <= 256 /\ increasing (firstDocId <$> rs) /\ Forall (fun r => is_u 32 (firstDocId r)) rs /\
  Forall (fun r => is_u 64 (version r)) rs.

(** The bytes around the metadata of a block. *)
Definition meta_bytes (h : VersionBlockHeader) (starts : option NumBlockInfo.info) : list Z :=
  VersionRunBuilder.header_bytes h ++ match starts with Some i => info_bytes i | None => [] end.

Lemma zlen_meta h starts : zlen (meta_bytes h starts) = 40 + match starts with Some _ => 32 | None => 0 end.
Proof. unfold meta_bytes. rewrite zlen_app, zlen_header_bytes. destruct starts; [by rewrite zlen_info_bytes|done]. Qed.

Lemma is_bytes_meta h starts : is_bytes (meta_bytes h starts).
Proof.
  unfold meta_bytes. apply Forall_app. split; [apply is_bytes_header_bytes|].
  destruct starts; [apply is_bytes_info_bytes|apply List.Forall_nil].
Qed.

Lemma starts_read pre h i rest post :
  info_ok i -> load_info (pre ++ (meta_bytes h (Some i) ++ rest) ++ post) (zlen pre + 40) = Some i.
Proof.
  intros Hi. unfold meta_bytes. rewrite <- (zlen_header_bytes h), <- zlen_app.
  replace (pre ++ _ ++ post) with ((pre ++ VersionRunBuilder.header_bytes h) ++ info_bytes i ++ rest ++ post)
    by (by rewrite <- !app_assoc). by apply load_info_read.
Qed.

(** A block laid out as metadata, payloads and padding. *)
Lemma layout_encoded h starts rest pad pre post rs :
  let B := meta_bytes h starts ++ rest ++ pad in
  let zeros := replicate (Z.to_nat (zlen (meta_bytes h starts))) 0 in
  block_runs_ok rs -> is_bytes (pre ++ B ++ post) -> zlen pre `mod` 8 = 0 -> LinearPack.TAIL_PAD <= zlen pad ->
  info_ok (hversions h) -> firstDocId <$> rs.[0] = Some (hfirstDocId h) -> is_u 32 (hstep h) ->
  payload_at (zeros ++ rest) (payloadOffset (hversions h)) (hversions h) ((fun r => s64 (version r)) <$> rs) ->
  zlen zeros <= payloadOffset (hversions h) -> 0 < gcd (hversions h) ->
  match starts with
  | None => 0 < hstep h /\ forall k r, rs.[k] = Some r -> firstDocId r = hfirstDocId h + k * hstep h
  | Some i => hstep h = 0 /\ info_ok i /\ payload_at (zeros ++ rest) (payloadOffset i) i (firstDocId <$> rs) /\
      zlen zeros <= payloadOffset i /\ gcd i = 1
  end ->
  encoded (pre ++ B ++ post) (zlen pre) (zlen B) rs.
Proof.
  intros B zeros (Hz & Hinc & Hu & Hv) Hb Hal Hpad Hio H0 Hsu Hp Hpo Hg Hst.
  assert (zlen zeros = zlen (meta_bytes h starts)) as Hzz.
  { unfold zeros. rewrite zlen_replicate. pose proof (zlen_nonneg (meta_bytes h starts)). lia. }
  pose proof (zlen_meta h starts) as Hzm.
  assert (is_u 32 (hfirstDocId h)) as Hfu.
  { destruct (rs.[0]) as [r|] eqn:E; [|done]. injection H0 as <-. rewrite Forall_forall in Hu. by eapply Hu, zget_elem_1. }
  assert (VersionBlock.header (VersionBlock.Block (pre ++ B ++ post) (zlen pre) (zlen rs)) = Some h) as Eh.
  { unfold B, meta_bytes. rewrite <- !app_assoc. by apply header_read. }
  set (vs := (fun r => s64 (version r)) <$> rs) in *. assert (zlen vs = zlen rs) as Hzv by (unfold vs; zlen).
  assert (load_info (pre ++ B ++ post) (zlen pre) = Some (hversions h)) as Ei.
  { unfold B, meta_bytes, VersionRunBuilder.header_bytes. rewrite <- !app_assoc. by apply load_info_read. }
  assert (Forall (is_s 64) vs) as Hvs by (unfold vs; apply Forall_fmap, Forall_true; intros r; by apply swrap_range).
  assert (column_of (NumColumn.Column (pre ++ B ++ post) (zlen pre) (zlen pre) (zlen vs) true) vs) as Hcol.
  { apply (meta_column _ _ _ _ _ _ (hversions h)); [exact Hb|done|lia|done|exact Ei|exact Hp|lia|done]. }
  assert (Z.land (zlen pre) 7 = 0 /\ Z.land (zlen pre + 40) 7 = 0) as [Ha1 Ha2].
  { change 7 with (Z.ones 3). rewrite !Z.land_ones by lia. change (2 ^ 3) with 8. split; [done|].
    rewrite Zplus_mod, Hal. done. }
  assert (zlen (zeros ++ rest) + LinearPack.TAIL_PAD <= zlen B) as Hroom.
  { unfold B. rewrite !zlen_app. lia. }
  constructor.
  - constructor; [done|exact Hz|done|done|done| |].
    + exists h. split; [done|]. split; [done|]. destruct starts as [i|]; [right|left; done].
      destruct Hst as (Hs & Hi & Hpi & Hpoi & Hgi). split; [done|].
      unfold VersionBlock.starts, NumColumn.make, sizeof_VersionBlockHeader. cbn [VersionBlock.mem VersionBlock.data VersionBlock.count_].
      rewrite decide_True by done. eexists. split; [done|]. apply column_decodes.
      rewrite <- (zlen_fmap firstDocId rs). apply (meta_column _ _ _ _ _ _ i); try done.
      * by rewrite zlen_fmap.
      * apply Forall_fmap. eapply Forall_impl; [exact Hu|]. intros r Hr. simpl. unfold is_u, is_s in *. simpl. lia.
      * by apply starts_read.
    + unfold VersionBlock.versions, NumColumn.make. cbn [VersionBlock.mem VersionBlock.data VersionBlock.count_].
      rewrite decide_True by done. rewrite <- Hzv.
      destruct (affineBlock_spec _ _ Hcol 0) as (o & Eo & Ho).
      { unfold NumColumn.numBlocks, NumColumnFormat.BLOCK_SIZE. simpl. rewrite Z.quot_div_nonneg by lia.
        split; [lia|]. apply Z.div_str_pos. lia. }
      eexists _, o. split; [done|]. split; [by apply column_decodes|]. split; [done|].
      intros first second k r -> Hr. pose proof (zget_Some_range _ _ _ Hr).
      assert (is_u 64 (version r)) as Hur by (rewrite Forall_forall in Hv; by eapply Hv, zget_elem_1).
      assert (s64 (version r) = s64 (first + second * k)) as Es.
      { apply (Ho first second eq_refl k). unfold block. rewrite Z.mul_0_l, drop_0, zget_take by (unfold NumColumnFormat.BLOCK_SIZE; lia).
        unfold vs. by rewrite zget_fmap, Hr. }
      rewrite <- (uwrap_id 64 (version r)) by done. rewrite uwrap_add_r, <- (uwrap_swrap 64 (version r)), Es, uwrap_swrap by lia.
      f_equal. lia.
  - exists h. split; [done|]. split.
    + rewrite <- Hzv. apply (payload_fits (zeros ++ rest)); [done| |done|done|done].
      destruct starts as [i|]; [destruct Hst as [-> _]; rewrite decide_False by lia|destruct Hst as [Hs _]; rewrite decide_True by lia]; lia.
    + intros Hs. destruct starts as [i|]; [|lia]. destruct Hst as (_ & Hi & Hpi & Hpoi & Hgi). exists i. split; [|split].
      * by apply starts_read.
      * rewrite <- (zlen_fmap firstDocId rs). apply (payload_fits (zeros ++ rest)); [done|lia|lia|done|done].
      * unfold B. rewrite !zlen_app, Hzm. pose proof (zlen_nonneg rest). pose proof (zlen_nonneg pad). lia.
Qed.

(** The step a block is given. *)
Lemma first_step rs r0 : block_runs_ok rs -> rs.[0] = Some r0 ->
  exists s1, (if decide (zlen rs < 2) then Some 1 else r1 ← rs.[1]; Some (u32 (firstDocId r1 - firstDocId r0))) = Some s1 /\
    0 < s1 /\ is_u 32 s1 /\ forall k r, rs.[k] = Some r -> k < 2 -> firstDocId r = firstDocId r0 + k * s1.
Proof.
  intros (Hz & Hinc & Hu & _) Hr0. case_decide as H2.
  - exists 1. split; [done|]. split; [lia|]. split; [done|]. intros k r Hr _. pose proof (zget_Some_range _ _ _ Hr).
    assert (k = 0) as -> by lia. rewrite Hr0 in Hr. injection Hr as <-. lia.
  - destruct (zget_in rs 1) as [r1 Hr1]; [lia|]. rewrite Hr1. opt.
    assert (firstDocId r0 < firstDocId r1) as Hlt.
    { eapply (increasing_zget _ 0 1 _ _ Hinc); [by rewrite zget_fmap, Hr0|by rewrite zget_fmap, Hr1|lia]. }
    rewrite Forall_forall in Hu. pose proof (Hu r0 (zget_elem_1 _ _ _ Hr0)) as Ha. pose proof (Hu r1 (zget_elem_1 _ _ _ Hr1)) as Hb.
    unfold is_u in Ha, Hb. rewrite uwrap_id by (unfold is_u; lia). eexists. split; [done|]. split; [lia|]. split; [unfold is_u; lia|].
    intros k r Hr Hk. pose proof (zget_Some_range _ _ _ Hr). assert (k = 0 \/ k = 1) as [-> | ->] by lia.
    + rewrite Hr0 in Hr. injection Hr as <-. lia.
    + rewrite Hr1 in Hr. injection Hr as <-. lia.
Qed.

(** The padding [encode] ends a block with. *)
Definition padded (block : list Z) : list Z :=
  block ++ replicate (Z.to_nat (Z.land (zlen block + LinearPack.TAIL_PAD + 7) (unot 64 7) - zlen block)) 0.

Lemma is_bytes_zeros n : is_bytes (replicate n 0).
Proof. by apply Forall_replicate. Qed.

Lemma padded_spec block : zlen block < 2 ^ 15 ->
  exists pad, padded block = block ++ pad /\ is_bytes pad /\ LinearPack.TAIL_PAD <= zlen pad <= 17 /\ zlen (block ++ pad) `mod` 8 = 0.
Proof.
  intros Hb. pose proof (zlen_nonneg block). unfold padded, LinearPack.TAIL_PAD. rewrite round_down_8 by (unfold is_u; lia).
  pose proof (Z.div_mod (zlen block + 10 + 7) 8 ltac:(lia)). pose proof (Z.mod_pos_bound (zlen block + 10 + 7) 8 ltac:(lia)).
  eexists. split; [done|]. split; [apply is_bytes_zeros|]. rewrite zlen_app, zlen_replicate. split; [lia|].
  replace (zlen block + _) with ((zlen block + 10 + 7) / 8 * 8) by lia. by apply Z.mod_mul.
Qed.

(** A padded block reads as its runs wherever it is put. *)
Lemma padded_encoded h starts rest rs :
  block_runs_ok rs -> is_bytes rest -> zlen rest <= 2 * (8 * zlen rs + 8) ->
  (forall pad pre post, is_bytes pad -> LinearPack.TAIL_PAD <= zlen pad -> is_bytes pre -> is_bytes post -> zlen pre `mod` 8 = 0 ->
     encoded (pre ++ (meta_bytes h starts ++ rest ++ pad) ++ post) (zlen pre) (zlen (meta_bytes h starts ++ rest ++ pad)) rs) ->
  exists B, padded (meta_bytes h starts ++ rest) = B /\ is_bytes B /\ zlen B `mod` 8 = 0 /\ 40 <= zlen B < 2 ^ 16 /\
    forall pre post, is_bytes pre -> is_bytes post -> zlen pre `mod` 8 = 0 -> encoded (pre ++ B ++ post) (zlen pre) (zlen B) rs.
Proof.
  intros (Hz & _) Hb Hr He. pose proof (zlen_meta h starts) as Hm. pose proof (zlen_nonneg rest).
  assert (zlen (meta_bytes h starts) <= 72) as Hm72 by (destruct starts; lia).
  assert (40 <= zlen (meta_bytes h starts)) as Hm40 by (destruct starts; lia).
  destruct (padded_spec (meta_bytes h starts ++ rest)) as (pad & -> & Hp & Hpz & Hmod); [rewrite zlen_app; lia|].
  exists (meta_bytes h starts ++ rest ++ pad). rewrite <- app_assoc in Hmod |- *. split; [done|]. split; [|split; [done|split]].
  - apply Forall_app. split; [apply is_bytes_meta|by apply Forall_app].
  - rewrite !zlen_app. pose proof (zlen_nonneg pad). lia.
  - intros. apply He; (done || lia).
Qed.

Lemma is_bytes_embed pre h starts rest pad post :
  is_bytes pre -> is_bytes post -> is_bytes pad -> is_bytes rest ->
  is_bytes (pre ++ (meta_bytes h starts ++ rest ++ pad) ++ post).
Proof.
  intros. apply Forall_app. split; [done|]. apply Forall_app. split; [|done].
  apply Forall_app. split; [apply is_bytes_meta|by apply Forall_app].
Qed.

Lemma encode_spec rs : block_runs_ok rs ->
  exists B, VersionRunBuilder.encode rs = Some B /\ is_bytes B /\ zlen B `mod` 8 = 0 /\ 40 <= zlen B < 2 ^ 16 /\
    forall pre post, is_bytes pre -> is_bytes post -> zlen pre `mod` 8 = 0 -> encoded (pre ++ B ++ post) (zlen pre) (zlen B) rs.
Proof.
  intros Hok. pose proof Hok as (Hz & Hinc & Hu & Hv). unfold VersionRunBuilder.encode.
  destruct (zget_in rs 0) as [r0 Hr0]; [lia|]. rewrite Hr0. opt.
  destruct (first_step rs r0 Hok Hr0) as (s1 & -> & Hs1 & Hu1 & Hk1). opt.
  destruct (stepLoop_spec rs 2 s1 (firstDocId r0) ltac:(lia) Hk1 Hinc Hu) as (s & -> & Hs). opt. cbv zeta.
  set (vs := (fun r => s64 (version r)) <$> rs). assert (zlen vs = zlen rs) as Hzv by (unfold vs; zlen).
  assert (Forall (is_s 64) vs) as Hvs by (unfold vs; apply Forall_fmap, Forall_true; intros r; by apply swrap_range).
  assert (Forall (is_s 64) (firstDocId <$> rs)) as Hss.
  { apply Forall_fmap. eapply Forall_impl; [exact Hu|]. intros r Hr. simpl. unfold is_u, is_s in *. simpl. lia. }
  destruct Hs as [->|[-> Hk]].
  - rewrite decide_False by lia. unfold sizeof_VersionBlockHeader, sizeof_NumBlockInfo.
    change (Z.to_nat (40 + 32)) with 72%nat. destruct (codec_append (replicate 72 0) vs true) as
      (iv & P1 & -> & HP1 & Hl1 & Hp1 & Hpo1 & Hio1 & Hg1 & _); [unfold NumColumnFormat.BLOCK_SIZE; lia|done|apply is_bytes_zeros|done|].
    opt. rewrite decide_True by done. destruct (codec_append (replicate 72 0 ++ P1) (firstDocId <$> rs) false) as
      (is_ & P2 & -> & HP2 & Hl2 & Hp2 & Hpo2 & Hio2 & Hg2 & Hg2');
      [rewrite zlen_fmap; unfold NumColumnFormat.BLOCK_SIZE; lia|done|apply Forall_app; split; [apply is_bytes_zeros|done]|
       rewrite zlen_app, zlen_replicate; lia|]. opt.
    rewrite zlen_fmap in Hl2. rewrite zlen_app in Hpo2. change (zlen (replicate 72 0)) with 72 in *.
    assert (VersionRunBuilder.overwrite ((replicate 72 0 ++ P1) ++ P2) 40 (info_bytes is_)
      = Some (replicate 40 0 ++ info_bytes is_ ++ P1 ++ P2)) as ->.
    { change (replicate 72 0) with (replicate 40 0 ++ replicate 32 0). rewrite <- !app_assoc.
      apply (overwrite_mid (replicate 40 0) (replicate 32 0)). by rewrite zlen_info_bytes. }
    opt. set (h := BlockHeader iv (firstDocId r0) 0).
    assert (VersionRunBuilder.overwrite (replicate 40 0 ++ info_bytes is_ ++ P1 ++ P2) 0 (VersionRunBuilder.header_bytes h)
      = Some (VersionRunBuilder.header_bytes h ++ info_bytes is_ ++ P1 ++ P2)) as ->.
    { apply (overwrite_mid [] (replicate 40 0)). by rewrite zlen_header_bytes. }
    opt.
    replace (VersionRunBuilder.header_bytes h ++ info_bytes is_ ++ P1 ++ P2) with (meta_bytes h (Some is_) ++ P1 ++ P2)
      by (unfold meta_bytes; by rewrite <- app_assoc).
    edestruct (padded_encoded h (Some is_) (P1 ++ P2) rs Hok) as (B & EB & HB); [by apply Forall_app|rewrite zlen_app; lia| |].
    2: { exists B. split; [by rewrite <- EB|exact HB]. }
    intros pad pre post Hpad Hpz Hpre Hpost Hmod. apply layout_encoded; rewrite ?zlen_meta;
      change (replicate (Z.to_nat (40 + 32)) 0) with (replicate 72 0); change (zlen (replicate 72 0)) with 72;
      cbn [h hversions hfirstDocId hstep]; [done| |done|done|done|by rewrite Hr0|done| |lia|done|].
    + apply is_bytes_embed; [done|done|done|by apply Forall_app].
    + rewrite Hpo1, app_assoc. by apply payload_at_mono.
    + split; [done|]. split; [done|]. rewrite Hpo2, app_assoc. split; [by rewrite zlen_app in Hp2|].
      split; [|by apply Hg2']. pose proof (zlen_nonneg P1). lia.
  - rewrite decide_True by lia. unfold sizeof_VersionBlockHeader. change (Z.to_nat (40 + 0)) with 40%nat.
    destruct (codec_append (replicate 40 0) vs true) as
      (iv & P1 & -> & HP1 & Hl1 & Hp1 & Hpo1 & Hio1 & Hg1 & _); [unfold NumColumnFormat.BLOCK_SIZE; lia|done|apply is_bytes_zeros|done|].
    opt. rewrite decide_False by lia. opt. set (h := BlockHeader iv (firstDocId r0) s1).
    assert (VersionRunBuilder.overwrite (replicate 40 0 ++ P1) 0 (VersionRunBuilder.header_bytes h)
      = Some (meta_bytes h None ++ P1)) as ->.
    { unfold meta_bytes. rewrite app_nil_r. apply (overwrite_mid [] (replicate 40 0)). by rewrite zlen_header_bytes. }
    opt. edestruct (padded_encoded h None P1 rs Hok) as (B & EB & HB); [done|lia| |].
    2: { exists B. split; [by rewrite <- EB|exact HB]. }
    intros pad pre post Hpad Hpz Hpre Hpost Hmod. apply layout_encoded; rewrite ?zlen_meta;
      change (replicate (Z.to_nat (40 + 0)) 0) with (replicate 40 0); change (zlen (replicate 40 0)) with 40 in *;
      cbn [h hversions hfirstDocId hstep]; [done| |done|done|done|by rewrite Hr0|done| |lia|done|done].
    + apply is_bytes_embed; done.
    + by rewrite Hpo1.
Qed.

End encoding.

(** * The constructor accepts what is written *)

Section acceptance.
Import VersionRuns.
Context (mem : list Z) (Hmem : is_bytes mem) (Hsize : zlen mem < 2 ^ 62).

Lemma starts_return maxDoc first col ss previous :
  decodes col ss -> increasing ss -> Forall (fun x => 0 <= x < maxDoc) ss -> ss.[0] = Some first -> maxDoc < 2 ^ 31 ->
  may_throw None (foldE (checkStart maxDoc first col) (Bulk.fresh, previous) (seqZ 0 (zlen ss)))
    (fun s => ss.[zlen ss - 1] = Some s.2).
Proof.
  intros Hc Hinc Hb H0 Hm. pose proof (zget_Some_range _ _ _ H0) as Hz. rewrite Forall_forall in Hb.
  eapply may_throw_mono; [apply (may_throw_foldE _ (fun i s => cursor_ok ss s.1 /\ (0 < i -> ss.[i - 1] = Some s.2)))|].
  - lia.
  - split; [apply (fresh_positioned ss)|lia].
  - intros i [b prev] Hi (Hok & Hlast). unfold checkStart. destruct (zget_in ss i) as [x Hx]; [lia|].
    destruct (bulk_valueAt_spec col ss Hc i x b Hok Hx) as (b' & E & Hok' & _). pose proof (Hb x (zget_elem_1 _ _ _ Hx)) as Hxb.
    eapply may_throw_lift; [exact E|]. cbv beta match. rewrite decide_False.
    + cbn [may_throw fst snd]. rewrite uwrap_id by (unfold is_u; lia). split; [done|]. intros _.
      by replace (i + 1 - 1) with i by lia.
    + intros [?|[?|[[-> Hne]|[Hne Hle]]]]; [lia|lia| |].
      * rewrite H0 in Hx. injection Hx as ->. done.
      * cbn [snd] in Hlast. pose proof (increasing_zget ss (i - 1) i prev x Hinc (Hlast ltac:(lia)) Hx ltac:(lia)). lia.
  - intros [b prev] (_ & Hlast). rewrite Z.add_0_l in Hlast. apply Hlast. lia.
Qed.

Section block.
Context (v : runs) (D : Z) (Hv : framed mem v D).
Context (i off limit : Z) (bs : list VersionRun) (first last_ : VersionRun).
Context (Hi : 0 <= i < numBlocks v) (Eo : dir_offset v i = Some off) (Ho : 0 <= off) (Hal : Z.land off 7 = 0).
Context (El : (if decide (i + 1 < numBlocks v) then dir_offset v (i + 1) else Some D) = Some limit).
Context (Hroom : off + 40 <= limit) (Hlim : limit <= D) (Er : dir_reserved v i = Some 0).
Context (Ef : dir_firstDocId v i = Some (firstDocId first)).
Context (Hn : zlen bs = block_size v i) (Hbs : encoded mem (data v + off) (limit - off) bs).
Context (Hbound : Forall (fun r => 0 <= firstDocId r < maxDoc_ v) bs).
Context (Hfirst : bs.[0] = Some first) (Hlast : bs.[zlen bs - 1] = Some last_).
Context (Hnext : i + 1 < numBlocks v -> exists n, dir_firstDocId v (i + 1) = Some n /\ firstDocId last_ < n).
Abbreviation view := (VersionBlock.Block mem (data v + off) (zlen bs)).

Lemma next_returns : may_throw None (more ← (if decide (i + 1 < numBlocks v) then
            next ← lift (dir_firstDocId v (i + 1)); Ret (bool_decide (firstDocId last_ >= next))
          else Ret false);
    if (more : bool) then invalid else Ret (u32 (firstDocId last_))) (fun _ => True).
Proof.
  case_decide as Hd; [|done]. destruct (Hnext Hd) as (n & -> & Hlt). cbn [lift mbind outcome_bind].
  by rewrite bool_decide_eq_false_2 by lia.
Qed.

Lemma checkStarts_returns bh previous :
  VersionBlock.header view = Some bh ->
  (hstep bh = 0 -> exists info, load_info mem (data v + off + 40) = Some info /\ fits (zlen bs) 72 (limit - off) info true /\ 72 <= limit - off) ->
  may_throw None
    (checkStarts v (maxDoc_ v) i off limit
       (sizeof_VersionBlockHeader + (if decide (hstep bh <> 0) then 0 else sizeof_NumBlockInfo)) (firstDocId first) view bh previous)
    (fun _ => True).
Proof.
  intros Eh Hir. pose proof (fr_count _ _ _ Hv). pose proof (fr_max _ _ _ Hv). pose proof (fr_offset _ _ _ Hv). pose proof (fr_data _ _ _ Hv).
  pose proof (fr_room _ _ _ Hv). pose proof (framed_blocks _ _ _ Hv).
  pose proof (en_block _ _ _ _ Hbs) as Hb. pose proof (bo_size _ _ Hb) as Hsz. unfold BLOCK_SIZE in Hsz.
  destruct (bo_header _ _ Hb) as (bh' & Eh' & Hh0 & Hst). rewrite Eh in Eh'. injection Eh' as <-. rewrite Hfirst in Hh0.
  injection Hh0 as Hh0. rewrite Forall_forall in Hbound.
  pose proof (Hbound last_ (zget_elem_1 _ _ _ Hlast)) as Hbl. pose proof (Hbound first (zget_elem_1 _ _ _ Hfirst)) as Hbf.
  unfold checkStarts, VersionBlock.size. cbn [VersionBlock.count_].
  eapply (may_throw_bind _ _ _ (fun p => p = firstDocId last_)).
  2: { intros p ->. apply next_returns. }
  destruct Hst as [[Hs Hk]|(Hs & c & Ec & Hc)].
  - rewrite decide_True by lia. cbv zeta. rewrite (uwrap_id 32 (zlen bs - 1)) by (unfold is_u; lia). rewrite uwrap_add_r.
    rewrite <- (Hk _ _ Hlast). rewrite !uwrap_id by (unfold is_u; lia). by rewrite decide_False by lia.
  - rewrite !(decide_False (P := hstep bh <> 0)) by lia. destruct (Hir Hs) as (info & Ei & Hfit & H72).
    unfold sizeof_VersionBlockHeader, sizeof_NumBlockInfo. rewrite decide_False by lia. rewrite (fr_file _ _ _ Hv).
    eapply may_throw_lift; [exact Ei|]. cbv beta. rewrite check_fits; [|lia|unfold is_u; lia|lia|done]. cbn [mbind outcome_bind].
    eapply may_throw_lift; [exact Ec|]. cbv beta. rewrite <- (zlen_fmap firstDocId bs).
    eapply may_throw_bind; [apply (starts_return _ _ _ _ _ Hc)|].
    + apply Hb.
    + apply Forall_fmap, Forall_forall. exact Hbound.
    + by rewrite zget_fmap, Hfirst.
    + lia.
    + intros [b p] Hp. cbn [snd] in Hp. rewrite zlen_fmap, zget_fmap, Hlast in Hp. injection Hp as <-. done.
Qed.

Lemma checkBlock_returns previous :
  (i = 0 -> firstDocId first = 0) -> (i <> 0 -> previous < firstDocId first) ->
  may_throw None (checkBlock D (maxDoc_ v) (previous, v) i) (fun _ => True).
Proof.
  intros H0 Hprev. pose proof (fr_count _ _ _ Hv). pose proof (fr_max _ _ _ Hv). pose proof (fr_offset _ _ _ Hv).
  pose proof (fr_data _ _ _ Hv). pose proof (fr_room _ _ _ Hv). pose proof (framed_blocks _ _ _ Hv).
  pose proof (en_block _ _ _ _ Hbs) as Hb. pose proof (bo_size _ _ Hb) as Hsz. unfold BLOCK_SIZE in Hsz.
  destruct (en_header _ _ _ _ Hbs) as (bh & Eh & Hfit & Hir).
  destruct (bo_header _ _ Hb) as (bh' & Eh' & Hh0 & _). rewrite Eh in Eh'. injection Eh' as <-. rewrite Hfirst in Hh0.
  injection Hh0 as Hh0. pose proof Hbound as Hbd. rewrite Forall_forall in Hbd. pose proof (Hbd first (zget_elem_1 _ _ _ Hfirst)) as Hbf.
  unfold checkBlock. eapply may_throw_lift; [exact Eo|]. eapply may_throw_lift; [exact El|]. eapply may_throw_lift; [exact Er|].
  eapply may_throw_lift; [exact Ef|]. cbv beta. unfold sizeof_VersionBlockHeader.
  rewrite decide_False.
  2: { rewrite uwrap_id by (unfold is_u; lia). intros [?|[?|[?|[?|[?|[?|[[? ?]|[? ?]]]]]]]]; (lia || done). }
  destruct (block_eq _ _ _ Hv i off Hi Eo) as [Eb _]. rewrite <- Hn in Eb. eapply may_throw_lift; [exact Eb|]. cbv beta.
  eapply may_throw_lift; [exact Eh|]. cbv beta. rewrite decide_False by lia. cbv zeta. cbn [VersionBlock.size VersionBlock.count_].
  rewrite check_fits; [|lia|unfold is_u; lia| |].
  2: { unfold sizeof_NumBlockInfo. case_decide; lia. }
  2: { unfold VersionBlock.size. cbn [VersionBlock.count_]. exact Hfit. }
  cbn [mbind outcome_bind].
  eapply may_throw_bind; [exact (checkStarts_returns bh previous Eh Hir)|]. intros p _. cbv beta.
  destruct (append_total _ _ (u32 (i * BLOCK_SIZE)) (affine v) Hb) as [p' Ep]. by eapply may_throw_lift; [exact Ep|].
Qed.

End block.
(** A block has one list of runs. *)
Lemma block_unique b bs bs' : block_of b bs -> block_of b bs' -> bs = bs'.
Proof.
  intros Hb Hb'. pose proof (bo_count _ _ Hb) as E. rewrite (bo_count _ _ Hb') in E.
  apply list_eq. intros k. rewrite <- !zget_nat. destruct (decide (Z.of_nat k < zlen bs)).
  - destruct (zget_in bs (Z.of_nat k)) as [r Hr]; [lia|]. destruct (zget_in bs' (Z.of_nat k)) as [r' Hr']; [lia|].
    pose proof (start_spec _ _ Hb _ _ Hr) as E1. rewrite (start_spec _ _ Hb' _ _ Hr') in E1.
    pose proof (version_spec _ _ Hb _ _ Hr) as E2. rewrite (version_spec _ _ Hb' _ _ Hr') in E2.
    rewrite Hr, Hr'. destruct r, r'. simpl in *. congruence.
  - rewrite !zget_nat, !lookup_ge_None_2; [done|unfold zlen in *; lia..].
Qed.

(** A file as the builder writes it: the entries of the directory and the blocks. *)
Record written_layout (data D : Z) (rs : list VersionRun) (offs : list Z) : Prop := {
  wl_count : zlen offs = (zlen rs + 255) / 256;
  wl_entry j off : offs.[j] = Some off ->
    load 8 mem (data + D + 16 * j + 8) = Some off /\ load 4 mem (data + D + 16 * j + 4) = Some 0 /\
    load 4 mem (data + D + 16 * j) = firstDocId <$> rs.[j * 256];
  wl_block j off limit : offs.[j] = Some off -> (offs ++ [D]).[j + 1] = Some limit ->
    encoded mem (data + off) (limit - off) (chunk BLOCK_SIZE rs j) /\ 0 <= off /\ Z.land off 7 = 0 /\ off + 40 <= limit <= D }.

Section layout.
Context (v0 : runs) (D : Z) (rs : list VersionRun) (offs : list Z) (Hv0 : framed mem v0 D).
Context (Hl : written_layout (data v0) D rs offs) (Hcount : count_ v0 = zlen rs) (Hinc : increasing (firstDocId <$> rs)).
Context (Hbound : Forall (fun r => 0 <= firstDocId r < maxDoc_ v0) rs) (H0 : firstDocId <$> rs.[0] = Some 0).

Definition same_view (v : runs) : Prop :=
  data v = data v0 /\ directory v = directory v0 /\ count_ v = count_ v0 /\ maxDoc_ v = maxDoc_ v0.

Lemma same_blocks v : same_view v -> numBlocks v = zlen offs.
Proof.
  intros (_ & _ & E & _). pose proof (fr_count _ _ _ Hv0). pose proof (fr_max _ _ _ Hv0).
  rewrite (wl_count _ _ _ _ Hl). unfold numBlocks, BLOCK_SIZE. rewrite E, Hcount, uwrap_id by (unfold is_u; lia). f_equal. lia.
Qed.

Lemma layout_step i p v : 0 <= i < zlen offs -> same_view v -> loop_inv mem D i p v (take (Z.to_nat (256 * i)) rs) ->
  may_throw None (checkBlock D (maxDoc_ v0) (p, v) i)
    (fun s => same_view s.2 /\ loop_inv mem D (i + 1) s.1 s.2 (take (Z.to_nat (256 * (i + 1))) rs)).
Proof.
  intros Hi Hs Hinv. pose proof Hs as (Ed & Edir & Ec & Em). pose proof (li_framed _ _ _ _ _ _ Hinv) as Hf.
  pose proof (same_blocks v Hs) as Hnb. pose proof (framed_blocks _ _ _ Hf) as Hfb.
  destruct (zget_in offs i Hi) as [off Eoff]. destruct (zget_in (offs ++ [D]) (i + 1)) as [limit Elim]; [zlen|].
  destruct (wl_block _ _ _ _ Hl i off limit Eoff Elim) as (Henc & Ho & Hal & Hroom & Hlim).
  destruct (wl_entry _ _ _ _ Hl i off Eoff) as (E1 & E2 & E3).
  assert (zlen (chunk BLOCK_SIZE rs i) = block_size v i) as Hz.
  { unfold block_size, BLOCK_SIZE. rewrite zlen_chunk by lia. f_equal. lia. }
  pose proof (en_block _ _ _ _ Henc) as Hb. pose proof (bo_size _ _ Hb) as Hsz. unfold BLOCK_SIZE in *.
  destruct (zget_in (chunk 256 rs i) 0) as [first Hfirst]; [lia|].
  destruct (zget_in (chunk 256 rs i) (zlen (chunk 256 rs i) - 1)) as [last_ Hlast]; [lia|].
  assert (forall j, dir_offset v j = load 8 mem (data v0 + D + 16 * j + 8) /\ dir_reserved v j = load 4 mem (data v0 + D + 16 * j + 4) /\
    dir_firstDocId v j = load 4 mem (data v0 + D + 16 * j)) as Hdir.
  { intros j. unfold dir_offset, dir_reserved, dir_firstDocId, sizeof_VersionBlockDirectory.
    rewrite (fr_file _ _ _ Hf), (fr_dir _ _ _ Hf), Ed. done. }
  pose proof Hfirst as Hfirst'. pose proof Hlast as Hlast'. rewrite zget_chunk in Hfirst', Hlast' by lia.
  replace (i * 256 + 0) with (i * 256) in Hfirst' by lia.
  assert (may_throw None (checkBlock D (maxDoc_ v0) (p, v) i) (fun _ => True)) as Hret.
  { rewrite <- Em. destruct (Hdir i) as (F1 & F2 & F3).
    apply (checkBlock_returns v D Hf i off limit (chunk 256 rs i) first last_); try done; try lia.
    - by rewrite F1.
    - destruct (decide (i + 1 < numBlocks v)) as [Hd|Hd].
      + destruct (Hdir (i + 1)) as (-> & _). rewrite zget_app_l in Elim by lia. by destruct (wl_entry _ _ _ _ Hl _ _ Elim).
      + rewrite zget_app_r in Elim by lia. replace (i + 1 - zlen offs) with 0 in Elim by lia. by rewrite zget_cons_0 in Elim.
    - by rewrite F2.
    - by rewrite F3, E3, Hfirst'.
    - by rewrite Ed.
    - unfold chunk. apply Forall_take, Forall_drop. by rewrite Em.
    - intros Hd. destruct (Hdir (i + 1)) as (_ & _ & ->). destruct (zget_in offs (i + 1)) as [off' Eoff']; [lia|].
      destruct (wl_entry _ _ _ _ Hl _ _ Eoff') as (_ & _ & ->). destruct (zget_in rs ((i + 1) * 256)) as [r' Hr']; [lia|].
      rewrite Hr'. eexists. split; [done|].
      eapply (increasing_zget _ (i * 256 + (zlen (chunk 256 rs i) - 1)) ((i + 1) * 256) _ _ Hinc);
        [by rewrite zget_fmap, Hlast'|by rewrite zget_fmap, Hr'|lia].
    - intros ->. rewrite Z.mul_0_l in Hfirst'. rewrite Hfirst' in H0. by injection H0.
    - intros Hne. pose proof (li_last _ _ _ _ _ _ Hinv ltac:(lia)) as Hp. pose proof (li_count _ _ _ _ _ _ Hinv) as Hc.
      rewrite Hc in Hp. rewrite zget_take in Hp by lia. replace (Z.min (256 * i) (count_ v) - 1) with (256 * i - 1) in Hp by lia.
      destruct (rs.[256 * i - 1]) as [rp|] eqn:Erp; [|done]. injection Hp as <-.
      eapply (increasing_zget _ (256 * i - 1) (i * 256) _ _ Hinc); [by rewrite zget_fmap, Erp|by rewrite zget_fmap, Hfirst'|lia]. }
  pose proof (checkBlock_spec mem Hmem Hsize v D Hf i p ltac:(lia)) as Hspec. rewrite Em in Hspec. unfold may_throw in *.
  destruct (checkBlock D (maxDoc_ v0) (p, v) i) as [s| |]; [|done..].
  edestruct loop_step as (b & bs & Eb & Hb' & Hinv'); [|exact Hinv|exact Hspec|]; [lia|]. split.
  - destruct Hspec as (? & ? & ? & ? & _ & _ & _ & _ & _ & _ & _ & _ & _ & ->). by split.
  - destruct (block_eq _ _ _ Hf i off ltac:(lia)) as [Eb' _]; [by destruct (Hdir i) as (-> & _)|].
    rewrite Eb in Eb'. injection Eb' as ->. rewrite Ed, <- Hz in Hb'. rewrite (block_unique _ _ _ Hb' Hb) in Hinv'.
    replace (take (Z.to_nat (256 * (i + 1))) rs) with (take (Z.to_nat (256 * i)) rs ++ chunk 256 rs i); [done|].
    unfold chunk. replace (i * 256) with (256 * i) by lia. replace (Z.to_nat (256 * (i + 1))) with (Z.to_nat (256 * i) + Z.to_nat 256)%nat by lia.
    apply take_take_drop.
Qed.

Lemma layout_accepted : dense v0 = true -> affine v0 = VersionAffinePrefix.fresh ->
  may_throw None (foldE (checkBlock D (maxDoc_ v0)) (0, v0) (seqZ 0 (numBlocks v0))) (fun s => same_view s.2 /\ file_of s.2 rs).
Proof.
  intros Hd Ha. assert (same_view v0) as Hs0 by done. pose proof (same_blocks v0 Hs0) as Hnb.
  eapply may_throw_mono; [apply (may_throw_foldE _ (fun i s => same_view s.2 /\ loop_inv mem D i s.1 s.2 (take (Z.to_nat (256 * i)) rs)))|].
  - pose proof (framed_blocks _ _ _ Hv0). lia.
  - split; [done|]. cbn [fst snd]. rewrite Z.mul_0_r. by apply loop_start.
  - intros i [p v] Hi [Hs Hinv]. apply layout_step; (done || lia).
  - intros [p v] [Hs Hinv]. cbn [fst snd] in *. split; [done|]. rewrite Z.add_0_l, Hnb, <- (same_blocks v Hs) in Hinv.
    apply loop_done in Hinv as Hf; [|done..]. rewrite take_ge in Hf; [done|].
    pose proof (framed_blocks _ _ _ (li_framed _ _ _ _ _ _ Hinv)). destruct Hs as (_ & _ & E & _). unfold zlen in *. lia.
Qed.

End layout.
End acceptance.

(** * The file that is written *)

Section files.
Import VersionRuns VersionRunsOutput.

Lemma zlen_entry_bytes e : zlen (entry_bytes e) = 16.
Proof. unfold entry_bytes. zlen. Qed.

Lemma is_bytes_entry_bytes e : is_bytes (entry_bytes e).
Proof. unfold entry_bytes. repeat (apply Forall_app; split); by apply is_bytes_store_le. Qed.

Lemma join_split {A} (l : list (list A)) j x : l.[j] = Some x ->
  mjoin l = mjoin (take (Z.to_nat j) l) ++ x ++ mjoin (drop (S (Z.to_nat j)) l).
Proof.
  intros Hx. pose proof (zget_Some_range _ _ _ Hx). rewrite <- (take_drop_middle l (Z.to_nat j) x) at 1.
  - rewrite join_app. done.
  - unfold zget in Hx. by rewrite decide_True in Hx by lia.
Qed.

(** The offset of block [j] from the first one. *)
Definition block_offset (Bs : list (list Z)) (j : Z) : Z := zlen (mjoin (take (Z.to_nat j) Bs)).

Lemma block_offset_next Bs j B : Bs.[j] = Some B -> block_offset Bs (j + 1) = block_offset Bs j + zlen B.
Proof.
  intros HB. pose proof (zget_Some_range _ _ _ HB). unfold block_offset.
  replace (Z.to_nat (j + 1)) with (S (Z.to_nat j)) by lia. rewrite (take_S_r _ _ B).
  - rewrite join_app, zlen_app. f_equal. change (mjoin [B]) with (B ++ []). by rewrite app_nil_r.
  - unfold zget in HB. by rewrite decide_True in HB by lia.
Qed.

Lemma block_offset_end Bs : block_offset Bs (zlen Bs) = zlen (mjoin Bs).
Proof. unfold block_offset. rewrite take_ge; [done|]. unfold zlen. lia. Qed.

Lemma block_offset_mod Bs j : Forall (fun B => zlen B `mod` 8 = 0) Bs -> block_offset Bs j `mod` 8 = 0.
Proof.
  intros HB. unfold block_offset. apply (Forall_take _ (Z.to_nat j)) in HB. induction HB as [|B l HB _ IH]; [done|].
  change (mjoin (B :: l)) with (B ++ mjoin l). by rewrite zlen_app, Zplus_mod, HB, IH.
Qed.

(** The directory of the blocks of some runs. *)
Definition entries (rs : list VersionRun) (Bs : list (list Z)) : list (Z * Z) :=
  (fun j => (default 0 (firstDocId <$> rs.[j * 256]), block_offset Bs j)) <$> seqZ 0 (zlen Bs).

(** Blocks that encode the runs, 256 at a time. *)
Definition blocks_of (rs : list VersionRun) (Bs : list (list Z)) : Prop :=
  zlen Bs = (zlen rs + 255) / 256 /\
  forall j B, Bs.[j] = Some B -> VersionRunBuilder.encode (chunk BLOCK_SIZE rs j) = Some B.

(** Runs of a segment of [maxDoc] documents. *)
Definition segment_runs (rs : list VersionRun) (maxDoc : Z) : Prop :=
  0 < zlen rs <= maxDoc /\ increasing (firstDocId <$> rs) /\ firstDocId <$> rs.[0] = Some 0 /\
  Forall (fun r => 0 <= firstDocId r < maxDoc) rs /\ Forall (fun r => is_u 64 (version r)) rs.

Section written.
Context (A : list Z) (rs : list VersionRun) (Bs : list (list Z)) (post : list Z) (maxDoc : Z).
Context (HA : is_bytes A) (HA8 : zlen A `mod` 8 = 0) (Hpost : is_bytes post) (Hmax : maxDoc < 2 ^ 31).
Context (Hrs : segment_runs rs maxDoc) (HBs : blocks_of rs Bs).

Definition file_header : list Z :=
  store_le 4 ENCODING ++ store_le 4 (zlen rs) ++ store_le 8 (zlen (mjoin Bs)) ++
  store_le 8 (zlen (mjoin Bs) + 16 * zlen Bs + 24).

Definition file_bytes : list Z :=
  A ++ mjoin Bs ++ mjoin (entry_bytes <$> entries rs Bs) ++ file_header ++ post.

Context (Hsz : zlen file_bytes < 2 ^ 62).

Lemma chunk_ok j : 0 <= j < zlen Bs -> block_runs_ok (chunk BLOCK_SIZE rs j) /\ j * 256 < zlen rs.
Proof.
  intros Hj. destruct HBs as [Hn _]. destruct Hrs as (Hz & Hinc & _ & Hb & Hv).
  pose proof (Z.div_mod (zlen rs + 255) 256 ltac:(lia)). pose proof (Z.mod_pos_bound (zlen rs + 255) 256 ltac:(lia)).
  assert (j * 256 < zlen rs) as Hlt by lia. split; [|done]. unfold BLOCK_SIZE. split; [rewrite zlen_chunk by lia; lia|]. split; [|split].
  - apply increasing_intro. intros a b x y Hx Hy Hab. pose proof (zget_Some_range _ _ _ Hx) as Ha. pose proof (zget_Some_range _ _ _ Hy) as Hb'.
    rewrite zlen_fmap, zlen_chunk in Ha, Hb' by lia. rewrite zget_fmap, zget_chunk in Hx, Hy by lia.
    eapply (increasing_zget _ (j * 256 + a) (j * 256 + b) _ _ Hinc); [by rewrite zget_fmap|by rewrite zget_fmap|lia].
  - apply Forall_take, Forall_drop. eapply Forall_impl; [exact Hb|]. intros r Hr. simpl in *. unfold is_u. lia.
  - apply Forall_take, Forall_drop. done.
Qed.

Lemma written_block j B : Bs.[j] = Some B -> is_bytes B /\ zlen B `mod` 8 = 0 /\ 40 <= zlen B /\
  forall pre post, is_bytes pre -> is_bytes post -> zlen pre `mod` 8 = 0 ->
    encoded (pre ++ B ++ post) (zlen pre) (zlen B) (chunk BLOCK_SIZE rs j).
Proof.
  intros HB. pose proof (zget_Some_range _ _ _ HB) as Hj. destruct (chunk_ok j Hj) as [Hok _].
  destruct (encode_spec _ Hok) as (B' & E & H1 & H2 & H3 & H4). destruct HBs as [_ He]. rewrite (He j B HB) in E.
  injection E as <-. split; [done|]. split; [done|]. split; [lia|done].
Qed.

Lemma all_blocks : Forall (fun B => zlen B `mod` 8 = 0) Bs /\ is_bytes (mjoin Bs).
Proof.
  split.
  - apply Forall_forall. intros B [j Hj]%zget_elem. by destruct (written_block j B Hj) as (_ & ? & _).
  - assert (Forall is_bytes Bs) as H.
    { apply Forall_forall. intros B [j Hj]%zget_elem. by destruct (written_block j B Hj). }
    clear -H. induction H as [|B l HB _ IH]; [apply List.Forall_nil|]. change (mjoin (B :: l)) with (B ++ mjoin l). by apply Forall_app.
Qed.

Lemma file_is_bytes : is_bytes file_bytes.
Proof.
  unfold file_bytes, file_header. destruct all_blocks as [_ H]. apply Forall_app. split; [done|]. apply Forall_app. split; [done|].
  apply Forall_app. split; [apply is_bytes_records, is_bytes_entry_bytes|]. apply Forall_app. split; [|done].
  repeat (apply Forall_app; split); by apply is_bytes_store_le.
Qed.

Lemma zlen_entries : zlen (entries rs Bs) = zlen Bs.
Proof. unfold entries. pose proof (zlen_nonneg Bs). zlen. Qed.

Lemma zget_entries j : 0 <= j < zlen Bs ->
  (entries rs Bs).[j] = Some (default 0 (firstDocId <$> rs.[j * 256]), block_offset Bs j).
Proof. intros Hj. unfold entries. by rewrite zget_fmap, zget_seqZ by lia. Qed.

Abbreviation D := (zlen (mjoin Bs)).
Abbreviation header_at := (zlen A + D + 16 * zlen Bs).

Lemma zlen_file : zlen file_bytes = header_at + 24 + zlen post.
Proof.
  unfold file_bytes, file_header. rewrite !zlen_app, (zlen_records entry_bytes 16) by apply zlen_entry_bytes.
  rewrite zlen_entries. zlen.
Qed.

Lemma first_u32 j : 0 <= j < zlen Bs -> exists r, rs.[j * 256] = Some r /\ is_u 32 (firstDocId r).
Proof.
  intros Hj. destruct (chunk_ok j Hj) as [_ Hlt]. destruct (zget_in rs (j * 256)) as [r Hr]; [lia|]. exists r. split; [done|].
  destruct Hrs as (_ & _ & _ & Hb & _). rewrite Forall_forall in Hb. pose proof (Hb r (zget_elem_1 _ _ _ Hr)). unfold is_u. lia.
Qed.

Lemma entry_read j : 0 <= j < zlen Bs ->
  load 8 file_bytes (zlen A + D + 16 * j + 8) = Some (block_offset Bs j) /\
  load 4 file_bytes (zlen A + D + 16 * j + 4) = Some 0 /\
  load 4 file_bytes (zlen A + D + 16 * j) = firstDocId <$> rs.[j * 256].
Proof.
  intros Hj. destruct (first_u32 j Hj) as (r & Hr & Hu). pose proof (zget_entries j Hj) as He. rewrite Hr in He. simpl in He.
  destruct (records_split entry_bytes 16 _ _ _ zlen_entry_bytes He) as (a & e & E & Ha).
  assert (file_bytes = (A ++ mjoin Bs ++ a) ++ store_le 4 (firstDocId r) ++ store_le 4 0 ++ store_le 8 (block_offset Bs j) ++
    e ++ file_header ++ post) as Ef.
  { unfold file_bytes. rewrite E. unfold entry_bytes. cbn [fst snd]. by rewrite <- !app_assoc. }
  assert (is_u 64 (block_offset Bs j)) as Ho.
  { pose proof zlen_file. pose proof (zlen_nonneg post). unfold block_offset, is_u. pose proof (zlen_nonneg (mjoin (take (Z.to_nat j) Bs))).
    destruct (zget_in Bs j Hj) as [B HB]. pose proof (join_split Bs j B HB) as Ej. apply (f_equal zlen) in Ej. rewrite !zlen_app in Ej.
    pose proof (zlen_nonneg B). pose proof (zlen_nonneg (mjoin (drop (S (Z.to_nat j)) Bs))). pose proof (zlen_nonneg A). lia. }
  rewrite Hr. split; [|split].
  - rewrite (load_bytes_at 8 ((A ++ mjoin Bs ++ a) ++ store_le 4 (firstDocId r) ++ store_le 4 0) (block_offset Bs j) (e ++ file_header ++ post));
      [|lia|by rewrite Ef, <- !app_assoc|zlen]. by rewrite uwrap_id.
  - rewrite (load_bytes_at 4 ((A ++ mjoin Bs ++ a) ++ store_le 4 (firstDocId r)) 0 (store_le 8 (block_offset Bs j) ++ e ++ file_header ++ post));
      [done|lia|by rewrite Ef, <- !app_assoc|zlen].
  - rewrite (load_bytes_at 4 (A ++ mjoin Bs ++ a) (firstDocId r) (store_le 4 0 ++ store_le 8 (block_offset Bs j) ++ e ++ file_header ++ post));
      [|lia|by rewrite Ef|zlen]. simpl. f_equal. by apply uwrap_id.
Qed.

Lemma file_layout : written_layout file_bytes (zlen A) D rs (block_offset Bs <$> seqZ 0 (zlen Bs)).
Proof.
  pose proof (zlen_nonneg Bs) as HBn. constructor.
  - zlen. apply HBs.
  - intros j off [Hj ->]%zget_map_seqZ; [|done]. by apply entry_read.
  - intros j off limit [Hj ->]%zget_map_seqZ Hl; [|done]. destruct (zget_in Bs j Hj) as [B HB].
    destruct (written_block j B HB) as (H1 & H2 & H3 & Henc).
    assert (limit = block_offset Bs j + zlen B) as ->.
    { rewrite <- block_offset_next by done. destruct (decide (j + 1 < zlen Bs)).
      - rewrite zget_app_l in Hl by zlen. by apply zget_map_seqZ in Hl as [_ ->].
      - rewrite zget_app_r in Hl by zlen. rewrite zlen_fmap, zlen_seqZ in Hl by lia.
        replace (j + 1 - zlen Bs) with 0 in Hl by lia. rewrite zget_cons_0 in Hl. injection Hl as <-.
        rewrite <- block_offset_end. f_equal. lia. }
    replace (block_offset Bs j + zlen B - block_offset Bs j) with (zlen B) by lia.
    pose proof (join_split Bs j B HB) as Ej. set (X := mjoin (take (Z.to_nat j) Bs)) in *. set (Y := mjoin (drop _ Bs)) in *.
    assert (zlen X = block_offset Bs j) as Hx by done. destruct all_blocks as [Hm8 Hbytes].
    pose proof (block_offset_mod Bs j Hm8) as Hmod. rewrite Ej in Hbytes. apply Forall_app in Hbytes as [HbX [_ HbY]%Forall_app].
    split; [|split; [apply zlen_nonneg|split]].
    + replace file_bytes with ((A ++ X) ++ B ++ (Y ++ mjoin (entry_bytes <$> entries rs Bs) ++ file_header ++ post))
        by (unfold file_bytes; rewrite Ej, <- !app_assoc; done).
      rewrite <- Hx, <- zlen_app. apply Henc; [by apply Forall_app| |].
      * pose proof file_is_bytes as Hf. unfold file_bytes in Hf. rewrite Ej, <- !app_assoc in Hf.
        apply Forall_app in Hf as [_ [_ [_ Hf]%Forall_app]%Forall_app]. exact Hf.
      * by rewrite zlen_app, Zplus_mod, HA8, Hx, Hmod.
    + change 7 with (Z.ones 3). rewrite Z.land_ones by lia. exact Hmod.
    + split; [lia|]. apply (f_equal zlen) in Ej. rewrite !zlen_app in Ej. pose proof (zlen_nonneg Y). lia.
Qed.

Lemma header_aligned : Z.land header_at 7 = 0 /\ Z.land (D + 16 * zlen Bs + 24) 7 = 0 /\ Z.land D 7 = 0.
Proof.
  destruct all_blocks as [Hm8 _]. pose proof (block_offset_mod Bs (zlen Bs) Hm8) as HD8. rewrite block_offset_end in HD8.
  change 7 with (Z.ones 3). rewrite !Z.land_ones by lia. change (2 ^ 3) with 8. split_and!; [|..|done].
  - rewrite (Zplus_mod (zlen A + D)), (Zplus_mod (zlen A)), HA8, HD8. replace (16 * zlen Bs) with (2 * zlen Bs * 8) by lia. by rewrite Z.mod_mul.
  - rewrite (Zplus_mod _ 24), (Zplus_mod D), HD8. replace (16 * zlen Bs) with (2 * zlen Bs * 8) by lia. by rewrite Z.mod_mul.
Qed.

Lemma file_header_read :
  load 4 file_bytes header_at = Some 2 /\ load 4 file_bytes (header_at + 4) = Some (zlen rs) /\
  load 8 file_bytes (header_at + 8) = Some D /\ load 8 file_bytes (header_at + 16) = Some (D + 16 * zlen Bs + 24).
Proof.
  pose proof zlen_file as Hz. pose proof (zlen_nonneg post). pose proof (zlen_nonneg A). pose proof (zlen_nonneg Bs).
  pose proof (zlen_nonneg (mjoin Bs)). destruct Hrs as (Hc & _).
  set (P := A ++ mjoin Bs ++ mjoin (entry_bytes <$> entries rs Bs)).
  assert (zlen P = header_at) as HP.
  { unfold P. rewrite !zlen_app, (zlen_records entry_bytes 16) by apply zlen_entry_bytes. rewrite zlen_entries. lia. }
  assert (file_bytes = P ++ file_header ++ post) as EP by (unfold P, file_bytes; by rewrite <- !app_assoc).
  rewrite EP, <- HP. unfold file_header. split_and!.
  - rewrite (load_bytes_at 4 P ENCODING (store_le 4 (zlen rs) ++ store_le 8 D ++ store_le 8 (D + 16 * zlen Bs + 24) ++ post));
      [done|lia|by rewrite <- !app_assoc|done].
  - rewrite (load_bytes_at 4 (P ++ store_le 4 ENCODING) (zlen rs) (store_le 8 D ++ store_le 8 (D + 16 * zlen Bs + 24) ++ post));
      [|lia|by rewrite <- !app_assoc|zlen]. f_equal. apply uwrap_id. unfold is_u. lia.
  - rewrite (load_bytes_at 8 (P ++ store_le 4 ENCODING ++ store_le 4 (zlen rs)) D (store_le 8 (D + 16 * zlen Bs + 24) ++ post));
      [|lia|by rewrite <- !app_assoc|zlen]. f_equal. apply uwrap_id. unfold is_u. lia.
  - rewrite (load_bytes_at 8 (P ++ store_le 4 ENCODING ++ store_le 4 (zlen rs) ++ store_le 8 D) (D + 16 * zlen Bs + 24) post);
      [|lia|by rewrite <- !app_assoc|zlen]. f_equal. apply uwrap_id. unfold is_u. lia.
Qed.

Lemma file_accepted : exists v, VersionRuns.make file_bytes header_at (zlen rs) maxDoc = Ret v /\ file_of v rs.
Proof.
  pose proof zlen_file as Hz. pose proof (zlen_nonneg post). pose proof (zlen_nonneg A). pose proof (zlen_nonneg Bs).
  pose proof (zlen_nonneg (mjoin Bs)). destruct Hrs as (Hc & Hinc & Hzero & Hb & _). destruct HBs as [Hn _].
  destruct header_aligned as (Ha1 & Ha2 & Ha3). destruct file_header_read as (E1 & E2 & E3 & E4).
  unfold VersionRuns.make, sizeof_VersionRunsHeader. cbv zeta. rewrite (uwrap_id 32 maxDoc) by (unfold is_u; lia). rewrite decide_False by lia.
  rewrite E1, E2, E3, E4. cbn [lift mbind outcome_bind]. rewrite decide_False by lia.
  replace (header_at + 24 - (D + 16 * zlen Bs + 24)) with (zlen A) by lia.
  set (v := Runs _ _ _ _ _ _ _ _). unfold sizeof_VersionBlockDirectory, ENCODING.
  assert (numBlocks v = zlen Bs) as Hnb.
  { unfold numBlocks, BLOCK_SIZE, v. cbn [count_]. rewrite uwrap_id by (unfold is_u; lia). rewrite Hn. f_equal. lia. }
  rewrite Hnb, decide_False by lia.
  assert (framed file_bytes v D) as Hv.
  { constructor; rewrite ?Hnb; unfold v; cbn [file data directory count_ maxDoc_]; (done || lia). }
  pose proof (layout_accepted file_bytes file_is_bytes Hsz v D rs _ Hv file_layout) as Hacc.
  specialize (Hacc eq_refl Hinc Hb Hzero eq_refl eq_refl). rewrite Hnb in Hacc. cbn [maxDoc_ v] in Hacc. unfold may_throw in Hacc.
  destruct (foldE _ _ _) as [[p v']| |]; [|done..]. destruct Hacc as [_ Hf]. exists v'. split; [done|exact Hf].
Qed.

End written.
End files.

(** * What the builder holds *)

(** The version in force at a document after a sequence of additions, each of which sets the
    version of every document from its start on. *)
Definition in_force (adds : list (Z * Z)) (doc : Z) : Z :=
  foldl (fun v a => if decide (a.1 <= doc) then a.2 else v) 0 adds.

Section births.

Lemma birth_snoc rs r doc : increasing (firstDocId <$> rs ++ [r]) ->
  birth_of (rs ++ [r]) doc = if decide (firstDocId r <= doc) then Some (version r) else birth_of rs doc.
Proof.
  intros Hinc. case_decide as Hd.
  - eapply birth_of_run; [done|apply zget_snoc|done|]. intros r' Hr'%zget_Some_range. zlen.
  - unfold birth_of, run_at. rewrite fmap_app, count_lt_app, (count_lt_none (firstDocId <$> [r])).
    2: { intros x Hx. apply list_elem_of_singleton in Hx as ->. lia. }
    rewrite Z.add_0_r. pose proof (count_lt_range (firstDocId <$> rs) (doc + 1)) as Hc. rewrite zlen_fmap in Hc.
    by rewrite zget_app_l by lia.
Qed.

Lemma birth_last rs r doc : increasing (firstDocId <$> rs) -> last rs = Some r -> firstDocId r <= doc ->
  birth_of rs doc = Some (version r).
Proof.
  intros Hinc (l & ->)%last_Some Hd. by rewrite birth_snoc, decide_True by done.
Qed.

Lemma last_before rs p l : increasing (firstDocId <$> rs ++ [l]) -> last rs = Some p -> firstDocId p < firstDocId l.
Proof.
  intros Hinc (q & ->)%last_Some. eapply (increasing_zget _ (zlen q) (zlen (q ++ [p])) _ _ Hinc).
  - rewrite zget_fmap, <- app_assoc, (zget_app_r q) by lia. by rewrite Z.sub_diag.
  - by rewrite zget_fmap, zget_snoc.
  - rewrite zlen_app. change (zlen [p]) with 1. lia.
Qed.

Lemma increasing_prefix l k : increasing (l ++ k) -> increasing l.
Proof.
  intros H. apply increasing_intro. intros i j x y Hx Hy Hij.
  eapply (increasing_zget (l ++ k) i j _ _ H); [by apply zget_app_Some|by apply zget_app_Some|done].
Qed.

Lemma increasing_extend l x y : increasing l -> last l = Some x -> x < y -> increasing (l ++ [y]).
Proof.
  intros Hl Hx Hxy. eapply (increasing_app l [y] x y); [done|apply SSorted_cons; [apply SSorted_nil|apply List.Forall_nil]| |done|done].
  apply last_Some in Hx as (l' & ->). rewrite zlen_app. change (zlen [x]) with 1.
  replace (zlen l' + 1 - 1) with (zlen l') by lia. apply zget_snoc.
Qed.

End births.

(** Neighbouring runs have different versions. *)
Definition distinct (rs : list VersionRun) : Prop :=
  forall k r r', rs.[k] = Some r -> rs.[k + 1] = Some r' -> version r <> version r'.

Lemma distinct_single r : distinct [r].
Proof.
  intros k x y Hx Hy. pose proof (zget_Some_range _ _ _ Hx) as H1. pose proof (zget_Some_range _ _ _ Hy) as H2. change (zlen [r]) with 1 in *. lia.
Qed.

Lemma distinct_snoc rs r : distinct (rs ++ [r]) <-> distinct rs /\ forall l, last rs = Some l -> version l <> version r.
Proof.
  split.
  - intros H. split; [intros k x y Hx Hy; by apply (H k); apply zget_app_Some|]. intros l Hl. rewrite last_zget in Hl.
    apply (H (zlen rs - 1)); [by apply zget_app_Some|]. replace (zlen rs - 1 + 1) with (zlen rs) by lia. apply zget_snoc.
  - intros [H Hl] k x y Hx Hy. pose proof (zget_Some_range _ _ _ Hy) as Hr. rewrite zlen_app in Hr. change (zlen [r]) with 1 in Hr.
    pose proof (zget_Some_range _ _ _ Hx). rewrite zget_app_l in Hx by lia. apply zget_snoc_inv in Hy as [Hy|[Hk ->]]; [by apply (H k)|].
    apply Hl. rewrite last_zget, <- Hk, <- Hx. f_equal. lia.
Qed.

Lemma load_typed n mem off w : is_bytes mem -> load n mem off = Some w -> is_u (8 * n) w.
Proof.
  intros Hm E. assert (0 <= off /\ 0 <= n /\ off + n <= zlen mem) as (H1 & H2 & H3).
  { unfold load, slice in E. by destruct (decide _) in E. }
  destruct (load_in mem Hm n off) as (w' & E' & Hw); [done..|]. congruence.
Qed.

(** The widths of the prefix a formula covers, which is of full blocks. *)
Definition affine_typed (p : VersionAffinePrefix.prefix) : Prop :=
  is_u 64 (VersionAffinePrefix.base p) /\ is_u 64 (VersionAffinePrefix.step p) /\ is_u 32 (VersionAffinePrefix.count p).

Lemma affineBlock_typed c first second : is_bytes (NumColumn.mem c) -> NumColumn.affineBlock c 0 = Some (Some (first, second)) -> is_u 64 first /\ is_u 64 second.
Proof.
  intros Hm. unfold NumColumn.affineBlock. destruct (NumColumn.blockInfo c 0) as [i|] eqn:Ei; [|done]. rewrite bind_Some_l. intros Ea%(inj Some).
  destruct (decide _) in Ea; [done|]. apply (inj Some), pair_equal_spec in Ea as [<- <-].
  split; [|destruct (NumColumn.withGcd c); apply uwrap_range; lia]. unfold NumColumn.blockInfo in Ei. destruct (decide _) in Ei; [|done].
  cbv zeta in Ei. apply bind_Some in Ei as (? & _ & Ei). apply bind_Some in Ei as (w & Ew & Ei). do 2 (apply bind_Some in Ei as (? & _ & Ei)). apply (inj Some) in Ei. rewrite <- Ei. exact (load_typed 8 _ _ _ Hm Ew).
Qed.

Lemma append_typed b firstRun p p' : is_bytes (VersionBlock.mem b) -> VersionAffinePrefix.append b firstRun p = Some p' -> affine_typed p -> affine_typed p'.
Proof.
  intros Hm E Hp. unfold VersionAffinePrefix.append in E. destruct (VersionBlock.header b) as [h|]; [|done]. rewrite bind_Some_l in E.
  destruct (decide _) in E; [by apply (inj Some) in E as <-|]. unfold VersionBlock.versions in E. destruct (NumColumn.make _ _ _ _ _) as [c|] eqn:Ec; [|done]. rewrite bind_Some_l in E.
  assert (NumColumn.mem c = VersionBlock.mem b) as Hmem. { unfold NumColumn.make in Ec. destruct (decide _) in Ec; [by injection Ec as <-|done]. }
  destruct (NumColumn.affineBlock c 0) as [o|] eqn:Ea; [|done]. rewrite bind_Some_l in E. destruct o as [[first second]|]; [|by apply (inj Some) in E as <-].
  destruct (affineBlock_typed c first second) as [Hf Hs]; [by rewrite Hmem|done|]. destruct Hp as (H1 & H2 & H3).
  destruct (decide _) in E; [apply (inj Some) in E as <-; split_and!; [done..|apply uwrap_range; lia]|].
  destruct (decide _) in E; apply (inj Some) in E as <-; [done|]. split_and!; [done..|apply uwrap_range; lia].
Qed.

Section builder.
Import VersionRunBuilder.

Record builder_core (b : builder) (S : list VersionRun) (f : Z -> Z) (bound : Z) : Prop := {
  bi_count : sealedCount b = zlen S;
  bi_incr : increasing (firstDocId <$> S ++ tail b);
  bi_zero : firstDocId <$> (S ++ tail b).[0] = Some 0;
  bi_unsigned : Forall (fun r => is_u 64 (version r)) (S ++ tail b);
  bi_bound : Forall (fun r => 0 <= firstDocId r <= bound) (S ++ tail b);
  bi_last : S <> [] -> last S = Some (sealedLast b);
  bi_tail : zlen (tail b) <= 256;
  bi_blocks : zlen S = 256 * zlen (sealed b);
  bi_sealed j s : (sealed b).[j] = Some s ->
    encode (chunk VersionRuns.BLOCK_SIZE S j) = Some (sdata s) /\ Some (sfirstDocId s) = firstDocId <$> S.[j * 256];
  bi_sdense : sealedDense b = true -> forall k r, S.[k] = Some r -> firstDocId r = k;
  bi_tdense : tailDense b = true -> forall k r r0, (tail b).[0] = Some r0 -> (tail b).[k] = Some r -> firstDocId r = firstDocId r0 + k;
  bi_affine : affine_ok (affine b) S;
  bi_distinct : distinct (S ++ tail b);
  bi_sizes : Forall (fun s => ssize s = zlen (sdata s)) (sealed b) /\ sealedBytes b = zlen (mjoin (sdata <$> sealed b));
  bi_prefix : affine_typed (affine b);
  bi_unsealed : S = [] -> sealedLast b = Run 0 0;
  bi_birth doc : 0 <= doc -> birth_of (S ++ tail b) doc = Some (f doc) }.

Definition builder_inv (b : builder) (S : list VersionRun) (f : Z -> Z) (bound : Z) : Prop :=
  builder_core b S f bound /\ (tail b = [] -> S <> [] /\ firstDocId (sealedLast b) < bound).

Lemma fresh_builder : builder_inv fresh [] (in_force []) 0.
Proof.
  split; [|done]. constructor; simpl; try done.
  - apply SSorted_cons; [apply SSorted_nil|apply List.Forall_nil].
  - apply List.Forall_cons; [done|apply List.Forall_nil].
  - apply List.Forall_cons; [done|apply List.Forall_nil].
  - intros j s Hs. by rewrite zget_nil in Hs.
  - intros _ k r Hr. by rewrite zget_nil in Hr.
  - intros _ k r r0 H0 Hr. pose proof (zget_Some_range _ _ _ Hr) as Hk. change (zlen [Run 0 0]) with 1 in Hk.
    assert (k = 0) as -> by lia. rewrite H0 in Hr. injection Hr as ->. lia.
  - split; simpl; [done|lia].
  - apply distinct_single.
  - intros doc Hd. unfold birth_of, run_at. rewrite (count_lt_all _ (doc + 1)); [done|].
    intros x Hx. apply list_elem_of_singleton in Hx as ->. simpl. lia.
Qed.

Section steps.
Context (b : builder) (S : list VersionRun) (f : Z -> Z) (bound : Z).
Context (Hb : builder_core b S f bound) (Hbound : bound <= 2 ^ 31).

Lemma total_runs : zlen S + zlen (tail b) <= bound + 1.
Proof.
  rewrite <- zlen_app, <- (zlen_fmap firstDocId). apply increasing_bound; [apply Hb| |].
  - apply Forall_fmap. eapply Forall_impl; [apply (bi_bound _ _ _ _ Hb)|]. simpl. lia.
  - pose proof (bi_zero _ _ _ _ Hb) as H0. destruct ((S ++ tail b).[0]) as [r|] eqn:E; [|done]. injection H0 as H0.
    pose proof (bi_bound _ _ _ _ Hb) as H. rewrite Forall_forall in H. pose proof (H r (zget_elem_1 _ _ _ E)). lia.
Qed.

Lemma tail_runs_ok n : 0 < n <= zlen (tail b) -> block_runs_ok (take (Z.to_nat n) (tail b)).
Proof.
  intros Hn. pose proof (bi_tail _ _ _ _ Hb). split; [|split; [|split]].
  - unfold zlen in *. rewrite length_take. lia.
  - pose proof (bi_incr _ _ _ _ Hb) as Hi. rewrite fmap_app in Hi. apply increasing_intro. intros i j x y Hx Hy Hij.
    pose proof (zget_Some_range _ _ _ Hx) as Hr. pose proof (zget_Some_range _ _ _ Hy) as Hr2.
    rewrite zlen_fmap in Hr, Hr2. unfold zlen in Hr, Hr2. rewrite length_take in Hr, Hr2.
    rewrite zget_fmap, zget_take, <- zget_fmap in Hx, Hy by lia.
    eapply (increasing_zget _ (zlen S + i) (zlen S + j) _ _ Hi); [| |lia].
    + rewrite zget_app_r by zlen. rewrite zlen_fmap. rewrite <- Hx. f_equal. lia.
    + rewrite zget_app_r by zlen. rewrite zlen_fmap. rewrite <- Hy. f_equal. lia.
  - apply Forall_take. pose proof (bi_bound _ _ _ _ Hb) as H'. apply Forall_app in H' as [_ H'].
    eapply Forall_impl; [exact H'|]. intros r Hr. simpl in *. unfold is_u. lia.
  - apply Forall_take. pose proof (bi_unsigned _ _ _ _ Hb) as H'. by apply Forall_app in H' as [_ H'].
Qed.

Lemma sealed_runs_ok j : 0 <= j < zlen (sealed b) -> zlen (chunk 256 S j) = 256 /\ block_runs_ok (chunk 256 S j).
Proof.
  intros Hj. pose proof (bi_blocks _ _ _ _ Hb) as Hbl. assert (zlen (chunk 256 S j) = 256) as Hz by (rewrite zlen_chunk by lia; lia).
  pose proof (bi_unsigned _ _ _ _ Hb) as Hu. apply Forall_app in Hu as [Hu _]. pose proof (bi_bound _ _ _ _ Hb) as Hbd. apply Forall_app in Hbd as [Hbd _].
  split; [done|]. split; [lia|]. split; [|split; apply Forall_take, Forall_drop; [|done]].
  - pose proof (bi_incr _ _ _ _ Hb) as Hinc. rewrite fmap_app in Hinc. apply increasing_prefix in Hinc. apply increasing_intro.
    intros i i' x y Hx Hy Hlt. pose proof (zget_Some_range _ _ _ Hx) as Hr1. pose proof (zget_Some_range _ _ _ Hy) as Hr2. rewrite zlen_fmap, Hz in Hr1, Hr2.
    rewrite zget_fmap, zget_chunk, <- zget_fmap in Hx, Hy by lia. eapply (increasing_zget _ _ _ _ _ Hinc Hx Hy). lia.
  - eapply Forall_impl; [exact Hbd|]. simpl. unfold is_u. lia.
Qed.

Lemma tail_block : zlen (tail b) = 256 ->
  exists B, encode (tail b) = Some B /\ block_of (VersionBlock.Block B 0 256) (tail b) /\ is_bytes B /\ is_u 32 (zlen B).
Proof.
  intros Hz. pose proof (tail_runs_ok 256 ltac:(lia)) as Hok. rewrite take_ge in Hok by (unfold zlen in Hz; lia).
  destruct (encode_spec _ Hok) as (B & E & HB & _ & Hsz & He). exists B. split; [done|].
  pose proof (en_block _ _ _ _ (He [] [] (List.Forall_nil _) (List.Forall_nil _) eq_refl)) as Hbo.
  rewrite app_nil_l, app_nil_r, Hz in Hbo. split; [exact Hbo|]. split; [done|]. unfold is_u. lia.
Qed.

(** The builder after a seal, before the run that caused it is added. *)
Lemma seal_spec : zlen (tail b) = 256 ->
  exists b' B r0, seal (W := unit) None b () = Ret (b', ()) /\ tail b' = [] /\ tailDense b' = true /\ last (tail b) = Some (sealedLast b') /\
    sealedCount b' = zlen (S ++ tail b) /\ sealed b' = sealed b ++ [Sealed B (u32 (zlen B)) (firstDocId r0)] /\
    (tail b).[0] = Some r0 /\ encode (tail b) = Some B /\ is_u 32 (zlen B) /\ sealedBytes b' = sealedBytes b + zlen B /\
    affine_typed (affine b') /\ affine_ok (affine b') (S ++ tail b) /\
    (sealedDense b' = true -> forall k r, (S ++ tail b).[k] = Some r -> firstDocId r = k).
Proof.
  intros Hz. pose proof total_runs as Ht. destruct (tail_block Hz) as (B & E & Hblk & HB & Hsz).
  destruct (zget_in (tail b) 0) as [r0 Hr0]; [lia|]. destruct (zget_in (tail b) 255) as [rl Hrl]; [lia|].
  unfold seal, VersionRuns.BLOCK_SIZE. rewrite decide_True by done. rewrite E, Hr0, Hz. change (256 - 1) with 255. rewrite Hrl.
  cbn [lift mbind outcome_bind]. change (u32 256) with 256.
  destruct (affine_append _ _ (affine b) (S ++ tail b) (sealedCount b) Hblk) as (a' & Ea & Ha).
  { apply affine_extend, Hb. }
  { zlen. }
  { rewrite (bi_count _ _ _ _ Hb). apply zlen_nonneg. }
  { intros k r Hk. pose proof (zget_Some_range _ _ _ Hk). rewrite (bi_count _ _ _ _ Hb), zget_app_r by lia. rewrite <- Hk. f_equal. lia. }
  rewrite Ea. cbn [lift mbind outcome_bind]. eexists _, B, r0. split; [done|]. cbn [tail tailDense sealedLast sealedCount sealed affine sealedDense].
  split; [done|]. split; [done|]. split.
  { rewrite last_lookup. unfold zget in Hrl. rewrite decide_True in Hrl by lia. rewrite <- Hrl. f_equal. unfold zlen in Hz. lia. }
  split. { rewrite (bi_count _ _ _ _ Hb), zlen_app, Hz. apply uwrap_id. pose proof (zlen_nonneg S). unfold is_u. lia. }
  split; [done|]. split; [done|]. split; [done|]. split; [done|]. split; [done|].
  split; [by eapply append_typed; [|exact Ea|apply Hb]|]. split; [done|].
  intros [Hsd [Htd Hf%bool_decide_eq_true_1]%andb_prop]%andb_prop k r Hk. destruct (decide (k < zlen S)).
  - rewrite zget_app_l in Hk by done. by apply (bi_sdense _ _ _ _ Hb Hsd).
  - rewrite zget_app_r in Hk by lia. rewrite (bi_tdense _ _ _ _ Hb Htd _ _ _ Hr0 Hk), Hf, (bi_count _ _ _ _ Hb). lia.
Qed.

(** A sealed builder holds the same runs. *)
Lemma seal_core : zlen (tail b) = 256 ->
  exists b', seal (W := unit) None b () = Ret (b', ()) /\ tail b' = [] /\ builder_core b' (S ++ tail b) f bound.
Proof.
  intros Hz. destruct (seal_spec Hz) as (b' & B & r0 & E & Et & Etd & El & Ec & Es & Hr0 & EB & Hsz & Eby & Hty & Ha & Hd).
  exists b'. split; [done|]. split; [done|]. pose proof (bi_blocks _ _ _ _ Hb) as Hbl. constructor; rewrite ?Et, ?app_nil_r.
  - done.
  - apply Hb.
  - apply Hb.
  - apply Hb.
  - apply Hb.
  - intros _. rewrite last_app. by rewrite El.
  - done.
  - rewrite Es, !zlen_app. change (zlen [_]) with 1. lia.
  - intros j s Hs. rewrite Es in Hs. apply zget_snoc_inv in Hs as [Hs|[-> ->]].
    + pose proof (zget_Some_range _ _ _ Hs). destruct (bi_sealed _ _ _ _ Hb j s Hs) as [H1 H2]. unfold VersionRuns.BLOCK_SIZE in *.
      rewrite chunk_app_l, zget_app_l by lia. done.
    + unfold VersionRuns.BLOCK_SIZE. pose proof (zlen_nonneg (sealed b)).
      rewrite (chunk_app_r _ _ _ _ (zlen (sealed b))), Z.sub_diag, chunk_all by lia. split; [done|].
      rewrite zget_app_r by lia. replace (zlen (sealed b) * 256 - zlen S) with 0 by lia. by rewrite Hr0.
  - done.
  - rewrite Etd. intros _ k r r' Hr'. by rewrite zget_nil in Hr'.
  - done.
  - apply Hb.
  - destruct (bi_sizes _ _ _ _ Hb) as [H1 H2]. rewrite Es. split.
    + apply Forall_app. split; [done|]. apply List.Forall_cons; [by apply uwrap_id|apply List.Forall_nil].
    + rewrite Eby, H2, fmap_app, join_app, zlen_app. f_equal. change (mjoin (sdata <$> [_])) with (B ++ []). by rewrite app_nil_r.
  - done.
  - intros [_ E0]%app_nil. rewrite E0 in Hz. by change (zlen []) with 0 in Hz.
  - apply Hb.
Qed.

Lemma push_core l start v d :
  zlen (tail b) < 256 -> last (S ++ tail b) = Some l -> firstDocId l < start -> version l <> v -> bound <= start -> is_u 64 v ->
  (d = true -> tailDense b = true /\ forall r0, (tail b).[0] = Some r0 -> start = firstDocId r0 + zlen (tail b)) ->
  builder_core (set_tail (tail b ++ [Run start v]) d b) S (fun doc => if decide (start <= doc) then v else f doc) start.
Proof.
  intros Hz Hl Hlt Hne Hst Hv Hd.
  assert (increasing (firstDocId <$> S ++ tail b ++ [Run start v])) as Hinc.
  { rewrite app_assoc, fmap_app. eapply increasing_extend; [apply Hb| |exact Hlt]. by rewrite fmap_last, Hl. }
  assert (0 <= start) as Hs0.
  { pose proof (bi_bound _ _ _ _ Hb) as H. rewrite Forall_forall in H. apply last_Some_elem_of in Hl. pose proof (H l Hl). lia. }
  constructor; cbn [set_tail tail sealed sealedBytes sealedLast sealedCount sealedDense tailDense affine].
  - apply Hb.
  - exact Hinc.
  - rewrite app_assoc. pose proof (bi_zero _ _ _ _ Hb) as H0. destruct ((S ++ tail b).[0]) as [r|] eqn:E; [|done].
    by rewrite (zget_app_Some _ _ _ _ E).
  - rewrite app_assoc. apply Forall_app. split; [apply Hb|]. apply List.Forall_cons; [done|apply List.Forall_nil].
  - rewrite app_assoc. apply Forall_app. split; [|apply List.Forall_cons; [simpl; lia|apply List.Forall_nil]].
    eapply Forall_impl; [apply (bi_bound _ _ _ _ Hb)|]. simpl. lia.
  - apply Hb.
  - rewrite zlen_app. change (zlen [_]) with 1. lia.
  - apply Hb.
  - apply Hb.
  - apply Hb.
  - intros [Htd Hcons]%Hd k r r0 Hr0 Hr. destruct (decide (tail b = [])) as [Et|Htl].
    + rewrite Et, app_nil_l in Hr0, Hr. pose proof (zget_Some_range _ _ _ Hr) as Hk. change (zlen [_]) with 1 in Hk.
      assert (k = 0) as -> by lia. rewrite Hr0 in Hr. injection Hr as ->. lia.
    + apply zlen_pos in Htl. rewrite zget_app_l in Hr0 by lia. apply zget_snoc_inv in Hr as [Hr|[-> ->]].
      * by apply (bi_tdense _ _ _ _ Hb Htd k r r0).
      * simpl. by apply Hcons.
  - apply Hb.
  - rewrite app_assoc. apply distinct_snoc. split; [apply Hb|]. intros l' Hl'. rewrite Hl in Hl'. by injection Hl' as <-.
  - apply Hb.
  - apply Hb.
  - apply Hb.
  - intros doc Hdoc. rewrite app_assoc, birth_snoc by (by rewrite <- app_assoc). simpl. case_decide; [done|by apply Hb].
Qed.

Lemma replace_core t l v :
  tail b = t ++ [l] -> bound <= firstDocId l -> is_u 64 v -> (forall p, last (S ++ t) = Some p -> version p <> v) ->
  builder_core (set_tail (t ++ [Run (firstDocId l) v]) (tailDense b) b) S
    (fun doc => if decide (firstDocId l <= doc) then v else f doc) (firstDocId l).
Proof.
  intros Et Hl Hv Hne. pose proof (bi_incr _ _ _ _ Hb) as Hinc. pose proof (bi_distinct _ _ _ _ Hb) as Hdis. rewrite Et, app_assoc in Hdis. apply distinct_snoc in Hdis as [Hdis _]. pose proof (bi_bound _ _ _ _ Hb) as Hbd.
  pose proof (bi_unsigned _ _ _ _ Hb) as Hun. rewrite Et, app_assoc in Hinc, Hbd, Hun.
  assert (increasing (firstDocId <$> (S ++ t) ++ [Run (firstDocId l) v])) as Hinc'.
  { rewrite fmap_app in Hinc |- *. exact Hinc. }
  apply Forall_app in Hbd as [Hbd1 Hbd2]. apply Forall_app in Hun as [Hun1 _].
  pose proof (Forall_inv Hbd2) as Hbl. cbv beta in Hbl.
  constructor; cbn [set_tail tail sealed sealedBytes sealedLast sealedCount sealedDense tailDense affine]; rewrite ?app_assoc.
  - apply Hb.
  - exact Hinc'.
  - pose proof (bi_zero _ _ _ _ Hb) as H0. rewrite Et, app_assoc in H0. destruct (decide (0 < zlen (S ++ t))).
    + by rewrite zget_app_l in H0 |- * by done.
    + pose proof (zlen_nonneg (S ++ t)). rewrite zget_app_r in H0 |- * by lia. replace (0 - zlen (S ++ t)) with 0 in * by lia. exact H0.
  - apply Forall_app. split; [done|]. apply List.Forall_cons; [done|apply List.Forall_nil].
  - apply Forall_app. split; [|apply List.Forall_cons; [simpl; lia|apply List.Forall_nil]].
    eapply Forall_impl; [exact Hbd1|]. simpl. lia.
  - apply Hb.
  - pose proof (bi_tail _ _ _ _ Hb) as Hz. rewrite Et, zlen_app in Hz. rewrite zlen_app. exact Hz.
  - apply Hb.
  - apply Hb.
  - apply Hb.
  - intros Htd k r r0 Hr0 Hr. pose proof (bi_tdense _ _ _ _ Hb Htd) as Hd. rewrite Et in Hd.
    assert (forall j x, (t ++ [Run (firstDocId l) v]).[j] = Some x -> exists y, (t ++ [l]).[j] = Some y /\ firstDocId y = firstDocId x) as Hsame.
    { intros j x Hx. apply zget_snoc_inv in Hx as [Hx|[-> ->]]; [|exists l; split; [apply zget_snoc|done]].
      exists x. split; [by apply zget_app_Some|done]. }
    destruct (Hsame _ _ Hr0) as (y0 & Hy0 & <-). destruct (Hsame _ _ Hr) as (y & Hy & <-). by apply (Hd k y y0).
  - apply Hb.
  - by apply distinct_snoc.
  - apply Hb.
  - apply Hb.
  - apply Hb.
  - intros doc Hdoc. rewrite birth_snoc by done. simpl. case_decide; [done|].
    rewrite <- (bi_birth _ _ _ _ Hb doc Hdoc), Et, app_assoc, birth_snoc by done. by rewrite decide_False by lia.
Qed.

Lemma pop_core t l p :
  tail b = t ++ [l] -> bound <= firstDocId l -> last (S ++ t) = Some p ->
  builder_core (set_tail t (tailDense b) b) S (fun doc => if decide (firstDocId l <= doc) then version p else f doc) (firstDocId l).
Proof.
  intros Et Hl Hp. pose proof (bi_incr _ _ _ _ Hb) as Hinc. pose proof (bi_bound _ _ _ _ Hb) as Hbd.
  pose proof (bi_unsigned _ _ _ _ Hb) as Hun. rewrite Et, app_assoc in Hinc, Hbd, Hun.
  apply Forall_app in Hbd as [Hbd1 Hbd2]. apply Forall_app in Hun as [Hun1 _]. pose proof (Forall_inv Hbd2) as Hbl. cbv beta in Hbl.
  assert (increasing (firstDocId <$> S ++ t)) as Hinc1 by (rewrite fmap_app in Hinc; by apply increasing_prefix in Hinc).
  assert (0 < zlen (S ++ t)) as Hpos by (apply zlen_pos; intros E; by rewrite E in Hp).
  constructor; cbn [set_tail tail sealed sealedBytes sealedLast sealedCount sealedDense tailDense affine].
  - apply Hb.
  - exact Hinc1.
  - pose proof (bi_zero _ _ _ _ Hb) as H0. rewrite Et, app_assoc in H0. by rewrite zget_app_l in H0 by done.
  - done.
  - eapply Forall_impl; [exact Hbd1|]. simpl. lia.
  - apply Hb.
  - pose proof (bi_tail _ _ _ _ Hb) as Hz. rewrite Et, zlen_app in Hz. change (zlen [l]) with 1 in Hz. lia.
  - apply Hb.
  - apply Hb.
  - apply Hb.
  - intros Htd k r r0 Hr0 Hr. pose proof (bi_tdense _ _ _ _ Hb Htd) as Hd. rewrite Et in Hd.
    apply (Hd k r r0); by apply zget_app_Some.
  - apply Hb.
  - pose proof (bi_distinct _ _ _ _ Hb) as Hdis. rewrite Et, app_assoc in Hdis. by apply distinct_snoc in Hdis as [Hdis _].
  - apply Hb.
  - apply Hb.
  - apply Hb.
  - intros doc Hdoc. pose proof (bi_birth _ _ _ _ Hb doc Hdoc) as Hf. rewrite Et, app_assoc, birth_snoc in Hf by done.
    destruct (decide (firstDocId l <= doc)); [|done]. apply birth_last; [done|done|].
    pose proof (last_before _ _ _ Hinc Hp). lia.
Qed.

Lemma weaken_core f' bound' : bound <= bound' -> (forall doc, 0 <= doc -> f doc = f' doc) -> builder_core b S f' bound'.
Proof.
  intros Hle Hf. constructor; try apply Hb.
  - eapply Forall_impl; [apply (bi_bound _ _ _ _ Hb)|]. simpl. lia.
  - intros doc Hdoc. rewrite <- Hf by done. by apply Hb.
Qed.

Lemma pushes_run l start v :
  zlen (tail b) < 256 -> last (S ++ tail b) = Some l -> firstDocId l < start -> version l <> v -> bound <= start <= 2 ^ 31 -> is_u 64 v ->
  exists b', push start v b = Ret b' /\ builder_inv b' S (fun doc => if decide (start <= doc) then v else f doc) start.
Proof.
  intros Hz Hl Hlt Hver Hst Hv. unfold push. destruct (zget_in (tail b ++ [Run start v]) 0) as [r0 Hr0].
  { rewrite zlen_app. change (zlen [_]) with 1. pose proof (zlen_nonneg (tail b)). lia. }
  rewrite Hr0. cbn [lift mbind outcome_bind]. eexists. split; [done|].
  split; [|cbn [set_tail tail]; intros E; by apply app_nil in E as [_ ?]].
  apply (push_core l); [lia|done|lia|done|lia|done|]. rewrite zlen_app. change (zlen [_]) with 1. intros Hd.
  destruct (decide (tail b = [])) as [Et|Hne].
  - rewrite Et in Hd |- *. rewrite decide_False in Hd by (change (zlen []) with 0; lia). split; [done|].
    intros r H. by rewrite zget_nil in H.
  - apply zlen_pos in Hne. rewrite decide_True in Hd by lia. apply andb_prop in Hd as [Hd Hs%bool_decide_eq_true_1].
    split; [done|]. intros r H. rewrite zget_app_l in Hr0 by lia. rewrite H in Hr0. injection Hr0 as ->.
    pose proof (bi_bound _ _ _ _ Hb) as Hbd. rewrite Forall_forall in Hbd.
    assert (0 <= firstDocId r0 <= bound) as Hr by (apply Hbd, elem_of_app; right; by eapply zget_elem_1).
    rewrite uwrap_id in Hs by (unfold is_u; lia). lia.
Qed.

Lemma previous_run t p l l' : tail b = t ++ [l] -> last (S ++ t) = Some p ->
  (if decide (zlen t + 1 > 1) then r ← (t ++ [l']).[zlen t + 1 - 2]; Some (version r) else Some (version (sealedLast b))) = Some (version p).
Proof.
  intros Et Hp. rewrite last_app in Hp. destruct (last t) as [q|] eqn:E.
  - injection Hp as ->. rewrite last_zget in E. pose proof (zget_Some_range _ _ _ E). rewrite decide_True by lia.
    replace (zlen t + 1 - 2) with (zlen t - 1) by lia. by rewrite (zget_app_Some _ _ _ _ E).
  - apply last_None in E as ->. rewrite decide_False by (change (zlen []) with 0; lia).
    rewrite (bi_last _ _ _ _ Hb) in Hp; [by injection Hp as ->|]. intros E. by rewrite E in Hp.
Qed.

(** The last run is repeated with another version, which may be that of the run before it. *)
Lemma again_spec t l v :
  tail b = t ++ [l] -> bound <= firstDocId l -> is_u 64 v ->
  exists b', add (W := unit) None (firstDocId l) v b () = Ret (b', ()) /\
    builder_inv b' S (fun doc => if decide (firstDocId l <= doc) then v else f doc) (firstDocId l).
Proof.
  intros Et Hl Hv. unfold add. rewrite Et, last_snoc. cbn [default from_option id]. rewrite decide_False by lia.
  rewrite decide_True by done. rewrite decide_False by (intros E; by apply app_nil in E as [_ ?]).
  rewrite zlen_app. change (zlen [l]) with 1. replace (zlen t + 1 - 1) with (zlen t) by lia. rewrite zset_snoc.
  cbn [lift mbind outcome_bind]. unfold size. rewrite Et, zlen_app, (bi_count _ _ _ _ Hb). change (zlen [l]) with 1.
  destruct (decide (S ++ t = [])) as [Hn|Hne].
  - apply app_nil in Hn as [HS Ht]. rewrite decide_False by (rewrite HS, Ht; change (zlen []) with 0; lia). cbn [mbind outcome_bind].
    eexists. split; [done|]. split; [apply replace_core; [done..|]; by rewrite HS, Ht|]. intros E. by apply app_nil in E as [_ ?].
  - destruct (last (S ++ t)) as [p|] eqn:Ep; [|by apply last_None in Ep]. pose proof Hne as Hpos%zlen_pos. rewrite zlen_app in Hpos.
    rewrite decide_True by lia. rewrite (previous_run t p l) by done. cbn [lift mbind outcome_bind].
    destruct (bool_decide_reflect (version p = v)) as [<-|Hpv].
    + eexists. split; [done|]. rewrite take_app_le, take_ge by (unfold zlen; lia). split; [by apply pop_core|].
      cbn [set_tail tail sealedLast]. intros Ht. rewrite Ht, app_nil_r in Hne, Ep. split; [done|].
      pose proof (bi_incr _ _ _ _ Hb) as Hinc. rewrite Et, Ht in Hinc. apply (last_before _ _ _ Hinc). by apply (bi_last _ _ _ _ Hb).
    + eexists. split; [done|]. split; [apply replace_core; [done..|]; intros p'; rewrite Ep; by intros [= <-]|]. intros E. by apply app_nil in E as [_ ?].
Qed.

End steps.

Lemma last_run b S f bound : builder_inv b S f bound ->
  exists l, last (S ++ tail b) = Some l /\ default (sealedLast b) (last (tail b)) = l /\
    firstDocId l <= bound /\ (firstDocId l = bound -> exists t, tail b = t ++ [l]).
Proof.
  intros [Hb He]. pose proof (bi_bound _ _ _ _ Hb) as Hbd. rewrite Forall_forall in Hbd. rewrite last_app.
  destruct (last (tail b)) as [l|] eqn:El.
  - exists l. split; [done|]. split; [done|]. apply last_Some in El as [t Et]. split; [|by exists t].
    apply Hbd, elem_of_app. right. rewrite Et. apply elem_of_app. right. by apply list_elem_of_singleton.
  - apply last_None in El. destruct (He El) as [Hne Hlt]. rewrite (bi_last _ _ _ _ Hb Hne). eexists. split; [done|].
    split; [done|]. simpl. split; [lia|]. intros ?. lia.
Qed.

(** [add] sets the version of all documents from [start] on. *)
Lemma adds_run b S f bound start v :
  builder_inv b S f bound -> bound <= start <= 2 ^ 31 -> is_u 64 v ->
  exists b' S', add (W := unit) None start v b () = Ret (b', ()) /\
    builder_inv b' S' (fun doc => if decide (start <= doc) then v else f doc) start.
Proof.
  intros Hi Hst Hv. destruct (last_run _ _ _ _ Hi) as (l & Hl & El & Hle & Heq). destruct Hi as [Hb He].
  destruct (decide (start = firstDocId l)) as [->|Hne].
  { destruct Heq as [t Et]; [lia|]. destruct (again_spec _ _ _ _ Hb t l v Et) as (b' & E & Hb'); [lia|done|]. eauto. }
  unfold add. rewrite El. rewrite !decide_False by lia. case_decide as Hver.
  - pose proof (bi_tail _ _ _ _ Hb) as Hz. unfold VersionRuns.BLOCK_SIZE. case_decide as Hfull.
    + destruct (seal_core _ _ _ _ Hb) as (b1 & -> & Et & Hb1); [lia|done|]. cbn [mbind outcome_bind].
      destruct (pushes_run _ _ _ _ Hb1) with (l := l) (start := start) (v := v) as (b' & -> & Hb');
        [by rewrite Et|by rewrite Et, app_nil_r|lia|done|lia|done|]. cbn [mbind outcome_bind]. eauto.
    + cbn [mbind outcome_bind].
      destruct (pushes_run _ _ _ _ Hb) with (l := l) (start := start) (v := v) as (b' & -> & Hb');
        [lia|done|lia|done|lia|done|]. cbn [mbind outcome_bind]. eauto.
  - exists b, S. split; [done|]. split; [|intros Et; destruct (He Et); split; [done|lia]].
    apply (weaken_core _ _ _ _ Hb); [lia|]. intros doc Hd. case_decide; [|done].
    enough (Some (f doc) = Some v) as [= ->] by done. rewrite <- (bi_birth _ _ _ _ Hb doc Hd).
    rewrite (birth_last _ l); [congruence|apply Hb|done|lia].
Qed.

End builder.
