(* ===== verification/VersionSegments.v ===== *)
(** Request versions of a segment: the writers of [luxir/index/PostingsWriter.h] composed
    with the reader of [luxir/reader/VersionRuns.h], for the documents an indexer flushes and
    for those [luxir/index/SegmentMerger.h] merges. *)

From S2P Require Import Prelude Search LinearPack LinearFit NumFormat NumColumn VersionRuns VersionRunBuilder.

(** * The file a builder finishes *)

Lemma snoc_max rs r l : increasing (firstDocId <$> rs ++ [l]) -> r ∈ rs -> firstDocId r < firstDocId l.
Proof.
  intros Hrs [j Hj]%zget_elem. pose proof (zget_Some_range _ _ _ Hj). rewrite fmap_app in Hrs.
  eapply (increasing_zget _ j (zlen rs) _ _ Hrs); [rewrite zget_app_l by zlen; by rewrite zget_fmap, Hj| |lia].
  rewrite zget_app_r by zlen. by rewrite zlen_fmap, Z.sub_diag.
Qed.

Lemma last_max rs r l : increasing (firstDocId <$> rs) -> last rs = Some l -> r ∈ rs -> firstDocId r <= firstDocId l.
Proof.
  intros Hrs [rs' ->]%last_Some [Hr|Hr%list_elem_of_singleton]%elem_of_app; [|subst; lia]. pose proof (snoc_max _ _ _ Hrs Hr). lia.
Qed.

Section finish.
Import VersionRunBuilder.

(** An output that holds the blocks of some runs. *)
Definition writing (A : list Z) (rs : list VersionRun) (Bs : list (list Z)) (o : VersionRunsOutput.output) : Prop :=
  VersionRunsOutput.out o = A ++ mjoin Bs /\ VersionRunsOutput.start o = zlen A /\ VersionRunsOutput.directory o = entries rs Bs.

Lemma entries_snoc rs Bs B r : rs.[zlen Bs * 256] = Some r ->
  entries rs (Bs ++ [B]) = entries rs Bs ++ [(firstDocId r, zlen (mjoin Bs))].
Proof.
  intros Hr. pose proof (zlen_nonneg Bs). unfold entries. rewrite zlen_app. change (zlen [B]) with 1.
  rewrite seqZ_app, fmap_app by lia. f_equal.
  - apply list_fmap_ext. intros i x [-> Hi]%lookup_seqZ. f_equal. unfold block_offset. do 2 f_equal. apply take_app_le. unfold zlen in Hi. lia.
  - rewrite Z.add_0_l, seqZ_cons by lia. rewrite (seqZ_nil _ (Z.pred 1)) by lia. cbn [fmap list_fmap]. rewrite Hr. simpl. do 2 f_equal. rewrite <- block_offset_end. unfold block_offset. f_equal. f_equal. apply take_app_le. unfold zlen. lia.
Qed.

Lemma output_add A rs Bs o B r : writing A rs Bs o -> rs.[zlen Bs * 256] = Some r ->
  writing A rs (Bs ++ [B]) (VersionRunsOutput.add B (firstDocId r) o).
Proof.
  intros (Eo & Es & Ed) Hr. unfold writing, VersionRunsOutput.add. cbn [VersionRunsOutput.out VersionRunsOutput.start VersionRunsOutput.directory].
  rewrite (entries_snoc _ _ _ _ Hr), Eo, Es, Ed, join_app. change (mjoin [B]) with (B ++ []). rewrite app_nil_r, app_assoc.
  split; [done|]. split; [done|]. do 3 f_equal. zlen.
Qed.

Lemma output_sealed A rs ss o :
  (forall j s, ss.[j] = Some s -> firstDocId <$> rs.[j * 256] = Some (sfirstDocId s)) -> writing A rs [] o ->
  writing A rs (sdata <$> ss) (foldl (fun o s => VersionRunsOutput.add (sdata s) (sfirstDocId s) o) o ss).
Proof.
  intros Hss Ho. induction ss as [|s ss IH] using rev_ind; [done|].
  rewrite foldl_app, fmap_app. simpl. destruct (rs.[zlen ss * 256]) as [r|] eqn:Er.
  2: { pose proof (Hss _ _ (zget_snoc ss s)) as H. by rewrite Er in H. }
  pose proof (Hss _ _ (zget_snoc ss s)) as H. rewrite Er in H. injection H as <-.
  apply output_add; [|by rewrite zlen_fmap]. apply IH. intros j s' Hj. by apply Hss, zget_app_Some.
Qed.

Definition kept (b : builder) (maxDoc : Z) : Z :=
  match last (tail b) with
  | Some back => if decide (firstDocId back = maxDoc) then zlen (tail b) - 1 else zlen (tail b)
  | None => zlen (tail b)
  end.

(** The runs that are written: a last run that starts at the end of the segment is dropped. *)
Definition kept_runs (b : builder) (S : list VersionRun) (maxDoc : Z) : list VersionRun :=
  S ++ take (Z.to_nat (kept b maxDoc)) (tail b).

Lemma kept_cases b maxDoc :
  (exists t l, tail b = t ++ [l] /\ firstDocId l = maxDoc /\ kept b maxDoc = zlen t) \/
  (kept b maxDoc = zlen (tail b) /\ forall l, last (tail b) = Some l -> firstDocId l <> maxDoc).
Proof.
  unfold kept. destruct (last (tail b)) as [l|] eqn:El; [|right; by split].
  case_decide as Hl; [left|right; split; [done|congruence]]. apply last_Some in El as [t Et]. exists t, l.
  split; [done|]. split; [done|]. rewrite Et, zlen_app. change (zlen [l]) with 1. lia.
Qed.

Section kept.
Context (b : builder) (S : list VersionRun) (f : Z -> Z) (bound maxDoc : Z).
Context (Hi : builder_inv b S f bound) (Hm : bound <= maxDoc) (Hpos : 0 < maxDoc).

Lemma kept_prefix : exists t, S ++ tail b = kept_runs b S maxDoc ++ t /\ Forall (fun r => firstDocId r = maxDoc) t /\ 0 <= kept b maxDoc <= zlen (tail b).
Proof.
  unfold kept_runs. pose proof (zlen_nonneg (tail b)). destruct (kept_cases b maxDoc) as [(t & l & -> & Hl & ->)|[-> _]].
  - exists [l]. rewrite take_app_le, take_ge by (unfold zlen; lia). rewrite zlen_app. change (zlen [l]) with 1. pose proof (zlen_nonneg t).
    split; [by rewrite app_assoc|]. split; [|lia]. apply List.Forall_cons; [done|apply List.Forall_nil].
  - exists []. rewrite take_ge, app_nil_r by (unfold zlen; lia). split; [done|]. split; [apply List.Forall_nil|lia].
Qed.

Lemma kept_below : Forall (fun r => 0 <= firstDocId r < maxDoc) (kept_runs b S maxDoc).
Proof.
  destruct (last_run _ _ _ _ Hi) as (l & Hl & El & Hle & _). destruct Hi as [Hb He].
  pose proof (bi_incr _ _ _ _ Hb) as Hinc. pose proof (bi_bound _ _ _ _ Hb) as Hbd. rewrite Forall_forall in Hbd.
  apply Forall_forall. intros r Hr. unfold kept_runs in Hr.
  destruct (kept_cases b maxDoc) as [(t & l' & Et & Hl' & Ek)|[Ek Hne]]; rewrite Ek in Hr.
  - rewrite Et, take_app_le, take_ge in Hr by (unfold zlen; lia). rewrite Et, app_assoc in Hinc, Hbd.
    pose proof (snoc_max _ _ _ Hinc Hr). assert (0 <= firstDocId r <= bound); [|lia]. apply Hbd, elem_of_app. by left.
  - rewrite take_ge in Hr by (unfold zlen; lia). pose proof (Hbd _ Hr). pose proof (last_max _ _ _ Hinc Hl Hr).
    destruct (decide (tail b = [])) as [Et|Hne'].
    + destruct (He Et) as [_ Hlt]. rewrite Et in El. simpl in El. subst l. lia.
    + destruct (last (tail b)) as [l'|] eqn:E; [|by apply last_None in E]. simpl in El. subst l'. pose proof (Hne _ eq_refl). lia.
Qed.

Lemma kept_segment : segment_runs (kept_runs b S maxDoc) maxDoc.
Proof.
  destruct kept_prefix as (t & E & Ht & _). pose proof kept_below as Hbelow. destruct Hi as [Hb _].
  pose proof (bi_incr _ _ _ _ Hb) as Hinc. pose proof (bi_zero _ _ _ _ Hb) as H0. pose proof (bi_unsigned _ _ _ _ Hb) as Hun.
  rewrite E in Hinc, H0, Hun. rewrite fmap_app in Hinc. apply increasing_prefix in Hinc. apply Forall_app in Hun as [Hun _].
  set (rs := kept_runs b S maxDoc) in *.
  assert (rs <> []) as Hne%zlen_pos.
  { intros Er. rewrite Er in H0. destruct t as [|r t]; [done|]. apply Forall_inv in Ht. injection H0 as H0. lia. }
  rewrite zget_app_l in H0 by done. split; [|done]. split; [done|]. rewrite <- (zlen_fmap firstDocId).
  replace maxDoc with (maxDoc - 1 + 1) by lia. apply increasing_bound; [done| |lia].
  apply Forall_fmap. eapply Forall_impl; [exact Hbelow|]. simpl. lia.
Qed.

Lemma kept_birth doc : 0 <= doc < maxDoc -> birth_of (kept_runs b S maxDoc) doc = Some (f doc).
Proof.
  intros Hd. destruct kept_prefix as (t & E & Ht & _). destruct Hi as [Hb _]. rewrite <- (bi_birth _ _ _ _ Hb doc) by lia.
  pose proof (bi_incr _ _ _ _ Hb) as Hinc. rewrite E in Hinc |- *. clear -Hinc Ht Hd.
  induction t as [|r t IH] using rev_ind; [by rewrite app_nil_r|]. rewrite app_assoc in Hinc |- *. apply Forall_app in Ht as [Ht Hr].
  rewrite birth_snoc by done. apply Forall_inv in Hr. rewrite decide_False by lia. apply IH; [done|].
  rewrite fmap_app in Hinc. by apply increasing_prefix in Hinc.
Qed.

Lemma zlen_kept : zlen (kept_runs b S maxDoc) = zlen S + kept b maxDoc.
Proof.
  destruct kept_prefix as (_ & _ & _ & Hk). unfold kept_runs. rewrite zlen_app. f_equal. unfold zlen in *. rewrite length_take. lia.
Qed.

Lemma kept_sealed j s : (sealed b).[j] = Some s ->
  firstDocId <$> (kept_runs b S maxDoc).[j * 256] = Some (sfirstDocId s) /\
  encode (chunk VersionRuns.BLOCK_SIZE (kept_runs b S maxDoc) j) = Some (sdata s).
Proof.
  intros Hs. destruct Hi as [Hb _]. destruct (bi_sealed _ _ _ _ Hb j s Hs) as [E ->]. pose proof (zget_Some_range _ _ _ Hs).
  pose proof (bi_blocks _ _ _ _ Hb) as Hbl. unfold kept_runs, VersionRuns.BLOCK_SIZE in *.
  rewrite zget_app_l, chunk_app_l by lia. done.
Qed.

Lemma kept_blocks Bs : Bs = (sdata <$> sealed b) /\ kept b maxDoc = 0 \/
    (exists B, Bs = (sdata <$> sealed b) ++ [B] /\ 0 < kept b maxDoc /\ encode (take (Z.to_nat (kept b maxDoc)) (tail b)) = Some B) ->
  blocks_of (kept_runs b S maxDoc) Bs.
Proof.
  intros HBs. destruct kept_prefix as (_ & _ & _ & Hk). destruct Hi as [Hb _]. pose proof (bi_blocks _ _ _ _ Hb) as Hbl.
  pose proof (bi_tail _ _ _ _ Hb). unfold blocks_of. rewrite zlen_kept, Hbl.
  assert (forall j B, (sdata <$> sealed b).[j] = Some B -> encode (chunk VersionRuns.BLOCK_SIZE (kept_runs b S maxDoc) j) = Some B) as Hsealed.
  { intros j B HB. rewrite zget_fmap in HB. destruct ((sealed b).[j]) as [s|] eqn:Es; [|done]. injection HB as <-. by apply kept_sealed. }
  destruct HBs as [[-> ->]|(B & -> & Hpos' & E)].
  - rewrite zlen_fmap. split; [|exact Hsealed]. apply (Z.div_unique_pos _ _ _ 255); lia.
  - rewrite zlen_app, zlen_fmap. change (zlen [B]) with 1. split; [apply (Z.div_unique_pos _ _ _ (kept b maxDoc - 1)); lia|].
    intros j B' [HB|[-> ->]]%zget_snoc_inv; [by apply Hsealed|]. rewrite <- E. f_equal. rewrite zlen_fmap.
    unfold kept_runs, VersionRuns.BLOCK_SIZE. rewrite (chunk_app_r _ _ _ _ (zlen (sealed b))), Z.sub_diag by (pose proof (zlen_nonneg (sealed b)); lia).
    apply chunk_all. unfold zlen in *. rewrite length_take. lia.
Qed.

(** [finish] adds the blocks of the kept runs to the output. *)
Lemma finish_writes A o : maxDoc <= 2 ^ 31 -> writing A (kept_runs b S maxDoc) [] o ->
  exists Bs o', finish (W := unit) None b maxDoc o = Ret (zlen (kept_runs b S maxDoc), o') /\
    blocks_of (kept_runs b S maxDoc) Bs /\ writing A (kept_runs b S maxDoc) Bs o'.
Proof.
  intros Hmax Ho. destruct kept_prefix as (_ & _ & _ & Hk). pose proof kept_segment as (Hz & _). pose proof zlen_kept as Hzk.
  assert (builder_core b S f bound) as Hb by apply Hi. pose proof (zlen_nonneg S).
  pose proof (output_sealed A _ _ o (fun j s Hs => proj1 (kept_sealed j s Hs)) Ho) as Ho'.
  unfold finish. fold (kept b maxDoc). rewrite (bi_count _ _ _ _ Hb), (uwrap_id 32 (kept b maxDoc)), uwrap_id by (unfold is_u; lia).
  rewrite <- Hzk. case_decide as Hn.
  - eexists _, _. split; [done|]. split; [|exact Ho']. apply kept_blocks. left. done.
  - destruct (encode_spec _ (tail_runs_ok _ _ _ _ Hb ltac:(lia) (kept b maxDoc) ltac:(lia))) as (B & E & _). rewrite E.
    destruct (zget_in (tail b) 0) as [r0 Hr0]; [lia|]. rewrite Hr0. cbn [lift mbind outcome_bind]. eexists _, _. split; [done|].
    split; [apply kept_blocks; right; exists B; split; [done|]; split; [lia|done]|]. apply output_add; [exact Ho'|].
    rewrite zlen_fmap. pose proof (bi_blocks _ _ _ _ Hb). unfold kept_runs. rewrite zget_app_r by lia.
    replace (zlen (sealed b) * 256 - zlen S) with 0 by lia. by rewrite zget_take by lia.
Qed.

End kept.

(** ** The bytes *)

Lemma output_finish A rs Bs o : writing A rs Bs o -> 0 < zlen rs ->
  VersionRunsOutput.finish (zlen rs) o =
  (Some (zlen A + zlen (mjoin Bs) + 16 * zlen Bs), VersionRunsOutput.Output (file_bytes A rs Bs []) (zlen A) (entries rs Bs)).
Proof.
  intros (Eo & Es & Ed) Hrs. unfold VersionRunsOutput.finish. rewrite decide_False by lia. rewrite Eo, Es, Ed.
  assert (zlen (mjoin (VersionRunsOutput.entry_bytes <$> entries rs Bs)) = 16 * zlen Bs) as He.
  { rewrite (zlen_records _ 16) by apply zlen_entry_bytes. by rewrite zlen_entries. }
  unfold file_bytes, file_header, sizeof_VersionRunsHeader. rewrite !zlen_app, He, app_nil_r, <- !app_assoc.
  replace (zlen A + zlen (mjoin Bs) - zlen A) with (zlen (mjoin Bs)) by lia.
  by replace (zlen A + zlen (mjoin Bs) + 16 * zlen Bs - zlen A + 24) with (zlen (mjoin Bs) + 16 * zlen Bs + 24) by lia.
Qed.

Lemma zlen_join_le {A} (l : list (list A)) m : Forall (fun x => zlen x <= m) l -> zlen (mjoin l) <= m * zlen l.
Proof.
  induction 1 as [|x l Hx _ IH]; [change (zlen []) with 0; simpl; change (zlen []) with 0; lia|]. change (mjoin (x :: l)) with (x ++ mjoin l). rewrite zlen_app, zlen_cons. lia.
Qed.

Lemma file_size A rs Bs post maxDoc : maxDoc < 2 ^ 31 -> segment_runs rs maxDoc -> blocks_of rs Bs ->
  zlen (file_bytes A rs Bs post) < zlen A + zlen post + 2 ^ 41.
Proof.
  intros Hm Hrs HBs. assert (zlen Bs <= 2 ^ 24) as Hn.
  { destruct HBs as [-> _]. destruct Hrs as [Hz _]. apply Z.div_le_upper_bound; lia. }
  assert (zlen (mjoin Bs) <= 2 ^ 16 * zlen Bs) as Hj.
  { apply zlen_join_le, Forall_forall. intros B [j Hj]%zget_elem. pose proof (zget_Some_range _ _ _ Hj) as Hr.
    destruct (chunk_ok rs Bs maxDoc Hm Hrs HBs j Hr) as [Hok _]. destruct (encode_spec _ Hok) as (B' & E & _ & _ & HB' & _).
    destruct HBs as [_ He]. rewrite (He j B Hj) in E. injection E as <-. lia. }
  rewrite zlen_file. lia.
Qed.

End finish.

(** * Flushing *)

Section flush.
Import VersionRunBuilder.

Definition build (adds : list (Z * Z)) (b : builder) : outcome builder :=
  foldE (fun b a => '(b, _) ← add (W := unit) None a.1 a.2 b (); Ret b) b adds.

(** Adds whose starts do not decrease. *)
Fixpoint adds_from (lo hi : Z) (adds : list (Z * Z)) : Prop :=
  match adds with
  | [] => True
  | a :: adds => lo <= a.1 <= hi /\ is_u 64 a.2 /\ adds_from a.1 hi adds
  end.

Lemma inv_ext b S f f' bound : builder_inv b S f bound -> (forall doc, f doc = f' doc) -> builder_inv b S f' bound.
Proof. intros [Hb He] Hf. split; [|done]. by apply (weaken_core _ _ _ _ Hb). Qed.

Lemma builds adds hi b S pre bound :
  builder_inv b S (in_force pre) bound -> bound <= hi <= 2 ^ 31 -> adds_from bound hi adds ->
  exists b' S' bound', build adds b = Ret b' /\ builder_inv b' S' (in_force (pre ++ adds)) bound' /\ bound' <= hi.
Proof.
  revert b S pre bound. induction adds as [|[s v] adds IH]; intros b S pre bound Hb Hhi Ha.
  - exists b, S, bound. rewrite app_nil_r. split; [done|]. split; [done|lia].
  - destruct Ha as (Hs & Hv & Ha). cbn [fst snd] in *. destruct (adds_run _ _ _ _ s v Hb) as (b1 & S1 & E & Hb1); [lia|done|].
    destruct (IH b1 S1 (pre ++ [(s, v)]) s) as (b' & S' & bound' & E' & Hb' & Hle); [|lia|done|].
    { eapply inv_ext; [exact Hb1|]. intros doc. unfold in_force. by rewrite foldl_app. }
    exists b', S', bound'. rewrite <- app_assoc in Hb'. split; [|done]. unfold build. cbn [foldE fst snd]. rewrite E. exact E'.
Qed.

Lemma written_spec stream post b S f bound maxDoc :
  builder_inv b S f bound -> bound <= maxDoc -> 0 < maxDoc < 2 ^ 31 -> is_bytes stream -> is_bytes post ->
  zlen stream + zlen post < 2 ^ 61 ->
  exists loc out v, PostingsWriter.writeVersionRuns stream b maxDoc = Ret (Some (zlen (kept_runs b S maxDoc), Some loc, out)) /\
    VersionRuns.make (out ++ post) loc (zlen (kept_runs b S maxDoc)) maxDoc = Ret v /\ VersionRuns.maxDoc_ v = maxDoc /\
    file_of v (kept_runs b S maxDoc) /\ exists ext, out = stream ++ ext.
Proof.
  intros Hb Hm Hmax Hs Hp Hsz. pose proof (kept_segment _ _ _ _ _ Hb Hm ltac:(lia)) as Hrs. set (rs := kept_runs b S maxDoc) in *.
  destruct (align_bytes 8 stream) as (pad & Ea & Hpad & Hz & H8); [lia|].
  destruct (finish_writes _ _ _ _ _ Hb Hm ltac:(lia) (align 8 stream) (VersionRunsOutput.make stream)) as (Bs & o & Ef & HBs & Ho); [lia| |].
  { unfold writing, VersionRunsOutput.make. cbn. by rewrite app_nil_r. }
  fold rs in Ef, HBs, Ho. unfold PostingsWriter.writeVersionRuns. rewrite decide_False by lia. rewrite uwrap_id by (unfold is_u; lia).
  rewrite Ef. cbn [mbind outcome_bind]. rewrite (output_finish _ _ _ _ Ho) by apply Hrs. cbn [VersionRunsOutput.out].
  assert (is_bytes (align 8 stream)) as HA by (rewrite Ea; by apply Forall_app).
  assert (file_bytes (align 8 stream) rs Bs post = file_bytes (align 8 stream) rs Bs [] ++ post) as Epost.
  { unfold file_bytes. by rewrite app_nil_r, <- !app_assoc. }
  pose proof (file_size (align 8 stream) rs Bs post maxDoc ltac:(lia) Hrs HBs) as Hfs. rewrite Ea, zlen_app in Hfs.
  destruct (file_accepted (align 8 stream) rs Bs post maxDoc HA H8 Hp ltac:(lia) Hrs HBs) as (v & Ev & Hf); [rewrite Ea; lia|].
  eexists _, _, v. split; [done|]. rewrite Epost in Ev. split; [exact Ev|].
  assert (VersionRuns.maxDoc_ v = maxDoc) as Emax.
  { pose proof (make_spec (file_bytes (align 8 stream) rs Bs post) (file_is_bytes _ _ _ _ maxDoc HA Hp ltac:(lia) Hrs HBs)
      ltac:(rewrite <- Ea in Hfs; lia)) as H. rewrite Epost in H. destruct Hrs as [Hz' _].
    specialize (H (zlen (align 8 stream) + zlen (mjoin Bs) + 16 * zlen Bs) (zlen rs) maxDoc). rewrite Ev in H.
    apply H; [|unfold is_u; lia|unfold is_s; change (32 - 1) with 31; lia].
    pose proof (zlen_nonneg (align 8 stream)). pose proof (zlen_nonneg (mjoin Bs)). pose proof (zlen_nonneg Bs). lia. }
  split; [done|]. split; [done|]. rewrite Ea. unfold file_bytes. eexists. by rewrite <- !app_assoc.
Qed.

End flush.

(** The outcome of a lookup of a document in a segment where versions are [f]. *)
Definition version_at (f : Z -> Z) (maxDoc doc : Z) : outcome Z :=
  if decide (0 <= doc < maxDoc) then Ret (f doc) else Throw "Document has no request birth version".

Lemma births_of v rs f maxDoc docs : file_of v rs -> VersionRuns.maxDoc_ v = maxDoc -> Forall (is_s 32) docs ->
  (forall doc, 0 <= doc < maxDoc -> birth_of rs doc = Some (f doc)) ->
  births v docs VersionRuns.Cursor.fresh = version_at f maxDoc <$> docs.
Proof.
  intros Hf Hm Hd Hb. rewrite (births_spec v rs docs) by (done || apply fresh_inv). rewrite Hm. apply list_fmap_ext.
  intros i doc _. unfold expected_birth, version_at. case_decide; [|done]. by rewrite Hb.
Qed.

(** C4: the versions of a flushed segment.  An indexer records the version of each group of
    documents it adds, starts not decreasing, and at the flush writes the runs to a stream
    that may hold other data.  The writer does not fail and keeps the stream's earlier bytes; the file is
    accepted when the segment is opened, also when other data follows it; and each
    sequence of lookups in it returns, for each document of the segment, the version
    recorded last at or before the document. *)
Theorem flush_roundtrip (stream post : list Z) (adds : list (Z * Z)) (maxDoc : Z) (docs : list Z)
    (Hadds : adds_from 0 maxDoc adds) (Hmax : 0 < maxDoc < 2 ^ 31) (Hs : is_bytes stream) (Hp : is_bytes post)
    (Hsize : zlen stream + zlen post < 2 ^ 61) (Hd : Forall (is_s 32) docs) :
  exists b count loc ext v, build adds VersionRunBuilder.fresh = Ret b /\
    PostingsWriter.writeVersionRuns stream b maxDoc = Ret (Some (count, Some loc, stream ++ ext)) /\
    VersionRuns.make ((stream ++ ext) ++ post) loc count maxDoc = Ret v /\
    births v docs VersionRuns.Cursor.fresh = version_at (in_force adds) maxDoc <$> docs.
Proof.
  destruct (builds adds maxDoc _ _ [] _ fresh_builder) as (b & S & bound & Eb & Hb & Hle); [lia|done|].
  destruct (written_spec stream post b S _ bound maxDoc Hb) as (loc & out & v & Ew & Ev & Em & Hf & ext & ->); [done..|].
  eexists b, _, loc, ext, v. split; [done|]. split; [done|]. split; [done|]. eapply births_of; [done..|].
  intros doc Hdoc. by eapply kept_birth.
Qed.

Lemma flush_roundtrip_witness :
  exists b count loc ext v, build [(0, 5); (0, 6); (2, 6); (3, 8); (3, 6); (4, 9); (5, 3)] VersionRunBuilder.fresh = Ret b /\
    PostingsWriter.writeVersionRuns [1] b 5 = Ret (Some (count, Some loc, [1] ++ ext)) /\
    VersionRuns.make (([1] ++ ext) ++ [2]) loc count 5 = Ret v /\
    births v [3; 4; 0; 5] VersionRuns.Cursor.fresh = [Ret 6; Ret 9; Ret 6; Throw "Document has no request birth version"].
Proof.
  apply (flush_roundtrip [1] [2] [(0, 5); (0, 6); (2, 6); (3, 8); (3, 6); (4, 9); (5, 3)] 5 [3; 4; 0; 5]).
  - simpl. unfold is_u. lia.
  - lia.
  - apply (bool_decide_unpack _). by vm_compute.
  - apply (bool_decide_unpack _). by vm_compute.
  - by vm_compute.
  - apply (bool_decide_unpack _). by vm_compute.
Defined.

(** * The state of a builder *)

Section typed.
Import VersionRunBuilder.

(** The widths of its fields, where [S] are the runs of the sealed blocks; and that its runs increase and are maximal. *)
Record builder_typed (b : builder) (S : list VersionRun) : Prop := {
  bt_tail : zlen (tail b) <= VersionRuns.BLOCK_SIZE;
  bt_runs : Forall (fun r => is_u 32 (firstDocId r) /\ is_u 64 (version r)) (S ++ tail b);
  bt_count : sealedCount b = zlen S /\ zlen S = VersionRuns.BLOCK_SIZE * zlen (sealed b) /\ is_u 32 (sealedCount b);
  bt_sealed j s : (sealed b).[j] = Some s ->
    encode (chunk VersionRuns.BLOCK_SIZE S j) = Some (sdata s) /\ firstDocId <$> S.[j * VersionRuns.BLOCK_SIZE] = Some (sfirstDocId s) /\
    is_bytes (sdata s) /\ zlen (sdata s) `mod` 8 = 0 /\ ssize s = zlen (sdata s) /\ is_u 32 (ssize s) /\ is_u 32 (sfirstDocId s);
  bt_bytes : sealedBytes b = zlen (mjoin (sdata <$> sealed b)) /\ is_u 64 (sealedBytes b);
  bt_last : sealedLast b = default (Run 0 0) (last S);
  bt_affine : affine_typed (affine b) /\ VersionAffinePrefix.count (affine b) <= zlen S;
  bt_increasing : S ++ tail b <> [] /\ increasing (firstDocId <$> S ++ tail b);
  bt_distinct : distinct (S ++ tail b) }.

Lemma sealed_typed b S f bound j s : builder_core b S f bound -> bound <= 2 ^ 31 -> (sealed b).[j] = Some s ->
  is_bytes (sdata s) /\ zlen (sdata s) `mod` 8 = 0 /\ zlen (sdata s) < 2 ^ 16 /\ is_u 32 (sfirstDocId s).
Proof.
  intros Hb Hle Hs. destruct (bi_sealed _ _ _ _ Hb j s Hs) as [Ee Ef]. pose proof (zget_Some_range _ _ _ Hs) as Hj.
  destruct (sealed_runs_ok _ _ _ _ Hb Hle j Hj) as [_ Hok]. destruct (encode_spec _ Hok) as (B & EB & H1 & H2 & H3 & _).
  unfold VersionRuns.BLOCK_SIZE in Ee. rewrite Ee in EB. injection EB as <-. split; [done|]. split; [done|]. split; [lia|].
  destruct (S.[j * 256]) as [r|] eqn:Er; [|done]. injection Ef as ->. pose proof (bi_bound _ _ _ _ Hb) as Hbd. rewrite Forall_forall in Hbd.
  pose proof (Hbd r (zget_elem_1 _ _ _ (zget_app_Some _ _ _ _ Er))). unfold is_u. lia.
Qed.

Lemma inv_typed b S f bound : builder_inv b S f bound -> bound <= 2 ^ 31 -> builder_typed b S.
Proof.
  intros [Hb He] Hle. pose proof (total_runs _ _ _ _ Hb) as Ht. pose proof (bi_blocks _ _ _ _ Hb) as Hbl. destruct (bi_sizes _ _ _ _ Hb) as [Hsz Hby].
  pose proof (zlen_nonneg (sealed b)). pose proof (zlen_nonneg (tail b)).
  assert (zlen (mjoin (sdata <$> sealed b)) <= 2 ^ 16 * zlen (sealed b)) as Hjoin.
  { rewrite <- (zlen_fmap sdata). apply zlen_join_le, Forall_fmap, Forall_forall. intros s [j Hj]%zget_elem.
    destruct (sealed_typed _ _ _ _ j s Hb Hle Hj) as (_ & _ & ? & _). simpl. lia. }
  constructor; [apply Hb| | | | | | | |apply Hb].
  - pose proof (bi_bound _ _ _ _ Hb) as Hbd. pose proof (bi_unsigned _ _ _ _ Hb) as Hu.
    rewrite Forall_forall in *. intros r Hr. split; [pose proof (Hbd r Hr); unfold is_u; lia|by apply Hu].
  - rewrite (bi_count _ _ _ _ Hb). unfold VersionRuns.BLOCK_SIZE, is_u. lia.
  - intros j s Hj. destruct (sealed_typed _ _ _ _ j s Hb Hle Hj) as (H1 & H2 & H3 & H4). destruct (bi_sealed _ _ _ _ Hb j s Hj) as [Ee Ef].
    rewrite Forall_forall in Hsz. rewrite (Hsz s (zget_elem_1 _ _ _ Hj)). pose proof (zlen_nonneg (sdata s)). split_and!; [done..| |done]. unfold is_u. lia.
  - split; [done|]. rewrite Hby. pose proof (zlen_nonneg (mjoin (sdata <$> sealed b))). unfold is_u. lia.
  - destruct (decide (S = [])) as [->|Hne]; [by apply Hb|]. by rewrite (bi_last _ _ _ _ Hb Hne).
  - split; [apply Hb|]. apply (bi_affine _ _ _ _ Hb).
  - split; [|apply Hb]. intros E. pose proof (bi_zero _ _ _ _ Hb) as Hz. by rewrite E in Hz.
Qed.

End typed.

(** C36: the state of the builder.  After any adds with starts that do not decrease, the
    builder's fields are within their widths, those of the last sealed run and of the affine prefix included: a full block at most in the
    tail, as many sealed runs as full blocks, each sealed block the encoding of its runs,
    aligned and of the recorded size and first document, and the sizes added up without overflow.  The runs of the sealed blocks
    followed by those of the tail increase, and no two that follow each other, also inside a sealed block or across
    blocks, have the same version. *)
Theorem builder_stays_typed (adds : list (Z * Z)) (Hadds : adds_from 0 (2 ^ 31) adds) :
  exists b S, build adds VersionRunBuilder.fresh = Ret b /\ builder_typed b S.
Proof.
  destruct (builds adds (2 ^ 31) _ _ [] _ fresh_builder) as (b & S & bound & E & Hi & Hle); [lia|done|].
  exists b, S. split; [done|]. by eapply inv_typed.
Qed.

Lemma builder_stays_typed_witness :
  exists b S, build [(0, 5); (0, 6); (2, 6); (3, 8); (3, 6); (4, 9)] VersionRunBuilder.fresh = Ret b /\ builder_typed b S.
Proof. apply (builder_stays_typed [(0, 5); (0, 6); (2, 6); (3, 8); (3, 6); (4, 9)]). simpl. unfold is_u. lia. Defined.

(** * The merge's writer *)

Section merge_writer.
Import VersionRunBuilder.

(** Outcomes of the same kind, with related values. *)
Definition outcome_rel {A B} (R : A -> B -> Prop) (x : outcome A) (y : outcome B) : Prop :=
  match x, y with
  | Ret a, Ret b => R a b
  | Throw m, Throw m' => m = m'
  | Undef, Undef => True
  | _, _ => False
  end.

Lemma outcome_rel_bind {A B A' B'} (R : A -> B -> Prop) (R' : A' -> B' -> Prop) x y f g :
  outcome_rel R x y -> (forall a b, R a b -> outcome_rel R' (f a) (g b)) -> outcome_rel R' (x ≫= f) (y ≫= g).
Proof. intros Hr Hf. destruct x, y; simpl in *; try done. by apply Hf. Qed.

Lemma outcome_rel_same {A B C} (R : B -> C -> Prop) (x : outcome A) f g :
  (forall a, outcome_rel R (f a) (g a)) -> outcome_rel R (x ≫= f) (x ≫= g).
Proof. intros Hf. destruct x; simpl; [apply Hf|done..]. Qed.

Lemma outcome_rel_mono {A B} (R R' : A -> B -> Prop) x y :
  outcome_rel R x y -> (forall a b, R a b -> R' a b) -> outcome_rel R' x y.
Proof. intros Hr Hf. destruct x, y; simpl in *; auto. Qed.

(** A builder that kept its sealed blocks, and one whose sink wrote them. *)
Definition sunk (stream : list Z) (b : builder) (b' : builder) (output : option VersionRunsOutput.output) : Prop :=
  b' = Builder (tail b) [] 0 (sealedLast b) (sealedCount b) (sealedDense b) (tailDense b) (affine b) /\
  PostingsWriter.target stream output =
    foldl (fun o s => VersionRunsOutput.add (sdata s) (sfirstDocId s) o) (VersionRunsOutput.make stream) (sealed b).

Lemma seal_sunk stream b b' o : sunk stream b b' o ->
  outcome_rel (fun x y => sunk stream x.1 y.1 y.2) (seal (W := unit) None b ()) (seal (Some (PostingsWriter.sink stream)) b' o).
Proof.
  intros [-> Eo]. unfold seal. cbn [tail sealed sealedBytes sealedLast sealedCount sealedDense tailDense affine].
  case_decide; [|done]. do 3 (apply outcome_rel_same; intros ?). apply outcome_rel_same. intros ?.
  split; [done|]. cbn [fst snd sealed]. rewrite foldl_app. cbn [foldl sdata sfirstDocId]. rewrite <- Eo. done.
Qed.

Lemma add_sunk stream b b' o start v : sunk stream b b' o ->
  outcome_rel (fun x y => sunk stream x.1 y.1 y.2) (add (W := unit) None start v b ()) (add (Some (PostingsWriter.sink stream)) start v b' o).
Proof.
  intros Hs. pose proof Hs as [-> Eo]. unfold add, size. cbn [tail sealedLast sealedCount tailDense].
  do 2 (case_decide; [try done|]).
  - case_decide; [done|]. do 2 (apply outcome_rel_same; intros ?). by split.
  - case_decide; [|done]. eapply outcome_rel_bind with (R := fun x y => sunk stream x.1 y.1 y.2).
    + case_decide; [by apply seal_sunk|done].
    + intros [b1 []] [b2 o2] [E2 Eo2]. cbn [fst snd] in *. subst b2. unfold push. cbn [tail tailDense].
      destruct ((tail b1 ++ [Run start v]).[0]); [|done]. by split.
Qed.

Lemma fresh_sunk stream : sunk stream fresh fresh None.
Proof. done. Qed.

Lemma finish_sunk stream b b' o maxDoc : sunk stream b b' o ->
  finish (Some (PostingsWriter.sink stream)) b' maxDoc (PostingsWriter.target stream o) =
  finish (W := unit) None b maxDoc (VersionRunsOutput.make stream).
Proof. intros [-> ->]. done. Qed.

(** The start the writer accepts next. *)
Definition next_start (w : PostingsWriter.VersionRunsWriter) (start : Z) : Prop :=
  if PostingsWriter.added w then PostingsWriter.lastStart w < start else start = 0.

Definition writer_of (stream : list Z) (b : builder) (w : PostingsWriter.VersionRunsWriter) : Prop :=
  PostingsWriter.stream w = stream /\ sunk stream b (PostingsWriter.builder w) (PostingsWriter.output w).

Lemma writer_add stream b w start v : writer_of stream b w -> next_start w start ->
  outcome_rel (fun b' w' => writer_of stream b' w' /\ PostingsWriter.added w' = true /\ PostingsWriter.lastStart w' = start)
    ('(b, _) ← add (W := unit) None start v b (); Ret b) (PostingsWriter.add start v w).
Proof.
  intros [Es Hs] Hn. unfold PostingsWriter.add, next_start in *. rewrite Es.
  replace (if PostingsWriter.added w then _ else _) with false.
  - eapply outcome_rel_bind; [by apply add_sunk|]. intros [b1 []] [b2 o2] Hs2. done.
  - destruct (PostingsWriter.added w); symmetry; apply bool_decide_eq_false; lia.
Qed.

Lemma writer_adds stream adds b w :
  writer_of stream b w -> (forall a, head adds = Some a -> next_start w a.1) -> increasing (adds.*1) ->
  outcome_rel (fun b' w' => writer_of stream b' w' /\ (adds <> [] \/ PostingsWriter.added w = true -> PostingsWriter.added w' = true))
    (build adds b) (foldE (fun w a => PostingsWriter.add a.1 a.2 w) w adds).
Proof.
  revert b w. induction adds as [|[s v] adds IH]; intros b w Hw Hn Hinc; [split; [done|]; by intros [?|?]|].
  apply StronglySorted_inv in Hinc as [Hinc Hall]. unfold build. cbn [foldE fst snd].
  eapply outcome_rel_bind; [apply writer_add; [exact Hw|by apply (Hn (s, v))]|]. intros b1 w1 (Hw1 & Ha & Hl).
  eapply outcome_rel_mono; [apply (IH b1 w1 Hw1); [|exact Hinc]|].
  - intros a Hhd. unfold next_start. rewrite Ha, Hl. destruct adds; [done|]. injection Hhd as ->. by apply Forall_inv in Hall.
  - intros b2 w2 [Hw2 H]. split; [done|]. intros _. apply H. by right.
Qed.

End merge_writer.

(** The starts the merge's writer takes: the first is zero and each one is above the one before. *)
Definition starts_taken (adds : list (Z * Z)) : Prop := (forall a, head adds = Some a -> a.1 = 0) /\ increasing (adds.*1).

Lemma increasing_adds adds : Forall (fun a => 0 <= a.1 <= 2 ^ 31 /\ is_u 64 a.2) adds -> increasing (adds.*1) -> adds_from 0 (2 ^ 31) adds.
Proof.
  intros Hty Hinc. assert (forall lo, (forall a, head adds = Some a -> lo <= a.1) -> adds_from lo (2 ^ 31) adds) as H.
  { induction adds as [|[s v] adds IH]; intros lo Hlo; simpl; [done|]. apply Forall_cons in Hty as [[Hs Hv] Hty]. apply StronglySorted_inv in Hinc as [Hinc Hall].
    specialize (Hlo (s, v) eq_refl). cbn [fst snd] in *. split; [lia|]. split; [done|]. apply IH; [done..|]. intros a Ha. destruct adds; [done|]. injection Ha as ->.
    apply Forall_inv in Hall. simpl in Hall. lia. }
  apply H. intros a Ha. destruct adds; [done|]. injection Ha as ->. apply Forall_inv in Hty. lia.
Qed.

Section rejected.
Import VersionRunBuilder.

Lemma not_increasing_cons s v (adds : list (Z * Z)) : ~ increasing (((s, v) :: adds).*1) ->
  ~ ((forall a, head adds = Some a -> s < a.1) /\ increasing (adds.*1)).
Proof.
  intros Hn [Hh Hi]. apply Hn. simpl. apply SSorted_cons; [done|]. destruct adds as [|[s' v'] adds]; [apply List.Forall_nil|].
  specialize (Hh (s', v') eq_refl). simpl in *. apply StronglySorted_inv in Hi as [_ Hall]. apply List.Forall_cons; [lia|]. eapply Forall_impl; [exact Hall|]. simpl. lia.
Qed.

#[local] Instance next_start_dec w start : Decision (next_start w start).
Proof. unfold next_start. destruct (PostingsWriter.added w); apply _. Defined.

(** The first start that is not the next one is rejected. *)
Lemma writer_rejects stream adds b w S pre bound :
  writer_of stream b w -> builder_inv b S (in_force pre) bound -> bound = (if PostingsWriter.added w then PostingsWriter.lastStart w else 0) ->
  Forall (fun a => 0 <= a.1 <= 2 ^ 31 /\ is_u 64 a.2) adds ->
  ~ ((forall a, head adds = Some a -> next_start w a.1) /\ increasing (adds.*1)) ->
  foldE (fun w a => PostingsWriter.add a.1 a.2 w) w adds = Throw "Request-version runs must start at zero and increase".
Proof.
  revert b w S pre bound. induction adds as [|[s v] adds IH]; intros b w S pre bound Hw Hb Hbd Hty Hn.
  { destruct Hn. split; [done|apply SSorted_nil]. }
  apply Forall_cons in Hty as [[Hs Hv] Hty]. cbn [fst snd] in *. cbn [foldE fst snd]. destruct (decide (next_start w s)) as [Hnext|Hnext].
  - pose proof (writer_add stream b w s v Hw Hnext) as Hrel. destruct (adds_run _ _ _ _ s v Hb) as (b1 & S1 & E & Hb1); [|done|].
    { unfold next_start in Hnext. destruct (PostingsWriter.added w); lia. }
    rewrite E in Hrel. cbn [mbind outcome_bind] in Hrel. destruct (PostingsWriter.add s v w) as [w1| |]; try done. destruct Hrel as (Hw1 & Ha & Hl). cbn [mbind outcome_bind].
    apply (IH b1 w1 S1 (pre ++ [(s, v)]) s Hw1); [|by rewrite Ha, Hl|done|].
    + eapply inv_ext; [exact Hb1|]. intros doc. unfold in_force. by rewrite foldl_app.
    + unfold next_start. rewrite Ha, Hl. apply (not_increasing_cons s v). intros Hi. apply Hn. split; [by intros a [= <-]|done].
  - unfold PostingsWriter.add. unfold next_start in Hnext.
    replace (if PostingsWriter.added w then _ else _) with true; [done|]. destruct (PostingsWriter.added w); symmetry; apply bool_decide_eq_true; lia.
Qed.

End rejected.

(** C25: the merge writes what the inverter writes.  For runs of 64-bit versions whose starts are documents, and a segment that has documents: without runs the writer of a merge
    writes nothing; for starts that begin with zero and increase it, whose builder hands each full block to a sink, and a builder that keeps all its blocks until the
    segment is flushed, which takes such runs, produce the same count, the same location and the same bytes; any other starts, also
    repeated ones, which the builder takes, the writer of a merge rejects. *)
Theorem merge_writes_same (stream : list Z) (adds : list (Z * Z)) (maxDoc : Z)
    (Hty : Forall (fun a => 0 <= a.1 <= 2 ^ 31 /\ is_u 64 a.2) adds) (Hmax : maxDoc <> 0) :
  let merged := w ← foldE (fun w a => PostingsWriter.add a.1 a.2 w) (PostingsWriter.make stream) adds; PostingsWriter.finish maxDoc w in
  (adds = [] -> merged = Ret None) /\
  (adds <> [] -> starts_taken adds ->
     exists b, build adds VersionRunBuilder.fresh = Ret b /\ merged = PostingsWriter.writeVersionRuns stream b maxDoc) /\
  (~ starts_taken adds -> merged = Throw "Request-version runs must start at zero and increase").
Proof.
  intros merged. unfold merged. split; [by intros ->|]. split.
  - intros Hne [Hhead Hinc]. pose proof (writer_adds stream adds VersionRunBuilder.fresh (PostingsWriter.make stream) (conj eq_refl (fresh_sunk stream)) Hhead Hinc) as H.
    destruct (builds adds (2 ^ 31) _ _ [] _ fresh_builder) as (b & S & bound & E & _); [lia| |].
    { by apply increasing_adds. }
    rewrite E in H. exists b. split; [done|]. destruct (foldE _ _ _) as [w| |]; try done. destruct H as [[Es Hs] Ha]. cbn [mbind outcome_bind].
    unfold PostingsWriter.finish, PostingsWriter.writeVersionRuns. rewrite decide_False by done. rewrite Ha by (by left). rewrite Es. by rewrite (finish_sunk _ _ _ _ _ Hs).
  - intros Hn. by rewrite (writer_rejects stream adds VersionRunBuilder.fresh (PostingsWriter.make stream) _ [] _ (conj eq_refl (fresh_sunk stream)) fresh_builder eq_refl Hty Hn).
Qed.

Lemma merge_writes_same_witness :
  (exists b, build [(0, 5); (4, 9)] VersionRunBuilder.fresh = Ret b /\
    (w ← foldE (fun w a => PostingsWriter.add a.1 a.2 w) (PostingsWriter.make [1]) [(0, 5); (4, 9)]; PostingsWriter.finish 6 w) = PostingsWriter.writeVersionRuns [1] b 6) /\
  (w ← foldE (fun w a => PostingsWriter.add a.1 a.2 w) (PostingsWriter.make [1]) [(0, 5); (0, 9)]; PostingsWriter.finish 6 w) =
    Throw "Request-version runs must start at zero and increase" /\
  exists b, build [(0, 5); (0, 9)] VersionRunBuilder.fresh = Ret b.
Proof.
  split; [|split].
  - apply (merge_writes_same [1] [(0, 5); (4, 9)] 6); [repeat constructor; simpl; unfold is_u; lia|lia|discriminate|].
    split; [by intros a [= <-]|]. apply SSorted_cons; [apply SSorted_cons; [apply SSorted_nil|apply List.Forall_nil]|].
    apply List.Forall_cons; [simpl; lia|apply List.Forall_nil].
  - apply (merge_writes_same [1] [(0, 5); (0, 9)] 6); [repeat constructor; simpl; unfold is_u; lia|lia|]. intros [_ Hi].
    apply StronglySorted_inv in Hi as [_ Hall]. apply Forall_inv in Hall. simpl in Hall. lia.
  - eexists. vm_compute. reflexivity.
Defined.
