(* ===== verification/VersionLookup.v ===== *)
(** Request versions of documents, lookups while a segment is built: [birth] of
    [luxir/index/VersionRunBuilder.h] on a builder that documents are still added to. *)

From S2P Require Import Prelude Search LinearPack LinearFit NumFormat NumColumn VersionRuns VersionRunBuilder VersionSegments.

Lemma increasing_suffix l k : increasing (l ++ k) -> increasing k.
Proof. induction l as [|x l IH]; [done|]. intros [H _]%StronglySorted_inv. by apply IH. Qed.

(** The last element at or below a bound. *)
Lemma last_le l x0 t : increasing l -> l.[0] = Some x0 -> x0 <= t ->
  exists x, l.[count_lt l (t + 1) - 1] = Some x /\ x <= t /\ forall y, l.[count_lt l (t + 1) - 1 + 1] = Some y -> t < y.
Proof.
  intros Hl H0 Hle. pose proof (count_lt_range l (t + 1)) as Hr. pose proof (proj1 (count_lt_iff l (t + 1) 0 x0 Hl H0) ltac:(lia)).
  destruct (zget_in l (count_lt l (t + 1) - 1)) as [x Hx]; [lia|]. exists x. split; [done|].
  pose proof (count_lt_iff l (t + 1) _ x Hl Hx). split; [lia|]. intros y Hy. pose proof (count_lt_iff l (t + 1) _ y Hl Hy). lia.
Qed.

Section lookup.
Import VersionRunBuilder.

(** What a lookup remembers: a range of documents with one version, all of them before [lo]. *)
Definition lookup_inv (f : Z -> Z) (lo : Z) (l : Lookup) : Prop :=
  (forall d, 0 <= d -> lfirst l <= d < lend l -> f d = lversion l) /\ lend l <= lo /\ 0 <= lblock l /\ 0 <= lrun l.

Lemma no_lookup_inv f : lookup_inv f 0 no_lookup.
Proof. split; [simpl; lia|simpl; lia]. Qed.

(** Later adds do not change what is remembered. *)
Lemma lookup_inv_add f lo l start v : lookup_inv f lo l -> lo <= start ->
  lookup_inv (fun doc => if decide (start <= doc) then v else f doc) start l.
Proof. intros (H1 & H2 & H3) Hs. split; [|lia]. intros d Hd Hl. rewrite decide_False by lia. by apply H1. Qed.

Section query.
Context (b : builder) (S : list VersionRun) (f : Z -> Z) (bound lo : Z).
Context (Hi : builder_inv b S f bound) (Hlo : bound <= lo <= 2 ^ 31).
Context (doc : Z) (Hdoc : 0 <= doc < 2 ^ 31).
Abbreviation rs := (S ++ tail b).

Lemma core : builder_core b S f bound.
Proof. apply Hi. Qed.

Lemma starts_u32 k r : rs.[k] = Some r -> 0 <= firstDocId r <= bound.
Proof. intros Hr. pose proof (bi_bound _ _ _ _ core) as H. rewrite Forall_forall in H. by eapply H, zget_elem_1. Qed.

Lemma runs_bound : zlen S + zlen (tail b) <= 2 ^ 31 + 1.
Proof. pose proof (total_runs _ _ _ _ core). lia. Qed.

(** The run found and the start of the run after it. *)
Lemma answer k r e B R : rs.[k] = Some r -> firstDocId r <= doc -> (forall r', rs.[k + 1] = Some r' -> doc < firstDocId r') ->
  e = default (doc + 1) (firstDocId <$> rs.[k + 1]) -> 0 <= B -> 0 <= R ->
  version r = f doc /\ lookup_inv f (Z.max lo (doc + 1)) (MkLookup B R (firstDocId r) e (version r)).
Proof.
  intros Hr Hle Hnext -> HB HR. pose proof (bi_incr _ _ _ _ core) as Hinc.
  assert (forall d, 0 <= d -> firstDocId r <= d < default (doc + 1) (firstDocId <$> rs.[k + 1]) -> f d = version r) as Hf.
  { intros d Hd Hr'. enough (Some (f d) = Some (version r)) as [= ->] by done. rewrite <- (bi_birth _ _ _ _ core d Hd).
    apply (birth_of_run _ k); [done..|lia|]. intros r' E. rewrite E in Hr'. simpl in Hr'. lia. }
  assert (firstDocId r <= doc < default (doc + 1) (firstDocId <$> rs.[k + 1])) as Hin.
  { destruct (rs.[k + 1]) as [r'|] eqn:E; simpl; [|lia]. specialize (Hnext _ eq_refl). lia. }
  split; [symmetry; apply Hf; lia|]. split; [exact Hf|]. cbn [lend lblock lrun]. split; [|lia].
  destruct (rs.[k + 1]) as [r'|] eqn:E; simpl; [|lia]. pose proof (starts_u32 _ _ E). lia.
Qed.

(** ** The affine prefix *)

Lemma birth_at k r : rs.[k] = Some r -> firstDocId r <= doc -> (forall r', rs.[k + 1] = Some r' -> doc < firstDocId r') -> version r = f doc.
Proof. intros H1 H2 H3. by eapply (answer k r _ 0 0). Qed.

Lemma next_greater k r r' : rs.[k] = Some r -> rs.[k + 1] = Some r' -> firstDocId r < firstDocId r'.
Proof.
  intros Hr Hr'. apply (increasing_zget _ k (k + 1) _ _ (bi_incr _ _ _ _ core)); [by rewrite zget_fmap, Hr|by rewrite zget_fmap, Hr'|lia].
Qed.

Lemma affine_lookup : doc < VersionAffinePrefix.count (affine b) -> VersionAffinePrefix.birth (affine b) doc = f doc.
Proof.
  intros Hc. destruct (bi_affine _ _ _ _ core) as [_ H]. pose proof (H doc ltac:(lia)) as Hr. apply (zget_app_Some _ (tail b)) in Hr.
  apply (birth_at doc _ Hr); [simpl; lia|]. intros r' Hr'. pose proof (next_greater _ _ _ Hr Hr') as Hlt. simpl in Hlt. lia.
Qed.

(** ** Sealed blocks *)

Lemma sealed_chunk j s : (sealed b).[j] = Some s -> block_of (VersionBlock.Block (sdata s) 0 256) (chunk 256 S j).
Proof.
  intros Hs. destruct (bi_sealed _ _ _ _ core j s Hs) as [E _]. unfold VersionRuns.BLOCK_SIZE in E.
  destruct (sealed_runs_ok _ _ _ _ core ltac:(lia) j (zget_Some_range _ _ _ Hs)) as [Hz Hok].
  destruct (encode_spec _ Hok) as (B & E' & _ & _ & _ & He). rewrite E in E'. injection E' as <-.
  pose proof (en_block _ _ _ _ (He [] [] (List.Forall_nil _) (List.Forall_nil _) eq_refl)) as Hbo.
  rewrite app_nil_l, app_nil_r, Hz in Hbo. exact Hbo.
Qed.

Lemma sealed_version k r s : S.[k] = Some r -> (sealed b).[k / 256] = Some s ->
  VersionBlock.version (VersionBlock.Block (sdata s) 0 256) (k `mod` 256) = Some (version r).
Proof.
  intros Hr Hs. pose proof (zget_Some_range _ _ _ Hr). pose proof (Z.mod_pos_bound k 256 ltac:(lia)). pose proof (Z.div_mod k 256 ltac:(lia)).
  apply (version_spec _ _ (sealed_chunk _ _ Hs)). rewrite zget_chunk by (lia || apply Z.div_pos; lia). rewrite <- Hr. f_equal. lia.
Qed.

Lemma sealed_in k : 0 <= k < zlen S -> exists s, (sealed b).[k / 256] = Some s.
Proof.
  intros Hk. pose proof (bi_blocks _ _ _ _ core). apply zget_in. split; [apply Z.div_pos; lia|apply Z.div_lt_upper_bound; lia].
Qed.

(** ** Dense runs *)

Lemma dense_lookup : (forall k r, rs.[k] = Some r -> firstDocId r = k) -> exists v, lookupDense b doc = Some v /\ v = f doc.
Proof.
  intros Hd. pose proof runs_bound as Hrb. pose proof (zlen_nonneg S). pose proof (zlen_nonneg (tail b)).
  pose proof (bi_tail _ _ _ _ core) as Htl.
  assert (forall k r, k = Z.min doc (zlen rs - 1) -> rs.[k] = Some r -> version r = f doc) as Hans.
  { intros k r Hk Hr. apply (birth_at k r Hr); [rewrite (Hd _ _ Hr); lia|]. intros r' Hr'. pose proof (zget_Some_range _ _ _ Hr').
    rewrite (Hd _ _ Hr'). lia. }
  rewrite zlen_app in Hans. unfold lookupDense. rewrite (bi_count _ _ _ _ core). case_decide as Hcase.
  - destruct Hcase as [Hne Hge]. apply zlen_pos in Hne. rewrite !uwrap_id by (unfold is_u; lia).
    destruct (zget_in (tail b) (Z.min (doc - zlen S) (zlen (tail b) - 1))) as [r Hr]; [lia|]. rewrite Hr. opt. eexists. split; [done|].
    apply (Hans (zlen S + Z.min (doc - zlen S) (zlen (tail b) - 1))); [lia|]. rewrite zget_app_r by lia. rewrite <- Hr. f_equal. lia.
  - assert (0 < zlen S /\ (tail b = [] \/ doc < zlen S)) as [Hpos Hor].
    { destruct (decide (tail b = [])) as [Et|Hne]; [split; [apply zlen_pos; by apply Hi|by left]|].
      destruct (decide (doc < zlen S)); [lia|]. exfalso. apply Hcase. split; [done|lia]. }
    rewrite uwrap_id by (unfold is_u; lia). set (k := Z.min doc (zlen S - 1)).
    destruct (zget_in S k) as [r Hr]; [lia|]. destruct (sealed_in k) as [s Hs]; [lia|]. unfold VersionRuns.BLOCK_SIZE. rewrite Hs. opt.
    rewrite (sealed_version k r s Hr Hs). eexists. split; [done|]. apply (Hans k); [|by apply zget_app_Some].
    destruct Hor as [->|?]; [change (zlen []) with 0|]; lia.
Qed.

Lemma dense_all : sealedDense b = true -> tailDense b = true -> (forall front t, tail b = front :: t -> firstDocId front = sealedCount b) ->
  forall k r, rs.[k] = Some r -> firstDocId r = k.
Proof.
  intros Hsd Htd Hfront k r Hr. destruct (decide (k < zlen S)).
  - rewrite zget_app_l in Hr by done. by apply (bi_sdense _ _ _ _ core Hsd).
  - rewrite zget_app_r in Hr by lia. destruct (tail b) as [|front t] eqn:Et; [by rewrite zget_nil in Hr|].
    pose proof (bi_tdense _ _ _ _ core Htd (k - zlen S) r front) as H. rewrite Et in H. rewrite (H eq_refl Hr).
    rewrite (Hfront _ _ eq_refl), (bi_count _ _ _ _ core). lia.
Qed.

(** ** The tail *)

Lemma tail_run_at r0 : (tail b).[0] = Some r0 -> firstDocId r0 <= doc -> forall hint, 0 <= hint ->
  exists k r, (if tailDense b then Some (Z.min (u32 (doc - firstDocId r0)) (u32 (zlen (tail b) - 1)))
     else VersionBlock.find doc hint (zlen (tail b)) (fun i => firstDocId <$> (tail b).[i])) = Some k /\
    (tail b).[k] = Some r /\ firstDocId r <= doc /\ forall r', (tail b).[k + 1] = Some r' -> doc < firstDocId r'.
Proof.
  intros H0 Hle hint Hh. pose proof (zget_Some_range _ _ _ H0) as Hpos. pose proof (bi_tail _ _ _ _ core) as Htl.
  pose proof (starts_u32 (zlen S) r0) as Hb0. rewrite zget_app_r, Z.sub_diag in Hb0 by lia. specialize (Hb0 H0).
  destruct (tailDense b) eqn:Htd.
  - pose proof (bi_tdense _ _ _ _ core Htd) as Hd. rewrite !uwrap_id by (unfold is_u; lia).
    set (k := Z.min _ _). destruct (zget_in (tail b) k) as [r Hr]; [lia|]. exists k, r. split; [done|]. split; [done|].
    rewrite (Hd k r r0 H0 Hr). split; [lia|]. intros r' Hr'. pose proof (zget_Some_range _ _ _ Hr'). rewrite (Hd _ _ r0 H0 Hr'). lia.
  - assert (increasing (firstDocId <$> tail b)) as Hinc.
    { pose proof (bi_incr _ _ _ _ core) as H. rewrite fmap_app in H. by apply increasing_suffix in H. }
    pose proof (find_spec (firstDocId <$> tail b) (fun i => firstDocId <$> (tail b).[i]) doc hint (firstDocId r0)) as E.
    rewrite zlen_fmap in E. rewrite E; [|done|lia|by rewrite zget_fmap, H0|lia|lia|done|intros i x Hx; by rewrite zget_fmap in Hx]. clear E.
    destruct (last_le _ _ doc Hinc (eq_trans (zget_fmap _ _ _) (f_equal _ H0)) Hle) as (x & Hx & Hxd & Hnext).
    rewrite zget_fmap in Hx. destruct ((tail b).[_ - 1]) as [r|] eqn:Er; [|done]. injection Hx as <-. eexists _, r. split; [done|].
    split; [done|]. split; [done|]. intros r' Hr'. apply Hnext. by rewrite zget_fmap, Hr'.
Qed.

Lemma rs_tail k : 0 <= k -> rs.[zlen S + k] = (tail b).[k].
Proof. intros Hk. rewrite zget_app_r by lia. f_equal. lia. Qed.

Lemma tail_lookup r0 l : (tail b).[0] = Some r0 -> firstDocId r0 <= doc -> 0 <= lblock l -> 0 <= lrun l ->
  exists l', lookupTail b doc r0 l = Some (f doc, l') /\ lookup_inv f (Z.max lo (doc + 1)) l'.
Proof.
  intros H0 Hle Hb Hr. destruct (tail_run_at r0 H0 Hle (lrun l) Hr) as (k & r & Ek & Hk & Hkd & Hnext).
  pose proof (zget_Some_range _ _ _ Hk) as Hkr. pose proof (bi_tail _ _ _ _ core). pose proof (zlen_nonneg S).
  unfold lookupTail. rewrite Ek. opt. rewrite Hk. opt. rewrite (uwrap_id 32 (k + 1)), (uwrap_id 32 (doc + 1)) by (unfold is_u; lia).
  destruct (answer (zlen S + k) r (default (doc + 1) (firstDocId <$> rs.[zlen S + k + 1])) (lblock l) k) as [Hv Hl'];
    [by rewrite rs_tail by lia|done| |done|done|lia|].
  { intros r' Hr'. apply Hnext. rewrite <- Z.add_assoc, rs_tail in Hr' by lia. done. }
  eexists. rewrite <- Hv. split; [|exact Hl'].
  rewrite <- Z.add_assoc, rs_tail by lia. case_decide as Hlt.
  - destruct (zget_in (tail b) (k + 1)) as [r' Hr']; [lia|]. rewrite Hr'. done.
  - destruct ((tail b).[k + 1]) eqn:E; [apply zget_Some_range in E; lia|]. done.
Qed.

(** ** The sealed blocks *)

Lemma sealed_first j s : (sealed b).[j] = Some s -> exists r, S.[j * 256] = Some r /\ firstDocId r = sfirstDocId s.
Proof.
  intros Hs. destruct (bi_sealed _ _ _ _ core j s Hs) as [_ E]. destruct (S.[j * 256]) as [r|]; [|done]. injection E as ->. by exists r.
Qed.

Lemma sealed_block_at hint : 0 < zlen S -> 0 <= hint ->
  exists j s, (if sealedDense b then Some (Z.min (doc / 256) (u32 (zlen (sealed b) - 1)))
     else VersionBlock.find doc hint (zlen (sealed b)) (fun i => sfirstDocId <$> (sealed b).[i])) = Some j /\
    (sealed b).[j] = Some s /\ sfirstDocId s <= doc /\ forall s', (sealed b).[j + 1] = Some s' -> doc < sfirstDocId s'.
Proof.
  intros Hpos Hh. pose proof (bi_blocks _ _ _ _ core) as Hbl. pose proof runs_bound. pose proof (zlen_nonneg (tail b)).
  pose proof sealed_first as Hfirst.
  destruct (sealedDense b) eqn:Hsd.
  - pose proof (bi_sdense _ _ _ _ core Hsd) as Hd. rewrite uwrap_id by (unfold is_u; lia). set (j := Z.min _ _).
    pose proof (Z.div_mod doc 256 ltac:(lia)). pose proof (Z.mod_pos_bound doc 256 ltac:(lia)). pose proof (Z.div_pos doc 256 ltac:(lia) ltac:(lia)).
    destruct (zget_in (sealed b) j) as [s Hs]; [lia|]. exists j, s. split; [done|]. split; [done|].
    destruct (Hfirst j s Hs) as (r & Hr & <-). rewrite (Hd _ _ Hr). split; [lia|]. intros s' Hs'.
    destruct (Hfirst _ _ Hs') as (r' & Hr' & <-). rewrite (Hd _ _ Hr'). pose proof (zget_Some_range _ _ _ Hs'). lia.
  - assert (increasing (sfirstDocId <$> sealed b)) as Hinc.
    { apply increasing_intro. intros i j x y Hx Hy Hij. rewrite zget_fmap in Hx, Hy. destruct ((sealed b).[i]) as [s|] eqn:Es; [|done].
      destruct ((sealed b).[j]) as [s'|] eqn:Es'; [|done]. injection Hx as <-. injection Hy as <-.
      destruct (Hfirst _ _ Es) as (r & Hr & <-). destruct (Hfirst _ _ Es') as (r' & Hr' & <-).
      eapply (increasing_zget _ (i * 256) (j * 256) _ _ (bi_incr _ _ _ _ core)); [| |lia]; rewrite zget_fmap; erewrite zget_app_Some by done; done. }
    destruct (zget_in (sealed b) 0) as [s0 Hs0]; [lia|]. destruct (Hfirst _ _ Hs0) as (r0 & Hr0 & Ef).
    assert (sfirstDocId s0 = 0) as Hz.
    { pose proof (bi_zero _ _ _ _ core) as H'. change (0 * 256) with 0 in Hr0. rewrite (zget_app_Some _ _ _ _ Hr0) in H'. injection H'. lia. }
    pose proof (find_spec (sfirstDocId <$> sealed b) (fun i => sfirstDocId <$> (sealed b).[i]) doc hint 0) as E. rewrite zlen_fmap in E.
    rewrite E; [|done|lia|by rewrite zget_fmap, Hs0, <- Hz|lia|lia|done|intros i x Hx; by rewrite zget_fmap in Hx]. clear E.
    destruct (last_le (sfirstDocId <$> sealed b) 0 doc Hinc) as (x & Hx & Hxd & Hnext); [by rewrite zget_fmap, Hs0, <- Hz|lia|].
    rewrite zget_fmap in Hx. destruct ((sealed b).[_ - 1]) as [s|] eqn:Es; [|done]. injection Hx as <-. eexists _, s. split; [done|].
    split; [done|]. split; [done|]. intros s' Hs'. apply Hnext. by rewrite zget_fmap, Hs'.
Qed.

(** The run of a document in a block. *)
Lemma block_run_at j s hint : (sealed b).[j] = Some s -> sfirstDocId s <= doc -> 0 <= hint ->
  let block := VersionBlock.Block (sdata s) 0 256 in
  exists k r, VersionBlock.find_run block doc hint = Some k /\ 0 <= k < 256 /\ S.[j * 256 + k] = Some r /\
    VersionBlock.start block k = Some (firstDocId r) /\ VersionBlock.version block k = Some (version r) /\ firstDocId r <= doc /\
    (k + 1 < 256 -> exists r', S.[j * 256 + k + 1] = Some r' /\ VersionBlock.start block (k + 1) = Some (firstDocId r') /\ doc < firstDocId r').
Proof.
  intros Hs Hle Hh block. pose proof (sealed_chunk j s Hs) as Hb. fold block in Hb. destruct (sealed_first j s Hs) as (r0 & Hr0 & Ef).
  pose proof (zget_Some_range _ _ _ Hs) as Hj. pose proof (bi_blocks _ _ _ _ core) as Hbl.
  assert (zlen (chunk 256 S j) = 256) as Hz by (rewrite zlen_chunk by lia; lia).
  assert (forall i, 0 <= i < 256 -> (chunk 256 S j).[i] = S.[j * 256 + i]) as Hget by (intros i Hi'; by rewrite zget_chunk by lia).
  assert ((chunk 256 S j).[0] = Some r0) as H0 by (rewrite Hget by lia; by rewrite Z.add_0_r).
  rewrite (find_run_spec block _ Hb doc hint r0 H0) by lia. unfold run_at.
  destruct (last_le _ (firstDocId r0) doc (bo_incr _ _ Hb)) as (x & Hx & Hxd & Hnext); [by rewrite zget_fmap, H0|lia|].
  rewrite zget_fmap in Hx. set (k := count_lt _ _ - 1) in *. destruct ((chunk 256 S j).[k]) as [r|] eqn:Er; [|done]. injection Hx as <-.
  pose proof (zget_Some_range _ _ _ Er) as Hk. exists k, r. split; [done|]. split; [lia|]. split; [by rewrite <- Hget by lia|].
  split; [by apply (start_spec _ _ Hb)|]. split; [by apply (version_spec _ _ Hb)|]. split; [done|]. intros Hk1.
  destruct (zget_in (chunk 256 S j) (k + 1)) as [r' Hr']; [lia|]. exists r'. split; [rewrite <- Hr', Hget by lia; f_equal; lia|].
  split; [by apply (start_spec _ _ Hb)|]. apply Hnext. by rewrite zget_fmap, Hr'.
Qed.

Lemma sealed_lookup l : 0 < zlen S -> (forall r, (tail b).[0] = Some r -> doc < firstDocId r) -> 0 <= lblock l -> 0 <= lrun l ->
  exists l', lookupSealed b doc l = Some (f doc, l') /\ lookup_inv f (Z.max lo (doc + 1)) l'.
Proof.
  intros Hpos Htail Hlb Hlr. pose proof (bi_blocks _ _ _ _ core) as Hbl. pose proof runs_bound. pose proof (zlen_nonneg (tail b)).
  destruct (sealed_block_at (lblock l) Hpos Hlb) as (j & s & Ej & Hs & Hsd & Hnext). pose proof (zget_Some_range _ _ _ Hs) as Hj.
  destruct (block_run_at j s (lrun l) Hs Hsd Hlr) as (k & r & Ek & Hk & Hr & Est & Ev & Hrd & Hnextrun).
  unfold lookupSealed, VersionRuns.BLOCK_SIZE. rewrite decide_True by lia. rewrite Ej. opt. rewrite Hs. opt. rewrite Ek. opt. rewrite Est. opt.
  rewrite (uwrap_id 32 (k + 1)), (uwrap_id 32 (j + 1)), (uwrap_id 32 (doc + 1)) by (unfold is_u; lia). unfold VersionBlock.size. cbn [VersionBlock.count_].
  assert (rs.[j * 256 + k] = Some r) as Hrr by (by apply zget_app_Some).
  assert ((forall r', rs.[j * 256 + k + 1] = Some r' -> doc < firstDocId r') /\
    (if decide (k + 1 < 256) then VersionBlock.start (VersionBlock.Block (sdata s) 0 256) (k + 1)
     else if decide (j + 1 < zlen (sealed b)) then sfirstDocId <$> (sealed b).[j + 1]
     else match tail b with front :: _ => Some (firstDocId front) | [] => Some (doc + 1) end) =
    Some (default (doc + 1) (firstDocId <$> rs.[j * 256 + k + 1]))) as [Hgt ->].
  { case_decide as H1; [|case_decide as H2].
    - destruct (Hnextrun H1) as (r' & Hr' & -> & Hlt). rewrite (zget_app_Some _ _ _ _ Hr'). split; [by intros ? [= <-]|done].
    - destruct (zget_in (sealed b) (j + 1)) as [s' Hs']; [lia|]. destruct (sealed_first _ _ Hs') as (r' & Hr' & Ef).
      replace (j * 256 + k + 1) with ((j + 1) * 256) by lia. rewrite (zget_app_Some _ _ _ _ Hr'), Hs'. simpl. rewrite Ef.
      split; [|done]. intros ? [= <-]. rewrite Ef. by apply Hnext.
    - replace (j * 256 + k + 1) with (zlen S + 0) by lia. rewrite rs_tail by lia. split; [done|]. by destruct (tail b). }
  opt. rewrite Ev. opt. destruct (answer (j * 256 + k) r _ j k Hrr Hrd Hgt eq_refl) as [Hv Hl']; [lia|lia|].
  rewrite <- Hv. eexists. split; [done|exact Hl'].
Qed.

(** ** Lookups *)

Lemma lookup_spec l : lookup_inv f lo l -> exists l', birth false b doc l = Some (f doc, l') /\ lookup_inv f (Z.max lo (doc + 1)) l'.
Proof.
  intros (Hc & Hend & Hlb & Hlr). assert (lookup_inv f (Z.max lo (doc + 1)) l) as Hsame by (split; [done|lia]).
  unfold birth. case_decide as Ha; [rewrite affine_lookup by done; by exists l|]. unfold lookupBirth.
  destruct (sealedDense b && _) eqn:Hd.
  - apply andb_prop in Hd as [Hsd [Htd Hfr]%andb_prop]. destruct dense_lookup as (v & -> & ->); [|opt; by exists l].
    apply dense_all; [done|done|]. intros front t Et. rewrite Et in Hfr. by apply bool_decide_eq_true_1 in Hfr.
  - clear Hd. case_decide as Hhit; [rewrite <- (Hc doc) by lia; by exists l|].
    destruct (tail b) as [|front t] eqn:Et.
    + destruct (proj2 Hi Et) as [HS _]. apply sealed_lookup; [by apply zlen_pos|rewrite Et; intros r Hr; by rewrite zget_nil in Hr|done|done].
    + assert ((tail b).[0] = Some front) as H0 by (by rewrite Et). case_decide as Hge; [apply tail_lookup; [done|lia|done|done]|].
      apply sealed_lookup; [|intros r Hr; rewrite H0 in Hr; injection Hr as <-; lia|done|done].
      destruct (decide (0 < zlen S)); [done|]. pose proof (zlen_nonneg S). pose proof (bi_zero _ _ _ _ core) as Hz.
      rewrite zget_app_r in Hz by lia. replace (0 - zlen S) with 0 in Hz by lia. rewrite H0 in Hz. injection Hz. lia.
Qed.

End query.
End lookup.

(** * A segment being built *)

Inductive op : Type :=
  | Add (start version : Z)
  | Ask (doc : Z).

(** The answers of the builder to the lookups in a sequence of operations. *)
Fixpoint run_ops (ops : list op) (b : VersionRunBuilder.builder) (l : VersionRunBuilder.Lookup) : outcome (list Z) :=
  match ops with
  | [] => Ret []
  | Add start version :: ops =>
      '(b, _) ← VersionRunBuilder.add (W := unit) None start version b ();
      run_ops ops b l
  | Ask doc :: ops =>
      '(v, l) ← lift (VersionRunBuilder.birth false b doc l);
      rest ← run_ops ops b l;
      Ret (v :: rest)
  end.

(** The version added last at or before the document. *)
Fixpoint answers (adds : list (Z * Z)) (ops : list op) : list Z :=
  match ops with
  | [] => []
  | Add start version :: ops => answers (adds ++ [(start, version)]) ops
  | Ask doc :: ops => in_force adds doc :: answers adds ops
  end.

(** Runs start after the documents that were looked up, and do not decrease. *)
Fixpoint ops_from (lo : Z) (ops : list op) : Prop :=
  match ops with
  | [] => True
  | Add start version :: ops => lo <= start <= 2 ^ 31 /\ is_u 64 version /\ ops_from start ops
  | Ask doc :: ops => 0 <= doc < 2 ^ 31 /\ ops_from (Z.max lo (doc + 1)) ops
  end.

Lemma run_ops_spec ops b S adds bound lo l : builder_inv b S (in_force adds) bound -> bound <= lo <= 2 ^ 31 ->
  lookup_inv (in_force adds) lo l -> ops_from lo ops -> run_ops ops b l = Ret (answers adds ops).
Proof.
  revert b S adds bound lo l. induction ops as [|[start v|doc] ops IH]; intros b S adds bound lo l Hb Hlo Hl Hops; [done|..].
  - destruct Hops as (Hs & Hv & Hops). destruct (adds_run b S _ bound start v Hb) as (b' & S' & E & Hb'); [lia|done|].
    cbn [run_ops answers]. rewrite E. cbn [mbind outcome_bind].
    assert (forall doc, (if decide (start <= doc) then v else in_force adds doc) = in_force (adds ++ [(start, v)]) doc) as Hf.
    { intros doc. unfold in_force. by rewrite foldl_app. }
    apply (IH b' S' _ start start l); [by eapply inv_ext|lia| |done].
    destruct (lookup_inv_add _ lo l start v Hl) as [H1 H2]; [lia|]. split; [|done]. intros d Hd Hd'. rewrite <- Hf. by apply H1.
  - destruct Hops as [Hd Hops]. destruct (lookup_spec b S _ bound lo Hb Hlo doc Hd l Hl) as (l' & E & Hl').
    cbn [run_ops answers]. rewrite E. cbn [lift mbind outcome_bind]. rewrite (IH b S adds bound (Z.max lo (doc + 1)) l'); [done|done|lia|done|done].
Qed.

(** C11: versions while a segment is built.  When lookups of documents that are already in
    the segment are mixed with the adds of later runs, the builder never fails and each
    lookup returns the version added last at or before its document: the affine prefix, the dense
    form, the remembered run, the tail and the sealed blocks never disagree. *)
Theorem builder_lookups (ops : list op) (Hops : ops_from 0 ops) :
  run_ops ops VersionRunBuilder.fresh VersionRunBuilder.no_lookup = Ret (answers [] ops).
Proof. apply (run_ops_spec ops _ [] [] 0 0); [apply fresh_builder|lia|apply no_lookup_inv|done]. Qed.

Lemma builder_lookups_witness :
  run_ops [Add 0 5; Ask 3; Add 4 9; Add 6 9; Ask 2; Ask 5; Add 8 1; Ask 8; Ask 3; Ask 7] VersionRunBuilder.fresh VersionRunBuilder.no_lookup
  = Ret [5; 5; 9; 1; 5; 9].
Proof.
  apply (builder_lookups [Add 0 5; Ask 3; Add 4 9; Add 6 9; Ask 2; Ask 5; Add 8 1; Ask 8; Ask 3; Ask 7]).
  simpl. unfold is_u. lia.
Defined.
