(* ===== verification/SegmentMerge.v ===== *)
(** Merging segments, the documents: the assignment of new document ids and of request
    versions in [luxir/index/SegmentMerger.h], over the live documents of
    [luxir/search/IndexReader.h].  A [PostingsReader] is here its number of documents and its
    version runs; the fields of a segment are not part of this model. *)

From S2P Require Import Prelude BitSets LinearPack LinearFit NumFormat NumColumn VersionRuns VersionRunBuilder VersionSegments.

(** * Live documents *)

Module LiveDocs.

Record liveDocs := MkLiveDocs { bitset : FixedBitSet.fixed; cachedCard : Z }.

Definition numLive (l : liveDocs) : Z := cachedCard l.
Definition size (l : liveDocs) : Z := FixedBitSet.nbits (bitset l).

End LiveDocs.

(** * The merger *)

Module SegmentMerger.

Record reader := Reader { versionRuns : VersionRuns.runs; maxDoc : Z }.

Record Segment := MkSegment { postingsReader : reader; numLive : Z; base : Z; ord : Z; remap : list Z }.

(** [int32_t] arithmetic, undefined on overflow. *)
Definition int32 (z : Z) : option Z := if decide (is_s 32 z) then Some z else None.

Definition remapDocId (s : Segment) (localId : Z) : option (Z * bool) :=
  '(mappedDoc, isDeleted) ←
    (if decide (remap s <> []) then m ← (remap s).[localId]; Some (m, bool_decide (m = -1)) else Some (localId, false));
  mappedDoc ← int32 (mappedDoc + base s);
  Some (mappedDoc, isDeleted).

Definition mapDocId (segs : list Segment) (sourceOrd localDocId : Z) : option Z :=
  s ← segs.[sourceOrd];
  '(docId, deleted) ← remapDocId s localDocId;
  Some (if (deleted : bool) then -1 else docId).

(** Each run of a segment without deletions. *)
Fixpoint copyRuns (fuel : nat) (seg : Segment) (runs : VersionRuns.Iterator.iterator) (versions : PostingsWriter.VersionRunsWriter)
    : outcome PostingsWriter.VersionRunsWriter :=
  match fuel with
  | O => Undef
  | S fuel =>
      '(run, runs) ← lift (VersionRuns.Iterator.next (versionRuns (postingsReader seg)) runs);
      match run with
      | None => Ret versions
      | Some run =>
          versions ← PostingsWriter.add (u32 (u32 (base seg) + firstDocId run)) (version run) versions;
          copyRuns fuel seg runs versions
      end
  end.

(** The state of the loop over the documents of a segment with deletions. *)
Record mapping := Mapping {
  runs : VersionRuns.Iterator.iterator;
  current : option VersionRun;
  next : option VersionRun;
  haveNext : bool;
  emitted : bool;
  newDocId : Z;
  target : list Z;
  versions : PostingsWriter.VersionRunsWriter }.

(** The run of the document: the next one, once its first document is reached. *)
Definition advance (seg : Segment) (oldDocId : Z) (m : mapping) : outcome mapping :=
  reached ← (if haveNext m then next ← lift (next m); Ret (bool_decide (firstDocId next = u32 oldDocId)) else Ret false);
  if (reached : bool) then
    '(r, it) ← lift (VersionRuns.Iterator.next (versionRuns (postingsReader seg)) (runs m));
    Ret (Mapping it (next m) (match r with Some r => Some r | None => next m end)
           (match r with Some _ => true | None => false end) false (newDocId m) (target m) (versions m))
  else Ret m.

(** The version of a live document is added once per run. *)
Definition emit (seg : Segment) (m : mapping) : outcome mapping :=
  if emitted m then Ret m
  else
    start ← lift (int32 (base seg + newDocId m));
    current ← lift (current m);
    versions ← PostingsWriter.add (u32 start) (version current) (versions m);
    Ret (Mapping (runs m) (SegmentMerger.current m) (next m) (haveNext m) true (newDocId m) (target m) versions).

Definition set_target (i v newDocId : Z) (m : mapping) : outcome mapping :=
  target ← lift (zset (target m) i v);
  Ret (Mapping (runs m) (current m) (next m) (haveNext m) (emitted m) newDocId target (versions m)).

Definition mapDoc (seg : Segment) (bitset : FixedBitSet.fixed) (m : mapping) (oldDocId : Z) : outcome mapping :=
  m ← advance seg oldDocId m;
  live ← lift (FixedBitSet.get bitset oldDocId);
  if (live : bool) then
    m ← emit seg m;
    new ← lift (int32 (newDocId m + 1));
    set_target oldDocId (newDocId m) new m
  else set_target oldDocId (-1) (newDocId m) m.

(** The target of a segment without deletions is left as it is. *)
Definition buildDocIdMapping (seg : Segment) (liveDocs : option LiveDocs.liveDocs) (versions : PostingsWriter.VersionRunsWriter)
    : outcome (list Z * PostingsWriter.VersionRunsWriter) :=
  let source := versionRuns (postingsReader seg) in
  match liveDocs with
  | None =>
      versions ← copyRuns (S (Z.to_nat (VersionRuns.size source))) seg VersionRuns.Iterator.fresh versions;
      Ret (remap seg, versions)
  | Some liveDocs =>
      let maxDoc := maxDoc (postingsReader seg) in
      if decide (LiveDocs.size liveDocs = maxDoc) then
        let target := take (Z.to_nat maxDoc) (remap seg) ++ replicate (Z.to_nat (maxDoc - zlen (remap seg))) 0 in
        '(first, it) ← lift (VersionRuns.Iterator.next source VersionRuns.Iterator.fresh);
        '(second, it) ← (match first with
                         | Some _ => lift (VersionRuns.Iterator.next source it)
                         | None => Ret (None, it)
                         end);
        m ← foldE (mapDoc seg (LiveDocs.bitset liveDocs))
              (Mapping it first second (match second with Some _ => true | None => false end) false 0 target versions)
              (seqZ 0 maxDoc);
        if decide (newDocId m = numLive seg) then Ret (SegmentMerger.target m, SegmentMerger.versions m) else Undef
      else Undef
  end.

(** ** The start of [merge] *)

Definition liveCount (preader : reader) (liveDocs : option LiveDocs.liveDocs) : Z :=
  match liveDocs with Some l => LiveDocs.numLive l | None => maxDoc preader end.

(** The segments with their bases, and the number of live documents. *)
Definition segments (inputs : list (reader * option LiveDocs.liveDocs)) : list Segment * Z :=
  foldl (fun '(segs, totalLive) '(preader, liveDocs) =>
    let numLive := liveCount preader liveDocs in
    (segs ++ [MkSegment preader numLive (s32 totalLive) (zlen segs) []], totalLive + numLive)) ([], 0) inputs.

(** The mapped segments, the number of documents, and the written version runs. *)
Definition merge (stream : list Z) (preaders : list reader) (liveDocs : list (option LiveDocs.liveDocs))
    : outcome (list Segment * Z * option (Z * option Z * list Z)) :=
  if decide (zlen preaders = zlen liveDocs) then
    let '(segs, totalLive) := segments (zip preaders liveDocs) in
    let maxDoc := s32 totalLive in
    '(segs, versions) ← foldE (fun '(done, versions) '(seg, liveDocs) =>
        '(remap, versions) ← buildDocIdMapping seg liveDocs versions;
        Ret (done ++ [MkSegment (postingsReader seg) (numLive seg) (base seg) (ord seg) remap], versions))
      ([], PostingsWriter.make stream) (zip segs liveDocs);
    written ← PostingsWriter.finish maxDoc versions;
    Ret (segs, maxDoc, written)
  else Undef.

End SegmentMerger.

(** * The versions of the new documents *)

Section writer.
Context (stream : list Z) (f : Z -> Z).

(** A writer that has the versions [f] of the first [n] documents; the version it has for
    the ones that follow, when one is known. *)
Definition writer_inv (w : PostingsWriter.VersionRunsWriter) (n : Z) (next : option Z) : Prop :=
  exists b S g bound, writer_of stream b w /\ builder_inv b S g bound /\ bound <= n /\
    (forall doc, 0 <= doc < n -> g doc = f doc) /\ (forall v, next = Some v -> PostingsWriter.added w = true /\ forall doc, n <= doc -> g doc = v) /\
    if PostingsWriter.added w then PostingsWriter.lastStart w < n else n = 0.

Lemma writer_fresh : writer_inv (PostingsWriter.make stream) 0 None.
Proof.
  exists VersionRunBuilder.fresh, [], (in_force []), 0. split; [by split|]. split; [apply fresh_builder|].
  split; [lia|]. split; [lia|]. done.
Qed.

Lemma writer_emit w n next : writer_inv w n next -> 0 <= n < 2 ^ 31 -> is_u 64 (f n) ->
  exists w', PostingsWriter.add n (f n) w = Ret w' /\ writer_inv w' (n + 1) (Some (f n)).
Proof.
  intros (b & S & g & bound & Hw & Hb & Hle & Hg & _ & Hs) Hn Hu.
  destruct (adds_run b S g bound n (f n) Hb) as (b' & S' & E & Hb'); [lia|done|].
  pose proof (writer_add stream b w n (f n) Hw) as H. rewrite E in H. cbn [mbind outcome_bind] in H. unfold outcome_rel in H.
  destruct (PostingsWriter.add n (f n) w) as [w'| |]; try (exfalso; apply H; unfold next_start; by destruct (PostingsWriter.added w)).
  destruct H as (Hw' & Ha & Hl); [unfold next_start; by destruct (PostingsWriter.added w)|]. exists w'. split; [done|].
  eexists b', S', _, n. split; [done|]. split; [exact Hb'|]. split; [lia|]. split; [|split].
  - intros doc Hd. case_decide; [f_equal; lia|]. apply Hg. lia.
  - intros v [= <-]. split; [done|]. intros doc Hd. by rewrite decide_True by lia.
  - rewrite Ha, Hl. lia.
Qed.

Lemma writer_keep w n v n' : writer_inv w n (Some v) -> n <= n' ->
  (forall doc, n <= doc < n' -> f doc = v) -> writer_inv w n' (Some v).
Proof.
  intros (b & S & g & bound & Hw & Hb & Hle & Hg & Hv & Hs) Hn Hf. destruct (Hv v eq_refl) as [Ha Hv']. exists b, S, g, bound. split; [done|]. split; [done|].
  split; [lia|]. split; [|split].
  - intros doc Hd. destruct (decide (doc < n)); [apply Hg; lia|]. rewrite Hf by lia. apply Hv'. lia.
  - intros _ [= <-]. split; [done|]. intros doc Hd. apply Hv'. lia.
  - rewrite Ha in *. lia.
Qed.

Lemma writer_forget w n next : writer_inv w n next -> writer_inv w n None.
Proof. intros (b & S & g & bound & Hw & Hb & Hle & Hg & _ & Hs). exists b, S, g, bound. do 4 (split; [done|]). by split. Qed.

Lemma writer_finish post w n next : writer_inv w n next -> 0 < n < 2 ^ 31 -> is_bytes stream -> is_bytes post ->
  zlen stream + zlen post < 2 ^ 61 ->
  exists count loc ext v, PostingsWriter.finish n w = Ret (Some (count, Some loc, stream ++ ext)) /\
    VersionRuns.make ((stream ++ ext) ++ post) loc count n = Ret v /\
    forall docs, Forall (is_s 32) docs -> births v docs VersionRuns.Cursor.fresh = version_at f n <$> docs.
Proof.
  intros (b & S & g & bound & [Es Hw] & Hb & Hle & Hg & _ & Ha) Hn Hs Hp Hz. destruct (PostingsWriter.added w) eqn:Ea; [|lia].
  destruct (written_spec stream post b S g bound n Hb) as (loc & out & v & Ew & Ev & Em & Hf & ext & ->); [done..|].
  eexists _, loc, ext, v. split; [|split; [exact Ev|]].
  - unfold PostingsWriter.writeVersionRuns in Ew. rewrite decide_False in Ew by lia.
    unfold PostingsWriter.finish. rewrite Ea, Es, (finish_sunk _ _ _ _ _ Hw). exact Ew.
  - intros docs Hd. eapply births_of; [done..|]. intros doc Hdoc. rewrite <- Hg by done. by eapply kept_birth.
Qed.

End writer.

(** ** One segment *)

Section segment.
Import SegmentMerger.
Context (stream : list Z) (f : Z -> Z) (seg : Segment) (rs : list VersionRun).
Context (Hv : file_of (versionRuns (postingsReader seg)) rs).
Context (Hmax : VersionRuns.maxDoc_ (versionRuns (postingsReader seg)) = maxDoc (postingsReader seg)).
Context (Hbase : 0 <= base seg) (Htotal : base seg + numLive seg < 2 ^ 31).

Abbreviation V := (versionRuns (postingsReader seg)).
Abbreviation M := (maxDoc (postingsReader seg)).

Lemma run_unsigned k r : rs.[k] = Some r -> is_u 64 (version r).
Proof.
  intros Hr. destruct (run_block V rs Hv k r Hr) as (b & _ & Hb & Hin).
  pose proof (bo_unsigned _ _ Hb) as H. rewrite Forall_forall in H. apply H. by eapply zget_elem_1.
Qed.

(** The first document of a run, or the end of the segment. *)
Definition boundary (k : Z) : Z := default M (firstDocId <$> rs.[k]).

Lemma boundary_at k r : rs.[k] = Some r -> boundary k = firstDocId r.
Proof. intros Hr. unfold boundary. by rewrite Hr. Qed.

Lemma boundary_end : boundary (zlen rs) = M.
Proof. unfold boundary. destruct (rs.[zlen rs]) eqn:E; [|done]. apply zget_Some_range in E. lia. Qed.

Lemma boundary_next k r : rs.[k] = Some r -> 0 <= firstDocId r < boundary (k + 1) /\ boundary (k + 1) <= M /\
  forall d, firstDocId r <= d < boundary (k + 1) -> birth_of rs d = Some (version r).
Proof.
  intros Hr. pose proof (start_bound V rs Hv k r Hr) as Hb. rewrite Hmax in Hb. unfold boundary.
  pose proof (fo_incr _ _ Hv) as Hinc. destruct (rs.[k + 1]) as [r'|] eqn:E.
  - pose proof (start_bound V rs Hv _ _ E) as Hb'. rewrite Hmax in Hb'. simpl.
    assert (firstDocId r < firstDocId r').
    { apply (increasing_zget _ k (k + 1) _ _ Hinc); [by rewrite zget_fmap, Hr|by rewrite zget_fmap, E|lia]. }
    split; [lia|]. split; [lia|]. intros d Hd. apply (birth_of_run rs k); [done..|lia|]. intros r'' Hr''. rewrite E in Hr''.
    injection Hr'' as <-. lia.
  - simpl. split; [lia|]. split; [lia|]. intros d Hd. apply (birth_of_run rs k); [done..|lia|]. intros r'' Hr''. by rewrite E in Hr''.
Qed.

(** Runs of a segment without deletions. *)
Section whole.
Context (Hlive : numLive seg = M) (Hf : forall d, 0 <= d < M -> birth_of rs d = Some (f (base seg + d))).

Lemma copyRuns_spec fuel it w next : iterator_inv V rs it ->
  writer_inv stream f w (base seg + boundary (VersionRuns.Iterator.index it)) next ->
  zlen rs - VersionRuns.Iterator.index it < Z.of_nat fuel ->
  exists w' next', copyRuns fuel seg it w = Ret w' /\ writer_inv stream f w' (base seg + M) next'.
Proof.
  revert it w next. induction fuel as [|fuel IH]; intros it w next Hit Hw Hfuel; [destruct Hit; lia|]. cbn [copyRuns].
  pose proof Hit as [Hi _]. destruct (decide (VersionRuns.Iterator.index it = zlen rs)) as [E|].
  { rewrite (next_end V rs Hv it E). cbn [lift mbind outcome_bind]. rewrite E, boundary_end in Hw. eauto. }
  destruct (zget_in rs (VersionRuns.Iterator.index it)) as [r Hr]; [lia|].
  destruct (next_run V rs Hv it r Hit Hr) as (it' & -> & Hit' & E). cbn [lift mbind outcome_bind].
  rewrite (boundary_at _ _ Hr) in Hw. destruct (boundary_next _ _ Hr) as (Hb1 & Hb2 & Hb3).
  assert (forall d, firstDocId r <= d < boundary (VersionRuns.Iterator.index it + 1) -> f (base seg + d) = version r) as Hfr.
  { intros d Hd. pose proof (Hb3 d Hd) as H. rewrite Hf in H by lia. by injection H. }
  rewrite (uwrap_id 32 (base seg)), uwrap_id by (unfold is_u; lia). rewrite <- (Hfr (firstDocId r)) by lia.
  destruct (writer_emit _ _ _ _ _ Hw) as (w' & -> & Hw'); [lia|rewrite Hfr by lia; by eapply run_unsigned|]. cbn [mbind outcome_bind].
  eapply (IH it' w'); [done| |lia]. rewrite E. eapply writer_keep; [exact Hw'|lia|].
  intros doc Hd. replace doc with (base seg + (doc - base seg)) by lia. rewrite !Hfr by lia. done.
Qed.

End whole.

(** Documents of a segment with deletions. *)
Section deletions.
Context (live : LiveDocs.liveDocs).
Abbreviation bits := (FixedBitSet.words (LiveDocs.bitset live)).
Abbreviation rank d := (zlen (members bits d)).
Context (Hwf : fixed_wf (LiveDocs.bitset live)) (Hsize : FixedBitSet.nbits (LiveDocs.bitset live) = M).
Context (Hlive : numLive seg = rank M).
Context (Hf : forall d, 0 <= d < M -> bit bits d = true -> birth_of rs d = Some (f (base seg + rank d))).

(** Reading one more run. *)
Lemma read_next k it : iterator_inv V rs it -> VersionRuns.Iterator.index it = Z.min k (zlen rs) -> 0 <= k ->
  exists it', VersionRuns.Iterator.next V it = Some (rs.[k], it') /\ iterator_inv V rs it' /\
    VersionRuns.Iterator.index it' = Z.min (k + 1) (zlen rs) /\ (k < zlen rs <-> is_Some (rs.[k])).
Proof.
  intros Hit Hix Hk. destruct (rs.[k]) as [r|] eqn:Er.
  - pose proof (zget_Some_range _ _ _ Er). assert (VersionRuns.Iterator.index it = k) as E by lia. rewrite <- E in Er.
    destruct (next_run V rs Hv it r Hit Er) as (it' & -> & Hit' & E'). exists it'. split; [done|]. split; [done|].
    split; [lia|]. split; [by eexists|lia].
  - assert (zlen rs <= k) as Hge. { destruct (decide (k < zlen rs)); [|lia]. destruct (zget_in rs k) as [r' Hr']; [lia|congruence]. }
    exists it. rewrite (next_end V rs Hv it) by lia. split; [done|]. split; [done|]. split; [lia|].
    split; [lia|]. intros [? [=]].
Qed.

(** Before document [d], with the run of document [e]. *)
Record mapping_inv (e d : Z) (m : mapping) : Prop := {
  mi_run : exists k r, rs.[k] = Some r /\ firstDocId r <= e < boundary (k + 1) /\ current m = Some r /\
    haveNext m = bool_decide (k + 1 < zlen rs) /\ (k + 1 < zlen rs -> next m = rs.[k + 1]) /\
    iterator_inv V rs (runs m) /\ VersionRuns.Iterator.index (runs m) = Z.min (k + 2) (zlen rs) /\
    writer_inv stream f (versions m) (base seg + rank d) (if emitted m then Some (version r) else None);
  mi_new : newDocId m = rank d;
  mi_length : zlen (target m) = M;
  mi_target i : 0 <= i < d -> (target m).[i] = Some (if bit bits i then rank i else -1) }.

Lemma advance_run d m : mapping_inv (Z.max 0 (d - 1)) d m -> 0 <= d < M ->
  exists m', advance seg d m = Ret m' /\ mapping_inv d d m'.
Proof.
  intros [(k & r & Hr & He & Hc & Hh & Hn & Hit & Hix & Hw) Hnew Hlen Ht] Hd.
  pose proof (zget_Some_range _ _ _ Hr) as Hk. unfold advance. rewrite Hh. pose proof (fo_maxDoc _ _ Hv). rewrite Hmax in *.
  destruct (bool_decide_reflect (k + 1 < zlen rs)) as [Hlt|Hge].
  - destruct (zget_in rs (k + 1)) as [r' Hr']; [lia|]. rewrite (Hn Hlt), Hr'. cbn [lift mbind outcome_bind].
    rewrite (boundary_at _ _ Hr') in He. destruct (boundary_next _ _ Hr') as (Hb1 & Hb2 & _). rewrite uwrap_id by (unfold is_u; lia).
    destruct (bool_decide_reflect (firstDocId r' = d)) as [<-|Hne].
    + destruct (read_next (k + 2) (runs m)) as (it' & -> & Hit' & Hix' & Hsome); [done|lia|lia|]. cbn [lift mbind outcome_bind].
      eexists. split; [done|]. constructor; [|done..]. exists (k + 1), r'. replace (k + 1 + 1) with (k + 2) by lia.
      cbn [current next haveNext runs emitted versions]. split; [done|]. split; [replace (k + 2) with (k + 1 + 1) by lia; lia|].
      split; [done|]. split; [|split; [|split; [done|split; [lia|by eapply writer_forget]]]].
      * destruct (rs.[k + 2]); symmetry; [apply bool_decide_true, Hsome; by eexists|apply bool_decide_false].
        intros [? [=]]%Hsome.
      * intros [r2 ->]%Hsome. done.
    + eexists. split; [done|]. constructor; [|done..]. exists k, r. rewrite (boundary_at _ _ Hr'). split; [done|].
      split; [lia|]. split; [done|]. split; [by rewrite bool_decide_true|]. split; [done|]. split; [done|]. by split.
  - cbn [mbind outcome_bind]. eexists. split; [done|]. constructor; [|done..]. exists k, r. assert (k + 1 = zlen rs) as Ek by lia.
    rewrite Ek, boundary_end in *. split; [done|]. split; [lia|]. split; [done|].
    split; [by rewrite bool_decide_false by lia|]. split; [done|]. split; [done|]. by split.
Qed.

Lemma rank_next d : 0 <= d -> rank (d + 1) = rank d + if bit bits d then 1 else 0.
Proof.
  intros Hd. unfold members. rewrite seqZ_app, filter_app, zlen_app by lia. f_equal. rewrite Z.add_0_l, seqZ_cons by lia.
  rewrite (seqZ_nil _ (Z.pred 1)) by lia. rewrite filter_cons. by destruct (bit bits d).
Qed.

Lemma rank_mono d d' : 0 <= d <= d' -> rank d <= rank d'.
Proof.
  intros Hd. unfold members. replace d' with (d + (d' - d)) by lia. rewrite seqZ_app, filter_app, zlen_app by lia.
  pose proof (zlen_nonneg (filter (fun i => bit bits i = true) (seqZ (0 + d) (d' - d)))). lia.
Qed.

(** The version of a live document reaches the writer. *)
Lemma emit_spec d m : mapping_inv d d m -> 0 <= d < M -> bit bits d = true ->
  exists m', emit seg m = Ret m' /\ newDocId m' = newDocId m /\ target m' = target m /\
    forall t n, zlen t = M -> (forall i, 0 <= i < d + 1 -> t.[i] = Some (if bit bits i then rank i else -1)) -> n = rank (d + 1) ->
      mapping_inv d (d + 1) (Mapping (runs m') (current m') (next m') (haveNext m') (emitted m') n t (versions m')).
Proof.
  intros [(k & r & Hr & He & Hc & Hh & Hn & Hit & Hix & Hw) Hnew Hlen Ht] Hd Hbit.
  pose proof (rank_next d ltac:(lia)) as Hrk. rewrite Hbit in Hrk. pose proof (rank_mono (d + 1) M ltac:(lia)).
  destruct (boundary_next _ _ Hr) as (_ & _ & Hb3). assert (f (base seg + rank d) = version r) as Hfd.
  { pose proof (Hb3 d He) as H'. rewrite Hf in H' by done. by injection H'. }
  pose proof (zlen_nonneg (members bits d)). unfold emit. destruct (emitted m) eqn:Eem.
  - exists m. split; [done|]. split; [done|]. split; [done|]. intros t n Hzt Ht' ->.
    constructor; cbn [runs current next haveNext emitted newDocId target versions]; [|done..].
    exists k, r. do 7 (split; [done|]). rewrite Eem. eapply writer_keep; [exact Hw|lia|]. intros doc Hdoc.
    by replace doc with (base seg + rank d) by lia.
  - unfold int32. rewrite decide_True by (unfold is_s; change (32 - 1) with 31; lia). rewrite Hc, Hnew. cbn [lift mbind outcome_bind].
    rewrite uwrap_id by (unfold is_u; lia). rewrite <- Hfd.
    destruct (writer_emit _ _ _ _ _ Hw) as (w' & -> & Hw'); [lia|rewrite Hfd; by eapply run_unsigned|]. cbn [mbind outcome_bind].
    eexists. split; [done|]. split; [by rewrite <- Hnew|]. split; [done|]. intros t n Hzt Ht' ->.
    constructor; cbn [runs current next haveNext emitted newDocId target versions]; [|done..].
    exists k, r. do 7 (split; [done|]). rewrite <- Hfd, Hrk, Z.add_assoc. exact Hw'.
Qed.

Lemma target_set (t : list Z) d : 0 <= d < M -> zlen t = M ->
  (forall i, 0 <= i < d -> t.[i] = Some (if bit bits i then rank i else -1)) ->
  exists t', zset t d (if bit bits d then rank d else -1) = Some t' /\ zlen t' = M /\
    forall i, 0 <= i < d + 1 -> t'.[i] = Some (if bit bits i then rank i else -1).
Proof.
  intros Hd Hz Ht. eexists. split; [apply zset_in; lia|]. split; [by rewrite zlen_insert|]. intros i Hi.
  rewrite zget_insert by lia. case_decide; [by subst|]. apply Ht. lia.
Qed.

Lemma mapDoc_spec d m : mapping_inv (Z.max 0 (d - 1)) d m -> 0 <= d < M ->
  exists m', mapDoc seg (LiveDocs.bitset live) m d = Ret m' /\ mapping_inv d (d + 1) m'.
Proof.
  intros Hm Hd. unfold mapDoc. destruct (advance_run d m Hm Hd) as (m1 & -> & Hm1). cbn [mbind outcome_bind].
  rewrite (fixed_get_spec _ d Hwf) by lia. cbn [lift mbind outcome_bind].
  destruct (target_set (target m1) d Hd (mi_length _ _ _ Hm1) (mi_target _ _ _ Hm1)) as (t & Et & Hzt & Htt).
  pose proof (rank_next d ltac:(lia)) as Hrk. destruct (bit bits d) eqn:Hbit.
  - destruct (emit_spec d m1 Hm1 Hd Hbit) as (m2 & -> & En & Etg & Hm2). cbn [mbind outcome_bind].
    pose proof (mi_new _ _ _ Hm1) as Hnew. pose proof (rank_mono (d + 1) M ltac:(lia)). pose proof (zlen_nonneg (members bits d)).
    unfold int32. rewrite decide_True by (unfold is_s; change (32 - 1) with 31; lia). cbn [lift mbind outcome_bind].
    unfold set_target. rewrite En, Etg, Hnew, Et. cbn [lift mbind outcome_bind]. eexists. split; [done|]. apply Hm2; [done..|lia].
  - unfold set_target. rewrite Et. cbn [lift mbind outcome_bind]. eexists. split; [done|].
    destruct Hm1 as [(k & r & Hrun) Hnew _ _]. constructor; cbn [newDocId target]; [|by rewrite Hrk, Z.add_0_r|done..].
    exists k, r. by rewrite Hrk, Z.add_0_r.
Qed.

Lemma mapDocs_spec m n : 0 <= n <= M -> mapping_inv 0 0 m ->
  exists m', foldE (mapDoc seg (LiveDocs.bitset live)) m (seqZ 0 n) = Ret m' /\ mapping_inv (Z.max 0 (n - 1)) n m'.
Proof.
  intros Hn Hm. apply (foldE_returns (fun d => mapping_inv (Z.max 0 (d - 1)) d)); [lia|done|].
  intros d s Hd Hs. replace (Z.max 0 (d + 1 - 1)) with d by lia. apply mapDoc_spec; [done|lia].
Qed.

Lemma mapping_spec w next : remap seg = [] -> writer_inv stream f w (base seg) next ->
  exists t w' next', buildDocIdMapping seg (Some live) w = Ret (t, w') /\ writer_inv stream f w' (base seg + numLive seg) next' /\
    zlen t = M /\ forall i, 0 <= i < M -> t.[i] = Some (if bit bits i then rank i else -1).
Proof.
  intros Hre Hw. pose proof (fo_max _ _ Hv) as Hrs. rewrite Hmax in Hrs. unfold buildDocIdMapping, LiveDocs.size. rewrite decide_True by done.
  destruct (read_next 0 VersionRuns.Iterator.fresh) as (it & -> & Hit & Hix & _); [apply fresh_iterator_inv|simpl; lia|lia|].
  destruct (zget_in rs 0) as [r0 Hr0]; [lia|]. rewrite Hr0. cbn [lift mbind outcome_bind].
  destruct (read_next 1 it) as (it' & -> & Hit' & Hix' & Hsome); [done|lia|lia|]. cbn [lift mbind outcome_bind].
  destruct (mapDocs_spec (Mapping it' (Some r0) (rs.[1]) (match rs.[1] with Some _ => true | None => false end) false 0
      (take (Z.to_nat M) (remap seg) ++ replicate (Z.to_nat (M - zlen (remap seg))) 0) w) M) as (m & -> & Hm); [lia| |].
  - rewrite Hre. constructor; cbn [runs current SegmentMerger.next haveNext emitted newDocId target versions].
    + exists 0, r0. split; [done|]. split; [destruct (boundary_next _ _ Hr0) as (? & _); rewrite (first_zero V rs Hv r0 Hr0) in *; lia|].
      split; [done|]. split; [|split; [done|split; [done|split; [lia|]]]].
      * change (0 + 1) with 1. destruct (rs.[1]); symmetry; [apply bool_decide_true, Hsome; by eexists|apply bool_decide_false]. by intros [? [=]]%Hsome.
      * change (rank 0) with 0. rewrite Z.add_0_r. by eapply writer_forget.
    + done.
    + rewrite take_nil. change (zlen []) with 0. rewrite app_nil_l, Z.sub_0_r. unfold zlen. rewrite length_replicate. lia.
    + lia.
  - cbn [mbind outcome_bind]. pose proof (mi_new _ _ _ Hm). rewrite decide_True by lia.
    destruct (mi_run _ _ _ Hm) as (k & r & Hrun). eexists _, _, _. split; [done|]. rewrite Hlive.
    split; [apply Hrun|]. split; [apply Hm|apply Hm].
Qed.

End deletions.
End segment.

(** * All segments *)

(** The live documents of a segment, in order. *)
Definition live_docs (p : SegmentMerger.reader) (l : option LiveDocs.liveDocs) : list Z :=
  match l with
  | None => seqZ 0 (SegmentMerger.maxDoc p)
  | Some l => members (FixedBitSet.words (LiveDocs.bitset l)) (SegmentMerger.maxDoc p)
  end.

(** The documents of the merged segment: the segment and the document each one comes from. *)
Fixpoint merged_from (ord : Z) (inputs : list (SegmentMerger.reader * option LiveDocs.liveDocs)) : list (Z * Z) :=
  match inputs with
  | [] => []
  | (p, l) :: inputs => ((fun d => (ord, d)) <$> live_docs p l) ++ merged_from (ord + 1) inputs
  end.

(** Bits of the documents of the segment, counted. *)
Definition live_ok (p : SegmentMerger.reader) (l : option LiveDocs.liveDocs) : Prop :=
  match l with
  | None => True
  | Some l => fixed_wf (LiveDocs.bitset l) /\ FixedBitSet.nbits (LiveDocs.bitset l) = SegmentMerger.maxDoc p /\
      FixedBitSet.card (LiveDocs.bitset l) = Some (LiveDocs.numLive l)
  end.

(** A reader whose version runs were read from a file that was accepted. *)
Definition opened (p : SegmentMerger.reader) : Prop :=
  exists mem headerOffset count, is_bytes mem /\ zlen mem < 2 ^ 62 /\ 0 <= headerOffset /\ is_u 32 count /\
    is_s 32 (SegmentMerger.maxDoc p) /\ VersionRuns.make mem headerOffset count (SegmentMerger.maxDoc p) = Ret (SegmentMerger.versionRuns p).

(** The version of a document of a segment. *)
Definition version_in (p : SegmentMerger.reader) (doc : Z) : Z :=
  match births (SegmentMerger.versionRuns p) [doc] VersionRuns.Cursor.fresh with
  | [Ret v] => v
  | _ => 0
  end.

Section all.
Import SegmentMerger.

Lemma opened_file p : opened p -> exists rs, file_of (versionRuns p) rs /\ VersionRuns.maxDoc_ (versionRuns p) = maxDoc p.
Proof.
  intros (mem & off & count & Hm & Hs & Ho & Hc & Hmax & E). pose proof (make_spec mem Hm Hs off count (maxDoc p) Ho Hc Hmax) as H.
  rewrite E in H. destruct H as (_ & H1 & rs & H2). by exists rs.
Qed.

Lemma version_in_spec p rs d : file_of (versionRuns p) rs -> VersionRuns.maxDoc_ (versionRuns p) = maxDoc p -> 0 <= d < maxDoc p ->
  birth_of rs d = Some (version_in p d) /\ births (versionRuns p) [d] VersionRuns.Cursor.fresh = [Ret (version_in p d)].
Proof.
  intros Hf Hm Hd. pose proof (fo_maxDoc _ _ Hf). unfold version_in. rewrite (births_spec _ rs); [|done|apply fresh_inv|].
  2: { apply List.Forall_cons; [unfold is_s; change (32 - 1) with 31; lia|apply List.Forall_nil]. }
  rewrite Hm. cbn [fmap list_fmap]. unfold expected_birth. rewrite decide_True by done.
  destruct (run_at_spec _ rs Hf d) as [Hk _]; [lia|]. destruct (zget_in rs _ Hk) as [r Hr]. unfold birth_of. by rewrite Hr.
Qed.

Lemma live_range p l j d : (live_docs p l).[j] = Some d -> 0 <= d < maxDoc p.
Proof.
  intros Hj%zget_elem_1. destruct l as [l|]; cbn [live_docs] in Hj; [by apply elem_of_members in Hj as [? _]|apply elem_of_seqZ in Hj; lia].
Qed.

Lemma members_at ws n d : 0 <= d < n -> bit ws d = true -> (members ws n).[zlen (members ws d)] = Some d.
Proof.
  intros Hd Hb. unfold members at 1. replace n with (d + (n - d)) by lia. rewrite seqZ_app, filter_app by lia.
  rewrite zget_app_r, Z.sub_diag by (unfold members; lia). rewrite Z.add_0_l, seqZ_cons by lia. rewrite filter_cons. by rewrite decide_True.
Qed.

Lemma members_index ws n j d : (members ws n).[j] = Some d -> j = zlen (members ws d) /\ bit ws d = true.
Proof.
  intros Hj. pose proof (zget_elem_1 _ _ _ Hj) as He. apply elem_of_members in He as [Hd Hb]. split; [|done].
  pose proof (members_at ws n d Hd Hb) as Hk.
  pose proof (increasing_members ws n) as Hi. destruct (Z.lt_trichotomy j (zlen (members ws d))) as [H|[H|H]]; [|done|].
  - pose proof (increasing_zget _ _ _ _ _ Hi Hj Hk H). lia.
  - pose proof (increasing_zget _ _ _ _ _ Hi Hk Hj H). lia.
Qed.

Lemma live_count p l : live_ok p l -> 0 <= maxDoc p -> liveCount p l = zlen (live_docs p l).
Proof.
  intros Hl Hm. destruct l as [l|]; simpl.
  - destruct Hl as (Hwf & Hn & Hc). rewrite card_spec, Hn in Hc by done. by injection Hc.
  - unfold zlen. rewrite length_seqZ. lia.
Qed.

(** The segment maps its live documents to consecutive ids from its base on. *)
Definition remapped (s : Segment) (l : option LiveDocs.liveDocs) : Prop :=
  (forall j d, (live_docs (postingsReader s) l).[j] = Some d -> remapDocId s d = Some (base s + j, false)) /\
  (forall d, 0 <= d < maxDoc (postingsReader s) -> d ∉ live_docs (postingsReader s) l -> exists x, remapDocId s d = Some (x, true)).

Lemma remap_none p n B o : 0 <= B -> n = maxDoc p -> B + n < 2 ^ 31 -> remapped (MkSegment p n B o []) None.
Proof.
  intros HB -> Hn. split; cbn [postingsReader live_docs base].
  - intros j d Hj. pose proof (live_range p None j d Hj). unfold zget, live_docs in Hj. case_decide; [|done].
    apply lookup_seqZ in Hj as [-> _]. unfold remapDocId, int32. cbn [remap SegmentMerger.base]. rewrite decide_False by (by intros H').
    rewrite bind_Some_l. rewrite decide_True by (unfold is_s; change (32 - 1) with 31; lia). rewrite bind_Some_l. do 2 f_equal. lia.
  - intros d Hd Hnot. exfalso. apply Hnot, elem_of_seqZ. lia.
Qed.

Lemma remap_some p l n B o t : 0 <= B -> n = zlen (live_docs p (Some l)) -> B + n < 2 ^ 31 -> zlen t = maxDoc p ->
  (forall i, 0 <= i < maxDoc p -> t.[i] = Some (if bit (FixedBitSet.words (LiveDocs.bitset l)) i
     then zlen (members (FixedBitSet.words (LiveDocs.bitset l)) i) else -1)) ->
  remapped (MkSegment p n B o t) (Some l).
Proof.
  intros HB Hn Hlt Hz Ht.
  assert (forall d, 0 <= d < maxDoc p -> t <> []) as Hne by (intros d Hd ->; change (zlen []) with 0 in Hz; lia).
  split; cbn [postingsReader base].
  - intros j d Hj. pose proof (live_range _ _ _ _ Hj) as Hd. pose proof (zget_Some_range _ _ _ Hj) as Hjr. cbn [live_docs] in Hj, Hjr, Hn.
    apply members_index in Hj as [-> Hb]. pose proof (Ht d Hd) as E. rewrite Hb in E.
    unfold remapDocId, int32. cbn [remap SegmentMerger.base]. rewrite decide_True by eauto. rewrite E, !bind_Some_l.
    rewrite decide_True by (unfold is_s; change (32 - 1) with 31; lia). rewrite !bind_Some_l, bool_decide_false by lia. do 2 f_equal. lia.
  - intros d Hd Hnot. pose proof (Ht d Hd) as E. cbn [live_docs] in Hnot. rewrite elem_of_members in Hnot.
    destruct (bit _ d); [exfalso; by apply Hnot|]. pose proof (zlen_nonneg (live_docs p (Some l))).
    unfold remapDocId, int32. cbn [remap SegmentMerger.base]. rewrite decide_True by eauto. rewrite E, !bind_Some_l.
    rewrite decide_True by (unfold is_s; change (32 - 1) with 31; lia). rewrite !bind_Some_l, bool_decide_true by done. by eexists.
Qed.

Lemma build_mapping stream f p l n B o w next : opened p -> live_ok p l -> n = zlen (live_docs p l) -> 0 <= B -> B + n < 2 ^ 31 ->
  (forall j d, (live_docs p l).[j] = Some d -> f (B + j) = version_in p d) -> writer_inv stream f w B next ->
  exists t w' next', buildDocIdMapping (MkSegment p n B o []) l w = Ret (t, w') /\ writer_inv stream f w' (B + n) next' /\
    remapped (MkSegment p n B o t) l.
Proof.
  intros Hp Hl Hn HB Hlt Hf Hw. destruct (opened_file p Hp) as (rs & Hrs & Hmax). pose proof (fo_max _ _ Hrs) as Hpos. rewrite Hmax in Hpos.
  set (seg := MkSegment p n B o []). destruct l as [l|].
  - destruct Hl as (Hwf & Hnb & _). destruct (mapping_spec stream f seg rs Hrs Hmax HB Hlt l Hwf Hnb Hn) with (w := w) (next := next)
      as (t & w' & next' & E & Hw' & Hz & Ht); [|done|done|exists t, w', next'; split; [done|]; split; [done|]; by apply remap_some].
    intros d Hd Hb. destruct (version_in_spec p rs d Hrs Hmax Hd) as [-> _]. f_equal. symmetry. apply Hf. by apply members_at.
  - assert (n = maxDoc p) as Hn' by (rewrite Hn; unfold live_docs, zlen; rewrite length_seqZ; lia).
    destruct (copyRuns_spec stream f seg rs Hrs Hmax HB Hlt Hn') with (fuel := S (Z.to_nat (VersionRuns.size (versionRuns p))))
      (it := VersionRuns.Iterator.fresh) (w := w) (next := next) as (w' & next' & E & Hw').
    + intros d Hd. destruct (version_in_spec p rs d Hrs Hmax Hd) as [-> _]. f_equal. symmetry. apply Hf.
      cbn [postingsReader seg] in Hd. unfold live_docs, zget. rewrite decide_True by lia. apply lookup_seqZ. lia.
    + apply fresh_iterator_inv.
    + destruct (zget_in rs 0) as [r0 Hr0]; [lia|]. cbn [VersionRuns.Iterator.index VersionRuns.Iterator.fresh].
      rewrite (boundary_at _ _ _ _ Hr0), (first_zero _ _ Hrs _ Hr0), Z.add_0_r. exact Hw.
    + unfold VersionRuns.size. rewrite (fo_count _ _ Hrs). simpl VersionRuns.Iterator.index. lia.
    + exists [], w', next'. unfold buildDocIdMapping. cbn [postingsReader seg]. rewrite E. split; [done|].
      cbn [postingsReader base seg] in Hw'. rewrite <- Hn' in Hw'. split; [done|]. by apply remap_none.
Qed.

(** ** The loop over the segments *)

(** The segments, with their bases, before their documents are mapped. *)
Fixpoint segments_from (B o : Z) (inputs : list (reader * option LiveDocs.liveDocs)) : list Segment :=
  match inputs with
  | [] => []
  | (p, l) :: inputs => MkSegment p (liveCount p l) B o [] :: segments_from (B + liveCount p l) (o + 1) inputs
  end.

(** The segments after their documents are mapped. *)
Fixpoint mapped (B : Z) (inputs : list (reader * option LiveDocs.liveDocs)) (segs : list Segment) : Prop :=
  match inputs, segs with
  | [], [] => True
  | (p, l) :: inputs, s :: segs =>
      postingsReader s = p /\ base s = B /\ remapped s l /\ mapped (B + zlen (live_docs p l)) inputs segs
  | _, _ => False
  end.

Definition input_ok (input : reader * option LiveDocs.liveDocs) : Prop := opened input.1 /\ live_ok input.1 input.2.

Definition merged_versions (inputs : list (reader * option LiveDocs.liveDocs)) : list Z :=
  mjoin ((fun '(p, l) => version_in p <$> live_docs p l) <$> inputs).

Lemma input_count p l : input_ok (p, l) -> liveCount p l = zlen (live_docs p l).
Proof.
  intros [Hp Hl]. apply live_count; [done|]. destruct (opened_file p Hp) as (rs & Hf & Hm). pose proof (fo_max _ _ Hf). simpl in *. lia.
Qed.

Lemma segments_spec inputs acc B : Forall input_ok inputs -> 0 <= B -> B + zlen (merged_versions inputs) < 2 ^ 31 ->
  foldl (fun '(segs, totalLive) '(preader, liveDocs) =>
    (segs ++ [MkSegment preader (liveCount preader liveDocs) (s32 totalLive) (zlen segs) []], totalLive + liveCount preader liveDocs))
    (acc, B) inputs = (acc ++ segments_from B (zlen acc) inputs, B + zlen (merged_versions inputs)).
Proof.
  intros Hin. revert acc B. induction Hin as [|[p l] inputs Hi _ IH]; intros acc B HB Hlt.
  { cbn [foldl segments_from]. rewrite app_nil_r. f_equal. change (zlen (merged_versions [])) with 0. lia. }
  assert (zlen (merged_versions ((p, l) :: inputs)) = liveCount p l + zlen (merged_versions inputs)) as E.
  { unfold merged_versions. rewrite fmap_cons. cbn [mjoin list_join]. rewrite zlen_app, zlen_fmap, (input_count p l Hi). done. }
  rewrite E in *. cbn [foldl segments_from]. pose proof (zlen_nonneg (merged_versions inputs)). pose proof (zlen_nonneg (live_docs p l)).
  pose proof (input_count p l Hi). rewrite IH by lia. rewrite swrap_id by (unfold is_s; change (32 - 1) with 31; lia).
  rewrite zlen_app, <- app_assoc. change (zlen [_]) with 1. f_equal. lia.
Qed.

Lemma mapping_loop stream f inputs B o acc w next : Forall input_ok inputs -> 0 <= B -> B + zlen (merged_versions inputs) < 2 ^ 31 ->
  (forall k v, (merged_versions inputs).[k] = Some v -> f (B + k) = v) -> writer_inv stream f w B next ->
  exists segs w' next', foldE (fun '(done, versions) '(seg, liveDocs) =>
        '(remap, versions) ← buildDocIdMapping seg liveDocs versions;
        Ret (done ++ [MkSegment (postingsReader seg) (numLive seg) (base seg) (ord seg) remap], versions))
      (acc, w) (zip (segments_from B o inputs) (inputs.*2)) = Ret (acc ++ segs, w') /\
    writer_inv stream f w' (B + zlen (merged_versions inputs)) next' /\ mapped B inputs segs.
Proof.
  intros Hin. revert B o acc w next. induction Hin as [|[p l] inputs Hi _ IH]; intros B o acc w next HB Hlt Hf Hw.
  { exists [], w, next. rewrite app_nil_r. change (zlen (merged_versions [])) with 0. by rewrite Z.add_0_r. }
  pose proof (input_count p l Hi) as Hc. change (merged_versions ((p, l) :: inputs)) with ((version_in p <$> live_docs p l) ++ merged_versions inputs) in *.
  rewrite zlen_app, zlen_fmap in *. cbn [segments_from zip_with foldE fmap list_fmap snd].
  pose proof (zlen_nonneg (merged_versions inputs)). pose proof (zlen_nonneg (live_docs p l)).
  destruct (build_mapping stream f p l (liveCount p l) B o w next) as (t & w1 & next1 & E1 & Hw1 & Hr); [apply Hi|apply Hi|done|done|lia| |done|].
  { intros j d Hj. pose proof (zget_Some_range _ _ _ Hj). apply Hf. rewrite zget_app_l by (rewrite zlen_fmap; lia). by rewrite zget_fmap, Hj. }
  rewrite E1. cbn [mbind outcome_bind postingsReader numLive base ord].
  destruct (IH (B + liveCount p l) (o + 1) (acc ++ [MkSegment p (liveCount p l) B o t]) w1 next1) as (segs & w' & next' & E & Hw' & Hm);
    [lia|lia| |done|].
  { intros k v Hk. pose proof (zget_Some_range _ _ _ Hk). rewrite <- Z.add_assoc. apply Hf. rewrite zget_app_r by (rewrite zlen_fmap; lia). rewrite zlen_fmap, <- Hk. f_equal. lia. }
  exists (MkSegment p (liveCount p l) B o t :: segs), w', next'. rewrite <- app_assoc in E. split; [exact E|].
  split; [by rewrite Z.add_assoc, <- Hc|]. split; [done|]. split; [done|]. split; [done|]. by rewrite <- Hc.
Qed.

(** ** The merged documents *)

Lemma zget_tail {A} (x : A) l k : 0 <= k -> (x :: l).[k + 1] = l.[k].
Proof. intros Hk. change (x :: l) with ([x] ++ l). rewrite zget_app_r by (change (zlen [x]) with 1; lia). f_equal. change (zlen [x]) with 1. lia. Qed.

Lemma merged_length inputs o : zlen (merged_from o inputs) = zlen (merged_versions inputs).
Proof.
  revert o. induction inputs as [|[p l] inputs IH]; intros o; [done|]. cbn [merged_from].
  change (merged_versions ((p, l) :: inputs)) with ((version_in p <$> live_docs p l) ++ merged_versions inputs).
  by rewrite !zlen_app, !zlen_fmap, IH.
Qed.

Lemma merged_lookup inputs B segs o n i d : mapped B inputs segs -> (merged_from o inputs).[n] = Some (i, d) ->
  o <= i /\ exists s p l, segs.[i - o] = Some s /\ inputs.[i - o] = Some (p, l) /\ remapDocId s d = Some (B + n, false) /\
    (merged_versions inputs).[n] = Some (version_in p d) /\ 0 <= d < maxDoc p.
Proof.
  revert B segs o n. induction inputs as [|[p l] inputs IH]; intros B segs o n Hm Hn; [cbn [merged_from] in Hn; by rewrite zget_nil in Hn|].
  destruct segs as [|s segs]; [done|]. destruct Hm as (Hp & HB & Hr & Hm). cbn [merged_from] in Hn.
  change (merged_versions ((p, l) :: inputs)) with ((version_in p <$> live_docs p l) ++ merged_versions inputs).
  pose proof (zget_Some_range _ _ _ Hn) as Hnr. destruct (decide (n < zlen (live_docs p l))) as [Hlt|Hge].
  - rewrite zget_app_l, zget_fmap in Hn by (rewrite zlen_fmap; lia). destruct ((live_docs p l).[n]) as [d'|] eqn:E; [|done].
    injection Hn as -> ->. split; [lia|]. exists s, p, l. rewrite Z.sub_diag. split; [done|]. split; [done|].
    rewrite zget_app_l, zget_fmap, E by (rewrite zlen_fmap; lia). destruct Hr as [Hr _]. rewrite Hp in Hr. rewrite (Hr _ _ E), HB.
    split; [done|]. split; [done|]. by eapply live_range.
  - rewrite zget_app_r, zlen_fmap in Hn by (rewrite zlen_fmap; lia).
    destruct (IH _ _ _ _ Hm Hn) as (Hi & s' & p' & l' & E1 & E2 & E3 & E4 & E5). split; [lia|]. exists s', p', l'.
    replace (i - o) with (i - (o + 1) + 1) by lia. rewrite !zget_tail by lia. split; [done|]. split; [done|].
    rewrite zget_app_r, zlen_fmap by (rewrite zlen_fmap; lia). split; [|done]. rewrite E3. do 2 f_equal. lia.
Qed.

Lemma mapped_segment inputs B segs k p l : mapped B inputs segs -> inputs.[k] = Some (p, l) ->
  exists s, segs.[k] = Some s /\ postingsReader s = p /\ remapped s l.
Proof.
  revert B segs k. induction inputs as [|[p' l'] inputs IH]; intros B segs k Hm Hk; [by rewrite zget_nil in Hk|].
  destruct segs as [|s segs]; [done|]. destruct Hm as (Hp & _ & Hr & Hm). pose proof (zget_Some_range _ _ _ Hk).
  destruct (decide (k = 0)) as [->|].
  - injection Hk as -> ->. by exists s.
  - assert (k = k - 1 + 1) as Ek by lia. rewrite Ek in Hk |- *. rewrite zget_tail in Hk by lia. rewrite zget_tail by lia. by eapply IH.
Qed.

End all.

(** C2: merging keeps the request versions of documents.  The merge of segments, some with
    deleted documents, gives new ids to the live documents, segment after segment and in
    order, and [mapDocId] returns -1 for the others.  The version runs that it
    writes are accepted when the merged segment is opened, and a lookup of a new document
    in them returns what a lookup of the document it comes from returns in its segment. *)
Theorem merge_keeps_versions (stream post : list Z) (preaders : list SegmentMerger.reader) (liveDocs : list (option LiveDocs.liveDocs))
    (Hlen : zlen preaders = zlen liveDocs) (Hin : Forall input_ok (zip preaders liveDocs))
    (Htotal : 0 < zlen (merged_from 0 (zip preaders liveDocs)) < 2 ^ 31) (Hs : is_bytes stream) (Hp : is_bytes post)
    (Hsize : zlen stream + zlen post < 2 ^ 61) :
  exists segs count loc ext v,
    SegmentMerger.merge stream preaders liveDocs =
      Ret (segs, zlen (merged_from 0 (zip preaders liveDocs)), Some (count, Some loc, stream ++ ext)) /\
    VersionRuns.make ((stream ++ ext) ++ post) loc count (zlen (merged_from 0 (zip preaders liveDocs))) = Ret v /\
    (forall n i d, (merged_from 0 (zip preaders liveDocs)).[n] = Some (i, d) ->
       SegmentMerger.mapDocId segs i d = Some n /\ exists p, preaders.[i] = Some p /\
       births v [n] VersionRuns.Cursor.fresh = births (SegmentMerger.versionRuns p) [d] VersionRuns.Cursor.fresh) /\
    (forall i d p l, preaders.[i] = Some p -> liveDocs.[i] = Some l -> 0 <= d < SegmentMerger.maxDoc p -> d ∉ live_docs p l ->
       SegmentMerger.mapDocId segs i d = Some (-1)).
Proof.
  rewrite merged_length in *. set (inputs := zip preaders liveDocs) in *. set (total := zlen (merged_versions inputs)) in *.
  unfold SegmentMerger.merge. rewrite decide_True by done. fold inputs. unfold SegmentMerger.segments.
  rewrite (segments_spec inputs [] 0 Hin) by lia. fold total. rewrite app_nil_l, Z.add_0_l.
  assert (inputs.*1 = preaders /\ inputs.*2 = liveDocs) as [E1 E2].
  { unfold inputs. split; [apply fst_zip|apply snd_zip]; unfold zlen in Hlen; lia. }
  set (f n := default 0 ((merged_versions inputs).[n])).
  destruct (mapping_loop stream f inputs 0 0 [] (PostingsWriter.make stream) None Hin) as (segs & w & next & E & Hw & Hm);
    [lia|lia|intros k v Hk; unfold f; by rewrite Z.add_0_l, Hk|apply writer_fresh|].
  rewrite E2 in E. change (zlen []) with 0. rewrite E. cbn [mbind outcome_bind]. rewrite app_nil_l, swrap_id by (unfold is_s; change (32 - 1) with 31; lia).
  destruct (writer_finish stream f post w total next Hw) as (count & loc & ext & v & Ef & Ev & Hb); [done..|].
  rewrite Ef. cbn [mbind outcome_bind]. exists segs, count, loc, ext, v. split; [done|]. split; [done|]. split.
  - intros n i d Hn. pose proof (zget_Some_range _ _ _ Hn) as Hnr. rewrite merged_length in Hnr. fold total in Hnr.
    destruct (merged_lookup inputs 0 segs 0 n i d Hm Hn) as (Hi & s & p & l & Hs' & Hpl & Hr & Hv & Hd). rewrite Z.sub_0_r in *.
    unfold SegmentMerger.mapDocId. rewrite Hs', bind_Some_l, Hr, bind_Some_l, Z.add_0_l. split; [done|].
    exists p. split; [rewrite <- E1, zget_fmap, Hpl; done|].
    rewrite Forall_forall in Hin. destruct (Hin (p, l) (zget_elem_1 _ _ _ Hpl)) as [Hop _].
    destruct (opened_file p Hop) as (rs & Hf' & Hmax). destruct (version_in_spec p rs d Hf' Hmax Hd) as [_ ->].
    rewrite Hb. 2: { apply List.Forall_cons; [unfold is_s; change (32 - 1) with 31; lia|apply List.Forall_nil]. }
    cbn [fmap list_fmap]. unfold version_at, f. rewrite decide_True by lia. by rewrite Hv.
  - intros i d p l Hpi Hli Hd Hnot. destruct (mapped_segment inputs 0 segs i p l Hm) as (s & Hs' & Ep & [_ Hr]).
    { unfold inputs, zget in *. case_decide; [|done]. by apply lookup_zip_with_Some; exists p, l. }
    rewrite Ep in Hr. destruct (Hr d Hd Hnot) as [x Ex]. unfold SegmentMerger.mapDocId. by rewrite Hs', bind_Some_l, Ex, bind_Some_l.
Qed.

(** Documents 0 and 2 of 3. *)
Lemma five_wf : fixed_wf (FixedBitSet.Fixed [5] 3).
Proof.
  split; [by vm_compute|]. split; [apply List.Forall_cons; [by vm_compute|apply List.Forall_nil]|]. split; [done|].
  intros i Hi. cbn [FixedBitSet.nbits FixedBitSet.words] in *. unfold bit. pose proof (Z.mod_pos_bound i 64 ltac:(lia)).
  destruct (decide (i < 64)) as [Hlt|].
  - rewrite Z.div_small, Z.mod_small by lia. cbn. apply Z.bits_above_log2; simpl; lia.
  - destruct ([5].[i / 64]) eqn:E; [|done]. apply zget_Some_range in E. change (zlen [5]) with 1 in E.
    pose proof (Z.div_le_lower_bound i 64 1 ltac:(lia) ltac:(lia)). lia.
Qed.

Lemma merge_keeps_versions_witness :
  exists p segs count loc ext, VersionRuns.make one_run 72 1 3 = Ret (SegmentMerger.versionRuns p) /\
    SegmentMerger.merge [1] [p; p] [None; Some (LiveDocs.MkLiveDocs (FixedBitSet.Fixed [5] 3) 2)] =
      Ret (segs, 5, Some (count, Some loc, [1] ++ ext)) /\
    SegmentMerger.mapDocId segs 1 2 = Some 4 /\ SegmentMerger.mapDocId segs 1 1 = Some (-1).
Proof.
  destruct (VersionRuns.make one_run 72 1 3) as [v| |] eqn:E; [|by vm_compute in E..].
  set (p := SegmentMerger.Reader v 3).
  assert (opened p) as Hop.
  { exists one_run, 72, 1. split; [apply (bool_decide_unpack _); by vm_compute|]. split; [by vm_compute|]. split; [lia|].
    split; [unfold is_u; lia|]. split; [unfold is_s; simpl; lia|exact E]. }
  destruct (merge_keeps_versions [1] [2] [p; p] [None; Some (LiveDocs.MkLiveDocs (FixedBitSet.Fixed [5] 3) 2)])
    as (segs & count & loc & ext & w & Em & _ & Hl & Hd).
  - exact eq_refl.
  - apply List.Forall_cons; [split; [exact Hop|exact I]|]. apply List.Forall_cons; [split; [exact Hop|]|apply List.Forall_nil].
    split; [exact five_wf|split; exact eq_refl].
  - by vm_compute.
  - apply (bool_decide_unpack _). by vm_compute.
  - apply (bool_decide_unpack _). by vm_compute.
  - by vm_compute.
  - exists p, segs, count, loc, ext. split; [exact eq_refl|]. split; [exact Em|]. split.
    + apply (Hl 4 1 2). exact eq_refl.
    + apply (Hd 1 1 p (Some (LiveDocs.MkLiveDocs (FixedBitSet.Fixed [5] 3) 2))); [exact eq_refl|exact eq_refl|simpl; lia|].
      apply (bool_decide_unpack _). by vm_compute.
Defined.
