(* ===== verification/MemPool.v ===== *)
(** The memory pool of [luxir/util/MemPool.h] and [MemPool.cpp], as it is built without
    [MEMPOOL_MALLOC].  A pool is a row of buffers that double in size up to 4 MiB; an
    address is a buffer and an offset in it, packed into 32 bits.  Buffers are lists of
    bytes; a pointer into the pool is the pair of the index of its buffer and the offset.
    The overwriting of released memory in builds with assertions is not modelled.

    [upstream] is the memory resource behind the pool: the bytes of the [n]-th buffer, of the size asked for,
    are arbitrary.  [base n size] is the address where such a buffer begins; the functions that align and the save points use it. *)

From S2P Require Import Prelude.

Module MemPool.

Definition STATIC_BUFFER_SIZE : Z := 256.
Definition BYTE_BLOCK_SHIFT : Z := 22.
Definition BYTE_BLOCK_SIZE : Z := Z.shiftl 1 BYTE_BLOCK_SHIFT.
Definition BYTE_BLOCK_MASK : Z := BYTE_BLOCK_SIZE - 1.
Definition MAX_BUFFERS : Z := Z.shiftl 1 (32 - BYTE_BLOCK_SHIFT).
Definition HEADER_SIZE : Z := 4.

(** [buffer] is the buffer at [bufferIdx]. *)
Record pool := Pool { buffers : list (list Z); bufferIdx : Z; pos : Z; allocSize : Z }.

Definition buffer (p : pool) : option (list Z) := (buffers p).[bufferIdx p].

Definition bufferSize (buf : list Z) : option Z := load 4 buf 0.

(** The size is stored in the first bytes of a buffer. *)
Definition header (buf : list Z) (size : Z) : list Z := store_le 4 size ++ drop 4 buf.

Definition initNewBuffer (newBuffer : list Z) (size : Z) (p : pool) : option pool :=
  if decide (bufferIdx p + 1 = zlen (buffers p)) then
    Some (Pool (buffers p ++ [header newBuffer size]) (bufferIdx p + 1) HEADER_SIZE (allocSize p + size))
  else None.

(** The buffer and the offset of an address, and the address of the next allocation. *)
Definition ptr (bbAddr : Z) : Z * Z := (Z.shiftr bbAddr BYTE_BLOCK_SHIFT, Z.land bbAddr BYTE_BLOCK_MASK).

Definition bbAddress (p : pool) : Z :=
  Z.lor (u32 (Z.shiftl (u32 (bufferIdx p)) BYTE_BLOCK_SHIFT)) (u32 (pos p)).

Definition size (p : pool) : option Z := b ← buffer p; n ← bufferSize b; Some (allocSize p - n + pos p).

Definition spaceLeft (p : pool) : option Z := b ← buffer p; n ← bufferSize b; Some (u32 (n - pos p)).

Definition set_pos (n : Z) (p : pool) : pool := Pool (buffers p) (bufferIdx p) n (allocSize p).

Definition bit_ceil (n : Z) : Z := 2 ^ Z.log2_up n.

Section upstream.
Context (upstream : Z -> Z -> list Z).

Definition make : option pool :=
  initNewBuffer (upstream 0 STATIC_BUFFER_SIZE) STATIC_BUFFER_SIZE (Pool [] (-1) 0 0).

Definition nextBuffer (sz : Z) (p : pool) : outcome pool :=
  cur ← lift (buffer p);
  currSize ← lift (bufferSize cur);
  let nextSize := Z.min (u32 (currSize * 2)) BYTE_BLOCK_SIZE in
  let nextSize := if decide (sz + HEADER_SIZE > nextSize) then u32 (bit_ceil (sz + HEADER_SIZE)) else nextSize in
  if decide (u32 (u32 (bufferIdx p) + 1) < zlen (buffers p)) then
    nextBuffer ← lift ((buffers p).[bufferIdx p + 1]);
    blockSize ← lift (bufferSize nextBuffer);
    bs ← lift (if decide (sz + HEADER_SIZE > blockSize)
               then zset (buffers p) (bufferIdx p + 1) (header (upstream (bufferIdx p + 1) nextSize) nextSize)
               else Some (buffers p));
    b ← lift (bs.[bufferIdx p + 1]);
    n ← lift (bufferSize b);
    Ret (Pool bs (bufferIdx p + 1) HEADER_SIZE (allocSize p + n))
  else if decide (zlen (buffers p) >= MAX_BUFFERS) then Throw "MemPool exceeded its 4GiB addressability limit"
  else lift (initNewBuffer (upstream (zlen (buffers p)) nextSize) nextSize p).

(** The end of the reserved bytes. *)
Definition reserveBBP (size : Z) (p : pool) : outcome (Z * pool) :=
  if decide (size <= BYTE_BLOCK_SIZE - HEADER_SIZE) then
    b ← lift (buffer p);
    n ← lift (bufferSize b);
    let newEnd := u32 (pos p + size) in
    if decide (newEnd > n) then p ← nextBuffer size p; Ret (u32 (size + HEADER_SIZE), p) else Ret (newEnd, p)
  else Undef.

Definition allocateBBP (size : Z) (p : pool) : outcome (Z * pool) :=
  '(newEnd, p) ← reserveBBP size p;
  Ret (bbAddress p, set_pos newEnd p).

Definition allocateAddrs (size : Z) (p : pool) : outcome (Z * Z * Z * pool) :=
  '(newEnd, p) ← reserveBBP size p;
  Ret (bufferIdx p, pos p, bbAddress p, set_pos newEnd p).

Definition backupAlloc (sz : Z) (p : pool) : outcome (Z * Z * pool) :=
  p ← nextBuffer sz p;
  Ret (bufferIdx p, pos p, set_pos (pos p + sz) p).

Definition alloc (size : Z) (p : pool) : outcome (Z * Z * pool) :=
  b ← lift (buffer p);
  n ← lift (bufferSize b);
  let newPos := pos p + size in
  if decide (newPos <= n) then Ret (bufferIdx p, pos p, set_pos newPos p) else backupAlloc size p.

(** Room for [size] bytes at the current position, which does not move. *)
Definition reserve (size : Z) (p : pool) : outcome (Z * Z * pool) :=
  if decide (size <= BYTE_BLOCK_SIZE - HEADER_SIZE) then
    left ← lift (spaceLeft p);
    if decide (left >= size) then Ret (bufferIdx p, pos p, p)
    else
      '(_, _, p) ← backupAlloc size p;
      let p := set_pos (pos p - size) p in
      if decide (pos p = HEADER_SIZE) then Ret (bufferIdx p, pos p, p) else Undef
  else Undef.

(** ** Aligned allocation *)

Context (base : Z -> Z -> Z).

Definition align (alignment : Z) (p : pool) : option pool :=
  b ← buffer p;
  let start := base (bufferIdx p) (zlen b) in
  Some (set_pos (Z.land (u64 (start + pos p + alignment - 1)) (unot 64 (alignment - 1)) - start) p).

Definition backupAlignedAlloc (sz alignment : Z) (p : pool) : outcome (Z * Z * pool) :=
  p ← nextBuffer (sz + alignment - 1) p;
  p ← lift (align alignment p);
  Ret (bufferIdx p, pos p, set_pos (pos p + sz) p).

Definition alignedAlloc (size alignment : Z) (p : pool) : outcome (Z * Z * pool) :=
  p ← lift (align alignment p);
  b ← lift (buffer p);
  n ← lift (bufferSize b);
  let newPos := pos p + size in
  if decide (newPos <= n) then Ret (bufferIdx p, pos p, set_pos newPos p) else backupAlignedAlloc size alignment p.

(** The address is aligned before the bytes are reserved. *)
Definition allocateTypeAligned (size : Z) (p : pool) : outcome (Z * pool) :=
  p ← lift (align 8 p);
  '(newEnd, p) ← reserveBBP size p;
  Ret (bbAddress p, set_pos newEnd p).

End upstream.

(** The last [n] bytes are given back. *)
Definition shrink (n : Z) (p : pool) : option pool := if decide (pos p - n >= HEADER_SIZE) then Some (set_pos (pos p - n) p) else None.

(** ** Save points

    A save point is a raw pointer, compared with the addresses of the buffers. *)

Section addresses.
Context (base : Z -> Z -> Z).

(** The address of a buffer. *)
Definition address (bs : list (list Z)) (i : Z) : option Z := b ← bs.[i]; Some (base i (zlen b)).

Definition getSavePoint (p : pool) : option Z := buf ← address (buffers p) (bufferIdx p); Some (buf + pos p).

(** [savePoint >= buf + HEADER_SIZE && savePoint <= buf + bufferSize(buf)]. *)
Definition holds (savePoint : Z) (p : pool) (i : Z) : option bool :=
  b ← (buffers p).[i];
  buf ← address (buffers p) i;
  n ← bufferSize b;
  Some (bool_decide (savePoint >= buf + HEADER_SIZE /\ savePoint <= buf + n)).

(** The search for the buffer, downwards from index [i]. *)
Fixpoint findBuffer (fuel : nat) (savePoint : Z) (p : pool) (i : Z) : option Z :=
  if decide (i >= 0) then
    match fuel with
    | O => None
    | S fuel => h ← holds savePoint p i; if (h : bool) then Some i else findBuffer fuel savePoint p (i - 1)
    end
  else None.

Definition sizeAt (bs : list (list Z)) (i : Z) : option Z := b ← bs.[i]; bufferSize b.

(** Buffers past [targetLen] are given back, from the last one on. *)
Fixpoint dropBuffers (fuel : nat) (targetLen bufferIdx : Z) (bs : list (list Z)) (allocSize : Z) : option (list (list Z) * Z) :=
  if decide (zlen bs > targetLen) then
    match fuel with
    | O => None
    | S fuel =>
        let idx := zlen bs - 1 in
        n ← sizeAt bs idx;
        dropBuffers fuel targetLen bufferIdx (take (Z.to_nat idx) bs) (if decide (idx <= bufferIdx) then allocSize - n else allocSize)
    end
  else Some (bs, allocSize).

Definition _rewind (savePoint : Z) (buffersToSave : Z) (p : pool) : option pool :=
  i ← findBuffer (Z.to_nat (bufferIdx p)) savePoint p (bufferIdx p - 1);
  let targetLen := u32 (i + buffersToSave + 1) in
  '(bs, total) ← dropBuffers (length (buffers p)) targetLen (bufferIdx p) (buffers p) (allocSize p);
  total ← foldM (fun total j => if decide (j < zlen bs) then n ← sizeAt bs j; Some (total - n) else Some total)
            total (seqZ (i + 1) (bufferIdx p - (i + 1)));
  total ← (if decide (bufferIdx p < zlen bs /\ bufferIdx p <> i) then n ← sizeAt bs (bufferIdx p); Some (total - n) else Some total);
  buf ← address bs i;
  Some (Pool bs i (savePoint - buf) total).

Definition rewind (savePoint : Z) (buffersToSave : Z) (p : pool) : option pool :=
  here ← holds savePoint p (bufferIdx p);
  if (here : bool) then buf ← address (buffers p) (bufferIdx p); Some (set_pos (savePoint - buf) p) else _rewind savePoint buffersToSave p.

End addresses.

End MemPool.

(** * Allocation *)

Section theory.
Import MemPool.
Context (upstream : Z -> Z -> list Z).

(** The resource returns as many bytes as it is asked for. *)
Definition resource : Prop := forall n size, 0 <= size -> zlen (upstream n size) = size /\ is_bytes (upstream n size).

Definition block_ok (b : list Z) : Prop :=
  is_bytes b /\ bufferSize b = Some (zlen b) /\ STATIC_BUFFER_SIZE <= zlen b <= BYTE_BLOCK_SIZE.

(** The size that the [k]-th buffer has at least. *)
Definition block_min (k : Z) : Z := Z.min (2 ^ (8 + k)) BYTE_BLOCK_SIZE.

Record pool_ok (p : pool) : Prop := {
  po_idx : 0 <= bufferIdx p < zlen (buffers p);
  po_count : zlen (buffers p) <= MAX_BUFFERS;
  po_blocks : Forall block_ok (buffers p);
  po_grown : forall k b, (buffers p).[k] = Some b -> block_min k <= zlen b;
  po_pos : exists b, buffer p = Some b /\ HEADER_SIZE <= pos p <= zlen b;
  po_alloc : allocSize p = zlen (mjoin (take (Z.to_nat (bufferIdx p + 1)) (buffers p))) }.

(** The bytes allocated before are not touched: those of the buffers before the current one, and of it. *)
Definition keeps (p p' : pool) : Prop :=
  bufferIdx p <= bufferIdx p' /\ forall k, 0 <= k <= bufferIdx p -> (buffers p').[k] = (buffers p).[k].

(** [size] fresh bytes at [off] of the current buffer of [p']. *)
Record fresh_bytes (p p' : pool) (off size : Z) : Prop := {
  fb_ok : pool_ok p';
  fb_size : 0 <= size;
  fb_keeps : keeps p p';
  fb_end : pos p' = off + size;
  fb_where : bufferIdx p' = bufferIdx p /\ off = pos p \/
    bufferIdx p' = bufferIdx p + 1 /\ off = HEADER_SIZE /\ forall b, buffer p = Some b -> zlen b < pos p + size }.

Lemma keeps_refl p : keeps p p.
Proof. split; [lia|done]. Qed.

Lemma block_at p k b : pool_ok p -> (buffers p).[k] = Some b -> block_ok b.
Proof. intros Hp Hb. pose proof (po_blocks _ Hp) as H. rewrite Forall_forall in H. by eapply H, zget_elem_1. Qed.

Lemma header_size b n : is_u 32 n -> bufferSize (header b n) = Some n.
Proof.
  intros Hn. unfold bufferSize, header. change (store_le 4 n ++ drop 4 b) with ([] ++ store_le 4 n ++ drop 4 b).
  change 0 with (zlen (@nil Z)). rewrite load_store by lia. by rewrite uwrap_id.
Qed.

Lemma header_block b n : zlen b = n -> is_bytes b -> STATIC_BUFFER_SIZE <= n <= BYTE_BLOCK_SIZE -> block_ok (header b n).
Proof.
  intros Hz Hb Hn. change STATIC_BUFFER_SIZE with 256 in Hn. change BYTE_BLOCK_SIZE with 4194304 in Hn.
  assert (zlen (header b n) = n) as Hl.
  { unfold header. rewrite zlen_app, zlen_store_le by lia. unfold zlen in *. rewrite length_drop. lia. }
  split; [|split; [rewrite Hl; apply header_size; unfold is_u; lia|rewrite Hl; done]].
  apply Forall_app. split; [by apply is_bytes_store_le|by apply Forall_drop].
Qed.

Lemma join_snoc_len (bs : list (list Z)) b : zlen (mjoin (bs ++ [b])) = zlen (mjoin bs) + zlen b.
Proof. rewrite join_app, zlen_app. f_equal. change (mjoin [b]) with (b ++ []). by rewrite app_nil_r. Qed.

Lemma take_next {A} (l : list A) k x : l.[k] = Some x -> take (Z.to_nat (k + 1)) l = take (Z.to_nat k) l ++ [x].
Proof.
  intros Hk. pose proof (zget_Some_range _ _ _ Hk). unfold zget in Hk. case_decide; [|done].
  replace (Z.to_nat (k + 1)) with (S (Z.to_nat k)) by lia. by apply take_S_r.
Qed.

(** ** The next buffer *)

(** The size of the next buffer: doubled, or rounded up to what is asked for. *)
Definition next_size (sz n : Z) : Z :=
  if decide (sz + HEADER_SIZE > Z.min (u32 (n * 2)) BYTE_BLOCK_SIZE) then u32 (bit_ceil (sz + HEADER_SIZE)) else Z.min (u32 (n * 2)) BYTE_BLOCK_SIZE.

Lemma next_size_ok sz n : 0 <= sz <= BYTE_BLOCK_SIZE - HEADER_SIZE -> STATIC_BUFFER_SIZE <= n <= BYTE_BLOCK_SIZE ->
  sz + HEADER_SIZE <= next_size sz n /\ STATIC_BUFFER_SIZE <= next_size sz n <= BYTE_BLOCK_SIZE /\ Z.min (n * 2) BYTE_BLOCK_SIZE <= next_size sz n.
Proof.
  change STATIC_BUFFER_SIZE with 256. change BYTE_BLOCK_SIZE with (2 ^ 22). change HEADER_SIZE with 4. intros Hsz Hn. unfold next_size.
  change BYTE_BLOCK_SIZE with (2 ^ 22). change HEADER_SIZE with 4. rewrite uwrap_id by (unfold is_u; lia). case_decide as Hc; [|lia].
  unfold bit_ceil. pose proof (Z.log2_up_spec (sz + 4) ltac:(lia)) as [Hlo Hhi].
  assert (Z.log2_up (sz + 4) <= 22) as Hl by (apply Z.log2_up_le_pow2; lia). pose proof (Z.log2_up_nonneg (sz + 4)).
  assert (2 ^ Z.log2_up (sz + 4) <= 2 ^ 22) by (apply Z.pow_le_mono_r; lia). rewrite uwrap_id by (unfold is_u; lia). lia.
Qed.

Lemma block_min_next k n : 0 <= k -> block_min k <= n -> block_min (k + 1) <= Z.min (n * 2) BYTE_BLOCK_SIZE.
Proof.
  unfold block_min. intros Hk Hn. replace (8 + (k + 1)) with (Z.succ (8 + k)) by lia. rewrite Z.pow_succ_r by lia. change BYTE_BLOCK_SIZE with (2 ^ 22) in *. lia.
Qed.

(** The last buffer is in use. *)
Definition pool_full (p : pool) : Prop := bufferIdx p + 1 = MAX_BUFFERS.

(** Its rest is too small for [size] bytes. *)
Definition exhausted (size : Z) (p : pool) : Prop := pool_full p /\ forall b, buffer p = Some b -> zlen b < pos p + size.

Section next.
Context (Hup : resource) (p : pool) (Hp : pool_ok p).

Lemma prefix_take {A} (l l' : list A) n : 0 <= n <= zlen l -> n <= zlen l' -> (forall k, 0 <= k < n -> l'.[k] = l.[k]) ->
  take (Z.to_nat n) l' = take (Z.to_nat n) l.
Proof.
  intros Hn Hn' H. apply list_eq. intros i. destruct (decide (i < Z.to_nat n)%nat).
  - rewrite !lookup_take_lt by lia. specialize (H (Z.of_nat i) ltac:(lia)). unfold zget in H. rewrite !decide_True in H by lia. by rewrite Nat2Z.id in H.
  - by rewrite !lookup_take_ge by lia.
Qed.

(** The pool moved on to its next buffer, of which the pool has now [bs]. *)
Record next_buffers (bs : list (list Z)) (b : list Z) : Prop := {
  nb_count : zlen bs <= MAX_BUFFERS;
  nb_blocks : Forall block_ok bs;
  nb_grown : forall k b, (bs).[k] = Some b -> block_min k <= zlen b;
  nb_next : bs.[bufferIdx p + 1] = Some b;
  nb_same : forall k, 0 <= k <= bufferIdx p -> bs.[k] = (buffers p).[k] }.

Lemma next_pool bs b : next_buffers bs b ->
  let p' := Pool bs (bufferIdx p + 1) HEADER_SIZE (allocSize p + zlen b) in
  pool_ok p' /\ keeps p p' /\ bufferIdx p' = bufferIdx p + 1 /\ pos p' = HEADER_SIZE /\ buffer p' = Some b.
Proof.
  intros [Hcount Hblocks Hgrown Hb Hsame] p'. pose proof (po_idx _ Hp) as Hidx. pose proof (zget_Some_range _ _ _ Hb) as Hr.
  assert (block_ok b) as (_ & _ & Hsz) by (rewrite Forall_forall in Hblocks; by eapply Hblocks, zget_elem_1).
  change STATIC_BUFFER_SIZE with 256 in Hsz. split; [|by repeat split; [simpl; lia|..]].
  constructor; cbn [p' buffers bufferIdx pos allocSize].
  - lia.
  - done.
  - done.
  - done.
  - exists b. split; [exact Hb|]. change HEADER_SIZE with 4. lia.
  - rewrite (take_next _ _ _ Hb), join_snoc_len, (po_alloc _ Hp). do 3 f_equal. symmetry. apply prefix_take; [lia|lia|].
    intros k Hk. apply Hsame. lia.
Qed.

(** The buffer that [upstream] gives for the next one. *)
Section new.
Context (cur : list Z) (sz n : Z) (Hcur : buffer p = Some cur) (Hsz : 0 <= sz <= BYTE_BLOCK_SIZE - HEADER_SIZE).

Lemma new_block : let ns := next_size sz (zlen cur) in let b := header (upstream n ns) ns in
  block_ok b /\ zlen b = ns /\ sz + HEADER_SIZE <= zlen b /\ block_min (bufferIdx p + 1) <= zlen b.
Proof.
  intros ns b. destruct (block_at p _ cur Hp Hcur) as (_ & _ & Hc). destruct (next_size_ok sz (zlen cur) Hsz Hc) as (H1 & H2 & H3). fold ns in H1, H2, H3.
  pose proof (block_min_next (bufferIdx p) (zlen cur) ltac:(pose proof (po_idx _ Hp); lia) (po_grown _ Hp _ _ Hcur)).
  assert (0 <= ns) as Hns by (change STATIC_BUFFER_SIZE with 256 in H2; lia). destruct (Hup n ns Hns) as [Hu1 Hu2].
  pose proof (header_block _ ns Hu1 Hu2 H2) as Hb. fold b in Hb. pose proof Hb as (_ & Eb & _).
  unfold b in Eb. rewrite header_size in Eb by (unfold is_u; change BYTE_BLOCK_SIZE with (2 ^ 22) in H2; lia). fold b in Eb. injection Eb as Eb.
  rewrite <- Eb. split; [done|]. split; [done|]. lia.
Qed.

End new.

(** A buffer left by a rewind is used again, unless it is too small. *)
Lemma reuse_block cur nb sz : buffer p = Some cur -> 0 <= sz <= BYTE_BLOCK_SIZE - HEADER_SIZE -> (buffers p).[bufferIdx p + 1] = Some nb ->
  exists bs b, (if decide (sz + HEADER_SIZE > zlen nb)
      then zset (buffers p) (bufferIdx p + 1) (header (upstream (bufferIdx p + 1) (next_size sz (zlen cur))) (next_size sz (zlen cur)))
      else Some (buffers p)) = Some bs /\ next_buffers bs b /\ sz + HEADER_SIZE <= zlen b.
Proof.
  intros Hcur Hsz Enb. pose proof (zget_Some_range _ _ _ Enb). pose proof (po_idx _ Hp). case_decide as Hc.
  - destruct (new_block cur sz (bufferIdx p + 1) Hcur Hsz) as (H1 & H2 & H3 & H4). set (b := header _ _) in *.
    rewrite zset_in by lia. eexists _, b. split; [done|]. split; [|done]. constructor.
    + rewrite zlen_insert. apply Hp.
    + apply Forall_insert; [apply Hp|done].
    + intros k c. rewrite zget_insert by lia. case_decide; [intros [= <-]; by subst k|apply Hp].
    + rewrite zget_insert by lia. by rewrite decide_True.
    + intros k Hk. rewrite zget_insert by lia. by rewrite decide_False by lia.
  - exists (buffers p), nb. split; [done|]. split; [|lia]. constructor; [apply Hp..|done|done].
Qed.

Lemma append_block cur sz : buffer p = Some cur -> 0 <= sz <= BYTE_BLOCK_SIZE - HEADER_SIZE -> bufferIdx p + 1 = zlen (buffers p) ->
  zlen (buffers p) < MAX_BUFFERS -> exists b, zlen b = next_size sz (zlen cur) /\ b = header (upstream (zlen (buffers p)) (next_size sz (zlen cur))) (next_size sz (zlen cur)) /\
    next_buffers (buffers p ++ [b]) b /\ sz + HEADER_SIZE <= zlen b.
Proof.
  intros Hcur Hsz Hi Hmax. destruct (new_block cur sz (zlen (buffers p)) Hcur Hsz) as (H1 & H2 & H3 & H4). eexists. split; [exact H2|]. split; [done|]. split; [|exact H3].
  set (b := header _ _) in *. constructor.
  - rewrite zlen_app. change (zlen [b]) with 1. lia.
  - apply Forall_app. split; [apply Hp|]. by apply List.Forall_cons.
  - intros k c [Hk|[-> ->]]%zget_snoc_inv; [by apply Hp|]. by rewrite <- Hi.
  - rewrite Hi. apply zget_snoc.
  - intros k Hk. by rewrite zget_app_l by lia.
Qed.

Lemma nextBuffer_spec sz : 0 <= sz <= BYTE_BLOCK_SIZE - HEADER_SIZE ->
  (pool_full p /\ nextBuffer upstream sz p = Throw "MemPool exceeded its 4GiB addressability limit") \/
  exists p' b, nextBuffer upstream sz p = Ret p' /\ pool_ok p' /\ keeps p p' /\ bufferIdx p' = bufferIdx p + 1 /\
    pos p' = HEADER_SIZE /\ buffer p' = Some b /\ sz + HEADER_SIZE <= zlen b.
Proof.
  intros Hsz. pose proof (po_idx _ Hp) as Hidx. pose proof (po_count _ Hp) as Hcount. change MAX_BUFFERS with 1024 in *.
  destruct (po_pos _ Hp) as (cur & Ecur & _). destruct (block_at p _ cur Hp Ecur) as (_ & Esz & _).
  unfold nextBuffer. rewrite Ecur. cbn [lift mbind outcome_bind]. rewrite Esz. cbn [lift mbind outcome_bind]. fold (next_size sz (zlen cur)).
  rewrite (uwrap_id 32 (bufferIdx p)), uwrap_id by (unfold is_u; lia). case_decide as Hlt; [|case_decide as Hmax].
  - right. destruct (zget_in (buffers p) (bufferIdx p + 1)) as [nb Enb]; [lia|]. rewrite Enb. cbn [lift mbind outcome_bind].
    destruct (block_at p _ nb Hp Enb) as (_ & Ensz & _). rewrite Ensz. cbn [lift mbind outcome_bind].
    destruct (reuse_block cur nb sz Ecur Hsz Enb) as (bs & b & Ebs & Hbs & Hb). rewrite Ebs. cbn [lift mbind outcome_bind].
    rewrite (nb_next _ _ Hbs). cbn [lift mbind outcome_bind]. assert (block_ok b) as (_ & Ebz & _).
    { pose proof (nb_blocks _ _ Hbs) as H. rewrite Forall_forall in H. eapply H, zget_elem_1, (nb_next _ _ Hbs). }
    rewrite Ebz. cbn [lift mbind outcome_bind]. destruct (next_pool bs b Hbs) as (H1 & H2 & H3 & H4 & H5).
    eexists _, b. split; [done|]. split; [exact H1|]. done.
  - left. split; [unfold pool_full; change MAX_BUFFERS with 1024 in *; lia|done].
  - right. change MAX_BUFFERS with 1024 in Hmax. destruct (append_block cur sz Ecur Hsz) as (b & Ez & Eb & Hbs & Hb); [lia|change MAX_BUFFERS with 1024; lia|].
    unfold initNewBuffer. rewrite decide_True by lia. cbn [lift]. rewrite <- Eb, <- Ez.
    destruct (next_pool _ b Hbs) as (H1 & H2 & H3 & H4 & H5). eexists _, b. split; [done|]. split; [exact H1|]. done.
Qed.

(** The pool is where it was, or on its next buffer because [size] bytes do not fit. *)
Definition moved (size : Z) (p' : pool) : Prop :=
  p' = p \/ bufferIdx p' = bufferIdx p + 1 /\ pos p' = HEADER_SIZE /\ forall b, buffer p = Some b -> zlen b < pos p + size.

Lemma reserveBBP_spec size : 0 <= size <= BYTE_BLOCK_SIZE - HEADER_SIZE ->
  (exhausted size p /\ reserveBBP upstream size p = Throw "MemPool exceeded its 4GiB addressability limit") \/
  exists p' b, reserveBBP upstream size p = Ret (pos p' + size, p') /\ pool_ok p' /\ keeps p p' /\ buffer p' = Some b /\
    pos p' + size <= zlen b /\ moved size p'.
Proof.
  intros Hsz. destruct (po_pos _ Hp) as (b & Eb & Hpos). destruct (block_at p _ b Hp Eb) as (_ & Esz & Hbz).
  change BYTE_BLOCK_SIZE with (2 ^ 22) in *. change HEADER_SIZE with 4 in *.
  unfold reserveBBP. change (BYTE_BLOCK_SIZE - HEADER_SIZE) with (2 ^ 22 - 4). rewrite decide_True by lia. rewrite Eb. cbn [lift mbind outcome_bind].
  rewrite Esz. cbn [lift mbind outcome_bind]. rewrite uwrap_id by (unfold is_u; lia). case_decide as Hend.
  - destruct (nextBuffer_spec size Hsz) as [[Hf ->]|(p' & b' & -> & Hp' & Hk & Hi & Hq & Eb' & Hz)].
    { left. split; [|done]. split; [done|]. intros c. rewrite Eb. intros [= <-]. lia. } right.
    cbn [mbind outcome_bind]. change HEADER_SIZE with 4 in *. rewrite uwrap_id by (unfold is_u; lia). exists p', b'.
    split; [do 2 f_equal; lia|]. split; [done|]. split; [done|]. split; [done|]. split; [lia|]. right. split; [done|]. split; [done|]. intros c. rewrite Eb. intros [= <-]. lia.
  - right. exists p, b. split; [done|]. split; [done|]. split; [by split|]. split; [done|]. split; [lia|by left].
Qed.

Lemma set_pos_ok p' b n : pool_ok p' -> buffer p' = Some b -> pos p' <= n <= zlen b -> pool_ok (set_pos n p').
Proof.
  intros [H1 H2 H3 H0 (b' & Eb & H4) H5] Hb Hn. rewrite Hb in Eb. injection Eb as <-. constructor; [done..| |done]. exists b. split; [done|]. simpl. lia.
Qed.

(** The bytes reserved, once the position is past them. *)
Lemma reserved_fresh size p' b : pool_ok p' -> keeps p p' -> buffer p' = Some b -> 0 <= size -> pos p' + size <= zlen b ->
  moved size p' -> fresh_bytes p (set_pos (pos p' + size) p') (pos p') size.
Proof.
  intros Hp' Hk Eb Hs Hz Hw. constructor; [apply (set_pos_ok p' b); (done || lia)|done|done|done|]. simpl.
  destruct Hw as [->|(-> & -> & Hw)]; [by left|by right].
Qed.

Lemma address_ptr p' : 0 <= bufferIdx p' < MAX_BUFFERS -> 0 <= pos p' < BYTE_BLOCK_SIZE ->
  is_u 32 (bbAddress p') /\ ptr (bbAddress p') = (bufferIdx p', pos p').
Proof.
  change MAX_BUFFERS with 1024. change BYTE_BLOCK_SIZE with (2 ^ 22). intros Hi Hq.
  unfold bbAddress, ptr, BYTE_BLOCK_SHIFT. rewrite (uwrap_id 32 (bufferIdx p')), (uwrap_id 32 (pos p')) by (unfold is_u; lia).
  rewrite (uwrap_id 32) by (rewrite Z.shiftl_mul_pow2 by lia; unfold is_u; lia). rewrite Z.lor_comm, lor_shiftl_add by (unfold is_u; lia).
  unfold is_u. split; [lia|]. change BYTE_BLOCK_MASK with (Z.ones 22). rewrite Z.land_ones, Z.shiftr_div_pow2 by lia. f_equal.
  - symmetry. apply (Z.div_unique_pos _ _ _ (pos p')); lia.
  - symmetry. apply (Z.mod_unique_pos _ _ (bufferIdx p')); lia.
Qed.

Lemma allocateAddrs_spec size : 0 < size <= BYTE_BLOCK_SIZE - HEADER_SIZE ->
  (exhausted size p /\ allocateAddrs upstream size p = Throw "MemPool exceeded its 4GiB addressability limit") \/
  exists a off p', allocateAddrs upstream size p = Ret (bufferIdx p', off, a, p') /\ is_u 32 a /\ ptr a = (bufferIdx p', off) /\ fresh_bytes p p' off size.
Proof.
  intros Hs. unfold allocateAddrs. destruct (reserveBBP_spec size) as [[Hf ->]|(p' & b & -> & Hp' & Hk & Eb & Hz & Hw)]; [lia|by left|right].
  cbn [mbind outcome_bind]. destruct (po_pos _ Hp') as (b' & Eb' & Hpos). rewrite Eb in Eb'. injection Eb' as <-.
  destruct (block_at p' _ b Hp' Eb) as (_ & _ & Hbz). pose proof (po_idx _ Hp'). pose proof (po_count _ Hp'). change HEADER_SIZE with 4 in *.
  destruct (address_ptr p') as [Ha1 Ha2]; [lia|lia|]. eexists _, (pos p'), (set_pos (pos p' + size) p'). split; [done|]. split; [done|]. split; [done|].
  by apply (reserved_fresh size p' b); [..|lia|lia|].
Qed.

Lemma allocateBBP_spec size : 0 < size <= BYTE_BLOCK_SIZE - HEADER_SIZE ->
  (exhausted size p /\ allocateBBP upstream size p = Throw "MemPool exceeded its 4GiB addressability limit") \/
  exists a off p', allocateBBP upstream size p = Ret (a, p') /\ is_u 32 a /\ ptr a = (bufferIdx p', off) /\ fresh_bytes p p' off size.
Proof.
  intros Hs. assert (allocateBBP upstream size p = '(_, _, a, p') ← allocateAddrs upstream size p; Ret (a, p')) as ->.
  { unfold allocateBBP, allocateAddrs. by destruct (reserveBBP upstream size p) as [[]| |]. }
  destruct (allocateAddrs_spec size Hs) as [[Hx ->]|(a & off & p' & -> & Hr)]; [by left|right]. by exists a, off, p'.
Qed.

Lemma alloc_spec size : 0 <= size <= BYTE_BLOCK_SIZE - HEADER_SIZE ->
  (exhausted size p /\ alloc upstream size p = Throw "MemPool exceeded its 4GiB addressability limit") \/
  exists off p', alloc upstream size p = Ret (bufferIdx p', off, p') /\ fresh_bytes p p' off size.
Proof.
  intros Hs. destruct (po_pos _ Hp) as (b & Eb & Hpos). destruct (block_at p _ b Hp Eb) as (_ & Esz & Hbz).
  unfold alloc. rewrite Eb. cbn [lift mbind outcome_bind]. rewrite Esz. cbn [lift mbind outcome_bind]. case_decide as Hend.
  - right. exists (pos p), (set_pos (pos p + size) p). split; [done|]. apply (reserved_fresh size p b); [done|apply keeps_refl|done|lia|lia|by left].
  - unfold backupAlloc. destruct (nextBuffer_spec size Hs) as [[Hf ->]|(p' & b' & -> & Hp' & Hk & Hi & Hq & Eb' & Hz)].
    { left. split; [|done]. split; [done|]. intros c. rewrite Eb. intros [= <-]. lia. } right.
    cbn [mbind outcome_bind]. exists (pos p'), (set_pos (pos p' + size) p'). split; [done|]. apply (reserved_fresh size p' b'); [done|done|done|lia|lia|].
    right. split; [done|]. split; [done|]. intros c. rewrite Eb. intros [= <-]. lia.
Qed.

End next.

(** ** The bytes of the pool *)

(** A region: its buffer, its offset and its length. *)
Definition region : Type := Z * Z * Z.

Definition disjoint (r r' : region) : Prop :=
  let '(i, o, n) := r in let '(j, q, m) := r' in i <> j \/ o + n <= q \/ q + m <= o.

Lemma disjoint_sym r r' : disjoint r r' -> disjoint r' r.
Proof. destruct r as [[i o] n], r' as [[j q] m]. unfold disjoint. lia. Qed.

(** Regions that were allocated. *)
Definition inside (p : pool) (r : region) : Prop :=
  let '(i, o, n) := r in
  0 <= n /\ HEADER_SIZE <= o /\ 0 <= i /\ (i < bufferIdx p \/ i = bufferIdx p /\ o + n <= pos p) /\
  exists b, (buffers p).[i] = Some b /\ o + n <= zlen b.

Section fresh.
Context (p p' : pool) (off size : Z) (Hp : pool_ok p) (Hf : fresh_bytes p p' off size).

Lemma inside_grow r : inside p r -> inside p' r.
Proof.
  destruct r as [[i o] n], Hf as [Hp' Hs [Hle Hk] He Hw]. intros (Hn & Ho & Hi & Hin & b & Eb & Hz).
  split; [done|]. split; [done|]. split; [done|]. split; [|exists b; split; [rewrite Hk by lia; done|done]].
  destruct Hw as [[E ->]|(E & -> & _)]; lia.
Qed.

Lemma inside_fresh : inside p' (bufferIdx p', off, size).
Proof.
  destruct Hf as [Hp' Hs _ He Hw]. destruct (po_pos _ Hp) as (c & _ & Hpos). destruct (po_pos _ Hp') as (b & Eb & Hpos').
  pose proof (po_idx _ Hp'). split; [done|]. split; [destruct Hw as [[_ ->]|(_ & -> & _)]; lia|]. split; [lia|]. split; [right; lia|].
  exists b. split; [exact Eb|lia].
Qed.

Lemma disjoint_fresh r : inside p r -> disjoint r (bufferIdx p', off, size).
Proof. destruct r as [[i o] n], Hf as [_ _ _ _ Hw]. intros (_ & _ & _ & Hin & _). unfold disjoint. destruct Hw as [[E ->]|[E _]]; lia. Qed.

End fresh.

(** ** How much a pool can still give

    When no more than [SMALL] bytes are asked for at a time, no more than that is lost at the end of a buffer; a larger request can lose as much as it asks for. *)

Definition SMALL : Z := 200.

Definition loss (size : Z) : Z := if decide (size <= SMALL) then size else 2 * size.

Definition spare (k : Z) : Z := block_min k - HEADER_SIZE - SMALL.

Definition room (p : pool) : Z :=
  match buffer p with Some b => zlen b - SMALL - pos p | None => 0 end + foldr Z.add 0 (spare <$> seqZ (bufferIdx p + 1) (MAX_BUFFERS - 1 - bufferIdx p)).

Lemma room_full p : pool_ok p -> pool_full p -> exists b, buffer p = Some b /\ room p = zlen b - SMALL - pos p.
Proof.
  unfold pool_full. intros Hp Hf. destruct (po_pos _ Hp) as (b & Eb & _). exists b. split; [done|]. unfold room. rewrite Eb.
  replace (MAX_BUFFERS - 1 - bufferIdx p) with 0 by lia. rewrite seqZ_nil by lia. simpl. lia.
Qed.

(** [used] bytes after the header of the next buffer, where [reach] did not fit the current one. *)
Lemma room_moved p p' b used reach : pool_ok p -> pool_ok p' -> buffer p = Some b -> bufferIdx p' = bufferIdx p + 1 -> pos p' = HEADER_SIZE + used ->
  zlen b < pos p + reach -> used <= reach -> room p - loss reach <= room p'.
Proof.
  intros Hp Hp' Eb Hi Hq Hw Hu. destruct (po_pos _ Hp') as (b' & Eb' & _). unfold room. rewrite Eb, Eb'.
  pose proof (po_idx _ Hp'). pose proof (po_count _ Hp'). pose proof (po_grown _ Hp' _ _ Eb') as Hg. rewrite Hi in *.
  rewrite (seqZ_cons (bufferIdx p + 1)) by lia. cbn [fmap list_fmap foldr]. unfold spare at 1.
  replace (Z.pred (MAX_BUFFERS - 1 - bufferIdx p)) with (MAX_BUFFERS - 1 - (bufferIdx p + 1)) by lia.
  replace (Z.succ (bufferIdx p + 1)) with (bufferIdx p + 1 + 1) by lia. unfold loss. change SMALL with 200. case_decide; lia.
Qed.

Lemma room_same p p' b reach : buffer p = Some b -> buffer p' = Some b -> bufferIdx p' = bufferIdx p -> pos p' <= pos p + reach -> 0 <= reach -> room p - loss reach <= room p'.
Proof. intros Eb Eb' Hi Hq Hr. unfold room. rewrite Eb, Eb', Hi. unfold loss. destruct (decide (reach <= SMALL)); lia. Qed.

Lemma room_fresh p p' off size : pool_ok p -> fresh_bytes p p' off size -> room p - loss size <= room p'.
Proof.
  intros Hp [Hp' Hs [_ Hk] He Hw]. destruct (po_pos _ Hp) as (b & Eb & _). destruct (po_pos _ Hp') as (b' & Eb' & _). destruct Hw as [[Hi ->]|(Hi & -> & Hw)].
  - apply (room_same p p' b); [done| |done|lia|done]. unfold buffer in *. rewrite Hi, Hk by (pose proof (po_idx _ Hp); lia). done.
  - by apply (room_moved p p' b size); [..|apply Hw|].
Qed.

Lemma room_exhausted p size : pool_ok p -> exhausted size p -> room p < size - SMALL.
Proof. intros Hp [Hf Hx]. destruct (room_full p Hp Hf) as (b & Eb & ->). specialize (Hx b Eb). lia. Qed.

(** With room left, small allocations succeed. *)
Lemma allocateBBP_room p size : resource -> pool_ok p -> 0 < size <= SMALL -> 0 <= room p ->
  exists a off p', allocateBBP upstream size p = Ret (a, p') /\ is_u 32 a /\ ptr a = (bufferIdx p', off) /\ fresh_bytes p p' off size /\ room p - size <= room p'.
Proof.
  intros Hup Hp Hs Hr. destruct (allocateBBP_spec Hup p Hp size) as [[Hx _]|(a & off & p' & E & Ha & Hptr & Hf)].
  - change SMALL with 200 in Hs. change (BYTE_BLOCK_SIZE - HEADER_SIZE) with 4194300. lia.
  - apply room_exhausted in Hx; [lia|done].
  - exists a, off, p'. do 4 (split; [done|]). pose proof (room_fresh _ _ _ _ Hp Hf) as Hl. unfold loss in Hl. by rewrite decide_True in Hl by lia.
Qed.

Lemma alloc_room p size : resource -> pool_ok p -> 0 <= size <= SMALL -> 0 <= room p ->
  exists off p', alloc upstream size p = Ret (bufferIdx p', off, p') /\ fresh_bytes p p' off size /\ room p - size <= room p'.
Proof.
  intros Hup Hp Hs Hr. destruct (alloc_spec Hup p Hp size) as [[Hx _]|(off & p' & E & Hf)].
  - change SMALL with 200 in Hs. change (BYTE_BLOCK_SIZE - HEADER_SIZE) with 4194300. lia.
  - apply room_exhausted in Hx; [lia|done].
  - exists off, p'. do 2 (split; [done|]). pose proof (room_fresh _ _ _ _ Hp Hf) as Hl. unfold loss in Hl. by rewrite decide_True in Hl by lia.
Qed.

(** A new pool. *)
Lemma make_ok : resource -> exists p, make upstream = Some p /\ pool_ok p /\ room p = 4240232192.
Proof.
  intros Hup. destruct (Hup 0 STATIC_BUFFER_SIZE) as [Hl Hb]; [done|]. pose proof (header_block _ _ Hl Hb ltac:(done)) as Hok.
  set (b := header _ _) in Hok. pose proof Hok as (_ & Hsz & _). unfold b in Hsz. rewrite header_size in Hsz by done. fold b in Hsz.
  assert (zlen b = STATIC_BUFFER_SIZE) as Hz by (apply (inj Some); congruence).
  exists (Pool [b] 0 HEADER_SIZE STATIC_BUFFER_SIZE). split; [done|]. clearbody b. split.
  - constructor; cbn [buffers bufferIdx pos allocSize]; [change (zlen [b]) with 1; lia|done|by apply List.Forall_cons| | |].
    + intros k c Hk. destruct (decide (k = 0)) as [->|Hne]; [|by pose proof (zget_Some_range _ _ _ Hk) as H; change (zlen [b]) with 1 in H; lia].
      injection Hk as <-. rewrite Hz. done.
    + exists b. split; [done|]. rewrite Hz. done.
    + change (mjoin (take (Z.to_nat (0 + 1)) [b])) with (b ++ []). rewrite app_nil_r, Hz. done.
  - unfold room, buffer. cbn [buffers bufferIdx pos]. change ([b].[0]) with (Some b). cbv iota. rewrite Hz. vm_compute. done.
Qed.

(** ** Reading and writing *)

Definition read (p : pool) (loc : Z * Z) (n : Z) : option (list Z) := b ← (buffers p).[loc.1]; slice b loc.2 n.

Definition write (p : pool) (loc : Z * Z) (bytes : list Z) : option pool :=
  b ← (buffers p).[loc.1];
  if decide (0 <= loc.2 /\ loc.2 + zlen bytes <= zlen b) then
    bs ← zset (buffers p) loc.1 (take (Z.to_nat loc.2) b ++ bytes ++ drop (Z.to_nat (loc.2 + zlen bytes)) b);
    Some (Pool bs (bufferIdx p) (pos p) (allocSize p))
  else None.

Lemma read_fresh p p' off size i o n : pool_ok p -> fresh_bytes p p' off size -> inside p (i, o, n) -> read p' (i, o) n = read p (i, o) n.
Proof. intros Hp [_ _ [_ Hk] _ _] (_ & _ & Hi & Hin & _). unfold read. cbn [fst snd]. by rewrite Hk by lia. Qed.

Lemma read_inside p i o n : inside p (i, o, n) -> exists l, read p (i, o) n = Some l /\ zlen l = n.
Proof.
  intros (Hn & Ho & _ & _ & b & Eb & Hz). change HEADER_SIZE with 4 in Ho. unfold read. cbn [fst snd]. rewrite Eb. opt.
  unfold slice. rewrite decide_True by lia. eexists. split; [done|]. unfold zlen in *. rewrite length_take, length_drop. lia.
Qed.

Lemma slice_replace (pre old new post : list Z) q m : zlen old = zlen new -> q + m <= zlen pre \/ zlen pre + zlen new <= q ->
  slice (pre ++ new ++ post) q m = slice (pre ++ old ++ post) q m.
Proof.
  intros Hl Hd. unfold slice. rewrite !zlen_app, Hl. case_decide as Hr; [|done]. f_equal. apply list_eq. intros j.
  destruct (decide (j < Z.to_nat m)%nat); [|by rewrite !lookup_take_ge by lia]. rewrite !lookup_take_lt, !lookup_drop by lia. unfold zlen in *.
  destruct Hd; [by rewrite !lookup_app_l by lia|]. rewrite !(lookup_app_r pre), !(lookup_app_r _ post) by lia. f_equal. lia.
Qed.

Lemma join_insert_len (bs : list (list Z)) i b b' n : bs.[i] = Some b -> zlen b' = zlen b ->
  zlen (mjoin (take n (<[Z.to_nat i := b']> bs))) = zlen (mjoin (take n bs)).
Proof.
  intros Hb Hl. unfold zlen. rewrite !length_join. do 2 f_equal. rewrite !fmap_take, list_fmap_insert. f_equal. apply list_insert_id.
  rewrite list_lookup_fmap. unfold zget in Hb. case_decide; [|done]. rewrite Hb. simpl. f_equal. unfold zlen in Hl. lia.
Qed.

(** A buffer whose bytes past the header changed. *)
Lemma replace_ok p i b b' : pool_ok p -> (buffers p).[i] = Some b -> zlen b' = zlen b -> is_bytes b' -> slice b' 0 4 = slice b 0 4 ->
  pool_ok (Pool (<[Z.to_nat i := b']> (buffers p)) (bufferIdx p) (pos p) (allocSize p)).
Proof.
  intros Hp Hb Hl Hby Hh. pose proof (zget_Some_range _ _ _ Hb) as Hi. destruct (block_at p i _ Hp Hb) as (_ & Hsz & Hbz).
  constructor; cbn [buffers bufferIdx pos allocSize].
  - rewrite zlen_insert. apply Hp.
  - rewrite zlen_insert. apply Hp.
  - apply Forall_insert; [apply Hp|]. split; [done|]. rewrite Hl. split; [|done]. unfold bufferSize, load in *. by rewrite Hh.
  - intros k c. rewrite zget_insert by lia. case_decide; [intros [= <-]; subst k; rewrite Hl; by apply Hp|apply Hp].
  - destruct (po_pos _ Hp) as (c & Ec & Hc). unfold buffer in *. cbn [buffers bufferIdx pos]. rewrite zget_insert by lia. case_decide as Hk; [|by exists c].
    subst i. exists b'. split; [done|]. assert (b = c) as -> by congruence. by rewrite Hl.
  - rewrite (join_insert_len _ _ b); [apply Hp|done|done].
Qed.

Section write.
Context (p : pool) (Hp : pool_ok p) (i o : Z) (bytes : list Z) (Hb : is_bytes bytes) (Hin : inside p (i, o, zlen bytes)).

(** The buffer with the bytes replaced. *)
Lemma write_block : exists pre old post, (buffers p).[i] = Some (pre ++ old ++ post) /\ zlen pre = o /\ zlen old = zlen bytes /\
  write p (i, o) bytes = Some (Pool (<[Z.to_nat i := pre ++ bytes ++ post]> (buffers p)) (bufferIdx p) (pos p) (allocSize p)).
Proof.
  destruct Hin as (Hn & Ho & Hi & _ & b & Eb & Hz). change HEADER_SIZE with 4 in Ho. pose proof (zget_Some_range _ _ _ Eb).
  exists (take (Z.to_nat o) b), (take (length bytes) (drop (Z.to_nat o) b)), (drop (Z.to_nat (o + zlen bytes)) b). split; [|split; [|split]].
  - rewrite Eb. f_equal. rewrite <- (take_drop (Z.to_nat o) b) at 1. f_equal. rewrite <- (take_drop (length bytes) (drop (Z.to_nat o) b)) at 1. f_equal.
    rewrite drop_drop. f_equal. unfold zlen. lia.
  - unfold zlen in *. rewrite length_take. lia.
  - unfold zlen in *. rewrite length_take, length_drop. lia.
  - unfold write. cbn [fst snd]. rewrite Eb. opt. rewrite decide_True by lia. by rewrite zset_in by lia.
Qed.

Lemma write_region : exists p', write p (i, o) bytes = Some p' /\ pool_ok p' /\ bufferIdx p' = bufferIdx p /\ pos p' = pos p /\
  (forall r, inside p r -> inside p' r) /\ read p' (i, o) (zlen bytes) = Some bytes /\
  (forall j q m, disjoint (j, q, m) (i, o, zlen bytes) -> inside p (j, q, m) -> read p' (j, q) m = read p (j, q) m) /\
  (forall k b', (buffers p').[k] = Some b' -> exists b, (buffers p).[k] = Some b /\ zlen b' = zlen b).
Proof.
  destruct write_block as (pre & old & post & Eb & Hpre & Hold & E). pose proof (zget_Some_range _ _ _ Eb) as Hi.
  set (nb := pre ++ bytes ++ post) in *. set (p' := Pool _ _ _ _) in E. exists p'. split; [done|].
  assert (forall k, (buffers p').[k] = if decide (i = k) then Some nb else (buffers p).[k]) as Hget.
  { intros k. simpl. by rewrite zget_insert by lia. }
  assert (zlen nb = zlen (pre ++ old ++ post)) as Hlen by (unfold nb; rewrite !zlen_app; lia).
  assert (forall k b', (buffers p').[k] = Some b' -> exists b, (buffers p).[k] = Some b /\ zlen b' = zlen b) as Hlens.
  { intros k b' Hk. rewrite Hget in Hk. case_decide; [|by exists b']. subst k. injection Hk as <-. by eexists. }
  assert (forall r, inside p r -> inside p' r) as Hins.
  { intros [[j q] m] (H1 & H2 & H3 & H4 & b & Hb' & H5). split; [done|]. split; [done|]. split; [done|]. split; [done|].
    destruct (zget_in (buffers p') j) as [b' Eb']; [pose proof (zget_Some_range _ _ _ Hb'); simpl; by rewrite zlen_insert|].
    exists b'. split; [done|]. destruct (Hlens _ _ Eb') as (c & Ec & ->). congruence. }
  split; [|split; [done|]; split; [done|]; split; [done|]; split; [|split; [|done]]].
  - apply (replace_ok p i (pre ++ old ++ post) nb); [done..| |].
    + destruct (block_at p i _ Hp Eb) as (Hby & _). unfold is_bytes, nb in *. rewrite !Forall_app in Hby |- *. by destruct Hby as (? & _ & ?).
    + apply slice_replace; [done|]. destruct Hin as (_ & Ho & _). change HEADER_SIZE with 4 in Ho. lia.
  - unfold read. cbn [fst snd]. rewrite Hget, decide_True by done. opt. by apply slice_app.
  - intros j q m Hd Hin'. unfold read. cbn [fst snd]. rewrite Hget. case_decide as Hj; [subst j|done]. rewrite Eb. opt.
    apply slice_replace; [done|]. destruct Hd as [?|Hd]; [done|]. lia.
Qed.

End write.
(** ** The parts of a pool that its users own

    [own] are the regions of a user; what other users own is not changed by it. *)

Definition apart (r : region) (own : list region) : Prop := Forall (disjoint r) own.

Record evolves (own own' : list region) (p p' : pool) : Prop := {
  ev_ok : pool_ok p';
  ev_inside : forall r, inside p r -> inside p' r;
  ev_own : Forall (inside p') own';
  ev_apart : forall r, inside p r -> apart r own -> apart r own';
  ev_read : forall i o n, inside p (i, o, n) -> apart (i, o, n) own -> read p' (i, o) n = read p (i, o) n }.

Lemma evolves_refl own p : pool_ok p -> Forall (inside p) own -> evolves own own p p.
Proof. by constructor. Qed.

Lemma evolves_trans own own' own'' p p' p'' : evolves own own' p p' -> evolves own' own'' p' p'' -> evolves own own'' p p''.
Proof.
  intros H1 H2. constructor; [apply H2|intros r Hr; by apply H2, H1|apply H2|intros r Hr Ha; apply H2; [by apply H1|by apply H1]|].
  intros i o n Hi Ha. rewrite (ev_read _ _ _ _ H2); [by apply H1|by apply H1|by apply H1].
Qed.

Lemma evolves_fresh own p p' off size : pool_ok p -> Forall (inside p) own -> fresh_bytes p p' off size ->
  evolves own (own ++ [(bufferIdx p', off, size)]) p p'.
Proof.
  intros Hp Ho Hf. constructor.
  - apply Hf.
  - intros r. by eapply inside_grow.
  - apply Forall_app. split; [eapply Forall_impl; [done|]; intros r; by eapply inside_grow|]. apply List.Forall_cons; [by eapply inside_fresh|done].
  - intros r Hr Ha. apply Forall_app. split; [done|]. apply List.Forall_cons; [by eapply disjoint_fresh|done].
  - intros i o n Hr Ha. by eapply read_fresh.
Qed.

(** Fresh bytes that the user gives to no one. *)
Lemma evolves_other own p p' off size : pool_ok p -> Forall (inside p) own -> fresh_bytes p p' off size -> evolves own own p p'.
Proof.
  intros Hp Ho Hf. destruct (evolves_fresh own p p' off size Hp Ho Hf) as [H1 H2 H3 H4 H5]. constructor; [done|done| |by intros r|done].
  by apply Forall_app in H3 as [??].
Qed.

Lemma evolves_write own p i o bytes r : pool_ok p -> Forall (inside p) own -> is_bytes bytes -> r ∈ own -> inside p (i, o, zlen bytes) ->
  (forall r', disjoint r' r -> disjoint r' (i, o, zlen bytes)) ->
  exists p', write p (i, o) bytes = Some p' /\ evolves own own p p' /\ read p' (i, o) (zlen bytes) = Some bytes /\
    (forall j q m, disjoint (j, q, m) (i, o, zlen bytes) -> inside p (j, q, m) -> read p' (j, q) m = read p (j, q) m) /\ room p' = room p.
Proof.
  intros Hp Ho Hb Hr Hin Hsub. destruct (write_region p Hp i o bytes Hb Hin) as (p' & E & H1 & H2 & H3 & H4 & H5 & H6 & H7).
  exists p'. split; [done|]. split; [|split; [done|split; [done|]]].
  - constructor; [done|done|by eapply Forall_impl|done|]. intros j q m Hj Ha. apply H6; [|done]. apply Hsub.
    unfold apart in Ha. rewrite Forall_forall in Ha. by apply Ha.
  - destruct (po_pos _ H1) as (b' & Eb' & _). destruct (H7 _ _ Eb') as (b & Eb & Hl). unfold room. rewrite Eb'. unfold buffer. rewrite <- H2, Eb, H3. by rewrite Hl.
Qed.

(** ** Rewinding *)

(** The bytes of the first [k] buffers. *)
Definition upto (k : Z) (bs : list (list Z)) : Z := zlen (mjoin (take (Z.to_nat k) bs)).

Lemma upto_next bs k b : bs.[k] = Some b -> upto (k + 1) bs = upto k bs + zlen b.
Proof. intros Hk. unfold upto. by rewrite (take_next _ _ _ Hk), join_snoc_len. Qed.

Lemma upto_end bs k : zlen bs <= k -> upto (k + 1) bs = upto k bs.
Proof. intros Hk. unfold upto, zlen in *. by rewrite !take_ge by lia. Qed.

Lemma upto_take bs k n : k <= n -> upto k (take (Z.to_nat n) bs) = upto k bs.
Proof. intros Hk. unfold upto. rewrite take_take. do 3 f_equal. lia. Qed.

Lemma sizeAt_block bs k b : Forall block_ok bs -> bs.[k] = Some b -> sizeAt bs k = Some (zlen b).
Proof. intros Hbs Hk. unfold sizeAt. rewrite Hk. opt. rewrite Forall_forall in Hbs. by destruct (Hbs b) as (_ & -> & _); [eapply zget_elem_1|]. Qed.

Lemma dropBuffers_spec fuel n idx bs : 0 <= n -> 0 <= idx -> zlen bs - n <= Z.of_nat fuel -> Forall block_ok bs ->
  dropBuffers fuel n idx bs (upto (idx + 1) bs) = Some (take (Z.to_nat n) bs, upto (idx + 1) (take (Z.to_nat n) bs)).
Proof.
  intros Hn Hidx. revert bs. induction fuel as [|fuel IH]; intros bs Hf Hbs; cbn [dropBuffers].
  - rewrite decide_False by lia. rewrite take_ge by (unfold zlen in *; lia). done.
  - case_decide as Hz; [|rewrite take_ge by (unfold zlen in *; lia); done].
    destruct (zget_in bs (zlen bs - 1)) as [b Eb]; [lia|]. rewrite (sizeAt_block _ _ b) by done. opt.
    set (rest := take (Z.to_nat (zlen bs - 1)) bs). assert (zlen rest = zlen bs - 1) as Hr by (unfold rest, zlen in *; rewrite length_take; lia).
    replace (if decide (zlen bs - 1 <= idx) then upto (idx + 1) bs - zlen b else upto (idx + 1) bs) with (upto (idx + 1) rest).
    + rewrite IH; [|lia|by apply Forall_take]. unfold rest. rewrite take_take. by replace (Z.to_nat n `min` Z.to_nat (zlen bs - 1))%nat with (Z.to_nat n) by lia.
    + case_decide as Hi; [|by apply upto_take; lia]. unfold upto at 1. rewrite take_ge by (unfold zlen in *; lia).
      unfold upto. rewrite (take_ge bs) by (unfold zlen in *; lia).
      assert (bs = rest ++ [b]) as E by (unfold rest; rewrite <- (take_next _ _ _ Eb); rewrite take_ge by (unfold zlen; lia); done).
      assert (zlen (mjoin bs) = zlen (mjoin rest) + zlen b) as El by (rewrite <- join_snoc_len, <- E; done). lia.
Qed.

(** The buffers of a pool do not overlap; they may be adjacent. *)
Definition no_overlap (base : Z -> Z -> Z) (p : pool) : Prop := forall i j b c, (buffers p).[i] = Some b -> (buffers p).[j] = Some c -> i <> j ->
  base i (zlen b) + zlen b <= base j (zlen c) \/ base j (zlen c) + zlen c <= base i (zlen b).

Section rewind.
Context (base : Z -> Z -> Z) (p : pool) (Hp : pool_ok p) (Hsep : no_overlap base p).
Context (i o : Z) (b : list Z) (Hb : (buffers p).[i] = Some b) (Hi : 0 <= i <= bufferIdx p) (Ho : HEADER_SIZE <= o <= zlen b).

Definition point : Z := base i (zlen b) + o.

(** The end of a full buffer is not taken for the start of the next one, which can be the same address. *)
Lemma holds_spec k : 0 <= k <= bufferIdx p -> holds base point p k = Some (bool_decide (i = k)).
Proof.
  intros Hk. pose proof (po_idx _ Hp). destruct (zget_in (buffers p) k) as [c Ec]; [lia|]. unfold holds, address. rewrite Ec. opt.
  destruct (block_at p k c Hp Ec) as (_ & -> & _). opt. f_equal. apply bool_decide_ext. unfold point. change HEADER_SIZE with 4 in *. split.
  - intros Hr. destruct (decide (i = k)) as [?|Hne]; [done|]. destruct (Hsep i k b c Hb Ec Hne); lia.
  - intros <-. assert (c = b) as -> by congruence. lia.
Qed.

Lemma findBuffer_spec fuel k : i <= k <= bufferIdx p -> k - i < Z.of_nat fuel -> findBuffer base fuel point p k = Some i.
Proof.
  revert k. induction fuel as [|fuel IH]; intros k Hk Hf; [lia|]. cbn [findBuffer]. rewrite decide_True by lia.
  rewrite holds_spec by lia. opt. case_bool_decide as E; [by subst k|]. apply IH; lia.
Qed.

(** The sizes of the buffers after the one of the save point are taken off, for those that were kept. *)
Lemma taken_off bs : Forall block_ok bs -> i < bufferIdx p ->
  exists t, foldM (fun total j => if decide (j < zlen bs) then n ← sizeAt bs j; Some (total - n) else Some total)
    (upto (bufferIdx p + 1) bs) (seqZ (i + 1) (bufferIdx p - (i + 1))) = Some t /\
    (if decide (bufferIdx p < zlen bs /\ bufferIdx p <> i) then n ← sizeAt bs (bufferIdx p); Some (t - n) else Some t) = Some (upto (i + 1) bs).
Proof.
  intros Hbs Hlt. set (P := fun j t => t = upto (bufferIdx p + 1) bs - (upto j bs - upto (i + 1) bs)).
  destruct (foldM_seqZ P (fun total j => if decide (j < zlen bs) then n ← sizeAt bs j; Some (total - n) else Some total)
    (upto (bufferIdx p + 1) bs) (i + 1) (bufferIdx p - (i + 1))) as (t & E & Ht); [lia|unfold P; lia| |].
  - intros j t Hj ->. case_decide as Hz.
    + destruct (zget_in bs j) as [c Ec]; [lia|]. rewrite (sizeAt_block _ _ c) by done. opt. eexists. split; [done|]. unfold P. rewrite (upto_next _ _ _ Ec). lia.
    + eexists. split; [done|]. unfold P. rewrite (upto_end bs j) by lia. lia.
  - exists t. split; [done|]. rewrite Ht. replace (i + 1 + (bufferIdx p - (i + 1))) with (bufferIdx p) by lia. case_decide as Hz.
    + destruct (zget_in bs (bufferIdx p)) as [c Ec]; [lia|]. rewrite (sizeAt_block _ _ c) by done. opt. rewrite (upto_next _ _ _ Ec). f_equal. lia.
    + rewrite (upto_end bs (bufferIdx p)) by lia. f_equal. lia.
Qed.

Lemma rewound_ok n : i < n -> pool_ok (Pool (take (Z.to_nat n) (buffers p)) i o (upto (i + 1) (take (Z.to_nat n) (buffers p)))).
Proof.
  intros Hn. pose proof (po_idx _ Hp). pose proof (po_count _ Hp). constructor; cbn [buffers bufferIdx pos allocSize].
  - unfold zlen in *. rewrite length_take. lia.
  - unfold zlen in *. rewrite length_take. lia.
  - apply Forall_take, Hp.
  - intros k c Hk. assert (k < n). { pose proof (zget_Some_range _ _ _ Hk) as Hr. unfold zlen in Hr. rewrite length_take in Hr. lia. }
    rewrite zget_take in Hk by done. by apply Hp.
  - exists b. split; [|done]. unfold buffer. cbn [buffers bufferIdx]. by rewrite zget_take by lia.
  - done.
Qed.

Lemma rewind_spec n : 0 <= n -> is_u 32 (i + n + 1) -> exists p', rewind base point n p = Some p' /\ pool_ok p' /\ bufferIdx p' = i /\ pos p' = o /\
  (forall k, 0 <= k <= i -> (buffers p').[k] = (buffers p).[k]).
Proof.
  intros Hn Hu. pose proof (po_idx _ Hp). unfold rewind. rewrite holds_spec by lia. opt. case_bool_decide as E.
  - unfold address. rewrite <- E, Hb. opt. unfold point. rewrite Z.add_simpl_l. exists (set_pos o p). split; [done|]. split; [|done]. destruct Hp as [H1 H2 H3 H4 H5 H6]. constructor; [done..| |done].
    exists b. split; [|done]. unfold buffer. simpl. by rewrite <- E.
  - unfold _rewind. rewrite findBuffer_spec by lia. opt. rewrite uwrap_id by done.
    rewrite (po_alloc _ Hp). change (zlen (mjoin (take (Z.to_nat (bufferIdx p + 1)) (buffers p)))) with (upto (bufferIdx p + 1) (buffers p)).
    rewrite dropBuffers_spec; [|lia|lia|unfold zlen; lia|apply Hp]. opt.
    set (bs := take (Z.to_nat (i + n + 1)) (buffers p)). destruct (taken_off bs) as (t & Et & Ef); [apply Forall_take, Hp|lia|].
    rewrite Et. opt. rewrite Ef. opt. unfold address. assert (bs.[i] = Some b) as -> by (unfold bs; by rewrite zget_take by lia). opt.
    unfold point. rewrite Z.add_simpl_l. eexists. split; [done|]. split; [apply rewound_ok; lia|]. split; [done|]. split; [done|].
    intros k Hk. cbn [buffers]. unfold bs. by rewrite zget_take by lia.
Qed.

End rewind.

(** ** Aligned allocation *)

Section aligned.
Context (Hup : resource) (base : Z -> Z -> Z).

(** Buffers lie in the address space, with [alignment] bytes after them. *)
Definition placed (alignment : Z) : Prop := forall n size, 0 <= n < MAX_BUFFERS -> 0 <= size <= BYTE_BLOCK_SIZE ->
  0 <= base n size /\ base n size + size + alignment <= 2 ^ 64.

Lemma land_unot w k x : 0 <= k <= w -> is_u w x -> Z.land x (unot w (2 ^ k - 1)) = x - x `mod` 2 ^ k.
Proof.
  intros Hk Hx. replace (Z.land x (unot w (2 ^ k - 1))) with (Z.ldiff x (Z.ones k)).
  - rewrite Z.ldiff_ones_r, Z.shiftl_mul_pow2, Z.shiftr_div_pow2 by lia. pose proof (Z_div_mod_eq_full x (2 ^ k)). lia.
  - apply Z.bits_inj'. intros i Hi. rewrite Z.ldiff_spec, Z.land_spec, testbit_unot by lia. rewrite Z.testbit_ones_nonneg, testbit_pow2m1 by lia.
    destruct (decide (i < w)).
    + rewrite (bool_decide_true (i < w)) by lia. rewrite andb_true_r || rewrite andb_true_l. f_equal. f_equal. case_bool_decide; [by apply Z.ltb_lt|by apply Z.ltb_ge; lia].
    + by rewrite (testbit_high w x) by (done || lia).
Qed.

Lemma aligned_pos alignment k p b : alignment = 2 ^ k -> 0 <= k <= 16 -> placed alignment -> pool_ok p -> buffer p = Some b ->
  exists q, align base alignment p = Some (set_pos q p) /\ pos p <= q < pos p + alignment /\ (base (bufferIdx p) (zlen b) + q) `mod` alignment = 0.
Proof.
  intros -> Hk Hpl Hp Eb. destruct (po_pos _ Hp) as (c & Ec & Hpos). assert (c = b) as -> by congruence. destruct (block_at p _ b Hp Eb) as (_ & _ & Hbz).
  change HEADER_SIZE with 4 in Hpos. pose proof (po_idx _ Hp). pose proof (po_count _ Hp). destruct (Hpl (bufferIdx p) (zlen b)) as [H1 H2]; [lia|change STATIC_BUFFER_SIZE with 256 in Hbz; lia|]. pose proof (pow2_pos k ltac:(lia)) as H3. unfold align. rewrite Eb. opt. set (start := base _ _) in *.
  eexists. split; [done|]. rewrite uwrap_id by (unfold is_u; lia). rewrite land_unot by (unfold is_u; lia). set (x := start + pos p + 2 ^ k - 1).
  pose proof (Z.mod_pos_bound x (2 ^ k) ltac:(lia)). split; [lia|]. replace (start + (x - x `mod` 2 ^ k - start)) with (x - x `mod` 2 ^ k) by lia.
  rewrite Zminus_mod_idemp_r, Z.sub_diag. by apply Z.mod_0_l; lia.
Qed.

(** The pool after bytes were skipped. *)
Lemma skip_ok p b q : pool_ok p -> buffer p = Some b -> pos p <= q <= zlen b -> evolves [] [] p (set_pos q p).
Proof.
  intros Hp Eb Hq. constructor; [by apply (set_pos_ok p b)| |apply List.Forall_nil|done|done].
  intros [[i o] n] (H1 & H2 & H3 & H4 & c & Ec & H5). split; [done|]. split; [done|]. split; [done|]. split; [simpl; lia|]. by exists c.
Qed.

Lemma evolves_next p p' : pool_ok p -> pool_ok p' -> keeps p p' -> bufferIdx p' = bufferIdx p + 1 -> evolves [] [] p p'.
Proof.
  intros Hp Hp' [_ Hk] Hi. constructor; [done| |apply List.Forall_nil|done|].
  - intros [[i o] n] (H1 & H2 & H3 & H4 & c & Ec & H5). split; [done|]. split; [done|]. split; [done|]. split; [lia|]. exists c. split; [by rewrite Hk by lia|done].
  - intros i o n (_ & _ & H3 & H4 & _) _. unfold read. cbn [fst snd]. by rewrite Hk by lia.
Qed.

(** Bytes at an aligned address, after some that are skipped. *)
Definition aligned_bytes (alignment : Z) (p p' : pool) (off size : Z) : Prop :=
  exists p1 b, evolves [] [] p p1 /\ keeps p p1 /\ fresh_bytes p1 p' off size /\ bufferIdx p' <= bufferIdx p + 1 /\
    buffer p' = Some b /\ (base (bufferIdx p') (zlen b) + off) `mod` alignment = 0 /\ room p - loss (size + alignment - 1) <= room p'.

Lemma fresh_at p b q size : pool_ok p -> buffer p = Some b -> pos p = q -> 0 <= size -> q + size <= zlen b -> fresh_bytes p (set_pos (q + size) p) q size.
Proof.
  intros Hp Eb Hq Hs Hz. constructor; [apply (set_pos_ok p b); (done || lia)|done|by split|done|]. left. done.
Qed.

Lemma alignedAlloc_spec p size k : pool_ok p -> 0 <= k <= 16 -> 0 <= size -> size + 2 ^ k - 1 <= BYTE_BLOCK_SIZE - HEADER_SIZE -> placed (2 ^ k) ->
  (exhausted (size + 2 ^ k - 1) p /\ alignedAlloc upstream base size (2 ^ k) p = Throw "MemPool exceeded its 4GiB addressability limit") \/
  exists off p', alignedAlloc upstream base size (2 ^ k) p = Ret (bufferIdx p', off, p') /\ aligned_bytes (2 ^ k) p p' off size.
Proof.
  intros Hp Hk Hs Hsz Hpl. pose proof (pow2_pos k ltac:(lia)) as Hpow. destruct (po_pos _ Hp) as (b & Eb & Hpos). change HEADER_SIZE with 4 in Hpos. destruct (block_at p _ b Hp Eb) as (_ & Esz & _).
  destruct (aligned_pos (2 ^ k) k p b) as (q & Eq & Hq & Hal); [done..|].
  unfold alignedAlloc. rewrite Eq. cbn [lift mbind outcome_bind]. change (buffer (set_pos q p)) with (buffer p). rewrite Eb. cbn [lift mbind outcome_bind]. rewrite Esz. cbn [lift mbind outcome_bind].
  cbn [set_pos pos bufferIdx]. case_decide as Hfit.
  - right. exists q, (set_pos (q + size) (set_pos q p)). split; [done|]. exists (set_pos q p), b. split; [by apply (skip_ok p b); [|done|lia]|]. split; [by split|].
    split; [apply (fresh_at (set_pos q p) b); [apply (set_pos_ok p b); (done || lia)|done|done|done|done]|]. split; [simpl; lia|]. do 2 (split; [done|]).
    apply (room_same p _ b); [done|done|done|simpl; lia|lia].
  - unfold backupAlignedAlloc. change (nextBuffer upstream (size + 2 ^ k - 1) (set_pos q p)) with (nextBuffer upstream (size + 2 ^ k - 1) p).
    destruct (nextBuffer_spec Hup p Hp (size + 2 ^ k - 1)) as [[Hf ->]|(p2 & b2 & -> & Hp2 & Hk2 & Hi2 & Hq2 & Eb2 & Hz2)]; [lia|left; split; [|done]; split; [done|]; intros c; rewrite Eb; intros [= <-]; lia|right]. cbn [mbind outcome_bind].
    change HEADER_SIZE with 4 in *. destruct (aligned_pos (2 ^ k) k p2 b2) as (q2 & Eq2 & Hqq & Hal2); [done..|]. rewrite Eq2. cbn [lift mbind outcome_bind].
    exists q2, (set_pos (q2 + size) (set_pos q2 p2)). split; [done|]. exists (set_pos q2 p2), b2.
    split; [eapply evolves_trans; [by apply evolves_next|by apply (skip_ok p2 b2); [|done|lia]]|]. split; [done|].
    split; [apply (fresh_at (set_pos q2 p2) b2); [apply (set_pos_ok p2 b2); (done || lia)|done|done|done|lia]|]. split; [simpl; lia|]. do 2 (split; [done|]).
    apply (room_moved p _ b (q2 + size - 4)); [done|apply (set_pos_ok _ b2); [apply (set_pos_ok p2 b2); (done || lia)|done|simpl; lia]|done|done|simpl; change HEADER_SIZE with 4; lia|lia|lia].
Qed.

End aligned.

(** Bytes reserved for writing without an allocation. *)
Lemma reserve_spec p size : resource -> pool_ok p -> 0 <= size <= BYTE_BLOCK_SIZE - HEADER_SIZE ->
  (pool_full p /\ reserve upstream size p = Throw "MemPool exceeded its 4GiB addressability limit") \/
  exists p' b, reserve upstream size p = Ret (bufferIdx p', pos p', p') /\ pool_ok p' /\ keeps p p' /\ buffer p' = Some b /\ pos p' + size <= zlen b.
Proof.
  intros Hup Hp Hs. destruct (po_pos _ Hp) as (b & Eb & Hpos). destruct (block_at p _ b Hp Eb) as (_ & Esz & Hbz). change HEADER_SIZE with 4 in Hpos. change BYTE_BLOCK_SIZE with 4194304 in Hbz.
  unfold reserve. rewrite decide_True by lia. unfold spaceLeft. rewrite Eb. opt. rewrite Esz. opt. cbn [lift mbind outcome_bind]. rewrite uwrap_id by (unfold is_u; lia). case_decide as Hfit.
  - right. exists p, b. split; [done|]. split; [done|]. split; [apply keeps_refl|]. split; [done|lia].
  - unfold backupAlloc. destruct (nextBuffer_spec Hup p Hp size Hs) as [[Hf ->]|(p' & b' & -> & Hp' & Hk & Hi & Hq & Eb' & Hz)]; [by left|right]. cbn [mbind outcome_bind].
    cbn [set_pos pos bufferIdx]. replace (pos p' + size - size) with (pos p') by lia. rewrite decide_True by done. exists p', b'.
    replace (set_pos (pos p') (set_pos (pos p' + size) p')) with p' by (by destruct p'). split; [done|]. split; [done|]. split; [done|]. split; [done|]. lia.
Qed.

(** ** Scopes

    The allocations between a save point and the rewinding to it.  A request is for a pool address, a pointer, both, or a pointer to an
    aligned address, and yields the region it is given. *)

Section scopes.
Context (Hup : resource) (base : Z -> Z -> Z).

Inductive request := Address (size : Z) | Pointer (size : Z) | Both (size : Z) | Aligned (size k : Z).

Definition request_size (r : request) : Z := match r with Address n | Pointer n | Both n | Aligned n _ => n end.

Definition serve (r : request) (p : pool) : outcome (region * pool) :=
  match r with
  | Address n => '(a, p) ← allocateBBP upstream n p; Ret ((ptr a).1, (ptr a).2, n, p)
  | Pointer n => '(i, o, p) ← alloc upstream n p; Ret (i, o, n, p)
  | Both n => '(i, o, a, p) ← allocateAddrs upstream n p; if decide (ptr a = (i, o)) then Ret (i, o, n, p) else Undef
  | Aligned n k => '(i, o, p) ← alignedAlloc upstream base n (2 ^ k) p; Ret (i, o, n, p)
  end.

Fixpoint serve_all (rs : list request) (p : pool) : outcome (list region * pool) :=
  match rs with
  | [] => Ret ([], p)
  | r :: rs => '(x, p) ← serve r p; '(xs, p) ← serve_all rs p; Ret (x :: xs, p)
  end.

(** The bytes a request can take from a buffer. *)
Definition reach (r : request) : Z := match r with Address n | Pointer n | Both n => n | Aligned n k => n + 2 ^ k - 1 end.

(** An address is asked for with at least one byte; no request reaches past a buffer of 4 MiB. *)
Definition request_ok (r : request) : Prop :=
  0 <= request_size r /\ reach r <= BYTE_BLOCK_SIZE - HEADER_SIZE /\
  match r with Address n | Both n => 0 < n | Pointer _ => True | Aligned n k => 0 <= k <= 16 /\ placed base (2 ^ k) end.

(** The region has the alignment asked for. *)
Definition well_placed (p : pool) (r : request) (x : region) : Prop :=
  match r with Aligned _ k => exists b, (buffers p).[x.1.1] = Some b /\ (base x.1.1 (zlen b) + x.1.2) `mod` 2 ^ k = 0 | _ => True end.

Lemma keeps_trans p p' p'' : keeps p p' -> keeps p' p'' -> keeps p p''.
Proof. intros [H1 H2] [H3 H4]. split; [lia|]. intros k Hk. rewrite H4 by lia. by apply H2. Qed.

Lemma fresh_one p p' off size : pool_ok p -> fresh_bytes p p' off size -> evolves [] [(bufferIdx p', off, size)] p p'.
Proof. intros Hp Hf. by apply (evolves_fresh [] p p' off size Hp (List.Forall_nil _)). Qed.

(** What a request is given. *)
Lemma serve_spec r p : pool_ok p -> request_ok r ->
  (exhausted (reach r) p /\ serve r p = Throw "MemPool exceeded its 4GiB addressability limit") \/
  exists off p', serve r p = Ret (bufferIdx p', off, request_size r, p') /\ evolves [] [(bufferIdx p', off, request_size r)] p p' /\ keeps p p' /\
    bufferIdx p' <= bufferIdx p + 1 /\ well_placed p' r (bufferIdx p', off, request_size r) /\ room p - loss (reach r) <= room p'.
Proof.
  intros Hp (H0 & Hr & Hal). assert (forall off p', reach r = request_size r -> fresh_bytes p p' off (request_size r) ->
    evolves [] [(bufferIdx p', off, request_size r)] p p' /\ keeps p p' /\ bufferIdx p' <= bufferIdx p + 1 /\ room p - loss (reach r) <= room p') as Hfresh.
  { intros off p' Er Hf. split; [by apply fresh_one|]. split; [apply Hf|]. split; [destruct (fb_where _ _ _ _ Hf) as [[-> _]|(-> & _)]; lia|]. rewrite Er. by eapply room_fresh. }
  destruct r as [n|n|n|n k]; cbn [serve request_size reach] in *.
  - destruct (allocateBBP_spec Hup p Hp n) as [[Hx ->]|(a & off & p' & -> & _ & Ea & Hf)]; [lia|by left|right].
    cbn [mbind outcome_bind]. exists off, p'. rewrite Ea. split; [done|]. destruct (Hfresh off p' eq_refl Hf) as (H1 & H2 & H3 & H4). done.
  - destruct (alloc_spec Hup p Hp n) as [[Hx ->]|(off & p' & -> & Hf)]; [lia|by left|right].
    exists off, p'. split; [done|]. destruct (Hfresh off p' eq_refl Hf) as (H1 & H2 & H3 & H4). done.
  - destruct (allocateAddrs_spec Hup p Hp n) as [[Hx ->]|(a & off & p' & -> & _ & Ea & Hf)]; [lia|by left|right].
    cbn [mbind outcome_bind]. exists off, p'. rewrite Ea. rewrite decide_True by done. split; [done|]. destruct (Hfresh off p' eq_refl Hf) as (H1 & H2 & H3 & H4). done.
  - destruct Hal as [Hk Hpl]. destruct (alignedAlloc_spec Hup base p n k) as [[Hx ->]|(off & p' & -> & p1 & b & Hev & Hkp & Hf & Hle & Eb & Hmod & Hroom)]; [done|done|lia|done|done|by left|right].
    cbn [mbind outcome_bind]. exists off, p'. split; [done|]. split; [eapply evolves_trans; [done|apply fresh_one; [apply Hev|done]]|]. split; [eapply keeps_trans; [done|apply Hf]|]. split; [done|].
    split; [|done]. by exists b.
Qed.

(** A request is served as long as there is room for what it reaches. *)
Lemma serve_room r p : pool_ok p -> request_ok r -> reach r <= room p + SMALL ->
  exists off p', serve r p = Ret (bufferIdx p', off, request_size r, p') /\ evolves [] [(bufferIdx p', off, request_size r)] p p' /\ room p - loss (reach r) <= room p'.
Proof.
  intros Hp Hr Hroom. destruct (serve_spec r p Hp Hr) as [[Hx _]|(off & p' & E & Hev & _ & _ & _ & Hl)]; [apply room_exhausted in Hx; [lia|done]|]. by exists off, p'.
Qed.

Lemma disjoint_cons x xs : Forall (disjoint x) xs -> (forall j k y z, xs.[j] = Some y -> xs.[k] = Some z -> j <> k -> disjoint y z) ->
  forall j k y z, (x :: xs).[j] = Some y -> (x :: xs).[k] = Some z -> j <> k -> disjoint y z.
Proof.
  rewrite Forall_forall. intros Hxs Hd j k y z Hy Hz Hjk. pose proof (zget_Some_range _ _ _ Hy). pose proof (zget_Some_range _ _ _ Hz).
  destruct (decide (j = 0)) as [->|Hj]; [|destruct (decide (k = 0)) as [->|Hk0]].
  - injection Hy as <-. rewrite zget_cons_pos in Hz by lia. by eapply Hxs, zget_elem_1.
  - injection Hz as <-. rewrite zget_cons_pos in Hy by lia. apply disjoint_sym. by eapply Hxs, zget_elem_1.
  - rewrite zget_cons_pos in Hy, Hz by lia. by eapply Hd; [exact Hy|exact Hz|lia].
Qed.

Lemma serve_all_spec rs p : pool_ok p -> Forall request_ok rs -> bufferIdx p + zlen rs < MAX_BUFFERS ->
  exists xs p', serve_all rs p = Ret (xs, p') /\ evolves [] xs p p' /\ keeps p p' /\ Forall2 (fun r x => x.2 = request_size r /\ well_placed p' r x) rs xs /\
    (forall j k x y, xs.[j] = Some x -> xs.[k] = Some y -> j <> k -> disjoint x y).
Proof.
  revert p. induction rs as [|r rs IH]; intros p Hp Hrs Hi.
  - exists [], p. split; [done|]. split; [by apply evolves_refl|]. split; [by split|]. split; [done|]. intros j k x y Hx. by rewrite zget_nil in Hx.
  - rewrite zlen_cons in Hi. pose proof (zlen_nonneg rs). apply List.Forall_cons_iff in Hrs as [Hr Hrs].
    destruct (serve_spec r p) as [[[Hx _] _]|(off & p1 & E1 & H1 & Hk1 & Hi1 & Hw1 & _)]; [done..|unfold pool_full in Hx; lia|]. destruct (IH p1) as (xs & p2 & E2 & Hev & Hk & Hs & Hd); [apply H1|done|lia|].
    set (x := (bufferIdx p1, off, request_size r)) in *. exists (x :: xs), p2. cbn [serve_all]. rewrite E1. cbn [mbind outcome_bind]. rewrite E2. cbn [mbind outcome_bind].
    assert (inside p1 x) as Hx by (pose proof (ev_own _ _ _ _ H1) as H'; by apply List.Forall_cons_iff in H' as [? _]).
    assert (Forall (disjoint x) xs) as Hxs by apply (ev_apart _ _ _ _ Hev x Hx (List.Forall_nil _)).
    split; [done|]. split; [|split; [by eapply keeps_trans|split]].
    + constructor; [apply Hev|intros y Hy; by apply Hev, H1|apply List.Forall_cons; [by apply Hev|apply Hev]| |].
      * intros y Hy Ha. pose proof (ev_apart _ _ _ _ H1 y Hy Ha) as Hy1. apply List.Forall_cons_iff in Hy1 as [Hy1 _]. apply List.Forall_cons; [done|]. apply Hev; [by apply H1|done].
      * intros i o n Hy Ha. rewrite (ev_read _ _ _ _ Hev); [by apply H1|by apply H1|done].
    + constructor; [|done]. split; [done|]. destruct r as [?|?|?|m k]; [done..|]. destruct Hw1 as (b & Eb & Hb). exists b. split; [|done].
      rewrite (proj2 Hk); [done|]. pose proof (zget_Some_range _ _ _ Eb). cbn [x fst snd] in *. lia.
    + by apply disjoint_cons.
Qed.

Lemma alloc_size p p' : pool_ok p -> pool_ok p' -> bufferIdx p' = bufferIdx p ->
  (forall k, 0 <= k <= bufferIdx p -> (buffers p').[k] = (buffers p).[k]) -> allocSize p' = allocSize p.
Proof.
  intros Hp Hp' Hi Hk. rewrite (po_alloc _ Hp), (po_alloc _ Hp'), Hi. pose proof (po_idx _ Hp). pose proof (po_idx _ Hp').
  do 2 f_equal. apply prefix_take; [lia|lia|]. intros k Hk'. apply Hk. lia.
Qed.


End scopes.
End theory.

(** Memory that is all zero. *)
Definition zero_memory (n size : Z) : list Z := replicate (Z.to_nat size) 0.

Lemma zero_resource : resource zero_memory.
Proof. intros n size Hs. unfold zero_memory. split; [rewrite zlen_replicate; lia|]. apply Forall_replicate. done. Qed.

(** Buffers that are 8 MiB apart. *)
Definition spread (n size : Z) : Z := 8388608 * (n + 1).

(** The first buffers follow each other without a gap. *)
Definition adjacent (n size : Z) : Z := if decide (n <= 4) then 4096 + 256 * (2 ^ n - 1) else spread n size.

(** Separation, from the sizes of the buffers. *)
Definition separated (base : Z -> Z -> Z) (sizes : list Z) : bool :=
  forallb (fun i => forallb (fun j => bool_decide (i = j) || match sizes.[i], sizes.[j] with
    | Some m, Some n => bool_decide (base i m + m <= base j n) || bool_decide (base j n + n <= base i m)
    | _, _ => true end) (seqZ 0 (zlen sizes))) (seqZ 0 (zlen sizes)).

Lemma no_overlap_sizes base p sizes : zlen <$> MemPool.buffers p = sizes -> separated base sizes = true -> no_overlap base p.
Proof.
  intros <- H i j b c Hb Hc Hij. pose proof (zget_Some_range _ _ _ Hb). pose proof (zget_Some_range _ _ _ Hc). unfold separated in H. rewrite zlen_fmap in H.
  rewrite forallb_forall in H. specialize (H i ltac:(apply list_elem_of_In, elem_of_seqZ; lia)). rewrite forallb_forall in H. specialize (H j ltac:(apply list_elem_of_In, elem_of_seqZ; lia)).
  rewrite !zget_fmap, Hb, Hc in H. simpl in H. rewrite bool_decide_false in H by done. simpl in H.
  apply orb_prop in H as [H%bool_decide_eq_true|H%bool_decide_eq_true]; [by left|by right].
Qed.


(** [allocateTypeAligned] aligns before it moves to the next buffer: an object that does not fit the current one is put right after the next one's header. *)
Example type_unaligned :
  match (p ← lift (MemPool.make zero_memory); '(_, _, p) ← MemPool.alloc zero_memory 236 p; MemPool.allocateTypeAligned zero_memory spread 32 p) with
  | Ret (a, p) => MemPool.ptr a = (1, 4) /\ (spread 1 512 + 4) `mod` 8 = 4
  | _ => False
  end.
Proof. vm_compute. done. Qed.
