(* ===== verification/PoolStream.v ===== *)
(** Byte streams in a pool: [luxir/index/Stream.h].

    A stream is a chain of slices of a [MemPool], linked by the addresses in their last four bytes.  Its first four bytes are in the
    object itself, in the member [bbStart_], which becomes the address of the first slice when they are moved there.
    Pointers are into that member or into the pool; following one outside is undefined ([None]). *)

From S2P Require Import Prelude Encoding MemPool.

Module Stream.

Definition nextSliceSize (currentSliceSize : Z) : Z := u8 (Z.min (currentSliceSize + (Z.shiftr currentSliceSize 2 + 6)) 200).

Definition FIRST_LEVEL_SIZE : Z := 4.

Inductive pointer := Inline (off : Z) | InPool (loc : Z * Z).

(** [bbStart_] is the four bytes of the member. *)
Record stream := Make { ptr_ : pointer; bbStart_ : list Z; allocatedSz_ : Z; left_ : Z; sliceSz_ : Z }.

(** The constructor leaves [bbStart_] as it is. *)
Definition make (uninitialized : list Z) : stream := Make (Inline 0) uninitialized FIRST_LEVEL_SIZE FIRST_LEVEL_SIZE FIRST_LEVEL_SIZE.

Definition moveFrom (o : stream) : stream :=
  Make (if decide (allocatedSz_ o = 4) then Inline (4 - left_ o) else ptr_ o) (bbStart_ o) (allocatedSz_ o) (left_ o) (sliceSz_ o).

Definition size (s : stream) : Z := allocatedSz_ s - left_ s.

Definition advance (q : pointer) (n : Z) : pointer := match q with Inline o => Inline (o + n) | InPool (i, o) => InPool (i, o + n) end.

(** The bytes at a pointer of stream [s]. *)
Definition loadAt (s : stream) (p : MemPool.pool) (q : pointer) (n : Z) : option (list Z) :=
  match q with Inline o => slice (bbStart_ s) o n | InPool loc => read p loc n end.

Definition storeAt (s : stream) (p : MemPool.pool) (q : pointer) (bytes : list Z) : option (stream * MemPool.pool) :=
  match q with
  | Inline o =>
      if decide (0 <= o /\ o + zlen bytes <= zlen (bbStart_ s)) then
        Some (Make (ptr_ s) (take (Z.to_nat o) (bbStart_ s) ++ bytes ++ drop (Z.to_nat (o + zlen bytes)) (bbStart_ s)) (allocatedSz_ s) (left_ s) (sliceSz_ s), p)
      else None
  | InPool loc => p ← write p loc bytes; Some (s, p)
  end.

Section upstream.
Context (upstream : Z -> Z -> list Z).

Definition writeByte (val : Z) (sp : stream * MemPool.pool) : outcome (stream * MemPool.pool) :=
  let '(s, p) := sp in
  '(s, p) ←
    (if decide (left_ s = 0) then
       let sliceSz := nextSliceSize (sliceSz_ s) in
       '(blockAddr, p) ← MemPool.allocateBBP upstream sliceSz p;
       let newPointer := MemPool.ptr blockAddr in
       let lastWord := advance (ptr_ s) (-4) in
       word ← lift (loadAt s p lastWord 4);
       p ← lift (write p newPointer word);
       '(s, p) ← lift (storeAt s p lastWord (store_le 4 blockAddr));
       if decide (is_s 32 (allocatedSz_ s + (sliceSz - 4))) then
         Ret (Make (advance (InPool newPointer) 4) (bbStart_ s) (allocatedSz_ s + (sliceSz - 4)) (u8 (sliceSz - 4)) sliceSz, p)
       else Undef
     else Ret (s, p));
  '(s, p) ← lift (storeAt s p (ptr_ s) [val]);
  Ret (Make (advance (ptr_ s) 1) (bbStart_ s) (allocatedSz_ s) (u8 (left_ s - 1)) (sliceSz_ s), p).

(** The loop of [writeVInt] ([w] = 32) and [writeVLong] ([w] = 64). *)
Fixpoint writeVarLoop (fuel : nat) (w v : Z) (sp : stream * MemPool.pool) : outcome (stream * MemPool.pool) :=
  match fuel with
  | O => Undef
  | S fuel =>
      if decide (Z.land v (unot w 127) <> 0)
      then sp ← writeByte (u8 (Z.lor v 128)) sp; writeVarLoop fuel w (Z.shiftr v 7) sp
      else writeByte (u8 v) sp
  end.

Definition writeVInt (val : Z) : stream * MemPool.pool -> outcome (stream * MemPool.pool) := writeVarLoop MAX_VINT_SIZE 32 (u32 val).
Definition writeVLong (val : Z) : stream * MemPool.pool -> outcome (stream * MemPool.pool) := writeVarLoop MAX_VLONG_SIZE 64 (u64 val).

(** [writeVInt2] takes its continuation flag from the low bits. *)
Fixpoint writeVInt2Loop (fuel : nat) (v : Z) (sp : stream * MemPool.pool) : outcome (stream * MemPool.pool) :=
  match fuel with
  | O => Undef
  | S fuel =>
      let flag := if decide (Z.land v 127 = 0) then 0 else 128 in
      sp ← writeByte (u8 (Z.lor v flag)) sp;
      if decide (flag = 0) then Ret sp else writeVInt2Loop fuel (Z.shiftr v 7) sp
  end.

Definition writeVInt2 (val : Z) (sp : stream * MemPool.pool) : outcome (stream * MemPool.pool) :=
  if decide (val >= 0) then writeVInt2Loop 6 (u32 val) sp else Undef.

End upstream.
End Stream.

Module StreamReader.
Import Stream.

(** [ptr_] is [None] at the end of the stream. *)
Record reader := Reader { ptr_ : option pointer; remaining_ : Z; remainingInSlice_ : Z; sliceSize_ : Z }.

(** The reader points into the stream it was made from and into the pool. *)
Section source.
Context (source : stream) (pool : MemPool.pool).

Definition initFromBBPointer (bbptr : Z) (r : reader) : reader :=
  let sliceSize := nextSliceSize (sliceSize_ r) in
  Reader (Some (InPool (MemPool.ptr bbptr))) (remaining_ r)
    (u8 (if decide (remaining_ r > sliceSize) then sliceSize - 4 else remaining_ r)) sliceSize.

Definition make : option reader :=
  let remaining := size source in
  if decide (remaining <= FIRST_LEVEL_SIZE) then
    if decide (remaining = 0) then Some (Reader None remaining 0 FIRST_LEVEL_SIZE)
    else Some (Reader (Some (Inline 0)) remaining (u8 remaining) FIRST_LEVEL_SIZE)
  else
    bbStart ← load 4 (bbStart_ source) 0;
    Some (initFromBBPointer bbStart (Reader None remaining 0 FIRST_LEVEL_SIZE)).

Definition incrementPointer (r : reader) : option reader :=
  q ← ptr_ r;
  let q := advance q 1 in
  let inSlice := u8 (remainingInSlice_ r - 1) in
  if decide (inSlice = 0) then
    if decide (remaining_ r <= sliceSize_ r) then Some (Reader None (remaining_ r) inSlice (sliceSize_ r))
    else
      word ← loadAt source pool q 4;
      Some (initFromBBPointer (little_endian_to_Z 8 word) (Reader (Some q) (remaining_ r - (sliceSize_ r - 4)) inSlice (sliceSize_ r)))
  else Some (Reader (Some q) (remaining_ r) inSlice (sliceSize_ r)).

Definition eof (r : reader) : bool := match ptr_ r with None => true | Some _ => false end.

Definition readByte (r : reader) : option (Z * reader) :=
  q ← ptr_ r;
  bytes ← loadAt source pool q 1;
  b ← head bytes;
  r ← incrementPointer r;
  Some (b, r).

(** The loop of [readVint] ([w] = 32) and [readVlong] ([w] = 64). *)
Fixpoint readVarLoop (fuel : nat) (w shift val b : Z) (r : reader) : option (Z * reader) :=
  if decide (Z.land b 128 = 0) then Some (val, r)
  else if decide (w <= shift) then None
  else match fuel with
       | O => None
       | S fuel => '(b, r) ← readByte r; readVarLoop fuel w (shift + 7) (Z.lor val (uwrap w (Z.shiftl (Z.land b 127) shift))) b r
       end.

Definition readVint (r : reader) : option (Z * reader) :=
  '(b, r) ← readByte r; '(v, r) ← readVarLoop MAX_VINT_SIZE 32 7 (Z.land b 127) b r; Some (s32 v, r).

Definition readVlong (r : reader) : option (Z * reader) :=
  '(b, r) ← readByte r; '(v, r) ← readVarLoop MAX_VLONG_SIZE 64 7 (Z.land b 127) b r; Some (s64 v, r).

End source.
End StreamReader.

(** * Slices *)

Section theory.
Import Stream.
Context (upstream : Z -> Z -> list Z).

Lemma nextSliceSize_range n : 4 <= n <= 200 -> 11 <= nextSliceSize n <= 200 /\ 4 * nextSliceSize n <= 5 * n + 24 /\ (n + 7 <= nextSliceSize n \/ nextSliceSize n = 200).
Proof.
  intros Hn. unfold nextSliceSize. rewrite Z.shiftr_div_pow2 by lia. change (2 ^ 2) with 4. pose proof (Z_div_mod_eq_full n 4). pose proof (Z.mod_pos_bound n 4 ltac:(lia)).
  rewrite uwrap_id by (unfold is_u; lia). lia.
Qed.

(** The chain of slices from the one at address [a], of [sz] bytes: its regions, the bytes it holds, and where the
    last slice ends, with the bytes left there and its size. *)
Inductive chain (p : MemPool.pool) : Z -> Z -> list region -> list Z -> Z * Z -> Z -> Z -> Prop :=
  | chain_last sz a i o data : is_u 32 a -> MemPool.ptr a = (i, o) -> zlen data <= sz -> read p (i, o) (zlen data) = Some data ->
      chain p sz a [(i, o, sz)] data (i, o + zlen data) (sz - zlen data) sz
  | chain_link sz a i o d a' own data loc left lsz : is_u 32 a -> MemPool.ptr a = (i, o) -> zlen d = sz - 4 -> read p (i, o) sz = Some (d ++ store_le 4 a') ->
      Forall (disjoint (i, o, sz)) own -> chain p (nextSliceSize sz) a' own data loc left lsz ->
      chain p sz a ((i, o, sz) :: own) (d ++ data) loc left lsz.

Definition untouched (own : list region) (p p' : MemPool.pool) : Prop :=
  forall i o n m, (i, o, n) ∈ own -> 0 <= m <= n -> read p' (i, o) m = read p (i, o) m.

Lemma chain_frame p p' sz a own data loc left lsz : 0 <= sz -> chain p sz a own data loc left lsz -> untouched own p p' -> chain p' sz a own data loc left lsz.
Proof.
  intros Hsz H. induction H as [sz a i o data Ha Hptr Hl Hr|sz a i o d a' own data loc left lsz Ha Hptr Hl Hr Hd Hc IH]; intros Hu.
  - apply chain_last; [done..|]. rewrite (Hu i o sz); [done|by left|pose proof (zlen_nonneg data); lia].
  - apply chain_link with a'; [done..| |done|apply IH].
    + rewrite (Hu i o sz); [done|by left|lia].
    + unfold nextSliceSize. apply uwrap_range. lia.
    + intros j q n m Hin. apply Hu. by right.
Qed.

(** The last slice. *)
Lemma chain_end p sz a own data loc left lsz : chain p sz a own data loc left lsz ->
  exists front i o, own = front ++ [(i, o, lsz)] /\ loc = (i, o + (lsz - left)) /\ 0 <= lsz - left <= zlen data /\ 0 <= left /\ Forall (fun r => disjoint r (i, o, lsz)) front.
Proof.
  induction 1 as [sz a i o data Ha Hptr Hl Hr|sz a i o d a' own data loc left lsz Ha Hptr Hl Hr Hd Hc IH].
  - exists [], i, o. pose proof (zlen_nonneg data). split; [done|]. split; [f_equal; lia|]. split; [lia|]. split; [lia|done].
  - destruct IH as (front & j & q & -> & -> & H1 & H2 & H3). exists ((i, o, sz) :: front), j, q. split; [done|]. split; [done|].
    rewrite zlen_app. pose proof (zlen_nonneg d). split; [lia|]. split; [done|]. apply List.Forall_cons; [|done].
    apply Forall_app in Hd as [_ Hd]. by apply List.Forall_cons_iff in Hd as [? _].
Qed.

Lemma chain_size p sz a own data loc left lsz : 11 <= sz <= 200 -> chain p sz a own data loc left lsz -> 11 <= lsz <= 200.
Proof. intros Hsz H. induction H as [|sz a i o d a' own data loc left lsz Ha Hptr Hl Hr Hd Hc IH]; [done|]. apply IH. pose proof (nextSliceSize_range sz). lia. Qed.

(** ** Appending *)

Lemma read_len p i o n l : read p (i, o) n = Some l -> zlen l = n.
Proof. unfold read. cbn [fst snd]. destruct ((MemPool.buffers p).[i]); [|done]. opt. by intros (? & ? & _ & _ & ?)%slice_Some. Qed.

Lemma read_app p i o n m x y : read p (i, o) n = Some x -> read p (i, o + n) m = Some y -> read p (i, o) (n + m) = Some (x ++ y).
Proof.
  unfold read. cbn [fst snd]. destruct ((MemPool.buffers p).[i]) as [b|]; [|done]. opt. intros (pre & post & -> & Hp & Hn)%slice_Some H2.
  apply slice_Some in H2 as (pre' & post' & E & Hp' & Hm). rewrite (app_assoc pre x post) in E. apply app_inj_1 in E as [<- ->]; [|unfold zlen in *; rewrite length_app; lia].
  rewrite (app_assoc x y post'). apply slice_app; [done|]. rewrite zlen_app. lia.
Qed.

Lemma read_split p i o x y : read p (i, o) (zlen x + zlen y) = Some (x ++ y) -> read p (i, o) (zlen x) = Some x /\ read p (i, o + zlen x) (zlen y) = Some y.
Proof.
  unfold read. cbn [fst snd]. destruct ((MemPool.buffers p).[i]) as [b|]; [|done]. opt. intros (pre & post & -> & Hp & _)%slice_Some. split.
  - rewrite <- app_assoc. by apply slice_app.
  - replace (pre ++ (x ++ y) ++ post) with ((pre ++ x) ++ y ++ post) by (by rewrite <- !app_assoc). apply slice_app; [|done]. rewrite zlen_app. lia.
Qed.

Lemma disjoint_sub r i o n q m : disjoint r (i, o, n) -> o <= q -> q + m <= o + n -> disjoint r (i, q, m).
Proof. destruct r as [[j k] l]. unfold disjoint. lia. Qed.

Lemma inside_sub p i o n q m : inside p (i, o, n) -> o <= q -> 0 <= m -> q + m <= o + n -> inside p (i, q, m).
Proof. intros (H1 & H2 & H3 & H4 & b & Hb & H5) Hq Hm Hle. split; [done|]. split; [lia|]. split; [done|]. split; [lia|]. exists b. split; [done|lia]. Qed.

(** The memory after the region [r] of it was written. *)
Definition only (r : region) (p p' : MemPool.pool) : Prop :=
  forall j q m, disjoint (j, q, m) r -> inside p (j, q, m) -> read p' (j, q) m = read p (j, q) m.

Lemma chain_append p p' sz a own data i o left lsz b : chain p sz a own data (i, o) left lsz -> 0 < left -> Forall (inside p) own ->
  read p' (i, o) 1 = Some [b] -> only (i, o, 1) p p' -> chain p' sz a own (data ++ [b]) (i, o + 1) (left - 1) lsz.
Proof.
  intros H Hleft Hin Hb Ho. remember (i, o) as loc eqn:El. revert Hin Hleft. induction H as [sz a j q data Ha Hptr Hl Hr|sz a j q d a' own data loc left lsz Ha Hptr Hl Hr Hd Hc IH]; intros Hin Hleft.
  - injection El as -> <-. apply List.Forall_cons_iff in Hin as [Hin _]. pose proof (zlen_nonneg data).
    replace (q + zlen data + 1) with (q + zlen (data ++ [b])) by (rewrite zlen_app; change (zlen [b]) with 1; lia).
    replace (sz - zlen data - 1) with (sz - zlen (data ++ [b])) by (rewrite zlen_app; change (zlen [b]) with 1; lia).
    apply chain_last; [done..|rewrite zlen_app; change (zlen [b]) with 1; lia|]. rewrite zlen_app. change (zlen [b]) with 1. apply read_app; [|done].
    rewrite Ho; [done|unfold disjoint; lia|]. eapply inside_sub; [done|lia|lia|lia].
  - apply List.Forall_cons_iff in Hin as [Hin Hins]. rewrite <- app_assoc. apply chain_link with a'; [done..| |done|by apply IH].
    rewrite Ho; [done| |done]. destruct (chain_end _ _ _ _ _ _ _ _ Hc) as (front & k & x & -> & E & H1 & H2 & _). subst loc. injection E as -> ->.
    apply Forall_app in Hd as [_ Hd]. apply List.Forall_cons_iff in Hd as [Hd _]. eapply disjoint_sub; [done|lia|lia].
Qed.

(** A slice is full: its last four bytes [w] are in the new slice at [a'], and its address takes their place. *)
Lemma chain_grow p p' sz a own data i o lsz w a' i' o' : 4 <= sz <= 200 -> chain p sz a own data (i, o) 0 lsz -> Forall (inside p) own -> is_u 32 a' ->
  read p (i, o - 4) 4 = Some w -> MemPool.ptr a' = (i', o') -> Forall (fun r => disjoint r (i', o', nextSliceSize lsz)) own ->
  read p' (i', o') 4 = Some w -> read p' (i, o - 4) 4 = Some (store_le 4 a') ->
  (forall j q m, disjoint (j, q, m) (i, o - 4, 4) -> disjoint (j, q, m) (i', o', nextSliceSize lsz) -> inside p (j, q, m) -> read p' (j, q) m = read p (j, q) m) ->
  chain p' sz a (own ++ [(i', o', nextSliceSize lsz)]) data (i', o' + 4) (nextSliceSize lsz - 4) (nextSliceSize lsz).
Proof.
  intros Hsz H Hin Ha' Hw Hptr' Hnew Hw' Hlink Ho. remember (i, o) as loc eqn:El. remember 0 as left eqn:E0. revert Hsz Hin Hnew.
  induction H as [sz a j q data Ha Hptr Hl Hr|sz a j q d a1 own data loc left lsz Ha Hptr Hl Hr Hd Hc IH]; intros Hsz Hin Hnew.
  - injection El as -> <-. apply List.Forall_cons_iff in Hin as [Hin _]. apply List.Forall_cons_iff in Hnew as [Hnew _]. assert (zlen data = sz) as Hz by lia.
    set (d := take (Z.to_nat (sz - 4)) data). set (t := drop (Z.to_nat (sz - 4)) data). assert (zlen d = sz - 4) as Hd by (unfold d, zlen in *; rewrite length_take; lia).
    assert (zlen t = 4) as Ht by (unfold t, zlen in *; rewrite length_drop; lia). assert (data = d ++ t) as Edt by (symmetry; apply take_drop).
    rewrite Edt in Hr. rewrite zlen_app in Hr. apply read_split in Hr as [Hr1 Hr2]. rewrite Hd in Hr1, Hr2. rewrite Ht in Hr2.
    replace (q + zlen data - 4) with (q + (sz - 4)) in * by lia. assert (t = w) as Etw by congruence. rewrite Edt, Etw. rewrite Etw in Ht.
    pose proof (nextSliceSize_range sz Hsz). eapply chain_link with (a' := a'); [done|done|done| |by apply List.Forall_cons|].
    + replace sz with (sz - 4 + 4) at 1 by lia. apply read_app; [|done]. rewrite Ho; [done|unfold disjoint; lia| |].
      * apply disjoint_sym. eapply disjoint_sub; [by apply disjoint_sym|lia|lia].
      * eapply inside_sub; [done|lia|lia|lia].
    + replace (o' + 4) with (o' + zlen w) by lia. replace (nextSliceSize sz - 4) with (nextSliceSize sz - zlen w) by lia. apply chain_last; [done|done|lia|by rewrite Ht].
  - apply List.Forall_cons_iff in Hin as [Hin Hins]. apply List.Forall_cons_iff in Hnew as [Hnew Hnews]. pose proof (nextSliceSize_range sz Hsz).
    apply (chain_link _ _ _ _ _ _ a1); [done..| | |by apply IH; [..|lia| |]].
    + rewrite Ho; [done| |done|done]. subst left loc. destruct (chain_end _ _ _ _ _ _ _ _ Hc) as (front & k & x & -> & E & H1 & H2 & _). injection E as -> ->.
      apply Forall_app in Hd as [_ Hd]. apply List.Forall_cons_iff in Hd as [Hd _]. apply chain_size in Hc; [|lia]. eapply disjoint_sub; [done|lia|lia].
    + apply Forall_app. split; [done|by apply List.Forall_cons].
Qed.

Lemma read_bytes p loc n l : pool_ok p -> read p loc n = Some l -> is_bytes l.
Proof.
  intros Hp. unfold read. destruct ((MemPool.buffers p).[loc.1]) as [b|] eqn:Eb; [|done]. opt. intros (pre & post & -> & _)%slice_Some.
  destruct (block_at p _ _ Hp Eb) as (Hb & _). by apply Forall_app in Hb as [_ [? _]%Forall_app].
Qed.

Section grow.
Context (Hup : resource upstream) (p : MemPool.pool) (Hp : pool_ok p).

(** A byte stored in the last slice. *)
Lemma chain_store a own data i o left lsz b : chain p 11 a own data (i, o) left lsz -> 0 < left -> Forall (inside p) own -> is_u 8 b ->
  exists p', write p (i, o) [b] = Some p' /\ chain p' 11 a own (data ++ [b]) (i, o + 1) (left - 1) lsz /\ evolves own own p p' /\ room p' = room p.
Proof.
  intros Hc Hl Hin Hb. destruct (chain_end _ _ _ _ _ _ _ _ Hc) as (front & j & q & Eown & [= <- ->] & H1 & H2 & _).
  assert ((i, q, lsz) ∈ own) as Hr by (rewrite Eown; apply elem_of_app; right; by left).
  assert (inside p (i, q, lsz)) as Hir by (rewrite Forall_forall in Hin; by apply Hin).
  destruct (evolves_write own p i (q + (lsz - left)) [b] (i, q, lsz)) as (p' & E & Hev & Hread & Honly & Hroom); [done|done|by apply List.Forall_cons|done| | |].
  - eapply inside_sub; [done|lia|done|change (zlen [b]) with 1; lia].
  - intros r Hd. eapply disjoint_sub; [done|lia|change (zlen [b]) with 1; lia].
  - exists p'. split; [done|]. split; [|done]. by apply chain_append with p.
Qed.

(** The four bytes of the object moved to a first slice. *)
Lemma object_grow d : is_bytes d -> zlen d = 4 -> 0 <= room p ->
  exists a p1 p2 i o, MemPool.allocateBBP upstream 11 p = Ret (a, p1) /\ MemPool.ptr a = (i, o) /\ write p1 (MemPool.ptr a) d = Some p2 /\
    chain p2 11 a [(i, o, 11)] d (i, o + 4) 7 11 /\ evolves [] [(i, o, 11)] p p2 /\ room p - 11 <= room p2.
Proof.
  intros Hd Hz Hroom. destruct (allocateBBP_room upstream p 11 Hup Hp) as (a & off & p1 & Ea & Ha & Hptr & Hf & Hr1); [done|done|].
  pose proof (evolves_fresh [] p p1 off 11 Hp (List.Forall_nil _) Hf) as Hev1. cbn [app] in Hev1. pose proof (inside_fresh p p1 off 11 Hp Hf) as Hin1.
  destruct (evolves_write [(MemPool.bufferIdx p1, off, 11)] p1 (MemPool.bufferIdx p1) off d (MemPool.bufferIdx p1, off, 11)) as (p2 & E2 & Hev2 & Hread & _ & Hr2);
    [apply Hf|by apply List.Forall_cons|done|by left|eapply inside_sub; [done|lia..]|intros r Hr; eapply disjoint_sub; [done|lia..]|].
  exists a, p1, p2, (MemPool.bufferIdx p1), off. rewrite Hptr. do 3 (split; [done|]). split; [|split; [by eapply evolves_trans|lia]].
  replace 7 with (11 - zlen d) by lia. replace (off + 4) with (off + zlen d) by lia. apply chain_last; [done|done|lia|done].
Qed.

(** The last four bytes of a full slice moved to the next one. *)
Lemma slice_grow a own data i o lsz : chain p 11 a own data (i, o) 0 lsz -> Forall (inside p) own -> 0 <= room p ->
  exists a' p1 w p2 p3 i' o', MemPool.allocateBBP upstream (nextSliceSize lsz) p = Ret (a', p1) /\ MemPool.ptr a' = (i', o') /\
    read p1 (i, o - 4) 4 = Some w /\ write p1 (MemPool.ptr a') w = Some p2 /\ write p2 (i, o - 4) (store_le 4 a') = Some p3 /\
    chain p3 11 a (own ++ [(i', o', nextSliceSize lsz)]) data (i', o' + 4) (nextSliceSize lsz - 4) (nextSliceSize lsz) /\
    evolves own (own ++ [(i', o', nextSliceSize lsz)]) p p3 /\ room p - nextSliceSize lsz <= room p3.
Proof.
  intros Hc Hin Hroom. pose proof (chain_size p 11 _ _ _ _ _ _ ltac:(lia) Hc) as Hlsz. pose proof (nextSliceSize_range lsz ltac:(lia)) as (Hns & _). set (ns := nextSliceSize lsz) in *.
  destruct (chain_end _ _ _ _ _ _ _ _ Hc) as (front & j & q & Eown & [= <- ->] & H1 & _).
  assert ((i, q, lsz) ∈ own) as Hr by (rewrite Eown; apply elem_of_app; right; by left).
  assert (inside p (i, q, lsz)) as Hir by (rewrite Forall_forall in Hin; by apply Hin). replace (q + (lsz - 0) - 4) with (q + lsz - 4) in * by lia.
  destruct (allocateBBP_room upstream p ns Hup Hp) as (a' & off & p1 & Ea & Ha & Hptr & Hf & Hr1); [change SMALL with 200; lia|done|].
  pose proof (evolves_fresh own p p1 off ns Hp Hin Hf) as Hev1. set (r' := (MemPool.bufferIdx p1, off, ns)) in *.
  pose proof (inside_fresh p p1 off ns Hp Hf : inside p1 r') as Hin1. assert (forall r, inside p r -> disjoint r r') as Hnew by (intros r; by apply disjoint_fresh).
  assert (inside p (i, q + lsz - 4, 4)) as Hiw by (eapply inside_sub; [done|lia..]).
  destruct (read_inside p i (q + lsz - 4) 4 Hiw) as (w & Ew & Hw). pose proof (read_bytes _ _ _ _ Hp Ew) as Hbw.
  assert (read p1 (i, q + lsz - 4) 4 = Some w) as Ew1 by (rewrite <- Ew; by eapply read_fresh).
  destruct (evolves_write (own ++ [r']) p1 (MemPool.bufferIdx p1) off w r') as (p2 & E2 & Hev2 & Hread2 & Ho2 & Hr2);
    [apply Hf|apply Hev1|done|apply elem_of_app; right; by left|eapply inside_sub; [done|lia..]|intros r Hrr; eapply disjoint_sub; [done|lia..]|].
  destruct (evolves_write (own ++ [r']) p2 i (q + lsz - 4) (store_le 4 a') (i, q, lsz)) as (p3 & E3 & Hev3 & Hread3 & Ho3 & Hr3);
    [apply Hev2|apply Hev2|by apply is_bytes_store_le|apply elem_of_app; by left| |intros r Hrr; eapply disjoint_sub; [done|rewrite ?zlen_store_le; lia..]|].
  { rewrite zlen_store_le by lia. by apply Hev2, Hev1. }
  rewrite zlen_store_le in * by lia. rewrite Hw in *. exists a', p1, w, p2, p3, (MemPool.bufferIdx p1), off. rewrite Hptr. do 5 (split; [done|]).
  split; [|split; [eapply evolves_trans; [exact Hev1|]; eapply evolves_trans; [exact Hev2|exact Hev3]|lia]].
  apply (chain_grow p p3 11 a own data i (q + lsz) lsz w a'); [lia|by replace (q + lsz) with (q + (lsz - 0)) by lia|done..| | |done|].
  - eapply Forall_impl; [done|]. apply Hnew.
  - rewrite Ho3; [done| |apply Hev2; eapply inside_sub; [done|lia..]]. apply disjoint_sym. eapply disjoint_sub; [by apply Hnew|lia..].
  - intros k x m Hd1 Hd2 Hk. rewrite Ho3; [|done|by apply Hev2, Hev1]. rewrite Ho2; [|eapply disjoint_sub; [done|lia..]|by apply Hev1]. by eapply read_fresh.
Qed.

End grow.

(** ** Streams

    The regions of a stream cost no more than five bytes for every two that are written to it. *)

Definition cost (own : list region) : Z := foldr Z.add 0 (snd <$> own).

Lemma cost_snoc own r : cost (own ++ [r]) = cost own + r.2.
Proof. unfold cost. rewrite fmap_app, foldr_app. simpl. rewrite foldr_add_init. lia. Qed.

Inductive stream_at (p : MemPool.pool) : stream -> list region -> list Z -> Prop :=
  | at_object d rest : zlen (d ++ rest) = 4 -> is_bytes d -> stream_at p (Make (Inline (zlen d)) (d ++ rest) 4 (4 - zlen d) 4) [] d
  | at_chain a own data loc left lsz : chain p 11 a own data loc left lsz -> 5 <= lsz - left -> Forall (inside p) own ->
      2 * cost own <= 5 * zlen data -> 2 * (cost own + nextSliceSize lsz) <= 5 * (zlen data + left + 1) ->
      stream_at p (Make (InPool loc) (store_le 4 a) (zlen data + left) left lsz) own data.

Lemma stream_inside p s own data : stream_at p s own data -> Forall (inside p) own.
Proof. by destruct 1. Qed.

Lemma stream_cost p s own data : stream_at p s own data -> 2 * cost own <= 5 * zlen data.
Proof. destruct 1 as [d ? ?|]; [|done]. unfold cost. simpl. pose proof (zlen_nonneg d). lia. Qed.

Lemma stream_frame p p' s own data : stream_at p s own data -> untouched own p p' -> Forall (inside p') own -> stream_at p' s own data.
Proof. destruct 1 as [|a own data loc left lsz Hc]; intros Hu Hin; [by constructor|]. apply at_chain; [|done..]. eapply chain_frame; [|done..]. lia. Qed.

Lemma stream_size p s own data : stream_at p s own data -> size s = zlen data.
Proof. destruct 1; unfold size; simpl; lia. Qed.

Lemma moveFrom_same p s own data : stream_at p s own data -> moveFrom s = s.
Proof.
  destruct 1 as [d rest Hz|a own data loc left lsz Hc Hl]; unfold moveFrom; simpl.
  - f_equal. f_equal. lia.
  - destruct (chain_end _ _ _ _ _ _ _ _ Hc) as (_ & _ & _ & _ & _ & Hx & Hy & _). rewrite decide_False by lia. done.
Qed.

(** What the pool has left for others, when the stream is paid for in advance. *)
Definition funds (p : MemPool.pool) (own : list region) (written : Z) : Z := 2 * room p - (5 * written - 2 * cost own).

Section write_byte.
Context (Hup : resource upstream).

(** The new byte is stored in a slice that has space. *)
Lemma finish_byte p a own data i o left lsz b al : pool_ok p -> is_u 8 b -> chain p 11 a own data (i, o) left lsz -> 0 < left <= 200 -> Forall (inside p) own ->
  4 <= lsz - left -> 2 * cost own <= 5 * (zlen data + 1) -> 2 * (cost own + nextSliceSize lsz) <= 5 * (zlen data + left + 1) -> al = zlen data + left ->
  exists s' p', ('(s, p) ← lift (storeAt (Make (InPool (i, o)) (store_le 4 a) al left lsz) p (InPool (i, o)) [b]);
      Ret (Make (advance (ptr_ s) 1) (bbStart_ s) (allocatedSz_ s) (u8 (left_ s - 1)) (sliceSz_ s), p)) = Ret (s', p') /\
    stream_at p' s' own (data ++ [b]) /\ evolves own own p p' /\ room p' = room p.
Proof.
  intros Hp Hb Hc Hleft Hin Hl Hcost Hnext ->. destruct (chain_store p Hp a own data i o left lsz b) as (p' & E & Hc' & Hev & Hroom); [done|lia|done|done|].
  unfold storeAt. rewrite E. opt. cbn [lift mbind outcome_bind ptr_ bbStart_ allocatedSz_ left_ sliceSz_ advance]. rewrite uwrap_id by (unfold is_u; lia).
  eexists _, p'. split; [done|]. split; [|done]. replace (zlen data + left) with (zlen (data ++ [b]) + (left - 1)) by (rewrite zlen_app; change (zlen [b]) with 1; lia).
  apply at_chain; [done|lia|apply Hev|rewrite zlen_app; change (zlen [b]) with 1; lia..].
Qed.

Definition wrote (p : MemPool.pool) (s : stream) (own : list region) (data : list Z) (b : Z) : Prop :=
  exists s' p' own', writeByte upstream b (s, p) = Ret (s', p') /\ stream_at p' s' own' (data ++ [b]) /\ evolves own own' p p' /\
    funds p own (zlen data) - 5 <= funds p' own' (zlen (data ++ [b])).

(** The byte goes to the object, or moves the bytes of the object to the first slice. *)
Lemma object_byte p d rest b : pool_ok p -> zlen (d ++ rest) = 4 -> is_bytes d -> is_u 8 b -> 0 <= room p ->
  wrote p (Make (Inline (zlen d)) (d ++ rest) 4 (4 - zlen d) 4) [] d b.
Proof.
  intros Hp Hz Hd Hb Hroom. unfold wrote, funds. rewrite zlen_app. change (zlen [b]) with 1.
  unfold writeByte. cbn [left_ sliceSz_ ptr_]. case_decide as Hfull.
  - assert (rest = []) as -> by (apply nil_length_inv; rewrite zlen_app in Hz; unfold zlen in *; lia). rewrite app_nil_r in *. change (nextSliceSize 4) with 11.
    destruct (object_grow Hup p Hp d Hd Hz Hroom) as (a & p1 & p2 & i & o & Ea & Hptr & Ew & Hc & Hev & Hr).
    rewrite Ea. cbn [mbind outcome_bind advance loadAt bbStart_]. rewrite Hz. replace (slice d (4 + -4) 4) with (Some d).
    2: { rewrite <- (app_nil_r d) at 2. change (d ++ []) with ([] ++ d ++ []). by rewrite slice_app. }
    cbn [lift mbind outcome_bind]. rewrite Ew. cbn [lift mbind outcome_bind storeAt ptr_ bbStart_ allocatedSz_ left_ sliceSz_].
    rewrite zlen_store_le, Hz by lia. rewrite decide_True by lia. cbn [lift mbind outcome_bind bbStart_ allocatedSz_]. change (4 + -4) with 0. change (Z.to_nat 0) with 0%nat. cbn [take].
    replace (drop (Z.to_nat (0 + 4)) d) with (@nil Z) by (symmetry; apply drop_ge; unfold zlen in Hz; lia). cbn [app]. rewrite app_nil_r, Hptr. rewrite decide_True by done.
    cbn [mbind outcome_bind advance ptr_]. change (u8 (11 - 4)) with 7.
    destruct (finish_byte p2 a [(i, o, 11)] d i (o + 4) 7 11 b (4 + (11 - 4))) as (s' & p' & E & Hs' & Hev' & Hr'); [apply Hev|done|done|lia|apply Hev|lia|rewrite Hz; done..|].
    exists s', p', [(i, o, 11)]. split; [exact E|]. split; [done|]. split; [by eapply evolves_trans|]. rewrite Hr'. unfold cost. simpl. lia.
  - cbn [mbind outcome_bind storeAt ptr_ bbStart_ allocatedSz_ left_ sliceSz_]. destruct rest as [|x rest]; [rewrite app_nil_r in Hz; lia|].
    rewrite zlen_app, zlen_cons in Hz. pose proof (zlen_nonneg rest). pose proof (zlen_nonneg d). rewrite decide_True by (change (zlen [b]) with 1; rewrite zlen_app, zlen_cons; lia).
    cbn [lift mbind outcome_bind ptr_ bbStart_ allocatedSz_ left_ sliceSz_ advance]. rewrite uwrap_id by (unfold is_u; lia).
    replace (take (Z.to_nat (zlen d)) (d ++ x :: rest)) with d by (unfold zlen; rewrite Nat2Z.id, take_app_length; done).
    replace (drop (Z.to_nat (zlen d + zlen [b])) (d ++ x :: rest)) with rest.
    2: { replace (Z.to_nat (zlen d + zlen [b])) with (length d + 1)%nat by (unfold zlen; simpl; lia). by rewrite drop_app_add. }
    eexists _, p, []. split; [done|]. split; [|split; [by apply evolves_refl|lia]].
    replace (zlen d + 1) with (zlen (d ++ [b])) by (rewrite zlen_app; done). replace (4 - zlen d - 1) with (4 - zlen (d ++ [b])) by (rewrite zlen_app; change (zlen [b]) with 1; lia).
    rewrite app_assoc. apply at_object; [rewrite <- app_assoc, zlen_app; cbn [app]; rewrite zlen_cons; lia|]. apply Forall_app. split; [done|by apply List.Forall_cons].
Qed.

(** The byte goes to the last slice, or starts the next one. *)
Lemma slice_byte p a own data i o left lsz b : pool_ok p -> chain p 11 a own data (i, o) left lsz -> 5 <= lsz - left -> Forall (inside p) own ->
  2 * cost own <= 5 * zlen data -> 2 * (cost own + nextSliceSize lsz) <= 5 * (zlen data + left + 1) -> is_u 8 b -> 0 <= room p -> zlen data <= 2 ^ 31 - 300 ->
  wrote p (Make (InPool (i, o)) (store_le 4 a) (zlen data + left) left lsz) own data b.
Proof.
  intros Hp Hc Hl Hin Hcost Hnext Hb Hroom Hmax. unfold wrote, funds. rewrite zlen_app. change (zlen [b]) with 1.
  pose proof (chain_size p 11 _ _ _ _ _ _ ltac:(lia) Hc) as Hlsz. destruct (chain_end _ _ _ _ _ _ _ _ Hc) as (_ & _ & _ & _ & _ & Hx & Hy & _).
  unfold writeByte. cbn [left_ sliceSz_ ptr_]. case_decide as Hfull.
  - subst left. destruct (slice_grow Hup p Hp a own data i o lsz Hc Hin Hroom) as (a' & p1 & w & p2 & p3 & i' & o' & Ea & Hptr & Erd & Ew & Ew' & Hc' & Hev & Hr).
    pose proof (nextSliceSize_range lsz ltac:(lia)) as (Hns & _ & Hns7). set (ns := nextSliceSize lsz) in *. pose proof (nextSliceSize_range ns ltac:(lia)) as (_ & Hnn & _).
    rewrite Ea. cbn [mbind outcome_bind advance loadAt bbStart_]. change (o + -4) with (o - 4). rewrite Erd. cbn [lift mbind outcome_bind]. rewrite Ew. cbn [lift mbind outcome_bind storeAt].
    rewrite Ew'. opt. cbn [lift mbind outcome_bind bbStart_ allocatedSz_]. rewrite decide_True by (unfold is_s; lia).
    rewrite Hptr. cbn [mbind outcome_bind advance ptr_]. rewrite uwrap_id by (unfold is_u; lia).
    destruct (finish_byte p3 a (own ++ [(i', o', ns)]) data i' (o' + 4) (ns - 4) ns b (zlen data + 0 + (ns - 4))) as (s' & p' & E & Hs' & Hev' & Hr');
      [apply Hev|done|done|lia|apply Hev|lia|rewrite cost_snoc; simpl; lia..|lia|].
    exists s', p', (own ++ [(i', o', ns)]). split; [exact E|]. split; [done|]. split; [by eapply evolves_trans|]. rewrite Hr', cost_snoc. simpl. lia.
  - cbn [mbind outcome_bind ptr_]. destruct (finish_byte p a own data i o left lsz b (zlen data + left)) as (s' & p' & E & Hs' & Hev' & Hr'); [done|done|done|lia|done|lia..|].
    exists s', p', own. split; [exact E|]. split; [done|]. split; [done|]. lia.
Qed.

Lemma writeByte_spec p s own data b : pool_ok p -> stream_at p s own data -> is_u 8 b -> 0 <= room p -> zlen data <= 2 ^ 31 - 300 -> wrote p s own data b.
Proof. intros Hp Hs Hb Hroom Hmax. destruct Hs as [d rest Hz Hd|a own data [i o] left lsz Hc Hl Hin Hcost Hnext]; [by apply object_byte|by apply slice_byte]. Qed.

End write_byte.
(** ** Operations that write *)

Definition MAX_STREAM : Z := 2 ^ 31 - 300.

(** [f] appends the bytes [bs] to any stream that the pool has funds for. *)
Definition emits (f : stream * MemPool.pool -> outcome (stream * MemPool.pool)) (bs : list Z) : Prop :=
  forall p s own data, pool_ok p -> stream_at p s own data -> 5 * zlen bs <= funds p own (zlen data) -> zlen data + zlen bs <= MAX_STREAM ->
  exists s' p' own', f (s, p) = Ret (s', p') /\ stream_at p' s' own' (data ++ bs) /\ evolves own own' p p' /\
    funds p own (zlen data) - 5 * zlen bs <= funds p' own' (zlen (data ++ bs)).

Lemma emits_bind f g bs bs' : emits f bs -> emits g bs' -> emits (fun sp => sp ← f sp; g sp) (bs ++ bs').
Proof.
  intros Hf Hg p s own data Hp Hs Hfunds Hmax. rewrite zlen_app in *. pose proof (zlen_nonneg bs'). destruct (Hf p s own data) as (s1 & p1 & own1 & E1 & Hs1 & Hev1 & Hf1); [done|done|lia|lia|].
  rewrite E1. cbn [mbind outcome_bind]. rewrite app_assoc. destruct (Hg p1 s1 own1 (data ++ bs)) as (s2 & p2 & own2 & E2 & Hs2 & Hev2 & Hf2); [apply Hev1|done|lia|rewrite zlen_app; lia|].
  exists s2, p2, own2. split; [done|]. split; [done|]. split; [by eapply evolves_trans|lia].
Qed.

Lemma continues w v : 7 <= w -> is_u w v -> Z.land v (unot w 127) <> 0 <-> v > 127.
Proof.
  intros Hw Hv. assert (Z.land v (unot w 127) = Z.shiftl (Z.shiftr v 7) 7) as ->.
  { apply Z.bits_inj'. intros i Hi. rewrite Z.land_spec, testbit_unot by lia. rewrite Z.shiftl_spec by lia. change 127 with (Z.ones 7). rewrite Z.testbit_ones_nonneg by lia.
    destruct (decide (i < 7)). { rewrite (Z.testbit_neg_r _ (i - 7)) by lia. rewrite (proj2 (Z.ltb_lt i 7)) by lia. by rewrite !andb_false_r. }
    rewrite Z.shiftr_spec by lia. replace (i - 7 + 7) with i by lia. rewrite (proj2 (Z.ltb_ge i 7)) by lia. destruct (decide (i < w)).
    - rewrite bool_decide_true by lia. by rewrite andb_true_r.
    - rewrite bool_decide_false by lia. rewrite (testbit_high w) by (done || lia). done. }
  rewrite Z.shiftl_mul_pow2, Z.shiftr_div_pow2 by lia. change (2 ^ 7) with 128. unfold is_u in Hv. pose proof (Z_div_mod_eq_full v 128). pose proof (Z.mod_pos_bound v 128 ltac:(lia)). lia.
Qed.

Section emit.
Context (Hup : resource upstream).

Lemma emits_byte b : is_u 8 b -> emits (writeByte upstream b) [b].
Proof.
  intros Hb p s own data Hp Hs Hf Hmax. change (zlen [b]) with 1 in *. apply (writeByte_spec Hup p s own data b); [done|done|done| |unfold MAX_STREAM in Hmax; lia].
  pose proof (stream_cost _ _ _ _ Hs). unfold funds in Hf. lia.
Qed.

Lemma emits_var fuel w v bs : 7 <= w -> is_u w v -> writeVar fuel v = Some bs -> emits (writeVarLoop upstream fuel w v) bs.
Proof.
  intros Hw. revert v bs. induction fuel as [|fuel IH]; intros v bs Hv; [done|]. cbn [writeVar]. pose proof (continues w v Hw Hv) as Hc.
  assert (forall sp, writeVarLoop upstream (S fuel) w v sp = if decide (v > 127) then sp ← writeByte upstream (u8 (Z.lor v 128)) sp; writeVarLoop upstream fuel w (Z.shiftr v 7) sp else writeByte upstream (u8 v) sp) as El.
  { intros sp. cbn [writeVarLoop]. destruct (decide (v > 127)); [rewrite decide_True by tauto; done|rewrite decide_False by tauto; done]. }
  destruct (decide (v > 127)) as [Hgt|Hle].
  - destruct (writeVar fuel (Z.shiftr v 7)) as [bs'|] eqn:E; [|done]. intros [= <-]. intros p s own data. rewrite El.
    apply (emits_bind _ _ [u8 (Z.lor v 128)] bs'); [apply emits_byte, uwrap_range; lia|]. apply IH; [apply is_u_shiftr; [lia|lia|done]|done].
  - intros [= <-] p s own data. rewrite El. apply emits_byte, uwrap_range. lia.
Qed.

End emit.

(** ** Reading *)

Section reader.
Import StreamReader.
Context (cover : region -> Prop) (s : stream) (p : MemPool.pool).

(** The bytes still to be read, which are in regions of [cover]. *)
Inductive reader_in : reader -> list Z -> Prop :=
  | ra_end r : StreamReader.ptr_ r = None -> reader_in r []
  | ra_object pre d rest k : bbStart_ s = pre ++ d ++ rest -> d <> [] -> zlen d <= 200 -> k <= 4 -> reader_in (Reader (Some (Inline (zlen pre))) k (zlen d) 4) d
  | ra_last i o data k sz : data <> [] -> zlen data <= 200 -> cover (i, o, zlen data) -> read p (i, o) (zlen data) = Some data -> k <= sz ->
      reader_in (Reader (Some (InPool (i, o))) k (zlen data) sz) data
  | ra_link i o d a own data loc left lsz k sz : d <> [] -> zlen d <= 200 -> cover (i, o, zlen d + 4) -> read p (i, o) (zlen d + 4) = Some (d ++ store_le 4 a) -> 4 <= sz <= 200 ->
      chain p (nextSliceSize sz) a own data loc left lsz -> Forall cover own -> 5 <= lsz - left -> k = sz - 4 + zlen data ->
      reader_in (Reader (Some (InPool (i, o))) k (zlen d) sz) (d ++ data).

Context (Hcover : forall i o n o' n', cover (i, o, n) -> o <= o' -> 0 <= n' -> o' + n' <= o + n -> cover (i, o', n')).

Lemma chain_address sz a own data loc left lsz : chain p sz a own data loc left lsz -> is_u 32 a.
Proof. by destruct 1. Qed.

Lemma word_address a : is_u 32 a -> little_endian_to_Z 8 (store_le 4 a) = a.
Proof. intros Ha. unfold store_le. rewrite little_endian_to_Z_to_little_endian by lia. apply Z.mod_small. exact Ha. Qed.

(** Following a link. *)
Lemma init_reader q x sz a own data loc left lsz : 4 <= sz <= 200 -> chain p (nextSliceSize sz) a own data loc left lsz -> Forall cover own -> 5 <= lsz - left ->
  reader_in (initFromBBPointer a (Reader q (zlen data) x sz)) data.
Proof.
  intros Hsz Hc Hin Hl. pose proof (nextSliceSize_range sz Hsz) as (Hns & _). unfold initFromBBPointer. cbn [remaining_ sliceSize_]. remember (nextSliceSize sz) as ns eqn:Ens.
  destruct Hc as [ns a i o data Ha Hptr Hz Hr|ns a i o d a' own data loc left lsz Ha Hptr Hz Hr Hd Hc]; rewrite Hptr.
  - rewrite decide_False by lia. rewrite uwrap_id by (unfold is_u; lia). pose proof (zlen_nonneg data). apply List.Forall_cons_iff in Hin as [Hin _]. apply ra_last; [|lia|eapply Hcover; [exact Hin|lia..]|done|done]. intros ->. change (zlen (@nil Z)) with 0 in Hl. lia.
  - destruct (chain_end _ _ _ _ _ _ _ _ Hc) as (_ & _ & _ & _ & _ & Hx & _). rewrite zlen_app. rewrite decide_True by lia. rewrite uwrap_id by (unfold is_u; lia).
    apply List.Forall_cons_iff in Hin as [Hin1 Hin2]. rewrite <- Hz. eapply ra_link; [|lia|by rewrite Hz, Z.sub_add|by rewrite Hz, Z.sub_add|lia|done|done|lia|lia]. intros ->. change (zlen (@nil Z)) with 0 in Hz. lia.
Qed.

Lemma make_reader_in own data : stream_at p s own data -> Forall cover own -> exists r, make s = Some r /\ reader_in r data.
Proof.
  intros Hs Hcov. unfold make. rewrite (stream_size _ _ _ _ Hs). change FIRST_LEVEL_SIZE with 4. pose proof (zlen_nonneg data) as Hn.
  inversion Hs as [d rest Hz Hd Es Eo Ed|a own' data' loc left lsz Hc Hl Hin Hcost Hnext Es Eo Ed].
  - subst d own. rename data into d. rewrite zlen_app in Hz. pose proof (zlen_nonneg rest). rewrite decide_True by lia. case_decide as H0.
    + eexists. split; [done|]. destruct d; [by apply ra_end|]. rewrite zlen_cons in H0. pose proof (zlen_nonneg d). lia.
    + eexists. split; [done|]. rewrite uwrap_id by (unfold is_u; lia). apply (ra_object [] d rest); [by rewrite <- Es| |lia|lia]. intros ->. done.
  - subst own' data'. destruct (chain_end _ _ _ _ _ _ _ _ Hc) as (_ & _ & _ & _ & _ & Hx & _). rewrite decide_False by lia. cbn [bbStart_].
    replace (load 4 (store_le 4 a) 0) with (Some a).
    2: { rewrite <- (app_nil_r (store_le 4 a)). change (store_le 4 a ++ []) with ([] ++ store_le 4 a ++ []). change 0 with (zlen (@nil Z)). rewrite load_store by lia.
         rewrite uwrap_id by (by eapply chain_address). done. }
    opt. eexists. split; [done|]. by apply init_reader with own loc left lsz.
Qed.

Lemma eof_in r data : reader_in r data -> eof r = bool_decide (data = []).
Proof. unfold eof. destruct 1 as [r E| | |]; simpl; [by rewrite E|symmetry; by apply bool_decide_false..|]. symmetry. apply bool_decide_false. by destruct d. Qed.

(** The byte before the rest of a slice. *)
Lemma in_slice q k sz b (d : list Z) : zlen (b :: d) <= 200 -> d <> [] -> incrementPointer s p (Reader (Some q) k (zlen (b :: d)) sz) = Some (Reader (Some (advance q 1)) k (zlen d) sz).
Proof.
  intros Hz Hd. rewrite zlen_cons in *. unfold incrementPointer. cbn [StreamReader.ptr_ remaining_ remainingInSlice_ sliceSize_]. opt. pose proof (zlen_nonneg d).
  rewrite uwrap_id by (unfold is_u; lia). replace (1 + zlen d - 1) with (zlen d) by lia. rewrite decide_False; [done|]. by destruct d.
Qed.

Lemma at_end q k sz : k <= sz -> exists r, incrementPointer s p (Reader (Some q) k 1 sz) = Some r /\ reader_in r [].
Proof.
  intros Hk. unfold incrementPointer. cbn [StreamReader.ptr_ remaining_ remainingInSlice_ sliceSize_]. opt. change (u8 (1 - 1)) with 0. rewrite decide_True by done.
  rewrite decide_True by done. eexists. split; [done|]. by apply ra_end.
Qed.

Lemma read_first i o n b d : read p (i, o) n = Some (b :: d) -> read p (i, o) 1 = Some [b] /\ read p (i, o + 1) (n - 1) = Some d.
Proof.
  intros Hr. pose proof (read_len _ _ _ _ _ Hr) as Hz. rewrite zlen_cons in Hz. change (b :: d) with ([b] ++ d) in Hr.
  replace n with (zlen [b] + zlen d) in Hr by (change (zlen [b]) with 1; lia). apply read_split in Hr as [H1 H2]. split; [done|].
  replace (n - 1) with (zlen d) by lia. done.
Qed.

(** The last byte before a link. *)
Lemma at_link i o a own data loc left lsz sz : read p (i, o + 1) 4 = Some (store_le 4 a) -> 4 <= sz <= 200 ->
  chain p (nextSliceSize sz) a own data loc left lsz -> Forall cover own -> 5 <= lsz - left ->
  exists r, incrementPointer s p (Reader (Some (InPool (i, o))) (sz - 4 + zlen data) 1 sz) = Some r /\ reader_in r data.
Proof.
  intros Hr Hsz Hc Hin Hl. destruct (chain_end _ _ _ _ _ _ _ _ Hc) as (_ & _ & _ & _ & _ & Hx & _).
  unfold incrementPointer. cbn [StreamReader.ptr_ remaining_ remainingInSlice_ sliceSize_]. opt. change (u8 (1 - 1)) with 0. rewrite decide_True by done.
  rewrite decide_False by lia. cbn [advance loadAt]. rewrite Hr. opt. rewrite word_address by (by eapply chain_address). eexists. split; [done|].
  replace (sz - 4 + zlen data - (sz - 4)) with (zlen data) by lia. by apply init_reader with own loc left lsz.
Qed.

Lemma readByte_in r b rest : reader_in r (b :: rest) -> exists r', readByte s p r = Some (b, r') /\ reader_in r' rest.
Proof.
  intros H. remember (b :: rest) as l eqn:El. destruct H as [r E|pre d post k E Hne Hz Hk|i o data k sz Hne Hz Hcov Hr Hk|i o d a own data loc left lsz k sz Hne Hz Hcov Hr Hsz Hc Hin Hl ->]; [done|..];
    unfold readByte; cbn [StreamReader.ptr_]; opt.
  - subst d. cbn [loadAt]. rewrite E. cbn [app]. change (pre ++ b :: rest ++ post) with (pre ++ [b] ++ (rest ++ post)). rewrite slice_app by done. opt. cbn [head]. opt.
    destruct (decide (rest = [])) as [->|Hrest]; [change (zlen [b]) with 1; destruct (at_end (Inline (zlen pre)) k 4 Hk) as (r & -> & Hr); by exists r|].
    rewrite in_slice by done. opt. eexists. split; [done|]. cbn [advance]. replace (zlen pre + 1) with (zlen (pre ++ [b])) by (by rewrite zlen_app).
    rewrite zlen_cons in Hz. apply (ra_object (pre ++ [b]) rest post); [by rewrite E, <- app_assoc|done|lia|done].
  - subst data. cbn [loadAt]. apply read_first in Hr as [-> Hr]. opt. cbn [head]. opt.
    destruct (decide (rest = [])) as [->|Hrest]; [change (zlen [b]) with 1; destruct (at_end (InPool (i, o)) k sz Hk) as (r & -> & Hr'); by exists r|].
    rewrite in_slice by done. opt. eexists. split; [done|]. rewrite zlen_cons in Hz, Hr, Hcov. pose proof (zlen_nonneg rest). apply ra_last; [done|lia|eapply Hcover; [exact Hcov|lia..]| |done]. rewrite <- Hr. f_equal. lia.
  - destruct d as [|c d]; [done|]. injection El as -> <-. cbn [loadAt]. apply read_first in Hr as [-> Hr]. opt. cbn [head]. opt. rewrite zlen_cons in Hr.
    replace (1 + zlen d + 4 - 1) with (zlen d + 4) in Hr by lia. destruct (decide (d = [])) as [->|Hd].
    + change (zlen [b]) with 1. destruct (at_link i o a own data loc left lsz sz) as (r & -> & Hr'); [done..|]. by exists r.
    + rewrite in_slice by done. opt. eexists. split; [done|]. rewrite zlen_cons in Hz, Hcov. pose proof (zlen_nonneg d). by apply ra_link with a own loc left lsz; [|lia|eapply Hcover; [exact Hcov|lia..]|..].
Qed.

End reader.

(** The same bytes in another pool that has the regions. *)
Lemma reader_frame cover s p p' r data : reader_in cover s p r data -> (forall i o n, cover (i, o, n) -> 0 <= n -> read p' (i, o) n = read p (i, o) n) ->
  (forall i o n o' n', cover (i, o, n) -> o <= o' -> 0 <= n' -> o' + n' <= o + n -> cover (i, o', n')) -> reader_in cover s p' r data.
Proof.
  intros Hr Hp Hc. destruct Hr as [r E|pre d post k E Hne Hz Hk|i o data k sz Hne Hz Hcov Hr Hk|i o d a own data loc left lsz k sz Hne Hz Hcov Hr Hsz Hch Hin Hl Hk].
  - by apply ra_end.
  - by eapply ra_object.
  - apply ra_last; [done..| |done]. rewrite Hp; [done|done|apply zlen_nonneg].
  - pose proof (zlen_nonneg d). eapply ra_link; [done..|by rewrite Hp by (done || lia)|done| |exact Hin|done|done].
    eapply chain_frame; [pose proof (nextSliceSize_range sz Hsz); lia|done|]. intros j q n m Hjq Hm. rewrite Forall_forall in Hin. apply Hp; [|lia]. eapply Hc; [by apply Hin|lia..].
Qed.

Definition reader_at (s : stream) (p : MemPool.pool) : StreamReader.reader -> list Z -> Prop := reader_in (fun _ => True) s p.

Lemma make_reader s p own data : stream_at p s own data -> exists r, StreamReader.make s = Some r /\ reader_at s p r data.
Proof. intros Hs. apply make_reader_in with own; [done|done|]. apply Forall_forall. done. Qed.

Lemma eof_spec s p r data : reader_at s p r data -> StreamReader.eof r = bool_decide (data = []).
Proof. apply eof_in. Qed.

Lemma readByte_spec s p r b rest : reader_at s p r (b :: rest) -> exists r', StreamReader.readByte s p r = Some (b, r') /\ reader_at s p r' rest.
Proof. by apply readByte_in. Qed.

(** [op] consumes the bytes [bs] and returns [v]. *)
Definition takes {A} (op : stream -> MemPool.pool -> StreamReader.reader -> option (A * StreamReader.reader)) (bs : list Z) (v : A) : Prop :=
  forall s p r rest, reader_at s p r (bs ++ rest) -> exists r', op s p r = Some (v, r') /\ reader_at s p r' rest.

Lemma takes_varLoop fuel w shift val b bs v : Encoding.readVarLoop w shift val b bs = Some (v, []) -> (length bs <= fuel)%nat ->
  takes (fun s p r => StreamReader.readVarLoop s p fuel w shift val b r) bs v.
Proof.
  revert shift val b bs. induction fuel as [|fuel IH]; intros shift val b bs E Hl s p r rest Hr.
  - destruct bs; [|simpl in Hl; lia]. simpl in *. case_decide; simplify_eq/=; [by exists r|by case_decide].
  - destruct bs as [|b' bs]; simpl in *; [case_decide; simplify_eq/=; [by exists r|by case_decide]|].
    case_decide; simplify_eq/=. case_decide; [done|]. destruct (readByte_spec s p r b' (bs ++ rest) Hr) as (r1 & -> & Hr1). simpl. exact (IH _ _ _ bs E ltac:(lia) s p r1 rest Hr1).
Qed.

Lemma takes_var w fuel bs v s p r rest : readVar w bs = Some (v, []) -> (length bs <= S fuel)%nat -> reader_at s p r (bs ++ rest) ->
  exists b r1 r', StreamReader.readByte s p r = Some (b, r1) /\ StreamReader.readVarLoop s p fuel w 7 (Z.land b 127) b r1 = Some (v, r') /\ reader_at s p r' rest.
Proof.
  destruct bs as [|b bs]; [done|]. simpl. intros E Hl Hr. destruct (readByte_spec s p r b (bs ++ rest) Hr) as (r1 & E1 & Hr1).
  destruct (takes_varLoop fuel w 7 (Z.land b 127) b bs v E ltac:(lia) s p r1 rest Hr1) as (r' & E' & Hr'). by exists b, r1, r'.
Qed.

(** What [writeVInt] writes, [readVint] reads; likewise for [writeVLong]. *)
Lemma vint_stream val : resource upstream -> is_s 32 val -> exists bs, emits (writeVInt upstream val) bs /\ takes StreamReader.readVint bs val /\ 0 < zlen bs <= 5.
Proof.
  intros Hup Hv. destruct (readVInt_writeVInt (u32 val) []) as (bs & E & Hl & R); [apply uwrap_range; lia|]. rewrite app_nil_r in R. unfold MAX_VINT_SIZE in Hl. exists bs.
  split; [|split; [|unfold zlen; lia]]. { apply emits_var; [done|lia|apply uwrap_range; lia|done]. }
  intros s p r rest Hr. destruct (takes_var 32 MAX_VINT_SIZE bs (u32 val) s p r rest R) as (b & r1 & r' & E1 & E2 & Hr'); [unfold MAX_VINT_SIZE; lia|done|].
  exists r'. split; [|done]. unfold StreamReader.readVint. rewrite E1. opt. rewrite E2. opt. by rewrite swrap_uwrap, swrap_id by (done || lia).
Qed.

Lemma vlong_stream val : resource upstream -> is_s 64 val -> exists bs, emits (writeVLong upstream val) bs /\ takes StreamReader.readVlong bs val /\ 0 < zlen bs <= 10.
Proof.
  intros Hup Hv. destruct (readVLong_writeVLong (u64 val) []) as (bs & E & Hl & R); [apply uwrap_range; lia|]. rewrite app_nil_r in R. unfold MAX_VLONG_SIZE in Hl. exists bs.
  split; [|split; [|unfold zlen; lia]]. { apply emits_var; [done|lia|apply uwrap_range; lia|done]. }
  intros s p r rest Hr. destruct (takes_var 64 MAX_VLONG_SIZE bs (u64 val) s p r rest R) as (b & r1 & r' & E1 & E2 & Hr'); [unfold MAX_VLONG_SIZE; lia|done|].
  exists r'. split; [|done]. unfold StreamReader.readVlong. rewrite E1. opt. rewrite E2. opt. by rewrite swrap_uwrap, swrap_id by (done || lia).
Qed.

End theory.

(** [writeVInt2] does not write what [readVint] reads: of 128 it writes the first byte only. *)
Example writeVInt2_128 :
  match MemPool.make zero_memory with
  | Some p =>
      match Stream.writeVInt2 zero_memory 128 (Stream.make [0; 0; 0; 0], p) with
      | Ret (s, p) => Stream.size s = 1 /\ (r ← StreamReader.make s; StreamReader.readVint s p r) = None
      | _ => False
      end
  | None => False
  end.
Proof. vm_compute. done. Qed.
