(* ===== verification/PoolObjects.v ===== *)
(** Objects that keep their data in a pool, and any number of them in the same pool.

    [PoolObject] is what such an object promises: given funds, an operation of it succeeds, changes only the regions it
    owns or is freshly given, and its data can be read back.  The posting streams of [PostingStreams] are instances, and so is
    the choice between two instances.  [System] is a pool shared by a list of objects, as the inverter's pool is by the streams of its
    fields and terms; between their operations anything else may be allocated from it, in requests of up to 4 MiB. *)

From S2P Require Import Prelude MemPool PoolStream.

(** The events of an object, its output and the properties of its operations.  [holds o0 p o own n h]: after the events [h],
    the object that was [o0] at first is [o], owns [own] and has written [n] bytes. *)
Class PoolObject (upstream : Z -> Z -> list Z) (O E V : Type) := {
  step : E -> O * MemPool.pool -> outcome (O * MemPool.pool);
  output : O -> MemPool.pool -> option V;
  fresh : O -> Prop;
  allowed : O -> list E -> E -> Prop;
  weight : E -> Z;
  meaning : O -> list E -> V;
  holds : O -> MemPool.pool -> O -> list region -> Z -> list E -> Prop;
  holds_fresh o p : fresh o -> holds o p o [] 0 [];
  holds_inside o0 p o own n h : holds o0 p o own n h -> Forall (inside p) own;
  holds_cost o0 p o own n h : holds o0 p o own n h -> 0 <= n /\ 2 * cost own <= 5 * n;
  holds_frame o0 p p' o own n h : holds o0 p o own n h -> untouched own p p' -> Forall (inside p') own -> holds o0 p' o own n h;
  holds_step o0 p o own n h e : resource upstream -> pool_ok p -> holds o0 p o own n h -> allowed o0 h e ->
    5 * weight e <= funds p own n -> n + weight e <= MAX_STREAM ->
    exists o' p' own' n', step e (o, p) = Ret (o', p') /\ holds o0 p' o' own' n' (h ++ [e]) /\ evolves own own' p p' /\
      n' <= n + weight e /\ funds p own n - 5 * weight e <= funds p' own' n';
  holds_output o0 p o own n h : holds o0 p o own n h -> output o p = Some (meaning o0 h) }.

#[export] Hint Mode PoolObject - ! - - : typeclass_instances.

(** ** One of two kinds of object *)

Section sum.
Context {upstream : Z -> Z -> list Z} {O1 E1 V1 O2 E2 V2 : Type} `{!PoolObject upstream O1 E1 V1} `{!PoolObject upstream O2 E2 V2}.

Definition lefts (h : list (E1 + E2)) : list E1 := omap (fun e => match e with inl e => Some e | inr _ => None end) h.
Definition rights (h : list (E1 + E2)) : list E2 := omap (fun e => match e with inr e => Some e | inl _ => None end) h.

Definition sum_step (e : E1 + E2) (op : (O1 + O2) * MemPool.pool) : outcome ((O1 + O2) * MemPool.pool) :=
  match e, op with
  | inl e, (inl o, p) => '(o, p) ← step (upstream := upstream) e (o, p); Ret (inl o, p)
  | inr e, (inr o, p) => '(o, p) ← step (upstream := upstream) e (o, p); Ret (inr o, p)
  | _, _ => Undef
  end.

Definition sum_holds (o0 : O1 + O2) (p : MemPool.pool) (o : O1 + O2) (own : list region) (n : Z) (h : list (E1 + E2)) : Prop :=
  match o0, o with
  | inl o0, inl o => holds o0 p o own n (lefts h)
  | inr o0, inr o => holds o0 p o own n (rights h)
  | _, _ => False
  end.

Definition sum_allowed (o : O1 + O2) (h : list (E1 + E2)) (e : E1 + E2) : Prop :=
  match o, e with inl o, inl e => allowed o (lefts h) e | inr o, inr e => allowed o (rights h) e | _, _ => False end.

#[export, program] Instance sum_object : PoolObject upstream (O1 + O2) (E1 + E2) (V1 + V2) := {
  step := sum_step;
  output o p := match o with inl o => inl <$> output o p | inr o => inr <$> output o p end;
  fresh o := match o with inl o => fresh o | inr o => fresh o end;
  allowed := sum_allowed;
  weight e := match e with inl e => weight (O := O1) e | inr e => weight (O := O2) e end;
  meaning o h := match o with inl o => inl (meaning o (lefts h)) | inr o => inr (meaning o (rights h)) end;
  holds := sum_holds }.
Next Obligation. intros [o|o] p H; by apply holds_fresh. Qed.
Next Obligation. intros [o0|o0] p [o|o] own n h; simpl; try done; by apply holds_inside. Qed.
Next Obligation. intros [o0|o0] p [o|o] own n h; simpl; try done; by apply holds_cost. Qed.
Next Obligation. intros [o0|o0] p p' [o|o] own n h; simpl; try done; by apply holds_frame. Qed.
Next Obligation.
  intros [o0|o0] p [o|o] own n h [e|e] Hup Hp Hh Ha Hf Hm; simpl in *; try done;
    destruct (holds_step o0 p o own n _ e Hup Hp Hh Ha Hf Hm) as (o' & p' & own' & n' & -> & Hh' & Hr); eexists _, p', own', n'; (split; [done|]); (split; [|done]); simpl.
  - unfold lefts in *. by rewrite omap_app.
  - unfold rights in *. by rewrite omap_app.
Qed.
Next Obligation. intros [o0|o0] p [o|o] own n h H; simpl in *; try done; by rewrite (holds_output _ _ _ _ _ _ H). Qed.

End sum.

(** ** A pool shared by many objects *)

Section system.
Context {upstream : Z -> Z -> list Z} (base : Z -> Z -> Z) {O E V : Type} `{!PoolObject upstream O E V}.

(** An event of the [k]-th object, or an allocation for something else. *)
Inductive action := On (k : Z) (e : E) | Other (r : request).

Definition act (st : list O * MemPool.pool) (a : action) : outcome (list O * MemPool.pool) :=
  match a with
  | On k e =>
      o ← lift (st.1.[k]);
      '(o, p) ← step (upstream := upstream) e (o, st.2);
      os ← lift (zset st.1 k o);
      Ret (os, p)
  | Other r => '(_, p) ← serve upstream base r st.2; Ret (st.1, p)
  end.

Definition run (actions : list action) (st : list O * MemPool.pool) : outcome (list O * MemPool.pool) := foldE act st actions.

(** The events of the [k]-th object. *)
Definition events (k : Z) (actions : list action) : list E :=
  omap (fun a => match a with On j e => if decide (j = k) then Some e else None | Other _ => None end) actions.

Definition price (a : action) : Z := match a with On _ e => 5 * weight (O := O) e | Other r => 2 * loss (reach r) end.

Definition prices (actions : list action) : Z := foldr Z.add 0 (price <$> actions).

Section run.
Context (objects : list O).

(** The action is possible after the actions before it. *)
Definition possible (before : list action) (a : action) : Prop :=
  match a with
  | On k e => exists o, objects.[k] = Some o /\ allowed o (events k before) e /\ 0 <= weight (O := O) e
  | Other r => request_ok base r
  end.

Definition possible_all (actions : list action) : Prop := forall before a after, actions = before ++ a :: after -> possible before a.

Fixpoint possible_from (before actions : list action) : Prop :=
  match actions with [] => True | a :: actions => possible before a /\ possible_from (before ++ [a]) actions end.

Lemma possible_all_intro actions : possible_from [] actions -> possible_all actions.
Proof.
  intros H before a after. enough (forall done, possible_from done actions -> actions = before ++ a :: after -> possible (done ++ before) a) as Hx by (by apply (Hx [])).
  clear H. revert actions. induction before as [|b before IH]; intros actions done H ->; simpl in H; destruct H as [H1 H2].
  - by rewrite app_nil_r.
  - rewrite (app_assoc done [b] before : done ++ b :: before = _). by eapply IH.
Qed.

Definition separate (own own' : list region) : Prop := forall r, r ∈ own -> apart r own'.

Definition credit (part : list region * Z) : Z := 5 * part.2 - 2 * cost part.1.

Definition total (f : list region * Z -> Z) (parts : list (list region * Z)) : Z := foldr Z.add 0 (f <$> parts).

(** What each object owns, and how much the pool has left when all are paid for. *)
Record sys_ok (start : Z) (before : list action) (os : list O) (p : MemPool.pool) (parts : list (list region * Z)) : Prop := {
  sy_pool : pool_ok p;
  sy_len : zlen os = zlen objects /\ zlen parts = zlen objects;
  sy_holds : forall k o0 o part, objects.[k] = Some o0 -> os.[k] = Some o -> parts.[k] = Some part -> holds o0 p o part.1 part.2 (events k before);
  sy_separate : forall j k x y, parts.[j] = Some x -> parts.[k] = Some y -> j <> k -> separate x.1 y.1;
  sy_funds : start - prices before <= 2 * room p - total credit parts;
  sy_bytes : 5 * total snd parts <= prices before }.

Lemma total_insert f parts k x y : parts.[k] = Some x -> total f (<[Z.to_nat k := y]> parts) = total f parts - f x + f y.
Proof.
  unfold total. intros Hk. pose proof (zget_Some_range _ _ _ Hk) as Hr. rewrite <- (Z2Nat.id k), zget_nat in Hk by lia. clear Hr.
  revert Hk. generalize (Z.to_nat k). clear k. induction parts as [|z parts IH]; intros [|k] Hk; [done|done|..].
  - injection Hk as ->. simpl. lia.
  - change (f z + foldr Z.add 0 (f <$> <[k := y]> parts) = f z + foldr Z.add 0 (f <$> parts) - f x + f y). rewrite (IH k Hk). lia.
Qed.

Lemma total_part f parts k x : Forall (fun z => 0 <= f z) parts -> parts.[k] = Some x -> f x <= total f parts.
Proof.
  unfold total. intros Hf Hk. apply zget_elem_1 in Hk. induction Hf as [|z parts Hz Hf IH]; [by apply not_elem_of_nil in Hk|].
  assert (0 <= foldr Z.add 0 (f <$> parts)) by (clear IH Hk; induction Hf; [done|by apply Z.add_nonneg_nonneg]).
  change (f x <= f z + foldr Z.add 0 (f <$> parts)). apply elem_of_cons in Hk as [->|Hk]; [lia|]. specialize (IH Hk). lia.
Qed.

Lemma separate_sym own own' : separate own own' -> separate own' own.
Proof.
  unfold separate, apart. intros H r Hr. apply Forall_forall. intros r' Hr'. apply disjoint_sym. specialize (H r' Hr'). rewrite Forall_forall in H. by apply H.
Qed.

(** What an operation of one owner leaves to another. *)
Lemma evolves_untouched own own' other p p' : evolves own own' p p' -> Forall (inside p) other -> separate other own ->
  untouched other p p' /\ Forall (inside p') other /\ separate other own'.
Proof.
  intros Hev Hin Hs. rewrite Forall_forall in Hin. split; [|split].
  - intros i o n m Hr Hm. specialize (Hin _ Hr). apply (ev_read _ _ _ _ Hev); [eapply inside_sub; [done|lia..]|]. specialize (Hs _ Hr). unfold apart in *.
    eapply Forall_impl; [exact Hs|]. intros r Hd. apply disjoint_sym. eapply disjoint_sub; [by apply disjoint_sym|lia..].
  - apply Forall_forall. intros r Hr. by apply Hev, Hin.
  - intros r Hr. apply Hev; [by apply Hin|by apply Hs].
Qed.

Lemma prices_app l k : prices (l ++ k) = prices l + prices k.
Proof. unfold prices. rewrite fmap_app, foldr_app, foldr_add_init. lia. Qed.

Lemma prices_snoc before a : prices (before ++ [a]) = prices before + price a.
Proof. rewrite prices_app. unfold prices at 2. simpl. lia. Qed.

Lemma events_snoc k before a : events k (before ++ [a]) = events k before ++ match a with On j e => if decide (j = k) then [e] else [] | Other _ => [] end.
Proof. unfold events. rewrite omap_app. f_equal. destruct a; simpl; [by case_decide|done]. Qed.

Section step.
Context (start : Z) (before : list action) (os : list O) (p : MemPool.pool) (parts : list (list region * Z)) (Hsys : sys_ok start before os p parts).

Lemma part_holds k part : parts.[k] = Some part -> exists o0 o, objects.[k] = Some o0 /\ os.[k] = Some o /\ holds o0 p o part.1 part.2 (events k before).
Proof.
  intros Hk. destruct (sy_len _ _ _ _ _ Hsys) as [H1 H2]. pose proof (zget_Some_range _ _ _ Hk). destruct (zget_in objects k) as [o0 E0]; [lia|].
  destruct (zget_in os k) as [o Eo]; [lia|]. exists o0, o. split; [done|]. split; [done|]. by apply Hsys.
Qed.

Lemma parts_nonneg : Forall (fun z => 0 <= credit z) parts /\ Forall (fun z : list region * Z => 0 <= z.2) parts.
Proof.
  split; apply Forall_forall; intros z (k & Hk)%zget_elem; destruct (part_holds k z Hk) as (o0 & o & _ & _ & H); apply holds_cost in H; unfold credit; lia.
Qed.

(** The invariant after the operation of the [k]-th object, with its new part. *)
Lemma object_acts k o0 o part e o' p' own' n' : objects.[k] = Some o0 -> os.[k] = Some o -> parts.[k] = Some part ->
  holds o0 p' o' own' n' (events k before ++ [e]) -> evolves part.1 own' p p' -> n' <= part.2 + weight (O := O) e ->
  funds p part.1 part.2 - 5 * weight (O := O) e <= funds p' own' n' -> 0 <= weight (O := O) e ->
  sys_ok start (before ++ [On k e]) (<[Z.to_nat k := o']> os) p' (<[Z.to_nat k := (own', n')]> parts).
Proof.
  intros E0 Eo Ek Hh Hev Hn Hf Hw. pose proof (zget_Some_range _ _ _ Eo). pose proof (zget_Some_range _ _ _ Ek). destruct (sy_len _ _ _ _ _ Hsys) as [H1 H2].
  assert (forall j x, parts.[j] = Some x -> j <> k -> untouched x.1 p p' /\ Forall (inside p') x.1 /\ separate x.1 own') as Hother.
  { intros j x Ej Hj. apply (evolves_untouched part.1); [done| |by eapply Hsys]. destruct (part_holds j x Ej) as (? & ? & _ & _ & H'). by eapply holds_inside. }
  constructor.
  - apply Hev.
  - by rewrite !zlen_insert.
  - intros j q0 q x Ej0 Ejo Ejx. rewrite zget_insert in Ejo by lia. rewrite zget_insert in Ejx by lia. rewrite events_snoc. case_decide as Hj.
    + injection Ejo as <-. injection Ejx as <-. subst j. by replace q0 with o0 by congruence.
    + destruct (Hother j x Ejx) as (Hu & Hin & _); [done|]. rewrite app_nil_r. eapply holds_frame; [|done..]. by eapply Hsys.
  - intros i j x y Ei Ej Hij. rewrite zget_insert in Ei, Ej by lia. destruct (decide (k = i)) as [Hi|Hi]; destruct (decide (k = j)) as [Hj|Hj]; [lia|..].
    + injection Ei as <-. apply separate_sym. by apply (Hother j y Ej).
    + injection Ej as <-. by apply (Hother i x Ei).
    + by eapply Hsys.
  - rewrite prices_snoc, (total_insert _ _ _ _ _ Ek). pose proof (sy_funds _ _ _ _ _ Hsys). unfold funds, credit, price in *. cbn [fst snd]. lia.
  - rewrite prices_snoc, (total_insert _ _ _ _ _ Ek). pose proof (sy_bytes _ _ _ _ _ Hsys). unfold price. cbn [fst snd]. lia.
Qed.

(** What is allocated for something else, and written there, is not the objects'. *)
Lemma others_ok before' x p' : evolves [] x p p' -> (forall k, events k before' = events k before) -> prices before <= prices before' ->
  start - prices before' <= 2 * room p' - total credit parts -> sys_ok start before' os p' parts.
Proof.
  intros Hev He Hp' Hf. constructor.
  - apply Hev.
  - apply Hsys.
  - intros k o0 o y E0 Eo Ey. rewrite He. pose proof (sy_holds _ _ _ _ _ Hsys _ _ _ _ E0 Eo Ey) as Hh.
    destruct (evolves_untouched [] x y.1 p p' Hev) as (Hu & Hin & _); [by eapply holds_inside|intros r _; apply List.Forall_nil|]. by eapply holds_frame.
  - apply Hsys.
  - done.
  - pose proof (sy_bytes _ _ _ _ _ Hsys). lia.
Qed.

Lemma reach_nonneg r : request_ok base r -> 0 <= reach r <= loss (reach r).
Proof.
  intros (H0 & _ & Hr). assert (0 <= reach r) as Hpos. { destruct r as [n|n|n|n k]; simpl in *; [lia..|]. destruct Hr as [Hk _]. pose proof (pow2_pos k ltac:(lia)). lia. }
  unfold loss. case_decide; lia.
Qed.

Lemma act_ok a : resource upstream -> possible before a -> prices before + price a <= start <= 5 * MAX_STREAM ->
  exists os' p' parts', act (os, p) a = Ret (os', p') /\ sys_ok start (before ++ [a]) os' p' parts'.
Proof.
  intros Hup Hpos Hpay. destruct parts_nonneg as [Hc Hn]. pose proof (sy_funds _ _ _ _ _ Hsys) as Hfunds. pose proof (sy_bytes _ _ _ _ _ Hsys) as Hbytes.
  destruct (sy_len _ _ _ _ _ Hsys) as [H1 H2]. destruct a as [k e|r]; cbn [possible price act fst snd] in *.
  - destruct Hpos as (o0 & E0 & Ha & Hw). pose proof (zget_Some_range _ _ _ E0). destruct (zget_in os k) as [o Eo]; [lia|]. destruct (zget_in parts k) as [part Ek]; [lia|].
    pose proof (sy_holds _ _ _ _ _ Hsys _ _ _ _ E0 Eo Ek) as Hh. pose proof (total_part credit parts k part Hc Ek) as Hck. pose proof (total_part snd parts k part Hn Ek) as Hnk.
    destruct (holds_step o0 p o part.1 part.2 _ e Hup (sy_pool _ _ _ _ _ Hsys) Hh Ha) as (o' & p' & own' & n' & Es & Hh' & Hev & Hn' & Hf'); [unfold funds, credit in *; lia|lia|].
    rewrite Eo. cbn [lift mbind outcome_bind]. rewrite Es. cbn [mbind outcome_bind]. rewrite zset_in by lia. cbn [lift mbind outcome_bind].
    eexists _, p', (<[Z.to_nat k := (own', n')]> parts). split; [done|]. by apply (object_acts k o0 o part).
  - pose proof (reach_nonneg r Hpos) as Hreach. assert (0 <= total credit parts) by (clear - Hc; unfold total; induction Hc; [done|by apply Z.add_nonneg_nonneg]).
    destruct (serve_room upstream Hup base r p (sy_pool _ _ _ _ _ Hsys) Hpos) as (off & p' & -> & Hev & Hr); [change SMALL with 200; lia|].
    cbn [mbind outcome_bind]. exists os, p', parts. split; [done|]. apply (others_ok _ _ _ Hev); [intros k; by rewrite events_snoc, app_nil_r|rewrite prices_snoc; simpl; lia|rewrite prices_snoc; simpl; lia].
Qed.

End step.

Lemma start_ok p : pool_ok p -> Forall fresh objects -> sys_ok (2 * room p) [] objects p (replicate (length objects) ([], 0)).
Proof.
  intros Hp Hf. assert (forall f k x, (f : list region * Z -> Z) ([], 0) = 0 -> total f (replicate k ([], 0)) = 0 /\ ((replicate k ([], 0) : list (list region * Z)).[x] = None \/ (replicate k ([], 0) : list (list region * Z)).[x] = Some ([], 0))) as Hrep.
  { intros f k x H0. split; [induction k as [|k IH]; [done|]; unfold total in *; simpl; rewrite H0; done|].
    destruct (_.[x]) as [y|] eqn:Ey; [|by left]. apply zget_elem_1, elem_of_replicate in Ey as [-> _]. by right. }
  constructor.
  - done.
  - split; [done|]. by rewrite zlen_replicate.
  - intros k o0 o x E0 Eo Ex. assert (x = ([], 0)) as ->. { destruct (Hrep snd (length objects) k eq_refl) as [_ [H|H]]; congruence. }
    assert (o = o0) as -> by congruence. apply holds_fresh. rewrite Forall_forall in Hf. by eapply Hf, zget_elem_1.
  - intros j k x y Ex Ey _. assert (x = ([], 0)) as ->. { destruct (Hrep snd (length objects) j eq_refl) as [_ [H|H]]; congruence. } intros r Hr. by apply not_elem_of_nil in Hr.
  - rewrite (proj1 (Hrep credit _ 0 eq_refl)). unfold prices. simpl. lia.
  - rewrite (proj1 (Hrep snd _ 0 eq_refl)). unfold prices. simpl. lia.
Qed.

(** Any interleaving of the objects' operations gives each of them what its own operations mean. *)
Lemma run_ok actions p : resource upstream -> pool_ok p -> Forall fresh objects -> possible_all actions ->
  prices actions <= 2 * room p <= 5 * MAX_STREAM ->
  exists os p' parts, run actions (objects, p) = Ret (os, p') /\ sys_ok (2 * room p) actions os p' parts.
Proof.
  intros Hup Hp Hf Hpos Hpay. assert (Forall (fun a => 0 <= price a) actions) as Hprice.
  { apply Forall_forall. intros a (before & after & Ea)%list_elem_of_split. specialize (Hpos before a after Ea). destruct a as [k e|r]; simpl in *; [destruct Hpos as (? & _ & _ & ?); lia|]. pose proof (reach_nonneg r Hpos). lia. }
  assert (forall done rest, actions = done ++ rest -> exists os p' parts, foldE act (objects, p) done = Ret (os, p') /\ sys_ok (2 * room p) done os p' parts) as Hinv.
  { intros done. induction done as [|a done IH] using rev_ind; intros rest Er; [by eexists _, _, _; split; [|apply start_ok]|].
    destruct (IH (a :: rest)) as (os & p1 & parts & E1 & Hs); [by rewrite Er, <- app_assoc|]. rewrite foldE_app, E1. cbn [mbind outcome_bind].
    destruct (act_ok _ _ _ _ _ Hs a Hup) as (os' & p2 & parts' & E2 & Hs').
    - by apply (Hpos done a rest); rewrite Er, <- app_assoc.
    - assert (0 <= prices rest) as Hrest. { rewrite Er in Hprice. apply Forall_app in Hprice as [_ Hprice]. clear - Hprice. unfold prices. induction Hprice; [done|by apply Z.add_nonneg_nonneg]. }
      rewrite Er, prices_app, prices_snoc in Hpay. lia.
    - cbn [foldE]. rewrite E2. by exists os', p2, parts'. }
  destruct (Hinv actions []) as (os & p' & parts & Ef & Hs); [by rewrite app_nil_r|]. by exists os, p', parts.
Qed.

Lemma sys_outputs start actions os p parts : sys_ok start actions os p parts ->
  zlen os = zlen objects /\ forall k o0 o, objects.[k] = Some o0 -> os.[k] = Some o -> output o p = Some (meaning o0 (events k actions)).
Proof.
  intros Hs. destruct (sy_len _ _ _ _ _ Hs) as [H1 H2]. split; [done|]. intros k o0 o E0 Eo. destruct (zget_in parts k) as [part Ek]; [pose proof (zget_Some_range _ _ _ E0); lia|].
  eapply holds_output. by eapply Hs.
Qed.

End run.
End system.

(** ** Objects with two streams *)

Lemma cost_app own own' : cost (own ++ own') = cost own + cost own'.
Proof. unfold cost. rewrite fmap_app, foldr_app, foldr_add_init. lia. Qed.

Lemma evolves_frame own own' other p p' : evolves own own' p p' -> Forall (inside p) other -> separate other own ->
  evolves (own ++ other) (own' ++ other) p p' /\ separate other own'.
Proof.
  intros Hev Hin Hs. destruct (evolves_untouched own own' other p p' Hev Hin Hs) as (Hu & Hin' & Hs'). split; [|done]. constructor; [apply Hev|apply Hev| | |].
  - apply Forall_app. split; [apply Hev|done].
  - intros r Hr [H1 H2]%Forall_app. apply Forall_app. split; [by apply Hev|done].
  - intros j q n Hr [H1 H2]%Forall_app. by apply Hev.
Qed.

Lemma evolves_swap a b a' b' p p' : evolves (a ++ b) (a' ++ b') p p' -> evolves (b ++ a) (b' ++ a') p p'.
Proof.
  assert (forall r x y, apart r (x ++ y) -> apart r (y ++ x)) as H. { unfold apart. intros r x y. rewrite !Forall_app. tauto. }
  intros [H1 H2 H3 H4 H5]. constructor; [done|done| | |].
  - rewrite Forall_app in *. tauto.
  - intros r Hr Ha. by apply H, H4, H.
  - intros j q n Hr Ha. by apply H5, H.
Qed.

(** The second stream is in another part of the pool than the first. *)
Record pair_at (p : MemPool.pool) (s1 s2 : Stream.stream) (own1 own2 : list region) (data1 data2 : list Z) : Prop := {
  pa_first : stream_at p s1 own1 data1;
  pa_second : stream_at p s2 own2 data2;
  pa_separate : separate own2 own1 }.

Lemma pair_inside p s1 s2 own1 own2 data1 data2 : pair_at p s1 s2 own1 own2 data1 data2 -> Forall (inside p) (own1 ++ own2).
Proof. intros [H1 H2 _]. apply Forall_app. split; by eapply stream_inside. Qed.

Lemma pair_cost p s1 s2 own1 own2 data1 data2 : pair_at p s1 s2 own1 own2 data1 data2 ->
  0 <= zlen data1 + zlen data2 /\ 2 * cost (own1 ++ own2) <= 5 * (zlen data1 + zlen data2).
Proof. intros [H1 H2 _]. rewrite cost_app. apply stream_cost in H1, H2. pose proof (zlen_nonneg data1). pose proof (zlen_nonneg data2). lia. Qed.

Lemma pair_frame p p' s1 s2 own1 own2 data1 data2 : pair_at p s1 s2 own1 own2 data1 data2 -> untouched (own1 ++ own2) p p' -> Forall (inside p') (own1 ++ own2) ->
  pair_at p' s1 s2 own1 own2 data1 data2.
Proof.
  intros [H1 H2 H3] Hu [Hin1 Hin2]%Forall_app. constructor; [eapply stream_frame; [done| |done]|eapply stream_frame; [done| |done]|done]; intros i q k m Hr'; apply Hu, elem_of_app; auto.
Qed.

Section two.
Context (p : MemPool.pool) (Hp : pool_ok p) (s1 s2 : Stream.stream) (own1 own2 : list region) (data1 data2 : list Z) (Ho : pair_at p s1 s2 own1 own2 data1 data2).

Lemma pair_funds (bs : list Z) : 5 * zlen bs <= funds p (own1 ++ own2) (zlen data1 + zlen data2) -> zlen data1 + zlen data2 + zlen bs <= MAX_STREAM ->
  5 * zlen bs <= funds p own1 (zlen data1) /\ 5 * zlen bs <= funds p own2 (zlen data2) /\ zlen data1 + zlen bs <= MAX_STREAM /\ zlen data2 + zlen bs <= MAX_STREAM.
Proof.
  pose proof (stream_cost _ _ _ _ (pa_first _ _ _ _ _ _ _ Ho)). pose proof (stream_cost _ _ _ _ (pa_second _ _ _ _ _ _ _ Ho)). pose proof (zlen_nonneg data1). pose proof (zlen_nonneg data2).
  unfold funds. rewrite cost_app. lia.
Qed.

(** Writing to one of the streams leaves the other. *)
Lemma emit_first f bs : emits f bs -> 5 * zlen bs <= funds p (own1 ++ own2) (zlen data1 + zlen data2) -> zlen data1 + zlen data2 + zlen bs <= MAX_STREAM ->
  exists s p' own1', f (s1, p) = Ret (s, p') /\ evolves (own1 ++ own2) (own1' ++ own2) p p' /\ pair_at p' s s2 own1' own2 (data1 ++ bs) data2 /\
    funds p (own1 ++ own2) (zlen data1 + zlen data2) - 5 * zlen bs <= funds p' (own1' ++ own2) (zlen (data1 ++ bs) + zlen data2).
Proof.
  intros He Hf Hm. destruct (pair_funds bs Hf Hm) as (H1 & _ & H3 & _). destruct Ho as [Hs1 Hs2 Hsep0]. destruct (He p s1 own1 data1 Hp Hs1 H1 H3) as (s & p' & own1' & E & Hs & Hev & Hf').
  pose proof (stream_inside _ _ _ _ Hs2) as Hin. destruct (evolves_frame _ _ own2 p p' Hev Hin Hsep0) as [Hev' Hsep]. destruct (evolves_untouched _ _ own2 p p' Hev Hin Hsep0) as (Hu & Hin' & _).
  exists s, p', own1'. split; [done|]. split; [done|]. split; [constructor; [done|by eapply stream_frame|done]|]. unfold funds in *. rewrite !cost_app. lia.
Qed.

Lemma emit_second f bs : emits f bs -> 5 * zlen bs <= funds p (own1 ++ own2) (zlen data1 + zlen data2) -> zlen data1 + zlen data2 + zlen bs <= MAX_STREAM ->
  exists s p' own2', f (s2, p) = Ret (s, p') /\ evolves (own1 ++ own2) (own1 ++ own2') p p' /\ pair_at p' s1 s own1 own2' data1 (data2 ++ bs) /\
    funds p (own1 ++ own2) (zlen data1 + zlen data2) - 5 * zlen bs <= funds p' (own1 ++ own2') (zlen data1 + zlen (data2 ++ bs)).
Proof.
  intros He Hf Hm. destruct (pair_funds bs Hf Hm) as (_ & H2 & _ & H4). destruct Ho as [Hs1 Hs2 Hsep0%separate_sym]. destruct (He p s2 own2 data2 Hp Hs2 H2 H4) as (s & p' & own2' & E & Hs & Hev & Hf').
  pose proof (stream_inside _ _ _ _ Hs1) as Hin. destruct (evolves_frame _ _ own1 p p' Hev Hin Hsep0) as [Hev' Hsep]. destruct (evolves_untouched _ _ own1 p p' Hev Hin Hsep0) as (Hu & Hin' & _).
  exists s, p', own2'. split; [done|]. split; [by apply evolves_swap|]. split; [constructor; [by eapply stream_frame|done|by apply separate_sym]|]. unfold funds in *. rewrite !cost_app. lia.
Qed.

End two.
