(* ===== verification/PostingStreams.v ===== *)
(** The streams that documents are inverted into: [luxir/index/DocStream.h].

    Each class writes numbers to a [Stream] of the pool and reads them back in order.  They are instances of [PoolObject], so that any number of
    them can share a pool.  A consumer's calls are the list that is returned; a call-back cannot fail. *)

From S2P Require Import Prelude Encoding MemPool PoolStream PoolObjects.

(** The state of an object after its stream was written. *)
Definition on_stream {O} (f : Stream.stream * MemPool.pool -> outcome (Stream.stream * MemPool.pool)) (s : Stream.stream) (p : MemPool.pool)
    (k : Stream.stream -> O) : outcome (O * MemPool.pool) :=
  '(s, p) ← f (s, p); Ret (k s, p).

Module DocStream.

Record docs := Docs { stream : Stream.stream; lastDoc : Z; runStart : Z; prevRunEnd : Z }.

Definition make (uninitialized : list Z) : docs := Docs (Stream.make uninitialized) (-1) 0 (-1).

Definition addDoc (upstream : Z -> Z -> list Z) (docid : Z) (sp : docs * MemPool.pool) : outcome (docs * MemPool.pool) :=
  let '(o, p) := sp in
  let delta := docid - lastDoc o in
  if decide (is_s 32 delta /\ delta > 0) then
    if decide (delta <> 1) then
      let runSize := lastDoc o - runStart o + 1 in
      let gap := runStart o - prevRunEnd o in
      sp ← Stream.writeVInt upstream gap (stream o, p);
      '(s, p) ← Stream.writeVInt upstream runSize sp;
      Ret (Docs s docid docid (lastDoc o), p)
    else Ret (Docs (stream o) docid (runStart o) (prevRunEnd o), p)
  else Undef.

(** The runs before the last one; the stream is not empty more often than it has bytes. *)
Fixpoint runsLoop (fuel : nat) (source : Stream.stream) (p : MemPool.pool) (r : StreamReader.reader) (runPtr : Z) : option (list Z) :=
  if StreamReader.eof r then Some []
  else match fuel with
       | O => None
       | S fuel =>
           '(gap, r) ← StreamReader.readVint source p r;
           '(runSize, r) ← StreamReader.readVint source p r;
           let runPtr := runPtr + gap in
           rest ← runsLoop fuel source p r (runPtr + (runSize - 1));
           Some (seqZ runPtr runSize ++ rest)
       end.

Definition forEachDoc (o : docs) (p : MemPool.pool) : option (list Z) :=
  dstream ← StreamReader.make (stream o);
  ds ← runsLoop (Z.to_nat (Stream.size (stream o))) (stream o) p dstream (-1);
  Some (ds ++ seqZ (runStart o) (lastDoc o - runStart o + 1)).

End DocStream.

(** A loop that reads a value after the other until the end of the stream, from the previous value. *)
Fixpoint valuesLoop (fuel : nat) (next : Z -> StreamReader.reader -> option (Z * StreamReader.reader)) (prev : Z) (r : StreamReader.reader) : option (list Z) :=
  if StreamReader.eof r then Some []
  else match fuel with
       | O => None
       | S fuel => '(val, r) ← next prev r; (val ::.) <$> valuesLoop fuel next val r
       end.

Definition values (source : Stream.stream) (next : Z -> StreamReader.reader -> option (Z * StreamReader.reader)) : option (list Z) :=
  r ← StreamReader.make source; valuesLoop (Z.to_nat (Stream.size source)) next 0 r.

Module IntStream.

Record ints := Ints { storage : Stream.stream; lastVal : Z }.

Definition make (uninitialized : list Z) : ints := Ints (Stream.make uninitialized) 0.

Definition addVal (upstream : Z -> Z -> list Z) (val : Z) (sp : ints * MemPool.pool) : outcome (ints * MemPool.pool) :=
  on_stream (Stream.writeVInt upstream (Z.lxor (lastVal sp.1) val)) (storage sp.1) sp.2 (fun s => Ints s val).

Definition next (source : Stream.stream) (p : MemPool.pool) (previous : Z) (r : StreamReader.reader) : option (Z * StreamReader.reader) :=
  '(code, r) ← StreamReader.readVint source p r; Some (Z.lxor previous code, r).

Definition visitValues (o : ints) (p : MemPool.pool) : option (list Z) := values (storage o) (next (storage o) p).

End IntStream.

Module IntDeltaStream.

Record ints := Ints { storage : Stream.stream; lastVal : Z }.

Definition make (uninitialized : list Z) : ints := Ints (Stream.make uninitialized) 0.

Definition addVal (upstream : Z -> Z -> list Z) (val : Z) (sp : ints * MemPool.pool) : outcome (ints * MemPool.pool) :=
  let code := val - lastVal sp.1 in
  if decide (val >= lastVal sp.1 /\ is_s 32 code) then on_stream (Stream.writeVInt upstream code) (storage sp.1) sp.2 (fun s => Ints s val) else Undef.

Definition next (source : Stream.stream) (p : MemPool.pool) (prev : Z) (r : StreamReader.reader) : option (Z * StreamReader.reader) :=
  '(code, r) ← StreamReader.readVint source p r;
  if decide (is_s 32 (prev + code)) then Some (prev + code, r) else None.

Definition pushValues (o : ints) (p : MemPool.pool) : option (list Z) := values (storage o) (next (storage o) p).

End IntDeltaStream.

Module LongStream.

Record longs := Longs { storage : Stream.stream; lastVal : Z }.

Definition make (uninitialized : list Z) : longs := Longs (Stream.make uninitialized) 0.

Definition addVal (upstream : Z -> Z -> list Z) (val : Z) (sp : longs * MemPool.pool) : outcome (longs * MemPool.pool) :=
  on_stream (Stream.writeVLong upstream (Z.lxor (lastVal sp.1) val)) (storage sp.1) sp.2 (fun s => Longs s val).

(** The constructor with a first value writes it as an [int]. *)
Definition make_with (upstream : Z -> Z -> list Z) (uninitialized : list Z) (val : Z) (p : MemPool.pool) : outcome (longs * MemPool.pool) :=
  on_stream (Stream.writeVInt upstream (s32 val)) (Stream.make uninitialized) p (fun s => Longs s val).

Definition next (source : Stream.stream) (p : MemPool.pool) (prev : Z) (r : StreamReader.reader) : option (Z * StreamReader.reader) :=
  '(code, r) ← StreamReader.readVlong source p r; Some (Z.lxor prev code, r).

Definition visitValues (o : longs) (p : MemPool.pool) : option (list Z) := values (storage o) (next (storage o) p).

End LongStream.

Module DocFreqPosStream.

Record postings := Postings { docs : Stream.stream; positions : Stream.stream; lastDoc : Z; lastDocDelta : Z; docFreq : Z; termFreq : Z; lastPos : Z }.

Section upstream.
Context (upstream : Z -> Z -> list Z).

Definition writePos (pos : Z) (sp : postings * MemPool.pool) : outcome (postings * MemPool.pool) :=
  let '(o, p) := sp in
  let posCode := pos - lastPos o in
  if decide (is_s 32 posCode) then
    if decide (posCode <= 0) then Throw "Term positions must be strictly increasing within a document"
    else on_stream (Stream.writeVInt upstream posCode) (positions o) p (fun s => Postings (docs o) s (lastDoc o) (lastDocDelta o) (docFreq o) (termFreq o) pos)
  else Undef.

Definition make (uninitialized uninitialized' : list Z) (docid pos : Z) (p : MemPool.pool) : outcome (postings * MemPool.pool) :=
  writePos pos (Postings (Stream.make uninitialized) (Stream.make uninitialized') docid docid 1 1 (-1), p).

Definition addDoc (docid pos : Z) (sp : postings * MemPool.pool) : outcome (postings * MemPool.pool) :=
  let '(o, p) := sp in
  let delta := docid - lastDoc o in
  if decide (is_s 32 delta) then
    if decide (delta = 0) then
      if decide (pos = lastPos o) then Ret (o, p)
      else if decide (pos < lastPos o) then Throw "Term positions must be strictly increasing within a document"
      else writePos pos (Postings (docs o) (positions o) (lastDoc o) (lastDocDelta o) (docFreq o) (termFreq o + 1) (lastPos o), p)
    else
      let code := s32 (if decide (termFreq o = 1) then Z.lor (Z.shiftl (lastDocDelta o) 1) 1 else Z.shiftl (lastDocDelta o) 1) in
      sp ← Stream.writeVInt upstream code (docs o, p);
      '(s, p) ← (if decide (termFreq o <> 1) then Stream.writeVInt upstream (termFreq o) sp else Ret sp);
      writePos pos (Postings s (positions o) docid delta (docFreq o + 1) 1 (-1), p)
  else Undef.

End upstream.

(** The positions of a document: [tf] calls of [addPositionDelta]. *)
Fixpoint readPositions (tf : nat) (source : Stream.stream) (p : MemPool.pool) (r : StreamReader.reader) : option (list Z * StreamReader.reader) :=
  match tf with
  | O => Some ([], r)
  | S tf =>
      '(posCode, r) ← StreamReader.readVint source p r;
      '(rest, r) ← readPositions tf source p r;
      Some (posCode :: rest, r)
  end.

(** The documents from [docid] on, each with its position deltas; [handledIds] is compared in the end. *)
Fixpoint pushLoop (fuel : nat) (o : postings) (p : MemPool.pool) (dstream pstream : StreamReader.reader) (docid handledIds : Z) : option (list (Z * list Z)) :=
  if StreamReader.eof dstream then
    '(codes, pstream) ← readPositions (Z.to_nat (termFreq o)) (positions o) p pstream;
    if decide (StreamReader.eof pstream = true /\ handledIds + 1 = docFreq o) then Some [(lastDoc o, codes)] else None
  else match fuel with
       | O => None
       | S fuel =>
           '(code, dstream) ← StreamReader.readVint (docs o) p dstream;
           let docCode := u32 code in
           let docid := docid + Z.shiftr docCode 1 in
           let tf := Z.land docCode 1 in
           '(tf, dstream) ← (if decide (tf <> 1) then StreamReader.readVint (docs o) p dstream else Some (tf, dstream));
           '(codes, pstream) ← readPositions (Z.to_nat tf) (positions o) p pstream;
           rest ← pushLoop fuel o p dstream pstream docid (handledIds + 1);
           Some ((docid, codes) :: rest)
       end.

Definition pushDocs (o : postings) (p : MemPool.pool) : option (list (Z * list Z)) :=
  dstream ← StreamReader.make (docs o);
  pstream ← StreamReader.make (positions o);
  pushLoop (Z.to_nat (Stream.size (docs o))) o p dstream pstream 0 0.

End DocFreqPosStream.

Module NormsWriter.

(** The bytes read are stored one by one at [bytes], which is a place in the same pool. *)
Fixpoint materializeLoop (n : nat) (i : Z) (bytes : Z * Z) (normBytes : Stream.stream) (p : MemPool.pool) (r : StreamReader.reader) : option (MemPool.pool * StreamReader.reader) :=
  match n with
  | O => Some (p, r)
  | S n =>
      if StreamReader.eof r then None
      else '(b, r) ← StreamReader.readByte normBytes p r; p ← write p (bytes.1, bytes.2 + i) [u8 b]; materializeLoop n (i + 1) bytes normBytes p r
  end.

(** The norm bytes of a field, one for each document that has it, in memory of the pool. *)
Definition materializeOrdinalNorms (upstream : Z -> Z -> list Z) (normBytes : Stream.stream) (docsWithField : Z) (p : MemPool.pool) : outcome (region * MemPool.pool) :=
  '(i, o, p) ← MemPool.alloc upstream docsWithField p;
  reader ← lift (StreamReader.make normBytes);
  '(p, reader) ← lift (materializeLoop (Z.to_nat docsWithField) 0 (i, o) normBytes p reader);
  if StreamReader.eof reader then Ret ((i, o, docsWithField), p) else Undef.

End NormsWriter.

(** * Objects with one stream *)

Section single.
Context {O E : Type} (stream_of : O -> Stream.stream) (inv : O -> list Z -> list E -> Prop).

Definition single_holds (o0 : O) (p : MemPool.pool) (o : O) (own : list region) (n : Z) (h : list E) : Prop :=
  exists data, stream_at p (stream_of o) own data /\ n = zlen data /\ inv o data h.

Lemma single_inside o0 p o own n h : single_holds o0 p o own n h -> Forall (inside p) own.
Proof. intros (data & Hs & _). by eapply stream_inside. Qed.

Lemma single_cost o0 p o own n h : single_holds o0 p o own n h -> 0 <= n /\ 2 * cost own <= 5 * n.
Proof. intros (data & Hs & -> & _). split; [apply zlen_nonneg|by eapply stream_cost]. Qed.

Lemma single_frame o0 p p' o own n h : single_holds o0 p o own n h -> untouched own p p' -> Forall (inside p') own -> single_holds o0 p' o own n h.
Proof. intros (data & Hs & Hn & Hi) Hu Hin. exists data. split; [by eapply stream_frame|done]. Qed.

(** A step that emits [bs] to the stream. *)
Lemma single_step o0 p o own n h e bs w (k : Stream.stream -> O) f : pool_ok p -> single_holds o0 p o own n h -> emits f bs -> zlen bs <= w ->
  5 * w <= funds p own n -> n + w <= MAX_STREAM -> (forall s, stream_of (k s) = s) ->
  (forall s data, zlen data = n -> inv o data h -> inv (k s) (data ++ bs) (h ++ [e])) ->
  exists o' p' own' n', on_stream f (stream_of o) p k = Ret (o', p') /\ single_holds o0 p' o' own' n' (h ++ [e]) /\ evolves own own' p p' /\
    n' <= n + w /\ funds p own n - 5 * w <= funds p' own' n'.
Proof.
  intros Hp (data & Hs & -> & Hi) He Hw Hf Hm Hk Hinv. destruct (He p (stream_of o) own data) as (s' & p' & own' & E1 & Hs' & Hev & Hf'); [done|done|lia|lia|].
  unfold on_stream. rewrite E1. cbn [mbind outcome_bind]. exists (k s'), p', own', (zlen (data ++ bs)). split; [done|].
  split; [exists (data ++ bs); rewrite Hk; split; [done|]; split; [done|by apply Hinv]|]. split; [done|]. rewrite zlen_app in *. lia.
Qed.

End single.

(** ** Streams of values *)

Lemma stream_fresh p uninitialized : zlen uninitialized = 4 -> stream_at p (Stream.make uninitialized) [] [].
Proof. intros Hz. apply (at_object p [] uninitialized); [done|apply List.Forall_nil]. Qed.

(** The values whose codes are in the stream: [op] takes the bytes of each code. *)
Definition coded {A} (op : Stream.stream -> MemPool.pool -> StreamReader.reader -> option (A * StreamReader.reader)) (data : list Z) (codes : list A) : Prop :=
  exists bss, data = mjoin bss /\ Forall2 (fun bs c => takes op bs c /\ 0 < zlen bs) bss codes.

Lemma coded_nil {A} (op : Stream.stream -> MemPool.pool -> StreamReader.reader -> option (A * StreamReader.reader)) : coded op [] [].
Proof. by exists []. Qed.

Lemma coded_snoc {A} (op : Stream.stream -> MemPool.pool -> StreamReader.reader -> option (A * StreamReader.reader)) data codes bs c :
  coded op data codes -> takes op bs c -> 0 < zlen bs -> coded op (data ++ bs) (codes ++ [c]).
Proof.
  intros (bss & -> & H) Ht Hz. exists (bss ++ [bs]). split; [rewrite join_app; simpl; by rewrite app_nil_r|]. apply Forall2_app; [done|]. by constructor.
Qed.

Lemma coded_cons {A} (op : Stream.stream -> MemPool.pool -> StreamReader.reader -> option (A * StreamReader.reader)) data c codes :
  coded op data (c :: codes) -> exists bs data', data = bs ++ data' /\ takes op bs c /\ 0 < zlen bs /\ coded op data' codes.
Proof. intros (bss & -> & H). inversion H as [|bs ? bss' ? [Ht Hz] H' E1 E2]; subst. exists bs, (mjoin bss'). split; [done|]. split; [done|]. split; [done|]. by exists bss'. Qed.

Lemma coded_nil_inv {A} (op : Stream.stream -> MemPool.pool -> StreamReader.reader -> option (A * StreamReader.reader)) data : coded op data [] -> data = [].
Proof. intros (bss & -> & H). by inversion H. Qed.

Lemma coded_length {A} (op : Stream.stream -> MemPool.pool -> StreamReader.reader -> option (A * StreamReader.reader)) data codes : coded op data codes -> zlen codes <= zlen data.
Proof.
  revert data. induction codes as [|c codes IH]; intros data H; [apply zlen_nonneg|]. apply coded_cons in H as (bs & data' & -> & _ & Hz & H).
  apply IH in H. rewrite zlen_cons, zlen_app. lia.
Qed.

(** The bytes are at an end exactly when there are no codes left. *)
Lemma coded_eof {A} (op : Stream.stream -> MemPool.pool -> StreamReader.reader -> option (A * StreamReader.reader)) s p r data codes :
  coded op data codes -> reader_at s p r data -> StreamReader.eof r = bool_decide (codes = []).
Proof.
  intros Hc Hr. rewrite (eof_spec _ _ _ _ Hr). apply bool_decide_ext. destruct codes as [|c codes]; [by apply coded_nil_inv in Hc|].
  apply coded_cons in Hc as (bs & data' & -> & _ & Hz & _). split; [|done]. intros [-> _]%app_nil. done.
Qed.

Section values.
Context (op : Stream.stream -> MemPool.pool -> StreamReader.reader -> option (Z * StreamReader.reader)).

(** A value is computed from the previous one and its code. *)
Fixpoint decode (dec : Z -> Z -> Z) (prev : Z) (codes : list Z) : list Z :=
  match codes with [] => [] | c :: codes => dec prev c :: decode dec (dec prev c) codes end.

Lemma decode_snoc dec prev codes c : decode dec prev (codes ++ [c]) = decode dec prev codes ++ [dec (default prev (last (decode dec prev codes))) c].
Proof.
  revert prev. induction codes as [|x codes IH]; intros prev; [done|]. cbn [app decode]. rewrite IH. do 3 f_equal.
  destruct (decode dec (dec prev x) codes) as [|y l] eqn:E; [done|].
  change (last (dec prev x :: y :: l)) with (last (y :: l)). destruct (last (y :: l)) eqn:El; [done|by apply last_None in El].
Qed.

(** [next] reads a code and computes the value, when the value is [good]. *)
Definition nexts (next : Stream.stream -> MemPool.pool -> Z -> StreamReader.reader -> option (Z * StreamReader.reader)) (dec : Z -> Z -> Z) (good : Z -> Prop) : Prop :=
  forall s p prev r bs c rest, takes op bs c -> reader_at s p r (bs ++ rest) -> good (dec prev c) -> exists r', next s p prev r = Some (dec prev c, r') /\ reader_at s p r' rest.

Lemma valuesLoop_spec next dec good fuel s p prev r data codes : nexts next dec good -> coded op data codes -> reader_at s p r data ->
  Forall good (decode dec prev codes) -> zlen codes <= Z.of_nat fuel -> valuesLoop fuel (next s p) prev r = Some (decode dec prev codes).
Proof.
  intros Hn. revert fuel prev r data. induction codes as [|c codes IH]; intros fuel prev r data Hc Hr Hg Hf.
  - pose proof (coded_eof _ _ _ _ _ _ Hc Hr) as Ee. destruct fuel; simpl; by rewrite Ee.
  - pose proof (coded_eof _ _ _ _ _ _ Hc Hr) as Ee. rewrite zlen_cons in Hf. pose proof (zlen_nonneg codes). destruct fuel as [|fuel]; [lia|]. cbn [valuesLoop]. rewrite Ee. cbn [bool_decide].
    apply coded_cons in Hc as (bs & data' & -> & Ht & Hz & Hc). cbn [decode] in *. apply List.Forall_cons_iff in Hg as [Hg1 Hg2].
    destruct (Hn s p prev r bs c data' Ht Hr Hg1) as (r' & E & Hr'). rewrite bool_decide_false by done. rewrite E. opt. rewrite (IH fuel _ r' data'); [done..|lia].
Qed.

Lemma values_spec next dec good s p own data codes : nexts next dec good -> stream_at p s own data -> coded op data codes ->
  Forall good (decode dec 0 codes) -> values s (next s p) = Some (decode dec 0 codes).
Proof.
  intros Hn Hs Hc Hg. unfold values. destruct (make_reader s p own data Hs) as (r & -> & Hr). opt. rewrite (stream_size _ _ _ _ Hs).
  eapply valuesLoop_spec; [done..|]. pose proof (coded_length _ _ _ Hc). lia.
Qed.

(** The last value of the object, and the codes of all. *)
Definition values_inv (dec : Z -> Z -> Z) (good : Z -> Prop) (lastVal : Z) (data : list Z) (h : list Z) : Prop :=
  exists codes, coded op data codes /\ decode dec 0 codes = h /\ lastVal = default 0 (last h) /\ Forall good h.

Lemma values_add dec (good : Z -> Prop) lastVal data h bs c val : values_inv dec good lastVal data h -> takes op bs c -> 0 < zlen bs -> dec lastVal c = val -> good val ->
  values_inv dec good val (data ++ bs) (h ++ [val]).
Proof.
  intros (codes & Hc & Hd & Hl & Hg) Ht Hz Hv Hgood. exists (codes ++ [c]). split; [by apply coded_snoc|]. rewrite decode_snoc, Hd, <- Hl, Hv. split; [done|].
  split; [by rewrite last_snoc|]. apply Forall_app. split; [done|by apply List.Forall_cons].
Qed.

End values.

Lemma is_s_lxor w a b : 0 < w -> is_s w a -> is_s w b -> is_s w (Z.lxor a b).
Proof.
  intros Hw. assert (forall z, is_s w z <-> Z.shiftr z (w - 1) = 0 \/ Z.shiftr z (w - 1) = -1) as H.
  { intros z. unfold is_s. rewrite Z.shiftr_div_pow2 by lia. pose proof (pow2_pos (w - 1) ltac:(lia)). pose proof (Z_div_mod_eq_full z (2 ^ (w - 1))).
    pose proof (Z.mod_pos_bound z (2 ^ (w - 1)) ltac:(lia)). split; [|nia]. intros Hz.
    assert (-2 < z / 2 ^ (w - 1) < 1) by (split; [apply Z.div_le_lower_bound with (q := -1) (b := 2 ^ (w - 1)) (a := z) in H; lia|apply Z.div_lt_upper_bound; lia]). lia. }
  rewrite !H, Z.shiftr_lxor. by intros [->| ->] [->| ->]; simpl; auto.
Qed.

Lemma last_good (good : Z -> Prop) h : good 0 -> Forall good h -> good (default 0 (last h)).
Proof. intros H0 Hg. destruct (last h) as [v|] eqn:E; [|done]. apply last_Some in E as (l & ->). apply Forall_app in Hg as [_ Hg]. by apply List.Forall_cons_iff in Hg as [? _]. Qed.

Lemma values_fresh op dec good : values_inv op dec good 0 [] [].
Proof. exists []. split; [apply coded_nil|]. done. Qed.

Lemma lxor_again a b : Z.lxor a (Z.lxor a b) = b.
Proof. by rewrite <- Z.lxor_assoc, Z.lxor_nilpotent. Qed.

(** A stream object is fresh when its constructor made it of four bytes. *)
Definition made {O} (make : list Z -> O) (o : O) : Prop := exists uninitialized, zlen uninitialized = 4 /\ o = make uninitialized.

(** ** Runs of documents *)

Definition readRun (s : Stream.stream) (p : MemPool.pool) (r : StreamReader.reader) : option ((Z * Z) * StreamReader.reader) :=
  '(gap, r) ← StreamReader.readVint s p r; '(runSize, r) ← StreamReader.readVint s p r; Some ((gap, runSize), r).

Lemma takes_run bs bs' gap runSize : takes StreamReader.readVint bs gap -> takes StreamReader.readVint bs' runSize -> takes readRun (bs ++ bs') (gap, runSize).
Proof.
  intros H1 H2 s p r rest Hr. rewrite <- app_assoc in Hr. destruct (H1 s p r _ Hr) as (r1 & E1 & Hr1). destruct (H2 s p r1 rest Hr1) as (r2 & E2 & Hr2).
  exists r2. split; [|done]. unfold readRun. rewrite E1. opt. by rewrite E2.
Qed.

(** The documents of the runs after the document [last], and the last of them. *)
Fixpoint runs_docs (last : Z) (runs : list (Z * Z)) : list Z :=
  match runs with [] => [] | (gap, n) :: runs => seqZ (last + gap) n ++ runs_docs (last + gap + (n - 1)) runs end.

Definition runs_end (last : Z) (runs : list (Z * Z)) : Z := foldl (fun last run => last + run.1 + (run.2 - 1)) last runs.

Lemma runs_snoc last runs gap n : runs_docs last (runs ++ [(gap, n)]) = runs_docs last runs ++ seqZ (runs_end last runs + gap) n.
Proof.
  revert last. induction runs as [|[g m] runs IH]; intros last; [simpl; by rewrite app_nil_r|]. cbn [app runs_docs]. rewrite IH. by rewrite app_assoc.
Qed.

Lemma runsLoop_spec fuel s p r last data runs : coded readRun data runs -> reader_at s p r data -> zlen runs <= Z.of_nat fuel ->
  DocStream.runsLoop fuel s p r last = Some (runs_docs last runs).
Proof.
  revert fuel r last data. induction runs as [|[gap n] runs IH]; intros fuel r last data Hc Hr Hf; pose proof (coded_eof _ _ _ _ _ _ Hc Hr) as Ee.
  - destruct fuel; simpl; by rewrite Ee.
  - rewrite zlen_cons in Hf. pose proof (zlen_nonneg runs). destruct fuel as [|fuel]; [lia|]. cbn [DocStream.runsLoop]. rewrite Ee, bool_decide_false by done.
    apply coded_cons in Hc as (bs & data' & -> & Ht & _ & Hc). destruct (Ht s p r data' Hr) as (r2 & E & Hr2). unfold readRun in E.
    destruct (StreamReader.readVint s p r) as [[g r1]|]; [|done]. cbn in E. destruct (StreamReader.readVint s p r1) as [[m r3]|] eqn:E2; [|done]. injection E as -> -> ->.
    opt. rewrite E2. opt. by rewrite (IH fuel r2 _ data') by (done || lia).
Qed.

Lemma seqZ_one a : seqZ a 1 = [a].
Proof. rewrite seqZ_cons by lia. by rewrite seqZ_nil by lia. Qed.

Record docs_inv (o : DocStream.docs) (data : list Z) (h : list Z) : Prop := {
  di_runs : exists runs, coded readRun data runs /\ runs_docs (-1) runs ++ seqZ (DocStream.runStart o) (DocStream.lastDoc o - DocStream.runStart o + 1) = h /\
    runs_end (-1) runs = DocStream.prevRunEnd o;
  di_prev : -1 <= DocStream.prevRunEnd o <= DocStream.lastDoc o;
  di_start : 0 <= DocStream.runStart o <= DocStream.lastDoc o + 1;
  di_last : DocStream.lastDoc o = default (-1) (last h) /\ DocStream.lastDoc o < 2 ^ 31 - 1 }.

Lemma docs_next o data h docid s : docs_inv o data h -> docid = DocStream.lastDoc o + 1 -> docid < 2 ^ 31 - 1 ->
  docs_inv (DocStream.Docs s docid (DocStream.runStart o) (DocStream.prevRunEnd o)) (data ++ []) (h ++ [docid]).
Proof.
  intros [(runs & Hc & Hh & He) Hp Hs Hl] -> Hd. rewrite app_nil_r. constructor; cbn [DocStream.lastDoc DocStream.runStart DocStream.prevRunEnd].
  - exists runs. split; [done|]. split; [|done]. rewrite <- Hh, <- app_assoc. f_equal. set (k := DocStream.lastDoc o - DocStream.runStart o + 1).
    replace (DocStream.lastDoc o + 1 - DocStream.runStart o + 1) with (k + 1) by lia. rewrite seqZ_app by lia. f_equal. rewrite seqZ_one. f_equal. lia.
  - lia.
  - lia.
  - by rewrite last_snoc.
Qed.

Lemma docs_run o data h docid bs s : docs_inv o data h -> DocStream.lastDoc o < docid < 2 ^ 31 - 1 ->
  takes readRun bs (DocStream.runStart o - DocStream.prevRunEnd o, DocStream.lastDoc o - DocStream.runStart o + 1) -> 0 < zlen bs ->
  docs_inv (DocStream.Docs s docid docid (DocStream.lastDoc o)) (data ++ bs) (h ++ [docid]).
Proof.
  intros [(runs & Hc & Hh & He) Hp Hs Hl] Hd Ht Hz. constructor; cbn [DocStream.lastDoc DocStream.runStart DocStream.prevRunEnd].
  - eexists. split; [by apply coded_snoc|]. split.
    + rewrite runs_snoc, He, <- Hh. replace (DocStream.prevRunEnd o + (DocStream.runStart o - DocStream.prevRunEnd o)) with (DocStream.runStart o) by lia. f_equal.
      replace (docid - docid + 1) with 1 by lia. by rewrite seqZ_one.
    + unfold runs_end in *. rewrite foldl_app, He. simpl. lia.
  - lia.
  - lia.
  - rewrite last_snoc. split; [done|lia].
Qed.

Lemma emits_none : emits (fun sp => Ret sp) [].
Proof. intros p s own data Hp Hs Hf Hm. exists s, p, own. rewrite app_nil_r. split; [done|]. split; [done|]. split; [apply evolves_refl; [done|by eapply stream_inside]|]. change (zlen (@nil Z)) with 0. lia. Qed.

(** ** The bytes of a stream *)

Fixpoint bytesLoop (n : nat) (s : Stream.stream) (p : MemPool.pool) (r : StreamReader.reader) : option (list Z * StreamReader.reader) :=
  match n with
  | O => Some ([], r)
  | S n =>
      if StreamReader.eof r then None
      else '(b, r) ← StreamReader.readByte s p r; '(bytes, r) ← bytesLoop n s p r; Some (b :: bytes, r)
  end.

Definition bytes_of (s : Stream.stream) (p : MemPool.pool) : option (list Z) :=
  reader ← StreamReader.make s;
  '(bytes, reader) ← bytesLoop (Z.to_nat (Stream.size s)) s p reader;
  if StreamReader.eof reader then Some bytes else None.

Lemma bytesLoop_spec s p data : forall r, reader_at s p r data -> exists r', bytesLoop (length data) s p r = Some (data, r') /\ reader_at s p r' [].
Proof.
  induction data as [|b data IH]; intros r Hr; [by exists r|]. cbn [length bytesLoop]. rewrite (eof_spec _ _ _ _ Hr), bool_decide_false by done.
  destruct (readByte_spec s p r b data Hr) as (r1 & -> & Hr1). destruct (IH r1 Hr1) as (r' & E & Hr'). opt. rewrite E. by exists r'.
Qed.

Lemma chain_bytes p sz a own data loc left lsz : pool_ok p -> chain p sz a own data loc left lsz -> is_bytes data.
Proof.
  intros Hp. induction 1 as [sz a i o data Ha Hptr Hl Hr|sz a i o d a' own data loc left lsz Ha Hptr Hl Hr Hd Hc IH]; [by eapply read_bytes|].
  apply Forall_app. split; [|done]. apply read_bytes in Hr; [|done]. by apply Forall_app in Hr as [? _].
Qed.

Lemma stream_bytes p s own data : pool_ok p -> stream_at p s own data -> is_bytes data.
Proof. intros Hp. destruct 1 as [|a own data loc left lsz Hc]; [done|by eapply chain_bytes]. Qed.

(** Regions that were in use before [x] was allocated. *)
Definition earlier (p : MemPool.pool) (x : region) (r : region) : Prop := inside p r /\ disjoint r x.

Lemma earlier_sub p x i o n o' n' : earlier p x (i, o, n) -> o <= o' -> 0 <= n' -> o' + n' <= o + n -> earlier p x (i, o', n').
Proof.
  intros [Hi Hd] Ho Hn Hle. split; [by eapply inside_sub|]. apply disjoint_sym. eapply disjoint_sub; [by apply disjoint_sym|lia..].
Qed.

(** Copying the bytes of a stream to a region that the stream does not use. *)
Lemma materializeLoop_spec s p0 i o m p : pool_ok p -> inside p (i, o, m) -> (forall r, inside p0 r -> inside p r) -> forall data k done_ r,
  reader_in (earlier p0 (i, o, m)) s p r data -> is_bytes data -> k = zlen done_ -> k + zlen data = m -> read p (i, o) k = Some done_ ->
  exists p' r', NormsWriter.materializeLoop (length data) k (i, o) s p r = Some (p', r') /\ StreamReader.eof r' = true /\
    evolves [(i, o, m)] [(i, o, m)] p p' /\ read p' (i, o) m = Some (done_ ++ data) /\ room p' = room p.
Proof.
  intros Hp Hin Hall data. revert p Hp Hin Hall. induction data as [|b data IH]; intros p Hp Hin Hall k done_ r Hr Hb Hk Hm Hread.
  - exists p, r. split; [done|]. split; [by rewrite (eof_in _ _ _ _ _ Hr)|]. split; [by apply evolves_refl; [|apply List.Forall_cons]|]. change (zlen (@nil Z)) with 0 in Hm.
    split; [|done]. rewrite app_nil_r. by replace m with k by lia.
  - apply List.Forall_cons_iff in Hb as [Hb Hbs]. rewrite zlen_cons in Hm. pose proof (zlen_nonneg data). pose proof (zlen_nonneg done_).
    cbn [length NormsWriter.materializeLoop]. rewrite (eof_in _ _ _ _ _ Hr), bool_decide_false by done.
    destruct (readByte_in _ s p (earlier_sub p0 (i, o, m)) r b data Hr) as (r1 & -> & Hr1). opt. cbn [fst snd]. rewrite uwrap_id by done.
    destruct (evolves_write [(i, o, m)] p i (o + k) [b] (i, o, m)) as (p1 & -> & Hev & Hw & Hsame & Hroom).
    + done.
    + by apply List.Forall_cons.
    + by apply List.Forall_cons.
    + by left.
    + change (zlen [b]) with 1. eapply inside_sub; [exact Hin|lia..].
    + intros [[j q] x]. change (zlen [b]) with 1. unfold disjoint. lia.
    + opt. change (zlen [b]) with 1 in *. destruct (IH p1) with (k := k + 1) (done_ := done_ ++ [b]) (r := r1) as (p' & r' & E & He & Hev' & Hrd & Hro).
      * apply Hev.
      * pose proof (ev_own _ _ _ _ Hev) as H'. by apply List.Forall_cons_iff in H' as [? _].
      * intros x Hx. by apply Hev, Hall.
      * eapply reader_frame; [exact Hr1| |apply earlier_sub]. intros j q x [Hx1 Hx2] Hx0. apply Hsame; [|by apply Hall]. unfold disjoint in *. lia.
      * done.
      * rewrite zlen_app. change (zlen [b]) with 1. lia.
      * lia.
      * apply read_app; [|done]. rewrite <- Hread. apply Hsame; [unfold disjoint; lia|]. eapply inside_sub; [exact Hin|lia..].
      * exists p', r'. split; [exact E|]. split; [done|]. split; [by eapply evolves_trans|]. split; [by rewrite Hrd, <- app_assoc|congruence].
Qed.

(** The norms of a field are copied to memory of the pool, and nothing in use before changes. *)
Lemma materialize_ok upstream p s own data : resource upstream -> pool_ok p -> stream_at p s own data -> zlen data <= MemPool.BYTE_BLOCK_SIZE - MemPool.HEADER_SIZE ->
  zlen data <= room p + SMALL ->
  exists i o p', NormsWriter.materializeOrdinalNorms upstream s (zlen data) p = Ret ((i, o, zlen data), p') /\ evolves [] [(i, o, zlen data)] p p' /\
    read p' (i, o) (zlen data) = Some data /\ room p - loss (zlen data) <= room p'.
Proof.
  intros Hup Hp Hs Hsz Hroom. pose proof (zlen_nonneg data). destruct (serve_room upstream Hup (fun _ _ => 0) (Pointer (zlen data)) p Hp) as (off & p1 & E & Hev & Hl); [by split_and!|done|].
  cbn [serve request_size reach] in E, Hev, Hl. unfold NormsWriter.materializeOrdinalNorms. destruct (MemPool.alloc upstream (zlen data) p) as [[[i o] p1']| |]; [|done|done].
  cbn [mbind outcome_bind] in E |- *. injection E as -> -> ->. set (x := (MemPool.bufferIdx p1, off, zlen data)) in *.
  assert (Forall (earlier p x) own) as Hown.
  { apply Forall_forall. intros r Hr. pose proof (stream_inside _ _ _ _ Hs) as Hin. rewrite Forall_forall in Hin. split; [by apply Hin|].
    pose proof (ev_apart _ _ _ _ Hev r (Hin r Hr) (List.Forall_nil _)) as Ha. by apply List.Forall_cons_iff in Ha as [? _]. }
  destruct (evolves_untouched [] [x] own p p1 Hev) as (Hu & Hin1 & _); [by eapply stream_inside|intros r _; apply List.Forall_nil|].
  destruct (make_reader_in (earlier p x) s p1 (earlier_sub p x) own data) as (r & -> & Hr); [by eapply stream_frame|done|]. cbn [lift mbind outcome_bind].
  pose proof (ev_own _ _ _ _ Hev) as Hx. apply List.Forall_cons_iff in Hx as [Hx _].
  destruct (materializeLoop_spec s p (MemPool.bufferIdx p1) off (zlen data) p1 (ev_ok _ _ _ _ Hev) Hx (ev_inside _ _ _ _ Hev) data 0 [] r) as (p2 & r2 & E2 & He & Hev2 & Hrd & Hro).
  - exact Hr.
  - by eapply stream_bytes.
  - done.
  - lia.
  - destruct Hx as (_ & H2 & _ & _ & c & Ec & H5). unfold read. cbn [fst snd]. rewrite Ec. opt. change MemPool.HEADER_SIZE with 4 in H2. unfold slice. by rewrite decide_True by lia.
  - unfold zlen in E2 |- * at 1. rewrite Nat2Z.id, E2. cbn [lift mbind outcome_bind]. rewrite He. exists (MemPool.bufferIdx p1), off, p2. split; [done|].
    split; [by eapply evolves_trans|]. split; [done|]. lia.
Qed.

Section instances.
Context (upstream : Z -> Z -> list Z).

#[export, program] Instance int_object : PoolObject upstream IntStream.ints Z (list Z) := {
  step := IntStream.addVal upstream;
  output := IntStream.visitValues;
  fresh := made IntStream.make;
  allowed _ _ val := is_s 32 val;
  weight _ := 5;
  meaning _ h := h;
  holds := single_holds IntStream.storage (fun o => values_inv StreamReader.readVint Z.lxor (is_s 32) (IntStream.lastVal o)) }.
Next Obligation. intros o p (u & Hz & ->). exists []. split; [by apply stream_fresh|]. split; [done|apply values_fresh]. Qed.
Next Obligation. intros o0 p o own n h. apply single_inside. Qed.
Next Obligation. intros o0 p o own n h. apply single_cost. Qed.
Next Obligation. intros o0 p p' o own n h. apply single_frame. Qed.
Next Obligation.
  intros o0 p o own n h val Hup Hp Hh Hv Hf Hm. pose proof Hh as (_ & _ & _ & codes & _ & _ & Hl & Hg).
  assert (is_s 32 (IntStream.lastVal o)) as Hlast by (rewrite Hl; by apply last_good).
  destruct (vint_stream upstream (Z.lxor (IntStream.lastVal o) val)) as (bs & He & Ht & Hz); [done|by apply is_s_lxor|].
  apply (single_step _ _ o0 p o own n h val bs 5 (fun s => IntStream.Ints s val)); [done|done|done|lia|done|done|done|].
  intros s data _ Hi. eapply values_add; [done|done|lia|apply lxor_again|done].
Qed.
Next Obligation.
  intros o0 p o own n h (data & Hs & _ & codes & Hc & Hd & _ & Hg). unfold IntStream.visitValues. rewrite <- Hd in *.
  apply (values_spec StreamReader.readVint IntStream.next Z.lxor (is_s 32) _ _ own data); [|done..].
  intros s q prev r bs c rest Ht Hr _. destruct (Ht s q r rest Hr) as (r' & E & Hr'). unfold IntStream.next. rewrite E. opt. by exists r'.
Qed.

#[export, program] Instance long_object : PoolObject upstream LongStream.longs Z (list Z) := {
  step := LongStream.addVal upstream;
  output := LongStream.visitValues;
  fresh := made LongStream.make;
  allowed _ _ val := is_s 64 val;
  weight _ := 10;
  meaning _ h := h;
  holds := single_holds LongStream.storage (fun o => values_inv StreamReader.readVlong Z.lxor (is_s 64) (LongStream.lastVal o)) }.
Next Obligation. intros o p (u & Hz & ->). exists []. split; [by apply stream_fresh|]. split; [done|apply values_fresh]. Qed.
Next Obligation. intros o0 p o own n h. apply single_inside. Qed.
Next Obligation. intros o0 p o own n h. apply single_cost. Qed.
Next Obligation. intros o0 p p' o own n h. apply single_frame. Qed.
Next Obligation.
  intros o0 p o own n h val Hup Hp Hh Hv Hf Hm. pose proof Hh as (_ & _ & _ & codes & _ & _ & Hl & Hg).
  assert (is_s 64 (LongStream.lastVal o)) as Hlast by (rewrite Hl; by apply last_good).
  destruct (vlong_stream upstream (Z.lxor (LongStream.lastVal o) val)) as (bs & He & Ht & Hz); [done|by apply is_s_lxor|].
  apply (single_step _ _ o0 p o own n h val bs 10 (fun s => LongStream.Longs s val)); [done|done|done|lia|done|done|done|].
  intros s data _ Hi. eapply values_add; [done|done|lia|apply lxor_again|done].
Qed.
Next Obligation.
  intros o0 p o own n h (data & Hs & _ & codes & Hc & Hd & _ & Hg). unfold LongStream.visitValues. rewrite <- Hd in *.
  apply (values_spec StreamReader.readVlong LongStream.next Z.lxor (is_s 64) _ _ own data); [|done..].
  intros s q prev r bs c rest Ht Hr _. destruct (Ht s q r rest Hr) as (r' & E & Hr'). unfold LongStream.next. rewrite E. opt. by exists r'.
Qed.

(** The values of an [IntDeltaStream] do not decrease, from zero on. *)
#[export, program] Instance delta_object : PoolObject upstream IntDeltaStream.ints Z (list Z) := {
  step := IntDeltaStream.addVal upstream;
  output := IntDeltaStream.pushValues;
  fresh := made IntDeltaStream.make;
  allowed _ h val := default 0 (last h) <= val /\ is_s 32 val;
  weight _ := 5;
  meaning _ h := h;
  holds := single_holds IntDeltaStream.storage (fun o => values_inv StreamReader.readVint Z.add (fun v => is_u 31 v) (IntDeltaStream.lastVal o)) }.
Next Obligation. intros o p (u & Hz & ->). exists []. split; [by apply stream_fresh|]. split; [done|apply values_fresh]. Qed.
Next Obligation. intros o0 p o own n h. apply single_inside. Qed.
Next Obligation. intros o0 p o own n h. apply single_cost. Qed.
Next Obligation. intros o0 p p' o own n h. apply single_frame. Qed.
Next Obligation.
  intros o0 p o own n h val Hup Hp Hh [Hle Hv] Hf Hm. pose proof Hh as (_ & _ & _ & codes & _ & _ & Hl & Hg). rewrite <- Hl in Hle.
  assert (is_u 31 (IntDeltaStream.lastVal o)) as Hlast by (rewrite Hl; by apply (last_good (is_u 31))). unfold is_u, is_s in Hlast, Hv.
  destruct (vint_stream upstream (val - IntDeltaStream.lastVal o)) as (bs & He & Ht & Hz); [done|unfold is_s; lia|].
  unfold IntDeltaStream.addVal. cbn [fst snd]. rewrite decide_True by (unfold is_s; lia).
  apply (single_step _ _ o0 p o own n h val bs 5 (fun s => IntDeltaStream.Ints s val)); [done|done|done|lia|done|done|done|].
  intros s data _ Hi. eapply values_add; [done|done|lia|lia|unfold is_u; lia].
Qed.
Next Obligation.
  intros o0 p o own n h (data & Hs & _ & codes & Hc & Hd & _ & Hg). unfold IntDeltaStream.pushValues. rewrite <- Hd in *.
  apply (values_spec StreamReader.readVint IntDeltaStream.next Z.add (is_u 31) _ _ own data); [|done..].
  intros s q prev r bs c rest Ht Hr Hgood. destruct (Ht s q r rest Hr) as (r' & E & Hr'). unfold IntDeltaStream.next. rewrite E. opt.
  rewrite decide_True by (unfold is_s, is_u in *; lia). by exists r'.
Qed.

#[export, program] Instance doc_object : PoolObject upstream DocStream.docs Z (list Z) := {
  step := DocStream.addDoc upstream;
  output := DocStream.forEachDoc;
  fresh := made DocStream.make;
  allowed _ h docid := default (-1) (last h) < docid < 2 ^ 31 - 1;
  weight _ := 10;
  meaning _ h := h;
  holds := single_holds DocStream.stream docs_inv }.
Next Obligation. intros o p (u & Hz & ->). exists []. split; [by apply stream_fresh|]. split; [done|]. constructor; [exists []; split; [apply coded_nil|done]|done..]. Qed.
Next Obligation. intros o0 p o own n h. apply single_inside. Qed.
Next Obligation. intros o0 p o own n h. apply single_cost. Qed.
Next Obligation. intros o0 p p' o own n h. apply single_frame. Qed.
Next Obligation.
  intros o0 p o own n h docid Hup Hp Hh Ha Hf Hm. pose proof Hh as (_ & _ & _ & [_ Hprev Hst [Hl Hlt]]). assert (DocStream.lastDoc o < docid < 2 ^ 31 - 1) as Hd by (rewrite Hl; exact Ha).
  unfold DocStream.addDoc. rewrite decide_True by (unfold is_s; lia). case_decide as Hdelta.
  - destruct (vint_stream upstream (DocStream.runStart o - DocStream.prevRunEnd o)) as (bs & He & Ht & Hz); [done|unfold is_s; lia|].
    destruct (vint_stream upstream (DocStream.lastDoc o - DocStream.runStart o + 1)) as (bs' & He' & Ht' & Hz'); [done|unfold is_s; lia|].
    destruct (single_step DocStream.stream docs_inv o0 p o own n h docid (bs ++ bs') 10 (fun s => DocStream.Docs s docid docid (DocStream.lastDoc o)) _ Hp Hh (emits_bind _ _ _ _ He He'))
      as (o' & p' & own' & n' & E & Hr); [rewrite zlen_app; lia|done|done|done| |].
    + intros s data _ Hi. apply docs_run; [done|lia|by apply takes_run|rewrite zlen_app; lia].
    + exists o', p', own', n'. split; [|done]. rewrite <- E. unfold on_stream. by destruct (Stream.writeVInt upstream _ (DocStream.stream o, p)).
  - apply (single_step DocStream.stream docs_inv o0 p o own n h docid [] 10 (fun s => DocStream.Docs s docid (DocStream.runStart o) (DocStream.prevRunEnd o)) (fun sp => Ret sp));
      [done|done|apply emits_none|done|done|done|done|]. intros s data _ Hi. by apply (docs_next o); [|lia..].
Qed.
Next Obligation.
  intros o0 p o own n h (data & Hs & _ & [(runs & Hc & <- & _) _ Hst _]). unfold DocStream.forEachDoc. destruct (make_reader _ p own data Hs) as (r & -> & Hr). opt.
  rewrite (stream_size _ _ _ _ Hs), (runsLoop_spec _ _ _ _ _ data runs); [done..|]. pose proof (coded_length _ _ _ Hc). lia.
Qed.

(** A stream of bytes, as norms are. *)
#[export, program] Instance byte_object : PoolObject upstream Stream.stream Z (list Z) := {
  step := Stream.writeByte upstream;
  output := bytes_of;
  fresh := made Stream.make;
  allowed _ _ b := is_u 8 b;
  weight _ := 1;
  meaning _ h := h;
  holds := single_holds id (fun _ data h => data = h) }.
Next Obligation. intros o p (u & Hz & ->). exists []. split; [by apply stream_fresh|done]. Qed.
Next Obligation. intros o0 p o own n h. apply single_inside. Qed.
Next Obligation. intros o0 p o own n h. apply single_cost. Qed.
Next Obligation. intros o0 p p' o own n h. apply single_frame. Qed.
Next Obligation.
  intros o0 p o own n h b Hup Hp Hh Hb Hf Hm. destruct (single_step id (fun _ data h => data = h) o0 p o own n h b [b] 1 id _ Hp Hh (emits_byte upstream Hup b Hb)) as (o' & p' & own' & n' & E & Hr);
    [done|done|done|done|by intros s data _ ->|]. exists o', p', own', n'. split; [|done]. rewrite <- E. unfold on_stream. by destruct (Stream.writeByte upstream b _) as [[]| |].
Qed.
Next Obligation.
  intros o0 p o own n h (data & Hs & _ & ->). unfold bytes_of, id in *. destruct (make_reader _ p own h Hs) as (r & -> & Hr). opt. rewrite (stream_size _ _ _ _ Hs).
  destruct (bytesLoop_spec o p h r Hr) as (r' & E & Hr'). unfold zlen. rewrite Nat2Z.id, E. opt. by rewrite (eof_spec _ _ _ _ Hr').
Qed.

End instances.
