(* ===== verification/PositionStream.v ===== *)
(** The postings of a term with positions: [DocFreqPosStream] of [luxir/index/DocStream.h], as the full-text handler fills it.

    The object has two streams in the pool, one of documents with their frequencies and one of position deltas. *)

From S2P Require Import Prelude Encoding MemPool PoolStream PoolObjects PostingStreams.

Module FullTextHandler.
Import DocFreqPosStream.

(** The entry of a term in the terms hash: absent, with the bytes where it will be constructed, or present. *)
Inductive entry := Absent (uninitialized uninitialized' : list Z) | Present (o : postings).

(** An occurrence of the term: [try_emplace] constructs an absent entry, [addDoc] extends a present one. *)
Definition occur (upstream : Z -> Z -> list Z) (e : Z * Z) (sp : entry * MemPool.pool) : outcome (entry * MemPool.pool) :=
  '(o, p) ← match sp with
            | (Absent u u', p) => make upstream u u' e.1 e.2 p
            | (Present o, p) => addDoc upstream e.1 e.2 (o, p)
            end;
  Ret (Present o, p).

Definition postings_of (t : entry) (p : MemPool.pool) : option (list (Z * list Z)) :=
  match t with Absent _ _ => Some [] | Present o => pushDocs o p end.

End FullTextHandler.

(** * What is indexed *)

Section theory.
Import DocFreqPosStream.

(** The documents of a term with its positions there, each position once. *)
Definition occurrence (acc : list (Z * list Z)) (e : Z * Z) : list (Z * list Z) :=
  match last acc with
  | Some (d, ps) =>
      if decide (d = e.1) then if decide (last ps = Some e.2) then acc else removelast acc ++ [(d, ps ++ [e.2])]
      else acc ++ [(e.1, [e.2])]
  | None => [(e.1, [e.2])]
  end.

Definition occurrences (h : list (Z * Z)) : list (Z * list Z) := foldl occurrence [] h.

Fixpoint gaps (prev : Z) (ps : list Z) : list Z := match ps with [] => [] | x :: ps => (x - prev) :: gaps x ps end.

Definition posting_gaps (x : Z * list Z) : Z * list Z := (x.1, gaps (-1) x.2).

(** The document deltas and frequencies. *)
Fixpoint entries (prev : Z) (l : list (Z * list Z)) : list (Z * Z) :=
  match l with [] => [] | (d, ps) :: l => (d - prev, zlen ps) :: entries d l end.

Lemma gaps_snoc prev ps x : gaps prev (ps ++ [x]) = gaps prev ps ++ [x - default prev (last ps)].
Proof.
  revert prev. induction ps as [|y ps IH]; intros prev; [done|]. cbn [app gaps]. rewrite IH. do 3 f_equal. destruct ps as [|z ps]; [done|].
  change (last (y :: z :: ps)) with (last (z :: ps)). by destruct (last (z :: ps)) eqn:El; [|by apply last_None in El].
Qed.

Lemma gaps_length prev ps : length (gaps prev ps) = length ps.
Proof. revert prev. induction ps as [|x ps IH]; intros prev; [done|]. simpl. by rewrite IH. Qed.

Lemma doc_entries_snoc prev l d ps : entries prev (l ++ [(d, ps)]) = entries prev l ++ [(d - default prev (fst <$> last l), zlen ps)].
Proof.
  revert prev. induction l as [|[d' ps'] l IH]; intros prev; [done|]. cbn [app entries]. rewrite IH. do 4 f_equal. destruct l as [|z l]; [done|].
  change (last ((d', ps') :: z :: l)) with (last (z :: l)). by destruct (last (z :: l)) eqn:El; [|by apply last_None in El].
Qed.

Lemma occurrences_snoc h e : occurrences (h ++ [e]) = occurrence (occurrences h) e.
Proof. unfold occurrences. by rewrite foldl_app. Qed.

(** ** Reading a document and its frequency *)

Definition readDoc (s : Stream.stream) (p : MemPool.pool) (r : StreamReader.reader) : option ((Z * Z) * StreamReader.reader) :=
  '(code, r) ← StreamReader.readVint s p r;
  let docCode := u32 code in
  let tf := Z.land docCode 1 in
  '(tf, r) ← (if decide (tf <> 1) then StreamReader.readVint s p r else Some (tf, r));
  Some ((Z.shiftr docCode 1, tf), r).

Lemma doc_code delta b : is_u 31 delta -> is_u 1 b -> u32 (s32 (2 * delta + b)) = 2 * delta + b /\ Z.shiftr (2 * delta + b) 1 = delta /\ Z.land (2 * delta + b) 1 = b.
Proof.
  unfold is_u. intros Hd Hb. change (2 ^ 1) with 2 in Hb. rewrite uwrap_swrap, uwrap_id by (unfold is_u; lia). split; [done|].
  replace (Z.land (2 * delta + b) 1) with ((2 * delta + b) `mod` 2) by (symmetry; apply (Z.land_ones _ 1); lia). rewrite Z.shiftr_div_pow2 by lia. change (2 ^ 1) with 2. split; [symmetry; apply (Z.div_unique_pos _ _ _ b); lia|symmetry; apply (Z.mod_unique_pos _ _ delta); lia].
Qed.

Lemma shiftl_one delta : Z.shiftl delta 1 = 2 * delta + 0 /\ Z.lor (Z.shiftl delta 1) 1 = 2 * delta + 1.
Proof. split; [rewrite Z.shiftl_mul_pow2; lia|]. rewrite Z.lor_comm, lor_shiftl_add by (unfold is_u; lia). lia. Qed.

Lemma takes_single bs delta : is_u 31 delta -> takes StreamReader.readVint bs (s32 (2 * delta + 1)) -> takes readDoc bs (delta, 1).
Proof.
  intros Hd Ht s p r rest Hr. destruct (Ht s p r rest Hr) as (r' & E & Hr'). destruct (doc_code delta 1 Hd ltac:(done)) as (H1 & H2 & H3).
  exists r'. split; [|done]. unfold readDoc. rewrite E. opt. rewrite H1, H3. rewrite decide_False by (intros H; by apply H). opt. by rewrite H2.
Qed.

Lemma takes_pair bs bs' delta tf : is_u 31 delta -> takes StreamReader.readVint bs (s32 (2 * delta + 0)) -> takes StreamReader.readVint bs' tf ->
  takes readDoc (bs ++ bs') (delta, tf).
Proof.
  intros Hd Ht Ht' s p r rest Hr. rewrite <- app_assoc in Hr. destruct (Ht s p r _ Hr) as (r1 & E1 & Hr1). destruct (Ht' s p r1 rest Hr1) as (r2 & E2 & Hr2).
  destruct (doc_code delta 0 Hd ltac:(done)) as (H1 & H2 & H3). exists r2. split; [|done]. unfold readDoc. rewrite E1. opt. rewrite H1, H3. rewrite decide_True by done.
  rewrite E2. opt. by rewrite H2.
Qed.

Lemma readPositions_spec codes : forall s p r data rest, coded StreamReader.readVint data (codes ++ rest) -> reader_at s p r data ->
  exists r' data', readPositions (length codes) s p r = Some (codes, r') /\ coded StreamReader.readVint data' rest /\ reader_at s p r' data'.
Proof.
  induction codes as [|c codes IH]; intros s p r data rest Hc Hr; [by exists r, data|]. cbn [app] in Hc. apply coded_cons in Hc as (bs & data1 & -> & Ht & _ & Hc).
  destruct (Ht s p r data1 Hr) as (r1 & E1 & Hr1). destruct (IH s p r1 data1 rest Hc Hr1) as (r' & data' & E & Hc' & Hr'). exists r', data'. split; [|done].
  cbn [length readPositions]. rewrite E1. opt. by rewrite E.
Qed.

(** The position codes of a list of postings. *)
Definition all_gaps (l : list (Z * list Z)) : list Z := mjoin ((fun x => gaps (-1) x.2) <$> l).

Lemma pushLoop_spec o p l ps : termFreq o = zlen ps -> forall fuel prev handled dr pr datad datap,
  coded readDoc datad (entries prev l) -> coded StreamReader.readVint datap (all_gaps l ++ gaps (-1) ps) ->
  reader_at (docs o) p dr datad -> reader_at (positions o) p pr datap -> docFreq o = handled + zlen l + 1 -> zlen l <= Z.of_nat fuel ->
  pushLoop fuel o p dr pr prev handled = Some ((posting_gaps <$> l) ++ [(lastDoc o, gaps (-1) ps)]).
Proof.
  intros Htf. induction l as [|[d qs] l IH]; intros fuel prev handled dr pr datad datap Hd Hp Hdr Hpr Hdf Hf; pose proof (coded_eof _ _ _ _ _ _ Hd Hdr) as Ee.
  - assert (pushLoop fuel o p dr pr prev handled = '(codes, pr) ← readPositions (Z.to_nat (termFreq o)) (positions o) p pr;
      if decide (StreamReader.eof pr = true /\ handled + 1 = docFreq o) then Some [(lastDoc o, codes)] else None) as -> by (destruct fuel; simpl; by rewrite Ee).
    cbn [all_gaps fmap list_fmap mjoin list_join app] in Hp. rewrite <- (app_nil_r (gaps (-1) ps)) in Hp. destruct (readPositions_spec _ _ _ _ _ _ Hp Hpr) as (r' & data' & E & Hc & Hr).
    rewrite gaps_length in E. rewrite Htf. replace (Z.to_nat (zlen ps)) with (length ps) by (unfold zlen; lia). rewrite E. opt. rewrite decide_True; [done|].
    split; [by rewrite (coded_eof _ _ _ _ _ _ Hc Hr)|]. change (zlen (@nil (Z * list Z))) with 0 in Hdf. lia.
  - rewrite zlen_cons in *. pose proof (zlen_nonneg l). destruct fuel as [|fuel]; [lia|]. cbn [entries] in Hd. cbn [pushLoop]. rewrite Ee, bool_decide_false by done.
    apply coded_cons in Hd as (bs & datad' & -> & Ht & _ & Hd). destruct (Ht _ p dr datad' Hdr) as (dr' & E & Hdr'). unfold readDoc in E.
    destruct (StreamReader.readVint (docs o) p dr) as [[code r1]|]; [|done]. cbn beta iota zeta delta [mbind option_bind] in E |- *. destruct (if decide _ then _ else _) as [[tf r2]|]; [|done].
    injection E as E1 -> ->. rewrite E1. opt. replace (Z.to_nat (zlen qs)) with (length qs) by (unfold zlen; lia).
    change (all_gaps ((d, qs) :: l)) with (gaps (-1) qs ++ all_gaps l) in Hp. rewrite <- app_assoc in Hp. destruct (readPositions_spec _ _ _ _ _ _ Hp Hpr) as (pr' & datap' & E & Hp' & Hpr').
    rewrite gaps_length in E. rewrite E. opt. replace (prev + (d - prev)) with d by lia. by rewrite (IH fuel d (handled + 1) dr' pr' datad' datap') by (done || lia).
Qed.

(** ** The invariant *)

(** [before] are the documents that are complete, [ps] the positions in the last one. *)
Record postings_inv (o : postings) (datad datap : list Z) (before : list (Z * list Z)) (ps : list Z) : Prop := {
  pi_docs : coded readDoc datad (entries 0 before);
  pi_positions : coded StreamReader.readVint datap (all_gaps before ++ gaps (-1) ps);
  pi_delta : lastDocDelta o = lastDoc o - default 0 (fst <$> last before) /\ 0 <= lastDocDelta o <= lastDoc o;
  pi_last : 0 <= lastDoc o < 2 ^ 31;
  pi_docFreq : docFreq o = zlen before + 1;
  pi_termFreq : termFreq o = zlen ps;
  pi_pos : lastPos o = default (-1) (last ps) /\ -1 <= lastPos o < 2 ^ 31 - 1 /\ (ps <> [] -> 0 <= lastPos o) }.

(** A position is added to the last document. *)
Lemma inv_position o datad datap before ps pos bs s : postings_inv o datad datap before ps -> lastPos o < pos < 2 ^ 31 - 1 ->
  takes StreamReader.readVint bs (pos - lastPos o) -> 0 < zlen bs ->
  postings_inv (Postings (docs o) s (lastDoc o) (lastDocDelta o) (docFreq o) (termFreq o + 1) pos) datad (datap ++ bs) before (ps ++ [pos]).
Proof.
  intros [H1 H2 H3 H4 H5 H6 (H7 & H8 & _)] Hpos Ht Hz. constructor; cbn [lastDoc lastDocDelta docFreq termFreq lastPos]; [done| |done|done|done|rewrite zlen_app; change (zlen [pos]) with 1; lia|].
  - rewrite gaps_snoc, app_assoc, <- H7. by apply coded_snoc.
  - rewrite last_snoc. split_and!; [done|lia..].
Qed.

(** The last document is complete; the object has no position of the new one yet. *)
Lemma inv_document o datad datap before ps docid bs s freq : postings_inv o datad datap before ps -> lastDoc o < docid < 2 ^ 31 ->
  takes readDoc bs (lastDocDelta o, termFreq o) -> 0 < zlen bs -> freq = 0 ->
  postings_inv (Postings s (positions o) docid (docid - lastDoc o) (docFreq o + 1) freq (-1)) (datad ++ bs) datap (before ++ [(lastDoc o, ps)]) [].
Proof.
  intros [H1 H2 [H3 H3'] H4 H5 H6 H7] Hd Ht Hz ->. constructor; cbn [lastDoc lastDocDelta docFreq termFreq lastPos].
  - rewrite doc_entries_snoc, <- H3, <- H6. by apply coded_snoc.
  - unfold all_gaps in *. rewrite fmap_app, join_app. cbn [fmap list_fmap mjoin list_join gaps]. rewrite !app_nil_r. exact H2.
  - rewrite last_snoc. simpl. lia.
  - lia.
  - rewrite zlen_app. change (zlen [(lastDoc o, ps)]) with 1. lia.
  - done.
  - done.
Qed.

(** ** The operations *)

Section operations.
Context (upstream : Z -> Z -> list Z) (Hup : resource upstream).

(** What an operation with [w] bytes gives. *)
Definition extended (p : MemPool.pool) (own : list region) (n w : Z) (before : list (Z * list Z)) (ps : list Z) (e : Z * Z) (r : outcome (postings * MemPool.pool)) : Prop :=
  exists o' p' ownd' ownp' datad' datap', r = Ret (o', p') /\ pair_at p' (docs o') (positions o') ownd' ownp' datad' datap' /\ postings_inv o' datad' datap' before ps /\
    (lastDoc o', lastPos o') = e /\ evolves own (ownd' ++ ownp') p p' /\ zlen datad' + zlen datap' <= n + w /\ funds p own n - 5 * w <= funds p' (ownd' ++ ownp') (zlen datad' + zlen datap').

Definition count_position (o : postings) : postings := Postings (docs o) (positions o) (lastDoc o) (lastDocDelta o) (docFreq o) (termFreq o + 1) (lastPos o).

Lemma writePos_spec p o ownd ownp datad datap before ps pos : pool_ok p -> pair_at p (docs o) (positions o) ownd ownp datad datap -> postings_inv o datad datap before ps ->
  lastPos o < pos < 2 ^ 31 - 1 -> 25 <= funds p (ownd ++ ownp) (zlen datad + zlen datap) -> zlen datad + zlen datap + 5 <= MAX_STREAM ->
  extended p (ownd ++ ownp) (zlen datad + zlen datap) 5 before (ps ++ [pos]) (lastDoc o, pos) (writePos upstream pos (count_position o, p)).
Proof.
  intros Hp Hs Hi Hpos Hf Hm. destruct (pi_pos _ _ _ _ _ Hi) as (_ & Hlp & _). destruct (vint_stream upstream (pos - lastPos o) Hup) as (bs & He & Ht & Hz); [unfold is_s; lia|].
  destruct (emit_second p Hp (docs o) (positions o) ownd ownp datad datap Hs _ bs He) as (s & p' & ownp' & E & Hev & Hs' & Hf'); [lia|lia|].
  unfold writePos. cbn [count_position docs positions lastDoc lastDocDelta docFreq termFreq lastPos]. rewrite decide_True by (unfold is_s; lia). rewrite decide_False by lia.
  unfold on_stream. rewrite E. cbn [mbind outcome_bind]. eexists _, p', ownd, ownp', datad, (datap ++ bs). split; [done|]. split; [done|].
  split; [by apply inv_position; [..|lia]|]. split; [done|]. split; [done|]. rewrite zlen_app in *. lia.
Qed.

(** The code of the last document, and its frequency if it is not one. *)
Lemma emits_document o : is_u 31 (lastDocDelta o) -> 0 < termFreq o < 2 ^ 31 -> exists bs, takes readDoc bs (lastDocDelta o, termFreq o) /\ 0 < zlen bs <= 10 /\
  emits (fun sp =>
    sp ← Stream.writeVInt upstream (s32 (if decide (termFreq o = 1) then Z.lor (Z.shiftl (lastDocDelta o) 1) 1 else Z.shiftl (lastDocDelta o) 1)) sp;
    if decide (termFreq o <> 1) then Stream.writeVInt upstream (termFreq o) sp else Ret sp) bs.
Proof.
  intros Hd Htf. destruct (shiftl_one (lastDocDelta o)) as [E0 E1]. destruct (decide (termFreq o = 1)) as [H1|H1].
  - rewrite E1. destruct (vint_stream upstream (s32 (2 * lastDocDelta o + 1)) Hup) as (bs & He & Ht & Hz); [apply swrap_range; lia|]. exists bs. rewrite H1.
    split; [by apply takes_single|]. split; [lia|]. rewrite <- (app_nil_r bs). apply emits_bind; [done|]. destruct (decide (1 <> 1)); [done|apply emits_none].
  - rewrite E0. destruct (vint_stream upstream (s32 (2 * lastDocDelta o + 0)) Hup) as (bs & He & Ht & Hz); [apply swrap_range; lia|].
    destruct (vint_stream upstream (termFreq o) Hup) as (bs' & He' & Ht' & Hz'); [unfold is_s; lia|]. exists (bs ++ bs'). split; [by apply takes_pair|].
    split; [rewrite zlen_app; lia|]. apply emits_bind; [done|]. by destruct (decide (termFreq o <> 1)).
Qed.

Lemma termFreq_range o datad datap before ps : postings_inv o datad datap before ps -> ps <> [] -> zlen datap < 2 ^ 31 -> 0 < termFreq o < 2 ^ 31.
Proof.
  intros [_ Hc _ _ _ Htf _] Hps Hz. apply coded_length in Hc. rewrite zlen_app in Hc. rewrite Htf. unfold zlen in *. rewrite gaps_length in Hc. destruct ps; [done|]. simpl length in *. lia.
Qed.

Lemma addDoc_new p o ownd ownp datad datap before ps docid pos : pool_ok p -> pair_at p (docs o) (positions o) ownd ownp datad datap -> postings_inv o datad datap before ps -> ps <> [] ->
  lastDoc o < docid < 2 ^ 31 -> -1 < pos < 2 ^ 31 - 1 -> 75 <= funds p (ownd ++ ownp) (zlen datad + zlen datap) -> zlen datad + zlen datap + 15 <= MAX_STREAM ->
  extended p (ownd ++ ownp) (zlen datad + zlen datap) 15 (before ++ [(lastDoc o, ps)]) [pos] (docid, pos) (addDoc upstream docid pos (o, p)).
Proof.
  intros Hp Hs Hi Hps Hd Hpos Hf Hm. pose proof Hi as [_ Hc [Hdelta Hdelta'] Hlast _ Htf _].
  pose proof (zlen_nonneg datad). pose proof (termFreq_range _ _ _ _ _ Hi Hps ltac:(unfold MAX_STREAM in Hm; lia)) as Htf'.
  destruct (emits_document o) as (bs & Ht & Hz & He); [unfold is_u; lia|done|].
  destruct (emit_first p Hp (docs o) (positions o) ownd ownp datad datap Hs _ bs He) as (s & p1 & ownd1 & E & Hev & Hs1 & Hf1); [lia|lia|].
  set (o1 := Postings s (positions o) docid (docid - lastDoc o) (docFreq o + 1) 0 (-1)).
  assert (postings_inv o1 (datad ++ bs) datap (before ++ [(lastDoc o, ps)]) []) as Hi1 by (by apply inv_document; [..|lia|]).
  destruct (writePos_spec p1 o1 ownd1 ownp (datad ++ bs) datap (before ++ [(lastDoc o, ps)]) [] pos) as (o2 & p2 & ownd2 & ownp2 & datad2 & datap2 & E2 & H2 & Hi2 & He2 & Hev2 & Hn2 & Hf2);
    [apply Hev|done|done|simpl; lia|lia|rewrite zlen_app; lia|].
  exists o2, p2, ownd2, ownp2, datad2, datap2. split; [|split; [done|]; split; [done|]; split; [done|]; split; [by eapply evolves_trans|]; rewrite zlen_app in *; lia].
  unfold addDoc. rewrite decide_True by (unfold is_s; lia). rewrite decide_False by lia. rewrite <- E2. clear E2 H2 Hi2 He2 Hev2 Hn2 Hf2.
  destruct (Stream.writeVInt upstream _ (docs o, p)) as [sp| |]; cbn [mbind outcome_bind] in E |- *; [|done|done]. rewrite E. done.
Qed.

Lemma addDoc_same p o ownd ownp datad datap before ps pos : pool_ok p -> pair_at p (docs o) (positions o) ownd ownp datad datap -> postings_inv o datad datap before ps ->
  lastPos o < pos < 2 ^ 31 - 1 -> 25 <= funds p (ownd ++ ownp) (zlen datad + zlen datap) -> zlen datad + zlen datap + 5 <= MAX_STREAM ->
  extended p (ownd ++ ownp) (zlen datad + zlen datap) 5 before (ps ++ [pos]) (lastDoc o, pos) (addDoc upstream (lastDoc o) pos (o, p)).
Proof.
  intros Hp Hs Hi Hpos Hf Hm. unfold addDoc. rewrite Z.sub_diag. rewrite decide_True by done. rewrite decide_True by done. rewrite !decide_False by lia.
  by apply (writePos_spec p o).
Qed.

Lemma make_extends p u u' docid pos : pool_ok p -> zlen u = 4 -> zlen u' = 4 -> 0 <= docid < 2 ^ 31 -> -1 < pos < 2 ^ 31 - 1 -> 25 <= funds p [] 0 ->
  extended p [] 0 5 [] [pos] (docid, pos) (make upstream u u' docid pos p).
Proof.
  intros Hp Hu Hu' Hd Hpos Hf. set (o := Postings (Stream.make u) (Stream.make u') docid docid 1 0 (-1)).
  apply (writePos_spec p o [] [] [] [] [] [] pos); [done| | |simpl; lia|done|done].
  - constructor; [by apply stream_fresh..|]. intros r Hr. by apply not_elem_of_nil in Hr.
  - constructor; simpl; [apply coded_nil|apply coded_nil|lia|lia|done|done|done].
Qed.

(** ** The entry of a term as an object of the pool *)

Import FullTextHandler.

Definition entry_holds (t0 : entry) (p : MemPool.pool) (t : entry) (own : list region) (n : Z) (h : list (Z * Z)) : Prop :=
  match t with
  | Absent u u' => own = [] /\ n = 0 /\ h = [] /\ zlen u = 4 /\ zlen u' = 4
  | Present o => exists ownd ownp datad datap before ps, own = ownd ++ ownp /\ n = zlen datad + zlen datap /\ pair_at p (docs o) (positions o) ownd ownp datad datap /\
      postings_inv o datad datap before ps /\ ps <> [] /\ occurrences h = before ++ [(lastDoc o, ps)] /\ last h = Some (lastDoc o, lastPos o)
  end.

(** Documents come in order, and positions in order in a document. *)
Definition in_order (h : list (Z * Z)) (e : Z * Z) : Prop :=
  0 <= e.1 < 2 ^ 31 /\ 0 <= e.2 < 2 ^ 31 - 1 /\ forall d pos, last h = Some (d, pos) -> d < e.1 \/ d = e.1 /\ pos <= e.2.

Lemma entry_extended t0 p own n w h e before ps r : extended p own n w before ps e r -> w <= 15 -> occurrences (h ++ [e]) = before ++ [(e.1, ps)] -> ps <> [] ->
  exists t' p' own' n', ('(o, p) ← r; Ret (Present o, p)) = Ret (t', p') /\ entry_holds t0 p' t' own' n' (h ++ [e]) /\ evolves own own' p p' /\
    n' <= n + 15 /\ funds p own n - 5 * 15 <= funds p' own' n'.
Proof.
  intros (o' & p' & ownd & ownp & datad & datap & -> & Hs & Hi & <- & Hev & Hn & Hf) Hw He Hps. cbn [mbind outcome_bind].
  exists (Present o'), p', (ownd ++ ownp), (zlen datad + zlen datap). split; [done|]. split; [|split; [done|lia]].
  exists ownd, ownp, datad, datap, before, ps. do 6 (split; [done|]). by rewrite last_snoc.
Qed.

Lemma occur_spec t0 p t own n h e : pool_ok p -> entry_holds t0 p t own n h -> in_order h e -> 75 <= funds p own n -> n + 15 <= MAX_STREAM ->
  exists t' p' own' n', occur upstream e (t, p) = Ret (t', p') /\ entry_holds t0 p' t' own' n' (h ++ [e]) /\ evolves own own' p p' /\
    n' <= n + 15 /\ funds p own n - 5 * 15 <= funds p' own' n'.
Proof.
  intros Hp Ht (Hd & Hpos & Ho) Hf Hm. destruct e as [docid pos]. cbn [fst snd] in *. destruct t as [u u'|o].
  - destruct Ht as (-> & -> & -> & Hu & Hu'). unfold occur. cbn [fst snd]. by eapply entry_extended; [apply make_extends; (done || lia)|..].
  - destruct Ht as (ownd & ownp & datad & datap & before & ps & -> & -> & Hs & Hi & Hps & Hocc & Hl). destruct (pi_pos _ _ _ _ _ Hi) as [Hlp _].
    assert (last ps = Some (lastPos o)) as Hlast by (destruct (last ps) eqn:El; [by rewrite Hlp|by apply last_None in El]).
    assert (occurrences (h ++ [(docid, pos)]) = if decide (lastDoc o = docid) then if decide (lastPos o = pos) then before ++ [(lastDoc o, ps)] else before ++ [(lastDoc o, ps ++ [pos])]
      else (before ++ [(lastDoc o, ps)]) ++ [(docid, [pos])]) as Hnew.
    { rewrite occurrences_snoc, Hocc. unfold occurrence. rewrite last_snoc, removelast_last, Hlast. cbn [fst snd]. case_decide; [|done].
      destruct (decide (lastPos o = pos)) as [->|Hne]; [by rewrite decide_True|]. rewrite decide_False by congruence. done. }
    specialize (Ho _ _ Hl). unfold occur. cbn [fst snd]. destruct (decide (lastDoc o = docid)) as [<-|Hdoc]; [destruct (decide (lastPos o = pos)) as [<-|Hne]|].
    + unfold addDoc. rewrite Z.sub_diag. rewrite !decide_True by done. cbn [mbind outcome_bind]. exists (Present o), p, (ownd ++ ownp), (zlen datad + zlen datap).
      split; [done|]. split; [|split; [|lia]].
      * exists ownd, ownp, datad, datap, before, ps. do 5 (split; [done|]). split; [done|]. by rewrite last_snoc.
      * apply evolves_refl; [done|]. by eapply pair_inside.
    + eapply entry_extended; [apply addDoc_same; [done|done|done|lia|lia|lia]|lia|exact Hnew|by destruct ps].
    + eapply entry_extended; [apply addDoc_new; [done|done|done|done|lia|lia|lia|lia]|lia|exact Hnew|done].
Qed.

(** ** Positions out of order *)

Definition misplaced (h : list (Z * Z)) (e : Z * Z) : Prop :=
  match last h with Some (d, q) => d = e.1 /\ e.2 < q \/ d < e.1 /\ e.2 < 0 | None => e.2 < 0 end.

Lemma writePos_throws p o pos : lastPos o = -1 -> is_s 32 pos -> pos < 0 ->
  writePos upstream pos (o, p) = Throw "Term positions must be strictly increasing within a document".
Proof. intros Hl Hs Hpos. unfold writePos. rewrite Hl. unfold is_s in *. rewrite decide_True by lia. by rewrite decide_True by lia. Qed.

Lemma addDoc_new_throws p o ownd ownp datad datap before ps docid pos : pool_ok p -> pair_at p (docs o) (positions o) ownd ownp datad datap -> postings_inv o datad datap before ps -> ps <> [] ->
  lastDoc o < docid < 2 ^ 31 -> is_s 32 pos -> pos < 0 -> 75 <= funds p (ownd ++ ownp) (zlen datad + zlen datap) -> zlen datad + zlen datap + 15 <= MAX_STREAM ->
  addDoc upstream docid pos (o, p) = Throw "Term positions must be strictly increasing within a document".
Proof.
  intros Hp Hs Hi Hps Hd Hpos Hneg Hf Hm. pose proof Hi as [_ _ [_ Hdelta] Hlast _ _ _]. pose proof (zlen_nonneg datad).
  pose proof (termFreq_range _ _ _ _ _ Hi Hps ltac:(unfold MAX_STREAM in Hm; lia)) as Htf.
  destruct (emits_document o) as (bs & _ & Hz & He); [unfold is_u; lia|done|]. destruct (emit_first p Hp (docs o) (positions o) ownd ownp datad datap Hs _ bs He) as (s & p1 & ownd1 & E & _); [lia|lia|].
  unfold addDoc. rewrite decide_True by (unfold is_s; lia). rewrite decide_False by lia.
  destruct (Stream.writeVInt upstream _ (docs o, p)) as [sp| |]; cbn [mbind outcome_bind] in E |- *; [|done|done]. rewrite E. by apply writePos_throws.
Qed.

Lemma entries_length prev l : zlen (entries prev l) = zlen l.
Proof. revert prev. induction l as [|[d ps] l IH]; intros prev; [done|]. cbn [entries]. by rewrite !zlen_cons, IH. Qed.

Lemma postings_of_spec t0 p t own n h : entry_holds t0 p t own n h -> postings_of t p = Some (posting_gaps <$> occurrences h).
Proof.
  destruct t as [u u'|o]; simpl; [by intros (_ & _ & -> & _)|]. intros (ownd & ownp & datad & datap & before & ps & _ & _ & [H1 H2 _] & Hi & _ & -> & _).
  unfold pushDocs. destruct (make_reader _ p ownd datad H1) as (dr & -> & Hdr). destruct (make_reader _ p ownp datap H2) as (pr & -> & Hpr). opt.
  rewrite (stream_size _ _ _ _ H1), (pushLoop_spec o p before ps (pi_termFreq _ _ _ _ _ Hi) _ 0 0 dr pr datad datap); [by rewrite fmap_app|apply Hi|apply Hi|done|done|apply Hi|].
  pose proof (coded_length _ _ _ (pi_docs _ _ _ _ _ Hi)) as Hl. rewrite entries_length in Hl. lia.
Qed.

Lemma misplaced_throws t0 p t own n h e : pool_ok p -> entry_holds t0 p t own n h -> is_u 31 e.1 -> is_s 32 e.2 -> misplaced h e ->
  75 <= funds p own n -> n + 15 <= MAX_STREAM -> occur upstream e (t, p) = Throw "Term positions must be strictly increasing within a document".
Proof.
  intros Hp Ht Hd Hpos Hbad Hf Hm. destruct e as [docid pos]. unfold misplaced in Hbad. cbn [fst snd] in *. unfold is_u in Hd. unfold occur. cbn [fst snd]. destruct t as [u u'|o].
  - destruct Ht as (_ & _ & -> & _). unfold make. by rewrite writePos_throws.
  - destruct Ht as (ownd & ownp & datad & datap & before & ps & -> & -> & Hs & Hi & Hps & _ & Hl). rewrite Hl in Hbad. destruct Hbad as [[<- Hlt]|[Hlt Hneg]].
    + unfold addDoc. rewrite Z.sub_diag. rewrite !decide_True by done. rewrite decide_False by lia. by rewrite decide_True by lia.
    + by rewrite (addDoc_new_throws p o ownd ownp datad datap before ps) by (done || lia).
Qed.

(** The last position of the last document again. *)
Lemma repeated_occurrence t0 p t own n h e : entry_holds t0 p t own n h -> last h = Some e -> occur upstream e (t, p) = Ret (t, p).
Proof.
  destruct t as [u u'|o]; simpl; [by intros (_ & _ & -> & _)|]. intros (ownd & ownp & datad & datap & before & ps & _ & _ & _ & _ & _ & _ & Hl) Hh. rewrite Hl in Hh. injection Hh as <-.
  unfold occur, addDoc. cbn [fst snd]. rewrite Z.sub_diag. by rewrite !decide_True by done.
Qed.


End operations.


#[export, program] Instance entry_object upstream : PoolObject upstream FullTextHandler.entry (Z * Z) (list (Z * list Z)) := {
  step := FullTextHandler.occur upstream;
  output := FullTextHandler.postings_of;
  fresh t := exists u u', zlen u = 4 /\ zlen u' = 4 /\ t = FullTextHandler.Absent u u';
  allowed _ h e := in_order h e;
  weight _ := 15;
  meaning _ h := posting_gaps <$> occurrences h;
  holds := entry_holds }.
Next Obligation. by intros upstream t p (u & u' & Hu & Hu' & ->). Qed.
Next Obligation.
  intros upstream t0 p [u u'|o] own n h; simpl; [by intros (-> & _)|]. intros (ownd & ownp & datad & datap & before & ps & -> & _ & Hs & _). by eapply pair_inside.
Qed.
Next Obligation.
  intros upstream t0 p [u u'|o] own n h; simpl; [by intros (-> & -> & _)|]. intros (ownd & ownp & datad & datap & before & ps & -> & -> & Hs & _). by eapply pair_cost.
Qed.
Next Obligation.
  intros upstream t0 p p' [u u'|o] own n h; simpl; [done|]. intros (ownd & ownp & datad & datap & before & ps & -> & -> & Hs & Hr) Hu Hin.
  exists ownd, ownp, datad, datap, before, ps. do 2 (split; [done|]). split; [by eapply pair_frame|done].
Qed.
Next Obligation. intros upstream t0 p t own n h e Hup Hp Hh He Hf Hm. by apply occur_spec. Qed.
Next Obligation. intros upstream t0 p t own n h. apply postings_of_spec. Qed.

End theory.
