(* ===== verification/Inversion.v ===== *)
(** The inverter's pool: any number of streams of all kinds filled in any order.

    [inverted] is one of the objects that the handlers of [luxir/index/handler] keep in the pool of the inverter while documents are added: norm bytes,
    document sets, lengths and ordinals, values of columns and the postings of terms.  When the segment is flushed, each of them is read back. *)

From S2P Require Import Prelude Encoding MemPool PoolStream PoolObjects PostingStreams PositionStream.

Abbreviation inverted := (Stream.stream + (DocStream.docs + (IntStream.ints + (IntDeltaStream.ints + (LongStream.longs + FullTextHandler.entry)))))%type.
Abbreviation inverted_event := (Z + (Z + (Z + (Z + (Z + Z * Z)))))%type.

Section inversion.
Context (upstream : Z -> Z -> list Z) (base : Z -> Z -> Z).

(** C5: streams of norm bytes, documents, integers, non-decreasing integers, longs and positions that share a pool, filled in any interleaving and with other
    allocations in between, of any kind and of up to 4 MiB less a buffer's header each, all read back exactly what was added to them, as long as the pool has room for all; no operation fails before.
    The norms of a field, when they are no more than that and the pool has room for them, are then copied to memory of the same pool: the copy is what was added, and all streams can still be read. *)
Theorem inverted_streams (objects : list inverted) (actions : list (action (E := inverted_event))) p :
  resource upstream -> MemPool.make upstream = Some p -> Forall (fresh (upstream := upstream)) objects -> possible_all (upstream := upstream) base objects actions ->
  prices (upstream := upstream) (O := inverted) actions <= 8480464384 ->
  exists os p', run (upstream := upstream) base actions (objects, p) = Ret (os, p') /\ zlen os = zlen objects /\
    (forall k o0 o, objects.[k] = Some o0 -> os.[k] = Some o -> output (upstream := upstream) o p' = Some (meaning (upstream := upstream) o0 (events k actions))) /\
    (forall k o0 s, objects.[k] = Some (inl o0) -> os.[k] = Some (inl s) -> let norms := lefts (events k actions) in
      zlen norms <= MemPool.BYTE_BLOCK_SIZE - MemPool.HEADER_SIZE -> prices (upstream := upstream) (O := inverted) actions + 2 * loss (zlen norms) <= 8480464384 ->
      exists i o p'', NormsWriter.materializeOrdinalNorms upstream s (zlen norms) p' = Ret ((i, o, zlen norms), p'') /\ read p'' (i, o) (zlen norms) = Some norms /\
        forall k o0 o, objects.[k] = Some o0 -> os.[k] = Some o -> output (upstream := upstream) o p'' = Some (meaning (upstream := upstream) o0 (events k actions))).
Proof.
  intros Hup Hm Hf Hpos Hpay. destruct (make_ok upstream Hup) as (p0 & E & Hp & Hroom). rewrite Hm in E. injection E as <-.
  destruct (run_ok base objects actions p Hup Hp Hf Hpos) as (os & p' & parts & Er & Hs); [rewrite Hroom; change MAX_STREAM with 2147483348; lia|].
  destruct (sys_outputs _ _ _ _ _ _ Hs) as [Hlen Hout]. exists os, p'. do 3 (split; [done|]).
  intros k o0 s E0 Es norms Hz Hmore. destruct (parts_nonneg _ _ _ _ _ _ Hs) as [Hc _]. pose proof (zlen_nonneg norms).
  assert (0 <= total credit parts) as Htot by (clear - Hc; unfold total; induction Hc; [done|by apply Z.add_nonneg_nonneg]).
  pose proof (sy_funds _ _ _ _ _ _ Hs) as Hfunds. rewrite Hroom in Hfunds.
  destruct (zget_in parts k) as [part Ek]; [destruct (sy_len _ _ _ _ _ _ Hs); pose proof (zget_Some_range _ _ _ E0); lia|].
  destruct (sy_holds _ _ _ _ _ _ Hs _ _ _ _ E0 Es Ek) as (data & Hst & _ & Edata). fold norms in Edata. subst data.
  assert (zlen norms <= loss (zlen norms)) as Hloss by (unfold loss; case_decide; lia).
  destruct (materialize_ok upstream p' s part.1 norms Hup (sy_pool _ _ _ _ _ _ Hs) Hst Hz) as (i & o & p'' & Em & Hev & Hrd & Hro); [change SMALL with 200; lia|].
  exists i, o, p''. do 2 (split; [done|]). intros k' q0 q Eq0 Eq.
  assert (forall j, events j (actions ++ [Other (Pointer (zlen norms))]) = events j actions) as Hev' by (intros j; by rewrite events_snoc, app_nil_r).
  rewrite <- (Hev' k'). eapply (proj2 (sys_outputs _ _ _ _ _ _ (others_ok _ _ _ _ _ _ Hs _ _ _ Hev Hev' _ _))); done.
  Unshelve.
  - rewrite prices_snoc. simpl. lia.
  - rewrite prices_snoc, Hroom. simpl. lia.
Qed.

End inversion.

(** A field's norm bytes, its documents and the postings of a term in it. *)
Definition three_objects : list inverted :=
  [inl (Stream.make [0; 0; 0; 0]); inr (inl (DocStream.make [0; 0; 0; 0])); inr (inr (inr (inr (inr (FullTextHandler.Absent [0; 0; 0; 0] [0; 0; 0; 0])))))].

Definition some_actions : list (action (E := inverted_event)) :=
  [On 2 (inr (inr (inr (inr (inr (3, 0)))))); On 2 (inr (inr (inr (inr (inr (3, 4)))))); On 0 (inl 17); On 1 (inr (inl 3));
   Other (Aligned 1000000 3); On 2 (inr (inr (inr (inr (inr (8, 2)))))); On 0 (inl 18); On 1 (inr (inl 8))].

Lemma inverted_streams_witness : exists p os p', MemPool.make zero_memory = Some p /\ run (upstream := zero_memory) spread some_actions (three_objects, p) = Ret (os, p') /\
  (forall o, os.[2] = Some o -> output (upstream := zero_memory) o p' = Some (inr (inr (inr (inr (inr [(3, [1; 4]); (8, [3])])))))) /\
  forall s, os.[0] = Some (inl s) -> exists i o p'', NormsWriter.materializeOrdinalNorms zero_memory s 2 p' = Ret ((i, o, 2), p'') /\ read p'' (i, o) 2 = Some [17; 18].
Proof.
  destruct (make_ok zero_memory zero_resource) as (p & E & _). destruct (inverted_streams zero_memory spread three_objects some_actions p zero_resource E) as (os & p' & Er & _ & Ho & Hn).
  - repeat apply List.Forall_cons; [by exists [0; 0; 0; 0]|by exists [0; 0; 0; 0]|by exists [0; 0; 0; 0], [0; 0; 0; 0]|apply List.Forall_nil].
  - apply possible_all_intro. unfold some_actions. cbn [possible_from app possible].
    assert (request_ok spread (Aligned 1000000 3)) as Hal.
    { split; [done|]. split; [done|]. split; [done|]. intros n size. unfold spread. change MemPool.MAX_BUFFERS with 1024. change MemPool.BYTE_BLOCK_SIZE with 4194304. lia. }
    repeat match goal with |- _ /\ _ => split end; try exact Hal; try done; eexists; (split; [reflexivity|]); (split; [|done]); try (vm_compute; done);
      (split; [done|]); (split; [done|]); intros d q Hl; vm_compute in Hl; simplify_eq; cbn; lia.
  - vm_compute. done.
  - exists p, os, p'. split; [done|]. split; [done|]. split; [intros o Eo; rewrite (Ho 2 _ o eq_refl Eo); vm_compute; done|].
    intros s Es. destruct (Hn 0 _ s eq_refl Es) as (i & o & p'' & Em & Hrd & _); [vm_compute; done|vm_compute; done|]. exists i, o, p''. split; [exact Em|exact Hrd].
Defined.
