(* ===== verification/Metered.v ===== *)
(** Code that pays for its work.

    [util/automaton/Automaton.h] bounds the compilation of a pattern by a [Budget]: every state and transition
    made is paid for with [consume], which throws when the budget is used up.  This file models the budget, and gives the
    rules for code that uses it.  [spends d c E Q] describes [c] run when at least [d] units were spent before: there is one
    price and one outcome, both independent of the budget, such that a budget that covers the price is reduced by it and gives the outcome, and
    a smaller one gives the exception of [consume].  The outcome is a value with [Q] or an exception with [E]; it is never
    undefined.  Budgets are below [2^31], so that what was paid for can be counted in an [int32_t].

    Loops whose number of iterations is not known beforehand are [whileS] and [whileO], which make at most [2 ^ n]
    iterations and are undefined beyond; [spends_while] and [whileO_spec] show by a measure that the bound is not reached. *)

From S2P Require Import Prelude.

Record Budget := MkBudget { remaining : Z }.

Definition complex : string := "pattern too complex".

Definition consume (units : Z) : SM Budget () :=
  assert (0 <= units);;
  b ← get;
  if decide (remaining b < units) then throw complex
  else put (MkBudget (remaining b - units)).

(** ** Loops *)

Definition need {S A} (o : option A) : SM S A := match o with Some a => mret a | None => undef end.

Fixpoint foldS {St S A} (f : S -> A -> SM St S) (s : S) (l : list A) : SM St S :=
  match l with
  | [] => mret s
  | x :: l => s ← f s x; foldS f s l
  end.

Fixpoint iterM {M} `{!MRet M, !MBind M} {St R} (n : nat) (body : St -> M (St + R)%type) (st : St) : M (St + R)%type :=
  match n with
  | O => body st
  | S n => x ← iterM n body st; match x with inl st => iterM n body st | inr r => mret (inr r) end
  end.

Definition whileS {S St R} (n : nat) (body : St -> SM S (St + R)%type) (st : St) : SM S R :=
  x ← iterM n body st; match x with inl _ => undef | inr r => mret r end.

Definition whileO {St R} (n : nat) (body : St -> option (St + R)%type) (st : St) : option R :=
  x ← iterM n body st; match x with inl _ => None | inr r => Some r end.

(** ** Prices *)

Definition int32_limit : Z := 2 ^ 31.

Definition spends {A} (d : Z) (c : SM Budget A) (E : string -> Prop) (Q : A -> Z -> Prop) : Prop :=
  exists o k, 0 <= k
  /\ (forall b, 0 <= b -> b + d < int32_limit ->
        (k <= b -> c (MkBudget b) = (o, MkBudget (b - k)))
        /\ (b < k -> exists b', c (MkBudget b) = (Throw complex, b')))
  /\ (d + k < int32_limit -> match o with Ret a => Q a (d + k) | Throw e => E e | Undef => False end).

(** No exception but the one of the budget. *)
Definition no_error : string -> Prop := fun _ => False.

Lemma spends_ret {A} d (a : A) E (Q : A -> Z -> Prop) : Q a d -> spends d (mret a) E Q.
Proof.
  intros HQ. exists (Ret a), 0. split; [done|]. rewrite Z.add_0_r. split; [|done].
  intros b Hb Hd. split; [by rewrite Z.sub_0_r|lia].
Qed.

Lemma spends_throw {A} d m E (Q : A -> Z -> Prop) : E m -> spends d (throw m) E Q.
Proof.
  intros HE. exists (Throw m), 0. split; [done|]. split; [|done].
  intros b Hb Hd. split; [by rewrite Z.sub_0_r|lia].
Qed.

Lemma spends_need {A} d (o : option A) a E (Q : A -> Z -> Prop) : o = Some a -> Q a d -> spends d (need o) E Q.
Proof. intros ->. apply spends_ret. Qed.

Lemma spends_assert d (P : Prop) `{!Decision P} E (Q : () -> Z -> Prop) : P -> Q () d -> spends d (assert P) E Q.
Proof. intros HP. unfold assert. rewrite decide_True by done. apply spends_ret. Qed.

Lemma spends_consume d u E (Q : () -> Z -> Prop) : 0 <= u -> Q () (d + u) -> spends d (consume u) E Q.
Proof.
  intros Hu HQ. exists (Ret ()), u. split; [done|]. split; [|done]. intros b Hb Hd.
  unfold consume, assert. rewrite decide_True by done. unfold mbind, SM_bind, mret, SM_ret, get. simpl.
  split; intros; [by rewrite decide_False by lia|rewrite decide_True by lia; by eexists].
Qed.

(** Where more than the limit was spent, there is no budget left to consider. *)
Lemma spends_small {A} d (c : SM Budget A) E Q : (d < int32_limit -> spends d c E Q) -> spends d c E Q.
Proof.
  intros H. destruct (decide (d < int32_limit)) as [|Hd]; [by apply H|].
  exists Undef, 0. split; [done|]. split; [lia|]. rewrite Z.add_0_r. done.
Qed.

Lemma spends_bind {A B} d (c : SM Budget A) (f : A -> SM Budget B) E Q R :
  spends d c E Q -> (forall a d', d <= d' -> Q a d' -> spends d' (f a) E R) -> spends d (c ≫= f) E R.
Proof.
  intros (o & k & Hk & Hc & HQ) Hf.
  assert (forall b, 0 <= b -> b + d < int32_limit -> b < k -> exists b', (c ≫= f) (MkBudget b) = (Throw complex, b')) as Hlow.
  { intros b Hb Hd Hbk. destruct (Hc b Hb Hd) as [_ Ht]. destruct (Ht Hbk) as [b' E']. exists b'. by apply bind_throw. }
  destruct (decide (d + k < int32_limit)) as [Hdk|Hdk].
  2: { exists Undef, k. split; [done|]. split; [|by intros]. intros b Hb Hd. split; [lia|by apply Hlow]. }
  specialize (HQ Hdk). destruct o as [a|e|]; [..|done].
  - destruct (Hf a (d + k) ltac:(lia) HQ) as (o2 & k2 & Hk2 & Hc2 & HR). exists o2, (k + k2). split; [lia|]. split.
    + intros b Hb Hd. destruct (decide (k <= b)) as [Hkb|]; [|split; [lia|intros _; apply Hlow; lia]].
      destruct (Hc b Hb Hd) as [E' _]. rewrite (bind_ret _ _ _ _ _ (E' Hkb)).
      destruct (Hc2 (b - k) ltac:(lia) ltac:(lia)) as [H1 H2]. split; intros; [|apply H2; lia].
      rewrite H1 by lia. do 2 f_equal. lia.
    + by rewrite Z.add_assoc.
  - exists (Throw e), k. split; [done|]. split; [|by intros]. intros b Hb Hd. split; [|by apply Hlow].
    intros Hkb. destruct (Hc b Hb Hd) as [E' _]. by apply bind_throw, E'.
Qed.

Lemma spends_mono {A} d (c : SM Budget A) (E E' : string -> Prop) (Q R : A -> Z -> Prop) :
  spends d c E Q -> (forall m, E m -> E' m) -> (forall a d', d <= d' -> Q a d' -> R a d') -> spends d c E' R.
Proof.
  intros (o & k & Hk & Hc & HQ) HE HR. exists o, k. split; [done|]. split; [done|]. intros Hd. specialize (HQ Hd).
  destruct o; [apply HR; [lia|done]|by apply HE|done].
Qed.

Lemma spends_post {A} d (c : SM Budget A) E (Q R : A -> Z -> Prop) :
  spends d c E Q -> (forall a d', d <= d' -> Q a d' -> R a d') -> spends d c E R.
Proof. intros H. by apply (spends_mono _ _ _ _ _ _ H). Qed.

(** Only the runs of the code matter. *)
Lemma spends_ext {A} d (c c' : SM Budget A) E Q : (forall b, c b = c' b) -> spends d c E Q -> spends d c' E Q.
Proof. intros Hc (o & k & Hk & H & HQ). exists o, k. split; [done|]. split; [|done]. intros b. rewrite <- Hc. apply H. Qed.

Lemma bind_assoc {A B C} (c : SM Budget A) (f : A -> SM Budget B) (g : B -> SM Budget C) b :
  ((c ≫= f) ≫= g) b = (c ≫= (fun x => f x ≫= g)) b.
Proof. unfold mbind, SM_bind. by destruct (c b) as [[] ?]. Qed.

(** Binds of the primitive operations. *)
Lemma spends_ret_bind {A B} d (a : A) (f : A -> SM Budget B) E Q : spends d (f a) E Q -> spends d (mret a ≫= f) E Q.
Proof. done. Qed.

Lemma spends_need_bind {A B} d (o : option A) a (f : A -> SM Budget B) E Q :
  o = Some a -> spends d (f a) E Q -> spends d (need o ≫= f) E Q.
Proof. by intros ->. Qed.

Lemma spends_assert_bind {B} d (P : Prop) `{!Decision P} (f : () -> SM Budget B) E Q :
  P -> spends d (f ()) E Q -> spends d (assert P ≫= f) E Q.
Proof. intros HP. unfold assert. by rewrite decide_True. Qed.

Lemma spends_consume_bind {B} d u (f : () -> SM Budget B) E Q :
  0 <= u -> spends (d + u) (f ()) E Q -> spends d (consume u ≫= f) E Q.
Proof.
  intros Hu H. eapply spends_bind; [apply (spends_consume _ _ _ (fun _ d' => d' = d + u)); done|].
  by intros [] d' _ ->.
Qed.

(** Loop rule: an invariant indexed by the elements already visited. *)
Lemma spends_fold {S A} (I : list A -> S -> Z -> Prop) d (f : S -> A -> SM Budget S) s l E :
  I [] s d ->
  (forall seen x rest s d', d <= d' -> l = seen ++ x :: rest -> I seen s d' -> spends d' (f s x) E (I (seen ++ [x]))) ->
  spends d (foldS f s l) E (I l).
Proof.
  intros H0 Hstep.
  cut (forall rest seen s d', d <= d' -> l = seen ++ rest -> I seen s d' -> spends d' (foldS f s rest) E (I l)).
  { intros H. by apply (H l []). }
  induction rest as [|x rest IH]; intros seen s' d' Hd -> HI; simpl.
  - rewrite app_nil_r in *. by apply spends_ret.
  - eapply spends_bind; [by apply (Hstep seen x rest)|]. intros s2 d2 Hd2 H2.
    apply (IH (seen ++ [x])); [lia|by rewrite <- app_assoc|done].
Qed.

(** Loop rule for [for (i = a; i < a + n; i++)]. *)
Lemma spends_range {S} (I : Z -> S -> Z -> Prop) d (f : S -> Z -> SM Budget S) s a n E :
  0 <= n -> I a s d ->
  (forall i s d', d <= d' -> a <= i < a + n -> I i s d' -> spends d' (f s i) E (I (i + 1))) ->
  spends d (foldS f s (seqZ a n)) E (I (a + n)).
Proof.
  intros Hn H0 Hstep. eapply spends_post.
  - apply (spends_fold (fun seen => I (a + zlen seen))); [by rewrite zlen_nil, Z.add_0_r|]. intros seen x rest s' d' Hd Hsplit HI.
    pose proof (zget_app_r seen (x :: rest) (zlen seen) ltac:(lia)) as Hx.
    rewrite <- Hsplit, Z.sub_diag, zget_cons_0 in Hx. pose proof (zget_Some_range _ _ _ Hx) as Hr. rewrite zlen_seqZ in Hr by lia.
    rewrite zget_seqZ in Hx by lia. injection Hx as <-. rewrite zlen_app, Z.add_assoc. change (zlen [_]) with 1. apply Hstep; [lia..|done].
  - cbv beta. intros s' d' _ HI. by rewrite zlen_seqZ in HI.
Qed.

Lemma spends_seq {S} (I : Z -> S -> Z -> Prop) d (f : S -> Z -> SM Budget S) s n E :
  0 <= n -> I 0 s d ->
  (forall i s d', d <= d' -> 0 <= i < n -> I i s d' -> spends d' (f s i) E (I (i + 1))) ->
  spends d (foldS f s (seqZ 0 n)) E (I n).
Proof. intros Hn H0 Hstep. by apply (spends_range I d f s 0 n). Qed.

Lemma spends_iter {St R} (I : St -> Z -> Prop) (mu : St -> nat) E Q (body : St -> SM Budget (St + R)%type) n :
  (forall st d, I st d -> spends d (body st) E (fun x d' =>
     match x with inl st' => I st' d' /\ (mu st' < mu st)%nat | inr r => Q r d' end)) ->
  forall st d, I st d -> spends d (iterM n body st) E (fun x d' =>
    match x with inl st' => I st' d' /\ (mu st' + 2 ^ n <= mu st)%nat | inr r => Q r d' end).
Proof.
  intros Hbody. induction n as [|n IH]; intros st d HI; simpl.
  - eapply spends_post; [by apply Hbody|]. intros [st'|r] d' _; [|done]. intros [? ?]. split; [done|lia].
  - eapply spends_bind; [by apply IH|]. intros [st'|r] d' _ H; [|by apply spends_ret]. destruct H as [H1 H2].
    eapply spends_post; [by apply IH|]. intros [st2|r] d2 _; [|done]. intros [? ?]. split; [done|lia].
Qed.

(** A loop whose measure decreases ends, when the bound of [whileS] is above it. *)
Lemma spends_while {St R} (I : St -> Z -> Prop) (mu : St -> nat) E Q (body : St -> SM Budget (St + R)%type) n st d :
  (forall st d, I st d -> spends d (body st) E (fun x d' =>
     match x with inl st' => I st' d' /\ (mu st' < mu st)%nat | inr r => Q r d' end)) ->
  I st d -> (mu st < 2 ^ n)%nat -> spends d (whileS n body st) E Q.
Proof.
  intros Hbody HI Hmu. eapply spends_bind; [by apply (spends_iter I mu E Q)|].
  intros [st'|r] d' _ H; [lia|by apply spends_ret].
Qed.

Lemma iterO_spec {St R} (I : St -> Prop) (mu : St -> nat) (Q : R -> Prop) (body : St -> option (St + R)%type) n :
  (forall st, I st -> exists x, body st = Some x /\
     match x with inl st' => I st' /\ (mu st' < mu st)%nat | inr r => Q r end) ->
  forall st, I st -> exists x, iterM n body st = Some x /\
    match x with inl st' => I st' /\ (mu st' + 2 ^ n <= mu st)%nat | inr r => Q r end.
Proof.
  intros Hbody. induction n as [|n IH]; intros st HI; simpl.
  - destruct (Hbody st HI) as ([st'|r] & E & H); (eexists; split; [done|]); [|done]. destruct H. split; [done|lia].
  - destruct (IH st HI) as ([st'|r] & E & H); rewrite E; simpl; [|by eexists (inr r)].
    destruct H as [H1 H2]. destruct (IH st' H1) as ([st2|r] & E2 & H); (eexists; split; [done|]); [|done].
    destruct H. split; [done|lia].
Qed.

Lemma whileO_spec {St R} (I : St -> Prop) (mu : St -> nat) (Q : R -> Prop) (body : St -> option (St + R)%type) n st :
  (forall st, I st -> exists x, body st = Some x /\
     match x with inl st' => I st' /\ (mu st' < mu st)%nat | inr r => Q r end) ->
  I st -> (mu st < 2 ^ n)%nat -> exists r, whileO n body st = Some r /\ Q r.
Proof.
  intros Hbody HI Hmu. destruct (iterO_spec I mu Q body n Hbody st HI) as ([st'|r] & E & H); [lia|].
  unfold whileO. rewrite E. by exists r.
Qed.

(** What the rules say of a whole run. *)
Lemma spends_run {A} (c : SM Budget A) E Q : spends 0 c E Q ->
  exists o k, 0 <= k
  /\ (forall b, 0 <= b < int32_limit -> k <= b -> c (MkBudget b) = (o, MkBudget (b - k)))
  /\ (forall b, 0 <= b < int32_limit -> b < k -> exists b', c (MkBudget b) = (Throw complex, b'))
  /\ (k < int32_limit -> match o with Ret a => Q a k | Throw e => E e | Undef => False end).
Proof.
  intros (o & k & Hk & Hc & HQ). exists o, k. split_and!; [done|..|done].
  - intros b Hb Hkb. by apply Hc; [lia..|].
  - intros b Hb Hkb. by apply Hc; [lia..|].
Qed.
