(* ===== verification/Languages.v ===== *)
(** Languages of graphs of transitions.

    [struct Transition] of [util/automaton/Automaton.h], and the words that a graph of transitions accepts, as a theory of
    abstract graphs: [E s t] says that the state [s] has the transition [t], [F s] that [s] accepts.  The words that a transition reads are a
    parameter [lab] of its label.  The three constructions of [Automaton.cpp], [unite], [concatenate] and [star], are shown on such
    graphs to give the union, the concatenation and the iteration of the languages. *)

From S2P Require Import Prelude.

Record Transition := MkT { tmin : Z; tmax : Z; dest : Z; bytes : bool }.

#[export] Instance Transition_eq_dec : EqDecision Transition.
Proof. solve_decision. Defined.

Definition move (f : Z -> Z) (t : Transition) : Transition := MkT (tmin t) (tmax t) (f (dest t)) (bytes t).

(** ** Languages *)

Definition language : Type := list Z -> Prop.

#[export] Instance language_equiv : Equiv language := fun L K => forall w, L w <-> K w.
#[export] Instance language_equivalence : Equivalence (≡@{language}).
Proof.
  split; [by intros L w|intros L K H w; by symmetry|].
  intros L K M H1 H2 w. by rewrite (H1 w).
Qed.

Definition lempty : language := fun _ => False.
Definition leps : language := fun w => w = [].
Definition lunion (L K : language) : language := fun w => L w \/ K w.
Definition lcat (L K : language) : language := fun w => exists u v, w = u ++ v /\ L u /\ K v.
Definition lstar (L : language) : language := fun w => exists ws, Forall L ws /\ w = concat ws.

#[export] Instance lunion_proper : Proper ((≡) ==> (≡) ==> (≡)) lunion.
Proof. intros L L' HL K K' HK w. unfold lunion. by rewrite (HL w), (HK w). Qed.
#[export] Instance lcat_proper : Proper ((≡) ==> (≡) ==> (≡)) lcat.
Proof. intros L L' HL K K' HK w. split; intros (u & v & -> & H1 & H2); exists u, v; (split_and!; [done|by apply HL|by apply HK]). Qed.
#[export] Instance lstar_proper : Proper ((≡) ==> (≡)) lstar.
Proof.
  intros L L' HL w. unfold lstar. split; intros (ws & H & ->); exists ws; (split; [|done]);
    (eapply Forall_impl; [exact H|]); intros v; apply HL.
Qed.

Lemma lcat_eps_l L : lcat leps L ≡ L.
Proof. intros w. split; [by intros (u & v & -> & -> & ?)|]. intros. by exists [], w. Qed.
Lemma lcat_eps_r L : lcat L leps ≡ L.
Proof. intros w. split; [intros (u & v & -> & ? & ->); by rewrite app_nil_r|]. intros. exists w, []. by rewrite app_nil_r. Qed.
Lemma lcat_assoc L K M : lcat (lcat L K) M ≡ lcat L (lcat K M).
Proof.
  intros w. split.
  - intros (u & v & -> & (u1 & u2 & -> & H1 & H2) & H3). exists u1, (u2 ++ v). rewrite app_assoc. split_and!; [done..|]. by exists u2, v.
  - intros (u & v & -> & H1 & (v1 & v2 & -> & H2 & H3)). exists (u ++ v1), v2. rewrite app_assoc. split_and!; [done| |done]. by exists u, v1.
Qed.
Lemma lunion_empty_l L : lunion lempty L ≡ L.
Proof. intros w. unfold lunion, lempty. naive_solver. Qed.
Lemma lunion_assoc L K M : lunion (lunion L K) M ≡ lunion L (lunion K M).
Proof. intros w. unfold lunion. naive_solver. Qed.

(** Concatenations of several languages, and repetitions with bounds. *)
Definition lcats (Ls : list language) : language := foldr lcat leps Ls.
Definition lrep (lo hi : Z) (L : language) : language := fun w => exists ws, Forall L ws /\ lo <= zlen ws <= hi /\ w = concat ws.

Lemma lcats_snoc Ls L : lcats (Ls ++ [L]) ≡ lcat (lcats Ls) L.
Proof.
  induction Ls as [|K Ls IH]; simpl; [by rewrite lcat_eps_l, lcat_eps_r|]. by rewrite IH, lcat_assoc.
Qed.

Lemma lcats_app Ls Ks : lcats (Ls ++ Ks) ≡ lcat (lcats Ls) (lcats Ks).
Proof. induction Ls as [|L Ls IH]; simpl; [by rewrite lcat_eps_l|]. by rewrite IH, lcat_assoc. Qed.

Lemma lrep_0 L : lrep 0 0 L ≡ leps.
Proof.
  intros w. split; [|intros ->; by exists []]. intros (ws & _ & Hlen & ->). pose proof (zlen_nonneg ws).
  destruct ws; [done|]. rewrite zlen_cons in Hlen. pose proof (zlen_nonneg ws). lia.
Qed.

Lemma lrep_snoc lo hi (L : language) ws v : Forall L ws -> lo <= zlen ws <= hi -> L v -> lrep (lo + 1) (hi + 1) L (concat ws ++ v).
Proof.
  intros Hws Hlen Hv. exists (ws ++ [v]). rewrite concat_app. simpl. rewrite app_nil_r.
  split_and!; [apply Forall_app; split; [done|by apply Forall_singleton]|zlen..|done].
Qed.

Lemma lrep_unsnoc (L : language) ws : 0 < zlen ws -> Forall L ws ->
  exists ws' v, Forall L ws' /\ L v /\ zlen ws = zlen ws' + 1 /\ concat ws = concat ws' ++ v.
Proof.
  intros Hlen Hws. destruct ws as [|v ws _] using rev_ind; [done|].
  apply Forall_app in Hws as [Hws [Hv _]%Forall_cons]. exists ws, v. rewrite concat_app. simpl. rewrite app_nil_r. split_and!; [done..|zlen|done].
Qed.

Lemma lrep_more n L : 0 <= n -> lcat (lrep n n L) L ≡ lrep (n + 1) (n + 1) L.
Proof.
  intros Hn w. split.
  - intros (u & v & -> & (ws & Hws & Hlen & ->) & Hv). by apply lrep_snoc.
  - intros (ws & Hws & Hlen & ->). destruct (lrep_unsnoc L ws) as (ws' & v & Hws' & Hv & Hz & ->); [lia|done|].
    exists (concat ws'), v. split_and!; [done| |done]. exists ws'. split_and!; [done|lia..|done].
Qed.

Lemma lrep_maybe lo n L : 0 <= lo <= n -> lcat (lrep lo n L) (lunion leps L) ≡ lrep lo (n + 1) L.
Proof.
  intros Hn w. split.
  - intros (u & v & -> & (ws & Hws & Hlen & ->) & [->|Hv]).
    + rewrite app_nil_r. exists ws. split_and!; [done|lia..|done].
    + destruct (lrep_snoc lo n L ws v Hws Hlen Hv) as (ws2 & H1 & H2 & H3). exists ws2. split_and!; [done|lia..|done].
  - intros (ws & Hws & Hlen & ->). destruct (decide (zlen ws <= n)).
    + exists (concat ws), []. rewrite app_nil_r. split_and!; [done| |by left]. exists ws. split_and!; [done|lia..|done].
    + destruct (lrep_unsnoc L ws) as (ws' & v & Hws' & Hv & Hz & ->); [lia|done|].
      exists (concat ws'), v. split_and!; [done| |by right]. exists ws'. split_and!; [done|lia..|done].
Qed.

(** ** Graphs *)

Definition edges : Type := Z -> Transition -> Prop.

(** The transitions of a graph placed at [off], and those of one of its states attached to [s]. *)
Definition shift (off : Z) (E : edges) : edges := fun s t => exists s0 u, s = off + s0 /\ E s0 u /\ t = move (Z.add off) u.
Definition hook (s off : Z) (E : edges) (s0 : Z) : edges := fun s' t => s' = s /\ exists u, E s0 u /\ t = move (Z.add off) u.

Definition within (n : Z) (E : edges) : Prop := forall s t, E s t -> 0 <= s < n /\ 0 <= dest t < n.

Section Paths.
Context (lab : Z -> Z -> bool -> language).

Definition reads (t : Transition) : language := lab (tmin t) (tmax t) (bytes t).

Inductive path (E : edges) : Z -> list Z -> Z -> Prop :=
  | path_nil s : path E s [] s
  | path_step s t u v s' : E s t -> reads t u -> path E (dest t) v s' -> path E s (u ++ v) s'.

Definition from (E : edges) (F : Z -> bool) (s : Z) : language := fun w => exists f, path E s w f /\ F f = true.
Definition lang (E : edges) (F : Z -> bool) : language := from E F 0.

Lemma path_app E s u q v r : path E s u q -> path E q v r -> path E s (u ++ v) r.
Proof. induction 1 as [|s t u1 u2 q H1 H2 H3 IH]; [done|]. intros. rewrite <- app_assoc. eapply path_step; eauto. Qed.

Lemma path_one E s t u : E s t -> reads t u -> path E s u (dest t).
Proof. intros. rewrite <- (app_nil_r u). eapply path_step; [done..|constructor]. Qed.

Lemma path_map (E E' : edges) (h : Z -> Z) s w q :
  (forall s t, E s t -> E' (h s) (move h t)) -> path E s w q -> path E' (h s) w (h q).
Proof. intros Hh. induction 1 as [|s t u v q H1 H2 H3 IH]; [constructor|]. by eapply (path_step _ _ (move h t)); [apply Hh| |]. Qed.

Lemma path_within n E s w q : within n E -> path E s w q -> 0 <= s < n -> 0 <= q < n.
Proof. intros Hn. induction 1 as [|s t u v q H1 H2 H3 IH]; [done|]. intros _. by apply IH, (Hn s t). Qed.

Lemma from_nil E F s : F s = true -> from E F s [].
Proof. intros. exists s. split; [constructor|done]. Qed.

Lemma from_step E F s t u v : E s t -> reads t u -> from E F (dest t) v -> from E F s (u ++ v).
Proof. intros H1 H2 (f & H3 & H4). exists f. split; [by eapply path_step|done]. Qed.

Lemma from_inv E F s w : from E F s w ->
  w = [] /\ F s = true \/ exists t u v, w = u ++ v /\ E s t /\ reads t u /\ from E F (dest t) v.
Proof. intros (f & Hp & HF). destruct Hp as [|s t u v q H1 H2 H3]; [by left|]. right. exists t, u, v. split_and!; [done..|]. by exists q. Qed.

(** Induction on the way to an accepting state. *)
Lemma from_ind E F (P : Z -> list Z -> Prop) :
  (forall s, F s = true -> P s []) ->
  (forall s t u v, E s t -> reads t u -> from E F (dest t) v -> P (dest t) v -> P s (u ++ v)) ->
  forall s w, from E F s w -> P s w.
Proof.
  intros H0 H1 s w (f & Hp & HF). induction Hp as [|s t u v q Ht Hu Hp IH]; [auto|].
  eapply H1; [done..| |by apply IH]. by exists q.
Qed.

Lemma from_ext E E' F s : (forall s t, E s t <-> E' s t) -> from E F s ≡ from E' F s.
Proof.
  intros H w. split; apply (from_ind _ _ (fun s w => from _ _ s w)); eauto using from_nil.
  - intros. eapply from_step; [by apply H|..]; done.
  - intros. eapply from_step; [by apply H|..]; done.
Qed.

(** A part of a graph that is a copy of another graph. *)
Definition copy (off n : Z) (Ea : edges) (Fa : Z -> bool) (E : edges) (F : Z -> bool) : Prop :=
  forall s, 0 <= s < n -> F (off + s) = Fa s /\ forall t, E (off + s) t <-> exists u, Ea s u /\ t = move (Z.add off) u.

Lemma copy_from off n Ea Fa E F s :
  within n Ea -> copy off n Ea Fa E F -> 0 <= s < n -> from E F (off + s) ≡ from Ea Fa s.
Proof.
  intros Hn Hc Hs w. split.
  - cut (forall q w, from E F q w -> forall s, q = off + s -> 0 <= s < n -> from Ea Fa s w); [eauto|].
    apply (from_ind _ _ (fun q w => forall s, q = off + s -> 0 <= s < n -> from Ea Fa s w)).
    + clear s Hs. intros q Hf s -> Hs. apply from_nil. destruct (Hc s Hs) as [<- _]. done.
    + clear s Hs. intros q t u v Ht Hu _ IH s -> Hs. destruct (Hc s Hs) as [_ Hcs]. apply Hcs in Ht as (x & Hx & ->).
      eapply from_step; [done..|]. apply IH; [done|]. by apply (Hn s x).
  - cut (forall s w, from Ea Fa s w -> 0 <= s < n -> from E F (off + s) w); [eauto|].
    apply (from_ind _ _ (fun s w => 0 <= s < n -> from E F (off + s) w)).
    + clear s Hs. intros s Hf Hs. apply from_nil. destruct (Hc s Hs) as [-> _]. done.
    + clear s Hs. intros s t u v Ht Hu _ IH Hs. destruct (Hc s Hs) as [_ Hcs].
      eapply (from_step _ _ _ (move (Z.add off) t)); [apply Hcs; by exists t|done|]. apply IH. by apply (Hn s t).
Qed.

(** ** Union *)

Definition unite_edges (na : Z) (Ea Eb : edges) : edges := fun s t =>
  shift 1 Ea s t \/ shift (1 + na) Eb s t \/ hook 0 1 Ea 0 s t \/ hook 0 (1 + na) Eb 0 s t.

Lemma unite_lang na nb Ea Eb Fa Fb F :
  within na Ea -> within nb Eb -> 0 < na -> 0 < nb ->
  F 0 = Fa 0 || Fb 0 -> (forall s, 0 <= s < na -> F (1 + s) = Fa s) -> (forall s, 0 <= s < nb -> F (1 + na + s) = Fb s) ->
  lang (unite_edges na Ea Eb) F ≡ lunion (lang Ea Fa) (lang Eb Fb).
Proof.
  intros Wa Wb Hna Hnb F0 FA FB. set (E := unite_edges na Ea Eb).
  assert (copy 1 na Ea Fa E F) as Ca.
  { intros s Hs. split; [by apply FA|]. intros t. split; [|intros (u & H1 & H2); left; by exists s, u].
    intros [(s0 & u & H1 & H2 & H3)|[(s0 & u & H1 & H2 & H3)|[[H1 _]|[H1 _]]]]; [|apply Wb in H2; lia..|lia|lia].
    assert (s0 = s) as -> by lia. by exists u. }
  assert (copy (1 + na) nb Eb Fb E F) as Cb.
  { intros s Hs. split; [by apply FB|]. intros t. split; [|intros (u & H1 & H2); right; left; by exists s, u].
    intros [(s0 & u & H1 & H2 & H3)|[(s0 & u & H1 & H2 & H3)|[[H1 _]|[H1 _]]]]; [apply Wa in H2; lia| |lia|lia].
    assert (s0 = s) as -> by lia. by exists u. }
  intros w. unfold lang. split.
  - intros [[-> HF]|(t & u & v & -> & Ht & Hu & Hv)]%from_inv.
    + rewrite F0, orb_true_iff in HF. destruct HF; [left|right]; by apply from_nil.
    + destruct Ht as [(s0 & x & H1 & H2 & H3)|[(s0 & x & H1 & H2 & H3)|[(_ & x & H2 & ->)|(_ & x & H2 & ->)]]];
        [apply Wa in H2; lia|apply Wb in H2; lia|left|right]; (eapply from_step; [done..|]).
      * eapply copy_from; [exact Wa|exact Ca|by apply (Wa 0 x)|exact Hv].
      * eapply copy_from; [exact Wb|exact Cb|by apply (Wb 0 x)|exact Hv].
  - intros [[[-> HF]|(t & u & v & -> & Ht & Hu & Hv)]%from_inv|[[-> HF]|(t & u & v & -> & Ht & Hu & Hv)]%from_inv].
    + apply from_nil. by rewrite F0, HF.
    + apply (from_step _ _ _ (move (Z.add 1) t)); [right; right; left; split; [done|by exists t]|done|].
      eapply (copy_from 1); [exact Wa|exact Ca|by apply (Wa 0 t)|exact Hv].
    + apply from_nil. by rewrite F0, HF, orb_true_r.
    + apply (from_step _ _ _ (move (Z.add (1 + na)) t)); [right; right; right; split; [done|by exists t]|done|].
      eapply (copy_from (1 + na)); [exact Wb|exact Cb|by apply (Wb 0 t)|exact Hv].
Qed.

(** ** Concatenation *)

Definition concatenate_edges (na : Z) (Ea : edges) (Fa : Z -> bool) (Eb : edges) : edges := fun s t =>
  shift 0 Ea s t \/ shift na Eb s t \/ (0 <= s < na /\ Fa s = true /\ hook s na Eb 0 s t).

Lemma concatenate_lang na nb Ea Eb Fa Fb F :
  within na Ea -> within nb Eb -> 0 < na -> 0 < nb ->
  (forall s, 0 <= s < na -> F s = Fa s && Fb 0) -> (forall s, 0 <= s < nb -> F (na + s) = Fb s) ->
  lang (concatenate_edges na Ea Fa Eb) F ≡ lcat (lang Ea Fa) (lang Eb Fb).
Proof.
  intros Wa Wb Hna Hnb FA FB. set (E := concatenate_edges na Ea Fa Eb).
  assert (copy na nb Eb Fb E F) as Cb.
  { intros s Hs. split; [by apply FB|]. intros t. split; [|intros (u & H1 & H2); right; left; by exists s, u].
    intros [(s0 & u & H1 & H2 & H3)|[(s0 & u & H1 & H2 & H3)|[H1 _]]]; [apply Wa in H2; lia| |lia].
    assert (s0 = s) as -> by lia. by exists u. }
  intros w. unfold lang. split.
  - cut (forall q w, from E F q w -> 0 <= q < na -> lcat (from Ea Fa q) (from Eb Fb 0) w); [intros H ?; apply H; [done|lia]|].
    apply (from_ind _ _ (fun q w => 0 <= q < na -> lcat (from Ea Fa q) (from Eb Fb 0) w)).
    + intros s HF Hs. rewrite FA in HF by done. apply andb_true_iff in HF as [H1 H2].
      exists [], []. split_and!; [done|by apply from_nil..].
    + intros s t u v Ht Hu Hv IH Hs.
      destruct Ht as [(s0 & x & H1 & H2 & ->)|[(s0 & x & H1 & H2 & H3)|(_ & HF & _ & x & Hx & ->)]].
      * simpl in *. assert (s0 = s) as -> by lia.
        destruct IH as (v1 & v2 & -> & H3 & H4); [by apply (Wa s x)|]. exists (u ++ v1), v2. rewrite app_assoc.
        split_and!; [done| |done]. eapply from_step; [done..|exact H3].
      * apply Wb in H2. lia.
      * exists [], (u ++ v). split_and!; [done|by apply from_nil|]. eapply from_step; [done..|].
        eapply copy_from; [exact Wb|exact Cb|by apply (Wb 0 x)|exact Hv].
  - intros (u & v & -> & (f & Hp & Hf) & Hv).
    assert (path E 0 u f) as HpE.
    { apply (path_map Ea E (fun s => s)); [|done]. intros s t Ht. left. exists s, t. split_and!; [done..|]. by destruct t. }
    pose proof (path_within na _ _ _ _ Wa Hp ltac:(lia)) as Hfr.
    assert (from E F f v) as (q & Hq & HF).
    { apply from_inv in Hv as [[-> H0]|(t & u1 & v1 & -> & Ht & Hu1 & Hv1)]; [apply from_nil; by rewrite FA, Hf, H0|].
      apply (from_step _ _ _ (move (Z.add na) t)); [right; right; split_and!; [lia|lia|done|split; [done|by exists t]]|done|].
      eapply copy_from; [exact Wb|exact Cb|by apply (Wb 0 t)|exact Hv1]. }
    exists q. split; [by eapply path_app|done].
Qed.

(** ** Iteration *)

Definition star_edges (na : Z) (Ea : edges) (Fa : Z -> bool) : edges := fun s t =>
  shift 1 Ea s t \/ hook 0 1 Ea 0 s t \/ (exists s0, 0 <= s0 < na /\ Fa s0 = true /\ hook (1 + s0) 1 Ea 0 s t).

Lemma lstar_cons L u v : L u -> lstar L v -> lstar L (u ++ v).
Proof. intros Hu (ws & H & ->). exists (u :: ws). split; [by constructor|done]. Qed.

Lemma star_lang na Ea Fa F :
  within na Ea -> 0 < na -> F 0 = true -> (forall s, 0 <= s < na -> F (1 + s) = Fa s) ->
  lang (star_edges na Ea Fa) F ≡ lstar (lang Ea Fa).
Proof.
  intros Wa Hna F0 FA. set (E := star_edges na Ea Fa). intros w. unfold lang. split.
  - assert (forall q w, from E F q w -> forall s, q = 1 + s -> 0 <= s < na -> lcat (from Ea Fa s) (lstar (from Ea Fa 0)) w) as Hcopy.
    { apply (from_ind _ _ (fun q w => forall s, q = 1 + s -> 0 <= s < na -> lcat (from Ea Fa s) (lstar (from Ea Fa 0)) w)).
      - intros q HF s -> Hs. rewrite FA in HF by done. exists [], []. split_and!; [done|by apply from_nil|]. by exists [].
      - intros q t u v Ht Hu _ IH s -> Hs.
        destruct Ht as [(s0 & x & H1 & H2 & ->)|[[H1 _]|(s0 & Hs0 & HF & H1 & x & Hx & ->)]]; [|lia|].
        + assert (s0 = s) as -> by lia. destruct (IH (dest x)) as (v1 & v2 & -> & H3 & H4); [done|by apply (Wa s x)|].
          exists (u ++ v1), v2. rewrite app_assoc. split_and!; [done| |done]. eapply from_step; [done..|exact H3].
        + assert (s0 = s) as -> by lia. destruct (IH (dest x)) as (v1 & v2 & -> & H3 & H4); [done|by apply (Wa 0 x)|].
          exists [], (u ++ v1 ++ v2). split_and!; [done|by apply from_nil|]. rewrite app_assoc. apply lstar_cons; [|done].
          eapply from_step; [done..|exact H3]. }
    intros [[-> HF]|(t & u & v & -> & Ht & Hu & Hv)]%from_inv; [by exists []|].
    destruct Ht as [(s0 & x & H1 & H2 & ->)|[(_ & x & Hx & ->)|(s0 & Hs0 & HF & H1 & _)]]; [apply Wa in H2; lia| |lia].
    destruct (Hcopy _ _ Hv (dest x)) as (v1 & v2 & -> & H3 & H4); [done|by apply (Wa 0 x)|].
    rewrite app_assoc. apply lstar_cons; [|done]. eapply from_step; [done..|exact H3].
  - intros (ws & Hws & ->).
    set (hub q := q = 0 \/ exists s, 0 <= s < na /\ Fa s = true /\ q = 1 + s).
    assert (forall u q, hub q -> from Ea Fa 0 u -> exists q', path E q u q' /\ hub q') as Hstep.
    { intros u q Hq (f & Hp & Hf). inversion Hp as [s0 E1 E2 E3|s0 t u1 v1 q1 Ht Hu1 Hp1 E1 E2 E3]; subst.
      - exists q. split; [constructor|done].
      - exists (1 + f). split; [|right; exists f; split; [|done]].
        + eapply (path_step _ _ (move (Z.add 1) t)); [|done|].
          * destruct Hq as [->|(s & Hs & HF & ->)]; [right; left|right; right; exists s; split_and!; [lia|lia|done|]]; (split; [done|by exists t]).
          * apply (path_map Ea E (Z.add 1)); [|done]. intros s x Hx. left. by exists s, x.
        + eapply path_within; [exact Wa|exact Hp1|by apply (Wa 0 t)]. }
    assert (forall ws q, hub q -> Forall (from Ea Fa 0) ws -> exists q', path E q (concat ws) q' /\ hub q') as Hall.
    { clear ws Hws. induction ws as [|u ws IH]; intros q Hq Hws; [exists q; split; [constructor|done]|].
      apply Forall_cons in Hws as [Hu Hws]. destruct (Hstep u q Hq Hu) as (q1 & Hp1 & Hq1).
      destruct (IH q1 Hq1 Hws) as (q2 & Hp2 & Hq2). exists q2. split; [by eapply path_app|done]. }
    destruct (Hall ws 0 ltac:(by left) Hws) as (q & Hp & Hq). exists q. split; [done|].
    destruct Hq as [->|(s & Hs & Hf & ->)]; [done|by rewrite FA].
Qed.
End Paths.
