(* ===== verification/CaseAlternates.v ===== *)
(** Case alternates: [util/automaton/CaseAlternates.h] and [CaseAlternates.cpp].

    The table of case classes, built once by inverting the simple case folding of all Unicode scalars, the lookup of the class
    of a scalar, and the extension of a set of ranges by the alternates of their members.  The folding itself,
    [una::codepoint::to_simple_casefold], is a third-party function and a parameter here; what the table relies on is that it maps scalars to
    scalars and is idempotent. *)

From stdpp Require Import gmap.
From S2P Require Import Prelude Search Metered.

Record Entry := MkEntry { codepoint : Z; ebegin : Z; eend : Z }.
Record CaseClasses := MkClasses { entries : list Entry; members : list Z }.

Definition is_scalar (cp : Z) : Prop := 0 <= cp < 0xd800 \/ 0xe000 <= cp <= 0x10ffff.
#[export] Instance is_scalar_dec cp : Decision (is_scalar cp).
Proof. unfold is_scalar. solve_decision. Defined.

(** The scalars in the order in which the constructor visits them. *)
Definition scalars_below (limit : Z) : list Z := seqZ 0 0xd800 ++ seqZ 0xe000 (limit - 0xe000).
Abbreviation scalars := (scalars_below 0x110000).

Definition key_le (a b : Z * list Z) : Prop := a.1 <= b.1.
Definition entry_le (a b : Entry) : Prop := codepoint a <= codepoint b.
#[export] Instance key_le_dec a b : Decision (key_le a b).
Proof. unfold key_le. apply _. Defined.
#[export] Instance entry_le_dec a b : Decision (entry_le a b).
Proof. unfold entry_le. apply _. Defined.

#[export] Instance entry_le_total : Total entry_le.
Proof. intros a b. unfold entry_le. lia. Qed.
#[export] Instance entry_le_trans : Transitive entry_le.
Proof. intros a b c. unfold entry_le. lia. Qed.

Definition addClass (c : CaseClasses) (item : Z * list Z) : CaseClasses :=
  let '(folded, cps) := item in
  let cps := merge_sort Z.le (cps ++ [folded]) in
  let members' := members c ++ cps in
  MkClasses (entries c ++ ((fun cp => MkEntry cp (u32 (zlen (members c))) (u32 (zlen members'))) <$> cps)) members'.

Definition lowerBound (c : CaseClasses) (cp : Z) : option Z :=
  lower_bound (fun i => (fun e => bool_decide (codepoint e < cp)) <$> (entries c).[i]) 0 (zlen (entries c)).

(** [caseAlternates] and [appendCaseAlternates] on the table [c]. *)
Definition findClass (c : CaseClasses) (cp : Z) : option (list Z) :=
  it ← lowerBound c cp;
  if decide (it = zlen (entries c)) then Some [] else
  e ← (entries c).[it];
  if decide (codepoint e <> cp) then Some [] else slice (members c) (ebegin e) (eend e - ebegin e).

(** The inner loop, for the range [lo .. hi], from the entry [cursor]. *)
Definition appendRange (c : CaseClasses) (lo hi : Z) (st : list (Z * Z) * Z) : SM Budget ((list (Z * Z) * Z) + (list (Z * Z) * Z))%type :=
  let '(ranges, cursor) := st in
  if decide (cursor < zlen (entries c)) then
    entry ← need (entries c).[cursor];
    if decide (codepoint entry <= hi) then
      consume (1 + u32 (eend entry - ebegin entry));;
      ranges ← foldS (fun ranges i =>
        alternate ← need (members c).[i];
        mret (if decide (alternate < lo \/ hi < alternate) then ranges ++ [(alternate, alternate)] else ranges))
        ranges (seqZ (ebegin entry) (eend entry - ebegin entry));
      mret (inl (ranges, cursor + 1))
    else mret (inr st)
  else mret (inr st).

Definition appendClasses (c : CaseClasses) (ranges : list (Z * Z)) : SM Budget (list (Z * Z)) :=
  '(ranges, _) ← foldS (fun st r =>
    let '(ranges, cursor) := st in
    '(lo, hi) ← need ranges.[r];
    cursor ← need (Gallop.gallopIndex (fun i => codepoint <$> (entries c).[i]) lo cursor (zlen (entries c)));
    whileS (length (entries c)) (appendRange c lo hi) (ranges, cursor)) (ranges, 0) (seqZ 0 (zlen ranges));
  mret ranges.

Section Table.
Context (to_simple_casefold : Z -> Z).

Definition byFold : gmap Z (list Z) :=
  foldl (fun m cp =>
    let folded := to_simple_casefold cp in
    if decide (folded = cp) then m else <[folded := default [] (m !! folded) ++ [cp]]> m) ∅ scalars.

(** The constructor of [CaseClasses]. *)
Definition classes : CaseClasses :=
  let c := foldl addClass (MkClasses [] []) (merge_sort key_le (map_to_list byFold)) in
  MkClasses (merge_sort entry_le (entries c)) (members c).

Definition caseAlternates (cp : Z) : option (list Z) := findClass classes cp.

Definition appendCaseAlternates (ranges : list (Z * Z)) : SM Budget (list (Z * Z)) := appendClasses classes ranges.

(** ** The table *)

Lemma elem_of_concat {A} (x : A) ls : x ∈ concat ls <-> exists l, l ∈ ls /\ x ∈ l.
Proof. rewrite list_elem_of_In, in_concat. by setoid_rewrite list_elem_of_In. Qed.

(** All scalars that fold as [cp], in order. *)
Definition case_class (f : Z) : list Z := filter (fun x => to_simple_casefold x = f) scalars.

Lemma elem_of_scalars x : x ∈ scalars <-> is_scalar x.
Proof. unfold scalars_below, is_scalar. rewrite elem_of_app, !elem_of_seqZ. lia. Qed.

Lemma zlen_scalars : zlen scalars = 1112064.
Proof. unfold scalars_below. by rewrite zlen_app, !zlen_seqZ. Qed.

Lemma elem_of_case_class x f : x ∈ case_class f <-> is_scalar x /\ to_simple_casefold x = f.
Proof. unfold case_class. rewrite list_elem_of_filter, elem_of_scalars. tauto. Qed.

Lemma case_class_in x f : is_scalar x -> to_simple_casefold x = f -> x ∈ case_class f.
Proof. intros. by apply elem_of_case_class. Qed.

Lemma increasing_scalars : increasing scalars.
Proof.
  unfold scalars_below. apply StronglySorted_app_2; [|apply increasing_seqZ..].
  intros x y Hx%elem_of_seqZ Hy%elem_of_seqZ. lia.
Qed.

Lemma increasing_case_class f : increasing (case_class f).
Proof. apply increasing_filter, increasing_scalars. Qed.

Lemma merge_sort_increasing l k : NoDup l -> increasing k -> (forall x, x ∈ l <-> x ∈ k) -> merge_sort Z.le l = k.
Proof.
  intros Hl Hk Heq. apply increasing_ext; [|done|].
  - pose proof (StronglySorted_merge_sort Z.le l) as Hs.
    assert (NoDup (merge_sort Z.le l)) as Hn by (by rewrite merge_sort_Permutation).
    induction Hs as [|x m Hs IH Hx]; constructor; apply NoDup_cons in Hn as [Hin Hn]; [by apply IH|].
    rewrite Forall_forall in *. intros y Hy. specialize (Hx y Hy). assert (x <> y) by (by intros ->). lia.
  - intros x. by rewrite merge_sort_Permutation.
Qed.

Lemma byFold_lookup f :
  byFold !! f = let k := filter (fun x => to_simple_casefold x = f /\ x <> f) scalars in if decide (k = []) then None else Some k.
Proof.
  unfold byFold. induction scalars as [|x l IH] using rev_ind; [done|].
  rewrite foldl_snoc. rewrite filter_app. cbv zeta in *. set (m := foldl _ _ _) in *. clearbody m.
  set (k := filter (fun x => to_simple_casefold x = f /\ x <> f) l) in *. clearbody k.
  rewrite filter_cons, filter_nil. destruct (decide (to_simple_casefold x = x)) as [Ex|Nx].
  - rewrite (decide_False (P := _ /\ _)) by (intros []; congruence). by rewrite app_nil_r.
  - destruct (decide (to_simple_casefold x = f)) as [Ef|Nf].
    + rewrite Ef, lookup_insert_eq, IH, (decide_True (P := _ /\ _)) by (split; congruence).
      destruct (decide (k = [])) as [->|Hk]; simpl; [done|]. rewrite decide_False; [done|by destruct k].
    + rewrite lookup_insert_ne, (decide_False (P := _ /\ _)) by tauto. by rewrite app_nil_r.
Qed.

#[local] Opaque scalars_below case_class.

Context (fold_scalar : forall cp, is_scalar cp -> is_scalar (to_simple_casefold cp)).
Context (fold_idemp : forall cp, is_scalar cp -> to_simple_casefold (to_simple_casefold cp) = to_simple_casefold cp).

(** The keys of [byFold] in the order of its iteration. *)
Definition foldKeys : list Z := (merge_sort key_le (map_to_list byFold)).*1.

Lemma elem_of_foldKeys f : f ∈ foldKeys <-> exists x, is_scalar x /\ to_simple_casefold x = f /\ x <> f.
Proof.
  unfold foldKeys. rewrite merge_sort_Permutation, list_elem_of_fmap. split.
  - intros ([f' cps] & -> & Hin%elem_of_map_to_list). rewrite byFold_lookup in Hin. cbv zeta in Hin.
    case_decide as Hk; [done|]. destruct (filter _ scalars) as [|x k] eqn:E; [done|]. exists x.
    assert (x ∈ filter (fun x => to_simple_casefold x = f' /\ x <> f') scalars) as [H1 H2]%list_elem_of_filter by (rewrite E; left).
    apply elem_of_scalars in H2. done.
  - intros (x & Hx & Hf & Hne). eexists (f, _). split; [done|]. apply elem_of_map_to_list. rewrite byFold_lookup. cbv zeta.
    rewrite decide_False; [done|]. apply elem_of_not_nil with x. apply list_elem_of_filter. by rewrite elem_of_scalars.
Qed.

Lemma NoDup_foldKeys : NoDup foldKeys.
Proof. unfold foldKeys. rewrite merge_sort_Permutation. apply NoDup_fst_map_to_list. Qed.

(** The class of a key is its folding sources and the key itself. *)
Lemma sorted_class f cps : byFold !! f = Some cps -> merge_sort Z.le (cps ++ [f]) = case_class f.
Proof.
  rewrite byFold_lookup. cbv zeta. case_decide as Hk; [done|]. intros [= <-].
  assert (is_scalar f /\ to_simple_casefold f = f) as [Hsc Hff].
  { destruct (filter _ scalars) as [|x k] eqn:E; [done|].
    assert (x ∈ filter (fun x => to_simple_casefold x = f /\ x <> f) scalars) as [[<- _] Hx%elem_of_scalars]%list_elem_of_filter by (rewrite E; left).
    auto. }
  apply merge_sort_increasing; [|apply increasing_case_class|].
  - apply NoDup_app. split_and!; [apply NoDup_filter, increasing_NoDup, increasing_scalars| |apply NoDup_singleton].
    intros x [[_ Hx] _]%list_elem_of_filter ->%list_elem_of_singleton. done.
  - intros x. rewrite elem_of_app, list_elem_of_singleton, list_elem_of_filter, elem_of_case_class, elem_of_scalars.
    destruct (decide (x = f)) as [->|]; tauto.
Qed.

Lemma NoDup_classes ks : NoDup ks -> NoDup (concat (case_class <$> ks)).
Proof.
  induction 1 as [|k ks Hk Hks IH]; simpl; [constructor|]. apply NoDup_app. split_and!; [apply increasing_NoDup, increasing_case_class| |done].
  intros x [_ <-]%elem_of_case_class Hx. apply elem_of_concat in Hx as (l & Hl & Hx).
  apply list_elem_of_fmap in Hl as (k' & -> & Hk'). by apply elem_of_case_class in Hx as [_ <-].
Qed.

Lemma zlen_classes ks : NoDup ks -> zlen (concat (case_class <$> ks)) < 2 ^ 32.
Proof.
  intros Hks. pose proof zlen_scalars as Hz.
  assert (concat (case_class <$> ks) ⊆+ scalars) as Hsub%submseteq_length.
  { apply NoDup_submseteq; [by apply NoDup_classes|]. intros x Hx.
    apply elem_of_concat in Hx as (l & Hl & Hx).
    apply list_elem_of_fmap in Hl as (k' & -> & Hk'). by apply elem_of_case_class in Hx as [Hx%elem_of_scalars _]. }
  unfold zlen in *. lia.
Qed.

Definition entry_ok (ms : list Z) (e : Entry) : Prop :=
  0 <= ebegin e /\ slice ms (ebegin e) (eend e - ebegin e) = Some (case_class (to_simple_casefold (codepoint e)))
  /\ u32 (eend e - ebegin e) = eend e - ebegin e.

Lemma addClasses_spec its :
  (forall i, i ∈ its -> byFold !! i.1 = Some i.2) -> NoDup its.*1 ->
  let c := foldl addClass (MkClasses [] []) its in
  members c = concat (case_class <$> its.*1) /\ codepoint <$> entries c = members c /\ Forall (entry_ok (members c)) (entries c).
Proof.
  induction its as [|[f cps] its IH] using rev_ind; intros Hits Hnd; [split_and!; [done|done|apply List.Forall_nil]|].
  pose proof (zlen_classes _ Hnd) as Hlen. rewrite fmap_app in Hnd, Hlen. rewrite fmap_app, concat_app in Hlen.
  cbv zeta. rewrite foldl_snoc.
  destruct IH as (H1 & H2 & H3); [intros i Hi; apply Hits, elem_of_app; by left|by apply NoDup_app in Hnd as [? _]|].
  set (c := foldl _ _ _) in *. clearbody c. unfold addClass. 
  rewrite (sorted_class f cps) by (apply (Hits (f, cps)), elem_of_app; right; left). cbn [entries members].
  rewrite <- H1 in Hlen. simpl in Hlen. rewrite app_nil_r in Hlen. rewrite zlen_app in Hlen.
  pose proof (zlen_nonneg (members c)). pose proof (zlen_nonneg (case_class f)).
  rewrite (uwrap_id 32), (uwrap_id 32) by (unfold is_u; rewrite ?zlen_app; lia). rewrite zlen_app. split_and!.
  - rewrite !fmap_app, concat_app, H1. simpl. by rewrite app_nil_r.
  - rewrite fmap_app, H2. f_equal. rewrite <- list_fmap_compose. apply list_fmap_id.
  - apply Forall_app. split.
    + eapply Forall_impl; [exact H3|]. intros e (He1 & He2 & He3). split_and!; [done| |done]. by apply (slice_mono []).
    + apply Forall_fmap, Forall_forall. intros cp [_ Hcp]%elem_of_case_class. split_and!; simpl; [lia| |].
      * replace (zlen (members c) + zlen (case_class f) - zlen (members c)) with (zlen (case_class f)) by lia.
        rewrite Hcp, <- (app_nil_r (case_class f)) at 1. by apply slice_app.
      * apply uwrap_id. unfold is_u. lia.
Qed.

(** What the finished table is: sorted, one entry for each scalar of a class with several members. *)
Record table_ok (c : CaseClasses) : Prop := {
  table_sorted : nondecreasing (codepoint <$> entries c);
  table_nodup : NoDup (codepoint <$> entries c);
  table_entries : Forall (entry_ok (members c)) (entries c);
  table_in : forall cp, cp ∈ codepoint <$> entries c <->
    is_scalar cp /\ exists x, is_scalar x /\ to_simple_casefold x = to_simple_casefold cp /\ x <> to_simple_casefold cp;
  table_small : zlen (entries c) < 2 ^ 32 }.

Lemma classes_ok : table_ok classes.
Proof.
  destruct (addClasses_spec (merge_sort key_le (map_to_list byFold))) as (H1 & H2 & H3); [|apply NoDup_foldKeys|].
  { intros [f cps] Hin. rewrite merge_sort_Permutation in Hin. by apply elem_of_map_to_list in Hin. }
  fold foldKeys in H1. unfold classes. set (c := foldl _ _ _) in *. clearbody c.
  assert (Hp : codepoint <$> merge_sort entry_le (entries c) ≡ₚ members c) by (by rewrite merge_sort_Permutation, H2).
  split; cbn [entries members].
  - eapply StronglySorted_fmap; [|by apply (StronglySorted_merge_sort entry_le)]. done.
  - rewrite Hp, H1. apply NoDup_classes, NoDup_foldKeys.
  - rewrite merge_sort_Permutation. done.
  - intros cp. rewrite Hp, H1, elem_of_concat. split.
    + intros (l & Hl & Hx). apply list_elem_of_fmap in Hl as (f & -> & Hf).
      apply elem_of_case_class in Hx as [Hcp <-]. apply elem_of_foldKeys in Hf as (x & Hx). split; [done|by exists x].
    + intros (Hcp & x & Hx). exists (case_class (to_simple_casefold cp)). split.
      * apply list_elem_of_fmap_2. apply elem_of_foldKeys. by exists x.
      * exact (case_class_in _ _ Hcp eq_refl).
  - pose proof (zlen_classes _ NoDup_foldKeys) as Hz. rewrite <- H1 in Hz. unfold zlen in *.
    by rewrite <- (length_fmap codepoint), (Permutation_length Hp).
Qed.

Lemma entries_cut c key : table_ok c -> exists r,
  cut (fun i => (fun v => bool_decide (v < key)) <$> (codepoint <$> (entries c).[i])) 0 (zlen (entries c)) r.
Proof.
  intros Hc. eexists.
  pose proof (sorted_cut (fun v => v < key) (fun v => bool_decide (v < key)) _ (table_sorted _ Hc) ltac:(cbv beta; lia) ltac:(done)) as (Hr & Ht & Hf).
  rewrite zlen_fmap in Hr, Hf. split_and!; [apply Hr..| |]; intros i Hi; rewrite <- zget_fmap; [by apply Ht|by apply Hf].
Qed.

(** The alternates of [cp]: its case class, unless it is alone in it. *)
Definition alternates (cp : Z) : list Z :=
  let cls := case_class (to_simple_casefold cp) in if decide (is_scalar cp /\ cls <> [cp]) then cls else [].

Lemma table_in_alternates c cp : table_ok c ->
  cp ∈ codepoint <$> entries c <-> is_scalar cp /\ case_class (to_simple_casefold cp) <> [cp].
Proof.
  intros Hc. rewrite (table_in _ Hc). set (f := to_simple_casefold cp). split; intros [Hcp H]; (split; [done|]).
  - destruct H as (x & Hx & Hf & Hne). intros E.
    pose proof (case_class_in x f Hx Hf) as Hin. rewrite E in Hin. apply list_elem_of_singleton in Hin as ->.
    pose proof (case_class_in f f (fold_scalar _ Hcp) (fold_idemp _ Hcp)) as Hff.
    rewrite E in Hff. by apply list_elem_of_singleton in Hff.
  - pose proof (case_class_in cp f Hcp eq_refl) as Hin.
    destruct (decide (cp = f)) as [E|]; [|by exists cp].
    pose proof (increasing_NoDup _ (increasing_case_class f)) as Hn.
    destruct (case_class f) as [|y [|z l]] eqn:Ec; [by apply not_elem_of_nil in Hin|apply list_elem_of_singleton in Hin; congruence|].
    assert (y ∈ case_class f /\ z ∈ case_class f) as [Hy Hz] by (rewrite Ec; split; [left|right; left]).
    assert (y <> z) by (apply NoDup_cons in Hn as [Hn _]; intros ->; apply Hn; left).
    apply elem_of_case_class in Hy, Hz.
    destruct (decide (y = f)); [exists z|exists y]; naive_solver congruence.
Qed.

(** The lookup returns the other case forms of a scalar with the scalar, or nothing when there are none. *)
Lemma findClass_spec c cp : table_ok c -> findClass c cp = Some (alternates cp).
Proof.
  intros Hc. unfold findClass, lowerBound.
  destruct (entries_cut c cp Hc) as (r & Hcut). pose proof (table_small _ Hc) as Hsm.
  rewrite (lower_bound_cut _ _ _ r); [|destruct Hcut as (Hr & Ht & Hf); split_and!; [apply Hr..| |];
    intros i Hi; [specialize (Ht i Hi)|specialize (Hf i Hi)]; by destruct ((entries c).[i])|lia].
  opt. unfold alternates. cbv zeta. rewrite (decide_ext (is_scalar cp /\ _) (cp ∈ codepoint <$> entries c)) by (symmetry; by apply table_in_alternates).
  destruct Hcut as (Hr & Ht & Hf). destruct (decide (r = _)) as [Er|Nr].
  - rewrite decide_False; [done|]. intros (e & -> & (i & Hi)%zget_elem)%list_elem_of_fmap.
    pose proof (zget_Some_range _ _ _ Hi). specialize (Ht i ltac:(lia)). rewrite Hi in Ht. simpl in Ht.
    injection Ht as Ht%bool_decide_eq_true. lia.
  - destruct (zget_in (entries c) r) as [e He]; [lia|]. rewrite He. opt.
    pose proof (Hf r ltac:(lia)) as Hre. rewrite He in Hre. simpl in Hre. injection Hre as Hre%bool_decide_eq_false.
    destruct (decide (codepoint e <> cp)) as [Ne|Ee%dec_stable].
    + rewrite decide_False; [done|]. intros (e' & -> & (i & Hi)%zget_elem)%list_elem_of_fmap.
      pose proof (zget_Some_range _ _ _ Hi). destruct (decide (i < r)) as [Hir|Hir].
      * specialize (Ht i ltac:(lia)). rewrite Hi in Ht. simpl in Ht. injection Ht as Ht%bool_decide_eq_true. lia.
      * pose proof (nondecreasing_zget (codepoint <$> entries c) r i (codepoint e) (codepoint e') (table_sorted _ Hc)) as Hle.
        rewrite !zget_fmap, He, Hi in Hle. specialize (Hle eq_refl eq_refl ltac:(lia)). lia.
    + rewrite decide_True by (apply list_elem_of_fmap; exists e; split; [done|by eapply zget_elem_1]).
      pose proof (table_entries _ Hc) as Hall. rewrite Forall_forall in Hall.
      destruct (Hall e) as (_ & Hs & _); [by eapply zget_elem_1|]. by rewrite Hs, Ee.
Qed.

Lemma caseAlternates_spec cp : caseAlternates cp = Some (alternates cp).
Proof. apply findClass_spec, classes_ok. Qed.

(** ** Ranges with the alternates of their members *)

Definition covers (ranges : list (Z * Z)) (x : Z) : Prop := exists lo hi, (lo, hi) ∈ ranges /\ lo <= x <= hi.

Definition single (x : Z) : Z * Z := (x, x).

Lemma covers_app rs ss x : covers (rs ++ ss) x <-> covers rs x \/ covers ss x.
Proof. unfold covers. setoid_rewrite elem_of_app. naive_solver. Qed.

Lemma covers_singles l x : covers (single <$> l) x <-> x ∈ l.
Proof.
  unfold covers. setoid_rewrite list_elem_of_fmap. split.
  - intros (lo & hi & (y & [= -> ->] & Hy) & Hx). by assert (x = y) as -> by lia.
  - intros Hx. exists x, x. split; [by exists x|lia].
Qed.

(** One entry: its class, without the members of the range itself. *)
Lemma appendEntry_spec c d lo hi ranges b n cls E (Q : list (Z * Z) -> Z -> Prop) :
  slice (members c) b n = Some cls ->
  Q (ranges ++ (single <$> filter (fun a => a < lo \/ hi < a) cls)) d ->
  spends d (foldS (fun ranges i =>
    alternate ← need (members c).[i];
    mret (if decide (alternate < lo \/ hi < alternate) then ranges ++ [(alternate, alternate)] else ranges)) ranges (seqZ b n)) E Q.
Proof.
  intros (pre & post & Em & <- & <-)%slice_Some HQ.
  eapply spends_post.
  - apply (spends_range (fun i rs d' => d' = d /\ rs = ranges ++ (single <$> filter (fun a => a < lo \/ hi < a) (take (Z.to_nat (i - zlen pre)) cls))));
      [apply zlen_nonneg|by rewrite Z.sub_diag, app_nil_r|].
    intros i rs d' _ Hi (-> & ->). destruct (zget_in cls (i - zlen pre)) as [x Hx]; [lia|].
    apply (spends_need_bind _ _ x); [by rewrite Em, zget_app_r, zget_app_l by lia|].
    apply spends_ret. split; [done|].
    replace (Z.to_nat (i + 1 - zlen pre)) with (S (Z.to_nat (i - zlen pre))) by lia.
    unfold zget in Hx. rewrite decide_True in Hx by lia. rewrite (take_S_r _ _ _ Hx), filter_app, filter_cons, filter_nil.
    case_decide; [by rewrite fmap_app, app_assoc|by rewrite app_nil_r].
  - cbv beta. intros rs d' _ (-> & ->). rewrite take_ge in * by (unfold zlen; lia). done.
Qed.

Lemma entry_alternates c i e : table_ok c -> (entries c).[i] = Some e ->
  entry_ok (members c) e /\ case_class (to_simple_casefold (codepoint e)) = alternates (codepoint e).
Proof.
  intros Hc Hi. apply zget_elem_1 in Hi. split; [pose proof (table_entries _ Hc) as H; rewrite Forall_forall in H; by apply H|].
  unfold alternates. cbv zeta. rewrite decide_True; [done|]. apply (table_in_alternates c); [done|]. by apply list_elem_of_fmap_2.
Qed.

Lemma alternates_entry c x y : table_ok c -> x ∈ alternates y -> exists i e, (entries c).[i] = Some e /\ codepoint e = y.
Proof.
  intros Hc Hx. unfold alternates in Hx. cbv zeta in Hx. case_decide as Hy; [|by apply not_elem_of_nil in Hx].
  apply (table_in_alternates c) in Hy as (e & -> & (i & Hi)%zget_elem)%list_elem_of_fmap; [|done]. by exists i, e.
Qed.

Definition at_most (c : CaseClasses) (cur hi : Z) : Prop := forall i e, (entries c).[i] = Some e -> i < cur <-> codepoint e <= hi.

Lemma range_entries c lo hi cursor cur x : table_ok c -> 0 <= cursor -> at_most c cursor (lo - 1) -> at_most c cur hi ->
  (exists i e, cursor <= i < cur /\ (entries c).[i] = Some e /\ x ∈ alternates (codepoint e))
  <-> exists y, lo <= y <= hi /\ x ∈ alternates y.
Proof.
  intros Hc Hcur Hlo Hhi. split.
  - intros (i & e & Hi & He & Hx). exists (codepoint e). split; [|done]. pose proof (Hlo i e He). pose proof (Hhi i e He). lia.
  - intros (y & Hy & Hx). destruct (alternates_entry c x y Hc Hx) as (i & e & He & <-). exists i, e. split; [|done].
    pose proof (Hlo i e He). pose proof (Hhi i e He). lia.
Qed.

Lemma appendRange_spec c lo hi ranges cursor d E :
  table_ok c -> lo <= hi -> 0 <= cursor <= zlen (entries c) -> at_most c cursor (lo - 1) ->
  spends d (whileS (length (entries c)) (appendRange c lo hi) (ranges, cursor)) E (fun st d' =>
    exists extra, st.1 = ranges ++ (single <$> extra) /\ cursor <= st.2 <= zlen (entries c) /\ at_most c st.2 hi
    /\ forall x, x ∈ extra <-> (x < lo \/ hi < x) /\ exists y, lo <= y <= hi /\ x ∈ alternates y).
Proof.
  intros Hc Hlh Hcur Hlo.
  apply (spends_while (fun st d' => exists extra, st.1 = ranges ++ (single <$> extra) /\ cursor <= st.2 <= zlen (entries c)
      /\ (forall i e, (entries c).[i] = Some e -> i < st.2 -> codepoint e <= hi)
      /\ forall x, x ∈ extra <-> (x < lo \/ hi < x) /\ exists i e, cursor <= i < st.2 /\ (entries c).[i] = Some e /\ x ∈ alternates (codepoint e))
    (fun st => Z.to_nat (zlen (entries c) - st.2))).
  2: { exists []. rewrite app_nil_r. simpl. split_and!; [done|lia..| |].
       - intros i e Hi Hic. apply (Hlo i e Hi) in Hic. lia.
       - intros x. split; [by intros ?%not_elem_of_nil|]. intros (_ & i & e & Hi & _). lia. }
  2: { simpl. pose proof (Nat.pow_gt_lin_r 2 (length (entries c)) ltac:(lia)). unfold zlen in *. lia. }
  intros [rs cur] d' (extra & Ers & Hr & Hle & Hx). simpl in *. subst rs. unfold appendRange.
  destruct (decide (cur < _)) as [Hlt|].
  - destruct (zget_in (entries c) cur) as [e He]; [lia|]. apply (spends_need_bind _ _ e); [done|].
    destruct (entry_alternates c cur e Hc He) as ((H1 & H2 & H3) & Ea).
    assert (lo <= codepoint e) by (pose proof (Hlo cur e He); lia).
    destruct (decide (codepoint e <= hi)) as [Hhi|Hhi].
    + pose proof (uwrap_range 32 (eend e - ebegin e) ltac:(lia)) as Hu. unfold is_u in Hu.
      apply spends_consume_bind; [lia|]. eapply spends_bind.
      { eapply appendEntry_spec; [exact H2|]. exact (conj eq_refl eq_refl : (fun r d2 => r = _ /\ d2 = _) _ _). }
      intros r d2 _ (-> & _). apply spends_ret. split; [|simpl; lia].
      exists (extra ++ filter (fun a => a < lo \/ hi < a) (case_class (to_simple_casefold (codepoint e)))). simpl. rewrite fmap_app, app_assoc.
      split_and!; [done|lia..| |].
      * intros i e' Hi Hic. destruct (decide (i = cur)) as [->|]; [by simplify_eq|]. apply (Hle i e' Hi). lia.
      * intros x. rewrite elem_of_app, Hx, list_elem_of_filter, Ea. split.
        -- intros [(Ho & i & e' & Hi & He' & Hal)|(Ho & Hal)]; (split; [done|]); [exists i, e'|exists cur, e]; (split_and!; [lia..|done|done]).
        -- intros (Ho & i & e' & Hi & He' & Hal). destruct (decide (i = cur)) as [->|]; [simplify_eq; by right|].
           left. split; [done|]. exists i, e'. split_and!; [lia..|done|done].
    + assert (at_most c cur hi) as Hat.
      { intros i e' Hi. split; [by apply Hle|]. intros Hh. apply Z.nle_gt. intros Hci.
        pose proof (nondecreasing_zget (codepoint <$> entries c) cur i (codepoint e) (codepoint e') (table_sorted _ Hc)) as Hle2.
        rewrite !zget_fmap, He, Hi in Hle2. specialize (Hle2 eq_refl eq_refl Hci). lia. }
      apply spends_ret. exists extra. simpl. split_and!; [done|lia..|done|]. intros x. rewrite Hx.
      by rewrite (range_entries c lo hi cursor cur x Hc ltac:(lia) Hlo Hat).
  - assert (at_most c cur hi) as Hat.
    { intros i e' Hi. pose proof (zget_Some_range _ _ _ Hi). split; [by apply Hle|lia]. }
    apply spends_ret. exists extra. simpl. split_and!; [done|lia..|done|]. intros x. rewrite Hx.
    by rewrite (range_entries c lo hi cursor cur x Hc ltac:(lia) Hlo Hat).
Qed.

(** The vector of ranges ends with the alternates of all members of the ranges it had, as ranges of one scalar. *)
Lemma appendClasses_spec c ranges d E :
  table_ok c -> Forall (fun r => r.1 <= r.2) ranges -> StronglySorted (fun a b => a.2 < b.1) ranges ->
  spends d (appendClasses c ranges) E (fun rs d' => exists extra, rs = ranges ++ (single <$> extra)
    /\ (forall x, covers rs x <-> covers ranges x \/ exists y, covers ranges y /\ x ∈ alternates y)).
Proof.
  intros Hc Hle Hs. unfold appendClasses.
  eapply spends_bind.
  - apply (spends_seq (fun r st d' => exists extra, st.1 = ranges ++ (single <$> extra) /\ 0 <= st.2 <= zlen (entries c)
      /\ (forall j lo hi, r <= j -> ranges.[j] = Some (lo, hi) -> forall i e, (entries c).[i] = Some e -> i < st.2 -> codepoint e < lo)
      /\ (forall x, x ∈ extra <-> exists j lo hi, j < r /\ ranges.[j] = Some (lo, hi) /\ (x < lo \/ hi < x) /\ exists y, lo <= y <= hi /\ x ∈ alternates y))).
    + apply zlen_nonneg.
    + exists []. simpl. rewrite app_nil_r. split_and!; [done|lia|apply zlen_nonneg| |].
      * intros j lo hi _ _ i e Hi%zget_Some_range. lia.
      * intros x. split; [by intros ?%not_elem_of_nil|]. intros (j & lo & hi & Hj & Hg%zget_Some_range & _). lia.
    + intros r [rs cur] d' _ Hr (extra & E1 & Hcur & Hbefore & Hx). simpl in *. subst rs.
      destruct (zget_in ranges r) as [[lo hi] Hrg]; [lia|].
      apply (spends_need_bind _ _ (lo, hi)); [by apply zget_app_Some|].
      assert (lo <= hi) as Hlh by (rewrite Forall_forall in Hle; by apply (Hle (lo, hi)), (zget_elem_1 _ r)).
      destruct (entries_cut c lo Hc) as (q & Hcut). pose proof Hcut as (Hq & Hlt & Hge). pose proof (table_small _ Hc) as Hsm.
      assert (at_most c q (lo - 1)) as Hat.
      { intros i e Hi. pose proof (zget_Some_range _ _ _ Hi). pose proof (cut_probe _ _ _ _ i Hcut ltac:(lia)) as Hp. cbv beta in Hp.
        rewrite Hi in Hp. simpl in Hp. injection Hp as Hp%bool_decide_eq_inv. lia. }
      assert (cur <= q) as Hcq.
      { apply Z.nlt_ge. intros Hlt2. destruct (zget_in (entries c) q) as [e He]; [lia|].
        pose proof (Hbefore r lo hi ltac:(lia) Hrg q e He Hlt2). pose proof (Hat q e He). lia. }
      apply (spends_need_bind _ _ q).
      { apply gallopIndex_cut; [|lia..]. apply (cut_narrow _ _ _ _ _ _ Hcut); lia. }
      eapply spends_post; [apply (appendRange_spec c lo hi _ q); [done..|lia|done]|].
      intros [rs2 cur2] d2 _ (extra2 & E2 & Hcur2 & Hat2 & Hx2). simpl in *. exists (extra ++ extra2).
      rewrite fmap_app, app_assoc. split_and!; [done|lia..| |].
      * intros j lo2 hi2 Hj Hg i e Hi Hic. apply (Hat2 i e Hi) in Hic.
        pose proof (sorted_zget _ _ _ _ _ _ Hs Hrg Hg ltac:(lia)). simpl in *. lia.
      * intros x. rewrite elem_of_app, Hx, Hx2. split.
        -- intros [(j & lo2 & hi2 & Hj & H)|H]; [exists j, lo2, hi2; split; [lia|done]|exists r, lo, hi; split; [lia|done]].
        -- intros (j & lo2 & hi2 & Hj & Hg & H). destruct (decide (j = r)) as [->|]; [right; by simplify_eq|left].
           exists j, lo2, hi2. split; [lia|done].
  - intros [rs cur] d' _ (extra & E1 & _ & _ & Hx). simpl in E1. subst rs. apply spends_ret. exists extra. split; [done|]. intros x.
    rewrite covers_app, covers_singles, Hx. split.
    + intros [?|(j & lo & hi & _ & Hg & _ & y & Hy & Hxy)]; [by left|right]. exists y. split; [|done].
      exists lo, hi. split; [by eapply zget_elem_1|done].
    + intros [?|(y & (lo & hi & (j & Hj)%zget_elem & Hy) & Hxy)]; [by left|].
      destruct (decide (lo <= x <= hi)); [left; exists lo, hi; split; [by eapply zget_elem_1|done]|right].
      exists j, lo, hi. pose proof (zget_Some_range _ _ _ Hj). split_and!; [lia|done|lia|by exists y].
Qed.

Lemma appendCaseAlternates_spec ranges d E :
  Forall (fun r => r.1 <= r.2) ranges -> StronglySorted (fun a b => a.2 < b.1) ranges ->
  spends d (appendCaseAlternates ranges) E (fun rs d' => exists extra, rs = ranges ++ (single <$> extra)
    /\ (forall x, covers rs x <-> covers ranges x \/ exists y, covers ranges y /\ x ∈ alternates y)).
Proof. apply appendClasses_spec, classes_ok. Qed.
End Table.
