(* ===== verification/Automata.v ===== *)
(** Range automata: [class Automaton] of [util/automaton/Automaton.h] and [Automaton.cpp], without its graph algorithms
    (they are in [Determinize]).

    An automaton is built state by state and transition by transition, and then frozen into flat arrays.  [bld] and [nfa] say what graph a
    growing and a frozen automaton hold, so that the theory of [Languages] applies: [recognises d a L] is the contract of
    all combinators.  Sizes and states are [int32_t]; the number of states is bounded by what was paid for them. *)

From S2P Require Import Prelude Metered Languages CaseAlternates.

(** Caller-supplied folding of literals: the number of code points and the array they were written to. *)
Record CodepointFolder := MkFolder { fold : Z -> Z -> Z * list Z }.

Module Automaton.

Record t := Make {
  building : list (list Transition);
  transitions : list Transition;
  offsets : list Z;
  accepts : list bool;
  frozen : bool }.

Definition init : t := Make [] [] [] [] false.

Definition size (a : t) : Z := s32 (zlen (accepts a)).
Definition accept (a : t) (state : Z) : option bool := (accepts a).[state].

Definition addState (acc : bool) (a : t) : SM Budget (Z * t) :=
  consume 1;;
  if frozen a then throw "automaton is frozen" else
  let a := Make (building a ++ [[]]) (transitions a) (offsets a) (accepts a ++ [acc]) (frozen a) in
  mret (s32 (zlen (building a)) - 1, a).

Definition setAccept (state : Z) (acc : bool) (a : t) : option t :=
  accepts' ← zset (accepts a) state acc;
  Some (Make (building a) (transitions a) (offsets a) accepts' (frozen a)).

Definition addTransition (src min max to : Z) (bytes : bool) (a : t) : SM Budget t :=
  consume 1;;
  if decide (frozen a = true \/ src < 0 \/ to < 0 \/ size a <= src \/ size a <= to \/ max < min) then throw "invalid automaton transition" else
  row ← need (building a).[src];
  building' ← need (zset (building a) src (row ++ [MkT min max to bytes]));
  mret (Make building' (transitions a) (offsets a) (accepts a) (frozen a)).

(** The order of [freeze]: not (b before a). *)
Definition before (a b : Transition) : bool :=
  if decide (tmin a <> tmin b) then bool_decide (tmin a < tmin b)
  else if decide (tmax a <> tmax b) then bool_decide (tmax a < tmax b)
  else bool_decide (dest a < dest b).
Definition transition_le (a b : Transition) : Prop := before b a = false.
#[export] Instance transition_le_dec a b : Decision (transition_le a b).
Proof. unfold transition_le. apply _. Defined.

Definition freeze (a : t) : SM Budget t :=
  if frozen a then mret a else
  '(offs, trans) ← foldS (fun '(offs, trans) row =>
     let row := merge_sort transition_le row in
     prev ← need (last offs);
     consume (zlen row);;
     mret (offs ++ [prev + s32 (zlen row)], trans ++ row)) ([0], transitions a) (building a);
  mret (Make [] trans offs (accepts a) true).

Definition transitionsFrom (a : t) (state : Z) : option (list Transition) :=
  if decide (state < 0 \/ size a <= state) then Some [] else
  lo ← (offsets a).[state];
  hi ← (offsets a).[state + 1];
  slice (transitions a) lo (hi - lo).

Definition empty : SM Budget t :=
  '(_, result) ← addState false init;
  freeze result.

Definition epsilon : SM Budget t :=
  '(_, result) ← addState true init;
  freeze result.

Definition charRange (min max : Z) : SM Budget t :=
  '(_, result) ← addState false init;
  '(_, result) ← addState true result;
  result ← addTransition 0 min max 1 false result;
  freeze result.

Definition codepoint (cp : Z) : SM Budget t := charRange cp cp.

Definition anyChar : SM Budget t :=
  '(_, result) ← addState false init;
  '(_, result) ← addState true result;
  result ← addTransition 0 0 0xd7ff 1 false result;
  result ← addTransition 0 0xe000 0x10ffff 1 false result;
  freeze result.

Definition anyStringBytes : SM Budget t :=
  '(_, result) ← addState true init;
  result ← addTransition 0 0 255 0 true result;
  freeze result.

(** [for (Transition transition : l) addTransition(src, ..., off + transition.dest)] *)
Definition addMoved (src off : Z) (l : list Transition) (out : t) : SM Budget t :=
  foldS (fun out tr => addTransition src (tmin tr) (tmax tr) (off + dest tr) (bytes tr) out) out l.

Definition appendCopy (out inp : t) (offset : Z) : SM Budget t :=
  out ← foldS (fun out state => acc ← need (accept inp state); '(_, out) ← addState acc out; mret out) out (seqZ 0 (size inp));
  foldS (fun out state => l ← need (transitionsFrom inp state); addMoved (offset + state) offset l out) out (seqZ 0 (size inp)).

Definition unite (a b : t) : SM Budget t :=
  a0 ← need (accept a 0);
  b0 ← (if a0 : bool then mret true else need (accept b 0));
  '(_, result) ← addState (a0 || b0) init;
  result ← appendCopy result a 1;
  result ← appendCopy result b (1 + size a);
  la ← need (transitionsFrom a 0);
  result ← addMoved 0 1 la result;
  lb ← need (transitionsFrom b 0);
  result ← addMoved 0 (1 + size a) lb result;
  freeze result.

Definition concatenate (a b : t) : SM Budget t :=
  result ← appendCopy init a 0;
  result ← appendCopy result b (size a);
  result ← foldS (fun result state =>
    acc ← need (accept a state);
    if acc : bool then
      b0 ← need (accept b 0);
      result ← need (setAccept state b0 result);
      lb ← need (transitionsFrom b 0);
      addMoved state (size a) lb result
    else mret result) result (seqZ 0 (size a));
  freeze result.

Definition optional (a : t) : SM Budget t :=
  e ← epsilon;
  unite e a.

Definition star (a : t) : SM Budget t :=
  '(_, result) ← addState true init;
  result ← appendCopy result a 1;
  startTransitions ← need (transitionsFrom a 0);
  result ← addMoved 0 1 startTransitions result;
  result ← foldS (fun result state =>
    acc ← need (accept a state);
    if acc : bool then addMoved (1 + state) 1 startTransitions result else mret result) result (seqZ 0 (size a));
  freeze result.

Definition anyString : SM Budget t :=
  a ← anyChar;
  star a.

Definition repeatRange (a : t) (min max : Z) : SM Budget t :=
  if decide (min < 0 \/ max < min \/ 1000 < max) then throw complex else
  result ← epsilon;
  result ← foldS (fun result _ => concatenate result a) result (seqZ 0 min);
  foldS (fun result _ => o ← optional a; concatenate result o) result (seqZ min (max - min)).

(** One code point, or the set of its case alternates. *)
Definition caseAtom (casefold : Z -> Z) (cp : Z) (caseInsensitive : bool) : SM Budget t :=
  alternates ← (if caseInsensitive then need (caseAlternates casefold cp) else mret []);
  if decide (alternates = []) then codepoint cp else
  '(_, result) ← addState false init;
  '(_, result) ← addState true result;
  result ← foldS (fun result alternate => addTransition 0 alternate alternate 1 false result) result alternates;
  freeze result.

Definition literal (casefold : Z -> Z) (cp : Z) (folder : option CodepointFolder) (caseInsensitive : bool) : SM Budget t :=
  match folder with
  | None => caseAtom casefold cp caseInsensitive
  | Some folder =>
      let '(count, folded) := fold folder cp 32 in
      if decide (count < 0 \/ 32 < count) then throw "literal fold returned an invalid codepoint count" else
      if decide (count = 0) then epsilon else
      first ← need folded.[0];
      result ← caseAtom casefold first caseInsensitive;
      foldS (fun result i =>
        cp ← need folded.[i];
        part ← caseAtom casefold cp caseInsensitive;
        concatenate result part) result (seqZ 1 (count - 1))
  end.
End Automaton.

(** * Graphs held by automata *)

Import Automaton.

(** The rows and accept bits hold the graph [E], [F] on [n] states, which were all paid for. *)
Record shape (d n : Z) (E : edges) (F : Z -> bool) (rows : list (list Transition)) (acc : list bool) : Prop := {
  shape_rows : zlen rows = n;
  shape_acc : zlen acc = n;
  shape_paid : n <= d;
  shape_within : within n E;
  shape_ranges : forall s t, E s t -> tmin t <= tmax t;
  shape_edges : forall s t, E s t <-> exists row, rows.[s] = Some row /\ t ∈ row;
  shape_final : forall s, 0 <= s < n -> acc.[s] = Some (F s) }.

Definition bld (d : Z) (a : t) (n : Z) (E : edges) (F : Z -> bool) : Prop :=
  exists rows acc, a = Make rows [] [] acc false /\ shape d n E F rows acc.

Definition frozen_rows (a : t) (rows : list (list Transition)) (acc : list bool) : Prop :=
  exists offs, a = Make [] (concat rows) offs acc true /\ zlen offs = zlen rows + 1
  /\ forall i, 0 <= i <= zlen rows -> offs.[i] = Some (zlen (concat (take (Z.to_nat i) rows))).

Definition nfa (d : Z) (a : t) (n : Z) (E : edges) (F : Z -> bool) : Prop :=
  0 < n /\ exists rows acc, frozen_rows a rows acc /\ shape d n E F rows acc.

Lemma shape_mono d d' n E F rows acc : d <= d' -> shape d n E F rows acc -> shape d' n E F rows acc.
Proof. intros Hd []. split; [done|done|lia|done..]. Qed.

Lemma bld_mono d d' a n E F : d <= d' -> bld d a n E F -> bld d' a n E F.
Proof. intros Hd (rows & acc & -> & H). exists rows, acc. split; [done|by eapply shape_mono]. Qed.

Lemma nfa_mono d d' a n E F : d <= d' -> nfa d a n E F -> nfa d' a n E F.
Proof. intros Hd (Hn & rows & acc & Ha & H). split; [done|]. exists rows, acc. split; [done|by eapply shape_mono]. Qed.

Lemma bld_ext d a n (E E' : edges) (F F' : Z -> bool) :
  (forall s t, E s t <-> E' s t) -> (forall s, 0 <= s < n -> F s = F' s) -> bld d a n E F -> bld d a n E' F'.
Proof.
  intros HE HF (rows & acc & -> & []). exists rows, acc. split; [done|]. split; [done..| | | |].
  - intros s t Ht%HE. by apply shape_within0.
  - intros s t Ht%HE. by eapply shape_ranges0.
  - intros s t. by rewrite <- HE.
  - intros s Hs. by rewrite <- HF, shape_final0.
Qed.

Lemma nfa_pos d a n E F : nfa d a n E F -> 0 < n.
Proof. by intros [? _]. Qed.

Lemma nfa_within d a n E F : nfa d a n E F -> within n E.
Proof. intros (_ & rows & acc & _ & []). done. Qed.

Lemma nfa_ranges d a n E F s t : nfa d a n E F -> E s t -> tmin t <= tmax t.
Proof. intros (_ & rows & acc & _ & []). eauto. Qed.

Lemma int32_small n d : 0 <= n -> n <= d -> d < int32_limit -> s32 n = n.
Proof. intros. apply swrap_id; [lia|]. unfold is_s, int32_limit in *. change (2 ^ (32 - 1)) with (2 ^ 31). lia. Qed.

Lemma nfa_size d a n E F : nfa d a n E F -> d < int32_limit -> size a = n.
Proof. intros (Hn & rows & acc & (offs & -> & _) & []) Hd. unfold size. simpl. rewrite shape_acc0. by apply (int32_small _ d); [lia..|]. Qed.

Lemma bld_size d a n E F : bld d a n E F -> d < int32_limit -> size a = n.
Proof.
  intros (rows & acc & -> & []) Hd. unfold size. simpl. rewrite shape_acc0. apply (int32_small _ d); [|done..].
  rewrite <- shape_acc0. apply zlen_nonneg.
Qed.

Lemma nfa_accept d a n E F s : nfa d a n E F -> 0 <= s < n -> accept a s = Some (F s).
Proof. intros (Hn & rows & acc & (offs & -> & _) & []) Hs. unfold accept. simpl. by apply shape_final0. Qed.

Lemma frozen_from a rows acc s row :
  frozen_rows a rows acc -> size a = zlen rows -> rows.[s] = Some row -> transitionsFrom a s = Some row.
Proof.
  intros (offs & -> & Hlen & Hoffs) Hsz Hrow. pose proof (zget_Some_range _ _ _ Hrow) as Hs. unfold transitionsFrom.
  rewrite Hsz, decide_False by lia. simpl. rewrite !Hoffs by lia. opt.
  unfold zget in Hrow. rewrite decide_True in Hrow by lia.
  replace (Z.to_nat (s + 1)) with (S (Z.to_nat s)) by lia. rewrite (take_S_r _ _ _ Hrow), concat_app, zlen_app. simpl. rewrite app_nil_r.
  rewrite <- (take_drop_middle rows _ _ Hrow) at 1. rewrite concat_app. simpl. apply slice_app; [done|lia].
Qed.

Lemma nfa_from d a n E F s : nfa d a n E F -> d < int32_limit -> 0 <= s < n ->
  exists l, transitionsFrom a s = Some l /\ forall t, t ∈ l <-> E s t.
Proof.
  intros Ha Hd Hs. pose proof (nfa_size _ _ _ _ _ Ha Hd) as Hsz. destruct Ha as (Hn & rows & acc & Hf & []).
  destruct (zget_in rows s) as [row Hrow]; [lia|]. exists row. split; [eapply frozen_from; [done|lia|done]|].
  intros t. rewrite shape_edges0. split; [by exists row|]. intros (row' & Hr & Ht). by simplify_eq.
Qed.

(** * Building *)

Lemma bld_init d : 0 <= d -> bld d init 0 (fun _ _ => False) (fun _ => false).
Proof.
  intros Hd. exists [], []. split; [done|]. split; [done..|by intros|done| |].
  - intros s t. split; [done|]. intros (row & Hrow & _). by rewrite zget_nil in Hrow.
  - lia.
Qed.

Lemma addState_raw d a n E F acc Er : bld d a n E F ->
  spends d (addState acc a) Er (fun r d' => r.1 = n /\ bld d' r.2 (n + 1) E (fun s => if decide (s = n) then acc else F s)
    /\ building r.2 = building a ++ [[]]).
Proof.
  intros (rows & accs & -> & []). apply spends_consume_bind; [lia|]. simpl. apply spends_small. intros Hd. apply spends_ret. simpl.
  pose proof (zlen_nonneg rows). split.
  { rewrite zlen_app, shape_rows0. change (zlen [[]]) with 1. rewrite (int32_small _ (d + 1)) by lia. lia. }
  split; [|done].
  exists (rows ++ [[]]), (accs ++ [acc]). split; [done|]. split; [zlen| zlen|lia| |done| |].
  - intros s t Ht. apply shape_within0 in Ht. lia.
  - intros s t. rewrite shape_edges0. split; intros (row & Hrow & Ht).
    + exists row. split; [by apply zget_app_Some|done].
    + apply zget_snoc_inv in Hrow as [?|[_ ->]]; [by exists row|by apply not_elem_of_nil in Ht].
  - intros s Hs. case_decide as Hsn; [subst s; rewrite <- shape_acc0; apply zget_snoc|].
    rewrite zget_app_l by lia. apply shape_final0. lia.
Qed.

Lemma addState_spec d a n E F acc Er : bld d a n E F ->
  spends d (addState acc a) Er (fun r d' => r.1 = n /\ bld d' r.2 (n + 1) E (fun s => if decide (s = n) then acc else F s)).
Proof. intros Hb. eapply spends_post; [by apply addState_raw|]. naive_solver. Qed.

(** [addTransition] appends to the row of its source. *)
Lemma addTransition_raw d a n E F src lo hi to bytes Er : bld d a n E F -> 0 <= src < n -> 0 <= to < n -> lo <= hi ->
  exists row, (building a).[src] = Some row /\ spends d (addTransition src lo hi to bytes a) Er (fun a' d' => d' = d + 1 /\
    a' = Make (<[Z.to_nat src := row ++ [MkT lo hi to bytes]]> (building a)) [] [] (accepts a) false).
Proof.
  intros (rows & accs & -> & []) Hsrc Hto Hle. destruct (zget_in rows src) as [row Hrow]; [lia|]. exists row. split; [done|].
  apply spends_consume_bind; [lia|]. apply spends_small. intros Hd.
  unfold size. simpl. rewrite shape_acc0, (int32_small _ (d + 1)) by lia. rewrite decide_False by (intros [|]; [done|lia]).
  apply (spends_need_bind _ _ row); [done|]. eapply spends_need_bind; [apply zset_in; lia|]. by apply spends_ret.
Qed.

Lemma bld_insert d a n E F src row lo hi to bytes :
  bld d a n E F -> (building a).[src] = Some row -> 0 <= to < n -> lo <= hi ->
  bld (d + 1) (Make (<[Z.to_nat src := row ++ [MkT lo hi to bytes]]> (building a)) [] [] (accepts a) false) n
    (fun s t => E s t \/ s = src /\ t = MkT lo hi to bytes) F.
Proof.
  intros (rows & accs & -> & []) Hrow Hto Hle. simpl in *. pose proof (zget_Some_range _ _ _ Hrow) as Hsrc.
  eexists _, accs. split; [done|]. split; [zlen|done|lia| | | |done].
  - intros s t [Ht|[-> ->]]; [by apply shape_within0|split; [lia|done]].
  - intros s t [Ht|[-> ->]]; [by eapply shape_ranges0|done].
  - intros s t. rewrite shape_edges0, zget_insert by lia. case_decide as Hs.
    + subst s. rewrite Hrow. split.
      * intros [(row' & [= <-] & Ht)|[_ ->]]; (eexists; split; [done|]; apply elem_of_app); [by left|right; by apply list_elem_of_singleton].
      * intros (row' & [= <-] & [Ht| ->%list_elem_of_singleton]%elem_of_app); [left; by exists row|by right].
    + split; [intros [?|[-> _]]; done|by left].
Qed.

Lemma addTransition_spec d a n E F src lo hi to bytes Er : bld d a n E F -> 0 <= src < n -> 0 <= to < n -> lo <= hi ->
  spends d (addTransition src lo hi to bytes a) Er (fun a' d' => bld d' a' n (fun s t => E s t \/ s = src /\ t = MkT lo hi to bytes) F).
Proof.
  intros Hb Hsrc Hto Hle. destruct (addTransition_raw d a n E F src lo hi to bytes Er Hb Hsrc Hto Hle) as (row & Hrow & H).
  eapply spends_post; [exact H|]. intros a' d' _ (-> & ->). by apply bld_insert.
Qed.

(** Rows without duplicates stay so when the transition is new. *)
Lemma addTransition_simple d a n E F src lo hi to bytes Er : bld d a n E F -> Forall NoDup (building a) ->
  0 <= src < n -> 0 <= to < n -> lo <= hi -> ~ E src (MkT lo hi to bytes) ->
  spends d (addTransition src lo hi to bytes a) Er (fun a' d' =>
    bld d' a' n (fun s t => E s t \/ s = src /\ t = MkT lo hi to bytes) F /\ Forall NoDup (building a')).
Proof.
  intros Hb Hnd Hsrc Hto Hle Hnew. destruct (addTransition_raw d a n E F src lo hi to bytes Er Hb Hsrc Hto Hle) as (row & Hrow & H).
  eapply spends_post; [exact H|]. intros a' d' _ (-> & ->). split; [by apply bld_insert|]. simpl.
  apply Forall_insert; [done|]. apply NoDup_app. split_and!; [| |apply NoDup_singleton].
  - rewrite Forall_forall in Hnd. apply Hnd. by eapply zget_elem_1.
  - intros u Hu ->%list_elem_of_singleton. apply Hnew. destruct Hb as (rows & acc & -> & Hs). apply (shape_edges _ _ _ _ _ _ Hs). by exists row.
Qed.

Lemma addMoved_spec d out n E F src off l Ea s0 Er :
  bld d out n E F -> 0 <= src < n -> (forall u, u ∈ l <-> Ea s0 u) ->
  (forall u, Ea s0 u -> 0 <= off + dest u < n /\ tmin u <= tmax u) ->
  spends d (addMoved src off l out) Er (fun out' d' => bld d' out' n (fun s t => E s t \/ hook src off Ea s0 s t) F).
Proof.
  intros Hb Hsrc Hl Hok. eapply spends_post.
  - apply (spends_fold (fun seen out' d' => bld d' out' n (fun s t => E s t \/ s = src /\ exists u, u ∈ seen /\ t = move (Z.add off) u) F)).
    + eapply bld_ext; [|done|exact Hb]. intros s t. split; [by left|]. intros [?|(_ & u & Hu & _)]; [done|by apply not_elem_of_nil in Hu].
    + intros seen x rest out' d' _ Hsplit Hb'.
      destruct (Hok x) as [H1 H2]; [apply Hl; rewrite Hsplit; apply elem_of_app; right; left|].
      eapply spends_post; [by apply addTransition_spec|]. intros a d2 _. apply bld_ext; [|done]. intros s t. split.
      * intros [[?|(? & u & Hu & ->)]|[-> ->]]; [by left|right..]; (split; [done|]); [exists u|exists x]; (split; [|done]); apply elem_of_app; [by left|right; left].
      * intros [?|(-> & u & [Hu| ->%list_elem_of_singleton]%elem_of_app & ->)]; [by left; left|left; right; split; [done|by exists u]|by right].
  - intros a d' _. apply bld_ext; [|done]. intros s t. unfold hook. by setoid_rewrite Hl.
Qed.

Definition append_final (n : Z) (F Fa : Z -> bool) : Z -> bool := fun s => if decide (s < n) then F s else Fa (s - n).

Lemma appendCopy_spec d out inp n m E Ea F Fa Er :
  bld d out n E F -> nfa d inp m Ea Fa ->
  spends d (appendCopy out inp n) Er (fun out' d' => bld d' out' (n + m) (fun s t => E s t \/ shift n Ea s t) (append_final n F Fa)).
Proof.
  intros Hb Ha. apply spends_small. intros Hd. unfold appendCopy. rewrite (nfa_size _ _ _ _ _ Ha Hd).
  pose proof (nfa_pos _ _ _ _ _ Ha) as Hm.
  assert (0 <= n) as Hn by (destruct Hb as (rows & ? & _ & []); pose proof (zlen_nonneg rows); lia).
  eapply spends_bind.
  - apply (spends_seq (fun i out' d' => bld d' out' (n + i) E (append_final n F Fa))); [lia| |].
    + rewrite Z.add_0_r. eapply bld_ext; [done| |exact Hb]. intros s Hs. unfold append_final. by rewrite decide_True by lia.
    + intros i out' d' Hd' Hi Hb'. eapply spends_need_bind; [by eapply nfa_accept|].
      eapply spends_bind; [by apply addState_spec|]. intros [j out2] d2 _ [_ Hb2]. apply spends_ret. simpl in Hb2.
      rewrite Z.add_assoc. eapply bld_ext; [done| |exact Hb2]. intros s Hs. unfold append_final. cbv beta.
      repeat case_decide; try lia; try done. subst s. f_equal. lia.
  - intros out1 d1 Hd1 Hb1. eapply spends_post.
    + apply (spends_seq (fun i out' d' => bld d' out' (n + m) (fun s t => E s t \/ shift n Ea s t /\ s < n + i) (append_final n F Fa))); [lia| |].
      * eapply bld_ext; [|done|exact Hb1]. intros s t. split; [by left|]. intros [?|[(s0 & u & -> & Hu & _) Hs]]; [done|].
        apply (nfa_within _ _ _ _ _ Ha) in Hu. lia.
      * intros i out' d' Hd' Hi Hb'. apply spends_small. intros Hd2.
        destruct (nfa_from d inp m Ea Fa i Ha) as (l & Hl & Hin); [lia..|]. eapply spends_need_bind; [exact Hl|].
        eapply spends_post; [apply (addMoved_spec _ _ _ _ _ _ _ _ Ea i _ Hb'); [lia|done|]|].
        { intros u Hu. split; [|by eapply nfa_ranges]. apply (nfa_within _ _ _ _ _ Ha) in Hu. lia. }
        intros a d2 _. apply bld_ext; [|done]. intros s t. split.
        -- intros [[?|[? ?]]|(-> & u & Hu & ->)]; [by left|right; split; [done|lia]|right]. split; [|lia]. by exists i, u.
        -- intros [?|[(s0 & u & -> & Hu & ->) Hs]]; [by left; left|]. destruct (decide (s0 = i)) as [->|].
           ++ right. split; [done|]. by exists u.
           ++ left. right. split; [by exists s0, u|lia].
    + intros a d' _. apply bld_ext; [|done]. intros s t. split; [intros [?|[? _]]; [by left|by right]|].
      intros [?|(s0 & u & -> & Hu & ->)]; [by left|right]. split; [by exists s0, u|]. apply (nfa_within _ _ _ _ _ Ha) in Hu. lia.
Qed.

Lemma freeze_rows d rows acc Er : 0 <= d ->
  spends d (freeze (Make rows [] [] acc false)) Er (fun a' d' => frozen_rows a' (merge_sort transition_le <$> rows) acc).
Proof.
  intros Hd. unfold freeze. simpl. eapply spends_bind.
  - apply (spends_fold (fun seen st d' => let sorted := merge_sort transition_le <$> seen in
      st.2 = concat sorted /\ zlen st.1 = zlen sorted + 1
      /\ forall i, 0 <= i <= zlen sorted -> st.1.[i] = Some (zlen (concat (take (Z.to_nat i) sorted))))).
    + simpl. split_and!; [done..|]. intros i Hi. change (zlen []) with 0 in Hi. by assert (i = 0) as -> by lia.
    + intros seen row rest [offs trans] d' Hd' _. cbv zeta. cbn [fst snd]. intros (-> & Hlen & Hoffs).
      set (sorted := merge_sort transition_le <$> seen) in *. set (row' := merge_sort transition_le row).
      pose proof (zlen_nonneg sorted). pose proof (zlen_nonneg row') as Hrow'.
      eapply spends_need_bind; [rewrite last_zget, Hlen; replace (zlen sorted + 1 - 1) with (zlen sorted) by lia; apply Hoffs; lia|].
      apply spends_consume_bind; [done|]. apply spends_small. intros Hsm. apply spends_ret. cbn [fst snd].
      rewrite fmap_app. simpl. fold sorted row'. rewrite (int32_small _ (d' + zlen row')) by lia.
      split_and!; [by rewrite concat_app; simpl; rewrite app_nil_r|zlen|]. intros i Hi. rewrite zlen_app in Hi. change (zlen [row']) with 1 in Hi.
      destruct (decide (i <= zlen sorted)) as [Hle|].
      * rewrite zget_app_l by lia. rewrite Hoffs by lia. do 2 f_equal. rewrite take_app_le; [done|]. unfold zlen in *. lia.
      * assert (i = zlen offs) as -> by lia. rewrite zget_snoc. f_equal. rewrite !take_ge by (rewrite ?length_app; unfold zlen in *; simpl; lia).
        rewrite concat_app, zlen_app. simpl. by rewrite app_nil_r.
  - intros [offs trans] d' _ (H1 & H2 & H3). cbn [fst snd] in *. subst trans. apply spends_ret. exists offs. by split_and!.
Qed.

Lemma shape_sorted d n E F rows acc : shape d n E F rows acc -> shape d n E F (merge_sort transition_le <$> rows) acc.
Proof.
  intros []. split; [by rewrite zlen_fmap|done..| |done]. intros s t. rewrite shape_edges0, zget_fmap. split.
  - intros (row & -> & Ht). eexists. split; [done|]. by rewrite merge_sort_Permutation.
  - intros (row' & (row & -> & Hr)%fmap_Some & Ht). exists row. subst row'. by rewrite merge_sort_Permutation in Ht.
Qed.

Lemma freeze_spec d a n E F Er : bld d a n E F -> 0 < n -> spends d (freeze a) Er (fun a' d' => nfa d' a' n E F).
Proof.
  intros (rows & acc & -> & Hs) Hn. eapply spends_post; [apply freeze_rows; destruct Hs; lia|].
  intros a' d' Hd Hf. split; [done|]. exists (merge_sort transition_le <$> rows), acc. split; [done|].
  by apply shape_sorted, (shape_mono d).
Qed.

(** * What the combinators recognise *)

Section Recognises.
Context (lab : Z -> Z -> bool -> language).

(** Transitions on bytes are labelled with bytes. *)
Definition byte_labels (E : edges) : Prop := forall s t, E s t -> bytes t = true -> 0 <= tmin t /\ tmax t <= 255.

Definition recognises (d : Z) (a : t) (L : language) : Prop := exists n E F, nfa d a n E F /\ byte_labels E /\ lang lab E F ≡ L.

Lemma recognises_mono d d' a L : d <= d' -> recognises d a L -> recognises d' a L.
Proof. intros Hd (n & E & F & H & HB & HL). exists n, E, F. split; [by eapply nfa_mono|done]. Qed.

#[export] Instance recognises_proper d a : Proper ((≡) ==> iff) (recognises d a).
Proof. intros L K HLK. split; intros (n & E & F & H & HB & HL); exists n, E, F; (split; [done|]; split; [done|]); by rewrite HL. Qed.

Lemma freeze_recognises d a n E F L Er : bld d a n E F -> 0 < n -> byte_labels E -> lang lab E F ≡ L ->
  spends d (freeze a) Er (fun a' d' => recognises d' a' L).
Proof. intros Hb Hn HB HL. eapply spends_post; [by apply freeze_spec|]. intros a' d' _ Ha. by exists n, E, F. Qed.

(** The labels of a union of graphs with moved transitions. *)
Local Ltac labels :=
  let Ht := fresh "Ht" in intros ? ? Ht; cbv beta delta [shift hook] in Ht;
  repeat match goal with
    | H : _ \/ _ |- _ => destruct H
    | H : _ /\ _ |- _ => destruct H
    | H : exists _, _ |- _ => destruct H
    | H : False |- _ => destruct H
    end; subst; simpl; solve [done|eauto with lia].

Lemma empty_spec d Er : 0 <= d -> spends d empty Er (fun a d' => recognises d' a lempty).
Proof.
  intros Hd. eapply spends_bind; [by apply addState_spec, bld_init|]. intros [i a] d1 _ [_ Hb].
  eapply freeze_recognises; [exact Hb|lia|labels|]. intros w. split; [|done].
  intros [[_ HF]|(t & u & v & _ & [] & _)]%from_inv. done.
Qed.

Lemma epsilon_spec d Er : 0 <= d -> spends d epsilon Er (fun a d' => recognises d' a leps).
Proof.
  intros Hd. eapply spends_bind; [by apply addState_spec, bld_init|]. intros [i a] d1 _ [_ Hb].
  eapply freeze_recognises; [exact Hb|lia|labels|]. intros w. split.
  - by intros [[-> HF]|(t & u & v & _ & [] & _)]%from_inv.
  - intros ->. by apply from_nil.
Qed.

(** Two states with transitions from the first, rejecting, to the second, accepting. *)
Lemma two_states_lang (E : edges) F :
  (forall s t, E s t -> s = 0 /\ dest t = 1) -> F 0 = false -> F 1 = true ->
  lang lab E F ≡ fun w => exists t, E 0 t /\ reads lab t w.
Proof.
  intros HE F0 F1 w. split.
  - intros [[_ HF]|(t & u & v & -> & Ht & Hu & Hv)]%from_inv; [congruence|]. destruct (HE 0 t Ht) as [_ Hd]. rewrite Hd in Hv.
    apply from_inv in Hv as [[-> _]|(t' & ? & ? & _ & Ht' & _)]; [rewrite app_nil_r; by exists t|].
    by destruct (HE 1 t' Ht').
  - intros (t & Ht & Hw). rewrite <- (app_nil_r w). eapply from_step; [done..|]. destruct (HE 0 t Ht) as [_ ->]. by apply from_nil.
Qed.

(** The first two states of [charRange], [anyChar] and [caseAtom]. *)
Lemma two_states_spec d Er (f : t -> SM Budget t) Q : 0 <= d ->
  (forall a d', d <= d' -> bld d' a 2 (fun _ _ => False) (fun s => bool_decide (s = 1)) -> spends d' (f a) Er Q) ->
  spends d ('(_, result) ← addState false init; '(_, result) ← addState true result; f result) Er Q.
Proof.
  intros Hd Hf. eapply spends_bind; [by apply addState_spec, bld_init|]. intros [i a] d1 Hd1 [_ Hb]. simpl in Hb.
  eapply spends_bind; [by apply addState_spec|]. intros [j a2] d2 Hd2 [_ Hb2]. simpl in Hb2. apply Hf; [lia|].
  refine (bld_ext d2 a2 2 _ _ _ _ _ _ Hb2); [done|]. intros s Hs. cbv beta. repeat case_decide; case_bool_decide; lia || done.
Qed.

Lemma charRange_spec d lo hi Er : 0 <= d -> lo <= hi ->
  spends d (charRange lo hi) Er (fun a d' => recognises d' a (lab lo hi false)).
Proof.
  intros Hd Hle. apply two_states_spec; [done|]. intros a d1 _ Hb.
  eapply spends_bind; [apply addTransition_spec; [done|lia..]|]. intros a2 d2 _ Hb2.
  eapply freeze_recognises; [exact Hb2|lia|labels|]. etransitivity; [apply two_states_lang; [|done..]|].
  - intros s t [[]|[-> ->]]. done.
  - intros w. split; [by intros (t & [[]|[_ ->]] & Hw)|]. intros Hw. eexists. by split; [right|].
Qed.

Lemma anyChar_spec d Er : 0 <= d ->
  spends d anyChar Er (fun a d' => recognises d' a (lunion (lab 0 0xd7ff false) (lab 0xe000 0x10ffff false))).
Proof.
  intros Hd. apply two_states_spec; [done|]. intros a d1 _ Hb.
  eapply spends_bind; [apply addTransition_spec; [done|lia..]|]. intros a2 d2 _ Hb2.
  eapply spends_bind; [apply addTransition_spec; [exact Hb2|lia..]|]. intros a3 d3 _ Hb3.
  eapply freeze_recognises; [exact Hb3|lia|labels|]. etransitivity; [apply two_states_lang; [|done..]|].
  - intros s t [[[]|[-> ->]]|[-> ->]]; done.
  - intros w. split; [intros (t & [[[]|[_ ->]]|[_ ->]] & Hw); [by left|by right]|].
    intros [Hw|Hw]; eexists; [split; [by left; right|exact Hw]|split; [by right|exact Hw]].
Qed.

Lemma anyStringBytes_spec d Er : 0 <= d ->
  spends d anyStringBytes Er (fun a d' => recognises d' a (lstar (lab 0 255 true))).
Proof.
  intros Hd. eapply spends_bind; [by apply addState_spec, bld_init|]. intros [i a] d1 _ [_ Hb]. simpl in Hb.
  eapply spends_bind; [apply addTransition_spec; [done|lia..]|]. intros a2 d2 _ Hb2.
  eapply freeze_recognises; [exact Hb2|lia|labels|]. set (E := fun s t => _). set (F := fun s => _). intros w. split.
  - assert (forall q v, from lab E F q v -> lstar (lab 0 255 true) v) as H; [|apply H].
    apply (from_ind _ _ _ (fun q v => lstar (lab 0 255 true) v)); [intros; by exists []|].
    intros s t u v [[]|[-> ->]] Hu _ IH. by apply lstar_cons.
  - intros (ws & Hws & ->). induction Hws as [|u ws Hu Hws IH]; [by apply from_nil|].
    simpl. eapply from_step; [by right|exact Hu|exact IH].
Qed.

Lemma unite_spec d a b L K Er : recognises d a L -> recognises d b K ->
  spends d (unite a b) Er (fun r d' => recognises d' r (lunion L K)).
Proof.
  intros (na & Ea & Fa & Ha & Ya & HL) (nb & Eb & Fb & Hb & Yb & HK). apply spends_small. intros Hd.
  pose proof (nfa_pos _ _ _ _ _ Ha) as Hna. pose proof (nfa_pos _ _ _ _ _ Hb) as Hnb.
  pose proof (nfa_within _ _ _ _ _ Ha) as Wa. pose proof (nfa_within _ _ _ _ _ Hb) as Wb.
  unfold unite. rewrite (nfa_size _ _ _ _ _ Ha Hd). eapply spends_need_bind; [apply (nfa_accept _ _ _ _ _ _ Ha); lia|].
  apply (spends_bind _ _ _ _ (fun b0 d' => d' = d /\ Fa 0 || b0 = Fa 0 || Fb 0)).
  { destruct (Fa 0); [by apply spends_ret|]. by eapply spends_need; [apply (nfa_accept _ _ _ _ _ _ Hb); lia|]. }
  intros b0 d0 _ (-> & ->). assert (0 <= d) as Hd0 by (destruct Ha as (_ & ? & ? & _ & []); lia).
  eapply spends_bind; [by apply addState_spec, bld_init|]. intros [i r1] d1 Hd1 [_ B1]. simpl in B1.
  eapply spends_bind; [eapply appendCopy_spec; [exact B1|by apply (nfa_mono d)]|]. intros r2 d2 Hd2 B2.
  eapply spends_bind; [eapply appendCopy_spec; [exact B2|apply (nfa_mono d); [lia|done]]|]. intros r3 d3 Hd3 B3.
  destruct (nfa_from d a na Ea Fa 0 Ha Hd ltac:(lia)) as (la & Hla & Ina). eapply spends_need_bind; [exact Hla|].
  eapply spends_bind; [eapply (addMoved_spec _ _ _ _ _ _ _ _ Ea 0); [exact B3|lia|done|]|].
  { intros u Hu. split; [apply Wa in Hu; lia|by eapply (nfa_ranges _ _ _ _ _ _ _ Ha)]. }
  intros r4 d4 Hd4 B4. destruct (nfa_from d b nb Eb Fb 0 Hb Hd ltac:(lia)) as (lb & Hlb & Inb). eapply spends_need_bind; [exact Hlb|].
  eapply spends_bind; [eapply (addMoved_spec _ _ _ _ _ _ _ _ Eb 0); [exact B4|lia|done|]|].
  { intros u Hu. split; [apply Wb in Hu; lia|by eapply (nfa_ranges _ _ _ _ _ _ _ Hb)]. }
  intros r5 d5 Hd5 B5. eapply freeze_recognises; [exact B5|lia|labels|].
  etransitivity; [apply (from_ext _ _ (unite_edges na Ea Eb))|].
  { intros s t. unfold unite_edges. replace (0 + 1) with 1 by lia. tauto. }
  etransitivity; [apply (unite_lang lab na nb Ea Eb Fa Fb)|by rewrite HL, HK]; [done..| | |].
  - unfold append_final. by rewrite !decide_True by lia.
  - intros s Hs. unfold append_final. rewrite decide_True, decide_False by lia. f_equal. lia.
  - intros s Hs. unfold append_final. rewrite decide_False by lia. f_equal. lia.
Qed.

Lemma recognises_paid d a L : recognises d a L -> 0 <= d.
Proof. intros (n & E & F & (Hn & rows & acc & _ & []) & _). lia. Qed.

Lemma setAccept_spec d a n E F s b : bld d a n E F -> 0 <= s < n ->
  exists a', setAccept s b a = Some a' /\ bld d a' n E (fun x => if decide (x = s) then b else F x).
Proof.
  intros (rows & acc & -> & []) Hs. unfold setAccept. simpl. rewrite zset_in by lia. opt. eexists. split; [done|].
  eexists _, _. split; [done|]. split; [done|zlen|done..|]. intros x Hx. rewrite zget_insert by lia.
  repeat case_decide; try lia; [done|by apply shape_final0].
Qed.

Definition concat_final (na i : Z) (Fa Fb : Z -> bool) : Z -> bool := fun s =>
  if decide (s < i) then Fa s && Fb 0 else append_final na (append_final 0 (fun _ => false) Fa) Fb s.

(** The loop of [concatenate] over the accepting states of [a]. *)
Lemma concatenate_loop d a b na nb Ea Fa Eb Fb r E Er :
  d < int32_limit -> nfa d a na Ea Fa -> nfa d b nb Eb Fb -> bld d r (na + nb) E (concat_final na 0 Fa Fb) ->
  spends d (foldS (fun result state =>
    acc ← need (accept a state);
    if acc : bool then
      b0 ← need (accept b 0);
      result ← need (setAccept state b0 result);
      lb ← need (transitionsFrom b 0);
      addMoved state na lb result
    else mret result) r (seqZ 0 na)) Er
  (fun r' d' => bld d' r' (na + nb) (fun s t => E s t \/ 0 <= s < na /\ Fa s = true /\ hook s na Eb 0 s t) (concat_final na na Fa Fb)).
Proof.
  intros Hd Ha Hb Hr. pose proof (nfa_pos _ _ _ _ _ Ha) as Hna. pose proof (nfa_pos _ _ _ _ _ Hb) as Hnb.
  pose proof (nfa_within _ _ _ _ _ Hb) as Wb.
  apply (spends_seq (fun i r' d' => bld d' r' (na + nb) (fun s t => E s t \/ 0 <= s < i /\ Fa s = true /\ hook s na Eb 0 s t) (concat_final na i Fa Fb))); [lia| |].
  { eapply bld_ext; [|done|exact Hr]. intros s t. split; [by left|]. intros [?|(? & _)]; [done|lia]. }
  intros i r1 d1 Hd1 Hi B1. eapply spends_need_bind; [apply (nfa_accept _ _ _ _ _ _ Ha); lia|].
  assert (forall s, 0 <= s < na + nb -> (if decide (s = i) then Fa i && Fb 0 else concat_final na i Fa Fb s) = concat_final na (i + 1) Fa Fb s) as HF.
  { intros s Hs. unfold concat_final. repeat case_decide; try lia; try done. by subst s. }
  destruct (Fa i) eqn:EF.
  - eapply spends_need_bind; [apply (nfa_accept _ _ _ _ _ _ Hb); lia|].
    destruct (setAccept_spec _ _ _ _ _ i (Fb 0) B1) as (r2 & E2 & B2); [lia|]. eapply spends_need_bind; [exact E2|].
    destruct (nfa_from d b nb Eb Fb 0 Hb Hd ltac:(lia)) as (lb & Hlb & Inb). eapply spends_need_bind; [exact Hlb|].
    eapply spends_post; [apply (addMoved_spec _ _ _ _ _ _ _ _ Eb 0 _ B2); [lia|done|]|].
    { intros u Hu. split; [apply Wb in Hu; lia|by eapply (nfa_ranges _ _ _ _ _ _ _ Hb)]. }
    intros r3 d3 _. apply bld_ext; [|done]. intros s t. split.
    + intros [[?|(? & ? & ?)]|Hh]; [by left|right; split_and!; [lia..|done|done]|]. pose proof Hh as [-> _]. right. split_and!; [lia..|done|done].
    + intros [?|(? & ? & Hh)]; [by left; left|]. destruct (decide (s = i)) as [->|]; [by right|left; right; split_and!; [lia..|done|done]].
  - apply spends_ret. eapply bld_ext; [| |exact B1].
    + intros s t. split; (intros [?|(? & ? & ?)]; [by left|right]); [split_and!; [lia..|done|done]|].
      assert (s <> i) by (intros ->; congruence). split_and!; [lia..|done|done].
    + intros s Hs. rewrite <- HF by done. case_decide; [|done]. subst s. unfold concat_final, append_final.
      rewrite decide_False, decide_True, decide_False by lia. by replace (i - 0) with i by lia.
Qed.

Lemma concatenate_spec d a b L K Er : recognises d a L -> recognises d b K ->
  spends d (concatenate a b) Er (fun r d' => recognises d' r (lcat L K)).
Proof.
  intros Ra Rb. pose proof (recognises_paid _ _ _ Ra) as Hd0.
  destruct Ra as (na & Ea & Fa & Ha & Ya & HL), Rb as (nb & Eb & Fb & Hb & Yb & HK). apply spends_small. intros Hd.
  pose proof (nfa_pos _ _ _ _ _ Ha) as Hna. pose proof (nfa_pos _ _ _ _ _ Hb) as Hnb.
  pose proof (nfa_within _ _ _ _ _ Ha) as Wa. pose proof (nfa_within _ _ _ _ _ Hb) as Wb.
  unfold concatenate. rewrite (nfa_size _ _ _ _ _ Ha Hd).
  eapply spends_bind; [eapply appendCopy_spec; [by apply bld_init|exact Ha]|]. intros r1 d1 Hd1 B1. simpl in B1.
  eapply spends_bind; [eapply appendCopy_spec; [exact B1|by apply (nfa_mono d)]|]. intros r2 d2 Hd2 B2. cbv beta in B2.
  eapply spends_bind.
  { apply spends_small. intros Hd2'. eapply concatenate_loop; [done|apply (nfa_mono d); [lia|exact Ha]|apply (nfa_mono d); [lia|exact Hb]|].
    eapply bld_ext; [done| |exact B2]. intros s Hs. unfold concat_final. by rewrite (decide_False (P := s < 0)) by lia. }
  intros r3 d3 Hd3 B3. eapply freeze_recognises; [exact B3|lia|labels|].
  etransitivity; [apply (from_ext _ _ (concatenate_edges na Ea Fa Eb))|].
  { intros s t. unfold concatenate_edges. tauto. }
  etransitivity; [apply (concatenate_lang lab na nb Ea Eb Fa Fb)|by rewrite HL, HK]; [done..| |].
  - intros s Hs. unfold concat_final. by rewrite decide_True by lia.
  - intros s Hs. unfold concat_final, append_final. rewrite !decide_False by lia. f_equal. lia.
Qed.

Lemma optional_spec d a L Er : recognises d a L -> spends d (optional a) Er (fun r d' => recognises d' r (lunion leps L)).
Proof.
  intros Ra. eapply spends_bind; [apply epsilon_spec; by eapply recognises_paid|]. intros e d1 Hd1 Re.
  apply unite_spec; [done|by apply (recognises_mono d)].
Qed.

Lemma star_spec d a L Er : recognises d a L -> spends d (star a) Er (fun r d' => recognises d' r (lstar L)).
Proof.
  intros Ra. pose proof (recognises_paid _ _ _ Ra) as Hd0. destruct Ra as (na & Ea & Fa & Ha & Ya & HL). apply spends_small. intros Hd.
  pose proof (nfa_pos _ _ _ _ _ Ha) as Hna. pose proof (nfa_within _ _ _ _ _ Ha) as Wa.
  assert (forall u, Ea 0 u -> 0 <= 1 + dest u < 1 + na /\ tmin u <= tmax u) as Hok.
  { intros u Hu. split; [apply Wa in Hu; lia|by eapply (nfa_ranges _ _ _ _ _ _ _ Ha)]. }
  unfold star. rewrite (nfa_size _ _ _ _ _ Ha Hd).
  eapply spends_bind; [by apply addState_spec, bld_init|]. intros [i r1] d1 Hd1 [_ B1]. simpl in B1.
  eapply spends_bind; [eapply appendCopy_spec; [exact B1|by apply (nfa_mono d)]|]. intros r2 d2 Hd2 B2. cbv beta in B2.
  destruct (nfa_from d a na Ea Fa 0 Ha Hd ltac:(lia)) as (la & Hla & Ina). eapply spends_need_bind; [exact Hla|].
  eapply spends_bind; [apply (addMoved_spec _ _ _ _ _ _ _ _ Ea 0 _ B2); [lia|done|done]|]. intros r3 d3 Hd3 B3. cbv beta in B3.
  set (E3 := fun s t => _) in B3. set (F3 := append_final _ _ _) in B3.
  eapply spends_bind.
  { apply (spends_seq (fun i r d' => bld d' r (1 + na) (fun s t => E3 s t \/ exists s0, 0 <= s0 < i /\ Fa s0 = true /\ hook (1 + s0) 1 Ea 0 s t) F3)); [lia| |].
    - eapply bld_ext; [|done|exact B3]. intros s t. split; [by left|]. intros [?|(s0 & ? & _)]; [done|lia].
    - intros j r d4 Hd4 Hj B4. eapply spends_need_bind; [apply (nfa_accept _ _ _ _ _ _ Ha); lia|]. destruct (Fa j) eqn:EF.
      + eapply spends_post; [apply (addMoved_spec _ _ _ _ _ _ _ _ Ea 0 _ B4); [lia|done|done]|].
        intros r5 d5 _. apply bld_ext; [|done]. intros s t. split.
        * intros [[?|(s0 & ? & ? & ?)]|?]; [by left|right; exists s0; split_and!; [lia..|done|done]|right; exists j; split_and!; [lia..|done|done]].
        * intros [?|(s0 & ? & ? & ?)]; [by left; left|]. destruct (decide (s0 = j)) as [->|]; [by right|].
          left. right. exists s0. split_and!; [lia..|done|done].
      + apply spends_ret. eapply bld_ext; [|done|exact B4]. intros s t.
        split; (intros [?|(s0 & ? & ? & ?)]; [by left|right; exists s0]); [split_and!; [lia..|done|done]|].
        assert (s0 <> j) by (intros ->; congruence). split_and!; [lia..|done|done]. }
  intros r4 d4 Hd4 B4. cbv beta in B4. eapply freeze_recognises; [exact B4|lia|unfold E3; labels|].
  etransitivity; [apply (from_ext _ _ (star_edges na Ea Fa))|].
  { intros s t. unfold star_edges, E3. replace (0 + 1) with 1 by lia. tauto. }
  etransitivity; [apply (star_lang lab na Ea Fa)|by rewrite HL]; [done..|].
  intros s Hs. unfold F3, append_final. rewrite decide_False by lia. f_equal. lia.
Qed.

Lemma anyString_spec d Er : 0 <= d ->
  spends d anyString Er (fun a d' => recognises d' a (lstar (lunion (lab 0 0xd7ff false) (lab 0xe000 0x10ffff false)))).
Proof. intros Hd. eapply spends_bind; [by apply anyChar_spec|]. intros a d1 _ Ra. by apply star_spec. Qed.

Lemma repeatRange_spec d a L lo hi Er : recognises d a L -> 0 <= lo <= hi -> hi <= 1000 ->
  spends d (repeatRange a lo hi) Er (fun r d' => recognises d' r (lrep lo hi L)).
Proof.
  intros Ra Hlo Hhi. unfold repeatRange. rewrite decide_False by lia.
  eapply spends_bind; [apply epsilon_spec; by eapply recognises_paid|]. intros e d1 Hd1 Re. eapply spends_bind.
  - apply (spends_seq (fun i r d' => recognises d' r (lrep i i L))); [lia|by rewrite lrep_0|].
    intros i r d2 Hd2 Hi Rr. eapply spends_post; [apply concatenate_spec; [exact Rr|apply (recognises_mono d); [lia|exact Ra]]|].
    cbv beta. intros r2 d3 _. by rewrite lrep_more by lia.
  - intros r d2 Hd2 Rr. eapply spends_post.
    + apply (spends_range (fun i r d' => recognises d' r (lrep lo i L))); [lia|done|]. intros i r' d3 Hd3 Hi Rr'.
      eapply spends_bind; [apply optional_spec, (recognises_mono d); [lia|exact Ra]|]. intros o d4 Hd4 Ro.
      eapply spends_post; [apply concatenate_spec; [apply (recognises_mono d3); [done|exact Rr']|exact Ro]|].
      cbv beta. intros r2 d5 _. by rewrite lrep_maybe by lia.
    + cbv beta. intros r' d' _. by replace (lo + (hi - lo)) with hi by lia.
Qed.

Lemma repeatRange_rejects d a lo hi (Er : string -> Prop) Q : ~ (0 <= lo <= hi /\ hi <= 1000) -> Er complex ->
  spends d (repeatRange a lo hi) Er Q.
Proof. intros H HE. unfold repeatRange. rewrite decide_True by lia. by apply spends_throw. Qed.

(** ** Literals *)

Context (casefold : Z -> Z).
Context (fold_scalar : forall cp, is_scalar cp -> is_scalar (casefold cp)).
Context (fold_idemp : forall cp, is_scalar cp -> casefold (casefold cp) = casefold cp).

(** A code point, or with [caseInsensitive] also its case alternates. *)
Definition atom_lang (caseInsensitive : bool) (cp : Z) : language := fun w =>
  exists x, (x = cp \/ caseInsensitive = true /\ x ∈ alternates casefold cp) /\ lab x x false w.

Lemma alternates_self cp x : x ∈ alternates casefold cp -> cp ∈ alternates casefold cp.
Proof.
  unfold alternates. cbv zeta. case_decide as Hcp; [|by intros ?%not_elem_of_nil]. intros _. apply case_class_in; [apply Hcp|reflexivity].
Qed.

Lemma caseAtom_spec d cp ci Er : 0 <= d ->
  spends d (caseAtom casefold cp ci) Er (fun a d' => recognises d' a (atom_lang ci cp)).
Proof.
  intros Hd. unfold caseAtom.
  apply (spends_bind _ _ _ _ (fun alts d' => d' = d /\ alts = if ci then alternates casefold cp else [])).
  { destruct ci; [|by apply spends_ret]. eapply spends_need; [by apply caseAlternates_spec|done]. }
  intros alts d0 _ (-> & ->). destruct (decide (_ = [])) as [En|Nn].
  - eapply spends_post; [by apply charRange_spec|]. intros a d' _. apply recognises_proper. intros w. split.
    + intros (x & [->|[-> Hx]] & Hw); [done|]. rewrite En in Hx. by apply not_elem_of_nil in Hx.
    + intros Hw. exists cp. split; [by left|done].
  - destruct ci; [|done]. apply two_states_spec; [done|]. intros a d1 Hd1 Hb. eapply spends_bind.
    + apply (spends_fold (fun seen r d' => bld d' r 2 (fun s t => s = 0 /\ exists x, x ∈ seen /\ t = MkT x x 1 false) (fun s => bool_decide (s = 1)))).
      * eapply bld_ext; [|done|exact Hb]. intros s t. split; [done|]. by intros (_ & x & ?%not_elem_of_nil & _).
      * intros seen x rest r d2 Hd2 _ B2. eapply spends_post; [apply (addTransition_spec _ _ _ _ _ _ _ _ _ _ _ B2); lia|].
        intros r3 d3 _. apply bld_ext; [|done]. intros s t. split.
        -- intros [(-> & y & Hy & ->)|[-> ->]]; (split; [done|]); [exists y|exists x]; (split; [|done]); apply elem_of_app; [by left|right; left].
        -- intros (-> & y & [Hy| ->%list_elem_of_singleton]%elem_of_app & ->); [left; split; [done|by exists y]|by right].
    + intros r d2 Hd2 B2. eapply freeze_recognises; [exact B2|lia|labels|]. etransitivity; [apply two_states_lang; [|done..]|].
      * by intros s t (-> & x & _ & ->).
      * intros w. split.
        -- intros (t & (_ & x & Hx & ->) & Hw). exists x. split; [by right|exact Hw].
        -- intros (x & Hx & Hw). exists (MkT x x 1 false). split; [|exact Hw]. split; [done|]. exists x. split; [|done].
           destruct Hx as [->|[_ Hx]]; [|done]. destruct (alternates casefold cp) as [|y l] eqn:E; [done|]. rewrite <- E.
           apply (alternates_self cp y). rewrite E. left.
Qed.

(** The code points a literal stands for, when its folding is valid. *)
Definition folding (folder : option CodepointFolder) (cp : Z) : list Z :=
  match folder with None => [cp] | Some f => let '(count, out) := fold f cp 32 in take (Z.to_nat count) out end.
Definition fold_valid (folder : option CodepointFolder) (cp : Z) : Prop :=
  match folder with None => True | Some f => 0 <= (fold f cp 32).1 <= 32 end.
(** The contract of a folder: it has written as many code points as it reports. *)
Definition fold_written (folder : option CodepointFolder) : Prop :=
  forall f cp, folder = Some f -> (fold f cp 32).1 <= zlen (fold f cp 32).2.

Definition literal_lang (folder : option CodepointFolder) (ci : bool) (cp : Z) : language := lcats (atom_lang ci <$> folding folder cp).

Definition fold_error : string := "literal fold returned an invalid codepoint count".

Lemma literal_spec d cp folder ci : 0 <= d -> fold_written folder ->
  spends d (literal casefold cp folder ci) (fun m => ~ fold_valid folder cp /\ m = fold_error)
    (fun a d' => fold_valid folder cp /\ recognises d' a (literal_lang folder ci cp)).
Proof.
  intros Hd Hw. unfold literal, literal_lang, fold_valid, folding. destruct folder as [f|].
  - specialize (Hw f cp eq_refl). destruct (fold f cp 32) as [count out]. simpl in *. case_decide as Hc; [by apply spends_throw; split; [lia|]|].
    case_decide as H0.
    { subst count. eapply spends_post; [by apply epsilon_spec|]. intros a d' _ Ra. split; [lia|done]. }
    destruct (zget_in out 0) as [x Hx]; [lia|]. eapply spends_need_bind; [exact Hx|].
    eapply spends_bind; [by apply caseAtom_spec|]. intros r d1 Hd1 Rr. eapply spends_post.
    + apply (spends_range (fun i r d' => recognises d' r (lcats (atom_lang ci <$> take (Z.to_nat i) out)))); [lia| |].
      * destruct out as [|y out]; [done|]. rewrite zget_cons_0 in Hx. injection Hx as ->. simpl. rewrite lcat_eps_r. done.
      * intros i r2 d2 Hd2 Hi R2. destruct (zget_in out i) as [y Hy]; [lia|]. eapply spends_need_bind; [exact Hy|].
        eapply spends_bind; [apply caseAtom_spec; lia|]. intros part d3 Hd3 Rp.
        replace (Z.to_nat (i + 1)) with (S (Z.to_nat i)) by lia. unfold zget in Hy. rewrite decide_True in Hy by lia.
        eapply spends_post; [apply concatenate_spec; [apply (recognises_mono d2); [done|exact R2]|exact Rp]|].
        cbv beta. intros r3 d4 _. rewrite (take_S_r _ _ _ Hy), fmap_app. simpl. by rewrite lcats_snoc.
    + cbv beta. intros a d' _ Ra. replace (1 + (count - 1)) with count in Ra by lia. split; [lia|done].
  - eapply (spends_mono _ _ no_error); [by apply caseAtom_spec|by intros m []|]. intros a d' _ Ra. split; [done|]. simpl. by rewrite lcat_eps_r.
Qed.
End Recognises.
