(* ===== verification/Determinize.v ===== *)
(** [Automaton::determinize] of [util/automaton/Automaton.cpp].

    The subset construction on ranges; it is used on automata whose labels are bytes, so a transition reads one
    symbol of its range ([plain]).  Its loop is shown to end because the subsets it numbers are different, to keep the language, and to give
    an automaton in which every state is reached and the ranges of a state are disjoint ([dfa]). *)

From stdpp Require Import gmap.
From S2P Require Import Prelude Search Metered Languages CaseAlternates Automata.

Import Automaton.

(** [std::unique] on a sorted vector. *)
Fixpoint unique (l : list Z) : list Z :=
  match l with
  | x :: (y :: _) as l' => if decide (x = y) then unique l' else x :: unique l'
  | l => l
  end.

Definition sort_unique (l : list Z) : list Z := unique (merge_sort Z.le l).

Module Subset.
(** The loop of [determinize]: the numbered subsets, the states still to be expanded, and the automaton built so far. *)
Record st := Make { subsets : list (list Z); subsetToState : gmap (list Z) Z; pending : list Z; result : t }.

Definition points (a : t) (subset : list Z) : option (list Z) :=
  rows ← mapM (transitionsFrom a) subset;
  Some (sort_unique (tr ← concat rows; tmin tr :: (if decide (tmax tr < 0x10ffff) then [tmax tr + 1] else []))).

Definition destination (a : t) (subset : list Z) (min : Z) : option (list Z) :=
  rows ← mapM (transitionsFrom a) subset;
  Some (dest <$> filter (fun tr => tmin tr <= min <= tmax tr) (concat rows)).

Definition accepting (a : t) (states : list Z) : option bool :=
  foldM (fun acc state => if acc : bool then Some true else accept a state) false states.

(** The destination is looked up or numbered. *)
Definition findState (a : t) (s : st) (destination : list Z) : SM Budget (Z * st) :=
  match subsetToState s !! destination with
  | Some state => mret (state, s)
  | None =>
      let state := s32 (zlen (subsets s)) in
      acc ← need (accepting a destination);
      '(_, result) ← addState acc (result s);
      mret (state, Make (subsets s ++ [destination]) (<[destination := state]> (subsetToState s)) (pending s ++ [state]) result)
  end.

(** One interval of the label line. *)
Definition interval (a : t) (resultState : Z) (subset pts : list Z) (s : st) (point : Z) : SM Budget st :=
  min ← need pts.[point];
  max ← (if decide (point + 1 < zlen pts) then next ← need pts.[point + 1]; mret (next - 1) else mret 0x10ffff);
  dest ← need (destination a subset min);
  if decide (dest = []) then mret s else
  let dest := sort_unique dest in
  consume (zlen subset + zlen dest);;
  '(destinationState, s) ← findState a s dest;
  result ← addTransition resultState min max destinationState false (result s);
  mret (Make (subsets s) (subsetToState s) (pending s) result).

(** One state of the queue. *)
Definition expand (a : t) (s : st) : SM Budget (st + t)%type :=
  match pending s with
  | [] => mret (inr (result s))
  | resultState :: pending =>
      subset ← need (subsets s).[resultState];
      pts ← need (points a subset);
      s ← foldS (interval a resultState subset pts) (Make (subsets s) (subsetToState s) pending (result s)) (seqZ 0 (zlen pts));
      mret (inl s)
  end.
End Subset.

Definition determinize (a : t) : SM Budget t :=
  if decide (size a = 0) then empty else
  acc ← need (accept a 0);
  '(_, result) ← addState acc init;
  result ← whileS (S (length (accepts a))) (Subset.expand a) (Subset.Make [[0]] {[ [0] := 0 ]} [0] result);
  freeze result.

(** * Sorted lists without duplicates *)

Lemma unique_cons x y l : unique (x :: y :: l) = if decide (x = y) then unique (y :: l) else x :: unique (y :: l).
Proof. done. Qed.

Lemma elem_of_unique x l : x ∈ unique l <-> x ∈ l.
Proof.
  induction l as [|a [|b l] IH]; [done..|]. rewrite unique_cons. case_decide as E; rewrite ?elem_of_cons, IH, ?elem_of_cons; [subst; tauto|done].
Qed.

Lemma increasing_unique l : nondecreasing l -> increasing (unique l).
Proof.
  intros Hl. induction Hl as [|a l Hl IH Ha]; [constructor|]. destruct l as [|b l]; [repeat constructor|]. rewrite unique_cons.
  case_decide as E; [done|]. constructor; [done|]. rewrite Forall_forall in *. intros x Hx. rewrite elem_of_unique in Hx.
  apply StronglySorted_cons in Hl as [Hb _]. rewrite Forall_forall in Hb.
  pose proof (Ha b ltac:(left)). apply elem_of_cons in Hx as [->|Hx%Hb]; lia.
Qed.

Lemma sort_unique_spec l : increasing (sort_unique l) /\ forall x, x ∈ sort_unique l <-> x ∈ l.
Proof.
  unfold sort_unique. split; [apply increasing_unique, (StronglySorted_merge_sort _)|].
  intros x. by rewrite elem_of_unique, merge_sort_Permutation.
Qed.

Fixpoint sublists (l : list Z) : list (list Z) :=
  match l with [] => [[]] | x :: l => sublists l ++ (cons x <$> sublists l) end.

Lemma length_sublists l : length (sublists l) = (2 ^ length l)%nat.
Proof. induction l as [|x l IH]; simpl; [done|]. rewrite length_app, length_fmap, IH. lia. Qed.

Lemma increasing_sublists l k : increasing l -> increasing k -> (forall x, x ∈ k -> x ∈ l) -> k ∈ sublists l.
Proof.
  intros Hl. revert k. induction Hl as [|x l Hl IH Hx]; intros k Hk Hin; simpl.
  - destruct k as [|y k]; [left|]. exfalso. apply (not_elem_of_nil y), Hin. left.
  - apply elem_of_app. destruct k as [|y k].
    { left. apply IH; [constructor|]. by intros y ?%not_elem_of_nil. }
    rewrite Forall_forall in Hx. pose proof Hk as [Hy Hk']%StronglySorted_cons. rewrite Forall_forall in Hy.
    destruct (decide (y = x)) as [->|Hne].
    + right. apply list_elem_of_fmap_2, IH; [done|]. intros z Hz. specialize (Hin z ltac:(by right)).
      apply elem_of_cons in Hin as [->|]; [|done]. specialize (Hy x Hz). lia.
    + left. apply IH; [done|]. intros z Hz. pose proof (Hin y ltac:(left)) as [->|Hyl]%elem_of_cons; [done|].
      pose proof (Hin z Hz) as [->|]%elem_of_cons; [|done]. specialize (Hx y Hyl).
      apply elem_of_cons in Hz as [->|Hz]; [lia|]. specialize (Hy x Hz). lia.
Qed.

(** There are at most [2 ^ n] different sets of states. *)
Lemma subsets_bound (ls : list (list Z)) n : 0 <= n -> NoDup ls ->
  (forall l, l ∈ ls -> increasing l /\ forall x, x ∈ l -> 0 <= x < n) -> (length ls <= 2 ^ Z.to_nat n)%nat.
Proof.
  intros Hn Hnd Hls. replace (Z.to_nat n) with (length (seqZ 0 n)) by (rewrite length_seqZ; lia). rewrite <- length_sublists.
  apply submseteq_length, NoDup_submseteq; [done|]. intros l Hl. destruct (Hls l Hl) as [H1 H2].
  apply increasing_sublists; [apply increasing_seqZ|done|]. intros x Hx%H2. apply elem_of_seqZ. lia.
Qed.

(** * Symbols *)

(** A transition reads one symbol of its range. *)
Definition plain (lo hi : Z) (_ : bool) : language := fun w => exists x, w = [x] /\ lo <= x <= hi.

Definition has (t : Transition) (x : Z) : Prop := tmin t <= x <= tmax t.

Lemma from_plain_nil E F s : from plain E F s [] <-> F s = true.
Proof.
  split; [|apply from_nil]. intros [[_ HF]|(t & u & v & Hw & Ht & (x & -> & _) & _)]%from_inv; [done|]. by destruct v.
Qed.

Lemma from_plain_cons E F s x w : from plain E F s (x :: w) <-> exists t, E s t /\ has t x /\ from plain E F (dest t) w.
Proof.
  split.
  - intros [[? _]|(t & u & v & Hw & Ht & (y & -> & Hy) & Hv)]%from_inv; [done|]. injection Hw as <- <-. by exists t.
  - intros (t & Ht & Hx & Hv). apply (from_step plain E F s t [x] w); [done|by exists x|done].
Qed.

(** At most one transition for each state and symbol. *)
Definition disjoint_ranges (t u : Transition) : Prop := t = u \/ tmax t < tmin u \/ tmax u < tmin t.
Definition det (E : edges) : Prop := forall s t u, E s t -> E s u -> disjoint_ranges t u.

Lemma det_has E s t u x : det E -> E s t -> E s u -> has t x -> has u x -> t = u.
Proof. intros Hd Ht Hu Hx Hy. unfold has in *. destruct (Hd s t u Ht Hu) as [?|]; [done|lia]. Qed.

(** * The subset construction *)

Section SubsetConstruction.
Context (a : t) (d0 n : Z) (E : edges) (F : Z -> bool).
Context (Ha : nfa d0 a n E F) (Hd0 : d0 < int32_limit).
Context (Hlab : forall s u, E s u -> tmax u <= 0x10ffff).

Definition states_of (S : list Z) : Prop := forall s, s ∈ S -> 0 <= s < n.

(** The states reached from [S] with the symbol [x], in order. *)
Definition next_set (S : list Z) (x : Z) (T : list Z) : Prop :=
  increasing T /\ forall q, q ∈ T <-> exists s u, s ∈ S /\ E s u /\ has u x /\ q = dest u.

Lemma next_set_unique S x T T' : next_set S x T -> next_set S x T' -> T = T'.
Proof. intros [H1 H2] [H3 H4]. apply increasing_ext; [done..|]. intros q. by rewrite H2, H4. Qed.

Lemma rows_of S : states_of S -> exists rows, mapM (transitionsFrom a) S = Some rows /\ forall u, u ∈ concat rows <-> exists s, s ∈ S /\ E s u.
Proof.
  induction S as [|s S IH]; intros HS.
  - exists []. split; [done|]. intros u. split; [by intros ?%not_elem_of_nil|]. by intros (s & ?%not_elem_of_nil & _).
  - destruct IH as (rows & E1 & H1); [intros x Hx; apply HS; by right|].
    destruct (nfa_from d0 a n E F s Ha Hd0) as (l & E2 & H2); [apply HS; left|].
    exists (l :: rows). simpl. rewrite E2, E1. split; [done|]. intros u. rewrite elem_of_app, H1, H2. split.
    + intros [?|(s' & ? & ?)]; [exists s; split; [left|done]|exists s'; split; [by right|done]].
    + intros (s' & [->|?]%elem_of_cons & ?); [by left|right; by exists s'].
Qed.

Definition boundary (S : list Z) (x : Z) : Prop :=
  exists s u, s ∈ S /\ E s u /\ (x = tmin u \/ tmax u < 0x10ffff /\ x = tmax u + 1).

Lemma points_spec S : states_of S ->
  exists pts, Subset.points a S = Some pts /\ increasing pts /\ forall x, x ∈ pts <-> boundary S x.
Proof.
  intros HS. destruct (rows_of S HS) as (rows & E1 & H1). unfold Subset.points. rewrite E1. opt. eexists. split; [done|].
  destruct (sort_unique_spec (tr ← concat rows; tmin tr :: (if decide (tmax tr < 0x10ffff) then [tmax tr + 1] else []))) as [Hinc Hmem].
  split; [done|]. intros x. rewrite Hmem, list_elem_of_bind. unfold boundary. split.
  - intros (u & Hx & (s & Hs & Hu)%H1). exists s, u. split_and!; [done..|]. apply elem_of_cons in Hx as [->|Hx]; [by left|right].
    case_decide; [|by apply not_elem_of_nil in Hx]. by apply list_elem_of_singleton in Hx.
  - intros (s & u & Hs & Hu & Hx). exists u. split; [|apply H1; by exists s]. apply elem_of_cons.
    destruct Hx as [->|[? ->]]; [by left|right]. rewrite decide_True by done. left.
Qed.

Lemma destination_spec S x : states_of S ->
  exists l, Subset.destination a S x = Some l /\ next_set S x (sort_unique l).
Proof.
  intros HS. destruct (rows_of S HS) as (rows & E1 & H1). unfold Subset.destination. rewrite E1. opt. eexists. split; [done|].
  destruct (sort_unique_spec (dest <$> filter (fun tr => tmin tr <= x <= tmax tr) (concat rows))) as [Hinc Hmem]. split; [done|].
  intros q. rewrite Hmem, list_elem_of_fmap. setoid_rewrite list_elem_of_filter. setoid_rewrite H1. unfold has. naive_solver.
Qed.

Lemma accepting_spec S : states_of S -> Subset.accepting a S = Some (existsb F S).
Proof.
  unfold Subset.accepting. enough (forall acc, states_of S ->
    foldM (fun acc state => if acc : bool then Some true else accept a state) acc S = Some (acc || existsb F S)) as H by (apply (H false)).
  induction S as [|s S IH]; intros acc HS; simpl; [by rewrite orb_false_r|].
  assert (states_of S) as HS' by (intros x Hx; apply HS; by right).
  destruct acc; simpl; [by rewrite (IH true HS')|]. rewrite (nfa_accept d0 a n E F s Ha) by (apply HS; left). opt. by rewrite (IH (F s) HS').
Qed.

(** The first symbol after the [i]-th interval. *)
Definition bound (pts : list Z) (i : Z) : Z := default 0x110000 pts.[i].

Section Interval.
Context (S pts : list Z) (HS : states_of S) (Hinc : increasing pts) (Hpts : forall x, x ∈ pts <-> boundary S x).

Lemma pts_small x : x ∈ pts -> x < 0x110000.
Proof. intros (s & u & Hs & Hu & Hx)%Hpts. pose proof (Hlab s u Hu). pose proof (nfa_ranges _ _ _ _ _ _ _ Ha Hu). lia. Qed.

Lemma bound_after i lo x : pts.[i] = Some lo -> x ∈ pts -> lo < x -> bound pts (i + 1) <= x.
Proof.
  intros Hi (j & Hj)%zget_elem Hx. pose proof (zget_Some_range _ _ _ Hi). pose proof (zget_Some_range _ _ _ Hj).
  assert (i < j) as Hij.
  { apply Z.nle_gt. intros Hle. destruct (decide (i = j)) as [->|]; [simplify_eq; lia|].
    pose proof (increasing_zget _ _ _ _ _ Hinc Hj Hi ltac:(lia)). lia. }
  unfold bound. destruct (zget_in pts (i + 1)) as [y Hy]; [lia|]. rewrite Hy. simpl. destruct (decide (j = i + 1)) as [->|]; [simplify_eq; lia|].
  pose proof (increasing_zget _ _ _ _ _ Hinc Hy Hj ltac:(lia)). lia.
Qed.

Lemma bound_before i lo : pts.[i] = Some lo -> lo < bound pts (i + 1) <= 0x110000.
Proof.
  intros Hi. unfold bound. destruct (pts.[i + 1]) as [y|] eqn:Hy; simpl.
  - pose proof (increasing_zget _ _ _ _ _ Hinc Hi Hy ltac:(lia)). pose proof (pts_small y (zget_elem_1 _ _ _ Hy)). lia.
  - pose proof (pts_small lo (zget_elem_1 _ _ _ Hi)). lia.
Qed.

(** In one interval the same transitions apply to all symbols. *)
Lemma interval_const i lo x s u : pts.[i] = Some lo -> lo <= x < bound pts (i + 1) -> s ∈ S -> E s u -> has u x <-> has u lo.
Proof.
  intros Hi Hx Hs Hu. pose proof (bound_before i lo Hi) as Hb. unfold has. split; intros H.
  - destruct (decide (tmin u <= lo)); [lia|]. 
    assert (bound pts (i + 1) <= tmin u); [|lia]. apply (bound_after i lo); [done| |lia]. apply Hpts. exists s, u. by split_and!; [..|left].
  - destruct (decide (x <= tmax u)); [lia|]. 
    assert (bound pts (i + 1) <= tmax u + 1); [|lia]. apply (bound_after i lo); [done| |lia]. apply Hpts. exists s, u. split_and!; [done..|right; lia].
Qed.

Lemma next_set_interval i lo x T : pts.[i] = Some lo -> lo <= x < bound pts (i + 1) -> next_set S lo T -> next_set S x T.
Proof.
  intros Hi Hx [H1 H2]. split; [done|]. intros q. rewrite H2. split; intros (s & u & Hs & Hu & Hh & ->); exists s, u;
    (split_and!; [done..| |done]); by apply (interval_const i lo x s u).
Qed.
End Interval.

(** ** The invariant *)

Record numbered (d : Z) (s : Subset.st) (Er : edges) : Prop := {
  num_sub : forall i S, (Subset.subsets s).[i] = Some S -> increasing S /\ S <> [] /\ states_of S;
  num_start : (Subset.subsets s).[0] = Some [0];
  num_nodup : NoDup (Subset.subsets s);
  num_map : forall S i, Subset.subsetToState s !! S = Some i <-> (Subset.subsets s).[i] = Some S;
  num_bld : bld d (Subset.result s) (zlen (Subset.subsets s)) Er (fun i => existsb F (default [] (Subset.subsets s).[i]));
  num_rows : Forall NoDup (building (Subset.result s));
  num_det : det Er;
  num_src : forall q u, Er q u -> exists s v, E s v /\ tmin v <= tmin u /\ tmax u <= tmax v }.

Lemma numbered_mono d d' s Er : d <= d' -> numbered d s Er -> numbered d' s Er.
Proof. intros Hd []. split; try done. by apply (bld_mono d). Qed.

Definition reached (k : Z) (Er : edges) : Prop := forall q, 0 <= q < k -> exists w, path plain Er 0 w q.

(** The transitions of [q] do on the symbol [x] what the states [S] do. *)
Definition moves (subsets : list (list Z)) (Er : edges) (q : Z) (S : list Z) (x : Z) : Prop :=
  forall T, next_set S x T ->
    (T = [] -> forall u, Er q u -> ~ has u x) /\ (T <> [] -> exists u, Er q u /\ has u x /\ subsets.[dest u] = Some T).

Lemma moves_mono subsets new (Er Er' : edges) p q S x :
  q <> p -> (forall q u, Er q u -> Er' q u) -> (forall q u, q <> p -> Er' q u -> Er q u) ->
  moves subsets Er q S x -> moves (subsets ++ new) Er' q S x.
Proof.
  intros Hq H1 H2 Hm T HT. destruct (Hm T HT) as [Hm1 Hm2]. split; [intros HT0 u Hu; apply Hm1; auto|].
  intros HT0. destruct (Hm2 HT0) as (u & Hu & Hx & Hs). exists u. split_and!; [by apply H1|done|by apply zget_app_Some].
Qed.

(** [s'] numbers more subsets than [s] and has queued the new ones. *)
Definition extends (s s' : Subset.st) : Prop :=
  exists new, Subset.subsets s' = Subset.subsets s ++ new
    /\ Subset.pending s' = Subset.pending s ++ seqZ (zlen (Subset.subsets s)) (zlen new).

Lemma extends_refl s : extends s s.
Proof. exists []. by rewrite !app_nil_r. Qed.

Lemma extends_trans s1 s2 s3 : extends s1 s2 -> extends s2 s3 -> extends s1 s3.
Proof.
  intros (n1 & E1 & P1) (n2 & E2 & P2). exists (n1 ++ n2). rewrite E2, P2, E1, P1, <- !app_assoc. split; [done|]. f_equal.
  rewrite !zlen_app, seqZ_app by apply zlen_nonneg. done.
Qed.

Lemma findState_spec d s Er T Err : numbered d s Er -> increasing T -> T <> [] -> states_of T ->
  spends d (Subset.findState a s T) Err (fun r d' => numbered d' r.2 Er /\ (Subset.subsets r.2).[r.1] = Some T /\ extends s r.2
    /\ forall q, 0 <= q < zlen (Subset.subsets r.2) -> q < zlen (Subset.subsets s) \/ q = r.1).
Proof.
  intros [] HT1 HT2 HT3. unfold Subset.findState. destruct (Subset.subsetToState s !! T) as [q|] eqn:Eq.
  - apply spends_ret. simpl. apply num_map0 in Eq. split_and!; [done|done|apply extends_refl|]. intros q' Hq'. left. lia.
  - apply (spends_need_bind _ _ _ _ _ _ (accepting_spec T HT3)). apply spends_small. intros Hd.
    assert (s32 (zlen (Subset.subsets s)) = zlen (Subset.subsets s)) as Hk.
    { apply (int32_small _ d); [apply zlen_nonneg| |done]. destruct num_bld0 as (? & ? & _ & []). done. }
    eapply spends_bind; [apply addState_raw; exact num_bld0|]. intros [i r] d' _ (_ & Hb & Hrow). simpl in *. apply spends_ret. simpl. rewrite Hk.
    pose proof (zlen_nonneg (Subset.subsets s)). assert (T ∉ Subset.subsets s) as HTn.
    { intros (j & Hj)%zget_elem. apply num_map0 in Hj. congruence. }
    split_and!; [|apply zget_snoc|by exists [T]|].
    + split; simpl; [..|done|done].
      * intros j S [?|[_ ->]]%zget_snoc_inv; [by apply (num_sub0 j)|by split_and!].
      * by apply zget_app_Some.
      * apply NoDup_app. split_and!; [done| |apply NoDup_singleton]. by intros x Hx ->%list_elem_of_singleton.
      * intros S j. destruct (decide (S = T)) as [->|HST].
        -- rewrite lookup_insert_eq. split; [intros [= <-]; apply zget_snoc|].
           intros [Hj|[-> _]]%zget_snoc_inv; [|done]. apply num_map0 in Hj. congruence.
        -- rewrite lookup_insert_ne by done. rewrite num_map0. split; [by apply zget_app_Some|]. by intros [?|[_ ?]]%zget_snoc_inv.
      * rewrite zlen_app. change (zlen [T]) with 1. eapply bld_ext; [done| |exact Hb]. intros j Hj. cbv beta.
        case_decide as Hjk; [subst j; by rewrite zget_snoc|]. by rewrite zget_app_l by lia.
      * rewrite Hrow. apply Forall_app. split; [done|]. repeat constructor.
    + rewrite zlen_app. change (zlen [T]) with 1. lia.
Qed.

(** What one interval, or the intervals so far, add to the transitions of [p]. *)
Definition grows (p : Z) (Er Er' : edges) : Prop := (forall q u, Er q u -> Er' q u) /\ (forall q u, q <> p -> Er' q u -> Er q u).

Lemma addEdge_spec d s Er p S lo hi q T Err :
  numbered d s Er -> (Subset.subsets s).[p] = Some S -> (Subset.subsets s).[q] = Some T -> lo <= hi ->
  (forall u, Er p u -> tmax u < lo) -> (exists s v, E s v /\ tmin v <= lo /\ hi <= tmax v) ->
  spends d (addTransition p lo hi q false (Subset.result s)) Err (fun r d' =>
    numbered d' (Subset.Make (Subset.subsets s) (Subset.subsetToState s) (Subset.pending s) r)
      (fun s u => Er s u \/ s = p /\ u = MkT lo hi q false)).
Proof.
  intros [] HS HT Hle Hbelow Hsrc. pose proof (zget_Some_range _ _ _ HS) as Hp. pose proof (zget_Some_range _ _ _ HT) as Hq.
  eapply spends_post; [apply (addTransition_simple _ _ _ _ _ _ _ _ _ _ _ num_bld0 num_rows0 Hp Hq Hle)|].
  { intros Hu%Hbelow. simpl in Hu. lia. }
  intros r d' _ [Hb Hnd]. split; simpl; [done..| |].
  - intros s0 u v [Hu|[-> ->]] [Hv|[? ->]]; [by eapply num_det0| | |by left].
    + subst s0. apply Hbelow in Hu. right. left. done.
    + apply Hbelow in Hv. right. right. done.
  - intros s0 u [Hu|[-> ->]]; [by apply (num_src0 s0)|done].
Qed.

Lemma interval_spec d s Er p S pts i lo Err :
  d0 <= d -> numbered d s Er -> reached (zlen (Subset.subsets s)) Er -> (Subset.subsets s).[p] = Some S ->
  increasing pts -> (forall x, x ∈ pts <-> boundary S x) -> pts.[i] = Some lo -> (forall u, Er p u -> tmax u < lo) ->
  spends d (Subset.interval a p S pts s i) Err (fun s' d' => exists Er', numbered d' s' Er' /\ reached (zlen (Subset.subsets s')) Er'
    /\ extends s s' /\ grows p Er Er' /\ (forall u, Er' p u -> Er p u \/ tmin u = lo /\ tmax u = bound pts (i + 1) - 1)
    /\ forall x, lo <= x < bound pts (i + 1) -> moves (Subset.subsets s') Er' p S x).
Proof.
  intros Hd Hnum Hreach HS Hinc Hpts Hi Hbelow. pose proof (num_sub _ _ _ Hnum _ _ HS) as (HS1 & HS2 & HS3).
  unfold Subset.interval. eapply spends_need_bind; [exact Hi|].
  apply (spends_bind _ _ _ _ (fun m d' => d' = d /\ m = bound pts (i + 1) - 1)).
  { pose proof (zget_Some_range _ _ _ Hi). unfold bound. case_decide as Hnx.
    - destruct (zget_in pts (i + 1)) as [y Hy]; [lia|]. rewrite Hy. eapply spends_need_bind; [done|]. by apply spends_ret.
    - destruct (pts.[i + 1]) as [y|] eqn:Hy; [apply zget_Some_range in Hy; lia|]. by apply spends_ret. }
  intros m d1 _ (-> & ->). destruct (destination_spec S lo HS3) as (l & El & Hl). eapply spends_need_bind; [exact El|].
  pose proof (bound_before S pts Hinc Hpts i lo Hi) as Hb.
  assert (forall x T, lo <= x < bound pts (i + 1) -> next_set S x T -> T = sort_unique l) as Huniq.
  { intros x T Hx HT. apply (next_set_unique S x); [done|]. by apply (next_set_interval S pts Hinc Hpts i lo). }
  destruct (decide (l = [])) as [->|Hne].
  { apply spends_ret. exists Er. split_and!; [done|done|apply extends_refl|done|by left|].
    intros x Hx T HT. rewrite (Huniq x T Hx HT). split; [|done]. intros _ u Hu Hux. apply Hbelow in Hu. unfold has in Hux. lia. }
  assert (exists q, q ∈ sort_unique l) as [q0 Hq0].
  { destruct l as [|q l]; [done|]. exists q. apply sort_unique_spec. left. }
  destruct Hl as [Hl1 Hl2]. pose proof (zlen_nonneg S). pose proof (zlen_nonneg (sort_unique l)). apply spends_consume_bind; [lia|].
  eapply spends_bind.
  { eapply findState_spec; [apply (numbered_mono d); [lia|exact Hnum]|done| |].
    - intros E0. rewrite E0 in Hq0. by apply not_elem_of_nil in Hq0.
    - intros x (s0 & u & Hs0 & Hu & _ & ->)%Hl2. exact (proj2 (nfa_within _ _ _ _ _ Ha _ _ Hu)). }
  intros [q s1] d2 Hd2 (Hn1 & Hq & Hext & Hnew). cbn [fst snd] in *.
  assert ((Subset.subsets s1).[p] = Some S) as HS'. { destruct Hext as (new & -> & _). by apply zget_app_Some. }
  eapply spends_bind; [eapply addEdge_spec; [exact Hn1|exact HS'|exact Hq|lia|exact Hbelow|]|].
  { apply Hl2 in Hq0 as (s0 & v & Hs0 & Hv & Hh & _). exists s0, v. split; [done|].
    pose proof (interval_const S pts Hinc Hpts i lo (bound pts (i + 1) - 1) s0 v Hi ltac:(lia) Hs0 Hv) as Hc.
    unfold has in *. lia. }
  intros r d3 Hd3 Hn3. apply spends_ret. eexists. split; [exact Hn3|]. cbn [Subset.subsets]. split_and!.
  - intros q' Hq'. destruct (Hnew q' Hq') as [Hlt|Heq].
    + destruct (Hreach q') as [w Hw]; [lia|]. exists w. apply (path_map plain Er _ (fun x => x)); [|done]. intros s' u Hu. left. by destruct u.
    + destruct (Hreach p) as [w Hw]; [by apply zget_Some_range in HS|]. exists (w ++ [lo]). eapply path_app.
      * apply (path_map plain Er _ (fun x => x)); [|exact Hw]. intros s' u Hu. left. by destruct u.
      * subst q'. apply (path_one plain _ p (MkT lo (bound pts (i + 1) - 1) q false)); [by right|]. exists lo. split; [done|simpl; lia].
  - done.
  - split; [by left|]. intros q' u Hne' [?|[-> _]]; done.
  - intros u [Hu|[_ ->]]; [by left|by right].
  - intros x Hx T HT. rewrite (Huniq x T Hx HT). split; intros HT0.
    + rewrite HT0 in Hq0. by apply not_elem_of_nil in Hq0.
    + exists (MkT lo (bound pts (i + 1) - 1) q false). split_and!; [by right|unfold has; simpl; lia..|done].
Qed.

(** ** The loop *)

(** The states below [p] are expanded, the others are queued. *)
Record expanded (p d : Z) (s : Subset.st) (Er : edges) : Prop := {
  exp_numbered : numbered d s Er;
  exp_reached : reached (zlen (Subset.subsets s)) Er;
  exp_paid : d0 <= d;
  exp_range : 0 <= p <= zlen (Subset.subsets s);
  exp_pending : Subset.pending s = seqZ p (zlen (Subset.subsets s) - p);
  exp_moves : forall q S x, q < p -> (Subset.subsets s).[q] = Some S -> moves (Subset.subsets s) Er q S x;
  exp_none : forall q u, Er q u -> q < p }.

(** The symbols below the first interval and above the last one. *)
Lemma moves_below subsets Er p S pts x : (forall x, x ∈ pts <-> boundary S x) -> increasing pts ->
  (forall u, Er p u -> False) -> x < bound pts 0 -> moves subsets Er p S x.
Proof.
  intros Hpts Hinc Hno Hx T [_ HT]. split; [by intros _ u Hu%Hno|]. intros HT0. destruct T as [|q T]; [done|].
  destruct (proj1 (HT q) ltac:(left)) as (s & u & Hs & Hu & Hux & _). exfalso.
  assert (tmin u ∈ pts) as (j & Hj)%zget_elem by (apply Hpts; exists s, u; by split_and!; [..|left]).
  pose proof (zget_Some_range _ _ _ Hj). destruct (zget_in pts 0) as [y Hy]; [lia|]. unfold bound in Hx. rewrite Hy in Hx. simpl in Hx.
  assert (y <= tmin u).
  { destruct (decide (j = 0)) as [->|]; [simplify_eq; lia|]. pose proof (increasing_zget _ _ _ _ _ Hinc Hy Hj ltac:(lia)). lia. }
  unfold has in Hux. lia.
Qed.

Lemma moves_above subsets (Er : edges) p S x : (forall u, Er p u -> tmax u < 0x110000) -> 0x110000 <= x -> moves subsets Er p S x.
Proof.
  intros Hle Hx T [_ HT]. split; [intros _ u Hu%Hle Hux; unfold has in Hux; lia|]. intros HT0. destruct T as [|q T]; [done|].
  destruct (proj1 (HT q) ltac:(left)) as (s & u & Hs & Hu & Hux & _). apply Hlab in Hu. unfold has in Hux. lia.
Qed.

(** What is left to do: subsets not numbered yet, and queued states. *)
Definition todo (s : Subset.st) : nat := (2 ^ Z.to_nat n - length (Subset.subsets s)) + length (Subset.pending s).

Lemma todo_extends d s s' Er pending' : numbered d s' Er -> extends (Subset.Make (Subset.subsets s) (Subset.subsetToState s) pending' (Subset.result s)) s' ->
  Subset.pending s <> [] -> pending' = tail (Subset.pending s) -> (todo s' < todo s)%nat.
Proof.
  intros Hnum (new & E1 & E2) Hne ->. unfold todo. simpl in *.
  pose proof (subsets_bound (Subset.subsets s') n ltac:(pose proof (nfa_pos _ _ _ _ _ Ha); lia) (num_nodup _ _ _ Hnum)) as Hb.
  rewrite E1, E2, !length_app, length_seqZ in *. destruct (Subset.pending s) as [|x l]; [done|]. simpl.
  assert (length (Subset.subsets s) + length new <= 2 ^ Z.to_nat n)%nat; [|unfold zlen; lia].
  apply Hb. intros S (i & HSi)%zget_elem. rewrite <- E1 in HSi. apply (num_sub _ _ _ Hnum) in HSi as (? & _ & ?). done.
Qed.

Lemma expand_spec p d s Er Err : expanded p d s Er ->
  spends d (Subset.expand a s) Err (fun x d' => match x with
    | inl s' => (exists Er', expanded (p + 1) d' s' Er') /\ (todo s' < todo s)%nat
    | inr r => exists s' Er', r = Subset.result s' /\ expanded (zlen (Subset.subsets s')) d' s' Er' end).
Proof.
  intros []. unfold Subset.expand. destruct (Subset.pending s) as [|p' rest] eqn:Ep.
  { apply spends_ret. exists s, Er. split; [done|]. assert (p = zlen (Subset.subsets s)) as <-.
    2: { split; try done. by rewrite Ep. }
    destruct (decide (p = zlen (Subset.subsets s))) as [|]; [done|]. rewrite seqZ_cons in exp_pending0 by lia. done. }
  assert (p < zlen (Subset.subsets s)) as Hp.
  { apply Z.nle_gt. intros Hle. rewrite seqZ_nil in exp_pending0 by lia. done. }
  rewrite seqZ_cons in exp_pending0 by lia. injection exp_pending0 as -> Erest.
  destruct (zget_in (Subset.subsets s) p) as [S HS]; [lia|]. pose proof (num_sub _ _ _ exp_numbered0 _ _ HS) as (HS1 & HS2 & HS3).
  eapply spends_need_bind; [exact HS|]. destruct (points_spec S HS3) as (pts & Ept & Hinc & Hpts). eapply spends_need_bind; [exact Ept|].
  set (s0 := Subset.Make _ _ rest _). assert (numbered d s0 Er) as Hn0 by (destruct exp_numbered0; by split).
  eapply spends_bind.
  - apply (spends_seq (fun i s' d' => exists Er', numbered d' s' Er' /\ reached (zlen (Subset.subsets s')) Er' /\ extends s0 s' /\ grows p Er Er'
      /\ (forall u, Er' p u -> tmax u < bound pts i) /\ forall x, x < bound pts i -> moves (Subset.subsets s') Er' p S x)); [apply zlen_nonneg| |].
    + exists Er. split_and!; [done|done|apply extends_refl|done| |].
      * intros u Hu%exp_none0. lia.
      * intros x Hx. eapply moves_below; [done|done| |done]. intros u Hu%exp_none0. lia.
    + intros i s1 d1 Hd1 Hi (Er1 & N1 & R1 & X1 & [G1 G1'] & B1 & M1). destruct (zget_in pts i) as [lo Hlo]; [lia|].
      assert (bound pts i = lo) as Eb by (unfold bound; by rewrite Hlo).
      assert ((Subset.subsets s1).[p] = Some S) as HS'. { destruct X1 as (new & -> & _). by apply zget_app_Some. }
      eapply spends_post; [eapply (interval_spec d1 s1 Er1 p S pts i lo); [lia|done..|by rewrite <- Eb]|].
      intros s2 d2 Hd2 (Er2 & N2 & R2 & X2 & [G2 G2'] & B2 & M2). exists Er2.
      pose proof (bound_before S pts Hinc Hpts i lo Hlo) as Hb.
      split_and!; [done|done|by eapply extends_trans|split; auto| |].
      * intros u [Hu%B1|[_ ->]]%B2; lia.
      * intros x Hx. destruct (decide (x < lo)) as [Hxl|]; [|apply M2; lia].
        intros T HT. destruct (M1 x ltac:(lia) T HT) as [Ha1 Ha2]. split.
        -- intros HT0 u [Hu|[Hu _]]%B2 Hux; [by eapply Ha1|unfold has in Hux; lia].
        -- intros HT0. destruct (Ha2 HT0) as (u & Hu & Hux & Hsu). exists u. split_and!; [by apply G2|done|].
           destruct X2 as (new & -> & _). by apply zget_app_Some.
  - intros s1 d1 Hd1 (Er1 & N1 & R1 & X1 & [G1 G1'] & B1 & M1). apply spends_ret.
    assert (bound pts (zlen pts) = 0x110000) as Eb.
    { unfold bound. destruct (pts.[zlen pts]) as [y|] eqn:Hy; [apply zget_Some_range in Hy; lia|done]. }
    rewrite Eb in *. split; [|eapply todo_extends; [exact N1|exact X1|by rewrite Ep|by rewrite Ep]].
    exists Er1. destruct X1 as (new & E1 & P1). simpl in E1, P1. pose proof (zlen_nonneg new).
    split; [done|done|lia|rewrite E1, zlen_app; lia| | |].
    + rewrite P1, E1, zlen_app, Erest. replace (zlen (Subset.subsets s) + zlen new - (p + 1)) with ((zlen (Subset.subsets s) - p - 1) + zlen new) by lia.
      rewrite seqZ_app by lia. f_equal; f_equal; lia.
    + intros q S' x Hq HS'. destruct (decide (q = p)) as [->|Hqp].
      * assert (S' = S) as ->. { rewrite E1 in HS'. rewrite zget_app_l, HS in HS' by lia. by injection HS'. }
        destruct (decide (x < 0x110000)); [by apply M1|]. apply moves_above; [done|lia].
      * pose proof (zget_Some_range _ _ _ HS'). rewrite E1 in HS' |- *. rewrite zget_app_l in HS' by lia.
        eapply moves_mono; [exact Hqp|exact G1|exact G1'|]. apply exp_moves0; [lia|done].
    + intros q u Hu. destruct (decide (q = p)) as [->|Hqp]; [lia|]. apply (G1' q u Hqp) in Hu. apply exp_none0 in Hu. lia.
Qed.

Lemma next_set_exists S x : states_of S -> exists T, next_set S x T.
Proof. intros HS. destruct (destination_spec S x HS) as (l & _ & Hl). by exists (sort_unique l). Qed.

(** A numbered subset accepts what its members accept. *)
Lemma subset_language d s Er :
  expanded (zlen (Subset.subsets s)) d s Er ->
  forall w q S, (Subset.subsets s).[q] = Some S ->
    from plain Er (fun i => existsb F (default [] (Subset.subsets s).[i])) q w <-> exists x, x ∈ S /\ from plain E F x w.
Proof.
  intros []. induction w as [|x w IH]; intros q S HS.
  - rewrite from_plain_nil, HS. simpl. rewrite existsb_exists. setoid_rewrite from_plain_nil. by setoid_rewrite <- list_elem_of_In.
  - rewrite from_plain_cons. setoid_rewrite from_plain_cons. pose proof (zget_Some_range _ _ _ HS) as Hq.
    destruct (num_sub _ _ _ exp_numbered0 _ _ HS) as (_ & _ & HS3). destruct (next_set_exists S x HS3) as [T HT].
    destruct (exp_moves0 q S x ltac:(lia) HS T HT) as [M1 M2]. destruct HT as [_ HT]. split.
    + intros (u & Hu & Hux & Hw). destruct (decide (T = [])) as [->|HT0]; [by destruct (M1 eq_refl u Hu)|].
      destruct (M2 HT0) as (u' & Hu' & Hux' & Hs'). rewrite (det_has _ _ _ _ _ (num_det _ _ _ exp_numbered0) Hu Hu' Hux Hux') in Hw.
      apply (IH _ T Hs') in Hw as (y & (s1 & v & Hs1 & Hv & Hvx & ->)%HT & Hy). exists s1. split; [done|]. by exists v.
    + intros (s1 & Hs1 & v & Hv & Hvx & Hw). assert (dest v ∈ T) as Hin by (apply HT; by exists s1, v).
      assert (T <> []) as HT0 by (intros ->; by apply not_elem_of_nil in Hin).
      destruct (M2 HT0) as (u & Hu & Hux & Hs'). exists u. split_and!; [done..|]. apply (IH _ T Hs'). by exists (dest v).
Qed.
End SubsetConstruction.

(** * Deterministic automata *)

Definition simple_rows (a : t) : Prop := exists rows acc, frozen_rows a rows acc /\ Forall NoDup rows.

(** At most one transition for each state and symbol, and every state is reached. *)
Record dfa (d : Z) (a : t) (n : Z) (E : edges) (F : Z -> bool) : Prop := {
  dfa_nfa : nfa d a n E F;
  dfa_det : det E;
  dfa_simple : simple_rows a;
  dfa_reached : reached n E }.

Lemma freeze_simple d a n E F Er : bld d a n E F -> 0 < n -> Forall NoDup (building a) ->
  spends d (freeze a) Er (fun a' d' => nfa d' a' n E F /\ simple_rows a').
Proof.
  intros (rows & acc & -> & Hs) Hn Hnd. eapply spends_post; [apply freeze_rows; destruct Hs; lia|].
  intros a' d' Hd Hf. simpl in Hnd. split.
  - split; [done|]. eexists _, acc. split; [exact Hf|]. by apply shape_sorted, (shape_mono d).
  - eexists _, acc. split; [exact Hf|]. apply Forall_fmap. eapply Forall_impl; [exact Hnd|]. intros row Hr. simpl. by rewrite merge_sort_Permutation.
Qed.

Lemma dfa_from d a n E F s : dfa d a n E F -> d < int32_limit -> 0 <= s < n ->
  exists l, transitionsFrom a s = Some l /\ NoDup l /\ forall u, u ∈ l <-> E s u.
Proof.
  intros Ha Hd Hs. pose proof (dfa_nfa _ _ _ _ _ Ha) as Hn. destruct (nfa_from d a n E F s Hn Hd Hs) as (l & El & Hl).
  exists l. split_and!; [done| |done]. pose proof (nfa_size _ _ _ _ _ Hn Hd) as Hsz.
  destruct (dfa_simple _ _ _ _ _ Ha) as (rows & acc & Hf & Hnd). destruct Hn as (_ & rows' & acc' & Hf' & Hshape).
  assert (zlen rows = n) as Hz.
  { destruct Hf as (offs & E1 & Hz1 & _), Hf' as (offs' & E2 & Hz2 & _). rewrite E1 in E2. injection E2 as _ -> _.
    pose proof (shape_rows _ _ _ _ _ _ Hshape). lia. }
  destruct (zget_in rows s) as [row Hrow]; [lia|]. rewrite (frozen_from a rows acc s row Hf ltac:(lia) Hrow) in El. injection El as <-.
  rewrite Forall_forall in Hnd. apply Hnd. by eapply zget_elem_1.
Qed.

Lemma nfa_size_0 d a n E F : nfa d a n E F -> d < int32_limit -> size a <> 0.
Proof. intros Ha Hd. rewrite (nfa_size _ _ _ _ _ Ha Hd). pose proof (nfa_pos _ _ _ _ _ Ha). lia. Qed.

Lemma start_expanded d n E F d1 r : d <= d1 -> 0 < n ->
  bld d1 r 1 (fun _ _ => False) (fun s => if decide (s = 0) then F 0 else false) -> building r = [[]] ->
  expanded d n E F 0 d1 (Subset.Make [[0]] {[ [0] := 0 ]} [0] r) (fun _ _ => False).
Proof.
  intros Hd Hn Hb Hr. split; simpl; [| |lia|done|done|intros q S x Hq HS%zget_Some_range; lia|by intros].
  - assert (forall i S, [[0]].[i] = Some S <-> i = 0 /\ S = [0]) as H1.
    { intros i S. split; [|by intros [-> ->]]. intros H. pose proof (zget_Some_range _ _ _ H) as Hr'. change (zlen [[0]]) with 1 in Hr'.
      assert (i = 0) as -> by lia. by injection H as <-. }
    split; simpl; [..|intros ? ? ? []|intros ? ? []].
    + intros i S [-> ->]%H1. split_and!; [repeat constructor|done|]. by intros s ->%list_elem_of_singleton; lia.
    + done.
    + apply NoDup_singleton.
    + intros S i. rewrite H1. rewrite lookup_singleton_Some. naive_solver.
    + refine (bld_ext _ _ 1 _ _ _ _ _ _ Hb); [done|]. intros s Hs. assert (s = 0) as -> by lia. simpl. by rewrite orb_false_r.
    + rewrite Hr. repeat constructor.
  - intros q Hq. change (zlen [[0]]) with 1 in Hq. assert (q = 0) as -> by lia. exists []. constructor.
Qed.

(** The subset construction keeps the language, and its labels lie in those of the given automaton. *)
Lemma determinize_spec d a n E F Err : nfa d a n E F -> (forall s u, E s u -> tmax u <= 0x10ffff) ->
  spends d (determinize a) Err (fun r d' => exists n' E' F', dfa d' r n' E' F' /\ lang plain E' F' ≡ lang plain E F
    /\ forall q u, E' q u -> exists s v, E s v /\ tmin v <= tmin u /\ tmax u <= tmax v).
Proof.
  intros Ha Hlab. apply spends_small. intros Hd. unfold determinize. rewrite decide_False by (by eapply nfa_size_0).
  pose proof (nfa_pos _ _ _ _ _ Ha) as Hn. assert (0 <= d) as Hd0 by (destruct Ha as (_ & ? & ? & _ & []); lia).
  eapply spends_need_bind; [apply (nfa_accept _ _ _ _ _ 0 Ha); lia|].
  eapply spends_bind; [apply addState_raw, bld_init; done|]. intros [i r] d1 Hd1 (_ & Hb & Hr). simpl in Hb, Hr.
  eapply spends_bind.
  - apply (spends_while (fun s d' => exists p Er, expanded d n E F p d' s Er) (todo n) _
      (fun r d' => exists s' Er', r = Subset.result s' /\ expanded d n E F (zlen (Subset.subsets s')) d' s' Er')).
    + intros s d' (p & Er & Hx). eapply spends_post; [by apply (expand_spec a d n E F Ha Hd Hlab p d' s Er)|]. intros [s'|r'] d2 _ H; [|exact H].
      destruct H as [[Er' H1] H2]. split; [|done]. by exists (p + 1), Er'.
    + exists 0, (fun _ _ => False). apply (start_expanded d n E F d1 r); [lia|done..].
    + unfold todo. simpl. destruct Ha as (_ & rows & acc & (offs & -> & _) & []). simpl.
      assert (Z.to_nat n = length acc) as -> by (unfold zlen in *; lia). pose proof (Nat.pow_nonzero 2 (length acc)). simpl. lia.
  - intros r' d2 Hd2 (s & Er & -> & Hx). pose proof Hx as []. pose proof exp_numbered0 as [].
    assert (0 < zlen (Subset.subsets s)) by (apply zget_Some_range in num_start0; lia).
    eapply spends_post; [eapply freeze_simple; [exact num_bld0|done..]|]. intros a' d' Hd' [H1 H2].
    eexists _, _, _. split; [by split|]. split; [|done].
    intros w. unfold lang. rewrite (subset_language a d n E F Ha Hd d2 s Er Hx w 0 [0] num_start0). split.
    + by intros (x & ->%list_elem_of_singleton & Hw).
    + intros Hw. exists 0. split; [left|done].
Qed.
