(* ===== verification/LiveStates.v ===== *)
(** Searches in automata: [Automaton::removeDeadStates] and [isEmpty] of [util/automaton/Automaton.cpp].

    Both search from a queue of marked states.  The search is shown to end and to mark what can be reached ([graph_search_spec]).
    [removeDeadStates] gives a deterministic automaton with the same language in which every state is live, or one that accepts nothing. *)

From S2P Require Import Prelude Metered Languages CaseAlternates Automata Determinize.

Import Automaton.

(** A search from a queue of marked states: the marks are a vector, [next] lists the states to visit from one. *)
Definition visit (marks : list bool) (queue : list Z) (state : Z) : option (list bool * list Z) :=
  seen ← marks.[state];
  if seen : bool then Some (marks, queue) else
  marks ← zset marks state true;
  Some (marks, queue ++ [state]).

Definition search (next : Z -> option (list Z)) (st : list bool * list Z) : option ((list bool * list Z) + list bool)%type :=
  let '(marks, queue) := st in
  match queue with
  | [] => Some (inr marks)
  | state :: queue =>
      l ← next state;
      st ← foldM (fun '(marks, queue) q => visit marks queue q) (marks, queue) l;
      Some (inl st)
  end.

(** The search against the direction of the transitions, from the accepting states: [reverse[dest].push_back(state)] for all
    transitions, and the accepting states as the first queue. *)
Section Backward.
Context {A : Type} (rows : Z -> option (list A)) (to : A -> Z) (acc : Z -> option bool) (n : Z).

Definition reverseEdges : option (list (list Z)) :=
  foldM (fun reverse state =>
    l ← rows state;
    foldM (fun reverse tr => row ← reverse.[to tr]; zset reverse (to tr) (row ++ [state])) reverse l)
  (replicate (Z.to_nat n) []) (seqZ 0 n).

Definition markAccepting : option (list bool * list Z) :=
  foldM (fun '(live, pending) state =>
      a ← acc state;
      if a : bool then live ← zset live state true; Some (live, pending ++ [state]) else Some (live, pending))
    (replicate (Z.to_nat n) false, []) (seqZ 0 n).

Definition backward (N : nat) : option (list bool) :=
  reverse ← reverseEdges;
  start ← markAccepting;
  whileO N (search (zget reverse)) start.
End Backward.

(** The [live] vector of [removeDeadStates]. *)
Definition liveStates (a : t) : option (list bool) :=
  backward (transitionsFrom a) dest (accept a) (size a) (S (length (accepts a))).

Definition removeDeadStates (a : t) : SM Budget t :=
  live ← need (liveStates a);
  live0 ← need live.[0];
  if negb live0 then empty else
  '(stateMap, result) ← foldS (fun '(stateMap, result) state =>
      lv ← need live.[state];
      if lv : bool then
        stateMap ← need (zset stateMap state (size result));
        acc ← need (accept a state);
        '(_, result) ← addState acc result;
        mret (stateMap, result)
      else mret (stateMap, result))
    (replicate (Z.to_nat (size a)) (-1), init) (seqZ 0 (size a));
  result ← foldS (fun result state =>
      lv ← need live.[state];
      if negb lv then mret result else
      l ← need (transitionsFrom a state);
      foldS (fun result tr =>
        lv ← need live.[dest tr];
        if lv : bool then
          src ← need stateMap.[state];
          to ← need stateMap.[dest tr];
          addTransition src (tmin tr) (tmax tr) to (bytes tr) result
        else mret result) result l)
    result (seqZ 0 (size a));
  freeze result.

(** [isEmpty], as the search over the states seen from the start, which stops at an accepting one. *)
Definition emptyStep (a : t) (st : list bool * list Z) : option ((list bool * list Z) + bool)%type :=
  let '(seen, pending) := st in
  match pending with
  | [] => Some (inr true)
  | state :: pending =>
      acc ← accept a state;
      if acc : bool then Some (inr false) else
      l ← transitionsFrom a state;
      st ← foldM (fun '(seen, pending) tr => visit seen pending (dest tr)) (seen, pending) l;
      Some (inl st)
  end.

Definition isEmpty (a : t) : option bool :=
  seen ← zset (replicate (Z.to_nat (size a)) false) 0 true;
  whileO (S (length (accepts a))) (emptyStep a) (seen, [0]).

(** * Searches *)

Definition unmarked (marks : list bool) : nat := length (filter (fun b => b = false) marks).

Lemma unmarked_set marks i : marks !! i = Some false -> unmarked marks = S (unmarked (<[i := true]> marks)).
Proof.
  intros Hi. unfold unmarked. pose proof (lookup_lt_Some _ _ _ Hi) as Hlt. rewrite <- (take_drop_middle _ _ _ Hi) at 1.
  rewrite insert_take_drop by done. rewrite !filter_app, !length_app, !filter_cons. simpl. lia.
Qed.

(** Visiting several states marks them, and queues those that were not marked. *)
Lemma visits_spec l marks queue : (forall q, q ∈ l -> 0 <= q < zlen marks) ->
  exists marks' queue', foldM (fun '(marks, queue) q => visit marks queue q) (marks, queue) l = Some (marks', queue')
  /\ zlen marks' = zlen marks /\ (unmarked marks' + length queue' = unmarked marks + length queue)%nat
  /\ (forall q, marks'.[q] = Some true <-> marks.[q] = Some true \/ q ∈ l)
  /\ (forall q, q ∈ queue' <-> q ∈ queue \/ q ∈ l /\ marks.[q] = Some false).
Proof.
  revert marks queue. induction l as [|x l IH]; intros marks queue Hl; cbn [foldM].
  { exists marks, queue. split_and!; [done..| |]; intros q; rewrite ?elem_of_nil; naive_solver. }
  destruct (zget_in marks x) as [b Hb]; [apply Hl; left|]. destruct b.
  - assert (visit marks queue x = Some (marks, queue)) as -> by (unfold visit; by rewrite Hb). opt.
    destruct (IH marks queue) as (m2 & q2 & E & H1 & H2 & H3 & H4); [intros q Hq; apply Hl; by right|]. exists m2, q2.
    split_and!; [exact E|done..| |]; intros q; rewrite ?H3, ?H4, elem_of_cons; naive_solver.
  - pose proof (zget_Some_range _ _ _ Hb).
    assert (visit marks queue x = Some (<[Z.to_nat x := true]> marks, queue ++ [x])) as -> by (unfold visit; rewrite Hb; opt; by rewrite zset_in).
    opt.
    destruct (IH (<[Z.to_nat x := true]> marks) (queue ++ [x])) as (m2 & q2 & E & H1 & H2 & H3 & H4).
    { intros q Hq. rewrite zlen_insert. apply Hl. by right. }
    exists m2, q2. unfold zget in Hb. rewrite decide_True in Hb by lia. pose proof (unmarked_set _ _ Hb) as Hu.
    split_and!; [exact E|by rewrite zlen_insert in H1|rewrite length_app in H2; simpl in H2; lia| |].
    + intros q. rewrite H3, zget_insert, elem_of_cons by done. case_decide; naive_solver.
    + intros q. rewrite H4, zget_insert, elem_of_app, list_elem_of_singleton, elem_of_cons by done.
      assert (marks.[x] = Some false) by (unfold zget; by rewrite decide_True by lia). case_decide; naive_solver.
Qed.

Section Search.
Context (next : Z -> option (list Z)) (n : Z).
Context (Hnext : forall q, 0 <= q < n -> exists l, next q = Some l /\ forall x, x ∈ l -> 0 <= x < n).

Definition step (x y : Z) : Prop := exists l, next x = Some l /\ y ∈ l.

(** The search marks the states it can reach. *)
Lemma graph_search_spec N marks queue :
  zlen marks = n -> (unmarked marks + length queue < 2 ^ N)%nat -> (forall q, q ∈ queue <-> marks.[q] = Some true) ->
  exists marks', whileO N (search next) (marks, queue) = Some marks' /\ zlen marks' = n
    /\ forall q, marks'.[q] = Some true <-> exists q0, marks.[q0] = Some true /\ rtc step q0 q.
Proof.
  intros Hlen HN Hq0.
  apply (whileO_spec (fun st => zlen st.1 = n /\ (forall q, marks.[q] = Some true -> st.1.[q] = Some true)
      /\ (forall q, q ∈ st.2 -> st.1.[q] = Some true)
      /\ (forall q, st.1.[q] = Some true -> exists q0, marks.[q0] = Some true /\ rtc step q0 q)
      /\ (forall q x, st.1.[q] = Some true -> q ∉ st.2 -> step q x -> st.1.[x] = Some true))
    (fun st => (unmarked st.1 + length st.2)%nat)); [| |done].
  - intros [m queue'] (H1 & H2 & H3 & H4 & H5). cbn [fst snd] in *. unfold search. destruct queue' as [|p rest].
    + eexists. split; [done|]. split; [done|]. intros q. split; [apply H4|]. intros (q0 & Hq & Hr).
      apply H2 in Hq. induction Hr as [|x y z Hxy Hyz IH]; [done|]. apply IH. by apply (H5 x); [|apply not_elem_of_nil|].
    + pose proof (H3 p ltac:(left)) as Hp. pose proof (zget_Some_range _ _ _ Hp). destruct (Hnext p) as (l & El & Hl); [lia|].
      rewrite El. opt. destruct (visits_spec l m rest) as (m2 & q2 & E2 & V1 & V2 & V3 & V4); [intros q Hq; rewrite H1; by apply Hl|].
      rewrite E2. opt. eexists. split; [done|]. cbn [fst snd]. split; [|simpl; lia]. split_and!; [by rewrite V1| | | |].
      * intros q Hq. apply V3. left. by apply H2.
      * intros q [Hq|[Hq _]]%V4; apply V3; [left; apply H3; by right|by right].
      * intros q [Hq|Hq]%V3; [by apply H4|]. destruct (H4 p Hp) as (q0 & Hm & Hr). exists q0. split; [done|].
        eapply rtc_r; [exact Hr|]. by exists l.
      * intros q x Hq Hnq Hstep. apply V3. apply V3 in Hq. destruct (decide (q = p)) as [->|Hqp].
        -- destruct Hstep as (l' & El' & Hx). rewrite El in El'. injection El' as <-. by right.
        -- left. apply (H5 q); [|rewrite elem_of_cons; intros [?|?]; [done|apply Hnq, V4; by left]|done].
           destruct Hq as [Hq|Hq]; [done|]. destruct (zget_in m q) as [[] Hb]; [rewrite H1; by apply Hl|done|].
           destruct Hnq. apply V4. by right.
  - cbn [fst snd]. split_and!; [done|done| | |].
    + intros q. apply Hq0.
    + intros q Hq. exists q. split; [done|apply rtc_refl].
    + intros q x Hq Hn. destruct Hn. by apply Hq0.
Qed.
End Search.

(** The states from which an accepting one can be reached. *)
Section BackwardSpec.
Context {A : Type} (rows : Z -> option (list A)) (to : A -> Z) (acc : Z -> option bool) (n : Z) (F : Z -> bool).
Context (Hrows : forall x, 0 <= x < n -> exists l, rows x = Some l /\ forall u, u ∈ l -> 0 <= to u < n).
Context (Hacc : forall x, 0 <= x < n -> acc x = Some (F x)) (Hn : 0 <= n).

Definition edge_to (x y : Z) : Prop := 0 <= x < n /\ exists l u, rows x = Some l /\ u ∈ l /\ to u = y.

Lemma edge_to_row x y l : 0 <= x < n -> rows x = Some l -> edge_to x y <-> y ∈ to <$> l.
Proof.
  intros Hx El. rewrite list_elem_of_fmap. split.
  - intros (_ & l' & u & El' & Hu & <-). rewrite El in El'. injection El' as <-. by exists u.
  - intros (u & -> & Hu). split; [done|]. by exists l, u.
Qed.

Lemma edge_to_range x y : edge_to x y -> 0 <= x < n /\ 0 <= y < n.
Proof. intros (Hx & l & u & El & Hu & <-). split; [done|]. destruct (Hrows x Hx) as (l' & El' & Hl). rewrite El in El'. injection El' as <-. by apply Hl. Qed.

(** One row of transitions, reversed. *)
Lemma reverseRow_spec i l rev : 0 <= i < n -> rows i = Some l -> zlen rev = n ->
  (forall q, 0 <= q < n -> exists row, rev.[q] = Some row /\ forall x, x ∈ row <-> x < i /\ edge_to x q) ->
  exists rev', foldM (fun reverse tr => row ← reverse.[to tr]; zset reverse (to tr) (row ++ [i])) rev l = Some rev' /\ zlen rev' = n
    /\ forall q, 0 <= q < n -> exists row, rev'.[q] = Some row /\ forall x, x ∈ row <-> x < i + 1 /\ edge_to x q.
Proof.
  intros Hi El Hlen Hrev. destruct (Hrows i Hi) as (l' & El' & Hl). rewrite El in El'. injection El' as <-.
  destruct (foldM_ind (fun seen rev => zlen rev = n /\ forall q, 0 <= q < n -> exists row, rev.[q] = Some row /\
      forall x, x ∈ row <-> x < i /\ edge_to x q \/ x = i /\ q ∈ to <$> seen)
    (fun reverse tr => row ← reverse.[to tr]; zset reverse (to tr) (row ++ [i])) rev l) as (rev2 & E2 & L2 & H3).
  - split; [done|]. intros q Hq. destruct (Hrev q Hq) as (row & Hr & Hm). exists row. split; [done|]. intros x. rewrite Hm.
    split; [by left|]. intros [?|[_ ?%not_elem_of_nil]]; done.
  - intros seen u rest r Hsplit (Lr & Hr). assert (0 <= to u < n) as Hdu.
    { apply Hl. rewrite Hsplit. apply elem_of_app. right. left. }
    destruct (Hr (to u) Hdu) as (row & Er & Hm). rewrite Er. opt. rewrite zset_in by lia. eexists. split; [done|].
    split; [by rewrite zlen_insert|]. intros q Hq. rewrite zget_insert by lia. rewrite fmap_app. setoid_rewrite elem_of_app.
    destruct (decide (to u = q)) as [<-|Hne].
    + eexists. split; [done|]. intros x. rewrite elem_of_app, Hm, list_elem_of_singleton. simpl. rewrite list_elem_of_singleton. naive_solver.
    + destruct (Hr q Hq) as (row' & Er' & Hm'). exists row'. split; [done|]. intros x. rewrite Hm'. simpl. rewrite list_elem_of_singleton. naive_solver.
  - exists rev2. split; [done|]. split; [done|]. intros q Hq. destruct (H3 q Hq) as (row & Er & Hm). exists row. split; [done|].
    intros x. rewrite Hm, <- (edge_to_row i q l) by done. split.
    + intros [[? ?]|[-> ?]]; (split; [lia|done]).
    + intros (Hx & Hs). destruct (decide (x = i)) as [->|]; [by right|left; split; [lia|done]].
Qed.

Lemma reverseEdges_spec : exists rev, reverseEdges rows to n = Some rev /\ zlen rev = n /\ forall q, 0 <= q < n ->
  exists row, rev.[q] = Some row /\ forall x, x ∈ row <-> edge_to x q.
Proof.
  destruct (foldM_seqZ (fun i rev => zlen rev = n /\ forall q, 0 <= q < n -> exists row, rev.[q] = Some row /\ forall x, x ∈ row <-> x < i /\ edge_to x q)
    (fun reverse state => l ← rows state; foldM (fun reverse tr => row ← reverse.[to tr]; zset reverse (to tr) (row ++ [state])) reverse l)
    (replicate (Z.to_nat n) []) 0 n) as (rev & E1 & H1 & H2); [lia| | |].
  - split; [rewrite zlen_replicate; lia|]. intros q Hq. exists []. split.
    + unfold zget. rewrite decide_True by lia. apply lookup_replicate_2. lia.
    + intros x. split; [by intros ?%not_elem_of_nil|]. intros (Hx & [? _]%edge_to_range). lia.
  - intros i rev Hi (Hlen & Hrev). destruct (Hrows i Hi) as (l & El & _). rewrite El. opt.
    by apply reverseRow_spec.
  - exists rev. split; [done|]. split; [done|]. intros q Hq. destruct (H2 q Hq) as (row & Er & Hm). exists row. split; [done|].
    intros x. rewrite Hm. split; [naive_solver|]. intros Hs. split; [|done]. apply edge_to_range in Hs. lia.
Qed.

Lemma unmarked_replicate k : unmarked (replicate k false) = k.
Proof. unfold unmarked. induction k as [|k IH]; [done|]. cbn [replicate]. rewrite filter_cons_True by done. cbn [length]. by rewrite IH. Qed.

Lemma zget_replicate {B} (x y : B) k i : (replicate (Z.to_nat k) x).[i] = Some y -> y = x.
Proof. unfold zget. case_decide; [|done]. intros [? _]%lookup_replicate. done. Qed.

Lemma markAccepting_spec : exists m queue, markAccepting acc n = Some (m, queue) /\ zlen m = n /\ (unmarked m + length queue = Z.to_nat n)%nat
  /\ (forall q, m.[q] = Some true <-> 0 <= q < n /\ F q = true) /\ (forall q, q ∈ queue <-> m.[q] = Some true).
Proof.
  unfold markAccepting.
  destruct (foldM_seqZ (fun i st => zlen st.1 = n /\ (unmarked st.1 + length st.2 = Z.to_nat n)%nat
      /\ (forall q, st.1.[q] = Some true <-> 0 <= q < i /\ F q = true) /\ (forall q, q ∈ st.2 <-> st.1.[q] = Some true))
    (fun '(live, pending) state => a ← acc state;
      if a : bool then live ← zset live state true; Some (live, pending ++ [state]) else Some (live, pending))
    (replicate (Z.to_nat n) false, []) 0 n) as ([m queue] & E1 & H1 & H2 & H3 & H4); [lia| | |].
  - cbn [fst snd]. rewrite zlen_replicate, unmarked_replicate. split_and!; [lia|simpl; lia| |].
    + intros q. split; [by intros ?%zget_replicate|lia].
    + intros q. split; [by intros ?%not_elem_of_nil|by intros ?%zget_replicate].
  - intros i [m queue] Hi (H1 & H2 & H3 & H4). cbn [fst snd] in *. rewrite Hacc by lia. opt. destruct (F i) eqn:EF.
    + rewrite zset_in by lia. opt. eexists. split; [done|]. cbn [fst snd].
      assert (m !! Z.to_nat i = Some false) as Hmi.
      { destruct (zget_in m i) as [b Hb]; [lia|]. destruct b; [apply H3 in Hb; lia|]. unfold zget in Hb. by rewrite decide_True in Hb by lia. }
      split_and!; [by rewrite zlen_insert| | |].
      * pose proof (unmarked_set _ _ Hmi). rewrite length_app. simpl. lia.
      * intros q. rewrite zget_insert by lia. case_decide as Hiq; [subst q; split; [split; [lia|done]|done]|].
        rewrite H3. split; (intros [? ?]; split; [lia|done]).
      * intros q. rewrite elem_of_app, list_elem_of_singleton, H4, zget_insert by lia. case_decide; naive_solver.
    + eexists. split; [done|]. cbn [fst snd]. split_and!; [done..| |done]. intros q. rewrite H3. split; [intros [? ?]; split; [lia|done]|].
      intros [Hq HF]. destruct (decide (q = i)) as [->|]; [congruence|]. split; [lia|done].
  - cbn [fst snd] in *. by exists m, queue.
Qed.

Lemma backward_spec N : (Z.to_nat n < 2 ^ N)%nat -> exists lv, backward rows to acc n N = Some lv /\ zlen lv = n
  /\ forall q, lv.[q] = Some true <-> 0 <= q < n /\ exists f, rtc edge_to q f /\ F f = true.
Proof.
  intros HN. destruct reverseEdges_spec as (rev & Er & Lr & Hr), markAccepting_spec as (m & queue & E1 & H1 & H2 & H3 & H4).
  unfold backward. rewrite Er, E1. opt.
  destruct (graph_search_spec (zget rev) n) with (N := N) (marks := m) (queue := queue) as (lv & E2 & L2 & H5); [|done|by rewrite H2|done|].
  { intros q Hq. destruct (Hr q Hq) as (row & Erow & Hrow). exists row. split; [done|]. intros x Hx%Hrow. exact (proj1 (edge_to_range _ _ Hx)). }
  exists lv. split; [exact E2|]. split; [done|]. intros q. rewrite H5.
  assert (forall x y, 0 <= x < n -> step (zget rev) x y <-> edge_to y x) as Hstep.
  { intros x y Hx. destruct (Hr x Hx) as (row & Erow & Hrow). unfold step. rewrite Erow. rewrite <- Hrow. naive_solver. }
  split.
  - intros (q0 & [Hq0 HF]%H3 & Hr0). cut (0 <= q < n /\ rtc edge_to q q0); [intros [? ?]; split; [done|by exists q0]|]. clear HF.
    induction Hr0 as [x|x y z Hxy Hyz IH]; [done|]. apply Hstep in Hxy; [|done].
    destruct IH as [H6 H7]; [exact (proj1 (edge_to_range _ _ Hxy))|]. split; [done|]. by eapply rtc_r.
  - intros (Hq & f & Hr0 & HF). exists f. cut (0 <= f < n /\ rtc (step (zget rev)) f q); [intros [? ?]; split; [by apply H3|done]|]. clear HF.
    induction Hr0 as [x|x y z Hxy Hyz IH]; [done|].
    destruct (IH (proj2 (edge_to_range _ _ Hxy))) as [H6 H7]. split; [done|]. eapply rtc_r; [exact H7|]. apply Hstep; [|done].
    exact (proj2 (edge_to_range _ _ Hxy)).
Qed.
End BackwardSpec.

Section Reach.
Context (a : t) (d n : Z) (E : edges) (F : Z -> bool).
Context (Ha : nfa d a n E F) (Hd : d < int32_limit).

Definition succ (x y : Z) : Prop := exists u, E x u /\ dest u = y.

Lemma path_succ x y : rtc succ x y <-> exists w, path plain E x w y.
Proof.
  split.
  - induction 1 as [x|x y z (u & Hu & <-) _ [w IH]]; [exists []; constructor|].
    exists ([tmin u] ++ w). eapply path_step; [done| |done]. exists (tmin u). pose proof (nfa_ranges _ _ _ _ _ _ _ Ha Hu). split; [done|lia].
  - intros [w Hw]. induction Hw as [|x u v w y Hu Hr Hp IH]; [done|]. eapply rtc_l; [|exact IH]. by exists u.
Qed.

Definition live (q : Z) : Prop := exists w, from plain E F q w.

Lemma live_succ x : live x <-> exists f, rtc succ x f /\ F f = true.
Proof.
  unfold live, from. setoid_rewrite path_succ. naive_solver.
Qed.

Lemma from_in x : 0 <= x < n -> exists l, transitionsFrom a x = Some l /\ (forall u, u ∈ l <-> E x u) /\ forall q, q ∈ dest <$> l -> 0 <= q < n.
Proof.
  intros Hx. destruct (nfa_from d a n E F x Ha Hd Hx) as (l & E1 & H1). exists l. split_and!; [done..|].
  intros q (u & -> & Hu%H1)%list_elem_of_fmap. by apply (nfa_within _ _ _ _ _ Ha) in Hu as [_ ?].
Qed.

Lemma size_pow : (Z.to_nat n < 2 ^ S (length (accepts a)))%nat.
Proof.
  pose proof Ha as (_ & rows & acc & (offs & -> & _) & []). simpl. assert (Z.to_nat n = length acc) as -> by (unfold zlen in *; lia).
  pose proof (Nat.pow_gt_lin_r 2 (length acc) ltac:(lia)). lia.
Qed.

Lemma liveStates_spec : exists lv, liveStates a = Some lv /\ zlen lv = n /\ forall q, lv.[q] = Some true <-> 0 <= q < n /\ live q.
Proof.
  unfold liveStates. rewrite (nfa_size _ _ _ _ _ Ha Hd). pose proof (nfa_pos _ _ _ _ _ Ha) as Hn.
  assert (forall x, 0 <= x < n -> exists l, transitionsFrom a x = Some l /\ forall u, u ∈ l -> 0 <= dest u < n) as Hrows.
  { intros x Hx. destruct (from_in x Hx) as (l & El & _ & Hl). exists l. split; [done|]. intros u Hu. by apply Hl, list_elem_of_fmap_2. }
  destruct (backward_spec (transitionsFrom a) dest (accept a) n F Hrows) with (N := S (length (accepts a))) as (lv & E1 & L1 & H1).
  - intros x Hx. by apply (nfa_accept _ _ _ _ _ x Ha).
  - lia.
  - apply size_pow.
  - exists lv. split; [exact E1|]. split; [done|]. intros q. rewrite H1, live_succ.
    assert (forall x y, edge_to (transitionsFrom a) dest n x y <-> succ x y) as Hs.
    { intros x y. split.
      - intros (Hx & l & u & El & Hu & <-). destruct (from_in x Hx) as (l' & El' & Hl & _). rewrite El in El'. injection El' as <-. exists u. split; [by apply Hl|done].
      - intros (u & Hu & <-). pose proof (nfa_within _ _ _ _ _ Ha _ _ Hu) as [Hx _]. split; [done|]. destruct (from_in x Hx) as (l & El & Hl & _).
        exists l, u. split_and!; [done|by apply Hl|done]. }
    split; (intros (Hq & f & Hr & HF); split; [done|]; exists f; split; [|done]); (eapply rtc_subrel; [|exact Hr]); intros x y; by apply Hs.
Qed.

(** [isEmpty] decides whether no word is accepted. *)
Lemma isEmpty_spec : exists b, isEmpty a = Some b /\ (b = true <-> ~ live 0).
Proof.
  unfold isEmpty. rewrite (nfa_size _ _ _ _ _ Ha Hd). pose proof (nfa_pos _ _ _ _ _ Ha) as Hn.
  assert (zlen (replicate (Z.to_nat n) false) = n) as Hz by (rewrite zlen_replicate; lia). rewrite zset_in by lia. opt.
  apply (whileO_spec (fun st => zlen st.1 = n /\ st.1.[0] = Some true /\ (forall q, q ∈ st.2 -> st.1.[q] = Some true)
      /\ (forall q, st.1.[q] = Some true -> rtc succ 0 q)
      /\ (forall q, st.1.[q] = Some true -> q ∉ st.2 -> F q = false /\ forall x, succ q x -> st.1.[x] = Some true))
    (fun st => (unmarked st.1 + length st.2)%nat)).
  - intros [m queue] (H1 & H2 & H3 & H4 & H5). cbn [fst snd] in *. unfold emptyStep. destruct queue as [|p rest].
    + exists (inr true). split; [done|]. split; [|done]. intros _ (f & Hr & HF)%live_succ.
      assert (m.[f] = Some true) as Hf.
      { clear HF H4 Hn. revert H2. induction Hr as [x|x y z Hxy Hyz IH]; [done|]. intros Hx. apply IH. apply (H5 x); [done|apply not_elem_of_nil|done]. }
      destruct (H5 f Hf) as [HF' _]; [apply not_elem_of_nil|]. congruence.
    + pose proof (H3 p ltac:(left)) as Hp. pose proof (zget_Some_range _ _ _ Hp) as Hpr. rewrite (nfa_accept _ _ _ _ _ p Ha) by lia. opt.
      destruct (F p) eqn:EF.
      { exists (inr false). split; [done|]. split; [done|]. intros Hl. destruct Hl. apply live_succ. exists p. split; [by apply H4|done]. }
      destruct (from_in p) as (l & El & H6 & H7); [lia|]. rewrite El. opt.
      assert (foldM (fun '(seen, pending) tr => visit seen pending (dest tr)) (m, rest) l
        = foldM (fun '(seen, pending) q => visit seen pending q) (m, rest) (dest <$> l)) as ->.
      { clear. revert m rest. induction l as [|u l IH]; intros m rest; [done|]. cbn [foldM fmap list_fmap].
        destruct (visit m rest (dest u)) as [[m' r']|]; [apply IH|done]. }
      destruct (visits_spec (dest <$> l) m rest) as (m2 & q2 & E2 & V1 & V2 & V3 & V4); [by rewrite H1|].
      rewrite E2. opt. eexists. split; [done|]. cbn [fst snd]. split; [|simpl; lia]. split_and!; [by rewrite V1|apply V3; by left| | |].
      * intros q [Hq|[Hq _]]%V4; apply V3; [left; apply H3; by right|by right].
      * intros q [Hq|Hq]%V3; [by apply H4|]. apply list_elem_of_fmap in Hq as (u & -> & Hu%H6).
        eapply rtc_r; [by apply H4|]. by exists u.
      * intros q Hq Hnq. apply V3 in Hq. destruct (decide (q = p)) as [->|Hqp].
        -- split; [done|]. intros x (u & Hu%H6 & <-). apply V3. right. by apply list_elem_of_fmap_2.
        -- destruct Hq as [Hq|Hq].
           ++ destruct (H5 q Hq) as [H8 H9]; [rewrite elem_of_cons; intros [?|?]; [done|apply Hnq, V4; by left]|].
              split; [done|]. intros x Hx. apply V3. left. by apply H9.
           ++ destruct (zget_in m q) as [[] Hb]; [rewrite H1; by apply H7| |destruct Hnq; apply V4; by right].
              destruct (H5 q Hb) as [H8 H9]; [rewrite elem_of_cons; intros [?|?]; [done|apply Hnq, V4; by left]|].
              split; [done|]. intros x Hx. apply V3. left. by apply H9.
  - cbn [fst snd]. split_and!; [by rewrite zlen_insert|by rewrite zget_insert by lia| | |].
    + intros q ->%list_elem_of_singleton. by rewrite zget_insert by lia.
    + intros q. rewrite zget_insert by lia. case_decide; [by subst|by intros ?%zget_replicate].
    + intros q. rewrite zget_insert by lia. case_decide; [subst; intros _ Hq; destruct Hq; left|by intros ?%zget_replicate].
  - cbn [fst snd]. pose proof size_pow. assert (replicate (Z.to_nat n) false !! Z.to_nat 0 = Some false) as Hf by (apply lookup_replicate_2; lia).
    pose proof (unmarked_set _ _ Hf) as Hu. rewrite unmarked_replicate in Hu. simpl in *. lia.
Qed.
End Reach.

(** * Removing dead states *)

Section Trim.
Context (a : t) (d n : Z) (E : edges) (F : Z -> bool).
Context (Ha : dfa d a n E F) (Hd : d < int32_limit).
Context (lv : list bool) (Hlen : zlen lv = n) (Hlv : forall q, lv.[q] = Some true <-> 0 <= q < n /\ live E F q).

(** The live states in order; a live state is renamed to its rank. *)
Definition lives : list Z := filter (fun q => lv.[q] = Some true) (seqZ 0 n).
Definition rank (q : Z) : Z := count_lt lives q.

Lemma increasing_lives : increasing lives.
Proof. apply increasing_filter, increasing_seqZ. Qed.

Lemma elem_of_lives q : q ∈ lives <-> 0 <= q < n /\ live E F q.
Proof. unfold lives. rewrite list_elem_of_filter, Hlv, elem_of_seqZ. split; [tauto|]. intros ?. split; [done|lia]. Qed.

Lemma lives_lookup q : 0 <= q < n -> lv.[q] = Some (bool_decide (q ∈ lives)).
Proof.
  intros Hq. destruct (zget_in lv q) as [b Hb]; [lia|]. rewrite Hb. f_equal. case_bool_decide as H.
  - apply elem_of_lives, Hlv in H. rewrite Hb in H. by injection H.
  - destruct b; [|done]. destruct H. by apply elem_of_lives, Hlv.
Qed.

Lemma rank_zget q : q ∈ lives -> lives.[rank q] = Some q.
Proof.
  intros Hq. unfold rank. rewrite zget_count_lt by apply increasing_lives. apply first_ge_Some; [apply increasing_lives|].
  split_and!; [done|lia|lia].
Qed.

Lemma rank_range q : q ∈ lives -> 0 <= rank q < zlen lives.
Proof. intros Hq%rank_zget. by apply zget_Some_range in Hq. Qed.

Lemma rank_inj p q : p ∈ lives -> q ∈ lives -> rank p = rank q -> p = q.
Proof. intros Hp%rank_zget Hq%rank_zget E1. rewrite E1, Hq in Hp. by injection Hp. Qed.

Lemma rank_of q s : lives.[q] = Some s -> q = rank s /\ s ∈ lives.
Proof. intros H. split; [symmetry; apply count_lt_zget; [apply increasing_lives|done]|by eapply zget_elem_1]. Qed.

Lemma rank_succ i : rank (i + 1) = rank i + (if decide (i ∈ lives) then 1 else 0).
Proof.
  unfold rank. pose proof increasing_lives as Hinc. induction Hinc as [|x l Hl IH Hx]; [done|]. rewrite !count_lt_cons, IH.
  rewrite Forall_forall in Hx. repeat case_decide; rewrite ?elem_of_cons in *; try lia; try (exfalso; naive_solver lia).
Qed.

(** The transitions copied so far: those that [P] selects between live states. *)
Definition kept (P : Z -> Transition -> Prop) : edges := fun q u' =>
  exists s u, P s u /\ lives.[q] = Some s /\ E s u /\ dest u ∈ lives /\ u' = move rank u.
Definition kept_final : Z -> bool := fun q => F (default 0 lives.[q]).

Lemma kept_within P : within (zlen lives) (kept P).
Proof. intros q u' (s & u & _ & Hq & _ & Hu & ->). split; [by apply zget_Some_range in Hq|by apply rank_range]. Qed.

Lemma kept_inj P s v : s ∈ lives -> E s v -> dest v ∈ lives -> kept P (rank s) (move rank v) -> P s v.
Proof.
  intros Hs Hv Hdv (s' & u' & HP & Hs' & Hu' & Hdu & Em). rewrite (rank_zget s Hs) in Hs'. injection Hs' as <-.
  assert (u' = v) as ->; [|done]. destruct u', v. unfold move in Em. simpl in *. injection Em as -> -> Er ->. f_equal.
  symmetry. by apply rank_inj.
Qed.

Lemma kept_lang s w : s ∈ lives -> from plain (kept (fun _ _ => True)) kept_final (rank s) w <-> from plain E F s w.
Proof.
  revert s. induction w as [|x w IH]; intros s Hs.
  - rewrite !from_plain_nil. unfold kept_final. by rewrite (rank_zget s Hs).
  - rewrite !from_plain_cons. split.
    + intros (u' & (s' & u & _ & Hs' & Hu & Hdu & ->) & Hx & Hw). rewrite (rank_zget s Hs) in Hs'. injection Hs' as <-.
      exists u. split_and!; [done|exact Hx|]. by apply IH.
    + intros (u & Hu & Hx & Hw). assert (dest u ∈ lives) as Hdu.
      { apply elem_of_lives. split; [exact (proj2 (nfa_within _ _ _ _ _ (dfa_nfa _ _ _ _ _ Ha) _ _ Hu))|by exists w]. }
      exists (move rank u). split_and!; [|exact Hx|by apply IH]. exists s, u. split_and!; [done|by apply rank_zget|done..].
Qed.

Lemma kept_path s w f : path plain E s w f -> live E F f -> path plain (kept (fun _ _ => True)) (rank s) w (rank f).
Proof.
  intros Hw [v Hv]. induction Hw as [s|s u x y f Hu Hx Hp IH]; [constructor|].
  destruct (nfa_within _ _ _ _ _ (dfa_nfa _ _ _ _ _ Ha) _ _ Hu) as [Hs Hd1].
  assert (from plain E F (dest u) (y ++ v)) as Hl by (destruct Hv as (g & Hg & HF); exists g; split; [by eapply path_app|done]).
  eapply (path_step _ _ _ (move rank u)); [|exact Hx|by apply IH]. exists s, u. split_and!; [done|apply rank_zget|done| |done].
  - apply elem_of_lives. split; [done|]. exists (x ++ y ++ v). by eapply from_step.
  - apply elem_of_lives. split; [done|]. by exists (y ++ v).
Qed.

Lemma rank_0 : rank 0 = 0.
Proof. unfold rank. apply count_lt_none. intros x [? _]%elem_of_lives. lia. Qed.

Lemma kept_reached : reached (zlen lives) (kept (fun _ _ => True)).
Proof.
  intros q Hq. destruct (zget_in lives q) as [s Hs]; [done|]. apply rank_of in Hs as [-> Hs].
  pose proof Hs as [Hsr Hl]%elem_of_lives. destruct (dfa_reached _ _ _ _ _ Ha s Hsr) as [w Hw]. exists w.
  rewrite <- rank_0 at 1. by apply kept_path.
Qed.

Lemma kept_live q : 0 <= q < zlen lives -> live (kept (fun _ _ => True)) kept_final q.
Proof.
  intros Hq. destruct (zget_in lives q) as [s Hs]; [done|]. apply rank_of in Hs as [-> Hs].
  pose proof Hs as [_ [w Hw]]%elem_of_lives. exists w. by apply kept_lang.
Qed.

Lemma kept_det : det (kept (fun _ _ => True)).
Proof.
  intros q t1 t2 (s & u & _ & Hq & Hu & Hdu & ->) (s' & u' & _ & Hq' & Hu' & Hdu' & ->). rewrite Hq in Hq'. injection Hq' as <-.
  destruct (dfa_det _ _ _ _ _ Ha s u u' Hu Hu') as [->|H]; [by left|by right].
Qed.

(** ** The two loops *)

Definition renameLoop (i : Z) (st : list Z * t) (d' : Z) : Prop :=
  zlen st.1 = n /\ (forall q, q < i -> q ∈ lives -> st.1.[q] = Some (rank q))
  /\ bld d' st.2 (rank i) (fun _ _ => False) kept_final /\ Forall NoDup (building st.2).

Lemma rename_step i st d' Er : d <= d' -> 0 <= i < n -> renameLoop i st d' ->
  spends d' (let '(stateMap, result) := st in
    lv ← need lv.[i];
    if lv : bool then
      stateMap ← need (zset stateMap i (size result));
      acc ← need (accept a i);
      '(_, result) ← addState acc result;
      mret (stateMap, result)
    else mret (stateMap, result)) Er (renameLoop (i + 1)).
Proof.
  destruct st as [stateMap result]. intros Hd' Hi (H1 & H2 & H3 & H4). cbn [fst snd] in *.
  eapply spends_need_bind; [by apply lives_lookup|]. case_bool_decide as Hin.
  - apply spends_small. intros Hsm. rewrite (bld_size _ _ _ _ _ H3 Hsm).
    eapply spends_need_bind; [apply zset_in; lia|]. eapply spends_need_bind; [by apply (nfa_accept _ _ _ _ _ i (dfa_nfa _ _ _ _ _ Ha))|].
    eapply spends_bind; [by apply addState_raw|]. intros [j r] d2 _ (_ & B & Hb). cbn [fst snd] in *. apply spends_ret.
    unfold renameLoop. cbn [fst snd]. rewrite rank_succ, decide_True by done. split_and!; [by rewrite zlen_insert| | |].
    + intros q Hq Hql. rewrite zget_insert by lia. case_decide as E1; [by subst q|]. apply H2; [lia|done].
    + refine (bld_ext _ _ _ _ _ _ _ _ _ B); [done|]. intros q Hq. cbv beta. case_decide as E1; [|done]. subst q.
      unfold kept_final. by rewrite rank_zget.
    + rewrite Hb. apply Forall_app. split; [done|]. repeat constructor.
  - apply spends_ret. unfold renameLoop. cbn [fst snd]. rewrite rank_succ, decide_False, Z.add_0_r by done. split_and!; [done| |done..].
    intros q Hq Hql. apply H2; [|done]. assert (q <> i) by (by intros ->). lia.
Qed.

Definition copyLoop (P : Z -> Transition -> Prop) (result : t) (d' : Z) : Prop :=
  bld d' result (zlen lives) (kept P) kept_final /\ Forall NoDup (building result).

Lemma copyLoop_ext (P P' : Z -> Transition -> Prop) r d' :
  (forall s u, s ∈ lives -> dest u ∈ lives -> E s u -> P s u <-> P' s u) -> copyLoop P r d' -> copyLoop P' r d'.
Proof.
  intros HP [H1 H2]. split; [|done]. eapply bld_ext; [|done|exact H1]. intros q u'.
  split; intros (s & u & HPs & Hq & Hu & Hdu & ->); exists s, u; (split_and!; [|done..]); eapply HP; try done; by apply zget_elem_1 in Hq.
Qed.

Lemma copy_step P i u stateMap r d' Er :
  (forall q, q ∈ lives -> stateMap.[q] = Some (rank q)) -> i ∈ lives -> E i u -> ~ P i u -> copyLoop P r d' ->
  spends d' (lv ← need lv.[dest u];
    if lv : bool then
      src ← need stateMap.[i];
      to ← need stateMap.[dest u];
      addTransition src (tmin u) (tmax u) to (bytes u) r
    else mret r) Er (copyLoop (fun s v => P s v \/ s = i /\ v = u)).
Proof.
  intros Hmap Hi Hu HnP [B N]. pose proof (nfa_within _ _ _ _ _ (dfa_nfa _ _ _ _ _ Ha) _ _ Hu) as [_ Hdu].
  eapply spends_need_bind; [by apply lives_lookup|]. case_bool_decide as Hin.
  - eapply spends_need_bind; [by apply Hmap|]. eapply spends_need_bind; [by apply Hmap|].
    eapply spends_post; [apply (addTransition_simple _ _ _ _ _ _ _ _ _ _ _ B N)|].
    + by apply rank_range.
    + by apply rank_range.
    + by eapply (nfa_ranges _ _ _ _ _ _ _ (dfa_nfa _ _ _ _ _ Ha)).
    + intros Hk. apply HnP. by eapply kept_inj.
    + intros r' d2 _ [B' N']. split; [|done]. eapply bld_ext; [|done|exact B']. intros q u'. split.
      * intros [(s & v & HP & Hq & Hv & Hdv & ->)|[-> ->]].
        -- exists s, v. split_and!; [by left|done..].
        -- exists i, u. split_and!; [by right|by apply rank_zget|done..].
      * intros (s & v & [HP|[-> ->]] & Hq & Hv & Hdv & ->); [left; by exists s, v|right]. by apply rank_of in Hq as [-> _].
  - apply spends_ret. eapply copyLoop_ext; [|by split]. intros s v Hs Hv _. split; [by left|]. intros [?|[-> ->]]; done.
Qed.

Lemma copy_row i r d' stateMap Er : d <= d' -> 0 <= i < n ->
  (forall q, q ∈ lives -> stateMap.[q] = Some (rank q)) -> copyLoop (fun s _ => s < i) r d' ->
  spends d' (lv' ← need lv.[i];
    if negb lv' then mret r else
    l ← need (transitionsFrom a i);
    foldS (fun result tr =>
      lv' ← need lv.[dest tr];
      if lv' : bool then
        src ← need stateMap.[i];
        to ← need stateMap.[dest tr];
        addTransition src (tmin tr) (tmax tr) to (bytes tr) result
      else mret result) r l) Er (copyLoop (fun s _ => s < i + 1)).
Proof.
  intros Hd' Hi Hmap Hc. eapply spends_need_bind; [by apply lives_lookup|]. case_bool_decide as Hin; simpl.
  - destruct (dfa_from d a n E F i Ha Hd Hi) as (l & El & Hnd & Hl). eapply spends_need_bind; [exact El|]. eapply spends_post.
    + apply (spends_fold (fun seen => copyLoop (fun s v => s < i \/ s = i /\ v ∈ seen))).
      * eapply copyLoop_ext; [|exact Hc]. intros s u _ _ _. rewrite elem_of_nil. tauto.
      * intros seen u rest r' d2 _ Hsplit Hc'. eapply spends_post; [apply (copy_step (fun s v => s < i \/ s = i /\ v ∈ seen) i u stateMap r' d2 Er Hmap Hin); [| |exact Hc']|].
        -- apply Hl. rewrite Hsplit. apply elem_of_app. right. left.
        -- intros [?|[_ Hu]]; [lia|]. rewrite Hsplit in Hnd. apply NoDup_app in Hnd as (_ & Hnd & _). apply (Hnd u Hu). left.
        -- intros r2 d3 _. apply copyLoop_ext. intros s v _ _ _. rewrite elem_of_app, list_elem_of_singleton. tauto.
    + intros r' d2 _. apply copyLoop_ext. intros s v _ _ Hv. split.
      * intros [?|[-> _]]; lia.
      * intros ?. destruct (decide (s = i)) as [->|]; [right; split; [done|by apply Hl]|left; lia].
  - apply spends_ret. eapply copyLoop_ext; [|exact Hc]. intros s u Hs _ _. split; [lia|]. intros ?. assert (s <> i) by (by intros ->). lia.
Qed.
End Trim.

Lemma empty_dfa d Er : 0 <= d -> spends d empty Er (fun r d' => dfa d' r 1 (fun _ _ => False) (fun _ => false)).
Proof.
  intros Hd. eapply spends_bind; [apply addState_raw, bld_init; done|]. intros [i r] d1 _ (_ & Hb & Hr). simpl in Hb, Hr.
  eapply spends_post; [eapply freeze_simple; [exact Hb|lia|rewrite Hr; repeat constructor]|]. intros r2 d2 _ [H1 H2].
  split; [|intros ? ? ? []|done|].
  - destruct H1 as (H1 & rows & acc & Hf & Hs). split; [done|]. exists rows, acc. split; [done|]. destruct Hs as [R1 R2 R3 R4 R5 R6 R7]. split; try done.
    intros s Hs. rewrite R7 by lia. by assert (s = 0) as -> by lia.
  - intros q Hq. assert (q = 0) as -> by lia. exists []. constructor.
Qed.

(** What is left of a deterministic automaton has the same language; every state is live, or no word is accepted. *)
Lemma removeDeadStates_spec d a n E F Err : dfa d a n E F ->
  spends d (removeDeadStates a) Err (fun r d' => exists n' E' F', dfa d' r n' E' F' /\ lang plain E' F' ≡ lang plain E F
    /\ (forall q u, E' q u -> exists s v, E s v /\ tmin v = tmin u /\ tmax v = tmax u)
    /\ ((forall q, 0 <= q < n' -> live E' F' q) \/ ~ live E' F' 0)).
Proof.
  intros Ha. pose proof (dfa_nfa _ _ _ _ _ Ha) as Hnfa. apply spends_small. intros Hd.
  pose proof (nfa_pos _ _ _ _ _ Hnfa) as Hn. assert (0 <= d) as Hd0 by (destruct Hnfa as (_ & ? & ? & _ & []); lia).
  destruct (liveStates_spec a d n E F Hnfa Hd) as (lv & Elv & Hlen & Hlv). unfold removeDeadStates. eapply spends_need_bind; [exact Elv|].
  eapply spends_need_bind; [apply (lives_lookup n E F lv Hlen Hlv); lia|]. case_bool_decide as H0; simpl.
  2: { eapply spends_post; [by apply empty_dfa|]. intros r d' _ Hr. eexists _, _, _. split; [exact Hr|].
    assert (forall w, ~ from plain (fun _ _ => False) (fun _ => false) 0 w) as Hno by (by intros w [[_ ?]|(? & ? & ? & _ & [] & _)]%from_inv).
    split_and!; [|by intros|right; intros [w Hw]; by eapply Hno].
    intros w. split; [intros Hw; by destruct (Hno w)|]. intros Hw. destruct H0. apply (elem_of_lives n E F lv Hlv). split; [lia|by exists w]. }
  rewrite (nfa_size _ _ _ _ _ Hnfa Hd). eapply spends_bind.
  { apply (spends_seq (renameLoop n F lv)); [lia| |].
    - unfold renameLoop. cbn [fst snd]. rewrite zlen_replicate, (rank_0 n E F lv Hlv). split_and!; [lia| | |].
      + intros q Hq [? _]%(elem_of_lives n E F lv Hlv). lia.
      + refine (bld_ext _ _ _ _ _ _ _ _ _ (bld_init d Hd0)); [done|lia].
      + apply List.Forall_nil.
    - intros i [sm r] d' Hd' Hi Hst. exact (rename_step a d n E F Ha lv Hlen Hlv i (sm, r) d' Err Hd' Hi Hst). }
  intros [stateMap r1] d1 Hd1 (H1 & H2 & H3 & H4). cbn [fst snd] in *.
  assert (rank n lv n = zlen (lives n lv)) as Hrn.
  { apply count_lt_all. intros x [? _]%(elem_of_lives n E F lv Hlv). lia. }
  rewrite Hrn in H3. eapply spends_bind.
  { apply (spends_seq (fun i => copyLoop n E F lv (fun s _ => s < i))); [lia| |].
    - split; [|done]. eapply bld_ext; [|done|exact H3]. intros q u. split; [done|]. intros (s & v & Hs & Hq & _).
      apply (rank_of n lv) in Hq as [_ [? _]%(elem_of_lives n E F lv Hlv)]. lia.
    - intros i r d' Hd' Hi Hr. apply (copy_row a d n E F Ha Hd lv Hlen Hlv); [lia|done| |done].
      intros q Hq. apply H2; [|done]. apply (elem_of_lives n E F lv Hlv) in Hq. lia. }
  intros r2 d2 Hd2 Hr2. apply (copyLoop_ext n E F lv _ (fun _ _ => True)) in Hr2 as [B N].
  2: { intros s u [? _]%(elem_of_lives n E F lv Hlv) _ _. split; [done|lia]. }
  pose proof (rank_range n lv 0 H0) as H0r. eapply spends_post; [eapply freeze_simple; [exact B|lia|done]|].
  intros r3 d3 _ [Hn3 Hs3]. eexists _, _, _. split; [split; [exact Hn3| |done|]|split_and!].
  - by apply (kept_det a d n E F).
  - by apply (kept_reached a d n E F Ha lv).
  - intros w. unfold lang. rewrite <- (rank_0 n E F lv Hlv) at 1. by apply (kept_lang a d n E F Ha).
  - intros q u (s & v & _ & _ & Hv & _ & ->). by exists s, v.
  - left. intros q Hq. by apply (kept_live a d n E F Ha).
Qed.
