(* ===== verification/Utf8.v ===== *)
(** From code points to bytes: [util/automaton/Utf32ToUtf8.cpp].

    [Converter::edge] replaces a transition on a range of code points by a part of an automaton that reads their UTF-8 bytes.
    Such a part is a [gadget]: fresh states between two given ones, and a set of words.  The functions of the converter compose gadgets from
    single transitions, and the words of the whole are those between the encodings of the ends of the range in lexicographic order, which are the
    encodings of the code points in the range.  [utf32ToUtf8] is shown to give a deterministic automaton whose states are all live and
    which accepts the UTF-8 form of the language. *)

From S2P Require Import Prelude Metered Languages CaseAlternates Automata Determinize LiveStates.

Import Automaton.

Module Converter.

Definition START_CODES : list Z := [0; 128; 2048; 65536].
Definition END_CODES : list Z := [127; 2047; 65535; 1114111].

Definition length (codepoint : Z) : Z :=
  if decide (codepoint < 128) then 1 else if decide (codepoint < 2048) then 2 else if decide (codepoint < 65536) then 3 else 4.

(** The loop of [encode] from position [i] down to 1. *)
Fixpoint encodeLoop (i : nat) (codepoint : Z) (bytes : list Z) : Z * list Z :=
  match i with
  | O => (codepoint, bytes)
  | S i' => encodeLoop i' (Z.shiftr codepoint 6) (<[i := Z.lor 0x80 (Z.land codepoint 0x3f)]> bytes)
  end.

Definition encode (codepoint : Z) : list Z :=
  let count := length codepoint in
  let '(codepoint, bytes) := encodeLoop (Z.to_nat (count - 1)) codepoint [0; 0; 0; 0] in
  <[O := if decide (count = 1) then codepoint else if decide (count = 2) then Z.lor 0xc0 codepoint
         else if decide (count = 3) then Z.lor 0xe0 codepoint else Z.lor 0xf0 codepoint]> bytes.

Definition bitsUsed (count position : Z) : Z :=
  if decide (position <> 0) then 6
  else if decide (count = 1) then 7 else if decide (count = 2) then 5 else if decide (count = 3) then 4 else 3.

Definition mask (bits : Z) : Z := Z.shiftl 1 bits - 1.

Fixpoint allLoop (n : nat) (state : Z) (out : t) : SM Budget (Z * t) :=
  match n with
  | O => mret (state, out)
  | S n =>
      '(next, out) ← addState false out;
      out ← addTransition state 0x80 0xbf next true out;
      allLoop n next out
  end.

Definition all (startState endState min max left : Z) (out : t) : SM Budget t :=
  if decide (left = 0) then addTransition startState min max endState true out else
  '(state, out) ← addState false out;
  out ← addTransition startState min max state true out;
  '(state, out) ← allLoop (Z.to_nat (left - 1)) state out;
  addTransition state 0x80 0xbf endState true out.

Fixpoint start (fuel : nat) (startState endState : Z) (bytes : list Z) (count position : Z) (doAll : bool) (out : t) : SM Budget t :=
  match fuel with
  | O => undef
  | S fuel =>
      let used := bitsUsed count position in
      b ← need bytes.[position];
      if decide (position = count - 1) then addTransition startState b (Z.lor b (mask used)) endState true out else
      '(next, out) ← addState false out;
      out ← addTransition startState b b next true out;
      out ← start fuel next endState bytes count (position + 1) true out;
      let max := Z.lor b (mask used) in
      if doAll && bool_decide (b <> max) then all startState endState (b + 1) max (count - position - 1) out else mret out
  end.

Fixpoint finish (fuel : nat) (startState endState : Z) (bytes : list Z) (count position : Z) (doAll : bool) (out : t) : SM Budget t :=
  match fuel with
  | O => undef
  | S fuel =>
      let used := bitsUsed count position in
      b ← need bytes.[position];
      if decide (position = count - 1) then addTransition startState (Z.land b (Z.lnot (mask used))) b endState true out else
      b0 ← need bytes.[0];
      let min := Z.land b (Z.lnot (mask used)) in
      let min := if decide (count = 2 /\ position = 0) then 0xc2
                 else if decide (count = 3 /\ position = 1 /\ b0 = 0xe0) then 0xa0
                 else if decide (count = 4 /\ position = 1 /\ b0 = 0xf0) then 0x90 else min in
      out ← (if doAll && bool_decide (b <> min) then all startState endState min (b - 1) (count - position - 1) out else mret out);
      '(next, out) ← addState false out;
      out ← addTransition startState b b next true out;
      finish fuel next endState bytes count (position + 1) true out
  end.

Fixpoint build (fuel : nat) (startState endState : Z) (first last : list Z) (count position : Z) (out : t) : SM Budget t :=
  match fuel with
  | O => undef
  | S fuel =>
      f ← need first.[position];
      l ← need last.[position];
      if decide (f = l) then
        if decide (position = count - 1) then addTransition startState f l endState true out else
        '(next, out) ← addState false out;
        out ← addTransition startState f f next true out;
        build fuel next endState first last count (position + 1) out
      else if decide (position = count - 1) then addTransition startState f l endState true out else
      out ← start 4 startState endState first count position false out;
      out ← (if decide (1 < l - f) then all startState endState (f + 1) (l - 1) (count - position - 1) out else mret out);
      finish 4 startState endState last count position false out
  end.

Definition edge (startState endState min max : Z) (out : t) : SM Budget t :=
  foldS (fun out count =>
    sc ← need START_CODES.[count - 1];
    ec ← need END_CODES.[count - 1];
    let first := Z.max min sc in
    let last := Z.min max ec in
    if decide (first <= last) then build 4 startState endState (encode first) (encode last) count 0 out else mret out)
    out (seqZ 1 4).
End Converter.

(** The two loops of [utf32ToUtf8]: the states, and the converted transitions. *)
Definition copyStates (utf32 : t) : SM Budget (list Z * t) :=
  foldS (fun '(stateMap, out) state =>
    acc ← need (accept utf32 state);
    '(q, out) ← addState acc out;
    stateMap ← need (zset stateMap state q);
    mret (stateMap, out)) (replicate (Z.to_nat (size utf32)) (-1), init) (seqZ 0 (size utf32)).

Definition convertTransition (from to : Z) (tr : Transition) (out : t) : SM Budget t :=
  if bytes tr then addTransition from (tmin tr) (tmax tr) to true out else
  out ← (if decide (tmin tr <= 0xd7ff) then Converter.edge from to (tmin tr) (Z.min (tmax tr) 0xd7ff) out else mret out);
  if decide (0xe000 <= tmax tr) then Converter.edge from to (Z.max (tmin tr) 0xe000) (tmax tr) out else mret out.

Definition convert (utf32 : t) : SM Budget t :=
  '(stateMap, out) ← copyStates utf32;
  out ← foldS (fun out state =>
    l ← need (transitionsFrom utf32 state);
    foldS (fun out tr =>
      from ← need stateMap.[state];
      to ← need stateMap.[dest tr];
      convertTransition from to tr out) out l) out (seqZ 0 (size utf32));
  freeze out.

Definition utf32ToUtf8 (utf32 : t) : SM Budget t :=
  out ← convert utf32;
  out ← determinize out;
  removeDeadStates out.

(** * Gadgets *)

Definition one (lo hi : Z) : language := fun w => exists x, w = [x] /\ lo <= x <= hi.
Definition byte_range (u : Transition) : Prop := 0 <= tmin u <= tmax u /\ tmax u <= 255.

(** A way through the states [n .. n') to [e]. *)
Inductive walk (G : edges) (n n' e : Z) : Z -> list Z -> Prop :=
  | walk_last q u x : G q u -> dest u = e -> has u x -> walk G n n' e q [x]
  | walk_more q u x w : G q u -> n <= dest u < n' -> has u x -> walk G n n' e (dest u) w -> walk G n n' e q (x :: w).

(** Transitions through the new states [n .. n') that lead from [s] to [e] with the words of [L]. *)
Record gadget (n n' : Z) (G : edges) (s e : Z) (L : language) : Prop := {
  gadget_le : n <= n';
  gadget_src : forall q u, G q u -> q = s \/ n <= q < n';
  gadget_dest : forall q u, G q u -> dest u = e \/ n <= dest u < n';
  gadget_bytes : forall q u, G q u -> byte_range u;
  gadget_lang : forall w, walk G n n' e s w <-> L w }.

Definition join (G H : edges) : edges := fun q u => G q u \/ H q u.
Definition link (s lo hi e : Z) : edges := fun q u => q = s /\ u = MkT lo hi e true.

Lemma walk_mono (G H : edges) n n' m m' e q w :
  (forall q u, G q u -> H q u) -> m <= n -> n' <= m' -> walk G n n' e q w -> walk H m m' e q w.
Proof. intros HG Hm Hm'. induction 1; [eapply walk_last|eapply walk_more]; eauto; lia. Qed.

(** A walk from a state whose transitions are all in a part that is not left except to [e]. *)
Lemma walk_stays (G H : edges) n n' m m' e (P : Z -> Prop) q w :
  (forall q u, P q -> H q u -> G q u /\ (dest u = e \/ n <= dest u < n' /\ P (dest u))) -> ~ (m <= e < m') ->
  P q -> walk H m m' e q w -> walk G n n' e q w.
Proof.
  intros HP He Hq Hw. revert Hq. induction Hw as [q u x Hu Hd Hx|q u x w Hu Hd Hx Hw IH]; intros Hq; destruct (HP q u Hq Hu) as [Hg Hdd].
  - by eapply walk_last.
  - destruct Hdd as [<-|[Hr Hpd]]; [done|]. eapply walk_more; [done..|]. by apply IH.
Qed.

Lemma gadget_proper n n' G s e L K : (forall w, L w <-> K w) -> gadget n n' G s e L -> gadget n n' G s e K.
Proof. intros HL []. split; try done. intros w. by rewrite gadget_lang0. Qed.

Lemma gadget_edge n s e lo hi : e < n -> 0 <= lo <= hi -> hi <= 255 -> gadget n n (link s lo hi e) s e (one lo hi).
Proof.
  intros He Hlo Hhi. split.
  - lia.
  - intros q u [-> ->]. by left.
  - intros q u [-> ->]. by left.
  - intros q u [-> ->]. done.
  - intros w. split.
    + intros Hw. inversion Hw as [q u x [_ ->] Hd Hx|q u x w' [_ ->] Hd Hx Hw']; subst; [by exists x|lia].
    + intros (x & -> & Hx). by eapply walk_last; [split| |].
Qed.

Lemma gadget_step n n' G s e lo hi L : s < n -> e < n -> 0 <= lo <= hi -> hi <= 255 -> gadget (n + 1) n' G n e L ->
  gadget n n' (join (link s lo hi n) G) s e (lcat (one lo hi) L).
Proof.
  intros Hs He Hlo Hhi []. split.
  - lia.
  - intros q u [[-> ->]|Hu]; [by left|]. apply gadget_src0 in Hu. lia.
  - intros q u [[-> ->]|Hu]; [simpl; lia|]. apply gadget_dest0 in Hu. lia.
  - intros q u [[-> ->]|Hu]; [done|by eapply gadget_bytes0].
  - assert (forall w, walk (join (link s lo hi n) G) n n' e n w <-> L w) as Hn.
    { intros w. rewrite <- gadget_lang0. split; [|apply walk_mono; [by right|lia..]].
      apply (walk_stays _ _ _ _ _ _ _ (fun q => n <= q < n')); [|lia..]. intros q u Hq [[-> ->]|Hu]; [lia|]. split; [done|].
      apply gadget_dest0 in Hu. lia. }
    intros w. split.
    + intros Hw. inversion Hw as [q u x [[_ ->]|Hu] Hd Hx|q u x w' [[_ ->]|Hu] Hd Hx Hw']; subst.
      * simpl in *. lia.
      * apply gadget_src0 in Hu. lia.
      * apply Hn in Hw'. exists [x], w'. split_and!; [done|by exists x|done].
      * apply gadget_src0 in Hu. lia.
    + intros (? & v & -> & (x & -> & Hx) & Hv). apply Hn in Hv. eapply (walk_more _ _ _ _ _ (MkT lo hi n true)); [by left|simpl; lia|done|exact Hv].
Qed.

Lemma gadget_union n n1 n2 G1 G2 s e L1 L2 : s < n -> e < n -> gadget n n1 G1 s e L1 -> gadget n1 n2 G2 s e L2 ->
  gadget n n2 (join G1 G2) s e (lunion L1 L2).
Proof.
  intros Hs He [A1 A2 A3 A4 A5] [B1 B2 B3 B4 B5]. split.
  - lia.
  - intros q u [Hu%A2|Hu%B2]; lia.
  - intros q u [Hu%A3|Hu%B3]; lia.
  - intros q u [Hu|Hu]; [by eapply A4|by eapply B4].
  - intros w. unfold lunion. rewrite <- A5, <- B5. split.
    + intros Hw. inversion Hw as [q u x [Hu|Hu] Hd Hx|q u x w' [Hu|Hu] Hd Hx Hw']; subst.
      * left. by eapply walk_last.
      * right. by eapply walk_last.
      * left. assert (n <= dest u < n1) as Hd1 by (apply A3 in Hu; lia). eapply walk_more; [done..|]. revert Hw'.
        apply (walk_stays _ _ _ _ _ _ _ (fun q => n <= q < n1)); [|lia..].
        intros q v Hq [Hv|Hv]; [split; [done|apply A3 in Hv; lia]|apply B2 in Hv; lia].
      * right. assert (n1 <= dest u < n2) as Hd1 by (apply B3 in Hu; lia). eapply walk_more; [done..|]. revert Hw'.
        apply (walk_stays _ _ _ _ _ _ _ (fun q => n1 <= q < n2)); [|lia..].
        intros q v Hq [Hv|Hv]; [apply A2 in Hv; lia|split; [done|apply B3 in Hv; lia]].
    + intros [Hw|Hw]; (eapply walk_mono; [|..|exact Hw]); try lia; [by left|by right].
Qed.

(** ** Code that adds a gadget *)

Definition grow (n : Z) (F : Z -> bool) : Z -> bool := fun q => if decide (q < n) then F q else false.

(** [c] adds a gadget for [L] from [s] to [e] to the automaton it is given. *)
Definition adds (c : t -> SM Budget t) (s e : Z) (L : language) : Prop :=
  forall d out n E F Er, bld d out n E F -> 0 <= s < n -> 0 <= e < n ->
  spends d (c out) Er (fun out' d' => exists n' G, bld d' out' n' (join E G) (grow n F) /\ gadget n n' G s e L).

Lemma adds_proper c s e L K : (forall w, L w <-> K w) -> adds c s e L -> adds c s e K.
Proof.
  intros HL Hc d out n E F Er Hb Hs He. eapply spends_post; [by apply Hc|]. intros out' d' _ (n' & G & H1 & H2). exists n', G.
  split; [done|]. by apply (gadget_proper _ _ _ _ _ L).
Qed.

Lemma grow_grow n n' F q : n <= n' -> grow n' (grow n F) q = grow n F q.
Proof. intros. unfold grow. repeat case_decide; lia || done. Qed.

Lemma adds_edge s e lo hi : 0 <= lo <= hi -> hi <= 255 -> adds (addTransition s lo hi e true) s e (one lo hi).
Proof.
  intros Hlo Hhi d out n E F Er Hb Hs He. eapply spends_post; [apply (addTransition_spec _ _ _ _ _ _ _ _ _ _ _ Hb); lia|].
  intros out' d' _ Hb'. exists n, (link s lo hi e). split; [|apply gadget_edge; lia].
  refine (bld_ext _ _ _ _ _ _ _ _ _ Hb'); [done|]. intros q Hq. unfold grow. by rewrite decide_True by lia.
Qed.

(** A new state between [s] and what [c] adds. *)
Lemma adds_step (c : Z -> t -> SM Budget t) s e lo hi L : 0 <= lo <= hi -> hi <= 255 ->
  (forall q, q <> e -> adds (c q) q e L) ->
  adds (fun out => '(next, out) ← addState false out; out ← addTransition s lo hi next true out; c next out) s e (lcat (one lo hi) L).
Proof.
  intros Hlo Hhi Hc d out n E F Er Hb Hs He. eapply spends_bind; [by apply addState_spec|]. intros [q out1] d1 _ [Eq B1]. simpl in Eq, B1. subst q.
  eapply spends_bind; [apply (addTransition_spec _ _ _ _ _ _ _ _ _ _ _ B1); lia|]. intros out2 d2 _ B2.
  eapply spends_post; [apply (Hc n ltac:(lia) _ _ _ _ _ _ B2); lia|]. intros out3 d3 _ (n' & G & B3 & HG).
  exists n', (join (link s lo hi n) G). split; [|by apply gadget_step; [lia..|]].
  refine (bld_ext _ _ _ _ _ _ _ _ _ B3); [intros q u; unfold join, link; tauto|].
  intros q Hq. unfold grow. repeat case_decide; try lia; done.
Qed.

Lemma adds_seq c1 c2 s e L1 L2 : adds c1 s e L1 -> adds c2 s e L2 -> adds (fun out => out ← c1 out; c2 out) s e (lunion L1 L2).
Proof.
  intros H1 H2 d out n E F Er Hb Hs He. eapply spends_bind; [by apply H1|]. intros out1 d1 _ (n1 & G1 & B1 & HG1).
  pose proof (gadget_le _ _ _ _ _ _ HG1). eapply spends_post; [eapply H2; [exact B1|lia..]|]. intros out2 d2 _ (n2 & G2 & B2 & HG2).
  exists n2, (join G1 G2). split; [|by eapply gadget_union; [lia..| |]].
  refine (bld_ext _ _ _ _ _ _ _ _ _ B2); [intros q u; unfold join; tauto|]. intros q Hq. by apply grow_grow.
Qed.

(** Nothing. *)
Lemma adds_none s e : adds mret s e lempty.
Proof.
  intros d out n E F Er Hb Hs He. apply spends_ret. exists n, (fun _ _ => False). split.
  - refine (bld_ext _ _ _ _ _ _ _ _ _ Hb); [intros q u; unfold join; tauto|]. intros q Hq. unfold grow. by rewrite decide_True by lia.
  - split; [lia|done..|]. intros w. split; [|done]. intros Hw. by inversion Hw.
Qed.

(** ** UTF-8 *)

(** The UTF-8 form of a code point. *)
Definition utf8 (cp : Z) : list Z :=
  if decide (cp < 0x80) then [cp]
  else if decide (cp < 0x800) then [0xc0 + cp `div` 64; 0x80 + cp `mod` 64]
  else if decide (cp < 0x10000) then [0xe0 + cp `div` 4096; 0x80 + (cp `div` 64) `mod` 64; 0x80 + cp `mod` 64]
  else [0xf0 + cp `div` 262144; 0x80 + (cp `div` 4096) `mod` 64; 0x80 + (cp `div` 64) `mod` 64; 0x80 + cp `mod` 64].

Definition coded (lo hi : Z) : language := fun w => exists cp, lo <= cp <= hi /\ w = utf8 cp.

(** ** Words of bytes in lexicographic order *)

Definition cont (x : Z) : Prop := 0x80 <= x <= 0xbf.
Definition conts (n : Z) : language := fun w => zlen w = n /\ Forall cont w.

Fixpoint lexle (u v : list Z) : Prop :=
  match u, v with
  | [], _ => True
  | x :: u, y :: v => x < y \/ x = y /\ lexle u v
  | _ :: _, [] => False
  end.

Definition above (bs : list Z) : language := fun w => conts (zlen bs) w /\ lexle bs w.
Definition below (bs : list Z) : language := fun w => conts (zlen bs) w /\ lexle w bs.
Definition between (fs ls : list Z) : language := fun w => exists x w', w = x :: w' /\ zlen w = zlen fs /\ Forall cont w' /\ lexle fs w /\ lexle w ls.

Lemma one_cons lo hi L w : lcat (one lo hi) L w <-> exists x w', w = x :: w' /\ lo <= x <= hi /\ L w'.
Proof.
  split.
  - intros (u & v & -> & (x & -> & Hx) & Hv). by exists x, v.
  - intros (x & w' & -> & Hx & Hw). exists [x], w'. split_and!; [done|by exists x|done].
Qed.

Lemma conts_cons n x w : 0 <= n -> conts (1 + n) (x :: w) <-> cont x /\ conts n w.
Proof. intros Hn. unfold conts. rewrite zlen_cons, Forall_cons. intuition lia. Qed.

Lemma conts_S n : 0 <= n -> lcat (one 0x80 0xbf) (conts n) ≡ conts (1 + n).
Proof.
  intros Hn w. rewrite one_cons. split.
  - intros (x & w' & -> & Hx & Hw). by apply conts_cons.
  - destruct w as [|x w]; [intros [Hz _]; rewrite zlen_nil in Hz; lia|]. intros [Hx Hw]%conts_cons; [|done]. by exists x, w.
Qed.

Lemma conts_1 : one 0x80 0xbf ≡ conts 1.
Proof.
  intros w. change (conts 1) with (conts (1 + 0)). rewrite <- (conts_S 0 ltac:(lia) w). rewrite one_cons. split; [intros (x & -> & Hx); by exists x, []|].
  intros (x & [|y w'] & -> & Hx & [Hz _]); [by exists x|]. rewrite zlen_cons in Hz. pose proof (zlen_nonneg w'). lia.
Qed.

Lemma above_cons b bs : cont b -> above (b :: bs) ≡ lunion (lcat (one b b) (above bs)) (lcat (one (b + 1) 0xbf) (conts (zlen bs))).
Proof.
  intros Hb w. unfold lunion. rewrite !one_cons. unfold above at 1. rewrite zlen_cons. pose proof (zlen_nonneg bs). unfold cont in Hb. split.
  - intros [Hc Hl]. destruct w as [|x w]; [destruct Hc as [Hz _]; rewrite zlen_nil in Hz; lia|]. apply conts_cons in Hc as [Hx Hw]; [|done].
    unfold cont in Hx. destruct Hl as [Hl|[<- Hl]]; [right; exists x, w|left; exists b, w]; (split; [done|]; split; [lia|]); [exact Hw|exact (conj Hw Hl)].
  - intros [(x & w' & -> & Hx & Hw & Hl)|(x & w' & -> & Hx & Hw)]; (split; [apply conts_cons; [done|]; split; [unfold cont; lia|done]|]).
    + right. split; [lia|done].
    + left. lia.
Qed.

Lemma below_cons b bs : cont b -> below (b :: bs) ≡ lunion (lcat (one 0x80 (b - 1)) (conts (zlen bs))) (lcat (one b b) (below bs)).
Proof.
  intros Hb w. unfold lunion. rewrite !one_cons. unfold below at 1. rewrite zlen_cons. pose proof (zlen_nonneg bs). unfold cont in Hb. split.
  - intros [Hc Hl]. destruct w as [|x w]; [destruct Hc as [Hz _]; rewrite zlen_nil in Hz; lia|]. apply conts_cons in Hc as [Hx Hw]; [|done].
    unfold cont in Hx. destruct Hl as [Hl|[-> Hl]]; [left; exists x, w|right; exists b, w]; (split; [done|]; split; [lia|]); [exact Hw|exact (conj Hw Hl)].
  - intros [(x & w' & -> & Hx & Hw)|(x & w' & -> & Hx & Hw & Hl)]; (split; [apply conts_cons; [done|]; split; [unfold cont; lia|done]|]).
    + left. lia.
    + right. split; [lia|done].
Qed.

Lemma above_one b : cont b -> above [b] ≡ one b 0xbf.
Proof.
  intros Hb w. rewrite (above_cons b [] Hb w). unfold lunion. rewrite !one_cons. unfold above, conts, cont in *. split.
  - intros [(x & [|y w'] & -> & Hx & (Hz & _) & _)|(x & [|y w'] & -> & Hx & Hz & _)];
      rewrite ?zlen_nil, ?zlen_cons in Hz; try (pose proof (zlen_nonneg w'); lia); exists x; (split; [done|lia]).
  - intros (x & -> & Hx). destruct (decide (x = b)) as [->|]; [left; exists b, []|right; exists x, []]; (split; [done|]; split; [lia|]); repeat split; apply List.Forall_nil.
Qed.

Lemma below_one b : cont b -> below [b] ≡ one 0x80 b.
Proof.
  intros Hb w. rewrite (below_cons b [] Hb w). unfold lunion. rewrite !one_cons. unfold below, conts, cont in *. split.
  - intros [(x & [|y w'] & -> & Hx & Hz & _)|(x & [|y w'] & -> & Hx & (Hz & _) & _)];
      rewrite ?zlen_nil, ?zlen_cons in Hz; try (pose proof (zlen_nonneg w'); lia); exists x; (split; [done|lia]).
  - intros (x & -> & Hx). destruct (decide (x = b)) as [->|]; [right; exists b, []|left; exists x, []]; (split; [done|]; split; [lia|]); repeat split; apply List.Forall_nil.
Qed.

(** ** The functions of the converter *)

Section Converter.
Import Converter.

Lemma adds_ext c c' s e L : (forall out b, c out b = c' out b) -> adds c s e L -> adds c' s e L.
Proof. intros Hc H d out n E F Er Hb Hs He. eapply spends_ext; [apply Hc|]. by apply H. Qed.

Lemma adds_need {A} (o : option A) x (c : A -> t -> SM Budget t) s e L : o = Some x -> adds (c x) s e L -> adds (fun out => x ← need o; c x out) s e L.
Proof. intros ->. by apply adds_ext. Qed.

Lemma adds_if P `{Decision P} c1 c2 s e L : (P -> adds c1 s e L) -> (~ P -> adds c2 s e L) -> adds (fun out => if decide P then c1 out else c2 out) s e L.
Proof. intros H1 H2. case_decide; [by apply H1|by apply H2]. Qed.

Lemma adds_skip (b : bool) c s e L : (b = true -> adds c s e L) -> (b = false -> forall w, ~ L w) ->
  adds (fun out => if b then c out else mret out) s e L.
Proof.
  destruct b; [auto|]. intros _ HL. eapply adds_proper; [|apply adds_none]. intros w. split; [done|]. by apply HL.
Qed.

Lemma allLoop_spec n : forall q e, adds (fun out => '(state, out) ← allLoop n q out; addTransition state 0x80 0xbf e true out) q e (conts (1 + Z.of_nat n)).
Proof.
  induction n as [|n IH]; intros q e.
  - eapply adds_proper; [apply conts_1|]. eapply adds_ext; [|apply (adds_edge q e 0x80 0xbf); lia]. done.
  - replace (1 + Z.of_nat (S n)) with (1 + (1 + Z.of_nat n)) by lia. eapply adds_proper; [apply conts_S; lia|].
    eapply adds_ext; [|apply (adds_step (fun q out => '(state, out) ← allLoop n q out; addTransition state 0x80 0xbf e true out)); [lia..|]; intros; apply IH].
    intros out b. simpl. rewrite bind_assoc. unfold mbind, SM_bind. destruct (addState false out b) as [[[next out1]| |] b1]; [|done..].
    by destruct (addTransition q 0x80 0xbf next true out1 b1) as [[] ?].
Qed.

Lemma all_spec s e lo hi left : 0 <= left -> 0 <= lo <= hi -> hi <= 255 -> adds (all s e lo hi left) s e (lcat (one lo hi) (conts left)).
Proof.
  intros Hl Hlo Hhi. unfold all. destruct (decide (left = 0)) as [->|].
  - eapply adds_proper; [|by apply adds_edge]. intros w. rewrite one_cons. unfold conts. split.
    + intros (x & -> & Hx). exists x, []. repeat split; [lia..|apply List.Forall_nil].
    + intros (x & [|y w'] & -> & Hx & Hz & _); [by exists x|]. rewrite zlen_cons in Hz. pose proof (zlen_nonneg w'). lia.
  - apply (adds_step (fun q out => '(state, out) ← allLoop (Z.to_nat (left - 1)) q out; addTransition state 0x80 0xbf e true out)); [done..|].
    intros q _. pose proof (allLoop_spec (Z.to_nat (left - 1)) q e) as HA. rewrite Z2Nat.id in HA by lia.
    by replace (1 + (left - 1)) with left in HA by lia.
Qed.

(** The bytes [bs] stand in the array from position [pos]. *)
Definition stand (bytes : list Z) (pos : Z) (bs : list Z) : Prop := forall i x, bs.[i] = Some x -> bytes.[pos + i] = Some x.

Lemma stand_cons bytes pos b bs : stand bytes pos (b :: bs) -> bytes.[pos] = Some b /\ stand bytes (pos + 1) bs.
Proof.
  intros H. split; [rewrite <- (Z.add_0_r pos); by apply H|]. intros i x Hi. pose proof (zget_Some_range _ _ _ Hi).
  replace (pos + 1 + i) with (pos + (1 + i)) by lia. apply H. rewrite zget_cons_pos by lia. by replace (1 + i - 1) with i by lia.
Qed.

Lemma cont_masks b : cont b -> Z.lor b 63 = 0xbf /\ Z.land b (Z.lnot 63) = 0x80.
Proof.
  intros Hb. assert (Forall (fun b => Z.lor b 63 = 0xbf /\ Z.land b (Z.lnot 63) = 0x80) (seqZ 0x80 64)) as H by (repeat constructor).
  rewrite Forall_forall in H. apply H, elem_of_seqZ. unfold cont in Hb. lia.
Qed.

Lemma bitsUsed_inner count pos : pos <> 0 -> mask (bitsUsed count pos) = 63.
Proof. intros. unfold bitsUsed. by case_decide. Qed.

(** Inner positions of the start fringe: all words from [bs] on. *)
Lemma start_inner bytes count e : forall bs fuel q pos,
  bs <> [] -> Forall cont bs -> stand bytes pos bs -> 0 < pos -> count = pos + zlen bs -> (Datatypes.length bs <= fuel)%nat ->
  adds (start fuel q e bytes count pos true) q e (above bs).
Proof.
  induction bs as [|b bs IH]; intros fuel q pos Hne Hc Hst Hpos Hcount Hf; [done|]. destruct fuel as [|fuel]; [simpl in Hf; lia|].
  apply Forall_cons in Hc as [Hb Hc]. apply stand_cons in Hst as [Eb Hst]. rewrite zlen_cons in Hcount. destruct (cont_masks b Hb) as [Hm _].
  cbn [start]. eapply adds_need; [exact Eb|]. rewrite bitsUsed_inner, Hm by lia. unfold cont in Hb. pose proof (zlen_nonneg bs). apply adds_if; intros Hl.
  - destruct bs as [|b' bs']; [|rewrite zlen_cons in Hcount; pose proof (zlen_nonneg bs'); lia].
    eapply adds_proper; [symmetry; by apply above_one|]. apply (adds_edge q e b 0xbf); lia.
  - assert (bs <> []) as Hn by (intros ->; rewrite zlen_nil in Hcount; lia).
    eapply adds_proper; [symmetry; by apply above_cons|].
    eapply adds_ext; [|apply adds_seq; [apply (adds_step (fun q => start fuel q e bytes count (pos + 1) true) q e b b (above bs)); [lia..|]|
      apply (adds_skip (bool_decide (b <> 0xbf)) (all q e (b + 1) 0xbf (count - pos - 1)) q e)]].
    + intros out bud. unfold mbind, SM_bind, mret, SM_ret. destruct (addState false out bud) as [[[next out1]| |] b1]; [|done..].
      destruct (addTransition q b b next true out1 b1) as [[out2| |] b2]; [|done..].
      by destruct (start fuel next e bytes count (pos + 1) true out2 b2) as [[out3| |] b3].
    + intros q' _. apply IH; [done|done|done|lia|lia|simpl in *; lia].
    + intros Hd%bool_decide_eq_true. replace (count - pos - 1) with (zlen bs) by lia. apply all_spec; lia.
    + intros Hd%bool_decide_eq_false w. rewrite one_cons. intros (x & w' & _ & Hx & _). lia.
Qed.
(** Where the start fringe begins, it reads the first byte itself. *)
Lemma start_outer fuel bytes count e q b bs pos :
  bs <> [] -> Forall cont bs -> stand bytes pos (b :: bs) -> 0 <= pos -> count = pos + 1 + zlen bs -> (Datatypes.length bs <= fuel)%nat -> 0 <= b <= 255 ->
  adds (start (S fuel) q e bytes count pos false) q e (lcat (one b b) (above bs)).
Proof.
  intros Hne Hc Hst Hpos Hcount Hf Hb. apply stand_cons in Hst as [Eb Hst]. cbn [start]. eapply adds_need; [exact Eb|]. apply adds_if; intros Hl.
  { destruct bs as [|b' bs']; [done|]. rewrite zlen_cons in Hcount. pose proof (zlen_nonneg bs'). lia. }
  eapply adds_ext; [|apply (adds_step (fun q => start fuel q e bytes count (pos + 1) true) q e b b (above bs)); [lia..|]].
  - intros out bud. unfold mbind, SM_bind, mret, SM_ret. destruct (addState false out bud) as [[[next out1]| |] b1]; [|done..].
    destruct (addTransition q b b next true out1 b1) as [[out2| |] b2]; [|done..]. cbn [andb].
    by destruct (start fuel next e bytes count (pos + 1) true out2 b2) as [[out3| |] b3].
  - intros q' _. by apply start_inner; [..|lia|lia|].
Qed.

(** The first continuation byte is not one for which the encoding has a larger minimum. *)
Definition unrestricted (bytes : list Z) (count pos : Z) : Prop :=
  pos = 1 -> (count = 3 -> bytes.[0] <> Some 0xe0) /\ (count = 4 -> bytes.[0] <> Some 0xf0).

Lemma finish_inner bytes count e : forall bs fuel q pos,
  bs <> [] -> Forall cont bs -> stand bytes pos bs -> 0 < pos -> is_Some bytes.[0] -> unrestricted bytes count pos ->
  count = pos + zlen bs -> (Datatypes.length bs <= fuel)%nat ->
  adds (finish fuel q e bytes count pos true) q e (below bs).
Proof.
  induction bs as [|b bs IH]; intros fuel q pos Hne Hc Hst Hpos [b0 E0] Hun Hcount Hf; [done|]. destruct fuel as [|fuel]; [simpl in Hf; lia|].
  apply Forall_cons in Hc as [Hb Hc]. apply stand_cons in Hst as [Eb Hst]. rewrite zlen_cons in Hcount. destruct (cont_masks b Hb) as [_ Hm].
  cbn [finish]. eapply adds_need; [exact Eb|]. rewrite bitsUsed_inner, Hm by lia. unfold cont in Hb. pose proof (zlen_nonneg bs). apply adds_if; intros Hl.
  - destruct bs as [|b' bs']; [|rewrite zlen_cons in Hcount; pose proof (zlen_nonneg bs'); lia].
    eapply adds_proper; [symmetry; by apply below_one|]. apply (adds_edge q e 0x80 b); lia.
  - assert (bs <> []) as Hn by (intros ->; rewrite zlen_nil in Hcount; lia). eapply adds_need; [exact E0|].
    rewrite (decide_False (P := count = 2 /\ pos = 0)), (decide_False (P := count = 3 /\ _)), (decide_False (P := count = 4 /\ _))
      by (rewrite ?E0 in Hun; intros (? & ? & ?) || intros (? & ?); first [lia|subst; destruct Hun; naive_solver]).
    eapply adds_proper; [symmetry; by apply below_cons|]. apply adds_seq.
    + apply (adds_skip (bool_decide (b <> 0x80)) (all q e 0x80 (b - 1) (count - pos - 1)) q e).
      * intros Hd%bool_decide_eq_true. replace (count - pos - 1) with (zlen bs) by lia. apply all_spec; lia.
      * intros Hd%bool_decide_eq_false w. rewrite one_cons. intros (x & w' & _ & Hx & _). lia.
    + apply (adds_step (fun q => finish fuel q e bytes count (pos + 1) true) q e b b (below bs)); [lia..|].
      intros q' _. apply IH; [done|done|done|lia|done|intros ?; lia|lia|simpl in *; lia].
Qed.

Lemma finish_outer fuel bytes count e q b bs pos :
  bs <> [] -> Forall cont bs -> stand bytes pos (b :: bs) -> 0 <= pos -> is_Some bytes.[0] -> unrestricted bytes count (pos + 1) ->
  count = pos + 1 + zlen bs -> (Datatypes.length bs <= fuel)%nat -> 0 <= b <= 255 ->
  adds (finish (S fuel) q e bytes count pos false) q e (lcat (one b b) (below bs)).
Proof.
  intros Hne Hc Hst Hpos [b0 E0] Hun Hcount Hf Hb. apply stand_cons in Hst as [Eb Hst]. cbn [finish]. eapply adds_need; [exact Eb|].
  apply adds_if; intros Hl. { destruct bs as [|b' bs']; [done|]. rewrite zlen_cons in Hcount. pose proof (zlen_nonneg bs'). lia. }
  eapply adds_need; [exact E0|].
  eapply adds_ext; [|apply (adds_step (fun q => finish fuel q e bytes count (pos + 1) true) q e b b (below bs)); [lia..|]].
  - done.
  - intros q' _. apply finish_inner; [done|done|done|lia|by exists b0|done|lia|done].
Qed.
(** The words between two encodings that differ at the position, or agree up to one. *)
Lemma between_eq b fs ls : fs <> [] -> between (b :: fs) (b :: ls) ≡ lcat (one b b) (fun w => conts (zlen fs) w /\ lexle fs w /\ lexle w ls).
Proof.
  intros Hne w. rewrite one_cons. unfold between, conts. split.
  - intros (x & w' & -> & Hz & Hc & Hf & Hl). rewrite !zlen_cons in Hz. simpl in Hf, Hl.
    exists x, w'. split; [done|]. split; [lia|]. split; [split; [lia|done]|]. split; [destruct Hf as [|[]]; [lia|done]|destruct Hl as [|[]]; [lia|done]].
  - intros (x & w' & -> & Hx & (Hz & Hc) & Hf & Hl). assert (x = b) as -> by lia. exists b, w'. rewrite !zlen_cons.
    split; [done|]. split; [lia|]. split; [done|]. split; right; done.
Qed.

Lemma between_neq f l fs ls : f < l -> zlen fs = zlen ls ->
  between (f :: fs) (l :: ls) ≡ lunion (lcat (one f f) (above fs)) (lunion (lcat (one (f + 1) (l - 1)) (conts (zlen fs))) (lcat (one l l) (below ls))).
Proof.
  intros Hfl Hz w. unfold lunion. rewrite !one_cons. unfold between, above, below, conts. split.
  - intros (x & w' & -> & Hzw & Hc & Hf & Hl). rewrite !zlen_cons in Hzw. simpl in Hf, Hl.
    destruct (decide (x = f)); [left|right; destruct (decide (x = l)); [right|left]]; exists x, w';
      (split; [done|]; split; [lia|]); repeat split; try lia; try done; destruct Hf as [|[]], Hl as [|[]]; lia || done.
  - intros [(x & w' & -> & Hx & (Hzw & Hc) & Hf)|[(x & w' & -> & Hx & Hzw & Hc)|(x & w' & -> & Hx & (Hzw & Hc) & Hl)]];
      exists x, w'; rewrite !zlen_cons; (split; [done|]; split; [lia|]; split; [done|]); split.
    all: first [left; lia|right; split; [lia|done]].
Qed.

Lemma between_conts fs ls w : fs <> [] -> Forall cont fs -> Forall cont ls ->
  between fs ls w <-> conts (zlen fs) w /\ lexle fs w /\ lexle w ls.
Proof.
  intros Hne Hf Hl. unfold between, conts. split.
  - intros (x & w' & -> & Hz & Hc & H1 & H2). repeat split; try done. apply Forall_cons. split; [|done].
    destruct fs as [|f fs]; [done|]. destruct ls as [|l ls]; [done|]. apply Forall_cons in Hf as [Hf _]. apply Forall_cons in Hl as [Hl _].
    simpl in H1, H2. unfold cont in *. destruct H1 as [|[]], H2 as [|[]]; lia.
  - intros ([Hz Hc] & H1 & H2). destruct w as [|x w']; [destruct fs; [done|]; rewrite zlen_cons, zlen_nil in Hz; pose proof (zlen_nonneg fs); lia|].
    exists x, w'. apply Forall_cons in Hc as [_ Hc]. done.
Qed.

Lemma between_one f l : between [f] [l] ≡ one f l.
Proof.
  intros w. unfold between, one. split.
  - intros (x & w' & -> & Hz & _ & H1 & H2). exists x. destruct w' as [|y w']; [|rewrite !zlen_cons in Hz; pose proof (zlen_nonneg w'); rewrite zlen_nil in Hz; lia].
    simpl in H1, H2. split; [done|lia].
  - intros (x & -> & Hx). exists x, []. simpl. repeat split; [apply List.Forall_nil|lia..].
Qed.

(** [build] adds the words between two encodings of the same length. *)
Lemma converter_build_spec first last count e : forall fs ls fuel q pos f l,
  zlen fs = zlen ls -> stand first pos (f :: fs) -> stand last pos (l :: ls) -> 0 <= pos -> is_Some last.[0] -> count = pos + 1 + zlen fs ->
  (Datatypes.length fs < fuel)%nat -> (Datatypes.length fs <= 3)%nat -> Forall cont fs -> Forall cont ls -> 0 <= f <= 255 -> 0 <= l <= 255 ->
  lexle (f :: fs) (l :: ls) -> (pos = 0 -> (count = 3 -> 0xe0 <= f) /\ (count = 4 -> 0xf0 <= f)) ->
  adds (build fuel q e first last count pos) q e (between (f :: fs) (l :: ls)).
Proof.
  induction fs as [|f' fs IH]; intros ls fuel q pos f l Hz Sf Sl Hpos E0 Hcount Hfu Hlen Cf Cl Hf Hl Hlex Hlow;
    destruct fuel as [|fuel]; try (simpl in Hfu; lia);
    destruct (stand_cons _ _ _ _ Sf) as [Ef Sf'], (stand_cons _ _ _ _ Sl) as [El Sl']; cbn [build];
    (eapply adds_need; [exact Ef|]); (eapply adds_need; [exact El|]).
  - destruct ls as [|l' ls]; [|rewrite zlen_cons, zlen_nil in Hz; pose proof (zlen_nonneg ls); lia]. rewrite zlen_nil in Hcount.
    assert (f <= l) by (simpl in Hlex; lia). eapply adds_proper; [symmetry; apply between_one|].
    apply adds_if; intros Hd; (apply adds_if; intros Hp; [|lia]); apply adds_edge; lia.
  - destruct ls as [|l' ls]; [rewrite zlen_cons, zlen_nil in Hz; pose proof (zlen_nonneg fs); lia|]. pose proof (zlen_nonneg fs).
    apply adds_if; intros Hd; (apply adds_if; intros Hp; [rewrite zlen_cons in Hcount; lia|]).
    + subst l. eapply adds_proper; [symmetry; by apply between_eq|].
      apply (adds_step (fun q => build fuel q e first last count (pos + 1))); [lia..|]. intros q' _.
      eapply adds_proper; [intros w; by apply between_conts|]. rewrite !zlen_cons in *. simpl in Hlex, Hlen, Hfu.
      pose proof Cf as [Cf1 Cf2]%Forall_cons. pose proof Cl as [Cl1 Cl2]%Forall_cons. unfold cont in Cf1, Cl1.
      apply IH; try done; try lia. destruct Hlex as [|[_ Hlex]]; [lia|done].
    + assert (f < l) by (simpl in Hlex; lia). eapply adds_proper; [symmetry; by apply between_neq|].
      apply adds_seq; [apply start_outer; [done|done|done|done|lia|done|done]|]. apply adds_seq.
      * apply (adds_if (1 < l - f) (all q e (f + 1) (l - 1) (count - pos - 1)) mret); intros Hm.
        -- replace (count - pos - 1) with (zlen (f' :: fs)) by lia. apply all_spec; rewrite ?zlen_cons; lia.
        -- eapply adds_proper; [|apply adds_none]. intros w. rewrite one_cons. split; [done|]. intros (x & w' & _ & Hx & _). lia.
      * apply finish_outer; [done|done|done|done|done| |lia| |done].
        -- intros Hp1. assert (pos = 0) as -> by lia. destruct (Hlow eq_refl). rewrite El. split; intros Hc3 [= ?]; [specialize (H1 Hc3)|specialize (H2 Hc3)]; lia.
        -- unfold zlen in Hz. lia.
Qed.
(** *** The encodings of a range *)

Lemma utf8_2 a b : 2 <= a < 32 -> 0 <= b < 64 -> utf8 (a * 64 + b) = [0xc0 + a; 0x80 + b].
Proof. intros. unfold utf8. rewrite !decide_False, decide_True by lia. repeat f_equal; Z.to_euclidean_division_equations; lia. Qed.

Lemma utf8_3 a b c : 0 <= a < 16 -> 0 <= b < 64 -> 0 <= c < 64 -> 0x800 <= (a * 64 + b) * 64 + c ->
  utf8 ((a * 64 + b) * 64 + c) = [0xe0 + a; 0x80 + b; 0x80 + c].
Proof. intros. unfold utf8. rewrite !decide_False, decide_True by lia. repeat f_equal; Z.to_euclidean_division_equations; lia. Qed.

Lemma utf8_4 a b c d : 0 <= a < 8 -> 0 <= b < 64 -> 0 <= c < 64 -> 0 <= d < 64 -> 0x10000 <= ((a * 64 + b) * 64 + c) * 64 + d ->
  utf8 (((a * 64 + b) * 64 + c) * 64 + d) = [0xf0 + a; 0x80 + b; 0x80 + c; 0x80 + d].
Proof. intros. unfold utf8. rewrite !decide_False by lia. repeat f_equal; Z.to_euclidean_division_equations; lia. Qed.

Lemma digit cp : exists a b, cp = a * 64 + b /\ 0 <= b < 64.
Proof. exists (cp `div` 64), (cp `mod` 64). pose proof (Z.div_mod cp 64). pose proof (Z.mod_pos_bound cp 64). lia. Qed.

(** A word with as many bytes as a list of known length. *)
Lemma word_cons n (w : list Z) : zlen w = 1 + n -> 0 <= n -> exists x v, w = x :: v /\ zlen v = n.
Proof. intros Hz Hn. destruct w as [|x v]; [rewrite zlen_nil in Hz; lia|]. rewrite zlen_cons in Hz. exists x, v. split; [done|lia]. Qed.

Lemma zlen_0_nil (w : list Z) : zlen w = 0 -> w = [].
Proof. destruct w as [|x w]; [done|]. rewrite zlen_cons. pose proof (zlen_nonneg w). lia. Qed.

Ltac digits cp a b := let H := fresh "Hd" in destruct (digit cp) as (a & b & -> & H).
Ltac conts_in H := repeat (apply Forall_cons in H as [?Hc H]); unfold cont in *.

Lemma between_1 f l : 0 <= f <= l -> l < 0x80 -> between (utf8 f) (utf8 l) ≡ coded f l.
Proof.
  intros Hf Hl w. unfold coded, utf8. rewrite !(decide_True (P := _ < 0x80)) by lia. rewrite (between_one f l w). split.
  - intros (x & -> & Hx). exists x. by rewrite decide_True by lia.
  - intros (x & Hx & ->). exists x. by rewrite decide_True by lia.
Qed.

Lemma between_2 f l : 0x80 <= f <= l -> l < 0x800 -> between (utf8 f) (utf8 l) ≡ coded f l.
Proof.
  intros Hf Hl w. digits f f0 f1. digits l l0 l1. rewrite !utf8_2 by lia. unfold between, coded. split.
  - intros (x & w' & -> & Hz & Hc & H1 & H2). rewrite !zlen_cons, zlen_nil in Hz.
    destruct (word_cons 0 w') as (y & ? & -> & ->%zlen_0_nil); [lia..|]. conts_in Hc. simpl in H1, H2.
    exists ((x - 0xc0) * 64 + (y - 0x80)). split; [lia|]. rewrite utf8_2 by lia. repeat f_equal; lia.
  - intros (cp & Hcp & ->). digits cp c0 c1. rewrite utf8_2 by lia. eexists _, _. split; [done|]. split; [done|].
    split; [repeat constructor; unfold cont; lia|]. simpl. lia.
Qed.

Lemma between_3 f l : 0x800 <= f <= l -> l < 0x10000 -> between (utf8 f) (utf8 l) ≡ coded f l.
Proof.
  intros Hf Hl w. digits f f' f2. digits f' f0 f1. digits l l' l2. digits l' l0 l1. rewrite !utf8_3 by lia. unfold between, coded. split.
  - intros (x & w' & -> & Hz & Hc & H1 & H2). rewrite !zlen_cons, zlen_nil in Hz.
    destruct (word_cons 1 w') as (y & w'' & -> & Hz'); [lia..|]. destruct (word_cons 0 w'') as (z & ? & -> & ->%zlen_0_nil); [lia..|].
    conts_in Hc. simpl in H1, H2. exists (((x - 0xe0) * 64 + (y - 0x80)) * 64 + (z - 0x80)). split; [lia|].
    rewrite utf8_3 by lia. repeat f_equal; lia.
  - intros (cp & Hcp & ->). digits cp c' c2. digits c' c0 c1. rewrite utf8_3 by lia. eexists _, _. split; [done|]. split; [done|].
    split; [repeat constructor; unfold cont; lia|]. simpl. lia.
Qed.

Lemma between_4 f l : 0x10000 <= f <= l -> l <= 0x10ffff -> between (utf8 f) (utf8 l) ≡ coded f l.
Proof.
  intros Hf Hl w. digits f f'' f3. digits f'' f' f2. digits f' f0 f1. digits l l'' l3. digits l'' l' l2. digits l' l0 l1.
  rewrite !utf8_4 by lia. unfold between, coded. split.
  - intros (x & w' & -> & Hz & Hc & H1 & H2). rewrite !zlen_cons, zlen_nil in Hz.
    destruct (word_cons 2 w') as (y & w'' & -> & Hz'); [lia..|]. destruct (word_cons 1 w'') as (z & w3 & -> & Hz''); [lia..|].
    destruct (word_cons 0 w3) as (v & ? & -> & ->%zlen_0_nil); [lia..|].
    conts_in Hc. simpl in H1, H2. exists ((((x - 0xf0) * 64 + (y - 0x80)) * 64 + (z - 0x80)) * 64 + (v - 0x80)). split; [lia|].
    rewrite utf8_4 by lia. repeat f_equal; lia.
  - intros (cp & Hcp & ->). digits cp c'' c3. digits c'' c' c2. digits c' c0 c1. rewrite utf8_4 by lia. eexists _, _. split; [done|]. split; [done|].
    split; [repeat constructor; unfold cont; lia|]. simpl. lia.
Qed.
(** *** [encode] *)

Lemma cont_byte a b : 0 <= b < 64 -> Z.lor 0x80 (Z.land (a * 64 + b) 0x3f) = 0x80 + b /\ Z.shiftr (a * 64 + b) 6 = a.
Proof.
  intros Hb. change 0x3f with (Z.ones 6). rewrite Z.land_ones, Z.shiftr_div_pow2 by lia. change (2 ^ 6) with 64.
  rewrite Z.add_comm, Z.mod_add, Z.div_add, Z.mod_small, Z.div_small by lia. split; [|lia].
  rewrite Z.lor_comm. change 0x80 with (Z.shiftl 2 6) at 1. rewrite lor_shiftl_add by (unfold is_u; lia). lia.
Qed.

Lemma lead_byte s b a : 0 <= s -> is_u s a -> Z.lor (Z.shiftl b s) a = 2 ^ s * b + a.
Proof. intros Hs Ha. rewrite Z.lor_comm, lor_shiftl_add by done. lia. Qed.

Definition pad4 (bs : list Z) : list Z := bs ++ replicate (4 - Datatypes.length bs) 0.

Lemma encode_utf8 cp : 0 <= cp <= 0x10ffff -> encode cp = pad4 (utf8 cp).
Proof.
  intros Hcp. unfold encode, length. destruct (decide (cp < 0x80)) as [H1|H1].
  { unfold utf8. by rewrite !(decide_True (P := cp < _)) by lia. }
  destruct (decide (cp < 0x800)) as [H2|H2].
  { digits cp a b. rewrite utf8_2 by lia. destruct (cont_byte a b) as [E1 E2]; [lia|]. change (Z.to_nat (2 - 1)) with 1%nat. cbn -[Z.lor Z.land Z.shiftr Z.add Z.mul].
    rewrite E1, E2. change 192 with (Z.shiftl 6 5) at 1. rewrite lead_byte by (unfold is_u; lia). done. }
  destruct (decide (cp < 0x10000)) as [H3|H3].
  { digits cp a' c. digits a' a b. rewrite utf8_3 by lia. destruct (cont_byte (a * 64 + b) c) as [E1 E2], (cont_byte a b) as [E3 E4]; [lia..|].
    change (Z.to_nat (3 - 1)) with 2%nat. cbn -[Z.lor Z.land Z.shiftr Z.add Z.mul].
    rewrite E1, E2, E3, E4. change 224 with (Z.shiftl 14 4) at 1. rewrite lead_byte by (unfold is_u; lia). done. }
  digits cp a' d. digits a' a'' c. digits a'' a b. rewrite utf8_4 by lia.
  destruct (cont_byte ((a * 64 + b) * 64 + c) d) as [E1 E2], (cont_byte (a * 64 + b) c) as [E3 E4], (cont_byte a b) as [E5 E6]; [lia..|].
  change (Z.to_nat (4 - 1)) with 3%nat. cbn -[Z.lor Z.land Z.shiftr Z.add Z.mul].
  rewrite E1, E2, E3, E4, E5, E6. change 240 with (Z.shiftl 30 3) at 1. rewrite lead_byte by (unfold is_u; lia). done.
Qed.

(** The code points whose encoding has [count] bytes. *)
Definition class (count cp : Z) : Prop :=
  count = 1 /\ 0 <= cp < 0x80 \/ count = 2 /\ 0x80 <= cp < 0x800 \/ count = 3 /\ 0x800 <= cp < 0x10000 \/ count = 4 /\ 0x10000 <= cp <= 0x10ffff.

Lemma utf8_class count cp : class count cp ->
  exists f fs, utf8 cp = f :: fs /\ Forall cont fs /\ 0 <= f <= 255 /\ (count = 3 -> 0xe0 <= f) /\ (count = 4 -> 0xf0 <= f) /\ zlen fs = count - 1.
Proof.
  intros [[-> H]|[[-> H]|[[-> H]|[-> H]]]].
  - unfold utf8. rewrite decide_True by lia. exists cp, []. split_and!; [done|apply List.Forall_nil|lia..|done].
  - digits cp a b. rewrite utf8_2 by lia. eexists _, _. split; [done|]. split; [repeat constructor; unfold cont; lia|]. split_and!; [lia..|done].
  - digits cp a' c. digits a' a b. rewrite utf8_3 by lia. eexists _, _. split; [done|]. split; [repeat constructor; unfold cont; lia|].
    split_and!; [lia..|done].
  - digits cp a' d. digits a' a'' c. digits a'' a b. rewrite utf8_4 by lia. eexists _, _. split; [done|].
    split; [repeat constructor; unfold cont; lia|]. split_and!; [lia..|done].
Qed.

Lemma between_class count f l : class count f -> class count l -> f <= l -> between (utf8 f) (utf8 l) ≡ coded f l.
Proof.
  unfold class. intros Hf Hl Hle. assert (count = 1 \/ count = 2 \/ count = 3 \/ count = 4) as [-> |[-> |[-> | ->]]] by lia.
  - apply between_1; lia.
  - apply between_2; lia.
  - apply between_3; lia.
  - apply between_4; lia.
Qed.

Lemma stand_pad4 bs : stand (pad4 bs) 0 bs.
Proof.
  intros i x Hi. pose proof (zget_Some_range _ _ _ Hi). unfold pad4. by rewrite Z.add_0_l, zget_app_l by lia.
Qed.

Lemma piece_spec count s e lo hi : class count lo -> class count hi -> lo <= hi ->
  adds (build 4 s e (encode lo) (encode hi) count 0) s e (coded lo hi).
Proof.
  intros Hlo Hhi Hle. pose proof (between_class _ _ _ Hlo Hhi Hle) as HB. eapply adds_proper; [exact HB|].
  assert (lexle (utf8 lo) (utf8 hi)) as Hlex.
  { assert (coded lo hi (utf8 lo)) as (x & w & _ & _ & _ & _ & Hl)%HB by (exists lo; split; [lia|done]). done. }
  rewrite !encode_utf8 by (unfold class in *; lia). pose proof (stand_pad4 (utf8 lo)) as Sl. pose proof (stand_pad4 (utf8 hi)) as Sh.
  destruct (utf8_class _ _ Hlo) as (f & fs & Ef & Cf & Hf & Lf & Lf' & Zf), (utf8_class _ _ Hhi) as (l & ls & El & Cl & Hl & _ & _ & Zl).
  rewrite Ef, El in *. assert (count <= 4) by (unfold class in *; lia). unfold zlen in Zf.
  apply converter_build_spec; try done; unfold zlen in *; try lia.
Qed.

Lemma adds_fold {A} (f : t -> A -> SM Budget t) (P : A -> language) s e l : (forall x, x ∈ l -> adds (fun out => f out x) s e (P x)) ->
  adds (fun out => foldS f out l) s e (fun w => exists x, x ∈ l /\ P x w).
Proof.
  induction l as [|x l IH]; intros Hf.
  - eapply adds_proper; [|apply adds_none]. intros w. split; [done|]. by intros (x & []%elem_of_nil & _).
  - eapply adds_proper; [|apply adds_seq; [apply Hf; by left|apply IH; intros y Hy; apply Hf; by right]].
    intros w. unfold lunion. setoid_rewrite elem_of_cons. naive_solver.
Qed.

Lemma edge_spec s e lo hi : adds (edge s e lo hi) s e (coded (Z.max lo 0) (Z.min hi 0x10ffff)).
Proof.
  assert (forall count, 1 <= count <= 4 -> exists sc ec, START_CODES.[count - 1] = Some sc /\ END_CODES.[count - 1] = Some ec /\
    forall cp, sc <= cp <= ec <-> class count cp) as HC.
  { intros count Hc. assert (count = 1 \/ count = 2 \/ count = 3 \/ count = 4) as [-> |[-> |[-> | ->]]] by lia;
      (eexists _, _; split; [done|]; split; [done|]); intros cp; unfold class; lia. }
  eapply adds_proper; [|apply (adds_fold _ (fun count w => exists cp, class count cp /\ lo <= cp <= hi /\ w = utf8 cp) s e (seqZ 1 4))].
  - intros w. unfold coded. split.
    { intros (count & _ & cp & Hc & Hcp & ->). exists cp. split; [unfold class in Hc; lia|done]. }
    intros (cp & Hcp & ->). assert (exists count, class count cp) as [count Hc].
    { unfold class. destruct (decide (cp < 0x80)); [exists 1; lia|]. destruct (decide (cp < 0x800)); [exists 2; lia|].
      destruct (decide (cp < 0x10000)); [exists 3; lia|exists 4; lia]. }
    exists count. split; [apply elem_of_seqZ; unfold class in Hc; lia|]. exists cp. split_and!; [done|lia..|done].
  - intros count Hcount%elem_of_seqZ. destruct (HC count) as (sc & ec & E1 & E2 & HC'); [lia|].
    eapply adds_need; [exact E1|]. eapply adds_need; [exact E2|]. apply adds_if; intros Hd.
    + eapply adds_proper; [|apply piece_spec; [apply HC'; lia..|done]]. intros w. unfold coded. setoid_rewrite <- HC'. split.
      * intros (cp & Hcp & ->). exists cp. split_and!; [lia..|done].
      * intros (cp & Hc & Hcp & ->). exists cp. split; [lia|done].
    + eapply adds_proper; [|apply adds_none]. intros w. split; [done|]. intros (cp & Hc%HC' & Hcp & _). lia.
Qed.
End Converter.

(** * The conversion *)

(** The words of a transition: a byte, or the encoding of a scalar value. *)
Definition mixed (lo hi : Z) (b : bool) : language :=
  if b then one lo hi else fun w => exists cp, is_scalar cp /\ lo <= cp <= hi /\ w = utf8 cp.

Lemma convertTransition_spec s e u : (bytes u = true -> 0 <= tmin u /\ tmax u <= 255) -> tmin u <= tmax u ->
  adds (convertTransition s e u) s e (reads mixed u).
Proof.
  intros Hb Hle. unfold convertTransition, reads, mixed. destruct (bytes u) eqn:Eb; [destruct Hb; [done|]; apply adds_edge; lia|].
  eapply adds_proper; [|apply adds_seq].
  2: { apply (adds_if (tmin u <= 0xd7ff) (Converter.edge s e (tmin u) (Z.min (tmax u) 0xd7ff)) mret s e (coded (Z.max (tmin u) 0) (Z.min (tmax u) 0xd7ff))); intros H.
    - eapply adds_proper; [|apply edge_spec]. by replace (Z.min (Z.min (tmax u) 0xd7ff) 0x10ffff) with (Z.min (tmax u) 0xd7ff) by lia.
    - eapply adds_proper; [|apply adds_none]. intros w. split; [done|]. intros (cp & Hcp & _). lia. }
  2: { apply (adds_if (0xe000 <= tmax u) (Converter.edge s e (Z.max (tmin u) 0xe000) (tmax u)) mret s e (coded (Z.max (tmin u) 0xe000) (Z.min (tmax u) 0x10ffff))); intros H.
    - eapply adds_proper; [|apply edge_spec]. by replace (Z.max (Z.max (tmin u) 0xe000) 0) with (Z.max (tmin u) 0xe000) by lia.
    - eapply adds_proper; [|apply adds_none]. intros w. split; [done|]. intros (cp & Hcp & _). lia. }
  intros w. unfold lunion, coded, is_scalar. split.
  - intros [(cp & Hcp & ->)|(cp & Hcp & ->)]; exists cp; split_and!; lia || done.
  - intros (cp & [Hs|Hs] & Hcp & ->); [left|right]; exists cp; (split; [lia|done]).
Qed.

(** A walk from states whose transitions are all those of a part. *)
Lemma walk_part (G H : edges) n n' m m' e (P : Z -> Prop) q w :
  (forall q u, P q -> H q u -> G q u /\ (m <= dest u < m' -> n <= dest u < n' /\ P (dest u))) -> P q -> walk H m m' e q w -> walk G n n' e q w.
Proof.
  intros HP Hq Hw. revert Hq. induction Hw as [q u x Hu Hd Hx|q u x w Hu Hd Hx Hw IH]; intros Hq; destruct (HP q u Hq Hu) as [Hg Hdd].
  - by eapply walk_last.
  - destruct (Hdd Hd) as [Hr Hp]. eapply walk_more; [done..|]. by apply IH.
Qed.

Lemma gadget_target n n' G s e L q e' w : gadget n n' G s e L -> e' < n -> walk G n n' e' q w -> e' = e.
Proof. intros HG He. induction 1 as [q u x Hu Hd Hx|]; [|done]. destruct (gadget_dest _ _ _ _ _ _ HG _ _ Hu) as [?|?]; [congruence|lia]. Qed.

Section Conversion.
Context (m : Z).

(** The new states between the first [m] read what the transitions [P] between those read. *)
Record converted (n' : Z) (P E2 : edges) : Prop := {
  converted_bytes : forall q u, E2 q u -> byte_range u;
  converted_walk : forall s e w, 0 <= s < m -> 0 <= e < m -> walk E2 m n' e s w <-> exists u, P s u /\ dest u = e /\ reads mixed u w }.

Lemma converted_add n' n'' P E2 G s0 u0 : m <= n' -> within n' E2 -> 0 <= s0 < m -> 0 <= dest u0 < m ->
  gadget n' n'' G s0 (dest u0) (reads mixed u0) -> converted n' P E2 ->
  converted n'' (fun s u => P s u \/ s = s0 /\ u = u0) (join E2 G).
Proof.
  intros Hm HW Hs0 Hd0 HG [HB Hwalk]. split; [intros q u [Hu|Hu]; [by eapply HB|by eapply gadget_bytes]|].
  intros s e w Hs He. pose proof (gadget_le _ _ _ _ _ _ HG) as Hle.
  assert (forall q w, m <= q < n' -> walk (join E2 G) m n'' e q w -> walk E2 m n' e q w) as HinE.
  { intros q v Hq. apply (walk_part _ _ _ _ _ _ _ (fun q => m <= q < n')); [|done]. intros p u Hp [Hu|Hu].
    - split; [done|]. apply HW in Hu. lia.
    - apply (gadget_src _ _ _ _ _ _ HG) in Hu. lia. }
  assert (forall q w, n' <= q < n'' -> walk (join E2 G) m n'' e q w -> walk G n' n'' e q w) as HinG.
  { intros q v Hq. apply (walk_part _ _ _ _ _ _ _ (fun q => n' <= q < n'')); [|done]. intros p u Hp [Hu|Hu]; [apply HW in Hu; lia|].
    split; [done|]. apply (gadget_dest _ _ _ _ _ _ HG) in Hu. lia. }
  transitivity (walk E2 m n' e s w \/ s = s0 /\ e = dest u0 /\ reads mixed u0 w); [|rewrite Hwalk by done; naive_solver].
  rewrite <- (gadget_lang _ _ _ _ _ _ HG). split.
  - intros Hw. inversion Hw as [q u x [Hu|Hu] Hd Hx|q u x w' [Hu|Hu] Hd Hx Hw']; subst.
    + left. by eapply walk_last.
    + right. destruct (gadget_src _ _ _ _ _ _ HG _ _ Hu) as [->|]; [|lia]. destruct (gadget_dest _ _ _ _ _ _ HG _ _ Hu) as [E|]; [|lia].
      split_and!; [done..|]. by eapply walk_last.
    + left. assert (m <= dest u < n') by (apply HW in Hu; lia). eapply walk_more; [done..|]. by apply HinE.
    + right. destruct (gadget_src _ _ _ _ _ _ HG _ _ Hu) as [->|]; [|lia].
      assert (n' <= dest u < n'') as Hd' by (destruct (gadget_dest _ _ _ _ _ _ HG _ _ Hu); lia). apply HinG in Hw'; [|done].
      assert (e < n') as Hen by lia. pose proof (gadget_target _ _ _ _ _ _ _ _ _ HG Hen Hw') as ->. split_and!; [done..|]. by eapply walk_more.
  - intros [Hw|(-> & -> & Hw)]; (eapply walk_mono; [|..|exact Hw]); try lia; [by left|by right].
Qed.

Context (n' : Z) (E E2 : edges) (F : Z -> bool) (Hm : 0 < m <= n') (HE : within m E) (HE2 : within n' E2) (HC : converted n' E E2).

Lemma walk_from e s w v : walk E2 m n' e s w -> from plain E2 (grow m F) e v -> from plain E2 (grow m F) s (w ++ v).
Proof.
  intros Hw Hv. induction Hw as [q u x Hu Hd Hx|q u x w Hu Hd Hx Hw IH]; simpl; apply from_plain_cons; exists u; (split; [done|]; split; [done|]).
  - by rewrite Hd.
  - by apply IH.
Qed.

(** Every word is read in walks between the first states. *)
Lemma from_walk w : forall q, w <> [] -> from plain E2 (grow m F) q w ->
  exists e w1 w2, w = w1 ++ w2 /\ w1 <> [] /\ 0 <= e < m /\ walk E2 m n' e q w1 /\ from plain E2 (grow m F) e w2.
Proof.
  induction w as [|x w IH]; intros q Hne Hw; [done|]. apply from_plain_cons in Hw as (u & Hu & Hx & Hw). pose proof (HE2 _ _ Hu) as [_ Hd].
  destruct (decide (dest u < m)).
  - exists (dest u), [x], w. split_and!; [done|done|lia..| |done]. by eapply walk_last.
  - destruct w as [|y w]; [apply from_plain_nil in Hw; unfold grow in Hw; rewrite decide_False in Hw by lia; done|].
    destruct (IH (dest u)) as (e & w1 & w2 & -> & _ & He & H1 & H2); [done..|]. exists e, (x :: w1), w2. split_and!; [done|done|lia..| |done].
    eapply walk_more; [done|lia|done..].
Qed.

Lemma convert_lang s w : 0 <= s < m -> from plain E2 (grow m F) s w <-> from mixed E F s w.
Proof.
  intros Hs. split.
  - revert s Hs. induction w as [w IH] using (induction_ltof1 _ (@length Z)). intros s Hs Hw. destruct (decide (w = [])) as [->|Hne].
    + apply from_plain_nil in Hw. unfold grow in Hw. rewrite decide_True in Hw by lia. by apply from_nil.
    + destruct (from_walk w s Hne Hw) as (e & w1 & w2 & -> & Hn1 & He & H1 & H2). apply (converted_walk _ _ _ HC) in H1 as (u & Hu & <- & Hr); [|done..].
      eapply from_step; [done..|]. apply IH; [|done|done]. unfold ltof. rewrite length_app. destruct w1; [done|simpl; lia].
  - intros Hw. revert s w Hw Hs. apply (from_ind mixed E F (fun s w => 0 <= s < m -> from plain E2 (grow m F) s w)).
    + intros q HF Hs. apply from_plain_nil. unfold grow. by rewrite decide_True by lia.
    + intros q u v w Hu Hr _ IH Hs. pose proof (HE _ _ Hu) as [_ Hd]. apply (walk_from (dest u)); [|by apply IH]. apply (converted_walk _ _ _ HC); [done..|]. by exists u.
Qed.
End Conversion.

Section Convert.
Context (a : t) (d m : Z) (E : edges) (F : Z -> bool) (Ha : nfa d a m E F) (HB : byte_labels E).

Lemma copyStates_spec Er : d < int32_limit ->
  spends d (copyStates a) Er (fun st d' => (forall q, 0 <= q < m -> st.1.[q] = Some q) /\ bld d' st.2 m (fun _ _ => False) (grow m F)).
Proof.
  intros Hd. pose proof (nfa_pos _ _ _ _ _ Ha) as Hm. assert (0 <= d) as Hd0 by (destruct Ha as (_ & ? & ? & _ & []); lia).
  unfold copyStates. rewrite (nfa_size _ _ _ _ _ Ha Hd). eapply spends_post.
  - apply (spends_seq (fun i st d' => zlen st.1 = m /\ (forall q, 0 <= q < i -> st.1.[q] = Some q) /\ bld d' st.2 i (fun _ _ => False) (grow m F))); [lia| |].
    + simpl. rewrite zlen_replicate. split_and!; [lia|lia|]. refine (bld_ext _ _ _ _ _ _ _ _ _ (bld_init d Hd0)); [done|lia].
    + intros i [sm out] d' Hd' Hi (H1 & H2 & H3). cbn [fst snd] in *. eapply spends_need_bind; [by apply (nfa_accept _ _ _ _ _ i Ha)|].
      eapply spends_bind; [by apply addState_spec|]. intros [q out'] d2 _ [Eq B]. cbn [fst snd] in Eq, B. subst q.
      eapply spends_need_bind; [apply zset_in; lia|]. apply spends_ret. cbn [fst snd]. split_and!; [by rewrite zlen_insert| |].
      * intros q Hq. rewrite zget_insert by lia. case_decide; [congruence|]. apply H2. lia.
      * refine (bld_ext _ _ _ _ _ _ _ _ _ B); [done|]. intros q Hq. cbv beta. unfold grow. case_decide; [subst q; by rewrite decide_True by lia|done].
  - intros [sm out] d' _ (_ & H2 & H3). done.
Qed.

Definition convertLoop (P : edges) (out : t) (d' : Z) : Prop :=
  exists n' E2, m <= n' /\ bld d' out n' E2 (grow m F) /\ converted m n' P E2.

Lemma convertLoop_ext (P P' : edges) out d' : (forall s u, 0 <= s < m -> P s u <-> P' s u) -> convertLoop P out d' -> convertLoop P' out d'.
Proof.
  intros HP (n' & E2 & Hn & B & [C1 C2]). exists n', E2. split_and!; [done..|]. split; [done|]. intros s e w Hs He. rewrite C2 by done.
  split; intros (u & Hu & H); exists u; (split; [by apply HP|done]).
Qed.

Lemma convertStep P s u out d' Er stateMap : (forall q, 0 <= q < m -> stateMap.[q] = Some q) -> E s u -> convertLoop P out d' ->
  spends d' (from ← need stateMap.[s]; to ← need stateMap.[dest u]; convertTransition from to u out) Er (convertLoop (fun p v => P p v \/ p = s /\ v = u)).
Proof.
  intros Hmap Hu (n' & E2 & Hn & B & C). destruct (nfa_within _ _ _ _ _ Ha _ _ Hu) as [Hs Hdu].
  eapply spends_need_bind; [by apply Hmap|]. eapply spends_need_bind; [by apply Hmap|].
  eapply spends_post; [eapply convertTransition_spec; [exact (HB _ _ Hu)|by eapply (nfa_ranges _ _ _ _ _ _ _ Ha)|exact B|lia..]|].
  intros out' d2 _ (n2 & G & B2 & HG). pose proof (gadget_le _ _ _ _ _ _ HG). exists n2, (join E2 G). split_and!; [lia| |].
  - refine (bld_ext _ _ _ _ _ _ _ _ _ B2); [done|]. intros q Hq. by apply grow_grow.
  - eapply converted_add; [exact Hn| |done..]. destruct B as (? & ? & _ & []). done.
Qed.

Lemma convert_spec Er : spends d (convert a) Er (fun r d' => exists n' E2 F2, nfa d' r n' E2 F2 /\ (forall q u, E2 q u -> byte_range u)
  /\ lang plain E2 F2 ≡ lang mixed E F).
Proof.
  apply spends_small. intros Hd. pose proof (nfa_pos _ _ _ _ _ Ha) as Hm. unfold convert. rewrite (nfa_size _ _ _ _ _ Ha Hd).
  eapply spends_bind; [by apply copyStates_spec|]. intros [sm out] d1 Hd1 [Hmap B1]. cbn [fst snd] in *. eapply spends_bind.
  { apply (spends_seq (fun i => convertLoop (fun s u => s < i /\ E s u))); [lia| |].
    - exists m, (fun _ _ => False). split_and!; [lia|done|]. split; [done|]. intros s e w Hs He. split; [intros Hw; by inversion Hw|]. intros (u & [? _] & _). lia.
    - intros i r d2 Hd2 Hi Hr. destruct (nfa_from d a m E F i Ha Hd Hi) as (l & El & Hl). eapply spends_need_bind; [exact El|]. eapply spends_post.
      + apply (spends_fold (fun seen => convertLoop (fun s u => s < i /\ E s u \/ s = i /\ u ∈ seen))).
        * eapply convertLoop_ext; [|exact Hr]. intros s u _. rewrite elem_of_nil. tauto.
        * intros seen u rest r' d3 _ Hsplit Hc. eapply spends_post; [apply convertStep; [done| |exact Hc]|].
          -- apply Hl. rewrite Hsplit. apply elem_of_app. right. left.
          -- intros r2 d4 _. apply convertLoop_ext. intros s v _. rewrite elem_of_app, list_elem_of_singleton. tauto.
      + intros r' d3 _. apply convertLoop_ext. intros s u Hs. rewrite Hl. split.
        * intros [[? ?]|[-> ?]]; (split; [lia|done]).
        * intros [? ?]. destruct (decide (s = i)) as [->|]; [by right|left; split; [lia|done]]. }
  intros r d2 Hd2 (n' & E2 & Hn & B & C)%(convertLoop_ext _ E); [|intros s u ?; split; [by intros [_ ?]|split; [lia|done]]].
  eapply spends_post; [eapply freeze_spec; [exact B|lia]|]. intros r' d3 _ Hr. exists n', E2, (grow m F). split_and!; [done|apply (converted_bytes _ _ _ _ C)|].
  intros w. assert (within n' E2) as W by (destruct B as (? & ? & _ & []); done).
  pose proof (nfa_within _ _ _ _ _ Ha). apply (convert_lang m n' E E2 F); lia || done.
Qed.

(** The result of [utf32ToUtf8] reads bytes, is deterministic, and accepts the encodings. *)
Lemma utf32ToUtf8_spec Er : spends d (utf32ToUtf8 a) Er (fun r d' => exists n' E' F', dfa d' r n' E' F' /\ (forall q u, E' q u -> byte_range u)
  /\ ((forall q, 0 <= q < n' -> live E' F' q) \/ ~ live E' F' 0) /\ lang plain E' F' ≡ lang mixed E F).
Proof.
  eapply spends_bind; [apply convert_spec|]. intros r1 d1 Hd1 (n1 & E1 & F1 & H1 & R1 & L1).
  eapply spends_bind; [eapply determinize_spec; [exact H1|intros s u Hu; apply R1 in Hu; unfold byte_range in Hu; lia]|].
  intros r2 d2 Hd2 (n2 & E2 & F2 & H2 & L2 & R2).
  eapply spends_post; [eapply removeDeadStates_spec; exact H2|]. intros r3 d3 Hd3 (n3 & E3 & F3 & H3 & L3 & R3 & V3).
  exists n3, E3, F3. split_and!; [done| |done|by rewrite L3, L2].
  intros q u Hu. pose proof (nfa_ranges _ _ _ _ _ _ _ (dfa_nfa _ _ _ _ _ H3) Hu). destruct (R3 _ _ Hu) as (s & v & Hv & E4 & E5).
  destruct (R2 _ _ Hv) as (s' & v' & Hv' & ? & ?). apply R1 in Hv'. unfold byte_range in *. lia.
Qed.
End Convert.
