(* ===== verification/ByteDfa.v ===== *)
(** Deterministic automata on bytes: [util/automaton/ByteDfa.h].

    [ByteDfa::build] lays an automaton out as sorted byte ranges by state, with neighbouring ranges to the same state merged, and for
    small automata as a table too.  The layout is shown to hold the automaton's transition function ([dfa_build_spec]), so that
    [matches] decides its language with the table as with the ranges, and that the checks of debug builds pass. *)

From S2P Require Import Prelude Search Metered Languages CaseAlternates Automata Determinize LiveStates Utf8.

Import Automaton.

(** * Views *)

Record ByteDfaRange := MkRange { rmin : Z; rmax : Z; rdest : Z }.

Definition DEAD : Z := -1.

(** The arrays a view points to; [vtable] is [None] for the null pointer. *)
Record ByteDfaView := MkView {
  vranges : list ByteDfaRange;
  voffsets : list Z;
  vaccepts : list bool;
  vtable : option (list Z);
  stateCount : Z }.

Module View.

Definition start (v : ByteDfaView) : Z := if decide (stateCount v = 0) then DEAD else 0.
Definition canMatch (v : ByteDfaView) (state : Z) : bool := bool_decide (state <> DEAD).
Definition isMatch (v : ByteDfaView) (state : Z) : option bool := if decide (state = DEAD) then Some false else (vaccepts v).[state].

Definition transitions (v : ByteDfaView) (state : Z) : option (list ByteDfaRange) :=
  b ← (voffsets v).[state];
  e ← (voffsets v).[state + 1];
  slice (vranges v) b (u32 (e - b)).

(** The first range that holds the byte. *)
Fixpoint findRange (l : list ByteDfaRange) (byte : Z) : option ByteDfaRange :=
  match l with
  | [] => None
  | range :: l => if decide (rmin range <= byte <= rmax range) then Some range else findRange l byte
  end.

Definition step (v : ByteDfaView) (state byte : Z) : option Z :=
  if decide (state = DEAD) then Some DEAD else
  match vtable v with
  | Some table => table.[state * 256 + byte]
  | None => l ← transitions v state; Some (from_option rdest DEAD (findRange l byte))
  end.

Fixpoint nextLive (l : list ByteDfaRange) (byte : Z) : Z :=
  match l with
  | [] => DEAD
  | range :: l => if decide (byte <= rmax range) then Z.max byte (rmin range) else nextLive l byte
  end.

Definition nextLiveByte (v : ByteDfaView) (state byte : Z) : option Z :=
  if decide (state = DEAD) then Some DEAD else l ← transitions v state; Some (nextLive l byte).

Definition liveByteRangeMax (v : ByteDfaView) (state byte : Z) : option Z :=
  if decide (state = DEAD) then Some DEAD else l ← transitions v state; Some (from_option rmax DEAD (findRange l byte)).

(** The inner loop of [allStatesLiveOnAllBytes]: [None] is the early return. *)
Fixpoint covered (l : list ByteDfaRange) (nextByte : Z) : bool :=
  match l with
  | [] => bool_decide (nextByte = 256)
  | range :: l => if decide (rmin range <> nextByte) then false else covered l (rmax range + 1)
  end.

Definition allStatesLiveOnAllBytes (v : ByteDfaView) : option bool :=
  all ← foldM (fun (all : bool) state => if all then l ← transitions v state; Some (covered l 0) else Some false) true (seqZ 0 (stateCount v));
  Some (all && bool_decide (stateCount v <> 0)).

Fixpoint run (v : ByteDfaView) (state : Z) (bytes : list Z) : option bool :=
  match bytes with
  | [] => isMatch v state
  | byte :: bytes =>
      state ← step v state byte;
      if decide (state = DEAD) then Some false else run v state bytes
  end.

Definition matches (v : ByteDfaView) (bytes : list Z) : option bool := run v (start v) bytes.
End View.

(** * Construction *)

Record ByteDfa := MkDfa { ranges : list ByteDfaRange; offsets : list Z; accepts : list bool; table : list Z }.

Definition no_dfa : ByteDfa := MkDfa [] [] [] [].

Definition makeView (d : ByteDfa) : ByteDfaView :=
  MkView (ranges d) (offsets d) (accepts d) (if decide (table d = []) then None else Some (table d)) (u32 (zlen (accepts d))).

Module Build.

Definition range_le (a b : ByteDfaRange) : Prop := rmin a <= rmin b.
#[global] Instance range_le_dec : RelDecision range_le.
Proof. intros a b. unfold range_le. apply _. Defined.

Definition collect (automaton : t) : SM Budget (list (list ByteDfaRange)) :=
  foldS (fun stateRanges state =>
    l ← need (transitionsFrom automaton state);
    foldS (fun stateRanges tr =>
      assert (0 <= tmin tr /\ tmax tr <= 255);;
      assert (0 <= dest tr < size automaton);;
      row ← need stateRanges.[state];
      stateRanges ← need (zset stateRanges state (row ++ [MkRange (u8 (tmin tr)) (u8 (tmax tr)) (dest tr)]));
      consume 1;;
      mret stateRanges) stateRanges l)
  (replicate (Z.to_nat (size automaton)) []) (seqZ 0 (size automaton)).

Definition mergeRange (offset : Z) (ranges : list ByteDfaRange) (range : ByteDfaRange) : list ByteDfaRange :=
  match last ranges with
  | Some r =>
      if decide (offset <> zlen ranges /\ rdest r = rdest range /\ rmax r + 1 = rmin range)
      then removelast ranges ++ [MkRange (rmin r) (rmax range) (rdest r)]
      else ranges ++ [range]
  | None => ranges ++ [range]
  end.

Definition layoutState (st : list ByteDfaRange * list Z) (state : list ByteDfaRange) : SM Budget (list ByteDfaRange * list Z) :=
  let '(ranges, offsets) := st in
  let state := merge_sort range_le state in
  foldS (fun (_ : ()) i =>
    a ← need state.[i - 1];
    b ← need state.[i];
    assert (rmax a < rmin b)) () (seqZ 1 (zlen state - 1));;
  offset ← need (last offsets);
  let ranges := foldl (mergeRange offset) ranges state in
  mret (ranges, offsets ++ [u32 (zlen ranges)]).

Definition layout (stateRanges : list (list ByteDfaRange)) : SM Budget (list ByteDfaRange * list Z) :=
  foldS layoutState ([], [0]) stateRanges.

(** The checks of debug builds. *)
Definition destinations (v : ByteDfaView) (state : Z) : option (list Z) := l ← View.transitions v state; Some (fmap (M := list) rdest l).

Definition reachable (v : ByteDfaView) : option (list bool) :=
  let n := zlen (vaccepts v) in
  marks ← zset (replicate (Z.to_nat n) false) 0 true;
  whileO (S (length (vaccepts v))) (search (destinations v)) (marks, [0]).

Definition coreachable (v : ByteDfaView) : option (list bool) :=
  backward (View.transitions v) rdest (zget (vaccepts v)) (zlen (vaccepts v)) (S (length (vaccepts v))).

Definition fillTable (v : ByteDfaView) : option (list Z) :=
  let n := zlen (vaccepts v) in
  foldM (fun table state =>
    l ← View.transitions v state;
    foldM (fun table range =>
      foldM (fun table byte => zset table (state * 256 + byte) (swrap 16 (rdest range)))
        table (seqZ (rmin range) (rmax range - rmin range + 1))) table l)
  (replicate (Z.to_nat (n * 256)) DEAD) (seqZ 0 n).

Definition build (automaton : t) : SM Budget ByteDfa :=
  e ← need (isEmpty automaton);
  if e : bool then mret no_dfa else
  stateRanges ← collect automaton;
  '(ranges, offsets) ← layout stateRanges;
  let result := MkDfa ranges offsets (Automaton.accepts automaton) [] in
  marks ← need (reachable (makeView result));
  assert (Forall (fun b => b = true) marks);;
  marks ← need (coreachable (makeView result));
  assert (Forall (fun b => b = true) marks);;
  let n := zlen (accepts result) in
  if decide (n * 256 * 2 <= 128 * 1024) then
    table ← need (fillTable (makeView result));
    consume (n * 256);;
    mret (MkDfa ranges offsets (accepts result) table)
  else mret result.
End Build.

(** * What the layout holds *)

Definition sorted_row (row : list ByteDfaRange) : Prop := StronglySorted (fun a b => rmax a < rmin b) row.
Definition holds (r : ByteDfaRange) (x : Z) : Prop := rmin r <= x <= rmax r.
Definition byte_row (n : Z) (row : list ByteDfaRange) : Prop :=
  Forall (fun r => 0 <= rmin r <= rmax r /\ rmax r <= 255 /\ 0 <= rdest r < n) row.
Definition leads (row : list ByteDfaRange) (x q : Z) : Prop := exists r, r ∈ row /\ holds r x /\ rdest r = q.

(** Rows laid out one after another. *)
Definition laid (ranges : list ByteDfaRange) (offs : list Z) (rows : list (list ByteDfaRange)) : Prop :=
  ranges = concat rows /\ zlen offs = zlen rows + 1
  /\ forall i, 0 <= i <= zlen rows -> offs.[i] = Some (zlen (concat (take (Z.to_nat i) rows))).

(** A view that holds the rows. *)
Record holds_rows (v : ByteDfaView) (rows : list (list ByteDfaRange)) (acc : list bool) : Prop := {
  hr_laid : rows <> [] -> laid (vranges v) (voffsets v) rows;
  hr_small : zlen (vranges v) < 2 ^ 32;
  hr_accepts : vaccepts v = acc;
  hr_size : zlen rows = zlen acc;
  hr_count : stateCount v = zlen acc;
  hr_rows : Forall (fun row => sorted_row row /\ byte_row (zlen rows) row) rows;
  hr_table : forall table, vtable v = Some table ->
    forall s row x, rows.[s] = Some row -> 0 <= x <= 255 -> table.[s * 256 + x] = Some (from_option rdest DEAD (View.findRange row x)) }.

Lemma transitions_spec v rows acc s row : holds_rows v rows acc -> rows.[s] = Some row -> View.transitions v s = Some row.
Proof.
  intros [HL Hsm _ _ _ _ _] Hrow. pose proof (zget_Some_range _ _ _ Hrow) as Hs. destruct HL as (Er & Hlen & Ho); [intros Hnil; rewrite Hnil in Hs; change (zlen []) with 0 in Hs; lia|].
  unfold View.transitions. rewrite !Ho by lia. opt. unfold zget in Hrow. rewrite decide_True in Hrow by lia.
  replace (Z.to_nat (s + 1)) with (S (Z.to_nat s)) by lia. rewrite (take_S_r _ _ _ Hrow), concat_app, zlen_app. simpl. rewrite app_nil_r, Z.add_simpl_l.
  rewrite Er, <- (take_drop_middle rows _ _ Hrow), concat_app in Hsm. simpl in Hsm. rewrite !zlen_app in Hsm.
  rewrite uwrap_id by (unfold is_u; pose proof (zlen_nonneg (concat (take (Z.to_nat s) rows))); pose proof (zlen_nonneg row);
    pose proof (zlen_nonneg (concat (drop (S (Z.to_nat s)) rows))); lia).
  rewrite Er, <- (take_drop_middle rows _ _ Hrow) at 1. rewrite concat_app. simpl. by apply slice_app.
Qed.

Lemma findRange_spec row x : match View.findRange row x with Some r => r ∈ row /\ holds r x | None => forall r, r ∈ row -> ~ holds r x end.
Proof.
  induction row as [|r row IH]; simpl; [by intros r ?%not_elem_of_nil|]. case_decide as Hx; [split; [left|done]|].
  destruct (View.findRange row x) as [r'|]; [split; [right|]; apply IH|]. intros r' [->|Hr]%elem_of_cons; [done|by apply IH].
Qed.

Lemma sorted_unique row r r' x : sorted_row row -> r ∈ row -> r' ∈ row -> holds r x -> holds r' x -> r = r'.
Proof.
  intros Hs. induction Hs as [|a l Hs IH Hall]; [by intros ?%not_elem_of_nil|]. rewrite Forall_forall in Hall. unfold holds in *.
  intros [->|H1]%elem_of_cons [->|H2]%elem_of_cons Hx Hx'; [done| | |by apply IH].
  - apply Hall in H2. lia.
  - apply Hall in H1. lia.
Qed.

Lemma findRange_leads n row x q : sorted_row row -> byte_row n row -> 0 <= q ->
  from_option rdest DEAD (View.findRange row x) = q <-> leads row x q.
Proof.
  intros Hs Hb Hq. pose proof (findRange_spec row x) as Hf. unfold leads. destruct (View.findRange row x) as [r|]; simpl.
  - destruct Hf as [Hr Hx]. split; [by intros <-; exists r|]. intros (r' & Hr' & Hx' & <-). by rewrite (sorted_unique row r r' x).
  - unfold DEAD. split; [lia|]. intros (r & Hr & Hx & _). by destruct (Hf r Hr).
Qed.

(** [step] with the table is [step] with the ranges. *)
Lemma step_spec v rows acc s row x : holds_rows v rows acc -> rows.[s] = Some row -> 0 <= x <= 255 ->
  View.step v s x = Some (from_option rdest DEAD (View.findRange row x)).
Proof.
  intros Hv Hrow Hx. pose proof (zget_Some_range _ _ _ Hrow). unfold View.step. rewrite decide_False by (unfold DEAD; lia).
  destruct (vtable v) as [table|] eqn:Et; [by eapply hr_table|]. by rewrite (transitions_spec _ _ _ _ _ Hv Hrow).
Qed.

(** A run of the view is a path of the automaton it holds. *)
Definition presents (rows : list (list ByteDfaRange)) (acc : list bool) (n : Z) (E : edges) (F : Z -> bool) : Prop :=
  zlen rows = n /\ zlen acc = n /\ (forall s, 0 <= s < n -> acc.[s] = Some (F s))
  /\ forall s row x q, rows.[s] = Some row -> leads row x q <-> exists u, E s u /\ has u x /\ dest u = q.

Lemma view_run_spec v rows acc n E F : holds_rows v rows acc -> presents rows acc n E F ->
  forall w s, Forall (fun x => 0 <= x <= 255) w -> 0 <= s < n ->
  exists b, View.run v s w = Some b /\ (b = true <-> from plain E F s w).
Proof.
  intros Hv (Hr & Ha & Hacc & Hlead). induction w as [|x w IH]; intros s Hw Hs; cbn [View.run].
  - unfold View.isMatch. rewrite decide_False by (unfold DEAD; lia). rewrite (hr_accepts _ _ _ Hv), Hacc by done.
    eexists. split; [done|]. by rewrite from_plain_nil.
  - apply Forall_cons in Hw as [Hx Hw]. destruct (zget_in rows s) as [row Hrow]; [lia|]. rewrite (step_spec _ _ _ _ _ _ Hv Hrow Hx). opt.
    pose proof (hr_rows _ _ _ Hv) as HR. rewrite Forall_forall in HR. destruct (HR row) as [H1 H2]; [by eapply zget_elem_1|].
    setoid_rewrite from_plain_cons. pose proof (findRange_spec row x) as Hf. destruct (View.findRange row x) as [r|]; simpl.
    + destruct Hf as [Hin Hx']. pose proof (proj1 (Forall_forall _ _) H2 r Hin) as (_ & _ & Hd). rewrite decide_False by (unfold DEAD; lia).
      destruct (IH (rdest r) Hw ltac:(lia)) as (b & Eb & Hb). exists b. split; [done|]. rewrite Hb. split.
      * intros H. destruct (proj1 (Hlead s row x (rdest r) Hrow)) as (u & Hu & Hux & Hdu); [by exists r|]. exists u. by rewrite Hdu.
      * intros (u & Hu & Hux & H). destruct (proj2 (Hlead s row x (dest u) Hrow)) as (r' & Hr' & Hx2 & Ed); [by exists u|].
        by rewrite (sorted_unique row r r' x H1 Hin Hr' Hx' Hx2), Ed.
    + exists false. split; [done|]. split; [done|]. intros (u & Hu & Hux & _).
      destruct (proj2 (Hlead s row x (dest u) Hrow)) as (r' & Hr' & Hx2 & _); [by exists u|]. by destruct (Hf r' Hr').
Qed.

(** ** [build] *)

Section Build.
Context (a : t) (d n : Z) (E : edges) (F : Z -> bool) (Ha : dfa d a n E F) (HB : forall q u, E q u -> byte_range u) (Hd : d < int32_limit).

Definition conv (u : Transition) : ByteDfaRange := MkRange (tmin u) (tmax u) (dest u).

Lemma length_concat_insert {A} (rows : list (list A)) i row x : rows !! i = Some row ->
  length (concat (<[i := row ++ [x]]> rows)) = S (length (concat rows)).
Proof.
  intros Hi. rewrite insert_take_drop by (by eapply lookup_lt_Some). rewrite <- (take_drop_middle rows i row Hi) at 3.
  rewrite !concat_app. simpl. rewrite !length_app. simpl. lia.
Qed.

Lemma collect_spec Er : spends d (Build.collect a) Er (fun rows d' => zlen rows = n /\ zlen (concat rows) <= d' /\
  forall s row, rows.[s] = Some row -> exists l, transitionsFrom a s = Some l /\ row = conv <$> l).
Proof.
  pose proof (dfa_nfa _ _ _ _ _ Ha) as Hnfa. pose proof (nfa_pos _ _ _ _ _ Hnfa) as Hn. assert (0 <= d) as Hd0 by (destruct Hnfa as (_ & ? & ? & _ & []); lia).
  unfold Build.collect. rewrite (nfa_size _ _ _ _ _ Hnfa Hd).
  eapply spends_post; [apply (spends_seq (fun i rows d' => zlen rows = n /\ zlen (concat rows) <= d' /\
    forall s row, rows.[s] = Some row -> (i <= s -> row = []) /\ (s < i -> exists l, transitionsFrom a s = Some l /\ row = conv <$> l))); [lia| |]|].
  - rewrite zlen_replicate. split_and!; [lia| |].
    + replace (concat (replicate (Z.to_nat n) [])) with (@nil ByteDfaRange); [rewrite zlen_nil; lia|]. induction (Z.to_nat n); [done|simpl; done].
    + intros s row Hr. pose proof (zget_Some_range _ _ _ Hr). split; [intros _; by apply zget_replicate in Hr|lia].
  - intros i rows d1 Hd1 Hi (H1 & H2 & H3). destruct (nfa_from d a n E F i Hnfa Hd Hi) as (l & El & Hl). eapply spends_need_bind; [exact El|].
    eapply spends_post; [apply (spends_fold (fun seen rows' d' => zlen rows' = n /\ zlen (concat rows') <= d' /\ rows'.[i] = Some (conv <$> seen)
      /\ forall s, s <> i -> rows'.[s] = rows.[s]))|].
    + split_and!; [done|done| |done]. destruct (zget_in rows i) as [row Hr]; [lia|]. by rewrite Hr, (proj1 (H3 _ _ Hr)) by lia.
    + intros seen u rest rows' d2 Hd2 Hsplit (G1 & G2 & G3 & G4). assert (E i u) as Hu by (apply Hl; rewrite Hsplit; apply elem_of_app; right; left).
      pose proof (HB _ _ Hu) as Hbr. unfold byte_range in Hbr. pose proof (nfa_within _ _ _ _ _ Hnfa _ _ Hu) as [_ Hdu].
      apply spends_assert_bind; [lia|]. apply spends_assert_bind; [lia|]. eapply spends_need_bind; [exact G3|].
      eapply spends_need_bind; [apply zset_in; lia|]. apply spends_consume_bind; [lia|]. apply spends_ret. split_and!.
      * by rewrite zlen_insert.
      * unfold zlen in *. unfold zget in G3. rewrite decide_True in G3 by lia. rewrite (length_concat_insert _ _ _ _ G3). lia.
      * rewrite zget_insert, decide_True by lia. rewrite fmap_app. simpl. unfold conv at 3. by rewrite !uwrap_id by (unfold is_u; lia).
      * intros s Hs. rewrite zget_insert by lia. rewrite decide_False by done. by apply G4.
    + intros rows' d2 _ (G1 & G2 & G3 & G4). split_and!; [done|done|]. intros s row Hr. destruct (decide (s = i)) as [->|Hne].
      * rewrite G3 in Hr. injection Hr as <-. split; [lia|]. intros _. by exists l.
      * rewrite G4 in Hr by done. destruct (H3 _ _ Hr) as [H4 H5]. split; intros ?; [apply H4; lia|apply H5; lia].
  - intros rows d' _ (H1 & H2 & H3). split_and!; [done..|]. intros s row Hr. pose proof (zget_Some_range _ _ _ Hr). apply (H3 s row Hr). lia.
Qed.
Lemma sorted_disjoint l : StronglySorted Build.range_le l -> NoDup l -> Forall (fun r => rmin r <= rmax r) l ->
  (forall r r', r ∈ l -> r' ∈ l -> r = r' \/ rmax r < rmin r' \/ rmax r' < rmin r) -> sorted_row l.
Proof.
  intros Hs. induction Hs as [|r l Hs IH Hall]; intros Hnd Hne Hdis; [constructor|]. apply NoDup_cons in Hnd as [Hr Hnd].
  apply Forall_cons in Hne as [Hr0 Hne]. constructor.
  - apply IH; [done..|]. intros r1 r2 H1 H2. apply Hdis; by right.
  - rewrite Forall_forall in Hall, Hne |- *. intros r' Hr'. pose proof (Hall _ Hr') as Hle. pose proof (Hne _ Hr') as Hne'. unfold Build.range_le in Hle.
    destruct (Hdis r r') as [->|[?|?]]; [left|by right|done|lia|lia].
Qed.

Lemma row_sorted s l : 0 <= s < n -> transitionsFrom a s = Some l ->
  let row := merge_sort Build.range_le (conv <$> l) in
  sorted_row row /\ byte_row n row /\ zlen row = zlen l /\ forall x q, leads row x q <-> exists u, E s u /\ has u x /\ dest u = q.
Proof.
  intros Hs El. cbv zeta. pose proof (dfa_nfa _ _ _ _ _ Ha) as Hnfa. destruct (dfa_from d a n E F s Ha Hd Hs) as (l' & El' & Hnd & Hl).
  rewrite El in El'. injection El' as <-. pose proof (merge_sort_Permutation Build.range_le (conv <$> l)) as HP.
  assert (forall r, r ∈ merge_sort Build.range_le (conv <$> l) <-> exists u, r = conv u /\ E s u) as Hin.
  { intros r. rewrite HP, list_elem_of_fmap. by setoid_rewrite Hl. }
  split_and!.
  - apply sorted_disjoint.
    + apply StronglySorted_merge_sort. { intros r1 r2 r3. unfold Build.range_le. lia. } intros r1 r2. unfold Build.range_le. lia.
    + rewrite HP. apply NoDup_fmap_2_strong; [|done]. intros u v Hu%Hl Hv%Hl [= E1 E2 E3].
      destruct (dfa_det _ _ _ _ _ Ha _ _ _ Hu Hv) as [?|?]; [done|]. pose proof (nfa_ranges _ _ _ _ _ _ _ Hnfa Hu). lia.
    + apply Forall_forall. intros r (u & -> & Hu)%Hin. exact (nfa_ranges _ _ _ _ _ _ _ Hnfa Hu).
    + intros r r' (u & -> & Hu)%Hin (v & -> & Hv)%Hin. destruct (dfa_det _ _ _ _ _ Ha _ _ _ Hu Hv) as [->|?]; [by left|by right].
  - apply Forall_forall. intros r (u & -> & Hu)%Hin. pose proof (HB _ _ Hu). pose proof (nfa_within _ _ _ _ _ Hnfa _ _ Hu).
    unfold byte_range in *. simpl. lia.
  - unfold zlen. by rewrite HP, length_fmap.
  - intros x q. unfold leads. split.
    + intros (r & (u & -> & Hu)%Hin & Hx & Hq). by exists u.
    + intros (u & Hu & Hx & Hq). exists (conv u). split_and!; [apply Hin; by exists u|done..].
Qed.

(** Merging neighbours does not change where a row leads. *)
Lemma leads_app l k x q : leads (l ++ k) x q <-> leads l x q \/ leads k x q.
Proof. unfold leads. setoid_rewrite elem_of_app. naive_solver. Qed.

Lemma leads_one r x q : leads [r] x q <-> holds r x /\ rdest r = q.
Proof. unfold leads. setoid_rewrite list_elem_of_singleton. naive_solver. Qed.

Lemma sorted_merged m r0 r l k : rmin r <= rmax r -> sorted_row (m ++ r0 :: r :: l) -> sorted_row (m ++ MkRange (rmin r0) (rmax r) k :: l).
Proof.
  unfold sorted_row. intros Hr. induction m as [|y m IH]; simpl; intros H.
  - apply StronglySorted_inv in H as [H H0]. apply StronglySorted_inv in H as [H H1]. apply Forall_cons in H0 as [H0 H2].
    constructor; [done|exact H1].
  - apply StronglySorted_inv in H as [H H0]. constructor; [by apply IH|]. apply Forall_app in H0 as [H1 H2]. apply Forall_cons in H2 as [H2 H3].
    apply Forall_cons in H3 as [H3 H4]. apply Forall_app. split; [done|]. by constructor.
Qed.

Lemma merge_spec pre l : forall m0, sorted_row (m0 ++ l) -> byte_row n m0 -> byte_row n l ->
  exists m, foldl (Build.mergeRange (zlen pre)) (pre ++ m0) l = pre ++ m /\ sorted_row m /\ byte_row n m /\ zlen m <= zlen m0 + zlen l
    /\ forall x q, leads m x q <-> leads m0 x q \/ leads l x q.
Proof.
  induction l as [|r l IH]; intros m0 Hs Hb0 Hb; simpl.
  { rewrite app_nil_r in Hs. exists m0. rewrite zlen_nil. split_and!; [done..|lia|]. intros x q. unfold leads. setoid_rewrite elem_of_nil. naive_solver. }
  apply Forall_cons in Hb as [Hr Hb].
  assert (forall m1, Build.mergeRange (zlen pre) (pre ++ m0) r = pre ++ m1 -> sorted_row (m1 ++ l) -> byte_row n m1 -> zlen m1 <= zlen m0 + 1 ->
    (forall x q, leads m1 x q <-> leads m0 x q \/ leads [r] x q) -> exists m, foldl (Build.mergeRange (zlen pre)) (Build.mergeRange (zlen pre) (pre ++ m0) r) l = pre ++ m
      /\ sorted_row m /\ byte_row n m /\ zlen m <= zlen m0 + zlen (r :: l) /\ forall x q, leads m x q <-> leads m0 x q \/ leads (r :: l) x q) as Hgo.
  { intros m1 -> H1 H2 H3 H4. destruct (IH m1 H1 H2 Hb) as (m & E1 & G1 & G2 & G3 & G4). exists m. rewrite zlen_cons. split_and!; [done..|lia|].
    intros x q. change (r :: l) with ([r] ++ l). rewrite G4, H4, leads_app. tauto. }
  assert (byte_row n [r]) as Hbr by (by apply Forall_singleton).
  assert (Build.mergeRange (zlen pre) (pre ++ m0) r = pre ++ (m0 ++ [r]) -> exists m, foldl (Build.mergeRange (zlen pre)) (Build.mergeRange (zlen pre) (pre ++ m0) r) l = pre ++ m
      /\ sorted_row m /\ byte_row n m /\ zlen m <= zlen m0 + zlen (r :: l) /\ forall x q, leads m x q <-> leads m0 x q \/ leads (r :: l) x q) as Hpush.
  { intros E1. apply (Hgo (m0 ++ [r]) E1); [by rewrite <- app_assoc|by apply Forall_app|zlen|apply leads_app]. }
  unfold Build.mergeRange in Hpush at 1. destruct (last (pre ++ m0)) as [r0|] eqn:El; [|apply Hpush; by rewrite app_assoc].
  case_decide as Hm; [|apply Hpush; by rewrite app_assoc]. clear Hpush. destruct Hm as (Hne & Hdest & Hadj).
  destruct m0 as [|y m0 _] using rev_ind; [destruct Hne; by rewrite app_nil_r|]. rewrite app_assoc, last_snoc in El. injection El as ->.
  apply Forall_app in Hb0 as [Hb1 Hb2]. apply Forall_cons in Hb2 as [Hb2 _]. rewrite <- app_assoc in Hs.
  apply (Hgo (m0 ++ [MkRange (rmin r0) (rmax r) (rdest r0)])).
  - unfold Build.mergeRange. rewrite app_assoc, last_snoc, decide_True by (rewrite app_assoc in Hne; done). by rewrite removelast_last, app_assoc.
  - rewrite <- app_assoc. by apply sorted_merged; [lia|].
  - apply Forall_app. split; [done|]. apply Forall_singleton. simpl. simpl in Hr, Hb2. lia.
  - zlen.
  - intros x q. rewrite !leads_app, !leads_one. unfold holds. simpl. destruct Hr, Hb2. rewrite <- Hdest. split.
    + intros [?|[Hx <-]]; [tauto|]. destruct (decide (x <= rmax r0)); [left; right|right]; (split; [lia|done]).
    + intros [[?|[Hx <-]]|[Hx <-]]; [tauto|right; split; [lia|done]..].
Qed.
Lemma rows_laid_snoc ranges offs rows m : laid ranges offs rows -> laid (ranges ++ m) (offs ++ [zlen (ranges ++ m)]) (rows ++ [m]).
Proof.
  intros (-> & Hl & Ho). split_and!; [rewrite concat_app; simpl; by rewrite app_nil_r|zlen|]. intros i Hi. rewrite zlen_app in Hi. change (zlen [m]) with 1 in Hi.
  destruct (decide (i = zlen rows + 1)) as [->|].
  - rewrite <- Hl, zget_snoc. f_equal. rewrite take_ge by (rewrite length_app; unfold zlen in *; simpl; lia). rewrite concat_app. simpl. by rewrite app_nil_r.
  - rewrite zget_app_l, Ho by lia. by rewrite take_app_le by (unfold zlen in *; lia).
Qed.

Lemma laid_last ranges offs rows : laid ranges offs rows -> last offs = Some (zlen ranges).
Proof.
  intros (-> & Hl & Ho). pose proof (zlen_nonneg rows). pose proof (Ho (zlen rows) ltac:(lia)) as H1. rewrite take_ge in H1 by (unfold zlen; lia).
  unfold zget in H1. rewrite decide_True in H1 by lia. rewrite last_lookup, <- H1. f_equal. unfold zlen in *. lia.
Qed.

Lemma sorted_adjacent row i r r' : sorted_row row -> row.[i] = Some r -> row.[i + 1] = Some r' -> rmax r < rmin r'.
Proof.
  intros Hs Hr Hr'. apply (sorted_zget _ _ _ _ _ _ Hs Hr Hr'). lia.
Qed.

Lemma layoutState_spec d' ranges offs rows row Er :
  let sorted := merge_sort Build.range_le row in
  laid ranges offs rows -> sorted_row sorted -> byte_row n sorted -> zlen ranges + zlen row < 2 ^ 32 ->
  spends d' (Build.layoutState (ranges, offs) row) Er (fun st d2 => d2 = d' /\ exists m, laid st.1 st.2 (rows ++ [m]) /\ sorted_row m /\ byte_row n m
    /\ zlen m <= zlen row /\ forall x q, leads m x q <-> leads sorted x q).
Proof.
  cbv zeta. intros HL Hs Hb Hsm. unfold Build.layoutState. assert (zlen (merge_sort Build.range_le row) = zlen row) as Hz by (unfold zlen; by rewrite merge_sort_Permutation).
  set (sorted := merge_sort Build.range_le row) in *.
  apply (spends_bind _ _ _ _ (fun _ d2 => d2 = d')).
  { destruct (decide (zlen sorted = 0)) as [E0|].
    - rewrite seqZ_nil by lia. by apply spends_ret.
    - eapply (spends_range (fun _ _ d2 => d2 = d')); [pose proof (zlen_nonneg sorted); lia|done|]. intros i [] d2 _ Hi ->.
      destruct (zget_in sorted (i - 1)) as [r Hr]; [lia|]. destruct (zget_in sorted i) as [r' Hr']; [lia|].
      eapply spends_need_bind; [exact Hr|]. eapply spends_need_bind; [exact Hr'|]. apply spends_assert; [|done].
      apply (sorted_adjacent sorted (i - 1)); [done..|]. by replace (i - 1 + 1) with i by lia. }
  intros _ d2 _ ->. eapply spends_need_bind; [by apply (laid_last _ _ _ HL)|]. apply spends_ret. split; [done|]. cbn [fst snd].
  destruct (merge_spec ranges sorted [] Hs ltac:(constructor) Hb) as (m & Em & G1 & G2 & G3 & G4). rewrite app_nil_r in Em. rewrite Em.
  rewrite zlen_nil in G3. rewrite uwrap_id by (unfold is_u; rewrite zlen_app; pose proof (zlen_nonneg ranges); pose proof (zlen_nonneg m); lia).
  exists m. split_and!; [by apply rows_laid_snoc|done|done|lia|]. intros x q. rewrite G4. split; [|by right]. intros [(r & []%elem_of_nil & _)|?]; done.
Qed.

(** The rows that [layout] lays out lead where the transitions of the states do. *)
Lemma layout_spec d' stateRanges Er : d' < int32_limit -> zlen stateRanges = n -> zlen (concat stateRanges) <= d' ->
  (forall s row, stateRanges.[s] = Some row -> exists l, transitionsFrom a s = Some l /\ row = conv <$> l) ->
  spends d' (Build.layout stateRanges) Er (fun st d2 => d2 = d' /\ exists rows, laid st.1 st.2 rows /\ zlen rows = n /\ zlen st.1 <= d'
    /\ Forall (fun row => sorted_row row /\ byte_row n row) rows
    /\ forall s row x q, rows.[s] = Some row -> leads row x q <-> exists u, E s u /\ has u x /\ dest u = q).
Proof.
  intros Hd' Hlen Hcount Hrows. unfold Build.layout. eapply spends_post.
  - apply (spends_fold (fun seen st d2 => d2 = d' /\ exists rows, laid st.1 st.2 rows /\ zlen rows = zlen seen /\ zlen st.1 <= zlen (concat seen)
      /\ Forall (fun row => sorted_row row /\ byte_row n row) rows
      /\ forall s row x q, rows.[s] = Some row -> leads row x q <-> exists u, E s u /\ has u x /\ dest u = q)).
    + split; [done|]. exists []. split_and!; [|done..|apply List.Forall_nil|intros s row x q Hr%zget_Some_range; change (zlen []) with 0 in Hr; lia].
      split_and!; [done..|]. intros i Hi. change (zlen []) with 0 in Hi. by assert (i = 0) as -> by lia.
    + intros seen row rest [ranges offs] d2 _ Hsplit (-> & rows & HL & Hz & Hc & Hok & Hlead). cbn [fst snd] in *.
      assert (stateRanges.[zlen seen] = Some row) as Hrow by (by rewrite Hsplit, zget_app_r, Z.sub_diag by lia).
      pose proof (zget_Some_range _ _ _ Hrow) as Hs. destruct (Hrows _ _ Hrow) as (l & El & ->).
      destruct (row_sorted (zlen seen) l ltac:(lia) El) as (S1 & S2 & S3 & S4).
      assert (zlen (concat seen) + zlen (conv <$> l) <= d') as Hcnt.
      { rewrite Hsplit, concat_app, zlen_app in Hcount. simpl in Hcount. rewrite zlen_app in Hcount. pose proof (zlen_nonneg (concat rest)). lia. }
      eapply spends_post; [eapply layoutState_spec; [exact HL|done|done|unfold int32_limit in *; lia]|].
      intros [ranges' offs'] d3 _ (-> & m & HL' & M1 & M2 & M3 & M4). cbn [fst snd] in *. split; [done|]. exists (rows ++ [m]).
      split_and!; [done|zlen; lia| | |].
      * destruct HL' as (-> & _). destruct HL as (-> & _). rewrite !concat_app, !zlen_app in *. simpl. rewrite !app_nil_r. lia.
      * apply Forall_app. split; [done|]. by apply Forall_singleton.
      * intros s row x q Hr. destruct (decide (s = zlen rows)) as [->|Hne].
        -- rewrite zget_snoc in Hr. injection Hr as <-. rewrite M4, S4, Hz. done.
        -- pose proof (zget_Some_range _ _ _ Hr) as Hr'. rewrite zlen_app in Hr'. change (zlen [m]) with 1 in Hr'. rewrite zget_app_l in Hr by lia. by apply Hlead.
  - intros [ranges offs] d2 _ (-> & rows & HL & Hz & Hc & Hok & Hlead). split; [done|]. exists rows. split_and!; [done|lia|lia|done|done].
Qed.
(** ** The checks of debug builds pass *)

Section Laid.
Context (v : ByteDfaView) (rows : list (list ByteDfaRange)) (acc : list bool).
Context (Hv : holds_rows v rows acc) (HP : presents rows acc n E F) (Hlive : forall q, 0 <= q < n -> live E F q).

Lemma row_in s : 0 <= s < n -> exists row, rows.[s] = Some row /\ View.transitions v s = Some row /\ sorted_row row /\ byte_row n row.
Proof.
  intros Hs. destruct HP as (Hz & _). destruct (zget_in rows s) as [row Hrow]; [lia|]. exists row. split_and!; [done|by eapply transitions_spec|..].
  all: pose proof (hr_rows _ _ _ Hv) as HR; rewrite Forall_forall, Hz in HR; apply (HR row); by eapply zget_elem_1.
Qed.

Lemma row_edge s row u : rows.[s] = Some row -> E s u -> exists r, r ∈ row /\ rdest r = dest u.
Proof.
  intros Hrow Hu. pose proof (nfa_ranges _ _ _ _ _ _ _ (dfa_nfa _ _ _ _ _ Ha) Hu) as Hne. destruct HP as (_ & _ & _ & HL).
  destruct (proj2 (HL s row (tmin u) (dest u) Hrow)) as (r & Hr & _ & Hq); [exists u; split_and!; [done|split; lia|done]|]. by exists r.
Qed.

(** The ways of the automaton are ways through the ranges. *)
Lemma path_rows (R : Z -> Z -> Prop) s w f : (forall x row r, 0 <= x < n -> rows.[x] = Some row -> View.transitions v x = Some row -> r ∈ row -> R x (rdest r)) ->
  path plain E s w f -> 0 <= s < n -> rtc R s f.
Proof.
  intros HR. induction 1 as [|s u x w f Hu Hr Hw IH]; intros Hs; [apply rtc_refl|].
  eapply rtc_l; [|apply IH; exact (proj2 (nfa_within _ _ _ _ _ (dfa_nfa _ _ _ _ _ Ha) _ _ Hu))].
  destruct (row_in s Hs) as (row & Hrow & Ht & _). destruct (row_edge s row u Hrow Hu) as (r & Hr' & <-). by eapply HR.
Qed.

Lemma states_pow : (Z.to_nat n < 2 ^ S (length (vaccepts v)))%nat.
Proof.
  rewrite (hr_accepts _ _ _ Hv). destruct HP as (_ & Hz & _). assert (Z.to_nat n = length acc) as -> by (unfold zlen in *; lia).
  pose proof (Nat.pow_gt_lin_r 2 (length acc) ltac:(lia)). simpl. lia.
Qed.

Lemma all_marked marks : zlen marks = n -> (forall q, 0 <= q < n -> marks.[q] = Some true) -> Forall (fun b => b = true) marks.
Proof.
  intros Hz Hm. apply Forall_forall. intros b (i & Hi)%zget_elem. pose proof (zget_Some_range _ _ _ Hi) as Hr. rewrite Hm in Hi by lia. by injection Hi.
Qed.

Lemma reachable_spec : exists marks, Build.reachable v = Some marks /\ Forall (fun b => b = true) marks.
Proof.
  pose proof (nfa_pos _ _ _ _ _ (dfa_nfa _ _ _ _ _ Ha)) as Hn. unfold Build.reachable. rewrite (hr_accepts _ _ _ Hv).
  assert (zlen acc = n) as -> by apply HP.
  assert (zlen (replicate (Z.to_nat n) false) = n) as Hz by (rewrite zlen_replicate; lia). rewrite zset_in by lia. opt.
  destruct (graph_search_spec (Build.destinations v) n) with (N := S (length acc)) (marks := <[Z.to_nat 0 := true]> (replicate (Z.to_nat n) false)) (queue := [0]) as (marks & Em & Lm & Hm).
  - intros q Hq. destruct (row_in q Hq) as (row & Hrow & Ht & _ & Hb). unfold Build.destinations. rewrite Ht. opt. eexists. split; [done|].
    intros x (r & -> & Hr)%list_elem_of_fmap. pose proof (proj1 (Forall_forall _ _) Hb r Hr) as H. simpl in H. lia.
  - by rewrite zlen_insert.
  - pose proof states_pow as Hp. rewrite (hr_accepts _ _ _ Hv) in Hp.
    assert (replicate (Z.to_nat n) false !! Z.to_nat 0 = Some false) as Hf by (apply lookup_replicate_2; lia).
    pose proof (unmarked_set _ _ Hf) as Hu. rewrite unmarked_replicate in Hu. simpl in *. lia.
  - intros q. rewrite list_elem_of_singleton, zget_insert by lia. case_decide; [naive_solver|]. split; [lia|by intros ?%zget_replicate].
  - exists marks. split; [exact Em|]. apply all_marked; [done|]. intros q Hq. apply Hm. exists 0. split; [by rewrite zget_insert by lia|].
    destruct (dfa_reached _ _ _ _ _ Ha q Hq) as [w Hw].
    eapply path_rows; [|exact Hw|lia]. intros x row r Hx Hrow Ht Hr. exists (rdest <$> row). unfold Build.destinations. rewrite Ht.
    split; [done|]. by apply list_elem_of_fmap_2.
Qed.

Lemma coreachable_spec : exists marks, Build.coreachable v = Some marks /\ Forall (fun b => b = true) marks.
Proof.
  pose proof (nfa_pos _ _ _ _ _ (dfa_nfa _ _ _ _ _ Ha)) as Hn. unfold Build.coreachable. pose proof states_pow as Hpow.
  rewrite (hr_accepts _ _ _ Hv) in *. assert (zlen acc = n) as -> by apply HP.
  destruct (backward_spec (View.transitions v) rdest (zget acc) n F) with (N := S (length acc)) as (marks & Em & Lm & Hm).
  - intros x Hx. destruct (row_in x Hx) as (row & Hrow & Ht & _ & Hb). exists row. split; [done|]. intros r Hr.
    pose proof (proj1 (Forall_forall _ _) Hb r Hr) as H. simpl in H. lia.
  - apply HP.
  - lia.
  - done.
  - exists marks. split; [exact Em|]. apply all_marked; [done|]. intros q Hq. apply Hm. split; [done|].
    destruct (Hlive q Hq) as (w & f & Hw & HF). exists f. split; [|done].
    eapply path_rows; [|exact Hw|done]. intros x row r Hx Hrow Ht Hr. split; [done|]. by exists row, r.
Qed.
(** *** The table *)

Lemma fillRange_spec (T : list Z) s lo hi k : zlen T = n * 256 -> 0 <= s < n -> 0 <= lo <= hi -> hi <= 255 ->
  exists T', foldM (fun table byte => zset table (s * 256 + byte) k) T (seqZ lo (hi - lo + 1)) = Some T' /\ zlen T' = n * 256
    /\ forall j, T'.[j] = if decide (s * 256 + lo <= j <= s * 256 + hi) then Some k else T.[j].
Proof.
  intros Hz Hs Hlo Hhi.
  destruct (foldM_seqZ (fun i (T' : list Z) => zlen T' = n * 256 /\ forall j, T'.[j] = if decide (s * 256 + lo <= j < s * 256 + i) then Some k else T.[j])
    (fun table byte => zset table (s * 256 + byte) k) T lo (hi - lo + 1)) as (T' & E1 & H1 & H2); [lia| | |].
  - split; [done|]. intros j. by rewrite decide_False by lia.
  - intros i T1 Hi (H1 & H2). rewrite zset_in by lia. eexists. split; [done|]. split; [by rewrite zlen_insert|].
    intros j. rewrite zget_insert, H2 by lia. repeat case_decide; lia || done.
  - exists T'. split; [done|]. split; [done|]. intros j. rewrite H2. repeat case_decide; lia || done.
Qed.

Lemma findRange_app l r x : View.findRange (l ++ [r]) x =
  match View.findRange l x with Some r' => Some r' | None => if decide (rmin r <= x <= rmax r) then Some r else None end.
Proof. induction l as [|y l IH]; simpl; [done|]. destruct (decide (rmin y <= x <= rmax y)); [done|apply IH]. Qed.

Definition cell (s : Z) (seen : list ByteDfaRange) (i x : Z) : Z :=
  if decide (i < s) then from_option rdest DEAD (rows.[i] ≫= fun row => View.findRange row x)
  else if decide (i = s) then from_option rdest DEAD (View.findRange seen x) else DEAD.

Lemma fillRow_spec (T : list Z) s row : n <= 256 -> rows.[s] = Some row -> zlen T = n * 256 ->
  (forall i x, 0 <= i < n -> 0 <= x <= 255 -> T.[i * 256 + x] = Some (cell s [] i x)) ->
  exists T', foldM (fun table range => foldM (fun table byte => zset table (s * 256 + byte) (swrap 16 (rdest range)))
      table (seqZ (rmin range) (rmax range - rmin range + 1))) T row = Some T' /\ zlen T' = n * 256
    /\ forall i x, 0 <= i < n -> 0 <= x <= 255 -> T'.[i * 256 + x] = Some (cell s row i x).
Proof.
  intros Hn Hrow Hz HT. pose proof (zget_Some_range _ _ _ Hrow) as Hs. assert (zlen rows = n) as Hzr by apply HP.
  destruct (row_in s ltac:(lia)) as (row' & Hrow' & _ & Hsort & Hbyte). rewrite Hrow in Hrow'. injection Hrow' as <-.
  apply (foldM_ind (fun seen (T' : list Z) => zlen T' = n * 256 /\ forall i x, 0 <= i < n -> 0 <= x <= 255 -> T'.[i * 256 + x] = Some (cell s seen i x))); [done|].
  intros seen r rest T1 Hsplit (H1 & H2). assert (r ∈ row) as Hr by (rewrite Hsplit; apply elem_of_app; right; left).
  pose proof (proj1 (Forall_forall _ _) Hbyte r Hr) as (B1 & B2 & B3).
  destruct (fillRange_spec T1 s (rmin r) (rmax r) (swrap 16 (rdest r)) H1 ltac:(lia) B1 B2) as (T2 & E2 & L2 & H3).
  exists T2. split; [exact E2|]. split; [done|]. intros i x Hi Hx. rewrite H3. unfold cell. rewrite swrap_id by (unfold is_s; lia).
  destruct (decide (i = s)) as [->|].
  - rewrite (decide_False (P := s < s)) by lia. rewrite findRange_app.
    assert (holds r x -> View.findRange seen x = None) as Hnone.
    { intros Hx'. pose proof (findRange_spec seen x) as Hf. destruct (View.findRange seen x) as [r'|]; [|done]. destruct Hf as [Hr' Hx2].
      rewrite Hsplit in Hsort. apply StronglySorted_app in Hsort as (Hlt & _ & _). specialize (Hlt r' r Hr' ltac:(left)). unfold holds in *. lia. }
    case_decide as Hin.
    + assert (holds r x) as Hx' by (unfold holds; lia). rewrite Hnone by done. by rewrite decide_True.
    + rewrite H2 by lia. unfold cell. rewrite decide_False, decide_True by lia. destruct (View.findRange seen x); [done|]. by rewrite decide_False by lia.
  - rewrite decide_False by lia. rewrite H2 by done. unfold cell. repeat case_decide; lia || done.
Qed.

Lemma fillTable_spec : n <= 256 -> exists table : list Z, Build.fillTable v = Some table /\ zlen table = n * 256 /\
  forall s row x, rows.[s] = Some row -> 0 <= x <= 255 -> table.[s * 256 + x] = Some (from_option rdest DEAD (View.findRange row x)).
Proof.
  intros Hn. unfold Build.fillTable. rewrite (hr_accepts _ _ _ Hv). assert (zlen acc = n) as -> by apply HP. assert (zlen rows = n) as Hzr by apply HP.
  pose proof (nfa_pos _ _ _ _ _ (dfa_nfa _ _ _ _ _ Ha)) as Hn0.
  destruct (foldM_seqZ (fun s (T : list Z) => zlen T = n * 256 /\ forall i x, 0 <= i < n -> 0 <= x <= 255 -> T.[i * 256 + x] = Some (cell s [] i x))
    (fun table state => l ← View.transitions v state;
      foldM (fun table range => foldM (fun table byte => zset table (state * 256 + byte) (swrap 16 (rdest range)))
        table (seqZ (rmin range) (rmax range - rmin range + 1))) table l)
    (replicate (Z.to_nat (n * 256)) DEAD) 0 n) as (T & E1 & H1 & H2); [lia| | |].
  - rewrite zlen_replicate. split; [lia|]. intros i x Hi Hx. unfold cell. rewrite (decide_False (P := i < 0)) by lia.
    unfold zget. rewrite decide_True by lia. rewrite lookup_replicate_2 by lia. by case_decide.
  - intros s T Hs (H1 & H2). destruct (row_in s Hs) as (row & Hrow & Ht & _). rewrite Ht. opt.
    destruct (fillRow_spec T s row Hn Hrow H1 H2) as (T' & E' & L' & H'). exists T'. split; [exact E'|]. split; [done|].
    intros i x Hi Hx. rewrite H' by done. unfold cell. repeat case_decide; try lia; try done. subst. by rewrite Hrow.
  - exists T. split; [exact E1|]. split; [done|]. intros s row x Hrow Hx. pose proof (zget_Some_range _ _ _ Hrow). rewrite H2 by lia.
    unfold cell. rewrite decide_True, Hrow by lia. done.
Qed.
End Laid.

(** [build] gives a view of the automaton, or an empty one when nothing is accepted. *)
Definition shown (r : ByteDfa) (n : Z) (E : edges) (F : Z -> bool) : Prop :=
  exists rows acc, holds_rows (makeView r) rows acc /\ presents rows acc n E F.

Lemma dfa_build_spec Er : (forall q, 0 <= q < n -> live E F q) \/ ~ live E F 0 ->
  spends d (Build.build a) Er (fun r d' => r = no_dfa /\ ~ live E F 0 \/ shown r n E F /\ forall q, 0 <= q < n -> live E F q).
Proof.
  intros Hlive. pose proof (dfa_nfa _ _ _ _ _ Ha) as Hnfa. pose proof (nfa_pos _ _ _ _ _ Hnfa) as Hn.
  destruct (isEmpty_spec a d n E F Hnfa Hd) as (e & Ee & He). unfold Build.build. eapply spends_need_bind; [exact Ee|]. destruct e.
  { apply spends_ret. left. split; [done|by apply He]. }
  assert (forall q, 0 <= q < n -> live E F q) as Hall.
  { destruct Hlive as [?|Hl]; [done|]. apply He in Hl. done. }
  eapply spends_bind; [apply collect_spec|]. intros stateRanges d1 Hd1 (C1 & C2 & C3). apply spends_small. intros Hsm.
  eapply spends_bind; [by apply layout_spec|]. intros [ranges offs] d2 _ (-> & rows & HL & Hz & Hc & Hok & Hlead). cbn [fst snd] in *.
  set (acc := Automaton.accepts a). assert (zlen acc = n) as Hacc by (destruct Hnfa as (_ & ? & ? & (? & -> & _) & []); done).
  assert (presents rows acc n E F) as HP.
  { split_and!; [done|done| |done]. intros s Hs. exact (nfa_accept _ _ _ _ _ s Hnfa Hs). }
  assert (n <= d) as Hnd by (destruct Hnfa as (_ & ? & ? & _ & []); done).
  assert (forall table, (table = [] \/ forall s row x, rows.[s] = Some row -> 0 <= x <= 255 -> table.[s * 256 + x] = Some (from_option rdest DEAD (View.findRange row x))) ->
    holds_rows (makeView (MkDfa ranges offs acc table)) rows acc) as HV.
  { intros table Ht. split; cbn [vranges voffsets vaccepts vtable stateCount makeView ByteDfa.ranges ByteDfa.offsets ByteDfa.accepts ByteDfa.table].
    - done.
    - unfold int32_limit in *. lia.
    - done.
    - lia.
    - rewrite uwrap_id; [done|]. unfold is_u, int32_limit in *. lia.
    - by rewrite Hz.
    - intros table'. case_decide as Htn; [done|]. intros [= <-]. destruct Ht; [done|auto]. }
  destruct (reachable_spec _ rows acc (HV [] ltac:(by left)) HP) as (m1 & Em1 & Hm1). eapply spends_need_bind; [exact Em1|].
  apply spends_assert_bind; [done|].
  destruct (coreachable_spec _ rows acc (HV [] ltac:(by left)) HP Hall) as (m2 & Em2 & Hm2). eapply spends_need_bind; [exact Em2|].
  apply spends_assert_bind; [done|]. cbn [ByteDfa.accepts]. fold acc. rewrite Hacc. case_decide as Hsmall.
  - assert (n <= 256) as H256 by lia. destruct (fillTable_spec _ rows acc (HV [] ltac:(by left)) HP Hall H256) as (T & ET & LT & HT). eapply spends_need_bind; [exact ET|].
    apply spends_consume_bind; [lia|]. apply spends_ret. right. split; [|done]. exists rows, acc. split; [|done]. apply HV. by right.
  - apply spends_ret. right. split; [|done]. exists rows, acc. split; [|done]. apply HV. by left.
Qed.
End Build.

(** * From a pattern's automaton to a view *)

(** A view of a deterministic automaton for [L] with no dead states, or an empty one. *)
Definition compiled (r : ByteDfa) (L : language) : Prop :=
  r = no_dfa /\ (forall w, ~ L w)
  \/ exists n E F, 0 < n /\ shown r n E F /\ within n E /\ det E /\ reached n E /\ (forall q, 0 <= q < n -> live E F q)
    /\ (forall q u, E q u -> byte_range u) /\ lang plain E F ≡ L.

Lemma compiled_proper r L K : L ≡ K -> compiled r L -> compiled r K.
Proof.
  intros HLK [[-> HL]|(n & E & F & H0 & H1 & H2 & H3 & H4 & H5 & H6 & H7)]; [left; split; [done|]; intros w Hw; by apply (HL w), HLK|].
  right. exists n, E, F. split_and!; [done..|]. by rewrite H7.
Qed.

Definition is_bytes (w : list Z) : Prop := Forall (fun x => 0 <= x <= 255) w.

(** [matches] decides the language. *)
Lemma matches_compiled r L w : compiled r L -> is_bytes w -> exists b, View.matches (makeView r) w = Some b /\ (b = true <-> L w).
Proof.
  intros [[-> HL]|(n & E & F & Hn & (rows & acc & Hv & HP) & _ & _ & _ & _ & _ & HL)] Hw.
  - exists false. split; [|split; [done|intros H; by destruct (HL w)]]. by destruct w.
  - unfold View.matches, View.start. rewrite (hr_count _ _ _ Hv). assert (zlen acc = n) as -> by apply HP. rewrite decide_False by lia.
    destruct (view_run_spec _ _ _ _ _ _ Hv HP w 0 Hw ltac:(lia)) as (b & Eb & Hb). exists b. split; [done|]. by rewrite Hb, <- (HL w).
Qed.

(** The last steps of both compilers. *)
Definition toByteDfa (a : t) : SM Budget ByteDfa := out ← utf32ToUtf8 a; Build.build out.

Lemma toByteDfa_spec d a L Er : recognises mixed d a L -> spends d (toByteDfa a) Er (fun r _ => compiled r L).
Proof.
  intros (m & E & F & Ha & HB & HL). eapply spends_bind; [by apply (utf32ToUtf8_spec a d m E F)|].
  intros out d1 Hd1 (n & E' & F' & Hdfa & HR & Hlive & HL'). apply spends_small. intros Hsm.
  eapply spends_post; [by apply (dfa_build_spec out d1 n E' F')|]. intros r d2 _ [[-> Hno]|[Hsh Hall]].
  - left. split; [done|]. intros w Hw. destruct Hno. exists w. by apply HL', HL.
  - right. exists n, E', F'. pose proof (dfa_nfa _ _ _ _ _ Hdfa) as Hnfa.
    split_and!; [by eapply nfa_pos|done|by eapply nfa_within|by eapply dfa_det|by eapply dfa_reached|done|done|by rewrite HL'].
Qed.

(** C18: the automaton of a range of code points, converted to UTF-8, determinized and laid out, matches exactly the encodings of the range's scalar values
    (surrogates have none).  Its price does not depend on the budget; a budget below the price gives the exception for complexity, and no other outcome exists. *)
Theorem charRange_bytes lo hi : lo <= hi ->
  exists o k, 0 <= k
  /\ (forall b, 0 <= b < int32_limit -> k <= b -> (a ← charRange lo hi; toByteDfa a) (MkBudget b) = (o, MkBudget (b - k)))
  /\ (forall b, 0 <= b < int32_limit -> b < k -> exists b', (a ← charRange lo hi; toByteDfa a) (MkBudget b) = (Throw complex, b'))
  /\ (k < int32_limit -> exists r, o = Ret r /\ forall w, is_bytes w ->
        exists m, View.matches (makeView r) w = Some m /\ (m = true <-> exists cp, is_scalar cp /\ lo <= cp <= hi /\ w = utf8 cp)).
Proof.
  intros Hle. assert (spends 0 (a ← charRange lo hi; toByteDfa a) no_error (fun r _ => compiled r (mixed lo hi false))) as HS.
  { eapply spends_bind; [by apply (charRange_spec mixed)|]. intros a d _ Ha. by apply toByteDfa_spec. }
  destruct (spends_run _ _ _ HS) as (o & k & Hk & Hrun & Hless & Ho). exists o, k. split_and!; [done..|]. intros Hkl. specialize (Ho Hkl).
  destruct o as [r|e|]; [|done..]. exists r. split; [done|]. intros w Hw. by apply (matches_compiled r (mixed lo hi false)).
Qed.

Lemma charRange_bytes_witness : 0x7e <= 0x81
  /\ exists o k, 0 <= k
  /\ (forall b, 0 <= b < int32_limit -> k <= b -> (a ← charRange 0x7e 0x81; toByteDfa a) (MkBudget b) = (o, MkBudget (b - k)))
  /\ (forall b, 0 <= b < int32_limit -> b < k -> exists b', (a ← charRange 0x7e 0x81; toByteDfa a) (MkBudget b) = (Throw complex, b'))
  /\ (k < int32_limit -> exists r, o = Ret r /\ forall w, is_bytes w ->
        exists m, View.matches (makeView r) w = Some m /\ (m = true <-> exists cp, is_scalar cp /\ 0x7e <= cp <= 0x81 /\ w = utf8 cp)).
Proof. split; [lia|]. apply (charRange_bytes 0x7e 0x81). lia. Defined.

(** The bounds of one and two bytes meet in this range. *)
Example charRange_bytes_run : match (a ← charRange 0x7e 0x81; toByteDfa a) (MkBudget 10000) with
  | (Ret r, _) => View.matches (makeView r) (utf8 0x80) = Some true /\ View.matches (makeView r) (utf8 0x82) = Some false
      /\ View.matches (makeView r) [0x7f] = Some true
  | _ => False
  end.
Proof. vm_compute. done. Qed.
