(* ===== verification/ByteDfaQueries.v ===== *)
(** Questions to a deterministic automaton on bytes: the query methods of [util/automaton/ByteDfa.h].

    The dictionary walks an automaton with [nextLiveByte], [liveByteRangeMax] and [allStatesLiveOnAllBytes], and queries are planned with the common
    prefix of what it accepts and with [classify], which recognises the automata of a single string, of a prefix, of everything, and
    of no string that a term can be.  All are shown to answer truly of the language, on automata as [ByteDfa::build] makes them:
    every state is reached and live. *)

From S2P Require Import Prelude Search Metered Languages CaseAlternates Automata Determinize LiveStates Utf8 ByteDfa.

Module Queries.

Inductive Kind := NONE | SINGLE | PREFIX | ALL | NORMAL.

(** ** Shortest strings *)

Definition minRange (state : Z) (st : list Z * list Z) (range : ByteDfaRange) : option (list Z * list Z) :=
  let '(distance, pending) := st in
  k ← distance.[rdest range];
  if decide (k = -1) then
    d ← distance.[state];
    distance ← zset distance (rdest range) (d + 1);
    Some (distance, pending ++ [rdest range])
  else Some (distance, pending).

Definition minStep (v : ByteDfaView) (st : list Z * list Z) : option ((list Z * list Z) + Z)%type :=
  let '(distance, pending) := st in
  match pending with
  | [] => Some (inr (-1))
  | state :: pending =>
      acc ← (vaccepts v).[state];
      if acc : bool then d ← distance.[state]; Some (inr d) else
      l ← View.transitions v state;
      st ← foldM (minRange state) (distance, pending) l;
      Some (inl st)
  end.

Definition minAcceptedLength (v : ByteDfaView) : option Z :=
  if decide (stateCount v = 0) then Some (-1) else
  distance ← zset (replicate (Z.to_nat (stateCount v)) (-1)) 0 0;
  whileO (S (length (vaccepts v))) (minStep v) (distance, [0]).

(** ** Prefixes *)

Definition prefixStep (v : ByteDfaView) (st : list Z * Z) : option ((list Z * Z) + (list Z * Z))%type :=
  let '(prefix, state) := st in
  m ← View.isMatch v state;
  if bool_decide (state <> DEAD) && negb m then
    l ← View.transitions v state;
    match l with
    | [range] => if decide (rmin range = rmax range) then Some (inl (prefix ++ [rmin range], rdest range)) else Some (inr st)
    | _ => Some (inr st)
    end
  else Some (inr st).

Definition commonPrefixAndState (v : ByteDfaView) : option (list Z * Z) :=
  whileO (S (length (vaccepts v))) (prefixStep v) ([], View.start v).

Definition commonPrefix (v : ByteDfaView) : option (list Z) := fst <$> commonPrefixAndState v.

(** The loop of [classify]; [inr (inl kind)] is an early return. *)
Definition classifyStep (v : ByteDfaView) (st : list Z * Z) : option ((list Z * Z) + (Kind + (list Z * Z)))%type :=
  let '(prefix, state) := st in
  acc ← (vaccepts v).[state];
  if acc : bool then Some (inr (inr st)) else
  l ← View.transitions v state;
  match l with
  | [range] =>
      if decide (rmin range = rmax range) then
        let prefix := prefix ++ [rmin range] in
        if decide (255 < zlen prefix) then Some (inr (inl NONE)) else Some (inl (prefix, rdest range))
      else Some (inr (inl NORMAL))
  | _ => Some (inr (inl NORMAL))
  end.

(** One range over all bytes. *)
Definition total (l : list ByteDfaRange) : option Z :=
  match l with
  | [range] => if decide (rmin range = 0 /\ rmax range = 255) then Some (rdest range) else None
  | _ => None
  end.

Definition classify (v : ByteDfaView) : option (Kind * list Z) :=
  if decide (stateCount v = 0) then Some (NONE, []) else
  m ← minAcceptedLength v;
  if decide (255 < m) then Some (NONE, []) else
  r ← whileO (S (length (vaccepts v))) (classifyStep v) ([], 0);
  match r with
  | inl kind => Some (kind, [])
  | inr (prefix, state) =>
      l ← View.transitions v state;
      let totalSelf := bool_decide (total l = Some state) in
      totalHandoff ← match total l with
        | Some next =>
            acc ← (vaccepts v).[next];
            if acc : bool then k ← View.transitions v next; Some (bool_decide (total k = Some next)) else Some false
        | None => Some false
        end;
      if totalSelf || totalHandoff then Some (if decide (prefix = []) then ALL else PREFIX, prefix)
      else if decide (l = []) then Some (SINGLE, prefix) else Some (NORMAL, [])
  end.

End Queries.

(** * Walks *)

Section Walks.
Context (rows : list (list ByteDfaRange)) (acc : list bool).

Inductive walk : Z -> list Z -> Z -> Prop :=
  | walk_nil s : walk s [] s
  | walk_cons s row r x w q : rows.[s] = Some row -> r ∈ row -> holds r x -> walk (rdest r) w q -> walk s (x :: w) q.

Definition accepted (s : Z) (w : list Z) : Prop := exists f, walk s w f /\ acc.[f] = Some true.

Lemma walk_app s u q v p : walk s u q -> walk q v p -> walk s (u ++ v) p.
Proof. induction 1; [done|]. intros. simpl. eauto using walk_cons. Qed.

Lemma walk_snoc s w q row r x : walk s w q -> rows.[q] = Some row -> r ∈ row -> holds r x -> walk s (w ++ [x]) (rdest r).
Proof. intros H ???. apply (walk_app _ _ _ _ _ H). eauto using walk_cons, walk_nil. Qed.

Lemma walk_app_inv s u v p : walk s (u ++ v) p -> exists q, walk s u q /\ walk q v p.
Proof.
  revert s. induction u as [|x u IH]; intros s H; [exists s; split; [constructor|done]|]. inversion H as [|? row r ? ? ? Hr Hin Hx Hw]; subst.
  destruct (IH _ Hw) as (q & H1 & H2). exists q. eauto using walk_cons.
Qed.

Lemma walk_snoc_inv s w x p : walk s (w ++ [x]) p -> exists q row r, walk s w q /\ rows.[q] = Some row /\ r ∈ row /\ holds r x /\ rdest r = p.
Proof.
  intros (q & H1 & H2)%walk_app_inv. inversion H2 as [|? row r ? ? ? Hr Hin Hx Hw]; subst. inversion Hw; subst. by exists q, row, r.
Qed.

Lemma walk_nil_inv s q : walk s [] q -> s = q.
Proof. by inversion 1. Qed.

Lemma accepted_nil s : accepted s [] <-> acc.[s] = Some true.
Proof. split; [intros (f & Hw%walk_nil_inv & ?); by subst|]. intros. exists s. split; [constructor|done]. Qed.

Lemma accepted_cons s row x w : rows.[s] = Some row ->
  accepted s (x :: w) <-> exists r, r ∈ row /\ holds r x /\ accepted (rdest r) w.
Proof.
  intros Hrow. split.
  - intros (f & Hw & Hf). inversion Hw as [|? row' r ? ? ? Hr Hin Hx Hw']; subst. simplify_eq. exists r. split_and!; [done..|]. by exists f.
  - intros (r & Hr & Hx & f & Hw & Hf). exists f. split; [by eapply walk_cons|done].
Qed.

Lemma accepted_walk s u q w : walk s u q -> accepted q w -> accepted s (u ++ w).
Proof. intros H (f & ? & ?). exists f. split; [by eapply walk_app|done]. Qed.
End Walks.

(** A view of an automaton with the language, all of whose states are reached and live. *)
Record trimmed (v : ByteDfaView) (rows : list (list ByteDfaRange)) (acc : list bool) (n : Z) (L : language) : Prop := {
  tr_rows : holds_rows v rows acc;
  tr_pos : 0 < n;
  tr_size : zlen rows = n;
  tr_acc : zlen acc = n;
  tr_reached : forall q, 0 <= q < n -> exists w, walk rows 0 w q;
  tr_live : forall q, 0 <= q < n -> exists w, accepted rows acc q w;
  tr_lang : forall w, L w <-> accepted rows acc 0 w }.

Lemma presents_walk rows acc n E F : presents rows acc n E F -> within n E -> forall s w q, 0 <= s < n -> path plain E s w q <-> walk rows s w q.
Proof.
  intros (Hr & Ha & Hacc & Hlead) Hw s w q Hs. split.
  - induction 1 as [|s t u v q Ht (x & -> & Hx) Hp IH]; [constructor|]. destruct (zget_in rows s) as [row Hrow]; [lia|].
    destruct (proj2 (Hlead s row x (dest t) Hrow)) as (r & Hin & Hrx & Hd); [by exists t|]. simpl. eapply walk_cons; [done..|].
    rewrite Hd. apply IH. apply (Hw _ _ Ht).
  - intros Hp. revert Hs. induction Hp as [|s row r x w q Hrow Hin Hx Hp IH]; intros Hs; [constructor|].
    destruct (proj1 (Hlead s row x (rdest r) Hrow)) as (u & Hu & Hux & Hd); [by exists r|]. change (x :: w) with ([x] ++ w).
    eapply path_step; [done|by exists x|]. rewrite Hd. apply IH. rewrite <- Hd. apply (Hw _ _ Hu).
Qed.

Lemma presents_accepted rows acc n E F s : presents rows acc n E F -> within n E -> 0 <= s < n -> forall w, from plain E F s w <-> accepted rows acc s w.
Proof.
  intros HP Hw Hs w. unfold from, accepted. pose proof HP as (Hr & Ha & Hacc & _). split; intros (f & Hp & Hf); exists f.
  - pose proof (path_within _ _ _ _ _ _ Hw Hp Hs). split; [by apply (presents_walk _ _ _ _ _ HP Hw)|]. by rewrite Hacc, Hf.
  - assert (path plain E s w f) as Hp' by (by apply (presents_walk _ _ _ _ _ HP Hw)). pose proof (path_within _ _ _ _ _ _ Hw Hp' Hs).
    split; [done|]. rewrite Hacc in Hf by done. by injection Hf.
Qed.

(** What [ByteDfa::build] makes is empty or trimmed. *)
Lemma compiled_trimmed r L : compiled r L -> (r = no_dfa /\ forall w, ~ L w) \/ exists rows acc n, trimmed (makeView r) rows acc n L.
Proof.
  intros [[-> HL]|(n & E & F & Hn & (rows & acc & Hv & HP) & Hw & _ & Hre & Hli & _ & HL)]; [left; split; [done|]|right].
  - exact HL.
  - exists rows, acc, n. split; [done|done|apply HP|apply HP| | |].
    + intros q Hq. destruct (Hre q Hq) as [w Hp]. exists w. apply (presents_walk _ _ _ _ _ HP Hw); [lia|done].
    + intros q Hq. destruct (Hli q Hq) as [w Hp]. exists w. by apply (presents_accepted _ _ _ _ _ q HP Hw).
    + intros w. rewrite <- (presents_accepted _ _ _ _ _ 0 HP Hw) by lia. symmetry. apply (HL w).
Qed.

Lemma NoDup_range (l : list Z) n : 0 <= n -> NoDup l -> (forall x, x ∈ l -> 0 <= x < n) -> zlen l <= n.
Proof.
  intros Hn Hnd Hl. rewrite <- (zlen_seqZ 0 n Hn). unfold zlen. apply inj_le, submseteq_length, NoDup_submseteq; [done|].
  intros x Hx. apply elem_of_seqZ. pose proof (Hl x Hx). lia.
Qed.

Section Trimmed.
Context (v : ByteDfaView) (rows : list (list ByteDfaRange)) (acc : list bool) (n : Z) (L : language) (HT : trimmed v rows acc n L).

Lemma trimmed_row s : 0 <= s < n -> exists row, rows.[s] = Some row /\ View.transitions v s = Some row /\ sorted_row row /\ byte_row n row.
Proof.
  intros Hs. pose proof (tr_rows _ _ _ _ _ HT) as Hv. pose proof (tr_size _ _ _ _ _ HT) as Hz. destruct (zget_in rows s) as [row Hrow]; [lia|].
  pose proof (hr_rows _ _ _ Hv) as HR. rewrite Forall_forall, Hz in HR. destruct (HR row) as [H1 H2]; [by eapply zget_elem_1|].
  exists row. split_and!; [done|by eapply transitions_spec|done|done].
Qed.

Lemma trimmed_dest s row r : rows.[s] = Some row -> r ∈ row -> 0 <= rmin r <= rmax r /\ rmax r <= 255 /\ 0 <= rdest r < n.
Proof.
  intros Hrow Hr. pose proof (zget_Some_range _ _ _ Hrow) as Hs. rewrite (tr_size _ _ _ _ _ HT) in Hs.
  destruct (trimmed_row s Hs) as (row' & E & _ & _ & Hb). simplify_eq. by apply (proj1 (Forall_forall _ _) Hb).
Qed.

Lemma walk_range s w q : walk rows s w q -> 0 <= s < n -> 0 <= q < n.
Proof. induction 1 as [|s row r x w q Hrow Hin Hx Hp IH]; [done|]. intros _. apply IH. by apply (trimmed_dest _ _ _ Hrow). Qed.

Lemma walk_bytes s w q : walk rows s w q -> is_bytes w.
Proof.
  induction 1 as [|s row r x w q Hrow Hin Hx Hp IH]; constructor; [|done]. pose proof (trimmed_dest _ _ _ Hrow Hin). unfold holds in Hx. lia.
Qed.

Lemma walk_unique s w p q : walk rows s w p -> walk rows s w q -> p = q.
Proof.
  intros Hp. revert q. induction Hp as [|s row r x w p Hrow Hr Hx Hp IH]; intros q Hq; [by apply walk_nil_inv in Hq|].
  inversion Hq as [|? row' r' ? ? ? Hrow' Hr' Hx' Hq']; subst. simplify_eq. apply IH.
  pose proof (zget_Some_range _ _ _ Hrow) as Hs. rewrite (tr_size _ _ _ _ _ HT) in Hs. destruct (trimmed_row s Hs) as (row2 & E & _ & Hso & _). simplify_eq.
  by rewrite (sorted_unique row r r' x).
Qed.

Lemma trimmed_accept s : 0 <= s < n -> exists b, acc.[s] = Some b /\ (vaccepts v).[s] = Some b /\ (b = true <-> accepted rows acc s []).
Proof.
  intros Hs. rewrite (hr_accepts _ _ _ (tr_rows _ _ _ _ _ HT)). destruct (zget_in acc s) as [b Hb]; [rewrite (tr_acc _ _ _ _ _ HT); lia|].
  exists b. rewrite accepted_nil, Hb. split_and!; [done..|]. by destruct b.
Qed.

Lemma trimmed_count : stateCount v = n.
Proof. rewrite (hr_count _ _ _ (tr_rows _ _ _ _ _ HT)). apply HT. Qed.

Lemma trimmed_fuel : Z.of_nat (length (vaccepts v)) = n.
Proof. rewrite (hr_accepts _ _ _ (tr_rows _ _ _ _ _ HT)). apply HT. Qed.

(** A byte that some accepted string goes on with. *)
Definition viable (s x : Z) : Prop := exists w, accepted rows acc s (x :: w).

Lemma viable_iff s row x : rows.[s] = Some row -> viable s x <-> exists r, r ∈ row /\ holds r x.
Proof.
  intros Hrow. unfold viable. split.
  - intros (w & (r & Hr & Hx & _)%(accepted_cons _ _ _ _ _ _ Hrow)). by exists r.
  - intros (r & Hr & Hx). destruct (tr_live _ _ _ _ _ HT (rdest r)) as [w Hw]; [by eapply trimmed_dest|]. exists w. apply (accepted_cons _ _ _ _ _ _ Hrow). by exists r.
Qed.

Lemma nextLive_spec row b : sorted_row row -> Forall (fun r => 0 <= rmin r <= rmax r) row ->
  (View.nextLive row b = DEAD /\ forall r x, r ∈ row -> holds r x -> x < b)
  \/ (b <= View.nextLive row b /\ (exists r, r ∈ row /\ holds r (View.nextLive row b)) /\ forall r x, r ∈ row -> holds r x -> b <= x -> View.nextLive row b <= x).
Proof.
  unfold holds. induction 1 as [|r row Hs IH Hall]; intros Hne; simpl; [left; split; [done|by intros ?? ?%not_elem_of_nil]|].
  apply Forall_cons in Hne as [Hr Hne]. rewrite Forall_forall in Hall. case_decide as Hb.
  - right. split_and!; [lia|exists r; split; [left|lia]|]. intros r' x [->|Hr']%elem_of_cons Hx Hbx; [lia|]. apply Hall in Hr'. lia.
  - destruct (IH Hne) as [[E H]|(H1 & (r' & Hr' & Hx') & H2)]; [left|right].
    + split; [done|]. intros r' x [->|Hr']%elem_of_cons Hx; [lia|by eapply H].
    + split_and!; [done|exists r'; split; [by right|done]|]. intros r2 x [->|Hr2]%elem_of_cons Hx Hbx; [lia|by eapply H2].
Qed.

(** The smallest byte from [b] that some accepted string goes on with. *)
Lemma nextLiveByte_spec s b : 0 <= s < n -> exists x, View.nextLiveByte v s b = Some x /\
  ((x = DEAD /\ forall y, b <= y -> ~ viable s y) \/ (b <= x /\ viable s x /\ forall y, b <= y < x -> ~ viable s y)).
Proof.
  intros Hs. destruct (trimmed_row s Hs) as (row & Hrow & Et & Hso & Hby). unfold View.nextLiveByte. rewrite decide_False by (unfold DEAD; lia).
  rewrite Et. eexists. split; [done|]. setoid_rewrite (viable_iff _ _ _ Hrow).
  destruct (nextLive_spec row b Hso) as [[E H]|(H1 & H2 & H3)]; [by eapply Forall_impl; [exact Hby|]; simpl; intros; lia|left|right].
  - split; [done|]. intros y Hy (r & Hr & Hx). pose proof (H _ _ Hr Hx). lia.
  - split_and!; [done..|]. intros y Hy (r & Hr & Hx). pose proof (H3 _ _ Hr Hx). lia.
Qed.

(** From a live byte to the end of its range all bytes step to one state. *)
Lemma liveByteRangeMax_spec s x : 0 <= s < n -> 0 <= x <= 255 -> exists m, View.liveByteRangeMax v s x = Some m /\
  ((m = DEAD /\ ~ viable s x) \/ (x <= m <= 255 /\ exists q, 0 <= q < n /\ forall y, x <= y <= m -> viable s y /\ View.step v s y = Some q)).
Proof.
  intros Hs Hx. destruct (trimmed_row s Hs) as (row & Hrow & Et & Hso & Hby). unfold View.liveByteRangeMax. rewrite decide_False by (unfold DEAD; lia).
  rewrite Et. eexists. split; [done|]. setoid_rewrite (viable_iff _ _ _ Hrow). pose proof (findRange_spec row x) as Hf.
  destruct (View.findRange row x) as [r|]; simpl; [right|left; split; [done|]; intros (r & Hr & Hrx); by apply (Hf r)].
  destruct Hf as [Hr Hrx]. pose proof (trimmed_dest _ _ _ Hrow Hr) as (H1 & H2 & H3). unfold holds in Hrx. split; [lia|]. exists (rdest r). split; [lia|].
  intros y Hy. assert (holds r y) as Hry by (unfold holds; lia). split; [by exists r|]. rewrite (step_spec _ _ _ _ _ y (tr_rows _ _ _ _ _ HT) Hrow) by lia.
  f_equal. apply (findRange_leads n); [done|done|lia|]. by exists r.
Qed.

Lemma covered_spec row k : sorted_row row -> Forall (fun r => rmin r <= rmax r) row -> Forall (fun r => k <= rmin r /\ rmax r <= 255) row -> 0 <= k <= 256 ->
  View.covered row k = true <-> forall x, k <= x <= 255 -> exists r, r ∈ row /\ holds r x.
Proof.
  unfold holds. intros Hs. revert k. induction Hs as [|r row Hs IH Hall]; intros k Hne Hk Hk0; simpl.
  - rewrite bool_decide_eq_true. split; [lia|]. intros H. destruct (decide (k = 256)); [done|]. destruct (H k) as (r & ?%not_elem_of_nil & _); [lia|done].
  - apply Forall_cons in Hne as [Hr Hne]. apply Forall_cons in Hk as [Hrk Hk]. rewrite Forall_forall in Hall. destruct (decide (rmin r <> k)) as [Hd|Hd].
    + split; [done|]. intros H. destruct (H k) as (r' & [->|Hr']%elem_of_cons & Hx); [lia|lia|]. apply Hall in Hr'. lia.
    + rewrite IH; [|done| |lia].
      2:{ apply Forall_forall. intros r' Hr'. pose proof (Hall r' Hr'). pose proof (proj1 (Forall_forall _ _) Hk r' Hr'). simpl in *. lia. }
      split; intros H x Hx.
      * destruct (decide (x <= rmax r)); [exists r; split; [left|lia]|]. destruct (H x) as (r' & Hr' & ?); [lia|]. exists r'. split; [by right|lia].
      * destruct (H x) as (r' & [->|Hr']%elem_of_cons & Hx'); [lia|lia|]. by exists r'.
Qed.

Lemma allStatesLiveOnAllBytes_spec : exists b, View.allStatesLiveOnAllBytes v = Some b /\ (b = true <-> forall s x, 0 <= s < n -> 0 <= x <= 255 -> viable s x).
Proof.
  pose proof (tr_pos _ _ _ _ _ HT) as Hn. unfold View.allStatesLiveOnAllBytes. rewrite trimmed_count.
  edestruct (foldM_seqZ (fun i (all : bool) => all = true <-> forall s x, 0 <= s < i -> 0 <= x <= 255 -> viable s x)) as (b & Eb & Hb); [| | |rewrite Eb].
  - lia.
  - split; [lia|done].
  - intros i all Hi IH. destruct (trimmed_row i) as (row & Hrow & Et & Hso & Hby); [lia|]. destruct all.
    + rewrite Et. eexists. split; [done|]. unfold byte_row in Hby.
      rewrite covered_spec; [|done|by eapply Forall_impl; [exact Hby|]; simpl; intros; lia|by eapply Forall_impl; [exact Hby|]; simpl; intros; lia|lia].
      setoid_rewrite <- (viable_iff _ _ _ Hrow). split; [|intros H x Hx; apply H; lia]. intros H s x Hs Hx. destruct (decide (s = i)) as [->|]; [by apply H|].
      apply (proj1 IH); [done|lia|lia].
    + eexists. split; [done|]. split; [done|]. intros H. apply IH. intros s x Hs Hx. apply H; lia.
  - simpl. eexists. split; [done|]. rewrite bool_decide_true, andb_true_r by lia. done.
Qed.

(** ** The chain of single bytes from the start *)

Abbreviation acc_from := (accepted rows acc).

(** All that [p] accepts goes through [q], after [u]. *)
Definition through (p : Z) (u : list Z) (q : Z) : Prop := forall w, acc_from p w <-> exists w', w = u ++ w' /\ acc_from q w'.

Lemma through_loop q u : 0 <= q < n -> through q u q -> u = [].
Proof.
  intros Hq H. destruct (tr_live _ _ _ _ _ HT q Hq) as [w Hw]. remember (length w) as k eqn:Ek. revert w Ek Hw.
  induction (lt_wf k) as [k _ IH]. intros w -> (w' & -> & Hw')%H. destruct u as [|x u]; [done|]. eapply IH; [|done|exact Hw']. simpl. rewrite length_app. lia.
Qed.

Lemma through_step p u q r : through p u q -> 0 <= q < n -> acc.[q] = Some false -> rows.[q] = Some [r] -> rmin r = rmax r -> through p (u ++ [rmin r]) (rdest r).
Proof.
  intros H Hq Ha Hr Hm w. rewrite (H w). split.
  - intros (w' & -> & Hw'). destruct w' as [|x w']; [apply accepted_nil in Hw'; congruence|].
    apply (accepted_cons _ _ _ _ _ _ Hr) in Hw' as (r' & ->%list_elem_of_singleton & Hx & Hw'). unfold holds in Hx. exists w'. rewrite <- app_assoc.
    replace (rmin r) with x by lia. done.
  - intros (w' & -> & Hw'). exists (rmin r :: w'). rewrite <- app_assoc. split; [done|]. apply (accepted_cons _ _ _ _ _ _ Hr).
    exists r. split_and!; [by left|unfold holds; lia|done].
Qed.

(** The states passed before [q] are distinct, since each is live. *)
Record chain (prefix : list Z) (q : Z) : Prop := {
  ch_state : 0 <= q < n;
  ch_walk : walk rows 0 prefix q;
  ch_through : through 0 prefix q;
  ch_passed : exists passed, length passed = length prefix /\ NoDup passed
    /\ forall p, p ∈ passed -> 0 <= p < n /\ exists u, u <> [] /\ through p u q }.

Lemma chain_start : chain [] 0.
Proof.
  split; [pose proof (tr_pos _ _ _ _ _ HT); lia|constructor| |].
  - intros w. split; [by intros; exists w|]. by intros (w' & -> & ?).
  - exists []. split_and!; [done|constructor|]. by intros p ?%not_elem_of_nil.
Qed.

Lemma chain_room prefix q : chain prefix q -> zlen prefix < n.
Proof.
  intros [Hq _ Hth (passed & Hlen & Hnd & Hp)]. replace (zlen prefix) with (zlen passed) by (unfold zlen; lia).
  assert (zlen (q :: passed) <= n); [|rewrite zlen_cons in *; lia]. apply NoDup_range; [lia| |].
  - constructor; [|done]. intros Hin. destruct (Hp q Hin) as (_ & u & Hu & H). by apply through_loop in H.
  - intros x [->|Hx]%elem_of_cons; [done|by apply Hp].
Qed.

Lemma chain_step prefix q r : chain prefix q -> acc.[q] = Some false -> rows.[q] = Some [r] -> rmin r = rmax r ->
  chain (prefix ++ [rmin r]) (rdest r).
Proof.
  intros [Hq Hw Hth (passed & Hlen & Hnd & Hp)] Ha Hr Hm. pose proof (trimmed_dest _ _ r Hr ltac:(by left)) as (H1 & H2 & H3). split.
  - done.
  - eapply walk_snoc; [done|exact Hr|by left|unfold holds; lia].
  - by eapply through_step.
  - exists (q :: passed). split_and!; [simpl; rewrite length_app; simpl; lia| |].
    + constructor; [|done]. intros Hin. destruct (Hp q Hin) as (_ & u & Hu & H). by apply through_loop in H.
    + intros p [->|Hin]%elem_of_cons.
      * split; [done|]. exists [rmin r]. split; [done|]. apply (through_step q [] q r); [|done..]. intros w. split; [by intros; exists w|]. by intros (w' & -> & ?).
      * destruct (Hp p Hin) as (Hp1 & u & Hu & H). split; [done|]. exists (u ++ [rmin r]). split; [by destruct u|by eapply through_step].
Qed.

(** The prefix is common to all accepted strings, and no longer one is: the state where it ends accepts, or goes on with two bytes. *)
Lemma commonPrefixAndState_spec : exists prefix q, Queries.commonPrefixAndState v = Some (prefix, q) /\ chain prefix q /\
  (acc_from q [] \/ exists x y, x <> y /\ viable q x /\ viable q y).
Proof.
  pose proof trimmed_fuel as Hfu. pose proof (tr_pos _ _ _ _ _ HT) as Hn. unfold Queries.commonPrefixAndState, View.start. rewrite trimmed_count, decide_False by lia.
  destruct (whileO_spec (fun st => chain st.1 st.2) (fun st => Z.to_nat (n - zlen st.1))
    (fun st => chain st.1 st.2 /\ (acc_from st.2 [] \/ exists x y, x <> y /\ viable st.2 x /\ viable st.2 y)) (Queries.prefixStep v) (S (length (vaccepts v))) ([], 0))
    as ([prefix q] & E & H1 & H2); [|apply chain_start| |by exists prefix, q].
  - intros [prefix q] Hc. simpl in Hc. pose proof (ch_state _ _ Hc) as Hq. destruct (trimmed_accept q Hq) as (b & Hb & Eb & Hbb).
    destruct (trimmed_row q Hq) as (row & Hrow & Et & Hso & Hby). unfold Queries.prefixStep, View.isMatch.
    rewrite decide_False, Eb by (unfold DEAD; lia). opt. rewrite bool_decide_true by (unfold DEAD; lia). destruct b; simpl.
    { eexists. split; [done|]. simpl. split; [done|left; by apply Hbb]. }
    rewrite Et. opt. destruct row as [|r [|r' row]].
    + destruct (tr_live _ _ _ _ _ HT q Hq) as [[|x w] Hw]; [by apply Hbb in Hw|]. apply (accepted_cons _ _ _ _ _ _ Hrow) in Hw as (r & ?%not_elem_of_nil & _). done.
    + pose proof (trimmed_dest _ _ r Hrow ltac:(by left)) as (H1 & H2 & H3). case_decide as Hm; eexists; (split; [done|]); simpl.
      * split; [by apply (chain_step prefix q r)|]. pose proof (chain_room _ _ Hc). rewrite zlen_app. change (zlen [rmin r]) with 1. lia.
      * split; [done|right]. exists (rmin r), (rmax r). split; [done|]. split; apply (viable_iff _ _ _ Hrow); exists r; (split; [by left|unfold holds; lia]).
    + eexists. split; [done|]. simpl. split; [done|right]. exists (rmin r), (rmin r').
      pose proof (trimmed_dest _ _ r Hrow ltac:(by left)). pose proof (trimmed_dest _ _ r' Hrow ltac:(by right; left)).
      apply StronglySorted_inv in Hso as [_ Hall]. apply Forall_cons in Hall as [Hlt _]. split; [lia|].
      split; apply (viable_iff _ _ _ Hrow); [exists r; split; [by left|unfold holds; lia]|exists r'; split; [by right; left|unfold holds; lia]].
  - cbn [fst snd]. rewrite zlen_nil. pose proof (Nat.pow_gt_lin_r 2 (S (length (vaccepts v))) ltac:(lia)). lia.
Qed.

(** ** The shortest string *)

(** Breadth first: the queue is sorted by distance, between [d] and [d + 1]. *)
Definition at_ (distance : list Z) (q : Z) : Z := default (-1) distance.[q].

Record bfs (d : Z) (distance queue : list Z) : Prop := {
  bf_size : zlen distance = n;
  bf_start : at_ distance 0 = 0;
  bf_walk : forall q, at_ distance q = -1 \/ (0 <= at_ distance q <= d + 1 /\ exists w, walk rows 0 w q /\ zlen w = at_ distance q);
  bf_queue : forall q, q ∈ queue -> d <= at_ distance q <= d + 1;
  bf_sorted : StronglySorted (fun p q => at_ distance p <= at_ distance q) queue }.

(** A state done with: it does not accept, and leads only to reached states. *)
Definition settled (distance : list Z) (q : Z) : Prop :=
  acc.[q] = Some false /\ forall row r, rows.[q] = Some row -> r ∈ row -> 0 <= at_ distance (rdest r) <= at_ distance q + 1.

Definition unseen (distance : list Z) : nat := length (filter (fun k => k = -1) distance).

Lemma at_insert distance x k q : 0 <= x < zlen distance -> at_ (<[Z.to_nat x := k]> distance) q = if decide (x = q) then k else at_ distance q.
Proof. intros Hx. unfold at_. rewrite zget_insert by done. by case_decide. Qed.

Lemma unseen_set distance x k : 0 <= x < zlen distance -> at_ distance x = -1 -> k <> -1 ->
  unseen distance = S (unseen (<[Z.to_nat x := k]> distance)).
Proof.
  intros Hx Ha Hk. destruct (zget_in _ _ Hx) as [y Hy]. unfold at_ in Ha. rewrite Hy in Ha. simpl in Ha. subst. unfold zget in Hy. rewrite decide_True in Hy by lia.
  unfold unseen. pose proof (lookup_lt_Some _ _ _ Hy) as Hlt. rewrite <- (take_drop_middle _ _ _ Hy) at 1.
  rewrite insert_take_drop by done. rewrite !filter_app, !length_app, !filter_cons. rewrite decide_True, decide_False by done. simpl. lia.
Qed.

Lemma bfs_reach d distance queue k : bfs d distance queue ->
  (forall q, 0 <= at_ distance q < k -> settled distance q) ->
  forall w q, walk rows 0 w q -> zlen w <= k -> 0 <= at_ distance q <= zlen w.
Proof.
  intros Hb Hset w. induction w as [|x w IH] using rev_ind; intros q Hw Hlen.
  - apply walk_nil_inv in Hw as <-. rewrite (bf_start _ _ _ Hb). change (zlen (@nil Z)) with 0; lia.
  - apply walk_snoc_inv in Hw as (p & row & r & Hw & Hrow & Hr & _ & <-). rewrite zlen_app in *. change (zlen [x]) with 1 in *.
    destruct (IH p Hw) as [Hl1 Hl2]; [lia|]. destruct (Hset p) as [_ Hs]; [lia|]. pose proof (Hs row r Hrow Hr). lia.
Qed.

(** Adding a state that was not reached. *)
Lemma bfs_push d distance queue state row r x : bfs d distance queue -> at_ distance state = d -> 0 <= d -> rows.[state] = Some row -> r ∈ row -> holds r x ->
  at_ distance (rdest r) = -1 -> bfs d (<[Z.to_nat (rdest r) := d + 1]> distance) (queue ++ [rdest r]).
Proof.
  intros Hb Hst Hd Hrow Hr Hx Hnew. pose proof (trimmed_dest _ _ _ Hrow Hr) as (_ & _ & Hdest).
  assert (forall q, at_ (<[Z.to_nat (rdest r) := d + 1]> distance) q = if decide (rdest r = q) then d + 1 else at_ distance q) as Hat.
  { intros q. apply at_insert. by rewrite (bf_size _ _ _ Hb). }
  assert (forall q, q ∈ queue -> rdest r <> q) as Hfresh.
  { intros q Hq <-. pose proof (bf_queue _ _ _ Hb _ Hq). lia. }
  split.
  - rewrite zlen_insert. apply Hb.
  - rewrite Hat. case_decide as H0; [|apply Hb]. rewrite H0, (bf_start _ _ _ Hb) in Hnew. lia.
  - intros q. rewrite Hat. case_decide as Hq; [right|apply Hb]. subst q. split; [lia|].
    destruct (bf_walk _ _ _ Hb state) as [?|(_ & w & Hw & Hlen)]; [lia|]. exists (w ++ [x]). split; [by eapply walk_snoc|]. rewrite zlen_app. change (zlen [x]) with 1. lia.
  - intros q [Hq| ->%list_elem_of_singleton]%elem_of_app; rewrite Hat.
    + rewrite decide_False by (by apply Hfresh). by apply Hb.
    + rewrite decide_True by done. lia.
  - apply (StronglySorted_app_2 _ queue [rdest r]); [| |by repeat constructor].
    + intros p q Hp ->%list_elem_of_singleton. rewrite !Hat. rewrite decide_False, decide_True by (done || by apply Hfresh). pose proof (bf_queue _ _ _ Hb _ Hp). lia.
    + pose proof (bf_sorted _ _ _ Hb) as Hs. revert Hs Hfresh. clear -Hat. induction 1 as [|p l Hs IH Hall]; intros Hf; constructor.
      * apply IH. intros q Hq. apply Hf. by right.
      * rewrite Forall_forall in Hall |- *. intros q Hq. rewrite !Hat, !decide_False; [by apply Hall|apply Hf; by right|apply Hf; left].
Qed.

(** What one transition of the popped state does. *)
Record expanding (state d : Z) (seen : list ByteDfaRange) (distance queue : list Z) : Prop := {
  ex_bfs : bfs d distance queue;
  ex_state : at_ distance state = d;
  ex_settled : forall q, 0 <= at_ distance q -> q ∈ queue \/ q = state \/ settled distance q;
  ex_seen : forall r, r ∈ seen -> 0 <= at_ distance (rdest r) <= d + 1 }.

Lemma minRange_spec state d seen row r distance queue : 0 <= d -> rows.[state] = Some row -> r ∈ row -> expanding state d seen distance queue ->
  exists distance' queue', Queries.minRange state (distance, queue) r = Some (distance', queue') /\ expanding state d (seen ++ [r]) distance' queue'
    /\ (unseen distance' + length queue' = unseen distance + length queue)%nat.
Proof.
  intros Hd Hrow Hr [Hb Hst Hse Hsn]. pose proof (trimmed_dest _ _ _ Hrow Hr) as (Hmin & Hmax & Hdest). unfold Queries.minRange.
  rewrite <- (bf_size _ _ _ Hb) in Hdest. destruct (zget_in _ _ Hdest) as [k Ek]. assert (at_ distance (rdest r) = k) as Hk by (unfold at_; by rewrite Ek).
  rewrite Ek. opt. case_decide as Hnew.
  - assert (distance.[state] = Some d) as ->.
    { unfold at_ in Hst. destruct distance.[state]; simpl in Hst; [by rewrite Hst|lia]. }
    opt. rewrite zset_in by done. opt. eexists _, _. split; [done|].
    assert (forall q, at_ (<[Z.to_nat (rdest r) := d + 1]> distance) q = if decide (rdest r = q) then d + 1 else at_ distance q) as Hat by (intros q; by apply at_insert).
    assert (forall q, 0 <= at_ distance q -> rdest r <> q) as Hold by (intros q Hq <-; lia).
    split; [split|].
    + eapply (bfs_push d distance queue state row r (rmin r)); [done..| |lia]. unfold holds. lia.
    + rewrite Hat, decide_False; [done|]. apply Hold. lia.
    + intros q. rewrite Hat, elem_of_app, list_elem_of_singleton. case_decide as Hq; [by auto|]. intros Hq0.
      destruct (Hse q Hq0) as [?|[?|[Ha Hs]]]; [by auto..|]. right. right. split; [done|]. intros row' r' Hrow' Hr'. pose proof (Hs row' r' Hrow' Hr').
      rewrite !Hat, !decide_False; [done|done|apply Hold; lia].
    + intros r' [Hr'| ->%list_elem_of_singleton]%elem_of_app; rewrite Hat.
      * pose proof (Hsn r' Hr'). case_decide; lia.
      * rewrite decide_True by done. lia.
    + rewrite length_app. simpl. rewrite (unseen_set distance (rdest r) (d + 1)) by (done || lia). lia.
  - eexists _, _. split; [done|]. split; [|done]. split; [done..|]. intros r' [Hr'| ->%list_elem_of_singleton]%elem_of_app; [by apply Hsn|].
    destruct (bf_walk _ _ _ Hb (rdest r)) as [?|[? _]]; lia.
Qed.

Lemma minRow_spec state d row distance queue : 0 <= d -> rows.[state] = Some row -> expanding state d [] distance queue ->
  exists distance' queue', foldM (Queries.minRange state) (distance, queue) row = Some (distance', queue') /\ expanding state d row distance' queue'
    /\ (unseen distance' + length queue' = unseen distance + length queue)%nat.
Proof.
  intros Hd Hrow He. destruct (foldM_ind (fun seen st => expanding state d seen st.1 st.2 /\ (unseen st.1 + length st.2 = unseen distance + length queue)%nat)
    (Queries.minRange state) (distance, queue) row) as ([distance' queue'] & E & H); [done| |by exists distance', queue'].
  intros seen r rest [distance' queue'] Hsplit [H1 H2]. cbn [fst snd] in *.
  destruct (minRange_spec state d seen row r distance' queue') as (d2 & q2 & E2 & H3 & H4); [done|done|rewrite Hsplit; apply elem_of_app; right; left|done|].
  exists (d2, q2). cbn [fst snd]. split; [done|]. split; [done|lia].
Qed.

Definition searching (st : list Z * list Z) : Prop :=
  exists d, 0 <= d /\ bfs d st.1 st.2 /\ forall q, 0 <= at_ st.1 q -> q ∈ st.2 \/ settled st.1 q.

Definition shortest (m : Z) : Prop := (exists w, L w /\ zlen w = m) /\ forall w, L w -> m <= zlen w.

(** What is nearer than the first accepting state does not accept. *)
Lemma bfs_shortest e distance queue state w : bfs e distance queue -> at_ distance state = e -> acc.[state] = Some true -> walk rows 0 w state -> zlen w = e ->
  (forall q, 0 <= at_ distance q -> q ∈ queue \/ q = state \/ settled distance q) -> shortest e.
Proof.
  intros He Hst Hacc Hw Hlen Hse. split; [exists w; split; [apply HT; by exists state|done]|].
  intros w' (f & Hw' & Hf)%(tr_lang _ _ _ _ _ HT). destruct (decide (e <= zlen w')); [done|]. exfalso.
  assert (forall q, 0 <= at_ distance q < e -> settled distance q) as Hall.
  { intros q Hq. destruct (Hse q) as [Hin|[->|?]]; [lia| |lia|done]. apply (bf_queue _ _ _ He) in Hin. lia. }
  pose proof (bfs_reach e distance queue e He Hall w' f Hw' ltac:(lia)). destruct (Hall f) as [Ha _]; [lia|]. congruence.
Qed.

Lemma searching_nonempty distance : ~ searching (distance, []).
Proof.
  intros (d & Hd & Hb & Hse). cbn [fst snd] in *. destruct (tr_live _ _ _ _ _ HT 0) as [w (f & Hw & Hf)]; [pose proof (tr_pos _ _ _ _ _ HT); lia|].
  assert (forall q, 0 <= at_ distance q -> settled distance q) as Hall.
  { intros q Hq. destruct (Hse q Hq) as [?%not_elem_of_nil|?]; done. }
  pose proof (bfs_reach d distance [] (zlen w) Hb ltac:(intros q ?; apply Hall; lia) w f Hw ltac:(lia)) as Hf'.
  destruct (Hall f) as [Ha _]; [lia|]. congruence.
Qed.

Lemma bfs_pop d distance state queue : bfs d distance (state :: queue) -> bfs (at_ distance state) distance queue.
Proof.
  intros Hb. pose proof (bf_queue _ _ _ Hb state ltac:(left)) as Hs. pose proof (bf_sorted _ _ _ Hb) as [Hso Hall]%StronglySorted_inv. rewrite Forall_forall in Hall.
  split; [apply Hb|apply Hb| | |done].
  - intros q. destruct (bf_walk _ _ _ Hb q) as [?|[??]]; [by left|right]. split; [lia|done].
  - intros q Hq. pose proof (bf_queue _ _ _ Hb q ltac:(by right)). pose proof (Hall q Hq). lia.
Qed.

Lemma minStep_spec st : searching st -> exists x, Queries.minStep v st = Some x /\
  match x with inl st' => searching st' /\ (unseen st'.1 + length st'.2 < unseen st.1 + length st.2)%nat | inr m => shortest m end.
Proof.
  destruct st as [distance [|state queue]]; [by intros ?%searching_nonempty|]. intros (d & Hd & Hb & Hse). cbn [fst snd] in *. unfold Queries.minStep.
  pose proof (bf_queue _ _ _ Hb state ltac:(left)) as Hs. pose proof (bfs_pop _ _ _ _ Hb) as He.
  destruct (bf_walk _ _ _ Hb state) as [?|(Hs0 & w & Hw & Hlen)]; [lia|]. pose proof (tr_pos _ _ _ _ _ HT).
  assert (0 <= state < n) as Hr by (apply (walk_range 0 w); [done|lia]).
  destruct (trimmed_accept state Hr) as (b & Eb & Eb' & Hbb). rewrite Eb'. opt.
  assert (forall q, 0 <= at_ distance q -> q ∈ queue \/ q = state \/ settled distance q) as Hse'.
  { intros q Hq. destruct (Hse q Hq) as [[->|?]%elem_of_cons|?]; auto. }
  destruct b.
  - assert (distance.[state] = Some (at_ distance state)) as ->.
    { unfold at_ in *. destruct distance.[state]; simpl in *; [done|lia]. }
    opt. eexists. split; [done|]. cbn iota. by eapply bfs_shortest.
  - destruct (trimmed_row state Hr) as (row & Hrow & Et & _). rewrite Et. opt.
    destruct (minRow_spec state (at_ distance state) row distance queue) as (d2 & q2 & E2 & [H1 H2 H3 H4] & H5); [lia|done| |].
    { split; [done|done|done|]. by intros r ?%not_elem_of_nil. }
    rewrite E2. opt. eexists. split; [done|]. cbn [fst snd] in *. split; [|simpl; lia]. exists (at_ distance state). cbn [fst snd]. split_and!; [lia|done|].
    intros q Hq. destruct (H3 q Hq) as [?|[->|?]]; [by left| |by right]. right. split; [done|]. intros row' r Hrow' Hin. simplify_eq. rewrite H2. by apply H4.
Qed.

Lemma at_replicate k q : at_ (replicate (Z.to_nat k) (-1)) q = -1.
Proof. unfold at_. destruct (_.[q]) eqn:Eq; [|done]. by apply zget_replicate in Eq. Qed.

(** The length of a shortest accepted string. *)
Lemma minAcceptedLength_spec : exists m, Queries.minAcceptedLength v = Some m /\ shortest m.
Proof.
  pose proof trimmed_fuel as Hfu. pose proof (tr_pos _ _ _ _ _ HT) as Hn. unfold Queries.minAcceptedLength. rewrite trimmed_count, decide_False by lia.
  rewrite zset_in by (rewrite zlen_replicate; lia). opt. set (start := <[_ := _]> _).
  assert (forall q, at_ start q = if decide (0 = q) then 0 else -1) as Hat.
  { intros q. unfold start. rewrite at_insert by (rewrite zlen_replicate; lia). by rewrite at_replicate. }
  apply (whileO_spec searching (fun st => unseen st.1 + length st.2)%nat); [exact minStep_spec| |].
  - exists 0. cbn [fst snd]. split_and!; [lia| |].
    + split.
      * unfold start. rewrite zlen_insert, zlen_replicate. lia.
      * by rewrite Hat, decide_True.
      * intros q. rewrite Hat. case_decide as Hq; [right|by left]. subst q. split; [lia|]. exists []. split; [constructor|done].
      * intros q ->%list_elem_of_singleton. rewrite Hat, decide_True by done. lia.
      * repeat constructor.
    + intros q. rewrite Hat. case_decide as Hq; [|lia]. subst q. left. left.
  - cbn [fst snd]. pose proof (Nat.pow_gt_lin_r 2 (S (length (vaccepts v))) ltac:(lia)).
    assert (S (unseen start) = Z.to_nat n); [|simpl length; lia].
    unfold start. rewrite <- unseen_set; [|rewrite zlen_replicate; lia|apply at_replicate|done].
    unfold unseen. rewrite filter_all; [by rewrite length_replicate|]. intros x Hx. by apply elem_of_replicate in Hx as [-> _].
Qed.

(** ** Kinds *)

(** What the answer of [classify] says of the language; terms are at most 255 bytes long. *)
Definition kind_holds (kind : Queries.Kind) (value : list Z) : Prop :=
  match kind with
  | Queries.NONE => value = [] /\ forall w, L w -> 255 < zlen w
  | Queries.SINGLE => zlen value <= 255 /\ forall w, L w <-> w = value
  | Queries.PREFIX => value <> [] /\ zlen value <= 255 /\ forall w, L w <-> exists w', is_bytes w' /\ w = value ++ w'
  | Queries.ALL => value = [] /\ forall w, L w <-> is_bytes w
  | Queries.NORMAL => value = []
  end.

Lemma total_spec l q : Queries.total l = Some q <-> exists r, l = [r] /\ rmin r = 0 /\ rmax r = 255 /\ rdest r = q.
Proof.
  unfold Queries.total. destruct l as [|r [|r' l]]; [naive_solver| |naive_solver]. case_decide as Hm.
  - split; [intros [= <-]; exists r; naive_solver|]. by intros (r' & [= <-] & _ & _ & ->).
  - split; [done|]. intros (r' & [= <-] & ? & ? & ?). tauto.
Qed.

(** From a state where every byte leads to an accepting state that every byte stays in, everything is accepted. *)
Lemma total_accepts p row q : 0 <= p < n -> rows.[p] = Some row -> Queries.total row = Some q -> acc.[p] = Some true ->
  (forall w, is_bytes w -> acc_from q w) -> forall w, acc_from p w <-> is_bytes w.
Proof.
  intros Hp Hrow (r & -> & H0 & H1 & <-)%total_spec Ha Hq w. split; [intros (f & Hw & _); by eapply walk_bytes|]. intros Hw.
  destruct w as [|x w]; [by apply accepted_nil|]. apply Forall_cons in Hw as [Hx Hw]. apply (accepted_cons _ _ _ _ _ _ Hrow).
  exists r. split_and!; [by left|unfold holds; lia|by apply Hq].
Qed.

Lemma total_loop p row : 0 <= p < n -> rows.[p] = Some row -> Queries.total row = Some p -> acc.[p] = Some true -> forall w, is_bytes w -> acc_from p w.
Proof.
  intros Hp Hrow Ht Ha w. pose proof Ht as (r & -> & H0 & H1 & E)%total_spec. induction w as [|x w IH]; intros Hw; [by apply accepted_nil|].
  apply Forall_cons in Hw as [Hx Hw]. apply (accepted_cons _ _ _ _ _ _ Hrow). exists r. split_and!; [by left|unfold holds; lia|]. rewrite E. by apply IH.
Qed.

Lemma no_row_accepts p : 0 <= p < n -> rows.[p] = Some [] -> acc.[p] = Some true -> forall w, acc_from p w <-> w = [].
Proof.
  intros Hp Hrow Ha w. split; [|intros ->; by apply accepted_nil]. destruct w as [|x w]; [done|].
  intros (r & ?%not_elem_of_nil & _)%(accepted_cons _ _ _ _ _ _ Hrow). done.
Qed.

(** The loop ends at an accepting state of the chain, or with an answer that holds. *)
Lemma classify_loop m : shortest m -> m <= 255 -> exists r, whileO (S (length (vaccepts v))) (Queries.classifyStep v) ([], 0) = Some r /\
  match r with inl kind => kind = Queries.NORMAL | inr (prefix, q) => chain prefix q /\ zlen prefix <= 255 /\ acc.[q] = Some true end.
Proof.
  intros Hm Hm255. pose proof trimmed_fuel as Hfu. pose proof (tr_pos _ _ _ _ _ HT) as Hn.
  apply (whileO_spec (fun st => chain st.1 st.2 /\ zlen st.1 <= 255) (fun st => Z.to_nat (n - zlen st.1))).
  - intros [prefix q] [Hc Hl]. cbn [fst snd] in *. pose proof (ch_state _ _ Hc) as Hq. destruct (trimmed_accept q Hq) as (b & Hb & Eb & Hbb).
    destruct (trimmed_row q Hq) as (row & Hrow & Et & Hso & Hby). unfold Queries.classifyStep. rewrite Eb. opt. destruct b; [by eexists|].
    rewrite Et. opt. destruct row as [|r [|r' row]]; [by eexists| |by eexists]. case_decide as Hr; [|by eexists].
    pose proof (chain_step _ _ r Hc Hb Hrow Hr) as Hc'. case_decide as H255; eexists; (split; [done|]); cbn [fst snd] in *.
    + exfalso. destruct Hm as [(w & (w' & -> & _)%(tr_lang _ _ _ _ _ HT)%(ch_through _ _ Hc') & Hlen) _]. rewrite zlen_app in Hlen. pose proof (zlen_nonneg w'). lia.
    + split; [split; [done|lia]|]. pose proof (chain_room _ _ Hc). rewrite zlen_app. change (zlen [rmin r]) with 1. lia.
  - split; [apply chain_start|]. cbn [fst snd]. change (zlen (@nil Z)) with 0. lia.
  - cbn [fst snd]. change (zlen (@nil Z)) with 0. pose proof (Nat.pow_gt_lin_r 2 (S (length (vaccepts v))) ltac:(lia)). lia.
Qed.

Lemma handoff_spec row : byte_row n row -> exists b, match Queries.total row with
    | Some next =>
        acc0 ← (vaccepts v).[next];
        if acc0 : bool then k ← View.transitions v next; Some (bool_decide (Queries.total k = Some next)) else Some false
    | None => Some false
    end = Some b /\
  (b = true -> exists q row', 0 <= q < n /\ Queries.total row = Some q /\ rows.[q] = Some row' /\ Queries.total row' = Some q /\ acc.[q] = Some true).
Proof.
  intros Hb. destruct (Queries.total row) as [q|] eqn:Et; [|by exists false]. pose proof Et as (r & -> & _ & _ & <-)%total_spec.
  apply Forall_cons in Hb as [(_ & _ & Hd) _]. destruct (trimmed_accept _ Hd) as (b & Ea & Eb & _). rewrite Eb. opt.
  destruct (trimmed_row _ Hd) as (row' & Hrow & Er & _). rewrite Er. opt. destruct b; [|by exists false]. eexists. split; [done|].
  intros Ht%bool_decide_eq_true. by exists (rdest r), row'.
Qed.

Lemma classify_spec : exists kind value, Queries.classify v = Some (kind, value) /\ kind_holds kind value.
Proof.
  pose proof (tr_pos _ _ _ _ _ HT) as Hn. unfold Queries.classify. rewrite trimmed_count, decide_False by lia.
  destruct minAcceptedLength_spec as (m & Em & Hm). rewrite Em. opt. case_decide as Hm255.
  { eexists _, _. split; [done|]. split; [done|]. intros w Hw. apply Hm in Hw. lia. }
  destruct (classify_loop m Hm ltac:(lia)) as ([kind|[prefix q]] & El & Hr); rewrite El; opt; [subst; by eexists _, _|].
  destruct Hr as (Hc & Hlen & Ha). pose proof (ch_state _ _ Hc) as Hq. destruct (trimmed_row q Hq) as (row & Hrow & Et & Hso & Hby). rewrite Et. opt.
  destruct (handoff_spec row Hby) as (b & Eb & Hb). rewrite Eb. opt. destruct (bool_decide (Queries.total row = Some q) || b) eqn:Eor.
  - assert (forall w, acc_from q w <-> is_bytes w) as Hall.
    { apply orb_true_iff in Eor as [Hs%bool_decide_eq_true|Hh].
      - eapply (total_accepts q row q); [done..|]. by eapply total_loop.
      - destruct (Hb Hh) as (q' & row' & H1 & H2 & H3 & H4 & H5). eapply (total_accepts q row q'); [done..|]. by eapply total_loop. }
    eexists _, _. split; [done|]. pose proof (fun w => iff_trans (tr_lang _ _ _ _ _ HT w) (ch_through _ _ Hc w)) as HL. setoid_rewrite Hall in HL. destruct (decide (prefix = [])) as [Hp|Hp]; cbn [kind_holds].
    + split; [done|]. intros w. rewrite HL, Hp. split; [by intros (w' & -> & ?)|by exists w].
    + split_and!; [done..|]. intros w. rewrite HL. naive_solver.
  - destruct (decide (row = [])) as [Hnil|Hnil]; [|by eexists _, _]. subst row. eexists _, _. split; [done|]. split; [done|]. intros w.
    rewrite (tr_lang _ _ _ _ _ HT w), (ch_through _ _ Hc w). setoid_rewrite (no_row_accepts q Hq Hrow Ha).
    split; [intros (w' & -> & ->); by rewrite app_nil_r|]. intros ->. exists []. by rewrite app_nil_r.
Qed.
End Trimmed.

(** * The queries of compiled automata *)

(** The transitions of rows. *)
Definition row_edges (rows : list (list ByteDfaRange)) : edges := fun s u =>
  exists row x, rows.[s] = Some row /\ x ∈ row /\ u = MkT (rmin x) (rmax x) (rdest x) false.
Definition row_final (acc : list bool) (s : Z) : bool := default false acc.[s].

Lemma rows_presented v rows acc : holds_rows v rows acc -> presents rows acc (zlen rows) (row_edges rows) (row_final acc).
Proof.
  intros Hv. split_and!; [done|symmetry; apply Hv| |].
  - intros s Hs. unfold row_final. rewrite (hr_size _ _ _ Hv) in Hs. destruct (zget_in acc s Hs) as [b Hb']. by rewrite Hb'.
  - intros s row x q Hrow. split.
    + intros (y & Hy & Hx & <-). exists (MkT (rmin y) (rmax y) (rdest y) false). split; [by exists row, y|done].
    + intros (u & (row' & y & Hrow' & Hy & ->) & Hx & Hd). simplify_eq. by exists y.
Qed.

Lemma rows_bytes v rows acc s row x : holds_rows v rows acc -> rows.[s] = Some row -> x ∈ row ->
  0 <= rmin x <= rmax x /\ rmax x <= 255 /\ 0 <= rdest x < zlen rows.
Proof.
  intros Hv Hrow Hx. pose proof (hr_rows _ _ _ Hv) as HR. rewrite Forall_forall in HR. destruct (HR row) as [_ H]; [by eapply zget_elem_1|].
  by apply (proj1 (Forall_forall _ _) H).
Qed.

Lemma rows_within v rows acc : holds_rows v rows acc -> within (zlen rows) (row_edges rows).
Proof. intros Hv s u (row & x & Hrow & Hx & ->). split; [by eapply zget_Some_range|by eapply rows_bytes]. Qed.

Lemma run_rows v rows acc s w : holds_rows v rows acc -> 0 <= s < zlen rows -> is_bytes w ->
  exists b, View.run v s w = Some b /\ (b = true <-> accepted rows acc s w).
Proof.
  intros Hv Hs Hw. destruct (view_run_spec _ _ _ _ _ _ Hv (rows_presented _ _ _ Hv) w s Hw Hs) as (b & Eb & Hb). exists b. split; [done|].
  rewrite Hb. by apply (presents_accepted _ _ _ _ _ s (rows_presented _ _ _ Hv) (rows_within _ _ _ Hv)).
Qed.

(** Rows all of whose states are reached and live are a compiled automaton. *)
Lemma rows_compiled r rows acc : holds_rows (makeView r) rows acc -> 0 < zlen rows ->
  (forall q, 0 <= q < zlen rows -> exists w, walk rows 0 w q) -> (forall q, 0 <= q < zlen rows -> exists w, accepted rows acc q w) ->
  compiled r (accepted rows acc 0).
Proof.
  intros Hv Hn Hre Hli. pose proof (rows_presented _ _ _ Hv) as HP. pose proof (rows_within _ _ _ Hv) as HW.
  right. exists (zlen rows), (row_edges rows), (row_final acc). split_and!; [done|by exists rows, acc|done| | | | |].
  - intros s u u' (row & x & Hrow & Hx & ->) (row' & y & Hrow' & Hy & ->). simplify_eq.
    pose proof (hr_rows _ _ _ Hv) as HR. rewrite Forall_forall in HR. destruct (HR row) as [Hso _]; [by eapply zget_elem_1|].
    destruct (decide (rmax x < rmin y)) as [?|H1]; [by right; left|]. destruct (decide (rmax y < rmin x)) as [?|H2]; [by right; right|]. left.
    pose proof (rows_bytes _ _ _ _ _ _ Hv Hrow Hx). pose proof (rows_bytes _ _ _ _ _ _ Hv Hrow Hy).
    assert (x = y) as ->; [|done]. apply (sorted_unique row x y (Z.max (rmin x) (rmin y)) Hso Hx Hy); unfold holds; lia.
  - intros q Hq. destruct (Hre q Hq) as [w Hw]. exists w. apply (presents_walk _ _ _ _ _ HP HW); [lia|done].
  - intros q Hq. destruct (Hli q Hq) as [w Hw]. exists w. by apply (presents_accepted _ _ _ _ _ q HP HW).
  - intros s u (row & x & Hrow & Hx & ->). destruct (rows_bytes _ _ _ _ _ _ Hv Hrow Hx) as (? & ? & ?). unfold byte_range. simpl. lia.
  - intros w. apply (presents_accepted _ _ _ _ _ 0 HP HW). lia.
Qed.

(** The automaton of [ab*c]. *)
Definition sample_rows : list (list ByteDfaRange) := [[MkRange 97 97 1]; [MkRange 98 98 1; MkRange 99 99 2]; []].
Definition sample_accepts : list bool := [false; false; true].
Definition sample : ByteDfa := MkDfa (concat sample_rows) [0; 1; 3; 3] sample_accepts [].

Lemma sample_compiled : compiled sample (accepted sample_rows sample_accepts 0).
Proof.
  assert (forall q, 0 <= q < 3 -> q = 0 \/ q = 1 \/ q = 2) as H3 by lia. assert (forall x k, holds (MkRange x x k) x) as Hh by (unfold holds; simpl; lia).
  assert (walk sample_rows 0 [97] 1) as H01 by (eapply (walk_cons _ 0 _ (MkRange 97 97 1)); [reflexivity|left|apply Hh|constructor]).
  assert (walk sample_rows 1 [99] 2) as H12 by (eapply (walk_cons _ 1 _ (MkRange 99 99 2)); [reflexivity|right; left|apply Hh|constructor]).
  apply rows_compiled; [|done| |].
  - split; try done.
    + intros _. split_and!; [done..|]. change (zlen sample_rows) with 3. intros i Hi. assert (i = 0 \/ i = 1 \/ i = 2 \/ i = 3) as [-> |[-> |[-> | ->]]] by lia; reflexivity.
    + unfold sorted_row, byte_row. change (zlen sample_rows) with 3. unfold sample_rows. repeat constructor; simpl; lia.
  - change (zlen sample_rows) with 3. intros q [-> |[-> | ->]]%H3; [exists []; constructor|by exists [97]|exists ([97] ++ [99]); by eapply walk_app].
  - change (zlen sample_rows) with 3. intros q [-> |[-> | ->]]%H3; [exists ([97] ++ [99])|exists [99]|exists []]; exists 2; (split; [|done]); [by eapply walk_app|done|constructor].
Qed.

(** C16: the answer of [classify] on a compiled automaton is true of its language: NONE if nothing of at most 255 bytes is accepted, SINGLE with the one string accepted,
    PREFIX with the string that is the start of all and only the strings accepted, ALL if all strings of bytes are.  The search for the shortest string
    and the walk of the prefix end within the number of states. *)
Theorem classify_correct r L : compiled r L -> exists kind value, Queries.classify (makeView r) = Some (kind, value) /\ kind_holds L kind value.
Proof.
  intros [[-> HL]|(rows & acc & n & HT)]%compiled_trimmed; [|by eapply classify_spec].
  exists Queries.NONE, []. split; [done|]. split; [done|]. intros w Hw. by destruct (HL w).
Qed.

Lemma classify_correct_witness : Queries.classify (makeView sample) = Some (Queries.NORMAL, [])
  /\ exists kind value, Queries.classify (makeView sample) = Some (kind, value) /\ kind_holds (accepted sample_rows sample_accepts 0) kind value.
Proof. split; [vm_compute; reflexivity|]. exact (classify_correct _ _ sample_compiled). Defined.

(** C27: [commonPrefixAndState] on a compiled automaton gives a prefix that all accepted strings have and the state it leads to, from where the automaton accepts
    exactly what follows the prefix; no longer prefix is common to all; for an empty language, the prefix is empty and the state dead. *)
Theorem commonPrefix_correct r L : compiled r L -> exists prefix q, Queries.commonPrefixAndState (makeView r) = Some (prefix, q)
  /\ ((q = DEAD /\ prefix = [] /\ forall w, ~ L w)
      \/ ((forall w, is_bytes w -> exists b, View.run (makeView r) q w = Some b /\ (b = true <-> L (prefix ++ w)))
         /\ (forall w, L w -> exists w', w = prefix ++ w')
         /\ forall p, (forall w, L w -> exists w', w = p ++ w') -> zlen p <= zlen prefix)).
Proof.
  intros [[-> HL]|(rows & acc & n & HT)]%compiled_trimmed; [by exists [], DEAD; split; [|left]|].
  destruct (commonPrefixAndState_spec _ _ _ _ _ HT) as (prefix & q & E & Hc & Hstop). exists prefix, q. split; [done|right].
  pose proof (ch_through _ _ _ _ _ Hc) as Hth. pose proof (ch_state _ _ _ _ _ Hc) as Hq. split_and!.
  - intros w Hw. rewrite <- (tr_size _ _ _ _ _ HT) in Hq. destruct (run_rows _ _ _ q w (tr_rows _ _ _ _ _ HT) Hq Hw) as (b & Eb & Hb). exists b. split; [done|].
    rewrite Hb, (tr_lang _ _ _ _ _ HT), (Hth (prefix ++ w)). split; [by exists w|]. by intros (w' & ->%app_inv_head & ?).
  - intros w (w' & -> & _)%(tr_lang _ _ _ _ _ HT)%Hth. by exists w'.
  - intros p Hp. assert (forall w, accepted rows acc q w -> exists w', prefix ++ w = p ++ w') as Hp'.
    { intros w Hw. apply Hp, HT, Hth. by exists w. }
    destruct Hstop as [(w' & Hw')%Hp'|(x & y & Hxy & (wx & (vx & Hx)%Hp') & (wy & (vy & Hy)%Hp'))].
    + apply (f_equal zlen) in Hw'. rewrite app_nil_r, zlen_app in Hw'. pose proof (zlen_nonneg w'). lia.
    + destruct (decide (zlen p <= zlen prefix)) as [?|Hlt]; [done|]. destruct Hxy. unfold zlen in Hlt.
      assert (forall z l k, prefix ++ z :: l = p ++ k -> p !! length prefix = Some z) as Hat.
      { intros z l k Ez. apply (f_equal (lookup (length prefix))) in Ez. rewrite list_lookup_middle in Ez by done. rewrite lookup_app_l in Ez by lia. done. }
      apply Hat in Hx, Hy. congruence.
Qed.

Lemma commonPrefix_correct_witness : Queries.commonPrefixAndState (makeView sample) = Some ([97], 1)
  /\ exists prefix q, Queries.commonPrefixAndState (makeView sample) = Some (prefix, q)
  /\ ((q = DEAD /\ prefix = [] /\ forall w, ~ accepted sample_rows sample_accepts 0 w)
      \/ ((forall w, is_bytes w -> exists b, View.run (makeView sample) q w = Some b /\ (b = true <-> accepted sample_rows sample_accepts 0 (prefix ++ w)))
         /\ (forall w, accepted sample_rows sample_accepts 0 w -> exists w', w = prefix ++ w')
         /\ forall p, (forall w, accepted sample_rows sample_accepts 0 w -> exists w', w = p ++ w') -> zlen p <= zlen prefix)).
Proof. split; [vm_compute; reflexivity|]. exact (commonPrefix_correct _ _ sample_compiled). Defined.

(** The state the bytes lead to. *)
Fixpoint steps (v : ByteDfaView) (state : Z) (bytes : list Z) : option Z :=
  match bytes with
  | [] => Some state
  | byte :: bytes => state ← View.step v state byte; steps v state bytes
  end.

Lemma steps_dead v u : steps v DEAD u = Some DEAD.
Proof. induction u as [|x u IH]; [done|]. exact IH. Qed.

Lemma steps_spec v rows acc n L u : trimmed v rows acc n L -> is_bytes u -> forall s, 0 <= s < n -> exists q, steps v s u = Some q /\
  ((q = DEAD /\ forall w, ~ accepted rows acc s (u ++ w)) \/ (0 <= q < n /\ forall w, accepted rows acc s (u ++ w) <-> accepted rows acc q w)).
Proof.
  intros HT. induction u as [|x u IH]; intros Hu s Hs; [exists s; split; [done|]; by right|]. apply Forall_cons in Hu as [Hx Hu].
  destruct (trimmed_row _ _ _ _ _ HT s Hs) as (row & Hrow & _ & Hso & _). cbn [steps]. rewrite (step_spec _ _ _ _ _ _ (tr_rows _ _ _ _ _ HT) Hrow Hx). opt.
  pose proof (findRange_spec row x) as Hf. destruct (View.findRange row x) as [r|]; simpl.
  - destruct Hf as [Hr Hrx]. destruct (IH Hu (rdest r)) as (q & Eq & Hq); [by eapply (trimmed_dest _ _ _ _ _ HT)|]. exists q. split; [done|].
    assert (forall w, accepted rows acc s (x :: u ++ w) <-> accepted rows acc (rdest r) (u ++ w)) as Hone.
    { intros w. rewrite (accepted_cons _ _ _ _ _ _ Hrow). split; [|by exists r]. intros (r' & Hr' & Hrx' & H). by rewrite (sorted_unique row r r' x). }
    setoid_rewrite Hone. exact Hq.
  - rewrite steps_dead. eexists. split; [done|]. left. split; [done|]. intros w (r & Hr & Hrx & _)%(accepted_cons _ _ _ _ _ _ Hrow). by apply (Hf r).
Qed.

(** A byte that follows [u] in some string of the language. *)
Definition follows (L : language) (u : list Z) (x : Z) : Prop := exists w, L (u ++ x :: w).

Definition live_bytes (v : ByteDfaView) (L : language) (u : list Z) (q : Z) : Prop :=
  (View.canMatch v q = true <-> exists w, L (u ++ w))
  /\ (forall b, exists x, View.nextLiveByte v q b = Some x /\
       ((x = DEAD /\ forall y, b <= y -> ~ follows L u y) \/ (b <= x /\ follows L u x /\ forall y, b <= y < x -> ~ follows L u y)))
  /\ (forall b, 0 <= b <= 255 -> exists m, View.liveByteRangeMax v q b = Some m /\
       ((m = DEAD /\ ~ follows L u b) \/ (b <= m <= 255 /\ exists q', forall y, b <= y <= m -> follows L u y /\ View.step v q y = Some q'))).

Lemma live_bytes_dead v L u : (forall w, ~ L (u ++ w)) -> live_bytes v L u DEAD.
Proof.
  intros HL. assert (forall x, ~ follows L u x) as Hno by (intros x [w Hw]; by apply (HL (x :: w))). split_and!.
  - unfold View.canMatch. rewrite bool_decide_eq_true. split; [done|]. intros [w Hw]. by destruct (HL w).
  - intros b. exists DEAD. split; [done|]. left. split; [done|]. intros y _. apply Hno.
  - intros b Hb. exists DEAD. split; [done|]. left. by split.
Qed.

Lemma live_bytes_state v rows acc n L u q : trimmed v rows acc n L -> 0 <= q < n -> (forall w, accepted rows acc 0 (u ++ w) <-> accepted rows acc q w) ->
  live_bytes v L u q.
Proof.
  intros HT Hq Hu. assert (forall x, follows L u x <-> viable rows acc q x) as Hf.
  { intros x. unfold follows, viable. setoid_rewrite (tr_lang _ _ _ _ _ HT). by setoid_rewrite Hu. }
  unfold live_bytes. setoid_rewrite Hf. split_and!.
  - unfold View.canMatch. rewrite bool_decide_eq_true. setoid_rewrite (tr_lang _ _ _ _ _ HT). setoid_rewrite Hu. split; [intros _; by apply HT|]. intros _. unfold DEAD. lia.
  - intros b. by apply (nextLiveByte_spec _ _ _ _ _ HT).
  - intros b Hb. destruct (liveByteRangeMax_spec _ _ _ _ _ HT q b Hq Hb) as (m & Em & Hm). exists m. split; [done|]. destruct Hm as [?|(? & q' & _ & ?)]; [by left|right].
    split; [done|by exists q'].
Qed.

(** C21: a walk of the dictionary's bytes through a compiled automaton knows where to go: the state reached by [u] can match exactly if some accepted string starts
    with [u]; [nextLiveByte] is the smallest byte from [b] that follows [u] in an accepted string; [liveByteRangeMax] ends a range of such bytes that
    all step to one state.  [allStatesLiveOnAllBytes] holds exactly if some string is accepted and every start of an accepted string can be followed by every byte. *)
Theorem live_bytes_correct r L : compiled r L ->
  (forall u, is_bytes u -> exists q, steps (makeView r) (View.start (makeView r)) u = Some q /\ live_bytes (makeView r) L u q)
  /\ exists b, View.allStatesLiveOnAllBytes (makeView r) = Some b /\
       (b = true <-> (exists w, L w) /\ forall u x, is_bytes u -> (exists w, L (u ++ w)) -> 0 <= x <= 255 -> follows L u x).
Proof.
  intros [[-> HL]|(rows & acc & n & HT)]%compiled_trimmed.
  { split; [|exists false; split; [done|]; split; [done|]; intros [[w Hw] _]; by destruct (HL w)].
    intros u Hu. exists DEAD. split; [apply steps_dead|]. apply live_bytes_dead. intros w. apply HL. }
  pose proof (tr_pos _ _ _ _ _ HT) as Hn. split.
  - intros u Hu. unfold View.start. rewrite (trimmed_count _ _ _ _ _ HT), decide_False by lia.
    destruct (steps_spec _ _ _ _ _ u HT Hu 0) as (q & Eq & [[-> Hq]|[Hq Hw]]); [lia| |]; eexists; (split; [done|]).
    + apply live_bytes_dead. intros w Hw%(tr_lang _ _ _ _ _ HT). by apply (Hq w).
    + by eapply live_bytes_state.
  - destruct (allStatesLiveOnAllBytes_spec _ _ _ _ _ HT) as (b & Eb & Hb). exists b. split; [done|]. rewrite Hb. split.
    + intros H. split; [destruct (tr_live _ _ _ _ _ HT 0) as [w Hw]; [lia|]; exists w; by apply HT|]. intros u x Hu [w Hw%(tr_lang _ _ _ _ _ HT)] Hx.
      destruct (steps_spec _ _ _ _ _ u HT Hu 0) as (q & _ & [[_ Hq]|[Hq Hq']]); [lia|by destruct (Hq w)|].
      destruct (H q x Hq Hx) as [w' Hw']. exists w'. by apply HT, Hq'.
    + intros [_ H] s x Hs Hx. destruct (tr_reached _ _ _ _ _ HT s Hs) as [u Hu]. pose proof (walk_bytes _ _ _ _ _ HT _ _ _ Hu) as Hub.
      destruct (tr_live _ _ _ _ _ HT s Hs) as [w0 Hw0]. destruct (H u x Hub) as [w Hw%(tr_lang _ _ _ _ _ HT)]; [exists w0; apply HT; by eapply accepted_walk|done|].
      destruct (steps_spec _ _ _ _ _ u HT Hub 0) as (q & Eq & [[_ Hq]|[Hq Hq']]); [lia|by destruct (Hq _ Hw)|].
      exists w. destruct Hw as (f & (p & Hup & Hpw)%walk_app_inv & Hf). exists f. split; [|done]. by rewrite (walk_unique _ _ _ _ _ HT 0 u s p).
Qed.

Lemma live_bytes_correct_witness : View.nextLiveByte (makeView sample) 1 0 = Some 98 /\ View.allStatesLiveOnAllBytes (makeView sample) = Some false
  /\ (forall u, is_bytes u -> exists q, steps (makeView sample) (View.start (makeView sample)) u = Some q
        /\ live_bytes (makeView sample) (accepted sample_rows sample_accepts 0) u q).
Proof. split; [vm_compute; reflexivity|]. split; [vm_compute; reflexivity|]. exact (proj1 (live_bytes_correct _ _ sample_compiled)). Defined.
