(* ===== verification/ByteDfaCycles.v ===== *)
(** Cycles of a deterministic automaton on bytes: [maxAcceptedLength], [isCyclic] and [commonSuffix] of [util/automaton/ByteDfa.h].

    The longest accepted string and the test for cycles take states away in topological order (Kahn's algorithm).  The invariant of both is
    that a state's degree counts the transitions to it from states still there ([kahn]).  The common suffix walks backward from the
    accepting states as long as one byte leads there, and stops within a limit of work. *)

From S2P Require Import Prelude Search Metered Languages CaseAlternates Automata Determinize LiveStates Utf8 ByteDfa ByteDfaQueries.

Module Cycles.
Import Queries.

(** ** Longest strings *)

Definition UNBOUNDED : Z := 2 ^ 31 - 1.

(** [indegree[range.dest]++] for all transitions. *)
Definition incoming (v : ByteDfaView) : option (list Z) :=
  foldM (fun indegree state =>
    l ← View.transitions v state;
    foldM (fun indegree range => k ← indegree.[rdest range]; zset indegree (rdest range) (u32 (k + 1))) indegree l)
  (replicate (Z.to_nat (stateCount v)) 0) (seqZ 0 (stateCount v)).

(** [if (--indegree[dest] == 0) pending.push(dest)]. *)
Definition release (st : list Z * list Z) (dest : Z) : option (list Z * list Z) :=
  let '(indegree, pending) := st in
  k ← indegree.[dest];
  let k := u32 (k - 1) in
  indegree ← zset indegree dest k;
  Some (indegree, if decide (k = 0) then pending ++ [dest] else pending).

(** [longest[dest] = std::max(longest[dest], length + 1)]. *)
Definition lengthen (length : Z) (longest : list Z) (dest : Z) : option (list Z) :=
  k ← longest.[dest]; zset longest dest (Z.max k (length + 1)).

Record maxState := MaxState { indegree : list Z; pending : list Z; longest : list Z; index : Z; best : Z }.

Definition maxStep (v : ByteDfaView) (s : maxState) : option (maxState + maxState)%type :=
  if decide (index s < zlen (pending s)) then
    state ← (pending s).[index s];
    length ← (longest s).[state];
    acc ← (vaccepts v).[state];
    let best := if acc : bool then Z.max (best s) length else best s in
    l ← View.transitions v state;
    '(longest, (indegree, pending)) ← foldM (fun '(longest, st) range =>
        longest ← lengthen length longest (rdest range);
        st ← release st (rdest range);
        Some (longest, st)) (longest s, (indegree s, pending s)) l;
    Some (inl (MaxState indegree pending longest (index s + 1) best))
  else Some (inr s).

Definition maxAcceptedLength (v : ByteDfaView) : option Z :=
  if decide (stateCount v = 0) then Some (-1) else
  indegree ← incoming v;
  k ← indegree.[0];
  if decide (k <> 0) then Some UNBOUNDED else
  s ← whileO (S (length (vaccepts v))) (maxStep v) (MaxState indegree [0] (replicate (Z.to_nat (stateCount v)) 0) 0 (-1));
  Some (if decide (zlen (pending s) = stateCount v) then best s else UNBOUNDED).

(** ** Suffixes *)

Definition COMMON_SUFFIX_WORK_LIMIT : Z := 1000000.

(** A loop with an early return. *)
Fixpoint foldX {S A R} (f : S -> A -> option (S + R)%type) (s : S) (l : list A) : option (S + R)%type :=
  match l with
  | [] => Some (inl s)
  | x :: l => r ← f s x; match r with inl s => foldX f s l | inr r => Some (inr r) end
  end.

Definition worked {S R} (work : Z) (early : R) (k : Z -> option (S + R)%type) : option (S + R)%type :=
  let work := work + 1 in if decide (COMMON_SUFFIX_WORK_LIMIT < work) then Some (inr early) else k work.

Definition cyclicStep (v : ByteDfaView) (st : Z * (list Z * list Z) * Z) : option ((Z * (list Z * list Z) * Z) + (bool * Z))%type :=
  let '(work, (indegree, pending), removed) := st in
  match pending with
  | [] => Some (inr (bool_decide (removed <> zlen (vaccepts v)), work))
  | state :: pending =>
      l ← View.transitions v state;
      r ← foldX (fun '(work, st) range => worked work (work + 1) (fun work => st ← release st (rdest range); Some (inl (work, st))))
        (work, (indegree, pending)) l;
      match r with
      | inl (work, st) => Some (inl (work, st, removed + 1))
      | inr work => Some (inr (false, work))
      end
  end.

Definition isCyclic (v : ByteDfaView) (work : Z) : option (bool * Z) :=
  let n := zlen (vaccepts v) in
  r ← foldX (fun '(work, indegree) state =>
      l ← View.transitions v state;
      foldX (fun '(work, indegree) range => worked work (work + 1) (fun work =>
        k ← indegree.[rdest range]; indegree ← zset indegree (rdest range) (u32 (k + 1)); Some (inl (work, indegree)))) (work, indegree) l)
    (work, replicate (Z.to_nat n) 0) (seqZ 0 n);
  match r with
  | inr work => Some (false, work)
  | inl (work, indegree) =>
      pending ← foldM (fun pending state => k ← indegree.[state]; Some (if decide (k = 0) then pending ++ [state] else pending)) [] (seqZ 0 n);
      whileO (S (length (vaccepts v))) (cyclicStep v) (work, (indegree, pending), 0)
  end.

(** One transition in a round: the state is the work, the common byte and the predecessors. *)
Definition suffixRange (states : list bool) (reversed : list Z) (source : Z) (st : Z * Z * list bool) (range : ByteDfaRange)
    : option ((Z * Z * list bool) + list Z)%type :=
  let '(work, byte, predecessors) := st in
  worked work [] (fun work =>
    s ← states.[rdest range];
    if negb s then Some (inl (work, byte, predecessors)) else
    if decide (rmin range <> rmax range) then Some (inr (reverse reversed)) else
    if decide (byte <> -1 /\ byte <> rmin range) then Some (inr (reverse reversed)) else
    predecessors ← zset predecessors source true;
    Some (inl (work, rmin range, predecessors))).

Definition suffixRound (v : ByteDfaView) (st : list bool * list Z * Z) : option ((list bool * list Z * Z) + list Z)%type :=
  let '(states, reversed, work) := st in
  s0 ← states.[0];
  if s0 : bool then Some (inr (reverse reversed)) else
  r ← foldX (fun st source => l ← View.transitions v source; foldX (suffixRange states reversed source) st l)
    (work, -1, replicate (length states) false) (seqZ 0 (zlen states));
  match r with
  | inr s => Some (inr s)
  | inl (work, byte, predecessors) =>
      if decide (byte = -1) then Some (inr (reverse reversed)) else Some (inl (predecessors, reversed ++ [byte], work))
  end.

Definition commonSuffix (v : ByteDfaView) : option (list Z) :=
  '(kind, _) ← classify v;
  match kind with
  | NORMAL =>
      '(cyclic, work) ← isCyclic v 0;
      if negb cyclic || bool_decide (COMMON_SUFFIX_WORK_LIMIT < work) then Some [] else
      whileO 20 (suffixRound v) (vaccepts v, [], work)
  | _ => Some []
  end.
End Cycles.
Import Cycles.

(** * Counting transitions *)

Definition occ (q : Z) (l : list Z) : Z := zlen (filter (fun x => x = q) l).

Lemma occ_app q l k : occ q (l ++ k) = occ q l + occ q k.
Proof. unfold occ. by rewrite filter_app, zlen_app. Qed.

Lemma occ_cons q x l : occ q (x :: l) = (if decide (x = q) then 1 else 0) + occ q l.
Proof. unfold occ. rewrite filter_cons. case_decide; [by rewrite zlen_cons|lia]. Qed.

Lemma occ_nonneg q l : 0 <= occ q l.
Proof. apply zlen_nonneg. Qed.

Lemma occ_le q l : occ q l <= zlen l.
Proof. apply zlen_filter. Qed.

Lemma occ_pos q l : 0 < occ q l <-> q ∈ l.
Proof.
  induction l as [|x l IH]; [change (occ q []) with 0; rewrite elem_of_nil; lia|]. rewrite occ_cons, elem_of_cons.
  pose proof (occ_nonneg q l). case_decide; subst; [intuition lia|]. rewrite <- IH. intuition (congruence || lia).
Qed.

Lemma occ_perm q l k : l ≡ₚ k -> occ q l = occ q k.
Proof. intros H. unfold occ, zlen. by rewrite H. Qed.

Section Kahn.
Context (v : ByteDfaView) (rows : list (list ByteDfaRange)) (acc : list bool) (n : Z) (L : language) (HT : trimmed v rows acc n L).

(** The destinations of a state's transitions, and of those of all states outside a list. *)
Definition dests (s : Z) : list Z := rdest <$> default [] rows.[s].
Definition others (gone : list Z) : list Z := concat (dests <$> filter (fun s => s ∉ gone) (seqZ 0 n)).

Definition counts (indegree : list Z) (l : list Z) : Prop := zlen indegree = n /\ forall q, 0 <= q < n -> indegree.[q] = Some (occ q l).

Lemma dests_row s row : rows.[s] = Some row -> dests s = rdest <$> row.
Proof. intros H. unfold dests. by rewrite H. Qed.

Lemma dests_range s q : q ∈ dests s -> 0 <= q < n.
Proof.
  unfold dests. destruct rows.[s] as [row|] eqn:E; simpl; [|by intros ?%not_elem_of_nil]. intros (r & -> & Hr)%list_elem_of_fmap.
  by apply (trimmed_dest _ _ _ _ _ HT _ _ _ E).
Qed.

Lemma elem_of_others q gone : q ∈ others gone <-> exists s, 0 <= s < n /\ (s ∉ gone) /\ (q ∈ dests s).
Proof.
  unfold others. rewrite elem_of_concat. setoid_rewrite (list_elem_of_fmap dests). setoid_rewrite list_elem_of_filter. setoid_rewrite elem_of_seqZ. split.
  - intros (l & (s & -> & Hg & Hs) & Hq). exists s. split; [lia|]. by split.
  - intros (s & Hs & Hg & Hq). exists (dests s). split; [|done]. exists s. split; [done|]. split; [done|lia].
Qed.

Lemma others_snoc gone s : 0 <= s < n -> s ∉ gone -> others gone ≡ₚ dests s ++ others (gone ++ [s]).
Proof.
  intros Hs Hg. unfold others. assert (filter (fun x => x ∉ gone) (seqZ 0 n) ≡ₚ s :: filter (fun x => x ∉ gone ++ [s]) (seqZ 0 n)) as ->; [|done].
  pose proof (NoDup_seqZ 0 n) as Hnd. apply NoDup_Permutation.
  - by apply NoDup_filter.
  - constructor; [|by apply NoDup_filter]. intros [Hx _]%list_elem_of_filter. apply Hx, elem_of_app. right. left.
  - intros x. rewrite elem_of_cons, !list_elem_of_filter, elem_of_app, list_elem_of_singleton, elem_of_seqZ. destruct (decide (x = s)) as [->|Hne]; [|tauto]. split; [by left|].
    intros _. split; [done|lia].
Qed.

Lemma others_nil : others [] = concat (dests <$> seqZ 0 n).
Proof. unfold others. by rewrite filter_all by (intros x _; apply not_elem_of_nil). Qed.

Lemma others_all : zlen (others []) = zlen (vranges v).
Proof.
  pose proof (tr_size _ _ _ _ _ HT) as Hz. pose proof (tr_pos _ _ _ _ _ HT) as Hn.
  destruct (hr_laid _ _ _ (tr_rows _ _ _ _ _ HT)) as [Er _]; [intros E; rewrite E in Hz; change (zlen (@nil (list ByteDfaRange))) with 0 in Hz; lia|].
  transitivity (zlen (concat rows)); [|by rewrite <- Er]. rewrite others_nil. replace (dests <$> seqZ 0 n) with (fmap (M := list) rdest <$> rows).
  - clear. unfold zlen. f_equal. induction rows as [|r l IH]; simpl; [done|]. rewrite !length_app, length_fmap. f_equal. exact IH.
  - apply list_eq. intros i. rewrite <- !zget_nat, !zget_fmap. destruct (decide (Z.of_nat i < n)) as [Hi|Hi].
    + rewrite zget_seqZ, Z.add_0_l by lia. destruct (zget_in rows (Z.of_nat i)) as [row Hrow]; [lia|]. rewrite Hrow. simpl. by rewrite (dests_row _ _ Hrow).
    + destruct (rows.[Z.of_nat i]) eqn:E1; [apply zget_Some_range in E1; lia|]. destruct ((seqZ 0 n).[Z.of_nat i]) eqn:E2; [apply zget_Some_range in E2; rewrite zlen_seqZ in E2; lia|done].
Qed.

(** There are less than 2^32 transitions. *)
Lemma others_small gone : zlen (others gone) < 2 ^ 32.
Proof.
  pose proof (hr_small _ _ _ (tr_rows _ _ _ _ _ HT)) as Hsm. pose proof others_all as Hall. rewrite others_nil in Hall.
  enough (zlen (others gone) <= zlen (concat (dests <$> seqZ 0 n))) by lia. unfold others. clear. induction (seqZ 0 n) as [|x l IH]; [done|].
  rewrite filter_cons. case_decide; rewrite ?fmap_cons; simpl; rewrite !zlen_app; pose proof (zlen_nonneg (dests x)); unfold zlen in *; lia.
Qed.

(** * Kahn's algorithm *)

(** States taken away are [gone]; those queued have no transition from what is left. *)
Record kahn (gone queue indegree : list Z) : Prop := {
  ka_counts : counts indegree (others gone);
  ka_distinct : NoDup (gone ++ queue);
  ka_free : forall q, 0 <= q < n -> q ∈ gone ++ queue <-> q ∉ others gone;
  ka_range : forall q, q ∈ gone ++ queue -> 0 <= q < n }.

(** Releasing the destinations of a state that has been taken away. *)
Lemma release_spec l : forall held indegree queue rest,
  (forall q, q ∈ l -> 0 <= q < n) -> zlen (l ++ rest) < 2 ^ 32 -> counts indegree (l ++ rest) -> NoDup (held ++ queue) ->
  (forall q, 0 <= q < n -> q ∈ held ++ queue <-> q ∉ l ++ rest) -> (forall q, q ∈ held ++ queue -> 0 <= q < n) ->
  exists indegree' new, foldM release (indegree, queue) l = Some (indegree', queue ++ new) /\ counts indegree' rest /\ NoDup (held ++ queue ++ new)
    /\ (forall q, 0 <= q < n -> q ∈ held ++ queue ++ new <-> q ∉ rest) /\ (forall q, q ∈ held ++ queue ++ new -> 0 <= q < n).
Proof.
  induction l as [|x l IH]; intros held indegree queue rest Hl Hsm [Hz Hc] Hnd Hfree Hrg.
  { exists indegree, []. rewrite app_nil_r. by split_and!. }
  simpl in Hsm, Hc, Hfree. rewrite zlen_cons in Hsm. assert (0 <= x < n) as Hx by (apply Hl; left).
  pose proof (occ_nonneg x (l ++ rest)) as Hp. pose proof (occ_le x (l ++ rest)) as Hle. cbn [foldM].
  assert (release (indegree, queue) x = Some (<[Z.to_nat x := occ x (l ++ rest)]> indegree, if decide (occ x (l ++ rest) = 0) then queue ++ [x] else queue)) as ->.
  { unfold release. rewrite (Hc x Hx), occ_cons, decide_True by done. opt. rewrite Z.add_simpl_l, uwrap_id by (unfold is_u; lia). by rewrite zset_in by lia. }
  opt.
  assert (counts (<[Z.to_nat x := occ x (l ++ rest)]> indegree) (l ++ rest)) as Hc'.
  { split; [by rewrite zlen_insert|]. intros q Hq. rewrite zget_insert by lia. case_decide as Hxq; [by subst|]. rewrite (Hc q Hq), occ_cons, decide_False by done. done. }
  assert (x ∉ held ++ queue) as Hxn. { intros Hin. apply (Hfree x Hx) in Hin. apply Hin. left. }
  assert (forall q, 0 <= q < n -> q <> x -> q ∈ held ++ queue <-> q ∉ l ++ rest) as Hf'.
  { intros q Hq Hne. rewrite (Hfree q Hq), elem_of_cons. tauto. }
  pose proof (occ_pos x (l ++ rest)) as Hpos. case_decide as H0.
  - destruct (IH held (<[Z.to_nat x := occ x (l ++ rest)]> indegree) (queue ++ [x]) rest) as (ind & new & E & H1 & H2 & H3 & H4); [by intros q Hq; apply Hl; right|lia|done| | | |].
    + rewrite app_assoc. apply NoDup_app. split_and!; [done| |apply NoDup_singleton]. intros q Hq ->%list_elem_of_singleton. done.
    + intros q Hq. rewrite app_assoc, elem_of_app, list_elem_of_singleton. destruct (decide (q = x)) as [->|Hne]; [|rewrite <- (Hf' q Hq Hne); tauto].
      split; [intros _|by right]. rewrite <- Hpos. lia.
    + intros q. rewrite app_assoc, elem_of_app, list_elem_of_singleton. intros [?| ->]; [by apply Hrg|done].
    + exists ind, ([x] ++ new). rewrite !app_assoc in *. by split_and!.
  - apply (IH held); [by intros q Hq; apply Hl; right|lia|done|done| |done]. intros q Hq. destruct (decide (q = x)) as [->|Hne]; [|by apply Hf'].
    split; [done|]. intros Hn. destruct Hn. apply Hpos. lia.
Qed.

Lemma kahn_step gone s queue indegree : kahn gone (s :: queue) indegree ->
  exists indegree' new, foldM release (indegree, queue) (dests s) = Some (indegree', queue ++ new) /\ kahn (gone ++ [s]) (queue ++ new) indegree'.
Proof.
  intros [[Hz Hc] Hnd Hfree Hrg]. assert (0 <= s < n) as Hs by (apply Hrg, elem_of_app; right; left).
  assert (s ∉ gone) as Hg. { apply NoDup_app in Hnd as (_ & Hd & _). intros Hin. apply (Hd s Hin). left. }
  pose proof (others_snoc gone s Hs Hg) as HP.
  destruct (release_spec (dests s) (gone ++ [s]) indegree queue (others (gone ++ [s]))) as (ind & new & E & H1 & H2 & H3 & H4).
  - apply dests_range.
  - unfold zlen. rewrite <- HP. apply others_small.
  - split; [done|]. intros q Hq. by rewrite (Hc q Hq), (occ_perm q _ _ HP).
  - by rewrite <- app_assoc.
  - intros q Hq. rewrite <- app_assoc. rewrite (Hfree q Hq). by rewrite HP.
  - intros q. rewrite <- app_assoc. apply Hrg.
  - exists ind, new. split; [done|]. by split.
Qed.

Lemma kahn_room gone s queue indegree : kahn gone (s :: queue) indegree -> zlen gone < n.
Proof.
  intros [_ Hnd _ Hrg]. pose proof (tr_pos _ _ _ _ _ HT). assert (zlen (gone ++ s :: queue) <= n) as H1 by (apply NoDup_range; [lia|done|done]).
  rewrite zlen_app, zlen_cons in H1. pose proof (zlen_nonneg queue). lia.
Qed.

Lemma kahn_all gone queue indegree : kahn gone queue indegree -> zlen gone = n -> forall q, 0 <= q < n -> q ∈ gone.
Proof.
  intros [_ Hnd _ Hrg] Hz q Hq. destruct (decide (q ∈ gone)) as [?|Hn]; [done|]. pose proof (tr_pos _ _ _ _ _ HT). apply NoDup_app in Hnd as (Hnd & _ & _).
  assert (zlen (q :: gone) <= n); [|rewrite zlen_cons in *; lia]. apply NoDup_range; [lia|by constructor|].
  intros x [->|Hx]%elem_of_cons; [done|]. apply Hrg, elem_of_app. by left.
Qed.

Lemma kahn_some gone : zlen gone < n -> exists q, 0 <= q < n /\ q ∉ gone.
Proof.
  intros Hz. destruct (decide (Forall (fun q => q ∈ gone) (seqZ 0 n))) as [H|H].
  - exfalso. assert (length (seqZ 0 n) <= length gone)%nat as Hle; [|rewrite length_seqZ in Hle; unfold zlen in Hz; lia].
    apply submseteq_length, NoDup_submseteq; [apply NoDup_seqZ|]. intros x Hx. by apply (proj1 (Forall_forall _ _) H).
  - apply (not_Forall_Exists _) in H. apply Exists_exists in H as (q & Hq%elem_of_seqZ & Hg). exists q. split; [lia|done].
Qed.

Lemma dests_walk s q : 0 <= s < n -> q ∈ dests s -> exists x, walk rows s [x] q.
Proof.
  intros Hs. destruct (trimmed_row _ _ _ _ _ HT s Hs) as (row & Hrow & _). rewrite (dests_row _ _ Hrow). intros (r & -> & Hr)%list_elem_of_fmap.
  exists (rmin r). pose proof (trimmed_dest _ _ _ _ _ HT _ _ _ Hrow Hr). eapply walk_cons; [done..|unfold holds; lia|constructor].
Qed.

Lemma walk_dests s w x q : walk rows s (w ++ [x]) q -> exists p, walk rows s w p /\ q ∈ dests p.
Proof.
  intros (p & row & r & Hw & Hrow & Hr & _ & <-)%walk_snoc_inv. exists p. split; [done|]. rewrite (dests_row _ _ Hrow). apply list_elem_of_fmap. by exists r.
Qed.

Definition unbounded : Prop := forall k, exists w, L w /\ k <= zlen w.

Lemma unbounded_walks : (forall k, exists w q, walk rows 0 w q /\ k <= zlen w) -> unbounded.
Proof.
  intros H k. destruct (H k) as (w & q & Hw & Hk). pose proof (tr_pos _ _ _ _ _ HT).
  destruct (tr_live _ _ _ _ _ HT q) as [u Hu]; [eapply (walk_range _ _ _ _ _ HT); [done|lia]|].
  exists (w ++ u). split; [apply HT; by eapply accepted_walk|]. rewrite zlen_app. pose proof (zlen_nonneg u). lia.
Qed.

(** What is left when no state is free goes around. *)
Lemma left_unbounded gone indegree : kahn gone [] indegree -> zlen gone < n -> unbounded.
Proof.
  intros [_ _ Hfree _] Hz. rewrite app_nil_r in Hfree. destruct (kahn_some gone Hz) as (q & Hq & Hg). apply unbounded_walks. intros k.
  assert (forall k : nat, forall q, 0 <= q < n -> q ∉ gone -> exists p w, 0 <= p < n /\ walk rows p w q /\ length w = k) as Hback.
  { intros k'. induction k' as [|k' IH]; intros q' Hq' Hg'; [exists q', []; split_and!; [lia..|constructor|done]|].
    assert (q' ∈ others gone) as (s & Hs & Hsg & Hd)%elem_of_others.
    { destruct (decide (q' ∈ others gone)); [done|]. destruct Hg'. by apply Hfree. }
    destruct (dests_walk s q' Hs Hd) as [x Hx]. destruct (IH s Hs Hsg) as (p & w & Hp & Hw & Hlen). exists p, (w ++ [x]).
    split_and!; [lia..|by eapply walk_app|rewrite length_app; simpl; lia]. }
  destruct (Hback (Z.to_nat k) q Hq Hg) as (p & w & Hp & Hw & Hlen). destruct (tr_reached _ _ _ _ _ HT p Hp) as [u Hu].
  exists (u ++ w), q. split; [by eapply walk_app|]. rewrite zlen_app. pose proof (zlen_nonneg u). unfold zlen. lia.
Qed.

Lemma start_unbounded : 0 ∈ others [] -> unbounded.
Proof.
  intros (s & Hs & _ & Hd)%elem_of_others. destruct (tr_reached _ _ _ _ _ HT s Hs) as [u Hu]. destruct (dests_walk s 0 Hs Hd) as [x Hx].
  pose proof (walk_app _ _ _ _ _ _ Hu Hx) as Hloop. apply unbounded_walks. intros k.
  assert (forall k : nat, exists w, walk rows 0 w 0 /\ (k <= length w)%nat) as H.
  { intros k'. induction k' as [|k' (w & Hw & Hlen)]; [exists []; split; [constructor|simpl; lia]|]. exists (w ++ u ++ [x]). split; [by eapply walk_app|].
    rewrite !length_app. simpl. lia. }
  destruct (H (Z.to_nat k)) as (w & Hw & Hlen). exists w, 0. split; [done|]. unfold zlen. lia.
Qed.

(** ** Counting *)

Lemma count_row l row indegree : (forall r, r ∈ row -> 0 <= rdest r < n) -> zlen (l ++ (rdest <$> row)) < 2 ^ 32 -> counts indegree l ->
  exists indegree', foldM (fun indegree range => k ← indegree.[rdest range]; zset indegree (rdest range) (u32 (k + 1))) indegree row = Some indegree'
    /\ counts indegree' (l ++ (rdest <$> row)).
Proof.
  revert l indegree. induction row as [|r row IH]; intros l indegree Hr Hsm [Hz Hc]; [exists indegree; split; [done|]; simpl; by rewrite app_nil_r|].
  pose proof (Hr r ltac:(left)) as Hd. cbn [foldM]. rewrite (Hc _ Hd). opt. rewrite fmap_cons, cons_middle, app_assoc in Hsm |- *.
  pose proof (occ_nonneg (rdest r) l). pose proof (occ_le (rdest r) l). rewrite !zlen_app in Hsm. change (zlen [rdest r]) with 1 in Hsm. pose proof (zlen_nonneg (rdest <$> row)).
  rewrite uwrap_id by (unfold is_u; lia). rewrite zset_in by lia. opt. apply IH.
  - intros r' Hr'. apply Hr. by right.
  - rewrite !zlen_app. change (zlen [rdest r]) with 1. lia.
  - split; [by rewrite zlen_insert|]. intros q Hq. rewrite zget_insert by lia. rewrite occ_app, occ_cons. change (occ q []) with 0.
    case_decide as Heq; [subst; f_equal; lia|]. rewrite (Hc q Hq). f_equal. lia.
Qed.

Lemma others_prefix i : 0 <= i < n -> zlen (concat (dests <$> seqZ 0 i) ++ dests i) < 2 ^ 32.
Proof.
  intros Hi. pose proof (others_small []) as Hsm. unfold others in Hsm. rewrite filter_all in Hsm by (intros x _; apply not_elem_of_nil).
  assert (concat (dests <$> seqZ 0 n) = (concat (dests <$> seqZ 0 i) ++ dests i) ++ concat (dests <$> seqZ (i + 1) (n - i - 1))) as E.
  { replace (seqZ 0 n) with (seqZ 0 i ++ [i] ++ seqZ (i + 1) (n - i - 1)).
    - rewrite !fmap_app, !concat_app. simpl. by rewrite app_nil_r, app_assoc.
    - replace n with (i + (1 + (n - i - 1))) at 2 by lia. by rewrite !seqZ_app by lia. }
  rewrite E, zlen_app in Hsm. pose proof (zlen_nonneg (concat (dests <$> seqZ (i + 1) (n - i - 1)))). lia.
Qed.

Lemma incoming_spec : exists indegree, incoming v = Some indegree /\ counts indegree (others []).
Proof.
  pose proof (tr_pos _ _ _ _ _ HT) as Hn. unfold incoming. rewrite (trimmed_count _ _ _ _ _ HT).
  edestruct (foldM_seqZ (fun i indegree => counts indegree (concat (dests <$> seqZ 0 i)))) as (indegree & E & H); [| | |rewrite E; exists indegree; split; [done|]].
  - lia.
  - split; [rewrite zlen_replicate; lia|]. intros q Hq. simpl. unfold zget. rewrite decide_True by lia. apply lookup_replicate. split; [done|lia].
  - intros i indegree Hi Hc. destruct (trimmed_row _ _ _ _ _ HT i) as (row & Hrow & Et & _); [lia|]. rewrite Et. opt.
    assert (seqZ 0 (i + 1) = seqZ 0 i ++ [i]) as -> by (by rewrite seqZ_app by lia).
    rewrite fmap_app, concat_app. simpl. rewrite app_nil_r, (dests_row _ _ Hrow). apply count_row; [|rewrite <- (dests_row _ _ Hrow); apply others_prefix; lia|done].
    intros r Hr. by apply (trimmed_dest _ _ _ _ _ HT _ _ _ Hrow).
  - unfold others. by rewrite filter_all by (intros x _; apply not_elem_of_nil).
Qed.

(** ** The longest string *)

Lemma lengthen_spec len l : forall longest, (forall q, q ∈ l -> 0 <= q < n) -> zlen longest = n ->
  exists longest', foldM (lengthen len) longest l = Some longest' /\ zlen longest' = n
    /\ forall q, at_ longest' q = if decide (q ∈ l) then Z.max (at_ longest q) (len + 1) else at_ longest q.
Proof.
  induction l as [|x l IH]; intros longest Hl Hz.
  { exists longest. split_and!; [done..|]. intros q. by rewrite decide_False by apply not_elem_of_nil. }
  pose proof (Hl x ltac:(left)) as Hx. cbn [foldM]. rewrite <- Hz in Hx. destruct (zget_in _ _ Hx) as [k Hk].
  assert (lengthen len longest x = Some (<[Z.to_nat x := Z.max k (len + 1)]> longest)) as -> by (unfold lengthen; rewrite Hk; opt; by rewrite zset_in).
  opt. destruct (IH (<[Z.to_nat x := Z.max k (len + 1)]> longest)) as (l2 & E & H1 & H2); [intros q Hq; apply Hl; by right|by rewrite zlen_insert|].
  exists l2. split_and!; [done..|]. intros q. rewrite H2, at_insert by done. assert (at_ longest x = k) by (unfold at_; by rewrite Hk).
  destruct (decide (x = q)) as [->|Hne].
  - rewrite (decide_True (P := q ∈ q :: l)) by left. case_decide; lia.
  - destruct (decide (q ∈ l)) as [Hin|Hin]; [by rewrite decide_True by (by right)|]. rewrite decide_False; [done|]. intros [?|?]%elem_of_cons; congruence.
Qed.

(** [longest] of the states taken away is the length of a longest walk to them. *)
Record ranked (gone longest : list Z) : Prop := {
  ra_size : zlen longest = n;
  ra_pos : forall q, 0 <= q < n -> 0 <= at_ longest q;
  ra_above : forall p q, p ∈ gone -> q ∈ dests p -> at_ longest p + 1 <= at_ longest q;
  ra_from : forall q, 0 <= q < n -> at_ longest q = 0 \/ exists p, (p ∈ gone) /\ (q ∈ dests p) /\ at_ longest q = at_ longest p + 1;
  ra_walk : forall p, p ∈ gone -> exists w, walk rows 0 w p /\ zlen w = at_ longest p;
  ra_most : forall p w, p ∈ gone -> walk rows 0 w p -> zlen w <= at_ longest p;
  ra_small : forall p, p ∈ gone -> at_ longest p < zlen gone }.

Lemma ranked_nil : ranked [] (replicate (Z.to_nat n) 0).
Proof.
  pose proof (tr_pos _ _ _ _ _ HT). assert (forall q, 0 <= q < n -> at_ (replicate (Z.to_nat n) 0) q = 0) as Hat.
  { intros q Hq. unfold at_, zget. rewrite decide_True by lia. rewrite lookup_replicate_2; [done|lia]. }
  split; [rewrite zlen_replicate; lia|intros q Hq; rewrite Hat; lia|by intros p q ?%not_elem_of_nil|intros q Hq; left; by apply Hat
    |by intros p ?%not_elem_of_nil|by intros p w ?%not_elem_of_nil|by intros p ?%not_elem_of_nil].
Qed.

Section Rank.
Context (gone queue indegree longest : list Z) (s : Z) (HK : kahn gone (s :: queue) indegree) (HR : ranked gone longest).

Lemma rank_state : 0 <= s < n.
Proof. apply (ka_range _ _ _ HK), elem_of_app. right. left. Qed.

(** All transitions to a free state come from what has been taken away. *)
Lemma rank_before p : 0 <= p < n -> s ∈ dests p -> p ∈ gone.
Proof.
  intros Hp Hd. destruct (decide (p ∈ gone)) as [?|Hg]; [done|]. assert (s ∉ others gone) as Hs.
  { apply (ka_free _ _ _ HK); [apply rank_state|]. apply elem_of_app. right. left. }
  destruct Hs. apply elem_of_others. by exists p.
Qed.

Lemma rank_walk_before w x : walk rows 0 (w ++ [x]) s -> exists p, walk rows 0 w p /\ (p ∈ gone) /\ (s ∈ dests p).
Proof.
  intros (p & Hw & Hd)%walk_dests. exists p. split_and!; [done| |done]. apply rank_before; [|done].
  eapply (walk_range _ _ _ _ _ HT); [done|]. pose proof (tr_pos _ _ _ _ _ HT). lia.
Qed.

Lemma rank_most w : walk rows 0 w s -> zlen w <= at_ longest s.
Proof.
  destruct w as [|x w] using rev_ind; intros Hw; [pose proof (ra_pos _ _ HR s rank_state); change (zlen (@nil Z)) with 0; lia|].
  destruct (rank_walk_before _ _ Hw) as (p & Hp & Hg & Hd). pose proof (ra_most _ _ HR p w Hg Hp). pose proof (ra_above _ _ HR p s Hg Hd).
  rewrite zlen_app. change (zlen [x]) with 1. lia.
Qed.

Lemma rank_walk : exists w, walk rows 0 w s /\ zlen w = at_ longest s.
Proof.
  destruct (ra_from _ _ HR s rank_state) as [H0|(p & Hg & Hd & E)].
  - destruct (tr_reached _ _ _ _ _ HT s rank_state) as [w Hw]. pose proof (rank_most w Hw). pose proof (zlen_nonneg w). exists w. split; [done|lia].
  - destruct (ra_walk _ _ HR p Hg) as (w & Hw & Hlen). destruct (dests_walk p s) as [x Hx]; [|done|].
    + apply (ka_range _ _ _ HK), elem_of_app. by left.
    + exists (w ++ [x]). split; [by eapply walk_app|]. rewrite zlen_app. change (zlen [x]) with 1. lia.
Qed.

Lemma rank_small : at_ longest s <= zlen gone.
Proof.
  destruct (ra_from _ _ HR s rank_state) as [H0|(p & Hg & _ & E)]; [pose proof (zlen_nonneg gone); lia|]. pose proof (ra_small _ _ HR p Hg). lia.
Qed.

(** The destinations of a state being taken away are not free. *)
Lemma rank_fresh q : q ∈ dests s -> q ∉ gone ++ s :: queue.
Proof.
  intros Hd Hin. apply (ka_free _ _ _ HK) in Hin; [|by eapply dests_range]. apply Hin, elem_of_others. exists s.
  split_and!; [apply rank_state..| |done]. pose proof (ka_distinct _ _ _ HK) as (_ & Hnd & _)%NoDup_app. intros Hg. apply (Hnd s Hg). left.
Qed.

Lemma rank_step longest' : zlen longest' = n ->
  (forall q, at_ longest' q = if decide (q ∈ dests s) then Z.max (at_ longest q) (at_ longest s + 1) else at_ longest q) ->
  ranked (gone ++ [s]) longest'.
Proof.
  intros Hz Hat. assert (forall q, q ∈ gone ++ [s] -> at_ longest' q = at_ longest q) as Hkeep.
  { intros q Hq. rewrite Hat, decide_False; [done|]. intros Hd. apply (rank_fresh q Hd). rewrite !elem_of_app in *. rewrite elem_of_cons.
    destruct Hq as [?|Hq]; [by left|]. apply list_elem_of_singleton in Hq. auto. }
  split.
  - done.
  - intros q Hq. rewrite Hat. pose proof (ra_pos _ _ HR q Hq). case_decide; lia.
  - intros p q Hp Hd. rewrite (Hkeep p Hp), Hat. apply elem_of_app in Hp as [Hp| ->%list_elem_of_singleton].
    + pose proof (ra_above _ _ HR p q Hp Hd). case_decide; lia.
    + rewrite decide_True by done. lia.
  - intros q Hq. rewrite Hat. pose proof (ra_pos _ _ HR s rank_state). case_decide as Hd.
    + destruct (Z.max_spec (at_ longest q) (at_ longest s + 1)) as [[_ ->]|[Hle ->]].
      * right. exists s. rewrite Hkeep by (apply elem_of_app; right; left). split_and!; [apply elem_of_app; right; left|done|done].
      * destruct (ra_from _ _ HR q Hq) as [H0|(p & Hg & Hdp & E)]; [lia|]. right. exists p. rewrite Hkeep by (apply elem_of_app; by left).
        split_and!; [apply elem_of_app; by left|done|done].
    + destruct (ra_from _ _ HR q Hq) as [H0|(p & Hg & Hdp & E)]; [by left|right]. exists p. rewrite Hkeep by (apply elem_of_app; by left).
      split_and!; [apply elem_of_app; by left|done|done].
  - intros p Hp. rewrite (Hkeep p Hp). apply elem_of_app in Hp as [Hp| ->%list_elem_of_singleton]; [by apply HR|apply rank_walk].
  - intros p w Hp. rewrite (Hkeep p Hp). apply elem_of_app in Hp as [Hp| ->%list_elem_of_singleton]; [by apply HR|apply rank_most].
  - intros p Hp. rewrite (Hkeep p Hp), zlen_app. change (zlen [s]) with 1. apply elem_of_app in Hp as [Hp| ->%list_elem_of_singleton]; [|pose proof rank_small; lia].
    pose proof (ra_small _ _ HR p Hp). lia.
Qed.
End Rank.

Lemma release_pre pre indegree queue x : release (indegree, pre ++ queue) x = prod_map id (app pre) <$> release (indegree, queue) x.
Proof.
  unfold release. destruct indegree.[x] as [k|]; [|done]. simpl. destruct (zset indegree x (u32 (k - 1))) as [ind|]; [|done]. simpl.
  case_decide; [by rewrite <- app_assoc|done].
Qed.

Lemma release_frame pre l indegree queue :
  foldM release (indegree, pre ++ queue) l = prod_map id (app pre) <$> foldM release (indegree, queue) l.
Proof.
  revert indegree queue. induction l as [|x l IH]; intros indegree queue; [done|]. cbn [foldM]. rewrite release_pre.
  destruct (release (indegree, queue) x) as [[ind q]|]; [|done]. apply IH.
Qed.

Record maxing (s : maxState) (gone queue : list Z) : Prop := {
  mx_pending : pending s = gone ++ queue;
  mx_index : index s = zlen gone;
  mx_kahn : kahn gone queue (indegree s);
  mx_ranked : ranked gone (longest s);
  mx_most : forall p, p ∈ gone -> acc.[p] = Some true -> at_ (longest s) p <= best s;
  mx_best : best s = -1 \/ best s < zlen gone /\ exists w, L w /\ zlen w = best s }.

Lemma maxing_accepted s gone queue : maxing s gone queue -> zlen gone = n ->
  best s < n /\ (exists w, L w /\ zlen w = best s) /\ forall w, L w -> zlen w <= best s.
Proof.
  intros [_ _ HK HR Hmost Hbest] Hz. assert (forall w, L w -> zlen w <= best s) as Hall.
  { intros w (f & Hw & Hf)%(tr_lang _ _ _ _ _ HT). pose proof (tr_pos _ _ _ _ _ HT). assert (f ∈ gone) as Hg.
    { eapply kahn_all; [done..|]. eapply (walk_range _ _ _ _ _ HT); [done|lia]. }
    pose proof (ra_most _ _ HR f w Hg Hw). pose proof (Hmost f Hg Hf). lia. }
  destruct Hbest as [H|[H1 H2]]; [|split_and!; [lia|done|done]]. destruct (tr_live _ _ _ _ _ HT 0) as [w Hw]; [pose proof (tr_pos _ _ _ _ _ HT); lia|].
  apply (tr_lang _ _ _ _ _ HT) in Hw. pose proof (Hall w Hw). pose proof (zlen_nonneg w). lia.
Qed.

Lemma maxStep_spec s gone state queue : maxing s gone (state :: queue) ->
  exists s' new, maxStep v s = Some (inl s') /\ maxing s' (gone ++ [state]) (queue ++ new).
Proof.
  intros [Hp Hi HK HR Hmost Hbest]. pose proof (rank_state _ _ _ _ HK) as Hs. pose proof (zlen_nonneg queue). unfold maxStep.
  rewrite decide_True by (rewrite Hp, zlen_app, zlen_cons; lia).
  assert ((pending s).[index s] = Some state) as -> by (by rewrite Hp, Hi, zget_app_r, Z.sub_diag, zget_cons_0 by lia). opt.
  assert ((longest s).[state] = Some (at_ (longest s) state)) as ->.
  { pose proof (ra_size _ _ HR). destruct (zget_in (longest s) state) as [k Hk]; [lia|]. unfold at_. by rewrite Hk. }
  opt. destruct (trimmed_accept _ _ _ _ _ HT state Hs) as (b & Eb & Eb' & _). rewrite Eb'. opt.
  destruct (trimmed_row _ _ _ _ _ HT state Hs) as (row & Hrow & Et & _). rewrite Et. opt.
  destruct (kahn_step _ _ _ _ HK) as (ind & new & Erel & HK'). pose proof (ra_size _ _ HR) as Hsz.
  destruct (lengthen_spec (at_ (longest s) state) (dests state) (longest s)) as (long & El & Hz & Hat); [apply dests_range|done|].
  assert (foldM release (indegree s, pending s) (dests state) = Some (ind, (gone ++ [state]) ++ queue ++ new)) as Erel'.
  { rewrite Hp, cons_middle, app_assoc, release_frame, Erel. done. }
  pose proof (foldM_pair _ _ _ _ _ _ _ El Erel') as Eboth. rewrite (dests_row _ _ Hrow), foldM_fmap in Eboth.
  erewrite foldM_ext; [rewrite Eboth; opt|by intros [??] ?]. eexists _, new. split; [done|]. split; cbn [pending index indegree longest best].
  - done.
  - rewrite zlen_app. change (zlen [state]) with 1. lia.
  - done.
  - by eapply rank_step.
  - intros p Hg Ha. assert (at_ long p = at_ (longest s) p) as ->.
    { rewrite Hat, decide_False; [done|]. intros Hd. apply (rank_fresh _ _ _ _ HK p Hd). rewrite elem_of_app, elem_of_cons.
      apply elem_of_app in Hg as [?| ->%list_elem_of_singleton]; auto. }
    apply elem_of_app in Hg as [Hg| ->%list_elem_of_singleton]; [pose proof (Hmost p Hg Ha); destruct b; lia|]. assert (b = true) as -> by congruence. lia.
  - rewrite zlen_app. change (zlen [state]) with 1. assert (best s = -1 \/ best s < zlen gone + 1 /\ exists w, L w /\ zlen w = best s) as Hbest'.
    { destruct Hbest as [?|[? ?]]; [by left|right]. split; [lia|done]. }
    destruct b; [|done]. destruct (Z.max_spec (best s) (at_ (longest s) state)) as [[_ ->]|[_ ->]]; [right|done].
    destruct (rank_walk _ _ _ _ _ HK HR) as (w & Hw & Hlen). pose proof (rank_small _ _ _ _ _ HK HR). split; [lia|]. exists w. split; [apply HT; by exists state|done].
Qed.


(** The longest accepted length, which is less than the number of states, or [UNBOUNDED] for an infinite language. *)
Lemma maxAcceptedLength_spec : exists m, maxAcceptedLength v = Some m /\
  ((m = UNBOUNDED /\ unbounded) \/ (m < n /\ (exists w, L w /\ zlen w = m) /\ forall w, L w -> zlen w <= m)).
Proof.
  pose proof (tr_pos _ _ _ _ _ HT) as Hn. pose proof (trimmed_fuel _ _ _ _ _ HT) as Hfu. unfold maxAcceptedLength. rewrite (trimmed_count _ _ _ _ _ HT), decide_False by lia.
  destruct incoming_spec as (ind & E & Hz & Hc). rewrite E. opt. rewrite (Hc 0) by lia. opt. pose proof (occ_pos 0 (others [])) as Hpos. pose proof (occ_nonneg 0 (others [])).
  destruct (decide (occ 0 (others []) <> 0)) as [H0|H0].
  { eexists. split; [done|]. left. split; [done|]. apply start_unbounded, Hpos. lia. }
  edestruct (whileO_spec (fun s => exists gone queue, maxing s gone queue) (fun s => Z.to_nat (n - index s)) (fun s => exists gone, maxing s gone []) (maxStep v))
    as (s & Es & gone & Hm); [| | |rewrite Es; opt].
  - intros s (gone & [|state queue] & Hm).
    + exists (inr s). split; [|by exists gone]. unfold maxStep. rewrite decide_False; [done|].
      rewrite (mx_pending _ _ _ Hm), (mx_index _ _ _ Hm), app_nil_r. lia.
    + destruct (maxStep_spec _ _ _ _ Hm) as (s' & new & Es & Hm'). exists (inl s'). split; [done|]. split; [by eauto|].
      pose proof (kahn_room _ _ _ _ (mx_kahn _ _ _ Hm)). rewrite (mx_index _ _ _ Hm), (mx_index _ _ _ Hm'), zlen_app. change (zlen [state]) with 1. lia.
  - exists [], [0]. split; cbn [pending index indegree longest best]; [done|done| | |by intros p ?%not_elem_of_nil|by left].
    + split; [done|simpl; apply NoDup_singleton| |intros q ->%list_elem_of_singleton; lia]. intros q Hq. simpl. rewrite list_elem_of_singleton. split.
      * intros ->. rewrite <- Hpos. lia.
      * intros Hno. destruct (tr_reached _ _ _ _ _ HT q Hq) as [w Hw]. destruct w as [|x w] using rev_ind; [by apply walk_nil_inv in Hw|].
        apply walk_dests in Hw as (p & Hw & Hd). destruct Hno. apply elem_of_others. exists p. split_and!; [| |apply not_elem_of_nil|done];
          eapply (walk_range _ _ _ _ _ HT); (done || lia).
    + apply ranked_nil.
  - cbn [index]. pose proof (Nat.pow_gt_lin_r 2 (S (length (vaccepts v))) ltac:(lia)). lia.
  - eexists. split; [done|]. pose proof (mx_kahn _ _ _ Hm) as HK. rewrite (mx_pending _ _ _ Hm), app_nil_r.
    assert (zlen gone <= n) as Hle.
    { apply NoDup_range; [lia| |]; [|intros q Hq; apply (ka_range _ _ _ HK), elem_of_app; by left]. pose proof (ka_distinct _ _ _ HK) as Hnd. by rewrite app_nil_r in Hnd. }
    case_decide as Hall; [right|left; split; [done|]; eapply left_unbounded; [done|lia]].
    by apply (maxing_accepted _ _ _ Hm).
Qed.

(** ** Cycles *)

(** A loop with a limit of work does what the loop without does, or returns early when the work is above the limit. *)
Definition meters {S A R} (f : S -> A -> option S) (g : Z * S -> A -> option ((Z * S) + R)%type) (cost : A -> Z) (x : A) : Prop :=
  forall s s' work, f s x = Some s' ->
    g (work, s) x = Some (inl (work + cost x, s')) \/ COMMON_SUFFIX_WORK_LIMIT < work + cost x /\ exists r, g (work, s) x = Some (inr r).

Definition costs {A} (cost : A -> Z) (l : list A) : Z := foldr (fun x k => cost x + k) 0 l.

Lemma costs_nonneg {A} (cost : A -> Z) l : (forall x, x ∈ l -> 0 <= cost x) -> 0 <= costs cost l.
Proof.
  induction l as [|x l IH]; intros H; simpl; [done|]. pose proof (H x ltac:(left)). assert (0 <= costs cost l); [|lia]. apply IH. intros y Hy. apply H. by right.
Qed.

Lemma foldX_sim {S A R} (f : S -> A -> option S) (g : Z * S -> A -> option ((Z * S) + R)%type) (cost : A -> Z) l :
  (forall x, x ∈ l -> 0 <= cost x /\ meters f g cost x) -> forall s s' work, foldM f s l = Some s' ->
    foldX g (work, s) l = Some (inl (work + costs cost l, s'))
    \/ COMMON_SUFFIX_WORK_LIMIT < work + costs cost l /\ exists r, foldX g (work, s) l = Some (inr r).
Proof.
  induction l as [|x l IH]; intros Hf s s' work; simpl; [intros [= ->]; left; by rewrite Z.add_0_r|].
  assert (0 <= costs cost l) as Hpos by (apply costs_nonneg; intros y Hy; apply Hf; by right).
  destruct (f s x) as [s1|] eqn:E; [|done]. simpl. intros Hl. destruct (Hf x ltac:(left)) as [Hx Hm].
  destruct (Hm s s1 work E) as [->|(Hlim & r & ->)]; simpl; [|right; split; [lia|by exists r]]. rewrite Z.add_assoc. apply IH; [|done]. intros y Hy. apply Hf. by right.
Qed.

Lemma worked_meters {S A} (f : S -> A -> option S) (x : A) :
  meters f (fun '(work, s) x => worked work (work + 1) (fun work => s ← f s x; Some (inl (work, s)))) (fun _ => 1) x.
Proof. intros s s' work E. simpl. unfold worked. case_decide; [right; split; [done|by eexists]|left]. by rewrite E. Qed.

Lemma sum_ones {A} (l : list A) : costs (fun _ => 1) l = zlen l.
Proof. induction l as [|x l IH]; [done|]. simpl. rewrite IH, zlen_cons. lia. Qed.

Lemma sum_dests l : costs (fun s => zlen (dests s)) l = zlen (concat (dests <$> l)).
Proof. induction l as [|s l IH]; [done|]. simpl. by rewrite IH, zlen_app. Qed.

Lemma kahn_start indegree : counts indegree (others []) -> exists pending,
  foldM (fun pending state => k ← indegree.[state]; Some (if decide (k = 0) then pending ++ [state] else pending)) [] (seqZ 0 n) = Some pending
  /\ kahn [] pending indegree.
Proof.
  intros [Hz Hc]. pose proof (tr_pos _ _ _ _ _ HT) as Hn.
  edestruct (foldM_seqZ (fun i pending => NoDup pending /\ forall q, q ∈ pending <-> 0 <= q < i /\ q ∉ others [])) as (pending & E & Hnd & Hp); [| | |exists pending; split; [exact E|]].
  - lia.
  - split; [constructor|]. intros q. rewrite elem_of_nil. lia.
  - intros i pending Hi [Hnd Hp]. rewrite (Hc i) by lia. opt. eexists. split; [done|]. pose proof (occ_pos i (others [])) as Hpos. pose proof (occ_nonneg i (others [])).
    case_decide as H0; (split; [|intros q]).
    + apply NoDup_app. split_and!; [done| |apply NoDup_singleton]. intros q Hq ->%list_elem_of_singleton. apply Hp in Hq. lia.
    + rewrite elem_of_app, list_elem_of_singleton, Hp. destruct (decide (q = i)) as [->|Hne]; [|intuition lia]. rewrite <- Hpos. intuition lia.
    + done.
    + rewrite Hp. destruct (decide (q = i)) as [->|Hne]; [|intuition lia]. rewrite <- Hpos. intuition lia.
  - split; simpl; [done|done| |]; intros q; rewrite Hp; [|lia]. intros Hq. intuition lia.
Qed.

Lemma others_less gone s : 0 <= s < n -> s ∉ gone -> zlen (others gone) = zlen (dests s) + zlen (others (gone ++ [s])).
Proof. intros Hs Hg. rewrite <- zlen_app. unfold zlen. by rewrite (others_snoc gone s Hs Hg). Qed.

(** Once all states are gone, the strings are shorter than the number of states. *)
Lemma all_bounded gone queue indegree longest : kahn gone queue indegree -> ranked gone longest -> zlen gone = n -> ~ unbounded.
Proof.
  intros HK HR Hz Hu. destruct (Hu n) as (w & (f & Hw & _)%(tr_lang _ _ _ _ _ HT) & Hn). pose proof (tr_pos _ _ _ _ _ HT). assert (f ∈ gone) as Hg.
  { eapply kahn_all; [done..|]. eapply (walk_range _ _ _ _ _ HT); [done|lia]. }
  pose proof (ra_most _ _ HR f w Hg Hw). pose proof (ra_small _ _ HR f Hg). lia.
Qed.

Lemma ranked_step gone s queue indegree longest : kahn gone (s :: queue) indegree -> ranked gone longest -> exists longest', ranked (gone ++ [s]) longest'.
Proof.
  intros HK HR. destruct (lengthen_spec (at_ longest s) (dests s) longest) as (long & _ & Hz & Hat); [apply dests_range|apply HR|]. exists long. by eapply rank_step.
Qed.

(** The states taken away so far, the ranks of which exist, and the work: all transitions were counted, and those of the states taken away were released. *)
Definition cycling (work0 : Z) (st : Z * (list Z * list Z) * Z) (gone : list Z) : Prop :=
  st.2 = zlen gone /\ kahn gone st.1.2.2 st.1.2.1 /\ (exists longest, ranked gone longest) /\ st.1.1 = work0 + 2 * zlen (vranges v) - zlen (others gone).

(** The test for cycles is exact within the limit. *)
Definition tested (work0 : Z) (r : bool * Z) : Prop :=
  (r.1 = true -> unbounded /\ work0 + zlen (vranges v) <= r.2 <= work0 + 2 * zlen (vranges v))
  /\ (r.1 = false -> unbounded -> COMMON_SUFFIX_WORK_LIMIT < work0 + 2 * zlen (vranges v)).

Lemma cyclicStep_spec work0 st gone : cycling work0 st gone -> exists x, cyclicStep v st = Some x /\
  match x with
  | inl st' => zlen gone < n /\ exists s, cycling work0 st' (gone ++ [s])
  | inr r => tested work0 r
  end.
Proof.
  destruct st as [[work [indegree queue]] removed]. intros (Hrem & HK & [longest HR] & Hwork). cbn [fst snd] in *. subst removed. unfold cyclicStep. destruct queue as [|s queue].
  - eexists. split; [done|]. pose proof (zlen_nonneg (others gone)).
    assert (zlen (others gone) <= zlen (vranges v)) as Hle.
    { rewrite <- others_all, others_nil. unfold others. clear. induction (seqZ 0 n) as [|x l IH]; [done|].
      rewrite filter_cons. case_decide; rewrite ?fmap_cons; simpl; rewrite !zlen_app; pose proof (zlen_nonneg (dests x)); unfold zlen in *; lia. }
    split; cbn [fst snd]; rewrite (hr_accepts _ _ _ (tr_rows _ _ _ _ _ HT)), (tr_acc _ _ _ _ _ HT).
    + intros Hb%bool_decide_eq_true. split; [|lia]. apply (left_unbounded _ _ HK). assert (zlen gone <= n); [|lia]. pose proof (tr_pos _ _ _ _ _ HT).
      apply NoDup_range; [lia| |intros q Hq; apply (ka_range _ _ _ HK), elem_of_app; by left]. pose proof (ka_distinct _ _ _ HK) as Hnd. by rewrite app_nil_r in Hnd.
    + intros Hb%bool_decide_eq_false Hu. exfalso. eapply all_bounded; [done..| |done]. by apply dec_stable.
  - pose proof (kahn_room _ _ _ _ HK) as Hroom. pose proof (rank_state _ _ _ _ HK) as Hs.
    assert (s ∉ gone) as Hg. { pose proof (ka_distinct _ _ _ HK) as (_ & Hd & _)%NoDup_app. intros Hin. apply (Hd s Hin). left. }
    pose proof (others_less gone s Hs Hg) as Hless. pose proof (zlen_nonneg (others (gone ++ [s]))).
    destruct (trimmed_row _ _ _ _ _ HT s Hs) as (row & Hrow & Et & _). rewrite Et. opt.
    destruct (kahn_step _ _ _ _ HK) as (ind & new & Erel & HK'). rewrite (dests_row _ _ Hrow) in Erel, Hless. rewrite foldM_fmap in Erel. unfold zlen in Hless. rewrite length_fmap in Hless.
    edestruct (foldX_sim (fun st x => release st (rdest x)) (fun '(work, st) range => worked work (work + 1) (fun work => st ← release st (rdest range); Some (inl (work, st))))
      (fun _ => 1) row) as [Ef|(Hlim & r & Ef)]; [|exact Erel|rewrite Ef; opt..].
    + intros x _. split; [lia|]. apply (worked_meters (fun st x => release st (rdest x))).
    + eexists. split; [done|]. split; [done|]. exists s. split_and!; cbn [fst snd]; [by rewrite zlen_app|done|by eapply ranked_step|]. rewrite sum_ones. unfold zlen in *. lia.
    + eexists. split; [done|]. split; [done|]. intros _ _. rewrite sum_ones in Hlim. unfold zlen in *. lia.
Qed.

Lemma isCyclic_spec work : exists r, isCyclic v work = Some r /\ tested work r.
Proof.
  pose proof (tr_pos _ _ _ _ _ HT) as Hn. pose proof (trimmed_fuel _ _ _ _ _ HT) as Hfu. unfold isCyclic. change (zlen (vaccepts v)) with (Z.of_nat (length (vaccepts v))). rewrite Hfu.
  destruct incoming_spec as (ind & Ein & Hc). unfold incoming in Ein. rewrite (trimmed_count _ _ _ _ _ HT) in Ein.
  edestruct (foldX_sim (fun indegree state => l ← View.transitions v state;
      foldM (fun indegree range => k ← indegree.[rdest range]; zset indegree (rdest range) (u32 (k + 1))) indegree l)
    (fun '(work, indegree) state => l ← View.transitions v state;
      foldX (fun '(work, indegree) range => worked work (work + 1) (fun work =>
        k ← indegree.[rdest range]; indegree ← zset indegree (rdest range) (u32 (k + 1)); Some (inl (work, indegree)))) (work, indegree) l) (fun s => zlen (dests s)))
    as [Ef|(Hlim & r & Ef)]; [|exact Ein|rewrite Ef; opt..].
  - intros s Hs%elem_of_seqZ. split; [apply zlen_nonneg|]. intros ind1 ind2 w. destruct (trimmed_row _ _ _ _ _ HT s) as (row & Hrow & Et & _); [lia|]. rewrite Et. simpl. intros E.
    assert (zlen (dests s) = costs (fun _ => 1) row) as -> by (rewrite sum_ones, (dests_row _ _ Hrow); unfold zlen; by rewrite length_fmap).
    eapply foldX_sim; [|exact E]. intros x _. split; [lia|]. intros i1 i2 w2 E2.
    destruct (worked_meters (fun i x => k ← i.[rdest x]; zset i (rdest x) (u32 (k + 1))) x i1 i2 w2 E2) as [E3|(Hlim & r & E3)]; [left|right; split; [done|]; exists r];
      simpl in E3; rewrite <- E3; unfold worked; case_decide; try done; by destruct i1.[rdest x].
  - rewrite sum_dests, <- others_nil, others_all. destruct (kahn_start ind Hc) as (pending & Ep & HK). rewrite Ep. opt.
    apply (whileO_spec (fun st => exists gone, cycling work st gone) (fun st => Z.to_nat (n - st.2))).
    + intros st [gone Hg]. destruct (cyclicStep_spec work st gone Hg) as ([st'|r] & E3 & H3); (eexists; split; [exact E3|]); [|done].
      destruct H3 as (Hroom & s & Hg'). split; [by exists (gone ++ [s])|]. destruct Hg as [-> _], Hg' as [-> _]. rewrite zlen_app. change (zlen [s]) with 1. lia.
    + exists []. split_and!; cbn [fst snd]; [done|done|eexists; apply ranked_nil|]. rewrite others_all. lia.
    + cbn [fst snd]. pose proof (Nat.pow_gt_lin_r 2 (S (length (vaccepts v))) ltac:(lia)). lia.
  - rewrite sum_dests, <- others_nil, others_all in Hlim. eexists. split; [done|]. split; [done|]. intros _ _. pose proof (zlen_nonneg (vranges v)). lia.
Qed.

(** ** The common suffix *)

Lemma foldX_ind {S A R} (P : list A -> S -> Prop) (Q : R -> Prop) (f : S -> A -> option (S + R)%type) l s :
  P [] s ->
  (forall seen x rest s, l = seen ++ x :: rest -> P seen s -> exists y, f s x = Some y /\ match y with inl s' => P (seen ++ [x]) s' | inr r => Q r end) ->
  exists y, foldX f s l = Some y /\ match y with inl s' => P l s' | inr r => Q r end.
Proof.
  intros H0 Hstep. cut (forall rest seen s, l = seen ++ rest -> P seen s -> exists y, foldX f s rest = Some y /\ match y with inl s' => P l s' | inr r => Q r end).
  { intros H. by apply (H l []). }
  induction rest as [|x rest IH]; intros seen s1 El HP; simpl.
  - rewrite app_nil_r in El. subst. by eexists.
  - destruct (Hstep seen x rest s1 El HP) as ([s2|r] & -> & H); simpl; [|by eexists]. apply (IH (seen ++ [x])); [by rewrite <- app_assoc|done].
Qed.

Definition common (t : list Z) : Prop := forall w, L w -> exists u, w = u ++ t.

(** Every accepted string ends with the suffix, read from one of the states; and the suffix leads from each of them to an accepting one. *)
Record suffixed (states : list bool) (t : list Z) : Prop := {
  su_size : zlen states = n;
  su_all : forall w, L w -> exists u p, w = u ++ t /\ walk rows 0 u p /\ states.[p] = Some true;
  su_from : forall p, states.[p] = Some true -> accepted rows acc p t }.

(** The suffix is a common one, and no longer one is. *)
Definition longest_common (t : list Z) : Prop := common t /\ forall t', common t' -> zlen t' <= zlen t.

Lemma suffixed_common states t : suffixed states t -> common t.
Proof. intros [_ H _] w Hw. destruct (H w Hw) as (u & p & -> & _). by exists u. Qed.

Lemma suffixed_stop states t : suffixed states t -> states.[0] = Some true -> longest_common t.
Proof.
  intros Hs H0. split; [by eapply suffixed_common|]. intros t' Ht'. destruct (Ht' t) as [u ->]; [apply HT; by apply (su_from _ _ Hs)|].
  rewrite zlen_app. pose proof (zlen_nonneg u). lia.
Qed.

(** Two bytes before the suffix. *)
Lemma suffixed_fork states t x y : suffixed states t -> x <> y -> (exists u, L (u ++ x :: t)) -> (exists u, L (u ++ y :: t)) -> longest_common t.
Proof.
  intros Hs Hne [u1 H1] [u2 H2]. split; [by eapply suffixed_common|]. intros t' Ht'.
  destruct (Ht' _ H1) as [v1 E1]. destruct (Ht' _ H2) as [v2 E2]. destruct (decide (zlen t' <= zlen t)) as [?|Hlt]; [done|]. exfalso. apply Hne.
  assert (forall u z k, u ++ z :: t = k ++ t' -> exists k', t' = k' ++ z :: t) as Hsuf.
  { intros u z k E. assert (length k <= length u)%nat as Hl by (apply (f_equal length) in E; rewrite !length_app in E; simpl in E; unfold zlen in Hlt; lia).
    exists (drop (length k) u). apply (f_equal (drop (length k))) in E. rewrite drop_app_length in E. rewrite <- E. by rewrite drop_app_le. }
  destruct (Hsuf _ _ _ E1) as [k1 ->]. destruct (Hsuf _ _ _ E2) as [k2 E]. change (x :: t) with ([x] ++ t) in E. change (y :: t) with ([y] ++ t) in E.
  rewrite !app_assoc in E. apply app_inv_tail in E. by apply app_inj_tail in E as [_ ?].
Qed.

(** A transition into the states: its bytes can stand before the suffix. *)
Lemma suffixed_edge states t s row r x : suffixed states t -> rows.[s] = Some row -> r ∈ row -> holds r x -> states.[rdest r] = Some true ->
  accepted rows acc s (x :: t) /\ exists u, L (u ++ x :: t).
Proof.
  intros Hs Hrow Hr Hx Hd. assert (accepted rows acc s (x :: t)) as Ha.
  { apply (accepted_cons _ _ _ _ _ _ Hrow). exists r. split_and!; [done..|]. by apply (su_from _ _ Hs). }
  split; [done|]. pose proof (zget_Some_range _ _ _ Hrow) as Hsr. rewrite (tr_size _ _ _ _ _ HT) in Hsr. destruct (tr_reached _ _ _ _ _ HT s Hsr) as [u Hu].
  exists u. apply HT. by eapply accepted_walk.
Qed.

Section Round.
Context (states : list bool) (reversed : list Z) (work0 : Z) (HS : suffixed states (reverse reversed)) (Hw0 : work0 <= COMMON_SUFFIX_WORK_LIMIT).

(** The transitions seen in a round, those into [states] being of one byte. *)
Record rounding (seen : Z -> ByteDfaRange -> Prop) (count : Z) (st : Z * Z * list bool) : Prop := {
  ro_work : st.1.1 = work0 + count /\ 0 <= count /\ st.1.1 <= COMMON_SUFFIX_WORK_LIMIT;
  ro_size : zlen st.2 = n;
  ro_none : st.1.2 = -1 -> forall s r, seen s r -> states.[rdest r] <> Some true;
  ro_some : st.1.2 <> -1 -> work0 < st.1.1 /\ exists u, L (u ++ st.1.2 :: reverse reversed);
  ro_byte : forall s r, seen s r -> states.[rdest r] = Some true -> rmin r = st.1.2 /\ rmax r = st.1.2;
  ro_pred : forall p, st.2.[p] = Some true <-> exists r, seen p r /\ states.[rdest r] = Some true }.

Lemma rounding_ext seen seen' count st : (forall s r, seen s r <-> seen' s r) -> rounding seen count st -> rounding seen' count st.
Proof.
  intros He [H1 H2 H3 H4 H5 H6]. split; [done..| | | |].
  - intros Hb s r Hs. apply (H3 Hb s r). by apply He.
  - done.
  - intros s r Hs. apply (H5 s r). by apply He.
  - intros p. rewrite H6. by setoid_rewrite He.
Qed.

(** A round ends for lack of work, or with the longest common suffix. *)
Definition ended (t : list Z) : Prop :=
  (t = [] /\ COMMON_SUFFIX_WORK_LIMIT < work0 + zlen (vranges v)) \/ (longest_common t /\ t = reverse reversed).

Lemma suffixRange_spec seen count st source row r : rows.[source] = Some row -> r ∈ row -> count < zlen (vranges v) -> rounding seen count st ->
  exists y, suffixRange states reversed source st r = Some y /\
    match y with inl st' => rounding (fun s r' => seen s r' \/ (s = source /\ r' = r)) (count + 1) st' | inr t => ended t end.
Proof.
  destruct st as [[work byte] preds]. intros Hrow Hr Hcount [H1 H2 H3 H4 H5 H6]. cbn [fst snd] in *. unfold suffixRange, worked.
  case_decide as Hwork; [eexists; split; [done|left; split; [done|lia]]|]. destruct (trimmed_dest _ _ _ _ _ HT _ _ _ Hrow Hr) as (Hmin & Hmax & Hdest).
  destruct (zget_in states (rdest r)) as [b Hb]; [by rewrite (su_size _ _ HS)|]. rewrite Hb. opt. destruct b; simpl.
  2:{ eexists. split; [done|]. split; cbn [fst snd]; [lia|done| | | |].
      - intros Hbyte s r' [Hs|[_ ->]]; [by eapply H3|congruence].
      - intros Hbyte. destruct (H4 Hbyte). split; [lia|done].
      - intros s r' [Hs|[_ ->]]; [by eapply H5|congruence].
      - intros p. rewrite H6. split; [intros (r' & ? & ?); exists r'; auto|]. intros (r' & [?|[_ ->]] & Hd); [by exists r'|congruence]. }
  assert (forall x, holds r x -> exists u, L (u ++ x :: reverse reversed)) as Hext by (intros x Hx; by apply (suffixed_edge _ _ _ _ _ _ HS Hrow Hr Hx Hb)).
  destruct (decide (rmin r <> rmax r)) as [Hne|Heq].
  { eexists. split; [done|]. right. split; [|done]. apply (suffixed_fork states _ (rmin r) (rmax r) HS Hne); apply Hext; unfold holds; lia. }
  destruct (decide (byte <> -1 /\ byte <> rmin r)) as [[Hb1 Hb2]|Hb1].
  { eexists. split; [done|]. right. split; [|done]. apply (suffixed_fork states _ byte (rmin r) HS Hb2); [by apply H4|apply Hext; unfold holds; lia]. }
  pose proof (zget_Some_range _ _ _ Hrow) as Hs. rewrite (tr_size _ _ _ _ _ HT) in Hs. rewrite zset_in by lia. opt.
  eexists. split; [done|]. split; cbn [fst snd]; [lia|by rewrite zlen_insert|lia| | |].
  - intros _. split; [lia|]. apply Hext. unfold holds. lia.
  - intros s r' [Hs'|[_ ->]] Hd; [|lia]. destruct (decide (byte = -1)) as [Hbyte|Hbyte]; [by destruct (H3 Hbyte s r' Hs')|].
    pose proof (H5 s r' Hs' Hd). lia.
  - intros p. rewrite zget_insert by lia. case_decide as Hp; [subst; split; [|done]; intros _; exists r; auto|]. rewrite H6.
    split; [intros (r' & ? & ?); exists r'; auto|]. intros (r' & [?|[? _]] & Hd); [by exists r'|congruence].
Qed.

Lemma suffixScan_room done s rest row seen r more : seqZ 0 n = done ++ s :: rest -> rows.[s] = Some row -> row = seen ++ r :: more ->
  zlen (concat (dests <$> done)) + zlen seen < zlen (vranges v).
Proof.
  intros Hsplit Hrow Hrs. rewrite <- others_all, others_nil, Hsplit, fmap_app, concat_app, zlen_app. simpl. rewrite (dests_row _ _ Hrow), zlen_app. subst row.
  pose proof (zlen_nonneg (concat (dests <$> rest))). unfold zlen in *. rewrite length_fmap, length_app. simpl. lia.
Qed.

(** All transitions are seen, or the suffix has ended. *)
Lemma suffixScan_spec : exists y,
  foldX (fun st source => l ← View.transitions v source; foldX (suffixRange states reversed source) st l)
    (work0, -1, replicate (length states) false) (seqZ 0 n) = Some y /\
  match y with inl st => rounding (fun s r => exists row, rows.[s] = Some row /\ r ∈ row) (zlen (vranges v)) st | inr t => ended t end.
Proof.
  rewrite <- others_all, others_nil.
  pose proof (tr_pos _ _ _ _ _ HT) as Hn.
  edestruct (foldX_ind (fun done st => rounding (fun s r => s ∈ done /\ exists row, rows.[s] = Some row /\ r ∈ row) (zlen (concat (dests <$> done))) st) ended) as (y & Ey & Hy);
    [| |rewrite Ey; exists y; split; [done|]; destruct y as [st|t]; [|exact Hy]].
  - change (zlen (concat (dests <$> []))) with 0. split; cbn [fst snd]; [lia| | |lia| |].
    + rewrite zlen_replicate. exact (su_size _ _ HS).
    + by intros _ s r [?%not_elem_of_nil _].
    + by intros s r [?%not_elem_of_nil _].
    + intros p. split; [|by intros (r & [?%not_elem_of_nil _] & _)]. unfold zget. case_decide; [|done]. intros [? _]%lookup_replicate. done.
  - intros done s rest st Hsplit HR. assert (0 <= s < n) as Hs.
    { assert (s ∈ seqZ 0 n) as Hin%elem_of_seqZ by (rewrite Hsplit; apply elem_of_app; right; left). lia. }
    destruct (trimmed_row _ _ _ _ _ HT s Hs) as (row & Hrow & Et & _). rewrite Et. opt.
    edestruct (foldX_ind (fun seen st => rounding (fun s' r => (s' ∈ done /\ exists row, rows.[s'] = Some row /\ r ∈ row) \/ (s' = s /\ r ∈ seen))
        (zlen (concat (dests <$> done)) + zlen seen) st) ended) as (y & Ey & Hy);
      [| |rewrite Ey; exists y; split; [done|]; destruct y as [st'|t]; [|exact Hy]].
    + change (zlen (@nil ByteDfaRange)) with 0. rewrite Z.add_0_r. eapply rounding_ext; [|exact HR]. intros s' r. rewrite elem_of_nil. tauto.
    + intros seen r more st' Hrs HR'. destruct (suffixRange_spec _ _ _ _ _ r Hrow ltac:(rewrite Hrs; apply elem_of_app; right; left) (suffixScan_room _ _ _ _ _ _ _ Hsplit Hrow Hrs) HR') as (y & Ey & Hy).
      exists y. split; [done|]. destruct y; [|done]. rewrite zlen_app, Z.add_assoc. change (zlen [r]) with 1. eapply rounding_ext; [|exact Hy]. intros s' r'. rewrite elem_of_app, list_elem_of_singleton. tauto.
    + assert (zlen (concat (dests <$> done ++ [s])) = zlen (concat (dests <$> done)) + zlen row) as ->.
      { rewrite fmap_app, concat_app, zlen_app. simpl. rewrite app_nil_r, (dests_row _ _ Hrow). unfold zlen. by rewrite length_fmap. }
      eapply rounding_ext; [|exact Hy]. intros s' r. rewrite elem_of_app, list_elem_of_singleton. split.
      * intros [[? ?]|[-> ?]]; [tauto|]. split; [by right|]. by exists row.
      * intros [[?| ->] (row' & Hrow' & ?)]; [left; split; [done|by exists row']|]. simplify_eq. by right.
  - eapply rounding_ext; [|exact Hy]. intros s r. split; [tauto|]. intros (row & Hrow & Hr). split; [|by exists row].
    apply elem_of_seqZ. apply zget_Some_range in Hrow. rewrite (tr_size _ _ _ _ _ HT) in Hrow. lia.
Qed.

(** With no start among the states, something leads to them. *)
Lemma suffixRound_some st : states.[0] = Some false -> rounding (fun s r => exists row, rows.[s] = Some row /\ r ∈ row) (zlen (vranges v)) st ->
  st.1.2 <> -1 /\ suffixed st.2 (st.1.2 :: reverse reversed).
Proof.
  intros H0 HR. destruct st as [[work byte] preds]. cbn [fst snd] in *.
  assert (forall w, L w -> exists u x p, w = u ++ x :: reverse reversed /\ x = byte /\ byte <> -1 /\ walk rows 0 u p /\ preds.[p] = Some true) as Hall.
  { intros w (u & p & -> & Hu & Hp)%(su_all _ _ HS). destruct u as [|x u _] using rev_ind; [apply walk_nil_inv in Hu as <-; congruence|].
    apply walk_snoc_inv in Hu as (q & row & r & Hu & Hrow & Hr & Hx & <-). destruct (ro_byte _ _ _ HR q r ltac:(by exists row) Hp) as [E1 E2]. cbn [fst snd] in *.
    unfold holds in Hx. exists u, x, q. rewrite <- app_assoc. split_and!; [done|lia| |done|].
    - intros Hb. exact (ro_none _ _ _ HR Hb q r ltac:(by exists row) Hp).
    - apply (ro_pred _ _ _ HR). exists r. split; [by exists row|done]. }
  split; [|split].
  - destruct (tr_live _ _ _ _ _ HT 0) as [w Hw]; [pose proof (tr_pos _ _ _ _ _ HT); lia|]. apply (tr_lang _ _ _ _ _ HT) in Hw.
    by destruct (Hall w Hw) as (_ & _ & _ & _ & _ & Hb & _).
  - apply HR.
  - intros w Hw. destruct (Hall w Hw) as (u & x & p & -> & -> & _ & Hu & Hp). by exists u, p.
  - intros p Hp. apply (ro_pred _ _ _ HR) in Hp as (r & (row & Hrow & Hr) & Hd).
    destruct (ro_byte _ _ _ HR p r ltac:(by exists row) Hd) as [E1 E2]. cbn [fst snd] in *. apply (suffixed_edge _ _ _ _ _ _ HS Hrow Hr); [unfold holds; lia|done].
Qed.

Lemma suffixRound_spec : exists y, suffixRound v (states, reversed, work0) = Some y /\
  match y with
  | inl (states', reversed', work') => suffixed states' (reverse reversed') /\ zlen reversed' = zlen reversed + 1
      /\ work' = work0 + zlen (vranges v) /\ work0 < work' <= COMMON_SUFFIX_WORK_LIMIT
  | inr t => ended t
  end.
Proof.
  pose proof (su_size _ _ HS) as Hz. pose proof (tr_pos _ _ _ _ _ HT) as Hn. unfold suffixRound. destruct (zget_in states 0) as [b Hb]; [lia|]. rewrite Hb. opt.
  destruct b; [eexists; split; [done|]; right; split; [by eapply suffixed_stop|done]|]. destruct suffixScan_spec as (y & Ey & Hy). rewrite Hz, Ey. opt.
  destruct y as [[[work byte] preds]|t]; [|by eexists]. destruct (suffixRound_some _ Hb Hy) as [Hbyte Hsuf]. cbn [fst snd] in *. rewrite decide_False by done.
  eexists. split; [done|]. split; [by rewrite reverse_snoc|]. rewrite zlen_app. split; [done|]. pose proof (ro_work _ _ _ Hy). pose proof (ro_some _ _ _ Hy Hbyte). cbn [fst snd] in *. lia.
Qed.
End Round.

Lemma suffixed_start : suffixed acc [].
Proof.
  split; [apply HT| |].
  - intros w (f & Hw & Hf)%(tr_lang _ _ _ _ _ HT). exists w, f. by rewrite app_nil_r.
  - intros p Hp. by apply accepted_nil.
Qed.

Lemma longest_unique t t' : longest_common t -> longest_common t' -> t = t'.
Proof.
  intros [Ht Hmax] [Ht' Hmax']. destruct (tr_live _ _ _ _ _ HT 0) as [w Hw]; [pose proof (tr_pos _ _ _ _ _ HT); lia|]. apply (tr_lang _ _ _ _ _ HT) in Hw.
  destruct (Ht w Hw) as [u Eu]. destruct (Ht' w Hw) as [u' Eu']. rewrite Eu in Eu'. apply app_inj_2 in Eu' as [_ ?]; [done|].
  specialize (Hmax t' Ht'). specialize (Hmax' t Ht). unfold zlen in *. lia.
Qed.

(** The result is empty for lack of work, with a common suffix that would take more than the limit; or it is the longest common suffix, found within the limit. *)
Definition searched (t : list Z) : Prop :=
  (t = [] /\ exists t', common t' /\ COMMON_SUFFIX_WORK_LIMIT < zlen (vranges v) * (zlen t' + 3))
  \/ (longest_common t /\ zlen (vranges v) * (zlen t + 1) <= COMMON_SUFFIX_WORK_LIMIT).

Lemma suffixLoop_spec work : zlen (vranges v) <= work <= 2 * zlen (vranges v) -> work <= COMMON_SUFFIX_WORK_LIMIT ->
  exists t, whileO 20 (suffixRound v) (vaccepts v, [], work) = Some t /\ searched t.
Proof.
  intros Hw Hlim. apply (whileO_spec (fun st => suffixed st.1.1 (reverse st.1.2) /\ 0 <= st.2 <= COMMON_SUFFIX_WORK_LIMIT
      /\ zlen (vranges v) * (zlen st.1.2 + 1) <= st.2 <= zlen (vranges v) * (zlen st.1.2 + 2)) (fun st => Z.to_nat (COMMON_SUFFIX_WORK_LIMIT + 1 - st.2))).
  - intros [[states reversed] work1] (HS & Hw1 & Hlo). cbn [fst snd] in *. destruct (suffixRound_spec states reversed work1 HS) as (y & Ey & Hy); [lia|]. exists y. split; [done|].
    destruct y as [[[states' reversed'] work2]|t]; cbn [fst snd].
    + destruct Hy as (Hs' & Hz & -> & Hw2). split; [split_and!; [done|lia|lia|..]; rewrite Hz; nia|]. lia.
    + assert (zlen (reverse reversed) = zlen reversed) as Hrev by (unfold zlen; by rewrite length_reverse). destruct Hy as [[-> Hy]|[Hy ->]].
      * left. split; [done|]. exists (reverse reversed). split; [by eapply suffixed_common|]. rewrite Hrev. nia.
      * right. split; [done|]. rewrite Hrev. lia.
  - cbn [fst snd]. rewrite (hr_accepts _ _ _ (tr_rows _ _ _ _ _ HT)). change (zlen (@nil Z)) with 0. pose proof (zlen_nonneg (vranges v)). split; [apply suffixed_start|]. lia.
  - cbn [fst snd]. apply Nat2Z.inj_lt. rewrite Nat2Z.inj_pow. pose proof (zlen_nonneg (vranges v)). unfold COMMON_SUFFIX_WORK_LIMIT in *. lia.
Qed.

(** [commonSuffix] of an infinite language that is not of a simple kind searches for the suffix, and is empty in all other cases. *)
Lemma commonSuffix_spec : exists kind value t, Queries.classify v = Some (kind, value) /\ commonSuffix v = Some t /\
  ((t = [] /\ (kind <> Queries.NORMAL \/ ~ unbounded \/ COMMON_SUFFIX_WORK_LIMIT < 2 * zlen (vranges v))) \/ (kind = Queries.NORMAL /\ unbounded /\ searched t)).
Proof.
  unfold commonSuffix. destruct (classify_spec _ _ _ _ _ HT) as (kind & value & Ek & _). exists kind, value. rewrite Ek. opt.
  destruct kind; try (exists []; split_and!; [done..|left]; split; [done|by left]).
  destruct (isCyclic_spec 0) as ([b work] & Ec & Hb1 & Hb0). rewrite Ec. opt. cbn [fst snd] in *. destruct b; simpl.
  - destruct (Hb1 eq_refl) as [Hu Hw]. case_bool_decide as Hlim; [exists []; split_and!; try done; left; split; [done|right; right; lia]|].
    destruct (suffixLoop_spec work) as (t & Et & Ht); [lia..|]. exists t. split_and!; [done..|]. by right.
  - exists []. split_and!; try done. left. split; [done|right]. destruct (decide (COMMON_SUFFIX_WORK_LIMIT < 2 * zlen (vranges v))); [by right|left].
    intros Hu. pose proof (Hb0 eq_refl Hu). lia.
Qed.
End Kahn.

(** * The queries of compiled automata *)

(** C23: [maxAcceptedLength] on a compiled automaton returns the length of a longest accepted string when there is one, [UNBOUNDED] exactly when accepted strings can be as long as one likes,
    and -1 when nothing is accepted.  A length is less than the number of states. *)
Theorem maxAcceptedLength_correct r L : compiled r L -> exists m, Cycles.maxAcceptedLength (makeView r) = Some m /\
  ((m = -1 /\ forall w, ~ L w)
   \/ (m = Cycles.UNBOUNDED /\ unbounded L)
   \/ (0 <= m < stateCount (makeView r) /\ (exists w, L w /\ zlen w = m) /\ forall w, L w -> zlen w <= m)).
Proof.
  intros [[-> HL]|(rows & acc & n & HT)]%compiled_trimmed; [exists (-1); split; [done|by left]|].
  destruct (maxAcceptedLength_spec _ _ _ _ _ HT) as (m & Em & Hm). exists m. split; [done|right]. rewrite (trimmed_count _ _ _ _ _ HT).
  destruct Hm as [?|(H1 & (w & Hw & <-) & H3)]; [by left|right]. split_and!; [apply zlen_nonneg|done|by exists w|done].
Qed.

Lemma maxAcceptedLength_correct_witness : Cycles.maxAcceptedLength (makeView sample) = Some Cycles.UNBOUNDED
  /\ exists m, Cycles.maxAcceptedLength (makeView sample) = Some m /\
  ((m = -1 /\ forall w, ~ accepted sample_rows sample_accepts 0 w)
   \/ (m = Cycles.UNBOUNDED /\ unbounded (accepted sample_rows sample_accepts 0))
   \/ (0 <= m < stateCount (makeView sample) /\ (exists w, accepted sample_rows sample_accepts 0 w /\ zlen w = m)
       /\ forall w, accepted sample_rows sample_accepts 0 w -> zlen w <= m)).
Proof. split; [vm_compute; reflexivity|]. exact (maxAcceptedLength_correct _ _ sample_compiled). Defined.

(** C24: [commonSuffix] on a compiled automaton.  It is empty for an automaton of a simple kind and for a finite language.  For any other, it is the longest string that every accepted string ends with
    whenever the search for it takes no more than a million transitions (three times all of them, and once more for each byte found); when it is not empty it is that string, and the transitions
    it took, one pass and one more for each byte, are at most a million. *)
Theorem commonSuffix_correct r L : compiled r L -> exists t, Cycles.commonSuffix (makeView r) = Some t
  /\ (forall kind value, Queries.classify (makeView r) = Some (kind, value) -> kind <> Queries.NORMAL -> t = [])
  /\ (~ unbounded L -> t = [])
  /\ (t <> [] -> longest_common L t /\ zlen (vranges (makeView r)) * (zlen t + 1) <= 1000000)
  /\ (forall value t', Queries.classify (makeView r) = Some (Queries.NORMAL, value) -> unbounded L -> longest_common L t' ->
        zlen (vranges (makeView r)) * (zlen t' + 3) <= 1000000 -> t = t').
Proof.
  intros [[-> HL]|(rows & acc & n & HT)]%compiled_trimmed.
  - exists []. by split_and!.
  - destruct (commonSuffix_spec _ _ _ _ _ HT) as (kind & value & t & Ek & Et & Ht). pose proof (zlen_nonneg (vranges (makeView r))). exists t. unfold searched, COMMON_SUFFIX_WORK_LIMIT in Ht. split_and!; [done|..].
    + intros k2 v2 Ek2 Hne. destruct Ht as [[-> _]|(-> & _)]; [done|]. congruence.
    + intros Hf. destruct Ht as [[-> _]|(_ & Hu & _)]; [done|]. by destruct Hf.
    + intros Hne. destruct Ht as [[-> _]|(_ & _ & [[-> _]|Ht])]; [done..|]. exact Ht.
    + intros v2 t' Ek2 Hu Ht' Hlim. pose proof (zlen_nonneg t'). destruct Ht as [[_ [Hk|[Hk|Hk]]]|(_ & _ & [[_ (t2 & Hc & Hk)]|[Hl _]])]; [congruence|done|nia| |by eapply longest_unique].
      pose proof (proj2 Ht' t2 Hc). nia.
Qed.

Lemma commonSuffix_correct_witness : Cycles.commonSuffix (makeView sample) = Some [99]
  /\ longest_common (accepted sample_rows sample_accepts 0) [99].
Proof.
  assert (Cycles.commonSuffix (makeView sample) = Some [99]) as E by (vm_compute; reflexivity). split; [exact E|].
  destruct (commonSuffix_correct _ _ sample_compiled) as (t & Et & _ & _ & Ht & _). rewrite Et in E. injection E as ->. exact (proj1 (Ht ltac:(discriminate))).
Defined.
