(* ===== verification/Patterns.v ===== *)
(** What the two pattern compilers share: UTF-8 decoding and balanced joins.

    [decode] of [util/automaton/WildcardCompiler.cpp] and [Parser::next] of [util/automaton/RegExpParser.cpp] are the same decoder up to the
    exception they throw; so are [concatenateBalanced] and [Parser::fold] up to the operation.  The decoder is shown to accept
    exactly the UTF-8 forms of scalar values, and a balanced join to give the join of its parts in order. *)

From S2P Require Import Prelude Metered Languages CaseAlternates Automata Utf8.

Import Automaton.

(** The text of a pattern in a message. *)
Definition pattern_text (pattern : list Z) : string := foldr (fun b s => String (Ascii.ascii_of_N (Z.to_N b)) s) "" pattern.

(** * Decoding *)

Definition sequenceLength (first : Z) : Z :=
  if decide (Z.land first 0xe0 = 0xc0) then 2 else if decide (Z.land first 0xf0 = 0xe0) then 3
  else if decide (Z.land first 0xf8 = 0xf0) then 4 else 0.

(** The continuation bytes of a sequence, and the check of the value. *)
Definition continuation (fail : string) (pattern : list Z) (count codepoint position : Z) : SM Budget (Z * Z) :=
  '(codepoint, position) ← foldS (fun '(codepoint, position) _ =>
      byte ← need pattern.[position];
      if decide (Z.land byte 0xc0 <> 0x80) then throw fail else
      mret (Z.lor (Z.shiftl codepoint 6) (Z.land byte 0x3f), position + 1))
    (codepoint, position) (seqZ 1 (count - 1));
  if decide (count = 2 /\ codepoint < 0x80 \/ count = 3 /\ codepoint < 0x800 \/ count = 4 /\ (codepoint < 0x10000 \/ 0x10ffff < codepoint)
             \/ 0xd800 <= codepoint <= 0xdfff)
  then throw fail else mret (codepoint, position).

(** The code point at a position and the position after it; [fail] is the exception for invalid UTF-8. *)
Definition decode (fail : string) (pattern : list Z) (position : Z) : SM Budget (Z * Z) :=
  first ← need pattern.[position];
  let position := position + 1 in
  if decide (first < 0x80) then mret (first, position) else
  let count := sequenceLength first in
  if decide (count = 0 \/ zlen pattern < position + count - 1) then throw fail else
  continuation fail pattern count (Z.land first (Z.shiftl 1 (7 - count) - 1)) position.

(** * Balanced joins *)

(** The parts from [begin] to [end], joined in two halves; [none] is for an empty range. *)
Fixpoint balanced (fuel : nat) (none : SM Budget t) (join : t -> t -> SM Budget t) (parts : list t) (first last : Z) : SM Budget t :=
  match fuel with
  | O => undef
  | S fuel =>
      if decide (first = last) then none else
      if decide (last - first = 1) then need parts.[first] else
      let middle := first + (last - first) `div` 2 in
      left ← balanced fuel none join parts first middle;
      right ← balanced fuel none join parts middle last;
      join left right
  end.

(** * What is decoded *)

Lemma byte_cases (P : Z -> Prop) `{!forall b, Decision (P b)} b : bool_decide (Forall P (seqZ 0 256)) = true -> 0 <= b <= 255 -> P b.
Proof. intros HP Hb. apply bool_decide_eq_true in HP. rewrite Forall_forall in HP. apply HP, elem_of_seqZ. lia. Qed.

Lemma cont_bits b : 0 <= b <= 255 -> (Z.land b 0xc0 = 0x80 <-> 0x80 <= b <= 0xbf) /\ (0x80 <= b <= 0xbf -> Z.land b 0x3f = b - 0x80).
Proof.
  apply (byte_cases (fun b => (Z.land b 0xc0 = 0x80 <-> 0x80 <= b <= 0xbf) /\ (0x80 <= b <= 0xbf -> Z.land b 0x3f = b - 0x80))). by vm_compute.
Qed.

(** The leading byte of a sequence. *)
Definition lead_ok (b : Z) : Prop :=
  match decide (b < 0xc0) with
  | left _ => sequenceLength b = 0
  | _ => match decide (b < 0xe0) with
  | left _ => sequenceLength b = 2 /\ Z.land b 31 = b - 0xc0
  | _ => match decide (b < 0xf0) with
  | left _ => sequenceLength b = 3 /\ Z.land b 15 = b - 0xe0
  | _ => match decide (b < 0xf8) with
  | left _ => sequenceLength b = 4 /\ Z.land b 7 = b - 0xf0
  | _ => sequenceLength b = 0
  end end end end.

#[local] Instance lead_ok_dec b : Decision (0x80 <= b -> lead_ok b).
Proof. unfold lead_ok. repeat case_decide; apply _. Defined.

Lemma lead_bits b : 0 <= b <= 255 -> 0x80 <= b -> lead_ok b.
Proof. apply (byte_cases (fun b => 0x80 <= b -> lead_ok b)). by vm_compute. Qed.

Lemma push_bits c x : 0 <= x < 64 -> Z.lor (Z.shiftl c 6) x = c * 64 + x.
Proof. intros Hx. rewrite Z.lor_comm, lor_shiftl_add by (unfold is_u; lia). lia. Qed.

(** The text begins with the UTF-8 form of a scalar value. *)
Definition starts (text : list Z) (cp : Z) (rest : list Z) : Prop := is_scalar cp /\ text = utf8 cp ++ rest.

Lemma utf8_forms cp : 0 <= cp <= 0x10ffff ->
  cp < 0x80 /\ utf8 cp = [cp]
  \/ (exists a b, 0 <= b < 64 /\ cp = a * 64 + b /\ 0x80 <= cp < 0x800 /\ utf8 cp = [0xc0 + a; 0x80 + b])
  \/ (exists a b c, 0 <= b < 64 /\ 0 <= c < 64 /\ cp = (a * 64 + b) * 64 + c /\ 0x800 <= cp < 0x10000 /\ utf8 cp = [0xe0 + a; 0x80 + b; 0x80 + c])
  \/ (exists a b c e, 0 <= b < 64 /\ 0 <= c < 64 /\ 0 <= e < 64 /\ cp = ((a * 64 + b) * 64 + c) * 64 + e /\ 0x10000 <= cp
        /\ utf8 cp = [0xf0 + a; 0x80 + b; 0x80 + c; 0x80 + e]).
Proof.
  intros Hcp. destruct (decide (cp < 0x80)); [left; split; [done|]; unfold utf8; by rewrite decide_True|right].
  destruct (decide (cp < 0x800)); [left|right].
  { destruct (digit cp) as (a & b & -> & Hb). exists a, b. rewrite utf8_2 by lia. split_and!; lia || done. }
  destruct (decide (cp < 0x10000)); [left|right].
  - destruct (digit cp) as (a' & c & -> & Hc), (digit a') as (a & b & -> & Hb). exists a, b, c. rewrite utf8_3 by lia. split_and!; lia || done.
  - destruct (digit cp) as (a' & e & -> & He), (digit a') as (a'' & c & -> & Hc), (digit a'') as (a & b & -> & Hb). exists a, b, c, e.
    rewrite utf8_4 by lia. split_and!; lia || done.
Qed.

Lemma starts_forms f text cp rest : starts (f :: text) cp rest ->
  f < 0x80 /\ cp = f /\ text = rest
  \/ (exists b, 0xc0 <= f < 0xe0 /\ text = b :: rest /\ cont b /\ cp = (f - 0xc0) * 64 + (b - 0x80) /\ 0x80 <= cp)
  \/ (exists b c, 0xe0 <= f < 0xf0 /\ text = b :: c :: rest /\ cont b /\ cont c /\ cp = ((f - 0xe0) * 64 + (b - 0x80)) * 64 + (c - 0x80) /\ 0x800 <= cp)
  \/ (exists b c e, 0xf0 <= f < 0xf8 /\ text = b :: c :: e :: rest /\ cont b /\ cont c /\ cont e
        /\ cp = (((f - 0xf0) * 64 + (b - 0x80)) * 64 + (c - 0x80)) * 64 + (e - 0x80) /\ 0x10000 <= cp).
Proof.
  intros [Hs Ht]. destruct (utf8_forms cp) as [(H1 & Eu)|[(a & b & Hb & Ec & H1 & Eu)|[(a & b & c & Hb & Hc & Ec & H1 & Eu)|(a & b & c & e & Hb & Hc & He & Ec & H1 & Eu)]]];
    [unfold is_scalar in Hs; lia|..]; rewrite Eu in Ht; injection Ht as -> ->; unfold is_scalar, cont in *.
  - by left.
  - right. left. exists (0x80 + b). split_and!; lia || done.
  - right. right. left. exists (0x80 + b), (0x80 + c). split_and!; lia || done.
  - right. right. right. exists (0x80 + b), (0x80 + c), (0x80 + e). split_and!; lia || done.
Qed.

Lemma starts_1 f rest : 0 <= f < 0x80 -> starts (f :: rest) f rest.
Proof. intros Hf. split; [unfold is_scalar; lia|]. unfold utf8. by rewrite decide_True by lia. Qed.

Lemma starts_2 f b rest : 0xc0 <= f < 0xe0 -> cont b -> let cp := (f - 0xc0) * 64 + (b - 0x80) in 0x80 <= cp -> starts (f :: b :: rest) cp rest.
Proof.
  cbv zeta. unfold cont. intros Hf Hb Hcp. split; [unfold is_scalar; lia|]. rewrite utf8_2 by lia.
  by replace (0xc0 + (f - 0xc0)) with f by lia; replace (0x80 + (b - 0x80)) with b by lia.
Qed.

Lemma starts_3 f b c rest : 0xe0 <= f < 0xf0 -> cont b -> cont c -> let cp := ((f - 0xe0) * 64 + (b - 0x80)) * 64 + (c - 0x80) in
  0x800 <= cp -> is_scalar cp -> starts (f :: b :: c :: rest) cp rest.
Proof.
  cbv zeta. unfold cont. intros Hf Hb Hc Hcp Hs. split; [done|]. rewrite utf8_3 by lia.
  by replace (0xe0 + (f - 0xe0)) with f by lia; replace (0x80 + (b - 0x80)) with b by lia; replace (0x80 + (c - 0x80)) with c by lia.
Qed.

Lemma starts_4 f b c e rest : 0xf0 <= f < 0xf8 -> cont b -> cont c -> cont e ->
  let cp := (((f - 0xf0) * 64 + (b - 0x80)) * 64 + (c - 0x80)) * 64 + (e - 0x80) in
  0x10000 <= cp -> is_scalar cp -> starts (f :: b :: c :: e :: rest) cp rest.
Proof.
  cbv zeta. unfold cont. intros Hf Hb Hc He Hcp Hs. split; [done|]. rewrite utf8_4 by (unfold is_scalar in Hs; lia).
  by replace (0xf0 + (f - 0xf0)) with f by lia; replace (0x80 + (b - 0x80)) with b by lia; replace (0x80 + (c - 0x80)) with c by lia;
    replace (0x80 + (e - 0x80)) with e by lia.
Qed.

Lemma starts_unique text cp cp' rest rest' : starts text cp rest -> starts text cp' rest' -> cp = cp' /\ rest = rest'.
Proof.
  destruct text as [|f text]; intros H H'.
  { destruct H as [Hs Ht]. destruct (utf8_forms cp) as [(_ & Eu)|[(? & ? & _ & _ & _ & Eu)|[(? & ? & ? & _ & _ & _ & _ & Eu)|(? & ? & ? & ? & _ & _ & _ & _ & _ & Eu)]]];
      [unfold is_scalar in Hs; lia|..]; by rewrite Eu in Ht. }
  apply starts_forms in H, H'. naive_solver lia.
Qed.

Lemma utf8_nonempty cp : utf8 cp <> [].
Proof. unfold utf8. by repeat case_decide. Qed.

Lemma starts_shorter text cp rest : starts text cp rest -> (length rest < length text)%nat.
Proof.
  intros [_ ->]. rewrite length_app. pose proof (utf8_nonempty cp) as Hne. destruct (utf8 cp); [done|]. simpl. lia.
Qed.

(** The labels of [anyChar] read the form of any scalar value. *)
Lemma any_scalar : lunion (mixed 0 0xd7ff false) (mixed 0xe000 0x10ffff false) ≡ fun w => exists cp, is_scalar cp /\ w = utf8 cp.
Proof.
  intros w. unfold lunion, mixed. split.
  - intros [(cp & Hs & _ & ->)|(cp & Hs & _ & ->)]; by exists cp.
  - intros (cp & Hs & ->). pose proof Hs as [?|?]; [left|right]; exists cp; (split; [done|]); (split; [lia|done]).
Qed.

(** The text that remains at a position. *)
Definition remains (pattern : list Z) (pos : Z) (text : list Z) : Prop := exists pre, pattern = pre ++ text /\ pos = zlen pre.

Lemma remains_start pattern : remains pattern 0 pattern.
Proof. by exists []. Qed.

Lemma remains_cons pattern pos x text : remains pattern pos (x :: text) -> pattern.[pos] = Some x /\ remains pattern (pos + 1) text.
Proof.
  intros (pre & -> & ->). split; [by rewrite zget_app_r, Z.sub_diag by lia|]. exists (pre ++ [x]). split; [by rewrite <- app_assoc|zlen].
Qed.

Lemma remains_app pattern pos u text : remains pattern pos (u ++ text) -> remains pattern (pos + zlen u) text.
Proof. intros (pre & -> & ->). exists (pre ++ u). split; [by rewrite <- app_assoc|by rewrite zlen_app]. Qed.

Lemma remains_len pattern pos text : remains pattern pos text -> zlen pattern = pos + zlen text /\ 0 <= pos.
Proof. intros (pre & -> & ->). rewrite zlen_app. split; [done|apply zlen_nonneg]. Qed.

Lemma remains_bytes pattern pos text : remains pattern pos text -> Forall (fun x => 0 <= x <= 255) pattern -> Forall (fun x => 0 <= x <= 255) text.
Proof. intros (pre & -> & _) [_ H]%Forall_app. done. Qed.

(** One continuation byte. *)
Lemma cont_step {B} d fail pattern pos b text c (k : Z * Z -> SM Budget B) (Er : string -> Prop) Q : remains pattern pos (b :: text) -> 0 <= b <= 255 ->
  (~ cont b -> Er fail) -> (cont b -> remains pattern (pos + 1) text -> spends d (k (c * 64 + (b - 0x80), pos + 1)) Er Q) ->
  spends d (x ← (byte ← need pattern.[pos]; if decide (Z.land byte 0xc0 <> 0x80) then throw fail else
    mret (Z.lor (Z.shiftl c 6) (Z.land byte 0x3f), pos + 1)); k x) Er Q.
Proof.
  intros Hr Hb Hno Hyes. apply remains_cons in Hr as [Eb Hr]. destruct (cont_bits b Hb) as [H1 H2]. unfold cont in *.
  eapply (spends_bind _ _ _ _ (fun x d' => d' = d /\ (0x80 <= b <= 0xbf) /\ x = (c * 64 + (b - 0x80), pos + 1))).
  - eapply spends_need_bind; [exact Eb|]. case_decide as Hc; [apply spends_throw, Hno; tauto|]. apply spends_ret.
    assert (0x80 <= b <= 0xbf) as Hr' by (apply H1; lia). split_and!; [done|lia..|]. rewrite H2, push_bits by lia. done.
  - intros x d' _ (-> & Hc & ->). by apply Hyes.
Qed.

(** The text does not begin with the UTF-8 form of a scalar value. *)
Definition no_start (text : list Z) : Prop := forall cp rest, ~ starts text cp rest.

Section Decode.
Context (d : Z) (fail : string) (pattern : list Z) (Hbytes : Forall (fun x => 0 <= x <= 255) pattern).

Definition decoded (text : list Z) (c : SM Budget (Z * Z)) : Prop :=
  spends d c (fun m => m = fail /\ no_start text) (fun r d' => d' = d /\ exists rest, starts text r.1 rest /\ remains pattern r.2 rest).

(** The end of a sequence: the value is checked. *)
Lemma decode_check_spec (bad : Prop) `{!Decision bad} text cp pos rest : remains pattern pos rest -> (bad -> no_start text) -> (~ bad -> starts text cp rest) ->
  decoded text (if decide bad then throw fail else mret (cp, pos)).
Proof.
  intros Hrem Hbad Hok. case_decide; [by apply spends_throw; auto|]. apply spends_ret. split; [done|]. exists rest. auto.
Qed.

Lemma fail_spec text : no_start text -> decoded text (throw fail).
Proof. intros H. by apply spends_throw. Qed.

Ltac absent :=
  let Hst := fresh "Hst" in intros ? ? Hst; pose proof (proj1 Hst);
  apply starts_forms in Hst as [(? & ? & ?)|[(? & ? & ? & ? & ? & ?)|[(? & ? & ? & ? & ? & ? & ? & ?)|(? & ? & ? & ? & ? & ? & ? & ? & ? & ?)]]];
  simplify_eq; unfold cont, is_scalar in *; rewrite ?zlen_cons in *; 
  first [lia|done|match goal with H : context [zlen ?l] |- _ => pose proof (zlen_nonneg l); lia end].

(** A step of the loop over the continuation bytes. *)
Ltac continue Hrem := eapply spends_ext; [intros ?bud; symmetry; apply bind_assoc|]; eapply cont_step; [exact Hrem|done|intros ?Hc; split; [done|]; absent|]; clear Hrem; intros ?Hc Hrem.

Lemma continuation_2 pos f text : remains pattern pos text -> Forall (fun x => 0 <= x <= 255) text -> 0xc0 <= f < 0xe0 -> 1 <= zlen text ->
  decoded (f :: text) (continuation fail pattern 2 (f - 0xc0) pos).
Proof.
  intros Hrem Hb Hf Hz. destruct text as [|b text]; [rewrite zlen_nil in Hz; lia|]. apply Forall_cons in Hb as [Hb1 _].
  unfold decoded, continuation. change (seqZ 1 (2 - 1)) with [1]. cbn [foldS]. continue Hrem. apply spends_ret_bind.
  apply decode_check_spec with (rest := text); [done|intros Hbad; absent|]. intros Hok. apply starts_2; [done|done|lia].
Qed.

Lemma continuation_3 pos f text : remains pattern pos text -> Forall (fun x => 0 <= x <= 255) text -> 0xe0 <= f < 0xf0 -> 2 <= zlen text ->
  decoded (f :: text) (continuation fail pattern 3 (f - 0xe0) pos).
Proof.
  intros Hrem Hb Hf Hz. destruct text as [|b [|c text]]; rewrite ?zlen_cons, ?zlen_nil in Hz; [lia..|].
  apply Forall_cons in Hb as [Hb1 Hb]. apply Forall_cons in Hb as [Hb2 _].
  unfold decoded, continuation. change (seqZ 1 (3 - 1)) with [1; 2]. cbn [foldS]. continue Hrem. continue Hrem. apply spends_ret_bind.
  apply decode_check_spec with (rest := text); [done|intros Hbad; absent|]. intros Hok. apply starts_3; [done..|lia|]. unfold is_scalar, cont in *. lia.
Qed.

Lemma continuation_4 pos f text : remains pattern pos text -> Forall (fun x => 0 <= x <= 255) text -> 0xf0 <= f < 0xf8 -> 3 <= zlen text ->
  decoded (f :: text) (continuation fail pattern 4 (f - 0xf0) pos).
Proof.
  intros Hrem Hb Hf Hz. destruct text as [|b [|c [|e text]]]; rewrite ?zlen_cons, ?zlen_nil in Hz; [lia..|].
  apply Forall_cons in Hb as [Hb1 Hb]. apply Forall_cons in Hb as [Hb2 Hb]. apply Forall_cons in Hb as [Hb3 _].
  unfold decoded, continuation. change (seqZ 1 (4 - 1)) with [1; 2; 3]. cbn [foldS]. continue Hrem. continue Hrem. continue Hrem. apply spends_ret_bind.
  apply decode_check_spec with (rest := text); [done|intros Hbad; absent|]. intros Hok. apply starts_4; [done..|lia|]. unfold is_scalar, cont in *. lia.
Qed.

(** The decoder accepts the UTF-8 forms of scalar values, and nothing else. *)
Lemma decode_text_spec pos text : remains pattern pos text -> text <> [] -> decoded text (decode fail pattern pos).
Proof.
  intros Hrem Hne. pose proof (remains_bytes _ _ _ Hrem Hbytes) as Hb. destruct text as [|f text]; [done|]. apply Forall_cons in Hb as [Hf Hb].
  apply remains_cons in Hrem as [Ef Hrem]. unfold decoded, decode. eapply spends_need_bind; [exact Ef|]. case_decide as H80.
  { apply spends_ret. split; [done|]. cbn [fst snd]. exists text. split; [apply starts_1; lia|done]. }
  pose proof (lead_bits f Hf ltac:(lia)) as Hlead. unfold lead_ok in Hlead. pose proof (remains_len _ _ _ Hrem) as [Hlen Hpos].
  case_decide as Hc0; [|case_decide as He0; [|case_decide as Hf0; [|case_decide as Hf8]]].
  - rewrite Hlead, decide_True by lia. apply fail_spec. absent.
  - destruct Hlead as [-> Hbits]. case_decide as Hs; [apply fail_spec; absent|]. change (Z.shiftl 1 (7 - 2) - 1) with 31. rewrite Hbits.
    apply continuation_2; [done|done|lia|lia].
  - destruct Hlead as [-> Hbits]. case_decide as Hs; [apply fail_spec; absent|]. change (Z.shiftl 1 (7 - 3) - 1) with 15. rewrite Hbits.
    apply continuation_3; [done|done|lia|lia].
  - destruct Hlead as [-> Hbits]. case_decide as Hs; [apply fail_spec; absent|]. change (Z.shiftl 1 (7 - 4) - 1) with 7. rewrite Hbits.
    apply continuation_4; [done|done|lia|lia].
  - rewrite Hlead, decide_True by lia. apply fail_spec. absent.
Qed.
End Decode.

(** * What is joined *)

Section Balanced.
Context (lab : Z -> Z -> bool -> language) (op : language -> language -> language) (unit : language).
Context `{!Proper ((≡) ==> (≡) ==> (≡)) op}.
Context (op_assoc : forall L K M, op (op L K) M ≡ op L (op K M)) (op_unit_l : forall L, op unit L ≡ L) (op_unit_r : forall L, op L unit ≡ L).
Context (none : SM Budget t) (join : t -> t -> SM Budget t).
Context (join_spec : forall d a b L K Er, recognises lab d a L -> recognises lab d b K -> spends d (join a b) Er (fun r d' => recognises lab d' r (op L K))).

Definition joins (Ls : list language) : language := foldr op unit Ls.

Lemma joins_app Ls Ks : joins (Ls ++ Ks) ≡ op (joins Ls) (joins Ks).
Proof. induction Ls as [|L Ls IH]; simpl; [by rewrite op_unit_l|]. by rewrite IH, op_assoc. Qed.

(** The elements from [first] to [last]. *)
Definition between_pos {A} (first last : Z) (l : list A) : list A := take (Z.to_nat (last - first)) (drop (Z.to_nat first) l).

Lemma between_app {A} (first mid last : Z) (l : list A) : 0 <= first <= mid -> mid <= last ->
  between_pos first last l = between_pos first mid l ++ between_pos mid last l.
Proof.
  intros Hf Hm. unfold between_pos.
  replace (Z.to_nat (last - first)) with (Z.to_nat (mid - first) + Z.to_nat (last - mid))%nat by lia.
  rewrite <- take_take_drop, drop_drop. do 3 f_equal. lia.
Qed.

Lemma between_one_pos {A} i (l : list A) x : l.[i] = Some x -> between_pos i (i + 1) l = [x].
Proof.
  intros Hx. pose proof (zget_Some_range _ _ _ Hx). unfold zget in Hx. rewrite decide_True in Hx by lia. unfold between_pos.
  rewrite (drop_S _ _ _ Hx). replace (Z.to_nat (i + 1 - i)) with 1%nat by lia. done.
Qed.

Lemma balanced_spec fuel : forall parts Ls d first last Er, Forall2 (recognises lab d) parts Ls -> 0 <= first <= last -> last <= zlen parts ->
  (Z.to_nat (last - first) < fuel)%nat -> (first = last -> spends d none Er (fun r d' => recognises lab d' r unit)) ->
  spends d (balanced fuel none join parts first last) Er (fun r d' => recognises lab d' r (joins (between_pos first last Ls))).
Proof.
  induction fuel as [|fuel IH]; intros parts Ls d first last Er HP Hf Hl Hfuel Hnone; [lia|]. cbn [balanced]. case_decide as H0.
  { subst last. unfold between_pos. rewrite Z.sub_diag. by apply Hnone. }
  case_decide as H1.
  - destruct (zget_in parts first) as [a Ha]; [lia|]. unfold zget in Ha. rewrite decide_True in Ha by lia.
    destruct (Forall2_lookup_l _ _ _ _ _ HP Ha) as (L & HL & HR). eapply spends_need.
    + unfold zget. rewrite decide_True by lia. exact Ha.
    + replace last with (first + 1) by lia. rewrite (between_one_pos first Ls L); [simpl; by rewrite op_unit_r|].
      unfold zget. by rewrite decide_True by lia.
  - set (mid := first + (last - first) `div` 2). assert (first < mid < last) as Hmid by (unfold mid; Z.to_euclidean_division_equations; lia).
    eapply spends_bind; [apply (IH parts Ls d first mid); [done|lia|lia|lia|lia]|]. intros left d1 Hd1 Rl.
    assert (Forall2 (recognises lab d1) parts Ls) as HP1 by (eapply Forall2_impl; [exact HP|]; intros a L; by apply recognises_mono).
    eapply spends_bind; [apply (IH parts Ls d1 mid last); [done|lia|lia|lia|lia]|]. intros right d2 Hd2 Rr.
    eapply spends_post; [apply join_spec; [apply (recognises_mono lab d1); [done|exact Rl]|exact Rr]|]. intros r d3 _ R. cbv beta in R.
    rewrite (between_app first mid last Ls) by lia. by rewrite joins_app.
Qed.

Lemma balanced_all parts Ls d Er : Forall2 (recognises lab d) parts Ls -> (parts = [] -> spends d none Er (fun r d' => recognises lab d' r unit)) ->
  spends d (balanced (S (length parts)) none join parts 0 (zlen parts)) Er (fun r d' => recognises lab d' r (joins Ls)).
Proof.
  intros HP Hnone. pose proof (Forall2_length _ _ _ HP) as Hlen. eapply spends_post.
  - apply (balanced_spec _ parts Ls); [done|pose proof (zlen_nonneg parts); lia|lia|unfold zlen; lia|]. intros H0. apply Hnone.
    destruct parts; [done|]. rewrite zlen_cons in H0. pose proof (zlen_nonneg parts). lia.
  - intros r d' _. unfold between_pos. rewrite drop_0, take_ge by (unfold zlen in *; lia). done.
Qed.
End Balanced.

(** Folding of ASCII letters, for concrete runs. *)
Definition lower (cp : Z) : Z := if decide (65 <= cp <= 90) then cp + 32 else cp.

Lemma lower_scalar cp : is_scalar cp -> is_scalar (lower cp).
Proof. unfold is_scalar, lower. case_decide; lia. Qed.

Lemma lower_idemp cp : is_scalar cp -> lower (lower cp) = lower cp.
Proof. intros _. unfold lower. repeat case_decide; lia. Qed.

Definition lower_folder : CodepointFolder := MkFolder (fun cp _ => (1, [lower cp])).

Lemma lower_written : fold_written (Some lower_folder).
Proof. by intros f cp [= <-]. Qed.
