(* ===== verification/Wildcard.v ===== *)
(** Wildcard patterns: [util/automaton/WildcardCompiler.cpp].

    [compileWildcard] turns a pattern with [*], [?] and escapes into a byte automaton.  A pattern is a sequence of tokens ([tokens]); the main theorem
    says that for every pattern there are one outcome and one price: the automaton of the tokens' language, or the
    exception that belongs to the first thing wrong in the pattern, and that a budget below the price gives the exception for complexity. *)

From S2P Require Import Prelude Metered Languages CaseAlternates Automata Utf8 ByteDfa Patterns.

Import Automaton.

Module Wildcard.

Definition error (message : string) (pattern : list Z) : string := message +:+ ": " +:+ pattern_text pattern.

Definition invalid : string := "invalid UTF-8 in wildcard pattern".
Definition trailing : string := "trailing escape in wildcard pattern".

Definition concatenateBalanced (parts : list t) (first last : Z) : SM Budget t :=
  balanced (S (length parts)) undef concatenate parts first last.

(** One iteration of the loop over the pattern. *)
Definition part (casefold : Z -> Z) (pattern : list Z) (folder : option CodepointFolder) (caseInsensitive : bool) (position : Z) : SM Budget (t * Z) :=
  '(codepoint, position) ← decode (error invalid pattern) pattern position;
  if decide (codepoint = 42) then p ← anyStringBytes; mret (p, position)
  else if decide (codepoint = 63) then p ← anyChar; mret (p, position)
  else if decide (codepoint = 92) then
    if decide (position = zlen pattern) then throw (error trailing pattern) else
    '(codepoint, position) ← decode (error invalid pattern) pattern position;
    p ← literal casefold codepoint folder caseInsensitive;
    mret (p, position)
  else p ← literal casefold codepoint folder caseInsensitive; mret (p, position).

Definition collect (casefold : Z -> Z) (pattern : list Z) (folder : option CodepointFolder) (caseInsensitive : bool)
    (st : list t * Z) : SM Budget ((list t * Z) + list t)%type :=
  let '(parts, position) := st in
  if decide (position < zlen pattern) then
    '(p, position) ← part casefold pattern folder caseInsensitive position;
    mret (inl (parts ++ [p], position))
  else mret (inr parts).

(** What the [try] block does. *)
Definition translate (casefold : Z -> Z) (pattern : list Z) (folder : option CodepointFolder) (caseInsensitive : bool) : SM Budget ByteDfa :=
  parts ← whileS (S (length pattern)) (collect casefold pattern folder caseInsensitive) ([], 0);
  result ← (if decide (parts = []) then epsilon else concatenateBalanced parts 0 (zlen parts));
  toByteDfa result.

Definition compileWildcard (casefold : Z -> Z) (pattern : list Z) (folder : option CodepointFolder) (caseInsensitive : bool) : SM Budget ByteDfa :=
  if decide (1000 < zlen pattern) then throw (error complex pattern) else
  fun b => match translate casefold pattern folder caseInsensitive b with
           | (Throw e, b) => (Throw (if decide (e = complex) then error complex pattern else e), b)
           | r => r
           end.
End Wildcard.

(** * The language of a pattern *)

Inductive token := Star | Any | Lit (cp : Z).

(** The first token of a text. *)
Inductive tokenised : list Z -> token -> list Z -> Prop :=
  | tokenised_star rest : tokenised (42 :: rest) Star rest
  | tokenised_any rest : tokenised (63 :: rest) Any rest
  | tokenised_escape text cp rest : starts text cp rest -> tokenised (92 :: text) (Lit cp) rest
  | tokenised_literal text cp rest : starts text cp rest -> cp <> 42 -> cp <> 63 -> cp <> 92 -> tokenised text (Lit cp) rest.

Inductive tokens : list Z -> list token -> Prop :=
  | tokens_nil : tokens [] []
  | tokens_cons text tok rest toks : tokenised text tok rest -> tokens rest toks -> tokens text (tok :: toks).

Section Wildcards.
Context (casefold : Z -> Z).
Context (fold_scalar : forall cp, is_scalar cp -> is_scalar (casefold cp)).
Context (fold_idemp : forall cp, is_scalar cp -> casefold (casefold cp) = casefold cp).
Context (folder : option CodepointFolder) (ci : bool) (Hwritten : fold_written folder).

Definition token_ok (tok : token) : Prop := match tok with Lit cp => fold_valid folder cp | _ => True end.

(** [*] stands for any bytes, [?] for one encoded character. *)
Definition token_lang (tok : token) : language :=
  match tok with
  | Star => is_bytes
  | Any => fun w => exists cp, is_scalar cp /\ w = utf8 cp
  | Lit cp => literal_lang mixed casefold folder ci cp
  end.

Definition wildcard_lang (toks : list token) : language := lcats (token_lang <$> toks).

(** The first thing wrong in a pattern, and the exception it gives. *)
Inductive wrong (pattern : list Z) : list Z -> string -> Prop :=
  | wrong_utf8 text : text <> [] -> no_start text -> wrong pattern text (Wildcard.error Wildcard.invalid pattern)
  | wrong_escaped text : text <> [] -> no_start text -> wrong pattern (92 :: text) (Wildcard.error Wildcard.invalid pattern)
  | wrong_trailing : wrong pattern [92] (Wildcard.error Wildcard.trailing pattern)
  | wrong_fold text tok rest : tokenised text tok rest -> ~ token_ok tok -> wrong pattern text fold_error
  | wrong_later text tok rest e : tokenised text tok rest -> token_ok tok -> wrong pattern rest e -> wrong pattern text e.

(** ** One token *)

Lemma any_bytes : lstar (mixed 0 255 true) ≡ is_bytes.
Proof.
  intros w. split.
  - intros (ws & Hws & ->). unfold is_bytes. induction Hws as [|u ws (x & -> & Hx) Hws IH]; [constructor|]. simpl. by constructor.
  - intros Hw. exists ((fun x => [x]) <$> w). split.
    + apply Forall_fmap. eapply Forall_impl; [exact Hw|]. intros x Hx. by exists x.
    + induction w as [|x w IH]; [done|]. apply Forall_cons in Hw as [_ Hw]. rewrite fmap_cons. cbn [concat app]. f_equal. by apply IH.
Qed.

Section Pattern.
Context (pattern : list Z) (Hbytes : is_bytes pattern).

Lemma literal_part d cp pos text rest : 0 <= d -> remains pattern pos rest -> tokenised text (Lit cp) rest ->
  spends d (p ← literal casefold cp folder ci; mret (p, pos)) (fun e => wrong pattern text e)
    (fun r d' => exists tok rest, tokenised text tok rest /\ token_ok tok /\ remains pattern r.2 rest /\ recognises mixed d' r.1 (token_lang tok)).
Proof.
  intros Hd Hrem Htok. eapply spends_bind.
  - eapply spends_mono; [apply (literal_spec mixed casefold fold_scalar fold_idemp d cp folder ci Hd Hwritten)| |intros a d' _ H; exact H].
    intros m [Hf ->]. by eapply wrong_fold.
  - intros p d1 _ [Hok Hp]. apply spends_ret. by exists (Lit cp), rest.
Qed.

Lemma part_spec d pos text : 0 <= d -> remains pattern pos text -> text <> [] ->
  spends d (Wildcard.part casefold pattern folder ci pos) (fun e => wrong pattern text e)
    (fun r d' => exists tok rest, tokenised text tok rest /\ token_ok tok /\ remains pattern r.2 rest /\ recognises mixed d' r.1 (token_lang tok)).
Proof.
  intros Hd Hrem Hne. unfold Wildcard.part. eapply spends_bind.
  { eapply spends_mono; [by apply (decode_text_spec d _ pattern Hbytes pos text)| |intros a d' _ H; exact H]. intros m [-> Hno]. by apply wrong_utf8. }
  intros [cp pos1] d1 Hd1 (-> & rest & Hst & Hrem1). cbn [fst snd] in *.
  assert (forall c, cp = c -> c < 0x80 -> text = c :: rest) as Hch.
  { intros c -> Hc. destruct Hst as [Hs ->]. unfold utf8. by rewrite decide_True by done. }
  case_decide as H42; [|case_decide as H63; [|case_decide as H92]].
  - rewrite (Hch 42 H42 ltac:(lia)). eapply spends_bind; [by apply (anyStringBytes_spec mixed)|]. intros p d2 Hd2 Hp. apply spends_ret.
    exists Star, rest. split_and!; [constructor|done|done|]. simpl. by rewrite <- any_bytes.
  - rewrite (Hch 63 H63 ltac:(lia)). eapply spends_bind; [by apply (anyChar_spec mixed)|]. intros p d2 Hd2 Hp. apply spends_ret.
    exists Any, rest. split_and!; [constructor|done|done|]. simpl. by rewrite <- any_scalar.
  - rewrite (Hch 92 H92 ltac:(lia)). pose proof (remains_len _ _ _ Hrem1) as [Hlen _]. case_decide as Hend.
    + assert (zlen rest = 0) as ->%zlen_0_nil by lia. apply spends_throw. constructor.
    + assert (rest <> []) as Hne1 by (intros ->; rewrite zlen_nil in Hlen; lia). eapply spends_bind.
      { eapply spends_mono; [by apply (decode_text_spec d _ pattern Hbytes pos1 rest)| |intros a d' _ H; exact H]. intros m [-> Hno]. by apply wrong_escaped. }
      intros [cp2 pos2] d2 _ (-> & rest2 & Hst2 & Hrem2). cbn [fst snd] in *. eapply literal_part; [done|exact Hrem2|by constructor].
  - eapply literal_part; [done|exact Hrem1|by constructor].
Qed.
(** ** The whole pattern *)

Lemma tokenised_shorter text tok rest : tokenised text tok rest -> (length rest < length text)%nat.
Proof. intros H. destruct H as [| |text cp rest Hs|text cp rest Hs]; try apply starts_shorter in Hs; simpl; lia. Qed.

(** The tokens before a position, with what follows from those after it. *)
Definition consumed (toks : list token) (text : list Z) : Prop :=
  (forall toks', tokens text toks' -> tokens pattern (toks ++ toks')) /\ (forall e, wrong pattern text e -> wrong pattern pattern e).

Lemma consumed_step toks text tok rest : consumed toks text -> tokenised text tok rest -> token_ok tok -> consumed (toks ++ [tok]) rest.
Proof.
  intros [H1 H2] Ht Hok. split.
  - intros toks' Hr. rewrite <- app_assoc. apply H1. by econstructor.
  - intros e He. apply H2. by eapply wrong_later.
Qed.

Lemma collect_loop d : 0 <= d ->
  spends d (whileS (S (length pattern)) (Wildcard.collect casefold pattern folder ci) ([], 0)) (fun e => wrong pattern pattern e)
    (fun parts d' => exists toks, tokens pattern toks /\ Forall token_ok toks /\ Forall2 (recognises mixed d') parts (token_lang <$> toks)).
Proof.
  intros Hd. apply (spends_while (fun st d' => 0 <= d' /\ exists text toks, remains pattern st.2 text /\ consumed toks text /\ Forall token_ok toks
      /\ Forall2 (recognises mixed d') st.1 (token_lang <$> toks)) (fun st => Z.to_nat (zlen pattern - st.2))).
  - intros [parts pos] d' (Hd' & text & toks & Hrem & Hcons & Hok & HR). cbn [fst snd] in *. pose proof (remains_len _ _ _ Hrem) as [Hlen Hpos].
    unfold Wildcard.collect. case_decide as Hmore.
    + assert (text <> []) as Hne by (intros ->; rewrite zlen_nil in Hlen; lia). eapply spends_bind.
      { eapply spends_mono; [by apply part_spec| |intros a d2 _ H; exact H]. intros m Hm. by apply Hcons. }
      intros [p pos1] d2 Hd2 (tok & rest & Ht & Htok & Hrem1 & Hp). cbn [fst snd] in *. apply spends_ret. cbn [fst snd].
      pose proof (remains_len _ _ _ Hrem1) as [Hlen1 _]. pose proof (tokenised_shorter _ _ _ Ht). split; [|unfold zlen in *; lia].
      split; [lia|]. exists rest, (toks ++ [tok]). split_and!; [done|by eapply consumed_step|apply Forall_app; split; [done|by apply Forall_singleton]|].
      rewrite fmap_app. apply Forall2_app; [|by constructor]. eapply Forall2_impl; [exact HR|]. intros a L. by apply recognises_mono.
    + apply spends_ret. exists toks. split_and!; [|done..]. assert (zlen text = 0) as ->%zlen_0_nil by (pose proof (zlen_nonneg text); lia).
      rewrite <- (app_nil_r toks). apply Hcons. constructor.
  - cbn [fst snd]. split; [done|]. exists pattern, []. split_and!; [apply remains_start|by split|constructor|constructor].
  - cbn [snd]. rewrite Z.sub_0_r. unfold zlen. rewrite Nat2Z.id. pose proof (Nat.pow_gt_lin_r 2 (length pattern) ltac:(lia)). simpl. lia.
Qed.

Lemma translate_spec : spends 0 (Wildcard.translate casefold pattern folder ci) (fun e => wrong pattern pattern e)
  (fun r _ => exists toks, tokens pattern toks /\ Forall token_ok toks /\ compiled r (wildcard_lang toks)).
Proof.
  eapply spends_bind; [by apply collect_loop|]. intros parts d1 Hd1 (toks & Htok & Hok & HR).
  apply (spends_bind _ _ _ _ (fun a d' => recognises mixed d' a (wildcard_lang toks))).
  - case_decide as Hnil.
    + subst parts. apply Forall2_nil_inv_l in HR. apply fmap_nil_inv in HR as ->. by apply epsilon_spec.
    + apply (balanced_all mixed lcat leps); try done.
      * intros L K M. apply lcat_assoc.
      * intros L. apply lcat_eps_l.
      * intros L. apply lcat_eps_r.
      * intros. by apply concatenate_spec.
  - intros a d2 Hd2 Ha. eapply spends_post; [by apply toByteDfa_spec|]. intros r d3 _ Hr. by exists toks.
Qed.

Lemma wrong_not_complex text e : wrong pattern text e -> e <> complex.
Proof. induction 1; done. Qed.
End Pattern.

(** A pattern has at most one sequence of tokens. *)
Lemma tokenised_unique text tok tok' rest rest' : tokenised text tok rest -> tokenised text tok' rest' -> tok = tok' /\ rest = rest'.
Proof.
  intros H H'. assert (forall c t r cp, starts (c :: t) cp r -> 0 <= c < 0x80 -> cp = c /\ r = t) as Hone.
  { intros c t r cp Hs Hc. destruct (starts_unique _ _ _ _ _ Hs (starts_1 c t Hc)) as [-> ->]. done. }
  inversion H as [| |text1 cp1 r1 Hs1|text1 cp1 r1 Hs1 N1 N2 N3]; subst; inversion H' as [| |text2 cp2 r2 Hs2|text2 cp2 r2 Hs2 M1 M2 M3]; subst; try done.
  all: try (apply Hone in Hs2; [lia|lia]). all: try (apply Hone in Hs1; [lia|lia]).
  all: by destruct (starts_unique _ _ _ _ _ Hs1 Hs2) as [-> ->].
Qed.

Lemma tokens_unique text toks : tokens text toks -> forall toks', tokens text toks' -> toks = toks'.
Proof.
  induction 1 as [|text tok rest toks Ht Hr IH]; intros toks' H'; inversion H' as [|text2 tok2 rest2 toks2 Ht2 Hr2]; subst; [done| | |].
  - apply tokenised_shorter in Ht2. simpl in Ht2. lia.
  - apply tokenised_shorter in Ht. simpl in Ht. lia.
  - destruct (tokenised_unique _ _ _ _ _ Ht Ht2) as [-> ->]. f_equal. by apply IH.
Qed.

(** C6: for every pattern there are one price and one outcome of [compileWildcard], whatever the budget that covers the price: an automaton that
    matches exactly the strings of the language of the pattern's tokens, or the exception for the first thing wrong in
    the pattern (invalid UTF-8, an escape at the end, or a failed folding); a pattern longer than 1000 bytes, or a budget below the price, gives the
    exception for complexity, and nothing is undefined. *)
Theorem compileWildcard_correct pattern : is_bytes pattern ->
  exists o k, 0 <= k
  /\ (forall b, 0 <= b < int32_limit -> k <= b -> Wildcard.compileWildcard casefold pattern folder ci (MkBudget b) = (o, MkBudget (b - k)))
  /\ (forall b, 0 <= b < int32_limit -> b < k ->
        exists b', Wildcard.compileWildcard casefold pattern folder ci (MkBudget b) = (Throw (Wildcard.error complex pattern), b'))
  /\ (k < int32_limit -> match o with
      | Ret r => zlen pattern <= 1000 /\ exists toks, tokens pattern toks /\ Forall token_ok toks
          /\ forall w, is_bytes w -> exists m, View.matches (makeView r) w = Some m /\ (m = true <-> wildcard_lang toks w)
      | Throw e => 1000 < zlen pattern /\ e = Wildcard.error complex pattern \/ zlen pattern <= 1000 /\ wrong pattern pattern e
      | Undef => False
      end).
Proof.
  intros Hbytes. unfold Wildcard.compileWildcard. case_decide as Hlong.
  { exists (Throw (Wildcard.error complex pattern)), 0. split_and!; [lia|intros b Hb _; by rewrite Z.sub_0_r|lia|auto]. }
  destruct (spends_run _ _ _ (translate_spec pattern Hbytes)) as (o & k & Hk & Hrun & Hless & Ho).
  exists (match o with Throw e => Throw (if decide (e = complex) then Wildcard.error complex pattern else e) | _ => o end), k. split_and!; [done| | |].
  - intros b Hb Hkb. rewrite Hrun by done. by destruct o.
  - intros b Hb Hkb. destruct (Hless b Hb Hkb) as [b' ->]. exists b'. by rewrite decide_True.
  - intros Hkl. specialize (Ho Hkl). destruct o as [r|e|]; [|rewrite decide_False by (by eapply wrong_not_complex); right; split; [lia|done]|done].
    destruct Ho as (toks & Ht & Hok & Hc). split; [lia|]. exists toks. split_and!; [done|done|]. intros w Hw. by apply matches_compiled.
Qed.
End Wildcards.

(** The pattern [a*]. *)
Definition wildcard_sample : list Z := [97; 42].

Lemma compileWildcard_correct_witness : exists o k, 0 <= k
  /\ (forall b, 0 <= b < int32_limit -> k <= b -> Wildcard.compileWildcard lower wildcard_sample (Some lower_folder) true (MkBudget b) = (o, MkBudget (b - k)))
  /\ (forall b, 0 <= b < int32_limit -> b < k ->
        exists b', Wildcard.compileWildcard lower wildcard_sample (Some lower_folder) true (MkBudget b) = (Throw (Wildcard.error complex wildcard_sample), b'))
  /\ (k < int32_limit -> match o with
      | Ret r => zlen wildcard_sample <= 1000 /\ exists toks, tokens wildcard_sample toks /\ Forall (token_ok (Some lower_folder)) toks
          /\ forall w, is_bytes w -> exists m, View.matches (makeView r) w = Some m /\ (m = true <-> wildcard_lang lower (Some lower_folder) true toks w)
      | Throw e => 1000 < zlen wildcard_sample /\ e = Wildcard.error complex wildcard_sample \/ zlen wildcard_sample <= 1000 /\ wrong (Some lower_folder) wildcard_sample wildcard_sample e
      | Undef => False
      end).
Proof. apply (compileWildcard_correct lower lower_scalar lower_idemp (Some lower_folder) true lower_written wildcard_sample). by repeat constructor. Defined.

Example wildcard_run : match Wildcard.compileWildcard id wildcard_sample None false (MkBudget 100000) with
  | (Ret r, _) => View.matches (makeView r) [97; 98] = Some true /\ View.matches (makeView r) [98; 97] = Some false
  | _ => False
  end.
Proof. vm_compute. done. Qed.

(** An escape at the end is an exception. *)
Example wildcard_trailing : fst (Wildcard.compileWildcard id [97; 92] None false (MkBudget 100000)) = Throw (Wildcard.error Wildcard.trailing [97; 92]).
Proof. vm_compute. reflexivity. Qed.
