(* ===== verification/RegExp.v ===== *)
(** Regular expressions: [util/automaton/RegExpParser.cpp].

    The parser reads a pattern by recursive descent and builds its automaton as it goes.  The syntax is given
    independently, as relations between texts and syntax trees ([union_of] and those it uses), and a language for each tree ([re_lang]).  The parser is shown to
    accept exactly the patterns that have a tree, and the automaton of an accepted one to have the tree's language. *)

From stdpp Require Import pretty.
From S2P Require Import Prelude Metered Languages CaseAlternates Automata Utf8 ByteDfa Patterns.

Import Automaton.

(** * The parser *)

Definition mergeRange (out : list (Z * Z)) (r : Z * Z) : list (Z * Z) :=
  match last out with
  | Some (lo, hi) => if decide (r.1 <= hi + 1) then removelast out ++ [(lo, Z.max hi r.2)] else out ++ [r]
  | None => [r]
  end.

Definition pair_le (a b : Z * Z) : Prop := a.1 < b.1 \/ a.1 = b.1 /\ a.2 <= b.2.
#[export] Instance pair_le_dec : RelDecision pair_le.
Proof. intros a b. unfold pair_le. apply _. Defined.

Definition mergeRanges (ranges : list (Z * Z)) : list (Z * Z) := foldl mergeRange [] (merge_sort pair_le ranges).

(** The loop over the ranges of a negated class. *)
Fixpoint complement (ranges : list (Z * Z)) (current : Z) : list (Z * Z) :=
  match ranges with
  | [] => if decide (current <= 0x10ffff) then [(current, 0x10ffff)] else []
  | (lo, hi) :: ranges =>
      (if decide (current < lo) then [(current, lo - 1)] else []) ++
      (if decide (hi = 0x10ffff) then [] else complement ranges (hi + 1))
  end.

Module Parser.
Section Parser.
Context (casefold : Z -> Z) (pattern : list Z) (folder : option CodepointFolder) (caseInsensitive : bool).

Definition error (message : string) (position : Z) : string :=
  message +:+ " at byte " +:+ pretty position +:+ ": " +:+ pattern_text pattern.

(** Bounds the loops over the pattern. *)
Definition rounds : nat := S (length pattern).

Definition next (position : Z) : SM Budget (Z * Z) := decode (error "invalid UTF-8" position) pattern position.

Definition peek (position : Z) : SM Budget Z :=
  if decide (position = zlen pattern) then mret (-1) else '(cp, _) ← next position; mret cp.

Definition fold (parts : list t) (first last : Z) (unionParts : bool) : SM Budget t :=
  balanced (S (length parts)) (if unionParts then empty else epsilon) (if unionParts then unite else concatenate) parts first last.

Definition literal (codepoint : Z) : SM Budget t := Automaton.literal casefold codepoint folder caseInsensitive.

Definition digitStep (start : Z) (st : Z * Z) : SM Budget ((Z * Z) + (Z * Z))%type :=
  let '(value, position) := st in
  if decide (position < zlen pattern) then
    c ← need pattern.[position];
    if decide (48 <= c <= 57) then
      let value := value * 10 + c - 48 in
      if decide (1000 < value) then throw (error "repeat bound exceeds 1000" start) else mret (inl (value, position + 1))
    else mret (inr st)
  else mret (inr st).

Definition number (position : Z) : SM Budget (Z * Z) :=
  let start := position in
  '(value, position) ← whileS rounds (digitStep start) (0, position);
  if decide (position = start) then throw (error "expected repeat bound" position) else mret (value, position).

(** The bounds in braces; an absent upper bound is -1. *)
Definition bounds (brace position : Z) : SM Budget (Z * Z * Z) :=
  '(min, position) ← number position;
  c ← peek position;
  '(max, position) ← (
    if decide (c = 44) then
      '(_, position) ← next position;
      c ← peek position;
      if decide (c = 125) then mret (-1, position) else number position
    else mret (min, position));
  c ← peek position;
  if decide (c <> 125) then throw (error "unterminated repeat" brace) else
  '(_, position) ← next position;
  if decide (max <> -1 /\ max < min) then throw (error "repeat upper bound is smaller than lower bound" brace) else
  mret (min, max, position).

Definition repetitionStep (st : t * Z) : SM Budget ((t * Z) + (t * Z))%type :=
  let '(a, position) := st in
  cp ← peek position;
  if decide (cp = 63) then '(_, position) ← next position; a ← optional a; mret (inl (a, position)) else
  if decide (cp = 42) then '(_, position) ← next position; a ← star a; mret (inl (a, position)) else
  if decide (cp = 43) then '(_, position) ← next position; s ← star a; a ← concatenate a s; mret (inl (a, position)) else
  if decide (cp <> 123) then mret (inr (a, position)) else
  let brace := position in
  '(_, position) ← next position;
  '(min, max, position) ← bounds brace position;
  a ← (if decide (max = -1) then r ← repeatRange a min min; s ← star a; concatenate r s else repeatRange a min max);
  mret (inl (a, position)).

Definition repetition (a : t) (position : Z) : SM Budget (t * Z) := whileS rounds repetitionStep (a, position).

(** The escape at an end of a range in a class. *)
Definition escaped (cp position : Z) : SM Budget (Z * Z) :=
  if decide (cp = 92) then
    if decide (position = zlen pattern) then throw (error "trailing escape" (position - 1)) else next position
  else mret (cp, position).

(** The upper end of a range, if a dash follows that is not the last character of the class. *)
Definition rangeEnd (opening lower position : Z) : SM Budget (Z * Z) :=
  c ← peek position;
  dash ← (if decide (c = 45 /\ position + 1 < zlen pattern) then x ← need pattern.[position + 1]; mret (bool_decide (x <> 93)) else mret false);
  if dash : bool then
    '(_, position) ← next position;
    if decide (position = zlen pattern) then throw (error "unterminated character class" opening) else
    '(upper, position) ← next position;
    '(upper, position) ← escaped upper position;
    if decide (upper < lower) then throw (error "character class range is backwards" position) else mret (upper, position)
  else mret (lower, position).

Definition classStep (opening : Z) (st : list (Z * Z) * Z * bool) : SM Budget ((list (Z * Z) * Z * bool) + (list (Z * Z) * Z))%type :=
  let '(ranges, position, first) := st in
  if decide (position = zlen pattern) then throw (error "unterminated character class" opening) else
  '(lower, position) ← next position;
  if bool_decide (lower = 93) && negb first then mret (inr (ranges, position)) else
  '(lower, position) ← escaped lower position;
  '(upper, position) ← rangeEnd opening lower position;
  mret (inl (ranges ++ [(lower, upper)], position, false)).

Definition classParts (ranges : list (Z * Z)) : SM Budget (list t) :=
  foldS (fun parts r =>
    let '(lo, hi) := r in
    parts ← (if decide (lo <= 0xd7ff) then p ← charRange lo (Z.min hi 0xd7ff); mret (parts ++ [p]) else mret parts);
    if decide (0xe000 <= hi) then p ← charRange (Z.max lo 0xe000) hi; mret (parts ++ [p]) else mret parts) [] ranges.

(** The class from its first item, after [^] if it is negated. *)
Definition classBody (opening : Z) (negated : bool) (position : Z) : SM Budget (t * Z) :=
  c ← peek position;
  (if decide (c = 93) then
     '(_, p) ← next position;
     if decide (p = zlen pattern) then throw (error "empty character class" opening) else mret ()
   else mret ());;
  '(ranges, position) ← whileS rounds (classStep opening) ([], position, true);
  if decide (ranges = []) then throw (error "empty character class" opening) else
  let ranges := mergeRanges ranges in
  ranges ← (if caseInsensitive then r ← appendCaseAlternates casefold ranges; mret (mergeRanges r) else mret ranges);
  let ranges := if negated then complement ranges 0 else ranges in
  parts ← classParts ranges;
  a ← fold parts 0 (zlen parts) true;
  mret (a, position).

Definition characterClass (position : Z) : SM Budget (t * Z) :=
  let opening := position in
  '(_, position) ← next position;
  c ← peek position;
  let negated := bool_decide (c = 94) in
  '(_, position) ← (if negated then next position else mret (c, position));
  classBody opening negated position.

Definition atom (unionExpr : Z -> SM Budget (t * Z)) (position : Z) : SM Budget (t * Z) :=
  let start := position in
  '(cp, position) ← next position;
  if decide (cp = 40) then
    '(a, position) ← unionExpr position;
    c ← peek position;
    if decide (c <> 41) then throw (error "unbalanced '('" start) else
    '(_, position) ← next position;
    mret (a, position)
  else if decide (cp = 91) then characterClass start
  else if decide (cp = 46) then a ← anyChar; mret (a, position)
  else if decide (cp = 92) then
    if decide (position = zlen pattern) then throw (error "trailing escape" start) else
    '(cp, position) ← next position;
    a ← literal cp;
    mret (a, position)
  else a ← literal cp; mret (a, position).

Definition concatStep (unionExpr : Z -> SM Budget (t * Z)) (st : list t * Z) : SM Budget ((list t * Z) + (list t * Z))%type :=
  let '(parts, position) := st in
  if decide (position < zlen pattern) then
    cp ← peek position;
    if decide (cp = 41 \/ cp = 124) then mret (inr st) else
    if decide (cp = 125) then throw (error "unescaped '}' must be escaped" position) else
    if decide (cp = 42 \/ cp = 43 \/ cp = 63 \/ cp = 123) then throw (error "repetition has no preceding atom" position) else
    '(a, position) ← atom unionExpr position;
    '(a, position) ← repetition a position;
    mret (inl (parts ++ [a], position))
  else mret (inr st).

Definition concat (unionExpr : Z -> SM Budget (t * Z)) (position : Z) : SM Budget (t * Z) :=
  '(parts, position) ← whileS rounds (concatStep unionExpr) ([], position);
  a ← fold parts 0 (zlen parts) false;
  mret (a, position).

Definition unionStep (unionExpr : Z -> SM Budget (t * Z)) (st : list t * Z) : SM Budget ((list t * Z) + (list t * Z))%type :=
  let '(parts, position) := st in
  c ← peek position;
  if decide (c = 124) then
    '(_, position) ← next position;
    '(a, position) ← concat unionExpr position;
    mret (inl (parts ++ [a], position))
  else mret (inr st).

Fixpoint unionExpr (fuel : nat) (position : Z) : SM Budget (t * Z) :=
  match fuel with
  | O => undef
  | S fuel =>
      '(a, position) ← concat (unionExpr fuel) position;
      '(parts, position) ← whileS rounds (unionStep (unionExpr fuel)) ([a], position);
      a ← (if decide (zlen parts = 1) then need parts.[0] else fold parts 0 (zlen parts) true);
      mret (a, position)
  end.

Definition parse : SM Budget t :=
  '(result, position) ← unionExpr rounds 0;
  if decide (position <> zlen pattern) then throw (error "unbalanced ')'" position) else mret result.

Definition compileRegex : SM Budget ByteDfa :=
  if decide (1000 < zlen pattern) then throw (error complex 1000) else
  fun b => match (a ← parse; toByteDfa a) b with
           | (Throw e, b) => (Throw (if decide (e = complex) then error complex 0 else e), b)
           | r => r
           end.
End Parser.
End Parser.

(** ** Sets of ranges *)

Definition proper_ranges (rs : list (Z * Z)) : Prop := Forall (fun r => r.1 <= r.2) rs.
Definition gapped (rs : list (Z * Z)) : Prop := StronglySorted (fun a b => a.2 + 1 < b.1) rs.

Lemma covers_snoc rs r x : covers (rs ++ [r]) x <-> covers rs x \/ r.1 <= x <= r.2.
Proof.
  unfold covers. split.
  - intros (lo & hi & [H|H]%elem_of_app & Hx); [left; by exists lo, hi|]. apply list_elem_of_singleton in H. subst r. by right.
  - destruct r as [l h]. intros [(lo & hi & H & Hx)|Hx]; [exists lo, hi|exists l, h]; (split; [|done]); apply elem_of_app; [by left|right; left].
Qed.

Lemma covers_cons r rs x : covers (r :: rs) x <-> r.1 <= x <= r.2 \/ covers rs x.
Proof.
  unfold covers. split.
  - intros (lo & hi & [<-|H]%elem_of_cons & Hx); [by left|right; by exists lo, hi].
  - destruct r as [l h]. intros [Hx|(lo & hi & H & Hx)]; [exists l, h; split; [left|done]|exists lo, hi; split; [by right|done]].
Qed.

Lemma covers_nil x : ~ covers [] x.
Proof. by intros (lo & hi & ?%not_elem_of_nil & _). Qed.

Lemma gapped_last rs r k : gapped (rs ++ [r]) -> gapped (rs ++ [(r.1, k)]).
Proof.
  unfold gapped. induction rs as [|y rs IH]; simpl; intros H; [repeat constructor|]. apply StronglySorted_inv in H as [H H0]. constructor; [by apply IH|].
  apply Forall_app in H0 as [H0 H1]. apply Forall_cons in H1 as [H1 _]. apply Forall_app. split; [done|]. by apply Forall_singleton.
Qed.

Lemma gapped_snoc rs r0 r : gapped (rs ++ [r0]) -> proper_ranges (rs ++ [r0]) -> r0.2 + 1 < r.1 -> gapped ((rs ++ [r0]) ++ [r]).
Proof.
  unfold gapped. intros Hg Hp Hr. apply StronglySorted_app_2; [|done|repeat constructor]. intros a b Ha ->%list_elem_of_singleton.
  apply elem_of_app in Ha as [Ha| ->%list_elem_of_singleton]; [|done].
  apply StronglySorted_app in Hg as (Hg & _ & _). specialize (Hg a r0 Ha ltac:(left)). apply Forall_app in Hp as [_ Hp]. apply Forall_cons in Hp as [Hp _]. simpl in *. lia.
Qed.

Lemma mergeRange_spec out r : gapped out -> proper_ranges out -> r.1 <= r.2 -> (forall o, last out = Some o -> o.1 <= r.1) ->
  let out' := mergeRange out r in gapped out' /\ proper_ranges out' /\ (forall x, covers out' x <-> covers out x \/ r.1 <= x <= r.2)
    /\ forall o, last out' = Some o -> o.1 <= r.1.
Proof.
  intros Hg Hp Hr Hlast. cbv zeta. unfold mergeRange. destruct out as [|y out _] using rev_ind.
  - simpl. split_and!; [repeat constructor|by apply Forall_singleton| |by intros o [= <-]]. intros x. change [r] with ([] ++ [r]). by rewrite covers_snoc.
  - rewrite last_snoc. destruct y as [lo hi]. specialize (Hlast (lo, hi)). rewrite last_snoc in Hlast. specialize (Hlast eq_refl). simpl in Hlast.
    pose proof Hp as [Hp1 Hp2]%Forall_app. apply Forall_cons in Hp2 as [Hp2 _]. simpl in Hp2. case_decide as Hm.
    + rewrite removelast_last. split_and!; [by apply (gapped_last out (lo, hi))|apply Forall_app; split; [done|]; apply Forall_singleton; simpl; lia| |].
      * intros x. rewrite !covers_snoc. simpl. split; [intros [?|?]|intros [[?|?]|?]]; try tauto; try (right; lia).
        destruct (decide (x <= hi)); [left; right; lia|right; lia].
      * intros o. rewrite last_snoc. intros [= <-]. done.
    + split_and!; [apply gapped_snoc; [done|done|simpl; lia]|apply Forall_app; split; [done|by apply Forall_singleton]|intros x; by rewrite covers_snoc|].
      intros o. rewrite last_snoc. by intros [= <-].
Qed.

(** Merged ranges have gaps between them, and cover the same code points. *)
Lemma mergeRanges_spec ranges : proper_ranges ranges ->
  gapped (mergeRanges ranges) /\ proper_ranges (mergeRanges ranges) /\ forall x, covers (mergeRanges ranges) x <-> covers ranges x.
Proof.
  intros Hp. unfold mergeRanges. pose proof (merge_sort_Permutation pair_le ranges) as HP.
  assert (forall x, covers (merge_sort pair_le ranges) x <-> covers ranges x) as Hcov by (intros x; unfold covers; by setoid_rewrite HP).
  assert (StronglySorted pair_le (merge_sort pair_le ranges)) as Hs.
  { apply StronglySorted_merge_sort. { intros a b c. unfold pair_le. lia. } intros a b. unfold pair_le. lia. }
  assert (proper_ranges (merge_sort pair_le ranges)) as Hp' by (unfold proper_ranges; by rewrite HP). setoid_rewrite <- Hcov. clear Hcov HP Hp.
  revert Hs Hp'. generalize (merge_sort pair_le ranges) as l. intros l Hs Hp.
  cut (forall out, gapped out -> proper_ranges out -> (forall o r, last out = Some o -> r ∈ l -> o.1 <= r.1) ->
    gapped (foldl mergeRange out l) /\ proper_ranges (foldl mergeRange out l) /\ forall x, covers (foldl mergeRange out l) x <-> covers out x \/ covers l x).
  { intros H. destruct (H []) as (H1 & H2 & H3); [constructor|apply List.Forall_nil|done|]. split_and!; [done|done|]. intros x. rewrite H3.
    pose proof (covers_nil x). tauto. }
  induction Hs as [|r l Hs IH Hall]; intros out Hg Ho Hle; simpl; [split_and!; [done|done|]; intros x; pose proof (covers_nil x); tauto|].
  apply Forall_cons in Hp as [Hr Hp]. destruct (mergeRange_spec out r Hg Ho Hr) as (H1 & H2 & H3 & H4); [intros o Hlo; apply (Hle o r Hlo); left|].
  destruct (IH Hp (mergeRange out r) H1 H2) as (G1 & G2 & G3).
  { intros o r' Hlo Hr'. apply H4 in Hlo. rewrite Forall_forall in Hall. pose proof (Hall r' Hr') as Hrr. unfold pair_le in Hrr. lia. }
  split_and!; [done|done|]. intros x. rewrite G3, H3, covers_cons. tauto.
Qed.

(** The complement of merged ranges. *)
Lemma complement_spec rs : forall current, gapped rs -> proper_ranges rs -> Forall (fun r => current <= r.1 /\ r.2 <= 0x10ffff) rs -> current <= 0x110000 ->
  proper_ranges (complement rs current) /\ forall x, covers (complement rs current) x <-> current <= x <= 0x10ffff /\ ~ covers rs x.
Proof.
  induction rs as [|[lo hi] rs IH]; intros current Hg Hp Hb Hc; simpl.
  - case_decide; (split; [first [apply List.Forall_nil|apply Forall_singleton; simpl; lia]|]); intros x; pose proof (covers_nil x).
    + rewrite covers_cons. simpl. tauto.
    + split; [done|lia].
  - apply StronglySorted_inv in Hg as [Hg Hg0]. apply Forall_cons in Hp as [Hp0 Hp], Hb as [Hb0 Hb]. simpl in Hp0, Hb0. rewrite Forall_forall in Hg0.
    assert (proper_ranges (if decide (hi = 0x10ffff) then [] else complement rs (hi + 1)) /\
      forall x, covers (if decide (hi = 0x10ffff) then [] else complement rs (hi + 1)) x <-> hi + 1 <= x <= 0x10ffff /\ ~ covers rs x) as [H1 H2].
    { case_decide as Hh; [split; [apply List.Forall_nil|]; intros x; split; [intros H; by destruct (covers_nil x)|lia]|].
      apply IH; [done|done| |lia]. apply Forall_forall. intros r Hr. pose proof (Hg0 r Hr) as Hgr. simpl in Hgr.
      pose proof (proj1 (Forall_forall _ _) Hb r Hr) as Hbr. simpl in Hbr. lia. }
    assert (forall x, covers rs x -> hi + 1 < x) as Hafter.
    { intros x (l & h & Hlh & Hx). pose proof (Hg0 _ Hlh) as Hgr. simpl in Hgr. lia. }
    split.
    + apply Forall_app. split; [|done]. destruct (decide (current < lo)); [apply Forall_singleton; simpl; lia|apply List.Forall_nil].
    + intros x. rewrite covers_app, H2, covers_cons. simpl. destruct (decide (current < lo)) as [Hcl|Hcl].
      * rewrite covers_cons. pose proof (covers_nil x). simpl. specialize (Hafter x). split; [intros [[?|?]|[? ?]]; [|done|]; (split; [lia|]); intros [?|Hcv]; [lia| |lia|]; [apply Hafter in Hcv; lia|done]|].
        intros [? Hn]. assert (~ lo <= x <= hi) by tauto. assert (~ covers rs x) by tauto. destruct (decide (x < lo)); [left; left; lia|right; split; [lia|done]].
      * pose proof (covers_nil x). specialize (Hafter x). split; [intros [?|[? ?]]; [done|]; (split; [lia|]); intros [?|?]; lia || tauto|].
        intros [? Hn]. assert (~ lo <= x <= hi) by tauto. assert (~ covers rs x) by tauto. right. split; [lia|done].
Qed.

(** * The syntax *)

Inductive re :=
  | Literal (cp : Z)
  | AnyChar
  | Class (negated : bool) (ranges : list (Z * Z))
  | Seq (rs : list re)
  | Alt (rs : list re)
  | Opt (r : re)
  | Many (r : re)
  | Plus (r : re)
  | Repeat (r : re) (min max : Z)
  | AtLeast (r : re) (min : Z).

Definition digit_of (c : Z) : Prop := 48 <= c <= 57.
Definition begins (P : Z -> Prop) (text : list Z) : Prop := match text with [] => False | c :: _ => P c end.

(** Decimal numbers up to 1000. *)
Definition digits_value (ds : list Z) : Z := foldl (fun v c => v * 10 + (c - 48)) 0 ds.
Definition number_of (text : list Z) (n : Z) (rest : list Z) : Prop :=
  exists ds, text = ds ++ rest /\ ds <> [] /\ Forall digit_of ds /\ ~ begins digit_of rest /\ n = digits_value ds /\ n <= 1000.

(** What stands in braces: a number, or a lower bound with or without an upper one. *)
Inductive bounds_of : list Z -> Z -> option Z -> list Z -> Prop :=
  | bounds_exact text min rest : number_of text min (125 :: rest) -> bounds_of text min (Some min) rest
  | bounds_open text min rest : number_of text min (44 :: 125 :: rest) -> bounds_of text min None rest
  | bounds_range text min text1 max rest : number_of text min (44 :: text1) -> number_of text1 max (125 :: rest) -> min <= max ->
      bounds_of text min (Some max) rest.

(** A character of a class, perhaps escaped; and an item, one character or a range. *)
Inductive endpoint_of : list Z -> Z -> list Z -> Prop :=
  | endpoint_plain text cp rest : starts text cp rest -> cp <> 92 -> endpoint_of text cp rest
  | endpoint_escaped text cp rest : starts text cp rest -> endpoint_of (92 :: text) cp rest.

Definition dashed (text : list Z) : Prop := exists c text', text = 45 :: c :: text' /\ c <> 93.
Definition readable (text : list Z) : Prop := text = [] \/ exists cp rest, starts text cp rest.

Inductive item_of : list Z -> Z * Z -> list Z -> Prop :=
  | item_one text cp rest : endpoint_of text cp rest -> readable rest -> ~ dashed rest -> item_of text (cp, cp) rest
  | item_range text lo text1 hi rest : endpoint_of text lo (45 :: text1) -> dashed (45 :: text1) -> endpoint_of text1 hi rest -> lo <= hi ->
      item_of text (lo, hi) rest.

(** Items up to a closing bracket, which in first place is an item. *)
Inductive items_of : bool -> list Z -> list (Z * Z) -> list Z -> Prop :=
  | items_end rest : items_of false (93 :: rest) [] rest
  | items_more first text r text1 rs rest : (first = true \/ ~ begins (fun c => c = 93) text) -> item_of text r text1 ->
      items_of false text1 rs rest -> items_of first text (r :: rs) rest.

Inductive class_of : list Z -> bool -> list (Z * Z) -> list Z -> Prop :=
  | class_negated text rs rest : items_of true text rs rest -> class_of (94 :: text) true rs rest
  | class_plain text rs rest : ~ begins (fun c => c = 94) text -> items_of true text rs rest -> class_of text false rs rest.

(** What follows an atom. *)
Inductive rep_of : re -> list Z -> re -> list Z -> Prop :=
  | rep_end r text : readable text -> ~ begins (fun c => c = 63 \/ c = 42 \/ c = 43 \/ c = 123) text -> rep_of r text r text
  | rep_opt r text r' rest : rep_of (Opt r) text r' rest -> rep_of r (63 :: text) r' rest
  | rep_many r text r' rest : rep_of (Many r) text r' rest -> rep_of r (42 :: text) r' rest
  | rep_plus r text r' rest : rep_of (Plus r) text r' rest -> rep_of r (43 :: text) r' rest
  | rep_exact r text min max text1 r' rest : bounds_of text min (Some max) text1 -> rep_of (Repeat r min max) text1 r' rest -> rep_of r (123 :: text) r' rest
  | rep_open r text min text1 r' rest : bounds_of text min None text1 -> rep_of (AtLeast r min) text1 r' rest -> rep_of r (123 :: text) r' rest.

Section Syntax.
Context (literal_ok : Z -> Prop).

Definition union_tree (rs : list re) : re := match rs with [r] => r | _ => Alt rs end.

Inductive atom_of : list Z -> re -> list Z -> Prop :=
  | atom_group text r rest : union_of text r (41 :: rest) -> atom_of (40 :: text) r rest
  | atom_class text negated rs rest : class_of text negated rs rest -> atom_of (91 :: text) (Class negated rs) rest
  | atom_any rest : atom_of (46 :: rest) AnyChar rest
  | atom_escaped text cp rest : starts text cp rest -> literal_ok cp -> atom_of (92 :: text) (Literal cp) rest
  | atom_literal text cp rest : starts text cp rest -> ~ begins (fun c => c = 40 \/ c = 91 \/ c = 46 \/ c = 92) text -> literal_ok cp -> atom_of text (Literal cp) rest
with concat_of : list Z -> list re -> list Z -> Prop :=
  | concat_end text : text = [] \/ begins (fun c => c = 41 \/ c = 124) text -> concat_of text [] text
  | concat_more text r text1 r' text2 rs rest :
      ~ begins (fun c => c = 41 \/ c = 124 \/ c = 125 \/ c = 42 \/ c = 43 \/ c = 63 \/ c = 123) text ->
      atom_of text r text1 -> rep_of r text1 r' text2 -> concat_of text2 rs rest -> concat_of text (r' :: rs) rest
with alts_of : list Z -> list re -> list Z -> Prop :=
  | alts_end text : ~ begins (fun c => c = 124) text -> alts_of text [] text
  | alts_more text rs text1 alts rest : concat_of text rs text1 -> alts_of text1 alts rest -> alts_of (124 :: text) (Seq rs :: alts) rest
with union_of : list Z -> re -> list Z -> Prop :=
  | union_intro text rs text1 alts rest : concat_of text rs text1 -> alts_of text1 alts rest -> union_of text (union_tree (Seq rs :: alts)) rest.
End Syntax.

(** * The language of a tree *)

Section Meaning.
Context (casefold : Z -> Z) (folder : option CodepointFolder) (ci : bool).

(** The scalar values a class stands for. *)
Definition class_members (negated : bool) (ranges : list (Z * Z)) (cp : Z) : Prop :=
  let listed := covers ranges cp \/ ci = true /\ exists y, covers ranges y /\ cp ∈ alternates casefold y in
  if negated then ~ listed else listed.

Definition lunions (Ls : list language) : language := foldr lunion lempty Ls.

Fixpoint re_lang (r : re) : language :=
  match r with
  | Literal cp => literal_lang mixed casefold folder ci cp
  | AnyChar => fun w => exists cp, is_scalar cp /\ w = utf8 cp
  | Class negated ranges => fun w => exists cp, is_scalar cp /\ class_members negated ranges cp /\ w = utf8 cp
  | Seq rs => foldr (fun r L => lcat (re_lang r) L) leps rs
  | Alt rs => foldr (fun r L => lunion (re_lang r) L) lempty rs
  | Opt r => lunion leps (re_lang r)
  | Many r => lstar (re_lang r)
  | Plus r => lcat (re_lang r) (lstar (re_lang r))
  | Repeat r min max => lrep min max (re_lang r)
  | AtLeast r min => lcat (lrep min min (re_lang r)) (lstar (re_lang r))
  end.
End Meaning.

(** * The parser follows the syntax *)

Section ParserSpec.
Context (casefold : Z -> Z).
Context (fold_scalar : forall cp, is_scalar cp -> is_scalar (casefold cp)).
Context (fold_idemp : forall cp, is_scalar cp -> casefold (casefold cp) = casefold cp).
Context (pattern : list Z) (folder : option CodepointFolder) (ci : bool) (Hwritten : fold_written folder) (Hbytes : is_bytes pattern).

Definition messages : list string :=
  ["invalid UTF-8"; "repeat bound exceeds 1000"; "expected repeat bound"; "unterminated repeat"; "repeat upper bound is smaller than lower bound";
   "trailing escape"; "unterminated character class"; "character class range is backwards"; "empty character class"; "unbalanced '('";
   "unescaped '}' must be escaped"; "repetition has no preceding atom"; "unbalanced ')'"].

(** The exceptions of the parser. *)
Definition known (e : string) : Prop := e = fold_error \/ exists m p, m ∈ messages /\ e = Parser.error pattern m p.

Lemma known_error m p : bool_decide (m ∈ messages) = true -> known (Parser.error pattern m p).
Proof. intros H. right. exists m, p. split; [by apply bool_decide_eq_true in H|done]. Qed.

(** The text has no reading, or exactly one. *)
Definition never {A} (G : list Z -> A -> list Z -> Prop) (text : list Z) : Prop := forall r rest, ~ G text r rest.
Definition only {A} (G : list Z -> A -> list Z -> Prop) (text : list Z) (r : A) (rest : list Z) : Prop :=
  forall r' rest', G text r' rest' <-> r' = r /\ rest' = rest.

Definition parses {X A} (d : Z) (text : list Z) (G : list Z -> A -> list Z -> Prop) (R : Z -> X -> A -> list Z -> Prop) (c : SM Budget (X * Z)) : Prop :=
  spends d c (fun e => known e /\ never G text)
    (fun x d' => exists r rest, only G text r rest /\ remains pattern x.2 rest /\ R d' x.1 r rest).

(** ** Characters *)

Lemma parser_next_spec d pos text : remains pattern pos text -> text <> [] -> parses d text starts (fun d' cp r _ => d' = d /\ cp = r) (Parser.next pattern pos).
Proof.
  intros Hrem Hne. eapply spends_mono; [by apply (decode_text_spec d _ pattern Hbytes pos text)| |].
  - intros e [-> Hno]. split; [by apply known_error|]. exact Hno.
  - intros [cp pos'] d' _ (-> & rest & Hst & Hrem'). cbn [fst snd] in *. exists cp, rest. split_and!; [|done..]. intros cp' rest'. split; [|by intros [-> ->]].
    intros Hst'. by destruct (starts_unique _ _ _ _ _ Hst' Hst).
Qed.

(** What [peek] shows of the text. *)
Definition peeked (text : list Z) (c : Z) : Prop := text = [] /\ c = -1 \/ exists rest, starts text c rest.

Lemma peeked_char text c k : peeked text c -> 0 <= k < 0x80 -> c = k <-> begins (fun x => x = k) text.
Proof.
  intros Hp Hk. destruct Hp as [[-> ->]|[rest Hst]]; [simpl; lia|]. split.
  - intros ->. destruct Hst as [_ ->]. unfold utf8. rewrite decide_True by lia. done.
  - destruct text as [|x t]; [done|]. simpl. intros ->. by destruct (starts_unique _ _ _ _ _ Hst (starts_1 k t Hk)).
Qed.

Lemma peek_bind {B} d pos text (f : Z -> SM Budget B) (Er : string -> Prop) Q : remains pattern pos text ->
  (forall e, known e -> text <> [] -> no_start text -> Er e) -> (forall c, peeked text c -> spends d (f c) Er Q) -> spends d (c ← Parser.peek pattern pos; f c) Er Q.
Proof.
  intros Hrem He Hf. pose proof (remains_len _ _ _ Hrem) as [Hlen _]. unfold Parser.peek. destruct (decide (pos = zlen pattern)) as [Hend|Hend].
  - assert (zlen text = 0) as ->%zlen_0_nil by lia. apply spends_ret_bind, Hf. by left.
  - assert (text <> []) as Hne by (intros ->; rewrite zlen_nil in Hlen; lia).
    eapply (spends_bind _ _ _ _ (fun c d' => d' = d /\ peeked text c)); [|by intros c d' _ (-> & Hc); apply Hf].
    eapply spends_bind.
    + eapply spends_mono; [by apply (parser_next_spec d pos text)| |intros x d' _ H; exact H]. intros e [Hk Hno]. by apply He.
    + intros [cp pos'] d' _ (r & rest & Ho & _ & -> & Er'). cbn [fst] in Er'. subst r. apply spends_ret. split; [done|]. right. exists rest. by apply Ho.
Qed.

Lemma next_char {B} d pos k text (f : Z * Z -> SM Budget B) (Er : string -> Prop) Q : remains pattern pos (k :: text) -> 0 <= k < 0x80 ->
  (remains pattern (pos + 1) text -> spends d (f (k, pos + 1)) Er Q) -> spends d (x ← Parser.next pattern pos; f x) Er Q.
Proof.
  intros Hrem Hk Hf. apply remains_cons in Hrem as [Ek Hrem]. unfold Parser.next, decode.
  eapply (spends_bind _ _ _ _ (fun x d' => d' = d /\ x = (k, pos + 1))).
  - eapply spends_need_bind; [exact Ek|]. rewrite decide_True by lia. by apply spends_ret.
  - intros x d' _ (-> & ->). by apply Hf.
Qed.

Lemma begins_char k text : begins (fun x => x = k) text -> exists t, text = k :: t.
Proof. destruct text as [|x t]; [done|]. simpl. intros ->. by exists t. Qed.

Lemma remains_end pos text : remains pattern pos text -> pos = zlen pattern <-> text = [].
Proof.
  intros Hrem. pose proof (remains_len _ _ _ Hrem) as [Hlen _]. split.
  - intros H. apply zlen_0_nil. lia.
  - intros ->. rewrite zlen_nil in Hlen. lia.
Qed.

(** ** Numbers *)

Lemma digits_split ds ds' rest rest' : ds ++ rest = ds' ++ rest' -> Forall digit_of ds -> Forall digit_of ds' ->
  ~ begins digit_of rest -> ~ begins digit_of rest' -> ds = ds' /\ rest = rest'.
Proof.
  revert ds'. induction ds as [|x ds IH]; intros [|x' ds'] E H H' Hr Hr'; simpl in E.
  - done.
  - subst rest. apply Forall_cons in H' as [? _]. by destruct Hr.
  - subst rest'. apply Forall_cons in H as [? _]. by destruct Hr'.
  - injection E as -> E. apply Forall_cons in H as [_ H], H' as [_ H']. by destruct (IH ds' E H H' Hr Hr') as [-> ->].
Qed.

Lemma digits_value_snoc ds c : digits_value (ds ++ [c]) = digits_value ds * 10 + (c - 48).
Proof. unfold digits_value. by rewrite foldl_app. Qed.

Lemma digits_mono ds more : Forall digit_of (ds ++ more) -> 0 <= digits_value ds <= digits_value (ds ++ more).
Proof.
  induction more as [|c more IH] using rev_ind.
  - rewrite app_nil_r. intros H. split; [|lia]. induction ds as [|c ds IH] using rev_ind; [done|]. rewrite digits_value_snoc.
    apply Forall_app in H as [H1 H2]. apply Forall_cons in H2 as [H2 _]. unfold digit_of in H2. specialize (IH H1). lia.
  - rewrite app_assoc. intros [H1 H2]%Forall_app. apply Forall_cons in H2 as [H2 _]. unfold digit_of in H2. rewrite digits_value_snoc. specialize (IH H1). lia.
Qed.

(** Too many digits for a bound. *)
Lemma number_large ds c t : Forall digit_of (ds ++ [c]) -> 1000 < digits_value (ds ++ [c]) -> never number_of (ds ++ c :: t).
Proof.
  intros Hd Hbig n rest (ds' & E & _ & Hd' & Hr & -> & Hn).
  assert (exists more, ds' = (ds ++ [c]) ++ more) as [more ->].
  { clear Hn Hbig. assert ((ds ++ [c]) ++ t = ds' ++ rest) as E' by (by rewrite <- app_assoc). revert E' Hd' Hd. generalize (ds ++ [c]) as u. clear E.
    intros u. revert ds'. induction u as [|x u IH]; intros ds' E Hd' Hd; [by exists ds'|]. destruct ds' as [|y ds'].
    - simpl in E. subst rest. apply Forall_cons in Hd as [? _]. by destruct Hr.
    - injection E as -> E. apply Forall_cons in Hd' as [_ Hd'], Hd as [_ Hd]. destruct (IH ds' E Hd' Hd) as [more ->]. by exists more. }
  pose proof (digits_mono _ _ Hd'). lia.
Qed.

Lemma number_spec d pos text : remains pattern pos text ->
  parses d text number_of (fun d' v n rest => d' = d /\ v = n /\ (length rest < length text)%nat) (Parser.number pattern pos).
Proof.
  intros Hrem. unfold Parser.number, parses.
  apply (spends_bind _ _ _ _ (fun st d' => d' = d /\ exists ds rest, text = ds ++ rest /\ Forall digit_of ds /\ st.1 = digits_value ds /\ st.1 <= 1000
    /\ remains pattern st.2 rest /\ ~ begins digit_of rest)).
  - eapply (spends_while (fun st d' => d' = d /\ exists ds rest, text = ds ++ rest /\ Forall digit_of ds /\ st.1 = digits_value ds /\ st.1 <= 1000
      /\ remains pattern st.2 rest) (fun st => Z.to_nat (zlen pattern - st.2))).
    + intros [v p] d' (-> & ds & rest & -> & Hd & Hv & Hle & Hr). cbn [fst snd] in *. pose proof (remains_len _ _ _ Hr) as [Hlen Hp]. unfold Parser.digitStep.
      case_decide as Hmore.
      2: { apply spends_ret. split; [done|]. exists ds, rest. split_and!; try done. intros Hb. destruct rest; [done|]. rewrite zlen_cons in Hlen.
        pose proof (zlen_nonneg rest). cbn [fst snd] in *. lia. }
      destruct rest as [|c rest]; [rewrite zlen_nil in Hlen; lia|]. pose proof (remains_cons _ _ _ _ Hr) as [Ec Hr']. eapply spends_need_bind; [exact Ec|].
      case_decide as Hc.
      * assert (Forall digit_of (ds ++ [c])) as Hd' by (apply Forall_app; split; [done|]; by apply Forall_singleton).
        assert (v * 10 + c - 48 = digits_value (ds ++ [c])) as Ev by (rewrite digits_value_snoc; lia). rewrite Ev. case_decide as Hbig.
        -- apply spends_throw. split; [by apply known_error|]. by apply number_large.
        -- apply spends_ret. cbn [fst snd]. split; [|lia]. split; [done|]. exists (ds ++ [c]), rest. split_and!; [by rewrite <- app_assoc|done|done|lia|done].
      * apply spends_ret. split; [done|]. exists ds, (c :: rest). split_and!; done.
    + split; [done|]. exists [], text. split_and!; done.
    + cbn [snd]. unfold Parser.rounds. pose proof (remains_len _ _ _ Hrem) as [Hlen Hp]. pose proof (Nat.pow_gt_lin_r 2 (length pattern) ltac:(lia)).
      unfold zlen in *. simpl. lia.
  - intros [v p] d' _ (-> & ds & rest & -> & Hd & Hv & Hle & Hr & Hno). cbn [fst snd] in *. case_decide as Hsame.
    + apply spends_throw. split; [by apply known_error|]. assert (ds = []) as ->.
      { pose proof (remains_len _ _ _ Hrem) as [H1 _]. pose proof (remains_len _ _ _ Hr) as [H2 _]. rewrite zlen_app in H1. apply zlen_0_nil. lia. }
      intros n rest' (ds' & E & Hne & Hd' & _). destruct ds' as [|x ds']; [done|]. simpl in E. subst rest. apply Forall_cons in Hd' as [? _]. by destruct Hno.
    + assert (ds <> []) as Hne.
      { intros ->. pose proof (remains_len _ _ _ Hrem) as [H1 _]. pose proof (remains_len _ _ _ Hr) as [H2 _]. simpl in H1. lia. }
      apply spends_ret. exists v, rest. split_and!; [|done|done|done|].
      * intros n rest'. split.
        -- intros (ds' & E & _ & Hd' & Hno' & -> & _). destruct (digits_split ds ds' rest rest') as [-> ->]; [done..|]. done.
        -- intros [-> ->]. exists ds. split_and!; done.
      * rewrite length_app. destruct ds; [done|]. simpl. lia.
Qed.
(** ** Repetition *)

Lemma begins_starts k text : 0 <= k < 0x80 -> begins (fun x => x = k) text -> ~ no_start text.
Proof. intros Hk [t ->]%begins_char Hno. by apply (Hno k t), starts_1. Qed.

(** A character that must follow. *)
Lemma expect_bind {B} d pos text k m p (f : Z -> SM Budget B) (Er : string -> Prop) Q : remains pattern pos text -> 0 <= k < 0x80 -> bool_decide (m ∈ messages) = true ->
  (~ begins (fun x => x = k) text -> forall e, known e -> Er e) ->
  (forall t, text = k :: t -> remains pattern (pos + 1) t -> spends d (f (pos + 1)) Er Q) ->
  spends d (c ← Parser.peek pattern pos; if decide (c <> k) then throw (Parser.error pattern m p) else '(_, pos) ← Parser.next pattern pos; f pos) Er Q.
Proof.
  intros Hrem Hk Hm Hno Hyes. eapply peek_bind; [exact Hrem| |].
  - intros e He _ Hns. apply Hno; [|done]. intros Hb. by eapply begins_starts.
  - intros c Hc. pose proof (peeked_char _ _ _ Hc Hk) as Hck. destruct (decide (c <> k)) as [Hd|Hd].
    + apply spends_throw, Hno; [tauto|]. apply known_error. exact Hm.
    + assert (c = k) as [t Ht]%Hck%begins_char by lia. subst text. eapply next_char; [exact Hrem|done|]. intros Hrem'. by apply (Hyes t).
Qed.

Definition boundsG (text : list Z) (b : Z * option Z) (rest : list Z) : Prop := bounds_of text b.1 b.2 rest.

Definition bounds_read (d : Z) (text : list Z) (d' : Z) (x : Z * Z) (b : Z * option Z) (rest : list Z) : Prop :=
  d' = d /\ x.1 = b.1 /\ x.2 = default (-1) b.2 /\ 0 <= b.1 <= 1000 /\ (forall max, b.2 = Some max -> b.1 <= max <= 1000) /\ (length rest < length text)%nat.

Lemma number_nonneg text n rest : number_of text n rest -> 0 <= n <= 1000 /\ begins digit_of text.
Proof.
  intros (ds & -> & Hne & Hd & _ & -> & Hn). split.
  - split; [|done]. rewrite <- (app_nil_r ds) in Hd. apply digits_mono in Hd. lia.
  - destruct ds as [|x ds]; [done|]. by apply Forall_cons in Hd as [? _].
Qed.

Lemma bounds_spec d pos text brace : remains pattern pos text ->
  parses d text boundsG (bounds_read d text) (Parser.bounds pattern brace pos).
Proof.
  intros Hrem. unfold Parser.bounds, parses. eapply spends_bind.
  { eapply spends_mono; [by apply (number_spec d pos text)| |intros x d' _ H; exact H]. intros e [Hk Hno]. split; [done|].
    intros [min mx] rest Hb. inversion Hb; subst; by eapply Hno. }
  intros [min pos1] d1 _ (n & text1 & Hmin & Hrem1 & -> & En & Hlen1). cbn [fst snd] in *. subst n.
  assert (number_of text min text1) as Hnum by (by apply Hmin). destruct (number_nonneg _ _ _ Hnum) as [Hn _].
  assert (forall b rest, boundsG text b rest -> text1 = 125 :: rest /\ b = (min, Some min) \/ text1 = 44 :: 125 :: rest /\ b = (min, None)
    \/ exists text2 max, text1 = 44 :: text2 /\ number_of text2 max (125 :: rest) /\ min <= max /\ b = (min, Some max)) as Hinv.
  { intros [b1 b2] rest Hb. inversion Hb as [? ? ? H1|? ? ? H1|? ? t2 ? ? H1 H2 H3]; cbn [fst snd] in *; subst; apply Hmin in H1 as [-> <-]; [by left|by right; left|].
    right. right. by eexists _, _. }
  eapply peek_bind; [exact Hrem1| |].
  { intros e He Hne Hns. split; [done|]. intros b rest [[-> _]|[[-> _]|(t2 & max & -> & _)]]%Hinv; (eapply begins_starts in Hns; [done| |]; [|done]); lia. }
  intros c Hc. pose proof (peeked_char _ _ 44 Hc ltac:(lia)) as H44. case_decide as Hd.
  2: { apply spends_ret_bind. eapply expect_bind; [exact Hrem1|lia|done| |].
    - intros Hno e He. split; [done|]. intros b rest [[-> _]|[[-> _]|(t2 & max & -> & _)]]%Hinv; [by destruct Hno|..]; by destruct Hd; apply H44.
    - intros t -> Hrem2. rewrite decide_False by lia. apply spends_ret. exists (min, Some min), t. cbn [fst snd]. split_and!; [|done|].
      + intros b rest. split; [intros [[[= <-] ->]|[[[=] _]|(t2 & max & [=] & _)]]%Hinv; done|]. intros [-> ->]. by constructor.
      + unfold bounds_read. simpl in *. split_and!; try done; try lia. intros max [= <-]. lia. }
  apply H44 in Hd as [text2 ->]%begins_char. eapply spends_ext; [intros bud; symmetry; apply bind_assoc|].
  eapply next_char; [exact Hrem1|lia|]. intros Hrem2. eapply spends_ext; [intros bud; symmetry; apply bind_assoc|]. eapply peek_bind; [exact Hrem2| |].
  { intros e He Hne Hns. split; [done|]. intros b rest [[[=] _]|[[[= ->] _]|(t2 & max & [= ->] & Hnum2 & _)]]%Hinv.
    - eapply begins_starts in Hns; [done| |]; [|done]; lia.
    - destruct (number_nonneg _ _ _ Hnum2) as [_ Hb]. destruct t2 as [|x t2]; [done|]. simpl in Hb. unfold digit_of in Hb.
      eapply (begins_starts x) in Hns; [done| |]; [lia|done]. }
  intros c2 Hc2. pose proof (peeked_char _ _ 125 Hc2 ltac:(lia)) as H125. case_decide as Hd2.
  - apply H125 in Hd2 as [text3 ->]%begins_char. apply spends_ret_bind. eapply expect_bind; [exact Hrem2|lia|done|intros []; done|].
    intros t [= <-] Hrem3. rewrite decide_False by lia. apply spends_ret. exists (min, None), text3. cbn [fst snd]. split_and!; [|done|].
    + intros b rest. split.
      * intros [[[=] _]|[[[= <-] ->]|(t2 & max & [= <-] & Hnum2 & _)]]%Hinv; [done|]. apply number_nonneg in Hnum2 as [_ Hb]. simpl in Hb. unfold digit_of in Hb. lia.
      * intros [-> ->]. by constructor.
    + unfold bounds_read. simpl in *. split_and!; try done; lia.
  - eapply spends_bind.
    { eapply spends_mono; [by apply (number_spec d (pos1 + 1) text2)| |intros x d' _ H; exact H]. intros e [Hk Hno]. split; [done|].
      intros b rest [[[=] _]|[[[= ->] _]|(t2 & max & [= <-] & Hnum2 & _)]]%Hinv; [by destruct Hd2; apply H125|by eapply Hno]. }
    intros [max pos3] d3 _ (n & text3 & Hmax & Hrem3 & -> & En & Hlen3). cbn [fst snd] in *. subst n.
    assert (number_of text2 max text3) as Hnum2 by (by apply Hmax). destruct (number_nonneg _ _ _ Hnum2) as [Hn2 _].
    eapply expect_bind; [exact Hrem3|lia|done| |].
    + intros Hno e He. split; [done|]. intros b rest [[[=] _]|[[[= ->] _]|(t2 & max' & [= <-] & Hnum3 & _)]]%Hinv; [by destruct Hd2; apply H125|].
      apply Hmax in Hnum3 as [_ <-]. by destruct Hno.
    + intros t -> Hrem4. case_decide as Hord.
      * apply spends_throw. split; [by apply known_error|]. intros b rest [[[=] _]|[[[= ->] _]|(t2 & max' & [= <-] & Hnum3 & Hle & _)]]%Hinv; [by destruct Hd2; apply H125|].
        apply Hmax in Hnum3 as [-> _]. lia.
      * apply spends_ret. exists (min, Some max), t. cbn [fst snd]. split_and!; [|done|].
        -- intros b rest. split.
           ++ intros [[[=] _]|[[[= ->] _]|(t2 & max' & [= <-] & Hnum3 & Hle & ->)]]%Hinv; [by destruct Hd2; apply H125|]. apply Hmax in Hnum3 as [-> [= <-]]. done.
           ++ intros [-> ->]. unfold boundsG. cbn [fst snd]. eapply bounds_range; [exact Hnum|exact Hnum2|lia].
        -- unfold bounds_read. simpl in *. split_and!; try done; try lia. intros max' [= <-]. lia.
Qed.
Abbreviation L := (re_lang casefold folder ci).

Definition repeated (r : re) (b : Z * option Z) : re := match b.2 with Some max => Repeat r b.1 max | None => AtLeast r b.1 end.

Lemma rep_inv r text r' rest : rep_of r text r' rest <->
  (readable text /\ ~ begins (fun c => c = 63 \/ c = 42 \/ c = 43 \/ c = 123) text /\ r' = r /\ rest = text)
  \/ (exists t, text = 63 :: t /\ rep_of (Opt r) t r' rest) \/ (exists t, text = 42 :: t /\ rep_of (Many r) t r' rest)
  \/ (exists t, text = 43 :: t /\ rep_of (Plus r) t r' rest)
  \/ (exists t b t1, text = 123 :: t /\ boundsG t b t1 /\ rep_of (repeated r b) t1 r' rest).
Proof.
  split.
  - intros H. inversion H as [| | | |? ? min max t1 ? ? Hb|? ? min t1 ? ? Hb]; subst; [by left|right; left; by eexists|right; right; left; by eexists|
      right; right; right; left; by eexists|right; right; right; right..].
    + by exists text0, (min, Some max), t1.
    + by exists text0, (min, None), t1.
  - intros [(H1 & H2 & -> & ->)|[(t & -> & H)|[(t & -> & H)|[(t & -> & H)|(t & [min [max|]] & t1 & -> & Hb & H)]]]]; by econstructor.
Qed.

Definition same_rep (r : re) (text : list Z) (r0 : re) (text0 : list Z) : Prop := forall r' rest, rep_of r text r' rest <-> rep_of r0 text0 r' rest.

(** One suffix has been read, and the rest goes on from the larger tree; or there was none. *)
Definition stepped (r : re) (text : list Z) (x : (t * Z) + (t * Z)) (d' : Z) : Prop :=
  match x with
  | inl (a', pos') => exists r1 text1, remains pattern pos' text1 /\ recognises mixed d' a' (L r1) /\ same_rep r1 text1 r text /\ (length text1 < length text)%nat
  | inr (a', pos') => remains pattern pos' text /\ recognises mixed d' a' (L r) /\ only (rep_of r) text r text
  end.

Lemma suffix_spec d k t r r1 pos (f : SM Budget Automaton.t) : remains pattern pos (k :: t) -> 0 <= k < 0x80 ->
  (forall r' rest, rep_of r (k :: t) r' rest <-> rep_of r1 t r' rest) -> spends d f no_error (fun a' d' => recognises mixed d' a' (L r1)) ->
  spends d ('(_, pos) ← Parser.next pattern pos; a ← f; mret (inl (a, pos))) (fun e => known e /\ never (rep_of r) (k :: t)) (stepped r (k :: t)).
Proof.
  intros Hrem Hk Hinv Hf. eapply next_char; [exact Hrem|done|]. intros Hrem'.
  eapply spends_bind; [eapply spends_mono; [exact Hf|by intros e []|intros x d' _ H; exact H]|]. intros a' d' _ Ha'. apply spends_ret.
  exists r1, t. split_and!; [done|done|intros r' rest; symmetry; apply Hinv|simpl; lia].
Qed.

Lemma plus_spec d a r : recognises mixed d a (L r) -> spends d (s ← star a; concatenate a s) no_error (fun a' d' => recognises mixed d' a' (L (Plus r))).
Proof.
  intros Ha. eapply spends_bind; [by apply star_spec|]. intros s d1 Hd1 Hs. apply concatenate_spec; [by apply (recognises_mono mixed d)|done].
Qed.

Lemma repeated_spec d a r b Er : recognises mixed d a (L r) -> 0 <= b.1 <= 1000 -> (forall max, b.2 = Some max -> b.1 <= max <= 1000) ->
  spends d (if decide (default (-1) b.2 = -1) then r ← repeatRange a b.1 b.1; s ← star a; concatenate r s else repeatRange a b.1 (default (-1) b.2)) Er
    (fun a' d' => recognises mixed d' a' (L (repeated r b))).
Proof.
  intros Ha Hmin Hmax. destruct b as [min [max|]]; cbn [fst snd default repeated] in *.
  - specialize (Hmax max eq_refl). rewrite decide_False by (simpl; lia). apply repeatRange_spec; [done|simpl; lia..].
  - rewrite decide_True by done. eapply spends_bind; [apply repeatRange_spec; [done|lia..]|]. intros x d1 Hd1 Hx.
    eapply spends_bind; [by apply star_spec, (recognises_mono mixed d)|]. intros s d2 Hd2 Hs.
    apply concatenate_spec; [by apply (recognises_mono mixed d1)|done].
Qed.

Lemma brace_spec d a r t pos : remains pattern pos (123 :: t) -> recognises mixed d a (L r) ->
  spends d ('(_, position) ← Parser.next pattern pos;
    '(min, max, position) ← Parser.bounds pattern pos position;
    a ← (if decide (max = -1) then r ← repeatRange a min min; s ← star a; concatenate r s else repeatRange a min max);
    mret (inl (a, position))) (fun e => known e /\ never (rep_of r) (123 :: t)) (stepped r (123 :: t)).
Proof.
  intros Hrem Ha. eapply next_char; [exact Hrem|lia|]. intros Hrem'.
  assert (forall r' rest, rep_of r (123 :: t) r' rest -> exists b t1, boundsG t b t1 /\ rep_of (repeated r b) t1 r' rest) as Hinv.
  { intros r' rest. rewrite rep_inv. simpl. naive_solver. }
  eapply spends_bind.
  { eapply spends_mono; [by apply (bounds_spec d (pos + 1) t pos)| |intros x d' _ H; exact H]. intros e [He Hno]. split; [done|].
    intros r' rest (b & t1 & Hb & _)%Hinv. by eapply Hno. }
  intros [[min max] pos2] d2 _ (b & t1 & Hb & Hrem2 & Hread). destruct Hread as (-> & E1 & E2 & B1 & B2 & Hlen). cbn [fst snd] in *. subst min max.
  eapply spends_bind; [by apply repeated_spec|]. intros a' d3 _ Ha'. apply spends_ret. exists (repeated r b), t1. split_and!; [done|done| |simpl; lia].
  intros r' rest. split.
  - intros H. apply rep_inv. right. right. right. right. exists t, b, t1. split_and!; [done|by apply Hb|done].
  - intros (b' & t1' & Hb' & H)%Hinv. apply Hb in Hb' as [-> ->]. done.
Qed.

Lemma repetitionStep_spec d a r pos text : remains pattern pos text -> recognises mixed d a (L r) ->
  spends d (Parser.repetitionStep pattern (a, pos)) (fun e => known e /\ never (rep_of r) text) (stepped r text).
Proof.
  intros Hrem Ha. unfold Parser.repetitionStep. eapply peek_bind; [exact Hrem| |].
  { intros e He Hne Hns. split; [done|]. intros r' rest H. apply rep_inv in H.
    destruct H as [([->|(cp & t & Hst)] & _)|[(t & -> & _)|[(t & -> & _)|[(t & -> & _)|(t & b & t1 & -> & _)]]]]; try done; [by apply (Hns cp t)|..].
    all: eapply begins_starts in Hns; [done| |]; [|done]; lia. }
  intros c Hc. pose proof (fun k => peeked_char text c k Hc) as Hck.
  destruct (decide (c = 63)) as [E63|N63].
  { apply Hck in E63 as [t ->]%begins_char; [|lia]. apply (suffix_spec d 63 t r (Opt r)); [done|lia| |by apply optional_spec].
    intros r' rest. rewrite rep_inv. simpl. naive_solver. }
  destruct (decide (c = 42)) as [E42|N42].
  { apply Hck in E42 as [t ->]%begins_char; [|lia]. apply (suffix_spec d 42 t r (Many r)); [done|lia| |by apply star_spec].
    intros r' rest. rewrite rep_inv. simpl. naive_solver. }
  destruct (decide (c = 43)) as [E43|N43].
  { apply Hck in E43 as [t ->]%begins_char; [|lia]. eapply spends_ext; [|apply (suffix_spec d 43 t r (Plus r)); [exact Hrem|lia| |by apply plus_spec]].
    - intros bud. unfold mbind, SM_bind. destruct (Parser.next pattern pos bud) as [[[cp p]| |] b1]; [|done..]. by destruct (star a b1) as [[s| |] b2].
    - intros r' rest. rewrite rep_inv. simpl. naive_solver. }
  destruct (decide (c <> 123)) as [N123|E123].
  - apply spends_ret. split_and!; [done|done|]. intros r' rest. rewrite rep_inv.
    assert (readable text) as Hread by (destruct Hc as [[-> _]|[rest' Hst]]; [by left|right; by exists c, rest']).
    assert (~ begins (fun c => c = 63 \/ c = 42 \/ c = 43 \/ c = 123) text) as Hnb.
    { destruct text as [|x t]; [intros []|]. simpl. intros Hx. assert (c = x) by (apply Hck; [lia|done]). lia. }
    split; [|intros [-> ->]; by left]. intros [(_ & _ & -> & ->)|H]; [done|]. destruct Hnb. destruct H as [(t & -> & _)|[(t & -> & _)|[(t & -> & _)|(t & b & t1 & -> & _)]]]; simpl; tauto.
  - assert (c = 123) as [t ->]%Hck%begins_char by lia; [|lia]. by apply brace_spec.
Qed.

Lemma repetition_spec d a r pos text : remains pattern pos text -> recognises mixed d a (L r) ->
  parses d text (rep_of r) (fun d' a' r' rest => recognises mixed d' a' (L r') /\ (length rest <= length text)%nat) (Parser.repetition pattern a pos).
Proof.
  intros Hrem Ha. unfold Parser.repetition, parses.
  apply (spends_while (fun st d' => exists r1 text1, remains pattern st.2 text1 /\ recognises mixed d' st.1 (L r1) /\ same_rep r1 text1 r text
    /\ (length text1 <= length text)%nat) (fun st => Z.to_nat (zlen pattern - st.2))).
  - intros [a1 p1] d1 (r1 & text1 & Hrem1 & Ha1 & Hsame & Hlen). cbn [fst snd] in *. eapply spends_mono; [by apply (repetitionStep_spec d1 a1 r1 p1 text1)| |].
    + intros e [He Hno]. split; [done|]. intros r' rest H%Hsame. by eapply Hno.
    + intros [[a2 p2]|[a2 p2]] d2 _ H; cbn [stepped] in H.
      * destruct H as (r2 & text2 & Hrem2 & Ha2 & Hsame2 & Hlen2). cbn [fst snd]. pose proof (remains_len _ _ _ Hrem1) as [? ?].
        pose proof (remains_len _ _ _ Hrem2) as [? ?]. split; [|unfold zlen in *; lia]. exists r2, text2. split_and!; [done|done| |lia].
        intros r' rest. etransitivity; [apply Hsame2|apply Hsame].
      * destruct H as (Hrem2 & Ha2 & Honly). exists r1, text1. cbn [fst snd]. split_and!; [|done|done|done]. intros r' rest. etransitivity; [symmetry; apply Hsame|apply Honly].
  - exists r, text. split_and!; [done|done|by intros|lia].
  - cbn [snd]. unfold Parser.rounds. pose proof (remains_len _ _ _ Hrem) as [Hl Hp]. pose proof (Nat.pow_gt_lin_r 2 (length pattern) ltac:(lia)).
    unfold zlen in *. simpl. lia.
Qed.
(** ** Character classes *)

Lemma starts_92 text cp rest : starts text cp rest -> cp = 92 <-> exists t, text = 92 :: t.
Proof.
  intros Hst. assert (peeked text cp) as Hp by (right; by exists rest). rewrite (peeked_char text cp 92 Hp) by lia. split; [apply begins_char|]. by intros [t ->].
Qed.

Lemma escaped_spec d text cp rest1 p : starts text cp rest1 -> remains pattern p rest1 ->
  parses d text endpoint_of (fun d' x cp rest => d' = d /\ x = cp /\ (length rest < length text)%nat) (Parser.escaped pattern cp p).
Proof.
  intros Hst Hrem. pose proof (starts_92 _ _ _ Hst) as H92. pose proof (starts_shorter _ _ _ Hst) as Hlen. unfold Parser.escaped, parses. case_decide as Hc.
  - assert (text = 92 :: rest1) as ->. { destruct (proj1 H92 Hc) as [t ->]. destruct (starts_unique _ _ _ _ _ Hst (starts_1 92 t ltac:(lia))) as [_ ->]. done. }
    assert (forall cp' rest', endpoint_of (92 :: rest1) cp' rest' <-> starts rest1 cp' rest') as Hinv.
    { intros cp' rest'. split; [|by constructor]. intros H. inversion H as [? ? ? Hs Hn|]; subst; [|done].
      destruct (starts_unique _ _ _ _ _ Hs (starts_1 92 rest1 ltac:(lia))). done. }
    pose proof (remains_end _ _ Hrem) as Hend. case_decide as He.
    + apply Hend in He as ->. apply spends_throw. split; [by apply known_error|]. intros cp' rest' Hs%Hinv%starts_shorter. simpl in Hs. lia.
    + eapply spends_mono; [apply (parser_next_spec d p rest1); [done|tauto]| |].
      * intros e [He' Hno]. split; [done|]. intros cp' rest' H%Hinv. by eapply Hno.
      * intros [x p'] d' _ (r & rest & Ho & Hrem' & -> & Ex). cbn [fst snd] in *. subst r. exists x, rest. split_and!; [|done..|].
        -- intros cp' rest'. by rewrite Hinv.
        -- assert (starts rest1 x rest) as Hs%starts_shorter by (by apply Ho). simpl in *. lia.
  - apply spends_ret. exists cp, rest1. split_and!; [|done..]. intros cp' rest'. split.
    + intros H. inversion H as [? ? ? Hs Hn|t ? ? Hs]; subst; [by destruct (starts_unique _ _ _ _ _ Hs Hst)|]. destruct Hc. apply H92. by exists t.
    + intros [-> ->]. by constructor.
Qed.
Lemma item_inv text lo text1 : only endpoint_of text lo text1 -> forall r rest, item_of text r rest <->
  (r = (lo, lo) /\ rest = text1 /\ readable text1 /\ ~ dashed text1)
  \/ exists t hi, text1 = 45 :: t /\ dashed text1 /\ endpoint_of t hi rest /\ lo <= hi /\ r = (lo, hi).
Proof.
  intros Ho r rest. split.
  - intros H. inversion H as [? ? ? He Hr Hd|? ? t hi ? He Hd Hh Hle]; subst; [apply Ho in He as [-> ->]; by left|apply Ho in He as [-> <-]; right; by exists t, hi].
  - intros [(-> & -> & Hr & Hd)|(t & hi & -> & Hd & Hh & Hle & ->)]; [apply item_one; [by apply Ho|done..]|]. eapply item_range; [by apply Ho|done..].
Qed.

Lemma dash_bind {B} d pos text c (f : bool -> SM Budget B) Er Q : remains pattern pos text -> peeked text c ->
  (forall dash, (dash = true <-> dashed text) -> spends d (f dash) Er Q) ->
  spends d (dash ← (if decide (c = 45 /\ pos + 1 < zlen pattern) then x ← need pattern.[pos + 1]; mret (bool_decide (x <> 93)) else mret false); f dash) Er Q.
Proof.
  intros Hrem Hc Hf. pose proof (peeked_char _ _ 45 Hc ltac:(lia)) as H45. pose proof (remains_len _ _ _ Hrem) as [Hlen _]. case_decide as Hd.
  - destruct Hd as [[t ->]%H45%begins_char Hp]. rewrite zlen_cons in Hlen. destruct t as [|x t]; [rewrite zlen_nil in Hlen; lia|].
    apply remains_cons in Hrem as [_ Hrem]. apply remains_cons in Hrem as [Ex _]. eapply (spends_bind _ _ _ _ (fun b d' => d' = d /\ b = bool_decide (x <> 93))).
    + eapply spends_need_bind; [exact Ex|]. by apply spends_ret.
    + intros b d' _ (-> & ->). apply Hf. rewrite bool_decide_eq_true. split; [intros Hx; by exists x, t|]. by intros (c' & t' & [= <- <-] & Hx).
  - apply spends_ret_bind, Hf. split; [done|]. intros (x & t & -> & Hx). destruct Hd. split; [by apply H45|]. rewrite !zlen_cons in Hlen. pose proof (zlen_nonneg t). lia.
Qed.

Lemma rangeEnd_spec d text lo text1 pos opening : only endpoint_of text lo text1 -> remains pattern pos text1 ->
  spends d (Parser.rangeEnd pattern opening lo pos) (fun e => known e /\ never item_of text)
    (fun x d' => d' = d /\ exists rest, only item_of text (lo, x.1) rest /\ remains pattern x.2 rest /\ (length rest <= length text1)%nat).
Proof.
  intros Ho Hrem. pose proof (item_inv _ _ _ Ho) as Hinv. unfold Parser.rangeEnd. eapply peek_bind; [exact Hrem| |].
  { intros e He Hne Hns. split; [done|]. intros r rest [(_ & _ & [->|(cp & t & Hst)] & _)|(t & hi & -> & _)]%Hinv; [done|by eapply Hns|].
    eapply begins_starts in Hns; [done| |]; [|done]; lia. }
  intros c Hc. eapply dash_bind; [exact Hrem|exact Hc|]. intros dash Hdash. destruct dash.
  - pose proof (proj1 Hdash eq_refl) as Hd. pose proof Hd as (x & t & -> & Hx).
    assert (forall r rest, item_of text r rest -> exists hi, endpoint_of (x :: t) hi rest /\ lo <= hi /\ r = (lo, hi)) as Hinv'.
    { intros r rest [(_ & _ & _ & Hnd)|(t' & hi & [= <-] & _ & H & Hle & ->)]%Hinv; [done|by exists hi]. }
    eapply next_char; [exact Hrem|lia|]. intros Hrem1. pose proof (remains_end _ _ Hrem1) as Hend. rewrite decide_False by (intros E; by apply Hend in E).
    eapply spends_bind.
    { eapply spends_mono; [apply (parser_next_spec d (pos + 1) (x :: t)); [done|done]| |intros y d' _ H; exact H]. intros e [He Hno]. split; [done|].
      intros r rest (hi & H & _)%Hinv'. inversion H as [? ? ? Hs|? ? ? Hs]; subst; [by eapply Hno|]. apply (Hno 92 t), starts_1. lia. }
    intros [cp p1] d1 _ (r1 & rest1 & Ho1 & Hrem2 & -> & E1). cbn [fst snd] in *. subst r1. assert (starts (x :: t) cp rest1) as Hst by (by apply Ho1).
    eapply spends_bind.
    { eapply spends_mono; [by apply (escaped_spec d (x :: t) cp rest1 p1)| |intros y d' _ H; exact H]. intros e [He Hno]. split; [done|].
      intros r rest (hi & H & _)%Hinv'. by eapply Hno. }
    intros [hi p2] d2 _ (r2 & rest2 & Ho2 & Hrem3 & -> & E2 & Hlen). cbn [fst snd] in *. subst r2. case_decide as Hlt.
    + apply spends_throw. split; [by apply known_error|]. intros r rest (hi' & H & Hle & _)%Hinv'. apply Ho2 in H as [-> _]. lia.
    + apply spends_ret. split; [done|]. exists rest2. cbn [fst snd]. split_and!; [|done|simpl in *; lia]. intros r rest. split.
      * intros (hi' & H & Hle & ->)%Hinv'. by apply Ho2 in H as [-> ->].
      * intros [-> ->]. apply Hinv. right. exists (x :: t), hi. split_and!; [done|done|by apply Ho2|lia|done].
  - assert (~ dashed text1) as Hnd by (intros H; by apply Hdash in H). apply spends_ret. split; [done|]. exists text1. cbn [fst snd]. split_and!; [|done|lia].
    assert (readable text1) as Hread by (destruct Hc as [[-> _]|[rest' Hst]]; [by left|right; by exists c, rest']).
    intros r rest. rewrite Hinv. split; [|intros [-> ->]; by left]. intros [(-> & -> & _)|(t & hi & _ & Hd & _)]; done.
Qed.

(** One item, or the closing bracket. *)
Lemma classStep_spec d ranges pos first text opening : remains pattern pos text ->
  spends d (Parser.classStep pattern opening (ranges, pos, first)) (fun e => known e /\ never (items_of first) text)
    (fun x d' => d' = d /\ match x with
      | inl (ranges', pos', first') => exists r text1, ranges' = ranges ++ [r] /\ first' = false /\ remains pattern pos' text1 /\ (length text1 < length text)%nat
          /\ forall rs rest, items_of first text rs rest <-> exists rs', rs = r :: rs' /\ items_of false text1 rs' rest
      | inr (ranges', pos') => exists rest, ranges' = ranges /\ remains pattern pos' rest /\ only (items_of first) text [] rest
      end).
Proof.
  intros Hrem. unfold Parser.classStep. pose proof (remains_end _ _ Hrem) as Hend. case_decide as He.
  { apply Hend in He as ->. apply spends_throw. split; [by apply known_error|]. intros rs rest H. inversion H as [|? ? ? ? ? ? _ Hi]; subst.
    assert (forall cp r, ~ endpoint_of [] cp r) as Hno by (intros cp' r' H1; inversion H1 as [? ? ? Hs|]; subst; apply starts_shorter in Hs; simpl in Hs; lia).
    inversion Hi; subst; by eapply Hno. }
  assert (text <> []) as Hne by tauto. eapply spends_bind.
  { eapply spends_mono; [by apply (parser_next_spec d pos text)| |intros y d' _ H; exact H]. intros e [He' Hno]. split; [done|]. intros rs rest H.
    assert (forall cp r, ~ endpoint_of text cp r) as Hno'.
    { intros cp' r' H1. inversion H1 as [? ? ? Hs|t ? ? Hs]; subst; [by eapply Hno|]. apply (Hno 92 t), starts_1. lia. }
    inversion H as [t|? ? ? ? ? ? _ Hi]; subst; [apply (Hno 93 rest), starts_1; lia|]. inversion Hi; subst; by eapply Hno'. }
  intros [cp p1] d1 _ (r1 & rest1 & Ho1 & Hrem1 & -> & E1). cbn [fst snd] in *. subst r1. assert (starts text cp rest1) as Hst by (by apply Ho1).
  assert (peeked text cp) as Hpk by (right; by exists rest1). pose proof (peeked_char _ _ 93 Hpk ltac:(lia)) as H93.
  destruct (bool_decide (cp = 93) && negb first) eqn:Eb.
  - apply andb_true_iff in Eb as [Ecp%bool_decide_eq_true Ef]. destruct first; [done|]. pose proof Ecp as [t ->]%H93%begins_char. subst cp.
    destruct (starts_unique _ _ _ _ _ Hst (starts_1 93 t ltac:(lia))) as [_ ->]. apply spends_ret. split; [done|]. exists t. split_and!; [done|done|].
    intros rs rest. split; [|intros [-> ->]; constructor]. intros H. inversion H as [|? ? ? ? ? ? [|Hb] _ _]; subst; [done|done|by destruct Hb].
  - assert (first = true \/ ~ begins (fun c => c = 93) text) as Hok.
    { destruct first; [by left|right]. rewrite andb_true_r in Eb. apply bool_decide_eq_false in Eb. tauto. }
    assert (forall rs rest, items_of first text rs rest <-> exists r text1 rs', rs = r :: rs' /\ item_of text r text1 /\ items_of false text1 rs' rest) as Hinv.
    { intros rs rest. split.
      - intros H. inversion H as [|? ? r text1 rs' ? _ Hi Hr]; subst; [destruct Hok as [|Hb]; [done|by destruct Hb]|by exists r, text1, rs'].
      - intros (r & text1 & rs' & -> & Hi & Hr). by econstructor. }
    eapply spends_bind.
    { eapply spends_mono; [by apply (escaped_spec d text cp rest1 p1)| |intros y d' _ H; exact H]. intros e [He' Hno]. split; [done|].
      intros rs rest (r & text1 & rs' & _ & Hi & _)%Hinv. inversion Hi; subst; by eapply Hno. }
    intros [lo p2] d2 _ (r2 & rest2 & Ho2 & Hrem3 & -> & E2 & Hlen). cbn [fst snd] in *. subst r2. eapply spends_bind.
    { eapply spends_mono; [by apply (rangeEnd_spec d text lo rest2 p2 opening)| |intros y d' _ H; exact H]. intros e [He' Hno]. split; [done|].
      intros rs rest (r & text1 & rs' & _ & Hi & _)%Hinv. by eapply Hno. }
    intros [hi p3] d3 _ (-> & rest3 & Ho3 & Hrem4 & Hlen3). cbn [fst snd] in *. apply spends_ret. split; [done|].
    exists (lo, hi), rest3. split_and!; [done|done|done|lia|]. intros rs rest. rewrite Hinv. split.
    + intros (r & text1 & rs' & -> & Hi & Hr). apply Ho3 in Hi as [-> ->]. by exists rs'.
    + intros (rs' & -> & Hr). exists (lo, hi), rest3, rs'. split_and!; [done|by apply Ho3|done].
Qed.
Lemma endpoint_scalar text cp rest : endpoint_of text cp rest -> is_scalar cp.
Proof. intros H. inversion H as [? ? ? [Hs _]|? ? ? [Hs _]]; done. Qed.

Lemma items_ranges first text rs rest : items_of first text rs rest -> Forall (fun r => is_scalar r.1 /\ is_scalar r.2 /\ r.1 <= r.2) rs.
Proof.
  induction 1 as [|first text r text1 rs rest _ Hi _ IH]; [apply List.Forall_nil|]. constructor; [|done].
  inversion Hi as [? ? ? He|? ? ? ? ? He _ Hh Hle]; subst; simpl; apply endpoint_scalar in He; [split_and!; [done|done|lia]|]. apply endpoint_scalar in Hh. done.
Qed.

Lemma items_loop d pos text opening : remains pattern pos text ->
  parses d text (items_of true) (fun d' ranges rs rest => d' = d /\ ranges = rs /\ (length rest <= length text)%nat)
    (whileS (Parser.rounds pattern) (Parser.classStep pattern opening) ([], pos, true)).
Proof.
  intros Hrem. unfold parses.
  apply (spends_while (fun st d' => d' = d /\ exists text1, remains pattern st.1.2 text1 /\ (length text1 <= length text)%nat
    /\ forall rs rest, items_of true text rs rest <-> exists rs', rs = st.1.1 ++ rs' /\ items_of st.2 text1 rs' rest)
    (fun st => Z.to_nat (zlen pattern - st.1.2))).
  - intros [[ranges p] first] d1 (-> & text1 & Hrem1 & Hlen & Hinv). cbn [fst snd] in *.
    eapply spends_mono; [by apply (classStep_spec d ranges p first text1 opening)| |].
    + intros e [He Hno]. split; [done|]. intros rs rest (rs' & -> & H)%Hinv. by eapply Hno.
    + intros [[[ranges' p'] first']|[ranges' p']] d2 _ (-> & H).
      * destruct H as (r & text2 & -> & -> & Hrem2 & Hlen2 & Hstep). cbn [fst snd]. pose proof (remains_len _ _ _ Hrem1) as [? ?].
        pose proof (remains_len _ _ _ Hrem2) as [? ?]. split; [|unfold zlen in *; lia]. split; [done|]. exists text2. split_and!; [done|lia|].
        intros rs rest. rewrite Hinv. setoid_rewrite Hstep. setoid_rewrite <- app_assoc. simpl. naive_solver.
      * destruct H as (rest & -> & Hrem2 & Ho). exists ranges, rest. cbn [fst snd]. split_and!; [|done|done|done|].
        -- intros rs rest'. rewrite Hinv. split; [intros (rs' & -> & [-> ->]%Ho); by rewrite app_nil_r|].
           intros [-> ->]. exists []. rewrite app_nil_r. split; [done|by apply Ho].
        -- assert (items_of first text1 [] rest) as H1 by (by apply Ho). inversion H1. subst. simpl in *. lia.
  - cbn [fst snd]. split; [done|]. exists text. split_and!; [done|lia|]. intros rs rest. simpl. naive_solver.
  - cbn [fst snd]. unfold Parser.rounds. pose proof (remains_len _ _ _ Hrem) as [Hl Hp]. pose proof (Nat.pow_gt_lin_r 2 (length pattern) ltac:(lia)).
    unfold zlen in *. simpl. lia.
Qed.

(** The automata for the ranges of a class. *)
Definition range_lang (rs : list (Z * Z)) : language := fun w => exists cp, is_scalar cp /\ covers rs cp /\ w = utf8 cp.

Lemma classParts_spec d rs Er : 0 <= d -> proper_ranges rs ->
  spends d (Parser.classParts rs) Er (fun parts d' => exists Ls, Forall2 (recognises mixed d') parts Ls /\ lunions Ls ≡ range_lang rs).
Proof.
  intros Hd Hp. unfold Parser.classParts. eapply spends_post.
  - apply (spends_fold (fun seen parts d' => 0 <= d' /\ exists Ls, Forall2 (recognises mixed d') parts Ls /\ lunions Ls ≡ range_lang seen)).
    + split; [done|]. exists []. split; [constructor|]. intros w. simpl. split; [done|]. intros (cp & _ & Hc & _). by apply covers_nil in Hc.
    + intros seen [lo hi] rest parts d1 Hd1 Hsplit (Hd1' & Ls & HR & HL).
      assert (lo <= hi) as Hle. { unfold proper_ranges in Hp. rewrite Hsplit in Hp. apply Forall_app in Hp as [_ Hp]. by apply Forall_cons in Hp as [Hp _]. }
      assert (forall Ls L, lunions (Ls ++ [L]) ≡ lunion (lunions Ls) L) as Hsnoc.
      { intros Ks K w. induction Ks as [|K' Ks IH]; simpl; [unfold lunion, lempty; tauto|]. unfold lunion in *. tauto. }
      assert (forall (b : Prop) `{!Decision b} l h parts d1 Ls K, 0 <= d1 -> Forall2 (recognises mixed d1) parts Ls -> lunions Ls ≡ K -> (b -> l <= h) -> (~ b -> forall w, ~ mixed l h false w) ->
        spends d1 (if decide b then p ← charRange l h; mret (parts ++ [p]) else mret parts) Er
          (fun parts' d' => 0 <= d' /\ exists Ls', Forall2 (recognises mixed d') parts' Ls' /\ lunions Ls' ≡ lunion K (mixed l h false))) as Hpart.
      { intros b ? l h parts0 d0 Ks K Hd0 HR0 HK Hb Hnb. case_decide as Hdec.
        - eapply spends_bind; [apply (charRange_spec mixed); [done|auto]|]. intros p d2 Hd2 Rp. apply spends_ret. split; [lia|]. exists (Ks ++ [mixed l h false]). split.
          + apply Forall2_app; [|by constructor]. eapply Forall2_impl; [exact HR0|]. intros a M. by apply recognises_mono.
          + rewrite Hsnoc, HK. done.
        - apply spends_ret. split; [done|]. exists Ks. split; [done|]. intros w. rewrite (HK w). unfold lunion. pose proof (Hnb Hdec w). tauto. }
      eapply spends_bind; [apply (Hpart (lo <= 0xd7ff) _ lo (Z.min hi 0xd7ff) parts d1 Ls (range_lang seen)); [done|done|done|lia|]|].
      { intros Hn w (cp & _ & Hcp & _). lia. }
      intros parts2 d2 Hd2 (Hd2' & Ls2 & HR2 & HL2).
      eapply spends_post; [apply (Hpart (0xe000 <= hi) _ (Z.max lo 0xe000) hi parts2 d2 Ls2 _ Hd2' HR2 HL2); [lia|]|].
      { intros Hn w (cp & _ & Hcp & _). lia. }
      intros parts3 d3 _ (Hd3' & Ls3 & HR3 & HL3). split; [done|]. exists Ls3. split; [done|]. rewrite HL3. intros w. unfold lunion, range_lang, mixed.
      setoid_rewrite covers_snoc. simpl. split.
      * intros [[(cp & H)|(cp & Hs & Hcp & ->)]|(cp & Hs & Hcp & ->)]; [exists cp; tauto|..]; (exists cp; split_and!; [done|right; lia|done]).
      * intros (cp & Hs & [Hc|Hc] & ->); [left; left; by exists cp|]. pose proof Hs as [?|?]; [left; right|right]; exists cp; (split_and!; [done|lia..|done]).
  - intros parts d' _ (_ & H). exact H.
Qed.
Lemma fold_union d parts Ls Er : 0 <= d -> Forall2 (recognises mixed d) parts Ls ->
  spends d (Parser.fold parts 0 (zlen parts) true) Er (fun a d' => recognises mixed d' a (lunions Ls)).
Proof.
  intros Hd HR. apply (balanced_all mixed lunion lempty); try done.
  - intros M K N. apply lunion_assoc.
  - intros M. apply lunion_empty_l.
  - intros M w. unfold lunion, lempty. tauto.
  - intros. by apply unite_spec.
  - intros _. by apply empty_spec.
Qed.

Lemma fold_concat d parts Ls Er : 0 <= d -> Forall2 (recognises mixed d) parts Ls ->
  spends d (Parser.fold parts 0 (zlen parts) false) Er (fun a d' => recognises mixed d' a (lcats Ls)).
Proof.
  intros Hd HR. apply (balanced_all mixed lcat leps); try done.
  - intros M K N. apply lcat_assoc.
  - intros M. apply lcat_eps_l.
  - intros M. apply lcat_eps_r.
  - intros. by apply concatenate_spec.
  - intros _. by apply epsilon_spec.
Qed.

(** The code points listed in a class, with their case alternates. *)
Definition listed (rs : list (Z * Z)) (cp : Z) : Prop := covers rs cp \/ ci = true /\ exists y, covers rs y /\ cp ∈ alternates casefold y.

Lemma alternates_scalar y cp : cp ∈ alternates casefold y -> is_scalar cp.
Proof.
  unfold alternates. cbv zeta. case_decide; [|by intros ?%not_elem_of_nil]. unfold case_class. rewrite list_elem_of_filter. intros [_ Hs]. by apply elem_of_scalars.
Qed.

Lemma classRanges_spec d rs Er : proper_ranges rs ->
  spends d (if ci then r ← appendCaseAlternates casefold (mergeRanges rs); mret (mergeRanges r) else mret (mergeRanges rs)) Er
    (fun m _ => gapped m /\ proper_ranges m /\ forall x, covers m x <-> listed rs x).
Proof.
  intros Hp. destruct (mergeRanges_spec rs Hp) as (H1 & H2 & H3). unfold listed. destruct ci.
  - eapply spends_bind.
    + apply (appendCaseAlternates_spec casefold fold_scalar fold_idemp); [done|].
      revert H1. unfold gapped. generalize (mergeRanges rs). intros l Hl. induction Hl as [|r l Hl IH Hall]; constructor; [done|].
      eapply Forall_impl; [exact Hall|]. intros r' Hr. cbv beta in *. lia.
    + intros r d1 _ (extra & -> & Hx). apply spends_ret. destruct (mergeRanges_spec (mergeRanges rs ++ (single <$> extra))) as (G1 & G2 & G3).
      { apply Forall_app. split; [done|]. apply Forall_fmap, Forall_true. intros x. simpl. lia. }
      split_and!; [done|done|]. intros x. rewrite G3, Hx. setoid_rewrite H3. naive_solver.
  - apply spends_ret. split_and!; [done|done|]. intros x. rewrite H3. naive_solver.
Qed.

(** Where a class is negated, the rest of the code points. *)
Lemma class_lang negated rs m : Forall (fun r => is_scalar r.1 /\ is_scalar r.2 /\ r.1 <= r.2) rs -> gapped m -> proper_ranges m -> (forall x, covers m x <-> listed rs x) ->
  let m' := if negated : bool then complement m 0 else m in proper_ranges m' /\ range_lang m' ≡ L (Class negated rs).
Proof.
  intros Hrs Hg Hp Hm. cbv zeta.
  assert (forall x, listed rs x -> 0 <= x <= 0x10ffff) as Hb.
  { intros x [(lo & hi & Hin & Hx)|(_ & y & _ & Hs%alternates_scalar)]; [|unfold is_scalar in Hs; lia].
    pose proof (proj1 (Forall_forall _ _) Hrs _ Hin) as (H1 & H2 & _). simpl in H1, H2. unfold is_scalar in *. lia. }
  destruct negated.
  - destruct (complement_spec m 0) as [H1 H2]; [done|done| |lia|].
    { apply Forall_forall. intros [lo hi] Hr. pose proof (proj1 (Forall_forall _ _) Hp _ Hr) as Hle. simpl in Hle.
      assert (covers m lo) as H3%Hm%Hb by (exists lo, hi; split; [done|lia]). assert (covers m hi) as H4%Hm%Hb by (exists lo, hi; split; [done|lia]). simpl. lia. }
    split; [done|]. intros w. unfold range_lang. simpl. split.
    + intros (cp & Hs & [_ Hn]%H2 & ->). exists cp. split_and!; [done| |done]. intros Hl. by apply Hn, Hm.
    + intros (cp & Hs & Hn & ->). exists cp. split_and!; [done| |done]. apply H2. split; [unfold is_scalar in Hs; lia|]. intros Hl%Hm. by apply Hn.
  - split; [done|]. intros w. unfold range_lang. simpl. split; intros (cp & Hs & Hc & ->); exists cp; (split_and!; [done|by apply Hm|done]).
Qed.

Lemma items_true_starts text rs rest : items_of true text rs rest -> rs <> [] /\ exists cp t, starts text cp t.
Proof.
  intros H. inversion H as [|? ? r text1 rs' ? _ Hi _]; subst. split; [done|].
  assert (exists cp t, endpoint_of text cp t) as (cp & t & He) by (inversion Hi; subst; by eexists _, _).
  inversion He as [? ? ? Hs|t' ? ? Hs]; subst; [by exists cp, t|]. exists 92, t'. apply starts_1. lia.
Qed.

Lemma items_bracket rs rest : ~ items_of true [93] rs rest.
Proof.
  intros H. inversion H as [|? ? r text1 rs' ? _ Hi Hr]; subst.
  assert (text1 = []) as ->.
  { assert (forall cp t, endpoint_of [93] cp t -> t = []) as He.
    { intros cp t H1. inversion H1 as [? ? ? Hs|]; subst. by destruct (starts_unique _ _ _ _ _ Hs (starts_1 93 [] ltac:(lia))) as [_ ->]. }
    inversion Hi as [? ? ? H1|? ? ? ? ? H1]; subst; [by eapply He|]. by apply He in H1. }
  inversion Hr as [|? ? ? ? ? ? _ Hi2]; subst. assert (exists cp t, endpoint_of [] cp t) as (cp & t & He) by (inversion Hi2; subst; by eexists _, _).
  inversion He as [? ? ? Hs|]; subst. apply starts_shorter in Hs. simpl in Hs. lia.
Qed.
(** What follows the opening bracket: the circumflex, and the check for an empty class. *)
Definition classG (text : list Z) (c : bool * list (Z * Z)) (rest : list Z) : Prop := class_of text c.1 c.2 rest.

Lemma class_start text : no_start text -> never classG text.
Proof.
  intros Hns [negated rs] rest H. inversion H as [t ? ? Hi|? ? ? _ Hi]; subst.
  - apply (Hns 94 t), starts_1. lia.
  - apply items_true_starts in Hi as (_ & cp & t & Hs). by apply (Hns cp t).
Qed.

Lemma circumflex_bind {B} d pos text (f : bool -> Z -> SM Budget B) Er Q : remains pattern pos text ->
  (forall e, known e -> never classG text -> Er e) ->
  (forall negated pos1 text1, remains pattern pos1 text1 -> (length text1 <= length text)%nat ->
    (forall c rest, classG text c rest <-> c.1 = negated /\ items_of true text1 c.2 rest) -> spends d (f negated pos1) Er Q) ->
  spends d (c ← Parser.peek pattern pos;
    let negated := bool_decide (c = 94) in
    '(_, pos) ← (if negated then Parser.next pattern pos else mret (c, pos));
    f negated pos) Er Q.
Proof.
  intros Hrem He Hf. eapply peek_bind; [exact Hrem| |].
  { intros e Hk _ Hns. by apply He, class_start. }
  intros c Hc. pose proof (peeked_char _ _ 94 Hc ltac:(lia)) as H94. cbv zeta. case_bool_decide as Hd.
  - apply H94 in Hd as [t ->]%begins_char. eapply next_char; [exact Hrem|lia|]. intros Hrem1. apply (Hf true _ t); [done|simpl; lia|].
    intros [neg rs] rest. unfold classG. cbn [fst snd]. split.
    + intros H. inversion H as [|? ? ? Hn]; subst; [done|]. by destruct Hn.
    + intros [-> H]. by constructor.
  - apply spends_ret_bind. apply (Hf false _ text); [done|lia|]. intros [neg rs] rest. unfold classG. cbn [fst snd]. split.
    + intros H. inversion H as [t| ]; subst; [|done]. destruct Hd. by apply H94.
    + intros [-> H]. constructor; [tauto|done].
Qed.

Lemma empty_bind {B} d pos text opening (f : SM Budget B) Er Q : remains pattern pos text ->
  (forall e, known e -> never (items_of true) text -> Er e) -> spends d f Er Q ->
  spends d (c ← Parser.peek pattern pos;
    (if decide (c = 93) then '(_, p) ← Parser.next pattern pos; if decide (p = zlen pattern) then throw (Parser.error pattern "empty character class" opening) else mret ()
     else mret ());; f) Er Q.
Proof.
  intros Hrem He Hf. eapply peek_bind; [exact Hrem| |].
  { intros e Hk _ Hns. apply He; [done|]. intros rs rest (_ & cp & t & Hs)%items_true_starts. by apply (Hns cp t). }
  intros c Hc. pose proof (peeked_char _ _ 93 Hc ltac:(lia)) as H93. apply (spends_bind _ _ _ _ (fun _ d' => d' = d)); [|by intros [] d' _ ->].
  case_decide as Hd; [|by apply spends_ret]. apply H93 in Hd as [t ->]%begins_char. eapply next_char; [exact Hrem|lia|]. intros Hrem1.
  case_decide as Hp; [|by apply spends_ret]. apply spends_throw, He; [by apply known_error|]. apply (remains_end _ _ Hrem1) in Hp as ->.
  intros rs rest. apply items_bracket.
Qed.

Lemma characterClass_spec d pos text : 0 <= d -> remains pattern pos (91 :: text) ->
  spends d (Parser.characterClass casefold pattern ci pos) (fun e => known e /\ never classG text)
    (fun x d' => exists c rest, only classG text c rest /\ remains pattern x.2 rest /\ recognises mixed d' x.1 (L (Class c.1 c.2)) /\ (length rest <= length text)%nat).
Proof.
  intros Hd Hrem. unfold Parser.characterClass. eapply next_char; [exact Hrem|lia|]. intros Hrem1.
  apply (circumflex_bind d (pos + 1) text (Parser.classBody casefold pattern ci pos)); [done|done|]. intros negated pos1 text1 Hrem2 Hlen Hcl.
  assert (never (items_of true) text1 -> never classG text) as Hnever by (intros Hno c rest [_ H]%Hcl; by eapply Hno).
  unfold Parser.classBody. eapply (empty_bind d pos1 text1); [done|auto|]. eapply spends_bind.
  { eapply spends_mono; [by apply (items_loop d pos1 text1 pos)| |intros y d' _ H; exact H]. intros e [He Hno]. auto. }
  intros [ranges pos2] d2 _ (rs & rest & Ho & Hrem3 & -> & Ers & Hlen2). cbn [fst snd] in *. subst ranges.
  assert (items_of true text1 rs rest) as Hi by (by apply Ho). pose proof (items_ranges _ _ _ _ Hi) as Hrs.
  rewrite decide_False by (by eapply items_true_starts).
  eapply spends_bind; [apply (classRanges_spec d rs); eapply Forall_impl; [exact Hrs|]; intros r Hr; apply Hr|].
  intros m d3 Hd3 (Hg & Hp & Hm). destruct (class_lang negated rs m Hrs Hg Hp Hm) as [Hp' HL].
  eapply spends_bind; [apply (classParts_spec d3 (if negated then complement m 0 else m)); [lia|done]|]. intros parts d4 Hd4 (Ls & HR & HLs).
  eapply spends_bind; [apply fold_union; [lia|exact HR]|]. intros a d5 Hd5 Ha. apply spends_ret.
  exists (negated, rs), rest. cbn [fst snd]. split_and!; [|done| |lia].
  - intros [neg rs'] rest'. rewrite Hcl. cbn [fst snd]. split; [intros [-> [-> ->]%Ho]; done|]. intros [[= -> ->] ->]. split; [done|by apply Ho].
  - by rewrite <- HL, <- HLs.
Qed.
(** ** Atoms *)

Abbreviation ok := (fold_valid folder).
Abbreviation A := (atom_of ok).
Abbreviation U := (union_of ok).
Abbreviation C := (concat_of ok).
Abbreviation Alts := (alts_of ok).

Lemma atom_inv k text r rest : 0 <= k < 0x80 -> A (k :: text) r rest <->
  (k = 40 /\ U text r (41 :: rest)) \/ (k = 91 /\ exists c, classG text c rest /\ r = Class c.1 c.2) \/ (k = 46 /\ r = AnyChar /\ rest = text)
  \/ (k = 92 /\ exists cp, starts text cp rest /\ ok cp /\ r = Literal cp)
  \/ (k <> 40 /\ k <> 91 /\ k <> 46 /\ k <> 92 /\ ok k /\ r = Literal k /\ rest = text).
Proof.
  intros Hk. split.
  - intros H. inversion H as [| ? neg rs| |? cp ? Hs Hok|? cp ? Hs Hn Hok]; subst.
    + by left.
    + right. left. split; [done|]. by exists (neg, rs).
    + right. right. by left.
    + right. right. right. left. split; [done|]. by exists cp.
    + right. right. right. right. simpl in Hn. destruct (starts_unique _ _ _ _ _ Hs (starts_1 k text Hk)) as [-> ->]. split_and!; try lia; done.
  - intros [[-> H]|[(-> & [neg rs] & H & ->)|[(-> & -> & ->)|[(-> & cp & Hs & Hok & ->)|(N1 & N2 & N3 & N4 & Hok & -> & ->)]]]]; [by constructor..|].
    apply atom_literal; [by apply starts_1|simpl; lia|done].
Qed.

Lemma atom_other text cp rest1 r rest : starts text cp rest1 -> (forall k, cp = k -> 0 <= k < 0x80 -> False) ->
  A text r rest <-> ok cp /\ r = Literal cp /\ rest = rest1.
Proof.
  intros Hst Hno. assert (peeked text cp) as Hp by (right; by exists rest1).
  assert (forall k t, 0 <= k < 0x80 -> text = k :: t -> False) as Htext.
  { intros k t Hk ->. apply (Hno k); [|done]. apply (peeked_char _ _ k Hp); done. }
  split.
  - intros H. inversion H as [t|t|t|t|? cp' ? Hs Hn Hok]; subst; try (exfalso; eapply Htext; [|reflexivity]; lia).
    destruct (starts_unique _ _ _ _ _ Hs Hst) as [-> ->]. done.
  - intros (Hok & -> & ->). apply atom_literal; [done| |done]. destruct text as [|x t]; [intros []|]. simpl. intros Hx. apply (Htext x t); [lia|done].
Qed.

Lemma literal_bind d cp text pos rest : 0 <= d -> remains pattern pos rest -> (length rest < length text)%nat ->
  (forall r rest', A text r rest' <-> ok cp /\ r = Literal cp /\ rest' = rest) ->
  parses d text A (fun d' a r rest => recognises mixed d' a (L r) /\ (length rest < length text)%nat)
    (a ← Parser.literal casefold folder ci cp; mret (a, pos)).
Proof.
  intros Hd Hrem Hlen Hinv. unfold parses. eapply spends_bind.
  - eapply spends_mono; [apply (literal_spec mixed casefold fold_scalar fold_idemp d cp folder ci Hd Hwritten)| |intros a d' _ H; exact H].
    intros e [Hf ->]. split; [by left|]. intros r rest' (Hok & _)%Hinv. done.
  - intros a d' _ [Hok Ha]. apply spends_ret. exists (Literal cp), rest. cbn [fst snd]. split_and!; [|done|done|done].
    intros r rest'. rewrite Hinv. naive_solver.
Qed.

Section Nested.
Context (N : nat) (unionExpr : Z -> SM Budget (t * Z)).

(** What is needed of the parser of nested expressions: it reads shorter texts. *)
Definition nested : Prop := forall d pos text, 0 <= d -> remains pattern pos text -> (length text < N)%nat ->
  parses d text U (fun d' a r rest => recognises mixed d' a (L r) /\ (length rest <= length text)%nat) (unionExpr pos).

Context (Hnested : nested).

Lemma group_spec d pos text start : 0 <= d -> remains pattern pos text -> (length text < N)%nat ->
  parses d (40 :: text) A (fun d' a r rest => recognises mixed d' a (L r) /\ (length rest < S (length text))%nat)
    ('(a, position) ← unionExpr pos;
     c ← Parser.peek pattern position;
     if decide (c <> 41) then throw (Parser.error pattern "unbalanced '('" start) else
     '(_, position) ← Parser.next pattern position;
     mret (a, position)).
Proof.
  intros Hd Hrem Hlen. assert (forall r rest, A (40 :: text) r rest <-> U text r (41 :: rest)) as Hinv.
  { intros r rest. rewrite atom_inv by lia. naive_solver. }
  unfold parses. eapply spends_bind.
  { eapply spends_mono; [by apply (Hnested d pos text)| |intros x d' _ H; exact H]. intros e [He Hno]. split; [done|]. intros r rest H%Hinv. by eapply Hno. }
  intros [a pos1] d1 Hd1 (r & text1 & Ho & Hrem1 & Ha & Hl). cbn [fst snd] in *.
  eapply (expect_bind d1 pos1 text1 41); [done|lia|done| |].
  - intros Hnb e He. split; [done|]. intros r' rest [_ <-]%Hinv%Ho. by destruct Hnb.
  - intros t' -> Hrem2. apply spends_ret. exists r, t'. cbn [fst snd]. split_and!; [|done|done|simpl in *; lia].
    intros r' rest. rewrite Hinv, (Ho r' (41 :: rest)). naive_solver.
Qed.

Lemma class_atom d start text : 0 <= d -> remains pattern start (91 :: text) ->
  parses d (91 :: text) A (fun d' a r rest => recognises mixed d' a (L r) /\ (length rest < S (length text))%nat) (Parser.characterClass casefold pattern ci start).
Proof.
  intros Hd Hrem. assert (forall r rest, A (91 :: text) r rest <-> exists c, classG text c rest /\ r = Class c.1 c.2) as Hinv.
  { intros r rest. rewrite atom_inv by lia. naive_solver. }
  eapply spends_mono; [by apply (characterClass_spec d start text)| |].
  - intros e [He Hno]. split; [done|]. intros r rest (c & Hc & _)%Hinv. by eapply Hno.
  - intros [a pos1] d1 Hd1 (c & rest & Ho & Hrem1 & Ha & Hl). cbn [fst snd] in *. exists (Class c.1 c.2), rest. split_and!; [|done|done|simpl; lia].
    intros r rest'. rewrite Hinv. split; [intros (c' & [-> ->]%Ho & ->); done|]. intros [-> ->]. exists c. split; [by apply Ho|done].
Qed.

Lemma escape_atom d pos text start : 0 <= d -> remains pattern pos text ->
  parses d (92 :: text) A (fun d' a r rest => recognises mixed d' a (L r) /\ (length rest < S (length text))%nat)
    (if decide (pos = zlen pattern) then throw (Parser.error pattern "trailing escape" start) else
     '(cp, position) ← Parser.next pattern pos;
     a ← Parser.literal casefold folder ci cp;
     mret (a, position)).
Proof.
  intros Hd Hrem. assert (forall r rest, A (92 :: text) r rest <-> exists cp, starts text cp rest /\ ok cp /\ r = Literal cp) as Hinv.
  { intros r rest. rewrite atom_inv by lia. naive_solver. }
  unfold parses. case_decide as He.
  { apply (remains_end _ _ Hrem) in He as ->. apply spends_throw. split; [by apply known_error|]. intros r rest (cp & Hs%starts_shorter & _)%Hinv. simpl in Hs. lia. }
  assert (text <> []) as Hne by (intros Hn; by apply He, (remains_end _ _ Hrem)). eapply spends_bind.
  { eapply spends_mono; [by apply (parser_next_spec d pos text)| |intros x d' _ H; exact H]. intros e [Hk Hno]. split; [done|]. intros r rest (cp & Hs & _)%Hinv. by eapply Hno. }
  intros [cp pos1] d1 _ (r & rest & Ho & Hrem1 & -> & Ecp). cbn [fst snd] in *. subst r.
  assert (starts text cp rest) as Hs%starts_shorter by (by apply Ho). eapply literal_bind; [done|done|simpl; lia|].
  intros r rest'. rewrite Hinv. split; [intros (cp' & [-> ->]%Ho & Hok & ->); done|]. intros (Hok & -> & ->). exists cp. split; [by apply Ho|done].
Qed.

Lemma atom_spec d pos text : 0 <= d -> remains pattern pos text -> text <> [] -> (length text <= N)%nat ->
  parses d text A (fun d' a r rest => recognises mixed d' a (L r) /\ (length rest < length text)%nat) (Parser.atom casefold pattern folder ci unionExpr pos).
Proof.
  intros Hd Hrem Hne HN. unfold Parser.atom, parses. eapply spends_bind.
  { eapply spends_mono; [by apply (parser_next_spec d pos text)| |intros x d' _ H; exact H]. intros e [Hk Hno]. split; [done|]. intros r rest H.
    inversion H as [t|t|t|t|? cp' ? Hs]; subst; [..|by eapply Hno]; eapply begins_starts in Hno; try done; by simpl. }
  intros [cp pos1] d1 _ (r1 & rest1 & Ho & Hrem1 & -> & Ecp). cbn [fst snd] in *. subst r1.
  assert (starts text cp rest1) as Hst by (by apply Ho). pose proof (starts_shorter _ _ _ Hst) as Hlen.
  assert (forall k, cp = k -> 0 <= k < 0x80 -> text = k :: rest1) as Hk.
  { intros k -> Hk. destruct Hst as [_ ->]. unfold utf8. by rewrite decide_True by lia. }
  case_decide as H40; [rewrite (Hk 40 H40 ltac:(lia)) in *; apply group_spec; [done|done|simpl in HN; lia]|].
  case_decide as H91; [rewrite (Hk 91 H91 ltac:(lia)) in *; by apply class_atom|].
  case_decide as H46.
  { rewrite (Hk 46 H46 ltac:(lia)) in *. eapply spends_bind; [by apply (anyChar_spec mixed)|]. intros a d2 _ Ha. apply spends_ret.
    exists AnyChar, rest1. cbn [fst snd]. split_and!; [|done| |simpl; lia].
    - intros r rest. rewrite atom_inv by lia. naive_solver.
    - simpl. by rewrite <- any_scalar. }
  case_decide as H92; [rewrite (Hk 92 H92 ltac:(lia)) in *; by apply escape_atom|].
  eapply literal_bind; [done|done|lia|]. intros r rest. destruct (decide (0 <= cp < 0x80)) as [Hc|Hc].
  - rewrite (Hk cp eq_refl Hc), atom_inv by done. naive_solver.
  - apply atom_other; [done|]. intros k -> ?. lia.
Qed.
(** ** Sequences *)

Lemma concat_inv text rs rest : C text rs rest <->
  (rs = [] /\ rest = text /\ (text = [] \/ begins (fun c => c = 41 \/ c = 124) text))
  \/ exists r text1 r' text2 rs', rs = r' :: rs' /\ ~ begins (fun c => c = 41 \/ c = 124 \/ c = 125 \/ c = 42 \/ c = 43 \/ c = 63 \/ c = 123) text
    /\ A text r text1 /\ rep_of r text1 r' text2 /\ C text2 rs' rest.
Proof.
  split.
  - intros H. inversion H as [|? r text1 r' text2 rs' ? Hn Ha Hr Hc]; subst; [by left|right]. by exists r, text1, r', text2, rs'.
  - intros [(-> & -> & H)|(r & text1 & r' & text2 & rs' & -> & Hn & Ha & Hr & Hc)]; by econstructor.
Qed.

Lemma peeked_in text c (P : Z -> Prop) : peeked text c -> (forall k, P k -> 0 <= k < 0x80) -> P c <-> begins P text.
Proof.
  intros Hp HP. split.
  - intros Hc. pose proof (HP c Hc) as Hk. apply (peeked_char _ _ c Hp) in Hk. destruct (begins_char c text) as [t ->]; [tauto|]. done.
  - destruct text as [|x t]; [done|]. simpl. intros Hx. assert (c = x) as -> by (apply (peeked_char _ _ x Hp); [by apply HP|done]). done.
Qed.

Lemma concatStep_spec d parts pos text : 0 <= d -> remains pattern pos text -> (length text <= N)%nat ->
  spends d (Parser.concatStep casefold pattern folder ci unionExpr (parts, pos)) (fun e => known e /\ never C text)
    (fun x d' => match x with
      | inl (parts', pos') => exists a r text1, parts' = parts ++ [a] /\ recognises mixed d' a (L r) /\ remains pattern pos' text1 /\ (length text1 < length text)%nat
          /\ forall rs rest, C text rs rest <-> exists rs', rs = r :: rs' /\ C text1 rs' rest
      | inr (parts', pos') => d' = d /\ parts' = parts /\ remains pattern pos' text /\ only C text [] text
      end).
Proof.
  intros Hd Hrem HN. unfold Parser.concatStep. pose proof (remains_len _ _ _ Hrem) as [Hlen _].
  assert ((text = [] \/ begins (fun c => c = 41 \/ c = 124) text) -> only C text [] text) as Hend.
  { intros Ht rs rest. rewrite concat_inv. split; [|intros [-> ->]; by left]. intros [(-> & -> & _)|(r & t1 & r' & t2 & rs' & _ & Hn & Ha & _)]; [done|].
    destruct Ht as [->|Hb]; [|destruct text; [done|]; simpl in *; tauto]. inversion Ha as [| | | |? ? ? Hs]; subst. apply starts_shorter in Hs. simpl in Hs. lia. }
  case_decide as Hmore.
  2: { apply spends_ret. split_and!; [done|done|done|]. apply Hend. left. apply zlen_0_nil. pose proof (zlen_nonneg text). lia. }
  assert (text <> []) as Hne by (intros ->; rewrite zlen_nil in Hlen; lia). eapply peek_bind; [exact Hrem| |].
  { intros e He _ Hns. split; [done|]. intros rs rest [(_ & _ & [?|Hb])|(r & t1 & r' & t2 & rs' & _ & _ & Ha & _)]%concat_inv; [done| |].
    - destruct text as [|x t]; [done|]. simpl in Hb. eapply (begins_starts x) in Hns; [done| |]; [lia|done].
    - inversion Ha as [t|t|t|t|? cp' ? Hs]; subst; [..|by eapply Hns]; eapply begins_starts in Hns; try done; by simpl. }
  intros c Hc. pose proof (peeked_in text c (fun c => c = 41 \/ c = 124) Hc ltac:(intros k; cbv beta; lia)) as Hc1.
  pose proof (peeked_in text c (fun c => c = 41 \/ c = 124 \/ c = 125 \/ c = 42 \/ c = 43 \/ c = 63 \/ c = 123) Hc ltac:(intros k; cbv beta; lia)) as Hc2. cbv beta in Hc1, Hc2.
  case_decide as H1; [apply spends_ret; split_and!; [done|done|done|]; apply Hend; right; by apply Hc1|].
  assert (c = 125 \/ c = 42 \/ c = 43 \/ c = 63 \/ c = 123 -> never C text) as Hbad.
  { intros Hcc rs rest [(_ & _ & [?|Hb])|(r & t1 & r' & t2 & rs' & _ & Hn & _)]%concat_inv; [done|by destruct H1; apply Hc1|]. apply Hn, Hc2. tauto. }
  case_decide as H2; [apply spends_throw; split; [by apply known_error|auto]|].
  case_decide as H3; [apply spends_throw; split; [by apply known_error|]; apply Hbad; tauto|].
  assert (~ begins (fun c => c = 41 \/ c = 124 \/ c = 125 \/ c = 42 \/ c = 43 \/ c = 63 \/ c = 123) text) as Hn by (intros Hb%Hc2; tauto).
  assert (forall rs rest, C text rs rest -> exists r text1 r' text2 rs', rs = r' :: rs' /\ A text r text1 /\ rep_of r text1 r' text2 /\ C text2 rs' rest) as Hinv.
  { intros rs rest [(_ & _ & [?|Hb])|(r & t1 & r' & t2 & rs' & -> & _ & Ha & Hr & HC)]%concat_inv; [done|by destruct H1; apply Hc1|]. by exists r, t1, r', t2, rs'. }
  eapply spends_bind.
  { eapply spends_mono; [by apply (atom_spec d pos text)| |intros x d' _ H; exact H]. intros e [He Hno]. split; [done|].
    intros rs rest (r & t1 & r' & t2 & rs' & _ & Ha & _)%Hinv. by eapply Hno. }
  intros [a pos1] d1 Hd1 (r & text1 & Ho1 & Hrem1 & Ha & Hl1). cbn [fst snd] in *. eapply spends_bind.
  { eapply spends_mono; [by apply (repetition_spec d1 a r pos1 text1)| |intros x d' _ H; exact H]. intros e [He Hno]. split; [done|].
    intros rs rest (r1 & t1 & r' & t2 & rs' & _ & HA & Hr & _)%Hinv. apply Ho1 in HA as [-> ->]. by eapply Hno. }
  intros [a2 pos2] d2 Hd2 (r2 & text2 & Ho2 & Hrem2 & Ha2 & Hl2). cbn [fst snd] in *. apply spends_ret.
  exists a2, r2, text2. split_and!; [done|done|done|lia|]. intros rs rest. split.
  - intros (r1 & t1 & r' & t2 & rs' & -> & HA & Hr & HC)%Hinv. apply Ho1 in HA as [-> ->]. apply Ho2 in Hr as [-> ->]. by exists rs'.
  - intros (rs' & -> & HC). apply concat_inv. right. exists r, text1, r2, text2, rs'. split_and!; [done|done|by apply Ho1|by apply Ho2|done].
Qed.

Lemma seq_lang rs : L (Seq rs) = lcats (L <$> rs).
Proof. simpl. induction rs as [|r rs IH]; [done|]. simpl. by rewrite IH. Qed.

Lemma alt_lang rs : L (Alt rs) = lunions (L <$> rs).
Proof. simpl. induction rs as [|r rs IH]; [done|]. simpl. by rewrite IH. Qed.

Lemma recognises_all d d' parts Ls : d <= d' -> Forall2 (recognises mixed d) parts Ls -> Forall2 (recognises mixed d') parts Ls.
Proof. intros Hd H. eapply Forall2_impl; [exact H|]. intros a K. by apply recognises_mono. Qed.

Lemma concat_spec d pos text : 0 <= d -> remains pattern pos text -> (length text <= N)%nat ->
  parses d text C (fun d' a rs rest => recognises mixed d' a (L (Seq rs)) /\ (length rest <= length text)%nat) (Parser.concat casefold pattern folder ci unionExpr pos).
Proof.
  intros Hd Hrem HN. unfold Parser.concat, parses. eapply spends_bind.
  { apply (spends_while (fun st d' => 0 <= d' /\ exists done text1, remains pattern st.2 text1 /\ (length text1 <= length text)%nat
        /\ Forall2 (recognises mixed d') st.1 (L <$> done) /\ forall rs rest, C text rs rest <-> exists rs', rs = done ++ rs' /\ C text1 rs' rest)
      (fun st => Z.to_nat (zlen pattern - st.2)) _
      (fun st d' => 0 <= d' /\ exists rs rest, only C text rs rest /\ remains pattern st.2 rest /\ (length rest <= length text)%nat
        /\ Forall2 (recognises mixed d') st.1 (L <$> rs))).
    - intros [parts p] d1 (Hd1 & seen & text1 & Hrem1 & Hl & HR & Hinv). cbn [fst snd] in *.
      eapply spends_mono; [apply (concatStep_spec d1 parts p text1); [done|done|lia]| |].
      + intros e [He Hno]. split; [done|]. intros rs rest (rs' & -> & H)%Hinv. by eapply Hno.
      + intros [[parts' p']|[parts' p']] d2 Hd2 H.
        * destruct H as (a & r & text2 & -> & Ha & Hrem2 & Hl2 & Hstep). cbn [fst snd]. pose proof (remains_len _ _ _ Hrem1) as [? ?].
          pose proof (remains_len _ _ _ Hrem2) as [? ?]. split; [|unfold zlen in *; lia]. split; [lia|]. exists (seen ++ [r]), text2. split_and!; [done|lia| |].
          -- rewrite fmap_app. apply Forall2_app; [by eapply recognises_all|by constructor].
          -- intros rs rest. rewrite Hinv. setoid_rewrite Hstep. setoid_rewrite <- app_assoc. simpl. naive_solver.
        * destruct H as (-> & -> & Hrem2 & Ho). cbn [fst snd]. split; [done|]. exists seen, text1. split_and!; [|done|done|done].
          intros rs rest. rewrite Hinv. split; [intros (rs' & -> & [-> ->]%Ho); by rewrite app_nil_r|].
          intros [-> ->]. exists []. rewrite app_nil_r. split; [done|by apply Ho].
    - cbn [fst snd]. split; [done|]. exists [], text. split_and!; [done|lia|constructor|]. intros rs rest. simpl. naive_solver.
    - cbn [snd]. unfold Parser.rounds. pose proof (remains_len _ _ _ Hrem) as [Hl Hp]. pose proof (Nat.pow_gt_lin_r 2 (length pattern) ltac:(lia)).
      unfold zlen in *. simpl. lia. }
  intros [parts p] d1 Hd1 (Hd1' & rs & rest & Ho & Hrem1 & Hl & HR). cbn [fst snd] in *.
  eapply spends_bind; [by apply fold_concat|]. intros a d2 _ Ha. apply spends_ret. exists rs, rest. cbn [fst snd]. split_and!; [done|done| |done]. by rewrite seq_lang.
Qed.
(** ** Alternatives *)

Lemma alts_inv text alts rest : Alts text alts rest <->
  (alts = [] /\ rest = text /\ ~ begins (fun c => c = 124) text)
  \/ exists t rs text1 alts', text = 124 :: t /\ alts = Seq rs :: alts' /\ C t rs text1 /\ Alts text1 alts' rest.
Proof.
  split.
  - intros H. inversion H as [|t rs text1 alts' ? Hc Ha]; subst; [by left|right]. by exists t, rs, text1, alts'.
  - intros [(-> & -> & H)|(t & rs & text1 & alts' & -> & -> & Hc & Ha)]; by econstructor.
Qed.

(** A sequence ends at the end of the text, or before a closing parenthesis or a bar. *)
Definition stopped (text : list Z) : Prop := text = [] \/ begins (fun c => c = 41 \/ c = 124) text.

Lemma concat_stop text rs rest : C text rs rest -> stopped rest.
Proof. induction 1; done. Qed.

Lemma unionStep_spec d parts pos text : 0 <= d -> remains pattern pos text -> (length text <= N)%nat -> stopped text ->
  spends d (Parser.unionStep casefold pattern folder ci unionExpr (parts, pos)) (fun e => known e /\ never Alts text)
    (fun x d' => match x with
      | inl (parts', pos') => exists a rs text1, parts' = parts ++ [a] /\ recognises mixed d' a (L (Seq rs)) /\ remains pattern pos' text1 /\ (length text1 < length text)%nat
          /\ stopped text1 /\ forall alts rest, Alts text alts rest <-> exists alts', alts = Seq rs :: alts' /\ Alts text1 alts' rest
      | inr (parts', pos') => d' = d /\ parts' = parts /\ remains pattern pos' text /\ only Alts text [] text
      end).
Proof.
  intros Hd Hrem HN Hstop. unfold Parser.unionStep. eapply peek_bind; [exact Hrem| |].
  { intros e He Hne Hns. destruct Hstop as [|Hb]; [done|]. destruct text as [|x t]; [done|]. simpl in Hb. eapply (begins_starts x) in Hns; [done| |]; [lia|done]. }
  intros c Hc. pose proof (peeked_char _ _ 124 Hc ltac:(lia)) as H124. case_decide as Hd1.
  - apply H124 in Hd1 as [t ->]%begins_char. eapply next_char; [exact Hrem|lia|]. intros Hrem1.
    assert (forall alts rest, Alts (124 :: t) alts rest <-> exists rs text1 alts', alts = Seq rs :: alts' /\ C t rs text1 /\ Alts text1 alts' rest) as Hinv.
    { intros alts rest. rewrite alts_inv. simpl. naive_solver. }
    eapply spends_bind.
    { eapply spends_mono; [apply (concat_spec d (pos + 1) t); [done|done|simpl in HN; lia]| |intros x d' _ H; exact H]. intros e [He Hno]. split; [done|].
      intros alts rest (rs & text1 & alts' & _ & HC & _)%Hinv. by eapply Hno. }
    intros [a pos1] d1 _ (rs & text1 & Ho & Hrem2 & Ha & Hl). cbn [fst snd] in *. apply spends_ret. exists a, rs, text1.
    assert (C t rs text1) as HC by (by apply Ho). split_and!; [done|done|done|simpl; lia|by eapply concat_stop|]. intros alts rest. rewrite Hinv. split.
    + intros (rs' & text1' & alts' & -> & [-> ->]%Ho & H). by exists alts'.
    + intros (alts' & -> & H). by exists rs, text1, alts'.
  - apply spends_ret. split_and!; [done|done|done|]. intros alts rest. rewrite alts_inv. split; [|intros [-> ->]; left; tauto].
    intros [(-> & -> & _)|(t & rs & text1 & alts' & -> & _)]; [done|]. destruct Hd1. by apply H124.
Qed.

Lemma unionLoop_spec d a rs0 pos text : 0 <= d -> remains pattern pos text -> (length text <= N)%nat -> stopped text -> recognises mixed d a (L (Seq rs0)) ->
  spends d (whileS (Parser.rounds pattern) (Parser.unionStep casefold pattern folder ci unionExpr) ([a], pos)) (fun e => known e /\ never Alts text)
    (fun st d' => 0 <= d' /\ exists alts rest, only Alts text alts rest /\ remains pattern st.2 rest /\ (length rest <= length text)%nat
      /\ Forall2 (recognises mixed d') st.1 (L <$> Seq rs0 :: alts)).
Proof.
  intros Hd Hrem HN Hstop Ha.
  apply (spends_while (fun st d' => 0 <= d' /\ exists seen text1, remains pattern st.2 text1 /\ (length text1 <= length text)%nat /\ stopped text1
      /\ Forall2 (recognises mixed d') st.1 (L <$> Seq rs0 :: seen) /\ forall alts rest, Alts text alts rest <-> exists alts', alts = seen ++ alts' /\ Alts text1 alts' rest)
    (fun st => Z.to_nat (zlen pattern - st.2))).
  - intros [parts p] d1 (Hd1 & seen & text1 & Hrem1 & Hl & Hst & HR & Hinv). cbn [fst snd] in *.
    eapply spends_mono; [apply (unionStep_spec d1 parts p text1); [done|done|lia|done]| |].
    + intros e [He Hno]. split; [done|]. intros alts rest (alts' & -> & H)%Hinv. by eapply Hno.
    + intros [[parts' p']|[parts' p']] d2 Hd2 H.
      * destruct H as (b & rs & text2 & -> & Hb & Hrem2 & Hl2 & Hst2 & Hstep). cbn [fst snd]. pose proof (remains_len _ _ _ Hrem1) as [? ?].
        pose proof (remains_len _ _ _ Hrem2) as [? ?]. split; [|unfold zlen in *; lia]. split; [lia|]. exists (seen ++ [Seq rs]), text2. split_and!; [done|lia|done| |].
        -- rewrite app_comm_cons, fmap_app. apply Forall2_app; [by eapply recognises_all|by constructor].
        -- intros alts rest. rewrite Hinv. setoid_rewrite Hstep. setoid_rewrite <- app_assoc. simpl. naive_solver.
      * destruct H as (-> & -> & Hrem2 & Ho). cbn [fst snd]. split; [done|]. exists seen, text1. split_and!; [|done|done|done].
        intros alts rest. rewrite Hinv. split; [intros (alts' & -> & [-> ->]%Ho); by rewrite app_nil_r|].
        intros [-> ->]. exists []. rewrite app_nil_r. split; [done|by apply Ho].
  - cbn [fst snd]. split; [done|]. exists [], text. split_and!; [done|lia|done|by constructor|]. intros alts rest. simpl. naive_solver.
  - cbn [snd]. unfold Parser.rounds. pose proof (remains_len _ _ _ Hrem) as [Hl Hp]. pose proof (Nat.pow_gt_lin_r 2 (length pattern) ltac:(lia)).
    unfold zlen in *. simpl. lia.
Qed.

Lemma union_inv text r rest : U text r rest <-> exists rs text1 alts, r = union_tree (Seq rs :: alts) /\ C text rs text1 /\ Alts text1 alts rest.
Proof.
  split.
  - intros H. inversion H as [? rs text1 alts ? Hc Ha]; subst. by exists rs, text1, alts.
  - intros (rs & text1 & alts & -> & Hc & Ha). by econstructor.
Qed.

(** The automaton of the alternatives. *)
Lemma unite_all d parts trees Er : 0 <= d -> Forall2 (recognises mixed d) parts (L <$> trees) -> trees <> [] ->
  spends d (if decide (zlen parts = 1) then need parts.[0] else Parser.fold parts 0 (zlen parts) true) Er (fun a d' => recognises mixed d' a (L (union_tree trees))).
Proof.
  intros Hd HR Hne. pose proof (Forall2_length _ _ _ HR) as Hlen. rewrite length_fmap in Hlen. case_decide as H1.
  - destruct trees as [|r [|r2 trees]]; [done| |unfold zlen in H1; simpl in Hlen; lia]. destruct parts as [|a parts]; [done|].
    apply Forall2_cons in HR as [Ha _]. by eapply spends_need.
  - eapply spends_post; [by apply fold_union|]. intros a d' _. rewrite <- alt_lang. destruct trees as [|r [|r2 trees]]; [done| |done].
    unfold zlen in H1. simpl in Hlen. lia.
Qed.
End Nested.

(** ** The whole pattern *)

Lemma unionExpr_spec fuel : nested fuel (Parser.unionExpr casefold pattern folder ci fuel).
Proof.
  induction fuel as [|fuel IH]; intros d pos text Hd Hrem Hlen; [lia|]. unfold parses. cbn [Parser.unionExpr]. eapply spends_bind.
  { eapply spends_mono; [apply (concat_spec fuel _ IH d pos text); [done|done|lia]| |intros x d' _ H; exact H]. intros e [He Hno]. split; [done|].
    intros r rest (rs & text1 & alts & _ & HC & _)%union_inv. by eapply Hno. }
  intros [a pos1] d1 Hd1 (rs & text1 & Ho & Hrem1 & Ha & Hl). cbn [fst snd] in *. assert (C text rs text1) as HC by (by apply Ho).
  eapply spends_bind.
  { eapply spends_mono; [apply (unionLoop_spec fuel _ IH d1 a rs pos1 text1); [lia|done|lia|by eapply concat_stop|done]| |intros x d' _ H; exact H].
    intros e [He Hno]. split; [done|]. intros r rest (rs' & text1' & alts & _ & [-> ->]%Ho & HA)%union_inv. by eapply Hno. }
  intros [parts pos2] d2 Hd2 (Hd2' & alts & rest & Ho2 & Hrem2 & Hl2 & HR). cbn [fst snd] in *.
  eapply spends_bind; [by apply (unite_all d2 parts (Seq rs :: alts))|]. intros b d3 _ Hb. apply spends_ret.
  exists (union_tree (Seq rs :: alts)), rest. cbn [fst snd]. split_and!; [|done|done|lia]. intros r rest'. rewrite union_inv. split.
  - intros (rs' & text1' & alts' & -> & [-> ->]%Ho & [-> ->]%Ho2). done.
  - intros [-> ->]. exists rs, text1, alts. split_and!; [done|done|by apply Ho2].
Qed.

Lemma parse_spec : spends 0 (Parser.parse casefold pattern folder ci) (fun e => known e /\ forall r, ~ U pattern r [])
  (fun a d' => exists r, (forall r', U pattern r' [] <-> r' = r) /\ recognises mixed d' a (L r)).
Proof.
  unfold Parser.parse. eapply spends_bind.
  { eapply spends_mono; [apply (unionExpr_spec (Parser.rounds pattern) 0 0 pattern); [done|apply remains_start|unfold Parser.rounds; lia]| |intros x d' _ H; exact H].
    intros e [He Hno]. split; [done|]. intros r H. by eapply Hno. }
  intros [a pos] d1 _ (r & rest & Ho & Hrem & Ha & _). cbn [fst snd] in *. pose proof (remains_end _ _ Hrem) as Hend.
  destruct (decide (pos <> zlen pattern)) as [Hp|Hp].
  - apply spends_throw. split; [by apply known_error|]. intros r' [_ <-]%Ho. by apply Hp, Hend.
  - apply spends_ret. exists r. assert (rest = []) as -> by (apply Hend; lia). split; [|done]. intros r'. rewrite (Ho r' []). naive_solver.
Qed.

Lemma known_not_complex e : known e -> e <> complex.
Proof.
  intros [->|(m & p & Hm & ->)]; [done|]. unfold messages in Hm. repeat (apply elem_of_cons in Hm as [->|Hm]; [done|]). by apply not_elem_of_nil in Hm.
Qed.
End ParserSpec.

(** C3: for every pattern there are one price and one outcome of [compileRegex], whatever the budget that covers the price.  If the pattern is an expression of the
    syntax, the outcome is an automaton that matches exactly the strings of the language of its one syntax tree; otherwise it is one of the
    exceptions of the parser.  A pattern longer than 1000 bytes, or a budget below the price, gives the exception for complexity; nothing is undefined. *)
Theorem compileRegex_correct casefold pattern folder ci :
  (forall cp, is_scalar cp -> is_scalar (casefold cp)) -> (forall cp, is_scalar cp -> casefold (casefold cp) = casefold cp) ->
  fold_written folder -> is_bytes pattern ->
  exists o k, 0 <= k
  /\ (forall b, 0 <= b < int32_limit -> k <= b -> Parser.compileRegex casefold pattern folder ci (MkBudget b) = (o, MkBudget (b - k)))
  /\ (forall b, 0 <= b < int32_limit -> b < k ->
        exists b', Parser.compileRegex casefold pattern folder ci (MkBudget b) = (Throw (Parser.error pattern complex 0), b'))
  /\ (k < int32_limit -> match o with
      | Ret dfa => zlen pattern <= 1000 /\ exists r, (forall r', union_of (fold_valid folder) pattern r' [] <-> r' = r)
          /\ forall w, is_bytes w -> exists m, View.matches (makeView dfa) w = Some m /\ (m = true <-> re_lang casefold folder ci r w)
      | Throw e => 1000 < zlen pattern /\ e = Parser.error pattern complex 1000
          \/ zlen pattern <= 1000 /\ known pattern e /\ forall r, ~ union_of (fold_valid folder) pattern r []
      | Undef => False
      end).
Proof.
  intros Hsc Hid Hw Hbytes. unfold Parser.compileRegex. case_decide as Hlong.
  { exists (Throw (Parser.error pattern complex 1000)), 0. split_and!; [lia|intros b Hb _; by rewrite Z.sub_0_r|lia|auto]. }
  assert (spends 0 (a ← Parser.parse casefold pattern folder ci; toByteDfa a) (fun e => known pattern e /\ forall r, ~ union_of (fold_valid folder) pattern r [])
    (fun dfa _ => exists r, (forall r', union_of (fold_valid folder) pattern r' [] <-> r' = r) /\ compiled dfa (re_lang casefold folder ci r))) as HS.
  { eapply spends_bind; [by apply parse_spec|]. intros a d1 _ (r & Hr & Ha). eapply spends_post; [by apply toByteDfa_spec|]. intros dfa d2 _ Hc. by exists r. }
  destruct (spends_run _ _ _ HS) as (o & k & Hk & Hrun & Hless & Ho).
  exists (match o with Throw e => Throw (if decide (e = complex) then Parser.error pattern complex 0 else e) | _ => o end), k. split_and!; [done| | |].
  - intros b Hb Hkb. rewrite Hrun by done. by destruct o.
  - intros b Hb Hkb. destruct (Hless b Hb Hkb) as [b' ->]. exists b'. by rewrite decide_True.
  - intros Hkl. specialize (Ho Hkl). destruct o as [dfa|e|]; [| |done].
    + destruct Ho as (r & Hr & Hc). split; [lia|]. exists r. split; [done|]. intros w Hw'. by apply matches_compiled.
    + destruct Ho as [He Hno]. rewrite decide_False by (by eapply known_not_complex). right. split_and!; [lia|done|done].
Qed.

(** The pattern [a(b|c)*]. *)
Definition regex_sample : list Z := [97; 40; 98; 124; 99; 41; 42].

Lemma compileRegex_correct_witness : exists o k, 0 <= k
  /\ (forall b, 0 <= b < int32_limit -> k <= b -> Parser.compileRegex lower regex_sample (Some lower_folder) true (MkBudget b) = (o, MkBudget (b - k)))
  /\ (forall b, 0 <= b < int32_limit -> b < k ->
        exists b', Parser.compileRegex lower regex_sample (Some lower_folder) true (MkBudget b) = (Throw (Parser.error regex_sample complex 0), b'))
  /\ (k < int32_limit -> match o with
      | Ret dfa => zlen regex_sample <= 1000 /\ exists r, (forall r', union_of (fold_valid (Some lower_folder)) regex_sample r' [] <-> r' = r)
          /\ forall w, is_bytes w -> exists m, View.matches (makeView dfa) w = Some m /\ (m = true <-> re_lang lower (Some lower_folder) true r w)
      | Throw e => 1000 < zlen regex_sample /\ e = Parser.error regex_sample complex 1000
          \/ zlen regex_sample <= 1000 /\ known regex_sample e /\ forall r, ~ union_of (fold_valid (Some lower_folder)) regex_sample r []
      | Undef => False
      end).
Proof. apply (compileRegex_correct lower regex_sample (Some lower_folder) true lower_scalar lower_idemp lower_written). by repeat constructor. Defined.

Example regex_run : match Parser.compileRegex id regex_sample None false (MkBudget 100000) with
  | (Ret r, _) => View.matches (makeView r) [97; 98; 99; 98] = Some true /\ View.matches (makeView r) [97; 97] = Some false
  | _ => False
  end.
Proof. vm_compute. done. Qed.
